(* ===== verification/_CoqProject ===== *)
-Q . S2P
Prelude.v
Util.v
Sixpack.v
Context.v
Entry.v
Heap.v
Map.v
Ring.v
MapInv.v
MapSpec.v
MapOps.v
Shard.v
ShardInv.v
ShardSpec.v
ShardOps.v
Evict.v
ShardStore.v
Scan.v
Samples.v
MapTheorems.v
ShardTheorems.v
ScanTheorems.v
Count.v
Limits.v
Cache.v
Locks.v
CacheInv.v
CacheOps.v
CacheTheorems.v
Api.v
CacheScan.v
Buf.v
Args.v
Resp.v
RespProofs.v
Memcache.v
MemcacheProofs.v
Http.v
HttpProofs.v
Parse.v
ParseProofs.v
Conn.v
ConnProofs.v
Postgres.v
PostgresMap.v
Cmds.v
CmdTable.v
CmdFrame.v
Tuning.v
Memlimit.v
Debug.v
Server.v
Kv.v
KvRel.v
KvCmds.v
KvBatch.v
KvServer.v
KvFlush.v
DebugProofs.v
KvKeys.v
Snapshot.v
SnapshotProofs.v
LoadQueue.v
KvSave.v
KvLoad.v
PostgresText.v
PostgresProofs.v
Access.v
Hashmap.v
Cmap.v
Net.v
NetSpec.v
NetProofs.v
NetRound.v
NetClaims.v
Clients.v
NetLimit.v
NetOut.v
Main.v
Sys.v
