(* ===== verification/Prelude.v ===== *)
(** * Pogocache: a verified model of the cache server

    Pogocache is a caching server in C. A client speaks the Redis protocol
    (RESP, or inline commands), the memcache text protocol, HTTP or the Postgres
    wire protocol; every request is translated into one list of arguments and
    executed by one table of commands against a sharded in-memory cache. The
    parts, all under [src/src/], and how they interact:

    - [pogocache.c] is the engine: entries packed into one allocation, one
      robinhood hash map per shard, a spin lock per shard, batches that keep
      several locks, and the operations load, store, delete, iterate, sweep,
      clear, count, size. It calls back into the embedding program ([evicted],
      [entry] callbacks) and allocates through the functions it is given.
    - [util.c], [buf.c], [args.c] are the helpers of the protocol code: integers,
      varints, growable buffers, the argument list with borrowed and owned
      arguments.
    - [resp.c], [memcache.c], [http.c], [postgres.c] parse requests; [parse.c]
      sniffs the protocol of a connection and dispatches.
    - [conn.c] is a connection: [evdata] collects packets, runs the parser and
      the command for every complete request, and the [conn_write_*] functions
      write replies in the protocol of the connection.
    - [cmds.c] is the table of commands, from SET and GET to FLUSHALL and KEYS,
      and the background work some of them start.
    - [save.c] writes the cache to a file and loads it again, with a pool of
      threads; it compresses blocks with the lz4 library.
    - [hashmap.c] is the map in which [postgres.c] keeps the prepared statements
      and portals of a connection.
    - [net.c] is the network: threads with an event queue each, which accept
      connections, read packets, call [evdata], write what it leaves in the output
      buffer and close, with or without io_uring and TLS ([tls.c]).
    - [main.c] reads the command line, tunes what is not given
      ([performance_tuning.c]), creates the cache, starts the ticker and the
      network; [sys.c] asks the system, [stats.c] counts, [xmalloc.c] allocates.

    ** Files and what they model

    Engine, data:
    - [Prelude] tactics, hints, list and integer lemmas; [Util] the functions of
      [util.c] and their copies in the engine; [Sixpack] the six-bit keys;
      [Context] options and the floating point thresholds ([opts_to_ctx], in
      IEEE 754 binary64); [Entry] the bytes of an entry and their accessors;
      [Heap] memory as a finite map from addresses to bytes, an arbitrary
      allocator ([Env], whose law [EnvOk] is what [malloc] documents) and the log
      of the [evicted] callback.
    - [Map] the hash map ([map_insert], [map_get_bucket], [map_delete],
      [delbkt], [resize], [tryshrink]); [Ring] Robin Hood hashing for any type of
      buckets, the interface [Buckets], which this map and that of [hashmap.c]
      implement; [MapInv], [MapSpec], [MapOps] its invariant and its refinement
      of a finite map; [MapTheorems] the claims.
    - [Shard] the operations under a shard's lock ([loadop], [storeop],
      [deleteop], [iterop], [sweepop], [clearop], ...); [ShardInv], [ShardSpec],
      [ShardOps], [Evict], [ShardStore], [Scan] invariant, specification and
      refinement; [Samples] concrete states; [ShardTheorems], [ScanTheorems],
      [Count], [Limits] the claims.
    - [Cache] the whole cache: [pogocache_new], [lock], batches, the macros that
      acquire a shard and the public functions; [Locks] the interleaving of
      threads as a step relation; [CacheInv], [CacheOps], [CacheTheorems],
      [Api], [CacheScan] invariant, refinement and claims. [KeyOp] is the
      interface through which the cache uses the operations of a shard.

    Server:
    - [Buf], [Args] buffers and arguments with ownership of blocks.
    - [Resp], [Memcache], [Http], [Parse] the parsers; [RespProofs],
      [MemcacheProofs], [HttpProofs], [ParseProofs] their theorems.
    - [Postgres] the parser of the Postgres protocol: messages, the text of
      queries, parameters, prepared statements, portals, login; [PostgresMap] its
      map of parameter numbers, [PostgresText] the text of queries,
      [PostgresProofs] messages and the server with all its parsers; [Hashmap]
      the map of statements and portals; [Access] what a client without the
      password can do, in every protocol.
    - [Conn] the connection: the writers of all four protocols, [pg_respond],
      [pg_precommand], and [evdata] over the interface [Server], which says what
      the connection needs of the commands; [ConnProofs] its theorems against
      the interface [ServerOk].
    - [Cmds] every command of [cmds.c] in a state monad over the cache and the
      connection, the table of commands and [evcommand]; [CmdTable] the table
      and the matcher of KEYS; [CmdFrame] discharges [ServerOk] for the real
      commands; [Server] composes parser, connection, commands and engine.
      [Debug] the commands DEBUG and STATS, which complete the table
      ([full_server]); [DebugProofs] their theorems.
    - [Kv] the key-value store a client means to talk to, with its requests and
      replies; [KvRel] when a cache represents a store; [KvCmds], [KvBatch] every
      command against the store, single keys and locked batches; [KvServer] the
      refinement from bytes to bytes; [KvFlush], [KvKeys] the background work of
      FLUSHALL and KEYS against the store, with iterations by a callback that only
      looks.

    Snapshots:
    - [Snapshot] the functions of [save.c] that write and read blocks, over files
      and system calls that may fail or transfer only a part, and over the
      interface [Lz4] of the compressor, whose laws [Lz4Ok] are those its header
      documents; [SnapshotProofs] the format. The threads of [save] write whole
      blocks under one lock; the model runs them one after the other.
    - [LoadQueue] the caller and the threads of [load], their queue, mutex and
      condition variable as a step relation, early wake-ups included, with its
      invariant, progress and result.
    - [KvSave], [KvLoad] saving and loading against the key-value store.

    Network and start-up:
    - [Cmap] the map from descriptors to connections, threaded through the
      connections; [Net] the event loop: every stage of a round of a thread, TLS,
      the ends of background work and [net_main], in a state monad over a heap of
      connections and the interface [Kernel] of system calls, io_uring and
      OpenSSL. [NetSpec] the laws of the kernel ([KernelOk], what the manual pages
      document) and the server without an event loop, one event of one connection
      at a time; [NetProofs], [NetRound] the invariant of a thread through the
      stages of a round; [NetClaims] the theorems, and a kernel that follows a
      script, which shows that the laws can hold.
    - [Clients] many connections on one store, and the composition of everything
      from the sockets to the engine. [NetLimit] the limit of connections, with the
      threads interleaved; [NetOut] the output buffers in memory, and the counters
      of [net.c] and [stats.c].
    - [Tuning] [performance_tuning.c]; [Memlimit] the value of [--maxmemory] with
      [strtod] and double arithmetic; [Main] the option table, the passes over the
      command line, the settings, the ticker and the signal handler; [Sys] system
      queries, identifiers, allocation counts, [cleanwork] and [listening].

    ** How the model follows the code

    Every function is a definition of the same name. State is passed explicitly.
    [None] is undefined behaviour, a failed assertion or a loop that does not end
    (a read outside an allocation, a double free, a lock the caller itself
    holds), so that "returns [Some]" in a theorem says that none of these
    happens. Machine integers are [Z] with their wrap-around written out; bytes
    are [Z] between 0 and 255 in lists. The clock, the allocator and the user's
    callbacks are arbitrary. Loops that are not structural carry fuel, and the
    theorems show that the fuel is enough: probes and scans get the number of
    buckets (twice, where a deletion shifts), [read_headers], [query_loop],
    [match_loop] and the loops over a block of a snapshot the length of their
    input, [ev_loop] the number of bytes; it tells running out of turns
    ([Endless]) from undefined behaviour, and [evdata_ends] shows that the former
    never happens and that more turns change nothing. [cmap_insert] gets 2, one for the table and one for the grown table
    ([cmap_is_map]); [grow_out] 64 doublings of a capacity and [power_loop] 32 of
    an int, which are all a machine integer has. The writing loops of the network
    ([flush_loop]) end only when the kernel lets them: the computations of [Net]
    have the outcomes [Fault], for what [None] is elsewhere, [Denied], an [assert]
    that a system call succeeds, which ends the process when the kernel lacks
    resources, and [Spin], fuel used up; [round_terminates] shows that some fuel is enough for a round over a kernel
    that puts off no write forever, and [slow_reader_blocks] that none is over one
    that does. A network thread is modelled by itself, with the ends of background
    work between its rounds; the threads of FLUSHALL, DEBUG POPULATE and [save] run
    in the order of their creation. Four steps are coarser than in the code: the
    end of a batch gives back its locks at once, closing a descriptor and counting
    it off are one step of [NetLimit], the [unlink] of a work file succeeds, and the
    negation of the least integer in [i64toa] wraps.

    ** What the theorems show

    - The engine refines its specification: [pogocache_store_refines],
      [pogocache_load_refines], [pogocache_delete_refines] for every option,
      callback and allocator, with memory safety, no leak and the reports of
      evictions; what a store means to later loads and other keys. A store needs a
      shard in which no entry gets as far from its bucket as a distance byte can
      hold ([crowd_loses_entry] is what happens otherwise). Entries are read back
      as they were written ([entry_roundtrip]).
    - The hash map behaves as a finite map under insertion, replacement,
      deletion, growing and shrinking; scans visit and remove exactly what they
      should although deletion moves entries under way; counts are exact.
    - Locks: mutual exclusion and no lost lock under every interleaving.
    - Parsers: what a client sends in RESP, inline, memcache or HTTP form, or as a
      query or prepared statement of the Postgres protocol
      ([pg_query_roundtrip], [pg_prepared_roundtrip]), is parsed to exactly the
      command it stands for; every proper prefix asks for more; results stay
      within the data ([parse_command_bounds], with all four parsers). [parse_postgres_safe] says on which messages that parser is
      defined. Its two hash tables are a set and a finite map ([pmap_correct],
      [hashmap_is_map], [pg_maps_refined]).
    - Snapshots: [snapshot_roundtrip], what [save] writes is loaded again to the
      same store, less what has expired in real time, by any number of threads
      under every schedule, whenever [load] reports success; it does when no read
      returns less than the 16 bytes of a header; [load_terminates], no wake-up is lost;
      [save_is_atomic], a failed save harms nothing.
    - The connection: termination, independence of packet boundaries (as long as no
      command starts background work), replies that can be read back.
    - The network: [network_is_kv], a network thread answers all of its clients
      from one key-value store, down to the bytes on the sockets, with io_uring
      off, for every kernel that keeps the laws [KernelOk] and every way packets
      arrive, by [net_refines_sessions] (the event loop implements independent
      sessions), [server_is_kv] and the engine below; [net_round_safe], nothing
      freed is used and nothing overflows, with io_uring on or off and system calls
      that fail, and no [assert] on a system call fails while the kernel has
      resources ([grants]);
      [maxconns_respected]; [cmap_is_map]; [output_buffer_refines];
      [counts_conserved].
    - Start-up: [main_in_range], every command line exits or gives settings in
      range, and the tuning does not overflow; [main_serves], the cache it starts represents the empty store, which
      is where the theorems about the server begin; [attached_value],
      [maxmemory_units], [maxmemory_percent], [tuned_in_range],
      [system_in_range], [net_main_starts], [work_files_removed],
      [allocs_counted].
    - End to end, [server_is_kv]: any session of RESP requests, in packets cut
      anywhere, is answered byte for byte as the key-value store answers it, with
      options, expiry, counters and missing keys, as long as the hashes of the
      keys are spread well enough for the distance bytes of the maps and the low
      memory mode is off; writes fail only when memory is short. The options EXAT
      and PXAT of SET are not requests of [Kv]: the code counts them from the start
      of the machine, not of the Unix epoch ([exat_counts_from_boot]). FLUSHALL empties the store
      ([flushall_empties]) and KEYS lists exactly what matches
      ([keys_lists_matches]); DEBUG POPULATE sets every key exactly once
      ([populate_kv]); [stats_reply] is the form of the reply of STATS.
    - Access: [locked_out_does_nothing], without the password no command and no
      packet of any of the protocols changes the state of the server or opens the
      connection; [http_needs_password].
    - Where the code does not do what it means to, a theorem says exactly what it
      does instead ([Limits], [batch_count_blocks], [telnet_line_feed_hangs],
      [memcache_short_store_undefined], [http_request_gaps],
      [sniff_partial_line], [writeln_control_characters],
      [remove_first_double_free], [doubled_quote_is_lost],
      [repeated_parameter_refused], [surrogate_pairs], [expiry_tie_is_permanent],
      [oversized_block_is_lost], [slow_reader_blocks], [cmap_grows_forever],
      [rejected_tls_mark_stays], [uring_completions_swapped],
      [evict_option_ignored], [maxconns_ignores_descriptors],
      [populate_empty_range], [snapshot_deleted], [exat_counts_from_boot], ...).

    ** Not modelled

    - The parser of Postgres messages is a parameter of [Parse], [Conn] and the
      command theorems, which hold for every such function; [PostgresProofs] puts
      the real one in. Freeing the memory of a connection is not modelled.
    - Of [hashmap.c] only what the server calls; deletion, clearing and the other
      hash functions are not called.
    - The file work of SAVE and LOAD is a parameter of [run_job]; [Snapshot] models
      it.
    - Console output, and the printing helpers of [util.c], [args.c], [main.c] and
      [performance_tuning.c].
    - Of [net.c], binding the listeners ([listen_tcp], [listen_unixsock]) and the
      warm-up of the allocator; of [sys.c], the resident
      memory, the architecture and the clocks, whose readings are inputs;
      [uring.c], which asks the kernel whether it has io_uring. [xmalloc.c] aborts
      when memory is out, which is why protocol buffers always grow. [lz4.c] is a
      vendored library, the interface [Lz4] here.
    - Several network threads on one cache at the same time: [locks_exclude] and
      [maxconns_respected] are about interleaved threads, [network_is_kv] is about
      one. The sessions of the memcache, HTTP and Postgres protocols are parsed and
      executed in the model, and their parsers proved; the byte for byte refinement
      of the store is proved for RESP. *)

From Stdlib Require Export ZArith Lia List.
From stdpp Require Export base numbers list gmap strings.

#[global] Open Scope Z_scope.

(** ** Tactics of the development *)

(** [dm] is [lia] with the equations of [/] and [mod] by constants. *)
Ltac dm := Z.div_mod_to_equations; lia.

(** Splits conjunctions and existentials in the context. *)
Ltac inv_all :=
  repeat match goal with
  | H : _ ∧ _ |- _ => destruct H
  | H : ∃ _, _ |- _ => destruct H
  | H : Some _ = Some _ |- _ => injection H as H; try subst
  | H : (_, _) = (_, _) |- _ => injection H as H; try subst
  | H : None = Some _ |- _ => discriminate H
  | H : Some _ = None |- _ => discriminate H
  end.

(** Reflects the boolean comparisons of the code into propositions. *)
Ltac zb :=
  repeat match goal with
  | H : (_ =? _) = true |- _ => apply Z.eqb_eq in H
  | H : (_ =? _) = false |- _ => apply Z.eqb_neq in H
  | H : (_ <? _) = true |- _ => apply Z.ltb_lt in H
  | H : (_ <? _) = false |- _ => apply Z.ltb_ge in H
  | H : (_ <=? _) = true |- _ => apply Z.leb_le in H
  | H : (_ <=? _) = false |- _ => apply Z.leb_gt in H
  | H : (_ && _)%bool = true |- _ => apply andb_true_iff in H as [? ?]
  | H : (_ || _)%bool = false |- _ => apply orb_false_iff in H as [? ?]
  | H : negb _ = true |- _ => apply negb_true_iff in H
  | H : negb _ = false |- _ => apply negb_false_iff in H
  end.

(** Case analysis on the boolean tested by the innermost [if]. *)
Ltac case_if :=
  match goal with
  | |- context [if ?b then _ else _] =>
      match type of b with bool => let E := fresh "E" in destruct b eqn:E; zb end
  end.

Create HintDb pogo.
Create Rewrite HintDb pogo.

(** ** The error monad *)

Lemma some_bind {A B} (f : A → option B) x : Some x ≫= f = f x.
Proof. reflexivity. Qed.

(** Runs one monadic step whose result is known. The rewrite keeps the kernel
    from evaluating the steps that follow. *)
Ltac mstep := rewrite some_bind; cbv beta.

(** ** C integers *)

(** Operators of C on integers, in a scope of their own. *)
Declare Scope c_scope.
Delimit Scope c_scope with c.
Notation "a .& b" := (Z.land a b) (at level 48, left associativity) : c_scope.
Notation "a .| b" := (Z.lor a b) (at level 50, left associativity) : c_scope.
Notation "a .^ b" := (Z.lxor a b) (at level 49, left associativity) : c_scope.
Notation "a .<< b" := (Z.shiftl a b) (at level 45, left associativity) : c_scope.
Notation "a .>> b" := (Z.shiftr a b) (at level 45, left associativity) : c_scope.
#[global] Open Scope c_scope.

(** Conversions to the integer types the sources use. *)
Definition u8 (x : Z) : Z := x mod 2 ^ 8.
Definition u32 (x : Z) : Z := x mod 2 ^ 32.
Definition u64 (x : Z) : Z := x mod 2 ^ 64.
Definition i32 (x : Z) : Z := (x + 2 ^ 31) mod 2 ^ 32 - 2 ^ 31.
Definition i64 (x : Z) : Z := (x + 2 ^ 63) mod 2 ^ 64 - 2 ^ 63.

Definition INT64_MAX : Z := 2 ^ 63 - 1.
Definition INT64_MIN : Z := - 2 ^ 63.

Definition is_u8 (x : Z) : Prop := 0 <= x < 2 ^ 8.
Definition is_u32 (x : Z) : Prop := 0 <= x < 2 ^ 32.
Definition is_u64 (x : Z) : Prop := 0 <= x < 2 ^ 64.
Definition is_i64 (x : Z) : Prop := - 2 ^ 63 <= x < 2 ^ 63.

#[export] Instance is_u8_dec x : Decision (is_u8 x).
Proof. unfold is_u8. apply _. Defined.
#[export] Instance is_u32_dec x : Decision (is_u32 x).
Proof. unfold is_u32. apply _. Defined.
#[export] Instance is_u64_dec x : Decision (is_u64 x).
Proof. unfold is_u64. apply _. Defined.
#[export] Instance is_i64_dec x : Decision (is_i64 x).
Proof. unfold is_i64. apply _. Defined.

Lemma u8_id x : is_u8 x → u8 x = x.
Proof. intros. unfold u8. now apply Z.mod_small. Qed.
Lemma u32_id x : is_u32 x → u32 x = x.
Proof. intros. unfold u32. now apply Z.mod_small. Qed.
Lemma u64_id x : is_u64 x → u64 x = x.
Proof. intros. unfold u64. now apply Z.mod_small. Qed.
Lemma i64_id x : is_i64 x → i64 x = x.
Proof. unfold is_i64, i64. intros. rewrite Z.mod_small; lia. Qed.
Lemma u8_range x : is_u8 (u8 x).
Proof. unfold u8, is_u8. apply Z.mod_pos_bound. lia. Qed.
Lemma u32_range x : is_u32 (u32 x).
Proof. unfold u32, is_u32. apply Z.mod_pos_bound. lia. Qed.
Lemma u64_range x : is_u64 (u64 x).
Proof. unfold u64, is_u64. apply Z.mod_pos_bound. lia. Qed.
Lemma i64_range x : is_i64 (i64 x).
Proof.
  unfold i64, is_i64. pose proof (Z.mod_pos_bound (x + 2 ^ 63) (2 ^ 64)). lia.
Qed.
#[export] Hint Resolve u8_range u32_range u64_range i64_range : pogo.

(** A signed value read back from its unsigned representation. *)
Lemma i64_u64 x : i64 (u64 x) = i64 x.
Proof. unfold i64, u64. f_equal. now rewrite Zplus_mod_idemp_l. Qed.
Lemma u64_i64 x : u64 (i64 x) = u64 x.
Proof.
  unfold i64, u64. rewrite Zminus_mod_idemp_l.
  now replace (x + 2 ^ 63 - 2 ^ 63) with x by lia.
Qed.

(** ** Bits and arithmetic *)

(** Disjoint bit ranges: [lor] of a shifted word and a short word is a sum. *)
Lemma lor_shift_add a b k :
  0 <= k → 0 <= b < 2 ^ k → Z.lor (a * 2 ^ k) b = a * 2 ^ k + b.
Proof.
  intros Hk Hb. symmetry. rewrite <- Z.lxor_lor; [apply Z.add_nocarry_lxor|].
  all: rewrite <- Z.shiftl_mul_pow2 by lia; apply Z.bits_inj'; intros n Hn;
    rewrite Z.land_spec, Z.shiftl_spec, Z.bits_0 by lia.
  all: destruct (decide (n < k)) as [|Hnk];
    [rewrite (Z.testbit_neg_r a) by lia; reflexivity|].
  all: rewrite <- (Z.mod_small b (2 ^ k)) by lia;
    rewrite Z.mod_pow2_bits_high by lia; apply andb_false_r.
Qed.

Lemma lor_add_shift a b k :
  0 <= k → 0 <= b < 2 ^ k → Z.lor b (a * 2 ^ k) = a * 2 ^ k + b.
Proof. intros. rewrite Z.lor_comm. now apply lor_shift_add. Qed.

Lemma land_mask a k : 0 <= k → Z.land a (2 ^ k - 1) = a mod 2 ^ k.
Proof. intros. rewrite <- Z.land_ones by lia. f_equal. rewrite Z.ones_equiv. lia. Qed.

Lemma shiftr_div a k : 0 <= k → Z.shiftr a k = a / 2 ^ k.
Proof. apply Z.shiftr_div_pow2. Qed.
Lemma shiftl_mul a k : 0 <= k → Z.shiftl a k = a * 2 ^ k.
Proof. apply Z.shiftl_mul_pow2. Qed.

(** The sign test of the code, [(a ^ b) < 0]. *)
Lemma lxor_neg a b : Z.lxor a b < 0 ↔ (a < 0 ∧ 0 <= b) ∨ (0 <= a ∧ b < 0).
Proof. pose proof (Z.lxor_nonneg a b). lia. Qed.

(** ** Bytes *)

(** A byte is a [Z]; memory is a list of bytes. *)
Abbreviation bytes := (list Z).
Definition bytes_ok (bs : bytes) : Prop := Forall is_u8 bs.

Lemma bytes_ok_app a b : bytes_ok (a ++ b) ↔ bytes_ok a ∧ bytes_ok b.
Proof. apply Forall_app. Qed.
Lemma bytes_ok_cons a b : bytes_ok (a :: b) ↔ is_u8 a ∧ bytes_ok b.
Proof. apply Forall_cons. Qed.
#[export] Hint Rewrite bytes_ok_app bytes_ok_cons : pogo.

(** The bytes of a string literal of the sources. *)
Definition str (s : string) : bytes :=
  (λ a, Z.of_N (Ascii.N_of_ascii a)) <$> String.list_ascii_of_string s.
Arguments str s%_string_scope.

(** Little-endian images of an [n]-byte integer, as [memcpy] copies them. *)
Fixpoint le_put (n : nat) (x : Z) : bytes :=
  match n with
  | O => []
  | S n => u8 x :: le_put n (x / 256)
  end.

Fixpoint le_get (bs : bytes) : Z :=
  match bs with
  | [] => 0
  | b :: bs => b + 256 * le_get bs
  end.

Lemma length_le_put n x : length (le_put n x) = n.
Proof. revert x; induction n; intros; cbn; congruence. Qed.

Lemma le_put_ok n x : bytes_ok (le_put n x).
Proof.
  revert x; induction n; intros; cbn [le_put]; constructor; [apply u8_range|apply IHn].
Qed.

Lemma le_get_put n x : le_get (le_put n x) = x mod 256 ^ Z.of_nat n.
Proof.
  revert x; induction n as [|n IH]; intros x; cbn [le_put le_get].
  - rewrite Z.mod_1_r. reflexivity.
  - rewrite IH, Nat2Z.inj_succ, Z.pow_succ_r by lia.
    rewrite Z.rem_mul_r by lia. reflexivity.
Qed.

Lemma le_get_put_id n x : 0 <= x < 256 ^ Z.of_nat n → le_get (le_put n x) = x.
Proof. intros. rewrite le_get_put. now apply Z.mod_small. Qed.

Lemma le_get_range bs : bytes_ok bs → 0 <= le_get bs < 256 ^ Z.of_nat (length bs).
Proof.
  induction 1 as [|b bs Hb _ IH]; cbn [le_get length]; [lia|].
  rewrite Nat2Z.inj_succ, Z.pow_succ_r by lia. unfold is_u8 in Hb. lia.
Qed.
#[export] Hint Resolve le_put_ok : pogo.

(** Lexicographic comparison of [memcmp], as its sign, over the common
    prefix of two arrays. *)
Fixpoint memcmp (a b : bytes) : Z :=
  match a, b with
  | x :: a, y :: b => if x =? y then memcmp a b else if x <? y then -1 else 1
  | _, _ => 0
  end.

Lemma memcmp_eq a b : length a = length b → memcmp a b = 0 ↔ a = b.
Proof.
  revert b; induction a as [|x a IH]; intros [|y b] Hl; try discriminate; [easy|].
  injection Hl as Hl. cbn. case_if.
  - subst. rewrite IH by easy. split; [congruence|]. now injection 1.
  - case_if; split; congruence.
Qed.

(** ** Lists *)

(** The item of an option, as a list. *)
Definition opt_list {A} (o : option A) : list A :=
  match o with Some x => [x] | None => [] end.

(** The first index from [i] on that satisfies a property, for loops that
    terminate at the first hit. *)
Lemma first_hit (P : Z → Prop) `{!∀ i, Decision (P i)} (n : nat) :
  (∃ k, 0 <= k < Z.of_nat n ∧ P k) →
  ∃ k, 0 <= k < Z.of_nat n ∧ P k ∧ ∀ j, 0 <= j < k → ¬ P j.
Proof.
  induction n as [|n IH]; intros (k & Hk & HP); [lia|].
  destruct (decide (Exists P (seqZ 0 (Z.of_nat n)))) as [Hex|Hno].
  - apply Exists_exists in Hex as (j & Hj & HPj). apply elem_of_seqZ in Hj.
    destruct IH as (k' & ? & ? & ?); [exists j; split; [lia|easy]|].
    exists k'. split; [lia|]. auto.
  - assert (∀ j, 0 <= j < Z.of_nat n → ¬ P j) as Hno'.
    { intros j Hj HPj. apply Hno, Exists_exists. exists j. rewrite elem_of_seqZ.
      split; [lia|easy]. }
    exists (Z.of_nat n). assert (k = Z.of_nat n) as ->.
    { destruct (decide (k < Z.of_nat n)); [|lia]. now apply Hno' in HP; [|lia]. }
    split; [lia|]. split; [easy|]. exact Hno'.
Qed.

(** Exhaustive check of a decidable property of the integers below a bound. *)
Lemma forallb_below (P : Z → bool) (n : Z) :
  forallb P (seqZ 0 n) = true → ∀ x, 0 <= x < n → P x = true.
Proof.
  intros H x Hx. rewrite forallb_forall in H. apply H.
  apply list_elem_of_In, elem_of_seqZ. lia.
Qed.

(** Lexicographic order on byte strings, as -1, 0 or 1. *)
Fixpoint lexcmp (a b : bytes) : Z :=
  match a, b with
  | [], [] => 0
  | [], _ :: _ => -1
  | _ :: _, [] => 1
  | x :: a, y :: b => if x =? y then lexcmp a b else if x <? y then -1 else 1
  end.

(** [memcmp] over the common prefix, then the lengths: the idiom of the code. *)
Lemma memcmp_lexcmp a b :
  (if memcmp a b =? 0 then
     if (length a <? length b)%nat then -1
     else if (length b <? length a)%nat then 1 else 0
   else memcmp a b) = lexcmp a b.
Proof.
  revert b; induction a as [|x a IH]; intros [|y b]; try reflexivity.
  cbn [memcmp lexcmp]. destruct (x =? y); [|now destruct (x <? y)]. rewrite <- IH.
  reflexivity.
Qed.

Lemma lexcmp_eq a b : lexcmp a b = 0 ↔ a = b.
Proof.
  revert b; induction a as [|x a IH]; intros [|y b]; cbn; try easy.
  case_if; [subst; rewrite IH; split; [congruence|now injection 1]|].
  case_if; split; congruence.
Qed.

Lemma take_put n x l : take n (le_put n x ++ l) = le_put n x.
Proof. apply take_app_length'. now rewrite length_le_put. Qed.
Lemma drop_put n x l : drop n (le_put n x ++ l) = l.
Proof. apply drop_app_length'. now rewrite length_le_put. Qed.
Lemma i64_get_put x : is_i64 x → i64 (le_get (le_put 8 x)) = x.
Proof.
  intros. rewrite le_get_put. change (256 ^ Z.of_nat 8) with (2 ^ 64).
  fold (u64 x). now rewrite i64_u64, i64_id.
Qed.
#[export] Hint Rewrite take_put drop_put : pogo.
