(* ===== verification/Util.v ===== *)
(** * Util: integer, hash and codec helpers

    The helpers of [src/src/util.c] and the copies of them that the standalone
    engine [src/src/pogocache.c] carries: pointer packing, hashing, saturating
    arithmetic, variable length integers, decimal printing and checksums. *)

From S2P Require Import Prelude.

(** ** Clock *)

(** [nanotime]: seconds and nanoseconds of a [timespec] as nanoseconds. *)
Definition nanotime (tv_sec tv_nsec : Z) : Z :=
  i64 (i64 (tv_sec * 1000000000) + tv_nsec).

(** ** Pointers in 48 bits ([PTRSIZE == 6]) *)

(** [load_ptr]: a pointer from six unaligned bytes. *)
Definition load_ptr (data : bytes) : Z :=
  let d i := nth i data 0 in
  let uptr := 0 in
  let uptr := uptr .| (d 0%nat .<< 0) in
  let uptr := uptr .| (d 1%nat .<< 8) in
  let uptr := uptr .| (d 2%nat .<< 16) in
  let uptr := uptr .| (d 3%nat .<< 24) in
  let uptr := uptr .| (d 4%nat .<< 32) in
  let uptr := uptr .| (d 5%nat .<< 40) in
  uptr.

(** [store_ptr]: the six low bytes of a pointer. *)
Definition store_ptr (uptr : Z) : bytes :=
  [(uptr .>> 0) .& 255; (uptr .>> 8) .& 255; (uptr .>> 16) .& 255;
   (uptr .>> 24) .& 255; (uptr .>> 32) .& 255; (uptr .>> 40) .& 255].

(** ** Hashes *)

Definition rotl31 (x : Z) : Z := u64 (x .<< 31) .| (x .>> 33).

Definition th64_r : Z := 0x14020a57acced8b7.

(** First loop of [th64]: eight bytes at a time; second loop: one at a time. *)
Fixpoint th64_loop (data : bytes) (h : Z) : Z :=
  match data with
  | b0 :: b1 :: b2 :: b3 :: b4 :: b5 :: b6 :: b7 :: rest =>
      let x := le_get [b0; b1; b2; b3; b4; b5; b6; b7] in
      let x := u64 (x * th64_r) in
      let x := rotl31 x in
      let h := u64 (h * th64_r) .^ x in
      let h := rotl31 h in
      th64_loop rest h
  | _ => fold_left (λ h b, u64 (h * th64_r) .^ b) data h
  end.

Definition th64 (data : bytes) (seed : Z) : Z :=
  let h := th64_loop data seed in
  let h := u64 (u64 (h * th64_r) + Z.of_nat (length data)) in
  let h := h .^ (h .>> 31) in
  let h := u64 (h * th64_r) in
  let h := h .^ (h .>> 31) in
  let h := u64 (h * th64_r) in
  let h := h .^ (h .>> 31) in
  u64 (h * th64_r).

Definition mix13 (key : Z) : Z :=
  let key := key .^ (key .>> 30) in
  let key := u64 (key * 0xbf58476d1ce4e5b9) in
  let key := key .^ (key .>> 27) in
  let key := u64 (key * 0x94d049bb133111eb) in
  key .^ (key .>> 31).

(** [rand_next]: the new seed and the random number. *)
Definition rand_next (seed : Z) : Z * Z :=
  let seed := u64 (u64 (seed * 6364136223846793005) + 1) in
  (seed, mix13 seed).

Definition tolower (c : Z) : Z := if (65 <=? c) && (c <=? 90) then c + 32 else c.

(** [char] is signed on the x86-64 targets; a byte from 128 up is negative and
    is sign extended when it meets an [int] or a [uint32_t]. *)
Definition schar (b : Z) : Z := if b <? 128 then b else b - 256.

Definition fnv1a_case (buf : bytes) : Z :=
  fold_left (λ hash b, u32 ((hash .^ u32 (tolower (schar b))) * 0x01000193))
    buf 0x811c9dc5.

(** [morris_incr]: probabilistic counter, clipped to 31. *)
Definition morris_incr (morris rand : Z) : Z :=
  if 31 <=? morris then 31
  else u8 (morris + (if rand .& ((1 .<< morris) - 1) =? 0 then 1 else 0)).

(** ** Saturating arithmetic *)

Definition int64_add_clamp (a b : Z) : Z :=
  if negb (a .^ b <? 0) then
    if 0 <? a then
      if INT64_MAX - a <? b then INT64_MAX else i64 (a + b)
    else if b <? INT64_MIN - a then INT64_MIN
    else i64 (a + b)
  else i64 (a + b).

Definition int64_mul_clamp (a b : Z) : Z :=
  if negb (a =? 0) || negb (b =? 0) then
    if 0 <? a then
      if (0 <? b) && (Z.quot INT64_MAX b <? a) then INT64_MAX
      else if (b <? 0) && (b <? Z.quot INT64_MIN a) then INT64_MIN
      else i64 (a * b)
    else
      if (0 <? b) && (a <? Z.quot INT64_MIN b) then INT64_MIN
      else if (b <? 0) && (a <? Z.quot INT64_MAX b) then INT64_MAX
      else i64 (a * b)
  else i64 (a * b).

(** ** Variable length integers *)

(** The [do ... while (x >= 128)] loop of [varint_write_u64]; ten rounds are
    enough for 64 bits. *)
Fixpoint varint_write_loop (fuel : nat) (x : Z) : bytes :=
  match fuel with
  | O => []
  | S fuel =>
      let b := u8 x .| 128 in
      let x := x .>> 7 in
      if 128 <=? x then b :: varint_write_loop fuel x else [b; u8 x]
  end.

(** [varint_write_u64]: the bytes written; the result of the C function is
    their number. *)
Definition varint_write_u64 (x : Z) : bytes :=
  if x <? 128 then [x] else varint_write_loop 10 x.

(** The [while (i < len && i < 10)] loop of [varint_read_u64]. *)
Fixpoint varint_read_loop (fuel : nat) (data : bytes) (i : Z) (x : Z) : Z * Z :=
  match fuel with
  | O => (-1, x)
  | S fuel =>
      match data with
      | [] => (0, x)
      | b :: data =>
          let x := x .| u64 ((b .& 127) .<< (7 * i)) in
          if b <? 128 then (i + 1, x) else varint_read_loop fuel data (i + 1) x
      end
  end.

(** [varint_read_u64]: the number of bytes read ([0] too short, [-1] too
    long) and the value. [len] is the length of [data]. *)
Definition varint_read_u64 (data : bytes) : Z * Z :=
  match data with
  | b :: _ => if b <? 128 then (1, b) else varint_read_loop 10 data 0 0
  | [] => varint_read_loop 10 data 0 0
  end.

Definition varint_write_i64 (x : Z) : bytes :=
  let ux := u64 (u64 x .<< 1) in
  let ux := if x <? 0 then u64 (Z.lnot ux) else ux in
  varint_write_u64 ux.

Definition varint_read_i64 (data : bytes) : Z * Z :=
  let '(n, ux) := varint_read_u64 data in
  let x := i64 (ux .>> 1) in
  (n, if ux .& 1 =? 0 then x else Z.lnot x).

(** ** Fixed width integers *)

Definition write_u64 (x : Z) : bytes :=
  [(x .>> 0) .& 255; (x .>> 8) .& 255; (x .>> 16) .& 255; (x .>> 24) .& 255;
   (x .>> 32) .& 255; (x .>> 40) .& 255; (x .>> 48) .& 255; (x .>> 56) .& 255].

Definition read_u64 (data : bytes) : Z :=
  let d i := nth i data 0 in
  (d 0%nat .<< 0) .| (d 1%nat .<< 8) .| (d 2%nat .<< 16) .| (d 3%nat .<< 24) .|
  (d 4%nat .<< 32) .| (d 5%nat .<< 40) .| (d 6%nat .<< 48) .| (d 7%nat .<< 56).

Definition write_u32 (x : Z) : bytes :=
  [(x .>> 0) .& 255; (x .>> 8) .& 255; (x .>> 16) .& 255; (x .>> 24) .& 255].

Definition read_u32 (data : bytes) : Z :=
  let d i := nth i data 0 in
  (d 0%nat .<< 0) .| (d 1%nat .<< 8) .| (d 2%nat .<< 16) .| (d 3%nat .<< 24).

(** ** CRC-32 *)

(** One bit of the table construction, [(c&1)?0xedb88320L^(c>>1):c>>1]. *)
Definition crc_step (c : Z) : Z :=
  if c .& 1 =? 0 then c .>> 1 else 0xedb88320 .^ (c .>> 1).

Definition crc_entry (n : Z) : Z := Nat.iter 8 crc_step n.

(** The thread local [table]. *)
Definition crc_table : list Z := map crc_entry (seqZ 0 256).

Definition crc32 (data : bytes) : Z :=
  let crc := fold_left (λ crc b,
      nth (Z.to_nat ((crc .^ b) .& 255)) crc_table 0 .^ (crc .>> 8))
    data 0xffffffff in
  crc .^ 0xffffffff.

(** ** Decimal text *)

(** The digits of [u64toa], least significant first. *)
Fixpoint u64_digits (fuel : nat) (x : Z) : bytes :=
  match fuel with
  | O => []
  | S fuel =>
      (48 + x mod 10) :: (if 0 <? x / 10 then u64_digits fuel (x / 10) else [])
  end.

(** [u64toa]: the characters stored; the loop and the reversal. Twenty
    digits are enough for 64 bits. *)
Definition u64toa (x : Z) : bytes :=
  if x <? 10 then [48 + x] else rev (u64_digits 20 x).

(** [i64toa]. The negation of the least integer overflows, which the C standard
    leaves undefined; it wraps here, as it does on the machine. *)
Definition i64toa (x : Z) : bytes :=
  if x <? 0 then 45 :: u64toa (u64 (i64 (x * -1))) else u64toa x.

(** A digit and eight digits of [%08x]. *)
Definition hex_digit (x : Z) : Z := if x <? 10 then 48 + x else 87 + x.
Definition hex8 (x : Z) : bytes := (λ i, hex_digit ((x .>> (4 * i)) .& 15)) <$> [7; 6; 5; 4; 3; 2; 1; 0].

(** C's [isspace] in the "C" locale. *)
Definition isspace (c : Z) : bool := (c =? 32) || ((9 <=? c) && (c <=? 13)).
Definition isdigit (c : Z) : bool := (48 <=? c) && (c <=? 57).

(** The digits at the front of a C string: their value and what follows. *)
Fixpoint scan_digits (s : bytes) (acc : Z) : Z * bytes :=
  match s with
  | c :: s' => if isdigit c then scan_digits s' (10 * acc + (c - 48)) else (acc, s)
  | [] => (acc, [])
  end.

(** Leading white space of [strtoll]. *)
Fixpoint skip_space (s : bytes) : bytes :=
  match s with
  | c :: s' => if isspace c then skip_space s' else s
  | [] => []
  end.

(** The part of [strtoll]/[strtoull] with base 10 that both share: optional
    sign, digits. [None] when there is no number, so [end] is the start. *)
Definition scan_number (s : bytes) : option (bool * Z * bytes) :=
  let s := skip_space s in
  let '(neg, s) := match s with
    | c :: s' =>
        if c =? 45 then (true, s') else if c =? 43 then (false, s') else (false, s)
    | [] => (false, s)
    end in
  match s with
  | c :: _ => if isdigit c then let '(v, r) := scan_digits s 0 in Some (neg, v, r)
              else None
  | [] => None
  end.

(** The C string in a buffer that ends with a NUL. *)
Fixpoint c_str (s : bytes) : bytes :=
  match s with
  | c :: s' => if c =? 0 then [] else c :: c_str s'
  | [] => []
  end.

(** [strtoll(buf, &end, 10)]: the value, whether [errno] was set and the
    number of characters up to [end]. *)
Definition strtoll (buf : bytes) : Z * bool * nat :=
  let s := c_str buf in
  match scan_number s with
  | None => (0, false, 0%nat)
  | Some (neg, v, r) =>
      let n := (length s - length r)%nat in
      let v := if neg then - v else v in
      if v <? INT64_MIN then (INT64_MIN, true, n)
      else if INT64_MAX <? v then (INT64_MAX, true, n)
      else (v, false, n)
  end.

Definition strtoull (buf : bytes) : Z * bool * nat :=
  let s := c_str buf in
  match scan_number s with
  | None => (0, false, 0%nat)
  | Some (neg, v, r) =>
      let n := (length s - length r)%nat in
      if 2 ^ 64 - 1 <? v then (2 ^ 64 - 1, true, n)
      else (if neg then u64 (- v) else v, false, n)
  end.

(** [atoi], which is [strtol] cut to an [int]. *)
Definition atoi (s : bytes) : Z := i32 (strtoll s).1.1.

(** [parse_i64]: whether the whole of [data] is a number, and its value. *)
Definition parse_i64 (data : bytes) : bool * Z :=
  if (21 <? length data)%nat then (false, 0)
  else
    let '(x, errno, n) := strtoll data in
    (negb errno && (n =? length data)%nat, x).

Definition parse_u64 (data : bytes) : bool * Z :=
  if (21 <? length data)%nat then (false, 0)
  else if nth 0 data 0 =? 45 then (false, 0)
  else
    let '(x, errno, n) := strtoull data in
    (negb errno && (n =? length data)%nat, x).

(** [argeq_bytes]: case-insensitive equality with a lower case C string. *)
Fixpoint argeq_bytes (data cstr : bytes) : bool :=
  match data, cstr with
  | [], [] => true
  | p :: data, c :: cstr => (tolower (schar p) =? c) && argeq_bytes data cstr
  | _, _ => false
  end.

(** ** Pointers and fixed width integers *)

Lemma shiftr_land_byte x k : 0 <= k → (x .>> k) .& 255 = x / 2 ^ k mod 256.
Proof.
  intros. change 255 with (2 ^ 8 - 1). rewrite land_mask, shiftr_div by lia. easy.
Qed.

(** A little-endian load written as a chain of [x |= data[i] << 8*i]. *)
Lemma le_chain x b k :
  0 <= k → 0 <= x < 2 ^ k → is_u8 b →
  x .| (b .<< k) = x + b * 2 ^ k ∧ 0 <= x + b * 2 ^ k < 2 ^ (k + 8).
Proof.
  intros Hk Hx Hb. unfold is_u8 in Hb.
  rewrite shiftl_mul, lor_add_shift, Z.pow_add_r by lia. nia.
Qed.

Ltac le_chain_tac :=
  repeat match goal with
  | |- context [?x .| (?b .<< ?k)] =>
      let H := fresh in
      assert (x .| (b .<< k) = x + b * 2 ^ k ∧ 0 <= x + b * 2 ^ k < 2 ^ (k + 8))
        as [-> H] by (apply le_chain; [lia|cbn in *; lia|easy]); cbn [Z.add] in H
  end.

Lemma nth_ok (bs : bytes) i : bytes_ok bs → is_u8 (nth i bs 0).
Proof.
  intros H. destruct (nth_in_or_default i bs 0) as [Hin| ->]; [|unfold is_u8; lia].
  revert Hin. rewrite <- list_elem_of_In. apply Forall_forall. exact H.
Qed.

Lemma store_ptr_le p : store_ptr p = le_put 6 p.
Proof.
  unfold store_ptr. rewrite !shiftr_land_byte by lia. cbn [le_put]. unfold u8.
  rewrite !Z.div_div by lia. now rewrite Z.div_1_r.
Qed.

Lemma length_store_ptr p : length (store_ptr p) = 6%nat.
Proof. reflexivity. Qed.

Lemma load_ptr_le data :
  bytes_ok data → length data = 6%nat → load_ptr data = le_get data.
Proof.
  intros Hok Hl. unfold load_ptr.
  do 6 (destruct data as [|? data]; [discriminate|]). destruct data; [|discriminate].
  unfold bytes_ok in Hok. repeat rewrite Forall_cons in Hok.
  destruct Hok as (H0 & H1 & H2 & H3 & H4 & H5 & _).
  cbn [nth le_get]. rewrite Z.lor_0_l, Z.shiftl_0_r. unfold is_u8 in *.
  le_chain_tac. lia.
Qed.

Lemma load_store_ptr_id p : 0 <= p < 2 ^ 48 → load_ptr (store_ptr p) = p.
Proof.
  intros. rewrite load_ptr_le, store_ptr_le by
    (rewrite ?store_ptr_le; auto using le_put_ok, length_le_put).
  now apply le_get_put_id.
Qed.

(** A pointer below 2^48 survives being stored in the six bytes of a
    bucket and loaded again. *)
Theorem load_store_ptr p : 0 <= p < 2 ^ 48 → load_ptr (store_ptr p) = p.
Proof. apply load_store_ptr_id. Qed.

Lemma load_store_ptr_witness : load_ptr (store_ptr 0x7f1234567890) = 0x7f1234567890.
Proof. apply (load_store_ptr 0x7f1234567890). vm_compute. split; congruence. Defined.

Lemma write_u64_le x : write_u64 x = le_put 8 x.
Proof.
  unfold write_u64. rewrite !shiftr_land_byte by lia. cbn [le_put]. unfold u8.
  rewrite !Z.div_div by lia. now rewrite Z.div_1_r.
Qed.

Lemma write_u32_le x : write_u32 x = le_put 4 x.
Proof.
  unfold write_u32. rewrite !shiftr_land_byte by lia. cbn [le_put]. unfold u8.
  rewrite !Z.div_div by lia. now rewrite Z.div_1_r.
Qed.

Lemma read_u64_le data :
  bytes_ok data → length data = 8%nat → read_u64 data = le_get data.
Proof.
  intros Hok Hl. unfold read_u64.
  do 8 (destruct data as [|? data]; [discriminate|]). destruct data; [|discriminate].
  unfold bytes_ok in Hok. repeat rewrite Forall_cons in Hok.
  destruct Hok as (H0 & H1 & H2 & H3 & H4 & H5 & H6 & H7 & _).
  cbn [nth le_get]. rewrite Z.shiftl_0_r. unfold is_u8 in *. le_chain_tac. lia.
Qed.

Lemma read_u32_le data :
  bytes_ok data → length data = 4%nat → read_u32 data = le_get data.
Proof.
  intros Hok Hl. unfold read_u32.
  do 4 (destruct data as [|? data]; [discriminate|]). destruct data; [|discriminate].
  unfold bytes_ok in Hok. repeat rewrite Forall_cons in Hok.
  destruct Hok as (H0 & H1 & H2 & H3 & _).
  cbn [nth le_get]. rewrite Z.shiftl_0_r. unfold is_u8 in *. le_chain_tac. lia.
Qed.

Lemma read_write_u64 x : is_u64 x → read_u64 (write_u64 x) = x.
Proof.
  intros. rewrite read_u64_le, write_u64_le by
    (rewrite ?write_u64_le; auto using le_put_ok, length_le_put).
  apply le_get_put_id. unfold is_u64 in *. cbn. lia.
Qed.

Lemma read_write_u32 x : is_u32 x → read_u32 (write_u32 x) = x.
Proof.
  intros. rewrite read_u32_le, write_u32_le by
    (rewrite ?write_u32_le; auto using le_put_ok, length_le_put).
  apply le_get_put_id. unfold is_u32 in *. cbn. lia.
Qed.

(** ** Saturating arithmetic *)

(** The nearest 64-bit integer. *)
Definition clamp64 (x : Z) : Z := Z.max INT64_MIN (Z.min INT64_MAX x).

Lemma int64_add_clamp_eq a b :
  is_i64 a → is_i64 b → int64_add_clamp a b = clamp64 (a + b).
Proof.
  intros Ha Hb. pose proof (lxor_neg a b) as Hx.
  unfold int64_add_clamp, clamp64, is_i64, INT64_MAX, INT64_MIN in *.
  destruct (a .^ b <? 0) eqn:E; zb; cbn [negb]; repeat case_if;
    rewrite ?i64_id by (unfold is_i64; lia); lia.
Qed.

(** [int64_add_clamp] is exact addition clamped to the 64-bit range; no
    intermediate computation overflows. *)
Theorem int64_add_clamp_spec a b :
  is_i64 a → is_i64 b → int64_add_clamp a b = clamp64 (a + b).
Proof. apply int64_add_clamp_eq. Qed.

Lemma int64_add_clamp_witness :
  int64_add_clamp INT64_MAX 5 = INT64_MAX ∧ clamp64 (INT64_MAX + 5) = INT64_MAX.
Proof.
  split; [|reflexivity]. rewrite (int64_add_clamp_spec INT64_MAX 5); [reflexivity| |];
    vm_compute; split; congruence.
Defined.

Lemma mul_le_quot a b m : 0 <= m → 0 < b → Z.quot m b < a ↔ m < a * b.
Proof.
  intros. rewrite Z.quot_div_nonneg by lia. split; intros.
  - pose proof (Z.mul_succ_div_gt m b). nia.
  - apply Z.div_lt_upper_bound; nia.
Qed.

(** [int64_mul_clamp] is exact multiplication clamped to the 64-bit
    range, for every sign combination. *)
Theorem int64_mul_clamp_spec a b :
  is_i64 a → is_i64 b → int64_mul_clamp a b = clamp64 (a * b).
Proof.
  intros Ha Hb. unfold is_i64 in *.
  pose proof (mul_le_quot a b INT64_MAX) as H1.
  pose proof (mul_le_quot (- b) a (2 ^ 63)) as H2.
  pose proof (mul_le_quot (- a) b (2 ^ 63)) as H3.
  pose proof (mul_le_quot (- a) (- b) INT64_MAX) as H4.
  assert (b < 0 → Z.quot INT64_MAX b = - Z.quot INT64_MAX (- b)) as Hq.
  { intros. rewrite Z.quot_opp_r by lia. lia. }
  assert (∀ x, x ≠ 0 → Z.quot INT64_MIN x = - Z.quot (2 ^ 63) x) as Hm.
  { intros. unfold INT64_MIN. now rewrite Z.quot_opp_l. }
  unfold int64_mul_clamp, clamp64.
  destruct (a =? 0) eqn:Ea, (b =? 0) eqn:Eb; zb; subst; cbn [negb orb];
    rewrite ?Z.mul_0_r, ?Z.mul_0_l; try reflexivity.
  - specialize (Hm b Eb). pose proof (Z.quot_pos (2 ^ 63) b).
    pose proof (Z.quot_pos INT64_MAX (- b)). unfold INT64_MAX, INT64_MIN in *.
    repeat case_if; rewrite ?i64_id by (unfold is_i64; lia); lia.
  - repeat case_if; rewrite ?i64_id by (unfold is_i64; lia); try lia; reflexivity.
  - specialize (Hm a Ea) as Hma. specialize (Hm b Eb).
    unfold INT64_MAX, INT64_MIN in *. case_if.
    + destruct (0 <? b) eqn:Eb'; zb; cbn [andb].
      * repeat case_if; rewrite ?i64_id by (unfold is_i64; nia); nia.
      * replace (b <? 0) with true by (symmetry; apply Z.ltb_lt; lia). cbn [andb].
        repeat case_if; rewrite ?i64_id by (unfold is_i64; nia); nia.
    + destruct (0 <? b) eqn:Eb'; zb; cbn [andb].
      * replace (b <? 0) with false by (symmetry; apply Z.ltb_ge; lia). cbn [andb].
        repeat case_if; rewrite ?i64_id by (unfold is_i64; nia); nia.
      * replace (b <? 0) with true by (symmetry; apply Z.ltb_lt; lia). cbn [andb].
        repeat case_if; rewrite ?i64_id by (unfold is_i64; nia); nia.
Qed.

Lemma int64_mul_clamp_witness : int64_mul_clamp (2 ^ 40) (- 2 ^ 40) = INT64_MIN.
Proof.
  rewrite (int64_mul_clamp_spec (2 ^ 40) (- 2 ^ 40)); [reflexivity| |];
    vm_compute; split; congruence.
Defined.

(** ** Variable length integers *)

Lemma varint_cont_byte x :
  (u8 x .| 128) .& 127 = x mod 128 ∧ 128 <= (u8 x .| 128) < 256.
Proof.
  pose proof (u8_range x) as Hr. split.
  - rewrite Z.land_lor_distr_l. change (128 .& 127) with 0. rewrite Z.lor_0_r.
    change 127 with (2 ^ 7 - 1). rewrite land_mask by lia. unfold u8.
    change (2 ^ 8) with 256; change (2 ^ 7) with 128. dm.
  - pose proof (forallb_below (λ b, (128 <=? (b .| 128)) && ((b .| 128) <? 256)) 256
      ltac:(vm_compute; reflexivity) (u8 x) Hr) as H. cbv beta in H. zb. lia.
Qed.

Lemma varint_acc acc c i x :
  0 <= i → 0 <= acc < 2 ^ (7 * i) → 0 <= c < 128 → 0 <= x → c <= x mod 128 →
  acc + x * 2 ^ (7 * i) < 2 ^ 64 → 
  acc .| u64 (c .<< (7 * i)) = acc + c * 2 ^ (7 * i).
Proof.
  intros Hi Hacc Hc Hx Hcx Hlt.
  assert (c * 2 ^ (7 * i) <= x * 2 ^ (7 * i)) by (apply Z.mul_le_mono_nonneg_r; [lia|dm]).
  rewrite shiftl_mul by lia. rewrite u64_id by (unfold is_u64; nia).
  rewrite lor_add_shift by lia. lia.
Qed.

Lemma varint_read_write_loop f n x i acc rest :
  128 <= x < 2 ^ (7 * (Z.of_nat f + 1)) → x < 2 ^ (7 * Z.of_nat n) →
  0 <= i → 0 <= acc < 2 ^ (7 * i) → acc + x * 2 ^ (7 * i) < 2 ^ 64 →
  varint_read_loop n (varint_write_loop f x ++ rest) i acc =
    (i + Z.of_nat (length (varint_write_loop f x)), acc + x * 2 ^ (7 * i)).
Proof.
  revert n x i acc. induction f as [|f IH]; intros n x i acc Hx Hn Hi Hacc Hlt.
  { cbn in Hx. lia. }
  destruct n as [|n]; [cbn in Hn; lia|].
  destruct (varint_cont_byte x) as [Hb Hb2]. cbn [varint_write_loop].
  set (b := u8 x .| 128) in *.
  assert (Hp : 2 ^ (7 * (i + 1)) = 128 * 2 ^ (7 * i)).
  { rewrite Z.mul_add_distr_l, Z.pow_add_r by lia. lia. }
  assert (Hs : x .>> 7 = x / 128) by now rewrite shiftr_div.
  assert (Hd : x = 128 * (x / 128) + x mod 128) by dm.
  assert (0 <= x mod 128 < 128) by dm.
  rewrite Hs. destruct (128 <=? x / 128) eqn:Ec; zb; cbn [app varint_read_loop length].
  - rewrite (proj2 (Z.ltb_ge b 128)) by lia.
    rewrite Hb, (varint_acc acc _ i x) by lia. rewrite IH; rewrite ?Hp; [f_equal; nia| | | | |].
    + split; [lia|]. apply Z.div_lt_upper_bound; [lia|].
      rewrite <- (Z.pow_add_r 2 7) by lia. eapply Z.lt_le_trans; [apply Hx|].
      apply Z.pow_le_mono_r; lia.
    + apply Z.div_lt_upper_bound; [lia|]. rewrite <- (Z.pow_add_r 2 7) by lia.
      eapply Z.lt_le_trans; [apply Hn|]. apply Z.pow_le_mono_r; lia.
    + lia.
    + nia.
    + nia.
  - rewrite (proj2 (Z.ltb_ge b 128)) by lia. rewrite Hb, (varint_acc acc _ i x) by lia.
    destruct n as [|n]; [cbn in Hn; lia|]. cbn [varint_read_loop].
    rewrite u8_id by (unfold is_u8; dm).
    rewrite (proj2 (Z.ltb_lt (x / 128) 128)) by lia.
    change 127 with (2 ^ 7 - 1). rewrite land_mask by lia.
    rewrite (Z.mod_small (x / 128)) by dm.
    rewrite (varint_acc _ (x / 128) (i + 1) (x / 128)); rewrite ?Hp; try nia;
      rewrite ?Z.mod_small by dm; try dm.
    f_equal; [lia|]. nia.
Qed.

Lemma varint_write_nonnil x : varint_write_u64 x ≠ [].
Proof.
  unfold varint_write_u64. case_if; [easy|]. cbn [varint_write_loop]. now case_if.
Qed.

Lemma varint_read_write x rest :
  is_u64 x →
  varint_read_u64 (varint_write_u64 x ++ rest) =
    (Z.of_nat (length (varint_write_u64 x)), x).
Proof.
  unfold is_u64. intros Hx. unfold varint_write_u64. case_if.
  { cbn. now rewrite (proj2 (Z.ltb_lt x 128)) by lia. }
  pose proof (varint_read_write_loop 10 10 x 0 0 rest) as H.
  rewrite Z.add_0_l, Z.mul_0_r, Z.pow_0_r, Z.mul_1_r, Z.add_0_l in H.
  rewrite <- H by (cbn; lia). destruct (varint_cont_byte x) as [_ Hb].
  unfold varint_read_u64. cbn [varint_write_loop]. case_if; cbn [app].
  all: now rewrite (proj2 (Z.ltb_ge _ 128)) by lia.
Qed.

(** Decoding the variable length encoding of a 64-bit integer, whatever
    follows it, returns the integer and the exact number of bytes written. *)
Theorem varint_u64_roundtrip x rest :
  is_u64 x →
  varint_read_u64 (varint_write_u64 x ++ rest) =
    (Z.of_nat (length (varint_write_u64 x)), x).
Proof. apply varint_read_write. Qed.

Lemma varint_u64_roundtrip_witness :
  varint_read_u64 (varint_write_u64 (2 ^ 64 - 1) ++ [7; 7]) = (10, 2 ^ 64 - 1).
Proof.
  rewrite (varint_u64_roundtrip (2 ^ 64 - 1) [7; 7]); [reflexivity|].
  vm_compute. split; congruence.
Defined.

(** The zigzag encoding of a signed 64-bit integer decodes to it. *)
Theorem varint_i64_roundtrip x rest :
  is_i64 x →
  varint_read_i64 (varint_write_i64 x ++ rest) =
    (Z.of_nat (length (varint_write_i64 x)), x).
Proof.
  unfold is_i64. intros Hx. unfold varint_write_i64, varint_read_i64.
  assert (∀ y, (y .& 1) = y mod 2) as Hl.
  { intros. change 1 with (2 ^ 1 - 1). now rewrite land_mask. }
  assert ((if x <? 0 then u64 (Z.lnot (u64 (u64 x .<< 1))) else u64 (u64 x .<< 1))
    = if x <? 0 then - 2 * x - 1 else 2 * x) as ->.
  { rewrite shiftl_mul by lia. change (2 ^ 1) with 2. unfold u64, Z.lnot.
    rewrite Zmult_mod_idemp_l. case_if; dm. }
  rewrite varint_read_write by (unfold is_u64; case_if; lia).
  rewrite Hl, shiftr_div by lia. f_equal. change (2 ^ 1) with 2.
  destruct (x <? 0) eqn:Ex; zb.
  - replace ((- 2 * x - 1) mod 2 =? 0) with false by (symmetry; apply Z.eqb_neq; dm).
    rewrite i64_id by (unfold is_i64; dm). unfold Z.lnot. dm.
  - replace ((2 * x) mod 2 =? 0) with true by (symmetry; apply Z.eqb_eq; dm).
    rewrite i64_id by (unfold is_i64; dm). dm.
Qed.

Lemma varint_i64_roundtrip_witness :
  varint_read_i64 (varint_write_i64 (- 2 ^ 63) ++ []) = (10, - 2 ^ 63).
Proof.
  rewrite (varint_i64_roundtrip (- 2 ^ 63) []); [reflexivity|].
  vm_compute. split; congruence.
Defined.

(** ** Decimal text *)

Definition digit_val (ds : bytes) : Z := fold_right (λ c a, 10 * a + (c - 48)) 0 ds.

Lemma isdigit_true c : isdigit c = true ↔ 48 <= c <= 57.
Proof. unfold isdigit. rewrite andb_true_iff, !Z.leb_le. lia. Qed.

Lemma u64_digits_ok f x : 0 <= x → Forall (λ c, isdigit c = true) (u64_digits f x).
Proof.
  revert x; induction f as [|f IH]; intros x Hx; cbn [u64_digits]; constructor.
  - apply isdigit_true. dm.
  - case_if; [apply IH; dm|constructor].
Qed.

Lemma u64_digits_val f x :
  0 <= x < 10 ^ Z.of_nat f → digit_val (u64_digits f x) = x.
Proof.
  revert x; induction f as [|f IH]; intros x Hx; [cbn in *; lia|].
  cbn [u64_digits digit_val fold_right]. rewrite Nat2Z.inj_succ, Z.pow_succ_r in Hx by lia.
  case_if.
  - fold (digit_val (u64_digits f (x / 10))). rewrite IH by dm. dm.
  - cbn. dm.
Qed.

Lemma length_u64_digits f x : (length (u64_digits f x) <= f)%nat.
Proof.
  revert x; induction f as [|f IH]; intros x; cbn [u64_digits length]; [lia|].
  case_if; [specialize (IH (x / 10)); lia|cbn; lia].
Qed.

(** The text of [u64toa]: digits only, of the right value. *)
Lemma u64toa_spec x :
  is_u64 x →
  ∃ ds, u64toa x = rev ds ∧ ds ≠ [] ∧ (length ds <= 20)%nat ∧
    Forall (λ c, isdigit c = true) ds ∧ digit_val ds = x.
Proof.
  unfold is_u64, u64toa. intros Hx. case_if.
  - exists [48 + x]. repeat split; try easy; [cbn; lia| |cbn; lia].
    repeat constructor. apply isdigit_true. lia.
  - exists (u64_digits 20 x).
    split; [easy|]. split; [easy|]. split; [apply length_u64_digits|].
    split; [apply u64_digits_ok; lia|]. apply u64_digits_val. cbn. lia.
Qed.

Definition digit_step (a c : Z) : Z := 10 * a + (c - 48).

Lemma scan_digits_all l acc :
  Forall (λ c, isdigit c = true) l →
  scan_digits l acc = (fold_left digit_step l acc, []).
Proof.
  revert acc. induction l as [|c l IH]; intros acc Hl; [easy|].
  inversion Hl as [|? ? Hc Hl']; subst. cbn. rewrite Hc. now rewrite IH.
Qed.

Lemma fold_digits_rev ds : fold_left digit_step (rev ds) 0 = digit_val ds.
Proof.
  rewrite <- fold_left_rev_right, rev_involutive. reflexivity.
Qed.

Lemma c_str_digits l : Forall (λ c, c ≠ 0) l → c_str l = l.
Proof.
  induction 1 as [|c l Hc _ IH]; [easy|]. cbn. apply Z.eqb_neq in Hc.
  now rewrite Hc, IH.
Qed.

(** A decimal text with an optional minus sign is scanned as its value. *)
Lemma scan_number_digits (neg : bool) ds :
  ds ≠ [] → Forall (λ c, isdigit c = true) ds →
  scan_number ((if neg then [45] else []) ++ rev ds) = Some (neg, digit_val ds, []) ∧
  c_str ((if neg then [45] else []) ++ rev ds) = (if neg then [45] else []) ++ rev ds.
Proof.
  intros Hne Hd. apply Forall_rev in Hd as Hr. split.
  - unfold scan_number. rewrite <- fold_digits_rev.
    destruct (rev ds) as [|c l] eqn:E.
    { apply (f_equal (@rev Z)) in E. rewrite rev_involutive in E. now subst. }
    pose proof (scan_digits_all (c :: l) 0 Hr) as Hs.
    apply Forall_cons in Hr as [Hc _]. apply isdigit_true in Hc as Hc'.
    destruct neg; cbn [app skip_space].
    + change (isspace 45) with false. cbv iota beta. change (45 =? 45) with true.
      cbv iota beta. now rewrite Hc, Hs.
    + replace (isspace c) with false by
        (symmetry; unfold isspace; rewrite orb_false_iff, andb_false_iff,
           Z.eqb_neq, !Z.leb_gt; lia).
      rewrite (proj2 (Z.eqb_neq c 45)), (proj2 (Z.eqb_neq c 43)) by lia.
      cbv iota beta. now rewrite Hc, Hs.
  - apply c_str_digits, Forall_app. split.
    + destruct neg; repeat constructor; lia.
    + eapply Forall_impl; [exact Hr|]. intros c Hc%isdigit_true. lia.
Qed.

Lemma parse_i64toa_spec x : is_i64 x → parse_i64 (i64toa x) = (true, x).
Proof.
  unfold is_i64. intros Hx.
  assert (Hu : is_u64 (Z.abs x)) by (unfold is_u64; lia).
  destruct (u64toa_spec (Z.abs x) Hu) as (ds & Hds & Hne & Hlen & Hd & Hval).
  assert (i64toa x = (if x <? 0 then [45] else []) ++ rev ds) as ->.
  { unfold i64toa. destruct (x <? 0) eqn:E; zb; rewrite <- Hds; cbn [app].
    - f_equal. f_equal. rewrite u64_i64. unfold u64. rewrite Z.mod_small; lia.
    - f_equal. lia. }
  destruct (scan_number_digits (x <? 0) ds Hne Hd) as [Hs Hc].
  unfold parse_i64, strtoll. rewrite Hc, Hs. cbn [length]. rewrite Nat.sub_0_r.
  assert (Nat.le (length ((if x <? 0 then [45] else []) ++ rev ds)) 21) as Hl.
  { rewrite length_app, length_rev. case_if; cbn; lia. }
  rewrite (proj2 (Nat.ltb_ge _ _) Hl). rewrite Hval.
  assert ((if x <? 0 then - Z.abs x else Z.abs x) = x) as -> by (case_if; lia).
  unfold INT64_MIN, INT64_MAX.
  rewrite (proj2 (Z.ltb_ge x (- 2 ^ 63))), (proj2 (Z.ltb_ge (2 ^ 63 - 1) x)) by lia.
  now rewrite Nat.eqb_refl.
Qed.

(** Printing a signed 64-bit integer and parsing the text gives it back;
    [INT64_MIN], whose negation overflows, included. *)
Theorem parse_i64toa x : is_i64 x → parse_i64 (i64toa x) = (true, x).
Proof. apply parse_i64toa_spec. Qed.

Lemma parse_i64toa_witness : parse_i64 (i64toa (- 2 ^ 63)) = (true, - 2 ^ 63).
Proof. apply (parse_i64toa (- 2 ^ 63)). vm_compute. split; congruence. Defined.

Lemma parse_u64toa_spec x : is_u64 x → parse_u64 (u64toa x) = (true, x).
Proof.
  intros Hx. pose proof Hx as Hx'. unfold is_u64 in Hx'.
  destruct (u64toa_spec x Hx) as (ds & -> & Hne & Hlen & Hd & Hval).
  destruct (scan_number_digits false ds Hne Hd) as [Hs Hc]. cbn [app] in Hs, Hc.
  unfold parse_u64, strtoull. rewrite Hc, Hs. cbn [length]. rewrite Nat.sub_0_r.
  rewrite (proj2 (Nat.ltb_ge _ _)) by (rewrite length_rev; lia).
  replace (nth 0 (rev ds) 0 =? 45) with false.
  - rewrite Hval, (proj2 (Z.ltb_ge (2 ^ 64 - 1) x)) by lia. now rewrite Nat.eqb_refl.
  - symmetry. apply Z.eqb_neq. destruct (rev ds) as [|c l] eqn:E; [cbn; lia|].
    apply Forall_rev in Hd. rewrite E in Hd. apply Forall_cons in Hd as [Hc' _].
    apply isdigit_true in Hc'. cbn. lia.
Qed.

(** Printing an unsigned 64-bit integer and parsing the text gives it back. *)
Theorem parse_u64toa x : is_u64 x → parse_u64 (u64toa x) = (true, x).
Proof. apply parse_u64toa_spec. Qed.

Lemma parse_u64toa_witness : parse_u64 (u64toa (2 ^ 64 - 1)) = (true, 2 ^ 64 - 1).
Proof. apply (parse_u64toa (2 ^ 64 - 1)). vm_compute. split; congruence. Defined.

(** ** CRC-32 *)

(** Bit-serial reference: one message bit at a time, low bit first. *)
Definition crc32_bitwise (data : bytes) : Z :=
  fold_left (λ crc b, Nat.iter 8 crc_step (crc .^ b)) data 0xffffffff .^ 0xffffffff.

Lemma crc_step_lxor a b :
  crc_step (a .^ b) = crc_step a .^ crc_step b.
Proof.
  assert (∀ y, (y .& 1 =? 0) = negb (Z.testbit y 0)) as Hb.
  { intros y. change 1 with (2 ^ 1 - 1). rewrite land_mask, Z.bit0_odd by lia.
    change (2 ^ 1) with 2. rewrite Zmod_odd. now destruct (Z.odd y). }
  unfold crc_step. rewrite !Hb, Z.lxor_spec, Z.shiftr_lxor.
  set (p := 0xedb88320). destruct (Z.testbit a 0), (Z.testbit b 0); cbn [negb xorb].
  - rewrite (Z.lxor_comm p (a .>> 1)), Z.lxor_assoc, <- (Z.lxor_assoc p p).
    now rewrite Z.lxor_nilpotent, Z.lxor_0_l.
  - now rewrite Z.lxor_assoc.
  - rewrite <- !Z.lxor_assoc. f_equal. apply Z.lxor_comm.
  - reflexivity.
Qed.

Lemma crc_iter_lxor n a b :
  Nat.iter n crc_step (a .^ b) = Nat.iter n crc_step a .^ Nat.iter n crc_step b.
Proof.
  induction n as [|n IH]; [easy|]. rewrite !Nat.iter_succ, IH. apply crc_step_lxor.
Qed.

(** Steps on a value whose low bits are zero are plain shifts. *)
Lemma crc_iter_high n a : Nat.iter n crc_step (a .<< Z.of_nat n) = a.
Proof.
  induction n as [|n IH]; [apply Z.shiftl_0_r|].
  rewrite Nat.iter_succ_r, Nat2Z.inj_succ.
  replace (crc_step (a .<< Z.succ (Z.of_nat n))) with (a .<< Z.of_nat n); [easy|].
  unfold crc_step. change 1 with (2 ^ 1 - 1) at 1. rewrite land_mask by lia.
  rewrite !shiftl_mul, Z.pow_succ_r, shiftr_div by lia. change (2 ^ 1) with 2.
  replace (a * (2 * 2 ^ Z.of_nat n)) with ((a * 2 ^ Z.of_nat n) * 2) by lia.
  now rewrite Z.mod_mul, Z.div_mul by lia.
Qed.

(** A word is its low byte plus the shifted rest. *)
Lemma split_low_byte c : c = (c .& 255) .^ ((c .>> 8) .<< 8).
Proof.
  change 255 with (Z.ones 8). apply Z.bits_inj'. intros n Hn.
  rewrite Z.lxor_spec, Z.land_spec, Z.shiftl_spec by lia.
  destruct (decide (n < 8)).
  - rewrite Z.ones_spec_low, (Z.testbit_neg_r _ (n - 8)) by lia.
    now rewrite andb_true_r, xorb_false_r.
  - rewrite Z.ones_spec_high, Z.shiftr_spec by lia. rewrite andb_false_r, xorb_false_l.
    f_equal. lia.
Qed.

Lemma crc_table_lookup i : 0 <= i < 256 → nth (Z.to_nat i) crc_table 0 = crc_entry i.
Proof.
  intros Hi. unfold crc_table.
  rewrite (nth_indep _ 0 (crc_entry 0)) by (rewrite length_map, length_seqZ; lia).
  rewrite map_nth. f_equal. apply nth_lookup_Some, lookup_seqZ. lia.
Qed.

(** The table-driven [crc32] computes the same checksum as the bit-serial
    definition of CRC-32. *)
Theorem crc32_table_correct data : bytes_ok data → crc32 data = crc32_bitwise data.
Proof.
  intros Hok. unfold crc32, crc32_bitwise. f_equal.
  generalize 0xffffffff. induction Hok as [|b data Hb _ IH]; intros c; [easy|].
  cbn [fold_left]. rewrite IH. f_equal.
  assert (Hlow : 0 <= (c .^ b) .& 255 < 256).
  { change 255 with (2 ^ 8 - 1). rewrite land_mask by lia. dm. }
  rewrite crc_table_lookup by exact Hlow. unfold crc_entry.
  rewrite (split_low_byte (c .^ b)) at 2. rewrite crc_iter_lxor.
  change 8 with (Z.of_nat 8) at 3. rewrite crc_iter_high, Z.shiftr_lxor.
  replace (b .>> 8) with 0; [now rewrite Z.lxor_0_r|].
  rewrite shiftr_div by lia. symmetry. now apply Z.div_small.
Qed.

Lemma crc32_table_correct_witness : crc32 [49; 50; 51] = crc32_bitwise [49; 50; 51].
Proof.
  apply (crc32_table_correct [49; 50; 51]). repeat constructor; vm_compute; congruence.
Defined.

Example crc32_check : crc32 [49; 50; 51; 52; 53; 54; 55; 56; 57] = 0xcbf43926.
Proof. reflexivity. Qed.

(** ** Hashes stay in range *)

Lemma lxor_u64 a b : is_u64 a → is_u64 b → is_u64 (a .^ b).
Proof.
  unfold is_u64. intros Ha Hb. split; [apply Z.lxor_nonneg; lia|].
  destruct (decide (a .^ b = 0)) as [->|Hn]; [lia|].
  assert (0 <= a .^ b) by (apply Z.lxor_nonneg; lia).
  apply Z.log2_lt_pow2; [lia|]. pose proof (Z.log2_lxor a b).
  pose proof (Z.log2_lt_pow2 a 64). pose proof (Z.log2_lt_pow2 b 64).
  destruct (decide (a = 0)) as [->|], (decide (b = 0)) as [->|]; cbn in *; lia.
Qed.

Lemma th64_range data seed : is_u64 (th64 data seed).
Proof. unfold th64. apply u64_range. Qed.
#[export] Hint Resolve th64_range : pogo.

Lemma length_varint_loop f n x :
  128 <= x < 2 ^ (7 * (Z.of_nat n)) → (length (varint_write_loop f x) <= n)%nat.
Proof.
  revert n x. induction f as [|f IH]; intros n x Hx; [cbn; lia|].
  destruct n as [|[|n]]; [cbn in Hx; lia|cbn in Hx; lia|]. cbn [varint_write_loop].
  rewrite shiftr_div by lia. change (2 ^ 7) with 128.
  case_if; cbn [length]; [|lia]. apply le_n_S, IH. split; [lia|].
  apply Z.div_lt_upper_bound; [lia|]. change 128 with (2 ^ 7).
  rewrite <- Z.pow_add_r by lia.
  eapply Z.lt_le_trans; [apply Hx|]. apply Z.pow_le_mono_r; lia.
Qed.

(** A length prefix is at most ten bytes. *)
Lemma length_varint x : is_u64 x → (length (varint_write_u64 x) <= 10)%nat.
Proof.
  unfold is_u64, varint_write_u64. intros Hx. case_if; [cbn; lia|].
  apply length_varint_loop. cbn. lia.
Qed.

Lemma varint_write_ok x : is_u64 x → bytes_ok (varint_write_u64 x).
Proof.
  unfold is_u64, varint_write_u64. intros Hx. case_if.
  { constructor; [unfold is_u8; lia|constructor]. }
  generalize 10%nat. intros f. clear E. revert x Hx.
  induction f as [|f IH]; intros x Hx; cbn [varint_write_loop]; [constructor|].
  destruct (varint_cont_byte x) as [_ Hb]. rewrite shiftr_div by lia. case_if.
  - constructor; [unfold is_u8; lia|]. apply IH. dm.
  - constructor; [unfold is_u8; lia|]. constructor; [apply u8_range|constructor].
Qed.
