(* ===== verification/Sixpack.v ===== *)
(** * Sixpack: six-bit key compression

    [sixpack] and [unsixpack] of [src/src/pogocache.c], the tables they use,
    and the proof that unpacking inverts packing and that packing preserves
    the order of keys, which lets packed keys be compared without unpacking. *)

From S2P Require Import Prelude Util.

(** ** The code *)

(** The array [tosix]; the initialiser lists 128 entries, the others are 0. *)
Definition tosix : list Z :=
  [ 0;  0;  0;  0;  0;  0;  0;  0;  0;  0;  0;  0;  0;  0;  0;  0;
    0;  0;  0;  0;  0;  0;  0;  0;  0;  0;  0;  0;  0;  0;  0;  0;
    0;  0;  0;  0;  0;  0;  0;  0;  0;  0;  0;  0;  0;  1;  2;  0;
    3;  4;  5;  6;  7;  8;  9; 10; 11; 12; 13;  0;  0;  0;  0;  0;
    0; 14; 15; 16; 17; 18; 19; 20; 21; 22; 23; 24; 25; 26; 27; 28;
   29;  0; 30; 31; 32; 33; 34; 35; 36; 37;  0;  0;  0;  0;  0; 38;
    0; 39; 40; 41; 42; 43; 44; 45; 46; 47; 48; 49; 50; 51; 52; 53;
   54; 55; 56; 57; 58; 59; 60; 61; 62; 63;  0;  0;  0;  0;  0;  0]
  ++ repeat 0 128.

(** The array [fromsix], written with the character codes. *)
Definition fromsix : list Z :=
  [ 0; 45; 46; 48; 49; 50; 51; 52; 53; 54; 55; 56; 57; 58;
   65; 66; 67; 68; 69; 70; 71; 72; 73; 74; 75; 76; 77; 78;
   79; 80; 82; 83; 84; 85; 86; 87; 88; 89; 95; 97; 98; 99;
   100; 101; 102; 103; 104; 105; 106; 107; 108; 109; 110; 111; 112; 113;
   114; 115; 116; 117; 118; 119; 120; 121].

Definition tosix_at (b : Z) : Z := nth (Z.to_nat b) tosix 0.
Definition fromsix_at (v : Z) : Z := nth (Z.to_nat v) fromsix 0.

(** [dst[j-1] |= v], where [j] is the number of bytes filled so far. *)
Fixpoint or_last (dst : bytes) (v : Z) : bytes :=
  match dst with
  | [] => []
  | [b] => [u8 (b .| v)]
  | b :: dst => b :: or_last dst v
  end.

(** The loop of [sixpack] from index [i]; [dst] is what is filled so far. *)
Fixpoint sixpack_loop (data : bytes) (i : Z) (dst : bytes) : Z * bytes :=
  match data with
  | [] => (Z.of_nat (length dst), dst)
  | b :: data =>
      let k6v := tosix_at b in
      if k6v =? 0 then (0, dst)
      else if i mod 4 =? 0 then
        sixpack_loop data (i + 1) (dst ++ [u8 (k6v .<< 2)])
      else if i mod 4 =? 1 then
        sixpack_loop data (i + 1) (or_last dst (k6v .>> 4) ++ [u8 (k6v .<< 4)])
      else if i mod 4 =? 2 then
        sixpack_loop data (i + 1) (or_last dst (k6v .>> 2) ++ [u8 (k6v .<< 6)])
      else
        sixpack_loop data (i + 1) (or_last dst k6v)
  end.

(** [sixpack]: the result of the C function and the bytes left in [dst]. *)
Definition sixpack (data : bytes) : Z * bytes := sixpack_loop data 0 [].

(** The loop of [unsixpack]: [prev] is [bytes[i-1]], [k] the phase. *)
Fixpoint unsixpack_loop (data : bytes) (prev k : Z) (dst : bytes) : bytes :=
  match data with
  | [] => dst
  | b :: data =>
      if k =? 0 then
        unsixpack_loop data b (k + 1) (dst ++ [fromsix_at (b .>> 2)])
      else if k =? 1 then
        unsixpack_loop data b (k + 1)
          (dst ++ [fromsix_at (((prev .<< 4) .| (b .>> 4)) .& 63)])
      else
        unsixpack_loop data b 0
          (dst ++ [fromsix_at (((prev .<< 2) .| (b .>> 6)) .& 63);
                   fromsix_at (b .& 63)])
  end.

(** [unsixpack]: the characters of the key; a trailing NUL is dropped. *)
Definition unsixpack (data : bytes) : bytes :=
  let dst := unsixpack_loop data 0 0 [] in
  match rev dst with
  | 0 :: front => rev front
  | _ => dst
  end.

(** ** Packing as arithmetic on six-bit groups *)

Definition packable (data : bytes) : Prop :=
  Forall (λ b, is_u8 b ∧ tosix_at b ≠ 0) data.

Definition is_six (v : Z) : Prop := 0 < v < 64.

Fixpoint pack (vs : list Z) : bytes :=
  match vs with
  | [] => []
  | [a] => [4 * a]
  | [a; b] => [4 * a + b / 16; 16 * (b mod 16)]
  | [a; b; c] => [4 * a + b / 16; 16 * (b mod 16) + c / 4; 64 * (c mod 4)]
  | a :: b :: c :: d :: vs =>
      4 * a + b / 16 :: 16 * (b mod 16) + c / 4 :: 64 * (c mod 4) + d :: pack vs
  end.

Lemma tosix_six b : is_u8 b → tosix_at b ≠ 0 → is_six (tosix_at b).
Proof.
  intros Hb Hn. pose proof (forallb_below
    (λ b, (tosix_at b =? 0) || ((0 <? tosix_at b) && (tosix_at b <? 64))) 256
    ltac:(vm_compute; reflexivity) b Hb) as H. cbv beta in H.
  apply orb_true_iff in H as [H|H]; zb; [easy|]. split; lia.
Qed.

Lemma fromsix_tosix b : is_u8 b → tosix_at b ≠ 0 → fromsix_at (tosix_at b) = b ∧ b ≠ 0.
Proof.
  intros Hb Hn. pose proof (forallb_below
    (λ b, (tosix_at b =? 0) || ((fromsix_at (tosix_at b) =? b) && negb (b =? 0))) 256
    ltac:(vm_compute; reflexivity) b Hb) as H. cbv beta in H.
  apply orb_true_iff in H as [H|H]; zb; easy.
Qed.

Lemma packable_six data : packable data → Forall is_six (map tosix_at data).
Proof.
  intros H. apply Forall_map. eapply Forall_impl; [exact H|].
  intros b [? ?]. now apply tosix_six.
Qed.

(** Induction by groups of four. *)
Lemma list_ind4 {A} (P : list A → Prop) :
  P [] → (∀ a, P [a]) → (∀ a b, P [a; b]) → (∀ a b c, P [a; b; c]) →
  (∀ a b c d l, P l → P (a :: b :: c :: d :: l)) → ∀ l, P l.
Proof.
  intros H0 H1 H2 H3 H4. fix IH 1.
  intros [|a [|b [|c [|d l]]]]; [exact H0|apply H1|apply H2|apply H3|].
  apply H4, (IH l).
Qed.

Lemma or_last_app dst b v : or_last (dst ++ [b]) v = dst ++ [u8 (b .| v)].
Proof.
  induction dst as [|x dst IH]; [easy|]. cbn [app or_last].
  destruct (dst ++ [b]) as [|y l] eqn:E; [now destruct dst|]. now rewrite IH.
Qed.

(** The four ways a group is written into the buffer. *)
Section Groups.
Context (a b c d : Z).
Hypotheses (Ha : is_six a) (Hb : is_six b) (Hc : is_six c) (Hd : is_six d).

Lemma pack0 : u8 (a .<< 2) = 4 * a.
Proof. unfold is_six, u8 in *. rewrite shiftl_mul by lia. cbn. dm. Qed.

Lemma pack1 : u8 (4 * a .| (b .>> 4)) = 4 * a + b / 16.
Proof.
  unfold is_six in *. rewrite shiftr_div by lia.
  replace (4 * a) with (a * 2 ^ 2) by lia.
  rewrite lor_shift_add by dm. rewrite u8_id; [easy|]. unfold is_u8. dm.
Qed.

Lemma pack1' : u8 (b .<< 4) = 16 * (b mod 16).
Proof. unfold is_six, u8 in *. rewrite shiftl_mul by lia. cbn. dm. Qed.

Lemma pack2 : u8 (16 * (b mod 16) .| (c .>> 2)) = 16 * (b mod 16) + c / 4.
Proof.
  unfold is_six in *. rewrite shiftr_div by lia.
  replace (16 * (b mod 16)) with ((b mod 16) * 2 ^ 4) by lia.
  rewrite lor_shift_add by dm. rewrite u8_id; [easy|]. unfold is_u8. dm.
Qed.

Lemma pack2' : u8 (c .<< 6) = 64 * (c mod 4).
Proof. unfold is_six, u8 in *. rewrite shiftl_mul by lia. cbn. dm. Qed.

Lemma pack3 : u8 (64 * (c mod 4) .| d) = 64 * (c mod 4) + d.
Proof.
  unfold is_six in *. replace (64 * (c mod 4)) with ((c mod 4) * 2 ^ 6) by lia.
  rewrite lor_shift_add by dm. rewrite u8_id; [easy|]. unfold is_u8. dm.
Qed.
End Groups.

Lemma phase i k : i mod 4 = k → k < 3 → (i + 1) mod 4 = k + 1.
Proof. intros. dm. Qed.

(** One round of [sixpack_loop], for each phase. *)
Lemma sixpack_step b data i dst k :
  tosix_at b ≠ 0 → i mod 4 = k →
  sixpack_loop (b :: data) i dst =
  sixpack_loop data (i + 1)
    (if k =? 0 then dst ++ [u8 (tosix_at b .<< 2)]
     else if k =? 1 then or_last dst (tosix_at b .>> 4) ++ [u8 (tosix_at b .<< 4)]
     else if k =? 2 then or_last dst (tosix_at b .>> 2) ++ [u8 (tosix_at b .<< 6)]
     else or_last dst (tosix_at b)).
Proof.
  intros Hn%Z.eqb_neq Hk. cbn [sixpack_loop]. rewrite Hn, Hk.
  destruct (k =? 0); [easy|]. destruct (k =? 1); [easy|]. now destruct (k =? 2).
Qed.

Ltac pack_step k :=
  rewrite (sixpack_step _ _ _ _ k) by (first [easy | dm]);
  cbv beta iota match; cbn [Z.eqb Pos.eqb];
  rewrite ?or_last_app, ?pack0, ?pack1, ?pack1', ?pack2, ?pack2', ?pack3
    by (now apply tosix_six).

Lemma sixpack_loop_spec data i dst :
  packable data → i mod 4 = 0 →
  sixpack_loop data i dst =
    (Z.of_nat (length (dst ++ pack (map tosix_at data))), dst ++ pack (map tosix_at data)).
Proof.
  revert i dst. induction data as [|a|a b|a b c|a b c d data IH] using list_ind4;
    intros i dst Hp Hi; unfold packable in Hp; rewrite ?Forall_cons in Hp;
    destruct_and?; cbn [map pack].
  - cbn. now rewrite app_nil_r.
  - pack_step 0. easy.
  - pack_step 0. pack_step 1. cbn [sixpack_loop]. now rewrite <- app_assoc.
  - pack_step 0. pack_step 1. pack_step 2. cbn [sixpack_loop]. now rewrite <- !app_assoc.
  - pack_step 0. pack_step 1. pack_step 2. pack_step 3.
    rewrite IH by (try easy; dm). rewrite <- !app_assoc. easy.
Qed.

(** ** Unpacking *)

Lemma unpack0 a r : 0 <= r < 4 → (4 * a + r) .>> 2 = a.
Proof. intros. rewrite shiftr_div by lia. cbn. dm. Qed.

Lemma unpack1 a b r :
  is_six b → 0 <= r < 16 →
  (((4 * a + b / 16) .<< 4) .| ((16 * (b mod 16) + r) .>> 4)) .& 63 = b.
Proof.
  unfold is_six. intros. rewrite shiftr_div, shiftl_mul by lia.
  replace ((16 * (b mod 16) + r) / 2 ^ 4) with (b mod 16) by dm.
  rewrite lor_shift_add by dm. change 63 with (2 ^ 6 - 1). rewrite land_mask by lia.
  cbn. dm.
Qed.

Lemma unpack2 b c r :
  is_six c → 0 <= r < 64 →
  (((16 * b + c / 4) .<< 2) .| ((64 * (c mod 4) + r) .>> 6)) .& 63 = c.
Proof.
  unfold is_six. intros. rewrite shiftr_div, shiftl_mul by lia.
  replace ((64 * (c mod 4) + r) / 2 ^ 6) with (c mod 4) by dm.
  rewrite lor_shift_add by dm. change 63 with (2 ^ 6 - 1). rewrite land_mask by lia.
  cbn. dm.
Qed.

Lemma unpack3 c d : 0 <= d < 64 → (64 * c + d) .& 63 = d.
Proof.
  intros. change 63 with (2 ^ 6 - 1). rewrite land_mask by lia. cbn. dm.
Qed.

(** The padding group that a key of length [4n+3] leaves in the last byte. *)
Definition pad (n : nat) : bytes := if (n mod 4 =? 3)%nat then [0] else [].

Lemma pad_4 n : pad (S (S (S (S n)))) = pad n.
Proof. unfold pad. now replace (S (S (S (S n)))) with (n + 1 * 4)%nat by lia; rewrite Nat.Div0.mod_add. Qed.

(** One round of [unsixpack_loop], for each phase. *)
Lemma unsix_step0 b data prev dst :
  unsixpack_loop (b :: data) prev 0 dst =
  unsixpack_loop data b 1 (dst ++ [fromsix_at (b .>> 2)]).
Proof. reflexivity. Qed.
Lemma unsix_step1 b data prev dst :
  unsixpack_loop (b :: data) prev 1 dst =
  unsixpack_loop data b 2 (dst ++ [fromsix_at (((prev .<< 4) .| (b .>> 4)) .& 63)]).
Proof. reflexivity. Qed.
Lemma unsix_step2 b data prev dst :
  unsixpack_loop (b :: data) prev 2 dst =
  unsixpack_loop data b 0
    (dst ++ [fromsix_at (((prev .<< 2) .| (b .>> 6)) .& 63); fromsix_at (b .& 63)]).
Proof. reflexivity. Qed.

Ltac unpack_step :=
  rewrite ?unsix_step0, ?unsix_step1, ?unsix_step2; cbn [unsixpack_loop];
  rewrite ?unpack0, ?unpack1, ?unpack2, ?unpack3 by (try easy; unfold is_six in *; dm).

Lemma unsixpack_loop_spec vs prev dst :
  Forall is_six vs →
  unsixpack_loop (pack vs) prev 0 dst = dst ++ map fromsix_at vs ++ pad (length vs).
Proof.
  revert prev dst. induction vs as [|a|a b|a b c|a b c d vs IH] using list_ind4;
    intros prev dst Hs; rewrite ?Forall_cons in Hs; destruct_and?; cbn [pack map length].
  - now rewrite app_nil_r.
  - rewrite <- (Z.add_0_r (4 * a)). unpack_step. easy.
  - rewrite <- (Z.add_0_r (16 * _)). unpack_step. now rewrite <- app_assoc.
  - rewrite <- (Z.add_0_r (64 * _)). unpack_step. now rewrite <- !app_assoc.
  - unpack_step. rewrite IH, pad_4 by easy. now rewrite <- !app_assoc.
Qed.

Lemma fromsix_map data : packable data → map fromsix_at (map tosix_at data) = data.
Proof.
  induction 1 as [|b data [? ?] _ IH]; [easy|]. cbn [map].
  rewrite IH. now rewrite (proj1 (fromsix_tosix b ltac:(easy) ltac:(easy))).
Qed.

Lemma unsixpack_pack data :
  packable data → unsixpack (pack (map tosix_at data)) = data.
Proof.
  intros Hp. unfold unsixpack.
  rewrite unsixpack_loop_spec by now apply packable_six.
  rewrite fromsix_map by easy. cbn [app]. unfold pad. destruct (Nat.eqb _ 3).
  - rewrite rev_app_distr. cbn. apply rev_involutive.
  - rewrite app_nil_r. destruct (rev data) as [|b l] eqn:E; [easy|].
    assert (b ≠ 0) as Hb.
    { assert (b ∈ data) as Hin.
      { rewrite list_elem_of_In, in_rev, E. now left. }
      pose proof (proj1 (Forall_forall _ _) Hp b Hin) as [? ?].
      now apply fromsix_tosix. }
    now destruct b.
Qed.

(** Whether a byte string is in the alphabet, decidably. *)
#[export] Instance packable_dec data : Decision (packable data).
Proof. unfold packable. apply _. Defined.

Lemma sixpack_unpackable_loop data i dst :
  bytes_ok data → ¬ packable data → (sixpack_loop data i dst).1 = 0.
Proof.
  revert i dst. induction data as [|b data IH]; intros i dst Hok Hn.
  { destruct Hn. constructor. }
  apply bytes_ok_cons in Hok as [Hb Hok]. cbn [sixpack_loop].
  destruct (tosix_at b =? 0) eqn:E; [easy|]. zb.
  assert (¬ packable data) as Hn' by (intros Hp; apply Hn; now constructor).
  repeat case_if; now apply IH.
Qed.

(** [sixpack] reports 0 exactly for the keys it cannot pack. *)
Lemma sixpack_packable data :
  packable data →
  sixpack data = (Z.of_nat (length (pack (map tosix_at data))), pack (map tosix_at data)).
Proof. intros Hp. unfold sixpack. rewrite sixpack_loop_spec by easy. easy. Qed.

Lemma length_pack vs : (length (pack vs) = (length vs * 3 + 3) / 4)%nat.
Proof.
  induction vs as [|a|a b|a b c|a b c d vs IH] using list_ind4; try reflexivity.
  cbn [pack length]. rewrite IH.
  replace (S (S (S (S (length vs)))) * 3 + 3)%nat with ((length vs * 3 + 3) + 3 * 4)%nat by lia.
  rewrite Nat.div_add by lia. lia.
Qed.

Lemma sixpack_zero_iff data :
  bytes_ok data → (sixpack data).1 = 0 ↔ data = [] ∨ ¬ packable data.
Proof.
  intros Hok. split.
  - destruct (decide (packable data)) as [Hp|]; [|now right].
    rewrite sixpack_packable by easy. cbn [fst]. intros H. left.
    rewrite length_pack, length_map in H. destruct data as [|b data]; [easy|]. exfalso.
    cbn [length] in H. assert (1 <= (S (length data) * 3 + 3) / 4)%nat; [|lia].
    apply Nat.div_le_lower_bound; lia.
  - intros [->|Hn]; [easy|]. now apply sixpack_unpackable_loop.
Qed.

Lemma sixpack_unsixpack data :
  bytes_ok data → (sixpack data).1 ≠ 0 →
  unsixpack (sixpack data).2 = data ∧
  (sixpack data).1 = Z.of_nat (length (sixpack data).2) ∧
  (length (sixpack data).2 = (length data * 3 + 3) / 4)%nat.
Proof.
  intros Hok Hn. destruct (decide (packable data)) as [Hp|Hp].
  - rewrite sixpack_packable by easy. cbn [fst snd].
    split; [now apply unsixpack_pack|]. split; [easy|].
    now rewrite length_pack, length_map.
  - destruct Hn. apply sixpack_zero_iff; auto.
Qed.

(** A key that [sixpack] accepts is recovered by [unsixpack] from the bytes
    it stored, whatever its length modulo four, and the packed key is three
    quarters of the length, rounded up. *)
Theorem sixpack_roundtrip data :
  bytes_ok data → (sixpack data).1 ≠ 0 →
  unsixpack (sixpack data).2 = data ∧
  (sixpack data).1 = Z.of_nat (length (sixpack data).2) ∧
  (length (sixpack data).2 = (length data * 3 + 3) / 4)%nat.
Proof. apply sixpack_unsixpack. Qed.

Lemma sixpack_roundtrip_witness :
  unsixpack (sixpack [117; 115; 101; 114; 58; 49; 48]).2 = [117; 115; 101; 114; 58; 49; 48].
Proof.
  apply (sixpack_roundtrip [117; 115; 101; 114; 58; 49; 48]); [|vm_compute; congruence].
  repeat constructor; vm_compute; congruence.
Defined.

(** ** Order *)

Lemma tosix_mono x y :
  is_u8 x → is_u8 y → tosix_at x ≠ 0 → tosix_at y ≠ 0 →
  (tosix_at x =? tosix_at y) = (x =? y) ∧ (tosix_at x <? tosix_at y) = (x <? y).
Proof.
  intros Hx Hy Hnx Hny. pose proof (forallb_below (λ x, forallb (λ y,
    (tosix_at x =? 0) || (tosix_at y =? 0) ||
    (Bool.eqb (tosix_at x =? tosix_at y) (x =? y) &&
     Bool.eqb (tosix_at x <? tosix_at y) (x <? y))) (seqZ 0 256)) 256
    ltac:(vm_compute; reflexivity) x Hx) as H. cbv beta in H.
  pose proof (forallb_below _ 256 H y Hy) as H'. cbv beta in H'.
  rewrite (proj2 (Z.eqb_neq _ _) Hnx), (proj2 (Z.eqb_neq _ _) Hny) in H'.
  cbn [orb] in H'. apply andb_true_iff in H' as [H1 H2].
  now split; apply eqb_prop.
Qed.

Lemma lexcmp_tosix a b :
  packable a → packable b → lexcmp (map tosix_at a) (map tosix_at b) = lexcmp a b.
Proof.
  intros Ha. revert b. induction Ha as [|x a [? ?] _ IH]; intros b Hb;
    destruct Hb as [|y b [? ?] Hb]; try reflexivity.
  cbn [map lexcmp]. destruct (tosix_mono x y) as [-> ->]; try easy.
  now rewrite IH.
Qed.

(** A group of three bytes, or of four six-bit values, compares like the
    24-bit number it spells. *)
Lemma lexcmp_bytes3 x0 x1 x2 y0 y1 y2 p q :
  is_u8 x1 → is_u8 x2 → is_u8 y1 → is_u8 y2 →
  lexcmp (x0 :: x1 :: x2 :: p) (y0 :: y1 :: y2 :: q) =
  let N := 65536 * x0 + 256 * x1 + x2 in
  let M := 65536 * y0 + 256 * y1 + y2 in
  if N =? M then lexcmp p q else if N <? M then -1 else 1.
Proof.
  unfold is_u8. intros. cbn [lexcmp]. cbv zeta. repeat case_if; try reflexivity; lia.
Qed.

Lemma lexcmp_six4 a b c d a' b' c' d' p q :
  0 <= b < 64 → 0 <= c < 64 → 0 <= d < 64 → 0 <= b' < 64 → 0 <= c' < 64 → 0 <= d' < 64 →
  lexcmp (a :: b :: c :: d :: p) (a' :: b' :: c' :: d' :: q) =
  let N := 262144 * a + 4096 * b + 64 * c + d in
  let M := 262144 * a' + 4096 * b' + 64 * c' + d' in
  if N =? M then lexcmp p q else if N <? M then -1 else 1.
Proof.
  intros. cbn [lexcmp]. cbv zeta. repeat case_if; try reflexivity; lia.
Qed.

Lemma lexcmp_full_groups a b c d a' b' c' d' u v :
  is_six b → is_six c → is_six d → is_six b' → is_six c' → is_six d' →
  lexcmp (pack u) (pack v) = lexcmp u v →
  lexcmp (pack (a :: b :: c :: d :: u)) (pack (a' :: b' :: c' :: d' :: v)) =
  lexcmp (a :: b :: c :: d :: u) (a' :: b' :: c' :: d' :: v).
Proof.
  unfold is_six. intros ? ? ? ? ? ? IH. cbn [pack].
  rewrite lexcmp_six4, lexcmp_bytes3 by (unfold is_u8; dm). cbv zeta. rewrite IH.
  replace (65536 * (4 * a + b / 16) + 256 * (16 * (b mod 16) + c / 4) + (64 * (c mod 4) + d))
    with (262144 * a + 4096 * b + 64 * c + d) by dm.
  replace (65536 * (4 * a' + b' / 16) + 256 * (16 * (b' mod 16) + c' / 4) + (64 * (c' mod 4) + d'))
    with (262144 * a' + 4096 * b' + 64 * c' + d') by dm.
  easy.
Qed.

Ltac lex_arith :=
  unfold is_six in *; cbn [lexcmp]; repeat case_if; first [reflexivity | dm].

Lemma lexcmp_pack u v :
  Forall is_six u → Forall is_six v → lexcmp (pack u) (pack v) = lexcmp u v.
Proof.
  revert v. induction u as [|a|a b|a b c|a b c d u IH] using list_ind4; intros v Hu Hv.
  all: destruct v as [|a' [|b' [|c' [|d' v]]]]; repeat rewrite Forall_cons in Hu;
    repeat rewrite Forall_cons in Hv; destruct_and?; try reflexivity.
  all: try (apply lexcmp_full_groups; try easy; now apply IH).
  all: cbn [pack]; lex_arith.
Qed.

Lemma sixpack_lexcmp a b :
  bytes_ok a → bytes_ok b → (sixpack a).1 ≠ 0 → (sixpack b).1 ≠ 0 →
  lexcmp (sixpack a).2 (sixpack b).2 = lexcmp a b.
Proof.
  intros Ha Hb Hna Hnb.
  destruct (decide (packable a)) as [Hpa|Hpa]; [|destruct Hna; apply sixpack_zero_iff; auto].
  destruct (decide (packable b)) as [Hpb|Hpb]; [|destruct Hnb; apply sixpack_zero_iff; auto].
  rewrite !sixpack_packable by easy. cbn [snd].
  rewrite lexcmp_pack by now apply packable_six. now apply lexcmp_tosix.
Qed.

(** Packing preserves the order of keys: comparing two packed keys byte by
    byte orders them exactly as comparing the original keys, so that equal
    packed keys are equal keys and packed keys sort like the originals. *)
Theorem sixpack_order a b :
  bytes_ok a → bytes_ok b → (sixpack a).1 ≠ 0 → (sixpack b).1 ≠ 0 →
  lexcmp (sixpack a).2 (sixpack b).2 = lexcmp a b.
Proof. apply sixpack_lexcmp. Qed.

Lemma sixpack_order_witness :
  lexcmp (sixpack [97; 98]).2 (sixpack [97; 98; 45]).2 = -1.
Proof.
  rewrite (sixpack_order [97; 98] [97; 98; 45]); [reflexivity|..].
  1,2: repeat constructor; vm_compute; congruence.
  all: vm_compute; congruence.
Defined.
