(* ===== verification/Context.v ===== *)
(** * Context: options, the internal context and the load factor

    [struct pogocache_opts] of [src/src/pogocache.h], [struct pgctx] and
    [opts_to_ctx] of [src/src/pogocache.c]. The load factor is a C [double];
    it is computed here with the IEEE 754 binary64 operations of [SpecFloat],
    so that the growth thresholds are the ones the program computes. *)

From Stdlib Require Import SpecFloat.
From S2P Require Import Prelude.

(** ** Constants *)

Definition MINLOADFACTOR_RH : Z := 55.
Definition MAXLOADFACTOR_RH : Z := 95.
Definition DEFLOADFACTOR : Z := 75.
Definition SHRINKAT : Z := 10.
Definition DEFSHARDS : Z := 4096.
Definition INITCAP : Z := 64.

Definition POGOCACHE_INSERTED : Z := 1.
Definition POGOCACHE_REPLACED : Z := 2.
Definition POGOCACHE_FOUND : Z := 3.
Definition POGOCACHE_NOTFOUND : Z := 4.
Definition POGOCACHE_DELETED : Z := 5.
Definition POGOCACHE_FINISHED : Z := 6.
Definition POGOCACHE_CANCELED : Z := 7.
Definition POGOCACHE_NOMEM : Z := 8.

Definition POGOCACHE_ITER_CONTINUE : Z := 0.
Definition POGOCACHE_ITER_STOP : Z := 1.
Definition POGOCACHE_ITER_DELETE : Z := 2.

Definition POGOCACHE_REASON_EXPIRED : Z := 1.
Definition POGOCACHE_REASON_LOWMEM : Z := 2.
Definition POGOCACHE_REASON_CLEARED : Z := 3.

(** ** Doubles *)

Abbreviation double := spec_float.

Definition double_of_int (x : Z) : double := binary_normalize 53 1024 x 0 false.
Definition double_div (x y : double) : double := SFdiv 53 1024 x y.
Definition double_mul (x y : double) : double := SFmul 53 1024 x y.

(** Conversion of a [double] to an integer, towards zero. *)
Definition int_of_double (x : double) : Z :=
  match x with
  | S754_finite s m e =>
      let v := if 0 <=? e then Z.pos m * 2 ^ e else Z.pos m / 2 ^ (- e) in
      if s then - v else v
  | _ => 0
  end.

(** [(int)(n * factor)]. *)
Definition scale (n : Z) (factor : double) : Z :=
  int_of_double (double_mul (double_of_int n) factor).

(** ** Options and context *)

(** [struct pogocache_opts]; the callbacks appear as flags, see [Heap.v]. *)
Record pogocache_opts := {
  o_evicted : bool;
  o_usecas : bool;
  o_nosixpack : bool;
  o_noevict : bool;
  o_allowshrink : bool;
  o_usethreadbatch : bool;
  o_nshards : Z;
  o_loadfactor : Z;
  o_seed : Z
}.

(** [struct pgctx]. [evicted] tells whether the callback is set. *)
Record pgctx := {
  evicted : bool;
  usecas : bool;
  nosixpack : bool;
  noevict : bool;
  allowshrink : bool;
  usethreadbatch : bool;
  nshards : Z;
  loadfactor : double;
  shrinkfactor : double;
  seed : Z
}.

(** The clamping of the load factor option. *)
Definition clamp_loadfactor (lf : Z) : Z :=
  if lf =? 0 then DEFLOADFACTOR
  else if lf <? MINLOADFACTOR_RH then MINLOADFACTOR_RH
  else if MAXLOADFACTOR_RH <? lf then MAXLOADFACTOR_RH
  else lf.

Definition factor_of (percent : Z) : double :=
  double_div (double_of_int percent) (double_of_int 100).

Definition opts_to_ctx (nshards : Z) (opts : pogocache_opts) : pgctx := {|
  evicted := o_evicted opts;
  usecas := o_usecas opts;
  nosixpack := o_nosixpack opts;
  noevict := o_noevict opts;
  allowshrink := o_allowshrink opts;
  usethreadbatch := o_usethreadbatch opts;
  nshards := nshards;
  loadfactor := factor_of (clamp_loadfactor (o_loadfactor opts));
  shrinkfactor := factor_of SHRINKAT;
  seed := o_seed opts
|}.

(** ** Thresholds *)

(** The contexts [opts_to_ctx] builds. *)
Definition ctx_ok (ctx : pgctx) : Prop :=
  ∃ lf, MINLOADFACTOR_RH <= lf <= MAXLOADFACTOR_RH ∧
    loadfactor ctx = factor_of lf ∧ shrinkfactor ctx = factor_of SHRINKAT.

Lemma opts_to_ctx_ok n opts : ctx_ok (opts_to_ctx n opts).
Proof.
  exists (clamp_loadfactor (o_loadfactor opts)). split; [|easy].
  unfold clamp_loadfactor, MINLOADFACTOR_RH, MAXLOADFACTOR_RH, DEFLOADFACTOR.
  repeat case_if; lia.
Qed.
#[export] Hint Resolve opts_to_ctx_ok : pogo.

(** Bucket counts: powers of two from [INITCAP] up to what an [int] holds. *)
Definition cap_ok (n : Z) : Prop := ∃ k, 6 <= k <= 30 ∧ n = 2 ^ k.

Lemma scale_exact_check :
  forallb (λ lf, forallb (λ k,
    scale (2 ^ (k + 6)) (factor_of (lf + 10)) =? 2 ^ (k + 6) * (lf + 10) / 100)
    (seqZ 0 25)) (seqZ 0 86) = true.
Proof. vm_compute. reflexivity. Qed.

(** The floating point thresholds are the exact integer percentages. *)
Lemma scale_exact lf n :
  10 <= lf <= 95 → cap_ok n → scale n (factor_of lf) = n * lf / 100.
Proof.
  intros Hlf (k & Hk & ->).
  pose proof (forallb_below _ 86 scale_exact_check (lf - 10)) as H. cbv beta in H.
  specialize (H ltac:(lia)). pose proof (forallb_below _ 25 H (k - 6)) as H'.
  cbv beta in H'. specialize (H' ltac:(lia)). zb.
  now replace (k - 6 + 6) with k in H' by lia; replace (lf - 10 + 10) with lf in H' by lia.
Qed.

Lemma cap_ok_range n : cap_ok n → 64 <= n <= 2 ^ 30.
Proof.
  intros (k & Hk & ->). split; [change 64 with (2 ^ 6)|]; apply Z.pow_le_mono_r; lia.
Qed.

Lemma growat_facts ctx n :
  ctx_ok ctx → cap_ok n →
  0 < scale n (loadfactor ctx) < n ∧
  scale n (shrinkfactor ctx) = n / 10 ∧
  (2 * n <= 2 ^ 30 → 2 * n / 10 < scale n (loadfactor ctx)).
Proof.
  intros (lf & Hlf & -> & ->) Hn. pose proof (cap_ok_range n Hn).
  unfold MINLOADFACTOR_RH, MAXLOADFACTOR_RH, SHRINKAT in *.
  rewrite !scale_exact by (lia || easy).
  split; [|split].
  - split; [apply Z.div_str_pos; nia|]. apply Z.div_lt_upper_bound; nia.
  - dm.
  - intros _. apply Z.lt_le_trans with (n * 55 / 100); [dm|].
    apply Z.div_le_mono; nia.
Qed.

(** For every load factor option and every bucket count, the growth
    threshold computed in floating point is positive and leaves at least one
    bucket free, the shrink threshold is an exact tenth, and the growth
    threshold of the map that results from halving exceeds the shrink
    threshold that triggered it, so a shrunk map never needs to grow. *)
Theorem growat_bounds ctx n :
  ctx_ok ctx → cap_ok n →
  0 < scale n (loadfactor ctx) < n ∧
  scale n (shrinkfactor ctx) = n / 10 ∧
  (2 * n <= 2 ^ 30 → 2 * n / 10 < scale n (loadfactor ctx)).
Proof. apply growat_facts. Qed.

Definition default_opts : pogocache_opts := {|
  o_evicted := false; o_usecas := false; o_nosixpack := false; o_noevict := false;
  o_allowshrink := false; o_usethreadbatch := false; o_nshards := 0;
  o_loadfactor := 0; o_seed := 0 |}.

Lemma growat_bounds_witness :
  scale 64 (loadfactor (opts_to_ctx 1 default_opts)) = 48 ∧
  0 < scale 64 (loadfactor (opts_to_ctx 1 default_opts)) < 64.
Proof.
  split; [reflexivity|].
  apply (growat_bounds (opts_to_ctx 1 default_opts) 64); [apply opts_to_ctx_ok|].
  exists 6. vm_compute. repeat split; congruence.
Defined.
