(* ===== verification/Entry.v ===== *)
(** * Entry: the packed entry

    An entry of [src/src/pogocache.c] is one allocation with all fields
    "slammed together contiguously": header, time, optional expires, flags and
    cas, key and value. Here it is the list of its bytes; the accessors walk
    it the way the code walks a pointer. The file proves that the accessors
    recover what [entry_new] stored and that comparing entries compares keys. *)

From S2P Require Import Prelude Util Sixpack Context.

(** [sizeof(etime_t)], with [HALFSECONDTIME] undefined. *)
Definition sizeof_etime : nat := 8.

(** [(hdr >> k) & 1] as a condition. *)
Definition hdr_bit (hdr k : Z) : bool := negb ((hdr .>> k) .& 1 =? 0).

Definition hdr_of (entry : bytes) : Z := nth 0 entry 0.

Definition entry_expires (entry : bytes) : Z :=
  let hdr := hdr_of entry in
  let p := drop 1 entry in
  let p := drop sizeof_etime p in
  if hdr_bit hdr 0 then i64 (le_get (take 8 p)) else 0.

Definition entry_time (entry : bytes) : Z :=
  i64 (le_get (take sizeof_etime (drop 1 entry))).

Definition entry_settime (entry : bytes) (time : Z) : bytes :=
  take 1 entry ++ le_put sizeof_etime time ++ drop (1 + sizeof_etime) entry.

Definition entry_alive_exp (expires etime now cleartime : Z) : Z :=
  if etime <? cleartime then POGOCACHE_REASON_CLEARED
  else if (0 <? expires) && (expires <=? now) then POGOCACHE_REASON_EXPIRED
  else 0.

Definition entry_alive (entry : bytes) (now cleartime : Z) : Z :=
  let etime := entry_time entry in
  let expires := entry_expires entry in
  entry_alive_exp expires etime now cleartime.

Definition entry_cas (entry : bytes) : Z :=
  let hdr := hdr_of entry in
  let p := drop 1 entry in
  let p := drop sizeof_etime p in
  let p := if hdr_bit hdr 0 then drop 8 p else p in
  let p := if hdr_bit hdr 1 then drop 4 p else p in
  if hdr_bit hdr 2 then le_get (take 8 p) else 0.

(** [p += varint_read_u64(p, 10, &x)]: the value and the new pointer. *)
Definition read_len (p : bytes) : Z * bytes :=
  let '(n, x) := varint_read_u64 (take 10 p) in
  (x, drop (Z.to_nat n) p).

(** [entry_rawkey]: the key as stored. *)
Definition entry_rawkey (entry : bytes) : bytes :=
  let hdr := hdr_of entry in
  let p := drop 1 entry in
  let p := drop sizeof_etime p in
  let p := if hdr_bit hdr 0 then drop 8 p else p in
  let p := if hdr_bit hdr 1 then drop 4 p else p in
  let p := if hdr_bit hdr 2 then drop 8 p else p in
  let '(x, p) := read_len p in
  take (Z.to_nat x) p.

(** [entry_key]: the key, unpacked when it is stored sixpacked. *)
Definition entry_key (entry : bytes) : bytes :=
  let hdr := hdr_of entry in
  let p := drop 1 entry in
  let p := drop sizeof_etime p in
  let p := if hdr_bit hdr 0 then drop 8 p else p in
  let p := if hdr_bit hdr 1 then drop 4 p else p in
  let p := if hdr_bit hdr 2 then drop 8 p else p in
  let '(x, p) := read_len p in
  let key := take (Z.to_nat x) p in
  if hdr_bit hdr 3 then unsixpack key else key.

Definition entry_sixpacked (entry : bytes) : bool := hdr_bit (hdr_of entry) 3.

(** What [entry_extract] stores through its output parameters, and the size
    it returns. *)
Record extracted := {
  x_key : bytes; x_val : bytes; x_expires : Z; x_flags : Z; x_cas : Z; x_size : Z
}.

Definition entry_extract (ctx : pgctx) (entry : bytes) : extracted :=
  let hdr := hdr_of entry in
  let p := drop 1 entry in
  let p := drop sizeof_etime p in
  let '(expires, p) :=
    if hdr_bit hdr 0 then (i64 (le_get (take 8 p)), drop 8 p) else (0, p) in
  let '(flags, p) :=
    if hdr_bit hdr 1 then (le_get (take 4 p), drop 4 p) else (0, p) in
  let '(cas, p) :=
    if usecas ctx then (le_get (take 8 p), drop 8 p) else (0, p) in
  let '(x, p) := read_len p in
  let key := take (Z.to_nat x) p in
  let key := if hdr_bit hdr 3 then unsixpack key else key in
  let p := drop (Z.to_nat x) p in
  let '(x, p) := read_len p in
  let val := take (Z.to_nat x) p in
  let p := drop (Z.to_nat x) p in
  {| x_key := key; x_val := val; x_expires := expires; x_flags := flags;
     x_cas := cas; x_size := Z.of_nat (length entry) - Z.of_nat (length p) |}.

Definition entry_memsize (ctx : pgctx) (entry : bytes) : Z :=
  let hdr := hdr_of entry in
  let p := drop 1 entry in
  let p := drop sizeof_etime p in
  let p := if hdr_bit hdr 0 then drop 8 p else p in
  let p := if hdr_bit hdr 1 then drop 4 p else p in
  let p := if usecas ctx then drop 8 p else p in
  let '(x, p) := read_len p in
  let p := drop (Z.to_nat x) p in
  let '(x, p) := read_len p in
  let p := drop (Z.to_nat x) p in
  Z.of_nat (length entry) - Z.of_nat (length p).

(** The key [entry_new] stores: packed if the options and the key allow it,
    with the header bit that says so. *)
Definition store_key (ctx : pgctx) (key : bytes) : Z * bytes :=
  let usesixpack := negb (nosixpack ctx) in
  if usesixpack && (Z.of_nat (length key) <=? 128) then
    let '(len, buf) := sixpack key in
    if 0 <? len then (8, buf) else (0, key)
  else (0, key).

(** The header [entry_new] computes. *)
Definition entry_hdr (ctx : pgctx) (expires flags : Z) (six : Z) : Z :=
  let hdr := 0 in
  let hdr := if 0 <? expires then hdr .| 1 else hdr in
  let hdr := if 0 <? flags then hdr .| 2 else hdr in
  let hdr := if usecas ctx then hdr .| 4 else hdr in
  hdr .| six.

(** The bytes [entry_new] writes into the block it allocated, of [size]
    bytes; the allocation itself is in [Heap.v]. *)
Definition entry_image (ctx : pgctx) (key val : bytes) (expires flags cas : Z) : bytes :=
  let '(six, key) := store_key ctx key in
  let hdr := entry_hdr ctx expires flags six in
  let keylenbuf := varint_write_u64 (Z.of_nat (length key)) in
  let vallenbuf := varint_write_u64 (Z.of_nat (length val)) in
  [hdr] ++ repeat 0 sizeof_etime ++
  (if 0 <? expires then le_put 8 expires else []) ++
  (if 0 <? flags then le_put 4 flags else []) ++
  (if usecas ctx then le_put 8 cas else []) ++
  keylenbuf ++ key ++ vallenbuf ++ val.

(** The [size] that [entry_new] asks [malloc] for. *)
Definition entry_new_size (ctx : pgctx) (key val : bytes) (expires flags : Z) : Z :=
  let nexplen := if 0 <? expires then 8 else 0 in
  let nflagslen := if 0 <? flags then 4 else 0 in
  let ncaslen := if usecas ctx then 8 else 0 in
  let '(_, key) := store_key ctx key in
  let nkeylen := Z.of_nat (length (varint_write_u64 (Z.of_nat (length key)))) in
  let nvallen := Z.of_nat (length (varint_write_u64 (Z.of_nat (length val)))) in
  0 + 1 + Z.of_nat sizeof_etime + nexplen + nflagslen + ncaslen + nkeylen +
  Z.of_nat (length key) + nvallen + Z.of_nat (length val).

Definition entry_compare (a b : bytes) : Z :=
  let '(akey, bkey) :=
    if Bool.eqb (entry_sixpacked a) (entry_sixpacked b) then
      (entry_rawkey a, entry_rawkey b)
    else (entry_key a, entry_key b) in
  let cmp := memcmp akey bkey in
  if cmp =? 0 then
    if (length akey <? length bkey)%nat then -1
    else if (length bkey <? length akey)%nat then 1 else 0
  else cmp.

(** ** Logical entries *)

(** What an entry says, without its encoding. *)
Record ent := Ent {
  e_key : bytes; e_val : bytes; e_expires : Z; e_flags : Z; e_cas : Z; e_time : Z
}.

Definition ent_ok (ctx : pgctx) (x : ent) : Prop :=
  bytes_ok (e_key x) ∧ Z.of_nat (length (e_key x)) < 2 ^ 64 ∧
  Z.of_nat (length (e_val x)) < 2 ^ 64 ∧
  0 <= e_expires x < 2 ^ 63 ∧ is_u32 (e_flags x) ∧ is_u64 (e_cas x) ∧
  (usecas ctx = false → e_cas x = 0) ∧ is_i64 (e_time x).

(** The bytes of a logical entry. *)
Definition encode (ctx : pgctx) (x : ent) : bytes :=
  let '(six, rk) := store_key ctx (e_key x) in
  [entry_hdr ctx (e_expires x) (e_flags x) six] ++ le_put 8 (e_time x) ++
  (if 0 <? e_expires x then le_put 8 (e_expires x) else []) ++
  (if 0 <? e_flags x then le_put 4 (e_flags x) else []) ++
  (if usecas ctx then le_put 8 (e_cas x) else []) ++
  varint_write_u64 (Z.of_nat (length rk)) ++ rk ++
  varint_write_u64 (Z.of_nat (length (e_val x))) ++ e_val x.

(** ** Reading back what was written *)

Lemma hdr_bits ctx expires flags six :
  six = 0 ∨ six = 8 →
  let hdr := entry_hdr ctx expires flags six in
  hdr_bit hdr 0 = (0 <? expires) ∧ hdr_bit hdr 1 = (0 <? flags) ∧
  hdr_bit hdr 2 = usecas ctx ∧ hdr_bit hdr 3 = (six =? 8).
Proof.
  intros Hs. unfold entry_hdr.
  destruct (0 <? expires), (0 <? flags), (usecas ctx), Hs as [-> | ->];
    vm_compute; auto.
Qed.

Lemma read_len_varint n rest :
  is_u64 n → read_len (varint_write_u64 n ++ rest) = (n, rest).
Proof.
  intros Hn. unfold read_len.
  rewrite take_app_ge by now apply length_varint.
  rewrite varint_read_write by easy. rewrite Nat2Z.id. now rewrite drop_app_length.
Qed.

Lemma store_key_spec ctx key :
  bytes_ok key → Z.of_nat (length key) < 2 ^ 64 →
  let '(six, rk) := store_key ctx key in
  (six = 0 ∧ rk = key ∨
   six = 8 ∧ unsixpack rk = key ∧ rk = (sixpack key).2 ∧ (sixpack key).1 ≠ 0) ∧
  is_u64 (Z.of_nat (length rk)).
Proof.
  intros Hok Hlen. unfold store_key, is_u64.
  destruct (negb (nosixpack ctx) && _) eqn:E; [|split; [now left|lia]].
  destruct (sixpack key) as [len buf] eqn:Es. case_if; [|split; [now left|lia]]. zb.
  destruct (sixpack_unsixpack key Hok) as (H1 & H2 & H3); rewrite Es in *; cbn [fst snd] in *;
    [lia|]. split; [right; repeat split; auto; lia|].
  rewrite H3. split; [lia|]. 
  assert ((length key * 3 + 3) / 4 <= length key + 1)%nat; [|lia].
  apply Nat.Div0.div_le_upper_bound. lia.
Qed.

(** Skipping the header and the time; skipping an optional field. *)
Lemma skip_time h t rest : drop sizeof_etime (drop 1 (h :: le_put 8 t ++ rest)) = rest.
Proof. cbn [drop]. rewrite drop_0. apply (drop_put 8). Qed.

Lemma skip_opt (c : bool) n v l :
  (if c then drop n ((if c then le_put n v else []) ++ l)
   else (if c then le_put n v else []) ++ l) = l.
Proof. destruct c; [apply drop_put|easy]. Qed.

Lemma read_opt {A} (c : bool) (f : bytes → A) (d : A) n v l :
  (if c then (f (take n ((if c then le_put n v else []) ++ l)),
              drop n ((if c then le_put n v else []) ++ l))
   else (d, (if c then le_put n v else []) ++ l)) =
  (if c then f (le_put n v) else d, l).
Proof. destruct c; [now rewrite take_put, drop_put|easy]. Qed.

Section Encoded.
Context (ctx : pgctx) (x : ent) (Hx : ent_ok ctx x).

(** The layout of an encoded entry, with the facts about its header. *)
Lemma encode_layout : ∃ six rk,
  encode ctx x = entry_hdr ctx (e_expires x) (e_flags x) six :: le_put 8 (e_time x) ++
    (if 0 <? e_expires x then le_put 8 (e_expires x) else []) ++
    (if 0 <? e_flags x then le_put 4 (e_flags x) else []) ++
    (if usecas ctx then le_put 8 (e_cas x) else []) ++
    varint_write_u64 (Z.of_nat (length rk)) ++ rk ++
    varint_write_u64 (Z.of_nat (length (e_val x))) ++ e_val x ∧
  store_key ctx (e_key x) = (six, rk) ∧ is_u64 (Z.of_nat (length rk)) ∧
  (if six =? 8 then unsixpack rk else rk) = e_key x ∧
  (six = 0 ∨ six = 8) ∧
  (six = 8 → rk = (sixpack (e_key x)).2 ∧ (sixpack (e_key x)).1 ≠ 0).
Proof.
  destruct Hx as (Hk & Hkl & _). unfold encode.
  pose proof (store_key_spec ctx (e_key x) Hk Hkl) as Hsk.
  destruct (store_key ctx (e_key x)) as [six rk]. destruct Hsk as [Hsix Hrk].
  exists six, rk. split; [easy|]. split; [easy|]. split; [easy|].
  destruct Hsix as [[-> ->]|(-> & ? & ? & ?)];
    (split; [easy|]; split; [auto|]); [discriminate|auto].
Qed.

(** Opens the layout and the header bits. *)
Ltac layout :=
  destruct encode_layout as (six & rk & -> & Hst & Hrk & Hkey & Hsix & Hpk);
  destruct (hdr_bits ctx (e_expires x) (e_flags x) six Hsix) as (Hb0 & Hb1 & Hb2 & Hb3);
  destruct Hx as (Hk & Hkl & Hvl & Hexp & Hflags & Hcas & Hcas0 & Htime);
  unfold hdr_of; cbn [nth]; rewrite ?skip_time, ?Hb0, ?Hb1, ?Hb2, ?Hb3, ?skip_opt.

Lemma expires_i64 : is_i64 (e_expires x).
Proof. destruct Hx as (_ & _ & _ & Hexp & _). unfold is_i64. lia. Qed.

Lemma vallen_u64 : is_u64 (Z.of_nat (length (e_val x))).
Proof. destruct Hx as (_ & _ & Hvl & _). unfold is_u64. lia. Qed.

Lemma encode_time : entry_time (encode ctx x) = e_time x.
Proof.
  unfold entry_time. layout. cbn [drop]. rewrite drop_0, (take_put 8).
  now apply i64_get_put.
Qed.

Lemma encode_expires : entry_expires (encode ctx x) = e_expires x.
Proof.
  pose proof expires_i64. unfold entry_expires. layout.
  destruct (0 <? e_expires x) eqn:E; zb; [|lia].
  rewrite take_put. now apply i64_get_put.
Qed.

Lemma encode_cas : entry_cas (encode ctx x) = e_cas x.
Proof.
  unfold entry_cas. layout. destruct (usecas ctx); [|now rewrite Hcas0].
  rewrite take_put. now apply le_get_put_id.
Qed.

Lemma encode_rawkey : entry_rawkey (encode ctx x) = (store_key ctx (e_key x)).2.
Proof.
  unfold entry_rawkey. layout. rewrite read_len_varint, Hst by easy. cbn [snd].
  rewrite Nat2Z.id. apply take_app_length.
Qed.

Lemma encode_key : entry_key (encode ctx x) = e_key x.
Proof.
  unfold entry_key. layout. rewrite read_len_varint, Nat2Z.id by easy.
  now rewrite take_app_length.
Qed.

Lemma encode_sixpacked : entry_sixpacked (encode ctx x) = ((store_key ctx (e_key x)).1 =? 8).
Proof. unfold entry_sixpacked. layout. now rewrite Hst. Qed.

Lemma encode_memsize : entry_memsize ctx (encode ctx x) = Z.of_nat (length (encode ctx x)).
Proof.
  pose proof vallen_u64. unfold entry_memsize. layout.
  rewrite !read_len_varint, !Nat2Z.id, drop_app_length, read_len_varint, Nat2Z.id by easy.
  rewrite drop_ge by lia. cbn [length]. lia.
Qed.

Lemma encode_extract : entry_extract ctx (encode ctx x) =
  {| x_key := e_key x; x_val := e_val x; x_expires := e_expires x;
     x_flags := e_flags x; x_cas := e_cas x;
     x_size := Z.of_nat (length (encode ctx x)) |}.
Proof.
  pose proof vallen_u64. pose proof expires_i64. unfold entry_extract.
  layout. rewrite (read_opt _ (λ b, i64 (le_get b))), (read_opt _ le_get).
  rewrite (read_opt _ le_get).
  rewrite !read_len_varint, !Nat2Z.id, drop_app_length, read_len_varint, Nat2Z.id by easy.
  rewrite take_app_length, Hkey, drop_ge, take_ge by lia. f_equal.
  - destruct (0 <? e_expires x) eqn:E; zb; [now apply i64_get_put|lia].
  - destruct (0 <? e_flags x) eqn:E; zb; unfold is_u32 in *; [|lia].
    apply le_get_put_id. cbn. lia.
  - destruct (usecas ctx); [now apply le_get_put_id|now rewrite Hcas0].
Qed.

Lemma encode_settime t :
  entry_settime (encode ctx x) t =
  encode ctx (Ent (e_key x) (e_val x) (e_expires x) (e_flags x) (e_cas x) t).
Proof.
  unfold entry_settime, encode. cbn [e_key e_val e_expires e_flags e_cas e_time].
  destruct (store_key ctx (e_key x)) as [six rk]. reflexivity.
Qed.
End Encoded.

(** What [entry_new] leaves in memory is the encoding with a zero time. *)
Lemma entry_image_encode ctx key val expires flags cas :
  0 <= expires →
  entry_image ctx key val expires flags cas =
  encode ctx (Ent key val expires flags (if usecas ctx then cas else 0) 0).
Proof.
  intros. unfold entry_image, encode. cbn [e_key e_val e_expires e_flags e_cas e_time].
  destruct (store_key ctx key) as [six rk]. now destruct (usecas ctx).
Qed.

(** C34: Every field stored by [entry_new] and [entry_settime] is read back
    unchanged by [entry_extract], [entry_time], [entry_expires], [entry_cas] and
    [entry_key], for every combination of optional fields and with or without
    key packing, and the sizes agree: [entry_memsize] and the size returned by
    [entry_extract] are the size that was allocated. *)
Theorem entry_roundtrip ctx key val expires flags cas time :
  let x := Ent key val expires flags (if usecas ctx then cas else 0) time in
  let entry := entry_settime (entry_image ctx key val expires flags cas) time in
  ent_ok ctx x →
  entry_extract ctx entry =
    {| x_key := key; x_val := val; x_expires := expires; x_flags := flags;
       x_cas := if usecas ctx then cas else 0;
       x_size := entry_new_size ctx key val expires flags |} ∧
  entry_time entry = time ∧ entry_expires entry = expires ∧
  entry_cas entry = (if usecas ctx then cas else 0) ∧ entry_key entry = key ∧
  entry_memsize ctx entry = entry_new_size ctx key val expires flags ∧
  Z.of_nat (length entry) = entry_new_size ctx key val expires flags.
Proof.
  intros x entry Hx.
  assert (entry = encode ctx x) as ->.
  { unfold entry. rewrite entry_image_encode by apply Hx. apply encode_settime. }
  assert (Z.of_nat (length (encode ctx x)) = entry_new_size ctx key val expires flags) as Hl.
  { unfold encode, entry_new_size. cbn [e_key e_val e_expires e_flags e_cas e_time x].
    destruct (store_key ctx key) as [six rk]. rewrite !length_app, !length_le_put.
    destruct (0 <? expires), (0 <? flags), (usecas ctx); cbn [length sizeof_etime];
      rewrite ?length_le_put; unfold sizeof_etime; lia. }
  rewrite encode_extract, encode_time, encode_expires, encode_cas, encode_key,
    encode_memsize, Hl by easy.
  repeat split.
Qed.

Definition ctx0 : pgctx := opts_to_ctx 1 default_opts.

Lemma entry_roundtrip_witness :
  entry_key (entry_settime (entry_image ctx0 [97; 98] [1; 2; 3] 55 7 9) 1234) = [97; 98].
Proof.
  apply (entry_roundtrip ctx0 [97; 98] [1; 2; 3] 55 7 9 1234).
  unfold ent_ok, bytes_ok. cbn [e_key e_val e_expires e_flags e_cas e_time].
  split; [repeat constructor; vm_compute; congruence|].
  vm_compute. repeat split; congruence.
Defined.

(** ** Comparison *)

Lemma store_key_injective_case ctx a b :
  bytes_ok a → bytes_ok b → Z.of_nat (length a) < 2 ^ 64 → Z.of_nat (length b) < 2 ^ 64 →
  ((store_key ctx a).1 =? 8) = ((store_key ctx b).1 =? 8) →
  lexcmp (store_key ctx a).2 (store_key ctx b).2 = lexcmp a b.
Proof.
  intros Ha Hb Hla Hlb. pose proof (store_key_spec ctx a Ha Hla) as H1.
  pose proof (store_key_spec ctx b Hb Hlb) as H2.
  destruct (store_key ctx a) as [s1 r1], (store_key ctx b) as [s2 r2]. cbn [fst snd].
  destruct H1 as [[[-> ->]|(-> & _ & -> & Hs1)] _], H2 as [[[-> ->]|(-> & _ & -> & Hs2)] _];
    cbn; try discriminate; intros _; [easy|]. now apply sixpack_lexcmp.
Qed.

Lemma entry_compare_lex ctx x y :
  ent_ok ctx x → ent_ok ctx y →
  entry_compare (encode ctx x) (encode ctx y) = lexcmp (e_key x) (e_key y).
Proof.
  intros Hx Hy. unfold entry_compare.
  rewrite !encode_sixpacked, !encode_rawkey, !encode_key by easy.
  destruct (Bool.eqb _ _) eqn:E; rewrite memcmp_lexcmp; [|easy].
  apply eqb_prop in E. destruct Hx as (? & ? & _), Hy as (? & ? & _).
  now apply store_key_injective_case.
Qed.

(** [entry_compare] orders entries exactly as their keys are ordered
    lexicographically, whether both, one or none of the keys is stored
    packed; in particular it is zero exactly when the keys are equal. *)
Theorem entry_compare_keys ctx x y :
  ent_ok ctx x → ent_ok ctx y →
  entry_compare (encode ctx x) (encode ctx y) = lexcmp (e_key x) (e_key y) ∧
  (entry_compare (encode ctx x) (encode ctx y) = 0 ↔ e_key x = e_key y).
Proof. intros Hx Hy. rewrite entry_compare_lex by easy. split; [easy|apply lexcmp_eq]. Qed.

Definition ent_ab : ent := Ent [97; 98] [1] 0 0 0 5.
Definition ent_space : ent := Ent [97; 32] [1] 0 0 0 5.

Lemma ent_ab_ok : ent_ok ctx0 ent_ab.
Proof.
  unfold ent_ok, bytes_ok. cbn. split; [repeat constructor; vm_compute; congruence|].
  vm_compute. repeat split; congruence.
Qed.
Lemma ent_space_ok : ent_ok ctx0 ent_space.
Proof.
  unfold ent_ok, bytes_ok. cbn. split; [repeat constructor; vm_compute; congruence|].
  vm_compute. repeat split; congruence.
Qed.

Lemma entry_compare_keys_witness :
  entry_compare (encode ctx0 ent_ab) (encode ctx0 ent_space) = 1.
Proof.
  destruct (entry_compare_keys ctx0 ent_ab ent_space ent_ab_ok ent_space_ok) as [-> _].
  reflexivity.
Defined.
