(* ===== verification/Heap.v ===== *)
(** * Heap: allocation, the eviction callback and entries in memory

    The engine calls [malloc] and [free] through its context and reports
    evictions through the [evicted] callback. Both are code of the embedding
    program: the allocator is a parameter, and the calls of the callback are
    recorded in a log. A [None] result of an operation stands for undefined
    behaviour: a dangling pointer, a double free, a failed assertion, an index
    out of bounds, or a loop that does not end. *)

From S2P Require Import Prelude Util Context Entry.

Abbreviation heap := (gmap Z bytes).

(** The arguments a callback gets about an entry. *)
Record view := View {
  v_shard : Z; v_time : Z; v_key : bytes; v_val : bytes; v_expires : Z; v_flags : Z;
  v_cas : Z
}.

(** One call of the [evicted] callback. *)
Record event := Event { ev_reason : Z; ev_view : view }.

(** Entries by address, the number of allocations so far, evictions so far. *)
Record world := World { w_heap : heap; w_tick : nat; w_log : list event }.

(** What the embedding program provides: an allocator, which may fail at any
    call, and the indeterminate content of the stack slots that [resize] leaves
    uninitialised ([total] and [entsize] of its local [map2]). *)
Class Env := {
  env_malloc : nat → heap → Z → option Z;
  env_stack : nat → Z * Z
}.

(** The allocator returns fresh, non-null 48-bit addresses. *)
Class EnvOk (E : Env) : Prop :=
  env_malloc_fresh : ∀ t h n p,
    env_malloc t h n = Some p → h !! p = None ∧ 0 < p < 2 ^ 48.

(** [ctx->malloc(size)]. *)
Definition do_malloc `{Env} (w : world) (size : Z) : option Z * world :=
  (env_malloc (w_tick w) (w_heap w) size, World (w_heap w) (S (w_tick w)) (w_log w)).

(** [ctx->free(p)] of an entry; freeing null does nothing. *)
Definition do_free (w : world) (p : Z) : option world :=
  if p =? 0 then Some w
  else _ ← w_heap w !! p; Some (World (delete p (w_heap w)) (w_tick w) (w_log w)).

Definition log_event (w : world) (e : event) : world :=
  World (w_heap w) (w_tick w) (w_log w ++ [e]).

Definition set_heap (w : world) (p : Z) (e : bytes) : world :=
  World (<[p := e]> (w_heap w)) (w_tick w) (w_log w).

(** [entry_new]: null ([0]) when there is no memory. *)
Definition entry_new `{Env} (ctx : pgctx) (w : world) (key val : bytes)
    (expires flags cas : Z) : Z * world :=
  let '(mem, w) := do_malloc w (entry_new_size ctx key val expires flags) in
  match mem with
  | None => (0, w)
  | Some p => (p, set_heap w p (entry_image ctx key val expires flags cas))
  end.

(** [entry_free]. *)
Definition entry_free (w : world) (entry : Z) : option world := do_free w entry.

(** [entry_settime] on an entry in memory. *)
Definition entry_settime_at (w : world) (entry time : Z) : option world :=
  e ← w_heap w !! entry; Some (set_heap w entry (entry_settime e time)).
