(* ===== verification/Map.v ===== *)
(** * Map: the robinhood hash map of a shard

    [struct bucket], [struct map] and the operations on them of
    [src/src/pogocache.c]: [map_init], [resize], [map_insert], [map_get_bucket],
    [delbkt], [map_delete], [tryshrink]. Buckets hold a 48-bit pointer, a 24-bit
    hash and an 8-bit distance ([dib]) that wraps; loops carry fuel, and running
    out of it is [None]. The proofs are in [MapInv.v] and [MapSpec.v]. *)

From S2P Require Import Prelude Util Context Entry Heap.

(** ** Buckets *)

Record bucket := Bucket { b_entry : bytes; b_hash : bytes; b_dib : Z }.

(** A bucket after [memset] to zero. *)
Definition zbucket : bucket := Bucket (repeat 0 6) (repeat 0 3) 0.

Definition sizeof_bucket : Z := 10.

(** [HASHSIZE == 3]. *)
Definition clip_hash (hash : Z) : Z := hash .& 0xFFFFFF.

Definition write_hash (hash : Z) : bytes :=
  [(hash .>> 0) .& 255; (hash .>> 8) .& 255; (hash .>> 16) .& 255].

Definition read_hash (data : bytes) : Z :=
  let d i := nth i data 0 in
  let hash := 0 in
  let hash := hash .| (d 0%nat .<< 0) in
  let hash := hash .| (d 1%nat .<< 8) in
  let hash := hash .| (d 2%nat .<< 16) in
  hash.

Definition get_entry (b : bucket) : Z := load_ptr (b_entry b).
Definition set_entry (b : bucket) (p : Z) : bucket :=
  Bucket (store_ptr p) (b_hash b) (b_dib b).
Definition get_hash (b : bucket) : Z := read_hash (b_hash b).
Definition set_hash (b : bucket) (hash : Z) : bucket :=
  Bucket (b_entry b) (write_hash hash) (b_dib b).
Definition get_dib (b : bucket) : Z := b_dib b.
Definition set_dib (b : bucket) (dib : Z) : bucket :=
  Bucket (b_entry b) (b_hash b) (u8 dib).

(** ** The map *)

(** [struct map]; an empty list of buckets is the null pointer. *)
Record map_t := Map {
  m_cap : Z; m_nbuckets : Z; m_count : Z; m_mask : Z; m_growat : Z;
  m_shrinkat : Z; m_buckets : list bucket; m_total : Z; m_entsize : Z
}.

Definition set_buckets (m : map_t) (bs : list bucket) : map_t :=
  Map (m_cap m) (m_nbuckets m) (m_count m) (m_mask m) (m_growat m) (m_shrinkat m)
    bs (m_total m) (m_entsize m).
Definition set_count (m : map_t) (n : Z) : map_t :=
  Map (m_cap m) (m_nbuckets m) n (m_mask m) (m_growat m) (m_shrinkat m)
    (m_buckets m) (m_total m) (m_entsize m).
Definition set_total (m : map_t) (n : Z) : map_t :=
  Map (m_cap m) (m_nbuckets m) (m_count m) (m_mask m) (m_growat m) (m_shrinkat m)
    (m_buckets m) n (m_entsize m).
Definition set_entsize (m : map_t) (n : Z) : map_t :=
  Map (m_cap m) (m_nbuckets m) (m_count m) (m_mask m) (m_growat m) (m_shrinkat m)
    (m_buckets m) (m_total m) n.

(** [buckets[i]], read and written; out of bounds is undefined. *)
Definition bget (bs : list bucket) (i : Z) : option bucket :=
  if i <? 0 then None else bs !! Z.to_nat i.
Definition bset (bs : list bucket) (i : Z) (b : bucket) : list bucket :=
  <[Z.to_nat i := b]> bs.

(** [map_init] on a struct whose [total] and [entsize] hold [total] and
    [entsize]: it does not set them, except to zero when there is no memory. *)
Definition map_init `{Env} (ctx : pgctx) (w : world) (total entsize cap : Z)
    : bool * map_t * world :=
  let size := sizeof_bucket * cap in
  let '(mem, w) := do_malloc w size in
  match mem with
  | None => (false, Map 0 0 0 0 0 0 [] 0 0, w)
  | Some _ =>
      (true, Map cap cap 0 (cap - 1) (scale cap (loadfactor ctx))
         (scale cap (shrinkfactor ctx)) (repeat zbucket (Z.to_nat cap)) total entsize, w)
  end.

(** The inner loop of [resize]: place [ebkt] into the new buckets. *)
Fixpoint resize_place (fuel : nat) (mask : Z) (bs : list bucket) (j : Z) (ebkt : bucket)
    : option (list bucket) :=
  match fuel with
  | O => None
  | S fuel =>
      b ← bget bs j;
      if get_dib b =? 0 then Some (bset bs j ebkt)
      else
        let '(bs, ebkt) :=
          if get_dib b <? get_dib ebkt then (bset bs j ebkt, b) else (bs, ebkt) in
        let j := (j + 1) .& mask in
        resize_place fuel mask bs j (set_dib ebkt (get_dib ebkt + 1))
  end.

(** The outer loop of [resize], over the old buckets. *)
Fixpoint resize_loop (old : list bucket) (mask : Z) (bs : list bucket)
    : option (list bucket) :=
  match old with
  | [] => Some bs
  | ebkt :: old =>
      if get_dib ebkt =? 0 then resize_loop old mask bs
      else
        let ebkt := set_dib ebkt 1 in
        let j := get_hash ebkt .& mask in
        bs ← resize_place (S (length bs)) mask bs j ebkt;
        resize_loop old mask bs
  end.

Definition resize `{Env} (ctx : pgctx) (w : world) (m : map_t) (new_cap : Z)
    : option (bool * map_t * world) :=
  let '(total, entsize) := env_stack (w_tick w) in
  let '(ok, map2, w) := map_init ctx w total entsize new_cap in
  if negb ok then Some (false, m, w)
  else
    bs ← resize_loop (take (Z.to_nat (m_nbuckets m)) (m_buckets m)) (m_mask map2)
           (m_buckets map2);
    Some (true, Map (m_cap m) (m_nbuckets map2) (m_count m) (m_mask map2)
            (m_growat map2) (m_shrinkat map2) bs (m_total map2) (m_entsize map2), w).

(** The test of [map_insert]: same hash and [entry_compare] says equal. *)
Definition same_entry (h : heap) (ebkt b : bucket) : option bool :=
  if get_hash ebkt =? get_hash b then
    ea ← h !! get_entry ebkt;
    eb ← h !! get_entry b;
    Some (entry_compare ea eb =? 0)
  else Some false.

(** The probe loop of [map_insert]: the new buckets and the replaced entry. *)
Fixpoint insert_loop (fuel : nat) (h : heap) (mask : Z) (bs : list bucket) (i : Z)
    (ebkt : bucket) : option (list bucket * option Z) :=
  match fuel with
  | O => None
  | S fuel =>
      b ← bget bs i;
      if get_dib b =? 0 then Some (bset bs i ebkt, None)
      else
        same ← same_entry h ebkt b;
        if (same : bool) then
          Some (bset bs i (set_entry b (get_entry ebkt)), Some (get_entry b))
        else
          let '(bs, ebkt) :=
            if get_dib b <? get_dib ebkt then (bset bs i ebkt, b) else (bs, ebkt) in
          let i := (i + 1) .& mask in
          insert_loop fuel h mask bs i (set_dib ebkt (get_dib ebkt + 1))
  end.

(** [map_insert]: success, the [*old] entry, and the new state. *)
Definition map_insert `{Env} (ctx : pgctx) (w : world) (m : map_t) (entry hash : Z)
    : option (bool * option Z * map_t * world) :=
  let hash := clip_hash hash in
  '(ok, m, w) ← (if m_growat m <=? m_count m then resize ctx w m (m_nbuckets m * 2)
                 else Some (true, m, w));
  if negb (ok : bool) then Some (false, None, m, w)
  else
    e ← w_heap w !! entry;
    let m := set_entsize m (u64 (m_entsize m + entry_memsize ctx e)) in
    let ebkt := set_dib (set_hash (set_entry zbucket entry) hash) 1 in
    let i := hash .& m_mask m in
    '(bs, old) ← insert_loop (S (length (m_buckets m))) (w_heap w) (m_mask m)
                   (m_buckets m) i ebkt;
    let m := set_buckets m bs in
    match old with
    | None =>
        let m := set_count m (m_count m + 1) in
        let m := set_total m (u64 (m_total m + 1)) in
        Some (true, None, m, w)
    | Some o =>
        eo ← w_heap w !! o;
        Some (true, Some o, set_entsize m (u64 (m_entsize m - entry_memsize ctx eo)), w)
    end.

(** [bucket_eq] at index [i]. *)
Definition bucket_eq (h : heap) (b : bucket) (key : bytes) (hash : Z) : option bool :=
  if negb (get_hash b =? hash) then Some false
  else
    e ← h !! get_entry b;
    let key2 := entry_key e in
    Some ((length key =? length key2)%nat && (memcmp key key2 =? 0)).

(** The probe loop that [map_get_bucket] and [map_delete] share. *)
Fixpoint probe_loop (fuel : nat) (h : heap) (mask : Z) (bs : list bucket) (i : Z)
    (key : bytes) (hash : Z) : option Z :=
  match fuel with
  | O => None
  | S fuel =>
      b ← bget bs i;
      if get_dib b =? 0 then Some (-1)
      else
        eq ← bucket_eq h b key hash;
        if (eq : bool) then Some i
        else probe_loop fuel h mask bs ((i + 1) .& mask) key hash
  end.

Definition map_get_bucket (h : heap) (m : map_t) (key : bytes) (hash : Z) : option Z :=
  let hash := clip_hash hash in
  let i := hash .& m_mask m in
  probe_loop (S (length (m_buckets m))) h (m_mask m) (m_buckets m) i key hash.

(** [map_get_entry]: null is [None] of the inner option. *)
Definition map_get_entry (h : heap) (m : map_t) (key : bytes) (hash : Z)
    : option (option Z) :=
  i ← map_get_bucket h m key hash;
  if 0 <=? i then b ← bget (m_buckets m) i; Some (Some (get_entry b)) else Some None.

(** The backward shift loop of [delbkt]; the hole is at [i]. *)
Fixpoint delbkt_loop (fuel : nat) (mask : Z) (bs : list bucket) (i : Z)
    : option (list bucket) :=
  match fuel with
  | O => None
  | S fuel =>
      let h := i in
      let i := (i + 1) .& mask in
      b ← bget bs i;
      bh ← bget bs h;
      if get_dib b <=? 1 then Some (bset bs h (set_dib bh 0))
      else
        let bs := bset bs h (set_dib b (get_dib b - 1)) in
        delbkt_loop fuel mask bs i
  end.

Definition delbkt (m : map_t) (i : Z) : option map_t :=
  b ← bget (m_buckets m) i;
  let bs := bset (m_buckets m) i (set_dib b 0) in
  bs ← delbkt_loop (S (length bs)) (m_mask m) bs i;
  Some (set_count (set_buckets m bs) (m_count m - 1)).

Definition needsshrink (ctx : pgctx) (m : map_t) : bool :=
  allowshrink ctx && (m_cap m <? m_nbuckets m) && (m_count m <=? m_shrinkat m).

(** The loop of [tryshrink] that finds the smallest sufficient capacity. *)
Fixpoint shrink_cap (fuel : nat) (ctx : pgctx) (count cap : Z) : option Z :=
  match fuel with
  | O => None
  | S fuel =>
      if scale cap (loadfactor ctx) <=? count then shrink_cap fuel ctx count (cap * 2)
      else Some cap
  end.

Definition tryshrink `{Env} (ctx : pgctx) (w : world) (m : map_t) (multi : bool)
    : option (map_t * world) :=
  if negb (needsshrink ctx m) then Some (m, w)
  else
    cap ← (if multi then shrink_cap 32 ctx (m_count m) (m_cap m)
           else Some (m_nbuckets m / 2));
    '(_, m, w) ← resize ctx w m cap;
    Some (m, w).

(** [delentry_at_bkt], with its assertion. *)
Definition delentry_at_bkt (ctx : pgctx) (h : heap) (m : map_t) (i : Z)
    : option (Z * map_t) :=
  b ← bget (m_buckets m) i;
  let old := get_entry b in
  if old =? 0 then None
  else
    e ← h !! old;
    let m := set_entsize m (u64 (m_entsize m - entry_memsize ctx e)) in
    m ← delbkt m i;
    Some (old, m).

(** [map_delete]: the deleted entry, if any. *)
Definition map_delete (ctx : pgctx) (h : heap) (m : map_t) (key : bytes) (hash : Z)
    : option (option Z * map_t) :=
  let hash := clip_hash hash in
  let i := hash .& m_mask m in
  i ← probe_loop (S (length (m_buckets m))) h (m_mask m) (m_buckets m) i key hash;
  if i =? -1 then Some (None, m)
  else '(old, m) ← delentry_at_bkt ctx h m i; Some (Some old, m).
