(* ===== verification/Ring.v ===== *)
(** * Ring: Robin Hood hashing

    Two maps of the program place buckets in a ring of slots by Robin Hood
    hashing: the maps of the shards ([pogocache.c]) and the general hash map
    ([hashmap.c]). This file states what they share, for any type of buckets: the
    invariant [rh], that every used bucket stands [dib - 1] places after the home
    of its hash and that the distance grows by at most one from a bucket to the
    next; that one step of placing a bucket keeps it; and that every slot between
    the home of a hash and its bucket is used. *)

From S2P Require Import Prelude.

(** A bucket: its distance plus one, zero when it is free; its hash; what it holds.
    Distances below [rb_limit] can be stored. *)
Class Buckets (B P : Type) := {
  rb_dib : B → Z; rb_hash : B → Z; rb_load : B → P; rb_set_dib : B → Z → B; rb_zero : B; rb_limit : Z;
  rb_zero_dib : rb_dib rb_zero = 0;
  rb_dib_set b d : 0 <= d < rb_limit → rb_dib (rb_set_dib b d) = d;
  rb_hash_set b d : rb_hash (rb_set_dib b d) = rb_hash b;
  rb_load_set b d : rb_load (rb_set_dib b d) = rb_load b
}.

Section Ring.
Context {B P : Type} `{Buckets B P}.
Implicit Types (bs : list B) (b e : B) (i j : Z).

Definition ring_len bs : Z := Z.of_nat (length bs).
Definition ring_slot bs i : B := nth (Z.to_nat (i mod ring_len bs)) bs rb_zero.
Definition ring_dib bs i : Z := rb_dib (ring_slot bs i).
Definition ring_item b : option (P * Z) := if rb_dib b =? 0 then None else Some (rb_load b, rb_hash b).
Definition ring_items bs : list (P * Z) := omap ring_item bs.

Definition ring_get bs i : option B := if i <? 0 then None else bs !! Z.to_nat i.
Definition ring_set bs i b : list B := <[Z.to_nat i := b]> bs.

(** The invariant. *)
Definition ring_ok bs : Prop :=
  0 < ring_len bs ∧ ∀ i, 0 <= ring_dib bs i ∧
    (ring_dib bs i ≠ 0 →
     (rb_hash (ring_slot bs i) + ring_dib bs i - 1) mod ring_len bs = i mod ring_len bs ∧
     ring_dib bs i <= ring_dib bs (i - 1) + 1).

(** ** Slots *)

Lemma ring_slot_eq bs i j : i mod ring_len bs = j mod ring_len bs → ring_slot bs i = ring_slot bs j.
Proof. unfold ring_slot. now intros ->. Qed.

Lemma ring_dib_eq bs i j : i mod ring_len bs = j mod ring_len bs → ring_dib bs i = ring_dib bs j.
Proof. intros E. unfold ring_dib. now rewrite (ring_slot_eq bs i j E). Qed.

Lemma ring_get_slot bs i : 0 <= i < ring_len bs → ring_get bs i = Some (ring_slot bs i).
Proof.
  intros Hi. unfold ring_get, ring_slot, ring_len in *. rewrite (proj2 (Z.ltb_ge i 0)) by lia.
  rewrite Z.mod_small by lia. rewrite nth_lookup.
  destruct (bs !! Z.to_nat i) eqn:E; [easy|]. apply lookup_ge_None in E. lia.
Qed.

Lemma ring_len_set bs i b : ring_len (ring_set bs i b) = ring_len bs.
Proof. unfold ring_len, ring_set. now rewrite length_insert. Qed.

Lemma ring_slot_set bs i b j :
  0 <= i < ring_len bs → ring_slot (ring_set bs i b) j = if j mod ring_len bs =? i then b else ring_slot bs j.
Proof.
  intros Hi. unfold ring_slot. rewrite ring_len_set. unfold ring_set, ring_len in *.
  pose proof (Z.mod_pos_bound j (Z.of_nat (length bs)) ltac:(lia)).
  rewrite !nth_lookup, list_lookup_insert by lia.
  case_if; [rewrite decide_True by lia|rewrite decide_False by lia]; reflexivity.
Qed.

Lemma ring_dib_set bs i b j :
  0 <= i < ring_len bs → ring_dib (ring_set bs i b) j = if j mod ring_len bs =? i then rb_dib b else ring_dib bs j.
Proof. intros. unfold ring_dib. rewrite ring_slot_set by easy. now case_if. Qed.

(** Replacing one bucket changes the content by that bucket. *)
Lemma ring_items_set bs i b :
  0 <= i < ring_len bs → ∃ rest,
    ring_items bs ≡ₚ opt_list (ring_item (ring_slot bs i)) ++ rest ∧
    ring_items (ring_set bs i b) ≡ₚ opt_list (ring_item b) ++ rest.
Proof.
  intros Hi. pose proof (ring_get_slot bs i Hi) as Hg. unfold ring_get in Hg. rewrite (proj2 (Z.ltb_ge i 0)) in Hg by lia.
  exists (ring_items (take (Z.to_nat i) bs) ++ ring_items (drop (S (Z.to_nat i)) bs)). unfold ring_items, ring_set.
  rewrite <- (take_drop_middle bs (Z.to_nat i) (ring_slot bs i)) at 1 by easy.
  rewrite insert_take_drop by (unfold ring_len in Hi; lia). rewrite !omap_app. cbn [omap list_omap].
  split; [destruct (ring_item (ring_slot bs i))|destruct (ring_item b)]; try reflexivity;
    cbn [opt_list app]; symmetry; apply Permutation_middle.
Qed.

Lemma ring_item_used b : rb_dib b ≠ 0 → ring_item b = Some (rb_load b, rb_hash b).
Proof. intros Hb. unfold ring_item. apply Z.eqb_neq in Hb. now rewrite Hb. Qed.
Lemma ring_item_free b : rb_dib b = 0 → ring_item b = None.
Proof. intros Hb. unfold ring_item. now rewrite Hb. Qed.

(** A used bucket contributes its item, and every item stands in a bucket. *)
Lemma ring_items_slot bs i : ring_dib bs i ≠ 0 → (rb_load (ring_slot bs i), rb_hash (ring_slot bs i)) ∈ ring_items bs.
Proof.
  intros Hd. unfold ring_items. apply list_elem_of_omap. exists (ring_slot bs i). split; [|now apply ring_item_used].
  unfold ring_dib, ring_slot in *. destruct (nth_in_or_default (Z.to_nat (i mod ring_len bs)) bs rb_zero) as [Hs|Hs];
    [now apply list_elem_of_In|]. rewrite Hs, rb_zero_dib in Hd. contradiction.
Qed.

Lemma ring_items_inv bs p h : (p, h) ∈ ring_items bs → ∃ j, 0 <= j < ring_len bs ∧
  ring_dib bs j ≠ 0 ∧ rb_load (ring_slot bs j) = p ∧ rb_hash (ring_slot bs j) = h.
Proof.
  unfold ring_items. rewrite list_elem_of_omap. intros (b & Hb & Hi).
  apply list_elem_of_lookup in Hb as [j Hj]. pose proof (lookup_lt_Some _ _ _ Hj) as Hlt.
  exists (Z.of_nat j). assert (Hs : ring_slot bs (Z.of_nat j) = b).
  { unfold ring_slot, ring_len. rewrite Z.mod_small, Nat2Z.id, nth_lookup, Hj by lia. reflexivity. }
  unfold ring_dib. rewrite Hs. unfold ring_item in Hi. destruct (rb_dib b =? 0) eqn:E; [discriminate|]. zb.
  injection Hi as <- <-. unfold ring_len. repeat split; auto; lia.
Qed.

(** ** Placing a bucket *)

(** The bucket [e] may be placed at index [j]. *)
Definition ring_fits bs j e : Prop :=
  0 <= j < ring_len bs ∧ 1 <= rb_dib e ∧ (rb_hash e + rb_dib e - 1) mod ring_len bs = j ∧
  rb_dib e <= ring_dib bs (j - 1) + 1.

(** The distances in a ring where bucket [j] is replaced by [b]. *)
Lemma ring_ok_set bs j b :
  ring_ok bs → 0 <= j < ring_len bs → 0 <= rb_dib b →
  (rb_dib b ≠ 0 → (rb_hash b + rb_dib b - 1) mod ring_len bs = j ∧ rb_dib b <= ring_dib (ring_set bs j b) (j - 1) + 1) →
  (ring_dib bs (j + 1) <= rb_dib b + 1 ∨ (j + 1) mod ring_len bs = j) →
  ring_ok (ring_set bs j b).
Proof.
  intros [Hl Hr] Hj Hb0 Hb Hn. split; [now rewrite ring_len_set|]. intros i.
  rewrite ring_len_set, !ring_dib_set, ring_slot_set by easy. destruct (i mod ring_len bs =? j) eqn:E; zb.
  - split; [easy|]. intros Hd. destruct (Hb Hd) as [H1 H2]. split; [lia|]. rewrite ring_dib_set in H2 by easy.
    replace ((i - 1) mod ring_len bs) with ((j - 1) mod ring_len bs) by (rewrite <- E; apply Zminus_mod_idemp_l).
    destruct ((j - 1) mod ring_len bs =? j); [easy|]. rewrite (ring_dib_eq bs (i - 1) (j - 1)); [easy|].
    rewrite <- E. symmetry. apply Zminus_mod_idemp_l.
  - destruct (Hr i) as [H1 H2]. split; [easy|]. intros Hd. destruct (H2 Hd) as [H3 H4].
    split; [easy|]. destruct ((i - 1) mod ring_len bs =? j) eqn:E2; [|easy]. zb.
    assert (i mod ring_len bs = (j + 1) mod ring_len bs) as Hij.
    { rewrite <- E2, Zplus_mod_idemp_l. f_equal. lia. }
    destruct Hn as [Hn|Hn]; [|congruence]. now rewrite (ring_dib_eq bs i (j + 1)).
Qed.

Lemma ring_next bs j : ring_ok bs → ring_dib bs (j + 1) <= ring_dib bs j + 1.
Proof.
  intros [_ Hr]. destruct (Hr (j + 1)) as [H0 H1]. destruct (Hr j) as [H0' _].
  destruct (decide (ring_dib bs (j + 1) = 0)) as [->|Hnz]; [lia|].
  destruct (H1 Hnz) as [_ H2]. now replace (j + 1 - 1) with j in H2 by lia.
Qed.

Lemma ring_home bs j :
  ring_ok bs → 0 <= j < ring_len bs → ring_dib bs j ≠ 0 →
  (rb_hash (ring_slot bs j) + ring_dib bs j - 1) mod ring_len bs = j ∧ 1 <= ring_dib bs j.
Proof.
  intros [_ Hr] Hj Hd. destruct (Hr j) as [H0 H1]. destruct (H1 Hd) as [H2 _]. rewrite H2, Z.mod_small by lia. lia.
Qed.

Lemma ring_ahead bs j t :
  0 < ring_len bs → 0 <= j < ring_len bs → 0 < t < ring_len bs → (j + t) mod ring_len bs ≠ j.
Proof.
  intros Hl Hj Ht He. destruct (decide (j + t < ring_len bs)).
  - rewrite Z.mod_small in He by lia. lia.
  - rewrite <- (Z.mod_unique (j + t) (ring_len bs) 1 (j + t - ring_len bs)) in He by lia. lia.
Qed.

(** The slot is free: [e] goes there. *)
Lemma ring_place_free bs j e :
  ring_ok bs → ring_fits bs j e → ring_dib bs j = 0 →
  ring_ok (ring_set bs j e) ∧ ring_items (ring_set bs j e) ≡ₚ (rb_load e, rb_hash e) :: ring_items bs.
Proof.
  intros Hrh (Hj & Hd & Hhome & Hchain) Hfree. split.
  - apply ring_ok_set; try easy; [lia| |left; pose proof (ring_next bs j Hrh); lia].
    intros _. split; [easy|]. rewrite ring_dib_set by easy. destruct ((j - 1) mod ring_len bs =? j); [lia|easy].
  - destruct (ring_items_set bs j e Hj) as (rest & H1 & H2).
    rewrite H1, H2, ring_item_used, (ring_item_free (ring_slot bs j)) by (auto; lia). reflexivity.
Qed.

(** Moving on to the next slot keeps the fit. *)
Lemma ring_fits_next bs j e :
  0 < ring_len bs → 0 <= j < ring_len bs → 1 <= rb_dib e → rb_dib e + 1 < rb_limit →
  (rb_hash e + rb_dib e - 1) mod ring_len bs = j → rb_dib e <= ring_dib bs j →
  ring_fits bs ((j + 1) mod ring_len bs) (rb_set_dib e (rb_dib e + 1)).
Proof.
  intros Hl Hj Hd Hlim Hhome Hle. unfold ring_fits. rewrite rb_dib_set, rb_hash_set by lia.
  split; [now apply Z.mod_pos_bound|]. split; [lia|]. split.
  - rewrite <- Hhome, Zplus_mod_idemp_l. f_equal. lia.
  - rewrite (ring_dib_eq bs _ j); [lia|]. rewrite Zminus_mod_idemp_l. f_equal. lia.
Qed.

(** One step over a used slot, swapping or not: the invariant, the fit of the
    bucket carried on, and the content are kept. *)
Lemma ring_place_step bs j e :
  ring_ok bs → ring_fits bs j e → ring_dib bs j ≠ 0 → ring_dib bs j + 1 < rb_limit →
  let '(bs', e') := if ring_dib bs j <? rb_dib e then (ring_set bs j e, ring_slot bs j) else (bs, e) in
  ring_len bs' = ring_len bs ∧ ring_ok bs' ∧
  ring_fits bs' ((j + 1) mod ring_len bs) (rb_set_dib e' (rb_dib e' + 1)) ∧
  rb_dib (rb_set_dib e' (rb_dib e' + 1)) < rb_limit ∧
  (∀ t, 0 < t < ring_len bs → ring_dib bs' (j + t) = ring_dib bs (j + t)) ∧
  (rb_load e', rb_hash e') :: ring_items bs' ≡ₚ (rb_load e, rb_hash e) :: ring_items bs.
Proof.
  intros Hrh (Hj & Hd & Hhome & Hchain) Hused Hsafe. pose proof Hrh as [Hl _].
  destruct (ring_home bs j Hrh Hj Hused) as [Hh Hd1].
  destruct (ring_dib bs j <? rb_dib e) eqn:E; zb; cbn [fst snd].
  - assert (Hrh' : ring_ok (ring_set bs j e)).
    { apply ring_ok_set; try easy; [lia| |left; pose proof (ring_next bs j Hrh); lia].
      intros _. split; [easy|]. rewrite ring_dib_set by easy. destruct ((j - 1) mod ring_len bs =? j); [lia|easy]. }
    rewrite ring_len_set. split; [easy|]. split; [easy|]. split; [|split; [|split] ].
    + rewrite <- (ring_len_set bs j e).
      apply ring_fits_next; rewrite ?ring_len_set; fold (ring_dib bs j); [lia|lia|lia|lia|exact Hh|].
      rewrite ring_dib_set, Z.mod_small, Z.eqb_refl by lia. lia.
    + fold (ring_dib bs j). rewrite rb_dib_set; lia.
    + intros t Ht. rewrite ring_dib_set by easy.
      pose proof (ring_ahead bs j t Hl Hj Ht) as Hne. apply Z.eqb_neq in Hne. now rewrite Hne.
    + destruct (ring_items_set bs j e Hj) as (rest & H1 & H2).
      rewrite H1, H2, !ring_item_used by (auto; lia). apply Permutation_swap.
  - split; [easy|]. split; [easy|]. split; [|split; [|split] ]; try easy.
    + apply ring_fits_next; lia.
    + rewrite rb_dib_set; lia.
Qed.

(** A bucket at distance one fits at its home. *)
Lemma ring_fits_home bs e : ring_ok bs → rb_dib e = 1 → ring_fits bs (rb_hash e mod ring_len bs) e.
Proof.
  intros [Hl Hr] He. unfold ring_fits. rewrite He. split; [now apply Z.mod_pos_bound|].
  split; [lia|]. split; [f_equal; lia|]. destruct (Hr (rb_hash e mod ring_len bs - 1)) as [H0 _]. lia.
Qed.

(** ** Probing *)

(** Walking back from a used slot the distance drops by at most one a step. *)
Lemma ring_back bs j t : ring_ok bs → ring_dib bs j - Z.of_nat t <= ring_dib bs (j - Z.of_nat t).
Proof.
  intros Hrh. induction t as [|t IH]; [change (Z.of_nat 0) with 0; rewrite !Z.sub_0_r; lia|].
  pose proof (ring_next bs (j - Z.of_nat (S t)) Hrh) as Hn.
  replace (j - Z.of_nat (S t) + 1) with (j - Z.of_nat t) in Hn by lia. lia.
Qed.

(** Every slot from the home of a stored hash to its bucket is used, at a distance
    of at least that of the probe. *)
Lemma ring_path bs j s :
  ring_ok bs → 0 <= j < ring_len bs → 0 <= s < ring_dib bs j →
  s + 1 <= ring_dib bs (rb_hash (ring_slot bs j) + s) ∧
  (s = ring_dib bs j - 1 → (rb_hash (ring_slot bs j) + s) mod ring_len bs = j).
Proof.
  intros Hrh Hj Hs. destruct (ring_home bs j Hrh Hj ltac:(lia)) as [Hh Hd].
  split; [|intros ->; rewrite Z.add_sub_assoc; exact Hh].
  pose proof (ring_back bs j (Z.to_nat (ring_dib bs j - 1 - s)) Hrh) as Hb. rewrite Z2Nat.id in Hb by lia.
  rewrite (ring_dib_eq bs (rb_hash (ring_slot bs j) + s) (j - (ring_dib bs j - 1 - s))); [lia|].
  rewrite <- Hh at 2. rewrite Zminus_mod_idemp_l. f_equal. lia.
Qed.

(** ** Rings that are not full *)

(** A ring with fewer items than slots has a free slot. *)
Lemma ring_has_free bs : Z.of_nat (length (ring_items bs)) < ring_len bs → ∃ f, ring_dib bs f = 0.
Proof.
  intros Hl. destruct (decide (Exists (λ b, rb_dib b = 0) bs)) as [He|He].
  - apply Exists_exists in He as (b & Hb & Hd).
    apply list_elem_of_lookup in Hb as [j Hj]. exists (Z.of_nat j).
    pose proof (lookup_lt_Some _ _ _ Hj). unfold ring_dib, ring_slot, ring_len.
    rewrite Z.mod_small, Nat2Z.id, nth_lookup, Hj by lia. exact Hd.
  - exfalso. assert (length (ring_items bs) = length bs) as Hfull.
    { unfold ring_items. clear - He. induction bs as [|b l IH]; [reflexivity|].
      rewrite Exists_cons in He. cbn. rewrite ring_item_used by tauto. cbn. rewrite IH by tauto. reflexivity. }
    unfold ring_len in *. lia.
Qed.

(** The first free slot from [i] on. *)
Lemma ring_free_ahead bs i :
  0 < ring_len bs → (∃ f, ring_dib bs f = 0) → ∃ t, 0 <= t < ring_len bs ∧ ring_dib bs (i + t) = 0 ∧
    ∀ t', 0 <= t' < t → ring_dib bs (i + t') ≠ 0.
Proof.
  intros Hl [f Hf].
  destruct (first_hit (λ t, ring_dib bs (i + t) = 0) (Z.to_nat (ring_len bs))) as (t & Ht & H1 & H2).
  { exists ((f - i) mod ring_len bs). split; [rewrite Z2Nat.id by lia; apply Z.mod_pos_bound; lia|].
    rewrite (ring_dib_eq bs _ f); [exact Hf|]. rewrite Zplus_mod_idemp_r. f_equal. lia. }
  exists t. rewrite Z2Nat.id in Ht by lia. easy.
Qed.

(** A distance is smaller than the ring. *)
Lemma ring_dib_small bs j :
  ring_ok bs → (∃ f, ring_dib bs f = 0) → 0 <= j < ring_len bs → ring_dib bs j < ring_len bs.
Proof.
  intros Hrh [f Hf] Hj. destruct (decide (ring_dib bs j < ring_len bs)) as [|Hge]; [easy|exfalso].
  set (s := (f - rb_hash (ring_slot bs j)) mod ring_len bs).
  assert (0 <= s < ring_len bs) by (apply Z.mod_pos_bound; lia).
  destruct (ring_path bs j s Hrh ltac:(lia) ltac:(lia)) as [Hp _].
  rewrite (ring_dib_eq bs (rb_hash (ring_slot bs j) + s) f) in Hp; [lia|].
  unfold s. rewrite Zplus_mod_idemp_r. f_equal. lia.
Qed.

End Ring.
