(* ===== verification/MapInv.v ===== *)
(** * MapInv: the robinhood invariant

    The buckets of a map form a ring. The invariant [rh] says that every used
    bucket stands [dib - 1] places after the home of its hash and that the
    distance grows by at most one from a bucket to the next. This file proves
    that placing an entry and the backward shift deletion preserve it, that a
    probe meets every bucket between the home of a key and the bucket that
    holds it, and what the buckets contain afterwards, as a multiset. *)

From S2P Require Import Prelude Util Context Entry Heap Map Ring.

(** ** Buckets as a ring *)

Definition zlen (bs : list bucket) : Z := Z.of_nat (length bs).

(** The bucket at [i] modulo the number of buckets. *)
Definition slot (bs : list bucket) (i : Z) : bucket :=
  nth (Z.to_nat (i mod zlen bs)) bs zbucket.

Definition dib_at (bs : list bucket) (i : Z) : Z := get_dib (slot bs i).

(** What a used bucket holds. *)
Definition item (b : bucket) : option (Z * Z) :=
  if get_dib b =? 0 then None else Some (get_entry b, get_hash b).

Definition items (bs : list bucket) : list (Z * Z) := omap item bs.

(** The invariant. *)
Definition rh (bs : list bucket) : Prop :=
  0 < zlen bs ∧ ∀ i, 0 <= dib_at bs i ∧
    (dib_at bs i ≠ 0 →
     (get_hash (slot bs i) + dib_at bs i - 1) mod zlen bs = i mod zlen bs ∧
     dib_at bs i <= dib_at bs (i - 1) + 1).

(** The buckets of these maps as buckets of [Ring.v]; the notions above are those
    of that file. *)
#[export, refine] Instance map_buckets : Buckets bucket Z := {|
  rb_dib := get_dib; rb_hash := get_hash; rb_load := get_entry; rb_set_dib := set_dib; rb_zero := zbucket; rb_limit := 256
|}.
Proof. { reflexivity. } { intros b d Hd. apply u8_id. exact Hd. } { reflexivity. } { reflexivity. } Defined.

Lemma mod_shift a n : 0 < n → (a mod n + 1) mod n = (a + 1) mod n.
Proof. intros. now rewrite Zplus_mod_idemp_l. Qed.

Lemma slot_mod bs i : slot bs (i mod zlen bs) = slot bs i.
Proof. unfold slot. now rewrite Zmod_mod. Qed.

Lemma slot_eq bs i j : i mod zlen bs = j mod zlen bs → slot bs i = slot bs j.
Proof. unfold slot. now intros ->. Qed.

Lemma bget_slot bs i : 0 <= i < zlen bs → bget bs i = Some (slot bs i).
Proof. exact (ring_get_slot bs i). Qed.

Lemma bget_inv bs i b : bget bs i = Some b → 0 <= i < zlen bs ∧ b = slot bs i.
Proof.
  intros H. pose proof H as H'. unfold bget in H'.
  destruct (i <? 0) eqn:E; [easy|]. zb. apply lookup_lt_Some in H'.
  assert (0 <= i < zlen bs) by (unfold zlen; lia).
  rewrite bget_slot in H by easy. now inv_all.
Qed.

Lemma zlen_bset bs i b : zlen (bset bs i b) = zlen bs.
Proof. exact (ring_len_set bs i b). Qed.
#[export] Hint Rewrite zlen_bset : pogo.

Lemma slot_bset bs i b j :
  0 <= i < zlen bs →
  slot (bset bs i b) j = if j mod zlen bs =? i then b else slot bs j.
Proof. exact (ring_slot_set bs i b j). Qed.

Lemma slot_bset_ne bs i j b :
  0 <= i < zlen bs → 0 <= j < zlen bs → i ≠ j → slot (bset bs i b) j = slot bs j.
Proof.
  intros. rewrite slot_bset, Z.mod_small by lia.
  now rewrite (proj2 (Z.eqb_neq j i)) by lia.
Qed.

Lemma slot_bset_eq bs i b : 0 <= i < zlen bs → slot (bset bs i b) i = b.
Proof. intros. rewrite slot_bset, Z.mod_small by lia. now rewrite Z.eqb_refl. Qed.

Lemma dib_bset bs i b j :
  0 <= i < zlen bs →
  dib_at (bset bs i b) j = if j mod zlen bs =? i then get_dib b else dib_at bs j.
Proof. exact (ring_dib_set bs i b j). Qed.

(** Replacing one bucket changes the content by that bucket. *)
Lemma items_bset bs i b :
  0 <= i < zlen bs → ∃ rest,
    items bs ≡ₚ opt_list (item (slot bs i)) ++ rest ∧
    items (bset bs i b) ≡ₚ opt_list (item b) ++ rest.
Proof. exact (ring_items_set bs i b). Qed.

Lemma item_used b : get_dib b ≠ 0 → item b = Some (get_entry b, get_hash b).
Proof. intros H. unfold item. apply Z.eqb_neq in H. now rewrite H. Qed.
Lemma item_empty b : get_dib b = 0 → item b = None.
Proof. intros H. unfold item. now rewrite H. Qed.

(** A used bucket contributes its item. *)
Lemma items_slot bs i : dib_at bs i ≠ 0 → (get_entry (slot bs i), get_hash (slot bs i)) ∈ items bs.
Proof. exact (ring_items_slot bs i). Qed.

Lemma items_inv bs p h : (p, h) ∈ items bs → ∃ j, 0 <= j < zlen bs ∧
  dib_at bs j ≠ 0 ∧ get_entry (slot bs j) = p ∧ get_hash (slot bs j) = h.
Proof. exact (ring_items_inv bs p h). Qed.

(** ** Placing an entry *)

(** The bucket [e] may be placed at index [j]. *)
Definition fits (bs : list bucket) (j : Z) (e : bucket) : Prop :=
  0 <= j < zlen bs ∧ 1 <= get_dib e ∧
  (get_hash e + get_dib e - 1) mod zlen bs = j ∧
  get_dib e <= dib_at bs (j - 1) + 1.

(** The distances in a ring where bucket [j] is replaced by [b]. *)
Lemma rh_bset bs j b :
  rh bs → 0 <= j < zlen bs → 0 <= get_dib b →
  (get_dib b ≠ 0 →
    (get_hash b + get_dib b - 1) mod zlen bs = j ∧
    get_dib b <= dib_at (bset bs j b) (j - 1) + 1) →
  (dib_at bs (j + 1) <= get_dib b + 1 ∨ (j + 1) mod zlen bs = j) →
  rh (bset bs j b).
Proof. exact (ring_ok_set bs j b). Qed.

(** When the ring has a free bucket it has more than one bucket in use... *)
Lemma slot_ahead bs j t :
  0 < zlen bs → 0 <= j < zlen bs → 0 < t < zlen bs → (j + t) mod zlen bs ≠ j.
Proof. exact (ring_ahead bs j t). Qed.

Lemma land_ring x k n : n = 2 ^ k → 0 <= k → x .& (n - 1) = x mod n.
Proof. intros -> Hk. now apply land_mask. Qed.

(** The bucket is free: [e] goes there. *)
Lemma place_free bs j e :
  rh bs → fits bs j e → dib_at bs j = 0 →
  rh (bset bs j e) ∧ items (bset bs j e) ≡ₚ (get_entry e, get_hash e) :: items bs.
Proof. exact (ring_place_free bs j e). Qed.

(** Moving on to the next bucket keeps the fit. *)
Lemma fits_next bs j e :
  0 < zlen bs → 0 <= j < zlen bs → 1 <= get_dib e <= 254 →
  (get_hash e + get_dib e - 1) mod zlen bs = j → get_dib e <= dib_at bs j →
  fits bs ((j + 1) mod zlen bs) (set_dib e (get_dib e + 1)).
Proof. intros Hl Hj [Hd1 Hd2]. apply (@ring_fits_next _ _ map_buckets bs j e Hl Hj Hd1). change (get_dib e + 1 < 256). lia. Qed.

Lemma rh_home bs j :
  rh bs → 0 <= j < zlen bs → dib_at bs j ≠ 0 →
  (get_hash (slot bs j) + dib_at bs j - 1) mod zlen bs = j ∧ 1 <= dib_at bs j.
Proof. exact (ring_home bs j). Qed.

Lemma rh_next bs j : rh bs → dib_at bs (j + 1) <= dib_at bs j + 1.
Proof. exact (ring_next bs j). Qed.

(** One step over a used bucket, swapping or not: the invariant, the fit of
    the bucket carried on, and the content are kept. *)
Lemma place_step bs j e :
  rh bs → fits bs j e → dib_at bs j ≠ 0 → dib_at bs j <= 254 →
  let '(bs', e') := if dib_at bs j <? get_dib e then (bset bs j e, slot bs j) else (bs, e) in
  zlen bs' = zlen bs ∧ rh bs' ∧
  fits bs' ((j + 1) mod zlen bs) (set_dib e' (get_dib e' + 1)) ∧
  get_dib (set_dib e' (get_dib e' + 1)) <= 255 ∧
  (∀ t, 0 < t < zlen bs → dib_at bs' (j + t) = dib_at bs (j + t)) ∧
  (get_entry e', get_hash e') :: items bs' ≡ₚ (get_entry e, get_hash e) :: items bs.
Proof. 
  intros H1 H2 H3 H4. assert (H5 : dib_at bs j + 1 < 256) by lia.
  pose proof (@ring_place_step _ _ map_buckets bs j e H1 H2 H3 H5) as Hs. change (@ring_dib _ _ map_buckets) with dib_at in Hs.
  change (@rb_dib _ _ map_buckets) with get_dib in Hs. destruct (dib_at bs j <? get_dib e);
    (destruct Hs as (? & ? & ? & Hd & ? & ?); repeat (split; [assumption|]); split; [apply Z.lt_succ_r; exact Hd|]; split; assumption).
 Qed.

Section Place.
Context (n k : Z) (Hn : n = 2 ^ k) (Hk : 0 <= k).

(** Placing [e] from [j] on, when a free bucket is [t] places ahead and the
    distances on the way do not reach 255. *)
Lemma resize_place_spec t : ∀ fuel bs j e,
  zlen bs = n → rh bs → fits bs j e →
  (∀ t', 0 <= t' < Z.of_nat t → dib_at bs (j + t') <= 254) → get_dib e <= 255 →
  dib_at bs (j + Z.of_nat t) = 0 → Z.of_nat t < n → (t < fuel)%nat →
  ∃ bs', resize_place fuel (n - 1) bs j e = Some bs' ∧ zlen bs' = n ∧ rh bs' ∧
    items bs' ≡ₚ (get_entry e, get_hash e) :: items bs.
Proof.
  induction t as [|t IH]; intros [|fuel] bs j e Hl Hrh Hfit Hsafe He Hfree Htn Hf;
    try lia; pose proof Hfit as [Hj _]; pose proof Hrh as [Hl0 _];
    cbn [resize_place]; rewrite bget_slot by easy; cbn [mbind option_bind];
    fold (dib_at bs j).
  - rewrite Z.add_0_r in Hfree. rewrite Hfree. cbn. eexists. split; [easy|].
    rewrite zlen_bset. split; [easy|]. now apply place_free.
  - destruct (dib_at bs j =? 0) eqn:E0; zb.
    { eexists. split; [easy|]. rewrite zlen_bset. split; [easy|]. now apply place_free. }
    pose proof (Hsafe 0 ltac:(lia)) as Hsafe0. rewrite Z.add_0_r in Hsafe0.
    pose proof (place_step bs j e Hrh Hfit E0 Hsafe0) as Hstep.
    destruct (if dib_at bs j <? get_dib e then _ else _) as [bs1 e1].
    destruct Hstep as (Hl1 & Hrh1 & Hfit1 & Hd1 & Hahead & Hperm).
    rewrite (land_ring (j + 1) k n) by easy. rewrite Hl in *.
    assert (Hsh : ∀ t', dib_at bs1 ((j + 1) mod n + t') = dib_at bs1 (j + (1 + t'))).
    { intros t'. unfold dib_at. f_equal. apply slot_eq. rewrite Hl1, Zplus_mod_idemp_l.
      f_equal. lia. }
    destruct (IH fuel bs1 ((j + 1) mod n) (set_dib e1 (get_dib e1 + 1)))
      as (bs' & H1 & H2 & H3 & H4); try easy; try lia.
    + intros t' Ht'. rewrite Hsh, Hahead by lia. apply Hsafe. lia.
    + rewrite Hsh, Hahead by lia. rewrite <- Hfree. f_equal. lia.
    + exists bs'. split; [easy|]. split; [easy|]. split; [easy|]. now rewrite H4.
Qed.
End Place.

(** ** Probing *)

(** Walking back from a used bucket the distance drops by at most one a step. *)
Lemma rh_back bs j t :
  rh bs → dib_at bs j - Z.of_nat t <= dib_at bs (j - Z.of_nat t).
Proof. exact (ring_back bs j t). Qed.

(** Every bucket from the home of a stored hash to its bucket is used, at a
    distance of at least that of the probe. *)
Lemma rh_path bs j s :
  rh bs → 0 <= j < zlen bs → 0 <= s < dib_at bs j →
  s + 1 <= dib_at bs (get_hash (slot bs j) + s) ∧
  (s = dib_at bs j - 1 → (get_hash (slot bs j) + s) mod zlen bs = j).
Proof. exact (ring_path bs j s). Qed.

Section Probe.
Context (n k : Z) (Hn : n = 2 ^ k) (Hk : 0 <= k).
Context (h : heap) (bs : list bucket) (Hl : zlen bs = n).

(** The probe loop passes over used buckets that do not match. *)
Lemma probe_loop_skip t : ∀ fuel i key hash,
  0 <= i < n →
  (∀ t', 0 <= t' < Z.of_nat t → dib_at bs (i + t') ≠ 0 ∧
     bucket_eq h (slot bs (i + t')) key hash = Some false) →
  probe_loop (t + fuel) h (n - 1) bs i key hash =
  probe_loop fuel h (n - 1) bs ((i + Z.of_nat t) mod n) key hash.
Proof.
  induction t as [|t IH]; intros fuel i key hash Hi Hskip.
  { now rewrite Z.add_0_r, Z.mod_small. }
  destruct (Hskip 0 ltac:(lia)) as [Hd He]. rewrite Z.add_0_r in Hd, He.
  cbn [Nat.add probe_loop]. rewrite bget_slot by (rewrite Hl; lia).
  cbn [mbind option_bind]. apply Z.eqb_neq in Hd. unfold dib_at in Hd. rewrite Hd, He.
  cbn [mbind option_bind]. rewrite (land_ring _ k n) by easy.
  rewrite IH.
  - f_equal. rewrite Zplus_mod_idemp_l. f_equal. lia.
  - apply Z.mod_pos_bound. lia.
  - intros t' Ht'. destruct (Hskip (1 + t') ltac:(lia)) as [H1 H2]. unfold dib_at in *.
    rewrite (slot_eq bs _ (i + (1 + t'))); [easy|].
    rewrite Hl, Zplus_mod_idemp_l. f_equal. lia.
Qed.

(** A probe that reaches a matching bucket at offset [t]. *)
Lemma probe_loop_hit t fuel i key hash :
  0 <= i < n → (t < fuel)%nat →
  (∀ t', 0 <= t' < Z.of_nat t → dib_at bs (i + t') ≠ 0 ∧
     bucket_eq h (slot bs (i + t')) key hash = Some false) →
  dib_at bs (i + Z.of_nat t) ≠ 0 →
  bucket_eq h (slot bs (i + Z.of_nat t)) key hash = Some true →
  probe_loop fuel h (n - 1) bs i key hash = Some ((i + Z.of_nat t) mod n).
Proof.
  intros Hi Hf Hskip Hd He.
  replace fuel with (t + S (fuel - t - 1))%nat by lia.
  rewrite probe_loop_skip by easy. cbn [probe_loop].
  rewrite bget_slot by (rewrite Hl; apply Z.mod_pos_bound; lia).
  rewrite <- Hl, slot_mod. cbn [mbind option_bind]. apply Z.eqb_neq in Hd.
  unfold dib_at in Hd. rewrite Hd, He. easy.
Qed.

(** A probe that reaches a free bucket at offset [t]. *)
Lemma probe_loop_miss t fuel i key hash :
  0 <= i < n → (t < fuel)%nat →
  (∀ t', 0 <= t' < Z.of_nat t → dib_at bs (i + t') ≠ 0 ∧
     bucket_eq h (slot bs (i + t')) key hash = Some false) →
  dib_at bs (i + Z.of_nat t) = 0 →
  probe_loop fuel h (n - 1) bs i key hash = Some (-1).
Proof.
  intros Hi Hf Hskip Hd.
  replace fuel with (t + S (fuel - t - 1))%nat by lia.
  rewrite probe_loop_skip by easy. cbn [probe_loop].
  rewrite bget_slot by (rewrite Hl; apply Z.mod_pos_bound; lia).
  rewrite <- Hl, slot_mod. cbn [mbind option_bind]. unfold dib_at in Hd. now rewrite Hd.
Qed.
End Probe.

(** ** Deleting by backward shift *)

Lemma bset_bset bs i j a b : i ≠ j → 0 <= i → 0 <= j →
  bset (bset bs i a) j b = bset (bset bs j b) i a.
Proof. intros. unfold bset. apply list_insert_insert_ne. lia. Qed.

Lemma bset_twice bs i a b : bset (bset bs i a) i b = bset bs i b.
Proof. unfold bset. apply list_insert_insert_eq. Qed.

Lemma set_dib_zero b : get_dib (set_dib b 0) = 0.
Proof. reflexivity. Qed.

(** The ring with a hole at [h] that was at distance [D]. *)
Definition hole (bs : list bucket) (h D : Z) : Prop :=
  2 < zlen bs ∧ 0 <= h < zlen bs ∧ 1 <= D ∧
  D <= dib_at bs (h - 1) + 1 ∧ 0 <= dib_at bs (h + 1) <= D + 1 ∧
  ∀ i, i mod zlen bs ≠ h → 0 <= dib_at bs i ∧
    (dib_at bs i ≠ 0 →
     (get_hash (slot bs i) + dib_at bs i - 1) mod zlen bs = i mod zlen bs ∧
     ((i - 1) mod zlen bs ≠ h → dib_at bs i <= dib_at bs (i - 1) + 1)).

Lemma mod_ne_small n a b : 2 < n → 0 <= a < n → b = a + 1 ∨ b = a - 1 ∨ b = a + 2 →
  b mod n ≠ a.
Proof.
  intros Hn Ha Hb He. pose proof (Z.div_mod b n ltac:(lia)).
  assert (b / n = -1 ∨ b / n = 0 ∨ b / n = 1) as [Hq|[Hq|Hq]]; [|nia..].
  assert (-1 <= b / n <= 1); [|lia].
  split; [apply Z.div_le_lower_bound; lia|]. 
  assert (b / n < 2) by (apply Z.div_lt_upper_bound; lia). lia.
Qed.

Lemma rh_hole bs i :
  rh bs → 2 < zlen bs → 0 <= i < zlen bs → dib_at bs i ≠ 0 →
  hole (bset bs i (set_dib (slot bs i) 0)) i (dib_at bs i).
Proof.
  intros Hrh H2 Hi Hd. pose proof (rh_home bs i Hrh Hi Hd) as [Hh Hd1].
  pose proof (rh_next bs i Hrh) as Hnx. destruct Hrh as [Hl Hr].
  unfold hole. rewrite zlen_bset, !dib_bset by easy.
  pose proof (mod_ne_small (zlen bs) i (i - 1) H2 Hi ltac:(lia)) as Hm1.
  pose proof (mod_ne_small (zlen bs) i (i + 1) H2 Hi ltac:(lia)) as Hp1.
  rewrite (proj2 (Z.eqb_neq _ _) Hm1), (proj2 (Z.eqb_neq _ _) Hp1).
  destruct (Hr i) as [_ H]. destruct (H Hd) as [_ Hc].
  do 4 (split; [lia|]). split; [split; [apply Hr|lia]|]. intros j Hj.
  rewrite !dib_bset, slot_bset by easy. rewrite (proj2 (Z.eqb_neq _ _) Hj).
  destruct (Hr j) as [H0 H1]. split; [easy|]. intros Hnz. destruct (H1 Hnz) as [H3 H4].
  split; [easy|]. intros Hne. now rewrite (proj2 (Z.eqb_neq _ _) Hne).
Qed.

(** The hole is closed when the next bucket is free or at home. *)
Lemma hole_close bs h D :
  hole bs h D → dib_at bs (h + 1) <= 1 → rh (bset bs h (set_dib (slot bs h) 0)).
Proof.
  intros (H2 & Hh & HD & Hm & Hp & Hr) Hnext. split; [rewrite zlen_bset; lia|]. intros i.
  rewrite zlen_bset, !dib_bset, slot_bset by easy.
  destruct (i mod zlen bs =? h) eqn:E; [cbn; easy|]. zb.
  destruct (Hr i E) as [H0 H1]. split; [easy|]. intros Hnz. destruct (H1 Hnz) as [H3 H4].
  split; [easy|]. destruct ((i - 1) mod zlen bs =? h) eqn:E1; zb; [|now apply H4].
  cbn. unfold dib_at in *. rewrite (slot_eq bs i (h + 1)); [easy|].
  rewrite <- E1, Zplus_mod_idemp_l. f_equal. lia.
Qed.

(** Moving the next bucket into the hole moves the hole. *)
Lemma hole_shift bs h D :
  hole bs h D → 1 < dib_at bs (h + 1) → dib_at bs (h + 1) <= 255 →
  let i := (h + 1) mod zlen bs in
  hole (bset bs h (set_dib (slot bs i) (get_dib (slot bs i) - 1))) i (dib_at bs i).
Proof.
  intros (H2 & Hh & HD & Hm & Hp & Hr) Hd Hmax i.
  assert (Hi : 0 <= i < zlen bs) by (apply Z.mod_pos_bound; lia).
  assert (Hsi : slot bs i = slot bs (h + 1)) by apply slot_mod.
  assert (Hdi : dib_at bs i = dib_at bs (h + 1)) by (unfold dib_at; now rewrite Hsi).
  assert (Hih : i ≠ h) by (apply mod_ne_small; lia).
  assert (Hu : get_dib (set_dib (slot bs i) (get_dib (slot bs i) - 1)) = dib_at bs i - 1).
  { cbn. fold (dib_at bs i). apply u8_id. unfold is_u8. lia. }
  assert (Him1 : (i - 1) mod zlen bs = h).
  { unfold i. rewrite Zminus_mod_idemp_l. replace (h + 1 - 1) with h by lia.
    apply Z.mod_small. lia. }
  assert (Hip1 : (i + 1) mod zlen bs ≠ h).
  { unfold i. rewrite Zplus_mod_idemp_l. apply mod_ne_small; lia. }
  unfold hole. rewrite zlen_bset, !dib_bset, Him1, Z.eqb_refl, Hu by easy.
  rewrite (proj2 (Z.eqb_neq _ _) Hip1).
  assert (Hi2 : i mod zlen bs = i) by (apply Z.mod_small; lia).
  split; [easy|]. split; [easy|]. split; [lia|]. split; [lia|]. split.
  - destruct (Hr (i + 1) Hip1) as [H0 H1]. split; [easy|].
    destruct (decide (dib_at bs (i + 1) = 0)) as [->|Hnz]; [lia|].
    destruct (H1 Hnz) as [_ H4]. replace (i + 1 - 1) with i in H4 by lia.
    apply H4. now rewrite Hi2.
  - intros j Hj. rewrite !dib_bset, slot_bset by easy.
    destruct (j mod zlen bs =? h) eqn:Ej; zb.
    + rewrite Hu. split; [lia|]. intros _.
      change (get_hash (set_dib (slot bs i) (get_dib (slot bs i) - 1))) with (get_hash (slot bs i)).
      destruct (Hr i) as [_ H1]; [now rewrite Hi2|]. destruct (H1 ltac:(lia)) as [H3 _].
      split.
      * rewrite Ej, <- Him1.
        replace (get_hash (slot bs i) + (dib_at bs i - 1) - 1)
          with (get_hash (slot bs i) + dib_at bs i - 1 - 1) by lia.
        now rewrite <- Zminus_mod_idemp_l, H3, Zminus_mod_idemp_l.
      * intros _. pose proof (mod_ne_small (zlen bs) h (h - 1) H2 Hh ltac:(lia)) as Hne.
        assert (Hjm : (j - 1) mod zlen bs = (h - 1) mod zlen bs).
        { rewrite <- Ej. symmetry. apply Zminus_mod_idemp_l. }
        rewrite Hjm, (proj2 (Z.eqb_neq _ _) Hne). unfold dib_at in *.
        rewrite (slot_eq bs (j - 1) (h - 1)) by easy. lia.
    + destruct (Hr j Ej) as [H0 H1]. split; [easy|]. intros Hnz.
      destruct (H1 Hnz) as [H3 H4]. split; [easy|]. intros Hji.
      destruct ((j - 1) mod zlen bs =? h) eqn:Ej1; zb; [|now apply H4].
      exfalso. apply Hj. unfold i. rewrite <- Ej1, Zplus_mod_idemp_l. f_equal. lia.
Qed.

(** What the ring holds besides the hole. *)
Definition holed (bs : list bucket) (h : Z) : list bucket :=
  bset bs h (set_dib (slot bs h) 0).

Lemma items_shift bs h i e :
  0 <= h < zlen bs → 0 <= i < zlen bs → i ≠ h → dib_at bs i ≠ 0 →
  get_dib e ≠ 0 → get_entry e = get_entry (slot bs i) → get_hash e = get_hash (slot bs i) →
  items (holed (bset bs h e) i) ≡ₚ items (holed bs h).
Proof.
  intros Hh Hi Hne Hd He H1 H2. unfold holed.
  rewrite slot_bset_ne, bset_bset by lia.
  set (zi := set_dib (slot bs i) 0). set (zh := set_dib (slot bs h) 0).
  destruct (items_bset (bset bs i zi) h e) as (r1 & Ha & Hb); [now rewrite zlen_bset|].
  destruct (items_bset (bset bs h zh) i zi) as (r2 & Hc & Hf); [now rewrite zlen_bset|].
  destruct (items_bset (bset bs i zi) h zh) as (r3 & Hg & Hj); [now rewrite zlen_bset|].
  rewrite (bset_bset bs i h) in Hj by lia.
  rewrite slot_bset_ne in Ha, Hc, Hg by lia.
  rewrite (item_empty zi) in Hf by reflexivity. rewrite (item_empty zh) in Hj by reflexivity.
  rewrite Ha in Hg. apply Permutation_app_inv_l in Hg.
  rewrite Hb, Hc, !item_used, H1, H2 by easy. cbn [opt_list app] in *.
  apply Permutation_cons; [easy|]. now rewrite Hg, <- Hj, Hf.
Qed.

Section Delete.
Context (n k : Z) (Hn : n = 2 ^ k) (Hk : 0 <= k).

(** The loop of [delbkt] closes the hole when a bucket at distance at most
    one is [t + 1] places ahead. *)
Lemma delbkt_loop_spec t : ∀ fuel bs h D,
  zlen bs = n → hole bs h D → (∀ i, dib_at bs i <= 255) →
  dib_at bs (h + 1 + Z.of_nat t) <= 1 → Z.of_nat t + 1 < n → (t < fuel)%nat →
  ∃ bs', delbkt_loop fuel (n - 1) bs h = Some bs' ∧ zlen bs' = n ∧ rh bs' ∧
    items bs' ≡ₚ items (holed bs h).
Proof.
  induction t as [|t IH]; intros [|fuel] bs h D Hl Hhole Hmax Hstop Htn Hf; try lia;
    pose proof Hhole as (H2 & Hh & _); cbn [delbkt_loop];
    rewrite (land_ring _ k n) by easy;
    assert (Hi : 0 <= (h + 1) mod n < zlen bs) by (rewrite Hl; apply Z.mod_pos_bound; lia);
    rewrite !bget_slot by lia; cbn [mbind option_bind];
    rewrite <- Hl, slot_mod; fold (dib_at bs (h + 1)).
  - change (Z.of_nat 0) with 0 in Hstop. rewrite Z.add_0_r in Hstop.
    rewrite (proj2 (Z.leb_le _ _) Hstop). eexists. split; [easy|]. rewrite zlen_bset.
    split; [easy|]. split; [|easy]. eapply hole_close; eauto.
  - destruct (dib_at bs (h + 1) <=? 1) eqn:E; zb.
    { eexists. split; [easy|]. rewrite zlen_bset.
      split; [easy|]. split; [|easy]. eapply hole_close; eauto. }
    set (i := (h + 1) mod zlen bs) in *.
    assert (Hsi : slot bs i = slot bs (h + 1)) by apply slot_mod.
    pose proof (hole_shift bs h D Hhole ltac:(lia) (Hmax _)) as Hhole'.
    cbv zeta in Hhole'. fold i in Hhole'. rewrite Hsi in Hhole'. unfold dib_at in E.
    assert (Hih : i ≠ h) by (apply mod_ne_small; lia).
    set (b := set_dib (slot bs (h + 1)) (get_dib (slot bs (h + 1)) - 1)) in *.
    assert (Hb : get_dib b = dib_at bs (h + 1) - 1).
    { cbn. fold (dib_at bs (h + 1)). pose proof (Hmax (h + 1)). apply u8_id.
      unfold is_u8, dib_at in *. lia. }
    destruct (IH fuel (bset bs h b) i (dib_at bs i)) as (bs' & H4 & H5 & H6 & H7);
      rewrite ?zlen_bset; try easy; try lia.
    + intros j. rewrite dib_bset by easy. destruct (_ =? h); [|apply Hmax].
      pose proof (Hmax (h + 1)). lia.
    + rewrite dib_bset by easy.
      assert (He : (i + 1 + Z.of_nat t) mod zlen bs = (h + 1 + Z.of_nat (S t)) mod zlen bs).
      { unfold i. rewrite <- Z.add_assoc, Zplus_mod_idemp_l. f_equal. lia. }
      destruct (_ =? h) eqn:E2; zb.
      * exfalso. rewrite He in E2. apply (slot_ahead bs h (1 + Z.of_nat (S t))); try lia.
        rewrite Z.add_assoc. exact E2.
      * unfold dib_at in *. now rewrite (slot_eq bs _ _ He).
    + exists bs'. rewrite <- Hl in H4, H5. rewrite Hl in H5.
      split; [easy|]. split; [congruence|]. split; [easy|].
      rewrite H7. apply items_shift; unfold dib_at in *; rewrite ?Hsi; try easy; try lia.
      apply Z.mod_pos_bound. lia.
Qed.

(** [delbkt] on a used bucket of a ring that has a free bucket. *)
Lemma delbkt_spec bs i b fuel :
  zlen bs = n → 2 < n → rh bs → (∀ i, dib_at bs i <= 255) →
  bget bs i = Some b → get_dib b ≠ 0 → (∃ f, dib_at bs f = 0) →
  (Z.to_nat n <= fuel)%nat →
  ∃ bs', delbkt_loop fuel (n - 1) (bset bs i (set_dib b 0)) i = Some bs' ∧
    zlen bs' = n ∧ rh bs' ∧ (get_entry b, get_hash b) :: items bs' ≡ₚ items bs.
Proof.
  intros Hl H2 Hrh Hmax Hb Hd [f Hf] Hfuel.
  apply bget_inv in Hb as [Hi ->].
  assert (0 < n) by lia.
  set (t := (f - (i + 1)) mod n).
  assert (Ht : 0 <= t < n) by (apply Z.mod_pos_bound; lia).
  assert (Hft : dib_at bs (i + 1 + t) = 0).
  { rewrite <- Hf. unfold dib_at. f_equal. apply slot_eq. unfold t. rewrite Hl.
    rewrite Zplus_mod_idemp_r. f_equal. lia. }
  assert (t + 1 < n).
  { destruct (decide (t = n - 1)) as [E|]; [|lia]. exfalso. apply Hd.
    rewrite <- Hft. unfold dib_at. f_equal. apply slot_eq. rewrite E, Hl.
    replace (i + 1 + (n - 1)) with (i + 1 * n) by lia. symmetry. apply Z_mod_plus_full. }
  destruct (delbkt_loop_spec (Z.to_nat t) fuel (bset bs i (set_dib (slot bs i) 0)) i
    (dib_at bs i)) as (bs' & H4 & H5 & H6 & H7); rewrite ?zlen_bset, ?Z2Nat.id by lia; try lia.
  - apply rh_hole; try easy. lia.
  - intros j. rewrite dib_bset by lia. destruct (_ =? i); [rewrite set_dib_zero; lia|apply Hmax].
  - rewrite dib_bset by lia. destruct (_ =? i); [rewrite set_dib_zero|rewrite Hft]; lia.
  - exists bs'. split; [easy|]. split; [easy|]. split; [easy|]. rewrite H7.
    unfold holed. rewrite bset_twice.
    destruct (items_bset bs i (set_dib (slot (bset bs i (set_dib (slot bs i) 0)) i) 0))
      as (rest & Ha & Hc); [lia|].
    rewrite Ha, Hc. rewrite (item_used (slot bs i)) by exact Hd.
    now rewrite item_empty by reflexivity.
Qed.
End Delete.

(** ** Distances that fit in a byte *)

(** The hashes whose home is one of the [len] buckets from [a] on. *)
Definition in_arc (n a len h : Z) : Prop := (h - a) mod n < len.

#[export] Instance in_arc_dec n a len h : Decision (in_arc n a len h).
Proof. unfold in_arc. apply _. Defined.

(** The hashes are spread: no arc of [len] buckets is home to more than
    [len + 253] of them. *)
Definition spread (n : Z) (hs : list Z) : Prop :=
  ∀ a len, 0 < len → Z.of_nat (length (filter (in_arc n a len) hs)) <= len + 253.

Lemma spread_perm n hs hs' : hs ≡ₚ hs' → spread n hs → spread n hs'.
Proof. intros Hp H a len Hlen. rewrite <- Hp. now apply H. Qed.

Lemma spread_submseteq n hs hs' : hs' ⊆+ hs → spread n hs → spread n hs'.
Proof.
  intros Hs H a len Hlen. specialize (H a len Hlen).
  apply submseteq_Permutation in Hs as [l Hl].
  rewrite Hl, filter_app, length_app in H. lia.
Qed.

(** At most 254 hashes are spread, whatever they are. *)
Lemma spread_small n hs : (length hs <= 254)%nat → spread n hs.
Proof.
  intros H a len Hlen. pose proof (length_filter (in_arc n a len) hs). lia.
Qed.

Lemma ring_perm n s :
  0 < n → (λ u, (s + u) mod n) <$> seqZ 0 n ≡ₚ seqZ 0 n.
Proof.
  intros Hn. apply NoDup_Permutation.
  - apply NoDup_fmap_2_strong; [|apply NoDup_seqZ].
    intros x y Hx%elem_of_seqZ Hy%elem_of_seqZ He.
    assert ((x - y) mod n = 0) as Hd.
    { replace (x - y) with ((s + x) - (s + y)) by lia.
      rewrite Zminus_mod, He, Z.sub_diag. apply Zmod_0_l. }
    apply Z.mod_divide in Hd as [q Hq]; [|lia].
    assert (q = 0) by nia. nia.
  - apply NoDup_seqZ.
  - intros x. rewrite list_elem_of_fmap, elem_of_seqZ. split.
    + intros (u & -> & _). apply Z.mod_pos_bound. lia.
    + intros Hx. exists ((x - s) mod n). rewrite elem_of_seqZ, Zplus_mod_idemp_r.
      replace (s + (x - s)) with x by lia. rewrite Z.mod_small by lia.
      split; [easy|]. apply Z.mod_pos_bound. lia.
Qed.

(** The content read off around the ring from any starting point. *)
Lemma items_rotate bs s :
  0 < zlen bs → items bs ≡ₚ omap (λ u, item (slot bs (s + u))) (seqZ 0 (zlen bs)).
Proof.
  intros Hl. assert (items bs = omap (λ u, item (slot bs u)) (seqZ 0 (zlen bs))) as ->.
  { unfold items. assert (bs = slot bs <$> seqZ 0 (zlen bs)) as E.
    { apply list_eq. intros i. rewrite list_lookup_fmap.
      destruct (decide (i < length bs)%nat) as [Hi|Hi].
      - rewrite lookup_seqZ_lt by (unfold zlen; lia). cbn.
        pose proof (bget_slot bs (Z.of_nat i) ltac:(unfold zlen; lia)) as Hg.
        unfold bget in Hg. rewrite (proj2 (Z.ltb_ge _ _)) in Hg by lia.
        now rewrite Nat2Z.id in Hg.
      - rewrite lookup_ge_None_2, lookup_seqZ_ge by (unfold zlen; lia). easy. }
    rewrite E at 1. generalize (seqZ 0 (zlen bs)). intros l. clear.
    induction l as [|x l IH]; [easy|]. cbn. rewrite IH. easy. }
  rewrite <- (ring_perm (zlen bs) s) at 1 by easy.
  generalize (seqZ 0 (zlen bs)). intros l.
  assert (omap (λ u, item (slot bs u)) ((λ u, (s + u) mod zlen bs) <$> l) =
    omap (λ u, item (slot bs (s + u))) l) as ->; [|easy].
  induction l as [|x l IH]; [easy|]. cbn. rewrite IH, slot_mod. easy.
Qed.

(** The hashes stored in the ring. *)
Definition hashes (bs : list bucket) : list Z := snd <$> items bs.

(** The start of the run that leads to a used bucket: a bucket at home, with
    only used buckets at distance above one in between. *)
Lemma run_start bs i :
  rh bs → (∃ f, dib_at bs f = 0) → dib_at bs i ≠ 0 →
  ∃ t, 0 <= t < zlen bs ∧ dib_at bs (i - t) = 1 ∧
    ∀ u, 0 <= u <= t → 1 <= dib_at bs (i - u).
Proof.
  intros Hrh [f Hf] Hi. pose proof Hrh as [Hl Hr].
  destruct (first_hit (λ t, dib_at bs (i - t) <= 1) (Z.to_nat (zlen bs)))
    as (t & Ht & H1 & H2).
  { exists ((i - f) mod zlen bs). rewrite Z2Nat.id by lia.
    split; [now apply Z.mod_pos_bound|]. unfold dib_at in *.
    rewrite (slot_eq bs _ f); [lia|]. rewrite Zminus_mod_idemp_r. f_equal. lia. }
  rewrite Z2Nat.id in Ht by lia. exists t.
  assert (Hone : dib_at bs (i - t) = 1).
  { destruct (Hr (i - t)) as [H0 _]. destruct (decide (t = 0)) as [->|].
    - rewrite Z.sub_0_r in *. lia.
    - specialize (H2 (t - 1) ltac:(lia)). pose proof (rh_next bs (i - t) Hrh) as Hnx.
      replace (i - t + 1) with (i - (t - 1)) in Hnx by lia. lia. }
  split; [easy|]. split; [easy|]. intros u Hu.
  destruct (decide (u = t)) as [->|]; [lia|]. specialize (H2 u ltac:(lia)). lia.
Qed.

(** Along a run the homes follow one another. *)
Lemma run_homes bs s t :
  rh bs → dib_at bs s = 1 → (∀ u, 0 <= u <= Z.of_nat t → 1 <= dib_at bs (s + u)) →
  ∀ u, 0 <= u <= Z.of_nat t →
    0 <= u - dib_at bs (s + u) + 1 <= Z.of_nat t - dib_at bs (s + Z.of_nat t) + 1.
Proof.
  intros Hrh Hs. induction t as [|t IH]; intros Hused u Hu.
  { assert (u = 0) as -> by lia. change (Z.of_nat 0) with 0. rewrite Z.add_0_r. lia. }
  pose proof (rh_next bs (s + Z.of_nat t) Hrh) as Hnx.
  replace (s + Z.of_nat t + 1) with (s + Z.of_nat (S t)) in Hnx by lia.
  pose proof (IH ltac:(intros; apply Hused; lia) (Z.of_nat t) ltac:(lia)) as Ht.
  destruct (decide (u = Z.of_nat (S t))) as [->|].
  - split; lia.
  - pose proof (IH ltac:(intros; apply Hused; lia) u ltac:(lia)). lia.
Qed.

Lemma omap_used (f : Z → bucket) l :
  Forall (λ u, get_dib (f u) ≠ 0) l →
  omap (λ u, item (f u)) l = (λ u, (get_entry (f u), get_hash (f u))) <$> l.
Proof.
  induction 1 as [|x l Hx _ IH]; [easy|]. cbn. rewrite item_used by easy. now rewrite IH.
Qed.

Lemma filter_all {A} (P : A → Prop) `{!∀ x, Decision (P x)} l :
  Forall P l → filter P l = l.
Proof. induction 1; [easy|]. rewrite filter_cons_True by easy. congruence. Qed.

(** Spread hashes keep every distance below 255. *)
Lemma spread_dib bs i :
  rh bs → (∃ f, dib_at bs f = 0) → spread (zlen bs) (hashes bs) → dib_at bs i <= 254.
Proof.
  intros Hrh Hfree Hsp. destruct (decide (dib_at bs i = 0)) as [->|Hi]; [lia|].
  pose proof Hrh as [Hl Hr].
  destruct (run_start bs i Hrh Hfree Hi) as (t & Ht & H1 & Hused).
  set (s := i - t). set (n := zlen bs) in *.
  pose proof (run_homes bs s (Z.to_nat t) Hrh H1) as Hh. rewrite Z2Nat.id in Hh by lia.
  assert (Hused' : ∀ u, 0 <= u <= t → 1 <= dib_at bs (s + u)).
  { intros u Hu. replace (s + u) with (i - (t - u)) by (unfold s; lia). apply Hused. lia. }
  specialize (Hh Hused'). replace (s + t) with i in Hh by (unfold s; lia).
  set (len := t - dib_at bs i + 2).
  assert (0 < len) as Hlen.
  { specialize (Hh t ltac:(lia)). replace (s + t) with i in Hh by (unfold s; lia). lia. }
  pose proof (Hsp s len Hlen) as Hc. unfold hashes in Hc.
  rewrite (items_rotate bs s Hl) in Hc. fold n in Hc.
  assert (seqZ 0 n = seqZ 0 (t + 1) ++ seqZ (0 + (t + 1)) (n - (t + 1))) as Es.
  { rewrite <- seqZ_app by lia. f_equal. lia. }
  rewrite Es, omap_app, fmap_app, filter_app, length_app in Hc by lia.
  rewrite omap_used, <- list_fmap_compose, filter_all, length_fmap, length_seqZ in Hc; [lia| |].
  - apply Forall_fmap, Forall_forall. intros u Hu%elem_of_seqZ. unfold in_arc. cbn.
    specialize (Hh u ltac:(lia)).
    destruct (Hr (s + u)) as [_ Hru]. specialize (Hused' u ltac:(lia)).
    destruct (Hru ltac:(lia)) as [Hmod _]. fold n in Hmod.
    assert ((get_hash (slot bs (s + u)) - s) mod n = u - dib_at bs (s + u) + 1) as ->.
    { replace (get_hash (slot bs (s + u)) - s) with
        ((get_hash (slot bs (s + u)) + dib_at bs (s + u) - 1) - (s + dib_at bs (s + u) - 1)) by lia.
      rewrite Zminus_mod, Hmod, <- Zminus_mod. rewrite Z.mod_small by lia. lia. }
    lia.
  - apply Forall_forall. intros u Hu%elem_of_seqZ. specialize (Hused' u ltac:(lia)).
    unfold dib_at in Hused'. lia.
Qed.

(** ** Rings that are not full *)

(** A ring with fewer items than buckets has a free bucket. *)
Lemma ring_free bs : Z.of_nat (length (items bs)) < zlen bs → ∃ f, dib_at bs f = 0.
Proof. exact (ring_has_free bs). Qed.

(** The first free bucket from [i] on. *)
Lemma ring_first_free bs i :
  0 < zlen bs → (∃ f, dib_at bs f = 0) → ∃ t, 0 <= t < zlen bs ∧ dib_at bs (i + t) = 0 ∧
    ∀ t', 0 <= t' < t → dib_at bs (i + t') ≠ 0.
Proof. exact (ring_free_ahead bs i). Qed.

(** A distance is smaller than the ring. *)
Lemma ring_dib_lt bs j :
  rh bs → (∃ f, dib_at bs f = 0) → 0 <= j < zlen bs → dib_at bs j < zlen bs.
Proof. exact (ring_dib_small bs j). Qed.

(** A bucket at distance one fits at its home. *)
Lemma fits_home bs e :
  rh bs → get_dib e = 1 → fits bs (get_hash e mod zlen bs) e.
Proof. exact (ring_fits_home bs e). Qed.

(** Placing a bucket at its home in a ring that is not full and whose hashes
    are spread. *)
Lemma resize_place_home bs k e fuel :
  zlen bs = 2 ^ k → 0 <= k → rh bs → spread (zlen bs) (hashes bs) →
  Z.of_nat (length (items bs)) < zlen bs → get_dib e = 1 → (length bs < fuel)%nat →
  ∃ bs', resize_place fuel (zlen bs - 1) bs (get_hash e mod zlen bs) e = Some bs' ∧
    zlen bs' = zlen bs ∧ rh bs' ∧ items bs' ≡ₚ (get_entry e, get_hash e) :: items bs.
Proof.
  intros Hl Hk Hrh Hsp Hfull He Hf. pose proof (ring_free bs Hfull) as Hfree.
  destruct Hrh as [Hl0 Hr].
  destruct (ring_first_free bs (get_hash e mod zlen bs) Hl0 Hfree) as (t & Ht & H1 & _).
  apply (resize_place_spec (zlen bs) k Hl Hk (Z.to_nat t)); rewrite ?Z2Nat.id by lia;
    try lia; try easy.
  - now apply fits_home.
  - intros t' _. now apply spread_dib.
  - unfold zlen in *. lia.
Qed.
