(* ===== verification/MapSpec.v ===== *)
(** * MapSpec: the hash map refines a finite map

    The abstract content of a map is a finite map from keys to the address and
    the logical entry stored under the key. [map_ok] relates it to the buckets;
    the theorems say that lookups find exactly the keys of the finite map, and
    that insertion, replacement, deletion, growing and shrinking act on it as
    insertion and deletion of a finite map do. *)

From S2P Require Import Prelude Util Sixpack Context Entry Heap Map MapInv.

Abbreviation content := (gmap bytes (Z * ent)).

(** The hash kept in a bucket. *)
Definition hash24 (ctx : pgctx) (key : bytes) : Z := clip_hash (th64 key (seed ctx)).

(** The address and hash of each entry. *)
Definition content_items (ctx : pgctx) (M : content) : list (Z * Z) :=
  (λ kpx, (kpx.2.1, hash24 ctx kpx.1)) <$> map_to_list M.

(** Each key is held by its own well-formed entry in memory. *)
Definition entries_ok (ctx : pgctx) (h : heap) (M : content) : Prop :=
  ∀ k p x, M !! k = Some (p, x) →
    e_key x = k ∧ ent_ok ctx x ∧ h !! p = Some (encode ctx x) ∧ 0 < p < 2 ^ 48.

(** The hashes of the keys are spread at every bucket count, so that no
    distance overflows its byte. *)
Definition probe_safe (ctx : pgctx) (M : content) : Prop :=
  ∀ n, cap_ok n → spread n (hash24 ctx <$> (map_to_list M).*1).

Record map_ok (ctx : pgctx) (h : heap) (m : map_t) (M : content) : Prop := {
  mo_ctx : ctx_ok ctx;
  mo_cap : cap_ok (m_cap m) ∧ m_cap m <= m_nbuckets m;
  mo_nbuckets : cap_ok (m_nbuckets m);
  mo_len : zlen (m_buckets m) = m_nbuckets m;
  mo_mask : m_mask m = m_nbuckets m - 1;
  mo_growat : m_growat m = scale (m_nbuckets m) (loadfactor ctx);
  mo_shrinkat : m_shrinkat m = scale (m_nbuckets m) (shrinkfactor ctx);
  mo_count : m_count m = Z.of_nat (size M);
  mo_load : m_count m <= m_growat m;
  mo_rh : rh (m_buckets m);
  mo_items : items (m_buckets m) ≡ₚ content_items ctx M;
  mo_entries : entries_ok ctx h M;
  mo_safe : probe_safe ctx M
}.

(** ** The abstract content *)

Lemma content_items_insert ctx M k p x :
  M !! k = None →
  content_items ctx (<[k := (p, x)]> M) ≡ₚ (p, hash24 ctx k) :: content_items ctx M.
Proof. intros H. unfold content_items. now rewrite map_to_list_insert. Qed.

Lemma content_items_delete ctx M k p x :
  M !! k = Some (p, x) →
  content_items ctx M ≡ₚ (p, hash24 ctx k) :: content_items ctx (delete k M).
Proof.
  intros H. unfold content_items. rewrite <- (map_to_list_delete M k (p, x)) by easy. easy.
Qed.

Lemma content_items_elem ctx M p h :
  (p, h) ∈ content_items ctx M ↔ ∃ k x, M !! k = Some (p, x) ∧ h = hash24 ctx k.
Proof.
  unfold content_items. rewrite list_elem_of_fmap. split.
  - intros ([k [q x]] & He & Hin). cbn in He. apply elem_of_map_to_list in Hin. inv_all.
    eauto.
  - intros (k & x & Hk & ->). exists (k, (p, x)). split; [easy|].
    now apply elem_of_map_to_list.
Qed.

Lemma content_hashes ctx M :
  snd <$> content_items ctx M = hash24 ctx <$> (map_to_list M).*1.
Proof.
  unfold content_items. generalize (hash24 ctx). intros f.
  now rewrite <- !list_fmap_compose.
Qed.

Lemma length_content_items ctx M : length (content_items ctx M) = size M.
Proof. unfold content_items. now rewrite length_fmap, length_map_to_list. Qed.

Lemma probe_safe_insert_inv ctx M k v :
  M !! k = None → probe_safe ctx (<[k := v]> M) → probe_safe ctx M.
Proof.
  intros Hk H n Hn. eapply spread_submseteq; [|apply (H n Hn)].
  rewrite map_to_list_insert by easy. cbn. now apply submseteq_cons.
Qed.

Lemma probe_safe_delete ctx M k : probe_safe ctx M → probe_safe ctx (delete k M).
Proof.
  destruct (M !! k) as [v|] eqn:E; [|now rewrite delete_id].
  intros H. apply (probe_safe_insert_inv ctx _ k v); [apply lookup_delete_eq|].
  now rewrite insert_delete_eq, insert_id.
Qed.

(** Replacing the entry of a present key does not change the hashes. *)
Lemma probe_safe_replace ctx M k v v' :
  M !! k = Some v → probe_safe ctx M → probe_safe ctx (<[k := v']> M).
Proof.
  intros Hk H n Hn. specialize (H n Hn). eapply spread_perm; [|exact H].
  rewrite <- (insert_delete_eq M), <- (insert_id M k v) at 1 by easy.
  rewrite <- (insert_delete_eq M k v) at 1.
  rewrite !map_to_list_insert by apply lookup_delete_eq. easy.
Qed.

(** A map of at most 254 entries is always safe. *)
Lemma probe_safe_small ctx M : (size M <= 254)%nat → probe_safe ctx M.
Proof.
  intros H n Hn. apply spread_small. now rewrite !length_fmap, length_map_to_list.
Qed.

(** Distinct keys are at distinct addresses. *)
Lemma entries_inj ctx h M k k' p x x' :
  entries_ok ctx h M → M !! k = Some (p, x) → M !! k' = Some (p, x') → k = k' ∧ x = x'.
Proof.
  intros He H1 H2. destruct (He _ _ _ H1) as (<- & Hx & Hp & _).
  destruct (He _ _ _ H2) as (<- & Hx' & Hp' & _).
  assert (encode ctx x = encode ctx x') as E by congruence.
  assert (e_key x = e_key x') as Ek.
  { rewrite <- (encode_key ctx x Hx), <- (encode_key ctx x' Hx'). now rewrite E. }
  split; [easy|]. rewrite Ek in H1. congruence.
Qed.

Lemma entries_delete ctx h M k : entries_ok ctx h M → entries_ok ctx h (delete k M).
Proof. intros H k' p x Hk. apply lookup_delete_Some in Hk as [_ Hk]. eauto. Qed.

Lemma entries_insert ctx h M k p x :
  entries_ok ctx h M → e_key x = k → ent_ok ctx x → h !! p = Some (encode ctx x) →
  0 < p < 2 ^ 48 → entries_ok ctx h (<[k := (p, x)]> M).
Proof.
  intros H ? ? ? ? k' p' x' Hk. apply lookup_insert_Some in Hk as [[<- Heq]|[_ Hk]]; [|eauto].
  now inv_all.
Qed.

(** ** Buckets of a map *)

Section Lookup.
Context (ctx : pgctx) (h : heap) (m : map_t) (M : content) (Hm : map_ok ctx h m M).

Let bs := m_buckets m.
Let n := m_nbuckets m.

Lemma growat_lt : m_growat m < n.
Proof.
  destruct Hm. rewrite mo_growat0. now apply (growat_facts ctx n).
Qed.

Lemma length_items : length (items bs) = size M.
Proof. destruct Hm. unfold bs. now rewrite mo_items0, length_content_items. Qed.

Lemma ring_size : 64 <= n.
Proof. apply cap_ok_range, Hm. Qed.

Lemma ring_pow : ∃ k, n = 2 ^ k ∧ 0 <= k.
Proof. destruct (mo_nbuckets _ _ _ _ Hm) as (k & Hk & Hn). exists k. split; [easy|lia]. Qed.

(** There is always a free bucket. *)
Lemma free_bucket : ∃ f, dib_at bs f = 0.
Proof.
  apply ring_free. rewrite length_items. pose proof growat_lt. destruct Hm.
  unfold bs, n in *. lia.
Qed.

Lemma dib_le_254 i : dib_at bs i <= 254.
Proof.
  apply spread_dib; [apply Hm|apply free_bucket|].
  unfold hashes. eapply spread_perm.
  - apply fmap_Permutation. symmetry. apply (mo_items _ _ _ _ Hm).
  - rewrite content_hashes. unfold bs. rewrite (mo_len _ _ _ _ Hm).
    apply (mo_safe _ _ _ _ Hm), Hm.
Qed.

(** The entry in a used bucket. *)
Lemma slot_entry j :
  dib_at bs j ≠ 0 → ∃ k p x, M !! k = Some (p, x) ∧ get_entry (slot bs j) = p ∧
    get_hash (slot bs j) = hash24 ctx k.
Proof.
  intros Hd. pose proof (items_slot bs j Hd) as Hin. unfold bs in Hin.
  rewrite (mo_items _ _ _ _ Hm) in Hin. apply content_items_elem in Hin as (k & x & ? & ?).
  eauto 7.
Qed.

Lemma slot_bucket_eq j k' p' x' key :
  M !! k' = Some (p', x') → get_entry (slot bs j) = p' →
  get_hash (slot bs j) = hash24 ctx k' →
  bucket_eq h (slot bs j) key (hash24 ctx key) = Some (bool_decide (k' = key)).
Proof.
  intros Hk Hp Hh. destruct (mo_entries _ _ _ _ Hm _ _ _ Hk) as (Hkey & Hx & Hheap & _).
  unfold bucket_eq. rewrite Hh, Hp. destruct (hash24 ctx k' =? hash24 ctx key) eqn:E; zb; cbn [negb].
  - rewrite Hheap. cbn. rewrite encode_key, Hkey by easy. f_equal.
    destruct (length key =? length k')%nat eqn:El; cbn [andb].
    + apply Nat.eqb_eq in El. pose proof (memcmp_eq key k' El) as Hc.
      destruct (memcmp key k' =? 0) eqn:Ec; zb; symmetry.
      * apply bool_decide_eq_true_2. symmetry. now apply Hc.
      * apply bool_decide_eq_false_2. intros ->. now apply Ec, Hc.
    + symmetry. apply bool_decide_eq_false_2. intros ->. now rewrite Nat.eqb_refl in El.
  - f_equal. symmetry. apply bool_decide_eq_false_2. congruence.
Qed.

(** Stored keys are in some bucket. *)
Lemma entry_slot k p x :
  M !! k = Some (p, x) → ∃ j, 0 <= j < zlen bs ∧ dib_at bs j ≠ 0 ∧
    get_entry (slot bs j) = p ∧ get_hash (slot bs j) = hash24 ctx k.
Proof.
  intros Hk. apply items_inv. unfold bs. rewrite (mo_items _ _ _ _ Hm).
  apply content_items_elem. eauto.
Qed.

(** A distance is smaller than the ring. *)
Lemma dib_lt j : 0 <= j < n → dib_at bs j < n.
Proof.
  pose proof (mo_len _ _ _ _ Hm) as Hl. fold bs n in Hl. intros Hj. rewrite <- Hl in *.
  apply ring_dib_lt; [apply Hm|apply free_bucket|easy].
Qed.

(** The first bucket that holds [key], counted from its home. *)
Lemma first_match key p x :
  M !! key = Some (p, x) → ∃ t, 0 <= t < n ∧
    (∀ t', 0 <= t' < t → dib_at bs (hash24 ctx key + t') ≠ 0 ∧
       bucket_eq h (slot bs (hash24 ctx key + t')) key (hash24 ctx key) = Some false) ∧
    (∀ t', 0 <= t' <= t → t' + 1 <= dib_at bs (hash24 ctx key + t')) ∧
    bucket_eq h (slot bs (hash24 ctx key + t)) key (hash24 ctx key) = Some true ∧
    get_entry (slot bs (hash24 ctx key + t)) = p ∧
    get_hash (slot bs (hash24 ctx key + t)) = hash24 ctx key.
Proof.
  intros Hk. destruct (entry_slot key p x Hk) as (j & Hj & Hd & He & Hh).
  pose proof (mo_rh _ _ _ _ Hm) as Hrh. fold bs in Hrh.
  pose proof (rh_home bs j Hrh Hj Hd) as [_ Hd1].
  assert (Hpath : ∀ s, 0 <= s < dib_at bs j → s + 1 <= dib_at bs (hash24 ctx key + s)).
  { intros s Hs. rewrite <- Hh. now apply (rh_path bs j s). }
  assert (Hend : slot bs (hash24 ctx key + (dib_at bs j - 1)) = slot bs j).
  { rewrite <- Hh. destruct (rh_path bs j (dib_at bs j - 1) Hrh Hj ltac:(lia)) as [_ H].
    rewrite <- slot_mod, H by easy. easy. }
  destruct (first_hit (λ t, bucket_eq h (slot bs (hash24 ctx key + t)) key
    (hash24 ctx key) = Some true) (Z.to_nat (dib_at bs j))) as (t & Ht & H1 & H2).
  { exists (dib_at bs j - 1). rewrite Hend. split; [lia|].
    rewrite (slot_bucket_eq j key p x key) by easy. f_equal. now apply bool_decide_eq_true_2. }
  rewrite Z2Nat.id in Ht by lia.
  exists t. split; [|split; [|split; [|split] ] ].
  - pose proof (dib_lt j) as Hlt. pose proof (mo_len _ _ _ _ Hm). unfold bs, n in *. lia.
  - intros t' Ht'. specialize (Hpath t' ltac:(lia)). split; [lia|].
    destruct (slot_entry (hash24 ctx key + t')) as (k2 & p2 & x2 & Ha & Hb & Hc); [lia|].
    specialize (H2 t' Ht'). rewrite (slot_bucket_eq _ k2 p2 x2) in * by easy.
    destruct (bool_decide _); [easy|easy].
  - intros t' Ht'. apply Hpath. lia.
  - easy.
  - destruct (slot_entry (hash24 ctx key + t)) as (k2 & p2 & x2 & Ha & Hb & Hc).
    { specialize (Hpath t ltac:(lia)). lia. }
    rewrite (slot_bucket_eq _ k2 p2 x2) in H1 by easy. injection H1 as H1. apply bool_decide_eq_true_1 in H1. subst k2.
    rewrite Hb, Hc. split; congruence.
Qed.

Let home key := hash24 ctx key mod n.

Lemma home_slot key t : slot bs (home key + t) = slot bs (hash24 ctx key + t).
Proof.
  apply slot_eq. unfold bs. rewrite (mo_len _ _ _ _ Hm). apply Zplus_mod_idemp_l.
Qed.

Lemma home_range key : 0 <= home key < n.
Proof. apply Z.mod_pos_bound. pose proof ring_size. lia. Qed.

Lemma home_mask key : hash24 ctx key .& m_mask m = home key.
Proof.
  destruct ring_pow as (k & Hk & ?). rewrite (mo_mask _ _ _ _ Hm). now apply (land_ring _ k).
Qed.

(** The probe for a stored key ends at its bucket. *)
Lemma probe_found key p x fuel :
  M !! key = Some (p, x) → (length bs < fuel)%nat → ∃ i,
    probe_loop fuel h (m_mask m) bs (home key) key (hash24 ctx key) = Some i ∧
    0 <= i < n ∧ dib_at bs i ≠ 0 ∧ get_entry (slot bs i) = p ∧
    get_hash (slot bs i) = hash24 ctx key.
Proof.
  intros Hk Hf. destruct ring_pow as (k & Hn & Hk0). pose proof ring_size.
  pose proof (mo_len _ _ _ _ Hm) as Hl. fold bs n in Hl.
  destruct (first_match key p x Hk) as (t & Ht & Hskip & Hdib & Heq & He & Hh).
  exists ((home key + t) mod n). rewrite (mo_mask _ _ _ _ Hm). fold n.
  assert (Hs : slot bs ((home key + t) mod n) = slot bs (hash24 ctx key + t)).
  { rewrite <- Hl, slot_mod. apply home_slot. }
  unfold dib_at in *. rewrite Hs.
  split; [|split; [|split; [|now split] ] ].
  - replace t with (Z.of_nat (Z.to_nat t)) by lia.
    apply (probe_loop_hit n k Hn Hk0 h bs Hl); unfold dib_at; rewrite ?Z2Nat.id by lia.
    + apply home_range.
    + unfold zlen in Hl. lia.
    + intros t' Ht'. rewrite home_slot. now apply Hskip.
    + rewrite home_slot. specialize (Hdib t ltac:(lia)). lia.
    + now rewrite home_slot.
  - apply Z.mod_pos_bound. lia.
  - specialize (Hdib t ltac:(lia)). lia.
Qed.

(** The offset of the first free bucket from [i] on. *)
Lemma first_free i : ∃ t, 0 <= t < n ∧ dib_at bs (i + t) = 0 ∧
  ∀ t', 0 <= t' < t → dib_at bs (i + t') ≠ 0.
Proof.
  pose proof (mo_len _ _ _ _ Hm) as Hl. fold bs n in Hl. rewrite <- Hl.
  apply ring_first_free; [apply Hm|apply free_bucket].
Qed.

(** A used bucket that does not hold [key]. *)
Lemma slot_other key j : M !! key = None → dib_at bs j ≠ 0 →
  bucket_eq h (slot bs j) key (hash24 ctx key) = Some false.
Proof.
  intros Hk Hd. destruct (slot_entry j Hd) as (k & p & x & Ha & Hb & Hc).
  rewrite (slot_bucket_eq j k p x key) by easy. f_equal. apply bool_decide_eq_false_2.
  congruence.
Qed.

(** The probe for an absent key ends at a free bucket. *)
Lemma probe_absent key fuel :
  M !! key = None → (length bs < fuel)%nat →
  probe_loop fuel h (m_mask m) bs (home key) key (hash24 ctx key) = Some (-1).
Proof.
  intros Hk Hf. destruct ring_pow as (k & Hn & Hk0).
  pose proof (mo_len _ _ _ _ Hm) as Hl. fold bs n in Hl.
  destruct (first_free (home key)) as (t & Ht & H1 & H2).
  rewrite (mo_mask _ _ _ _ Hm). fold n.
  apply (probe_loop_miss n k Hn Hk0 h bs Hl (Z.to_nat t)); rewrite ?Z2Nat.id by lia.
  - apply home_range.
  - unfold zlen in Hl. lia.
  - intros t' Ht'. split; [now apply H2|]. apply slot_other; [easy|]. now apply H2.
  - exact H1.
Qed.
End Lookup.

Lemma clip_hash_u32 x : clip_hash (u32 x) = clip_hash x.
Proof.
  unfold clip_hash, u32. change 0xFFFFFF with (2 ^ 24 - 1). rewrite !land_mask by lia. dm.
Qed.
