(* ===== verification/MapOps.v ===== *)
(** * MapOps: the operations of the hash map on its content

    Insertion, replacement, deletion, growing and shrinking of the buckets,
    each as what it does to the finite map of [MapSpec.v]. *)

From S2P Require Import Prelude Util Sixpack Context Entry Heap Map MapInv MapSpec.

(** ** Buckets as records *)

Lemma get_set_entry b p : 0 <= p < 2 ^ 48 → get_entry (set_entry b p) = p.
Proof. apply load_store_ptr_id. Qed.

Lemma get_set_hash b x : 0 <= x < 2 ^ 24 → get_hash (set_hash b x) = x.
Proof.
  intros Hx. unfold get_hash, set_hash, read_hash, write_hash. cbn [b_hash nth].
  rewrite !Z.lor_0_l. change 255 with (2 ^ 8 - 1).
  rewrite !land_mask, !Z.shiftl_0_r, !Z.shiftr_0_r, !shiftr_div by lia.
  rewrite !shiftl_mul, (Z.mod_small (x / 2 ^ 16)) by dm.
  rewrite (lor_add_shift _ _ 8) by dm. rewrite (lor_add_shift _ _ 16) by dm. dm.
Qed.

Lemma hash24_range ctx key : 0 <= hash24 ctx key < 2 ^ 24.
Proof.
  unfold hash24, clip_hash. change 0xFFFFFF with (2 ^ 24 - 1). rewrite land_mask by lia.
  apply Z.mod_pos_bound. lia.
Qed.

(** The bucket [map_insert] starts from. *)
Definition new_bucket (p hash : Z) : bucket :=
  set_dib (set_hash (set_entry zbucket p) hash) 1.

Lemma new_bucket_eq p hash :
  new_bucket p hash = set_dib (set_hash (set_entry zbucket p) hash) 1.
Proof. reflexivity. Qed.

Lemma new_bucket_spec p x : 0 <= p < 2 ^ 48 → 0 <= x < 2 ^ 24 →
  get_entry (new_bucket p x) = p ∧ get_hash (new_bucket p x) = x ∧ get_dib (new_bucket p x) = 1.
Proof.
  intros Hp Hx. split; [exact (get_set_entry zbucket p Hp)|].
  split; [exact (get_set_hash (set_entry zbucket p) x Hx)|reflexivity].
Qed.

(** ** Comparing entries *)

Lemma same_entry_keys ctx h e b x y :
  h !! get_entry e = Some (encode ctx x) → h !! get_entry b = Some (encode ctx y) →
  get_hash e = hash24 ctx (e_key x) → get_hash b = hash24 ctx (e_key y) →
  ent_ok ctx x → ent_ok ctx y →
  same_entry h e b = Some (bool_decide (e_key x = e_key y)).
Proof.
  intros He Hb Hhe Hhb Hx Hy. unfold same_entry. rewrite He, Hb, Hhe, Hhb.
  destruct (hash24 ctx (e_key x) =? hash24 ctx (e_key y)) eqn:E; zb.
  - cbn [mbind option_bind]. rewrite entry_compare_lex by easy. f_equal.
    pose proof (lexcmp_eq (e_key x) (e_key y)) as Hc.
    destruct (lexcmp _ _ =? 0) eqn:E2; zb; symmetry.
    + now apply bool_decide_eq_true_2, Hc.
    + apply bool_decide_eq_false_2. now intros ?%Hc.
  - f_equal. symmetry. apply bool_decide_eq_false_2. congruence.
Qed.

(** Two items of a content have different keys. *)
Lemma same_entry_distinct ctx h M e b rest :
  entries_ok ctx h M →
  (get_entry e, get_hash e) :: (get_entry b, get_hash b) :: rest ≡ₚ content_items ctx M →
  same_entry h e b = Some false.
Proof.
  intros Hent Hp. unfold content_items in Hp.
  apply Permutation_map_inv in Hp as (l3 & Heq & Hp).
  destruct l3 as [|[k1 [p1 x1]] [|[k2 [p2 x2]] l3]];
    [discriminate|discriminate|]. cbn in Heq. inv_all.
  pose proof (NoDup_fst_map_to_list M) as Hnd. rewrite Hp in Hnd. cbn in Hnd.
  apply NoDup_cons in Hnd as [Hne _].
  destruct (Hent k1 p1 x1) as (<- & Hx1 & Hh1 & _).
  { apply elem_of_map_to_list. rewrite Hp. constructor. }
  destruct (Hent k2 p2 x2) as (<- & Hx2 & Hh2 & _).
  { apply elem_of_map_to_list. rewrite Hp. do 2 constructor. }
  rewrite (same_entry_keys ctx h e b x1 x2); try congruence.
  f_equal. apply bool_decide_eq_false_2. intros E. apply Hne. rewrite E. constructor.
Qed.

(** ** Inserting a new key *)

Section Insert.
Context (ctx : pgctx) (h : heap) (n k : Z) (Hn : n = 2 ^ k) (Hk : 0 <= k).

(** Among entries with different keys [map_insert] places its bucket as
    [resize] does. *)
Lemma insert_loop_place M t : ∀ fuel bs j e,
  zlen bs = n → rh bs → fits bs j e →
  (∀ t', 0 <= t' < Z.of_nat t → dib_at bs (j + t') <= 254) → get_dib e <= 255 →
  dib_at bs (j + Z.of_nat t) = 0 → Z.of_nat t < n → (t < fuel)%nat →
  entries_ok ctx h M → (get_entry e, get_hash e) :: items bs ≡ₚ content_items ctx M →
  insert_loop fuel h (n - 1) bs j e =
    (bs' ← resize_place fuel (n - 1) bs j e; Some (bs', None)).
Proof.
  induction t as [|t IH]; intros [|fuel] bs j e Hl Hrh Hfit Hsafe He Hfree Htn Hf Hent Hc;
    try lia; pose proof Hfit as [Hj _]; pose proof Hrh as [Hl0 _];
    cbn [resize_place insert_loop]; rewrite bget_slot by easy; cbn [mbind option_bind];
    fold (dib_at bs j).
  - rewrite Z.add_0_r in Hfree. now rewrite Hfree.
  - destruct (dib_at bs j =? 0) eqn:E0; [easy|]. zb.
    destruct (items_bset bs j e Hj) as (rest & Hrest & _).
    rewrite item_used in Hrest by exact E0. cbn [opt_list app] in Hrest.
    rewrite (same_entry_distinct ctx h M e (slot bs j) rest) by (easy || now rewrite <- Hrest).
    cbn [mbind option_bind].
    pose proof (Hsafe 0 ltac:(lia)) as Hsafe0. rewrite Z.add_0_r in Hsafe0.
    pose proof (place_step bs j e Hrh Hfit E0 Hsafe0) as Hstep.
    destruct (if dib_at bs j <? get_dib e then _ else _) as [bs1 e1].
    destruct Hstep as (Hl1 & Hrh1 & Hfit1 & Hd1 & Hahead & Hperm).
    rewrite (land_ring (j + 1) k n) by easy. rewrite Hl in *.
    assert (Hsh : ∀ t', dib_at bs1 ((j + 1) mod n + t') = dib_at bs1 (j + (1 + t'))).
    { intros t'. unfold dib_at. f_equal. apply slot_eq. rewrite Hl1, Zplus_mod_idemp_l.
      f_equal. lia. }
    apply IH; try easy; try lia.
    + intros t' Ht'. rewrite Hsh, Hahead by lia. apply Hsafe. lia.
    + rewrite Hsh, Hahead by lia. rewrite <- Hfree. f_equal. lia.
    + etransitivity; [exact Hperm|exact Hc].
Qed.
End Insert.

(** Replacing the entry of a bucket keeps the invariant. *)
Lemma rh_bset_entry bs i b :
  rh bs → 0 <= i < zlen bs → get_dib b = dib_at bs i → get_hash b = get_hash (slot bs i) →
  rh (bset bs i b).
Proof.
  intros [Hl Hr] Hi Hd Hh. split; [now rewrite zlen_bset|]. intros j. rewrite zlen_bset.
  assert (Hdib : ∀ j, dib_at (bset bs i b) j = dib_at bs j).
  { intros j'. rewrite dib_bset by easy. case_if; [|easy]. rewrite Hd. unfold dib_at.
    rewrite <- (slot_mod bs j'). congruence. }
  rewrite !Hdib. rewrite slot_bset by easy. case_if; [|apply Hr].
  rewrite Hh. rewrite (slot_eq bs i j) by (rewrite Z.mod_small; congruence || lia). apply Hr.
Qed.

(** ** One insertion into the buckets *)

#[local] Opaque hash24 new_bucket.

Section MapInsert.
Context (ctx : pgctx) (h : heap) (m : map_t) (M : content) (Hm : map_ok ctx h m M).
Context (p : Z) (x : ent).
Context (Hp : 0 < p < 2 ^ 48) (Hx : ent_ok ctx x) (Hh : h !! p = Some (encode ctx x)).

Let bs := m_buckets m.
Let n := m_nbuckets m.
Let e := new_bucket p (hash24 ctx (e_key x)).

Lemma new_bucket_get :
  get_entry e = p ∧ get_hash e = hash24 ctx (e_key x) ∧ get_dib e = 1.
Proof. apply new_bucket_spec; [lia|apply hash24_range]. Qed.

Lemma spread_hashes : spread (zlen bs) (hashes bs).
Proof.
  unfold hashes. eapply spread_perm.
  - apply fmap_Permutation. symmetry. apply (mo_items _ _ _ _ Hm).
  - rewrite content_hashes. unfold bs. rewrite (mo_len _ _ _ _ Hm).
    apply (mo_safe _ _ _ _ Hm), Hm.
Qed.

Lemma insert_new fuel :
  M !! e_key x = None → (length bs < fuel)%nat →
  ∃ bs', insert_loop fuel h (m_mask m) bs (hash24 ctx (e_key x) .& m_mask m) e
           = Some (bs', None) ∧
    zlen bs' = n ∧ rh bs' ∧ items bs' ≡ₚ (p, hash24 ctx (e_key x)) :: items bs.
Proof.
  intros HM Hf. destruct new_bucket_get as (He & Heh & Hed).
  destruct (ring_pow _ _ _ _ Hm) as (k & Hn & Hk).
  pose proof (mo_len _ _ _ _ Hm) as Hl. pose proof (ring_size _ _ _ _ Hm) as H64.
  pose proof (mo_rh _ _ _ _ Hm) as Hrh. pose proof (free_bucket _ _ _ _ Hm) as Hfree.
  fold bs n in Hl, H64, Hn, Hrh, Hfree |- *. rewrite (home_mask ctx h m M Hm), <- Heh. rewrite (mo_mask _ _ _ _ Hm).
  fold n. rewrite <- Hl.
  destruct (ring_first_free bs (get_hash e mod zlen bs) ltac:(lia) Hfree) as (t & Ht & H1 & _).
  rewrite (insert_loop_place ctx h (zlen bs) k ltac:(congruence) Hk
    (<[e_key x := (p, x)]> M) (Z.to_nat t)); rewrite ?Z2Nat.id by lia; try lia; try easy.
  - destruct (resize_place_home bs k e fuel) as (bs' & H2 & H3 & H4 & H5); try easy.
    + congruence.
    + apply spread_hashes.
    + unfold bs at 1. rewrite (length_items _ _ _ _ Hm), Hl.
      pose proof (growat_lt _ _ _ _ Hm) as Hg. pose proof (mo_count _ _ _ _ Hm).
      pose proof (mo_load _ _ _ _ Hm). fold n in Hg. lia.
    + exists bs'. rewrite H2. cbn [mbind option_bind]. rewrite <- He. easy.
  - now apply fits_home.
  - intros t' _. now apply (dib_le_254 ctx h m M).
  - unfold zlen in *. lia.
  - now apply entries_insert; try apply Hm.
  - rewrite He, Heh, content_items_insert by easy. apply Permutation_cons; [easy|]. apply Hm.
Qed.

(** While the distance of the probe is at most that of the buckets it meets
    and the entries differ, the loop only moves on. *)
Lemma insert_loop_skip k t : ∀ fuel i d b,
  n = 2 ^ k → 0 <= k → 0 <= i < n → get_dib b = d → 1 <= d → d + Z.of_nat t <= 255 →
  (∀ t', 0 <= t' < Z.of_nat t → d + t' <= dib_at bs (i + t') ∧
     same_entry h b (slot bs (i + t')) = Some false) →
  insert_loop (t + fuel) h (n - 1) bs i b =
  insert_loop fuel h (n - 1) bs ((i + Z.of_nat t) mod n) (set_dib b (d + Z.of_nat t)).
Proof.
  induction t as [|t IH]; intros fuel i d b Hn Hk Hi Hd Hd1 Hmax Hskip.
  { change (Z.of_nat 0) with 0. rewrite !Z.add_0_r, Z.mod_small by lia. f_equal.
    rewrite <- Hd. destruct b as [be bh bd]. unfold set_dib. cbn in *. f_equal.
    symmetry. apply u8_id. unfold is_u8. lia. }
  pose proof (mo_len _ _ _ _ Hm) as Hl. fold bs n in Hl.
  destruct (Hskip 0 ltac:(lia)) as [Hle Hs]. rewrite (Z.add_0_r i) in Hle, Hs.
  cbn [Nat.add insert_loop]. rewrite bget_slot by (rewrite Hl; lia).
  cbn [mbind option_bind]. fold (dib_at bs i).
  rewrite (proj2 (Z.eqb_neq (dib_at bs i) 0)), Hs by lia. cbn [mbind option_bind].
  rewrite (proj2 (Z.ltb_ge (dib_at bs i) (get_dib b))) by lia. rewrite (land_ring _ k n) by easy. rewrite Hd.
  rewrite (IH fuel _ (d + 1)); try lia.
  - f_equal; [rewrite Zplus_mod_idemp_l; f_equal; lia|].
    unfold set_dib. cbn. f_equal. f_equal. lia.
  - apply Z.mod_pos_bound. lia.
  - cbn. apply u8_id. unfold is_u8. lia.
  - intros t' Ht'. destruct (Hskip (1 + t') ltac:(lia)) as [Hle' Hs'].
    assert (slot bs ((i + 1) mod n + t') = slot bs (i + (1 + t'))) as E.
    { apply slot_eq. rewrite Hl, Zplus_mod_idemp_l. f_equal. lia. }
    unfold dib_at in *. rewrite E. split; [lia|exact Hs'].
Qed.

Lemma slot_same_entry j k' q y b :
  M !! k' = Some (q, y) → get_entry (slot bs j) = q → get_hash (slot bs j) = hash24 ctx k' →
  get_entry b = p → get_hash b = hash24 ctx (e_key x) →
  same_entry h b (slot bs j) = Some (bool_decide (e_key x = k')).
Proof.
  intros Hk Hq Hhj Hbp Hbh.
  destruct (mo_entries _ _ _ _ Hm _ _ _ Hk) as (Hkey & Hy & Hheap & _).
  rewrite <- Hkey. apply (same_entry_keys ctx); congruence.
Qed.

(** The loop stops at the first bucket that holds the key. *)
Lemma insert_replace_loop q y fuel :
  M !! e_key x = Some (q, y) → (length bs < fuel)%nat →
  ∃ i, insert_loop fuel h (m_mask m) bs (hash24 ctx (e_key x) .& m_mask m) e
         = Some (bset bs i (set_entry (slot bs i) p), Some q) ∧
    0 <= i < zlen bs ∧ dib_at bs i ≠ 0 ∧ get_entry (slot bs i) = q ∧
    get_hash (slot bs i) = hash24 ctx (e_key x).
Proof.
  intros HM Hf. destruct new_bucket_get as (He & Heh & Hed).
  destruct (ring_pow _ _ _ _ Hm) as (k & Hn & Hk).
  pose proof (mo_len _ _ _ _ Hm) as Hl.
  pose proof (home_range ctx h m M Hm (e_key x)) as Hhr.
  destruct (first_match ctx h m M Hm _ _ _ HM) as (t & Ht & Hskip & Hdib & Heq & Hq & Hqh).
  pose proof (dib_le_254 ctx h m M Hm (hash24 ctx (e_key x) + t)) as H254.
  pose proof (Hdib t ltac:(lia)) as Hdt.
  rewrite (home_mask ctx h m M Hm), (mo_mask _ _ _ _ Hm).
  fold bs n in Hl, Hn, Hhr, Ht, Hskip, Hdib, Heq, Hq, Hqh, H254, Hdt |- *.
  set (i := (hash24 ctx (e_key x) mod n + t) mod n). exists i.
  assert (Hi : 0 <= i < zlen bs) by (rewrite Hl; apply Z.mod_pos_bound; lia).
  assert (Hsi : slot bs i = slot bs (hash24 ctx (e_key x) + t)).
  { unfold i. rewrite <- Hl, slot_mod, Hl. apply (home_slot ctx h m M Hm). }
  unfold dib_at in Hdt, H254. rewrite <- Hsi in Hq, Hqh, Hdt, H254.
  fold (dib_at bs i) in Hdt, H254.
  split; [|split; [easy|split; [lia|now split] ] ].
  replace fuel with (Z.to_nat t + S (fuel - Z.to_nat t - 1))%nat by (unfold zlen in *; lia).
  rewrite (insert_loop_skip k (Z.to_nat t) _ _ 1); rewrite ?Z2Nat.id by lia; try easy; try lia.
  - fold i. cbn [insert_loop]. rewrite bget_slot by easy. cbn [mbind option_bind].
    fold (dib_at bs i). rewrite (proj2 (Z.eqb_neq (dib_at bs i) 0)) by lia.
    rewrite (slot_same_entry i (e_key x) q y) by easy.
    rewrite bool_decide_eq_true_2 by easy. cbn [mbind option_bind]. do 2 f_equal; [|congruence].
    f_equal. f_equal. exact He.
  - intros t' Ht'. destruct (Hskip t' Ht') as [Hd' Heq']. specialize (Hdib t' ltac:(lia)).
    unfold dib_at in *. rewrite (home_slot ctx h m M Hm). fold bs. split; [lia|].
    destruct (slot_entry ctx h m M Hm _ Hd') as (k2 & p2 & x2 & Ha & Hb & Hc).
    fold bs in Hb, Hc. rewrite (slot_same_entry _ k2 p2 x2) by easy.
    rewrite (slot_bucket_eq ctx h m M Hm _ k2 p2 x2) in Heq' by easy.
    injection Heq' as Heq'%bool_decide_eq_false_1. f_equal.
    apply bool_decide_eq_false_2. congruence.
Qed.

Lemma insert_replace q y fuel :
  M !! e_key x = Some (q, y) → (length bs < fuel)%nat →
  ∃ bs', insert_loop fuel h (m_mask m) bs (hash24 ctx (e_key x) .& m_mask m) e
           = Some (bs', Some q) ∧
    zlen bs' = n ∧ rh bs' ∧ items bs' ≡ₚ content_items ctx (<[e_key x := (p, x)]> M).
Proof.
  intros HM Hf. destruct (insert_replace_loop q y fuel HM Hf) as (i & Hloop & Hi & Hd & Hq & Hqh).
  pose proof (mo_rh _ _ _ _ Hm) as Hrh. fold bs in Hrh.
  exists (bset bs i (set_entry (slot bs i) p)). rewrite zlen_bset. split; [exact Hloop|].
  split; [exact (mo_len _ _ _ _ Hm)|]. split; [now apply rh_bset_entry|].
  destruct (items_bset bs i (set_entry (slot bs i) p) Hi) as (rest & H1 & H2).
  rewrite H2, item_used by exact Hd. rewrite item_used in H1 by exact Hd.
  cbn [opt_list app] in H1 |- *. unfold bs in H1 at 1.
  rewrite (mo_items _ _ _ _ Hm), (content_items_delete ctx M _ _ _ HM), Hq, Hqh in H1.
  apply Permutation_cons_inv in H1. rewrite get_set_entry by lia.
  change (get_hash (set_entry (slot bs i) p)) with (get_hash (slot bs i)). rewrite Hqh.
  rewrite <- insert_delete_eq, content_items_insert by apply lookup_delete_eq.
  now rewrite H1.
Qed.
End MapInsert.

(** ** Rebuilding the buckets *)

Lemma items_cons b bs : items (b :: bs) = opt_list (item b) ++ items bs.
Proof. unfold items. cbn. now destruct (item b). Qed.

Lemma items_zbuckets n : items (repeat zbucket n) = [].
Proof. induction n as [|n IH]; [easy|exact IH]. Qed.

Lemma rh_zbuckets n : (0 < n)%nat → rh (repeat zbucket n).
Proof.
  intros Hn. assert (∀ i, dib_at (repeat zbucket n) i = 0) as Hd.
  { intros i. unfold dib_at, slot. now rewrite nth_repeat. }
  split; [unfold zlen; rewrite repeat_length; lia|]. intros i. rewrite !Hd. easy.
Qed.

Lemma resize_loop_spec k old : ∀ bs,
  zlen bs = 2 ^ k → 0 <= k → rh bs → spread (zlen bs) (hashes bs ++ hashes old) →
  Z.of_nat (length (items bs) + length (items old)) < zlen bs →
  ∃ bs', resize_loop old (zlen bs - 1) bs = Some bs' ∧ zlen bs' = zlen bs ∧ rh bs' ∧
    items bs' ≡ₚ items old ++ items bs.
Proof.
  induction old as [|b old IH]; intros bs Hl Hk Hrh Hsp Hlen; cbn [resize_loop].
  { eexists. split; [easy|]. easy. }
  unfold hashes in Hsp. rewrite items_cons in Hsp, Hlen |- *.
  destruct (get_dib b =? 0) eqn:E; zb.
  { rewrite item_empty in Hsp, Hlen |- * by easy. now apply IH. }
  rewrite item_used in Hsp, Hlen |- * by easy. cbn [opt_list app fmap list_fmap length] in *.
  rewrite (land_ring _ k) by easy.
  destruct (resize_place_home bs k (set_dib b 1) (S (length bs)))
    as (bs1 & H1 & H2 & H3 & H4); try easy; try lia.
  { eapply spread_submseteq; [|exact Hsp]. now apply submseteq_inserts_r. }
  rewrite H1. cbn [mbind option_bind]. rewrite <- H2.
  destruct (IH bs1) as (bs2 & H5 & H6 & H7 & H8); try easy; try lia.
  - rewrite H2. eapply spread_perm; [|exact Hsp]. unfold hashes.
    rewrite H4. cbn. rewrite Permutation_middle. easy.
  - rewrite H4. cbn [length]. lia.
  - exists bs2. split; [easy|]. split; [easy|]. split; [easy|].
    rewrite H8, H4. cbn. symmetry. apply Permutation_middle.
Qed.

Section Resize.
Context `{Env}.

(** Growing or shrinking to a capacity that holds the content keeps the
    content; without memory nothing changes. *)
Lemma resize_spec ctx w m M cap :
  map_ok ctx (w_heap w) m M → cap_ok cap → m_cap m <= cap →
  Z.of_nat (size M) <= scale cap (loadfactor ctx) →
  ∃ r m', resize ctx w m cap = Some (r, m', World (w_heap w) (S (w_tick w)) (w_log w)) ∧
    map_ok ctx (w_heap w) m' M ∧
    (r = false → m' = m) ∧ (r = true → m_nbuckets m' = cap ∧ m_cap m' = m_cap m) ∧
    (env_malloc (w_tick w) (w_heap w) (sizeof_bucket * cap) ≠ None → r = true).
Proof.
  intros Hm Hcap Hge Hfit. unfold resize, map_init, do_malloc.
  destruct (env_stack (w_tick w)) as [total entsize]. cbn [fst snd].
  destruct (env_malloc _ _ _) as [q|]; cbn [negb]; [|now exists false, m].
  pose proof (cap_ok_range cap Hcap) as Hr.
  destruct (growat_facts ctx cap (mo_ctx _ _ _ _ Hm) Hcap) as (Hg & _).
  destruct Hcap as (k & Hk & ->).
  set (bs0 := repeat zbucket (Z.to_nat (2 ^ k))).
  assert (Hl0 : zlen bs0 = 2 ^ k) by (unfold zlen, bs0; rewrite repeat_length; lia).
  assert (Htake : take (Z.to_nat (m_nbuckets m)) (m_buckets m) = m_buckets m).
  { apply take_ge. pose proof (mo_len _ _ _ _ Hm) as Hl. unfold zlen in Hl. lia. }
  cbn [m_mask m_buckets m_nbuckets m_growat m_shrinkat m_total m_entsize].
  destruct (resize_loop_spec k (m_buckets m) bs0) as (bs' & H1 & H2 & H3 & H4); try easy.
  - lia.
  - apply rh_zbuckets. lia.
  - unfold hashes at 1. unfold bs0 at 2. rewrite items_zbuckets, Hl0. cbn [fmap list_fmap app].
    eapply spread_perm; [apply fmap_Permutation; symmetry; apply (mo_items _ _ _ _ Hm)|].
    rewrite content_hashes. apply (mo_safe _ _ _ _ Hm). now exists k.
  - unfold bs0 at 1. rewrite items_zbuckets, (length_items _ _ _ _ Hm), Hl0. cbn [length]. lia.
  - rewrite Htake, <- Hl0, H1. cbn [mbind option_bind]. rewrite Hl0 in *. eexists true, _.
    split; [reflexivity|]. split; [|split; [easy|split; [easy|easy] ] ].
    unfold bs0 in H4. rewrite items_zbuckets, app_nil_r in H4.
    pose proof (mo_items _ _ _ _ Hm) as Hitems.
    destruct Hm. split; cbn; try easy; try lia.
    + now exists k.
    + etransitivity; [exact H4|exact Hitems].
Qed.
End Resize.

(** ** [map_insert] *)

(** The same bucket count with other content. *)
Lemma map_ok_update ctx h h' m M M' bs cnt total entsize :
  map_ok ctx h m M → zlen bs = m_nbuckets m → rh bs → items bs ≡ₚ content_items ctx M' →
  cnt = Z.of_nat (size M') → cnt <= m_growat m → entries_ok ctx h' M' → probe_safe ctx M' →
  map_ok ctx h' (Map (m_cap m) (m_nbuckets m) cnt (m_mask m) (m_growat m) (m_shrinkat m)
    bs total entsize) M'.
Proof. intros [] ? ? ? ? ? ? ?. split; cbn; try assumption. Qed.

Lemma map_ok_entsize ctx h m M z : map_ok ctx h m M → map_ok ctx h (set_entsize m z) M.
Proof. intros []. now split. Qed.

Lemma cap_ok_double n : cap_ok n → n <= 2 ^ 29 → cap_ok (n * 2).
Proof.
  intros (k & Hk & ->) Hle. exists (k + 1). rewrite Z.pow_add_r by lia.
  split; [|lia]. assert (k <= 29) by (apply (Z.pow_le_mono_r_iff 2); lia). lia.
Qed.

Lemma growat_double ctx n :
  ctx_ok ctx → cap_ok n → cap_ok (n * 2) →
  scale n (loadfactor ctx) < scale (n * 2) (loadfactor ctx).
Proof.
  intros (lf & Hlf & -> & _) Hn Hn2. pose proof (cap_ok_range n Hn).
  unfold MINLOADFACTOR_RH, MAXLOADFACTOR_RH in *. rewrite !scale_exact by (lia || easy).
  assert (100 <= n * lf) by nia. replace (n * 2 * lf) with (n * lf * 2) by lia.
  generalize dependent (n * lf). intros. dm.
Qed.

Section MapInsertOp.
Context `{Env}.

(** The growth step at the head of [map_insert]. *)
Lemma grow_spec ctx w m M :
  map_ok ctx (w_heap w) m M → (m_growat m <= m_count m → m_nbuckets m <= 2 ^ 29) →
  ∃ r m' w', (if m_growat m <=? m_count m then resize ctx w m (m_nbuckets m * 2)
              else Some (true, m, w)) = Some (r, m', w') ∧
    w_heap w' = w_heap w ∧ w_log w' = w_log w ∧ map_ok ctx (w_heap w) m' M ∧
    (r = false → m' = m) ∧ (r = true → m_count m' < m_growat m') ∧
    (m_count m < m_growat m → r = true ∧ m' = m ∧ w' = w) ∧
    ((∀ t n, env_malloc t (w_heap w) n ≠ None) → r = true).
Proof.
  intros Hm Hbig. destruct (m_growat m <=? m_count m) eqn:E; zb.
  - pose proof (mo_nbuckets _ _ _ _ Hm) as Hn. pose proof (cap_ok_range _ Hn).
    pose proof (cap_ok_double _ Hn (Hbig E)) as Hn2.
    pose proof (growat_double ctx _ (mo_ctx _ _ _ _ Hm) Hn Hn2) as Hg.
    pose proof (mo_growat _ _ _ _ Hm). pose proof (mo_load _ _ _ _ Hm).
    pose proof (mo_count _ _ _ _ Hm). destruct (mo_cap _ _ _ _ Hm).
    destruct (resize_spec ctx w m M (m_nbuckets m * 2)) as (r & m' & A1 & A2 & A3 & A4 & A5);
      try easy; try lia.
    exists r, m', (World (w_heap w) (S (w_tick w)) (w_log w)).
    split; [exact A1|]. do 4 (split; [easy|]). split; [|split; [lia|intros Hne; apply A5, Hne] ].
    intros Hr. destruct (A4 Hr) as [Hnb _]. rewrite (mo_growat _ _ _ _ A2), Hnb.
    rewrite (mo_count _ _ _ _ A2). lia.
  - exists true, m, w. do 5 (split; [easy|]). split; [easy|]. easy.
Qed.

Lemma map_insert_spec ctx w m M p x hash :
  map_ok ctx (w_heap w) m M → (m_growat m <= m_count m → m_nbuckets m <= 2 ^ 29) →
  0 < p < 2 ^ 48 → ent_ok ctx x → w_heap w !! p = Some (encode ctx x) →
  probe_safe ctx (<[e_key x := (p, x)]> M) → clip_hash hash = hash24 ctx (e_key x) →
  ∃ r old m' w', map_insert ctx w m p hash = Some (r, old, m', w') ∧
    w_heap w' = w_heap w ∧ w_log w' = w_log w ∧
    (r = true → old = fst <$> M !! e_key x ∧
       map_ok ctx (w_heap w) m' (<[e_key x := (p, x)]> M) ∧
       (M !! e_key x ≠ None → m_count m' < m_growat m')) ∧
    (r = false → old = None ∧ m' = m) ∧
    (m_count m < m_growat m → r = true ∧ w' = w) ∧
    ((∀ t n, env_malloc t (w_heap w) n ≠ None) → r = true).
Proof.
  intros Hm Hbig Hp Hx Hheap Hsafe Hhash. unfold map_insert. rewrite Hhash.
  destruct (grow_spec ctx w m M Hm Hbig) as (r & m1 & w1 & H1 & H2 & H3 & Hm1 & H5 & H6 & H7 & H8).
  rewrite H1. mstep. destruct r; cbn [negb].
  2: { exists false, None, m1, w1. do 4 (split; [easy|]). split; [auto|].
       split; [|exact H8]. intros Hlt. now destruct (H7 Hlt). }
  rewrite H2, Hheap. mstep.
  specialize (H6 eq_refl). set (m2 := set_entsize m1 _).
  change (m_count m2 < m_growat m2) in H6.
  apply (map_ok_entsize _ _ _ _ (u64 (m_entsize m1 + entry_memsize ctx (encode ctx x)))) in Hm1.
  fold m2 in Hm1. clearbody m2. clear H1 H5 H8. pose proof (mo_count _ _ _ _ Hm1) as Hcnt.
  assert (Hent : entries_ok ctx (w_heap w) (<[e_key x := (p, x)]> M))
    by (apply entries_insert; try easy; apply Hm1).
  rewrite <- new_bucket_eq.
  destruct (M !! e_key x) as [[q y]|] eqn:HM.
  - destruct (insert_replace ctx (w_heap w) m2 M Hm1 p x Hp Hx Hheap q y
      (S (length (m_buckets m2))) HM ltac:(lia)) as (bs' & Hi & Hl & Hrh & Hit).
    rewrite Hi. mstep.
    destruct (mo_entries _ _ _ _ Hm1 _ _ _ HM) as (_ & _ & Hq & _). rewrite Hq.
    eexists true, _, _, w1. split; [reflexivity|]. do 2 (split; [easy|]).
    split; [|split; [easy|split; [now intros (_ & _ & ?)%H7|easy] ] ]. intros _. split; [easy|].
    split; [|intros _; exact H6].
    apply (map_ok_update ctx (w_heap w) _ m2 M); try easy; cbn; [|lia].
    now rewrite map_size_insert_Some by (rewrite HM; eauto).
  - destruct (insert_new ctx (w_heap w) m2 M Hm1 p x Hp Hx Hheap
      (S (length (m_buckets m2))) HM ltac:(lia)) as (bs' & Hi & Hl & Hrh & Hit).
    rewrite Hi. mstep.
    eexists true, _, _, w1. split; [reflexivity|]. do 2 (split; [easy|]).
    split; [|split; [easy|split; [now intros (_ & _ & ?)%H7|easy] ] ]. intros _. split; [easy|].
    split; [|congruence].
    apply (map_ok_update ctx (w_heap w) _ m2 M); try easy; cbn; [| |lia].
    + rewrite content_items_insert, Hit by easy. apply Permutation_cons; [easy|]. apply Hm1.
    + rewrite map_size_insert_None by easy. lia.
Qed.
End MapInsertOp.

(** ** Other memory with the same entries *)

Lemma map_ok_heap ctx h h' m M :
  map_ok ctx h m M → entries_ok ctx h' M → map_ok ctx h' m M.
Proof. intros [] Hent. now split. Qed.

(** Memory that holds no entry of the map may be freed. *)
Lemma entries_free ctx h M p :
  entries_ok ctx h M → (∀ k x, M !! k ≠ Some (p, x)) → entries_ok ctx (delete p h) M.
Proof.
  intros Hent Hp k q x Hk. destruct (Hent _ _ _ Hk) as (H1 & H2 & H3 & H4).
  split; [easy|]. split; [easy|]. split; [|easy].
  rewrite lookup_delete_ne; [easy|]. intros ->. now apply (Hp k x).
Qed.

(** The entry of a deleted key is no entry of the rest. *)
Lemma entries_delete_free ctx h M k p x :
  entries_ok ctx h M → M !! k = Some (p, x) → entries_ok ctx (delete p h) (delete k M).
Proof.
  intros Hent Hk. apply entries_free; [now apply entries_delete|].
  intros k' x' Hk'. apply lookup_delete_Some in Hk' as [Hne Hk'].
  now destruct (entries_inj _ _ _ _ _ _ _ _ Hent Hk Hk').
Qed.

(** ** Deletion *)

Section MapDelete.
Context (ctx : pgctx) (h : heap) (m : map_t) (M : content) (Hm : map_ok ctx h m M).

Lemma delbkt_map i k p x :
  M !! k = Some (p, x) → 0 <= i < m_nbuckets m → dib_at (m_buckets m) i ≠ 0 →
  get_entry (slot (m_buckets m) i) = p → get_hash (slot (m_buckets m) i) = hash24 ctx k →
  ∃ bs', delbkt m i = Some (set_count (set_buckets m bs') (m_count m - 1)) ∧
    map_ok ctx h (set_count (set_buckets m bs') (m_count m - 1)) (delete k M).
Proof.
  intros HM Hi Hd Hp Hh. destruct (ring_pow _ _ _ _ Hm) as (e & Hn & He).
  pose proof (mo_len _ _ _ _ Hm) as Hl. pose proof (ring_size _ _ _ _ Hm) as H64.
  unfold delbkt. rewrite bget_slot by lia. mstep.
  destruct (delbkt_spec (m_nbuckets m) e Hn He (m_buckets m) i (slot (m_buckets m) i)
    (S (length (bset (m_buckets m) i (set_dib (slot (m_buckets m) i) 0)))))
    as (bs' & H1 & H2 & H3 & H4); try easy; try lia.
  - apply Hm.
  - intros j. pose proof (dib_le_254 _ _ _ _ Hm j). lia.
  - apply bget_slot. lia.
  - apply (free_bucket _ _ _ _ Hm).
  - unfold bset, zlen in *. rewrite length_insert. lia.
  - rewrite (mo_mask _ _ _ _ Hm), H1. mstep. exists bs'. split; [reflexivity|].
    pose proof (mo_count _ _ _ _ Hm). pose proof (mo_load _ _ _ _ Hm).
    apply (map_ok_update ctx h h m M); try easy.
    + rewrite Hp, Hh, (mo_items _ _ _ _ Hm), (content_items_delete ctx M k p x HM) in H4.
      now apply Permutation_cons_inv in H4.
    + rewrite map_size_delete_Some by eauto.
      assert (size M ≠ 0%nat) by (intros ?%map_size_empty_inv; subst; now rewrite lookup_empty in HM).
      lia.
    + lia.
    + apply entries_delete, Hm.
    + apply probe_safe_delete, Hm.
Qed.

Lemma delentry_spec i k p x :
  M !! k = Some (p, x) → 0 <= i < m_nbuckets m → dib_at (m_buckets m) i ≠ 0 →
  get_entry (slot (m_buckets m) i) = p → get_hash (slot (m_buckets m) i) = hash24 ctx k →
  ∃ m', delentry_at_bkt ctx h m i = Some (p, m') ∧ map_ok ctx h m' (delete k M) ∧
    m_nbuckets m' = m_nbuckets m ∧ m_cap m' = m_cap m ∧ m_total m' = m_total m ∧
    m_entsize m' = u64 (m_entsize m - Z.of_nat (length (encode ctx x))).
Proof.
  intros HM Hi Hd Hp Hh. destruct (mo_entries _ _ _ _ Hm _ _ _ HM) as (_ & Hx & Hheap & Hr).
  pose proof (mo_len _ _ _ _ Hm) as Hl.
  unfold delentry_at_bkt. rewrite bget_slot by lia. mstep. rewrite Hp.
  rewrite (proj2 (Z.eqb_neq p 0)), Hheap by lia. mstep. rewrite encode_memsize by easy.
  destruct (delbkt_map i k p x) as (bs' & H1 & H2); try easy.
  set (sz := u64 _). eexists. split; [|split; [exact (map_ok_entsize _ _ _ _ sz H2)|easy] ].
  unfold delbkt in *. cbn [set_entsize m_buckets m_mask]. 
  destruct (bget (m_buckets m) i) as [b|]; [|easy]. rewrite some_bind in H1 |- *.
  destruct (delbkt_loop _ _ _ _) as [bs2|]; [|easy]. rewrite some_bind in H1 |- *.
  mstep. injection H1 as <-. reflexivity.
Qed.

Lemma map_delete_present k p x hash :
  clip_hash hash = hash24 ctx k → M !! k = Some (p, x) →
  ∃ m', map_delete ctx h m k hash = Some (Some p, m') ∧ map_ok ctx h m' (delete k M) ∧
    m_nbuckets m' = m_nbuckets m ∧ m_cap m' = m_cap m ∧ m_total m' = m_total m ∧
    m_entsize m' = u64 (m_entsize m - Z.of_nat (length (encode ctx x))).
Proof.
  intros Hhash HM. unfold map_delete. rewrite Hhash, (home_mask ctx h m M Hm).
  destruct (probe_found ctx h m M Hm k p x (S (length (m_buckets m))) HM ltac:(lia))
    as (i & H1 & Hi & Hd & Hp & Hh). rewrite H1. mstep.
  rewrite (proj2 (Z.eqb_neq i (-1))) by lia.
  destruct (delentry_spec i k p x) as (m' & H2 & Hrest); try easy.
  rewrite H2. mstep. now exists m'.
Qed.

Lemma map_delete_absent k hash :
  clip_hash hash = hash24 ctx k → M !! k = None → map_delete ctx h m k hash = Some (None, m).
Proof.
  intros Hhash HM. unfold map_delete. rewrite Hhash, (home_mask ctx h m M Hm).
  rewrite (probe_absent ctx h m M Hm k _ HM) by lia. mstep. reflexivity.
Qed.

(** [map_get_bucket] finds exactly the stored keys. *)
Lemma map_get_bucket_present k p x hash :
  clip_hash hash = hash24 ctx k → M !! k = Some (p, x) →
  ∃ i, map_get_bucket h m k hash = Some i ∧ 0 <= i < m_nbuckets m ∧
    dib_at (m_buckets m) i ≠ 0 ∧ get_entry (slot (m_buckets m) i) = p ∧
    get_hash (slot (m_buckets m) i) = hash24 ctx k.
Proof.
  intros Hhash HM. unfold map_get_bucket. rewrite Hhash, (home_mask ctx h m M Hm).
  apply (probe_found ctx h m M Hm k p x); [easy|lia].
Qed.

Lemma map_get_bucket_absent k hash :
  clip_hash hash = hash24 ctx k → M !! k = None → map_get_bucket h m k hash = Some (-1).
Proof.
  intros Hhash HM. unfold map_get_bucket. rewrite Hhash, (home_mask ctx h m M Hm).
  apply (probe_absent ctx h m M Hm); [easy|lia].
Qed.
End MapDelete.

(** ** Shrinking *)

(** The search for the smallest sufficient capacity ends at or before [n]. *)
Lemma shrink_cap_spec ctx count n d : ∀ fuel cap,
  ctx_ok ctx → cap_ok cap → n = cap * 2 ^ Z.of_nat d → cap_ok n →
  count < scale n (loadfactor ctx) → (d < fuel)%nat →
  ∃ c, shrink_cap fuel ctx count cap = Some c ∧ cap_ok c ∧ cap <= c <= n ∧
    count < scale c (loadfactor ctx).
Proof.
  induction d as [|d IH]; intros [|fuel] cap Hctx Hcap Hn Hnok Hcnt Hf; try lia;
    cbn [shrink_cap]; pose proof (cap_ok_range _ Hcap).
  - change (2 ^ Z.of_nat 0) with 1 in Hn. assert (n = cap) as -> by lia.
    rewrite (proj2 (Z.leb_gt _ _)) by lia. exists cap. split; [easy|]. split; [easy|]. lia.
  - rewrite Nat2Z.inj_succ, Z.pow_succ_r in Hn by lia.
    assert (cap <= n) by (pose proof (Z.pow_pos_nonneg 2 (Z.of_nat d)); nia).
    destruct (scale cap (loadfactor ctx) <=? count) eqn:E; zb.
    + assert (Hcap2 : cap_ok (cap * 2)).
      { apply cap_ok_double; [easy|]. pose proof (cap_ok_range _ Hnok).
        pose proof (Z.pow_pos_nonneg 2 (Z.of_nat d)). nia. }
      destruct (IH fuel (cap * 2)) as (c & H1 & H2 & H3 & H4); try easy; try lia.
      exists c. split; [easy|]. split; [easy|]. lia.
    + exists cap. split; [easy|]. split; [easy|]. lia.
Qed.

Lemma cap_ok_ratio a b : cap_ok a → cap_ok b → a <= b → ∃ d, (d <= 24)%nat ∧ b = a * 2 ^ Z.of_nat d.
Proof.
  intros (k & Hk & ->) (j & Hj & ->) Hle.
  assert (k <= j) by (apply (Z.pow_le_mono_r_iff 2); lia).
  exists (Z.to_nat (j - k)). split; [lia|]. rewrite Z2Nat.id, <- Z.pow_add_r by lia. f_equal. lia.
Qed.

Lemma cap_ok_half n a : cap_ok n → cap_ok a → a < n → cap_ok (n / 2) ∧ a <= n / 2.
Proof.
  intros Hn Ha Hlt. destruct (cap_ok_ratio a n Ha Hn ltac:(lia)) as (d & _ & Hd).
  destruct d as [|d]; [change (2 ^ Z.of_nat 0) with 1 in Hd; lia|].
  rewrite Nat2Z.inj_succ, Z.pow_succ_r in Hd by lia.
  destruct Hn as (k & Hk & ->), Ha as (j & Hj & ->).
  assert (j < k) by (apply (Z.pow_lt_mono_r_iff 2); lia).
  replace (2 ^ k) with (2 ^ (k - 1) * 2) by (rewrite Z.mul_comm, <- Z.pow_succ_r by lia; f_equal; lia).
  rewrite Z.div_mul by lia. split; [exists (k - 1); lia|]. apply Z.pow_le_mono_r; lia.
Qed.

Lemma tryshrink_spec `{Env} ctx w m M multi :
  map_ok ctx (w_heap w) m M →
  ∃ m' w', tryshrink ctx w m multi = Some (m', w') ∧ w_heap w' = w_heap w ∧
    w_log w' = w_log w ∧ map_ok ctx (w_heap w) m' M ∧ m_cap m' = m_cap m ∧
    m_nbuckets m' <= m_nbuckets m.
Proof.
  intros Hm. unfold tryshrink. destruct (needsshrink ctx m) eqn:E; cbn [negb].
  2: { exists m, w. do 4 (split; [easy|]). split; [easy|]. lia. }
  unfold needsshrink in E. zb. destruct (mo_cap _ _ _ _ Hm) as [Hcap Hle].
  pose proof (mo_nbuckets _ _ _ _ Hm) as Hn. pose proof (mo_ctx _ _ _ _ Hm) as Hctx.
  pose proof (cap_ok_range _ Hn). destruct (cap_ok_half _ _ Hn Hcap) as [Hhalf Hhle]; [lia|].
  destruct (growat_facts ctx _ Hctx Hn) as (_ & Hs & _).
  destruct (growat_facts ctx _ Hctx Hhalf) as (_ & _ & Hg).
  pose proof (mo_shrinkat _ _ _ _ Hm). pose proof (mo_count _ _ _ _ Hm).
  pose proof (cap_ok_range _ Hhalf).
  assert (Hcnt : m_count m < scale (m_nbuckets m / 2) (loadfactor ctx)).
  { eapply Z.le_lt_trans; [|apply Hg; dm]. destruct Hn as (k & Hk & Hn).
    replace k with (Z.succ (k - 1)) in Hn by lia. rewrite Z.pow_succ_r in Hn by lia.
    replace (2 * (m_nbuckets m / 2)) with (m_nbuckets m) by dm. lia. }
  assert (∃ c, (if multi then shrink_cap 32 ctx (m_count m) (m_cap m)
           else Some (m_nbuckets m / 2)) = Some c ∧ cap_ok c ∧ m_cap m <= c <= m_nbuckets m ∧
           m_count m < scale c (loadfactor ctx)) as (c & B1 & B2 & B3 & B4).
  { destruct multi; [|exists (m_nbuckets m / 2); split; [reflexivity|]; split; [easy|]; split; [dm|easy] ].
    destruct (cap_ok_ratio _ _ Hcap Hhalf Hhle) as (d & Hd & Heq).
    destruct (shrink_cap_spec ctx (m_count m) _ d 32 (m_cap m) Hctx Hcap Heq Hhalf Hcnt)
      as (c & A1 & A2 & A3 & A4); [lia|]. exists c.
    split; [exact A1|]. split; [exact A2|]. split; [dm|exact A4]. }
  rewrite B1. mstep.
  destruct (resize_spec ctx w m M c Hm B2) as (r & m' & A1 & A2 & A3 & A4 & _); try lia.
  rewrite A1. mstep. eexists m', _. split; [reflexivity|]. do 3 (split; [easy|]).
  destruct r; [destruct (A4 eq_refl)|rewrite A3 by easy]; lia.
Qed.
