(* ===== verification/Shard.v ===== *)
(** * Shard: the operations on one shard

    [struct shard] of [src/src/pogocache.c] without its lock, which is in
    [Cache.v], and the operations that run while the lock is held: [loadop],
    [storeop], [deleteop], [iterop], [sweepop], [clearop], [sweeppollop],
    [countop], [totalop], [sizeop] and the eviction of an entry. State is passed
    explicitly: the shard, the memory ([world]) and the state [U] of the user's
    callbacks. [None] is undefined behaviour or a failed assertion. The clock
    that [getnow] reads is an argument. *)

From S2P Require Import Prelude Util Context Entry Heap Map.

Record shard_t := Shard {
  s_cas : Z; s_cleartime : Z; s_clearcount : Z; s_map : map_t
}.

Definition set_map (sh : shard_t) (m : map_t) : shard_t :=
  Shard (s_cas sh) (s_cleartime sh) (s_clearcount sh) m.
Definition set_clearcount (sh : shard_t) (n : Z) : shard_t :=
  Shard (s_cas sh) (s_cleartime sh) n (s_map sh).

(** [shard->clearcount -= (reason==POGOCACHE_REASON_CLEARED)]. *)
Definition uncount (sh : shard_t) (reason : Z) : shard_t :=
  set_clearcount sh
    (s_clearcount sh - (if reason =? POGOCACHE_REASON_CLEARED then 1 else 0)).

(** [shard->cas++]. *)
Definition next_cas (sh : shard_t) : shard_t :=
  Shard (u64 (s_cas sh + 1)) (s_cleartime sh) (s_clearcount sh) (s_map sh).

(** [opts->time > 0 ? opts->time : getnow()]. *)
Definition opt_now (time clock : Z) : Z := if 0 <? time then time else clock.

(** What the callbacks are told about the entry [e] stored under [key]. *)
Definition view_of (ctx : pgctx) (shardidx now : Z) (key e : bytes) : view :=
  let x := entry_extract ctx e in
  View shardidx now key (x_val x) (x_expires x) (x_flags x) (x_cas x).

(** [if (ctx->evicted) ctx->evicted(...)]. *)
Definition notify (ctx : pgctx) (w : world) (shardidx reason now : Z) (key e : bytes)
    : world :=
  if evicted ctx then log_event w (Event reason (view_of ctx shardidx now key e)) else w.

(** ** Initialisation *)

(** [shard_init]: the shard and whether it could be initialised. *)
Definition shard_init `{Env} (ctx : pgctx) (w : world) : bool * shard_t * world :=
  let '(ok, m, w) := map_init ctx w 0 0 INITCAP in
  (ok, Shard 1 0 0 m, w).

(** The loop of [shard_deinit] that frees the entries. *)
Fixpoint deinit_loop (bs : list bucket) (w : world) : option world :=
  match bs with
  | [] => Some w
  | bkt :: bs =>
      if get_dib bkt =? 0 then deinit_loop bs w
      else w ← entry_free w (get_entry bkt); deinit_loop bs w
  end.

(** [shard_deinit]; the buckets themselves are no entries of the heap. *)
Definition shard_deinit (w : world) (sh : shard_t) : option world :=
  match m_buckets (s_map sh) with
  | [] => Some w
  | _ => deinit_loop (take (Z.to_nat (m_nbuckets (s_map sh))) (m_buckets (s_map sh))) w
  end.

(** ** Eviction *)

Definition evict_entry (ctx : pgctx) (w : world) (sh : shard_t) (shardidx entry now reason : Z)
    : option (Z * shard_t * world) :=
  e ← w_heap w !! entry;
  let key := entry_key e in
  let hash := u32 (th64 key (seed ctx)) in
  '(del, m) ← map_delete ctx (w_heap w) (s_map sh) key hash;
  if negb (bool_decide (del = Some entry)) then None
  else
    let w := notify ctx w shardidx reason now key e in
    let sh := uncount (set_map sh m) reason in
    let size := entry_memsize ctx e in
    w ← entry_free w entry;
    Some (size, sh, w).

(** The loop of [auto_evict_entry]: the candidates, or a dead entry and the
    reason. *)
Fixpoint auto_evict_loop (fuel : nat) (h : heap) (m : map_t) (cleartime hash now i : Z)
    (entries : list Z) : option (list Z + Z * Z) :=
  match fuel with
  | O => None
  | S fuel =>
      if (i <? m_nbuckets m) && (length entries <? 2)%nat then
        let j := (i + hash) .& (m_nbuckets m - 1) in
        bkt ← bget (m_buckets m) j;
        if get_dib bkt =? 0 then auto_evict_loop fuel h m cleartime hash now (i + 1) entries
        else
          let entry := get_entry bkt in
          e ← h !! entry;
          let reason := entry_alive e now cleartime in
          if negb (reason =? 0) then Some (inr (entry, reason))
          else if get_hash bkt =? hash then
            auto_evict_loop fuel h m cleartime hash now (i + 1) entries
          else
            auto_evict_loop fuel h m cleartime hash now (i + 1) (entries ++ [entry])
      else Some (inl entries)
  end.

Definition auto_evict_entry (ctx : pgctx) (w : world) (sh : shard_t) (shardidx hash now : Z)
    : option (shard_t * world) :=
  let hash := clip_hash hash in
  let map := s_map sh in
  r ← auto_evict_loop (S (length (m_buckets map))) (w_heap w) map (s_cleartime sh) hash now 1 [];
  match r with
  | inr (entry, reason) =>
      '(_, sh, w) ← evict_entry ctx w sh shardidx entry now reason; Some (sh, w)
  | inl [e0] =>
      '(_, sh, w) ← evict_entry ctx w sh shardidx e0 now POGOCACHE_REASON_LOWMEM;
      Some (sh, w)
  | inl [e0; e1] =>
      b0 ← w_heap w !! e0;
      b1 ← w_heap w !! e1;
      let choose := if entry_time b0 <? entry_time b1 then e0 else e1 in
      '(_, sh, w) ← evict_entry ctx w sh shardidx choose now POGOCACHE_REASON_LOWMEM;
      Some (sh, w)
  | inl _ => Some (sh, w)
  end.

(** ** Options *)

(** [struct pogocache_update]. *)
Record update := Update { u_value : bytes; u_flags : Z; u_expires : Z }.

(** [struct pogocache_load_opts], [_store_opts], [_delete_opts] and
    [_iter_opts]; the callbacks act on a user state. *)
Record load_opts (U : Type) := LoadOpts {
  lo_time : Z; lo_notouch : bool; lo_entry : option (view → U → option update * U)
}.
Record store_opts (U : Type) := StoreOpts {
  so_time : Z; so_expires : Z; so_ttl : Z; so_cas : Z; so_flags : Z; so_keepttl : bool;
  so_casop : bool; so_nx : bool; so_xx : bool; so_lowmem : bool;
  so_entry : option (view → U → bool * U)
}.
Record delete_opts (U : Type) := DeleteOpts {
  do_time : Z; do_entry : option (view → U → bool * U)
}.
Record iter_opts (U : Type) := IterOpts {
  io_time : Z; io_oneshard : bool; io_oneshardidx : Z;
  io_entry : option (view → U → Z * U)
}.
Arguments LoadOpts {U}. Arguments lo_time {U}. Arguments lo_notouch {U}.
Arguments lo_entry {U}.
Arguments StoreOpts {U}. Arguments so_time {U}. Arguments so_expires {U}.
Arguments so_ttl {U}. Arguments so_cas {U}. Arguments so_flags {U}.
Arguments so_keepttl {U}. Arguments so_casop {U}. Arguments so_nx {U}.
Arguments so_xx {U}. Arguments so_lowmem {U}. Arguments so_entry {U}.
Arguments DeleteOpts {U}. Arguments do_time {U}. Arguments do_entry {U}.
Arguments IterOpts {U}. Arguments io_time {U}. Arguments io_oneshard {U}.
Arguments io_oneshardidx {U}. Arguments io_entry {U}.

(** ** Operations on a key *)

Section Ops.
Context `{Env} {U : Type}.

Definition loadop (ctx : pgctx) (clock : Z) (key : bytes) (opts : load_opts U)
    (shardidx hash : Z) (sh : shard_t) (w : world) (u : U)
    : option (Z * shard_t * world * U) :=
  let now := opt_now (lo_time opts) clock in
  bidx ← map_get_bucket (w_heap w) (s_map sh) key hash;
  if bidx =? -1 then Some (POGOCACHE_NOTFOUND, sh, w, u)
  else
    bkt ← bget (m_buckets (s_map sh)) bidx;
    let entry := get_entry bkt in
    e ← w_heap w !! entry;
    let reason := entry_alive e now (s_cleartime sh) in
    if negb (reason =? 0) then
      let w := notify ctx w shardidx reason now key e in
      let sh := uncount sh reason in
      w ← entry_free w entry;
      m ← delbkt (s_map sh) bidx;
      Some (POGOCACHE_NOTFOUND, set_map sh m, w, u)
    else
      w ← (if lo_notouch opts then Some w else entry_settime_at w entry now);
      match lo_entry opts with
      | None => Some (POGOCACHE_FOUND, sh, w, u)
      | Some cb =>
          match cb (view_of ctx shardidx now key e) u with
          | (None, u) => Some (POGOCACHE_FOUND, sh, w, u)
          | (Some upd, u) =>
              let sh := next_cas sh in
              let '(entry2, w) := entry_new ctx w key (u_value upd) (u_expires upd)
                                    (u_flags upd) (s_cas sh) in
              if entry2 =? 0 then Some (POGOCACHE_NOMEM, sh, w, u)
              else
                w ← entry_settime_at w entry2 now;
                let bs := bset (m_buckets (s_map sh)) bidx (set_entry bkt entry2) in
                w ← entry_free w entry;
                Some (POGOCACHE_FOUND, set_map sh (set_buckets (s_map sh) bs), w, u)
          end
      end.

Definition deleteop (ctx : pgctx) (clock : Z) (key : bytes) (opts : delete_opts U)
    (shardidx hash : Z) (sh : shard_t) (w : world) (u : U)
    : option (Z * shard_t * world * U) :=
  let now := opt_now (do_time opts) clock in
  '(del, m) ← map_delete ctx (w_heap w) (s_map sh) key hash;
  let sh := set_map sh m in
  match del with
  | None => Some (POGOCACHE_NOTFOUND, sh, w, u)
  | Some entry =>
      e ← w_heap w !! entry;
      let reason := entry_alive e now (s_cleartime sh) in
      if negb (reason =? 0) then
        let w := notify ctx w shardidx reason now key e in
        let sh := uncount sh reason in
        '(m, w) ← tryshrink ctx w (s_map sh) false;
        w ← entry_free w entry;
        Some (POGOCACHE_NOTFOUND, set_map sh m, w, u)
      else
        let '(go, u) :=
          match do_entry opts with
          | None => (true, u)
          | Some cb => cb (view_of ctx shardidx now key e) u
          end in
        if (go : bool) then
          '(m, w) ← tryshrink ctx w (s_map sh) false;
          w ← entry_free w entry;
          Some (POGOCACHE_DELETED, set_map sh m, w, u)
        else
          (* put it back *)
          '(ok, old, m, w) ← map_insert ctx w (s_map sh) entry hash;
          if negb ok then None
          else
            match old with
            | Some _ => None
            | None => Some (POGOCACHE_CANCELED, set_map sh m, w, u)
            end
  end.

(** The expiration that [storeop] gives the new entry. *)
Definition store_expires (key : bytes) (opts : store_opts U) (now hash : Z) (sh : shard_t)
    (w : world) : option Z :=
  let expires :=
    if 0 <? so_expires opts then so_expires opts
    else if 0 <? so_ttl opts then int64_add_clamp now (so_ttl opts) else 0 in
  if so_keepttl opts then
    old ← map_get_entry (w_heap w) (s_map sh) key hash;
    match old with
    | None => Some expires
    | Some o =>
        e ← w_heap w !! o;
        if entry_alive e now (s_cleartime sh) =? 0 then Some (entry_expires e)
        else Some expires
    end
  else Some expires.

(** [put_back]: the old entry replaces the new one again. *)
Definition store_put_back (ctx : pgctx) (sh : shard_t) (w : world) (u : U)
    (entry old hash status : Z) : option (Z * shard_t * world * U) :=
  '(ok, e, m, w) ← map_insert ctx w (s_map sh) old hash;
  if negb (ok && bool_decide (e = Some entry)) then None
  else
    w ← entry_free w entry;
    Some (status, set_map sh m, w, u).

(** The [nomem] label. *)
Definition store_nomem (sh : shard_t) (w : world) (u : U) (entry : Z)
    : option (Z * shard_t * world * U) :=
  w ← entry_free w entry;
  Some (POGOCACHE_NOMEM, sh, w, u).

(** The old entry that [map_insert] returned, if it is still alive; a dead
    one is reported and freed. *)
Definition store_old (ctx : pgctx) (key : bytes) (shardidx now : Z) (sh : shard_t)
    (w : world) (old : option Z) : option (option (Z * bytes) * shard_t * world) :=
  match old with
  | None => Some (None, sh, w)
  | Some o =>
      e ← w_heap w !! o;
      let reason := entry_alive e now (s_cleartime sh) in
      if negb (reason =? 0) then
        let w := notify ctx w shardidx reason now key e in
        let sh := uncount sh reason in
        w ← entry_free w o;
        Some (None, sh, w)
      else Some (Some (o, e), sh, w)
  end.

(** Whether the old entry [e] must be put back: the status, or zero. *)
Definition put_back_status (ctx : pgctx) (opts : store_opts U) (e : bytes) : Z :=
  if so_casop opts then
    if usecas ctx then
      if negb (so_cas opts =? entry_cas e) then POGOCACHE_FOUND else 0
    else POGOCACHE_FOUND
  else if so_nx opts then POGOCACHE_FOUND else 0.

(** The rest of [storeop] when there is no live old entry; [count] is the
    number of entries before the operation. *)
Definition store_absent (ctx : pgctx) (key : bytes) (opts : store_opts U)
    (shardidx hash now count entry : Z) (sh : shard_t) (w : world) (u : U)
    : option (Z * shard_t * world * U) :=
  if so_xx opts || so_casop opts then
    '(e, m) ← map_delete ctx (w_heap w) (s_map sh) key hash;
    if negb (bool_decide (e = Some entry)) then None
    else
      w ← entry_free w entry;
      Some (POGOCACHE_NOTFOUND, set_map sh m, w, u)
  else if so_lowmem opts && (count <? m_count (s_map sh)) then
    '(sh, w) ← auto_evict_entry ctx w sh shardidx hash now;
    Some (POGOCACHE_INSERTED, sh, w, u)
  else Some (POGOCACHE_INSERTED, sh, w, u).

(** The rest of [storeop] when the old entry [o], with bytes [e], is alive. *)
Definition store_present (ctx : pgctx) (key : bytes) (opts : store_opts U)
    (shardidx hash now entry o : Z) (e : bytes) (sh : shard_t) (w : world) (u : U)
    : option (Z * shard_t * world * U) :=
  let status := put_back_status ctx opts e in
  if negb (status =? 0) then store_put_back ctx sh w u entry o hash status
  else
    let '(go, u) :=
      match so_entry opts with
      | None => (true, u)
      | Some cb => cb (view_of ctx shardidx now key e) u
      end in
    if negb go then store_put_back ctx sh w u entry o hash POGOCACHE_CANCELED
    else
      w ← entry_free w o;
      Some (POGOCACHE_REPLACED, sh, w, u).

Definition storeop (ctx : pgctx) (clock : Z) (key val : bytes) (opts : store_opts U)
    (shardidx hash : Z) (sh : shard_t) (w : world) (u : U)
    : option (Z * shard_t * world * U) :=
  let count := m_count (s_map sh) in
  let now := opt_now (so_time opts) clock in
  expires ← store_expires key opts now hash sh w;
  let sh := next_cas sh in
  let '(entry, w) := entry_new ctx w key val expires (so_flags opts) (s_cas sh) in
  if entry =? 0 then store_nomem sh w u entry
  else
    w ← entry_settime_at w entry now;
    if so_lowmem opts && noevict ctx then store_nomem sh w u entry
    else
      '(ok, old, m, w) ← map_insert ctx w (s_map sh) entry hash;
      let sh := set_map sh m in
      if negb ok then store_nomem sh w u entry
      else
        '(old, sh, w) ← store_old ctx key shardidx now sh w old;
        match old with
        | Some (o, e) => store_present ctx key opts shardidx hash now entry o e sh w u
        | None => store_absent ctx key opts shardidx hash now count entry sh w u
        end.

(** ** Scans *)

(** The loop of [iterop] from bucket [i] on, with [EVICTONITER] undefined as
    in the source. *)
Fixpoint iter_loop (fuel : nat) (ctx : pgctx) (shardidx now : Z) (opts : iter_opts U)
    (i : Z) (sh : shard_t) (w : world) (u : U) : option (Z * shard_t * world * U) :=
  match fuel with
  | O => None
  | S fuel =>
      if i <? m_nbuckets (s_map sh) then
        bkt ← bget (m_buckets (s_map sh)) i;
        if get_dib bkt =? 0 then iter_loop fuel ctx shardidx now opts (i + 1) sh w u
        else
          let entry := get_entry bkt in
          e ← w_heap w !! entry;
          let reason := entry_alive e now (s_cleartime sh) in
          if negb (reason =? 0) then iter_loop fuel ctx shardidx now opts (i + 1) sh w u
          else
            let '(action, u) :=
              match io_entry opts with
              | None => (POGOCACHE_ITER_CONTINUE, u)
              | Some cb => cb (view_of ctx shardidx now (x_key (entry_extract ctx e)) e) u
              end in
            if action =? POGOCACHE_ITER_CONTINUE then
              iter_loop fuel ctx shardidx now opts (i + 1) sh w u
            else
              '(i, sh, w) ←
                (if negb (action .& POGOCACHE_ITER_DELETE =? 0) then
                   m ← delbkt (s_map sh) i;
                   w ← entry_free w entry;
                   Some (i - 1, set_map sh m, w)
                 else Some (i, sh, w));
              if negb (action .& POGOCACHE_ITER_STOP =? 0) then
                Some (POGOCACHE_CANCELED, sh, w, u)
              else iter_loop fuel ctx shardidx now opts (i + 1) sh w u
      else Some (POGOCACHE_FINISHED, sh, w, u)
  end.

(** Each turn advances or deletes, so twice the buckets is enough. *)
Definition scan_fuel (sh : shard_t) : nat := S (2 * length (m_buckets (s_map sh))).

Definition iterop (ctx : pgctx) (shardidx now : Z) (opts : iter_opts U) (sh : shard_t)
    (w : world) (u : U) : option (Z * shard_t * world * U) :=
  '(status, sh, w, u) ← iter_loop (scan_fuel sh) ctx shardidx now opts 0 sh w u;
  '(m, w) ← tryshrink ctx w (s_map sh) true;
  Some (status, set_map sh m, w, u).
End Ops.

Definition countop (sh : shard_t) : Z := u64 (m_count (s_map sh) - s_clearcount sh).

Definition totalop (sh : shard_t) : Z := m_total (s_map sh).

(** [sizeof(struct shard)] on a 64-bit target. *)
Definition sizeof_shard : Z := 88.

Definition sizeop (sh : shard_t) (entriesonly : bool) : Z :=
  let size := 0 in
  let size :=
    if negb entriesonly then
      let size := size + sizeof_shard in
      size + sizeof_bucket * m_nbuckets (s_map sh)
    else size in
  u64 (size + m_entsize (s_map sh)).

(** The loop of [sweepop]. *)
Fixpoint sweep_loop (fuel : nat) (ctx : pgctx) (shardidx now : Z) (i : Z) (swept kept : Z)
    (sh : shard_t) (w : world) : option (Z * Z * shard_t * world) :=
  match fuel with
  | O => None
  | S fuel =>
      if i <? m_nbuckets (s_map sh) then
        bkt ← bget (m_buckets (s_map sh)) i;
        if get_dib bkt =? 0 then sweep_loop fuel ctx shardidx now (i + 1) swept kept sh w
        else
          let entry := get_entry bkt in
          e ← w_heap w !! entry;
          let expires := entry_expires e in
          let etime := entry_time e in
          let reason := entry_alive_exp expires etime now (s_cleartime sh) in
          if reason =? 0 then
            sweep_loop fuel ctx shardidx now (i + 1) swept (u64 (kept + 1)) sh w
          else
            let w := notify ctx w shardidx reason now (x_key (entry_extract ctx e)) e in
            let sh := uncount sh reason in
            m ← delbkt (s_map sh) i;
            w ← entry_free w entry;
            let swept := u64 (swept + 1) in
            let i := i - 1 in
            sweep_loop fuel ctx shardidx now (i + 1) swept kept (set_map sh m) w
      else Some (swept, kept, sh, w)
  end.

Definition sweepop `{Env} (ctx : pgctx) (shardidx now swept kept : Z) (sh : shard_t) (w : world)
    : option (Z * Z * shard_t * world) :=
  '(swept, kept, sh, w) ← sweep_loop (scan_fuel sh) ctx shardidx now 0 swept kept sh w;
  '(m, w) ← tryshrink ctx w (s_map sh) true;
  Some (swept, kept, set_map sh m, w).

Definition clearop (now : Z) (sh : shard_t) : shard_t :=
  let sh := Shard (s_cas sh) now (s_clearcount sh) (s_map sh) in
  set_clearcount sh (s_clearcount sh + (m_count (s_map sh) - s_clearcount sh)).

(** The loop of [sweeppollop]: entries polled and dead ones among them. *)
Fixpoint sweeppoll_loop (fuel : nat) (h : heap) (m : map_t) (cleartime now pollsize bidx i : Z)
    (count dead : Z) : option (Z * Z) :=
  match fuel with
  | O => None
  | S fuel =>
      if (i <? m_nbuckets m) && (count <? pollsize) then
        bkt ← bget (m_buckets m) ((bidx + i) mod m_nbuckets m);
        if get_dib bkt =? 0 then
          sweeppoll_loop fuel h m cleartime now pollsize bidx (i + 1) count dead
        else
          e ← h !! get_entry bkt;
          let count := count + 1 in
          let dead := dead + (if negb (entry_alive e now cleartime =? 0) then 1 else 0) in
          sweeppoll_loop fuel h m cleartime now pollsize bidx (i + 1) count dead
      else Some (count, dead)
  end.

(** [sweeppollop]: the value stored through [percent]. *)
Definition sweeppollop (h : heap) (sh : shard_t) (shardidx now pollsize : Z) : option double :=
  let m := s_map sh in
  let bidx := mix13 (u64 (now + shardidx)) mod m_nbuckets m in
  '(count, dead) ← sweeppoll_loop (S (length (m_buckets m))) h m (s_cleartime sh) now pollsize
                     bidx 0 0 0;
  if count =? 0 then Some (double_of_int 0)
  else Some (double_div (double_of_int dead) (double_of_int count)).
