(* ===== verification/ShardInv.v ===== *)
(** * ShardInv: the invariant of a shard and its memory

    [shard_ok] ties a shard to its abstract content; [others] is the memory
    that belongs to nobody the shard knows. An operation that keeps [others]
    neither leaks nor touches memory of other shards. The lemmas here say how
    allocating, freeing and rewriting an entry act on both. *)

From S2P Require Import Prelude Util Context Entry Heap Map MapInv MapSpec MapOps Shard.

(** ** Memory outside the shard *)

Definition addrs (M : content) : gset Z := list_to_set (fst <$> (map_to_list M).*2).

Definition others (h : heap) (M : content) : heap := filter (λ pb, pb.1 ∉ addrs M) h.

Lemma elem_addrs p M : p ∈ addrs M ↔ ∃ k x, M !! k = Some (p, x).
Proof.
  unfold addrs. rewrite elem_of_list_to_set, list_elem_of_fmap. split.
  - intros ([q x] & -> & Hin). apply list_elem_of_fmap in Hin as ([k v] & Hv & Hin).
    cbn in Hv. subst v. apply elem_of_map_to_list in Hin. eauto.
  - intros (k & x & Hk). exists (p, x). split; [easy|]. apply list_elem_of_fmap.
    exists (k, (p, x)). split; [easy|]. now apply elem_of_map_to_list.
Qed.

Lemma lookup_others h M p :
  others h M !! p = if decide (p ∈ addrs M) then None else h !! p.
Proof.
  unfold others. rewrite map_lookup_filter. destruct (h !! p) as [b|]; cbn.
  - destruct (decide (p ∈ addrs M)) as [Hi|Hi]; [rewrite option_guard_False; [easy|]|
      rewrite option_guard_True; [easy|] ]; cbn; tauto.
  - now destruct (decide _).
Qed.

(** Solves equations between memories by looking at each address. *)
Ltac others_tac :=
  apply map_eq; intros ?q;
  rewrite ?lookup_others, ?lookup_insert, ?lookup_delete, ?lookup_others;
  repeat case_decide; subst; try congruence; try tauto.

Lemma others_alloc h M p b :
  p ∉ addrs M → others (<[p := b]> h) M = <[p := b]> (others h M).
Proof. intros. others_tac. Qed.

Lemma others_free h M p : others (delete p h) M = delete p (others h M).
Proof. others_tac. Qed.

Lemma others_write h M p b : p ∈ addrs M → others (<[p := b]> h) M = others h M.
Proof. intros. others_tac. Qed.

Lemma others_add h M k p x :
  M !! k = None → others h (<[k := (p, x)]> M) = delete p (others h M).
Proof.
  intros Hk. assert (∀ q, q ∈ addrs (<[k := (p, x)]> M) ↔ q = p ∨ q ∈ addrs M) as Hq.
  { intros q. rewrite !elem_addrs. split.
    - intros (k' & x' & [[<- Heq]|[_ H']]%lookup_insert_Some); [inv_all; now left|]. eauto.
    - intros [->|(k' & x' & H')]; [exists k, x; apply lookup_insert_eq|].
      exists k', x'. rewrite lookup_insert_ne; congruence. }
  apply map_eq; intros q. rewrite lookup_delete, !lookup_others.
  destruct (decide (p = q)) as [->|]; destruct (decide (q ∈ addrs M));
    destruct (decide (q ∈ addrs (<[k := _]> M))) as [Hi|Hi]; rewrite Hq in Hi; try easy; 
    try (exfalso; apply Hi; tauto); destruct Hi; congruence || easy.
Qed.

(** The entry of a key that the shard forgets becomes foreign. *)
Lemma others_drop ctx h M k p x :
  entries_ok ctx h M → M !! k = Some (p, x) →
  others h (delete k M) = <[p := encode ctx x]> (others h M).
Proof.
  intros Hent Hk. destruct (Hent _ _ _ Hk) as (_ & _ & Hp & _).
  assert (M = <[k := (p, x)]> (delete k M)) as HM by now rewrite insert_delete_eq, insert_id.
  rewrite HM at 2. rewrite others_add by apply lookup_delete_eq. symmetry.
  rewrite insert_delete_eq. apply insert_id. rewrite lookup_others.
  destruct (decide _) as [Hi|]; [|easy].
  apply elem_addrs in Hi as (k' & x' & [Hne Hk']%lookup_delete_Some).
  now destruct (entries_inj _ _ _ _ _ _ _ _ Hent Hk Hk').
Qed.

Lemma others_fresh h M p : h !! p = None → others h M !! p = None.
Proof. intros Hp. rewrite lookup_others, Hp. now destruct (decide _). Qed.

Lemma fresh_addr ctx h M p : entries_ok ctx h M → h !! p = None → p ∉ addrs M.
Proof. intros Hent Hp (k & x & Hk)%elem_addrs. destruct (Hent _ _ _ Hk) as (_ & _ & ? & _). congruence. Qed.

(** ** The map under changes of memory *)

Lemma entries_alloc ctx h M p b :
  entries_ok ctx h M → h !! p = None → entries_ok ctx (<[p := b]> h) M.
Proof.
  intros Hent Hp k q x Hk. destruct (Hent _ _ _ Hk) as (H1 & H2 & H3 & H4).
  split; [easy|]. split; [easy|]. split; [|easy]. rewrite lookup_insert_ne; congruence.
Qed.

(** The items do not depend on the content of the entries. *)
Lemma content_items_rewrite ctx M k p x x' :
  M !! k = Some (p, x) → content_items ctx (<[k := (p, x')]> M) ≡ₚ content_items ctx M.
Proof.
  intros Hk. rewrite (content_items_delete ctx M k p x Hk), <- insert_delete_eq.
  apply content_items_insert, lookup_delete_eq.
Qed.

Lemma size_replace (M : content) k v v' : M !! k = Some v → size (<[k := v']> M) = size M.
Proof. intros Hk. apply map_size_insert_Some. eauto. Qed.

(** Rewriting an entry in place. *)
Lemma map_ok_write ctx h m M k p x x' :
  map_ok ctx h m M → M !! k = Some (p, x) → e_key x' = k → ent_ok ctx x' →
  map_ok ctx (<[p := encode ctx x']> h) m (<[k := (p, x')]> M).
Proof.
  intros Hm Hk Hkey Hx'. pose proof (mo_entries _ _ _ _ Hm) as Hent.
  pose proof (mo_items _ _ _ _ Hm) as Hit. pose proof (mo_count _ _ _ _ Hm) as Hc.
  destruct (Hent _ _ _ Hk) as (_ & _ & _ & Hp).
  destruct Hm. split; try assumption.
  - now rewrite (size_replace M k (p, x)).
  - etransitivity; [exact Hit|]. symmetry. now apply (content_items_rewrite ctx M k p x).
  - intros k' q y [[<- Heq]|[Hne Hk']]%lookup_insert_Some.
    + inv_all. split; [easy|]. split; [easy|]. now rewrite lookup_insert_eq.
    + destruct (Hent _ _ _ Hk') as (H1 & H2 & H3 & H4). split; [easy|]. split; [easy|].
      split; [|easy]. rewrite lookup_insert_ne; [easy|]. intros <-.
      now destruct (entries_inj _ _ _ _ _ _ _ _ Hent Hk Hk').
  - now apply (probe_safe_replace ctx M k (p, x)).
Qed.

(** Pointing the bucket of a key to another entry. *)
Lemma map_ok_setbkt ctx h m M i k p x q y :
  map_ok ctx h m M → M !! k = Some (p, x) → 0 <= i < m_nbuckets m →
  dib_at (m_buckets m) i ≠ 0 → get_entry (slot (m_buckets m) i) = p →
  get_hash (slot (m_buckets m) i) = hash24 ctx k →
  e_key y = k → ent_ok ctx y → h !! q = Some (encode ctx y) → 0 < q < 2 ^ 48 →
  map_ok ctx h (set_buckets m (bset (m_buckets m) i (set_entry (slot (m_buckets m) i) q)))
    (<[k := (q, y)]> M).
Proof.
  intros Hm Hk Hi Hd Hp Hh Hkey Hy Hq Hqr. pose proof (mo_len _ _ _ _ Hm) as Hl.
  rewrite <- Hl in Hi. set (b := set_entry _ q).
  apply (map_ok_update ctx h h m M); try easy.
  - now rewrite zlen_bset.
  - apply rh_bset_entry; try easy. apply Hm.
  - destruct (items_bset (m_buckets m) i b Hi) as (rest & H1 & H2).
    rewrite H2, item_used by exact Hd. rewrite item_used in H1 by exact Hd.
    cbn [opt_list app] in H1 |- *.
    rewrite (mo_items _ _ _ _ Hm), (content_items_delete ctx M k p x Hk), Hp, Hh in H1.
    apply Permutation_cons_inv in H1. unfold b. rewrite get_set_entry by lia.
    change (get_hash (set_entry (slot (m_buckets m) i) q)) with (get_hash (slot (m_buckets m) i)).
    rewrite Hh, <- insert_delete_eq, content_items_insert by apply lookup_delete_eq.
    now rewrite H1.
  - rewrite (size_replace M k (p, x)) by easy. apply Hm.
  - apply Hm.
  - apply entries_insert; try easy. apply Hm.
  - apply (probe_safe_replace ctx M k (p, x)); [easy|]. apply Hm.
Qed.

(** ** The shard *)

Record shard_ok (ctx : pgctx) (h : heap) (sh : shard_t) (M : content) : Prop := {
  sk_map : map_ok ctx h (s_map sh) M;
  sk_cas : is_u64 (s_cas sh)
}.

(** A shard holds fewer than half a billion entries; growing then never
    exceeds the 2^30 buckets that an [int] can count. *)
Definition roomy (M : content) : Prop := Z.of_nat (size M) < 2 ^ 29.

Lemma roomy_grow ctx h m M :
  map_ok ctx h m M → roomy M → m_growat m <= m_count m → m_nbuckets m <= 2 ^ 29.
Proof.
  intros Hm Hr Hg. pose proof (mo_count _ _ _ _ Hm). pose proof (mo_growat _ _ _ _ Hm) as Hgr.
  destruct (mo_ctx _ _ _ _ Hm) as (lf & Hlf & Hl & _).
  pose proof (mo_nbuckets _ _ _ _ Hm) as Hn. rewrite Hl, scale_exact in Hgr by (easy || unfold MINLOADFACTOR_RH, MAXLOADFACTOR_RH in *; lia).
  unfold roomy, MINLOADFACTOR_RH, MAXLOADFACTOR_RH in *. destruct Hn as (k & Hk & Hn).
  destruct (decide (k = 30)) as [->|]; [|rewrite Hn; apply Z.pow_le_mono_r; lia].
  exfalso. rewrite Hn in Hgr. assert (2 ^ 30 * 55 / 100 <= 2 ^ 30 * lf / 100) by
    (apply Z.div_le_mono; lia).
  assert (2 ^ 29 < 2 ^ 30 * 55 / 100) by reflexivity. lia.
Qed.

(** ** Reading entries *)

(** Why the entry is dead, or zero. *)
Definition fate (now cleartime : Z) (x : ent) : Z :=
  entry_alive_exp (e_expires x) (e_time x) now cleartime.

Lemma encode_alive ctx x now cleartime :
  ent_ok ctx x → entry_alive (encode ctx x) now cleartime = fate now cleartime x.
Proof. intros Hx. unfold entry_alive. now rewrite encode_time, encode_expires. Qed.

Definition ent_view (shardidx now : Z) (x : ent) : view :=
  View shardidx now (e_key x) (e_val x) (e_expires x) (e_flags x) (e_cas x).

Lemma view_of_encode ctx shardidx now x :
  ent_ok ctx x → view_of ctx shardidx now (e_key x) (encode ctx x) = ent_view shardidx now x.
Proof. intros Hx. unfold view_of. now rewrite encode_extract. Qed.

(** What is reported when the entry goes. *)
Definition report (ctx : pgctx) (shardidx reason now : Z) (x : ent) : list event :=
  if evicted ctx then [Event reason (ent_view shardidx now x)] else [].

Lemma notify_encode ctx w shardidx reason now x :
  ent_ok ctx x →
  notify ctx w shardidx reason now (e_key x) (encode ctx x) =
  World (w_heap w) (w_tick w) (w_log w ++ report ctx shardidx reason now x).
Proof.
  intros Hx. unfold notify, report. rewrite view_of_encode by easy.
  destruct (evicted ctx), w; cbn; [easy|]. now rewrite app_nil_r.
Qed.

Lemma notify_key ctx w shardidx reason now key x :
  e_key x = key → ent_ok ctx x →
  notify ctx w shardidx reason now key (encode ctx x) =
  World (w_heap w) (w_tick w) (w_log w ++ report ctx shardidx reason now x).
Proof. intros <-. apply notify_encode. Qed.

Lemma entry_free_some w p b :
  w_heap w !! p = Some b → 0 < p →
  entry_free w p = Some (World (delete p (w_heap w)) (w_tick w) (w_log w)).
Proof.
  intros Hp H0. unfold entry_free, do_free. rewrite (proj2 (Z.eqb_neq p 0)) by lia.
  now rewrite Hp.
Qed.
