(* ===== verification/ShardSpec.v ===== *)
(** * ShardSpec: the shard operations implement a small specification

    The abstract state of a shard is a finite map from keys to logical entries
    with three counters. [load_spec], [store_spec] and [delete_spec] say what
    an operation returns, what it leaves behind and which evictions it reports;
    the refinement theorems say that the operations of [Shard.v] always return,
    do exactly that, and neither leak nor touch foreign memory. Whether memory
    runs out ([mem]) and which entry a low-memory store evicts ([victim]) are
    choices of the environment. *)

From S2P Require Import Prelude Util Context Entry Heap Map MapInv MapSpec MapOps Shard ShardInv.

Record astate := AState {
  a_cas : Z; a_cleartime : Z; a_clearcount : Z; a_ents : gmap bytes ent
}.

Definition abs (sh : shard_t) (M : content) : astate :=
  AState (s_cas sh) (s_cleartime sh) (s_clearcount sh) (snd <$> M).

Definition a_put (a : astate) (x : ent) : astate :=
  AState (a_cas a) (a_cleartime a) (a_clearcount a) (<[e_key x := x]> (a_ents a)).
Definition a_del (a : astate) (k : bytes) : astate :=
  AState (a_cas a) (a_cleartime a) (a_clearcount a) (delete k (a_ents a)).
Definition a_uncount (a : astate) (reason : Z) : astate :=
  AState (a_cas a) (a_cleartime a)
    (a_clearcount a - (if reason =? POGOCACHE_REASON_CLEARED then 1 else 0)) (a_ents a).
Definition a_tick (a : astate) : astate :=
  AState (u64 (a_cas a + 1)) (a_cleartime a) (a_clearcount a) (a_ents a).

Definition touch (now : Z) (x : ent) : ent :=
  Ent (e_key x) (e_val x) (e_expires x) (e_flags x) (e_cas x) now.

(** The entry that [entry_new] and [entry_settime] make. *)
Definition new_ent (ctx : pgctx) (key val : bytes) (expires flags cas now : Z) : ent :=
  Ent key val (Z.max 0 expires) flags (if usecas ctx then cas else 0) now.

(** ** The specifications *)

Section Spec.
Context {U : Type} (ctx : pgctx) (shardidx now : Z) (key : bytes).

Definition load_spec (mem : bool) (opts : load_opts U) (a : astate) (u : U)
    : Z * astate * list event * U :=
  match a_ents a !! key with
  | None => (POGOCACHE_NOTFOUND, a, [], u)
  | Some x =>
      let reason := fate now (a_cleartime a) x in
      if negb (reason =? 0) then
        (POGOCACHE_NOTFOUND, a_uncount (a_del a key) reason,
         report ctx shardidx reason now x, u)
      else
        let a := if lo_notouch opts then a else a_put a (touch now x) in
        match lo_entry opts with
        | None => (POGOCACHE_FOUND, a, [], u)
        | Some cb =>
            match cb (ent_view shardidx now x) u with
            | (None, u) => (POGOCACHE_FOUND, a, [], u)
            | (Some upd, u) =>
                let a := a_tick a in
                if mem then
                  (POGOCACHE_FOUND,
                   a_put a (new_ent ctx key (u_value upd) (u_expires upd) (u_flags upd)
                     (a_cas a) now), [], u)
                else (POGOCACHE_NOMEM, a, [], u)
            end
        end
  end.

Definition delete_spec (opts : delete_opts U) (a : astate) (u : U)
    : Z * astate * list event * U :=
  match a_ents a !! key with
  | None => (POGOCACHE_NOTFOUND, a, [], u)
  | Some x =>
      let reason := fate now (a_cleartime a) x in
      if negb (reason =? 0) then
        (POGOCACHE_NOTFOUND, a_uncount (a_del a key) reason,
         report ctx shardidx reason now x, u)
      else
        let '(go, u) :=
          match do_entry opts with
          | None => (true, u)
          | Some cb => cb (ent_view shardidx now x) u
          end in
        if (go : bool) then (POGOCACHE_DELETED, a_del a key, [], u)
        else (POGOCACHE_CANCELED, a, [], u)
  end.

Definition spec_expires (opts : store_opts U) (a : astate) : Z :=
  let expires :=
    if 0 <? so_expires opts then so_expires opts
    else if 0 <? so_ttl opts then Z.min (now + so_ttl opts) INT64_MAX else 0 in
  if so_keepttl opts then
    match a_ents a !! key with
    | Some x => if fate now (a_cleartime a) x =? 0 then e_expires x else expires
    | None => expires
    end
  else expires.

(** Evicts the victim, for its own reason or for lack of memory. *)
Definition evict_spec (victim : option bytes) (a : astate) : astate * list event :=
  match victim with
  | None => (a, [])
  | Some k =>
      match a_ents a !! k with
      | None => (a, [])
      | Some x =>
          let f := fate now (a_cleartime a) x in
          let reason := if f =? 0 then POGOCACHE_REASON_LOWMEM else f in
          (a_uncount (a_del a k) reason, report ctx shardidx reason now x)
      end
  end.

Definition store_spec (mem : bool) (victim : option bytes) (val : bytes)
    (opts : store_opts U) (a : astate) (u : U) : Z * astate * list event * U :=
  let expires := spec_expires opts a in
  let a := a_tick a in
  let x := new_ent ctx key val expires (so_flags opts) (a_cas a) now in
  if negb mem || (so_lowmem opts && noevict ctx) then (POGOCACHE_NOMEM, a, [], u)
  else
    let absent (a : astate) (evs : list event) :=
      if so_xx opts || so_casop opts then
        (POGOCACHE_NOTFOUND, a_del a key, evs, u)
      else (POGOCACHE_INSERTED, a_put a x, evs, u) in
    match a_ents a !! key with
    | None =>
        if so_xx opts || so_casop opts then (POGOCACHE_NOTFOUND, a, [], u)
        else if so_lowmem opts then
          let '(a, evs) := evict_spec victim (a_put a x) in
          (POGOCACHE_INSERTED, a, evs, u)
        else (POGOCACHE_INSERTED, a_put a x, [], u)
    | Some o =>
        let reason := fate now (a_cleartime a) o in
        if negb (reason =? 0) then
          absent (a_uncount a reason) (report ctx shardidx reason now o)
        else if so_casop opts && negb (usecas ctx && (so_cas opts =? e_cas o)) then
          (POGOCACHE_FOUND, a, [], u)
        else if negb (so_casop opts) && so_nx opts then (POGOCACHE_FOUND, a, [], u)
        else
          let '(go, u) :=
            match so_entry opts with
            | None => (true, u)
            | Some cb => cb (ent_view shardidx now o) u
            end in
          if (go : bool) then (POGOCACHE_REPLACED, a_put a x, [], u)
          else (POGOCACHE_CANCELED, a, [], u)
    end.
End Spec.

(** An operation that returned [res] from shard [sh] holding [M] in memory [w]
    behaved as [spec] says. *)
Definition refines {U : Type} (ctx : pgctx) (w : world) (M : content)
    (res : option (Z * shard_t * world * U)) (spec : Z * astate * list event * U) : Prop :=
  ∃ status sh' w' u' M' evs,
    res = Some (status, sh', w', u') ∧ spec = (status, abs sh' M', evs, u') ∧
    shard_ok ctx (w_heap w') sh' M' ∧ others (w_heap w') M' = others (w_heap w) M ∧
    w_log w' = w_log w ++ evs.

(** ** Abstract states *)

Lemma abs_lookup sh M k : a_ents (abs sh M) !! k = snd <$> M !! k.
Proof. apply lookup_fmap. Qed.

Lemma abs_delete sh M k m : abs (set_map sh m) (delete k M) = a_del (abs sh M) k.
Proof. unfold abs, a_del. cbn. now rewrite fmap_delete. Qed.

Lemma abs_insert sh M p x m :
  abs (set_map sh m) (<[e_key x := (p, x)]> M) = a_put (abs sh M) x.
Proof. unfold abs, a_put. cbn. now rewrite fmap_insert. Qed.

(** ** New entries *)

Section NewEntry.
Context `{Env} `{!EnvOk _} (ctx : pgctx) (w : world) (key val : bytes)
  (expires flags cas now : Z).

Lemma entry_image_new :
  entry_settime (entry_image ctx key val expires flags cas) now =
  encode ctx (new_ent ctx key val expires flags cas now).
Proof.
  assert (entry_image ctx key val expires flags cas =
    entry_image ctx key val (Z.max 0 expires) flags cas) as ->.
  { destruct (Z.max_spec 0 expires) as [[_ ->]|[Hle ->]]; [easy|].
    unfold entry_image, entry_hdr. now rewrite (proj2 (Z.ltb_ge 0 expires)). }
  rewrite entry_image_encode by lia. apply encode_settime.
Qed.

Lemma entry_new_spec :
  (entry_new ctx w key val expires flags cas =
     (0, World (w_heap w) (S (w_tick w)) (w_log w)) ∧
   ∃ n, env_malloc (w_tick w) (w_heap w) n = None) ∨
  (∃ p, entry_new ctx w key val expires flags cas =
     (p, World (<[p := entry_image ctx key val expires flags cas]> (w_heap w))
       (S (w_tick w)) (w_log w)) ∧
   w_heap w !! p = None ∧ 0 < p < 2 ^ 48).
Proof.
  unfold entry_new, do_malloc. destruct (env_malloc _ _ _) as [p|] eqn:E.
  - right. exists p. split; [easy|]. now apply env_malloc_fresh in E.
  - left. eauto.
Qed.

Lemma settime_new p h t l :
  entry_settime_at (World (<[p := entry_image ctx key val expires flags cas]> h) t l) p now =
  Some (World (<[p := encode ctx (new_ent ctx key val expires flags cas now)]> h) t l).
Proof.
  unfold entry_settime_at. cbn [w_heap]. rewrite lookup_insert_eq. mstep.
  unfold set_heap. cbn. now rewrite entry_image_new, insert_insert_eq.
Qed.

Lemma new_ent_ok :
  bytes_ok key → Z.of_nat (length key) < 2 ^ 64 → Z.of_nat (length val) < 2 ^ 64 →
  expires < 2 ^ 63 → is_u32 flags → is_u64 cas → is_i64 now →
  ent_ok ctx (new_ent ctx key val expires flags cas now).
Proof.
  intros. unfold ent_ok, new_ent. cbn [e_key e_val e_expires e_flags e_cas e_time].
  repeat (split; [easy || lia|]). split; [destruct (usecas ctx); [easy|now vm_compute]|].
  split; [now intros ->|easy].
Qed.
End NewEntry.

Lemma touch_ok ctx now x : ent_ok ctx x → is_i64 now → ent_ok ctx (touch now x).
Proof.
  intros (? & ? & ? & ? & ? & ? & ? & _) Hn. unfold ent_ok, touch. cbn. auto 9.
Qed.
