(* ===== verification/ShardOps.v ===== *)
(** * ShardOps: refinement of the operations on a key *)

From S2P Require Import Prelude Util Context Entry Heap Map MapInv MapSpec MapOps Shard ShardInv ShardSpec.

#[local] Opaque encode hash24 th64 entry_memsize.

(** Freeing the entry of a key that left the map. *)
Lemma others_forget ctx h M k p x :
  entries_ok ctx h M → M !! k = Some (p, x) → others (delete p h) (delete k M) = others h M.
Proof.
  intros Hent Hk. rewrite others_free, (others_drop ctx h M k p x Hent Hk).
  rewrite delete_insert_eq. apply delete_id. rewrite lookup_others.
  rewrite decide_True; [easy|]. apply elem_addrs. eauto.
Qed.

Lemma addrs_present k p x M : M !! k = Some (p, x) → p ∈ addrs M.
Proof. intros. apply elem_addrs. eauto. Qed.

Lemma addrs_rewrite k p x x' M : M !! k = Some (p, x) → addrs (<[k := (p, x')]> M) = addrs M.
Proof.
  intros Hk. apply set_eq. intros q. rewrite !elem_addrs. split.
  - intros (k' & y & [[<- Heq]|[_ H']]%lookup_insert_Some); [inv_all; eauto|eauto].
  - intros (k' & y & H'). destruct (decide (k = k')) as [->|].
    + assert (p = q) as <- by congruence. exists k', x'. apply lookup_insert_eq.
    + exists k', y. now rewrite lookup_insert_ne.
Qed.

Lemma others_addrs h M M' : addrs M = addrs M' → others h M = others h M'.
Proof. intros He. apply map_eq. intros q. now rewrite !lookup_others, He. Qed.

(** Replacing the entry of a key by a fresh one and freeing the old one. *)
Lemma others_swap ctx h M k p x q y b :
  entries_ok ctx h M → M !! k = Some (p, x) → h !! q = None →
  others (delete p (<[q := b]> h)) (<[k := (q, y)]> M) = others h M.
Proof.
  intros Hent Hk Hq. pose proof (others_forget ctx h M k p x Hent Hk) as Hf.
  destruct (Hent _ _ _ Hk) as (_ & _ & Hp & _). assert (p ≠ q) by congruence.
  assert (q ∉ addrs (delete k M)) by
    (apply (fresh_addr ctx h); [now apply entries_delete|easy]).
  rewrite <- (insert_delete_eq M), others_add by apply lookup_delete_eq.
  rewrite delete_insert_ne, others_alloc, Hf by congruence.
  rewrite delete_insert_eq. apply delete_id. now apply others_fresh.
Qed.

Section Load.
Context `{Env} `{!EnvOk _} {U : Type} (ctx : pgctx) (sh : shard_t) (w : world) (M : content).
Context (Hok : shard_ok ctx (w_heap w) sh M).

Let Hm := sk_map _ _ _ _ Hok.
Let Hent := mo_entries _ _ _ _ Hm.

(** A dead entry is reported, freed and deleted. *)
Lemma forget_refines k p x m reason (u : U) t evs :
  M !! k = Some (p, x) → map_ok ctx (w_heap w) m (delete k M) →
  refines ctx w M
    (Some (t, set_map (uncount sh reason) m,
      World (delete p (w_heap w)) (w_tick w) (w_log w ++ evs), u))
    (t, a_uncount (a_del (abs sh M) k) reason, evs, u).
Proof.
  intros Hk Hm'. eexists _, _, _, _, (delete k M), _. split; [reflexivity|].
  split; [rewrite abs_delete; reflexivity|]. cbn [w_heap w_log].
  split; [|split; [now apply (others_forget ctx _ _ _ _ x)|easy] ].
  split; [|apply Hok]. cbn. apply (map_ok_heap ctx (w_heap w)); [easy|].
  now apply (entries_delete_free ctx _ _ _ _ x).
Qed.

(** The touched entry. *)
Lemma touch_shard k p x now :
  M !! k = Some (p, x) → is_i64 now →
  shard_ok ctx (<[p := encode ctx (touch now x)]> (w_heap w)) sh
    (<[k := (p, touch now x)]> M) ∧
  others (<[p := encode ctx (touch now x)]> (w_heap w)) (<[k := (p, touch now x)]> M) =
    others (w_heap w) M ∧
  entry_settime_at w p now =
    Some (World (<[p := encode ctx (touch now x)]> (w_heap w)) (w_tick w) (w_log w)).
Proof.
  intros Hk Hn. destruct (Hent _ _ _ Hk) as (Hkey & Hx & Hp & _). split; [|split].
  - split; [|apply Hok]. apply (map_ok_write ctx _ _ _ k p x); try easy. now apply touch_ok.
  - rewrite (others_addrs _ _ M) by (apply (addrs_rewrite k p x); easy).
    apply others_write. now apply (addrs_present k p x).
  - unfold entry_settime_at. rewrite Hp. mstep. unfold set_heap. now rewrite encode_settime.
Qed.

Lemma touch_step k p x now (notouch : bool) :
  M !! k = Some (p, x) → is_i64 now → ∃ w1 M1 x1,
    (if notouch then Some w else entry_settime_at w p now) = Some w1 ∧
    (if notouch then abs sh M else a_put (abs sh M) (touch now x)) = abs sh M1 ∧
    shard_ok ctx (w_heap w1) sh M1 ∧ others (w_heap w1) M1 = others (w_heap w) M ∧
    w_log w1 = w_log w ∧ size (w_heap w1) = size (w_heap w) ∧ M1 !! k = Some (p, x1).
Proof.
  intros Hk Hn. destruct notouch; [now exists w, M, x|].
  destruct (touch_shard k p x now Hk Hn) as (Hok1 & Ho1 & Ht1).
  destruct (Hent _ _ _ Hk) as (Hkey & _ & Hp & _).
  eexists _, (<[k := (p, touch now x)]> M), (touch now x).
  split; [exact Ht1|].
  split; [|rewrite lookup_insert_eq; cbn; now rewrite map_size_insert_Some by eauto].
  rewrite <- Hkey. symmetry. apply (abs_insert sh M p (touch now x) (s_map sh)).
Qed.

(** Replacing the entry in its bucket by a new one. *)
Lemma swap_shard i k p x q y :
  M !! k = Some (p, x) → 0 <= i < m_nbuckets (s_map sh) →
  dib_at (m_buckets (s_map sh)) i ≠ 0 → get_entry (slot (m_buckets (s_map sh)) i) = p →
  get_hash (slot (m_buckets (s_map sh)) i) = hash24 ctx k →
  w_heap w !! q = None → 0 < q < 2 ^ 48 → e_key y = k → ent_ok ctx y →
  let m := set_buckets (s_map sh) (bset (m_buckets (s_map sh)) i
             (set_entry (slot (m_buckets (s_map sh)) i) q)) in
  map_ok ctx (delete p (<[q := encode ctx y]> (w_heap w))) m (<[k := (q, y)]> M).
Proof.
  intros Hk Hi Hd Hp Hh Hq Hqr Hkey Hy m.
  assert (Hm1 : map_ok ctx (<[q := encode ctx y]> (w_heap w)) (s_map sh) M).
  { apply (map_ok_heap ctx (w_heap w)); [exact Hm|]. now apply entries_alloc. }
  assert (Hm2 : map_ok ctx (<[q := encode ctx y]> (w_heap w)) m (<[k := (q, y)]> M)).
  { apply (map_ok_setbkt ctx _ _ _ i k p x); try easy. apply lookup_insert_eq. }
  apply (map_ok_heap _ _ _ _ _ Hm2). apply entries_free; [apply Hm2|].
  destruct (Hent _ _ _ Hk) as (_ & _ & Hpe & _).
  intros k' z [[<- Heq]|[Hne Hk']]%lookup_insert_Some; [inv_all; congruence|].
  now destruct (entries_inj _ _ _ _ _ _ _ _ Hent Hk Hk').
Qed.
End Load.

(** What a callback is shown fits the C types. *)
Definition view_ok (v : view) : Prop :=
  Z.of_nat (length (v_val v)) < 2 ^ 64 ∧ 0 <= v_expires v < 2 ^ 63 ∧ is_u32 (v_flags v).

(** The callback only returns updates that the C types can hold. *)
Definition load_cb_ok {U} (opts : load_opts U) : Prop :=
  ∀ cb v u upd u', lo_entry opts = Some cb → view_ok v → cb v u = (Some upd, u') →
    Z.of_nat (length (u_value upd)) < 2 ^ 64 ∧ u_expires upd < 2 ^ 63 ∧ is_u32 (u_flags upd).

Lemma refines_chain {U : Type} ctx w M w1 M1 (res : option (Z * shard_t * world * U)) spec :
  others (w_heap w1) M1 = others (w_heap w) M → w_log w1 = w_log w →
  refines ctx w1 M1 res spec → refines ctx w M res spec.
Proof.
  intros Ho Hl (status & sh' & w' & u' & M' & evs & H1 & H2 & H3 & H4 & H5).
  exists status, sh', w', u', M', evs. now rewrite H4, H5, Ho, Hl.
Qed.

Lemma refines_done {U : Type} ctx w M sh t (u : U) :
  shard_ok ctx (w_heap w) sh M → refines ctx w M (Some (t, sh, w, u)) (t, abs sh M, [], u).
Proof. intros. exists t, sh, w, u, M, []. now rewrite app_nil_r. Qed.

Lemma next_cas_ok ctx h sh M : shard_ok ctx h sh M → shard_ok ctx h (next_cas sh) M.
Proof. intros [Hm _]. split; [exact Hm|]. cbn. apply u64_range. Qed.

(** [malloc] succeeds as long as there are at most one more block than in [h]. *)
Definition plenty `{Env} (h : heap) : Prop :=
  ∀ t n h', (size h' <= S (size h))%nat → env_malloc t h' n ≠ None.

Section LoadOp.
Context `{Env} `{!EnvOk _} {U : Type} (ctx : pgctx).

(** The update of [loadop], with bucket [i] holding the key. *)
Definition load_update (key : bytes) (now : Z) (upd : update) (i : Z) (sh : shard_t) (w : world)
    (u : U) : option (Z * shard_t * world * U) :=
  let bkt := slot (m_buckets (s_map sh)) i in
  let sh := next_cas sh in
  let '(entry2, w) := entry_new ctx w key (u_value upd) (u_expires upd)
                        (u_flags upd) (s_cas sh) in
  if entry2 =? 0 then Some (POGOCACHE_NOMEM, sh, w, u)
  else
    w ← entry_settime_at w entry2 now;
    let bs := bset (m_buckets (s_map sh)) i (set_entry bkt entry2) in
    w ← entry_free w (get_entry bkt);
    Some (POGOCACHE_FOUND, set_map sh (set_buckets (s_map sh) bs), w, u).

Lemma load_update_refines key p x now upd i sh w M u :
  shard_ok ctx (w_heap w) sh M → M !! key = Some (p, x) → is_i64 now →
  Z.of_nat (length (u_value upd)) < 2 ^ 64 → u_expires upd < 2 ^ 63 → is_u32 (u_flags upd) →
  0 <= i < m_nbuckets (s_map sh) →
  dib_at (m_buckets (s_map sh)) i ≠ 0 → get_entry (slot (m_buckets (s_map sh)) i) = p →
  get_hash (slot (m_buckets (s_map sh)) i) = hash24 ctx key →
  ∃ mem : bool, (plenty (w_heap w) → mem = true) ∧
    refines ctx w M (load_update key now upd i sh w u)
      (let a := a_tick (abs sh M) in
       if mem then
         (POGOCACHE_FOUND,
          a_put a (new_ent ctx key (u_value upd) (u_expires upd) (u_flags upd) (a_cas a) now),
          [], u)
       else (POGOCACHE_NOMEM, a, [], u)).
Proof.
  intros Hok Hk Hn Hv He Hf Hi Hd Hp Hh. pose proof (mo_entries _ _ _ _ (sk_map _ _ _ _ Hok)) as Hent.
  destruct (Hent _ _ _ Hk) as (Hkey & Hx & Hpe & Hpr). unfold load_update.
  destruct (entry_new_spec ctx w key (u_value upd) (u_expires upd) (u_flags upd)
    (s_cas (next_cas sh))) as [[-> Hno]|(q & -> & Hq & Hqr)].
  - exists false. split; [intros Hpl; destruct Hno as [n Hno]; apply Hpl in Hno; [easy|lia]|].
    cbn [Z.eqb]. eexists _, _, _, _, M, []. split; [reflexivity|]. split; [reflexivity|].
    cbn [w_heap w_log]. rewrite app_nil_r. split; [now apply next_cas_ok|easy].
  - exists true. split; [easy|]. rewrite (proj2 (Z.eqb_neq q 0)) by lia.
    rewrite settime_new. mstep.
    set (y := new_ent _ _ _ _ _ _ _).
    assert (Hy : ent_ok ctx y).
    { destruct Hx as (? & ? & _). apply new_ent_ok; try easy; try congruence. apply u64_range. }
    assert (Hdel : <[q := encode ctx y]> (w_heap w) !! p = Some (encode ctx x)).
    { rewrite lookup_insert_ne by congruence. easy. }
    rewrite Hp, (entry_free_some (World _ (S (w_tick w)) (w_log w)) _ _ Hdel) by lia. mstep. cbn [w_heap w_tick w_log].
    eexists _, _, _, _, (<[key := (q, y)]> M), []. split; [reflexivity|].
    split; [rewrite (abs_insert (next_cas sh) M q y); reflexivity|]. cbn [w_heap w_log].
    rewrite app_nil_r. split; [|split; [now apply (others_swap ctx _ _ _ _ x)|easy] ].
    split; [|apply u64_range]. now apply (swap_shard ctx sh w M Hok i key p x).
Qed.

Lemma loadop_spec clock key opts shardidx hash sh w M (u : U) :
  let now := opt_now (lo_time opts) clock in
  shard_ok ctx (w_heap w) sh M → clip_hash hash = hash24 ctx key → is_i64 now →
  load_cb_ok opts →
  ∃ mem, (plenty (w_heap w) → mem = true) ∧
    refines ctx w M (loadop ctx clock key opts shardidx hash sh w u)
      (load_spec ctx shardidx now key mem opts (abs sh M) u).
Proof.
  intros now Hok Hhash Hn Hcb. pose proof (sk_map _ _ _ _ Hok) as Hm.
  unfold loadop, load_spec. fold now. rewrite abs_lookup.
  destruct (M !! key) as [[p x]|] eqn:Hk; cbn [fmap option_fmap option_map snd].
  2: { exists true. split; [easy|].
       rewrite (map_get_bucket_absent ctx _ _ M Hm key hash Hhash Hk). mstep.
       now apply refines_done. }
  destruct (map_get_bucket_present ctx _ _ M Hm key p x hash Hhash Hk)
    as (i & -> & Hi & Hd & Hp & Hh). mstep.
  destruct (mo_entries _ _ _ _ Hm _ _ _ Hk) as (Hkey & Hx & Hpe & Hpr).
  rewrite (proj2 (Z.eqb_neq i (-1))) by lia.
  rewrite bget_slot by (rewrite (mo_len _ _ _ _ Hm); lia). mstep. rewrite Hp, Hpe. mstep.
  rewrite encode_alive by easy. change (a_cleartime (abs sh M)) with (s_cleartime sh).
  destruct (fate now (s_cleartime sh) x =? 0) eqn:Ef; cbn [negb].
  - destruct (touch_step ctx sh w M Hok key p x now (lo_notouch opts) Hk Hn)
      as (w1 & M1 & x1 & -> & -> & Hok1 & Ho1 & Hl1 & Hsz & Hk1). mstep.
    assert (Hview : view_of ctx shardidx now key (encode ctx x) = ent_view shardidx now x)
      by (rewrite <- Hkey; now apply view_of_encode). rewrite Hview.
    destruct (lo_entry opts) as [cb|] eqn:Ecb.
    2: { exists true. split; [easy|]. apply (refines_chain ctx w M w1 M1 _ _ Ho1 Hl1).
         now apply refines_done. }
    destruct (cb (ent_view shardidx now x) u) as [[upd|] u'] eqn:Eu.
    2: { exists true. split; [easy|]. apply (refines_chain ctx w M w1 M1 _ _ Ho1 Hl1).
         now apply refines_done. }
    assert (Hvo : view_ok (ent_view shardidx now x)) by (destruct Hx as (_ & _ & ? & ? & ? & _); easy).
    destruct (Hcb cb _ _ _ _ Ecb Hvo Eu) as (Hv & He & Hf).
    destruct (load_update_refines key p x1 now upd i sh w1 M1 u') as (mem & Hmem & Href);
      try easy.
    exists mem. split; [intros Hpl; apply Hmem; unfold plenty; now rewrite Hsz|].
    apply (refines_chain ctx w M w1 M1 _ _ Ho1 Hl1).
    unfold load_update in Href. rewrite Hp in Href. exact Href.
  - exists true. split; [easy|]. rewrite <- Hkey, notify_encode by easy.
    rewrite (entry_free_some _ p (encode ctx x)) by (easy || lia). mstep.
    destruct (delbkt_map ctx _ _ _ Hm i key p x) as (bs' & H1 & H2); try easy.
    change (s_map (uncount sh _)) with (s_map sh). rewrite H1. mstep. rewrite Hkey.
    now apply (forget_refines ctx sh w M Hok key p x).
Qed.
End LoadOp.

(** ** [deleteop] *)

Lemma delete_below_growat ctx h m M k v :
  map_ok ctx h m M → M !! k = Some v → ∀ m', map_ok ctx h m' (delete k M) →
  m_nbuckets m' = m_nbuckets m → m_count m' < m_growat m'.
Proof.
  intros Hm Hk m' Hm' Hn. pose proof (mo_count _ _ _ _ Hm). pose proof (mo_load _ _ _ _ Hm).
  rewrite (mo_growat _ _ _ _ Hm'), Hn, <- (mo_growat _ _ _ _ Hm), (mo_count _ _ _ _ Hm').
  rewrite map_size_delete_Some by eauto.
  assert (size M ≠ 0%nat) by (intros ?%map_size_empty_inv; subst; now rewrite lookup_empty in Hk).
  lia.
Qed.

Section DeleteOp.
Context `{Env} `{!EnvOk _} {U : Type} (ctx : pgctx).

(** Shrinking and freeing after a key left the map. *)
Lemma shrink_free sh w M k p x m t (u : U) (f : shard_t → shard_t) spec evs :
  shard_ok ctx (w_heap w) sh M → M !! k = Some (p, x) → map_ok ctx (w_heap w) m (delete k M) →
  (∀ m', shard_ok ctx (delete p (w_heap w)) (set_map (f (set_map sh m)) m') (delete k M) ↔
     map_ok ctx (delete p (w_heap w)) m' (delete k M)) →
  (∀ m', spec = (t, abs (set_map (f (set_map sh m)) m') (delete k M), evs, u)) →
  refines ctx w M
    ('(m', w') ← tryshrink ctx (World (w_heap w) (w_tick w) (w_log w ++ evs)) m false;
     w' ← entry_free w' p;
     Some (t, set_map (f (set_map sh m)) m', w', u)) spec.
Proof.
  intros Hok Hk Hm Hf Hspec. pose proof (mo_entries _ _ _ _ (sk_map _ _ _ _ Hok)) as Hent.
  destruct (Hent _ _ _ Hk) as (_ & _ & Hp & Hpr).
  destruct (tryshrink_spec ctx (World (w_heap w) (w_tick w) (w_log w ++ evs)) m (delete k M) false)
    as (m' & w' & -> & Hh & Hl & Hm' & _); [exact Hm|]. cbn [w_heap w_log] in Hh, Hl, Hm'. mstep.
  rewrite (entry_free_some w' p (encode ctx x)) by (rewrite ?Hh; easy || lia). mstep.
  eexists _, _, _, _, (delete k M), evs. split; [reflexivity|]. split; [apply Hspec|].
  cbn [w_heap w_log]. rewrite Hh, Hl. split; [|split; [|easy] ].
  - apply Hf. apply (map_ok_heap ctx (w_heap w)); [easy|].
    now apply (entries_delete_free ctx _ _ _ _ x).
  - now apply (others_forget ctx _ _ _ _ x).
Qed.

Lemma deleteop_spec clock key opts shardidx hash sh w M (u : U) :
  let now := opt_now (do_time opts) clock in
  shard_ok ctx (w_heap w) sh M → clip_hash hash = hash24 ctx key →
  refines ctx w M (deleteop ctx clock key opts shardidx hash sh w u)
    (delete_spec ctx shardidx now key opts (abs sh M) u).
Proof.
  intros now Hok Hhash. pose proof (sk_map _ _ _ _ Hok) as Hm.
  unfold deleteop, delete_spec. fold now. rewrite abs_lookup.
  destruct (M !! key) as [[p x]|] eqn:Hk; cbn [fmap option_fmap option_map snd].
  2: { rewrite (map_delete_absent ctx _ _ M Hm key hash Hhash Hk). mstep.
       destruct sh. now apply refines_done. }
  destruct (map_delete_present ctx _ _ M Hm key p x hash Hhash Hk)
    as (m & -> & Hm1 & Hn1 & _). mstep.
  destruct (mo_entries _ _ _ _ Hm _ _ _ Hk) as (Hkey & Hx & Hpe & Hpr).
  rewrite Hpe. mstep. rewrite encode_alive by easy.
  change (s_cleartime (set_map sh m)) with (s_cleartime sh).
  change (a_cleartime (abs sh M)) with (s_cleartime sh).
  assert (Hview : view_of ctx shardidx now key (encode ctx x) = ent_view shardidx now x)
    by (rewrite <- Hkey; now apply view_of_encode). rewrite Hview.
  destruct (fate now (s_cleartime sh) x =? 0) eqn:Ef; cbn [negb].
  - destruct (match do_entry opts with Some cb => _ | None => _ end) as [go u'].
    destruct go.
    + replace w with (World (w_heap w) (w_tick w) (w_log w ++ [])) at 2
        by (destruct w; cbn; now rewrite app_nil_r).
      apply (shrink_free sh w M key p x m _ u' (λ s, s)); try easy.
      * intros m'. split; [now intros [? _]|]. intros ?. split; [easy|apply Hok].
      * intros m'. now rewrite <- (abs_delete sh M key m').
    + pose proof (delete_below_growat ctx _ _ M key _ Hm Hk m Hm1 Hn1) as Hlt.
      change (s_map (set_map sh m)) with m. subst key.
      destruct (map_insert_spec ctx w m (delete (e_key x) M) p x hash)
        as (r & old & m' & w' & -> & _ & _ & Hr & _ & Hgrow & _); try easy.
      * intros; lia.
      * rewrite insert_delete_eq, insert_id by easy. apply Hm.
      * destruct (Hgrow Hlt) as [-> ->]. destruct (Hr eq_refl) as (-> & Hm2 & _). mstep. cbn [negb].
        rewrite lookup_delete_eq. cbn [fmap option_fmap option_map].
        rewrite insert_delete_eq, insert_id in Hm2 by easy.
        apply (refines_done ctx w M (set_map (set_map sh m) m') _ u').
        split; [easy|apply Hok].
  - rewrite <- Hkey at 1. rewrite notify_encode by easy.
    change (s_map (uncount (set_map sh m) _)) with m.
    apply (shrink_free sh w M key p x m _ u (λ s, uncount s _)); try easy.
    + intros m'. split; [now intros [? _]|]. intros ?. split; [easy|apply Hok].
    + intros m'. now rewrite abs_delete.
Qed.
End DeleteOp.
