(* ===== verification/Evict.v ===== *)
(** * Evict: the low-memory eviction picks and removes one entry *)

From S2P Require Import Prelude Util Context Entry Heap Map MapInv MapSpec MapOps Shard ShardInv ShardSpec ShardOps.

#[local] Opaque encode hash24 th64 entry_memsize.

Section Evict.
Context (ctx : pgctx) (sh : shard_t) (w : world) (M : content).
Context (Hok : shard_ok ctx (w_heap w) sh M).

Let Hm := sk_map _ _ _ _ Hok.
Let Hent := mo_entries _ _ _ _ Hm.

(** [evict_entry] on a stored entry: its assertion holds, the entry is
    reported, unlinked and freed. *)
Lemma evict_entry_spec k p x shardidx now reason :
  M !! k = Some (p, x) → ∃ size sh' w',
    evict_entry ctx w sh shardidx p now reason = Some (size, sh', w') ∧
    size = Z.of_nat (length (encode ctx x)) ∧
    abs sh' (delete k M) = a_uncount (a_del (abs sh M) k) reason ∧
    shard_ok ctx (w_heap w') sh' (delete k M) ∧
    others (w_heap w') (delete k M) = others (w_heap w) M ∧
    w_log w' = w_log w ++ report ctx shardidx reason now x.
Proof.
  intros Hk. destruct (Hent _ _ _ Hk) as (Hkey & Hx & Hp & Hpr).
  unfold evict_entry. rewrite Hp. mstep. rewrite encode_key, Hkey by easy.
  destruct (map_delete_present ctx _ _ M Hm k p x (u32 (th64 k (seed ctx))))
    as (m & -> & Hm1 & _); [apply clip_hash_u32|easy|]. mstep.
  rewrite bool_decide_eq_true_2 by easy. cbn [negb].
  rewrite <- Hkey, notify_encode, Hkey by easy.
  rewrite (entry_free_some _ p (encode ctx x)) by (easy || lia). mstep.
  eexists _, _, _. split; [reflexivity|]. split; [now apply encode_memsize|].
  split; [unfold uncount; rewrite <- (abs_delete sh M k m); reflexivity|]. cbn [w_heap w_log].
  split; [|split; [now apply (others_forget ctx _ _ _ _ x)|easy] ].
  split; [|apply Hok]. apply (map_ok_heap ctx (w_heap w)); [easy|].
  now apply (entries_delete_free ctx _ _ _ _ x).
Qed.

(** A candidate for eviction: alive and with another hash. *)
Definition candidate (now hash p : Z) : Prop :=
  ∃ k x, M !! k = Some (p, x) ∧ fate now (s_cleartime sh) x = 0 ∧ hash24 ctx k ≠ hash.

Lemma auto_evict_loop_spec hash now fuel : ∀ i cs,
  0 <= i <= m_nbuckets (s_map sh) → m_nbuckets (s_map sh) - i < Z.of_nat fuel → (length cs <= 2)%nat →
  Forall (candidate now hash) cs →
  ∃ r, auto_evict_loop fuel (w_heap w) (s_map sh) (s_cleartime sh) hash now i cs = Some r ∧
    match r with
    | inl cs => (length cs <= 2)%nat ∧ Forall (candidate now hash) cs
    | inr (p, reason) => ∃ k x, M !! k = Some (p, x) ∧
        reason = fate now (s_cleartime sh) x ∧ reason ≠ 0
    end.
Proof.
  pose proof (ring_size _ _ _ _ Hm) as Hn. destruct (ring_pow _ _ _ _ Hm) as (e & He & He0).
  pose proof (mo_len _ _ _ _ Hm) as Hl.
  induction fuel as [|fuel IH]; intros i cs Hi Hf Hlen Hcs; cbn [auto_evict_loop].
  { lia. }
  destruct (i <? m_nbuckets (s_map sh)) eqn:E; zb; cbn [andb]; [|now exists (inl cs)].
  destruct (length cs <? 2)%nat eqn:E2; [|now exists (inl cs)]. apply Nat.ltb_lt in E2.
  rewrite (land_ring _ e) by easy.
  rewrite bget_slot by (rewrite Hl; apply Z.mod_pos_bound; lia). mstep.
  set (b := slot _ _).
  destruct (get_dib b =? 0) eqn:Ed; zb; [apply IH; try easy; lia|].
  destruct (slot_entry ctx _ _ M Hm _ Ed) as (k & p & x & Hk & Hp & Hh). fold b in Hp, Hh.
  destruct (Hent _ _ _ Hk) as (Hkey & Hx & Hpe & _). rewrite Hp, Hpe. mstep.
  rewrite encode_alive by easy.
  destruct (fate now (s_cleartime sh) x =? 0) eqn:Ef; zb; cbn [negb].
  2: { eexists. split; [reflexivity|]. cbn. eauto. }
  destruct (get_hash b =? hash) eqn:Eh; zb; [apply IH; try easy; lia|].
  apply IH; try lia; [rewrite length_app; cbn; lia|].
  apply Forall_app. split; [easy|]. apply Forall_singleton. exists k, x.
  split; [easy|]. split; [easy|congruence].
Qed.

(** What [auto_evict_entry] may do: the victim, if any, is a dead entry, or a
    live one that is not stored under the hash of the key just inserted. *)
Definition evict_outcome (shardidx hash now : Z) (res : option (shard_t * world)) : Prop :=
  ∃ victim sh' w' M' evs, res = Some (sh', w') ∧
    evict_spec ctx shardidx now victim (abs sh M) = (abs sh' M', evs) ∧
    shard_ok ctx (w_heap w') sh' M' ∧ others (w_heap w') M' = others (w_heap w) M ∧
    w_log w' = w_log w ++ evs ∧
    (∀ k, victim = Some k → ∃ p x, M !! k = Some (p, x) ∧
       (fate now (s_cleartime sh) x = 0 → hash24 ctx k ≠ clip_hash hash)).

Lemma evict_one shardidx hash now p k x reason :
  M !! k = Some (p, x) →
  reason = (if fate now (s_cleartime sh) x =? 0 then POGOCACHE_REASON_LOWMEM
            else fate now (s_cleartime sh) x) →
  (fate now (s_cleartime sh) x = 0 → hash24 ctx k ≠ clip_hash hash) →
  evict_outcome shardidx hash now
    ('(_, sh', w') ← evict_entry ctx w sh shardidx p now reason; Some (sh', w')).
Proof.
  intros Hk Hre Hh.
  destruct (evict_entry_spec k p x shardidx now reason Hk)
    as (sz & sh' & w' & -> & _ & H1 & H2 & H3 & H4). mstep.
  exists (Some k), sh', w', (delete k M), (report ctx shardidx reason now x).
  split; [easy|]. split; [|split; [easy|split; [easy|split; [easy|] ] ] ].
  - unfold evict_spec. rewrite abs_lookup, Hk, H1. cbn [fmap option_fmap option_map snd].
    change (a_cleartime (abs sh M)) with (s_cleartime sh). now rewrite <- Hre.
  - intros k' [= <-]. eauto.
Qed.

Lemma evict_candidate shardidx hash now p :
  candidate now (clip_hash hash) p →
  evict_outcome shardidx hash now
    ('(_, sh', w') ← evict_entry ctx w sh shardidx p now POGOCACHE_REASON_LOWMEM;
     Some (sh', w')).
Proof.
  intros (k & x & Hk & Hf & Hh). apply (evict_one _ _ _ p k x); try easy. now rewrite Hf.
Qed.

Lemma auto_evict_spec shardidx hash now :
  evict_outcome shardidx hash now (auto_evict_entry ctx w sh shardidx hash now).
Proof.
  unfold auto_evict_entry. pose proof (mo_len _ _ _ _ Hm) as Hl. unfold zlen in Hl.
  pose proof (ring_size _ _ _ _ Hm) as Hn.
  destruct (auto_evict_loop_spec (clip_hash hash) now (S (length (m_buckets (s_map sh)))) 1 [])
    as (r & -> & Hr); try easy; try lia; [cbn; lia|]. mstep.
  destruct r as [cs|[p reason]].
  - destruct Hr as [_ Hcs]. destruct cs as [|p0 [|p1 [|p2 cs]]];
      try (exists None, sh, w, M, []; rewrite app_nil_r; easy).
    + apply Forall_inv in Hcs. now apply evict_candidate.
    + apply Forall_cons in Hcs as [H0 H1]. apply Forall_inv in H1.
      pose proof H0 as (k0 & x0 & Hk0 & _). pose proof H1 as (k1 & x1 & Hk1 & _).
      destruct (Hent _ _ _ Hk0) as (_ & _ & -> & _), (Hent _ _ _ Hk1) as (_ & _ & -> & _).
      mstep. mstep. cbv zeta. destruct (_ <? _); now apply evict_candidate.
  - destruct Hr as (k & x & Hk & Hre & Hne). apply (evict_one _ _ _ p k x reason); try easy.
    + subst reason. now rewrite (proj2 (Z.eqb_neq _ 0) Hne).
    + congruence.
Qed.
End Evict.
