(* ===== verification/ShardStore.v ===== *)
(** * ShardStore: refinement of [storeop] *)

From S2P Require Import Prelude Util Context Entry Heap Map MapInv MapSpec MapOps Shard ShardInv ShardSpec ShardOps Evict.

#[local] Opaque encode hash24 th64 entry_memsize.

Section Store.
Context `{Env} `{!EnvOk _} {U : Type} (ctx : pgctx) (shardidx now hash : Z).

(** Later steps after the first have reported [evs]. *)
Lemma refines_after w M w1 M1 evs (res : option (Z * shard_t * world * U)) t a evs' u :
  others (w_heap w1) M1 = others (w_heap w) M → w_log w1 = w_log w ++ evs →
  refines ctx w1 M1 res (t, a, evs', u) → refines ctx w M res (t, a, evs ++ evs', u).
Proof.
  intros Ho Hl (status & sh' & w' & u' & M' & e2 & H1 & H2 & H3 & H4 & H5).
  exists status, sh', w', u', M', (evs ++ e2). inv_all. split; [easy|].
  rewrite app_assoc, <- Hl. split; [congruence|]. split; [easy|]. split; congruence.
Qed.

(** The entry is new in the map. *)
Section Fresh.
Context (sh : shard_t) (w : world) (h0 : heap) (M0 : content) (p : Z) (x : ent).
Context (Hheap : w_heap w = <[p := encode ctx x]> h0) (Hp0 : h0 !! p = None).
Context (Hent0 : entries_ok ctx h0 M0) (Hnew : M0 !! e_key x = None).
Context (Hok : shard_ok ctx (w_heap w) sh (<[e_key x := (p, x)]> M0)).
Context (Hhash : clip_hash hash = hash24 ctx (e_key x)).

Lemma fresh_others : others (w_heap w) (<[e_key x := (p, x)]> M0) = others h0 M0.
Proof.
  rewrite others_add, Hheap, others_alloc by
    (easy || now apply (fresh_addr ctx h0)).
  rewrite delete_insert_eq. apply delete_id. now apply others_fresh.
Qed.

Lemma store_absent_refines opts count (u : U) :
  ∃ victim,
    refines ctx (World h0 (w_tick w) (w_log w)) M0
      (store_absent ctx (e_key x) opts shardidx hash now count p sh w u)
      (if so_xx opts || so_casop opts then (POGOCACHE_NOTFOUND, abs sh M0, [], u)
       else if so_lowmem opts && (count <? Z.of_nat (S (size M0))) then
         let '(a, evs) := evict_spec ctx shardidx now victim (a_put (abs sh M0) x) in
         (POGOCACHE_INSERTED, a, evs, u)
       else (POGOCACHE_INSERTED, a_put (abs sh M0) x, [], u)) ∧
    (∀ k, victim = Some k → ∃ y, a_ents (a_put (abs sh M0) x) !! k = Some y ∧
       (fate now (s_cleartime sh) y = 0 → hash24 ctx k ≠ hash24 ctx (e_key x))).
Proof.
  pose proof (sk_map _ _ _ _ Hok) as Hm. unfold store_absent.
  assert (Hput : a_put (abs sh M0) x = abs sh (<[e_key x := (p, x)]> M0))
    by (symmetry; apply (abs_insert sh M0 p x (s_map sh))).
  destruct (so_xx opts || so_casop opts).
  - exists None. split; [|easy].
    destruct (map_delete_present ctx _ _ _ Hm (e_key x) p x hash Hhash) as (m & -> & Hm1 & _);
      [apply lookup_insert_eq|]. mstep. rewrite bool_decide_eq_true_2 by easy. cbn [negb].
    destruct (mo_entries _ _ _ _ Hm (e_key x) p x) as (_ & _ & Hp & Hpr);
      [apply lookup_insert_eq|].
    rewrite (entry_free_some w p (encode ctx x)) by (easy || lia). mstep.
    rewrite delete_insert_id in Hm1 by easy.
    assert (Hdel : delete p (w_heap w) = h0) by (rewrite Hheap; now apply delete_insert_id).
    rewrite Hdel. eexists _, _, _, _, M0, []. split; [reflexivity|].
    split; [reflexivity|]. cbn [w_heap w_log]. rewrite app_nil_r.
    split; [|easy]. split; [|apply Hok]. now apply (map_ok_heap ctx (w_heap w)).
  - assert (Hcnt : m_count (s_map sh) = Z.of_nat (S (size M0))).
    { rewrite (mo_count _ _ _ _ Hm). now rewrite map_size_insert_None. }
    rewrite Hcnt, Hput. destruct (so_lowmem opts && _).
    + destruct (auto_evict_spec ctx sh w _ Hok shardidx hash now)
        as (victim & sh' & w' & M' & evs & -> & H2 & H3 & H4 & H5 & H6). mstep.
      exists victim. rewrite H2. split.
      * apply (refines_chain ctx _ M0 w (<[e_key x := (p, x)]> M0));
          [exact fresh_others|easy|]. now exists POGOCACHE_INSERTED, sh', w', u, M', evs.
      * intros k Hk. destruct (H6 k Hk) as (q & y & Hy & Hf). exists y.
        rewrite abs_lookup, Hy, <- Hhash. easy.
    + exists None. split; [|easy].
      apply (refines_chain ctx _ M0 w (<[e_key x := (p, x)]> M0));
        [exact fresh_others|easy|]. now apply refines_done.
Qed.
End Fresh.

(** The entry replaced a live one. *)
Section Replace.
Context (sh : shard_t) (w : world) (h0 : heap) (M : content) (p q : Z) (x y : ent).
Context (Hheap : w_heap w = <[p := encode ctx x]> h0) (Hp0 : h0 !! p = None).
Context (Hent0 : entries_ok ctx h0 M) (Hold : M !! e_key x = Some (q, y)).
Context (Hok : shard_ok ctx (w_heap w) sh (<[e_key x := (p, x)]> M)).
Context (Hsafe : probe_safe ctx M).
Context (Hlt : m_count (s_map sh) < m_growat (s_map sh)).
Context (Hhash : clip_hash hash = hash24 ctx (e_key x)).

Let w0 := World h0 (w_tick w) (w_log w).

Lemma old_entry : e_key y = e_key x ∧ ent_ok ctx y ∧ w_heap w !! q = Some (encode ctx y) ∧
  0 < q < 2 ^ 48 ∧ 0 < p < 2 ^ 48 ∧ w_heap w !! p = Some (encode ctx x).
Proof.
  destruct (Hent0 _ _ _ Hold) as (H1 & H2 & H3 & H4).
  destruct (mo_entries _ _ _ _ (sk_map _ _ _ _ Hok) (e_key x) p x) as (_ & _ & Hp & Hpr);
    [apply lookup_insert_eq|].
  rewrite Hheap at 1. rewrite lookup_insert_ne by congruence. easy.
Qed.

(** Putting the old entry back neither allocates nor fails. *)
Lemma put_back_refines t (u : U) :
  refines ctx w0 M (store_put_back ctx sh w u p q hash t) (t, abs sh M, [], u).
Proof.
  destruct old_entry as (Hkey & Hy & Hq & Hqr & Hpr & Hp). unfold store_put_back.
  assert (Hback : <[e_key y := (q, y)]> (<[e_key x := (p, x)]> M) = M).
  { rewrite Hkey, insert_insert_eq. now apply insert_id. }
  destruct (map_insert_spec ctx w (s_map sh) (<[e_key x := (p, x)]> M) q y hash)
    as (r & e & m & w' & -> & _ & _ & Hr & _ & Hgrow & _); try easy.
  - apply Hok.
  - lia.
  - now rewrite Hback.
  - now rewrite Hkey.
  - destruct (Hgrow Hlt) as [-> ->]. destruct (Hr eq_refl) as (-> & Hm & _). mstep.
    rewrite Hback in Hm. rewrite Hkey, lookup_insert_eq. cbn [fmap option_fmap option_map fst].
    rewrite bool_decide_eq_true_2 by easy. cbn [andb negb].
    rewrite (entry_free_some w p (encode ctx x)) by (easy || lia). mstep.
    assert (Hdel : delete p (w_heap w) = h0) by (rewrite Hheap; now apply delete_insert_id).
    rewrite Hdel. eexists _, _, _, _, M, []. split; [reflexivity|].
    split; [reflexivity|]. cbn [w_heap w_log w0]. rewrite app_nil_r.
    split; [|easy]. split; [|apply Hok]. now apply (map_ok_heap ctx (w_heap w)).
Qed.

Lemma replaced_refines (u : U) :
  refines ctx w0 M (w ← entry_free w q; Some (POGOCACHE_REPLACED, sh, w, u))
    (POGOCACHE_REPLACED, a_put (abs sh M) x, [], u).
Proof.
  destruct old_entry as (Hkey & Hy & Hq & Hqr & Hpr & Hp).
  assert (p ≠ q) by (destruct (Hent0 _ _ _ Hold) as (_ & _ & ? & _); congruence).
  rewrite (entry_free_some w q (encode ctx y)) by (easy || lia). mstep.
  eexists _, _, _, _, (<[e_key x := (p, x)]> M), []. split; [reflexivity|].
  split; [rewrite <- (abs_insert sh M p x (s_map sh)); destruct sh; reflexivity|].
  cbn [w_heap w_log w0]. rewrite app_nil_r, Hheap.
  split; [|split; [now apply (others_swap ctx _ _ _ _ y)|easy] ].
  split; [|apply Hok]. rewrite <- Hheap. apply (map_ok_heap ctx (w_heap w)); [apply Hok|].
  apply entries_free; [apply Hok|].
  intros k' z [[<- Heq]|[Hne Hk']]%lookup_insert_Some; [inv_all; congruence|].
  now destruct (entries_inj _ _ _ _ _ _ _ _ Hent0 Hold Hk').
Qed.

Lemma store_present_refines opts (u : U) :
  refines ctx w0 M
    (store_present ctx (e_key x) opts shardidx hash now p q (encode ctx y) sh w u)
    (if so_casop opts && negb (usecas ctx && (so_cas opts =? e_cas y)) then
       (POGOCACHE_FOUND, abs sh M, [], u)
     else if negb (so_casop opts) && so_nx opts then (POGOCACHE_FOUND, abs sh M, [], u)
     else
       let '(go, u) :=
         match so_entry opts with
         | None => (true, u)
         | Some cb => cb (ent_view shardidx now y) u
         end in
       if (go : bool) then (POGOCACHE_REPLACED, a_put (abs sh M) x, [], u)
       else (POGOCACHE_CANCELED, abs sh M, [], u)).
Proof.
  destruct old_entry as (Hkey & Hy & _). unfold store_present, put_back_status.
  rewrite <- Hkey, view_of_encode, encode_cas by easy.
  assert (Hcb : refines ctx w0 M
  (let '(go, u) :=
     match so_entry opts with
     | Some cb => cb (ent_view shardidx now y) u
     | None => (true, u)
     end in
   if negb go then store_put_back ctx sh w u p q hash POGOCACHE_CANCELED
   else w ← entry_free w q; Some (POGOCACHE_REPLACED, sh, w, u))
  (let '(go, u) :=
     match so_entry opts with
     | Some cb => cb (ent_view shardidx now y) u
     | None => (true, u)
     end in
   if (go : bool) then (POGOCACHE_REPLACED, a_put (abs sh M) x, [], u)
   else (POGOCACHE_CANCELED, abs sh M, [], u))).
{ destruct (match so_entry opts with Some _ => _ | None => _ end) as [[|] u'];
    cbn [negb]; [apply replaced_refines|apply put_back_refines]. }
destruct (so_casop opts); cbn [andb negb].
- destruct (usecas ctx); cbn [andb negb]; [|apply put_back_refines].
  destruct (so_cas opts =? e_cas y); cbn [negb Z.eqb]; [exact Hcb|apply put_back_refines].
- destruct (so_nx opts); cbn [negb Z.eqb]; [apply put_back_refines|exact Hcb].
Qed.
End Replace.
End Store.

(** Options that the C types can hold. *)
Definition store_opts_ok {U} (opts : store_opts U) : Prop :=
  is_i64 (so_expires opts) ∧ is_i64 (so_ttl opts) ∧ is_u32 (so_flags opts).

Section StoreOp.
Context `{Env} `{!EnvOk _} {U : Type} (ctx : pgctx) (shardidx hash : Z) (key : bytes).
Context (opts : store_opts U) (clock : Z) (sh : shard_t) (w : world) (M : content).

Let now := opt_now (so_time opts) clock.

Context (Hok : shard_ok ctx (w_heap w) sh M) (Hroom : roomy M).
Context (Hhash : clip_hash hash = hash24 ctx key) (Hnow : is_i64 now).
Context (Hopts : store_opts_ok opts).

Let Hm := sk_map _ _ _ _ Hok.
Let Hent := mo_entries _ _ _ _ Hm.

Lemma store_expires_spec :
  store_expires key opts now hash sh w = Some (spec_expires now key opts (abs sh M)) ∧
  spec_expires now key opts (abs sh M) < 2 ^ 63.
Proof.
  destruct Hopts as (He & Ht & _). unfold store_expires, spec_expires.
  set (e := if 0 <? so_expires opts then _ else _).
  assert (e = if 0 <? so_expires opts then so_expires opts
  else if 0 <? so_ttl opts then Z.min (now + so_ttl opts) INT64_MAX else 0) as <-.
  { unfold e. case_if; [easy|]. case_if; [|easy]. rewrite int64_add_clamp_eq by easy.
  unfold clamp64, is_i64, INT64_MAX, INT64_MIN in *. lia. }
  assert (e < 2 ^ 63).
  { unfold e, is_i64 in *. case_if; [lia|]. case_if; [|lia].
  rewrite int64_add_clamp_eq by easy. unfold clamp64, INT64_MAX, INT64_MIN in *. lia. }
  clearbody e. rewrite abs_lookup. destruct (so_keepttl opts); [|easy].
  unfold map_get_entry. destruct (M !! key) as [[q y]|] eqn:Hk.
  - destruct (map_get_bucket_present ctx _ _ M Hm key q y hash Hhash Hk)
    as (i & -> & Hi & Hd & Hq & _). mstep.
  destruct (Hent _ _ _ Hk) as (_ & Hy & Hqe & _).
  rewrite (proj2 (Z.leb_le 0 i)), bget_slot by (rewrite ?(mo_len _ _ _ _ Hm); lia).
  mstep. mstep. rewrite Hq, Hqe. mstep. rewrite encode_alive, encode_expires by easy.
  cbn [fmap option_fmap option_map snd].
  change (a_cleartime (abs sh M)) with (s_cleartime sh).
  destruct Hy as (_ & _ & _ & ? & _). case_if; split; easy || lia.
  - rewrite (map_get_bucket_absent ctx _ _ M Hm key hash Hhash Hk). mstep. easy.
Qed.

(** The [nomem] label after the new entry was allocated. *)
Lemma nomem_refines p b w1 (u : U) :
  w_heap w1 = <[p := b]> (w_heap w) → w_log w1 = w_log w → w_heap w !! p = None → 0 < p →
  refines ctx w M (store_nomem (next_cas sh) w1 u p)
  (POGOCACHE_NOMEM, a_tick (abs sh M), [], u).
Proof.
  intros Hh Hl Hp H0. unfold store_nomem.
  rewrite (entry_free_some w1 p b) by (easy || rewrite Hh; apply lookup_insert_eq). mstep.
  eexists _, _, _, _, M, []. split; [reflexivity|]. split; [reflexivity|]. cbn [w_heap w_log].
  rewrite Hh, Hl, app_nil_r, delete_insert_id by easy. split; [|easy]. now apply next_cas_ok.
Qed.

Context (val : bytes).
Let x := new_ent ctx key val (spec_expires now key opts (abs sh M)) (so_flags opts)
         (a_cas (a_tick (abs sh M))) now.
Context (Hx : ent_ok ctx x) (Hsafe : ∀ v, probe_safe ctx (<[key := v]> M)).

(** The old entry was dead: it is reported and the new one counts as new. *)
Lemma store_dead p q y w1 m reason (u : U) :
  w_heap w1 = <[p := encode ctx x]> (w_heap w) → w_log w1 = w_log w → w_heap w !! p = None →
  map_ok ctx (w_heap w1) m (<[key := (p, x)]> M) → M !! key = Some (q, y) →
  let evs := report ctx shardidx reason now y in
  let a := a_uncount (a_tick (abs sh M)) reason in
  refines ctx w M
  (store_absent ctx key opts shardidx hash now (m_count (s_map sh)) p
    (uncount (set_map (next_cas sh) m) reason)
    (World (delete q (w_heap w1)) (w_tick w1) (w_log w1 ++ evs)) u)
  (if so_xx opts || so_casop opts then (POGOCACHE_NOTFOUND, a_del a key, evs, u)
   else (POGOCACHE_INSERTED, a_put a x, evs, u)).
Proof.
  intros Hh Hl Hp Hm1 Hk evs a. destruct (Hent _ _ _ Hk) as (Hkey & Hy & Hqe & Hqr).
  set (w2 := World (delete q (w_heap w1)) _ _).
  set (sh2 := uncount (set_map (next_cas sh) m) reason).
  assert (Hh2 : w_heap w2 = <[p := encode ctx x]> (delete q (w_heap w))).
  { cbn. rewrite Hh. apply delete_insert_ne. congruence. }
  assert (Hok2 : shard_ok ctx (w_heap w2) sh2 (<[e_key x := (p, x)]> (delete key M))).
  { rewrite insert_delete_eq. split; [|apply u64_range].
  apply (map_ok_heap ctx (w_heap w1)); [exact Hm1|]. apply entries_free; [apply Hm1|].
  intros k' z [[<- Heq]|[Hne Hk']]%lookup_insert_Some; [inv_all; congruence|].
  now destruct (entries_inj _ _ _ _ _ _ _ _ Hent Hk Hk'). }
  destruct (store_absent_refines ctx shardidx now hash sh2 w2 (delete q (w_heap w))
  (delete key M) p x Hh2 ltac:(rewrite lookup_delete_ne; congruence)
  (entries_delete_free ctx _ _ _ _ y Hent Hk) (lookup_delete_eq M key) Hok2 Hhash opts
  (m_count (s_map sh)) u) as (victim & Href & _).
  assert (Hc : (m_count (s_map sh) <? Z.of_nat (S (size (delete key M)))) = false).
  { apply Z.ltb_ge. rewrite (mo_count _ _ _ _ Hm), map_size_delete_Some by eauto.
    assert (size M ≠ 0%nat) by
      (intros ?%map_size_empty_inv; subst M; now rewrite lookup_empty in Hk). lia. }
  rewrite Hc, andb_false_r in Href.
  assert (Habs : abs sh2 (delete key M) = a_del a key) by apply (abs_delete sh2 M key m).
  assert (Hput : a_put (a_del a key) x = a_put a x)
    by (unfold a_put, a_del; cbn; now rewrite insert_delete_eq).
  rewrite Habs, Hput in Href. replace evs with (evs ++ []) by apply app_nil_r.
  destruct (so_xx opts || so_casop opts);
    (apply (refines_after ctx w M (World (delete q (w_heap w)) (w_tick w2) (w_log w2))
      (delete key M)); [now apply (others_forget ctx _ _ _ _ y)|cbn; now rewrite Hl|exact Href]).
Qed.

(** The map has taken the new entry; what [store_spec] says of the rest. *)
Lemma store_inserted p w1 m (u : U) :
  w_heap w1 = <[p := encode ctx x]> (w_heap w) → w_log w1 = w_log w → w_heap w !! p = None →
  map_ok ctx (w_heap w1) m (<[key := (p, x)]> M) →
  (M !! key ≠ None → m_count m < m_growat m) →
  so_lowmem opts && noevict ctx = false →
  ∃ victim, refines ctx w M
    ('(old, sh', w') ← store_old ctx key shardidx now (set_map (next_cas sh) m) w1
                         (fst <$> M !! key);
     match old with
     | Some (o, e) => store_present ctx key opts shardidx hash now p o e sh' w' u
     | None => store_absent ctx key opts shardidx hash now (m_count (s_map sh)) p sh' w' u
     end)
    (store_spec ctx shardidx now key true victim val opts (abs sh M) u) ∧
    (∀ k, victim = Some k → ∃ y, <[key := x]> (snd <$> M) !! k = Some y ∧
       (fate now (s_cleartime sh) y = 0 → hash24 ctx k ≠ hash24 ctx key)).
Proof.
  intros Hh Hl Hp Hm1 Hcnt Hev. unfold store_spec. rewrite Hev.
  fold x. cbn [negb orb]. change (a_ents (a_tick (abs sh M))) with (a_ents (abs sh M)).
  change (a_cleartime (a_tick (abs sh M))) with (s_cleartime sh). rewrite abs_lookup.
  assert (Hok1 : shard_ok ctx (w_heap w1) (set_map (next_cas sh) m) (<[e_key x := (p, x)]> M))
    by (split; [exact Hm1|apply u64_range]).
  destruct (M !! key) as [[q y]|] eqn:Hk; cbn [fmap option_fmap option_map fst snd store_old].
  - destruct (Hent _ _ _ Hk) as (Hkey & Hy & Hqe & Hqr).
    assert (Hq1 : w_heap w1 !! q = Some (encode ctx y))
      by (rewrite Hh, lookup_insert_ne by congruence; easy).
    rewrite Hq1. mstep. rewrite encode_alive by easy.
    change (s_cleartime (set_map (next_cas sh) m)) with (s_cleartime sh).
    destruct (fate now (s_cleartime sh) y =? 0) eqn:Ef; cbn [negb].
    + exists None. split; [|easy]. mstep.
      apply (refines_chain ctx w M (World (w_heap w) (w_tick w1) (w_log w1)) M); [easy..|].
      apply (store_present_refines ctx shardidx now hash (set_map (next_cas sh) m) w1
        (w_heap w) M p q x y); try easy.
      * apply Hm.
      * now apply Hcnt.
    + rewrite (notify_key ctx w1 shardidx _ now key y Hkey Hy).
      rewrite (entry_free_some _ q (encode ctx y)) by (easy || lia). mstep. mstep.
      cbn [w_heap w_tick w_log]. exists None. split; [|easy].
      now apply (store_dead p q y w1 m (fate now (s_cleartime sh) y)).
  - mstep.
    destruct (store_absent_refines ctx shardidx now hash (set_map (next_cas sh) m) w1
      (w_heap w) M p x Hh Hp Hent Hk Hok1 Hhash opts (m_count (s_map sh)) u)
      as (victim & Href & Hv).
    exists victim. split; [|exact Hv].
    apply (refines_chain ctx w M (World (w_heap w) (w_tick w1) (w_log w1)) M); [easy..|].
    assert (Hc : (m_count (s_map sh) <? Z.of_nat (S (size M))) = true)
      by (rewrite (mo_count _ _ _ _ Hm); apply Z.ltb_lt; lia).
    rewrite Hc, andb_true_r in Href. exact Href.
Qed.

Lemma storeop_spec (u : U) :
  ∃ mem victim, (plenty (w_heap w) → mem = true) ∧
    refines ctx w M (storeop ctx clock key val opts shardidx hash sh w u)
      (store_spec ctx shardidx now key mem victim val opts (abs sh M) u) ∧
    (∀ k, victim = Some k → ∃ y, <[key := x]> (snd <$> M) !! k = Some y ∧
       (fate now (s_cleartime sh) y = 0 → hash24 ctx k ≠ hash24 ctx key)).
Proof.
  unfold storeop. fold now. destruct store_expires_spec as [-> He]. mstep.
  assert (Hnomem : ∀ r, refines ctx w M r (POGOCACHE_NOMEM, a_tick (abs sh M), [], u) →
    refines ctx w M r (store_spec ctx shardidx now key false None val opts (abs sh M) u)) by easy.
  destruct (entry_new_spec ctx w key val (spec_expires now key opts (abs sh M)) (so_flags opts)
    (s_cas (next_cas sh))) as [[-> [n Hno]]|(p & -> & Hp & Hpr)].
  - exists false, None. split; [intros Hpl; apply Hpl in Hno; [easy|lia]|]. split; [|easy].
    apply Hnomem. cbn [Z.eqb]. unfold store_nomem. cbn. eexists _, _, _, _, M, [].
    split; [reflexivity|]. split; [reflexivity|]. cbn [w_heap w_log]. rewrite app_nil_r.
    split; [now apply next_cas_ok|easy].
  - rewrite (proj2 (Z.eqb_neq p 0)), settime_new by lia. mstep.
    change (s_cas (next_cas sh)) with (a_cas (a_tick (abs sh M))). fold x.
    set (w1 := World (<[p := encode ctx x]> (w_heap w)) _ _).
    assert (Hnm : ∀ w2, w_heap w2 = w_heap w1 → w_log w2 = w_log w1 →
      refines ctx w M (store_nomem (next_cas sh) w2 u p)
        (POGOCACHE_NOMEM, a_tick (abs sh M), [], u))
      by (intros w2 H1 H2; apply (nomem_refines p (encode ctx x)); easy || lia).
    destruct (so_lowmem opts && noevict ctx) eqn:Ev.
    { exists true, None. split; [easy|]. split; [|easy]. unfold store_spec. rewrite Ev. now apply Hnm. }
    assert (Hm0 : map_ok ctx (w_heap w1) (s_map sh) M).
    { apply (map_ok_heap ctx (w_heap w)); [exact Hm|]. now apply entries_alloc. }
    change (s_map (next_cas sh)) with (s_map sh).
    destruct (map_insert_spec ctx w1 (s_map sh) M p x hash Hm0
      (roomy_grow ctx _ _ M Hm0 Hroom) Hpr Hx (lookup_insert_eq _ _ _) (Hsafe _) Hhash)
      as (r & old & m & w2 & -> & Hh2 & Hl2 & Hr & Hr0 & _ & Hpl). mstep.
    destruct r; cbn [negb].
    + destruct (Hr eq_refl) as (-> & Hm1 & Hlt).
      destruct (store_inserted p w2 m u) as (victim & Href & Hv); try easy; [now rewrite Hh2|].
      exists true, victim. easy.
    + destruct (Hr0 eq_refl) as [-> ->]. exists false, None.
      split; [intros Hpl'; apply Hpl; intros t n; apply Hpl'; cbn; now rewrite map_size_insert_None|]. split; [|easy]. apply Hnomem.
      replace (set_map (next_cas sh) (s_map sh)) with (next_cas sh) by reflexivity.
      now apply Hnm.
Qed.
End StoreOp.
