(* ===== verification/Scan.v ===== *)
(** * Scan: sweeping and iterating over a shard

    Scans walk the buckets by index and delete under way, which shifts later
    entries back and may carry an entry from the first buckets around the end
    of the table. [delbkt_shift] says exactly where entries go; from it follows
    that a sweep removes exactly the dead entries and that an iteration that is
    not stopped shows every live entry to the callback. *)

From S2P Require Import Prelude Util Context Entry Heap Map MapInv MapSpec MapOps Shard ShardInv ShardSpec ShardOps.

#[local] Opaque encode hash24 th64 entry_memsize.

(** ** Where a deletion moves the entries *)

(** The items after the hole at [h] moved [t] places on. *)
Definition shifted (n : Z) (bs bs' : list bucket) (h t : Z) : Prop :=
  ∀ s, 0 <= s < n →
    item (slot bs' (h + s)) =
      if s <? t then item (slot bs (h + s + 1))
      else if s =? t then None else item (slot bs (h + s)).

Section Shift.
Context (n k : Z) (Hn : n = 2 ^ k) (Hk : 0 <= k).

Lemma slot_ring bs i j : zlen bs = n → i mod n = j mod n → slot bs i = slot bs j.
Proof. intros Hl Hm. apply slot_eq. now rewrite Hl. Qed.

Lemma mod_offset h s : 0 <= h < n → 0 <= s < n → (h + s) mod n = h → s = 0.
Proof. intros Hh Hs Hm. destruct (decide (s = 0)); [easy|]. exfalso.
  destruct (decide (h + s < n)).
  - rewrite Z.mod_small in Hm by lia. lia.
  - rewrite <- (Z.mod_unique (h + s) n 1 (h + s - n)) in Hm by lia. lia.
Qed.

(** One step of the hole. *)
Lemma shifted_step bs bs' h b t :
  zlen bs = n → zlen bs' = n → 0 <= h < n → 0 <= t → t + 2 < n →
  item b = item (slot bs (h + 1)) →
  shifted n (bset bs h b) bs' ((h + 1) mod n) t → shifted n bs bs' h (t + 1).
Proof.
  intros Hl Hl' Hh Ht Htn Hb Hs1 s Hs.
  assert (Hbs : ∀ r, 0 < r < n → slot (bset bs h b) (h + r) = slot bs (h + r)).
  { intros r Hr. rewrite slot_bset, Hl by lia. destruct (_ =? h) eqn:E; zb; [|easy].
    apply mod_offset in E; lia. }
  destruct (decide (s = 0)) as [->|Hs0].
  - specialize (Hs1 (n - 1) ltac:(lia)).
    rewrite (proj2 (Z.ltb_ge _ _)), (proj2 (Z.eqb_neq _ _)) in Hs1 by lia.
    rewrite (proj2 (Z.ltb_lt _ _)), Z.add_0_r by lia.
    assert (He : ((h + 1) mod n + (n - 1)) mod n = h mod n).
    { rewrite Zplus_mod_idemp_l. replace (h + 1 + (n - 1)) with (h + 1 * n) by lia.
      apply Z_mod_plus_full. }
    rewrite (slot_ring bs' _ h Hl' He) in Hs1. rewrite Hs1, slot_bset, Hl, He by lia.
    now rewrite Z.mod_small, Z.eqb_refl by lia.
  - specialize (Hs1 (s - 1) ltac:(lia)).
    assert (He : ((h + 1) mod n + (s - 1)) mod n = (h + s) mod n)
      by (rewrite Zplus_mod_idemp_l; f_equal; lia).
    assert (He1 : ((h + 1) mod n + (s - 1) + 1) mod n = (h + (s + 1)) mod n)
      by (rewrite <- Z.add_assoc, Zplus_mod_idemp_l; f_equal; lia).
    assert (Hlb : zlen (bset bs h b) = n) by now rewrite zlen_bset.
    rewrite (slot_ring bs' _ _ Hl' He), (slot_ring _ _ _ Hlb He), (slot_ring _ _ _ Hlb He1) in Hs1.
    rewrite Hs1, <- Z.add_assoc.
    destruct (s - 1 <? t) eqn:E1, (s <? t + 1) eqn:E2; zb; try lia; [now rewrite Hbs by lia|].
    destruct (s - 1 =? t) eqn:E3, (s =? t + 1) eqn:E4; zb; try lia; [easy|].
    now rewrite Hbs by lia.
Qed.

Lemma delbkt_loop_len mask : ∀ fuel bs h bs',
  delbkt_loop fuel mask bs h = Some bs' → zlen bs' = zlen bs.
Proof.
  induction fuel as [|fuel IH]; intros bs h bs'; cbn [delbkt_loop]; [easy|].
  destruct (bget bs ((h + 1) .& mask)) as [b|]; [|now intros].
  destruct (bget bs h) as [bh|]; [|now intros]. rewrite !some_bind. case_if.
  - intros [= <-]. apply zlen_bset.
  - intros Hloop%IH. now rewrite zlen_bset in Hloop.
Qed.

Lemma delbkt_loop_shift t : ∀ fuel bs h bs',
  zlen bs = n → 0 <= h < n → (∀ j, 0 <= dib_at bs j <= 255) →
  dib_at bs (h + 1 + Z.of_nat t) <= 1 → Z.of_nat t + 1 < n →
  delbkt_loop fuel (n - 1) bs h = Some bs' →
  ∃ t', 0 <= t' <= Z.of_nat t ∧ shifted n bs bs' h t'.
Proof.
  induction t as [|t IH]; intros [|fuel] bs h bs' Hl Hh Hmax Hstop Htn; cbn [delbkt_loop]; try easy;
    rewrite (land_ring _ k n) by easy;
    assert (Hi : 0 <= (h + 1) mod n < n) by (apply Z.mod_pos_bound; lia);
    rewrite !bget_slot by lia; rewrite !some_bind;
    rewrite (slot_ring bs ((h + 1) mod n) (h + 1)) by (easy || now rewrite Zmod_mod);
    fold (dib_at bs (h + 1)); intros Hloop;
    (destruct (dib_at bs (h + 1) <=? 1) eqn:E;
      [injection Hloop as <-; exists 0; split; [lia|]; intros s Hs;
       rewrite (proj2 (Z.ltb_ge s 0)), slot_bset, Hl by lia;
       destruct (s =? 0) eqn:E0; zb;
       [subst s; rewrite Z.add_0_r, Z.mod_small, Z.eqb_refl by lia; reflexivity|
        destruct ((h + s) mod n =? h) eqn:Em; zb; [|easy];
        exfalso; apply E0; now apply (mod_offset h)]|]).
  - zb. rewrite Z.add_0_r in Hstop. lia.
  - zb. set (b := set_dib (slot bs (h + 1)) (get_dib (slot bs (h + 1)) - 1)) in *.
    assert (Hb : get_dib b = dib_at bs (h + 1) - 1).
    { pose proof (Hmax (h + 1)). cbn. apply u8_id. unfold is_u8, dib_at in *. lia. }
    destruct (IH fuel (bset bs h b) ((h + 1) mod n) bs') as (t1 & Ht1 & Hs1); try easy; try lia.
    + now rewrite zlen_bset.
    + intros j. rewrite dib_bset by lia. pose proof (Hmax (h + 1)). destruct (_ =? h); [lia|easy].
    + rewrite dib_bset, Hl by lia.
      assert (He : ((h + 1) mod n + 1 + Z.of_nat t) mod n = (h + (1 + Z.of_nat (S t))) mod n).
      { rewrite <- Z.add_assoc, Zplus_mod_idemp_l. f_equal. lia. }
      destruct (_ =? h) eqn:E2; zb.
      * rewrite He in E2. apply mod_offset in E2; lia.
      * unfold dib_at in *. rewrite (slot_ring bs _ (h + 1 + Z.of_nat (S t))); try easy.
        rewrite He. f_equal. lia.
    + exists (t1 + 1). split; [lia|].
      apply (shifted_step bs bs' h b t1); try easy; try lia.
      * apply delbkt_loop_len in Hloop. rewrite zlen_bset in Hloop. congruence.
      * unfold dib_at in *. rewrite !item_used by lia. reflexivity.
Qed.
End Shift.

(** What holds of all buckets before [i] still holds after deleting bucket [i]. *)
Lemma delbkt_below ctx h m M i m' (P : option (Z * Z) → Prop) :
  map_ok ctx h m M → 0 <= i < m_nbuckets m → dib_at (m_buckets m) i ≠ 0 →
  delbkt m i = Some m' → P None →
  (∀ j, 0 <= j < i → P (item (slot (m_buckets m) j))) →
  ∀ j, 0 <= j < i → P (item (slot (m_buckets m') j)).
Proof.
  intros Hm Hi Hd Hdel HP HB j Hj. destruct (ring_pow _ _ _ _ Hm) as (k & Hn & Hk).
  pose proof (mo_len _ _ _ _ Hm) as Hl. pose proof (ring_size _ _ _ _ Hm) as H64.
  unfold delbkt in Hdel. rewrite bget_slot, some_bind in Hdel by lia.
  set (bs := m_buckets m) in *. set (n := m_nbuckets m) in *.
  set (bs1 := bset bs i (set_dib (slot bs i) 0)) in *.
  rewrite (mo_mask _ _ _ _ Hm) in Hdel. fold n in Hdel.
  destruct (delbkt_loop _ _ _ _) as [bs'|] eqn:Hloop; [|easy].
  rewrite some_bind in Hdel. injection Hdel as <-. cbn [set_count set_buckets m_buckets].
  assert (Hl1 : zlen bs1 = n) by (unfold bs1; now rewrite zlen_bset).
  assert (Hd1 : ∀ q, dib_at bs1 q = if q mod n =? i then 0 else dib_at bs q).
  { intros q. unfold bs1. rewrite dib_bset, Hl by lia. now destruct (_ =? i). }
  destruct (ring_first_free bs (i + 1) ltac:(lia) (free_bucket _ _ _ _ Hm)) as (t & Ht & Hft & _).
  assert (Htn : t + 1 < n).
  { destruct (decide (t = n - 1)) as [->|]; [|lia]. exfalso. apply Hd. rewrite <- Hft.
    unfold dib_at. f_equal. apply slot_eq. rewrite Hl.
    replace (i + 1 + (n - 1)) with (i + 1 * n) by lia. symmetry. apply Z_mod_plus_full. }
  assert (Hmax : ∀ q, 0 <= dib_at bs1 q <= 255).
  { intros q. rewrite Hd1. pose proof (dib_le_254 _ _ _ _ Hm q) as H254. fold bs in H254.
    destruct (mo_rh _ _ _ _ Hm) as [_ Hr]. destruct (Hr q) as [H0 _]. fold bs in H0.
    destruct (_ =? i); lia. }
  assert (Hstop : dib_at bs1 (i + 1 + Z.of_nat (Z.to_nat t)) <= 1).
  { rewrite Z2Nat.id, Hd1 by lia. destruct (_ =? i); lia. }
  destruct (delbkt_loop_shift n k Hn Hk (Z.to_nat t) _ bs1 i bs' Hl1 Hi Hmax Hstop ltac:(lia) Hloop)
    as (t' & Ht' & Hsh). rewrite Z2Nat.id in Ht' by lia. specialize (Hsh (j - i + n) ltac:(lia)).
  assert (Hl' : zlen bs' = n) by (apply delbkt_loop_len in Hloop; congruence).
  assert (Hwrap : ∀ l q, zlen l = n → slot l (q + 1 * n) = slot l q).
  { intros l q Hq. apply slot_eq. rewrite Hq. apply Z_mod_plus_full. }
  replace (i + (j - i + n)) with (j + 1 * n) in Hsh by lia.
  replace (j + 1 * n + 1) with (j + 1 + 1 * n) in Hsh by lia.
  rewrite !Hwrap in Hsh by easy. rewrite Hsh. unfold bs1. 
  destruct (j - i + n <? t') eqn:E1; zb.
  - rewrite slot_bset_ne by lia. apply HB. lia.
  - destruct (_ =? t'); [easy|]. rewrite slot_bset_ne by lia. now apply HB.
Qed.

(** ** Sweeping *)

Section Sweep.
Context (ctx : pgctx) (shardidx now cleartime : Z).

Definition dead (x : ent) : Prop := fate now cleartime x ≠ 0.

#[local] Instance dead_dec x : Decision (dead x).
Proof. unfold dead. apply _. Defined.

(** An empty bucket, or one whose entry is alive. *)
Definition clean (M : content) (o : option (Z * Z)) : Prop :=
  match o with
  | None => True
  | Some (p, _) => ∃ k x, M !! k = Some (p, x) ∧ ¬ dead x
  end.

Lemma clean_delete M k p x o :
  M !! k = Some (p, x) → dead x → clean M o → clean (delete k M) o.
Proof.
  intros Hk Hd. destruct o as [[q hh]|]; [|easy]. cbn. intros (k' & y & Hk' & Hy).
  exists k', y. split; [|easy]. rewrite lookup_delete_ne; [easy|]. intros ->.
  assert (x = y) by congruence. now subst.
Qed.

(** When all buckets are clean nothing is dead. *)
Lemma clean_all h m M :
  map_ok ctx h m M →
  (∀ j, 0 <= j < m_nbuckets m → clean M (item (slot (m_buckets m) j))) →
  ∀ k p x, M !! k = Some (p, x) → ¬ dead x.
Proof.
  intros Hm Hc k p x Hk. destruct (entry_slot ctx h m M Hm k p x Hk) as (j & Hj & Hd & Hp & _).
  rewrite (mo_len _ _ _ _ Hm) in Hj. specialize (Hc j Hj). rewrite item_used in Hc by exact Hd.
  destruct Hc as (k' & y & Hk' & Hy). rewrite Hp in Hk'.
  destruct (entries_inj _ _ _ _ _ _ _ _ (mo_entries _ _ _ _ Hm) Hk Hk') as [_ ->]. easy.
Qed.

Definition cleared_among (xs : list ent) : Z :=
  Z.of_nat (length (filter (λ x, fate now cleartime x = POGOCACHE_REASON_CLEARED) xs)).

Definition reports (xs : list ent) : list event :=
  xs ≫= λ x, report ctx shardidx (fate now cleartime x) now x.

(** The abstract state without its dead entries, of which [drops] is a list. *)
Definition sweep_spec (drops : list ent) (a : astate) : astate :=
  AState (a_cas a) (a_cleartime a) (a_clearcount a - cleared_among drops)
    (filter (λ kx, ¬ dead kx.2) (a_ents a)).

Definition dead_ents (a : astate) : list ent :=
  (map_to_list (filter (λ kx, dead kx.2) (a_ents a))).*2.

Lemma dead_ents_delete sh m M k p x :
  M !! k = Some (p, x) → dead x →
  dead_ents (abs sh M) ≡ₚ x :: dead_ents (abs (set_map sh m) (delete k M)).
Proof.
  intros Hk Hd. unfold dead_ents, abs. cbn [a_ents].
  assert (Hx : (snd <$> M : gmap bytes ent) !! k = Some x) by now rewrite lookup_fmap, Hk.
  rewrite fmap_delete. generalize dependent (snd <$> M : gmap bytes ent). intros E Hx.
  rewrite map_filter_delete.
  rewrite <- (map_to_list_delete (filter (λ kx, dead kx.2) E) k x); [easy|].
  now apply map_lookup_filter_Some.
Qed.

Lemma alive_delete (E : gmap bytes ent) k x :
  E !! k = Some x → dead x →
  filter (λ kx : bytes * ent, ¬ dead kx.2) (delete k E) = filter (λ kx, ¬ dead kx.2) E.
Proof.
  intros Hx Hd. rewrite map_filter_delete. apply delete_id.
  apply map_lookup_filter_None. right. intros y Hy. cbn. assert (x = y) as <- by congruence.
  intros Hn. now apply Hn.
Qed.

Lemma cleared_cons x xs :
  cleared_among (x :: xs) =
  (if fate now cleartime x =? POGOCACHE_REASON_CLEARED then 1 else 0) + cleared_among xs.
Proof.
  unfold cleared_among. rewrite filter_cons. case_if; case_decide; try congruence; cbn; lia.
Qed.

Lemma no_dead sh M :
  (∀ k p x, M !! k = Some (p, x) → ¬ dead x) →
  dead_ents (abs sh M) = [] ∧ sweep_spec [] (abs sh M) = abs sh M.
Proof.
  intros Hall. assert (HE : ∀ k x, (snd <$> M : gmap bytes ent) !! k = Some x → ¬ dead x).
  { intros k x. rewrite lookup_fmap. destruct (M !! k) as [[q y]|] eqn:Hk; [|easy].
    intros [= <-]. eauto. }
  unfold dead_ents, sweep_spec, abs. cbn [a_ents a_cas a_cleartime a_clearcount].
  generalize dependent (snd <$> M : gmap bytes ent). intros E HE. split.
  - assert (filter (λ kx : bytes * ent, dead kx.2) E = ∅) as ->; [|easy].
    apply map_empty. intros k. apply map_lookup_filter_None. right. intros x Hk. now apply (HE k).
  - change (cleared_among []) with 0. rewrite Z.sub_0_r. f_equal. apply map_filter_id.
    intros k x Hk. now apply (HE k).
Qed.

(** One entry is unlinked and freed. *)
Lemma drop_shard sh w M k p x i :
  shard_ok ctx (w_heap w) sh M → M !! k = Some (p, x) →
  0 <= i < m_nbuckets (s_map sh) → dib_at (m_buckets (s_map sh)) i ≠ 0 →
  get_entry (slot (m_buckets (s_map sh)) i) = p →
  get_hash (slot (m_buckets (s_map sh)) i) = hash24 ctx k →
  ∃ m, delbkt (s_map sh) i = Some m ∧ m_nbuckets m = m_nbuckets (s_map sh) ∧
    map_ok ctx (delete p (w_heap w)) m (delete k M) ∧
    others (delete p (w_heap w)) (delete k M) = others (w_heap w) M.
Proof.
  intros Hok Hk Hi Hd Hp Hh. pose proof (sk_map _ _ _ _ Hok) as Hm.
  pose proof (mo_entries _ _ _ _ Hm) as Hent.
  destruct (delbkt_map ctx _ _ _ Hm i k p x) as (bs' & H1 & H2); try easy.
  eexists. split; [exact H1|]. split; [reflexivity|].
  split; [|now apply (others_forget ctx _ _ _ _ x)].
  apply (map_ok_heap ctx (w_heap w)); [exact H2|]. now apply (entries_delete_free ctx _ _ _ _ x).
Qed.

Lemma size_delete (M : content) k v : M !! k = Some v → size M = S (size (delete k M)).
Proof.
  intros Hk. rewrite map_size_delete_Some by eauto.
  assert (size M ≠ 0%nat) by (intros ?%map_size_empty_inv; subst; now rewrite lookup_empty in Hk).
  lia.
Qed.

Lemma sweep_loop_spec fuel : ∀ i swept kept sh w M,
  shard_ok ctx (w_heap w) sh M → s_cleartime sh = cleartime → is_u64 swept →
  0 <= i <= m_nbuckets (s_map sh) →
  m_nbuckets (s_map sh) - i + Z.of_nat (size M) < Z.of_nat fuel →
  (∀ j, 0 <= j < i → clean M (item (slot (m_buckets (s_map sh)) j))) →
  ∃ kept' sh' w' M' drops,
    sweep_loop fuel ctx shardidx now i swept kept sh w =
      Some (u64 (swept + Z.of_nat (length drops)), kept', sh', w') ∧
    shard_ok ctx (w_heap w') sh' M' ∧ others (w_heap w') M' = others (w_heap w) M ∧
    w_log w' = w_log w ++ reports drops ∧ drops ≡ₚ dead_ents (abs sh M) ∧
    abs sh' M' = sweep_spec drops (abs sh M).
Proof.
  induction fuel as [|fuel IH]; intros i swept kept sh w M Hok Hct Hsw Hi Hf Hclean;
    pose proof (sk_map _ _ _ _ Hok) as Hm; [lia|]. cbn [sweep_loop].
  destruct (i <? m_nbuckets (s_map sh)) eqn:E; zb.
  2: { exists kept, sh, w, M, []. rewrite Z.add_0_r, app_nil_r, u64_id by easy.
       pose proof (clean_all _ _ M Hm ltac:(intros; apply Hclean; lia)) as Hall.
       do 4 (split; [easy|]).
       destruct (no_dead sh M Hall) as [-> ->]. easy. }
  rewrite bget_slot by (rewrite (mo_len _ _ _ _ Hm); lia). rewrite some_bind.
  set (b := slot (m_buckets (s_map sh)) i).
  destruct (get_dib b =? 0) eqn:Ed; zb.
  { apply IH; try easy; try lia. intros j Hj. destruct (decide (j = i)) as [->|].
    - now rewrite item_empty.
    - apply Hclean. lia. }
  destruct (slot_entry ctx _ _ M Hm _ Ed) as (k & p & x & Hk & Hp & Hh). fold b in Hp, Hh.
  destruct (mo_entries _ _ _ _ Hm _ _ _ Hk) as (Hkey & Hx & Hpe & Hpr).
  rewrite Hp, Hpe, some_bind. cbv zeta. rewrite encode_expires, encode_time, Hct by easy.
  change (entry_alive_exp (e_expires x) (e_time x) now cleartime) with (fate now cleartime x).
  destruct (fate now cleartime x =? 0) eqn:Ef; zb.
  { apply IH; try easy; try lia. intros j Hj. destruct (decide (j = i)) as [->|]; [|apply Hclean; lia].
    rewrite item_used by exact Ed. fold b. rewrite Hp. exists k, x. split; [easy|].
    unfold dead. tauto. }
  rewrite encode_extract by easy. cbn [x_key].
  rewrite notify_encode by easy. change (s_map (uncount sh _)) with (s_map sh).
  destruct (drop_shard sh w M k p x i) as (m & Hdel & Hn & Hm1 & Ho1); try easy; try lia.
  rewrite Hdel, some_bind.
  rewrite (entry_free_some _ p (encode ctx x)) by (easy || lia). rewrite some_bind.
  cbn [w_heap w_tick w_log]. replace (i - 1 + 1) with i by lia. pose proof (size_delete M k _ Hk).
  set (w1 := World (delete p (w_heap w)) (w_tick w)
    (w_log w ++ report ctx shardidx (fate now cleartime x) now x)).
  set (sh1 := set_map (uncount sh (fate now cleartime x)) m) in *.
  destruct (IH i (u64 (swept + 1)) kept sh1 w1 (delete k M))
    as (kept' & sh' & w' & M' & drops & H1 & H2 & H3 & H4 & H5 & H6); try easy.
  - split; [exact Hm1|apply Hok].
  - apply u64_range.
  - cbn. lia.
  - cbn. lia.
  - cbn [s_map sh1 set_map]. apply (delbkt_below ctx (w_heap w) (s_map sh) M i); try easy; try lia.
    intros j Hj. now apply (clean_delete M k p x), Hclean.
  - exists kept', sh', w', M', (x :: drops). rewrite H1, H3, H4, H6.
    split; [|split; [easy|split; [easy|] ] ].
    + do 4 f_equal. unfold u64. rewrite Zplus_mod_idemp_l. f_equal. cbn [length]. lia.
    + split; [cbn; now rewrite <- app_assoc|].
      split; [rewrite (dead_ents_delete sh m M k p x), H5 by easy; reflexivity|].
      unfold sweep_spec. rewrite cleared_cons. unfold sh1, abs. cbn. f_equal; [lia|].
      rewrite fmap_delete. apply (alive_delete _ k x); [|easy]. now rewrite lookup_fmap, Hk.
Qed.
End Sweep.

(** Shrinking after a scan keeps the shard. *)
Lemma shrink_shard `{Env} ctx w sh M multi :
  shard_ok ctx (w_heap w) sh M → ∃ m w',
    tryshrink ctx w (s_map sh) multi = Some (m, w') ∧ w_heap w' = w_heap w ∧ w_log w' = w_log w ∧
    shard_ok ctx (w_heap w) (set_map sh m) M.
Proof.
  intros [Hm Hc]. destruct (tryshrink_spec ctx w (s_map sh) M multi Hm)
    as (m & w' & H1 & H2 & H3 & H4 & _). exists m, w'. easy.
Qed.

Lemma scan_fuel_enough ctx h sh M :
  shard_ok ctx h sh M →
  m_nbuckets (s_map sh) - 0 + Z.of_nat (size M) < Z.of_nat (scan_fuel sh).
Proof.
  intros [Hm _]. unfold scan_fuel. pose proof (mo_len _ _ _ _ Hm) as Hl. unfold zlen in Hl.
  pose proof (growat_lt _ _ _ _ Hm). pose proof (mo_count _ _ _ _ Hm).
  pose proof (mo_load _ _ _ _ Hm). lia.
Qed.

Lemma sweepop_spec `{Env} ctx shardidx now swept kept sh w M :
  shard_ok ctx (w_heap w) sh M → is_u64 swept →
  ∃ kept' sh' w' M' drops,
    sweepop ctx shardidx now swept kept sh w =
      Some (u64 (swept + Z.of_nat (length drops)), kept', sh', w') ∧
    shard_ok ctx (w_heap w') sh' M' ∧ others (w_heap w') M' = others (w_heap w) M ∧
    w_log w' = w_log w ++ reports ctx shardidx now (s_cleartime sh) drops ∧
    drops ≡ₚ dead_ents now (s_cleartime sh) (abs sh M) ∧
    abs sh' M' = sweep_spec now (s_cleartime sh) drops (abs sh M).
Proof.
  intros Hok Hsw. unfold sweepop.
  destruct (sweep_loop_spec ctx shardidx now (s_cleartime sh) (scan_fuel sh) 0 swept kept sh w M)
    as (kept' & sh' & w' & M' & drops & -> & H2 & H3 & H4 & H5 & H6); try easy.
  - pose proof (ring_size _ _ _ _ (sk_map _ _ _ _ Hok)). lia.
  - now apply (scan_fuel_enough ctx (w_heap w)).
  - intros j Hj. lia.
  - mstep. destruct (shrink_shard ctx w' sh' M' true H2) as (m & w2 & -> & Hh & Hl & Hok2). mstep.
    exists kept', (set_map sh' m), w2, M', drops. rewrite Hh, Hl. easy.
Qed.

(** ** Iterating *)

Section Iter.
Context `{Env} {U : Type} (ctx : pgctx) (shardidx now cleartime : Z) (opts : iter_opts U).

(** The callback on a list of entries, in order. *)
Fixpoint visit (xs : list ent) (u : U) : list Z * U :=
  match xs with
  | [] => ([], u)
  | x :: xs =>
      let '(action, u) :=
        match io_entry opts with
        | None => (POGOCACHE_ITER_CONTINUE, u)
        | Some cb => cb (ent_view shardidx now x) u
        end in
      let '(actions, u) := visit xs u in (action :: actions, u)
  end.

(** An entry whose action is to delete it. *)
Definition deletes (action : Z) : bool := negb (action .& POGOCACHE_ITER_DELETE =? 0).
Definition stops (action : Z) : bool := negb (action .& POGOCACHE_ITER_STOP =? 0).

(** The keys deleted by the actions on the visited entries. *)
Definition deleted_keys (xs : list ent) (actions : list Z) : list bytes :=
  zip xs actions ≫= λ xa, if deletes xa.2 then [e_key xa.1] else [].

(** Deletes the keys from the content. *)
Definition drop_keys (ks : list bytes) (M : content) : content := foldr delete M ks.

(** A bucket is seen: empty, dead, or shown to the callback. *)
Definition seen (M : content) (vs : list bytes) (o : option (Z * Z)) : Prop :=
  match o with
  | None => True
  | Some (p, _) => ∀ k x, M !! k = Some (p, x) → fate now cleartime x ≠ 0 ∨ k ∈ vs
  end.

(** What an iteration from a shard with content [M] may do, when the keys
    [vs] were shown before: it shows the live entries [xs] to the callback,
    deletes those it says, and stops early only if it says so. *)
Definition iterated (vs : list bytes) (sh : shard_t) (w : world) (M : content) (u : U)
    (res : option (Z * shard_t * world * U)) : Prop :=
  ∃ status sh' w' u' M' xs actions,
    res = Some (status, sh', w', u') ∧ visit xs u = (actions, u') ∧
    Forall (λ x, ∃ p, M !! e_key x = Some (p, x) ∧ fate now cleartime x = 0) xs ∧
    M' = drop_keys (deleted_keys xs actions) M ∧
    abs sh' M' = AState (s_cas sh) (s_cleartime sh) (s_clearcount sh) (snd <$> M') ∧
    shard_ok ctx (w_heap w') sh' M' ∧ others (w_heap w') M' = others (w_heap w) M ∧
    w_log w' = w_log w ∧
    (status = POGOCACHE_FINISHED ∧ Forall (λ a, stops a = false) actions ∧
       (∀ k p x, M !! k = Some (p, x) → fate now cleartime x = 0 →
          k ∈ vs ∨ k ∈ e_key <$> xs) ∨
     status = POGOCACHE_CANCELED ∧ ∃ acts a, actions = acts ++ [a] ∧ stops a = true).

Lemma drop_keys_delete ks M k : drop_keys ks (delete k M) = delete k (drop_keys ks M).
Proof.
  unfold drop_keys. induction ks as [|k' ks IH]; [easy|]. cbn. rewrite IH.
  apply delete_delete.
Qed.

Lemma drop_keys_cons x xs a acts M :
  drop_keys (deleted_keys (x :: xs) (a :: acts)) M =
  drop_keys (deleted_keys xs acts) (if deletes a then delete (e_key x) M else M).
Proof.
  unfold deleted_keys. cbn. destruct (deletes a); cbn; [|easy]. now rewrite drop_keys_delete.
Qed.

(** One entry was shown and the loop went on from content [M1]. *)
Lemma iterated_step vs sh w M u sh1 w1 M1 u1 x p action res :
  M !! e_key x = Some (p, x) → fate now cleartime x = 0 →
  match io_entry opts with
  | None => (POGOCACHE_ITER_CONTINUE, u)
  | Some cb => cb (ent_view shardidx now x) u
  end = (action, u1) →
  M1 = (if deletes action then delete (e_key x) M else M) →
  s_cas sh1 = s_cas sh → s_cleartime sh1 = s_cleartime sh → s_clearcount sh1 = s_clearcount sh →
  others (w_heap w1) M1 = others (w_heap w) M → w_log w1 = w_log w → stops action = false →
  iterated (e_key x :: vs) sh1 w1 M1 u1 res → iterated vs sh w M u res.
Proof.
  intros Hk Hf Hcb HM1 E1 E2 E3 Ho Hl Hstop
    (status & sh' & w' & u' & M' & xs & acts & A1 & A2 & A3 & A4 & A5 & A6 & A7 & A8 & A9).
  exists status, sh', w', u', M', (x :: xs), (action :: acts). split; [easy|].
  split; [cbn; rewrite Hcb, A2; easy|]. split.
  { constructor; [eauto|]. eapply Forall_impl; [exact A3|]. intros y (q & Hy & Hfy).
    exists q. split; [|easy]. subst M1. destruct (deletes action); [|easy].
    now apply lookup_delete_Some in Hy as [_ Hy]. }
  split; [now rewrite drop_keys_cons, <- HM1|]. rewrite <- E1, <- E2, <- E3, A7, A8, Ho, Hl.
  do 4 (split; [easy|]). destruct A9 as [(-> & Hns & Hall)|(-> & acts' & a & -> & Ha)].
  - left. split; [easy|]. split; [now constructor|]. intros k q y Hky Hfy.
    destruct (decide (k = e_key x)) as [->|Hne]; [right; constructor|].
    destruct (Hall k q y) as [Hin|Hin]; try easy.
    + subst M1. destruct (deletes action); [now rewrite lookup_delete_ne|easy].
    + apply elem_of_cons in Hin as [->|Hin]; [easy|now left].
    + right. now constructor.
  - right. split; [easy|]. exists (action :: acts'), a. easy.
Qed.

(** The callback stopped the iteration at this entry. *)
Lemma iterated_last vs sh w M u sh1 w1 M1 u1 x p action :
  M !! e_key x = Some (p, x) → fate now cleartime x = 0 →
  match io_entry opts with
  | None => (POGOCACHE_ITER_CONTINUE, u)
  | Some cb => cb (ent_view shardidx now x) u
  end = (action, u1) →
  M1 = (if deletes action then delete (e_key x) M else M) →
  s_cas sh1 = s_cas sh → s_cleartime sh1 = s_cleartime sh → s_clearcount sh1 = s_clearcount sh →
  shard_ok ctx (w_heap w1) sh1 M1 →
  others (w_heap w1) M1 = others (w_heap w) M → w_log w1 = w_log w → stops action = true →
  iterated vs sh w M u (Some (POGOCACHE_CANCELED, sh1, w1, u1)).
Proof.
  intros Hk Hf Hcb HM1 E1 E2 E3 Hok Ho Hl Hstop.
  exists POGOCACHE_CANCELED, sh1, w1, u1, M1, [x], [action]. split; [easy|].
  split; [cbn; now rewrite Hcb|]. split; [constructor; eauto|].
  split; [now rewrite drop_keys_cons|]. split; [unfold abs; congruence|].
  do 3 (split; [easy|]). right. split; [easy|]. now exists [], action.
Qed.

Lemma seen_mono M M1 vs k o :
  (∀ k v, M1 !! k = Some v → M !! k = Some v) → seen M vs o → seen M1 (k :: vs) o.
Proof.
  intros Hsub. destruct o as [[q hh]|]; [|easy]. cbn. intros Hs k' y Hk'.
  destruct (Hs k' y (Hsub _ _ Hk')) as [?|?]; [now left|]. right. now constructor.
Qed.

(** The body of the loop for a live entry, given the rest of the loop. *)
Lemma iter_action fuel i vs sh w M u x p action u1 :
  shard_ok ctx (w_heap w) sh M → M !! e_key x = Some (p, x) → fate now cleartime x = 0 →
  0 <= i < m_nbuckets (s_map sh) → dib_at (m_buckets (s_map sh)) i ≠ 0 →
  get_entry (slot (m_buckets (s_map sh)) i) = p →
  get_hash (slot (m_buckets (s_map sh)) i) = hash24 ctx (e_key x) →
  match io_entry opts with
  | None => (POGOCACHE_ITER_CONTINUE, u)
  | Some cb => cb (ent_view shardidx now x) u
  end = (action, u1) →
  (∀ u', iterated (e_key x :: vs) sh w M u'
     (iter_loop fuel ctx shardidx now opts (i + 1) sh w u')) →
  (∀ m, delbkt (s_map sh) i = Some m → m_nbuckets m = m_nbuckets (s_map sh) →
     let w1 := World (delete p (w_heap w)) (w_tick w) (w_log w) in
     shard_ok ctx (w_heap w1) (set_map sh m) (delete (e_key x) M) →
     iterated (e_key x :: vs) (set_map sh m) w1 (delete (e_key x) M) u1
       (iter_loop fuel ctx shardidx now opts i (set_map sh m) w1 u1)) →
  iterated vs sh w M u
    (if action =? POGOCACHE_ITER_CONTINUE then
       iter_loop fuel ctx shardidx now opts (i + 1) sh w u1
     else
       '(i, sh, w) ←
         (if negb (action .& POGOCACHE_ITER_DELETE =? 0) then
            m ← delbkt (s_map sh) i;
            w ← entry_free w p;
            Some (i - 1, set_map sh m, w)
          else Some (i, sh, w));
       if negb (action .& POGOCACHE_ITER_STOP =? 0) then
         Some (POGOCACHE_CANCELED, sh, w, u1)
       else iter_loop fuel ctx shardidx now opts (i + 1) sh w u1).
Proof.
  intros Hok Hk Hf Hi Hd Hp Hh Hcb Hkeep Hgo.
  destruct (mo_entries _ _ _ _ (sk_map _ _ _ _ Hok) _ _ _ Hk) as (_ & _ & Hpe & Hpr).
  destruct (action =? POGOCACHE_ITER_CONTINUE) eqn:Ea; zb.
  { subst action. now apply (iterated_step vs sh w M u sh w M u1 x p POGOCACHE_ITER_CONTINUE). }
  fold (deletes action) (stops action). destruct (deletes action) eqn:Edel.
  - destruct (drop_shard ctx sh w M (e_key x) p x i) as (m & Hdel & Hn & Hm1 & Ho1); try easy.
    rewrite Hdel, some_bind.
    rewrite (entry_free_some _ p (encode ctx x)) by (easy || lia). rewrite !some_bind.
    assert (Hok1 : shard_ok ctx (delete p (w_heap w)) (set_map sh m) (delete (e_key x) M))
      by (split; [exact Hm1|apply Hok]).
    destruct (stops action) eqn:Est.
    + apply (iterated_last vs sh w M u _ _ (delete (e_key x) M) u1 x p action); try easy.
      now rewrite Edel.
    + replace (i - 1 + 1) with i by lia.
      apply (iterated_step vs sh w M u (set_map sh m)
        (World (delete p (w_heap w)) (w_tick w) (w_log w)) (delete (e_key x) M) u1 x p action);
        try easy; [now rewrite Edel|]. now apply Hgo.
  - rewrite some_bind. destruct (stops action) eqn:Est.
    + apply (iterated_last vs sh w M u _ _ M u1 x p action); try easy. now rewrite Edel.
    + apply (iterated_step vs sh w M u sh w M u1 x p action); try easy. now rewrite Edel.
Qed.

Lemma iter_loop_spec fuel : ∀ i vs sh w M u,
  shard_ok ctx (w_heap w) sh M → s_cleartime sh = cleartime →
  0 <= i <= m_nbuckets (s_map sh) →
  m_nbuckets (s_map sh) - i + Z.of_nat (size M) < Z.of_nat fuel →
  (∀ j, 0 <= j < i → seen M vs (item (slot (m_buckets (s_map sh)) j))) →
  iterated vs sh w M u (iter_loop fuel ctx shardidx now opts i sh w u).
Proof.
  induction fuel as [|fuel IH]; intros i vs sh w M u Hok Hct Hi Hf Hseen;
    pose proof (sk_map _ _ _ _ Hok) as Hm; [lia|]. cbn [iter_loop].
  destruct (i <? m_nbuckets (s_map sh)) eqn:E; zb.
  2: { exists POGOCACHE_FINISHED, sh, w, u, M, [], []. do 8 (split; [easy|]).
       left. split; [easy|]. split; [easy|]. intros k p x Hk Hfx. left.
       destruct (entry_slot ctx _ _ M Hm k p x Hk) as (j & Hj & Hd & Hp & _).
       rewrite (mo_len _ _ _ _ Hm) in Hj. specialize (Hseen j ltac:(lia)).
       rewrite item_used in Hseen by exact Hd. rewrite Hp in Hseen.
       destruct (Hseen k x Hk); [easy|easy]. }
  rewrite bget_slot by (rewrite (mo_len _ _ _ _ Hm); lia). rewrite some_bind.
  set (b := slot (m_buckets (s_map sh)) i).
  assert (Hnext : ∀ vs', (∀ j, 0 <= j < i → seen M vs' (item (slot (m_buckets (s_map sh)) j))) →
    seen M vs' (item b) → ∀ u', iterated vs' sh w M u'
      (iter_loop fuel ctx shardidx now opts (i + 1) sh w u')).
  { intros vs' Hvs Hb u'. apply IH; try easy; try lia. intros j Hj.
    destruct (decide (j = i)) as [->|]; [exact Hb|apply Hvs; lia]. }
  destruct (get_dib b =? 0) eqn:Ed; zb; [apply Hnext; [easy|now rewrite item_empty]|].
  destruct (slot_entry ctx _ _ M Hm _ Ed) as (k & p & x & Hk & Hp & Hh). fold b in Hp, Hh.
  destruct (mo_entries _ _ _ _ Hm _ _ _ Hk) as (Hkey & Hx & Hpe & Hpr).
  rewrite Hp, Hpe, some_bind. cbv zeta. rewrite encode_alive, encode_extract, Hct by easy.
  cbn [x_key]. rewrite view_of_encode by easy.
  assert (Hinj : ∀ k' y, M !! k' = Some (p, y) → k' = k ∧ y = x).
  { intros k' y Hk'. destruct (entries_inj _ _ _ _ _ _ _ _ (mo_entries _ _ _ _ Hm) Hk Hk').
    now subst. }
  destruct (fate now cleartime x =? 0) eqn:Ef; zb; cbn [negb].
  2: { apply Hnext; [easy|]. rewrite item_used by exact Ed. fold b. rewrite Hp.
       intros k' y Hk'. left. destruct (Hinj k' y Hk') as [_ ->]. easy. }
  destruct (match io_entry opts with Some _ => _ | None => _ end) as [action u1] eqn:Ecb.
  subst k.
  assert (Hkeep : ∀ u', iterated (e_key x :: vs) sh w M u'
    (iter_loop fuel ctx shardidx now opts (i + 1) sh w u')).
  { apply Hnext; [intros j Hj; now apply (seen_mono M M vs), Hseen|].
    rewrite item_used by exact Ed. fold b. rewrite Hp. intros k' y Hk'.
    destruct (Hinj k' y Hk') as [-> _]. right. constructor. }
  apply (iter_action fuel i vs sh w M u x p action u1); try easy; try lia.
  intros m Hdel Hn w1 Hok1. apply IH; try easy; pose proof (size_delete M (e_key x) _ Hk);
    [cbn; lia|cbn; lia|].
  apply (delbkt_below ctx (w_heap w) (s_map sh) M i); try easy; try lia.
  intros j Hj. apply (seen_mono M); [|now apply Hseen].
  intros k' v Hv. now apply lookup_delete_Some in Hv as [_ Hv].
Qed.
End Iter.

Lemma iterop_spec `{Env} {U : Type} ctx shardidx now (opts : iter_opts U) sh w M u :
  shard_ok ctx (w_heap w) sh M →
  iterated ctx shardidx now (s_cleartime sh) opts [] sh w M u
    (iterop ctx shardidx now opts sh w u).
Proof.
  intros Hok. unfold iterop.
  destruct (iter_loop_spec ctx shardidx now (s_cleartime sh) opts (scan_fuel sh) 0 [] sh w M u)
    as (status & sh' & w' & u' & M' & xs & actions & -> & H2 & H3 & H4 & H5 & H6 & H7 & H8 & H9);
    try easy.
  - pose proof (ring_size _ _ _ _ (sk_map _ _ _ _ Hok)). lia.
  - now apply (scan_fuel_enough ctx (w_heap w)).
  - intros j Hj. lia.
  - mstep. destruct (shrink_shard ctx w' sh' M' true H6) as (m & w2 & -> & Hh & Hl & Hok2). mstep.
    exists status, (set_map sh' m), w2, u', M', xs, actions. rewrite Hh, Hl. easy.
Qed.

(** ** Polling *)

(** The number of dead entries among those polled is at most their number,
    which the poll size and the entries of the shard bound. *)
Lemma sweeppoll_loop_spec ctx h sh M now pollsize bidx fuel : ∀ i count dead,
  map_ok ctx h (s_map sh) M → 0 <= i <= m_nbuckets (s_map sh) →
  m_nbuckets (s_map sh) - i < Z.of_nat fuel → 0 <= dead <= count → count <= Z.max 0 pollsize →
  ∃ count' dead', sweeppoll_loop fuel h (s_map sh) (s_cleartime sh) now pollsize bidx i count dead =
      Some (count', dead') ∧
    0 <= dead' <= count' ∧ count' <= Z.max 0 pollsize ∧ count' <= count + (m_nbuckets (s_map sh) - i).
Proof.
  induction fuel as [|fuel IH]; intros i count dead Hm Hi Hf Hd Hc; [lia|].
  cbn [sweeppoll_loop]. pose proof (ring_size _ _ _ _ Hm) as H64.
  destruct (i <? m_nbuckets (s_map sh)) eqn:E; zb; cbn [andb].
  2: { exists count, dead. split; [easy|]. lia. }
  destruct (count <? pollsize) eqn:E2; zb.
  2: { exists count, dead. split; [easy|]. lia. }
  rewrite bget_slot by (rewrite (mo_len _ _ _ _ Hm); apply Z.mod_pos_bound; lia). mstep.
  set (b := slot _ _). destruct (get_dib b =? 0) eqn:Ed; zb.
  { destruct (IH (i + 1) count dead) as (c & d & H1 & H2); try easy; try lia.
    exists c, d. split; [easy|]. lia. }
  destruct (slot_entry ctx _ _ M Hm _ Ed) as (k & p & x & Hk & Hp & Hh). fold b in Hp.
  destruct (mo_entries _ _ _ _ Hm _ _ _ Hk) as (_ & _ & Hpe & _). rewrite Hp, Hpe. mstep.
  set (d := if negb _ then 1 else 0). assert (0 <= d <= 1) by (unfold d; destruct (negb _); lia).
  destruct (IH (i + 1) (count + 1) (dead + d)) as (c & d' & H1 & H2); try easy; try lia.
  exists c, d'. split; [easy|]. lia.
Qed.
