(* ===== verification/Samples.v ===== *)
(** * Samples: concrete states on which the theorems are exercised

    A first-fit allocator that satisfies the assumptions on [malloc], an empty
    shard as [shard_init] leaves it, and a shard that holds one entry. *)

From S2P Require Import Prelude Util Context Entry Heap Map MapInv MapSpec MapOps Shard ShardInv ShardSpec ShardOps.

(** ** Initialisation establishes the invariant *)

Lemma probe_safe_empty ctx : probe_safe ctx ∅.
Proof. apply probe_safe_small. rewrite map_size_empty. lia. Qed.

Lemma map_init_ok `{Env} ctx h w w' cap m total entsize :
  ctx_ok ctx → cap_ok cap → map_init ctx w total entsize cap = (true, m, w') →
  map_ok ctx h m ∅ ∧ w' = World (w_heap w) (S (w_tick w)) (w_log w).
Proof.
  intros Hctx Hcap. pose proof (cap_ok_range cap Hcap).
  destruct (growat_facts ctx cap Hctx Hcap) as (Hg & _). unfold map_init, do_malloc.
  destruct (env_malloc _ _ _); [|easy]. intros [= <- <-]. split; [|easy].
  split; cbn [m_cap m_nbuckets m_count m_mask m_growat m_shrinkat m_buckets]; try easy.
  - unfold zlen. rewrite repeat_length. lia.
  - lia.
  - apply rh_zbuckets. lia.
  - rewrite items_zbuckets. unfold content_items. now rewrite map_to_list_empty.
  - apply probe_safe_empty.
Qed.

Lemma cap_ok_init : cap_ok INITCAP.
Proof. exists 6. split; [lia|reflexivity]. Qed.

Lemma shard_init_ok `{Env} ctx h w w' sh :
  ctx_ok ctx → shard_init ctx w = (true, sh, w') → shard_ok ctx h sh ∅ ∧ w_log w' = w_log w ∧
  w_heap w' = w_heap w.
Proof.
  intros Hctx. unfold shard_init.
  destruct (map_init ctx w 0 0 INITCAP) as [[ok m] w1] eqn:E. intros [= -> <- <-].
  destruct (map_init_ok ctx h w w1 INITCAP m 0 0 Hctx cap_ok_init E) as [Hm ->].
  split; [|easy]. split; [exact Hm|now vm_compute].
Qed.

(** ** A first-fit allocator *)

#[export] Instance env0 : Env := {|
  env_malloc _ h _ :=
    head (filter (λ p, h !! p = None ∧ p < 2 ^ 48) (seqZ 1 (Z.of_nat (S (size h)))));
  env_stack _ := (0, 0)
|}.

#[export] Instance env0_ok : EnvOk env0.
Proof.
  intros t h n p Hp. cbn in Hp. apply head_Some_elem_of, list_elem_of_filter in Hp as [[H1 H2] H3].
  apply elem_of_seqZ in H3. split; [easy|]. lia.
Qed.

(** It always finds a block while the memory is small. *)
Lemma env0_plenty h : (size h < 1000)%nat → plenty h.
Proof.
  intros Hh t n h' Hs. cbn. intros Hnone.
  assert (Hall : ∀ p, p ∈ seqZ 1 (Z.of_nat (S (size h'))) → p ∈ dom h').
  { intros p Hp. apply elem_of_dom. apply not_eq_None_Some. intros Hp'.
    assert (Hin : p ∈ filter (λ p, h' !! p = None ∧ p < 2 ^ 48)
                        (seqZ 1 (Z.of_nat (S (size h'))))).
    { apply list_elem_of_filter. split; [|easy]. split; [easy|].
      apply elem_of_seqZ in Hp. lia. }
    destruct (filter _ _); [now apply not_elem_of_nil in Hin|easy]. }
  assert (Hle : (length (seqZ 1 (Z.of_nat (S (size h')))) <= size (dom h'))%nat).
  { rewrite <- (size_list_to_set (C := gset Z)) by apply NoDup_seqZ.
    apply subseteq_size. intros p Hp. apply elem_of_list_to_set in Hp. auto. }
  rewrite length_seqZ, size_dom in Hle. lia.
Qed.

(** ** An empty map and a map with one entry *)

Lemma ctx0_ok : ctx_ok ctx0.
Proof. apply opts_to_ctx_ok. Qed.

Definition w0 : world := World ∅ 0 [].
Definition m0 : map_t := (map_init ctx0 w0 0 0 INITCAP).1.2.

Lemma map0_ok h : map_ok ctx0 h m0 ∅.
Proof.
  refine (proj1 (map_init_ok ctx0 h w0 (map_init ctx0 w0 0 0 INITCAP).2 INITCAP m0 0 0 ctx0_ok
    cap_ok_init _)). reflexivity.
Qed.

(** The key ["ab"]. *)
Definition key_ab : bytes := e_key ent_ab.

Definition hash_of (key : bytes) : Z := u32 (th64 key (seed ctx0)).

Lemma clip_hash_of key : clip_hash (hash_of key) = hash24 ctx0 key.
Proof. apply clip_hash_u32. Qed.

Definition w1 : world := World {[ 1 := encode ctx0 ent_ab ]} 1 [].
Definition M1 : content := {[ key_ab := (1, ent_ab) ]}.
Definition m1 : map_t :=
  match map_insert ctx0 w1 m0 1 (hash_of key_ab) with Some (_, _, m, _) => m | None => m0 end.

Lemma probe_safe_one (ctx : pgctx) (M : content) (k : bytes) (v : Z * ent) : (size M < 100)%nat → probe_safe ctx (<[k := v]> M).
Proof.
  intros HM. apply probe_safe_small.
  destruct (M !! k) eqn:E; [rewrite map_size_insert_Some by eauto|rewrite map_size_insert_None by easy]; lia.
Qed.

Lemma map1_ok : map_ok ctx0 (w_heap w1) m1 M1.
Proof.
  destruct (map_insert_spec ctx0 w1 m0 ∅ 1 ent_ab (hash_of key_ab))
    as (r & old & m' & w' & H1 & _ & _ & H2 & _ & H3 & _).
  - apply map0_ok.
  - intros _. vm_compute. congruence.
  - lia.
  - apply ent_ab_ok.
  - apply lookup_singleton_eq.
  - apply probe_safe_one. rewrite map_size_empty. lia.
  - apply clip_hash_of.
  - destruct H3 as [-> _]; [now vm_compute|]. destruct (H2 eq_refl) as (_ & Hm & _).
    unfold m1. rewrite H1. exact Hm.
Qed.

Definition shard0 : shard_t := Shard 1 0 0 m0.
Definition shard1 : shard_t := Shard 1 0 0 m1.

Lemma shard0_ok h : shard_ok ctx0 h shard0 ∅.
Proof. split; [apply map0_ok|now vm_compute]. Qed.

Lemma shard1_ok : shard_ok ctx0 (w_heap w1) shard1 M1.
Proof. split; [apply map1_ok|now vm_compute]. Qed.

Lemma M1_lookup : M1 !! key_ab = Some (1, ent_ab).
Proof. apply lookup_singleton_eq. Qed.
