(* ===== verification/MapTheorems.v ===== *)
(** * MapTheorems: the hash map is correct

    The properties of the hash map as a whole, for every context, content and
    allocator, and the overflow of the distance byte that [probe_safe] rules
    out. *)

From S2P Require Import Prelude Util Context Entry Heap Map MapInv MapSpec MapOps Shard ShardInv Samples.

(** The map stores the key at [p]. *)
Definition stores (M : content) (key : bytes) : option Z := fst <$> M !! key.

(** For every well-formed map and key, [map_get_bucket] returns within its
    probes: the index of a used bucket that points to the entry of the key when
    the key is stored, and -1 when it is not; [map_get_entry] returns that entry
    or null. *)
Theorem map_get_correct ctx h m M key hash :
  map_ok ctx h m M → clip_hash hash = hash24 ctx key →
  map_get_entry h m key hash = Some (stores M key) ∧
  ∃ i, map_get_bucket h m key hash = Some i ∧
    (M !! key = None → i = -1) ∧
    (∀ p x, M !! key = Some (p, x) →
       0 <= i < m_nbuckets m ∧ ∃ b, bget (m_buckets m) i = Some b ∧
         get_entry b = p ∧ get_dib b ≠ 0).
Proof.
  intros Hm Hhash. unfold map_get_entry, stores. destruct (M !! key) as [[p x]|] eqn:Hk.
  - destruct (map_get_bucket_present ctx h m M Hm key p x hash Hhash Hk)
      as (i & -> & Hi & Hd & Hp & _). mstep.
    assert (Hg : bget (m_buckets m) i = Some (slot (m_buckets m) i))
      by (apply bget_slot; now rewrite (mo_len _ _ _ _ Hm)).
    rewrite (proj2 (Z.leb_le 0 i)), Hg by lia. mstep. split; [now rewrite Hp|].
    exists i. split; [easy|]. split; [easy|]. intros q y [= <- <-]. split; [easy|]. eauto.
  - rewrite (map_get_bucket_absent ctx h m M Hm key hash Hhash Hk). mstep. split; [easy|].
    exists (-1). easy.
Qed.

Lemma map_get_correct_witness :
  map_get_entry (w_heap w1) m1 key_ab (hash_of key_ab) = Some (Some 1) ∧
  map_get_entry (w_heap w1) m1 [97] (hash_of [97]) = Some None.
Proof.
  destruct (map_get_correct ctx0 (w_heap w1) m1 M1 key_ab (hash_of key_ab) map1_ok
    (clip_hash_of key_ab)) as [H1 _].
  destruct (map_get_correct ctx0 (w_heap w1) m1 M1 [97] (hash_of [97]) map1_ok
    (clip_hash_of [97])) as [H2 _].
  rewrite H1, H2. split; reflexivity.
Defined.

(** [map_insert] always returns. If it reports success the content is the
    old content with the key bound to the new entry, the old entry of the key
    is handed back, and the map is well formed again; if it reports failure
    nothing changed. It can only fail when the map must grow, and does not fail
    when memory is available; in a map below its growth threshold it neither
    fails nor allocates. *)
Theorem map_insert_correct `{Env} ctx w m M p x hash :
  map_ok ctx (w_heap w) m M → roomy M →
  0 < p < 2 ^ 48 → ent_ok ctx x → w_heap w !! p = Some (encode ctx x) →
  probe_safe ctx (<[e_key x := (p, x)]> M) → clip_hash hash = hash24 ctx (e_key x) →
  ∃ r old m' w', map_insert ctx w m p hash = Some (r, old, m', w') ∧
    w_heap w' = w_heap w ∧ w_log w' = w_log w ∧
    (r = true → old = stores M (e_key x) ∧
       map_ok ctx (w_heap w) m' (<[e_key x := (p, x)]> M)) ∧
    (r = false → old = None ∧ m' = m) ∧
    (m_count m < m_growat m → r = true ∧ w' = w) ∧
    ((∀ t n, env_malloc t (w_heap w) n ≠ None) → r = true).
Proof.
  intros Hm Hr Hp Hx Hh Hs Hc.
  destruct (map_insert_spec ctx w m M p x hash Hm (roomy_grow ctx _ _ M Hm Hr) Hp Hx Hh Hs Hc)
    as (r & old & m' & w' & H1 & H2 & H3 & H4 & H5). exists r, old, m', w'.
  do 3 (split; [easy|]). split; [intros Hr'; now destruct (H4 Hr') as (? & ? & _)|]. exact H5.
Qed.

Lemma map_insert_correct_witness :
  ∃ old m' w', map_insert ctx0 w1 m0 1 (hash_of key_ab) = Some (true, old, m', w') ∧
    map_ok ctx0 (w_heap w1) m' (<[key_ab := (1, ent_ab)]> ∅).
Proof.
  destruct (map_insert_correct ctx0 w1 m0 ∅ 1 ent_ab (hash_of key_ab)) as
    (r & old & m' & w' & H1 & _ & _ & H2 & _ & H3 & _).
  - apply map0_ok.
  - unfold roomy. rewrite map_size_empty. lia.
  - lia.
  - apply ent_ab_ok.
  - apply lookup_singleton_eq.
  - apply probe_safe_one. rewrite map_size_empty. lia.
  - apply clip_hash_of.
  - destruct H3 as [-> _]; [now vm_compute|]. destruct (H2 eq_refl) as [_ Hm]. eauto.
Defined.

(** [map_delete] always returns and its assertion holds. For a stored key
    it returns the entry, leaves the content without the key in a well-formed
    map with the same buckets, and takes the size of exactly that entry off the
    accounted memory; for an absent key it changes nothing. *)
Theorem map_delete_correct ctx h m M key hash :
  map_ok ctx h m M → clip_hash hash = hash24 ctx key →
  ∃ m', map_delete ctx h m key hash = Some (stores M key, m') ∧
    map_ok ctx h m' (delete key M) ∧ m_nbuckets m' = m_nbuckets m ∧
    match M !! key with
    | None => m' = m
    | Some (_, x) =>
        m_entsize m' = u64 (m_entsize m - Z.of_nat (length (encode ctx x))) ∧
        m_count m' = m_count m - 1
    end.
Proof.
  intros Hm Hhash. unfold stores. destruct (M !! key) as [[p x]|] eqn:Hk.
  - destruct (map_delete_present ctx h m M Hm key p x hash Hhash Hk)
      as (m' & -> & Hm' & Hn & _ & _ & Hs). exists m'. do 4 (split; [easy|]).
    rewrite (mo_count _ _ _ _ Hm'), (mo_count _ _ _ _ Hm), map_size_delete_Some by eauto.
    assert (size M ≠ 0%nat) by (intros ?%map_size_empty_inv; subst; now rewrite lookup_empty in Hk).
    lia.
  - rewrite (map_delete_absent ctx h m M Hm key hash Hhash Hk). exists m.
    rewrite delete_id by easy. easy.
Qed.

Lemma map_delete_correct_witness :
  ∃ m', map_delete ctx0 (w_heap w1) m1 key_ab (hash_of key_ab) = Some (Some 1, m') ∧
    m_count m' = 0.
Proof.
  destruct (map_delete_correct ctx0 (w_heap w1) m1 M1 key_ab (hash_of key_ab) map1_ok
    (clip_hash_of key_ab)) as (m' & H1 & _ & _ & H2). exists m'. split; [exact H1|].
  rewrite M1_lookup in H2. destruct H2 as [_ ->]. reflexivity.
Defined.

(** Growing or shrinking the table to a capacity that can hold the content
    always returns, rebuilds a well-formed map with exactly the same content
    and the requested number of buckets, and changes nothing when there is no
    memory. *)
Theorem resize_correct `{Env} ctx w m M cap :
  map_ok ctx (w_heap w) m M → cap_ok cap → m_cap m <= cap →
  Z.of_nat (size M) <= scale cap (loadfactor ctx) →
  ∃ r m' w', resize ctx w m cap = Some (r, m', w') ∧ w_heap w' = w_heap w ∧
    map_ok ctx (w_heap w) m' M ∧ (r = false → m' = m) ∧
    (r = true → m_nbuckets m' = cap ∧ m_cap m' = m_cap m) ∧
    ((∀ t n, env_malloc t (w_heap w) n ≠ None) → r = true).
Proof.
  intros Hm Hc Hge Hfit. destruct (resize_spec ctx w m M cap Hm Hc Hge Hfit)
    as (r & m' & H1 & H2 & H3 & H4 & H5). exists r, m', (World (w_heap w) (S (w_tick w)) (w_log w)).
  do 5 (split; [easy|]). intros Hpl. apply H5, Hpl.
Qed.

Lemma resize_correct_witness :
  ∃ m' w', resize ctx0 w1 m1 128 = Some (true, m', w') ∧ m_nbuckets m' = 128 ∧
    map_ok ctx0 (w_heap w1) m' M1.
Proof.
  destruct (resize_correct ctx0 w1 m1 M1 128 map1_ok) as (r & m' & w' & H1 & _ & H2 & _ & H3 & _).
  - exists 7. split; [lia|reflexivity].
  - now vm_compute.
  - unfold M1. rewrite map_size_singleton. now vm_compute.
  - assert (r = true) as -> by (assert (fst <$> (fst <$> resize ctx0 w1 m1 128) = Some true)
      as E by (vm_compute; reflexivity); rewrite H1 in E; now injection E).
    exists m', w'. destruct (H3 eq_refl) as [Hn _].
    split; [exact H1|]. split; [exact Hn|exact H2].
Defined.

(** [tryshrink] always returns (its search for a capacity ends), keeps the
    content in a well-formed map, never grows the table and never goes below
    the initial capacity. *)
Theorem tryshrink_correct `{Env} ctx w m M multi :
  map_ok ctx (w_heap w) m M →
  ∃ m' w', tryshrink ctx w m multi = Some (m', w') ∧ w_heap w' = w_heap w ∧
    w_log w' = w_log w ∧ map_ok ctx (w_heap w) m' M ∧
    m_cap m' = m_cap m ∧ m_cap m' <= m_nbuckets m' <= m_nbuckets m.
Proof.
  intros Hm. destruct (tryshrink_spec ctx w m M multi Hm) as (m' & w' & H1 & H2 & H3 & H4 & H5 & H6).
  exists m', w'. do 5 (split; [easy|]). split; [|easy]. apply H4.
Qed.

Lemma tryshrink_correct_witness :
  ∃ m' w', tryshrink ctx0 w1 m1 true = Some (m', w') ∧ m_nbuckets m' = 64.
Proof.
  destruct (tryshrink_correct ctx0 w1 m1 M1 true map1_ok)
    as (m' & w' & H1 & _ & _ & _ & H2 & H3). exists m', w'. split; [exact H1|].
  change (m_cap m1) with 64 in H2. change (m_nbuckets m1) with 64 in H3. lia.
Defined.

(** [resize] does not carry the statistics over: after every successful
    call the totals of the map are whatever the uninitialised local [map2] held
    (here [env_stack]), independent of the totals before. *)
Theorem resize_loses_totals `{Env} ctx w m cap m' w' :
  resize ctx w m cap = Some (true, m', w') →
  (m_total m', m_entsize m') = env_stack (w_tick w).
Proof.
  unfold resize, map_init, do_malloc. destruct (env_stack (w_tick w)) as [total entsize].
  destruct (env_malloc _ _ _); cbn [negb]; [|easy].
  destruct (resize_loop _ _ _); [|easy]. rewrite some_bind. intros [= <- _]. reflexivity.
Qed.

Lemma resize_loses_totals_witness :
  ∃ m' w', resize ctx0 w1 m1 128 = Some (true, m', w') ∧ m_entsize m1 = 14 ∧ m_entsize m' = 0.
Proof.
  destruct (resize ctx0 w1 m1 128) as [[[[|] m'] w']|] eqn:E;
    [|exfalso; revert E; vm_compute; congruence|exfalso; revert E; vm_compute; congruence].
  exists m', w'. split; [reflexivity|]. split; [vm_compute; reflexivity|].
  pose proof (resize_loses_totals ctx0 w1 m1 128 m' w' E) as H. now injection H.
Defined.
