(* ===== verification/ShardTheorems.v ===== *)
(** * ShardTheorems: facts about the shard specification

    The options and callbacks on which the theorems are exercised, and what the
    specification of a store says about the stored key and about the others. *)

From S2P Require Import Prelude Util Context Entry Heap Map MapInv MapSpec MapOps Shard ShardInv ShardSpec ShardOps Evict ShardStore Scan Samples.

(** The key is one that the C types can hold. *)
Definition key_ok (key : bytes) : Prop := bytes_ok key ∧ Z.of_nat (length key) < 2 ^ 64.

(** A callback that keeps the value it is shown. *)
Definition fetch : load_opts (option bytes) :=
  LoadOpts 0 false (Some (λ v _, (None, Some (v_val v)))).

Lemma fetch_ok : load_cb_ok fetch.
Proof. intros cb v u upd u' [= <-] _ [=]. Qed.

(** Plain options: only the time is given. *)
Definition plain (now : Z) : store_opts (option bytes) :=
  StoreOpts now 0 0 0 0 false false false false false None.

Lemma plain_ok now : store_opts_ok (plain now).
Proof. vm_compute. repeat split; congruence. Qed.

Lemma key_ok_x : key_ok [120].
Proof. split; [repeat constructor; now vm_compute|now vm_compute]. Qed.

Lemma roomy_M1 : roomy M1.
Proof. unfold roomy, M1. rewrite map_size_singleton. lia. Qed.

Lemma plenty_w1 : plenty (w_heap w1).
Proof. apply env0_plenty. cbn. rewrite map_size_singleton. lia. Qed.

(** ** Storing and loading *)

Lemma store_spec_stored {U : Type} ctx shardidx now key mem victim val (opts : store_opts U) a u
    st a' evs u' :
  store_spec ctx shardidx now key mem victim val opts a u = (st, a', evs, u') →
  so_lowmem opts = false → st = POGOCACHE_INSERTED ∨ st = POGOCACHE_REPLACED →
  a_ents a' !! key = Some (new_ent ctx key val (spec_expires now key opts a) (so_flags opts)
                             (u64 (a_cas a + 1)) now) ∧
  a_cleartime a' = a_cleartime a.
Proof.
  unfold store_spec. intros H Hlow Hst. rewrite Hlow in H. cbn [andb] in H.
  set (x := new_ent _ _ _ _ _ _ _) in H. change (new_ent _ _ _ _ _ _ _) with x.
  assert (Hput : ∀ b, a_ents (a_put b x) !! key = Some x) by (intros; apply lookup_insert_eq).
  destruct (negb mem || false); [injection H as <- _ _ _; now destruct Hst|].
  destruct (a_ents (a_tick a) !! key) as [o|].
  - destruct (negb _).
    { destruct (so_xx opts || so_casop opts); injection H as <- <- _ _; [now destruct Hst|].
      split; [apply Hput|easy]. }
    destruct (so_casop opts && _); [injection H as <- _ _ _; now destruct Hst|].
    destruct (negb (so_casop opts) && _); [injection H as <- _ _ _; now destruct Hst|].
    destruct (match so_entry opts with Some _ => _ | None => _ end) as [[|] u1];
      injection H as <- <- _ _; [|now destruct Hst]. split; [apply Hput|easy].
  - destruct (so_xx opts || so_casop opts); injection H as <- <- _ _; [now destruct Hst|].
    split; [apply Hput|easy].
Qed.

Lemma store_spec_others {U : Type} ctx shardidx now key mem victim val (opts : store_opts U) a u
    st a' evs u' k :
  store_spec ctx shardidx now key mem victim val opts a u = (st, a', evs, u') →
  so_lowmem opts = false → k ≠ key → a_ents a' !! k = a_ents a !! k.
Proof.
  unfold store_spec. intros H Hlow Hne. rewrite Hlow in H. cbn [andb] in H.
  set (x := new_ent _ _ _ _ _ _ _) in H.
  assert (Hput : ∀ b, a_ents (a_put b x) !! k = a_ents b !! k)
    by (intros; now apply lookup_insert_ne).
  destruct (negb mem || false); [now injection H as _ <- _ _|].
  destruct (a_ents (a_tick a) !! key) as [o|].
  - destruct (negb _).
    { destruct (so_xx opts || so_casop opts); injection H as _ <- _ _; [|exact (Hput (a_uncount (a_tick a) _))].
      now apply lookup_delete_ne. }
    destruct (so_casop opts && _); [now injection H as _ <- _ _|].
    destruct (negb (so_casop opts) && _); [now injection H as _ <- _ _|].
    destruct (match so_entry opts with Some _ => _ | None => _ end) as [[|] u1];
      injection H as _ <- _ _; [exact (Hput (a_tick a))|easy].
  - destruct (so_xx opts || so_casop opts); injection H as _ <- _ _; [easy|exact (Hput (a_tick a))].
Qed.
