(* ===== verification/ScanTheorems.v ===== *)
(** * ScanTheorems: scans, counting and destruction of a shard *)

From S2P Require Import Prelude Util Context Entry Heap Map MapInv MapSpec MapOps Shard ShardInv ShardSpec ShardOps Evict ShardStore Scan Samples.

(** ** Destruction *)

Lemma content_addrs_nodup ctx h M :
  entries_ok ctx h M → NoDup (fst <$> content_items ctx M).
Proof.
  intros Hent. unfold content_items. rewrite <- list_fmap_compose.
  apply NoDup_fmap_2_strong; [|apply NoDup_map_to_list].
  intros [k [p x]] [k' [p' x']] H1 H2. cbn. intros <-.
  apply elem_of_map_to_list in H1, H2. destruct (entries_inj _ _ _ _ _ _ _ _ Hent H1 H2). now subst.
Qed.

Lemma deinit_loop_spec bs : ∀ w,
  NoDup (fst <$> items bs) → (∀ p, p ∈ fst <$> items bs → 0 < p ∧ is_Some (w_heap w !! p)) →
  deinit_loop bs w =
    Some (World (foldr delete (w_heap w) (reverse (fst <$> items bs))) (w_tick w) (w_log w)).
Proof.
  induction bs as [|b bs IH]; intros w Hnd Hin; cbn [deinit_loop]; [now destruct w|].
  rewrite items_cons in *. destruct (get_dib b =? 0) eqn:E; zb.
  - rewrite item_empty in * by easy. now apply IH.
  - rewrite item_used in * by easy. cbn [opt_list app fmap list_fmap fst] in *.
    apply NoDup_cons in Hnd as [Hb Hnd]. destruct (Hin (get_entry b)) as [H0 [e He]]; [constructor|].
    rewrite (entry_free_some w _ e He H0). mstep. rewrite IH; [|easy|].
    + cbn [w_heap w_tick w_log]. now rewrite reverse_cons, foldr_app.
    + intros p Hp. destruct (Hin p) as [Hp0 Hps]; [now constructor|]. split; [easy|]. cbn.
      rewrite lookup_delete_ne; [easy|]. intros <-. easy.
Qed.

Lemma foldr_delete_others h ps M :
  (∀ p, p ∈ ps ↔ p ∈ addrs M) → foldr delete h ps = others h M.
Proof.
  intros Hps. apply map_eq. intros q. rewrite lookup_others.
  destruct (decide (q ∈ addrs M)) as [Hq|Hq]; rewrite <- Hps in Hq.
  - clear Hps. induction ps as [|p ps IH]; [now apply not_elem_of_nil in Hq|]. cbn.
    destruct (decide (p = q)) as [->|]; [apply lookup_delete_eq|].
    rewrite lookup_delete_ne by easy. apply IH. apply elem_of_cons in Hq as [?|?]; [congruence|easy].
  - clear Hps. induction ps as [|p ps IH]; [easy|]. cbn. apply not_elem_of_cons in Hq as [? ?].
    rewrite lookup_delete_ne by easy. auto.
Qed.

Lemma shard_deinit_spec ctx w sh M :
  shard_ok ctx (w_heap w) sh M →
  shard_deinit w sh = Some (World (others (w_heap w) M) (w_tick w) (w_log w)).
Proof.
  intros [Hm _]. pose proof (mo_entries _ _ _ _ Hm) as Hent.
  pose proof (mo_len _ _ _ _ Hm) as Hl. pose proof (ring_size _ _ _ _ Hm) as H64.
  unfold shard_deinit. destruct (m_buckets (s_map sh)) as [|b bs] eqn:Eb; [unfold zlen in Hl; cbn [length] in Hl; lia|].
  rewrite <- Eb, take_ge by (rewrite Eb; unfold zlen in Hl; lia).
  pose proof (mo_items _ _ _ _ Hm) as Hit.
  assert (Hin : ∀ p, p ∈ fst <$> items (m_buckets (s_map sh)) ↔ p ∈ addrs M).
  { intros p. rewrite Hit, elem_addrs, list_elem_of_fmap. split.
    - intros ([q hh] & -> & (k & x & Hk & _)%content_items_elem). eauto.
    - intros (k & x & Hk). exists (p, hash24 ctx k). split; [easy|].
      apply content_items_elem. eauto. }
  rewrite deinit_loop_spec.
  - do 2 f_equal. apply foldr_delete_others. intros p. rewrite elem_of_reverse. apply Hin.
  - rewrite Hit. now apply (content_addrs_nodup ctx (w_heap w)).
  - intros p (k & x & Hk)%Hin%elem_addrs. destruct (Hent _ _ _ Hk) as (_ & _ & Hp & Hr).
    split; [lia|]. rewrite Hp. eauto.
Qed.

(** [shard_deinit] frees every entry of the shard exactly once and nothing
    else: what remains of the memory is what did not belong to the shard. *)
Theorem shard_deinit_frees ctx w sh M :
  shard_ok ctx (w_heap w) sh M →
  shard_deinit w sh = Some (World (others (w_heap w) M) (w_tick w) (w_log w)).
Proof. apply shard_deinit_spec. Qed.

Lemma shard_deinit_frees_witness :
  shard_deinit w1 shard1 = Some (World (others (w_heap w1) M1) 1 []) ∧ others (w_heap w1) M1 = ∅.
Proof.
  split; [apply (shard_deinit_frees ctx0 w1 shard1 M1 shard1_ok)|reflexivity].
Defined.

(** ** Scans *)

Definition shard1_cleared : shard_t := clearop 7 shard1.

Lemma shard1_cleared_ok : shard_ok ctx0 (w_heap w1) shard1_cleared M1.
Proof. destruct shard1_ok as [Hm Hc]. split; [exact Hm|exact Hc]. Qed.

(** [iterop] always terminates. It shows only live entries of the shard to
    the callback, with their key and value, deletes and frees exactly those the
    callback asks for and reports no eviction; it is canceled exactly when the
    callback says stop, and an iteration that finishes has shown every live
    entry of the shard at least once. *)
Theorem iterop_correct `{Env} {U : Type} ctx shardidx now (opts : iter_opts U) sh w M u :
  shard_ok ctx (w_heap w) sh M →
  ∃ status sh' w' u' M' xs actions,
    iterop ctx shardidx now opts sh w u = Some (status, sh', w', u') ∧
    visit shardidx now opts xs u = (actions, u') ∧
    Forall (λ x, ∃ p, M !! e_key x = Some (p, x) ∧ fate now (s_cleartime sh) x = 0) xs ∧
    M' = drop_keys (deleted_keys xs actions) M ∧
    abs sh' M' = AState (s_cas sh) (s_cleartime sh) (s_clearcount sh) (snd <$> M') ∧
    shard_ok ctx (w_heap w') sh' M' ∧ others (w_heap w') M' = others (w_heap w) M ∧
    w_log w' = w_log w ∧
    (status = POGOCACHE_FINISHED ∧ Forall (λ a, stops a = false) actions ∧
       (∀ k p x, M !! k = Some (p, x) → fate now (s_cleartime sh) x = 0 → k ∈ e_key <$> xs) ∨
     status = POGOCACHE_CANCELED ∧ ∃ acts a, actions = acts ++ [a] ∧ stops a = true).
Proof.
  intros Hok. destruct (iterop_spec ctx shardidx now opts sh w M u Hok)
    as (status & sh' & w' & u' & M' & xs & actions & H1 & H2 & H3 & H4 & H5 & H6 & H7 & H8 & H9).
  exists status, sh', w', u', M', xs, actions. do 8 (split; [easy|]).
  destruct H9 as [(-> & Hs & Hall)|H9]; [left|now right]. do 2 (split; [easy|]).
  intros k p x Hk Hf. destruct (Hall k p x Hk Hf) as [Hn|]; [now apply not_elem_of_nil in Hn|easy].
Qed.

(** A callback that collects the keys and deletes everything. *)
Definition collect : iter_opts (list bytes) :=
  IterOpts 0 false 0 (Some (λ v u, (POGOCACHE_ITER_DELETE, v_key v :: u))).

Lemma iterop_correct_witness : ∃ status sh' w' u',
  iterop ctx0 0 9 collect shard1 w1 [] = Some (status, sh', w', u') ∧
  (status = POGOCACHE_FINISHED ∨ status = POGOCACHE_CANCELED).
Proof.
  destruct (iterop_correct ctx0 0 9 collect shard1 w1 M1 [] shard1_ok)
    as (status & sh' & w' & u' & M' & xs & actions & H1 & _ & _ & _ & _ & _ & _ & _ & H9).
  exists status, sh', w', u'. split; [exact H1|].
  destruct H9 as [(-> & _)|(-> & _)]; [left|right]; reflexivity.
Defined.

(** [sweeppollop] always returns, polls at most [pollsize] entries (20 by
    default in the caller) and no more than the table has buckets, and the
    ratio it stores is that of the dead entries to those polled, zero when it
    met none. *)
Theorem sweeppollop_correct ctx h sh M shardidx now pollsize :
  map_ok ctx h (s_map sh) M → 0 <= pollsize →
  ∃ count dead, 0 <= dead <= count ∧ count <= pollsize ∧ count <= m_nbuckets (s_map sh) ∧
    sweeppollop h sh shardidx now pollsize =
      Some (if count =? 0 then double_of_int 0
            else double_div (double_of_int dead) (double_of_int count)).
Proof.
  intros Hm Hp. pose proof (ring_size _ _ _ _ Hm). pose proof (mo_len _ _ _ _ Hm) as Hl.
  unfold sweeppollop. set (bidx := _ mod _).
  destruct (sweeppoll_loop_spec ctx h sh M now pollsize bidx (S (length (m_buckets (s_map sh)))) 0 0 0 Hm)
    as (count & dead & -> & H1 & H2 & H3); try lia; [unfold zlen in Hl; lia|]. mstep.
  exists count, dead. split; [easy|]. split; [lia|]. split; [lia|]. now destruct (count =? 0).
Qed.

Lemma sweeppollop_correct_witness : ∃ count dead, 0 <= dead <= count ∧ count <= 20 ∧
  sweeppollop (w_heap w1) shard1_cleared 0 9 20 =
      Some (if count =? 0 then double_of_int 0
            else double_div (double_of_int dead) (double_of_int count)).
Proof.
  destruct (sweeppollop_correct ctx0 (w_heap w1) shard1_cleared M1 0 9 20 map1_ok)
    as (c & d & H1 & H2 & _ & H3); [lia|]. exists c, d.
  split; [exact H1|]. split; [exact H2|exact H3].
Defined.
