(* ===== verification/Count.v ===== *)
(** * Count: what [countop] counts

    [pogocache_count] is the number of entries of the map less a counter of
    cleared ones. As a step relation over the specifications of [ShardSpec.v]
    and [Scan.v], with a clock that does not run backwards and clears that
    happen strictly after the operations before them, the counter is exact; a
    clear at the time of the last store is not covered, and there the count goes
    wrong. *)

From S2P Require Import Prelude Util Context Entry Heap Map MapInv MapSpec MapOps Shard ShardInv ShardSpec ShardOps Evict ShardStore Scan Samples.

(** The entries that a clear at [ct] killed. *)
Definition cleared (ct : Z) (E : gmap bytes ent) : gmap bytes ent :=
  filter (λ kx, e_time kx.2 < ct) E.

Definition ncleared (ct : Z) (E : gmap bytes ent) : Z := Z.of_nat (size (cleared ct E)).

Definition is_cleared (ct : Z) (x : ent) : Z := if e_time x <? ct then 1 else 0.

Lemma ncleared_delete ct E k x :
  E !! k = Some x → ncleared ct (delete k E) = ncleared ct E - is_cleared ct x.
Proof.
  intros Hk. unfold ncleared, cleared, is_cleared. rewrite map_filter_delete. case_if.
  - assert (Hf : filter (λ kx : bytes * ent, e_time kx.2 < ct) E !! k = Some x)
      by now apply map_lookup_filter_Some.
    rewrite map_size_delete_Some by eauto.
    assert (size (filter (λ kx : bytes * ent, e_time kx.2 < ct) E) ≠ 0%nat)
      by (intros He%map_size_empty_inv; rewrite He in Hf; now rewrite lookup_empty in Hf).
    lia.
  - rewrite delete_id; [lia|]. apply map_lookup_filter_None. right. intros y Hy. cbn.
    assert (x = y) as <- by congruence. lia.
Qed.

Lemma ncleared_insert_new ct E k x :
  E !! k = None → ncleared ct (<[k := x]> E) = ncleared ct E + is_cleared ct x.
Proof.
  intros Hk. pose proof (ncleared_delete ct (<[k := x]> E) k x (lookup_insert_eq E k x)) as Hd.
  rewrite delete_insert_id in Hd by easy. lia.
Qed.

Lemma ncleared_insert ct E k x :
  ncleared ct (<[k := x]> E) =
  ncleared ct E - match E !! k with Some y => is_cleared ct y | None => 0 end + is_cleared ct x.
Proof.
  rewrite <- insert_delete_eq, ncleared_insert_new by apply lookup_delete_eq.
  destruct (E !! k) as [y|] eqn:Hk; [rewrite (ncleared_delete ct E k y) by easy; lia|].
  rewrite delete_id by easy. lia.
Qed.

(** The counter agrees with the content. *)
Definition count_ok (a : astate) : Prop := a_clearcount a = ncleared (a_cleartime a) (a_ents a).

Lemma fate_cleared now ct x :
  (if fate now ct x =? POGOCACHE_REASON_CLEARED then 1 else 0) = is_cleared ct x.
Proof.
  unfold fate, entry_alive_exp, is_cleared. destruct (e_time x <? ct); [easy|].
  now destruct ((0 <? e_expires x) && (e_expires x <=? now)).
Qed.

Lemma alive_not_cleared now ct x : fate now ct x = 0 → is_cleared ct x = 0.
Proof. intros Hf. rewrite <- (fate_cleared now), Hf. reflexivity. Qed.

Lemma fresh_not_cleared ct x : ct <= e_time x → is_cleared ct x = 0.
Proof. intros H. unfold is_cleared. now rewrite (proj2 (Z.ltb_ge _ _)). Qed.

(** Dropping a dead entry keeps the counter right. *)
Lemma count_ok_forget now a k x :
  count_ok a → a_ents a !! k = Some x →
  count_ok (a_uncount (a_del a k) (fate now (a_cleartime a) x)).
Proof.
  unfold count_ok. intros Hc Hk. cbn. rewrite fate_cleared, (ncleared_delete _ _ k x), Hc by easy.
  reflexivity.
Qed.

(** So does dropping a live one, *)
Lemma count_ok_del now a k x :
  count_ok a → a_ents a !! k = Some x → fate now (a_cleartime a) x = 0 → count_ok (a_del a k).
Proof.
  unfold count_ok. intros Hc Hk Hf. cbn. rewrite (ncleared_delete _ _ k x), Hc by easy.
  rewrite (alive_not_cleared now) by easy. lia.
Qed.

(** and storing an entry made now over a live one or none. *)
Lemma count_ok_put now a x :
  count_ok a → a_cleartime a <= e_time x →
  (∀ y, a_ents a !! e_key x = Some y → fate now (a_cleartime a) y = 0) → count_ok (a_put a x).
Proof.
  unfold count_ok. intros Hc Ht Hy. cbn. rewrite ncleared_insert, Hc, (fresh_not_cleared _ x) by easy.
  destruct (a_ents a !! e_key x) as [y|]; [|lia].
  rewrite (alive_not_cleared now _ y) by auto. lia.
Qed.

Lemma count_ok_uncount now a x :
  count_ok a → a_ents a !! e_key x = None → a_cleartime a <= now → e_time x = now →
  count_ok (a_put a x).
Proof. intros Hc Hn Ht He. apply (count_ok_put now); [easy|lia|]. intros y Hy. congruence. Qed.

(** ** Sweeping *)

Lemma cleared_among_perm now ct xs ys :
  xs ≡ₚ ys → cleared_among now ct xs = cleared_among now ct ys.
Proof. intros Hp. unfold cleared_among. now rewrite Hp. Qed.

(** Among the dead entries are all the cleared ones. *)
Lemma cleared_among_dead now ct E :
  cleared_among now ct (map_to_list (filter (λ kx : bytes * ent, dead now ct kx.2) E)).*2 =
  ncleared ct E.
Proof.
  induction E as [|k x E Hk IH] using map_ind.
  { rewrite map_filter_empty, map_to_list_empty. unfold ncleared, cleared.
    now rewrite map_filter_empty, map_size_empty. }
  rewrite ncleared_insert_new, <- IH, map_filter_insert by easy. case_decide as Hd.
  - rewrite (cleared_among_perm now ct _
      (x :: (map_to_list (filter (λ kx : bytes * ent, dead now ct kx.2) E)).*2)).
    + rewrite cleared_cons, fate_cleared. lia.
    + rewrite map_to_list_insert; [easy|]. apply map_lookup_filter_None. now left.
  - rewrite delete_id by easy. cbn in Hd. unfold dead in Hd.
    assert (Hf : fate now ct x = 0) by lia. rewrite (alive_not_cleared now ct x Hf). lia.
Qed.

Lemma ncleared_alive now ct E :
  ncleared ct (filter (λ kx : bytes * ent, ¬ dead now ct kx.2) E) = 0.
Proof.
  unfold ncleared, cleared.
  assert (filter (λ kx : bytes * ent, e_time kx.2 < ct)
    (filter (λ kx : bytes * ent, ¬ dead now ct kx.2) E) = ∅) as ->; [|now rewrite map_size_empty].
  apply map_empty. intros k. apply map_lookup_filter_None. right.
  intros x [_ Hd]%map_lookup_filter_Some Ht. cbn in *.
  apply Hd. unfold dead, fate, entry_alive_exp. now rewrite (proj2 (Z.ltb_lt _ _) Ht).
Qed.

Lemma count_ok_sweep now drops a :
  count_ok a → drops ≡ₚ dead_ents now (a_cleartime a) a →
  count_ok (sweep_spec now (a_cleartime a) drops a).
Proof.
  unfold count_ok. intros Hc Hd. cbn. rewrite (cleared_among_perm _ _ _ _ Hd), Hc.
  unfold dead_ents. rewrite cleared_among_dead, ncleared_alive. lia.
Qed.

(** ** The shard as a step relation *)

(** [clearop] on the abstract state. *)
Definition clear_spec (now : Z) (a : astate) : astate :=
  AState (a_cas a) now (Z.of_nat (size (a_ents a))) (a_ents a).

Lemma clearop_spec ctx h now sh M :
  shard_ok ctx h sh M →
  abs (clearop now sh) M = clear_spec now (abs sh M) ∧ shard_ok ctx h (clearop now sh) M.
Proof.
  intros [Hm Hc]. split; [|now split]. unfold abs, clear_spec, clearop. cbn. f_equal.
  rewrite (mo_count _ _ _ _ Hm), map_size_fmap. lia.
Qed.

(** One operation, at a time that is not before the last one. *)
Inductive shard_step (ctx : pgctx) : Z * astate → Z * astate → Prop :=
  | step_load U shardidx key mem (opts : load_opts U) t now a u st a' evs u' :
      t <= now → load_spec ctx shardidx now key mem opts a u = (st, a', evs, u') →
      shard_step ctx (t, a) (now, a')
  | step_delete U shardidx key (opts : delete_opts U) t now a u st a' evs u' :
      t <= now → delete_spec ctx shardidx now key opts a u = (st, a', evs, u') →
      shard_step ctx (t, a) (now, a')
  | step_store U shardidx key mem victim val (opts : store_opts U) t now a u st a' evs u' :
      t <= now → store_spec ctx shardidx now key mem victim val opts a u = (st, a', evs, u') →
      shard_step ctx (t, a) (now, a')
  | step_sweep t now drops a :
      t <= now → drops ≡ₚ dead_ents now (a_cleartime a) a →
      shard_step ctx (t, a) (now, sweep_spec now (a_cleartime a) drops a)
  | step_iter_delete t now k x a :
      t <= now → a_ents a !! k = Some x → fate now (a_cleartime a) x = 0 →
      shard_step ctx (t, a) (now, a_del a k)
  | step_clear t now a : t < now → shard_step ctx (t, a) (now, clear_spec now a).

Record shard_inv (t : Z) (a : astate) : Prop := {
  si_count : count_ok a;
  si_keyed : ∀ k x, a_ents a !! k = Some x → e_key x = k;
  si_clear : a_cleartime a <= t;
  si_times : ∀ k x, a_ents a !! k = Some x → e_time x <= t
}.

(** ** The invariant *)

Section Steps.
Context (t now : Z) (Htn : t <= now).

Lemma inv_tick a : shard_inv t a → shard_inv t (a_tick a).
Proof. intros []. now split. Qed.

Lemma inv_mono a : shard_inv t a → shard_inv now a.
Proof. intros []. split; [easy|easy|lia|]. intros k x Hk. specialize (si_times0 k x Hk). lia. Qed.

Lemma inv_del_any a k :
  shard_inv t a → count_ok (a_del a k) → shard_inv now (a_del a k).
Proof.
  intros [] Hc. split; [easy| |cbn; lia|]; cbn; intros k' x [_ Hk]%lookup_delete_Some; [eauto|].
  specialize (si_times0 k' x Hk). lia.
Qed.

(** A dead entry goes. *)
Lemma inv_forget a k x :
  shard_inv t a → a_ents a !! k = Some x →
  shard_inv now (a_uncount (a_del a k) (fate now (a_cleartime a) x)).
Proof.
  intros Hi Hk. pose proof (count_ok_forget now a k x (si_count _ _ Hi) Hk) as Hc.
  destruct Hi. split; [easy| |cbn; lia|]; cbn; intros k' y [_ Hk']%lookup_delete_Some; [eauto|].
  specialize (si_times0 k' y Hk'). lia.
Qed.

(** A live entry goes. *)
Lemma inv_del a k x :
  shard_inv t a → a_ents a !! k = Some x → fate now (a_cleartime a) x = 0 →
  shard_inv now (a_del a k).
Proof.
  intros Hi Hk Hf. apply inv_del_any; [easy|].
  apply (count_ok_del now _ _ x); [apply Hi|easy|easy].
Qed.

(** An entry made now comes in place of a live one or none. *)
Lemma inv_put a x :
  shard_inv t a → e_time x = now →
  (∀ y, a_ents a !! e_key x = Some y → fate now (a_cleartime a) y = 0) →
  shard_inv now (a_put a x).
Proof.
  intros Hi Ht Hy. assert (Hc : count_ok (a_put a x)).
  { apply (count_ok_put now); [apply Hi|pose proof (si_clear _ _ Hi); lia|easy]. }
  destruct Hi. split; [easy| |cbn; lia|]; cbn;
    intros k y [[<- <-]|[_ Hk]]%lookup_insert_Some; try lia; eauto.
  specialize (si_times0 k y Hk). lia.
Qed.
End Steps.

(** Each specification keeps the invariant. *)
Lemma inv_load {U : Type} ctx shardidx key mem (opts : load_opts U) t now a u st a' evs u' :
  shard_inv t a → t <= now →
  load_spec ctx shardidx now key mem opts a u = (st, a', evs, u') → shard_inv now a'.
Proof.
  intros Hi Ht. unfold load_spec. destruct (a_ents a !! key) as [x|] eqn:Hk.
  2: { intros [= _ <- _ _]. now apply (inv_mono t). }
  destruct (fate now (a_cleartime a) x =? 0) eqn:Ef; zb; cbn [negb].
  2: { intros [= _ <- _ _]. now apply (inv_forget t). }
  pose proof (si_keyed _ _ Hi key x Hk) as Hkey.
  assert (Hlive : ∀ y, a_ents a !! e_key x = Some y → fate now (a_cleartime a) y = 0)
    by (intros y Hy; congruence).
  set (a1 := if lo_notouch opts then a else a_put a (touch now x)).
  assert (Hi1 : shard_inv now a1).
  { unfold a1. destruct (lo_notouch opts); [now apply (inv_mono t)|]. now apply (inv_put t). }
  assert (Hlive1 : ∀ y, a_ents a1 !! key = Some y → fate now (a_cleartime a1) y = 0).
  { unfold a1. destruct (lo_notouch opts); [intros y Hy; congruence|]. cbn. rewrite Hkey.
    intros y. rewrite lookup_insert_eq. intros [= <-]. unfold fate, entry_alive_exp. cbn.
    pose proof (si_clear _ _ Hi). rewrite (proj2 (Z.ltb_ge now _)) by lia.
    unfold fate, entry_alive_exp in Ef. destruct (e_time x <? a_cleartime a); [easy|exact Ef]. }
  clearbody a1.
  destruct (lo_entry opts) as [cb|]; [|now intros [= _ <- _ _] ].
  destruct (cb _ u) as [[upd|] u1]; [|now intros [= _ <- _ _] ].
  pose proof (inv_tick now a1 Hi1) as Hi2.
  destruct mem; intros [= _ <- _ _]; [|easy]. apply (inv_put now); [lia|easy|easy|exact Hlive1].
Qed.

Lemma inv_delete {U : Type} ctx shardidx key (opts : delete_opts U) t now a u st a' evs u' :
  shard_inv t a → t <= now →
  delete_spec ctx shardidx now key opts a u = (st, a', evs, u') → shard_inv now a'.
Proof.
  intros Hi Ht. unfold delete_spec. destruct (a_ents a !! key) as [x|] eqn:Hk.
  2: { intros [= _ <- _ _]. now apply (inv_mono t). }
  destruct (fate now (a_cleartime a) x =? 0) eqn:Ef; zb; cbn [negb].
  2: { intros [= _ <- _ _]. now apply (inv_forget t). }
  destruct (match do_entry opts with Some _ => _ | None => _ end) as [[|] u1];
    intros [= _ <- _ _]; [now apply (inv_del t now Ht _ _ x)|now apply (inv_mono t)].
Qed.

Lemma inv_evict ctx shardidx t now victim a a' evs :
  shard_inv t a → t <= now → evict_spec ctx shardidx now victim a = (a', evs) → shard_inv now a'.
Proof.
  intros Hi Ht. unfold evict_spec.
  destruct victim as [k|]; [|intros [= <- _]; now apply (inv_mono t)].
  destruct (a_ents a !! k) as [x|] eqn:Hk; [|intros [= <- _]; now apply (inv_mono t)].
  destruct (fate now (a_cleartime a) x =? 0) eqn:Ef; zb; intros [= <- _].
  - pose proof (inv_del t now Ht a k x Hi Hk Ef) as []. split; try easy.
    unfold count_ok in *. cbn in *. lia.
  - now apply (inv_forget t).
Qed.

Lemma inv_store {U : Type} ctx shardidx key mem victim val (opts : store_opts U) t now a u st a'
    evs u' :
  shard_inv t a → t <= now →
  store_spec ctx shardidx now key mem victim val opts a u = (st, a', evs, u') → shard_inv now a'.
Proof.
  intros Hi0 Ht. unfold store_spec. set (x := new_ent _ _ _ _ _ _ _).
  pose proof (inv_tick t a Hi0) as Hi. set (a1 := a_tick a) in *.
  pose proof (inv_mono t now Ht a1 Hi) as Hn.
  assert (Hput : (∀ y, a_ents a1 !! key = Some y → fate now (a_cleartime a1) y = 0) →
    shard_inv now (a_put a1 x)) by (intros Hy; now apply (inv_put t)).
  destruct (negb mem || _); [now intros [= _ <- _ _]|].
  destruct (a_ents a1 !! key) as [o|] eqn:Hk.
  - destruct (fate now (a_cleartime a1) o =? 0) eqn:Ef; zb; cbn [negb].
    + assert (Hp : shard_inv now (a_put a1 x)) by (apply Hput; intros y Hy; congruence).
      destruct (so_casop opts && _); [now intros [= _ <- _ _]|].
      destruct (negb (so_casop opts) && _); [now intros [= _ <- _ _]|].
      destruct (match so_entry opts with Some _ => _ | None => _ end) as [[|] u1];
        intros [= _ <- _ _]; easy.
    + pose proof (inv_forget t now Ht a1 key o Hi Hk) as Hf.
      destruct (so_xx opts || so_casop opts); intros [= _ <- _ _]; [exact Hf|].
      set (a2 := a_uncount (a_del a1 key) (fate now (a_cleartime a1) o)) in *.
      assert (Heq : a_put (a_uncount a1 (fate now (a_cleartime a1) o)) x = a_put a2 x)
        by (unfold a_put; cbn; f_equal; symmetry; apply insert_delete_eq).
      assert (Hp : shard_inv now (a_put a2 x)).
      { apply (inv_put now); [lia|easy|easy|]. cbn. intros y. now rewrite lookup_delete_eq. }
      rewrite <- Heq in Hp. exact Hp.
  - assert (Hp : shard_inv now (a_put a1 x)) by (apply Hput; congruence).
    destruct (so_xx opts || so_casop opts); [now intros [= _ <- _ _]|].
    destruct (so_lowmem opts); [|now intros [= _ <- _ _] ].
    destruct (evict_spec _ _ _ _ _) as [a2 evs2] eqn:Ee. intros [= _ <- _ _].
    apply (inv_evict _ _ now now _ _ _ _ Hp ltac:(lia) Ee).
Qed.

Lemma inv_sweep t now drops a :
  shard_inv t a → t <= now → drops ≡ₚ dead_ents now (a_cleartime a) a →
  shard_inv now (sweep_spec now (a_cleartime a) drops a).
Proof.
  intros Hi Ht Hd. pose proof (count_ok_sweep now drops a (si_count _ _ Hi) Hd) as Hc.
  destruct Hi. split; [easy| |cbn; lia|]; cbn; intros k x [Hk _]%map_lookup_filter_Some; [eauto|].
  specialize (si_times0 k x Hk). lia.
Qed.

(** A clear after all other operations kills everything it counts. *)
Lemma inv_clear t now a : shard_inv t a → t < now → shard_inv now (clear_spec now a).
Proof.
  intros Hi Ht. destruct Hi. split; [|easy|cbn; lia|cbn; intros k x Hk; specialize (si_times0 k x Hk); lia].
  unfold count_ok, ncleared, cleared. cbn. rewrite map_filter_id; [easy|].
  intros k x Hk. cbn. specialize (si_times0 k x Hk). lia.
Qed.

Lemma step_inv ctx s s' : shard_step ctx s s' → shard_inv s.1 s.2 → shard_inv s'.1 s'.2.
Proof.
  destruct 1; cbn; intros Hi; eauto using inv_load, inv_delete, inv_store, inv_sweep, inv_clear.
  now apply (inv_del t now ltac:(easy) _ _ x).
Qed.

(** The abstract state of a new shard. *)
Definition new_shard : astate := AState 1 0 0 ∅.

Lemma new_shard_inv : shard_inv 0 new_shard.
Proof.
  split; cbn; [|easy|lia|easy]. unfold count_ok, ncleared, cleared. cbn.
  now rewrite map_filter_empty, map_size_empty.
Qed.

Lemma reachable_inv ctx s s' :
  rtc (shard_step ctx) s s' → shard_inv s.1 s.2 → shard_inv s'.1 s'.2.
Proof. induction 1; eauto using step_inv. Qed.

Lemma size_split (ct : Z) (E : gmap bytes ent) :
  size E = Nat.add (size (filter (λ kx : bytes * ent, e_time kx.2 < ct) E))
                   (size (filter (λ kx : bytes * ent, ct <= e_time kx.2) E)).
Proof.
  rewrite <- (map_filter_union_complement (λ kx : bytes * ent, e_time kx.2 < ct) E) at 1.
  rewrite map_size_disj_union by apply map_disjoint_filter_complement. f_equal.
  f_equal. apply map_filter_ext. intros k x _. cbn. lia.
Qed.

(** In every state reachable from a new shard by loads, stores, deletes,
    sweeps, iterations and clears, with a clock that does not run backwards and
    clears that happen strictly later than the operations before them,
    [countop] is exactly the number of entries that no clear has killed. *)
Theorem countop_exact ctx h sh M t :
  shard_ok ctx h sh M → rtc (shard_step ctx) (0, new_shard) (t, abs sh M) →
  countop sh =
    Z.of_nat (size (filter (λ kx : bytes * ent, s_cleartime sh <= e_time kx.2) (snd <$> M))).
Proof.
  intros [Hm _] Hr. pose proof (si_count _ _ (reachable_inv _ _ _ Hr new_shard_inv)) as Hc.
  unfold count_ok in Hc. cbn in Hc. unfold countop. rewrite Hc, (mo_count _ _ _ _ Hm).
  rewrite <- (map_size_fmap snd M). unfold ncleared, cleared.
  set (E := snd <$> M : gmap bytes ent). rewrite (size_split (s_cleartime sh) E).
  pose proof (growat_lt _ _ _ _ Hm). pose proof (mo_count _ _ _ _ Hm) as Hcount.
  pose proof (mo_load _ _ _ _ Hm). pose proof (cap_ok_range _ (mo_nbuckets _ _ _ _ Hm)).
  rewrite <- (map_size_fmap snd M) in Hcount. fold E in Hcount.
  rewrite (size_split (s_cleartime sh) E) in Hcount. unfold u64. rewrite Z.mod_small; lia.
Qed.

(** A shard that holds one entry stored at time 5 with the plain options. *)
Definition ent_x : ent := new_ent ctx0 [120] [7] 0 0 2 5.
Definition plain5 : store_opts unit :=
  StoreOpts 5 0 0 0 0 false false false false false None.

Lemma reach_store :
  rtc (shard_step ctx0) (0, new_shard) (5, AState 2 0 0 {[ [120] := ent_x ]}).
Proof.
  apply rtc_once.
  apply (step_store ctx0 unit 0 [120] true None [7] plain5 0 5 new_shard tt POGOCACHE_INSERTED _ [] tt).
  - lia.
  - vm_compute. reflexivity.
Qed.

Lemma countop_exact_witness : ∃ sh', countop sh' = 1 ∧ m_count (s_map sh') = 1.
Proof.
  destruct (storeop_spec ctx0 0 (hash_of [120]) [120] plain5 0 shard0 w0 ∅ (shard0_ok _))
    with (val := [7]) (u := tt)
    as (mem & victim & Hmem & (st & sh' & w' & u' & M' & evs & H1 & H2 & H3 & _) & _).
  - unfold roomy. rewrite map_size_empty. lia.
  - apply clip_hash_of.
  - vm_compute. split; congruence.
  - vm_compute. repeat split; congruence.
  - apply new_ent_ok; try (vm_compute; split; congruence); try (vm_compute; congruence).
    repeat constructor; vm_compute; congruence.
  - intros v. apply probe_safe_one. rewrite map_size_empty. lia.
  - rewrite Hmem in H2 by (apply env0_plenty; cbn; rewrite map_size_empty; lia).
    assert (Ha : abs sh' M' = AState 2 0 0 {[ [120] := ent_x ]}).
    { change (abs sh' M') with (st, abs sh' M', evs, u').1.1.2. rewrite <- H2.
      vm_compute. reflexivity. }
    pose proof (countop_exact ctx0 (w_heap w') sh' M' 5 H3) as Hcount. rewrite Ha in Hcount.
    exists sh'. rewrite (Hcount reach_store).
    change (snd <$> M') with (a_ents (abs sh' M')).
    rewrite (mo_count _ _ _ _ (sk_map _ _ _ _ H3)).
    replace (size M') with (size (a_ents (abs sh' M'))) by apply map_size_fmap.
    change (s_cleartime sh') with (a_cleartime (abs sh' M')). rewrite Ha.
    split; vm_compute; reflexivity.
Defined.
