(* ===== verification/Limits.v ===== *)
(** * Limits: where the code does not do what it means to

    Runs of the operations on concrete inputs that leave the range the other
    theorems cover: 256 keys whose hashes share their low bits, a clear at the
    time of the last store, and entries dropped on paths that forget the memory
    accounting. *)

From S2P Require Import Prelude Util Context Entry Heap Map MapInv MapSpec MapOps Shard ShardInv ShardSpec ShardOps Samples.

(** ** The distance byte wraps *)

(** Five lower case letters. *)
Definition word (i : Z) : bytes :=
  [97 + (i / 26 ^ 4) mod 26; 97 + (i / 26 ^ 3) mod 26; 97 + (i / 26 ^ 2) mod 26;
   97 + (i / 26) mod 26; 97 + i mod 26].

(** 256 words whose hashes agree in their low nine bits. *)
Definition crowd : list bytes := word <$> [
   700; 1501; 2280; 2700; 2889; 3103; 3839; 4276; 4506; 4695; 4723; 6804; 6894; 7375;
   7460; 8108; 8163; 8554; 9305; 9691; 10578; 11280; 11631; 12092; 12107; 12716; 13170;
   13220; 13458; 13495; 13749; 13881; 14594; 14685; 15369; 16027; 16169; 16365; 16501;
   17110; 18061; 19520; 19703; 19880; 20807; 21777; 23057; 24707; 24963; 25206; 25496;
   25843; 26117; 26341; 26722; 26870; 27078; 27516; 27897; 28748; 29095; 29435; 29589;
   30064; 30364; 31310; 31706; 32400; 34141; 34432; 35179; 35186; 35289; 35367; 35647;
   37253; 37446; 37663; 37697; 38148; 39543; 39842; 42551; 42745; 42801; 42960; 43060;
   43381; 43463; 43514; 44814; 44892; 45506; 46556; 47173; 47291; 47370; 47979; 48080;
   48154; 49083; 49317; 49363; 49673; 49986; 50302; 50314; 51541; 51632; 51673; 52019;
   52309; 52353; 53297; 53423; 54118; 54642; 55680; 56635; 56884; 57330; 57445; 57715;
   58153; 59351; 59367; 59563; 60138; 60305; 60705; 60835; 61296; 61298; 61690; 62645;
   63028; 63135; 63297; 63604; 63784; 63794; 64683; 65237; 67349; 68400; 68499; 70119;
   71442; 72012; 72548; 72738; 72763; 72800; 74136; 74997; 76190; 76304; 77546; 78745;
   79208; 79547; 79641; 79983; 80144; 80677; 80679; 80839; 81006; 82678; 84039; 84285;
   84427; 86061; 86547; 86562; 86975; 87037; 89390; 89515; 90061; 90638; 91076; 91561;
   91654; 91700; 91878; 92453; 92805; 93933; 94515; 94927; 95531; 96104; 96950; 97689;
   98136; 98441; 98712; 99895; 101124; 102023; 102246; 102377; 102464; 102938; 102942;
   103616; 103643; 104263; 104488; 105382; 105432; 105774; 106155; 106644; 106654;
   107482; 108254; 108258; 108709; 108862; 109474; 109566; 111067; 111610; 112010;
   112459; 113593; 113693; 115699; 116064; 116773; 116863; 116936; 117045; 117460;
   117477; 118073; 118633; 119003; 120082; 120340; 121176; 121751; 121815; 121869;
   121894; 122372; 122838; 123071; 124244; 125185; 125449; 126198; 127807; 129241].

(** Stores each key with an empty value at time 1, with the default options. *)
Fixpoint store_all (keys : list bytes) (sts : list Z) (sh : shard_t) (w : world)
    : option (list Z * shard_t * world) :=
  match keys with
  | [] => Some (sts, sh, w)
  | key :: keys =>
      '(st, sh, w, _) ← storeop ctx0 0 key []
         (StoreOpts 1 0 0 0 0 false false false false false None) 0 (hash_of key) sh w tt;
      store_all keys (st :: sts) sh w
  end.

(** The status of a plain load at time 2. *)
Definition status_of (key : bytes) (sh : shard_t) (w : world) : option Z :=
  '(st, _, _, _) ← loadop ctx0 0 key (LoadOpts 2 true None) 0 (hash_of key) sh w tt; Some st.

(** The distance of a bucket is one byte and wraps: 256 keys with the same
    home bucket are all reported as inserted and counted, yet the last one is
    written into a bucket that then counts as empty, and is not found. *)
Theorem crowd_loses_entry :
  match store_all crowd [] shard0 w0 with
  | Some (sts, sh, w) =>
      sts = repeat POGOCACHE_INSERTED 256 ∧ m_count (s_map sh) = 256 ∧
      status_of (word 129241) sh w = Some POGOCACHE_NOTFOUND ∧
      status_of (word 700) sh w = Some POGOCACHE_FOUND
  | None => False
  end.
Proof. vm_compute. repeat split. Qed.

(** ** Clearing at the time of a store *)

(** A clear at the time at which the entry was stored counts the entry as
    cleared although it stays alive: the count says zero while the entry is
    found, and after the entry is deleted the count is 2^64 - 1. *)
Theorem clear_same_time_count :
  let sh := clearop 5 shard1 in
  countop sh = 0 ∧ status_of key_ab sh w1 = Some POGOCACHE_FOUND ∧
  match deleteop ctx0 0 key_ab (DeleteOpts 6 None) 0 (hash_of key_ab) sh w1 tt with
  | Some (st, sh', _, _) => st = POGOCACHE_DELETED ∧ countop sh' = 2 ^ 64 - 1
  | None => False
  end.
Proof. vm_compute. repeat split. Qed.

(** ** Memory that stays accounted *)

(** When [loadop] drops a dead entry the memory of the entry stays in the
    size of the shard: the shard is empty and still reports its bytes. *)
Theorem load_drop_keeps_size :
  match loadop ctx0 0 key_ab (LoadOpts 9 false None) 0 (hash_of key_ab) (clearop 7 shard1) w1 tt with
  | Some (st, sh', w', _) =>
      st = POGOCACHE_NOTFOUND ∧ m_count (s_map sh') = 0 ∧ w_heap w' = ∅ ∧ sizeop sh' true = 14
  | None => False
  end.
Proof. vm_compute. repeat split. Qed.
