(* ===== verification/Cache.v ===== *)
(** * Cache: shards, locks, batches and the public operations

    [struct pogocache] of [src/src/pogocache.c]: creation and destruction, the
    spin locks and the batches that hold several of them, and the public
    functions of [src/src/pogocache.h], which pick the shard of a key, take its
    lock, run the operation of [Shard.v] and release the lock unless a batch
    keeps it. A call that would spin forever, because the lock it needs is held
    by another handle, is [None]. *)

From S2P Require Import Prelude Util Context Entry Heap Map Shard.

(** The null pointer among shards. *)
Definition no_shard : Z := -1.

(** The fields [lock] and [next] of [struct shard]. *)
Record lock_t := Lock { lk_word : Z; lk_next : Z }.

Definition UINTPTR_MAX : Z := 2 ^ 64 - 1.

(** [struct pogocache] of a root cache: the context, the shards, their locks. *)
Record cache_t := Cache {
  c_ctx : pgctx; c_shards : list shard_t; c_locks : list lock_t
}.

(** [struct batch] at an address, and what lies in the union where a root cache
    has [ctx.nshards]. *)
Record batch_t := Batch { bt_addr : Z; bt_shard : Z; bt_time : Z; bt_overlay : Z }.

(** The [struct pogocache *] a caller passes: the cache itself or a batch. *)
Inductive handle := Root | InBatch (b : batch_t).

Definition set_shard (c : cache_t) (i : Z) (sh : shard_t) : cache_t :=
  Cache (c_ctx c) (<[Z.to_nat i := sh]> (c_shards c)) (c_locks c).
Definition set_lock (c : cache_t) (i : Z) (l : lock_t) : cache_t :=
  Cache (c_ctx c) (c_shards c) (<[Z.to_nat i := l]> (c_locks c)).

(** [shard_get] and the lock of that shard. *)
Definition shard_get (c : cache_t) (index : Z) : option shard_t :=
  if index <? 0 then None else c_shards c !! Z.to_nat index.
Definition lock_get (c : cache_t) (index : Z) : option lock_t :=
  if index <? 0 then None else c_locks c !! Z.to_nat index.

Definition shard_index (ctx : pgctx) (hash : Z) : Z := (hash .>> 32) mod nshards ctx.

(** ** Creation and destruction *)

(** The loop of [pogocache_free]; [None] is a shard that was never written. *)
Fixpoint free_loop (shards : list (option shard_t)) (w : world) : option world :=
  match shards with
  | [] => Some w
  | None :: _ => None
  | Some sh :: shards => w ← shard_deinit w sh; free_loop shards w
  end.

Definition pogocache_free (c : cache_t) (w : world) : option world :=
  free_loop (Some <$> c_shards c) w.

(** The loop of [pogocache_new]: [done] shards are initialised, [todo] are not
    yet. The result is the shards, or nothing after a failed allocation. *)
Fixpoint new_loop `{Env} (ctx : pgctx) (todo : nat) (done : list shard_t) (w : world)
    : option (option (list shard_t) * world) :=
  match todo with
  | O => Some (Some done, w)
  | S todo =>
      let '(ok, sh, w) := shard_init ctx w in
      if negb ok then
        (* nomem: free the cache with all its shards *)
        w ← free_loop ((Some <$> (done ++ [sh])) ++ repeat None todo) w;
        Some (None, w)
      else new_loop ctx todo (done ++ [sh]) w
  end.

(** [sizeof(struct pogocache)] on a 64-bit target. *)
Definition sizeof_pogocache : Z := 96.

Definition pogocache_new `{Env} (opts : pogocache_opts) (w : world)
    : option (option cache_t * world) :=
  let shards := if o_nshards opts <=? 0 then DEFSHARDS else o_nshards opts in
  let size := sizeof_pogocache + shards * sizeof_shard in
  let '(mem, w) := do_malloc w size in
  match mem with
  | None => Some (None, w)
  | Some _ =>
      let ctx := opts_to_ctx shards opts in
      '(r, w) ← new_loop ctx (Z.to_nat shards) [] w;
      match r with
      | None => Some (None, w)
      | Some shs =>
          Some (Some (Cache ctx shs (repeat (Lock 0 no_shard) (length shs))), w)
      end
  end.

(** ** Batches and locks *)

(** [pogocache_begin]: the batch is the thread-local one, at address [thbatch],
    or a fresh allocation; [overlay] is what its memory holds. *)
Definition pogocache_begin `{Env} (ctx : pgctx) (thbatch overlay : Z) (w : world)
    : option batch_t * world :=
  if usethreadbatch ctx then (Some (Batch thbatch no_shard 0 overlay), w)
  else
    let '(mem, w) := do_malloc w sizeof_pogocache in
    ((λ addr, Batch addr no_shard 0 overlay) <$> mem, w).

(** The loop of [pogocache_end] over the locked shards. *)
Fixpoint end_loop (fuel : nat) (shard : Z) (c : cache_t) : option cache_t :=
  if shard =? no_shard then Some c
  else
    match fuel with
    | O => None
    | S fuel =>
        l ← lock_get c shard;
        let next := lk_next l in
        end_loop fuel next (set_lock c shard (Lock 0 no_shard))
    end.

Definition pogocache_end (b : batch_t) (c : cache_t) : option cache_t :=
  end_loop (length (c_locks c)) (bt_shard b) c.

(** [lock]: the compare-and-exchange loop. *)
Definition lock (h : handle) (i : Z) (c : cache_t) : option (handle * cache_t) :=
  l ← lock_get c i;
  match h with
  | InBatch b =>
      if lk_word l =? 0 then
        let c := set_lock c i (Lock (bt_addr b) (bt_shard b)) in
        Some (InBatch (Batch (bt_addr b) i (bt_time b) (bt_overlay b)), c)
      else if lk_word l =? bt_addr b then Some (h, c)
      else None
  | Root =>
      if lk_word l =? 0 then Some (h, set_lock c i (Lock UINTPTR_MAX (lk_next l)))
      else None
  end.

(** The release at the end of the [ACQUIRE_FOR_..._AND_EXECUTE] macros. *)
Definition release (h : handle) (i : Z) (c : cache_t) : option cache_t :=
  match h with
  | InBatch _ => Some c
  | Root => l ← lock_get c i; Some (set_lock c i (Lock 0 (lk_next l)))
  end.

(** [ACQUIRE_FOR_SCAN_AND_EXECUTE]: the operation on shard [i] under its lock. *)
Definition execute {S R : Type} (i : Z) (h : handle) (c : cache_t) (s : S)
    (op : shard_t → S → option (R * shard_t * S)) : option (R * handle * cache_t * S) :=
  '(h, c) ← lock h i c;
  sh ← shard_get c i;
  '(r, sh, s) ← op sh s;
  c ← release h i (set_shard c i sh);
  Some (r, h, c, s).

(** ** Operations on a key *)

Section Api.
Context `{Env} {U : Type}.

(** [ACQUIRE_FOR_KEY_AND_EXECUTE] with [acquire_for_key]. *)
Definition execute_key (key : bytes) (h : handle) (c : cache_t) (w : world) (u : U)
    (op : Z → Z → shard_t → world → U → option (Z * shard_t * world * U))
    : option (Z * handle * cache_t * world * U) :=
  let fhash := th64 key (seed (c_ctx c)) in
  let shardidx := shard_index (c_ctx c) fhash in
  let hash := u32 fhash in
  '(st, h, c, wu) ← execute shardidx h c (w, u)
     (λ sh wu, '(st, sh, w, u) ← op shardidx hash sh wu.1 wu.2; Some (st, sh, (w, u)));
  Some (st, h, c, wu.1, wu.2).

Definition pogocache_store (clock : Z) (key val : bytes) (opts : store_opts U) (h : handle)
    (c : cache_t) (w : world) (u : U) : option (Z * handle * cache_t * world * U) :=
  execute_key key h c w u
    (λ shardidx hash, storeop (c_ctx c) clock key val opts shardidx hash).

Definition pogocache_load (clock : Z) (key : bytes) (opts : load_opts U) (h : handle)
    (c : cache_t) (w : world) (u : U) : option (Z * handle * cache_t * world * U) :=
  execute_key key h c w u (λ shardidx hash, loadop (c_ctx c) clock key opts shardidx hash).

Definition pogocache_delete (clock : Z) (key : bytes) (opts : delete_opts U) (h : handle)
    (c : cache_t) (w : world) (u : U) : option (Z * handle * cache_t * world * U) :=
  execute_key key h c w u (λ shardidx hash, deleteop (c_ctx c) clock key opts shardidx hash).

(** ** Scans over the shards

    The macro assigns the root cache to the variable [cache] of the function
    that uses it: from the second turn of a loop on, the shards are locked as by
    a caller without a batch. The loops return the handle as it is after the
    first turn. *)

Definition iter_shard (now : Z) (opts : iter_opts U) (i : Z) (h : handle) (c : cache_t)
    (wu : world * U) : option (Z * handle * cache_t * (world * U)) :=
  execute i h c wu (λ sh wu,
    '(st, sh, w, u) ← iterop (c_ctx c) i now opts sh wu.1 wu.2; Some (st, sh, (w, u))).

(** The loop of [pogocache_iter] from shard [i] on. *)
Fixpoint iter_shards (todo : nat) (now : Z) (opts : iter_opts U) (i : Z) (h : handle)
    (c : cache_t) (wu : world * U) : option (Z * handle * cache_t * (world * U)) :=
  match todo with
  | O => Some (POGOCACHE_FINISHED, h, c, wu)
  | S todo =>
      '(st, h, c, wu) ← iter_shard now opts i h c wu;
      if negb (st =? POGOCACHE_FINISHED) then Some (st, h, c, wu)
      else '(st, _, c, wu) ← iter_shards todo now opts (i + 1) Root c wu; Some (st, h, c, wu)
  end.

Definition pogocache_iter (clock : Z) (opts : iter_opts U) (h : handle) (c : cache_t)
    (wu : world * U) : option (Z * handle * cache_t * (world * U)) :=
  let n := nshards (c_ctx c) in
  let now := opt_now (io_time opts) clock in
  if io_oneshard opts then
    if (io_oneshardidx opts <? 0) || (n <=? io_oneshardidx opts) then
      Some (POGOCACHE_FINISHED, h, c, wu)
    else iter_shard now opts (io_oneshardidx opts) h c wu
  else iter_shards (Z.to_nat n) now opts 0 h c wu.
End Api.

(** [pogocache_count_opts], [_total_opts], [_size_opts], [_sweep_opts] and
    [_clear_opts]; [entriesonly] is of the size options only. *)
Record scan_opts := ScanOpts {
  sc_time : Z; sc_oneshard : bool; sc_oneshardidx : Z; sc_entriesonly : bool
}.

(** The loops of [pogocache_count], [_total] and [_size]: sums a reading of
    each shard from [i] on. *)
Fixpoint sum_shards (todo : nat) (read : shard_t → Z) (i count : Z) (h : handle) (c : cache_t)
    : option (Z * handle * cache_t) :=
  match todo with
  | O => Some (count, h, c)
  | S todo =>
      '(x, h, c, _) ← execute i h c tt (λ sh s, Some (read sh, sh, s));
      '(count, _, c) ← sum_shards todo read (i + 1) (u64 (count + x)) Root c;
      Some (count, h, c)
  end.

Definition scan_sum (read : shard_t → Z) (opts : scan_opts) (h : handle) (c : cache_t)
    : option (Z * handle * cache_t) :=
  let n := nshards (c_ctx c) in
  if sc_oneshard opts then
    if (sc_oneshardidx opts <? 0) || (n <=? sc_oneshardidx opts) then Some (0, h, c)
    else
      '(x, h, c, _) ← execute (sc_oneshardidx opts) h c tt (λ sh s, Some (read sh, sh, s));
      Some (x, h, c)
  else sum_shards (Z.to_nat n) read 0 0 h c.

Definition pogocache_count (opts : scan_opts) (h : handle) (c : cache_t) :=
  scan_sum countop opts h c.
Definition pogocache_total (opts : scan_opts) (h : handle) (c : cache_t) :=
  scan_sum totalop opts h c.
Definition pogocache_size (opts : scan_opts) (h : handle) (c : cache_t) :=
  scan_sum (λ sh, sizeop sh (sc_entriesonly opts)) opts h c.

Definition sweep_shard `{Env} (now i : Z) (h : handle) (c : cache_t) (w : world)
    : option (Z * Z * handle * cache_t * world) :=
  '(sk, h, c, w) ← execute i h c w (λ sh w,
     '(swept, kept, sh, w) ← sweepop (c_ctx c) i now 0 0 sh w; Some ((swept, kept), sh, w));
  Some (sk.1, sk.2, h, c, w).

(** The loop of [pogocache_sweep]. *)
Fixpoint sweep_shards `{Env} (todo : nat) (now i sweptc keptc : Z) (h : handle) (c : cache_t)
    (w : world) : option (Z * Z * handle * cache_t * world) :=
  match todo with
  | O => Some (sweptc, keptc, h, c, w)
  | S todo =>
      '(swept2, kept2, h, c, w) ← sweep_shard now i h c w;
      '(sweptc, keptc, _, c, w) ←
         sweep_shards todo now (i + 1) (u64 (sweptc + swept2)) (u64 (keptc + kept2)) Root c w;
      Some (sweptc, keptc, h, c, w)
  end.

Definition pogocache_sweep `{Env} (clock : Z) (opts : scan_opts) (h : handle) (c : cache_t)
    (w : world) : option (Z * Z * handle * cache_t * world) :=
  let n := nshards (c_ctx c) in
  let now := opt_now (sc_time opts) clock in
  if sc_oneshard opts then
    if (0 <=? sc_oneshardidx opts) && (sc_oneshardidx opts <? n) then
      sweep_shard now (sc_oneshardidx opts) h c w
    else Some (0, 0, h, c, w)
  else sweep_shards (Z.to_nat n) now 0 0 0 h c w.

Definition clear_shard (now i : Z) (h : handle) (c : cache_t) : option (handle * cache_t) :=
  '(_, h, c, _) ← execute i h c tt (λ sh s, Some (tt, clearop now sh, s));
  Some (h, c).

(** The loop of [pogocache_clear]. *)
Fixpoint clear_shards (todo : nat) (now i : Z) (h : handle) (c : cache_t)
    : option (handle * cache_t) :=
  match todo with
  | O => Some (h, c)
  | S todo =>
      '(h, c) ← clear_shard now i h c;
      '(_, c) ← clear_shards todo now (i + 1) Root c;
      Some (h, c)
  end.

(** [pogocache_clear]. The loop over all shards first tests [cache->ctx.nshards]
    of the handle it was given, which for a batch is not the number of shards,
    and from the second turn on that of the root cache. *)
Definition pogocache_clear (clock : Z) (opts : scan_opts) (h : handle) (c : cache_t)
    : option (handle * cache_t) :=
  let n := nshards (c_ctx c) in
  let now := opt_now (sc_time opts) clock in
  if sc_oneshard opts then
    if (sc_oneshardidx opts <? 0) || (n <=? sc_oneshardidx opts) then Some (h, c)
    else clear_shard now (sc_oneshardidx opts) h c
  else
    match h with
    | Root => clear_shards (Z.to_nat n) now 0 h c
    | InBatch b =>
        if 0 <? bt_overlay b then clear_shards (Z.to_nat n) now 0 h c else Some (h, c)
    end.

Definition pogocache_sweep_poll (time clock pollsize : Z) (h : handle) (c : cache_t) (w : world)
    : option (double * handle * cache_t) :=
  let n := nshards (c_ctx c) in
  let now := opt_now time clock in
  let pollsize := if pollsize =? 0 then 20 else pollsize in
  let shardidx := mix13 (u64 now) mod n in
  '(percent, h, c, _) ← execute shardidx h c tt (λ sh s,
     p ← sweeppollop (w_heap w) sh shardidx now pollsize; Some (p, sh, s));
  Some (percent, h, c).
