(* ===== verification/Locks.v ===== *)
(** * Locks: batches and the interleaving of threads

    A batch links the shards it has locked through their [next] fields;
    [pogocache_end] walks the list. [step] is the interleaving of threads that
    take a lock with the compare-and-exchange of [lock], work on the shard and
    release it, and of batches that keep their locks until they end. The
    invariant gives mutual exclusion and that no lock is lost. *)

From S2P Require Import Prelude Util Context Entry Heap Map Shard Cache.

(** ** The list of locked shards *)

(** The shards [l] from [s] on, linked and locked by the batch at [addr]. *)
Fixpoint chain (c : cache_t) (addr : Z) (l : list Z) (s : Z) : Prop :=
  match l with
  | [] => s = no_shard
  | i :: l => s = i ∧ ∃ k, lock_get c i = Some k ∧ lk_word k = addr ∧ chain c addr l (lk_next k)
  end.

Record batch_ok (c : cache_t) (b : batch_t) (l : list Z) : Prop := {
  bo_addr : 0 < bt_addr b < UINTPTR_MAX;
  bo_nodup : NoDup l;
  bo_chain : chain c (bt_addr b) l (bt_shard b);
  bo_all i k : lock_get c i = Some k → lk_word k = bt_addr b → i ∈ l
}.

Lemma lock_get_range c i k :
  lock_get c i = Some k → 0 <= i < Z.of_nat (length (c_locks c)).
Proof.
  unfold lock_get. destruct (i <? 0) eqn:E; zb; [easy|]. intros H%lookup_lt_Some. lia.
Qed.

Lemma lock_get_set c i j k k0 :
  lock_get c i = Some k0 →
  lock_get (set_lock c i k) j = if decide (i = j) then Some k else lock_get c j.
Proof.
  intros Hi. apply lock_get_range in Hi. unfold lock_get, set_lock. cbn [c_locks].
  destruct (decide (i = j)) as [<-|Hne].
  - rewrite (proj2 (Z.ltb_ge i 0)) by lia. apply list_lookup_insert_eq. lia.
  - destruct (j <? 0) eqn:E; zb; [easy|]. apply list_lookup_insert_ne. lia.
Qed.

Lemma chain_frame c c' addr l s :
  (∀ i, i ∈ l → lock_get c' i = lock_get c i) → chain c addr l s → chain c' addr l s.
Proof.
  revert s. induction l as [|i l IH]; intros s Hf; cbn; [easy|].
  intros (-> & k & Hk & Hw & Hc). split; [easy|]. exists k.
  rewrite Hf by constructor. do 2 (split; [easy|]). apply IH; [|easy].
  intros j Hj. apply Hf. now constructor.
Qed.

Lemma chain_range c addr l s :
  chain c addr l s → Forall (λ i, ∃ k, lock_get c i = Some k ∧ lk_word k = addr) l.
Proof.
  revert s. induction l as [|i l IH]; intros s; cbn; [constructor|].
  intros (_ & k & Hk & Hw & Hc). constructor; eauto.
Qed.

Lemma chain_short c addr l s :
  NoDup l → chain c addr l s → (length l <= length (c_locks c))%nat.
Proof.
  intros Hnd Hc%chain_range.
  assert (Hle : (length l <= length (seqZ 0 (Z.of_nat (length (c_locks c)))))%nat).
  { apply NoDup_incl_length; [now apply NoDup_ListNoDup|]. intros i Hi. apply list_elem_of_In.
    apply list_elem_of_In in Hi. rewrite Forall_forall in Hc. destruct (Hc i Hi) as (k & Hk & _).
    apply lock_get_range in Hk. apply elem_of_seqZ. lia. }
  rewrite length_seqZ in *. lia.
Qed.

(** The loop of [pogocache_end] frees exactly the shards of the list. *)
Lemma end_loop_spec addr l : ∀ fuel c s,
  NoDup l → chain c addr l s → (length l <= fuel)%nat →
  ∃ c', end_loop fuel s c = Some c' ∧ c_ctx c' = c_ctx c ∧ c_shards c' = c_shards c ∧
    length (c_locks c') = length (c_locks c) ∧
    ∀ i, lock_get c' i = if decide (i ∈ l) then Some (Lock 0 no_shard) else lock_get c i.
Proof.
  induction l as [|j l IH]; intros fuel c s Hnd Hc Hf.
  - cbn in Hc. subst s. exists c. destruct fuel; cbn; easy.
  - apply NoDup_cons in Hnd as [Hj Hnd]. destruct Hc as (-> & k & Hk & Hw & Hc).
    destruct fuel as [|fuel]; [cbn in Hf; lia|]. cbn [end_loop].
    pose proof (lock_get_range _ _ _ Hk). unfold no_shard at 1.
    rewrite (proj2 (Z.eqb_neq j (-1))) by lia. rewrite Hk. mstep.
    destruct (IH fuel (set_lock c j (Lock 0 no_shard)) (lk_next k) Hnd) as (c' & H1 & H2 & H3 & H4 & H5).
    + eapply chain_frame; [|exact Hc]. intros i Hi. rewrite (lock_get_set _ _ _ _ _ Hk).
      destruct (decide (j = i)); [congruence|easy].
    + cbn in Hf. lia.
    + exists c'. split; [exact H1|]. split; [exact H2|]. split; [exact H3|].
      split; [rewrite H4; cbn; apply length_insert|]. intros i. rewrite H5.
      rewrite (lock_get_set _ _ _ _ _ Hk).
      destruct (decide (i ∈ l)) as [Hi|Hi], (decide (i ∈ j :: l)) as [Hi'|Hi'];
        rewrite elem_of_cons in Hi'; destruct (decide (j = i)); subst; try easy; try tauto.
      destruct Hi'; [congruence|tauto].
Qed.

Lemma end_spec c b l :
  batch_ok c b l →
  ∃ c', pogocache_end b c = Some c' ∧ c_ctx c' = c_ctx c ∧ c_shards c' = c_shards c ∧
    length (c_locks c') = length (c_locks c) ∧
    ∀ i, lock_get c' i = if decide (i ∈ l) then Some (Lock 0 no_shard) else lock_get c i.
Proof.
  intros []. apply (end_loop_spec (bt_addr b) l); try easy. now apply (chain_short c (bt_addr b) l (bt_shard b)).
Qed.

(** Taking a lock keeps the list of the batch. *)
Lemma lock_batch_ok c b l i h' c' :
  batch_ok c b l → lock (InBatch b) i c = Some (h', c') →
  ∃ b' l', h' = InBatch b' ∧ bt_addr b' = bt_addr b ∧ batch_ok c' b' l' ∧ i ∈ l' ∧
    (∀ j, j ∈ l' ↔ j = i ∨ j ∈ l) ∧
    (∀ j, i ≠ j → lock_get c' j = lock_get c j) ∧
    ∃ k, lock_get c i = Some k ∧ (lk_word k = 0 ∨ lk_word k = bt_addr b) ∧
      c_shards c' = c_shards c ∧ c_ctx c' = c_ctx c.
Proof.
  intros Hb. pose proof Hb as [Ha Hnd Hc Hall]. unfold lock.
  destruct (lock_get c i) as [k|] eqn:Hk; [|easy]. mstep. destruct (lk_word k =? 0) eqn:Ew; zb.
  - intros [= <- <-]. eexists _, (i :: l). split; [reflexivity|]. split; [reflexivity|].
    assert (Hi : i ∉ l).
    { intros Hi. apply chain_range in Hc. rewrite Forall_forall in Hc.
      destruct (Hc i Hi) as (k' & Hk' & Hw). rewrite Hk in Hk'. injection Hk' as <-. lia. }
    split; [|split; [now constructor|split; [set_solver|split]]].
    + split; cbn [bt_addr bt_shard]; [easy|now constructor| |].
      * cbn. split; [easy|]. eexists. rewrite (lock_get_set _ _ _ _ _ Hk), decide_True by easy.
        split; [reflexivity|]. split; [easy|]. cbn. eapply chain_frame; [|exact Hc].
        intros j Hj. rewrite (lock_get_set _ _ _ _ _ Hk), decide_False by congruence. easy.
      * intros j k'. rewrite (lock_get_set _ _ _ _ _ Hk). destruct (decide (i = j)) as [->|].
        -- intros _ _. constructor.
        -- intros H1 H2. constructor. eauto.
    + intros j Hj. now rewrite (lock_get_set _ _ _ _ _ Hk), decide_False by easy.
    + exists k. auto.
  - destruct (lk_word k =? bt_addr b) eqn:Eb; zb; [|easy]. intros [= <- <-].
    exists b, l. split; [easy|]. split; [easy|]. split; [easy|].
    pose proof (Hall i k Hk Eb). split; [easy|]. split; [set_solver|].
    split; [easy|]. exists k. auto.
Qed.

(** ** Interleaving

    The steps of threads and batches: taking the lock of a shard, working on a
    shard whose lock is held, releasing. The end of a batch gives back all of its
    locks in one step; in the code it is a loop of atomic releases, between which
    other threads may take the locks already given back. *)

(** The cache, the shard each thread works on without a batch, the batches. *)
Record sys := Sys { sy_cache : cache_t; sy_roots : gmap nat Z; sy_batches : gmap nat batch_t }.

Inductive step `{Env} : sys → sys → Prop :=
  | root_lock t i c c' rs bs :
      rs !! t = None → lock Root i c = Some (Root, c') →
      step (Sys c rs bs) (Sys c' (<[t := i]> rs) bs)
  | root_work t i c sh rs bs :
      rs !! t = Some i → step (Sys c rs bs) (Sys (set_shard c i sh) rs bs)
  | root_release t i c c' rs bs :
      rs !! t = Some i → release Root i c = Some c' →
      step (Sys c rs bs) (Sys c' (delete t rs) bs)
  | batch_begin n b thbatch overlay w w' c rs bs :
      bs !! n = None → pogocache_begin (c_ctx c) thbatch overlay w = (Some b, w') →
      0 < bt_addr b < UINTPTR_MAX →
      (∀ n' b', bs !! n' = Some b' → bt_addr b' ≠ bt_addr b) →
      step (Sys c rs bs) (Sys c rs (<[n := b]> bs))
  | batch_lock n b b' i c c' rs bs :
      bs !! n = Some b → lock (InBatch b) i c = Some (InBatch b', c') →
      step (Sys c rs bs) (Sys c' rs (<[n := b']> bs))
  | batch_work n b i k c sh rs bs :
      bs !! n = Some b → lock_get c i = Some k → lk_word k = bt_addr b →
      step (Sys c rs bs) (Sys (set_shard c i sh) rs bs)
  | batch_end n b c c' rs bs :
      bs !! n = Some b → pogocache_end b c = Some c' →
      step (Sys c rs bs) (Sys c' rs (delete n bs)).

Record sys_ok (s : sys) : Prop := {
  so_root t i : sy_roots s !! t = Some i →
    ∃ k, lock_get (sy_cache s) i = Some k ∧ lk_word k = UINTPTR_MAX;
  so_root_inj t t' i : sy_roots s !! t = Some i → sy_roots s !! t' = Some i → t = t';
  so_batch n b : sy_batches s !! n = Some b → ∃ l, batch_ok (sy_cache s) b l;
  so_batch_inj n n' b b' : sy_batches s !! n = Some b → sy_batches s !! n' = Some b' →
    bt_addr b = bt_addr b' → n = n';
  so_owner i k : lock_get (sy_cache s) i = Some k →
    lk_word k = 0 ∨ (lk_word k = UINTPTR_MAX ∧ ∃ t, sy_roots s !! t = Some i) ∨
    ∃ n b, sy_batches s !! n = Some b ∧ lk_word k = bt_addr b
}.

(** A lock of somebody else changes. *)
Lemma batch_ok_frame c c' b l :
  (∀ j, (∃ k, lock_get c j = Some k ∧ lk_word k = bt_addr b) ∨
        (∃ k, lock_get c' j = Some k ∧ lk_word k = bt_addr b) → lock_get c' j = lock_get c j) →
  batch_ok c b l → batch_ok c' b l.
Proof.
  intros Hf []. split; try easy.
  - apply (chain_frame c); [|easy]. intros j Hj. apply Hf. left.
    apply chain_range in bo_chain0. rewrite Forall_forall in bo_chain0. eauto.
  - intros j k Hk Hw. apply (bo_all0 j k); [|easy]. rewrite <- Hk. symmetry. apply Hf. eauto.
Qed.

(** Rewriting a lock word that is not the batch's into another that is not. *)
Lemma batch_ok_other c b l i k k' :
  lock_get c i = Some k → lk_word k ≠ bt_addr b → lk_word k' ≠ bt_addr b →
  batch_ok c b l → batch_ok (set_lock c i k') b l.
Proof.
  intros Hk Hn Hn'. apply batch_ok_frame. intros j Hj. rewrite (lock_get_set _ _ _ _ _ Hk) in *.
  destruct (decide (i = j)) as [<-|]; [|easy]. exfalso.
  destruct Hj as [(k1 & H1 & H2)|(k1 & [= <-] & H2)]; congruence.
Qed.

Lemma batch_addr_range s n b :
  sys_ok s → sy_batches s !! n = Some b → 0 < bt_addr b < UINTPTR_MAX.
Proof. intros Hs Hb. destruct (so_batch _ Hs n b Hb) as [l []]. easy. Qed.

Lemma sys_ok_root_lock t i c c' rs bs :
  sys_ok (Sys c rs bs) → rs !! t = None → lock Root i c = Some (Root, c') →
  sys_ok (Sys c' (<[t := i]> rs) bs).
Proof.
  intros Hs Ht. unfold lock. destruct (lock_get c i) as [k|] eqn:Hk; [|easy]. mstep.
  destruct (lk_word k =? 0) eqn:Ew; zb; [|easy]. intros [= <-].
  pose proof (λ j, lock_get_set c i j (Lock UINTPTR_MAX (lk_next k)) k Hk) as Hget.
  assert (Hfree : ∀ t', rs !! t' ≠ Some i).
  { intros t' Ht'. destruct (so_root _ Hs t' i Ht') as (k' & Hk' & Hw). cbn in Hk'.
    rewrite Hk in Hk'. injection Hk' as <-. rewrite Hw in Ew. discriminate. }
  split; cbn [sy_cache sy_roots sy_batches].
  - intros t' j [[<- <-]|[Hne Ht']]%lookup_insert_Some.
    + rewrite Hget, decide_True by easy. eauto.
    + rewrite Hget, decide_False by (intros <-; now apply (Hfree t')).
      exact (so_root _ Hs t' j Ht').
  - intros t1 t2 j [[<- <-]|[Hne H1]]%lookup_insert_Some [[<- E]|[Hne' H2]]%lookup_insert_Some;
      try easy.
    + now destruct (Hfree t2).
    + subst. now destruct (Hfree t1).
    + exact (so_root_inj _ Hs t1 t2 j H1 H2).
  - intros n b Hb. destruct (so_batch _ Hs n b Hb) as [l Hl].
    pose proof (batch_addr_range _ n b Hs Hb). exists l.
    apply (batch_ok_other c b l i k); [easy|lia| |easy]. cbn. lia.
  - intros n n' b b'. exact (so_batch_inj _ Hs n n' b b').
  - intros j k'. rewrite Hget. destruct (decide (i = j)) as [<-|Hne].
    + intros [= <-]. right. left. split; [easy|]. exists t. apply lookup_insert_eq.
    + intros Hj. destruct (so_owner _ Hs j k' Hj) as [?|[[? [t' Ht']]|?]]; [auto| |auto].
      right. left. split; [easy|]. exists t'. rewrite lookup_insert_ne; [easy|].
      intros ->. cbn in Ht'. congruence.
Qed.

Lemma sys_ok_root_release t i c c' rs bs :
  sys_ok (Sys c rs bs) → rs !! t = Some i → release Root i c = Some c' →
  sys_ok (Sys c' (delete t rs) bs).
Proof.
  intros Hs Ht. destruct (so_root _ Hs t i Ht) as (k & Hk & Hw). cbn in Hk.
  unfold release. rewrite Hk. mstep. intros [= <-].
  pose proof (λ j, lock_get_set c i j (Lock 0 (lk_next k)) k Hk) as Hget.
  split; cbn [sy_cache sy_roots sy_batches].
  - intros t' j [Hne Ht']%lookup_delete_Some. rewrite Hget, decide_False.
    + exact (so_root _ Hs t' j Ht').
    + intros <-. apply Hne. exact (so_root_inj _ Hs t t' i Ht Ht').
  - intros t1 t2 j [_ H1]%lookup_delete_Some [_ H2]%lookup_delete_Some.
    exact (so_root_inj _ Hs t1 t2 j H1 H2).
  - intros n b Hb. destruct (so_batch _ Hs n b Hb) as [l Hl].
    pose proof (batch_addr_range _ n b Hs Hb). exists l.
    apply (batch_ok_other c b l i k); [easy|lia| |easy]. cbn. lia.
  - intros n n' b b'. exact (so_batch_inj _ Hs n n' b b').
  - intros j k'. rewrite Hget. destruct (decide (i = j)) as [<-|Hne].
    + intros [= <-]. now left.
    + intros Hj. destruct (so_owner _ Hs j k' Hj) as [?|[[? [t' Ht']]|?]]; [auto| |auto].
      right. left. split; [easy|]. exists t'. rewrite lookup_delete_ne; [easy|].
      intros ->. cbn in Ht'. congruence.
Qed.

Lemma sys_ok_batch_begin n b c rs bs :
  sys_ok (Sys c rs bs) → bs !! n = None → bt_shard b = no_shard → 0 < bt_addr b < UINTPTR_MAX →
  (∀ n' b', bs !! n' = Some b' → bt_addr b' ≠ bt_addr b) →
  sys_ok (Sys c rs (<[n := b]> bs)).
Proof.
  intros Hs Hn Hb Ha Hfresh. split; cbn [sy_cache sy_roots sy_batches].
  - exact (so_root _ Hs).
  - exact (so_root_inj _ Hs).
  - intros n' b' [[<- <-]|[_ Hb']]%lookup_insert_Some; [|exact (so_batch _ Hs n' b' Hb')].
    exists []. split; [easy|constructor|exact Hb|]. intros i k Hk Hw. exfalso.
    destruct (so_owner _ Hs i k Hk) as [H0|[[H0 _]|(n' & b' & Hb' & H0)]]; [lia|lia|].
    apply (Hfresh n' b' Hb'). congruence.
  - intros n1 n2 b1 b2 [[<- <-]|[_ H1]]%lookup_insert_Some [[<- <-]|[_ H2]]%lookup_insert_Some E.
    + easy.
    + now destruct (Hfresh n2 b2).
    + now destruct (Hfresh n1 b1).
    + exact (so_batch_inj _ Hs n1 n2 b1 b2 H1 H2 E).
  - intros i k Hk. destruct (so_owner _ Hs i k Hk) as [?|[?|(n' & b' & Hb' & H0)]]; [auto|auto|].
    right. right. exists n', b'. rewrite lookup_insert_ne; [auto|]. intros ->. cbn in Hb'. congruence.
Qed.

Lemma sys_ok_batch_lock n b b' i c c' rs bs :
  sys_ok (Sys c rs bs) → bs !! n = Some b → lock (InBatch b) i c = Some (InBatch b', c') →
  sys_ok (Sys c' rs (<[n := b']> bs)).
Proof.
  intros Hs Hn Hlock. destruct (so_batch _ Hs n b Hn) as [l Hl]. cbn [sy_cache] in Hl.
  destruct (lock_batch_ok _ _ _ _ _ _ Hl Hlock)
    as (b1 & l' & [= <-] & Haddr & Hb' & Hi & _ & Hget & k & Hk & Hw & _).
  pose proof (batch_addr_range _ n b Hs Hn) as Hr.
  assert (Hki : ∃ k', lock_get c' i = Some k' ∧ lk_word k' = bt_addr b).
  { pose proof (chain_range _ _ _ _ (bo_chain _ _ _ Hb')) as Hc. rewrite Forall_forall in Hc.
    destruct (Hc i Hi) as (k' & Hk' & Hw'). exists k'. rewrite <- Haddr. auto. }
  destruct Hki as (k' & Hk' & Hw'). split; cbn [sy_cache sy_roots sy_batches].
  - intros t j Ht. destruct (so_root _ Hs t j Ht) as (kj & Hj & Hwj). cbn in Hj.
    rewrite Hget; [eauto|]. intros <-. rewrite Hk in Hj. injection Hj as <-. unfold UINTPTR_MAX in *. lia.
  - exact (so_root_inj _ Hs).
  - intros n2 b2 [[<- <-]|[Hne Hb2]]%lookup_insert_Some; [eauto|].
    destruct (so_batch _ Hs n2 b2 Hb2) as [l2 Hl2]. cbn [sy_cache] in Hl2. exists l2.
    assert (Hne2 : bt_addr b ≠ bt_addr b2).
    { intros E. apply Hne. exact (so_batch_inj _ Hs n n2 b b2 Hn Hb2 E). }
    pose proof (batch_addr_range _ n2 b2 Hs Hb2). revert Hl2. apply batch_ok_frame. intros j Hj.
    destruct (decide (i = j)) as [<-|]; [|auto]. exfalso.
    destruct Hj as [(k2 & H1 & H2)|(k2 & H1 & H2)]; [|congruence].
    rewrite Hk in H1. injection H1 as <-. lia.
  - intros n1 n2 b1 b2 [[<- <-]|[_ H1]]%lookup_insert_Some [[<- <-]|[_ H2]]%lookup_insert_Some E;
      rewrite ?Haddr in E.
    + easy.
    + exact (so_batch_inj _ Hs n n2 b b2 Hn H2 E).
    + exact (so_batch_inj _ Hs n1 n b1 b H1 Hn E).
    + exact (so_batch_inj _ Hs n1 n2 b1 b2 H1 H2 E).
  - intros j kj Hj. destruct (decide (i = j)) as [<-|Hne].
    + right. right. exists n, b'. rewrite lookup_insert_eq, Haddr. split; [easy|congruence].
    + rewrite Hget in Hj by easy.
      destruct (so_owner _ Hs j kj Hj) as [?|[?|(n2 & b2 & Hb2 & H0)]]; [auto|auto|].
      right. right. destruct (decide (n = n2)) as [<-|].
      * exists n, b'. rewrite lookup_insert_eq, Haddr. split; [easy|]. cbn in Hb2. congruence.
      * exists n2, b2. now rewrite lookup_insert_ne.
Qed.

Lemma sys_ok_batch_end n b c c' rs bs :
  sys_ok (Sys c rs bs) → bs !! n = Some b → pogocache_end b c = Some c' →
  sys_ok (Sys c' rs (delete n bs)).
Proof.
  intros Hs Hn Hend. destruct (so_batch _ Hs n b Hn) as [l Hl]. cbn [sy_cache] in Hl.
  destruct (end_spec _ _ _ Hl) as (c1 & E & _ & _ & _ & Hget). rewrite Hend in E. injection E as <-.
  pose proof (batch_addr_range _ n b Hs Hn) as Hr.
  pose proof (chain_range _ _ _ _ (bo_chain _ _ _ Hl)) as Hc. rewrite Forall_forall in Hc.
  split; cbn [sy_cache sy_roots sy_batches].
  - intros t j Ht. destruct (so_root _ Hs t j Ht) as (kj & Hj & Hwj). cbn in Hj.
    rewrite Hget, decide_False; [eauto|]. intros Hjl. destruct (Hc j Hjl) as (k & Hk & Hw).
    rewrite Hk in Hj. injection Hj as <-. lia.
  - exact (so_root_inj _ Hs).
  - intros n2 b2 [Hne Hb2]%lookup_delete_Some. destruct (so_batch _ Hs n2 b2 Hb2) as [l2 Hl2]. cbn [sy_cache] in Hl2.
    exists l2. pose proof (batch_addr_range _ n2 b2 Hs Hb2).
    assert (Hne2 : bt_addr b ≠ bt_addr b2).
    { intros E. apply Hne. exact (so_batch_inj _ Hs n n2 b b2 Hn Hb2 E). }
    revert Hl2. apply batch_ok_frame. intros j Hj. rewrite Hget in *.
    destruct (decide (j ∈ l)) as [Hjl|]; [|easy]. exfalso. destruct (Hc j Hjl) as (k & Hk & Hw).
    destruct Hj as [(k2 & H1 & H2)|(k2 & [= <-] & H2)]; [congruence|]. cbn in H2. lia.
  - intros n1 n2 b1 b2 [_ H1]%lookup_delete_Some [_ H2]%lookup_delete_Some.
    exact (so_batch_inj _ Hs n1 n2 b1 b2 H1 H2).
  - intros j kj. rewrite Hget. destruct (decide (j ∈ l)) as [|Hjl]; [intros [= <-]; now left|].
    intros Hj. destruct (so_owner _ Hs j kj Hj) as [?|[?|(n2 & b2 & Hb2 & H0)]]; [auto|auto|].
    right. right. exists n2, b2. rewrite lookup_delete_ne; [auto|]. intros <-. apply Hjl.
    cbn in Hb2. rewrite Hn in Hb2. injection Hb2 as <-. exact (bo_all _ _ _ Hl j kj Hj H0).
Qed.

(** Work on a shard leaves the locks alone. *)
Lemma sys_ok_work c i sh rs bs : sys_ok (Sys c rs bs) → sys_ok (Sys (set_shard c i sh) rs bs).
Proof.
  intros Hs. split; [exact (so_root _ Hs)|exact (so_root_inj _ Hs)| |exact (so_batch_inj _ Hs)|
    exact (so_owner _ Hs)].
  intros n b Hb. destruct (so_batch _ Hs n b Hb) as [l Hl]. exists l. revert Hl.
  apply batch_ok_frame. reflexivity.
Qed.

Lemma step_ok `{Env} s s' : step s s' → sys_ok s → sys_ok s'.
Proof.
  intros [] Hs.
  - now apply (sys_ok_root_lock t i c).
  - now apply sys_ok_work.
  - now apply (sys_ok_root_release t i c).
  - apply sys_ok_batch_begin; try easy. unfold pogocache_begin in H1.
    destruct (usethreadbatch _); [now injection H1 as <- _|].
    unfold do_malloc in H1. destruct (env_malloc _ _ _); [|easy]. now injection H1 as <- _.
  - now apply (sys_ok_batch_lock n b b' i c).
  - now apply sys_ok_work.
  - now apply (sys_ok_batch_end n b c).
Qed.

(** A cache that no one uses. *)
Definition unlocked (c : cache_t) : Prop := ∀ i k, lock_get c i = Some k → lk_word k = 0.

Lemma idle_ok c : unlocked c → sys_ok (Sys c ∅ ∅).
Proof.
  intros Hu. split; cbn; try (intros; now rewrite lookup_empty in *).
  intros i k Hk. left. now apply (Hu i).
Qed.

Lemma reachable_sys_ok `{Env} c s : unlocked c → rtc step (Sys c ∅ ∅) s → sys_ok s.
Proof.
  intros Hu Hr. assert (Hs : sys_ok (Sys c ∅ ∅)) by now apply idle_ok. clear Hu.
  induction Hr as [|s s1 s2 Hstep _ IH]; [easy|]. apply IH. now apply (step_ok s).
Qed.

(** A thread without a batch ([inl]) or a batch ([inr]) is in shard [i]. *)
Definition owns (s : sys) (o : nat + nat) (i : Z) : Prop :=
  match o with
  | inl t => sy_roots s !! t = Some i
  | inr n => ∃ b k, sy_batches s !! n = Some b ∧ lock_get (sy_cache s) i = Some k ∧
               lk_word k = bt_addr b
  end.
