(* ===== verification/CacheInv.v ===== *)
(** * CacheInv: the invariant of the whole cache

    A cache is a list of shards whose entries live in one memory. [cache_ok]
    ties every shard to its content, keeps the contents apart and each key in
    the shard its hash selects. [KeyOp] is what an operation of [Shard.v] on one
    key promises to the cache; [execute_key_refines] carries the promise from
    the shard, under its lock, to the cache. *)

From S2P Require Import Prelude Util Context Entry Heap Map MapInv MapSpec MapOps Shard ShardInv ShardSpec ShardOps ShardStore Cache.

(** ** The invariant *)

Definition home (ctx : pgctx) (key : bytes) : Z := shard_index ctx (th64 key (seed ctx)).

Record cache_ok (c : cache_t) (h : heap) (Ms : list content) : Prop := {
  co_ctx : ctx_ok (c_ctx c);
  co_nshards : 0 < nshards (c_ctx c) < 2 ^ 31;
  co_shards : Z.of_nat (length (c_shards c)) = nshards (c_ctx c);
  co_locks : length (c_locks c) = length (c_shards c);
  co_contents : length Ms = length (c_shards c);
  co_shard i sh M : c_shards c !! i = Some sh → Ms !! i = Some M → shard_ok (c_ctx c) h sh M;
  co_disjoint i j M M' :
    Ms !! i = Some M → Ms !! j = Some M' → i ≠ j → addrs M ## addrs M';
  co_home i M k : Ms !! i = Some M → is_Some (M !! k) → home (c_ctx c) k = Z.of_nat i
}.

(** Memory that belongs to no shard. *)
Definition owned (Ms : list content) : gset Z := ⋃ (addrs <$> Ms).
Definition foreign (h : heap) (Ms : list content) : heap := filter (λ pb, pb.1 ∉ owned Ms) h.

(** The entry the cache holds under a key. *)
Definition lookup_key (ctx : pgctx) (Ms : list content) (key : bytes) : option ent :=
  M ← Ms !! Z.to_nat (home ctx key); snd <$> M !! key.

Lemma elem_owned p Ms : p ∈ owned Ms ↔ ∃ i M, Ms !! i = Some M ∧ p ∈ addrs M.
Proof.
  unfold owned. rewrite elem_of_union_list. split.
  - intros (X & (M & -> & [i Hi]%list_elem_of_lookup)%list_elem_of_fmap & Hp). eauto.
  - intros (i & M & Hi & Hp). exists (addrs M). split; [|easy]. apply list_elem_of_fmap.
    exists M. split; [easy|]. now apply list_elem_of_lookup_2 with i.
Qed.

Lemma lookup_foreign h Ms p :
  foreign h Ms !! p = if decide (p ∈ owned Ms) then None else h !! p.
Proof.
  unfold foreign. rewrite map_lookup_filter. destruct (h !! p) as [b|]; cbn.
  - destruct (decide (p ∈ owned Ms)) as [Hi|Hi]; [rewrite option_guard_False; [easy|]|
      rewrite option_guard_True; [easy|] ]; cbn; tauto.
  - now destruct (decide _).
Qed.

Lemma home_bound ctx key : 0 < nshards ctx → 0 <= home ctx key < nshards ctx.
Proof. intros. apply Z.mod_pos_bound. lia. Qed.

(** ** One shard changes *)

Section Frame.
Context (h h' : heap) (M M' : content) (Hothers : others h' M' = others h M).

Lemma frame_lookup p b : h !! p = Some b → p ∉ addrs M → h' !! p = Some b ∧ p ∉ addrs M'.
Proof.
  intros Hp Hn. pose proof (f_equal (lookup p) Hothers) as E. rewrite !lookup_others in E.
  destruct (decide (p ∈ addrs M)); [easy|]. destruct (decide (p ∈ addrs M')); [congruence|].
  split; congruence.
Qed.

Lemma frame_shard ctx sh N :
  shard_ok ctx h sh N → addrs M ## addrs N → shard_ok ctx h' sh N ∧ addrs M' ## addrs N.
Proof.
  intros [Hm Hc] Hd. pose proof (mo_entries _ _ _ _ Hm) as Hent.
  assert (Hq : ∀ k q x, N !! k = Some (q, x) → h' !! q = Some (encode ctx x) ∧ q ∉ addrs M').
  { intros k q x Hk. destruct (Hent _ _ _ Hk) as (_ & _ & Hq & _). apply frame_lookup; [easy|].
    intros Hi. apply (Hd q Hi), elem_addrs. eauto. }
  split; [split; [|easy]; destruct Hm; split; try assumption|].
  - intros k q x Hk. destruct (Hent _ _ _ Hk) as (? & ? & _ & ?). now destruct (Hq _ _ _ Hk).
  - intros q Hq' (k & x & Hk)%elem_addrs. now destruct (Hq _ _ _ Hk).
Qed.

Lemma frame_foreign i Ms :
  Ms !! i = Some M → (∀ j N p, Ms !! j = Some N → i ≠ j → p ∈ addrs N → p ∈ addrs M → False) →
  foreign h' (<[i := M']> Ms) = foreign h Ms.
Proof.
  intros Hi Hd. apply map_eq. intros p. rewrite !lookup_foreign.
  pose proof (f_equal (lookup p) Hothers) as E. rewrite !lookup_others in E.
  assert (Hlt : (i < length Ms)%nat) by now apply lookup_lt_Some with M.
  destruct (decide (p ∈ owned Ms)) as [Ho|Ho], (decide (p ∈ owned (<[i := M']> Ms))) as [Ho'|Ho'];
    try easy.
  - apply elem_owned in Ho as (j & N & Hj & Hp). destruct (decide (i = j)) as [<-|Hne].
    + rewrite Hi in Hj. injection Hj as <-. destruct (decide (p ∈ addrs M)); [|easy].
      destruct (decide (p ∈ addrs M')) as [Hp'|]; [|easy]. exfalso. apply Ho', elem_owned.
      exists i, M'. now rewrite list_lookup_insert_eq.
    + exfalso. apply Ho', elem_owned. exists j, N. now rewrite list_lookup_insert_ne.
  - apply elem_owned in Ho' as (j & N & Hj & Hp). destruct (decide (i = j)) as [<-|Hne].
    + rewrite list_lookup_insert_eq in Hj by easy. injection Hj as <-.
      destruct (decide (p ∈ addrs M')); [|easy]. destruct (decide (p ∈ addrs M)) as [Hp'|]; [|easy].
      exfalso. apply Ho, elem_owned. eauto.
    + rewrite list_lookup_insert_ne in Hj by easy. exfalso. apply Ho, elem_owned. eauto.
  - destruct (decide (p ∈ addrs M)) as [Hp|]; [exfalso; apply Ho, elem_owned; eauto|].
    destruct (decide (p ∈ addrs M')) as [Hp|]; [|easy]. exfalso. apply Ho', elem_owned.
    exists i, M'. now rewrite list_lookup_insert_eq.
Qed.
End Frame.

(** The invariant after the shard [i] went from content [M] to [M']. *)
Lemma cache_ok_update c c' h h' Ms i sh' M M' :
  cache_ok c h Ms → Ms !! i = Some M → others h' M' = others h M →
  shard_ok (c_ctx c) h' sh' M' → (∀ k, is_Some (M' !! k) → home (c_ctx c) k = Z.of_nat i) →
  c_ctx c' = c_ctx c → c_shards c' = <[i := sh']> (c_shards c) →
  length (c_locks c') = length (c_locks c) →
  cache_ok c' h' (<[i := M']> Ms) ∧ foreign h' (<[i := M']> Ms) = foreign h Ms.
Proof.
  intros Hok Hi Hoth Hsh Hhome Ectx Esh El.
  assert (Hlt : (i < length Ms)%nat) by now apply lookup_lt_Some with M.
  assert (Hfr : ∀ j sh N, i ≠ j → c_shards c !! j = Some sh → Ms !! j = Some N →
    shard_ok (c_ctx c) h' sh N ∧ addrs M' ## addrs N).
  { intros j sh N Hne Hj HN. apply (frame_shard h h' M M' Hoth); [now apply (co_shard _ _ _ Hok j)|].
    now apply (co_disjoint _ _ _ Hok i j). }
  assert (Hsome : ∀ j N, Ms !! j = Some N → is_Some (c_shards c !! j)).
  { intros j N Hj. apply lookup_lt_is_Some. rewrite <- (co_contents _ _ _ Hok).
    now apply lookup_lt_Some with N. }
  split; [destruct Hok; split; rewrite ?Ectx, ?Esh, ?El, ?length_insert; try assumption|].
  - intros j sh N. destruct (decide (i = j)) as [<-|Hne].
    + rewrite !list_lookup_insert_eq by lia. now intros [= <-] [= <-].
    + rewrite !list_lookup_insert_ne by easy. intros H1 H2. now apply (Hfr j sh N).
  - intros j k N N'. destruct (decide (i = j)) as [<-|Hne], (decide (i = k)) as [<-|Hne'];
      rewrite ?list_lookup_insert_eq, ?list_lookup_insert_ne by easy.
    + easy.
    + intros [= <-] HN _. destruct (Hsome _ _ HN) as [sh Hs]. now apply (Hfr k sh N').
    + intros HN [= <-] _. destruct (Hsome _ _ HN) as [sh Hs]. symmetry. now apply (Hfr j sh N).
    + apply co_disjoint0.
  - intros j N k. destruct (decide (i = j)) as [<-|Hne].
    + rewrite list_lookup_insert_eq by easy. intros [= <-]. apply Hhome.
    + rewrite list_lookup_insert_ne by easy. apply co_home0.
  - apply (frame_foreign h h' M M' Hoth i Ms Hi). intros j N p Hj Hne Hp Hp'.
    now apply (co_disjoint _ _ _ Hok i j M N Hi Hj Hne p).
Qed.

(** ** Locks *)

(** The handle can take the lock of shard [i] without waiting. *)
Definition available (h : handle) (c : cache_t) (i : Z) : Prop :=
  ∃ l, lock_get c i = Some l ∧
    (lk_word l = 0 ∨ match h with Root => False | InBatch b => lk_word l = bt_addr b end).

(** Handle and locks after an operation on shard [i]: a call without a batch
    leaves the locks as they were, a batch keeps the shard. *)
Definition lock_effect (h : handle) (i : Z) (ls : list lock_t) : handle * list lock_t :=
  match h, ls !! Z.to_nat i with
  | InBatch b, Some l =>
      if lk_word l =? 0 then
        (InBatch (Batch (bt_addr b) i (bt_time b) (bt_overlay b)),
         <[Z.to_nat i := Lock (bt_addr b) (bt_shard b)]> ls)
      else (h, ls)
  | _, _ => (h, ls)
  end.

Lemma lock_effect_length h i ls : length (lock_effect h i ls).2 = length ls.
Proof.
  unfold lock_effect. destruct h as [|b]; [easy|]. destruct (ls !! _) as [l|]; [|easy].
  destruct (_ =? _); [apply length_insert|easy].
Qed.

Lemma lock_get_some c i l :
  lock_get c i = Some l → 0 <= i ∧ c_locks c !! Z.to_nat i = Some l.
Proof. unfold lock_get. destruct (i <? 0) eqn:E; zb; [easy|]. auto. Qed.

Lemma execute_spec {S R : Type} i h c (s : S) (op : shard_t → S → option (R * shard_t * S))
    sh r sh' s' :
  available h c i → shard_get c i = Some sh → op sh s = Some (r, sh', s') →
  execute i h c s op =
    Some (r, (lock_effect h i (c_locks c)).1,
          Cache (c_ctx c) (<[Z.to_nat i := sh']> (c_shards c)) (lock_effect h i (c_locks c)).2, s').
Proof.
  intros (l & Hl & Hav) Hsh Hop. destruct (lock_get_some _ _ _ Hl) as [Hi Hls].
  assert (Hlt : (Z.to_nat i < length (c_locks c))%nat) by now apply lookup_lt_Some with l.
  unfold execute, lock, lock_effect. rewrite Hl, Hls. mstep. destruct h as [|b].
  - destruct Hav as [Hw|[]]. rewrite Hw, Z.eqb_refl. mstep.
    change (shard_get (set_lock c i _) i) with (shard_get c i). rewrite Hsh. mstep.
    rewrite Hop. mstep. unfold release, lock_get. rewrite (proj2 (Z.ltb_ge i 0)) by easy.
    cbn [c_locks set_shard set_lock c_ctx c_shards]. rewrite list_lookup_insert_eq by easy. mstep.
    unfold set_lock. cbn. rewrite list_insert_insert_eq, (list_insert_id (c_locks c)); [easy|].
    rewrite Hls. destruct l; cbn in *. now subst.
  - destruct (lk_word l =? 0) eqn:Ew; zb.
    + mstep. change (shard_get (set_lock c i _) i) with (shard_get c i). rewrite Hsh. mstep.
      rewrite Hop. now mstep.
    + destruct Hav as [?|Hw]; [easy|]. rewrite Hw, Z.eqb_refl. mstep. rewrite Hsh. mstep.
      rewrite Hop. now mstep.
Qed.

(** A lock that is not available makes the call spin forever. *)
Lemma execute_blocked {S R : Type} i h c (s : S) (op : shard_t → S → option (R * shard_t * S)) :
  ¬ available h c i → execute i h c s op = None.
Proof.
  intros Hna. unfold execute, lock. destruct (lock_get c i) as [l|] eqn:Hl; [|easy]. mstep.
  destruct (lk_word l =? 0) eqn:Ew; zb; [exfalso; apply Hna; exists l; auto|].
  destruct h as [|b]; [easy|]. destruct (lk_word l =? bt_addr b) eqn:Eb; zb; [|easy].
  exfalso. apply Hna. exists l. auto.
Qed.

Lemma shard_at c h Ms i :
  cache_ok c h Ms → 0 <= i < nshards (c_ctx c) → ∃ sh M,
    shard_get c i = Some sh ∧ c_shards c !! Z.to_nat i = Some sh ∧ Ms !! Z.to_nat i = Some M ∧
    shard_ok (c_ctx c) h sh M.
Proof.
  intros Hok Hi. pose proof (co_shards _ _ _ Hok). pose proof (co_contents _ _ _ Hok).
  destruct (lookup_lt_is_Some_2 (c_shards c) (Z.to_nat i)) as [sh Hsh]; [lia|].
  destruct (lookup_lt_is_Some_2 Ms (Z.to_nat i)) as [M HM]; [lia|].
  exists sh, M. unfold shard_get. rewrite (proj2 (Z.ltb_ge i 0)) by easy.
  do 3 (split; [easy|]). now apply (co_shard _ _ _ Hok (Z.to_nat i)).
Qed.

(** ** Operations on a key *)

#[local] Opaque th64 hash24.

Abbreviation outcome U := (Z * astate * list event * U)%type.

(** What an operation on [key] promises: in a shard that satisfies [pre] it
    behaves as one of the outcomes [spec] allows, and no key but [key] appears. *)
Class KeyOp {U : Type} (ctx : pgctx) (key : bytes)
    (op : Z → Z → shard_t → world → U → option (Z * shard_t * world * U))
    (pre : shard_t → content → Prop) (spec : Z → heap → astate → U → outcome U → Prop) := {
  keyop_refines i hash sh w M u :
    shard_ok ctx (w_heap w) sh M → clip_hash hash = hash24 ctx key → pre sh M →
    ∃ out, spec i (w_heap w) (abs sh M) u out ∧ refines ctx w M (op i hash sh w u) out;
  keyop_local i h a u st a' evs u' k :
    (∀ x, a_ents a !! key = Some x → e_key x = key) →
    spec i h a u (st, a', evs, u') → is_Some (a_ents a' !! k) → k = key ∨ is_Some (a_ents a !! k)
}.

(** The cache operation on [key] through [h] ends like an outcome of [spec] on
    the shard of the key: the other shards, the memory of no shard and the locks
    of others are as before, and the invariant holds again. *)
Definition cache_refines {U : Type} (key : bytes) (h : handle) (c : cache_t) (w : world)
    (Ms : list content) (spec : astate → outcome U → Prop)
    (res : option (Z * handle * cache_t * world * U)) : Prop :=
  ∃ st h' c' w' u' sh M sh' M' evs,
    res = Some (st, h', c', w', u') ∧
    let i := Z.to_nat (home (c_ctx c) key) in
    c_shards c !! i = Some sh ∧ Ms !! i = Some M ∧
    spec (abs sh M) (st, abs sh' M', evs, u') ∧ w_log w' = w_log w ++ evs ∧
    c' = Cache (c_ctx c) (<[i := sh']> (c_shards c)) (c_locks c') ∧
    (h', c_locks c') = lock_effect h (home (c_ctx c) key) (c_locks c) ∧
    cache_ok c' (w_heap w') (<[i := M']> Ms) ∧ foreign (w_heap w') (<[i := M']> Ms) = foreign (w_heap w) Ms.

Lemma execute_key_refines `{Env} {U : Type} c w Ms key op pre spec `{!KeyOp (U := U) (c_ctx c) key op pre spec}
    h u :
  cache_ok c (w_heap w) Ms → available h c (home (c_ctx c) key) →
  (∀ sh M, c_shards c !! Z.to_nat (home (c_ctx c) key) = Some sh →
     Ms !! Z.to_nat (home (c_ctx c) key) = Some M → pre sh M) →
  cache_refines key h c w Ms (λ a, spec (home (c_ctx c) key) (w_heap w) a u)
    (execute_key key h c w u op).
Proof.
  intros Hok Hav Hpre. pose proof (co_nshards _ _ _ Hok) as Hn.
  pose proof (home_bound (c_ctx c) key (proj1 Hn)) as Hr.
  destruct (shard_at c _ Ms _ Hok Hr) as (sh & M & Hget & Hsh & HM & Hs).
  unfold execute_key. fold (home (c_ctx c) key). set (i := home (c_ctx c) key) in *.
  set (hash := u32 (th64 key (seed (c_ctx c)))).
  destruct (keyop_refines i hash sh w M u Hs) as (out & Hspec & Href); [apply clip_hash_u32|auto|].
  destruct Href as (st & sh' & w' & u' & M' & evs & Hres & -> & Hok' & Hoth & Hlog).
  rewrite (execute_spec i h c (w, u) _ sh st sh' (w', u') Hav Hget)
    by (cbn; now rewrite Hres). mstep.
  set (c' := Cache _ _ _).
  assert (Hhome : ∀ k, is_Some (M' !! k) → home (c_ctx c) k = Z.of_nat (Z.to_nat i)).
  { intros k [v Hk]. rewrite Z2Nat.id by lia.
    destruct (keyop_local i (w_heap w) (abs sh M) u st (abs sh' M') evs u' k) as [->|[x Hx]].
    - intros x Hx. rewrite abs_lookup in Hx. apply fmap_Some in Hx as ([p y] & Hy & ->).
      now destruct (mo_entries _ _ _ _ (sk_map _ _ _ _ Hs) _ _ _ Hy).
    - exact Hspec.
    - rewrite abs_lookup, Hk. eauto.
    - reflexivity.
    - rewrite abs_lookup in Hx. apply fmap_Some in Hx as (y & Hy & _).
      rewrite (co_home _ _ _ Hok (Z.to_nat i) M k HM (ex_intro _ y Hy)). lia. }
  destruct (cache_ok_update c c' (w_heap w) (w_heap w') Ms (Z.to_nat i) sh' M M' Hok HM Hoth Hok'
    Hhome) as [Hc Hf]; [reflexivity|reflexivity|apply lock_effect_length|].
  exists st, (lock_effect h i (c_locks c)).1, c', w', u', sh, M, sh', M', evs.
  split; [reflexivity|]. do 5 (split; [assumption || reflexivity|]).
  split; [symmetry; apply surjective_pairing|]. split; [exact Hc|exact Hf].
Qed.
