(* ===== verification/CacheOps.v ===== *)
(** * CacheOps: loading, storing and deleting in the cache

    The operations of [Shard.v] keep the promise [KeyOp], so the public
    operations on a key refine the specifications of [ShardSpec.v] on the shard
    of the key, through the cache itself and through a batch. *)

From S2P Require Import Prelude Util Context Entry Heap Map MapInv MapSpec MapOps Shard ShardInv ShardSpec ShardOps ShardStore Samples ShardTheorems Cache CacheInv.

#[local] Opaque th64 hash24.

(** ** The shard operations keep their promise *)

Lemma put_keys a x k : is_Some (a_ents (a_put a x) !! k) → k = e_key x ∨ is_Some (a_ents a !! k).
Proof.
  cbn. destruct (decide (e_key x = k)) as [<-|Hne]; [now left|].
  rewrite lookup_insert_ne by easy. now right.
Qed.

Lemma del_keys a k' k : is_Some (a_ents (a_del a k') !! k) → is_Some (a_ents a !! k).
Proof. cbn. intros [x [_ Hx]%lookup_delete_Some]. eauto. Qed.

Lemma evict_keys ctx i now victim a k :
  is_Some (a_ents (evict_spec ctx i now victim a).1 !! k) → is_Some (a_ents a !! k).
Proof.
  unfold evict_spec. destruct victim as [v|]; [|easy].
  destruct (a_ents a !! v); [|easy]. apply del_keys.
Qed.

#[export] Instance load_keyop `{Env} `{!EnvOk _} {U : Type} ctx clock key (opts : load_opts U) :
  is_i64 (opt_now (lo_time opts) clock) → load_cb_ok opts →
  KeyOp ctx key (λ i hash, loadop ctx clock key opts i hash) (λ _ _, True)
    (λ i h a u out, ∃ mem, (plenty h → mem = true) ∧
       out = load_spec ctx i (opt_now (lo_time opts) clock) key mem opts a u).
Proof.
  intros Hn Hcb. split.
  - intros i hash sh w M u Hok Hh _.
    destruct (loadop_spec ctx clock key opts i hash sh w M u Hok Hh Hn Hcb) as (mem & H1 & H2).
    eauto.
  - intros i h a u st a' evs u' k Hkey (mem & _ & E) Hk. unfold load_spec in E.
    destruct (a_ents a !! key) as [x|] eqn:Ex; [|injection E as _ -> _ _; now right].
    specialize (Hkey x eq_refl). destruct (negb _).
    { injection E as _ -> _ _. right. now apply del_keys in Hk. }
    assert (Ha : ∀ k, is_Some (a_ents (if lo_notouch opts then a else a_put a (touch (opt_now (lo_time opts) clock) x)) !! k) →
      k = key ∨ is_Some (a_ents a !! k)).
    { destruct (lo_notouch opts); [now right|]. intros k' [->|?]%put_keys; [now left|now right]. }
    destruct (lo_entry opts) as [cb|]; [|injection E as _ -> _ _; auto].
    destruct (cb _ u) as [[upd|] u1]; [|injection E as _ -> _ _; auto].
    destruct mem; injection E as _ -> _ _; [|now apply Ha].
    apply put_keys in Hk as [->|Hk]; [now left|now apply Ha].
Qed.

#[export] Instance delete_keyop `{Env} `{!EnvOk _} {U : Type} ctx clock key (opts : delete_opts U) :
  KeyOp ctx key (λ i hash, deleteop ctx clock key opts i hash) (λ _ _, True)
    (λ i _ a u out, out = delete_spec ctx i (opt_now (do_time opts) clock) key opts a u).
Proof.
  split.
  - intros i hash sh w M u Hok Hh _. eexists. split; [reflexivity|]. now apply deleteop_spec.
  - intros i h a u st a' evs u' k _ E Hk. right. unfold delete_spec in E.
    destruct (a_ents a !! key) as [x|] eqn:Ex; [|now injection E as _ -> _ _].
    destruct (negb _); [injection E as _ -> _ _; now apply del_keys in Hk|].
    destruct (match do_entry opts with Some _ => _ | None => _ end) as [[|] u1];
      injection E as _ -> _ _; [now apply del_keys in Hk|easy].
Qed.

(** What a store needs of the shard: there is room for one more entry. *)
Definition store_pre (ctx : pgctx) (key : bytes) (sh : shard_t) (M : content) : Prop :=
  roomy M ∧ ∀ v, probe_safe ctx (<[key := v]> M).

(** A low-memory store evicts an entry that is there: a dead one or one with
    another hash than the new key. *)
Definition victim_ok {U : Type} (ctx : pgctx) (now : Z) (key val : bytes) (opts : store_opts U)
    (a : astate) (victim : option bytes) : Prop :=
  let x := new_ent ctx key val (spec_expires now key opts a) (so_flags opts)
             (u64 (a_cas a + 1)) now in
  ∀ k, victim = Some k → ∃ y, <[key := x]> (a_ents a) !! k = Some y ∧
    (fate now (a_cleartime a) y = 0 → hash24 ctx k ≠ hash24 ctx key).

#[export] Instance store_keyop `{Env} `{!EnvOk _} {U : Type} ctx clock key val
    (opts : store_opts U) :
  is_i64 (opt_now (so_time opts) clock) → store_opts_ok opts → key_ok key →
  Z.of_nat (length val) < 2 ^ 64 →
  KeyOp ctx key (λ i hash, storeop ctx clock key val opts i hash) (store_pre ctx key)
    (λ i h a u out, ∃ mem victim, (plenty h → mem = true) ∧
       victim_ok ctx (opt_now (so_time opts) clock) key val opts a victim ∧
       out = store_spec ctx i (opt_now (so_time opts) clock) key mem victim val opts a u).
Proof.
  intros Hn Ho [Hk Hkl] Hv. split.
  - intros i hash sh w M u Hok Hh [Hr Hs].
    destruct (store_expires_spec ctx hash key opts clock sh w M Hok Hh Hn Ho) as [_ He].
    destruct (storeop_spec ctx i hash key opts clock sh w M Hok Hr Hh Hn Ho val)
      with (u := u) as (mem & victim & H1 & H2 & H3).
    + apply new_ent_ok; try easy; [apply Ho|apply u64_range].
    + exact Hs.
    + eexists. split; [exists mem, victim; split; [exact H1|split; [exact H3|reflexivity]]|exact H2].
  - intros i h a u st a' evs u' k _ (mem & victim & _ & _ & E) Hk'. unfold store_spec in E.
    set (x := new_ent _ _ _ _ _ _ _) in E.
    assert (Hput : ∀ b, is_Some (a_ents (a_put b x) !! k) → k = key ∨ is_Some (a_ents b !! k))
      by (intros b; apply put_keys).
    assert (Hev : ∀ b, is_Some (a_ents (evict_spec ctx i (opt_now (so_time opts) clock) victim
      (a_put b x)).1 !! k) → k = key ∨ is_Some (a_ents b !! k))
      by (intros b Hb%evict_keys; auto).
    destruct (negb mem || _); [injection E as _ -> _ _; now right|].
    destruct (a_ents (a_tick a) !! key) as [o|] eqn:Eo.
    + destruct (negb (fate _ _ _ =? 0)).
      * destruct (so_xx opts || so_casop opts).
        { injection E as _ -> _ _. right. now apply del_keys in Hk'. }
        injection E as _ -> _ _. now apply Hput in Hk'.
      * destruct (so_casop opts && _); [injection E as _ -> _ _; now right|].
        destruct (negb (so_casop opts) && _); [injection E as _ -> _ _; now right|].
        destruct (match so_entry opts with Some _ => _ | None => _ end) as [[|] u1];
          injection E as _ -> _ _; [now apply Hput in Hk'|now right].
    + destruct (so_xx opts || so_casop opts); [injection E as _ -> _ _; now right|].
      destruct (so_lowmem opts).
      * specialize (Hev (a_tick a)).
        destruct (evict_spec _ _ _ _ _) as [b evs1] eqn:Eb. injection E as _ -> _ _. auto.
      * injection E as _ -> _ _. now apply Hput in Hk'.
Qed.
