(* ===== verification/CacheTheorems.v ===== *)
(** * CacheTheorems: the public interface of the cache is correct

    The operations on keys through any handle, creation, batches and locks,
    and the scans over all shards. *)

From S2P Require Import Prelude Util Context Entry Heap Map MapInv MapSpec MapOps Shard ShardInv ShardSpec ShardOps ShardStore Scan Samples ShardTheorems ScanTheorems Cache Locks CacheInv CacheOps.

#[local] Opaque th64 hash24 encode entry_memsize.

(** ** Creation *)

Definition shard_count (opts : pogocache_opts) : Z :=
  if o_nshards opts <=? 0 then DEFSHARDS else o_nshards opts.

(** Shards as [shard_init] leaves them. *)
Definition fresh_shard (ctx : pgctx) (sh : shard_t) : Prop := ∀ h, shard_ok ctx h sh ∅.

Lemma shard_init_cases `{Env} ctx w :
  ctx_ok ctx → let w' := World (w_heap w) (S (w_tick w)) (w_log w) in
  (∃ sh, shard_init ctx w = (true, sh, w') ∧ fresh_shard ctx sh) ∨
  (∃ sh, shard_init ctx w = (false, sh, w') ∧
     env_malloc (w_tick w) (w_heap w) (sizeof_bucket * INITCAP) = None).
Proof.
  intros Hctx. cbv zeta. destruct (shard_init ctx w) as [[ok sh] w'] eqn:E.
  assert (w' = World (w_heap w) (S (w_tick w)) (w_log w) ∧
    (ok = false → env_malloc (w_tick w) (w_heap w) (sizeof_bucket * INITCAP) = None)) as [-> Hm].
  { revert E. unfold shard_init, map_init, do_malloc. destruct (env_malloc _ _ _); now intros [= <- _ <-]. }
  destruct ok; [left|right]; exists sh; [|auto]. split; [easy|]. intros h.
  apply (shard_init_ok ctx h w _ sh Hctx E).
Qed.

(** Freeing shards that hold nothing changes nothing. *)
Lemma free_loop_fresh ctx shs : ∀ w,
  Forall (fresh_shard ctx) shs → free_loop (Some <$> shs) w = Some w.
Proof.
  induction shs as [|sh shs IH]; intros w Hf; cbn; [easy|]. inversion_clear Hf as [|? ? Hsh Hshs].
  rewrite (shard_deinit_spec ctx w sh ∅ (Hsh _)). mstep. rewrite IH by easy.
  f_equal. destruct w as [h t l]. cbn. f_equal. apply map_eq. intros q. rewrite lookup_others.
  destruct (decide _) as [Hq|]; [|easy]. now apply elem_addrs in Hq as (k & x & [=]).
Qed.

Lemma free_loop_app shs l : ∀ w,
  free_loop (shs ++ l) w = w ← free_loop shs w; free_loop l w.
Proof.
  induction shs as [|[sh|] shs IH]; intros w; cbn; [easy| |easy].
  destruct (shard_deinit w sh); cbn; [apply IH|easy].
Qed.

(** A shard whose initialisation failed. *)
Lemma free_failed `{Env} ctx w sh w' w1 :
  shard_init ctx w = (false, sh, w') → shard_deinit w1 sh = Some w1.
Proof.
  unfold shard_init, map_init, do_malloc. destruct (env_malloc _ _ _); now intros [= <- _].
Qed.

Lemma new_loop_spec `{Env} ctx todo : ∀ done w r w',
  ctx_ok ctx → Forall (fresh_shard ctx) done → new_loop ctx todo done w = Some (r, w') →
  w_heap w' = w_heap w ∧ w_log w' = w_log w ∧
  ∀ shs, r = Some shs → length shs = (length done + todo)%nat ∧ Forall (fresh_shard ctx) shs.
Proof.
  induction todo as [|todo IH]; intros done w r w' Hctx Hd; cbn [new_loop].
  - intros [= <- <-]. split; [easy|]. split; [easy|]. intros shs [= <-]. split; [lia|easy].
  - destruct (shard_init_cases ctx w Hctx) as [(sh & E & Hsh)|(sh & E & Hno)]; rewrite E; cbn [negb].
    + intros E'. apply IH in E' as (H1 & H2 & H3); [|easy|apply Forall_app; auto].
      split; [easy|]. split; [easy|]. intros shs Hs. destruct (H3 shs Hs) as [-> ?].
      rewrite length_app. cbn. split; [lia|easy].
    + rewrite free_loop_app, fmap_app, free_loop_app, (free_loop_fresh ctx) by easy. mstep.
      cbn [fmap list_fmap free_loop]. rewrite (free_failed ctx w sh _ _ E). mstep.
      destruct todo; [|easy]. cbn. now intros [= <- <-].
Qed.

Lemma new_loop_succeeds `{Env} ctx todo : ∀ done w,
  (∀ t n, env_malloc t (w_heap w) n ≠ None) → ctx_ok ctx →
  ∃ shs w', new_loop ctx todo done w = Some (Some shs, w').
Proof.
  induction todo as [|todo IH]; intros done w Hm Hctx; cbn [new_loop]; [eauto|].
  destruct (shard_init_cases ctx w Hctx) as [(sh & E & Hsh)|(sh & E & Hno)]; rewrite E; cbn [negb].
  - now apply IH.
  - now apply Hm in Hno.
Qed.

Lemma fresh_cache_ok ctx shs ls h :
  ctx_ok ctx → 0 < nshards ctx < 2 ^ 31 → Z.of_nat (length shs) = nshards ctx →
  length ls = length shs → Forall (fresh_shard ctx) shs →
  cache_ok (Cache ctx shs ls) h (repeat ∅ (length shs)).
Proof.
  intros Hctx Hn Hl Hls Hf.
  assert (Hempty : ∀ i M, repeat ∅ (length shs) !! i = Some M → M = (∅ : content)).
  { intros i M HM. apply list_elem_of_lookup_2, list_elem_of_In, repeat_spec in HM. easy. }
  split; cbn [c_ctx c_shards c_locks]; try easy.
  - apply repeat_length.
  - intros i sh M Hs ->%Hempty. rewrite Forall_lookup in Hf. now apply (Hf i).
  - intros i j M M' ->%Hempty ->%Hempty _. set_solver.
  - intros i M k ->%Hempty [v [=]].
Qed.

Lemma unlocked_new ctx shs n : unlocked (Cache ctx shs (repeat (Lock 0 no_shard) n)).
Proof.
  intros i k. unfold lock_get. cbn. destruct (i <? 0); [easy|].
  intros Hk%list_elem_of_lookup_2%list_elem_of_In%repeat_spec. now subst.
Qed.

Lemma pogocache_new_spec `{Env} opts w :
  shard_count opts < 2 ^ 31 →
  let ctx := opts_to_ctx (shard_count opts) opts in
  (∀ r w', pogocache_new opts w = Some (r, w') →
     w_heap w' = w_heap w ∧ w_log w' = w_log w ∧
     ∀ c, r = Some c → c_ctx c = ctx ∧ unlocked c ∧
       cache_ok c (w_heap w') (repeat ∅ (Z.to_nat (shard_count opts)))) ∧
  ((∀ t n, env_malloc t (w_heap w) n ≠ None) →
     ∃ c w', pogocache_new opts w = Some (Some c, w')).
Proof.
  intros Hn ctx. assert (Hctx : ctx_ok ctx) by apply opts_to_ctx_ok.
  assert (H0 : 0 < shard_count opts) by
    (unfold shard_count, DEFSHARDS in *; destruct (_ <=? 0) eqn:E; zb; lia).
  unfold pogocache_new, do_malloc. fold (shard_count opts). fold ctx. split.
  - intros r w'. destruct (env_malloc _ _ _); [|now intros [= <- <-]].
    set (w1 := World _ _ _). destruct (new_loop ctx _ [] w1) as [[r1 w2]|] eqn:E; [|easy]. mstep.
    destruct (new_loop_spec ctx _ [] w1 r1 w2 Hctx (Forall_nil_2 _) E) as (H1 & H2 & H3).
    destruct r1 as [shs|]; intros [= <- <-]; [|easy].
    split; [easy|]. split; [easy|]. intros c [= <-]. destruct (H3 shs eq_refl) as [Hl Hf].
    split; [easy|]. split; [apply unlocked_new|]. cbn [length Nat.add] in Hl.
    rewrite <- Hl. apply fresh_cache_ok; [easy| | |apply repeat_length|easy];
      change (nshards ctx) with (shard_count opts); lia.
  - intros Hm. destruct (env_malloc _ _ _) eqn:Em; [|now apply Hm in Em].
    destruct (new_loop_succeeds ctx (Z.to_nat (shard_count opts)) []
      (World (w_heap w) (S (w_tick w)) (w_log w)) Hm Hctx) as (shs & w' & ->). mstep. eauto.
Qed.

(** A cache that [pogocache_new] returns is well formed and empty, has the
    number of shards asked for (4096 by default) and no lock taken, and making
    it, as well as a failed attempt that returns null, leaves no entry behind;
    with enough memory it does return a cache. *)
Theorem pogocache_new_correct `{Env} opts w :
  shard_count opts < 2 ^ 31 →
  let ctx := opts_to_ctx (shard_count opts) opts in
  (∀ r w', pogocache_new opts w = Some (r, w') →
     w_heap w' = w_heap w ∧ w_log w' = w_log w ∧
     ∀ c, r = Some c → c_ctx c = ctx ∧ unlocked c ∧
       cache_ok c (w_heap w') (repeat ∅ (Z.to_nat (shard_count opts)))) ∧
  ((∀ t n, env_malloc t (w_heap w) n ≠ None) →
     ∃ c w', pogocache_new opts w = Some (Some c, w')).
Proof. apply pogocache_new_spec. Qed.

(** Two shards. *)
Definition opts2 : pogocache_opts := {|
  o_evicted := true; o_usecas := false; o_nosixpack := false; o_noevict := false;
  o_allowshrink := false; o_usethreadbatch := false; o_nshards := 2;
  o_loadfactor := 0; o_seed := 0 |}.

Lemma env0_never_fails w t n : (size (w_heap w) < 1000)%nat → env_malloc t (w_heap w) n ≠ None.
Proof. intros Hs. apply (env0_plenty (w_heap w) Hs t n). lia. Qed.

Lemma pogocache_new_correct_witness : ∃ c w', pogocache_new opts2 w0 = Some (Some c, w').
Proof.
  apply (pogocache_new_correct opts2 w0).
  - now vm_compute.
  - intros t n. apply env0_never_fails. cbn [w_heap w0]. rewrite map_size_empty. lia.
Defined.

(** An allocator that fails at its second call. *)
Definition env_second_fails : Env := {|
  env_malloc t h n := if (t =? 1)%nat then None else @env_malloc env0 t h n;
  env_stack _ := (0, 0)
|}.

Instance env_second_fails_ok : EnvOk env_second_fails.
Proof.
  intros t h n p. cbn [env_malloc env_second_fails]. destruct (t =? 1)%nat; [easy|].
  apply (env0_ok t).
Qed.

(** When memory runs out for the buckets of a shard that is not the last,
    [pogocache_new] does not return null: it frees the cache with shards that
    were never written, whose memory is not initialised. *)
Theorem pogocache_new_nomem `{Env} opts w :
  2 <= o_nshards opts → is_Some (env_malloc (w_tick w) (w_heap w)
    (sizeof_pogocache + o_nshards opts * sizeof_shard)) →
  env_malloc (S (w_tick w)) (w_heap w) (sizeof_bucket * INITCAP) = None →
  pogocache_new opts w = None.
Proof.
  intros Hn [p Hp] Hno. unfold pogocache_new, do_malloc.
  rewrite (proj2 (Z.leb_gt (o_nshards opts) 0)) by lia. rewrite Hp. set (ctx := opts_to_ctx _ _).
  destruct (Z.to_nat (o_nshards opts)) as [|[|todo]] eqn:Et; [lia|lia|]. cbn [new_loop].
  set (w1 := World _ _ _).
  destruct (shard_init_cases ctx w1 (opts_to_ctx_ok _ _)) as [(sh & E & _)|(sh & E & _)].
  - exfalso. revert E. unfold shard_init, map_init, do_malloc. cbn [w_tick w_heap w1].
    now rewrite Hno.
  - rewrite E. cbn [negb app fmap list_fmap repeat free_loop].
    rewrite (free_failed ctx w1 sh _ _ E). easy.
Qed.

Lemma pogocache_new_nomem_witness :
  @pogocache_new env_second_fails opts2 w0 = None.
Proof.
  apply (@pogocache_new_nomem env_second_fails opts2 w0).
  - now vm_compute.
  - vm_compute. eauto.
  - reflexivity.
Defined.

(** ** Operations on keys *)

Section KeyOps.
Context `{Env} `{!EnvOk _} {U : Type} (clock : Z) (key : bytes) (h : handle) (c : cache_t).
Context (w : world) (Ms : list content) (u : U).
Context (Hok : cache_ok c (w_heap w) Ms) (Hav : available h c (home (c_ctx c) key)).

Lemma load_refines (opts : load_opts U) :
  let now := opt_now (lo_time opts) clock in
  is_i64 now → load_cb_ok opts →
  cache_refines key h c w Ms
    (λ a out, ∃ mem, (plenty (w_heap w) → mem = true) ∧
       out = load_spec (c_ctx c) (home (c_ctx c) key) now key mem opts a u)
    (pogocache_load clock key opts h c w u).
Proof.
  intros now Hn Hcb.
  pose proof (load_keyop (c_ctx c) clock key opts Hn Hcb) as HK.
  now apply (execute_key_refines c w Ms key _ _ _ (KeyOp0 := HK) h u).
Qed.

Lemma store_refines val (opts : store_opts U) :
  let now := opt_now (so_time opts) clock in
  is_i64 now → store_opts_ok opts → key_ok key → Z.of_nat (length val) < 2 ^ 64 →
  (∀ sh M, Ms !! Z.to_nat (home (c_ctx c) key) = Some M → store_pre (c_ctx c) key sh M) →
  cache_refines key h c w Ms
    (λ a out, ∃ mem victim, (plenty (w_heap w) → mem = true) ∧
       victim_ok (c_ctx c) now key val opts a victim ∧
       out = store_spec (c_ctx c) (home (c_ctx c) key) now key mem victim val opts a u)
    (pogocache_store clock key val opts h c w u).
Proof.
  intros now Hn Ho Hk Hv Hpre.
  pose proof (store_keyop (c_ctx c) clock key val opts Hn Ho Hk Hv) as HK.
  apply (execute_key_refines c w Ms key _ _ _ (KeyOp0 := HK) h u); [easy|easy|].
  intros sh M _. apply Hpre.
Qed.
End KeyOps.

(** ** A cache on which the theorems are exercised *)

Definition cache2 : cache_t :=
  match pogocache_new opts2 w0 with Some (Some c, _) => c | _ => Cache ctx0 [] [] end.
Definition wc : world :=
  match pogocache_new opts2 w0 with Some (_, w) => w | _ => w0 end.
Definition Ms2 : list content := [∅; ∅].

Lemma cache2_facts :
  unlocked cache2 ∧ cache_ok cache2 (w_heap wc) Ms2 ∧ w_heap wc = ∅ ∧
  c_ctx cache2 = opts_to_ctx 2 opts2.
Proof.
  destruct (pogocache_new_spec opts2 w0) as [Hall Hex]; [now vm_compute|].
  destruct Hex as (c & w' & E).
  { intros t n. apply env0_never_fails. cbn [w_heap w0]. rewrite map_size_empty. lia. }
  destruct (Hall _ _ E) as (Hh & _ & Hc). destruct (Hc c eq_refl) as (Hctx & Hu & Hok).
  unfold cache2, wc. rewrite E, Hh in *. auto.
Qed.

Lemma unlocked_available h c i :
  unlocked c → 0 <= i < Z.of_nat (length (c_locks c)) → available h c i.
Proof.
  intros Hu Hi. destruct (lookup_lt_is_Some_2 (c_locks c) (Z.to_nat i)) as [k Hk]; [lia|].
  exists k. unfold lock_get. rewrite (proj2 (Z.ltb_ge i 0)) by lia. split; [easy|]. left.
  apply (Hu i). unfold lock_get. now rewrite (proj2 (Z.ltb_ge i 0)) by lia.
Qed.

Lemma home_available h c hp Ms key :
  cache_ok c hp Ms → unlocked c → available h c (home (c_ctx c) key).
Proof.
  intros Hok Hu. apply unlocked_available; [easy|]. rewrite (co_locks _ _ _ Hok), (co_shards _ _ _ Hok).
  apply home_bound, (co_nshards _ _ _ Hok).
Qed.

(** A batch that holds nothing yet. *)
Definition batch7 : batch_t := Batch 7 no_shard 0 0.

Lemma plenty_wc : plenty (w_heap wc).
Proof.
  destruct cache2_facts as (_ & _ & -> & _). apply env0_plenty. rewrite map_size_empty. lia.
Qed.

Lemma store_pre2 key sh M i : Ms2 !! i = Some M → store_pre (c_ctx cache2) key sh M.
Proof.
  intros HM. assert (M = ∅) as ->.
  { unfold Ms2 in HM. destruct i as [|[|i]]; [now injection HM as <-|now injection HM as <-|easy]. }
  split; [unfold roomy; rewrite map_size_empty; lia|]. intros v. apply probe_safe_one.
  rewrite map_size_empty. lia.
Qed.
