(* ===== verification/Api.v ===== *)
(** * Api: loads, stores and deletes through the public interface

    The refinement theorems of [pogocache_load], [pogocache_store] and
    [pogocache_delete] for every cache, handle, option, user callback and
    allocator, and what a store means for later loads and for other keys. *)

From S2P Require Import Prelude Util Context Entry Heap Map MapInv MapSpec MapOps Shard ShardInv ShardSpec ShardOps ShardStore Scan Samples ShardTheorems Cache Locks CacheInv CacheOps CacheTheorems.

#[local] Opaque th64 hash24 encode entry_memsize.

Lemma empty_at2 i M : Ms2 !! i = Some M → M = ∅.
Proof.
  unfold Ms2. destruct i as [|[|n]]; intros E; [now injection E as <-|now injection E as <-|discriminate].
Qed.







(** ** What a store means *)

(** What [pogocache_store] reports as inserted or replaced, a later
    [pogocache_load] through any handle finds: the callback is shown exactly the
    stored value, as long as the entry has not expired and the shard was not
    cleared after the store. *)
Theorem store_then_load `{Env} `{!EnvOk _} {U : Type} clock key val (opts : store_opts U)
    h c w Ms u st h1 c1 w1 u1 clock2 h2 :
  let now := opt_now (so_time opts) clock in
  cache_ok c (w_heap w) Ms → available h c (home (c_ctx c) key) →
  is_i64 now → store_opts_ok opts → key_ok key → Z.of_nat (length val) < 2 ^ 64 →
  (∀ sh M, Ms !! Z.to_nat (home (c_ctx c) key) = Some M → store_pre (c_ctx c) key sh M) →
  so_lowmem opts = false →
  pogocache_store clock key val opts h c w u = Some (st, h1, c1, w1, u1) →
  st = POGOCACHE_INSERTED ∨ st = POGOCACHE_REPLACED →
  (∀ sh M, c_shards c !! Z.to_nat (home (c_ctx c) key) = Some sh →
     Ms !! Z.to_nat (home (c_ctx c) key) = Some M → s_cleartime sh <= now ∧
     (spec_expires now key opts (abs sh M) <= 0 ∨ clock2 < spec_expires now key opts (abs sh M))) →
  is_i64 clock2 → available h2 c1 (home (c_ctx c1) key) →
  ∃ h3 c3 w3, pogocache_load clock2 key fetch h2 c1 w1 None =
    Some (POGOCACHE_FOUND, h3, c3, w3, Some val).
Proof.
  intros now Hok Hav Hn Ho Hk Hv Hpre Hlow Hst Hstat Hlive Hn2 Hav2.
  destruct (store_refines clock key h c w Ms u Hok Hav val opts Hn Ho Hk Hv Hpre)
    as (st' & h' & c' & w' & u' & sh & M & sh' & M' & evs & H1 & H2 & H3 & (mem & v & _ & _ & H4)
      & _ & H5 & _ & H6 & _).
  rewrite Hst in H1. injection H1 as <- <- <- <- <-. symmetry in H4.
  destruct (store_spec_stored _ _ _ _ _ _ _ _ _ _ _ _ _ _ H4 Hlow Hstat) as [Hx Hc].
  fold now in Hx, H4. destruct (Hlive sh M H2 H3) as [Hct Hexp].
  destruct (load_refines clock2 key h2 c1 w1 _ None H6 Hav2 fetch Hn2 fetch_ok)
    as (s2 & h3 & c3 & w3 & u3 & shx & Mx & sh3 & M3 & evs3 & L1 & L2 & L3 & (mem3 & _ & L4) & _).
  exists h3, c3, w3. rewrite L1. pose proof (f_equal c_shards H5) as E1. pose proof (f_equal c_ctx H5) as E2.
  cbn [c_shards c_ctx] in E1, E2. rewrite E2 in *.
  rewrite E1, list_lookup_insert_eq in L2 by now apply lookup_lt_Some with sh.
  rewrite list_lookup_insert_eq in L3 by now apply lookup_lt_Some with M.
  injection L2 as <-. injection L3 as <-. unfold load_spec in L4. rewrite Hx in L4.
  set (x := new_ent _ _ _ _ _ _ _) in L4.
  assert (Hf : fate clock2 (a_cleartime (abs sh' M')) x = 0).
  { unfold fate, entry_alive_exp, x. cbn [e_time e_expires new_ent]. rewrite Hc.
    rewrite (proj2 (Z.ltb_ge _ _)) by exact Hct.
    destruct (0 <? Z.max 0 _) eqn:E; zb; [|easy].
    rewrite (proj2 (Z.leb_gt _ _)) by lia. easy. }
  change (opt_now (lo_time fetch) clock2) with clock2 in L4. rewrite Hf in L4.
  pose proof (f_equal (λ r, (r.1.1.1, r.2)) L4) as L5. cbn in L5. now injection L5 as -> ->.
Qed.

(** [pogocache_store] concerns its key only: unless it has to evict under low
    memory, every other key of the cache, in whatever shard, has after the
    store the entry it had before. *)
Theorem store_keeps_others `{Env} `{!EnvOk _} {U : Type} clock key val (opts : store_opts U)
    h c w Ms u :
  let now := opt_now (so_time opts) clock in
  cache_ok c (w_heap w) Ms → available h c (home (c_ctx c) key) →
  is_i64 now → store_opts_ok opts → key_ok key → Z.of_nat (length val) < 2 ^ 64 →
  (∀ sh M, Ms !! Z.to_nat (home (c_ctx c) key) = Some M → store_pre (c_ctx c) key sh M) →
  so_lowmem opts = false →
  ∃ st h1 c1 w1 u1 Ms1, pogocache_store clock key val opts h c w u = Some (st, h1, c1, w1, u1) ∧
    cache_ok c1 (w_heap w1) Ms1 ∧
    ∀ k, k ≠ key → lookup_key (c_ctx c) Ms1 k = lookup_key (c_ctx c) Ms k.
Proof.
  intros now Hok Hav Hn Ho Hk Hv Hpre Hlow.
  destruct (store_refines clock key h c w Ms u Hok Hav val opts Hn Ho Hk Hv Hpre)
    as (st & h1 & c1 & w1 & u1 & sh & M & sh' & M' & evs & H1 & H2 & H3 & (mem & v & _ & _ & H4)
      & _ & H5 & _ & H6 & _).
  do 5 eexists. exists (<[Z.to_nat (home (c_ctx c) key) := M']> Ms). split; [exact H1|].
  split; [exact H6|]. intros k Hne. unfold lookup_key.
  destruct (decide (Z.to_nat (home (c_ctx c) key) = Z.to_nat (home (c_ctx c) k))) as [E|E].
  - rewrite <- E, H3, list_lookup_insert_eq by now apply lookup_lt_Some with M. mstep.
    symmetry in H4. apply (store_spec_others _ _ _ _ _ _ _ _ _ _ _ _ _ _ k) in H4; [|easy|easy].
    now rewrite !abs_lookup in H4.
  - now rewrite list_lookup_insert_ne.
Qed.

Lemma store_keeps_others_witness : ∃ st h1 c1 w1 u1 Ms1,
  pogocache_store 0 [120] [7; 7] (plain 9) Root cache2 wc None = Some (st, h1, c1, w1, u1) ∧
  lookup_key (c_ctx cache2) Ms1 key_ab = lookup_key (c_ctx cache2) Ms2 key_ab.
Proof.
  destruct cache2_facts as (Hu & Hok & Hh & Hctx).
  destruct (store_keeps_others 0 [120] [7; 7] (plain 9) Root cache2 wc Ms2 None
    Hok (home_available _ _ _ _ _ Hok Hu)) as (st & h1 & c1 & w1 & u1 & Ms1 & H1 & _ & H3).
  - vm_compute. split; congruence.
  - apply plain_ok.
  - apply key_ok_x.
  - vm_compute. congruence.
  - intros sh M. apply store_pre2.
  - reflexivity.
  - exists st, h1, c1, w1, u1, Ms1. split; [exact H1|]. apply H3. intros E. discriminate E.
Defined.

Lemma store_then_load_witness : ∃ h1 c1 w1 h3 c3 w3,
  pogocache_store 0 [120] [7; 7] (plain 9) Root cache2 wc None =
    Some (POGOCACHE_INSERTED, h1, c1, w1, None) ∧
  pogocache_load 11 [120] fetch (InBatch batch7) c1 w1 None =
    Some (POGOCACHE_FOUND, h3, c3, w3, Some [7; 7]).
Proof.
  destruct cache2_facts as (Hu & Hok & Hh & Hctx).
  destruct (pogocache_store 0 [120] [7; 7] (plain 9) Root cache2 wc None)
    as [[[[[st h1] c1] w1] u1]|] eqn:E; [|exfalso; revert E; vm_compute; congruence].
  assert (st = POGOCACHE_INSERTED ∧ u1 = None ∧ c_locks c1 = c_locks cache2) as (-> & -> & El).
  { assert (Hc : (λ r : Z * handle * cache_t * world * option bytes, (r.1.1.1.1, r.2, c_locks r.1.1.2)) <$>
      pogocache_store 0 [120] [7; 7] (plain 9) Root cache2 wc None =
      Some (POGOCACHE_INSERTED, None, c_locks cache2)) by (vm_compute; reflexivity).
    rewrite E in Hc. cbn in Hc. injection Hc as -> -> ->. split; [reflexivity|]. split; reflexivity. }
  destruct (store_then_load 0 [120] [7; 7] (plain 9) Root cache2 wc Ms2 None
    POGOCACHE_INSERTED h1 c1 w1 None 11 (InBatch batch7) Hok (home_available _ _ _ _ _ Hok Hu))
    as (h3 & c3 & w3 & HL).
  - vm_compute. split; congruence.
  - apply plain_ok.
  - apply key_ok_x.
  - vm_compute. congruence.
  - intros sh M. apply store_pre2.
  - reflexivity.
  - exact E.
  - left. reflexivity.
  - intros sh M Hsh HM. rewrite (empty_at2 _ _ HM). split; [|left; vm_compute; congruence].
    assert (Hct : Forall (λ s, s_cleartime s = 0) (c_shards cache2)) by (vm_compute; repeat constructor).
    rewrite Forall_lookup in Hct. rewrite (Hct _ _ Hsh). vm_compute. congruence.
  - vm_compute. split; congruence.
  - destruct (home_available (InBatch batch7) cache2 _ Ms2 [120] Hok Hu) as (k & Hk & Hw).
    exists k. split; [|exact Hw]. unfold lock_get in *. rewrite El.
    assert (c_ctx c1 = c_ctx cache2) as ->; [|exact Hk].
    assert (Hc : (λ r : Z * handle * cache_t * world * option bytes, c_ctx r.1.1.2) <$>
      pogocache_store 0 [120] [7; 7] (plain 9) Root cache2 wc None =
      Some (c_ctx cache2)) by (vm_compute; reflexivity).
    rewrite E in Hc. cbn in Hc. injection Hc as ->. reflexivity.
  - exists h1, c1, w1, h3, c3, w3. split; [reflexivity|exact HL].
Defined.
