(* ===== verification/CacheScan.v ===== *)
(** * CacheScan: locks under concurrency and the scans over all shards *)

From S2P Require Import Prelude Util Context Entry Heap Map MapInv MapSpec MapOps Shard ShardInv ShardSpec ShardOps ShardStore Scan Samples ShardTheorems ScanTheorems Cache Locks CacheInv CacheOps CacheTheorems.

#[local] Opaque th64 hash24 encode entry_memsize.

(** ** Locks *)



(** [pogocache_end] always returns and releases exactly the shards the batch
    has locked since it began, each once; no lock of another user changes. *)
Theorem pogocache_end_correct c b l :
  batch_ok c b l →
  ∃ c', pogocache_end b c = Some c' ∧ c_ctx c' = c_ctx c ∧ c_shards c' = c_shards c ∧
    (∀ i, lock_get c' i = if decide (i ∈ l) then Some (Lock 0 no_shard) else lock_get c i) ∧
    (∀ i k, lock_get c' i = Some k → lk_word k ≠ bt_addr b).
Proof.
  intros Hb. destruct (end_spec _ _ _ Hb) as (c' & H1 & H2 & H3 & _ & H4).
  exists c'. do 4 (split; [easy|]). intros i k. rewrite H4.
  destruct (decide (i ∈ l)) as [|Hi].
  - intros [= <-]. pose proof (bo_addr _ _ _ Hb). cbn. lia.
  - intros Hk Hw. apply Hi. exact (bo_all _ _ _ Hb i k Hk Hw).
Qed.

(** A cache of which the batch at address 7 has locked both shards. *)
Definition held : cache_t :=
  Cache (c_ctx cache2) (c_shards cache2) [Lock 7 no_shard; Lock 7 0].

Lemma held_ok : batch_ok held (Batch 7 1 0 0) [1; 0].
Proof.
  split.
  - now vm_compute.
  - repeat constructor; rewrite ?elem_of_cons, ?elem_of_nil; intuition congruence.
  - cbn. split; [reflexivity|]. exists (Lock 7 0). split; [reflexivity|]. split; [reflexivity|].
    split; [reflexivity|]. exists (Lock 7 no_shard). split; [reflexivity|]. split; reflexivity.
  - intros i k Hk _. apply lock_get_range in Hk. cbn in Hk.
    assert (i = 0 ∨ i = 1) as [->| ->] by lia; set_solver.
Qed.

Lemma pogocache_end_correct_witness : ∃ c', pogocache_end (Batch 7 1 0 0) held = Some c' ∧
  lock_get c' 0 = Some (Lock 0 no_shard) ∧ lock_get c' 1 = Some (Lock 0 no_shard).
Proof.
  destruct (pogocache_end_correct held (Batch 7 1 0 0) [1; 0] held_ok) as (c' & H1 & _ & _ & H4 & _).
  exists c'. split; [exact H1|]. split; [apply (H4 0)|apply (H4 1)].
Defined.

(** ** Sums over the shards *)

Definition zsum (l : list Z) : Z := foldr Z.add 0 l.

Lemma execute_read (read : shard_t → Z) c i sh :
  unlocked c → length (c_locks c) = length (c_shards c) → c_shards c !! i = Some sh →
  execute (Z.of_nat i) Root c tt (λ sh s, Some (read sh, sh, s)) = Some (read sh, Root, c, tt).
Proof.
  intros Hu Hl Hsh. assert (Hlt : (i < length (c_shards c))%nat) by now apply lookup_lt_Some with sh.
  rewrite (execute_spec (Z.of_nat i) Root c tt _ sh (read sh) sh tt); [|..|reflexivity].
  - cbn. rewrite Nat2Z.id, list_insert_id by easy. now destruct c.
  - apply unlocked_available; [easy|lia].
  - unfold shard_get. rewrite (proj2 (Z.ltb_ge _ 0)) by lia. now rewrite Nat2Z.id.
Qed.

Lemma u64_add_l a b : u64 (u64 a + b) = u64 (a + b).
Proof. unfold u64. now rewrite Zplus_mod_idemp_l. Qed.

Lemma u64_add3 a b c : u64 (u64 (a + u64 b) + c) = u64 (a + (b + c)).
Proof.
  unfold u64. rewrite Zplus_mod_idemp_l, <- Z.add_assoc, (Z.add_comm (b mod _)), Z.add_assoc,
    Zplus_mod_idemp_r. f_equal. lia.
Qed.

Lemma sum_shards_spec read c todo : ∀ i count,
  unlocked c → length (c_locks c) = length (c_shards c) →
  (i + todo)%nat = length (c_shards c) → u64 count = count →
  sum_shards todo read (Z.of_nat i) count Root c =
    Some (u64 (count + zsum (read <$> drop i (c_shards c))), Root, c).
Proof.
  induction todo as [|todo IH]; intros i count Hu Hl Hi Hc; cbn [sum_shards].
  - rewrite drop_ge by lia. cbn. now rewrite Z.add_0_r, Hc.
  - destruct (lookup_lt_is_Some_2 (c_shards c) i) as [sh Hsh]; [lia|].
    rewrite (execute_read read c i sh) by easy. mstep.
    replace (Z.of_nat i + 1) with (Z.of_nat (S i)) by lia.
    rewrite IH by (easy || lia || apply u64_id, u64_range). mstep.
    rewrite (drop_S _ _ _ Hsh). cbn. rewrite u64_add_l, Z.add_assoc. reflexivity.
Qed.

Lemma scan_sum_spec read opts c hp Ms :
  cache_ok c hp Ms → unlocked c → sc_oneshard opts = false →
  scan_sum read opts Root c = Some (u64 (zsum (read <$> c_shards c)), Root, c).
Proof.
  intros Hok Hu Ho. unfold scan_sum. rewrite Ho.
  rewrite <- (co_shards _ _ _ Hok), Nat2Z.id. change 0 with (Z.of_nat 0) at 1.
  rewrite (sum_shards_spec read c) by (easy || apply (co_locks _ _ _ Hok)). now rewrite drop_0.
Qed.

(** [pogocache_count], [pogocache_total] and [pogocache_size] over all shards
    of an unlocked cache always return, change nothing, leave every lock free,
    and give the sum of the readings of the shards modulo 2^64; out of range, a
    single shard counts zero. *)
Theorem scan_sums opts c hp Ms :
  cache_ok c hp Ms → unlocked c →
  (sc_oneshard opts = false →
   pogocache_count opts Root c = Some (u64 (zsum (countop <$> c_shards c)), Root, c) ∧
   pogocache_total opts Root c = Some (u64 (zsum (totalop <$> c_shards c)), Root, c) ∧
   pogocache_size opts Root c =
     Some (u64 (zsum ((λ sh, sizeop sh (sc_entriesonly opts)) <$> c_shards c)), Root, c)) ∧
  (sc_oneshard opts = true →
   pogocache_count opts Root c =
     Some (if decide (0 <= sc_oneshardidx opts)
           then default 0 (countop <$> c_shards c !! Z.to_nat (sc_oneshardidx opts)) else 0, Root, c)).
Proof.
  intros Hok Hu. split; intros Ho.
  - unfold pogocache_count, pogocache_total, pogocache_size.
    now rewrite !(scan_sum_spec _ opts c hp Ms Hok Hu Ho).
  - pose proof (co_shards _ _ _ Hok). unfold pogocache_count, scan_sum. rewrite Ho.
    destruct (sc_oneshardidx opts <? 0) eqn:E1; zb; cbn [orb]; [now rewrite decide_False by lia|].
    rewrite decide_True by lia.
    destruct (nshards (c_ctx c) <=? sc_oneshardidx opts) eqn:E2; zb.
    { rewrite lookup_ge_None_2 by lia. easy. }
    destruct (lookup_lt_is_Some_2 (c_shards c) (Z.to_nat (sc_oneshardidx opts))) as [sh Hsh]; [lia|].
    rewrite <- (Z2Nat.id (sc_oneshardidx opts)) at 1 by lia.
    rewrite (execute_read countop c _ sh) by (easy || apply (co_locks _ _ _ Hok)). mstep.
    now rewrite Hsh.
Qed.

Lemma scan_sums_witness :
  pogocache_count (ScanOpts 0 false 0 false) Root cache2 = Some (0, Root, cache2).
Proof.
  destruct cache2_facts as (Hu & Hok & _).
  destruct (scan_sums (ScanOpts 0 false 0 false) cache2 (w_heap wc) Ms2 Hok Hu) as [H _].
  rewrite (proj1 (H eq_refl)). vm_compute. reflexivity.
Defined.

(** ** Sweeping all shards *)

(** The reports of a sweep of consecutive shards, of which each is paired with
    the entries it drops. *)
Fixpoint all_reports (ctx : pgctx) (now i : Z) (ds : list (shard_t * list ent)) : list event :=
  match ds with
  | [] => []
  | (sh, d) :: ds => reports ctx i now (s_cleartime sh) d ++ all_reports ctx now (i + 1) ds
  end.

Lemma sweep_shard_spec `{Env} now i c w Ms sh M :
  cache_ok c (w_heap w) Ms → unlocked c → c_shards c !! i = Some sh → Ms !! i = Some M →
  ∃ kept sh' w' M' drops,
    sweep_shard now (Z.of_nat i) Root c w =
      Some (u64 (Z.of_nat (length drops)), kept, Root,
            Cache (c_ctx c) (<[i := sh']> (c_shards c)) (c_locks c), w') ∧
    cache_ok (Cache (c_ctx c) (<[i := sh']> (c_shards c)) (c_locks c)) (w_heap w') (<[i := M']> Ms) ∧
    foreign (w_heap w') (<[i := M']> Ms) = foreign (w_heap w) Ms ∧
    w_log w' = w_log w ++ reports (c_ctx c) (Z.of_nat i) now (s_cleartime sh) drops ∧
    drops ≡ₚ dead_ents now (s_cleartime sh) (abs sh M) ∧
    abs sh' M' = sweep_spec now (s_cleartime sh) drops (abs sh M).
Proof.
  intros Hok Hu Hsh HM. pose proof (co_shard _ _ _ Hok i sh M Hsh HM) as Hs.
  destruct (sweepop_spec (c_ctx c) (Z.of_nat i) now 0 0 sh w M Hs ltac:(now vm_compute))
    as (kept & sh' & w' & M' & drops & H1 & H2 & H3 & H4 & H5 & H6).
  exists kept, sh', w', M', drops. pose proof (co_locks _ _ _ Hok) as Hl.
  assert (Hlt : (i < length (c_shards c))%nat) by now apply lookup_lt_Some with sh.
  unfold sweep_shard.
  rewrite (execute_spec (Z.of_nat i) Root c w _ sh (u64 (Z.of_nat (length drops)), kept) sh' w').
  - mstep. cbn [fst snd lock_effect]. rewrite Nat2Z.id. split; [reflexivity|].
    assert (Hhome : ∀ k, is_Some (M' !! k) → home (c_ctx c) k = Z.of_nat i).
    { intros k [v Hk]. apply (co_home _ _ _ Hok i M k HM).
      assert (Hx : a_ents (abs sh' M') !! k = Some v.2) by (rewrite abs_lookup; now rewrite Hk).
      rewrite H6 in Hx. apply map_lookup_filter_Some in Hx as [Hx _]. rewrite abs_lookup in Hx.
      apply fmap_Some in Hx as (y & Hy & _). eauto. }
    destruct (cache_ok_update c (Cache (c_ctx c) (<[i := sh']> (c_shards c)) (c_locks c)) (w_heap w)
      (w_heap w') Ms i sh' M M' Hok HM H3 H2 Hhome) as [Hc Hf]; [reflexivity|reflexivity|reflexivity|].
    split; [exact Hc|]. split; [exact Hf|]. split; [exact H4|]. split; [exact H5|exact H6].
  - apply unlocked_available; [exact Hu|lia].
  - unfold shard_get. rewrite (proj2 (Z.ltb_ge _ 0)) by lia. now rewrite Nat2Z.id.
  - rewrite H1. reflexivity.
Qed.

Lemma sweep_shards_spec `{Env} now todo : ∀ i sw kp c w Ms,
  cache_ok c (w_heap w) Ms → unlocked c → (i + todo)%nat = length (c_shards c) → u64 sw = sw →
  ∃ kp' c' w' Ms' dropss,
    sweep_shards todo now (Z.of_nat i) sw kp Root c w =
      Some (u64 (sw + Z.of_nat (length (concat dropss))), kp', Root, c', w') ∧
    cache_ok c' (w_heap w') Ms' ∧ foreign (w_heap w') Ms' = foreign (w_heap w) Ms ∧
    c_ctx c' = c_ctx c ∧ c_locks c' = c_locks c ∧
    w_log w' = w_log w ++ all_reports (c_ctx c) now (Z.of_nat i) (zip (drop i (c_shards c)) dropss) ∧
    length dropss = todo ∧
    (∀ j, (j < i)%nat → c_shards c' !! j = c_shards c !! j ∧ Ms' !! j = Ms !! j) ∧
    (∀ j sh M d, c_shards c !! (i + j)%nat = Some sh → Ms !! (i + j)%nat = Some M →
       dropss !! j = Some d → ∃ sh' M', c_shards c' !! (i + j)%nat = Some sh' ∧
         Ms' !! (i + j)%nat = Some M' ∧ d ≡ₚ dead_ents now (s_cleartime sh) (abs sh M) ∧
         abs sh' M' = sweep_spec now (s_cleartime sh) d (abs sh M)).
Proof.
  induction todo as [|todo IH]; intros i sw kp c w Ms Hok Hu Hi Hsw; cbn [sweep_shards].
  - exists kp, c, w, Ms, []. cbn [concat length]. rewrite Z.add_0_r, Hsw.
    rewrite (drop_ge (c_shards c) i) by lia. cbn [zip zip_with all_reports]. rewrite app_nil_r.
    do 8 (split; [easy|]). intros j sh M d _ _ [=].
  - destruct (lookup_lt_is_Some_2 (c_shards c) i) as [sh Hsh]; [lia|].
    destruct (lookup_lt_is_Some_2 Ms i) as [M HM]; [rewrite (co_contents _ _ _ Hok); lia|].
    destruct (sweep_shard_spec now i c w Ms sh M Hok Hu Hsh HM)
      as (kept & sh' & w1 & M' & d & -> & Hc1 & Hf1 & Hl1 & Hd & Ha). mstep.
    set (c1 := Cache _ _ _) in *. replace (Z.of_nat i + 1) with (Z.of_nat (S i)) by lia.
    destruct (IH (S i) (u64 (sw + u64 (Z.of_nat (length d)))) (u64 (kp + kept)) c1 w1 (<[i := M']> Ms))
      as (kp' & c' & w' & Ms' & dropss & -> & K1 & K2 & K3 & K4 & K5 & K6 & K7 & K8); try assumption.
    { unfold c1. cbn. rewrite length_insert. lia. }
    { apply u64_id, u64_range. }
    mstep. exists kp', c', w', Ms', (d :: dropss).
    split.
    { cbn [concat]. now rewrite length_app, Nat2Z.inj_add, u64_add3. }
    split; [exact K1|]. split; [congruence|]. split; [exact K3|]. split; [exact K4|].
    split.
    { rewrite K5, Hl1, <- app_assoc, (drop_S _ _ _ Hsh). cbn [zip zip_with all_reports]. do 2 f_equal.
      unfold c1. cbn [c_shards c_ctx]. rewrite drop_insert_lt by lia.
      now replace (Z.of_nat i + 1) with (Z.of_nat (S i)) by lia. }
    split; [cbn; now rewrite K6|].
    assert (Hlt : (i < length (c_shards c))%nat) by lia.
    assert (Hlt' : (i < length Ms)%nat) by now apply lookup_lt_Some with M.
    split.
    { intros j Hj. destruct (K7 j ltac:(lia)) as [-> ->]. unfold c1. cbn [c_shards].
      rewrite !list_lookup_insert_ne by lia. easy. }
    intros [|j] shj Mj dj Hshj HMj.
    + rewrite Nat.add_0_r in *. intros [= <-]. rewrite Hsh in Hshj. rewrite HM in HMj.
      injection Hshj as <-. injection HMj as <-. exists sh', M'.
      destruct (K7 i ltac:(lia)) as [-> ->]. unfold c1. cbn [c_shards].
      rewrite !list_lookup_insert_eq by easy. easy.
    + cbn [lookup list_lookup]. intros Hdj. replace (i + S j)%nat with (S i + j)%nat in * by lia.
      apply (K8 j shj Mj dj); [..|exact Hdj]; unfold c1; cbn [c_shards];
        rewrite list_lookup_insert_ne by lia; easy.
Qed.

(** [pogocache_sweep] over all shards of an unlocked cache always terminates
    and removes exactly the dead entries of every shard, each reported once and
    freed; the swept count is their total number modulo 2^64; every lock is
    free again, nothing else in memory changes and the invariant is kept. *)
Theorem pogocache_sweep_all `{Env} clock opts c w Ms :
  cache_ok c (w_heap w) Ms → unlocked c → sc_oneshard opts = false →
  let now := opt_now (sc_time opts) clock in
  ∃ kept c' w' Ms' dropss,
    pogocache_sweep clock opts Root c w =
      Some (u64 (Z.of_nat (length (concat dropss))), kept, Root, c', w') ∧
    cache_ok c' (w_heap w') Ms' ∧ foreign (w_heap w') Ms' = foreign (w_heap w) Ms ∧
    c_locks c' = c_locks c ∧
    w_log w' = w_log w ++ all_reports (c_ctx c) now 0 (zip (c_shards c) dropss) ∧
    length dropss = length (c_shards c) ∧
    (∀ j sh M d, c_shards c !! j = Some sh → Ms !! j = Some M → dropss !! j = Some d →
       ∃ sh' M', c_shards c' !! j = Some sh' ∧ Ms' !! j = Some M' ∧
         d ≡ₚ dead_ents now (s_cleartime sh) (abs sh M) ∧
         abs sh' M' = sweep_spec now (s_cleartime sh) d (abs sh M)).
Proof.
  intros Hok Hu Ho now. unfold pogocache_sweep. rewrite Ho. fold now.
  rewrite <- (co_shards _ _ _ Hok), Nat2Z.id.
  destruct (sweep_shards_spec now (length (c_shards c)) 0 0 0 c w Ms Hok Hu eq_refl eq_refl)
    as (kept & c' & w' & Ms' & dropss & H1 & H2 & H3 & _ & H5 & H6 & H7 & _ & H9).
  rewrite drop_0 in H6. exists kept, c', w', Ms', dropss. split; [exact H1|].
  do 5 (split; [assumption|]). intros j. exact (H9 j).
Qed.

Lemma pogocache_sweep_all_witness : ∃ kept c' w',
  pogocache_sweep 9 (ScanOpts 0 false 0 false) Root cache2 wc = Some (0, kept, Root, c', w').
Proof.
  destruct cache2_facts as (Hu & Hok & _).
  destruct (pogocache_sweep_all 9 (ScanOpts 0 false 0 false) cache2 wc Ms2 Hok Hu eq_refl)
    as (kept & c' & w' & Ms' & dropss & H1 & _ & _ & _ & _ & H6 & H7).
  exists kept, c', w'. rewrite H1. do 5 f_equal.
  assert (Hd : Forall (λ d, d = []) dropss).
  { apply Forall_lookup_2. intros j d Hj. assert (Hlt : (j < 2)%nat).
    { apply lookup_lt_Some in Hj. rewrite H6 in Hj. exact Hj. }
    destruct (lookup_lt_is_Some_2 (c_shards cache2) j) as [sh Hsh]; [exact Hlt|].
    destruct (lookup_lt_is_Some_2 Ms2 j) as [M HM]; [exact Hlt|].
    destruct (H7 j sh M d Hsh HM Hj) as (_ & _ & _ & _ & Hd & _).
    assert (M = ∅) as ->.
    { destruct j as [|[|j]]; [now injection HM as <-|now injection HM as <-|lia]. }
    apply Permutation_nil_r. rewrite Hd. unfold dead_ents, abs. cbn [a_ents].
    rewrite fmap_empty, map_filter_empty, map_to_list_empty. reflexivity. }
  assert (concat dropss = []) as ->; [|reflexivity].
  clear -Hd. induction Hd as [|d ds -> _ IH]; [reflexivity|exact IH].
Defined.

(** ** Clearing all shards *)

Lemma clear_shards_spec now c todo : ∀ i shs,
  unlocked c → length (c_locks c) = length shs → (i + todo)%nat = length shs →
  clear_shards todo now (Z.of_nat i) Root (Cache (c_ctx c) shs (c_locks c)) =
    Some (Root, Cache (c_ctx c) (take i shs ++ (clearop now <$> drop i shs)) (c_locks c)).
Proof.
  induction todo as [|todo IH]; intros i shs Hu Hl Hi; cbn [clear_shards].
  - rewrite take_ge, drop_ge by lia. cbn. now rewrite app_nil_r.
  - destruct (lookup_lt_is_Some_2 shs i) as [sh Hsh]; [lia|]. unfold clear_shard.
    rewrite (execute_spec (Z.of_nat i) Root _ tt _ sh tt (clearop now sh) tt); [|..|reflexivity].
    + mstep. cbn [lock_effect c_ctx c_shards c_locks snd fst]. rewrite Nat2Z.id. mstep.
      replace (Z.of_nat i + 1) with (Z.of_nat (S i)) by lia.
      rewrite (IH (S i)) by (easy || rewrite ?length_insert; lia). mstep. do 3 f_equal.
      rewrite (drop_S shs _ _ Hsh), drop_insert_lt by lia.
      rewrite (take_S_r _ _ (clearop now sh)) by (apply list_lookup_insert_eq; lia).
      rewrite take_insert_ge by lia. now rewrite <- app_assoc.
    + apply unlocked_available; [exact Hu|]. cbn. lia.
    + unfold shard_get. rewrite (proj2 (Z.ltb_ge _ 0)) by lia. cbn. now rewrite Nat2Z.id.
Qed.

(** [pogocache_clear] on an unlocked cache always returns, keeps the invariant
    and every lock free, and kills exactly the entries stored before the clear
    time, in every shard and for every later reader, whatever their expiry;
    entries stored at the clear time or later stay as they are. *)
Theorem pogocache_clear_all clock opts c h Ms :
  cache_ok c h Ms → unlocked c → sc_oneshard opts = false →
  let now := opt_now (sc_time opts) clock in
  ∃ c', pogocache_clear clock opts Root c = Some (Root, c') ∧ cache_ok c' h Ms ∧
    c_locks c' = c_locks c ∧
    ∀ j sh, c_shards c' !! j = Some sh →
      (∀ x t, e_time x < now → fate t (s_cleartime sh) x = POGOCACHE_REASON_CLEARED) ∧
      (∀ x t, now <= e_time x → fate t (s_cleartime sh) x ≠ POGOCACHE_REASON_CLEARED).
Proof.
  intros Hok Hu Ho now. unfold pogocache_clear. rewrite Ho. fold now.
  pose proof (co_locks _ _ _ Hok) as Hl. rewrite <- (co_shards _ _ _ Hok), Nat2Z.id.
  pose proof (clear_shards_spec now c (length (c_shards c)) 0 (c_shards c) Hu Hl eq_refl) as E.
  rewrite take_0, drop_0, app_nil_l in E. replace (Cache (c_ctx c) (c_shards c) (c_locks c)) with c in E by now destruct c.
  eexists. split; [exact E|]. split; [|split; [reflexivity|]].
  - pose proof (co_shard _ _ _ Hok) as Hsk.
    destruct Hok. split; cbn [c_ctx c_shards c_locks]; rewrite ?length_fmap; try assumption.
    intros i sh M Hsh HM. apply list_lookup_fmap_Some in Hsh as (sh0 & -> & Hsh0).
    destruct (Hsk i sh0 M Hsh0 HM) as [Hm Hc]. split; [exact Hm|exact Hc].
  - cbn [c_shards]. intros j sh Hsh. apply list_lookup_fmap_Some in Hsh as (sh0 & -> & _).
    unfold fate, entry_alive_exp. cbn [s_cleartime clearop set_clearcount].
    split; intros x t Ht; [now rewrite (proj2 (Z.ltb_lt _ _))|].
    rewrite (proj2 (Z.ltb_ge _ _)) by easy. now destruct (_ && _).
Qed.

Lemma pogocache_clear_all_witness : ∃ c', pogocache_clear 9 (ScanOpts 0 false 0 false) Root cache2 = Some (Root, c') ∧
  ∀ sh, c_shards c' !! 1%nat = Some sh → fate 9 (s_cleartime sh) ent_ab = POGOCACHE_REASON_CLEARED.
Proof.
  destruct cache2_facts as (Hu & Hok & _).
  destruct (pogocache_clear_all 9 (ScanOpts 0 false 0 false) cache2 (w_heap wc) Ms2 Hok Hu eq_refl)
    as (c' & H1 & _ & _ & H4). exists c'. split; [exact H1|].
  intros sh Hsh. apply (proj1 (H4 1%nat sh Hsh)). vm_compute. reflexivity.
Defined.

(** ** Scans through a batch *)

(** From the second shard on, a scan waits for a lock that is taken. *)
Lemma sum_shards_blocked read i k todo : ∀ j count c,
  lock_get c i = Some k → lk_word k ≠ 0 → j <= i < j + Z.of_nat todo →
  sum_shards todo read j count Root c = None.
Proof.
  induction todo as [|todo IH]; intros j count c Hk Hw Hi; [lia|]. cbn [sum_shards].
  destruct (execute j Root c tt _) as [[[[x h'] c'] s']|] eqn:E; [|easy]. mstep.
  assert (lock_get c' i = Some k ∧ j ≠ i) as [Hk' Hne].
  { revert E. unfold execute, lock. destruct (lock_get c j) as [l|] eqn:Hl; [|easy]. mstep.
    destruct (lk_word l =? 0) eqn:El; zb; [|easy]. mstep.
    destruct (shard_get _ j); [|easy]. mstep. unfold release.
    assert (Hne : j ≠ i) by (intros ->; congruence).
    change (lock_get (set_shard ?c _ _) ?i) with (lock_get c i).
    rewrite (lock_get_set _ _ _ _ _ Hl), decide_True by easy. mstep. intros [= _ _ <- _].
    split; [|easy]. unfold set_lock, set_shard, lock_get. cbn [c_locks c_shards].
    apply lock_get_range in Hl. unfold lock_get in Hk. destruct (i <? 0) eqn:Ei; zb; [easy|].
    rewrite list_insert_insert_eq, list_lookup_insert_ne by lia. exact Hk. }
  rewrite IH by (easy || lia). reflexivity.
Qed.

(** A count over all shards through a batch that already holds another shard
    than the first never returns: after the first shard the scan asks for the
    locks as a caller without a batch and waits for its own batch. *)
Theorem batch_count_blocks opts b c i k :
  sc_oneshard opts = false → lock_get c i = Some k → lk_word k = bt_addr b → bt_addr b ≠ 0 →
  1 <= i < nshards (c_ctx c) →
  pogocache_count opts (InBatch b) c = None.
Proof.
  intros Ho Hk Hw Hb Hi. unfold pogocache_count, scan_sum. rewrite Ho.
  destruct (Z.to_nat (nshards (c_ctx c))) as [|todo] eqn:En; [lia|]. cbn [sum_shards].
  destruct (execute 0 (InBatch b) c tt _) as [[[[x h'] c'] s']|] eqn:E; [|easy]. mstep.
  assert (lock_get c' i = Some k) as Hk'.
  { revert E. unfold execute, lock. destruct (lock_get c 0) as [l|] eqn:Hl; [|easy]. mstep.
    assert (Hset : ∀ l', lock_get (set_lock c 0 l') i = Some k).
    { intros l'. now rewrite (lock_get_set _ _ _ _ _ Hl), decide_False by lia. }
    destruct (lk_word l =? 0); [|destruct (lk_word l =? bt_addr b); [|easy]]; mstep;
      (destruct (shard_get _ 0); [|easy]); mstep; intros [= _ _ <- _]; [apply Hset|exact Hk]. }
  rewrite (sum_shards_blocked countop i k) by (easy || lia). reflexivity.
Qed.

Lemma batch_count_blocks_witness :
  pogocache_count (ScanOpts 0 false 0 false) (InBatch (Batch 7 1 0 0)) held = None.
Proof.
  apply (batch_count_blocks _ (Batch 7 1 0 0) held 1 (Lock 7 0));
    [reflexivity|reflexivity|reflexivity|discriminate|].
  change (nshards (c_ctx held)) with (nshards (c_ctx cache2)).
  rewrite (proj2 (proj2 (proj2 cache2_facts))). vm_compute. split; congruence.
Defined.

(** [pogocache_clear] through a batch whose memory holds zero where a cache
    keeps its number of shards, as the thread-local batch does, clears nothing
    at all. *)
Theorem batch_clear_nothing clock opts b c :
  sc_oneshard opts = false → bt_overlay b = 0 →
  pogocache_clear clock opts (InBatch b) c = Some (InBatch b, c).
Proof. intros Ho Hb. unfold pogocache_clear. now rewrite Ho, Hb. Qed.

Lemma batch_clear_nothing_witness :
  pogocache_clear 9 (ScanOpts 0 false 0 false) (InBatch batch7) cache2 = Some (InBatch batch7, cache2).
Proof. apply batch_clear_nothing; reflexivity. Defined.
