(* ===== verification/Buf.v ===== *)
(** * Buf: growable byte buffers

    [src/src/buf.c]. A buffer with a capacity owns a block of memory; one
    without borrows its bytes from somewhere else. Blocks are numbered, and
    [blocks] knows which are allocated, so that freeing a block twice is seen.
    The bytes of a buffer past its length are not represented: nothing reads
    them before they are written. [None] is a double free, a use of freed
    memory, or a loop that does not end; [xmalloc.c] aborts the program when
    there is no memory, so allocation always succeeds. *)

From S2P Require Import Prelude Util.

Record blocks := Blocks { bk_next : Z; bk_live : gset Z }.

(** [xrealloc(p, n)]: a fresh block takes the place of [p]. *)
Definition xrealloc (m : blocks) (p : Z) : option (Z * blocks) :=
  let q := bk_next m in
  if p =? 0 then Some (q, Blocks (q + 1) ({[q]} ∪ bk_live m))
  else if bool_decide (p ∈ bk_live m) then
    Some (q, Blocks (q + 1) ({[q]} ∪ (bk_live m ∖ {[p]})))
  else None.

(** [xfree(p)]. *)
Definition xfree (m : blocks) (p : Z) : option blocks :=
  if p =? 0 then Some m
  else if bool_decide (p ∈ bk_live m) then Some (Blocks (bk_next m) (bk_live m ∖ {[p]}))
  else None.

(** [struct buf]: the block [data] points to when it is owned, the first [len]
    bytes of [data], and [cap]. *)
Record buf := Buf { buf_block : Z; buf_data : bytes; buf_cap : Z }.

Definition buf_len (b : buf) : Z := Z.of_nat (length (buf_data b)).

(** A zeroed [struct buf]. *)
Definition buf0 : buf := Buf 0 [] 0.

(** The loop of [buf_ensure]. *)
Fixpoint grow_cap (fuel : nat) (need newcap : Z) : option Z :=
  if newcap <? need then
    match fuel with
    | O => None
    | S fuel => grow_cap fuel need (u64 (newcap * 2))
    end
  else Some newcap.

(** [buf_ensure]. A buffer without capacity forgets the bytes it borrows; they
    are indeterminate afterwards, which is [None] unless there are none. *)
Definition buf_ensure (m : blocks) (b : buf) (len : Z) : option (blocks * buf) :=
  let need := u64 (buf_len b + len) in
  if buf_cap b <? need then
    let '(block, newcap) :=
      if buf_cap b =? 0 then (0, 16) else (buf_block b, u64 (buf_cap b * 2)) in
    newcap ← grow_cap 64 need newcap;
    if (buf_cap b =? 0) && negb (buf_len b =? 0) then None
    else
      '(block, m) ← xrealloc m block;
      Some (m, Buf block (buf_data b) newcap)
  else Some (m, b).

Definition buf_append (m : blocks) (b : buf) (data : bytes) : option (blocks * buf) :=
  '(m, b) ← buf_ensure m b (Z.of_nat (length data));
  Some (m, Buf (buf_block b) (buf_data b ++ data) (buf_cap b)).

Definition buf_append_byte (m : blocks) (b : buf) (byte : Z) : option (blocks * buf) :=
  if buf_len b <? buf_cap b then Some (m, Buf (buf_block b) (buf_data b ++ [byte]) (buf_cap b))
  else buf_append m b [byte].

Definition buf_clear (m : blocks) (b : buf) : option (blocks * buf) :=
  m ← (if buf_cap b =? 0 then Some m else xfree m (buf_block b));
  Some (m, buf0).

(** The bytes the code writes into the room it ensured. *)
Definition buf_write (b : buf) (data : bytes) : buf :=
  Buf (buf_block b) (buf_data b ++ data) (buf_cap b).

Definition buf_append_uvarint (m : blocks) (b : buf) (x : Z) : option (blocks * buf) :=
  '(m, b) ← buf_ensure m b 10;
  Some (m, buf_write b (varint_write_u64 x)).

Definition buf_append_varint (m : blocks) (b : buf) (x : Z) : option (blocks * buf) :=
  '(m, b) ← buf_ensure m b 10;
  Some (m, buf_write b (varint_write_i64 x)).

(** ** Invariant *)

(** Allocated blocks are numbered from one and below the next number. *)
Definition blocks_ok (m : blocks) : Prop := 0 < bk_next m ∧ ∀ p, p ∈ bk_live m → 0 < p < bk_next m.

(** An owned buffer has an allocated block that holds its bytes; a borrowed one
    is not written to unless it is empty. *)
Definition buf_ok (m : blocks) (b : buf) : Prop :=
  0 <= buf_cap b < 2 ^ 63 ∧ (buf_cap b = 0 ∨ (buf_len b <= buf_cap b ∧ buf_block b ∈ bk_live m)).

Definition owned_block (b : buf) : gset Z := if buf_cap b =? 0 then ∅ else {[buf_block b]}.

(** Every other block is allocated afterwards iff it was before. *)
Definition same_others (m m' : blocks) (X Y : gset Z) : Prop :=
  bk_live m ∖ X = bk_live m' ∖ Y ∧ bk_next m <= bk_next m'.

(** Doubling reaches what is needed, and not twice more than it. *)
Lemma grow_cap_spec fuel : ∀ need newcap,
  0 < newcap → need < 2 ^ 62 → newcap < 2 ^ 63 → need <= newcap * 2 ^ Z.of_nat fuel →
  ∃ cap, grow_cap fuel need newcap = Some cap ∧ need <= cap < 2 ^ 63 ∧ newcap <= cap ∧
    (cap = newcap ∨ cap < 2 * need).
Proof.
  induction fuel as [|fuel IH]; intros need newcap H0 Hn Hc Hf; cbn [grow_cap].
  - rewrite (proj2 (Z.ltb_ge _ _)) by (cbn in Hf; lia). exists newcap. cbn in Hf. split; [easy|lia].
  - destruct (newcap <? need) eqn:E; zb; [|exists newcap; split; [easy|lia]].
    rewrite u64_id by (unfold is_u64; lia).
    destruct (IH need (newcap * 2)) as (cap & H1 & H2 & H3 & H4); try lia.
    { rewrite Nat2Z.inj_succ, Z.pow_succ_r in Hf by lia. lia. }
    exists cap. split; [easy|]. lia.
Qed.

Lemma buf_len_nonneg b : 0 <= buf_len b.
Proof. unfold buf_len. lia. Qed.

Lemma ensure_spec m b n :
  blocks_ok m → buf_ok m b → (buf_cap b = 0 → buf_data b = []) → 0 <= n →
  buf_len b + n < 2 ^ 61 →
  ∃ m' b', buf_ensure m b n = Some (m', b') ∧ blocks_ok m' ∧ buf_ok m' b' ∧
    buf_data b' = buf_data b ∧ buf_len b + n <= buf_cap b' ∧
    same_others m m' (owned_block b) (owned_block b') ∧
    (buf_cap b' = buf_cap b ∧ b' = b ∨ buf_cap b' <= Z.max 16 (Z.max (2 * buf_cap b) (2 * (buf_len b + n)))).
Proof.
  intros Hm Hb Hborrow Hn Hsz. pose proof (buf_len_nonneg b) as Hl. unfold buf_ensure.
  rewrite u64_id by (unfold is_u64; lia). destruct Hb as [Hcap Hown].
  destruct (buf_cap b <? buf_len b + n) eqn:E; zb.
  2: { exists m, b. split; [easy|]. split; [easy|]. split; [easy|]. split; [easy|]. split; [lia|].
       split; [split; [easy|lia]|auto]. }
  destruct Hm as [Hn0 Hlive]. destruct (buf_cap b =? 0) eqn:Ec; zb.
  - destruct (grow_cap_spec 64 (buf_len b + n) 16) as (cap & -> & H1 & H2 & H3); try lia. mstep.
    unfold buf_len at 1. rewrite (Hborrow Ec). cbn [length andb negb Z.eqb Z.of_nat].
    unfold xrealloc. cbn [Z.eqb]. mstep. do 2 eexists. split; [reflexivity|].
    assert (Hq : bk_next m ∉ bk_live m) by (intros Hq; apply Hlive in Hq; lia).
    split; [split; cbn; [lia|]; intros p [->%elem_of_singleton|Hp]%elem_of_union; [lia|]; apply Hlive in Hp; lia|].
    split; [split; cbn; [lia|right]; split; [unfold buf_len; cbn; lia|set_solver]|].
    split; [easy|]. cbn [buf_cap]. split; [lia|]. split; [|right; lia].
    unfold same_others, owned_block. cbn [buf_cap buf_block bk_live bk_next]. rewrite Ec, Z.eqb_refl.
    rewrite (proj2 (Z.eqb_neq cap 0)) by lia. split; [set_solver|lia].
  - rewrite u64_id by (unfold is_u64; lia).
    destruct Hown as [?|[Hlc Hin]]; [lia|].
    destruct (grow_cap_spec 64 (buf_len b + n) (buf_cap b * 2)) as (cap & -> & H1 & H2 & H3); try lia. mstep.
    cbn [andb]. unfold xrealloc. pose proof (Hlive _ Hin). rewrite (proj2 (Z.eqb_neq (buf_block b) 0)) by lia.
    rewrite bool_decide_true by easy. mstep. do 2 eexists. split; [reflexivity|].
    assert (Hq : bk_next m ∉ bk_live m) by (intros Hq; apply Hlive in Hq; lia).
    split; [split; cbn; [lia|]; intros p [->%elem_of_singleton|Hp]%elem_of_union; [lia|]; apply elem_of_difference in Hp as [Hp _]; apply Hlive in Hp; lia|].
    split; [split; cbn; [lia|right]; split; [unfold buf_len in *; cbn; lia|set_solver]|].
    split; [easy|]. cbn [buf_cap]. split; [lia|]. split; [|right; lia].
    unfold same_others, owned_block. cbn [buf_cap buf_block bk_live bk_next].
    rewrite (proj2 (Z.eqb_neq (buf_cap b) 0)), (proj2 (Z.eqb_neq cap 0)) by lia. split; [set_solver|lia].
Qed.

Lemma append_spec m b data :
  blocks_ok m → buf_ok m b → (buf_cap b = 0 → buf_data b = []) →
  buf_len b + Z.of_nat (length data) < 2 ^ 61 →
  ∃ m' b', buf_append m b data = Some (m', b') ∧ blocks_ok m' ∧ buf_ok m' b' ∧
    buf_data b' = buf_data b ++ data ∧ same_others m m' (owned_block b) (owned_block b').
Proof.
  intros Hm Hb Hbor Hsz. unfold buf_append.
  destruct (ensure_spec m b (Z.of_nat (length data)) Hm Hb Hbor) as (m' & b' & -> & H1 & H2 & H3 & H4 & H5 & _);
    [lia|lia|]. mstep. do 2 eexists. split; [reflexivity|]. split; [easy|].
  split; [|split; [cbn; congruence|easy]]. destruct H2 as [Hc Ho]. split; [easy|]. cbn [buf_cap].
  destruct Ho as [?|[_ Ho]]; [now left|]. right. split; [|easy].
  unfold buf_len in *. cbn. rewrite H3, length_app. lia.
Qed.

Lemma clear_spec m b :
  blocks_ok m → buf_ok m b →
  ∃ m', buf_clear m b = Some (m', buf0) ∧ blocks_ok m' ∧ same_others m m' (owned_block b) ∅ ∧
    bk_live m' = bk_live m ∖ owned_block b.
Proof.
  intros [Hn Hlive] [Hcap Hown]. unfold buf_clear, owned_block. destruct (buf_cap b =? 0) eqn:Ec; zb.
  - mstep. exists m. split; [easy|]. split; [easy|]. split; [split; [set_solver|lia]|set_solver].
  - destruct Hown as [?|[_ Hin]]; [lia|]. pose proof (Hlive _ Hin). unfold xfree.
    rewrite (proj2 (Z.eqb_neq (buf_block b) 0)), bool_decide_true by (easy || lia). mstep.
    eexists. split; [reflexivity|]. split; [|split; [split; cbn; [set_solver|lia]|easy]].
    split; cbn; [lia|]. intros p [Hp _]%elem_of_difference. auto.
Qed.

(** ** Theorems *)

(** The buffer functions [buf_append], [buf_append_byte], [buf_append_uvarint]
    and [buf_append_varint] always return, never write past the capacity or
    free a block twice, append exactly their bytes and keep the ones before, and
    touch no other block; growing at most doubles what is needed. *)
Theorem buf_appends m b data byte x :
  blocks_ok m → buf_ok m b → (buf_cap b = 0 → buf_data b = []) →
  buf_len b + Z.of_nat (length data) + 16 < 2 ^ 61 → is_u64 x →
  (∃ m' b', buf_append m b data = Some (m', b') ∧ blocks_ok m' ∧ buf_ok m' b' ∧
     buf_data b' = buf_data b ++ data ∧ same_others m m' (owned_block b) (owned_block b')) ∧
  (∃ m' b', buf_append_byte m b byte = Some (m', b') ∧ blocks_ok m' ∧ buf_ok m' b' ∧
     buf_data b' = buf_data b ++ [byte] ∧ same_others m m' (owned_block b) (owned_block b')) ∧
  (∃ m' b', buf_append_uvarint m b x = Some (m', b') ∧ blocks_ok m' ∧ buf_ok m' b' ∧
     buf_data b' = buf_data b ++ varint_write_u64 x ∧ same_others m m' (owned_block b) (owned_block b')).
Proof.
  intros Hm Hb Hbor Hsz Hx. pose proof (buf_len_nonneg b) as Hl. split; [|split].
  - apply append_spec; try easy. lia.
  - unfold buf_append_byte. destruct (buf_len b <? buf_cap b) eqn:E; zb.
    + do 2 eexists. split; [reflexivity|]. split; [easy|]. split; [|split; [easy|split; [reflexivity|lia]]].
      destruct Hb as [Hc Ho]. split; [easy|]. cbn [buf_cap]. destruct Ho as [?|[_ Ho]]; [now left|right].
      split; [|easy]. unfold buf_len in *. cbn. rewrite length_app. cbn. lia.
    + apply append_spec; try easy. cbn. lia.
  - unfold buf_append_uvarint.
    destruct (ensure_spec m b 10 Hm Hb Hbor) as (m' & b' & -> & H1 & H2 & H3 & H4 & H5 & _); [lia|lia|].
    mstep. do 2 eexists. split; [reflexivity|]. split; [easy|]. unfold buf_write.
    split; [|split; [cbn; congruence|easy]]. destruct H2 as [Hc Ho]. split; [easy|]. cbn [buf_cap].
    destruct Ho as [?|[_ Ho]]; [now left|]. right. split; [|easy]. pose proof (length_varint x Hx).
    unfold buf_len in *. cbn. rewrite H3, length_app. lia.
Qed.

Lemma buf_appends_witness : ∃ m' b',
  buf_append (Blocks 1 ∅) buf0 [1; 2; 3] = Some (m', b') ∧ buf_data b' = [1; 2; 3].
Proof.
  destruct (buf_appends (Blocks 1 ∅) buf0 [1; 2; 3] 0 0) as [(m' & b' & H1 & _ & _ & H2 & _) _].
  - split; [reflexivity|]. intros p Hp. exfalso. revert Hp. apply not_elem_of_empty.
  - split; [split; [discriminate|reflexivity]|left; reflexivity].
  - reflexivity.
  - reflexivity.
  - split; [discriminate|reflexivity].
  - exists m', b'. split; [exact H1|exact H2].
Defined.
