(* ===== verification/Args.v ===== *)
(** * Args: the argument list of a command

    [src/src/args.c]: an array of buffers that is reused from command to
    command. An argument either borrows its bytes from the packet (zero copy)
    or owns a copy. The first [a_len] slots are the arguments; the array has
    [length a_bufs] slots. *)

From S2P Require Import Prelude Util Buf.

Record args := Args { a_zerocopy : bool; a_bufs : list buf; a_len : nat }.

(** A zeroed [struct args]. *)
Definition args0 : args := Args false [] 0.

(** [args_at]; an index past the array is [None]. *)
Definition args_at (a : args) (idx : nat) : option bytes := buf_data <$> a_bufs a !! idx.

Definition args_count (a : args) : Z := Z.of_nat (a_len a).

(** The loop of [args_eq]. *)
Fixpoint eq_nocase (cstr arg : bytes) : bool :=
  match cstr, arg with
  | c :: cstr, x :: arg => (tolower (schar c) =? tolower (schar x)) && eq_nocase cstr arg
  | _, _ => true
  end.

Definition args_eq (a : args) (index : nat) (cstr : bytes) : option bool :=
  if (a_len a <=? index)%nat then Some false
  else
    arg ← args_at a index;
    if negb (length arg =? length cstr)%nat then Some false else Some (eq_nocase cstr arg).

(** The array of [args_append] when it is full: twice as many slots, zeroed. *)
Definition grow_bufs (a : args) : list buf :=
  if (a_len a =? length (a_bufs a))%nat then
    let cap := length (a_bufs a) in
    let cap' := if (cap =? 0)%nat then 4%nat else (cap * 2)%nat in
    a_bufs a ++ repeat buf0 (cap' - cap)
  else a_bufs a.

Definition args_append (m : blocks) (a : args) (data : bytes) (zerocopy : bool)
    : option (blocks * args) :=
  let bufs := grow_bufs a in
  slot ← bufs !! a_len a;
  '(m, slot) ← (if zerocopy then
      '(m, _) ← buf_clear m slot; Some (m, Buf 0 data 0)
    else buf_append m (Buf (buf_block slot) [] (buf_cap slot)) data);
  Some (m, Args (if (a_len a =? 0)%nat then zerocopy else a_zerocopy a && zerocopy)
             (<[a_len a := slot]> bufs) (S (a_len a))).

(** The loop of [args_clear]: clears the first [n] slots from [i] on. *)
Fixpoint clear_bufs (n : nat) (i : nat) (m : blocks) (bufs : list buf) : option (blocks * list buf) :=
  match n with
  | O => Some (m, bufs)
  | S n =>
      b ← bufs !! i;
      '(m, b) ← buf_clear m b;
      clear_bufs n (S i) m (<[i := b]> bufs)
  end.

Definition args_clear (m : blocks) (a : args) : option (blocks * args) :=
  if a_zerocopy a then Some (m, Args (a_zerocopy a) (a_bufs a) 0)
  else
    '(m, bufs) ← clear_bufs (a_len a) 0 m (a_bufs a);
    Some (m, Args (a_zerocopy a) bufs 0).

(** [args_free]: the array itself is one more block, which nobody shares. *)
Definition args_free (m : blocks) (a : args) : option blocks :=
  '(m, _) ← args_clear m a; Some m.

(** The loop of [args_remove_first]: shifts the slots from [i] on to the left. *)
Fixpoint shift_bufs (n : nat) (i : nat) (bufs : list buf) : option (list buf) :=
  match n with
  | O => Some bufs
  | S n => b ← bufs !! i; shift_bufs n (S i) (<[(i - 1)%nat := b]> bufs)
  end.

Definition args_remove_first (m : blocks) (a : args) : option (blocks * args) :=
  if (0 <? a_len a)%nat then
    b ← a_bufs a !! 0%nat;
    '(m, b) ← buf_clear m b;
    bufs ← shift_bufs (a_len a - 1) 1 (<[0%nat := b]> (a_bufs a));
    Some (m, Args (a_zerocopy a) bufs (a_len a - 1))
  else Some (m, a).

(** ** Invariant *)

(** The arguments as a list. *)
Definition args_list (a : args) : list bytes := buf_data <$> take (a_len a) (a_bufs a).

Definition owned_blocks (bs : list buf) : list Z :=
  bs ≫= λ b, if buf_cap b =? 0 then [] else [buf_block b].

(** Every slot owns at most its own block, unused slots own nothing, and a list
    marked zero copy owns nothing. *)
Record args_ok (m : blocks) (a : args) : Prop := {
  ao_blocks : blocks_ok m;
  ao_len : (a_len a <= length (a_bufs a))%nat;
  ao_bufs : Forall (buf_ok m) (a_bufs a);
  ao_nodup : NoDup (owned_blocks (take (a_len a) (a_bufs a)));
  ao_unused : Forall (λ b, buf_cap b = 0) (drop (a_len a) (a_bufs a));
  ao_zerocopy : a_zerocopy a = true → Forall (λ b, buf_cap b = 0) (take (a_len a) (a_bufs a))
}.

(** The blocks that do not belong to the list. *)
Definition foreign_blocks (m : blocks) (a : args) : gset Z :=
  bk_live m ∖ list_to_set (owned_blocks (take (a_len a) (a_bufs a))).

Lemma owned_blocks_app xs ys : owned_blocks (xs ++ ys) = owned_blocks xs ++ owned_blocks ys.
Proof. apply bind_app. Qed.

Lemma elem_owned_blocks p bs :
  p ∈ owned_blocks bs ↔ ∃ b, b ∈ bs ∧ buf_cap b ≠ 0 ∧ buf_block b = p.
Proof.
  unfold owned_blocks. rewrite list_elem_of_bind. split.
  - intros (b & Hp & Hb). destruct (buf_cap b =? 0) eqn:E; zb; [now apply not_elem_of_nil in Hp|].
    apply list_elem_of_singleton in Hp as ->. eauto.
  - intros (b & Hb & Hc & <-). exists b. rewrite (proj2 (Z.eqb_neq _ 0)) by easy.
    split; [now apply list_elem_of_singleton|easy].
Qed.

Lemma owned_blocks_none bs : Forall (λ b, buf_cap b = 0) bs → owned_blocks bs = [].
Proof.
  induction 1 as [|b bs Hb _ IH]; [easy|]. change (b :: bs) with ([b] ++ bs).
  rewrite owned_blocks_app, IH. cbn. now rewrite Hb.
Qed.

(** An array that grows keeps its arguments; the new slots are unused. *)
Lemma grow_bufs_spec a :
  (a_len a <= length (a_bufs a))%nat →
  ∃ n, grow_bufs a = a_bufs a ++ repeat buf0 n ∧ (a_len a < length (grow_bufs a))%nat.
Proof.
  intros Hl. unfold grow_bufs. destruct (a_len a =? length (a_bufs a))%nat eqn:E.
  - apply Nat.eqb_eq in E. set (n := (_ - _)%nat). exists n. split; [easy|].
    rewrite length_app, repeat_length. unfold n.
    destruct (length (a_bufs a) =? 0)%nat eqn:E0; [apply Nat.eqb_eq in E0|apply Nat.eqb_neq in E0]; lia.
  - apply Nat.eqb_neq in E. exists 0%nat. cbn. rewrite app_nil_r. split; [easy|lia].
Qed.

Lemma buf_ok_more m m' b : bk_live m ⊆ bk_live m' → buf_ok m b → buf_ok m' b.
Proof. intros Hs [Hc Ho]. split; [easy|]. destruct Ho as [?|[? ?]]; [auto|]. right. auto. Qed.

Lemma unused_buf_ok m n : Forall (buf_ok m) (repeat buf0 n).
Proof. apply Forall_forall. intros b ->%list_elem_of_In%repeat_spec. split; [cbn; lia|now left]. Qed.

Lemma take_insert_end (bs : list buf) n b :
  (n < length bs)%nat → take (S n) (<[n := b]> bs) = take n bs ++ [b].
Proof.
  intros Hn. rewrite (take_S_r _ _ b) by now apply list_lookup_insert_eq.
  now rewrite take_insert_ge.
Qed.

Lemma args_append_spec m a data zerocopy :
  args_ok m a → Z.of_nat (length data) < 2 ^ 60 →
  ∃ m' a', args_append m a data zerocopy = Some (m', a') ∧ args_ok m' a' ∧
    args_list a' = args_list a ++ [data] ∧ a_len a' = S (a_len a) ∧
    foreign_blocks m' a' = foreign_blocks m a.
Proof.
  intros [Hm Hl Hb Hnd Hun Hz] Hd. destruct (grow_bufs_spec a Hl) as (n & Eg & Hlt).
  assert (Htake : take (a_len a) (grow_bufs a) = take (a_len a) (a_bufs a))
    by (rewrite Eg; now apply take_app_le).
  assert (Hdrop : Forall (λ b, buf_cap b = 0) (drop (a_len a) (grow_bufs a))).
  { rewrite Eg, drop_app_le by easy. apply Forall_app. split; [easy|]. apply Forall_forall.
    intros b ->%list_elem_of_In%repeat_spec. easy. }
  assert (Hbufs : Forall (buf_ok m) (grow_bufs a))
    by (rewrite Eg; apply Forall_app; split; [easy|apply unused_buf_ok]).
  destruct (lookup_lt_is_Some_2 (grow_bufs a) (a_len a) Hlt) as [slot Hslot].
  assert (Hcap : buf_cap slot = 0).
  { rewrite Forall_lookup in Hdrop. apply (Hdrop 0%nat). rewrite lookup_drop. now rewrite Nat.add_0_r. }
  unfold args_append. rewrite Hslot. mstep.
  (* what holds for either way of filling the slot *)
  assert (Hfin : ∀ m' slot', blocks_ok m' → bk_live m ⊆ bk_live m' → buf_ok m' slot' →
    buf_data slot' = data → bk_live m = bk_live m' ∖ owned_block slot' →
    (zerocopy = true → buf_cap slot' = 0) →
    let a' := Args (if (a_len a =? 0)%nat then zerocopy else a_zerocopy a && zerocopy)
                (<[a_len a := slot']> (grow_bufs a)) (S (a_len a)) in
    args_ok m' a' ∧ args_list a' = args_list a ++ [data] ∧ a_len a' = S (a_len a) ∧
    foreign_blocks m' a' = foreign_blocks m a).
  { intros m' slot' Hm' Hsub Hs' Hdata Hlive Hzc a'.
    assert (Ht' : take (S (a_len a)) (<[a_len a := slot']> (grow_bufs a)) =
      take (a_len a) (a_bufs a) ++ [slot']) by now rewrite take_insert_end, Htake.
    assert (Hown : owned_blocks [slot'] = elements (owned_block slot')).
    { unfold owned_blocks, owned_block. cbn. destruct (buf_cap slot' =? 0); [now rewrite elements_empty|].
      now rewrite elements_singleton. }
    assert (Hold : ∀ p, p ∈ owned_blocks (take (a_len a) (a_bufs a)) → p ∈ bk_live m).
    { intros p (b & Hin & Hc & <-)%elem_owned_blocks. rewrite Forall_forall in Hb.
      apply elem_of_take in Hin as (i & Hi & _). destruct (Hb b) as [_ [?|[_ ?]]]; [|easy|easy].
      now apply list_elem_of_lookup_2 in Hi. }
    split; [|split; [unfold args_list, a'; cbn [a_len a_bufs]; rewrite Ht', fmap_app; cbn; now rewrite Hdata|]].
    2: { split; [easy|]. unfold foreign_blocks, a'. cbn [a_len a_bufs]. rewrite Ht', owned_blocks_app, Hown.
         rewrite list_to_set_app_L, list_to_set_elements_L, Hlive. set_solver. }
    split; unfold a'; cbn [a_len a_bufs a_zerocopy].
    - easy.
    - rewrite length_insert. lia.
    - apply Forall_insert; [|easy]. eapply Forall_impl; [exact Hbufs|]. intros b. now apply buf_ok_more.
    - rewrite Ht', owned_blocks_app, Hown. apply NoDup_app. split; [easy|]. split; [|apply NoDup_elements].
      intros p Hp%Hold Hp'%elem_of_elements. rewrite Hlive in Hp. set_solver.
    - rewrite drop_insert_lt by lia. rewrite (drop_S _ _ _ Hslot) in Hdrop. now inversion Hdrop.
    - rewrite Ht'. destruct (a_len a =? 0)%nat eqn:E0.
      + apply Nat.eqb_eq in E0. rewrite E0. cbn. intros Ez. constructor; auto.
      + intros [Ez1 Ez2]%andb_true_iff. apply Forall_app. split; [now apply Hz|]. constructor; auto. }
  destruct zerocopy.
  - unfold buf_clear. rewrite Hcap. cbn [Z.eqb]. do 3 mstep. do 2 eexists. split; [reflexivity|].
    apply Hfin; try easy; [split; [cbn; lia|now left]|]. unfold owned_block. cbn. set_solver.
  - destruct (append_spec m (Buf (buf_block slot) [] (buf_cap slot)) data Hm)
      as (m' & slot' & -> & H1 & H2 & H3 & [H4 H5]).
    { split; [cbn; lia|now left]. }
    { easy. }
    { unfold buf_len. cbn. lia. }
    mstep. do 2 eexists. split; [reflexivity|].
    assert (Hlive : bk_live m = bk_live m' ∖ owned_block slot').
    { rewrite <- H4. unfold owned_block at 1. cbn [buf_cap]. rewrite Hcap. cbn. set_solver. }
    apply Hfin; try easy. set_solver.
Qed.

Lemma clear_bufs_spec n : ∀ i m bufs,
  (i + n <= length bufs)%nat → blocks_ok m → Forall (buf_ok m) (take n (drop i bufs)) →
  NoDup (owned_blocks (take n (drop i bufs))) →
  ∃ m', clear_bufs n i m bufs = Some (m', take i bufs ++ repeat buf0 n ++ drop (i + n) bufs) ∧
    blocks_ok m' ∧ bk_live m' = bk_live m ∖ list_to_set (owned_blocks (take n (drop i bufs))).
Proof.
  induction n as [|n IH]; intros i m bufs Hi Hm Hb Hnd; cbn [clear_bufs].
  - exists m. cbn. rewrite Nat.add_0_r, take_drop. split; [easy|]. split; [easy|set_solver].
  - destruct (lookup_lt_is_Some_2 bufs i) as [b Hbi]; [lia|]. rewrite Hbi. mstep.
    rewrite (drop_S _ _ _ Hbi) in Hb, Hnd |- *. cbn [take firstn] in Hb, Hnd |- *.
    inversion_clear Hb as [|? ? Hb0 Hbs]. change (b :: ?l) with ([b] ++ l) in Hnd |- *.
    rewrite owned_blocks_app in Hnd |- *. apply NoDup_app in Hnd as (_ & Hdis & Hnd).
    destruct (clear_spec m b Hm Hb0) as (m1 & -> & Hm1 & _ & Hlive). mstep.
    assert (Hob : owned_block b = list_to_set (owned_blocks [b])).
    { unfold owned_block, owned_blocks. cbn. destruct (buf_cap b =? 0); cbn; set_solver. }
    assert (Edrop : drop (S i) (<[i := buf0]> bufs) = drop (S i) bufs) by (apply drop_insert_lt; lia).
    destruct (IH (S i) m1 (<[i := buf0]> bufs)) as (m' & -> & H1 & H2).
    + rewrite length_insert. lia.
    + easy.
    + rewrite Edrop. rewrite Forall_forall in Hbs |- *. intros x Hx. destruct (Hbs x Hx) as [Hc Ho].
      split; [easy|]. destruct (decide (buf_cap x = 0)) as [Hx0|Hx0]; [now left|].
      destruct Ho as [?|[? Hin]]; [easy|]. right. split; [easy|].
      rewrite Hlive, Hob. apply elem_of_difference. split; [easy|]. rewrite elem_of_list_to_set.
      intros Hin'. apply (Hdis _ Hin'). apply elem_owned_blocks. eauto.
    + now rewrite Edrop.
    + exists m'. rewrite Edrop in H2. split; [|split; [easy|]].
      * do 2 f_equal. rewrite take_insert_end by lia. rewrite drop_insert_lt by lia.
        rewrite <- app_assoc. cbn [repeat app]. now rewrite Nat.add_succ_comm.
      * rewrite H2, Hlive, Hob, list_to_set_app_L. set_solver.
Qed.

Lemma args_clear_spec m a :
  args_ok m a →
  ∃ m' a', args_clear m a = Some (m', a') ∧ args_ok m' a' ∧ args_list a' = [] ∧
    bk_live m' = foreign_blocks m a.
Proof.
  intros [Hm Hl Hb Hnd Hun Hz]. unfold args_clear, foreign_blocks. destruct (a_zerocopy a) eqn:Ez.
  - do 2 eexists. split; [reflexivity|]. rewrite (owned_blocks_none _ (Hz eq_refl)).
    split; [|split; [easy|set_solver]]. split; cbn [a_len a_bufs a_zerocopy]; try easy; [lia|constructor|].
    rewrite drop_0. rewrite <- (take_drop (a_len a) (a_bufs a)). apply Forall_app. auto.
  - destruct (clear_bufs_spec (a_len a) 0 m (a_bufs a)) as (m' & -> & H1 & H2).
    + lia.
    + easy.
    + rewrite drop_0. now apply Forall_take.
    + now rewrite drop_0.
    + mstep. rewrite drop_0 in H2. do 2 eexists. split; [reflexivity|].
      split; [|split; [easy|exact H2]]. cbn [take firstn app Nat.add] in *.
      assert (Hc0 : Forall (λ b, buf_cap b = 0) (repeat buf0 (a_len a) ++ drop (a_len a) (a_bufs a))).
      { apply Forall_app. split; [|easy]. apply Forall_forall.
        intros b ->%list_elem_of_In%repeat_spec. easy. }
      split; cbn [a_len a_bufs a_zerocopy]; try easy; [lia| |constructor].
      rewrite Forall_forall in Hc0 |- *. intros b Hin. split; [rewrite (Hc0 b Hin); lia|left; auto].
Qed.

(** ** Theorems *)

(** Between commands and within them the argument list is memory safe:
    [args_append] always succeeds, adds exactly the argument at the end,
    borrowed or copied, and touches no block that is not the list's; and
    [args_clear] empties the list and frees exactly the blocks it owns, each
    once. *)
Theorem args_append_clear m a data zerocopy :
  args_ok m a → Z.of_nat (length data) < 2 ^ 60 →
  (∃ m' a', args_append m a data zerocopy = Some (m', a') ∧ args_ok m' a' ∧
     args_list a' = args_list a ++ [data] ∧ foreign_blocks m' a' = foreign_blocks m a) ∧
  (∃ m' a', args_clear m a = Some (m', a') ∧ args_ok m' a' ∧ args_list a' = [] ∧
     bk_live m' = foreign_blocks m a).
Proof.
  intros Hok Hd. split; [|now apply args_clear_spec].
  destruct (args_append_spec m a data zerocopy Hok Hd) as (m' & a' & H1 & H2 & H3 & _ & H5).
  exists m', a'. auto.
Qed.

Definition blocks0 : blocks := Blocks 1 ∅.

Lemma args0_ok : args_ok blocks0 args0.
Proof.
  split; cbn; try constructor; try lia; try easy.
Qed.

Lemma args_append_clear_witness : ∃ m' a',
  args_append blocks0 args0 (str "get") false = Some (m', a') ∧ args_list a' = [str "get"].
Proof.
  destruct (args_append_clear blocks0 args0 (str "get") false args0_ok) as [(m' & a' & H1 & _ & H3 & _) _].
  - reflexivity.
  - exists m', a'. split; [exact H1|exact H3].
Defined.

(** Appends a list of arguments that are copied. *)
Definition append_all (m : blocks) (a : args) (l : list bytes) : option (blocks * args) :=
  foldl (λ s data, '(m, a) ← s; args_append m a data false) (Some (m, a)) l.

(** [args_remove_first] leaves the last slot behind as a second owner of the
    block of the last argument: after the list is cleared, the next command
    that reaches this slot frees the block a second time when it borrows its
    argument, and reallocates freed memory when it copies a long one. *)
Theorem remove_first_double_free :
  ∃ m1 a1 m2 a2 m3 a3 m4 a4,
    append_all blocks0 args0 [str "::text"; str "get"; str "k"] = Some (m1, a1) ∧
    args_remove_first m1 a1 = Some (m2, a2) ∧ args_list a2 = [str "get"; str "k"] ∧
    args_clear m2 a2 = Some (m3, a3) ∧
    append_all m3 a3 [str "set"; str "k"] = Some (m4, a4) ∧
    args_append m4 a4 [] true = None ∧ args_append m4 a4 (repeat 118 20) false = None.
Proof.
  do 8 eexists. split; [vm_compute; reflexivity|]. split; [vm_compute; reflexivity|].
  split; [vm_compute; reflexivity|]. split; [vm_compute; reflexivity|].
  split; [vm_compute; reflexivity|]. split; vm_compute; reflexivity.
Qed.
