(* ===== verification/Resp.v ===== *)
(** * Resp: the Redis protocol parsers

    [src/src/resp.c]: [parse_resp] reads a multi-bulk command, and
    [parse_resp_telnet] an inline command with quotes and escapes. A parser gets
    the bytes that have arrived; it returns the number of bytes of the command,
    0 when the command is not complete and -1 on error, the arguments, and the
    error message. The argument list is the list of its contents, see [Args.v].
    [None] is a read past the bytes that have arrived. The counter of values
    that are too large is left out. *)

From S2P Require Import Prelude Util.

Definition MAXARGS : Z := 100000.
Definition MAXARGSZ : Z := 536870912.

Abbreviation parsed := (Z * list bytes * bytes)%type.

Definition nargs (args : list bytes) : Z := Z.of_nat (length args).
Definition size (data : bytes) : Z := Z.of_nat (length data).

(** ** Inline commands *)

Definition err_quotes : bytes := str "ERR Protocol error: unbalanced quotes in request".
Definition err_nargs : bytes := str "ERR Protocol error: invalid multibulk length".
Definition err_argsz : bytes := str "ERR Protocol error: invalid bulk length".

(** The [switch] on the character after a backslash. *)
Definition unescape (ch : Z) : Z :=
  if ch =? 110 then 10 else if ch =? 114 then 13 else if ch =? 116 then 9 else ch.

Definition isquote (ch : Z) : bool := (ch =? 34) || (ch =? 39).

(** The loop of [parse_resp_telnet] at index [i]. *)
Fixpoint telnet_loop (bs : bytes) (i : Z) (inarg : bool) (quote : Z) (arg : bytes)
    (args : list bytes) : parsed :=
  match bs with
  | [] => (0, args, [])
  | ch :: bs1 =>
      if inarg then
        if negb (quote =? 0) then
          if ch =? 10 then (-1, args, err_quotes)
          else if ch =? quote then
            let args := args ++ [arg] in
            if MAXARGS <? nargs args then (-1, args, err_nargs)
            else
              match bs1 with
              | [] => (0, args, [])
              | ch :: bs2 =>
                  if ch =? 10 then telnet_loop bs1 (i + 1) false quote [] args
                  else if negb (isspace ch) then (-1, args, err_quotes)
                  else telnet_loop bs2 (i + 2) false quote [] args
              end
          else if ch =? 92 then
            match bs1 with
            | [] => (0, args, [])
            | ch :: bs2 =>
                let arg := arg ++ [unescape ch] in
                if MAXARGSZ <? size arg then (-1, args, err_argsz)
                else telnet_loop bs2 (i + 2) true quote arg args
            end
          else
            let arg := arg ++ [ch] in
            if MAXARGSZ <? size arg then (-1, args, err_argsz)
            else telnet_loop bs1 (i + 1) true quote arg args
        else
          if isquote ch then telnet_loop bs1 (i + 1) true ch arg args
          else if isspace ch then
            let args := args ++ [arg] in
            if MAXARGS <? nargs args then (-1, args, err_nargs)
            else if ch =? 10 then (0, args, [])
            else telnet_loop bs1 (i + 1) false quote [] args
          else
            let arg := arg ++ [ch] in
            if MAXARGSZ <? size arg then (-1, args, err_argsz)
            else telnet_loop bs1 (i + 1) true quote arg args
      else
        if ch =? 10 then (i + 1, args, [])
        else if isspace ch then telnet_loop bs1 (i + 1) false quote arg args
        else if isquote ch then telnet_loop bs1 (i + 1) true ch arg args
        else
          let arg := arg ++ [ch] in
          if MAXARGSZ <? size arg then (-1, args, err_argsz)
          else telnet_loop bs1 (i + 1) true 0 arg args
  end.

Definition parse_resp_telnet (bs : bytes) : parsed := telnet_loop bs 0 false 0 [] [].

(** ** Multi-bulk commands *)

(** [strtoll] on bytes without a terminator: [None] when it reads past them. *)
Definition strtoll_mem (buf : bytes) : option (Z * bool * nat) :=
  let s := skip_space buf in
  let s := match s with c :: s' => if (c =? 45) || (c =? 43) then s' else s | [] => s end in
  match (scan_digits s 0).2 with
  | [] => None
  | _ => Some (strtoll buf)
  end.

Definition read_num (data : bytes) (len : nat) (min max : Z) : option (bool * Z) :=
  '(x, errno, n) ← strtoll_mem data;
  Some (negb errno && (n =? len)%nat && (min <=? x) && (x <=? max), x).

(** [memchr(bytes, ch, len)] as an index. *)
Fixpoint memchr (ch : Z) (bs : bytes) : option nat :=
  match bs with
  | [] => None
  | c :: bs => if c =? ch then Some 0%nat else S <$> memchr ch bs
  end.

(** What [read_resp_num] does: return from the function, or go on with a value. *)
Inductive num_result := NumReturn (n : Z) (err : bytes) | NumValue (x : Z) (rest : bytes).

Definition read_resp_num (bs : bytes) (min max : Z) (errmsg : bytes) : option num_result :=
  match memchr 13 bs with
  | None => Some (if 32 <? size bs then NumReturn (-1) errmsg else NumReturn 0 [])
  | Some p =>
      match drop (S p) bs with
      | [] => Some (NumReturn 0 [])
      | c :: rest =>
          if negb (c =? 10) then Some (NumReturn (-1) [])
          else
            '(ok, x) ← read_num bs p min max;
            Some (if (ok : bool) then NumValue x rest else NumReturn (-1) errmsg)
      end
  end.

(** The message with the character it found. *)
Definition err_dollar (ch : Z) : bytes :=
  c_str (str "ERR Protocol error: expected '$', got '" ++ [ch] ++ str "'").

(** The loop of [parse_resp] with [n] arguments to go at [bs]; [start] is the
    number of bytes of the command that precede [bs]. *)
Fixpoint resp_loop (n : nat) (bs : bytes) (start : Z) (args : list bytes) : option parsed :=
  match n with
  | O => Some (start, args, [])
  | S n =>
      match bs with
      | [] => Some (0, args, [])
      | ch :: bs1 =>
          if negb (ch =? 36) then Some (-1, args, err_dollar ch)
          else
            match bs1 with
            | [] => Some (0, args, [])
            | _ =>
                r ← read_resp_num bs1 0 MAXARGSZ err_argsz;
                match r with
                | NumReturn k err => Some (k, args, err)
                | NumValue nbytes rest =>
                    if size rest <? nbytes + 2 then Some (0, args, [])
                    else
                      let arg := take (Z.to_nat nbytes) rest in
                      let bs2 := drop (Z.to_nat (nbytes + 2)) rest in
                      resp_loop n bs2 (start + (size bs - size bs2)) (args ++ [arg])
                end
            end
      end
  end.

Definition parse_resp (bs : bytes) : option parsed :=
  match bs with
  | [] => Some (0, [], [])
  | ch :: bs1 =>
      if negb (ch =? 42) then Some (-1, [], [])
      else
        match bs1 with
        | [] => Some (0, [], [])
        | _ =>
            r ← read_resp_num bs1 INT64_MIN MAXARGS err_nargs;
            match r with
            | NumReturn k err => Some (k, [], err)
            | NumValue n rest => resp_loop (Z.to_nat n) rest (size bs - size rest) []
            end
        end
  end.
