(* ===== verification/RespProofs.v ===== *)
(** * RespProofs: commands of the Redis protocol are parsed as they were sent

    A multi-bulk command is parsed back to its arguments whatever follows it,
    and while a part of it is missing the parser asks for more. The same for
    inline commands whose arguments are quoted. *)

From S2P Require Import Prelude Util Resp.

(** ** Decimal numbers *)

Abbreviation digits t := (Forall (λ c, isdigit c = true) t).

Lemma u64toa_text x :
  is_u64 x → digits (u64toa x) ∧ u64toa x ≠ [] ∧ (length (u64toa x) <= 20)%nat ∧
    fold_left digit_step (u64toa x) 0 = x.
Proof.
  intros Hx. destruct (u64toa_spec x Hx) as (ds & -> & Hne & Hl & Hd & Hv).
  split; [now apply Forall_rev|]. split.
  - intros E. apply Hne. rewrite <- (rev_involutive ds), E. easy.
  - rewrite length_rev. split; [easy|]. now rewrite fold_digits_rev.
Qed.

Lemma scan_digits_stop t c rest acc :
  digits t → isdigit c = false → scan_digits (t ++ c :: rest) acc = (fold_left digit_step t acc, c :: rest).
Proof.
  revert acc. induction t as [|d t IH]; intros acc Ht Hc; cbn; [now rewrite Hc|].
  apply Forall_cons in Ht as [Hd Ht]. rewrite Hd. now apply IH.
Qed.

Lemma digit_nospace c : isdigit c = true → isspace c = false ∧ (c =? 45) = false ∧ (c =? 43) = false ∧ c ≠ 0.
Proof.
  intros Hc%isdigit_true. split; [|rewrite !Z.eqb_neq; lia].
  unfold isspace. rewrite orb_false_iff, andb_false_iff, Z.eqb_neq, !Z.leb_gt. lia.
Qed.

Lemma c_str_app_digits t r : digits t → c_str (t ++ r) = t ++ c_str r.
Proof.
  induction 1 as [|c t Hc _ IH]; cbn; [easy|]. destruct (digit_nospace c Hc) as (_ & _ & _ & H0).
  rewrite (proj2 (Z.eqb_neq _ _) H0). now rewrite IH.
Qed.

(** [strtoll] on digits that end at a byte that is neither a digit nor NUL. *)
Lemma strtoll_text t c rest :
  digits t → t ≠ [] → isdigit c = false → c ≠ 0 → fold_left digit_step t 0 <= INT64_MAX →
  0 <= fold_left digit_step t 0 →
  strtoll_mem (t ++ c :: rest) = Some (fold_left digit_step t 0, false, length t).
Proof.
  intros Ht Hne Hc H0 Hmax Hmin. destruct t as [|d t]; [easy|].
  pose proof (Forall_inv Ht) as Hd. destruct (digit_nospace d Hd) as (Hs & H45 & H43 & _).
  unfold strtoll_mem. cbn [app skip_space]. rewrite Hs, H45, H43. cbn [orb].
  change (d :: t ++ c :: rest) with ((d :: t) ++ c :: rest).
  rewrite (scan_digits_stop (d :: t)) by easy. cbn [snd]. f_equal.
  unfold strtoll. rewrite c_str_app_digits by easy. cbn [c_str].
  rewrite (proj2 (Z.eqb_neq _ _) H0). unfold scan_number. cbn [app skip_space].
  rewrite Hs, H45, H43, Hd. change (d :: t ++ c :: c_str rest) with ((d :: t) ++ c :: c_str rest).
  rewrite (scan_digits_stop (d :: t)) by easy.
  rewrite (proj2 (Z.ltb_ge _ INT64_MIN)) by (unfold INT64_MIN; lia).
  rewrite (proj2 (Z.ltb_ge INT64_MAX _)) by lia. f_equal. rewrite length_app. cbn [length]. lia.
Qed.

Lemma memchr_digits t rest : digits t → memchr 13 (t ++ 13 :: rest) = Some (length t).
Proof.
  induction 1 as [|c t Hc _ IH]; cbn; [easy|]. apply isdigit_true in Hc.
  rewrite (proj2 (Z.eqb_neq c 13)) by lia. now rewrite IH.
Qed.

Lemma memchr_digits_none t : digits t → memchr 13 t = None.
Proof.
  induction 1 as [|c t Hc _ IH]; cbn; [easy|]. apply isdigit_true in Hc.
  rewrite (proj2 (Z.eqb_neq c 13)) by lia. now rewrite IH.
Qed.

(** A number line is read as its value, and asks for more until it is whole. *)
Lemma read_resp_num_text x min max err rest :
  0 <= x <= INT64_MAX → min <= x <= max →
  read_resp_num (u64toa x ++ 13 :: 10 :: rest) min max err = Some (NumValue x rest).
Proof.
  intros Hx Hr. unfold INT64_MAX in Hx.
  destruct (u64toa_text x) as (Hd & Hne & Hl & Hv); [unfold is_u64; lia|].
  unfold read_resp_num. rewrite memchr_digits by easy.
  rewrite drop_app_ge by lia. replace (S (length (u64toa x)) - length (u64toa x))%nat with 1%nat by lia.
  cbn [drop skipn]. cbn [Z.eqb Pos.eqb negb]. unfold read_num.
  rewrite strtoll_text by (easy || rewrite Hv; unfold INT64_MAX; lia). mstep. rewrite Hv, Nat.eqb_refl.
  rewrite (proj2 (Z.leb_le min x)), (proj2 (Z.leb_le x max)) by lia. reflexivity.
Qed.

Lemma take_digits k x : is_u64 x → digits (take k (u64toa x)).
Proof. intros Hx. apply Forall_take, u64toa_text, Hx. Qed.

Lemma read_resp_num_short x k min max err rest :
  is_u64 x → (k <= length (u64toa x) + 1)%nat →
  read_resp_num (take k (u64toa x ++ 13 :: rest)) min max err = Some (NumReturn 0 []).
Proof.
  intros Hx Hk. destruct (u64toa_text x Hx) as (Hd & _ & Hl & _). unfold read_resp_num.
  destruct (decide (k <= length (u64toa x))%nat) as [Hle|Hgt].
  - rewrite take_app_le by easy. rewrite memchr_digits_none by now apply take_digits.
    unfold size. rewrite length_take. rewrite (proj2 (Z.ltb_ge 32 _)) by lia. easy.
  - replace k with (length (u64toa x) + 1)%nat by lia. rewrite take_app_add. cbn [take firstn]. rewrite take_0.
    rewrite memchr_digits by easy. rewrite drop_ge; [easy|]. rewrite length_app. cbn [length]. lia.
Qed.

(** ** Multi-bulk commands *)

(** The encoding of an argument and of a command. *)
Definition resp_bulk (data : bytes) : bytes :=
  36 :: u64toa (size data) ++ 13 :: 10 :: data ++ [13; 10].
Definition resp_bulks (args : list bytes) : bytes := concat (resp_bulk <$> args).
Definition resp_command (args : list bytes) : bytes :=
  42 :: u64toa (nargs args) ++ 13 :: 10 :: resp_bulks args.

Definition arg_fits (data : bytes) : Prop := size data <= MAXARGSZ.

Lemma size_app a b : size (a ++ b) = size a + size b.
Proof. unfold size. rewrite length_app. lia. Qed.
Lemma size_cons c a : size (c :: a) = 1 + size a.
Proof. unfold size. cbn [length]. lia. Qed.
Lemma size_nonneg a : 0 <= size a.
Proof. unfold size. lia. Qed.
Lemma size_nil : size [] = 0.
Proof. reflexivity. Qed.
#[export] Hint Rewrite size_app size_cons size_nil : pogo.

Lemma app_cons_assoc {A} (a : list A) x b c : (a ++ x :: b) ++ c = a ++ x :: b ++ c.
Proof. now rewrite <- app_assoc. Qed.

Lemma bulks_cons a args : resp_bulks (a :: args) = resp_bulk a ++ resp_bulks args.
Proof. reflexivity. Qed.

(** One argument of the loop. *)
Lemma resp_loop_bulk n a rest start acc :
  arg_fits a →
  resp_loop (S n) (resp_bulk a ++ rest) start acc =
    resp_loop n rest (start + size (resp_bulk a)) (acc ++ [a]).
Proof.
  intros Ha. unfold arg_fits, MAXARGSZ in Ha. pose proof (size_nonneg a).
  destruct (u64toa_text (size a)) as (_ & Hne & _); [unfold is_u64; lia|].
  unfold resp_bulk. cbn [app]. rewrite app_cons_assoc. cbn [app resp_loop]. cbn [Z.eqb Pos.eqb negb].
  set (t := u64toa (size a)) in *.
  destruct (t ++ 13 :: 10 :: (a ++ [13; 10]) ++ rest) as [|c l] eqn:E; [now destruct t|]. rewrite <- E.
  unfold t. rewrite read_resp_num_text by (unfold INT64_MAX, MAXARGSZ; lia). mstep.
  autorewrite with pogo. rewrite (proj2 (Z.ltb_ge _ _)) by (pose proof (size_nonneg rest); lia).
  replace (Z.to_nat (size a + 2)) with (length (a ++ [13; 10])) by (unfold size; rewrite length_app; cbn; lia).
  replace (Z.to_nat (size a)) with (length a) by (unfold size; lia).
  assert (take (length a) ((a ++ [13; 10]) ++ rest) = a) as -> by (rewrite <- app_assoc; apply take_app_length).
  rewrite drop_app_length. f_equal.
  lia.
Qed.

Lemma resp_loop_bulks args : ∀ rest start acc,
  Forall arg_fits args →
  resp_loop (length args) (resp_bulks args ++ rest) start acc =
    Some (start + size (resp_bulks args), acc ++ args, []).
Proof.
  induction args as [|a args IH]; intros rest start acc Hf.
  - cbn. rewrite app_nil_r, Z.add_0_r. easy.
  - apply Forall_cons in Hf as [Ha Hf]. cbn [length]. rewrite bulks_cons, <- app_assoc.
    rewrite resp_loop_bulk, IH by easy. rewrite size_app, <- app_assoc. cbn. do 3 f_equal. lia.
Qed.

(** A part of an argument is not enough. *)
Lemma resp_loop_part n a k start acc :
  arg_fits a → (k < length (resp_bulk a))%nat →
  resp_loop (S n) (take k (resp_bulk a)) start acc = Some (0, acc, []).
Proof.
  intros Ha Hk. unfold arg_fits, MAXARGSZ in Ha. pose proof (size_nonneg a).
  assert (Hu : is_u64 (size a)) by (unfold is_u64; lia).
  destruct (u64toa_text (size a) Hu) as (_ & Hne & _). unfold resp_bulk in *.
  destruct k as [|k]; [easy|]. cbn [take firstn resp_loop Z.eqb Pos.eqb negb].
  set (t := u64toa (size a)) in *. cbn [length] in Hk. rewrite length_app in Hk. cbn [length] in Hk.
  destruct (take k (t ++ 13 :: 10 :: a ++ [13; 10])) as [|c l] eqn:E; [easy|]. rewrite <- E.
  destruct (decide (k <= length t + 1)%nat) as [Hle|Hgt].
  - unfold t. rewrite read_resp_num_short by easy. easy.
  - replace k with (length t + (2 + (k - length t - 2)))%nat by lia.
    rewrite take_app_add. cbn [take firstn Nat.add]. unfold t.
    rewrite read_resp_num_text by (unfold INT64_MAX, MAXARGSZ; lia). mstep.
    rewrite (proj2 (Z.ltb_lt _ _)); [easy|]. unfold size. rewrite length_take.
    rewrite length_app in Hk |- *. cbn [length] in *. unfold t, size in *. lia.
Qed.

Lemma resp_loop_more args : ∀ k start acc,
  Forall arg_fits args → (k < length (resp_bulks args))%nat →
  ∃ acc', resp_loop (length args) (take k (resp_bulks args)) start acc = Some (0, acc', []).
Proof.
  induction args as [|a args IH]; intros k start acc Hf Hk; [cbn in Hk; lia|].
  apply Forall_cons in Hf as [Ha Hf]. cbn [length]. rewrite bulks_cons in *.
  destruct (decide (k < length (resp_bulk a))%nat) as [Hlt|Hge].
  - rewrite take_app_le by lia. rewrite resp_loop_part by easy. eauto.
  - replace k with (length (resp_bulk a) + (k - length (resp_bulk a)))%nat by lia.
    rewrite take_app_add, resp_loop_bulk by easy. apply IH; [easy|]. rewrite length_app in Hk. lia.
Qed.

Lemma parse_resp_whole args rest :
  nargs args <= MAXARGS → Forall arg_fits args →
  parse_resp (resp_command args ++ rest) = Some (size (resp_command args), args, []).
Proof.
  intros Hn Hf. unfold MAXARGS in Hn. assert (0 <= nargs args) by (unfold nargs; lia).
  destruct (u64toa_text (nargs args)) as (_ & Hne & _); [unfold is_u64; lia|].
  unfold resp_command, parse_resp. cbn [app]. rewrite app_cons_assoc. cbn [app Z.eqb Pos.eqb negb].
  set (t := u64toa (nargs args)) in *.
  destruct (t ++ 13 :: 10 :: resp_bulks args ++ rest) as [|c l] eqn:E; [now destruct t|]. rewrite <- E.
  unfold t. rewrite read_resp_num_text by (unfold INT64_MAX, INT64_MIN, MAXARGS; lia). mstep.
  replace (Z.to_nat (nargs args)) with (length args) by (unfold nargs; lia).
  rewrite resp_loop_bulks by easy. do 3 f_equal. autorewrite with pogo. lia.
Qed.

Lemma parse_resp_more args k :
  nargs args <= MAXARGS → Forall arg_fits args → (k < length (resp_command args))%nat →
  ∃ acc, parse_resp (take k (resp_command args)) = Some (0, acc, []).
Proof.
  intros Hn Hf Hk. unfold MAXARGS in Hn. assert (0 <= nargs args) by (unfold nargs; lia).
  assert (Hu : is_u64 (nargs args)) by (unfold is_u64; lia).
  destruct (u64toa_text (nargs args) Hu) as (_ & Hne & _). unfold resp_command, parse_resp in *.
  destruct k as [|k]; [cbn; eauto|]. cbn [take firstn Z.eqb Pos.eqb negb].
  set (t := u64toa (nargs args)) in *. cbn [length] in Hk. rewrite length_app in Hk. cbn [length] in Hk.
  destruct (take k (t ++ 13 :: 10 :: resp_bulks args)) as [|c l] eqn:E; [eauto|]. rewrite <- E.
  destruct (decide (k <= length t + 1)%nat) as [Hle|Hgt].
  - unfold t. rewrite read_resp_num_short by easy. mstep. eauto.
  - replace k with (length t + (2 + (k - length t - 2)))%nat by lia.
    rewrite take_app_add. cbn [take firstn Nat.add]. unfold t.
    rewrite read_resp_num_text by (unfold INT64_MAX, INT64_MIN, MAXARGS; lia). mstep.
    replace (Z.to_nat (nargs args)) with (length args) by (unfold nargs; lia).
    apply resp_loop_more; [easy|unfold t in *; lia].
Qed.

(** C30: Every command that a client sends in the Redis protocol is parsed back to
    exactly its arguments, whatever bytes they hold and whatever follows in the
    packet, and exactly its own bytes are consumed; as long as any part of it
    is missing, the parser asks for more, without error. *)
Theorem parse_resp_roundtrip args rest :
  nargs args <= MAXARGS → Forall arg_fits args →
  parse_resp (resp_command args ++ rest) = Some (size (resp_command args), args, []) ∧
  ∀ k, (k < length (resp_command args))%nat →
    ∃ acc, parse_resp (take k (resp_command args)) = Some (0, acc, []).
Proof.
  intros Hn Hf. split; [now apply parse_resp_whole|]. intros k. now apply parse_resp_more.
Qed.

Lemma parse_resp_roundtrip_witness :
  parse_resp (resp_command [str "GET"; str "k"] ++ [1; 2]) =
    Some (20, [str "GET"; str "k"], []).
Proof.
  apply (parse_resp_roundtrip [str "GET"; str "k"] [1; 2]).
  - vm_compute. congruence.
  - repeat constructor; vm_compute; congruence.
Defined.

(** ** Inline commands *)

(** An argument in double quotes, with its special characters escaped. *)
Definition escape (c : Z) : bytes :=
  if c =? 10 then [92; 110] else if (c =? 34) || (c =? 92) then [92; c] else [c].
Definition quote_arg (a : bytes) : bytes := 34 :: (a ≫= escape) ++ [34; 32].
Definition telnet_line (args : list bytes) : bytes := concat (quote_arg <$> args) ++ [13; 10].

Lemma telnet_quoted a : ∀ i acc args rest,
  size (acc ++ a) <= MAXARGSZ →
  telnet_loop ((a ≫= escape) ++ rest) i true 34 acc args =
    telnet_loop rest (i + size (a ≫= escape)) true 34 (acc ++ a) args.
Proof.
  induction a as [|c a IH]; intros i acc args rest Hs; cbn [mbind list_bind app].
  - now rewrite app_nil_r, Z.add_0_r.
  - rewrite <- app_assoc. autorewrite with pogo in Hs. pose proof (size_nonneg a).
    pose proof (size_nonneg acc).
    assert (Hfit : (MAXARGSZ <? size (acc ++ [c])) = false)
      by (apply Z.ltb_ge; autorewrite with pogo; lia).
    assert (Hstep : telnet_loop (escape c ++ (a ≫= escape) ++ rest) i true 34 acc args =
      telnet_loop ((a ≫= escape) ++ rest) (i + size (escape c)) true 34 (acc ++ [c]) args).
    { unfold escape. destruct (c =? 10) eqn:E10; [apply Z.eqb_eq in E10; subst c|].
      - cbn [app telnet_loop Z.eqb Pos.eqb negb]. change (unescape 110) with 10. now rewrite Hfit.
      - destruct ((c =? 34) || (c =? 92)) eqn:Eq.
        + assert (unescape c = c) as Hu.
          { apply orb_true_iff in Eq as [->%Z.eqb_eq| ->%Z.eqb_eq]; reflexivity. }
          cbn [app telnet_loop Z.eqb Pos.eqb negb]. rewrite Hu. now rewrite Hfit.
        + apply orb_false_iff in Eq as [E34 E92]. cbn [app telnet_loop].
          rewrite E10, E34, E92. cbn [Z.eqb negb]. now rewrite Hfit. }
    rewrite Hstep, IH by (autorewrite with pogo; lia). rewrite <- app_assoc. f_equal.
    rewrite size_app. lia.
Qed.

Lemma telnet_quote a args i q rest :
  arg_fits a → nargs (args ++ [a]) <= MAXARGS →
  ∃ q', telnet_loop (quote_arg a ++ rest) i false q [] args =
    telnet_loop rest (i + size (quote_arg a)) false q' [] (args ++ [a]).
Proof.
  intros Ha Hn. exists 34. unfold quote_arg. cbn [app telnet_loop].
  change (34 =? 10) with false. change (isspace 34) with false. change (isquote 34) with true. cbv iota.
  rewrite <- app_assoc. rewrite telnet_quoted by exact Ha. cbn [app telnet_loop Z.eqb Pos.eqb negb].
  rewrite (proj2 (Z.ltb_ge _ _)) by exact Hn. change (isspace 32) with true. cbn [negb].
  f_equal. autorewrite with pogo. lia.
Qed.

Lemma telnet_line_loop l : ∀ args i q rest,
  Forall arg_fits l → nargs (args ++ l) <= MAXARGS →
  telnet_loop (telnet_line l ++ rest) i false q [] args =
    (i + size (telnet_line l), args ++ l, []).
Proof.
  induction l as [|a l IH]; intros args i q rest Hf Hn.
  - unfold telnet_line. cbn. rewrite app_nil_r. do 2 f_equal. unfold size. cbn. lia.
  - apply Forall_cons in Hf as [Ha Hf]. unfold telnet_line in *. cbn [fmap list_fmap concat] in *.
    rewrite <- !app_assoc. destruct (telnet_quote a args i q (concat (quote_arg <$> l) ++ [13; 10] ++ rest) Ha)
      as [q' ->].
    { unfold nargs in *. rewrite length_app in *. cbn [length] in *. lia. }
    rewrite app_assoc, IH; [|easy|now rewrite <- app_assoc]. rewrite <- app_assoc. cbn [app].
    do 2 f_equal. autorewrite with pogo. lia.
Qed.

(** An inline command whose arguments are quoted, with line ends, quotes and
    backslashes escaped, is parsed back to exactly its arguments, whatever bytes
    they hold and whatever follows. *)
Theorem parse_telnet_roundtrip args rest :
  nargs args <= MAXARGS → Forall arg_fits args →
  parse_resp_telnet (telnet_line args ++ rest) = (size (telnet_line args), args, []).
Proof. intros Hn Hf. unfold parse_resp_telnet. now rewrite telnet_line_loop. Qed.

Lemma parse_telnet_roundtrip_witness :
  parse_resp_telnet (telnet_line [[34; 10; 92]; []] ++ [1]) = (14, [[34; 10; 92]; []], []).
Proof.
  apply (parse_telnet_roundtrip [[34; 10; 92]; []] [1]).
  - vm_compute. congruence.
  - repeat constructor; vm_compute; congruence.
Defined.

(** A byte of a plain word. *)
Definition plain_char (c : Z) : Prop := isspace c = false ∧ isquote c = false.

Lemma telnet_word w : ∀ i acc args rest,
  Forall plain_char w → size (acc ++ w) <= MAXARGSZ →
  telnet_loop (w ++ rest) i true 0 acc args = telnet_loop rest (i + size w) true 0 (acc ++ w) args.
Proof.
  induction w as [|c w IH]; intros i acc args rest Hw Hs.
  - cbn. now rewrite app_nil_r, Z.add_0_r.
  - apply Forall_cons in Hw as [[Hsp Hq] Hw]. autorewrite with pogo in Hs. pose proof (size_nonneg w).
    cbn [app telnet_loop Z.eqb negb]. rewrite Hq, Hsp.
    rewrite (proj2 (Z.ltb_ge _ _)) by (autorewrite with pogo; lia).
    rewrite IH by (easy || autorewrite with pogo; lia). rewrite <- app_assoc. f_equal.
    rewrite size_cons. lia.
Qed.

(** An inline command whose last word is ended by a bare line feed is never
    executed: the parser asks for more, and whatever arrives afterwards it
    asks for more again. *)
Theorem telnet_line_feed_hangs c w rest :
  Forall plain_char (c :: w) → size (c :: w) <= MAXARGSZ →
  parse_resp_telnet ((c :: w) ++ 10 :: rest) = (0, [c :: w], []).
Proof.
  intros Hw Hs. apply Forall_cons in Hw as [[Hsp Hq] Hw]. unfold parse_resp_telnet.
  cbn [app telnet_loop]. assert ((c =? 10) = false) as ->.
  { apply Z.eqb_neq. intros ->. discriminate Hsp. }
  rewrite Hsp, Hq. cbn [app]. rewrite (proj2 (Z.ltb_ge _ _)) by (unfold size, MAXARGSZ; cbn; lia).
  rewrite telnet_word by easy. cbn [app telnet_loop Z.eqb negb].
  change (isquote 10) with false. change (isspace 10) with true. cbv iota.
  rewrite (proj2 (Z.ltb_ge _ _)) by (unfold nargs, MAXARGS; cbn; lia). reflexivity.
Qed.

Lemma telnet_line_feed_hangs_witness :
  parse_resp_telnet (str "PING" ++ 10 :: str "PING" ++ [13; 10]) = (0, [str "PING"], []).
Proof.
  apply (telnet_line_feed_hangs 80 (str "ING") (str "PING" ++ [13; 10])).
  - repeat constructor.
  - vm_compute. congruence.
Defined.
