(* ===== verification/Memcache.v ===== *)
(** * Memcache: the memcache text protocol parser

    [src/src/memcache.c]. [parse_memcache] splits the first line into words,
    checks the command and turns it into the command of the Redis protocol that
    [cmds.c] runs; a storage command also takes the value that follows its
    line. The argument list is the list of its contents, see [Args.v]; a read
    of an argument the command does not have is [None], and so is a word whose
    length underflows. The counter of values that are too large is left out. *)

From S2P Require Import Prelude Util Resp.

Definition CLIENT_ERROR_BAD_FORMAT : bytes := str "CLIENT_ERROR bad command line format".
Definition CLIENT_ERROR_BAD_CHUNK : bytes := str "CLIENT_ERROR bad data chunk".
Definition ERROR : bytes := str "ERROR".

(** [bytes_const_eq]. *)
Definition bytes_const_eq (data s : bytes) : bool := bool_decide (data = s).

(** [arg_const_eq]. *)
Definition arg_const_eq (args : list bytes) (idx : nat) (s : bytes) : option bool :=
  a ← args !! idx; Some (bytes_const_eq a s).

Definition argi64 (args : list bytes) (idx : nat) : option (bool * Z) :=
  a ← args !! idx; Some (parse_i64 a).
Definition argu64 (args : list bytes) (idx : nat) : option (bool * Z) :=
  a ← args !! idx; Some (parse_u64 a).

(** The test of [mc_valid_key] on the key itself. *)
Definition valid_mc_key (key : bytes) : bool :=
  negb ((size key =? 0) || (250 <? size key)) &&
  forallb (λ c, negb ((c <=? 32) || (c =? 127))) key.

Definition mc_valid_key (args : list bytes) (i : nat) : option bool :=
  key ← args !! i; Some (valid_mc_key key).

(** The loop over the keys from index [i] on. *)
Definition mc_valid_keys (args : list bytes) (i : nat) : bool :=
  forallb valid_mc_key (drop i args).

Inductive mc_cmd :=
  | MC_UNKNOWN
  | MC_SET | MC_ADD | MC_REPLACE | MC_APPEND | MC_PREPEND | MC_CAS
  | MC_INCR | MC_DECR
  | MC_FLUSH_ALL | MC_DELETE
  | MC_TOUCH
  | MC_VERBOSITY
  | MC_GET | MC_GETS
  | MC_GAT | MC_GATS
  | MC_VERSION | MC_STATS
  | MC_QUIT.

#[export] Instance mc_cmd_eq_dec : EqDecision mc_cmd.
Proof. solve_decision. Defined.

Definition is_mc_store_cmd (cmd : mc_cmd) : bool :=
  match cmd with
  | MC_SET | MC_ADD | MC_REPLACE | MC_APPEND | MC_PREPEND | MC_CAS => true
  | _ => false
  end.

Definition is_mc_noreplyable (cmd : mc_cmd) : bool :=
  match cmd with
  | MC_SET | MC_ADD | MC_REPLACE | MC_APPEND | MC_PREPEND | MC_CAS | MC_INCR | MC_DECR
  | MC_FLUSH_ALL | MC_DELETE | MC_TOUCH | MC_VERBOSITY => true
  | _ => false
  end.

(** The loop of [parse_memcache_telnet] after [n] bytes: the word so far, and the
    last character that is no space. *)
Fixpoint mc_words (bs : bytes) (n : Z) (word : bytes) (last : Z) (args : list bytes)
    : option (Z * list bytes) :=
  match bs with
  | [] => Some (0, args)
  | ch :: bs =>
      if ch =? 32 then mc_words bs (n + 1) [] last (args ++ [word])
      else if ch =? 10 then
        if last =? 13 then
          match word with
          | [] => None
          | _ =>
              let word := take (length word - 1) word in
              Some (n + 1, if size word =? 0 then args else args ++ [word])
          end
        else Some (n + 1, if size word =? 0 then args else args ++ [word])
      else mc_words bs (n + 1) (word ++ [ch]) ch args
  end.

Definition parse_memcache_telnet (data : bytes) : option (Z * list bytes) :=
  mc_words data 0 [] 0 [].

(** What [parse_memcache] returns and leaves in [args], [parse_lasterr],
    [noreply] and [mc_n]; the latter keeps its value where it is [None]. *)
Record mc_result := McResult {
  mr_n : Z; mr_args : list bytes; mr_err : bytes; mr_noreply : bool; mr_last : option Z
}.

(** The command table. *)
Definition mc_lookup (name : bytes) : mc_cmd :=
  if bytes_const_eq name (str "set") then MC_SET
  else if bytes_const_eq name (str "add") then MC_ADD
  else if bytes_const_eq name (str "cas") then MC_CAS
  else if bytes_const_eq name (str "replace") then MC_REPLACE
  else if bytes_const_eq name (str "get") then MC_GET
  else if bytes_const_eq name (str "delete") then MC_DELETE
  else if bytes_const_eq name (str "append") then MC_APPEND
  else if bytes_const_eq name (str "prepend") then MC_PREPEND
  else if bytes_const_eq name (str "gets") then MC_GETS
  else if bytes_const_eq name (str "incr") then MC_INCR
  else if bytes_const_eq name (str "decr") then MC_DECR
  else if bytes_const_eq name (str "touch") then MC_TOUCH
  else if bytes_const_eq name (str "gat") then MC_GAT
  else if bytes_const_eq name (str "gats") then MC_GATS
  else if bytes_const_eq name (str "flush_all") then MC_FLUSH_ALL
  else if bytes_const_eq name (str "stats") then MC_STATS
  else if bytes_const_eq name (str "version") then MC_VERSION
  else if bytes_const_eq name (str "quit") then MC_QUIT
  else if bytes_const_eq name (str "verbosity") then MC_VERBOSITY
  else MC_UNKNOWN.

(** The value of [x] bytes that follows the line of [n] bytes: not there yet,
    not ended by CRLF, or the value and the bytes of the whole command. *)
Inductive mc_value := ValueMore | ValueBad (n : Z) | Value (v : bytes) (n : Z).

Definition mc_read_value (data : bytes) (n x : Z) : mc_value :=
  if size data - n <? x + 2 then ValueMore
  else
    let value := take (Z.to_nat x) (drop (Z.to_nat n) data) in
    let n := n + (x + 2) in
    if (nth (Z.to_nat (n - 2)) data 0 =? 13) && (nth (Z.to_nat (n - 1)) data 0 =? 10)
    then Value value n else ValueBad n.

Definition is_zero_arg (a : bytes) : bool := (size a =? 1) && (nth 0 a 0 =? 48).

(** The storage commands from the label [set_plus] on. *)
Definition mc_store (cmd : mc_cmd) (data : bytes) (n : Z) (args : list bytes) (noreply : bool)
    : option mc_result :=
  let fail args err n := Some (McResult (-1) args err noreply (Some n)) in
  valid ← mc_valid_key args 1;
  if negb valid then fail args CLIENT_ERROR_BAD_FORMAT n
  else
    '(ok, x) ← argi64 args 2;
    if negb ok || (x <? 0) then fail args CLIENT_ERROR_BAD_FORMAT n
    else
      '(ok, x) ← argi64 args 3;
      if negb ok then fail args CLIENT_ERROR_BAD_FORMAT n
      else
        '(ok, x) ← argi64 args 4;
        if negb ok || (x <? 0) || (MAXARGSZ <? x) then fail args CLIENT_ERROR_BAD_FORMAT n
        else
          '(casok, cas) ← (if bool_decide (cmd = MC_CAS) then
              '(ok, _) ← argu64 args 5;
              cas ← args !! 5%nat;
              if ok && (24 <=? size cas) then None (* assert: it fits the buffer *)
              else Some (ok, Some (c_str cas))
            else Some (true, None));
          if negb casok then fail args CLIENT_ERROR_BAD_FORMAT n
          else
            let args := if bool_decide (cmd = MC_CAS) then take (length args - 1) args else args in
            match mc_read_value data n x with
            | ValueMore => Some (McResult 0 args [] noreply (Some n))
            | ValueBad n => fail args CLIENT_ERROR_BAD_CHUNK n
            | Value value n =>
                key ← args !! 1%nat;
                flags ← args !! 2%nat;
                ex ← args !! 3%nat;
                let args2 :=
                  match cmd with
                  | MC_APPEND => [str "append"; key; value]
                  | MC_PREPEND => [str "prepend"; key; value]
                  | _ =>
                      [str "set"; key; value] ++
                      (if is_zero_arg flags then [] else [str "flags"; flags]) ++
                      (if is_zero_arg ex then [] else [str "ex"; ex]) ++
                      (if bool_decide (cmd = MC_ADD) then [str "nx"]
                       else if bool_decide (cmd = MC_REPLACE) then [str "xx"] else []) ++
                      (match cas with Some cas => [str "cas"; cas] | None => [] end)
                  end in
                Some (McResult n args2 [] noreply (Some n))
            end.

(** The commands other than the storage commands, after [noreply] is stripped. *)
Definition mc_command (cmd : mc_cmd) (n : Z) (args : list bytes) (noreply : bool)
    : option mc_result :=
  let fail err := Some (McResult (-1) args err noreply (Some n)) in
  let done args2 noreply := Some (McResult n args2 [] noreply (Some n)) in
  let keyed name :=
    valid ← mc_valid_key args 1;
    if negb (valid : bool) then fail CLIENT_ERROR_BAD_FORMAT
    else k ← args !! 1%nat; x ← args !! 2%nat; done [name; k; x] noreply in
  match cmd with
  | MC_GET | MC_GETS =>
      if (length args =? 1)%nat then fail ERROR
      else if negb (mc_valid_keys args 1) then fail CLIENT_ERROR_BAD_FORMAT
      else done ((if bool_decide (cmd = MC_GET) then str "mget" else str "mgets") :: drop 1 args)
             noreply
  | MC_DELETE =>
      if (length args =? 1)%nat then fail ERROR
      else if (2 <? length args)%nat then fail CLIENT_ERROR_BAD_FORMAT
      else
        valid ← mc_valid_key args 1;
        if negb valid then fail CLIENT_ERROR_BAD_FORMAT
        else k ← args !! 1%nat; done [str "del"; k] noreply
  | MC_GAT | MC_GATS =>
      if (length args <=? 2)%nat then fail ERROR
      else
        '(ok, x) ← argi64 args 2;
        if negb ok then fail CLIENT_ERROR_BAD_FORMAT
        else if negb (mc_valid_keys args 2) then fail CLIENT_ERROR_BAD_FORMAT
        else done ((if bool_decide (cmd = MC_GAT) then str "gat" else str "gats") :: drop 1 args)
               noreply
  | MC_STATS => done (str "stats" :: drop 1 args) noreply
  | MC_INCR => if negb (length args =? 3)%nat then fail ERROR else keyed (str "uincrby")
  | MC_DECR => if negb (length args =? 3)%nat then fail ERROR else keyed (str "udecrby")
  | MC_TOUCH => if negb (length args =? 3)%nat then fail ERROR else keyed (str "expire")
  | MC_FLUSH_ALL =>
      if (2 <? length args)%nat then fail ERROR
      else if (length args =? 2)%nat then
        d ← args !! 1%nat; done [str "flushall"; str "delay"; d] noreply
      else done [str "flushall"] noreply
  | MC_QUIT => done [str "quit"] true
  | MC_VERSION => done [str "version"] false
  | MC_VERBOSITY =>
      if (2 <? length args)%nat then fail ERROR
      else v ← args !! 1%nat; done [take 7 (str "verbosity"); v] noreply
  | _ => Some (McResult (-1) args [] noreply (Some n))
  end.

(** The lookup of the command and the dispatch. *)
Definition mc_general (data : bytes) (n : Z) (args : list bytes) : option mc_result :=
  name ← args !! 0%nat;
  let cmd := mc_lookup name in
  if bool_decide (cmd = MC_UNKNOWN) then Some (McResult (-1) args ERROR false (Some n))
  else
    '(args, noreply) ← (if is_mc_noreplyable cmd then
        last ← arg_const_eq args (length args - 1) (str "noreply");
        Some (if (last : bool) then (take (length args - 1) args, true) else (args, false))
      else Some (args, false));
    if is_mc_store_cmd cmd then
      if (bool_decide (cmd = MC_CAS) && negb (length args =? 6)%nat) &&
         (negb (bool_decide (cmd = MC_CAS)) && negb (length args =? 5)%nat)
      then Some (McResult (-1) args ERROR noreply (Some n))
      else mc_store cmd data n args noreply
    else mc_command cmd n args noreply.

(** The common [get] with one key. *)
Definition mc_get2 (n : Z) (args : list bytes) (key : bytes) : mc_result :=
  if negb (valid_mc_key key) then
    McResult (-1) args (if size key =? 0 then [] else CLIENT_ERROR_BAD_FORMAT) false (Some n)
  else McResult n [str "mget"; key] [] false (Some n).

(** The common [set] with five words and no flags. *)
Definition mc_set5 (data : bytes) (n : Z) (args : list bytes) (key ex len : bytes) : mc_result :=
  let fail args err n := McResult (-1) args err false (Some n) in
  if negb (valid_mc_key key) then
    fail args (if size key =? 0 then [] else CLIENT_ERROR_BAD_FORMAT) n
  else if negb (is_zero_arg ex) && negb (parse_i64 ex).1 then fail args CLIENT_ERROR_BAD_FORMAT n
  else
    let '(ok, x) := parse_i64 len in
    if negb ok || (x <? 0) || (MAXARGSZ <? x) then fail args CLIENT_ERROR_BAD_FORMAT n
    else
      match mc_read_value data n x with
      | ValueMore => McResult 0 args [] false (Some n)
      | ValueBad n => fail args CLIENT_ERROR_BAD_CHUNK n
      | Value value n =>
          McResult n ([str "set"; key; value] ++ if is_zero_arg ex then [] else [str "ex"; ex]) []
            false (Some n)
      end.

Definition parse_memcache (data : bytes) : option mc_result :=
  '(n, args) ← parse_memcache_telnet data;
  if (n <=? 0) || (length args =? 0)%nat then Some (McResult n args [] false None)
  else
    match args with
    | [name; key] =>
        if bytes_const_eq name (str "get") then Some (mc_get2 n args key)
        else mc_general data n args
    | [name; key; flags; ex; len] =>
        if bytes_const_eq name (str "set") then
          if is_zero_arg flags then Some (mc_set5 data n args key ex len)
          else mc_store MC_SET data n args false
        else mc_general data n args
    | _ => mc_general data n args
    end.
