(* ===== verification/MemcacheProofs.v ===== *)
(** * MemcacheProofs: memcache requests are parsed as they were sent *)

From S2P Require Import Prelude Util Resp RespProofs Memcache.

(** ** Lines of words *)

Definition word_char (c : Z) : Prop := c ≠ 32 ∧ c ≠ 10 ∧ c ≠ 13.
Definition mc_word (w : bytes) : Prop := w ≠ [] ∧ Forall word_char w.

Definition mc_line (ws : list bytes) : bytes :=
  match ws with
  | [] => [13; 10]
  | w :: ws => w ++ concat ((λ w, 32 :: w) <$> ws) ++ [13; 10]
  end.

Lemma last_cons_default (c : Z) w d : List.last (c :: w) d = List.last w c.
Proof.
  revert c d. induction w as [|x w IH]; intros c d; [easy|].
  change (List.last (c :: x :: w) d) with (List.last (x :: w) d). now rewrite !IH.
Qed.

(** The characters of a word, which may end in CR. *)
Lemma mc_words_word w : ∀ rest n acc last args,
  Forall (λ c, c ≠ 32 ∧ c ≠ 10) w →
  mc_words (w ++ rest) n acc last args =
    mc_words rest (n + size w) (acc ++ w) (List.last w last) args.
Proof.
  induction w as [|c w IH]; intros rest n acc last args Hw.
  - cbn. now rewrite app_nil_r, Z.add_0_r.
  - apply Forall_cons in Hw as [[H32 H10] Hw]. cbn [app mc_words].
    rewrite (proj2 (Z.eqb_neq c 32)), (proj2 (Z.eqb_neq c 10)) by easy.
    rewrite IH by easy. rewrite <- app_assoc. cbn [app]. rewrite size_cons. f_equal; [lia|].
    now rewrite last_cons_default.
Qed.

Lemma word_char_weak w : Forall word_char w → Forall (λ c, c ≠ 32 ∧ c ≠ 10) w.
Proof. intros Hw. eapply Forall_impl; [exact Hw|]. now intros c (? & ? & _). Qed.

Lemma mc_words_end n acc last args rest :
  acc ≠ [] → mc_words (13 :: 10 :: rest) n acc last args = Some (n + 2, args ++ [acc]).
Proof.
  intros Hne. cbn [mc_words Z.eqb Pos.eqb]. destruct (acc ++ [13]) as [|c l] eqn:E; [now destruct acc|].
  rewrite <- E. rewrite length_app. cbn [length]. replace (length acc + 1 - 1)%nat with (length acc) by lia.
  rewrite take_app_length. unfold size. rewrite (proj2 (Z.eqb_neq _ 0)) by (destruct acc; cbn; [easy|lia]).
  do 2 f_equal. lia.
Qed.

Lemma mc_words_line ws : ∀ n acc last args rest,
  Forall mc_word ws → acc ≠ [] →
  mc_words (concat ((λ w, 32 :: w) <$> ws) ++ 13 :: 10 :: rest) n acc last args =
    Some (n + size (concat ((λ w, 32 :: w) <$> ws)) + 2, args ++ acc :: ws).
Proof.
  induction ws as [|w ws IH]; intros n acc last args rest Hws Hacc.
  - cbn [fmap list_fmap concat app]. rewrite mc_words_end by easy. do 2 f_equal. unfold size. cbn. lia.
  - apply Forall_cons in Hws as [[Hne Hw] Hws]. cbn [fmap list_fmap concat app].
    cbn [mc_words Z.eqb Pos.eqb]. rewrite <- app_assoc. rewrite mc_words_word by now apply word_char_weak.
    rewrite IH by easy. autorewrite with pogo. rewrite <- app_assoc. do 2 f_equal. lia.
Qed.

Lemma telnet_words ws rest :
  ws ≠ [] → Forall mc_word ws →
  parse_memcache_telnet (mc_line ws ++ rest) = Some (size (mc_line ws), ws).
Proof.
  destruct ws as [|w ws]; [easy|]. intros _ [[Hne Hw] Hws]%Forall_cons.
  unfold parse_memcache_telnet, mc_line. rewrite <- !app_assoc.
  rewrite mc_words_word by now apply word_char_weak. cbn [app]. rewrite mc_words_line by easy.
  autorewrite with pogo. do 2 f_equal. lia.
Qed.

Lemma mc_words_more bs : ∀ n acc last args,
  10 ∉ bs → ∃ args', mc_words bs n acc last args = Some (0, args').
Proof.
  induction bs as [|c bs IH]; intros n acc last args Hn; cbn [mc_words]; [eauto|].
  apply not_elem_of_cons in Hn as [Hc Hn]. destruct (c =? 32); [auto|].
  rewrite (proj2 (Z.eqb_neq c 10)) by congruence. auto.
Qed.

(** ** Numbers as words *)

Lemma digits_word t : t ≠ [] → digits t → mc_word t.
Proof.
  intros Hne Ht. split; [easy|]. eapply Forall_impl; [exact Ht|].
  intros c Hc%isdigit_true. split; [lia|]. lia.
Qed.

Lemma u64toa_word x : is_u64 x → mc_word (u64toa x).
Proof. intros Hx. destruct (u64toa_text x Hx) as (? & ? & _). now apply digits_word. Qed.

Lemma parse_i64_u64toa x : 0 <= x < 2 ^ 63 → parse_i64 (u64toa x) = (true, x).
Proof.
  intros Hx. rewrite <- (parse_i64toa_spec x) by (unfold is_i64; lia). f_equal. unfold i64toa.
  now rewrite (proj2 (Z.ltb_ge x 0)) by lia.
Qed.

Lemma is_zero_arg_true a : is_zero_arg a = true ↔ a = [48].
Proof.
  unfold is_zero_arg, size. split.
  - intros [H1%Z.eqb_eq H2%Z.eqb_eq]%andb_true_iff. destruct a as [|c [|d a]]; cbn in *; try lia. congruence.
  - now intros ->.
Qed.

Lemma is_zero_u64toa x : is_u64 x → is_zero_arg (u64toa x) = (x =? 0).
Proof.
  intros Hx. destruct (x =? 0) eqn:E; zb; [now subst|].
  destruct (is_zero_arg (u64toa x)) eqn:Ez; [|easy]. exfalso. apply is_zero_arg_true in Ez.
  pose proof (parse_u64toa_spec x Hx) as Hp. rewrite Ez in Hp. vm_compute in Hp. congruence.
Qed.

Lemma is_zero_i64toa x : is_i64 x → is_zero_arg (i64toa x) = (x =? 0).
Proof.
  intros Hx. destruct (x =? 0) eqn:E; zb; [now subst|].
  destruct (is_zero_arg (i64toa x)) eqn:Ez; [|easy]. exfalso. apply is_zero_arg_true in Ez.
  pose proof (parse_i64toa_spec x Hx) as Hp. rewrite Ez in Hp. vm_compute in Hp. congruence.
Qed.

Lemma i64toa_word x : is_i64 x → mc_word (i64toa x).
Proof.
  unfold is_i64. intros Hx. unfold i64toa. destruct (x <? 0) eqn:E; zb.
  - assert (Hu : is_u64 (u64 (i64 (x * -1)))) by apply u64_range.
    destruct (u64toa_text _ Hu) as (Hd & _). split; [easy|]. constructor; [split; [lia|lia]|].
    eapply Forall_impl; [exact Hd|]. intros c Hc%isdigit_true. split; [lia|lia].
  - apply u64toa_word. unfold is_u64. lia.
Qed.

(** ** Storage commands *)

(** Evaluates the tests of the command. *)
Ltac bdec :=
  repeat match goal with
  | |- context [bool_decide (?a = ?b :> mc_cmd)] =>
      let v := eval vm_compute in (bool_decide (a = b)) in
      change (bool_decide (a = b)) with v
  end; cbv iota.

Definition mc_name (cmd : mc_cmd) : bytes :=
  match cmd with
  | MC_SET => str "set" | MC_ADD => str "add" | MC_REPLACE => str "replace"
  | MC_APPEND => str "append" | MC_PREPEND => str "prepend" | MC_CAS => str "cas"
  | _ => []
  end.

Ltac literal_word :=
  split; [discriminate|]; repeat (apply Forall_cons; split; [split; [discriminate|split; discriminate]|]);
  apply Forall_nil_2.

(** The words of a storage request, the request, and the command it stands for. *)
Definition store_words (cmd : mc_cmd) (key : bytes) (flags ex len cas : Z) (noreply : bool)
    : list bytes :=
  [mc_name cmd; key; u64toa flags; i64toa ex; u64toa len] ++
  (if bool_decide (cmd = MC_CAS) then [u64toa cas] else []) ++
  (if noreply then [str "noreply"] else []).

Definition store_request (cmd : mc_cmd) (key : bytes) (flags ex : Z) (value : bytes) (cas : Z)
    (noreply : bool) : bytes :=
  mc_line (store_words cmd key flags ex (size value) cas noreply) ++ value ++ [13; 10].

Definition store_args (cmd : mc_cmd) (key : bytes) (flags ex : Z) (value : bytes) (cas : Z)
    : list bytes :=
  match cmd with
  | MC_APPEND => [str "append"; key; value]
  | MC_PREPEND => [str "prepend"; key; value]
  | _ =>
      [str "set"; key; value] ++
      (if flags =? 0 then [] else [str "flags"; u64toa flags]) ++
      (if ex =? 0 then [] else [str "ex"; i64toa ex]) ++
      (if bool_decide (cmd = MC_ADD) then [str "nx"]
       else if bool_decide (cmd = MC_REPLACE) then [str "xx"] else []) ++
      (if bool_decide (cmd = MC_CAS) then [str "cas"; u64toa cas] else [])
  end.

(** What a storage command answers once its line is accepted. *)
Definition store_outcome (cmd : mc_cmd) (key : bytes) (flags ex cas n : Z) (noreply : bool)
    (v : mc_value) (r : mc_result) : Prop :=
  match v with
  | ValueMore => mr_n r = 0 ∧ mr_err r = []
  | ValueBad n => mr_n r = -1 ∧ mr_err r = CLIENT_ERROR_BAD_CHUNK ∧ mr_last r = Some n
  | Value value n => r = McResult n (store_args cmd key flags ex value cas) [] noreply (Some n)
  end.

Lemma not_noreply x : is_u64 x → bytes_const_eq (u64toa x) (str "noreply") = false.
Proof.
  intros Hx. apply bool_decide_false. intros E. destruct (u64toa_text x Hx) as (Hd & _).
  rewrite E in Hd. now inversion Hd.
Qed.

Section Store.
Context (cmd : mc_cmd) (key : bytes) (flags ex len cas : Z).
Context (Hcmd : is_mc_store_cmd cmd = true) (Hkey : valid_mc_key key = true).
Context (Hflags : 0 <= flags < 2 ^ 63) (Hex : is_i64 ex) (Hlen : 0 <= len <= MAXARGSZ).
Context (Hcas : is_u64 cas).

Lemma mc_store_spec data n noreply :
  ∃ r, mc_store cmd data n (store_words cmd key flags ex len cas false) noreply = Some r ∧
    store_outcome cmd key flags ex cas n noreply (mc_read_value data n len) r.
Proof.
  unfold mc_store, store_words, mc_valid_key, argi64, argu64.
  cbn [app lookup list_lookup mbind option_bind]. rewrite Hkey. cbn [negb].
  rewrite parse_i64_u64toa by easy. rewrite (proj2 (Z.ltb_ge flags 0)) by lia. cbn [negb orb].
  rewrite parse_i64toa_spec by easy. cbn [negb].
  unfold MAXARGSZ in Hlen. rewrite parse_i64_u64toa by lia.
  rewrite (proj2 (Z.ltb_ge len 0)), (proj2 (Z.ltb_ge MAXARGSZ len)) by (unfold MAXARGSZ; lia). cbn [negb orb].
  assert (Hc : c_str (u64toa cas) = u64toa cas).
  { destruct (u64toa_text cas Hcas) as (Hd & _). apply c_str_digits.
    eapply Forall_impl; [exact Hd|]. intros c Hc%isdigit_true. lia. }
  assert (H24 : (24 <=? size (u64toa cas)) = false).
  { destruct (u64toa_text cas Hcas) as (_ & _ & Hl & _). apply Z.leb_gt. unfold size. lia. }
  assert (Hf : is_zero_arg (u64toa flags) = (flags =? 0)) by (apply is_zero_u64toa; unfold is_u64; lia).
  assert (He : is_zero_arg (i64toa ex) = (ex =? 0)) by now apply is_zero_i64toa.
  destruct cmd; try discriminate Hcmd; bdec;
    cbn [app take firstn length Nat.sub lookup list_lookup mbind option_bind];
    rewrite ?parse_u64toa_spec by easy; cbn [negb mbind option_bind];
    rewrite ?H24, ?Hc; cbn [andb mbind option_bind];
    destruct (mc_read_value data n len); rewrite ?Hf, ?He; eexists;
    (split; [reflexivity|]); cbn; auto.
Qed.

Lemma valid_key_word : mc_word key.
Proof.
  unfold valid_mc_key in Hkey. apply andb_true_iff in Hkey as [H1 H2]. zb. split.
  - intros ->. easy.
  - rewrite forallb_forall in H2. apply Forall_forall. intros c Hc%list_elem_of_In.
    specialize (H2 c Hc). zb. split; [lia|lia].
Qed.

Lemma store_words_ok noreply : Forall mc_word (store_words cmd key flags ex len cas noreply).
Proof.
  unfold store_words. unfold MAXARGSZ in Hlen.
  apply Forall_app; split; [|apply Forall_app; split].
  - repeat (apply Forall_cons; split); [|apply valid_key_word|apply u64toa_word; unfold is_u64; lia|
      now apply i64toa_word|apply u64toa_word; unfold is_u64; lia|constructor].
    destruct cmd; try discriminate Hcmd; literal_word.
  - destruct (bool_decide _); [|constructor]. constructor; [now apply u64toa_word|constructor].
  - destruct noreply; [|constructor]. apply Forall_cons; split; [literal_word|constructor].
Qed.

Lemma mc_set5_spec data n :
  cmd = MC_SET → flags = 0 →
  store_outcome cmd key flags ex cas n false (mc_read_value data n len)
    (mc_set5 data n (store_words cmd key flags ex len cas false) key (i64toa ex) (u64toa len)).
Proof.
  intros -> ->. unfold mc_set5. rewrite Hkey, parse_i64toa_spec by easy. cbn [negb fst].
  rewrite andb_false_r. unfold MAXARGSZ in Hlen. rewrite parse_i64_u64toa by lia.
  rewrite (proj2 (Z.ltb_ge len 0)), (proj2 (Z.ltb_ge MAXARGSZ len)) by (unfold MAXARGSZ; lia).
  cbn [negb orb]. rewrite is_zero_i64toa by easy.
  destruct (mc_read_value data n len); cbn; auto. bdec. cbn. now rewrite !app_nil_r.
Qed.

Lemma store_dispatch tail noreply :
  let line := mc_line (store_words cmd key flags ex len cas noreply) in
  ∃ r, parse_memcache (line ++ tail) = Some r ∧
    store_outcome cmd key flags ex cas (size line) noreply (mc_read_value (line ++ tail) (size line) len) r.
Proof.
  intros line. unfold parse_memcache. unfold MAXARGSZ in Hlen.
  assert (Hl : is_u64 len) by (unfold is_u64; lia).
  pose proof (telnet_words (store_words cmd key flags ex len cas noreply) tail ltac:(easy)
    (store_words_ok noreply)) as Ht. fold line in Ht. rewrite Ht. mstep.
  rewrite (proj2 (Z.leb_gt _ 0)) by (unfold line, store_words; cbn [mc_line app]; autorewrite with pogo;
    pose proof (size_nonneg (mc_name cmd)); pose proof (size_nonneg (concat ((λ w, 32 :: w) <$> key ::
      u64toa flags :: i64toa ex :: u64toa len :: (if bool_decide (cmd = MC_CAS) then [u64toa cas] else []) ++
      (if noreply then [str "noreply"] else [])))); lia).
  set (n := size line). set (data := line ++ tail).
  destruct (mc_store_spec data n noreply) as (r & Hr & Ho).
  assert (Hgen : mc_general data n (store_words cmd key flags ex len cas noreply) =
    mc_store cmd data n (store_words cmd key flags ex len cas false) noreply).
  { unfold mc_general, store_words, arg_const_eq.
    destruct cmd, noreply; try discriminate Hcmd; bdec; cbn [app lookup list_lookup mbind option_bind];
      cbn [mc_name]; match goal with |- context [mc_lookup ?s] =>
        let v := eval vm_compute in (mc_lookup s) in change (mc_lookup s) with v end; bdec;
      cbn [is_mc_noreplyable is_mc_store_cmd length Nat.sub lookup list_lookup mbind option_bind take firstn];
      rewrite ?not_noreply by easy;
      try (change (bytes_const_eq (str "noreply") (str "noreply")) with true); bdec; reflexivity. }
  assert (Hplus : ∀ r', mc_store cmd data n (store_words cmd key flags ex len cas false) false = Some r' →
    noreply = false → r' = r) by (intros r' Hr' ->; congruence).
  destruct (decide (cmd = MC_SET ∧ noreply = false)) as [[Ec En]|Hother].
  - rewrite En in *. unfold store_words. rewrite Ec. bdec. cbn [app length Nat.eqb orb mc_name].
    change (bytes_const_eq (str "set") (str "set")) with true. cbv iota.
    rewrite is_zero_u64toa by (unfold is_u64; lia). destruct (flags =? 0) eqn:Ef; zb.
    + eexists. split; [reflexivity|]. pose proof (mc_set5_spec data n Ec Ef) as Hs.
      unfold store_words in Hs. rewrite Ec in Hs at 2. revert Hs. rewrite Ec. bdec. cbn [app mc_name]. easy.
    + exists r. split; [|rewrite Ec in Ho; exact Ho]. revert Hr. unfold store_words. rewrite Ec. bdec. cbn [app mc_name]. easy.
  - exists r. split; [|exact Ho]. rewrite <- Hr, <- Hgen.
    unfold store_words.
    destruct cmd, noreply; try discriminate Hcmd; try (exfalso; tauto); bdec;
      cbn [app length Nat.eqb orb mc_name]; try reflexivity;
      match goal with |- context [bytes_const_eq ?s (str "set")] =>
        change (bytes_const_eq s (str "set")) with false end; reflexivity.
Qed.
End Store.

Lemma read_value_whole line value rest :
  mc_read_value (line ++ value ++ 13 :: 10 :: rest) (size line) (size value) =
    Value value (size line + (size value + 2)).
Proof.
  unfold mc_read_value. autorewrite with pogo. pose proof (size_nonneg rest).
  rewrite (proj2 (Z.ltb_ge _ _)) by lia.
  replace (Z.to_nat (size line)) with (length line) by (unfold size; lia).
  replace (Z.to_nat (size value)) with (length value) by (unfold size; lia).
  rewrite drop_app_length, take_app_length.
  replace (Z.to_nat (size line + (size value + 2) - 2)) with (length (line ++ value))
    by (unfold size; rewrite length_app; lia).
  replace (Z.to_nat (size line + (size value + 2) - 1)) with (length (line ++ value) + 1)%nat
    by (unfold size; rewrite length_app; lia).
  rewrite app_assoc. rewrite !app_nth2 by lia.
  replace (length (line ++ value) + 1 - length (line ++ value))%nat with 1%nat by lia.
  now rewrite Nat.sub_diag.
Qed.

Lemma read_value_part line (value : bytes) k :
  (k < length value + 2)%nat →
  mc_read_value (line ++ take k (value ++ [13; 10])) (size line) (size value) = ValueMore.
Proof.
  intros Hk. unfold mc_read_value. rewrite size_app. rewrite (proj2 (Z.ltb_lt _ _)); [easy|].
  unfold size. rewrite length_take, length_app. cbn [length]. lia.
Qed.

(** A line without its last byte has no line feed. *)
Lemma mc_line_open ws :
  Forall mc_word ws → ∃ body, mc_line ws = body ++ [10] ∧ 10 ∉ body.
Proof.
  assert (Hw : ∀ w, mc_word w → 10 ∉ w).
  { intros w [_ Hf] Hin. rewrite Forall_forall in Hf. now destruct (Hf 10 Hin) as (_ & ? & _). }
  assert (Hc : ∀ ws, Forall mc_word ws → 10 ∉ concat ((λ w, 32 :: w) <$> ws)).
  { induction 1 as [|w ws' Hw' _ IH]; cbn; [apply not_elem_of_nil|].
    rewrite not_elem_of_cons, not_elem_of_app. split; [lia|]. auto. }
  destruct ws as [|w ws]; intros Hws.
  - exists [13]. split; [easy|]. rewrite not_elem_of_cons. split; [lia|apply not_elem_of_nil].
  - apply Forall_cons in Hws as [Hw0 Hws]. exists (w ++ concat ((λ w, 32 :: w) <$> ws) ++ [13]).
    split; [cbn; now rewrite <- !app_assoc|]. rewrite !not_elem_of_app, not_elem_of_cons.
    repeat split; auto using not_elem_of_nil.
Qed.

Lemma parse_memcache_line_part ws k :
  Forall mc_word ws → (k < length (mc_line ws))%nat →
  ∃ r, parse_memcache (take k (mc_line ws)) = Some r ∧ mr_n r = 0.
Proof.
  intros Hws Hk. destruct (mc_line_open ws Hws) as (body & E & Hbody). rewrite E in *.
  rewrite length_app in Hk. cbn [length] in Hk. rewrite take_app_le by lia.
  unfold parse_memcache, parse_memcache_telnet.
  destruct (mc_words_more (take k body) 0 [] 0 []) as [args ->]; [|eauto].
  intros Hin. apply Hbody. now apply elem_of_take in Hin as (i & Hi & _); apply list_elem_of_lookup_2 in Hi.
Qed.

(** C31: Every storage request of the memcache protocol (set, add, replace, append,
    prepend, cas; with any flags, expiry and cas number and with or without
    noreply) is turned into exactly the Redis command it stands for, with the
    value taken byte by byte whatever it contains, and exactly its own bytes
    are consumed, whatever follows; while a part of it is missing, the parser
    asks for more. *)
Theorem memcache_store_roundtrip cmd key flags ex value cas noreply rest :
  is_mc_store_cmd cmd = true → valid_mc_key key = true → 0 <= flags < 2 ^ 63 → is_i64 ex →
  size value <= MAXARGSZ → is_u64 cas →
  let req := store_request cmd key flags ex value cas noreply in
  parse_memcache (req ++ rest) =
    Some (McResult (size req) (store_args cmd key flags ex value cas) [] noreply (Some (size req))) ∧
  ∀ k, (k < length req)%nat → ∃ r, parse_memcache (take k req) = Some r ∧ mr_n r = 0.
Proof.
  intros Hcmd Hkey Hflags Hex Hval Hcas. cbv zeta. unfold store_request.
  pose proof (size_nonneg value) as H0.
  pose proof (λ t, store_dispatch cmd key flags ex (size value) cas Hcmd Hkey Hflags Hex
    (conj H0 Hval) Hcas t noreply) as Hd. cbv zeta in Hd.
  pose proof (store_words_ok cmd key flags ex (size value) cas Hcmd Hkey Hflags Hex (conj H0 Hval) Hcas
    noreply) as Hws. set (line := mc_line _) in *. split.
  - rewrite <- !app_assoc. destruct (Hd (value ++ [13; 10] ++ rest)) as (r & -> & Ho).
    cbn [app] in Ho. rewrite read_value_whole in Ho. cbn in Ho. rewrite Ho.
    assert (size (line ++ value ++ [13; 10]) = size line + (size value + 2)) as ->; [|easy].
    autorewrite with pogo. lia.
  - intros k Hk. destruct (decide (k < length line)%nat) as [Hlt|Hge].
    + rewrite take_app_le by lia. now apply parse_memcache_line_part.
    + replace k with (length line + (k - length line))%nat by lia. rewrite take_app_add.
      destruct (Hd (take (k - length line) (value ++ [13; 10]))) as (r & -> & Ho).
      rewrite read_value_part in Ho.
      * exists r. now destruct Ho.
      * rewrite !length_app in Hk. cbn [length] in Hk. lia.
Qed.

Lemma memcache_store_roundtrip_witness :
  parse_memcache (store_request MC_ADD (str "k") 5 60 [13; 10; 0] 0 true ++ str "x") =
    Some (McResult 27 [str "set"; str "k"; [13; 10; 0]; str "flags"; str "5"; str "ex"; str "60"; str "nx"]
      [] true (Some 27)).
Proof.
  apply (memcache_store_roundtrip MC_ADD (str "k") 5 60 [13; 10; 0] 0 true (str "x"));
    [reflexivity|reflexivity|vm_compute; split; congruence|vm_compute; split; congruence|
     vm_compute; congruence|vm_compute; split; congruence].
Defined.

(** ** Other commands *)

Inductive mc_request :=
  | ReqGet (keys : list bytes) | ReqGets (keys : list bytes) | ReqDelete (key : bytes)
  | ReqIncr (key : bytes) (delta : Z) | ReqDecr (key : bytes) (delta : Z)
  | ReqTouch (key : bytes) (exptime : Z) | ReqFlushAll | ReqVersion | ReqQuit.

Definition req_words (r : mc_request) : list bytes :=
  match r with
  | ReqGet keys => str "get" :: keys
  | ReqGets keys => str "gets" :: keys
  | ReqDelete key => [str "delete"; key]
  | ReqIncr key d => [str "incr"; key; u64toa d]
  | ReqDecr key d => [str "decr"; key; u64toa d]
  | ReqTouch key t => [str "touch"; key; i64toa t]
  | ReqFlushAll => [str "flush_all"]
  | ReqVersion => [str "version"]
  | ReqQuit => [str "quit"]
  end.

(** The Redis command it stands for. *)
Definition req_args (r : mc_request) : list bytes :=
  match r with
  | ReqGet keys => str "mget" :: keys
  | ReqGets keys => str "mgets" :: keys
  | ReqDelete key => [str "del"; key]
  | ReqIncr key d => [str "uincrby"; key; u64toa d]
  | ReqDecr key d => [str "udecrby"; key; u64toa d]
  | ReqTouch key t => [str "expire"; key; i64toa t]
  | ReqFlushAll => [str "flushall"]
  | ReqVersion => [str "version"]
  | ReqQuit => [str "quit"]
  end.

Definition req_ok (r : mc_request) : Prop :=
  match r with
  | ReqGet keys | ReqGets keys => keys ≠ [] ∧ Forall (λ k, valid_mc_key k = true) keys
  | ReqDelete key => valid_mc_key key = true ∧ key ≠ str "noreply"
  | ReqIncr key d | ReqDecr key d => valid_mc_key key = true ∧ is_u64 d
  | ReqTouch key t => valid_mc_key key = true ∧ is_i64 t
  | _ => True
  end.

Lemma i64toa_not_noreply x : is_i64 x → bytes_const_eq (i64toa x) (str "noreply") = false.
Proof.
  intros Hx. apply bool_decide_false. intros E. pose proof (parse_i64toa_spec x Hx) as Hp.
  rewrite E in Hp. vm_compute in Hp. congruence.
Qed.

Lemma req_words_ok r : req_ok r → Forall mc_word (req_words r).
Proof.
  assert (Hk : ∀ keys, Forall (λ k, valid_mc_key k = true) keys → Forall mc_word keys).
  { intros keys Hf. eapply Forall_impl; [exact Hf|]. intros k. apply valid_key_word. }
  destruct r; cbn [req_ok req_words]; intros Hr; repeat (apply Forall_cons; split);
    try apply Forall_nil_2; try literal_word; try (apply valid_key_word, Hr); try (apply Hk, Hr);
    try (apply u64toa_word, Hr); try (apply i64toa_word, Hr).
Qed.

Ltac eval_lookup :=
  match goal with |- context [mc_lookup ?s] =>
    let v := eval vm_compute in (mc_lookup s) in change (mc_lookup s) with v end; bdec.

(** A command with a key and a number. *)
Ltac keyed_request Hv :=
  unfold mc_general, arg_const_eq; cbn [lookup list_lookup mbind option_bind]; eval_lookup;
  cbn [is_mc_noreplyable is_mc_store_cmd mbind option_bind mc_command length Nat.sub lookup list_lookup];
  rewrite ?not_noreply, ?i64toa_not_noreply by easy; unfold mc_valid_key;
  cbn [Nat.eqb negb lookup list_lookup mbind option_bind mc_command length]; now rewrite Hv.

(** Every retrieval, deletion, arithmetic, touch, flush, version and quit
    request of the memcache protocol is turned into exactly the Redis command
    it stands for and consumes exactly its line, whatever follows. *)
Theorem memcache_request_roundtrip r rest :
  req_ok r →
  let n := size (mc_line (req_words r)) in
  parse_memcache (mc_line (req_words r) ++ rest) =
    Some (McResult n (req_args r) [] (match r with ReqQuit => true | _ => false end) (Some n)).
Proof.
  intros Hr n. unfold parse_memcache. rewrite telnet_words; [|now destruct r|now apply req_words_ok].
  mstep. fold n. assert (Hn : 0 < n).
  { unfold n, mc_line. destruct r; cbn [req_words]; autorewrite with pogo;
      match goal with |- context [size (concat ?l)] => pose proof (size_nonneg (concat l)) end;
      match goal with |- 0 < size (str ?s) + _ => pose proof (size_nonneg (str s)) end; lia. }
  rewrite (proj2 (Z.leb_gt n 0)) by easy. set (data := _ ++ rest).
  assert (Hkeys : ∀ x keys, Forall (λ k, valid_mc_key k = true) keys → mc_valid_keys (x :: keys) 1 = true).
  { intros x keys Hf. unfold mc_valid_keys. cbn. apply forallb_forall. rewrite Forall_forall in Hf.
    intros k Hin%list_elem_of_In. auto. }
  destruct r as [keys|keys|key|key d|key d|key t| | |]; cbn [req_ok req_words req_args length Nat.eqb orb] in *.
  - destruct Hr as [Hne Hf].
    assert (Hg : (length keys ≠ 1)%nat → mc_general data n (str "get" :: keys) =
      Some (McResult n (str "mget" :: keys) [] false (Some n))).
    { intros Hl. unfold mc_general. cbn [lookup list_lookup mbind option_bind]. eval_lookup.
      cbn [is_mc_noreplyable is_mc_store_cmd mbind option_bind mc_command].
      rewrite (Hkeys _ keys Hf). cbn [length]. rewrite (proj2 (Nat.eqb_neq (S (length keys)) 1)); [easy|].
      destruct keys; [easy|cbn; lia]. }
    destruct keys as [|k [|k2 [|k3 [|k4 [|k5 keys]]]]]; try easy; try (apply Hg; cbn; lia).
    change (bytes_const_eq (str "get") (str "get")) with true. cbv iota. unfold mc_get2.
    now rewrite (Forall_inv Hf).
  - destruct Hr as [Hne Hf].
    assert (Hg : mc_general data n (str "gets" :: keys) =
      Some (McResult n (str "mgets" :: keys) [] false (Some n))).
    { unfold mc_general. cbn [lookup list_lookup mbind option_bind]. eval_lookup.
      cbn [is_mc_noreplyable is_mc_store_cmd mbind option_bind mc_command].
      rewrite (Hkeys _ keys Hf). cbn [length]. rewrite (proj2 (Nat.eqb_neq (S (length keys)) 1)); [easy|].
      destruct keys; [easy|cbn; lia]. }
    destruct keys as [|k [|k2 [|k3 [|k4 [|k5 keys]]]]]; try easy; exact Hg.
  - destruct Hr as [Hv Hne]. change (bytes_const_eq (str "delete") (str "get")) with false.
    unfold mc_general, arg_const_eq. cbn [lookup list_lookup mbind option_bind]. eval_lookup.
    cbn [is_mc_noreplyable is_mc_store_cmd mbind option_bind mc_command length Nat.sub lookup list_lookup].
    unfold bytes_const_eq at 1. rewrite bool_decide_false by easy.
    unfold mc_valid_key. cbn [Nat.eqb Nat.ltb Nat.leb lookup list_lookup mbind option_bind mc_command length].
    now rewrite Hv.
  - destruct Hr as [Hv Hd]. keyed_request Hv.
  - destruct Hr as [Hv Hd]. keyed_request Hv.
  - destruct Hr as [Hv Hd]. keyed_request Hv.
  - reflexivity.
  - reflexivity.
  - reflexivity.
Qed.

Lemma memcache_request_roundtrip_witness :
  parse_memcache (mc_line (req_words (ReqGet [str "a"; str "b"])) ++ [1]) =
    Some (McResult 9 [str "mget"; str "a"; str "b"] [] false (Some 9)).
Proof.
  apply (memcache_request_roundtrip (ReqGet [str "a"; str "b"]) [1]).
  split; [discriminate|]. apply Forall_cons; split; [reflexivity|]. apply Forall_cons; split; [reflexivity|].
  apply Forall_nil_2.
Defined.

(** ** Deviations *)

(** A storage command with too few words is not rejected: its number of
    words is never checked, and the parser reads argument slots that the
    command does not have. *)
Theorem memcache_short_store_undefined cmd key rest :
  is_mc_store_cmd cmd = true → valid_mc_key key = true →
  parse_memcache (mc_line [mc_name cmd; key] ++ rest) = None.
Proof.
  intros Hcmd Hkey. pose proof (valid_key_word key Hkey) as Hw.
  unfold parse_memcache. rewrite telnet_words; [|easy|].
  2: { apply Forall_cons; split; [destruct cmd; try discriminate Hcmd; literal_word|].
       apply Forall_cons; split; [exact Hw|apply Forall_nil_2]. }
  mstep. rewrite (proj2 (Z.leb_gt _ 0)).
  2: { cbn [mc_line]. autorewrite with pogo. pose proof (size_nonneg (mc_name cmd)).
       pose proof (size_nonneg (concat ((λ w, 32 :: w) <$> [key]))). lia. }
  cbn [length Nat.eqb orb]. set (data := _ ++ rest). set (n := size _).
  assert (Hs : ∀ args noreply, args = [mc_name cmd; key] ∨ args = [mc_name cmd] →
    mc_store cmd data n args noreply = None).
  { intros args noreply [-> | ->]; unfold mc_store, mc_valid_key; cbn [lookup list_lookup mbind option_bind]; [|easy].
    now rewrite Hkey. }
  assert (bytes_const_eq (mc_name cmd) (str "get") = false) as -> by now destruct cmd.
  unfold mc_general, arg_const_eq. cbn [lookup list_lookup mbind option_bind length Nat.sub].
  replace (mc_lookup (mc_name cmd)) with cmd by (now destruct cmd).
  rewrite bool_decide_false by now intros ->.
  replace (is_mc_noreplyable cmd) with true by now destruct cmd. rewrite Hcmd.
  destruct (bytes_const_eq key (str "noreply")); cbn [take firstn length Nat.eqb negb];
    destruct (bool_decide (cmd = MC_CAS)); cbn [andb negb]; apply Hs; auto.
Qed.

Lemma memcache_short_store_undefined_witness :
  parse_memcache (mc_line [str "set"; str "k"] ++ []) = None.
Proof. apply (memcache_short_store_undefined MC_SET (str "k") []); reflexivity. Defined.

(** [gat] and [gats] check that the first key, instead of the expiry, is a
    number: get-and-touch of a key that is no number is always refused. *)
Theorem memcache_gat_refuses_keys ex key rest :
  is_i64 ex → valid_mc_key key = true → (parse_i64 key).1 = false →
  ∃ n, parse_memcache (mc_line [str "gat"; i64toa ex; key] ++ rest) =
    Some (McResult (-1) [str "gat"; i64toa ex; key] CLIENT_ERROR_BAD_FORMAT false (Some n)).
Proof.
  intros Hex Hkey Hnum. unfold parse_memcache. rewrite telnet_words; [|easy|].
  2: { repeat (apply Forall_cons; split); [literal_word|now apply i64toa_word|now apply valid_key_word|
         apply Forall_nil_2]. }
  mstep. rewrite (proj2 (Z.leb_gt _ 0)).
  2: { cbn [mc_line]. autorewrite with pogo.
       pose proof (size_nonneg (str "gat")). pose proof (size_nonneg (concat ((λ w, 32 :: w) <$> [i64toa ex; key]))). lia. }
  cbn [length Nat.eqb orb]. set (data := _ ++ rest). set (n := size _). exists n.
  unfold mc_general. cbn [lookup list_lookup mbind option_bind]. eval_lookup.
  cbn [is_mc_noreplyable is_mc_store_cmd mbind option_bind mc_command length Nat.leb].
  unfold argi64. cbn [lookup list_lookup mbind option_bind].
  destruct (parse_i64 key) as [ok x]. cbn in Hnum. now subst.
Qed.

Lemma memcache_gat_refuses_keys_witness : ∃ n,
  parse_memcache (mc_line [str "gat"; str "60"; str "mykey"] ++ []) =
    Some (McResult (-1) [str "gat"; str "60"; str "mykey"] CLIENT_ERROR_BAD_FORMAT false (Some n)).
Proof.
  apply (memcache_gat_refuses_keys 60 (str "mykey") []); [vm_compute; split; congruence|reflexivity|reflexivity].
Defined.
