(* ===== verification/Http.v ===== *)
(** * Http: the HTTP request parser

    [src/src/http.c]. [parse_http] reads the request line, the headers, the body
    and the query string and turns the request into a command. The pointer of
    the code into the request is the list of bytes from it on. [useauth] and
    [auth] are the configured password. The counters of statistics are left out. *)

From S2P Require Import Prelude Util Resp Memcache.

(** Keys hold signed characters. *)
Definition http_valid_key (key : bytes) : bool :=
  negb ((size key =? 0) || (250 <? size key)) &&
  forallb (λ b, let c := schar b in
    negb ((c <=? 32) || (127 <=? c) || (c =? 37) || (c =? 43) || (c =? 64) || (c =? 36) ||
          (c =? 63) || (c =? 61))) key.

Record http_result := HttpResult {
  hr_n : Z; hr_args : list bytes; hr_err : bytes; hr_vers : Z; hr_keepalive : bool
}.

Definition bad_request : bytes := str "Bad Request".

(** The loops that read the method and the target up to a space; [None] is a
    line feed or the end of the data, which both end as a bad request. *)
Fixpoint http_word (bs acc : bytes) : option (bytes * bytes) :=
  match bs with
  | [] => None
  | c :: bs =>
      if c =? 32 then Some (acc, bs)
      else if c =? 10 then None
      else http_word bs (acc ++ [c])
  end.

(** The bytes up to a line feed, and those after it. *)
Fixpoint http_line (bs acc : bytes) : option (bytes * bytes) :=
  match bs with
  | [] => None
  | c :: bs => if c =? 10 then Some (acc, bs) else http_line bs (acc ++ [c])
  end.

(** Whether a line ends with CR, given the byte before the line. *)
Definition ends_cr (before : Z) (line : bytes) : bool := List.last line before =? 13.

(** The protocol version of the rest of the request line, CR included. *)
Definition http_version (line : bytes) : option Z :=
  if negb (size line - 1 =? 8) || negb (bytes_const_eq (take 5 line) (str "HTTP/")) then None
  else
    let major := nth 5 line 0 in
    let minor := nth 7 line 0 in
    if negb (isdigit major) || negb (nth 6 line 0 =? 46) || negb (isdigit minor) then None
    else
      let proto := (major - 48) * 10 + (minor - 48) in
      if (proto <? 9) || (30 <=? proto) then None else Some proto.

(** [memmem(data, s)]. *)
Fixpoint memmem (data s : bytes) : bool :=
  bool_decide (take (length s) data = s) ||
  match data with [] => false | _ :: data => memmem data s end.

(** What the headers set. *)
Record http_headers := Headers {
  hh_keepalive : bool; hh_bodylen : Z; hh_html : bool; hh_auth : option bytes
}.

(** One header pair; [None] is a bad content length. *)
Definition http_header (name val : bytes) (h : http_headers) : option http_headers :=
  if argeq_bytes name (str "content-length") then
    let '(ok, x) := parse_u64 val in
    if negb ok || (MAXARGSZ <? x) then None
    else Some (Headers (hh_keepalive h) x (hh_html h) (hh_auth h))
  else if argeq_bytes name (str "connection") then
    Some (Headers (argeq_bytes val (str "keep-alive")) (hh_bodylen h) (hh_html h) (hh_auth h))
  else if argeq_bytes name (str "accept") then
    Some (Headers (hh_keepalive h) (hh_bodylen h) (hh_html h || memmem val (str "text/html"))
            (hh_auth h))
  else if argeq_bytes name (str "authorization") then
    Some (Headers (hh_keepalive h) (hh_bodylen h) (hh_html h) (Some val))
  else Some h.

(** The bytes up to a colon, and those after it. *)
Fixpoint http_name (bs acc : bytes) : option (bytes * bytes) :=
  match bs with
  | [] => None
  | c :: bs => if c =? 58 then Some (acc, bs) else http_name bs (acc ++ [c])
  end.

Fixpoint skip_spaces (bs : bytes) (before : Z) : Z * bytes :=
  match bs with
  | c :: bs' => if c =? 32 then skip_spaces bs' 32 else (before, bs)
  | [] => (before, [])
  end.

(** The headers are not complete, are wrong, or are followed by these bytes;
    with what the headers read so far have set. *)
Inductive headers_result :=
  | HdrMore (h : http_headers) | HdrBad (h : http_headers)
  | HdrBody (h : http_headers) (body : bytes).

(** The loop [readhdrs]: each turn reads a header. *)
Fixpoint read_headers (fuel : nat) (bs : bytes) (h : http_headers) : headers_result :=
  match fuel with
  | O => HdrMore h
  | S fuel =>
      match http_name bs [] with
      | None => HdrMore h
      | Some (name, bs) =>
          let '(before, bs) := skip_spaces bs 58 in
          match http_line bs [] with
          | None => HdrMore h
          | Some (line, bs) =>
              if negb (ends_cr before line) then HdrBad h
              else
                match http_header name (take (length line - 1) line) h with
                | None => HdrBad h
                | Some h =>
                    match bs with
                    | c :: bs1 =>
                        if c =? 13 then
                          match bs1 with
                          | d :: bs2 => if d =? 10 then HdrBody h bs2 else HdrBad h
                          | [] => HdrBad h
                          end
                        else read_headers fuel bs h
                    | [] => HdrMore h
                    end
                end
          end
      end
  end.

(** What the query string sets. *)
Record http_query := Query {
  hq_flags : option bytes; hq_ex : option bytes; hq_cas : option bytes; hq_xx : bool;
  hq_nx : bool; hq_auth : option bytes
}.

Definition query0 : http_query := Query None None None false false None.

(** One pair of the query; a key without [=] has no value. *)
Definition query_pair (key : bytes) (val : option bytes) (q : http_query) : http_query :=
  if bytes_const_eq key (str "flags") then
    Query val (hq_ex q) (hq_cas q) (hq_xx q) (hq_nx q) (hq_auth q)
  else if bytes_const_eq key (str "ex") || bytes_const_eq key (str "ttl") then
    Query (hq_flags q) val (hq_cas q) (hq_xx q) (hq_nx q) (hq_auth q)
  else if bytes_const_eq key (str "cas") then
    Query (hq_flags q) (hq_ex q) val (hq_xx q) (hq_nx q) (hq_auth q)
  else if bytes_const_eq key (str "xx") then
    Query (hq_flags q) (hq_ex q) (hq_cas q) true (hq_nx q) (hq_auth q)
  else if bytes_const_eq key (str "nx") then
    Query (hq_flags q) (hq_ex q) (hq_cas q) (hq_xx q) true (hq_auth q)
  else if bytes_const_eq key (str "auth") then
    Query (hq_flags q) (hq_ex q) (hq_cas q) (hq_xx q) (hq_nx q) val
  else q.

(** [data[from..to)]. *)
Definition slice (data : bytes) (from to : nat) : bytes := take (to - from) (drop from data).

(** The index of the next [&] from [i] on, or the length. *)
Definition next_amp (query : bytes) (i : nat) : nat :=
  (i + default (length query - i) (memchr 38 (drop i query)))%nat.

(** The loop over the query string at [i], with the current key from [j] on. *)
Fixpoint query_loop (fuel : nat) (query : bytes) (i j : nat) (q : http_query) : http_query :=
  match fuel with
  | O => q
  | S fuel =>
      if (length query <=? i)%nat then q
      else if nth i query 0 =? 61 then
        let k := i in
        let i := next_amp query (i + 1) in
        let q := query_pair (slice query j k) (Some (slice query (k + 1) i)) q in
        query_loop fuel query (i + 1) (i + 1) q
      else if (nth i query 0 =? 38) || (i =? length query - 1)%nat then
        let i := if (i =? length query - 1)%nat then (i + 1)%nat else i in
        let q := query_pair (slice query j i) None q in
        query_loop fuel query (i + 1) (i + 1) q
      else query_loop fuel query (i + 1) j q
  end.

(** The target without its slash, split at the first question mark. *)
Definition split_query (uri : bytes) : bytes * http_query :=
  match memchr 63 uri with
  | None => (uri, query0)
  | Some p =>
      let query := drop (S p) uri in
      (take p uri, query_loop (S (length query)) query 0 0 query0)
  end.

Definition opt_arg (name : bytes) (val : option bytes) : list bytes :=
  match val with Some v => [name; v] | None => [] end.

(** The command of a request, or the error. *)
Definition http_command (method uri body : bytes) (q : http_query) (html : bool)
    : list bytes + bytes :=
  let system := match uri with c :: _ => c =? 64 | [] => false end in
  if bytes_const_eq method (str "GET") then
    if system then inr bad_request
    else if size uri =? 0 then
      inr (if html then str "Show Help HTML" else str "Show Help TEXT")
    else if negb (http_valid_key uri) then inr (str "Invalid Key")
    else inl [str "get"; uri]
  else if bytes_const_eq method (str "PUT") then
    if system then inr bad_request
    else if negb (http_valid_key uri) then inr (str "Invalid Key")
    else inl ([str "set"; uri; body] ++ opt_arg (str "cas") (hq_cas q) ++
              opt_arg (str "ex") (hq_ex q) ++ opt_arg (str "flags") (hq_flags q) ++
              (if hq_xx q then [str "xx"] else []) ++ (if hq_nx q then [str "nx"] else []))
  else if bytes_const_eq method (str "DELETE") then
    if system then inr bad_request
    else if negb (http_valid_key uri) then inr (str "Invalid Key")
    else inl [str "del"; uri]
  else inr bad_request. (* after "Method Not Allowed" was set *)

(** The authorization check. *)
Definition http_authorized (useauth : bool) (auth : bytes) (hdr qauth : option bytes) : bool :=
  let check authval :=
    if useauth || (0 <? size authval) then bool_decide (authval = auth) else true in
  if 0 <? size (default [] qauth) then check (default [] qauth)
  else if 0 <? size (default [] hdr) then
    if bool_decide (take 7 (default [] hdr) = str "Bearer ") then check (drop 7 (default [] hdr))
    else false
  else check [].

(** From the label [readbody] on: the body, the target, the command and the
    authorization; [len] is the length of the data. *)
Definition http_body (useauth : bool) (auth : bytes) (len : Z) (method uri : bytes) (proto : Z)
    (h : http_headers) (bs : bytes) : http_result :=
  let keepalive := hh_keepalive h in
  if size bs <? hh_bodylen h then HttpResult 0 [] [] proto keepalive
  else
    match uri with
    | [] => HttpResult (-1) [] bad_request proto keepalive
    | c :: uri =>
        if negb (c =? 47) then HttpResult (-1) [] bad_request proto keepalive
        else
          let body := take (Z.to_nat (hh_bodylen h)) bs in
          let '(uri, q) := split_query uri in
          match http_command method uri body q (hh_html h) with
          | inr err => HttpResult (-1) [] err proto keepalive
          | inl args =>
              if http_authorized useauth auth (hh_auth h) (hq_auth q)
              then HttpResult len args [] proto keepalive
              else HttpResult (-1) args (str "Unauthorized") proto keepalive
          end
    end.

Definition parse_http (useauth : bool) (auth data : bytes) : http_result :=
  match http_word data [] with
  | None => HttpResult (-1) [] bad_request 0 false
  | Some (method, bs) =>
      match http_word bs [] with
      | None => HttpResult (-1) [] bad_request 0 false
      | Some (uri, bs) =>
          match http_line bs [] with
          | None => HttpResult (-1) [] bad_request 0 false
          | Some (line, bs) =>
              if negb (ends_cr 32 line) then HttpResult (-1) [] bad_request 0 false
              else
                match http_version line with
                | None => HttpResult (-1) [] bad_request 0 false
                | Some proto =>
                    match read_headers (S (length bs)) bs (Headers (11 <=? proto) 0 false None) with
                    | HdrMore h => HttpResult 0 [] [] proto (hh_keepalive h)
                    | HdrBad h => HttpResult (-1) [] bad_request proto (hh_keepalive h)
                    | HdrBody h bs => http_body useauth auth (size data) method uri proto h bs
                    end
                end
          end
      end
  end.
