(* ===== verification/HttpProofs.v ===== *)
(** * HttpProofs: the HTTP parser reads back the requests of a client *)

From S2P Require Import Prelude Util Resp RespProofs Memcache MemcacheProofs Http.

(** ** The printer of requests *)

Definition http_header_line (h : bytes * bytes) : bytes := h.1 ++ str ": " ++ h.2 ++ [13; 10].

(** The rest of the request line, with the version 1.1. *)
Definition http11 : bytes := str "HTTP/1.1" ++ [13; 10].

Definition http_request (method uri : bytes) (headers : list (bytes * bytes)) (body : bytes) : bytes :=
  method ++ [32] ++ uri ++ [32] ++ http11 ++
  concat (http_header_line <$> headers) ++ [13; 10] ++ body.

(** A pair of a query string. *)
Definition query_text (p : bytes * option bytes) : bytes :=
  p.1 ++ match p.2 with Some v => 61 :: v | None => [] end.

Fixpoint query_string (ps : list (bytes * option bytes)) : bytes :=
  match ps with
  | [] => []
  | [p] => query_text p
  | p :: ps => query_text p ++ 38 :: query_string ps
  end.

(** ** Words and lines *)

Definition word_ok (w : bytes) : Prop := Forall (λ c, c ≠ 32 ∧ c ≠ 10) w.

Lemma http_word_app w : ∀ acc rest,
  word_ok w → http_word (w ++ 32 :: rest) acc = Some (acc ++ w, rest).
Proof.
  induction w as [|c w IH]; intros acc rest Hw; cbn [http_word app].
  - now rewrite app_nil_r.
  - inversion_clear Hw as [|? ? [H32 H10] Hw']. rewrite !(proj2 (Z.eqb_neq _ _)) by easy.
    rewrite IH by easy. now rewrite <- app_assoc.
Qed.

Lemma http_line_app w : ∀ acc rest,
  Forall (λ c, c ≠ 10) w → http_line (w ++ 10 :: rest) acc = Some (acc ++ w, rest).
Proof.
  induction w as [|c w IH]; intros acc rest Hw; cbn [http_line app].
  - now rewrite app_nil_r.
  - inversion_clear Hw as [|? ? H10 Hw']. rewrite (proj2 (Z.eqb_neq _ _)) by easy.
    rewrite IH by easy. now rewrite <- app_assoc.
Qed.

Lemma http_name_app w : ∀ acc rest,
  Forall (λ c, c ≠ 58) w → http_name (w ++ 58 :: rest) acc = Some (acc ++ w, rest).
Proof.
  induction w as [|c w IH]; intros acc rest Hw; cbn [http_name app].
  - now rewrite app_nil_r.
  - inversion_clear Hw as [|? ? H58 Hw']. rewrite (proj2 (Z.eqb_neq _ _)) by easy.
    rewrite IH by easy. now rewrite <- app_assoc.
Qed.

(** ** Headers *)

(** The printer's side of a header: the name has no colon and does not start
    with CR, the value holds no line feed and does not start with a space. *)
Record header_ok (h : bytes * bytes) : Prop := {
  hd_name : Forall (λ c, c ≠ 58) h.1;
  hd_start : head h.1 ≠ Some 13;
  hd_val : Forall (λ c, c ≠ 10) h.2;
  hd_space : head h.2 ≠ Some 32
}.

(** What a list of headers sets, one by one. *)
Definition apply_headers (headers : list (bytes * bytes)) (h : http_headers) : option http_headers :=
  foldl (λ oh p, h ← oh; http_header p.1 p.2 h) (Some h) headers.

Lemma apply_headers_none headers : foldl (λ oh p, h ← oh; http_header p.1 p.2 h) None headers = None.
Proof. now induction headers. Qed.

Lemma skip_spaces_val v rest :
  head v ≠ Some 32 → skip_spaces (32 :: v ++ 13 :: rest) 58 = (32, v ++ 13 :: rest).
Proof.
  intros Hv. cbn [skip_spaces]. cbn. destruct v as [|c v]; [easy|]. cbn [app skip_spaces].
  destruct (c =? 32) eqn:E; [|easy]. zb. now subst c.
Qed.

Lemma last_cr v : ends_cr 32 (v ++ [13]) = true.
Proof. unfold ends_cr. now rewrite last_last. Qed.

(** One turn of the loop reads one printed header. *)
Lemma read_header fuel hd rest h :
  header_ok hd →
  read_headers (S fuel) (http_header_line hd ++ rest) h =
  match http_header hd.1 hd.2 h with
  | None => HdrBad h
  | Some h =>
      match rest with
      | c :: bs1 =>
          if c =? 13 then
            match bs1 with
            | d :: bs2 => if d =? 10 then HdrBody h bs2 else HdrBad h
            | [] => HdrBad h
            end
          else read_headers fuel rest h
      | [] => HdrMore h
      end
  end.
Proof.
  destruct hd as [name val]. intros [Hn _ Hv Hs]. cbn [fst snd] in *. cbn [read_headers].
  unfold http_header_line. cbn [fst snd]. rewrite <- !app_assoc.
  change (str ": ") with [58; 32]. cbn [app]. rewrite http_name_app by easy. cbn [app].
  rewrite skip_spaces_val by easy.
  change (val ++ 13 :: 10 :: rest) with (val ++ [13] ++ 10 :: rest). rewrite app_assoc.
  rewrite http_line_app; [|apply Forall_app; split; [easy|constructor; [easy|constructor]]].
  cbn [app]. rewrite last_cr. cbn [negb].
  rewrite length_app, Nat.add_sub, take_app_le, firstn_all by lia. easy.
Qed.

(** The loop reads the printed headers of a request up to the blank line. *)
Lemma read_headers_app headers : ∀ fuel tl h h',
  headers ≠ [] → Forall header_ok headers → (length headers <= fuel)%nat →
  apply_headers headers h = Some h' →
  read_headers fuel (concat (http_header_line <$> headers) ++ 13 :: tl) h =
  match tl with d :: body => if d =? 10 then HdrBody h' body else HdrBad h' | [] => HdrBad h' end.
Proof.
  induction headers as [|hd headers IH]; intros fuel tl h h' Hne Hok Hf Ha; [easy|].
  inversion_clear Hok as [|? ? Hhd Hhs]. destruct fuel as [|fuel]; [cbn in Hf; lia|].
  rewrite fmap_cons. cbn [concat]. rewrite <- app_assoc, read_header by easy.
  unfold apply_headers in Ha. cbn [foldl mbind option_bind] in Ha.
  destruct (http_header hd.1 hd.2 h) as [h1|]; [|now rewrite apply_headers_none in Ha].
  destruct headers as [|hd2 headers]; [cbn in Ha |- *; now injection Ha as ->|].
  rewrite <- (IH fuel tl h1 h') by (easy || cbn in *; lia).
  inversion_clear Hhs as [|? ? [_ Hst _ _] _]. destruct hd2 as [n2 v2].
  rewrite fmap_cons. cbn [concat]. unfold http_header_line at 1 3. cbn [fst snd] in *.
  destruct n2 as [|c n2]; cbn [app]; [easy|]. cbn [head] in Hst.
  rewrite (proj2 (Z.eqb_neq c 13)) by congruence. easy.
Qed.

(** ** The query string *)

Definition query_key_ok (k : bytes) : Prop := k ≠ [] ∧ Forall (λ c, c ≠ 61 ∧ c ≠ 38) k.

Record query_pair_ok (p : bytes * option bytes) : Prop := {
  qp_key : query_key_ok p.1;
  qp_val : Forall (λ c, c ≠ 38) (default [] p.2)
}.

Lemma nth_at (pre : bytes) c rest i : i = length pre → nth i (pre ++ c :: rest) 0 = c.
Proof. intros ->. rewrite app_nth2, Nat.sub_diag by lia. easy. Qed.

(** The loop leaves [i] growing, so the length of the query is enough fuel. *)
Lemma query_loop_fuel query : ∀ f1 f2 i j q,
  (length query < f1 + i)%nat → (length query < f2 + i)%nat →
  query_loop f1 query i j q = query_loop f2 query i j q.
Proof.
  assert (Hend : ∀ f i j q, (length query <= i)%nat → query_loop f query i j q = q).
  { intros [|f] i j q Hi; cbn [query_loop]; [easy|]. now rewrite (proj2 (Nat.leb_le _ _)). }
  induction f1 as [|f1 IH]; intros f2 i j q H1 H2.
  - rewrite !Hend by lia. easy.
  - destruct f2 as [|f2]; [rewrite !Hend by lia; easy|]. cbn [query_loop].
    destruct (length query <=? i)%nat; [easy|].
    assert (Hamp : (i + 1 <= next_amp query (i + 1))%nat) by (unfold next_amp; lia).
    destruct (nth i query 0 =? 61); [apply IH; lia|].
    destruct ((nth i query 0 =? 38) || (i =? length query - 1)%nat); [|apply IH; lia].
    destruct (i =? length query - 1)%nat; apply IH; lia.
Qed.

(** The loop with enough fuel, and its turn. *)
Definition query_run (query : bytes) (i j : nat) (q : http_query) : http_query :=
  query_loop (S (length query)) query i j q.

Lemma query_run_turn query i j q :
  query_run query i j q =
  if (length query <=? i)%nat then q
  else if nth i query 0 =? 61 then
    let e := next_amp query (i + 1) in
    query_run query (e + 1) (e + 1) (query_pair (slice query j i) (Some (slice query (i + 1) e)) q)
  else if (nth i query 0 =? 38) || (i =? length query - 1)%nat then
    let e := if (i =? length query - 1)%nat then (i + 1)%nat else i in
    query_run query (e + 1) (e + 1) (query_pair (slice query j e) None q)
  else query_run query (i + 1) j q.
Proof.
  unfold query_run at 1. cbn [query_loop]. cbv zeta.
  assert (Hamp : (i + 1 <= next_amp query (i + 1))%nat) by (unfold next_amp; lia).
  destruct (length query <=? i)%nat eqn:El; [easy|]. apply Nat.leb_gt in El.
  destruct (nth i query 0 =? 61); [apply query_loop_fuel; lia|].
  destruct ((nth i query 0 =? 38) || (i =? length query - 1)%nat); [|apply query_loop_fuel; lia].
  destruct (i =? length query - 1)%nat; apply query_loop_fuel; lia.
Qed.

(** The loop runs over the characters of a key that is not the end. *)
Lemma query_scan w : ∀ query pre rest i j q,
  query = pre ++ w ++ rest → rest ≠ [] → Forall (λ c, c ≠ 61 ∧ c ≠ 38) w → i = length pre →
  query_run query i j q = query_run query (i + length w) j q.
Proof.
  induction w as [|c w IH]; intros query pre rest i j q Hq Hr Hw Hi.
  - now rewrite Nat.add_0_r.
  - inversion_clear Hw as [|? ? [H61 H38] Hw'].
    assert (Hlen : (length query > S i)%nat).
    { rewrite Hq, !length_app. cbn [length]. destruct rest; [easy|cbn; lia]. }
    assert (Hn : nth i query 0 = c) by (rewrite Hq; cbn [app]; now apply nth_at).
    rewrite query_run_turn, (proj2 (Nat.leb_gt _ _)), Hn by lia.
    rewrite (proj2 (Z.eqb_neq c 61)), (proj2 (Z.eqb_neq c 38)), (proj2 (Nat.eqb_neq _ _)) by (easy || lia).
    cbn [orb]. rewrite (IH query (pre ++ [c]) rest).
    + f_equal. cbn. lia.
    + now rewrite <- app_assoc.
    + easy.
    + easy.
    + rewrite length_app. cbn. lia.
Qed.

Lemma slice_mid (pre w rest : bytes) i k :
  i = length pre → k = (i + length w)%nat → slice (pre ++ w ++ rest) i k = w.
Proof.
  intros -> ->. unfold slice. rewrite drop_app_length.
  replace (length pre + length w - length pre)%nat with (length w) by lia. now rewrite take_app_length.
Qed.

Lemma memchr_none c v : Forall (λ d, d ≠ c) v → memchr c v = None.
Proof.
  induction 1 as [|d v Hd Hv IH]; cbn [memchr]; [easy|].
  rewrite (proj2 (Z.eqb_neq _ _)) by easy. now rewrite IH.
Qed.

Lemma memchr_at c v rest : Forall (λ d, d ≠ c) v → memchr c (v ++ c :: rest) = Some (length v).
Proof.
  induction 1 as [|d v Hd Hv IH]; cbn [memchr app length]; [now rewrite Z.eqb_refl|].
  rewrite (proj2 (Z.eqb_neq _ _)) by easy. now rewrite IH.
Qed.

(** A pair ends at the next [&] or at the end of the query. *)
Lemma query_step p pre rest query i q :
  query_pair_ok p → query = pre ++ query_text p ++ rest → i = length pre →
  rest = [] ∨ (∃ r, rest = 38 :: r ∧ r ≠ []) →
  query_run query i i q =
  query_run query (S (i + length (query_text p))) (S (i + length (query_text p)))
    (query_pair p.1 p.2 q) ∨
  query_run query i i q = query_pair p.1 p.2 q ∧ rest = [].
Proof.
  destruct p as [k [v|]]; intros [[Hne Hk] Hv] Hq Hi Hr; unfold query_text in *; cbn [fst snd default id] in *;
    rewrite <- app_assoc in Hq; cbn [app] in Hq.
  - left. rewrite (query_scan k query pre (61 :: v ++ rest)) by easy.
    assert (Hlen : (length query > i + length k)%nat).
    { rewrite Hq, !length_app. cbn [length]. lia. }
    rewrite query_run_turn, (proj2 (Nat.leb_gt _ _)) by lia.
    replace (nth (i + length k) query 0) with 61.
    2: { rewrite Hq, app_assoc, nth_at; [easy|rewrite length_app; lia]. }
    cbn [Z.eqb]. cbv zeta.
    assert (He : next_amp query (i + length k + 1) = (i + length k + 1 + length v)%nat).
    { unfold next_amp. f_equal.
      assert (Hd : drop (i + length k + 1) query = v ++ rest).
      { rewrite Hq, app_assoc. change (61 :: v ++ rest) with ([61] ++ v ++ rest). rewrite app_assoc.
        apply drop_app_length'. rewrite !length_app. cbn. lia. }
      rewrite Hd. destruct Hr as [->|Hr].
      - rewrite app_nil_r, (memchr_none _ _ Hv). cbn [default].
        rewrite Hq, !length_app. cbn [length]. rewrite length_app. cbn. lia.
      - destruct Hr as (r & -> & _). now rewrite (memchr_at _ _ _ Hv). }
    rewrite He. f_equal; [rewrite length_app; cbn; lia|rewrite length_app; cbn; lia|].
    f_equal; [|f_equal].
    + rewrite Hq. now apply slice_mid.
    + rewrite Hq, app_assoc. change (61 :: v ++ rest) with ([61] ++ v ++ rest). rewrite app_assoc.
      apply slice_mid; [rewrite !length_app; cbn; lia|lia].
  - destruct Hr as [->|Hr].
    + right. split; [|easy].
      destruct (exists_last Hne) as (k' & c & ->). apply Forall_app in Hk as [Hk' Hc].
      inversion_clear Hc as [|? ? [H61 H38] _].
      rewrite (query_scan k' query pre [c]) by (try easy; rewrite Hq, app_nil_r; easy).
      assert (Hlen : length query = (i + length k' + 1)%nat).
      { rewrite Hq, !length_app. cbn [length]. lia. }
      rewrite query_run_turn, (proj2 (Nat.leb_gt _ _)) by lia.
      replace (nth (i + length k') query 0) with c.
      2: { rewrite Hq, app_nil_r, app_assoc, nth_at; [easy|rewrite length_app; lia]. }
      rewrite (proj2 (Z.eqb_neq c 61)), (proj2 (Z.eqb_neq c 38)), (proj2 (Nat.eqb_eq _ _)) by (easy || lia).
      cbn [orb]. cbv zeta. rewrite query_run_turn, (proj2 (Nat.leb_le _ _)) by lia.
      f_equal. rewrite Hq. apply slice_mid; [easy|]. rewrite length_app. cbn. lia.
    + left. destruct Hr as (r & -> & Hr).
      rewrite (query_scan k query pre (38 :: r)) by easy.
      assert (Hlen : length query = (i + length k + 1 + length r)%nat).
      { rewrite Hq, !length_app. cbn [length]. lia. }
      assert (Hr' : (length r <> 0)%nat) by (destruct r; [easy|cbn; lia]).
      rewrite query_run_turn, (proj2 (Nat.leb_gt _ _)) by lia.
      replace (nth (i + length k) query 0) with 38.
      2: { rewrite Hq, app_assoc, nth_at; [easy|rewrite length_app; lia]. }
      cbn [Z.eqb orb]. cbv zeta. rewrite (proj2 (Nat.eqb_neq _ _)) by lia.
      rewrite app_nil_r. f_equal; [lia|lia|]. f_equal. rewrite Hq. now apply slice_mid.
Qed.

Lemma query_string_cons p ps :
  query_string (p :: ps) = query_text p ++ match ps with [] => [] | _ => 38 :: query_string ps end.
Proof. destruct ps; cbn [query_string]; [now rewrite app_nil_r|easy]. Qed.

Lemma query_string_nonempty p ps : query_pair_ok p → query_string (p :: ps) ≠ [].
Proof.
  intros [[Hne _] _]. rewrite query_string_cons. unfold query_text.
  destruct (p.1) as [|c k]; [easy|]. now destruct p.2, ps.
Qed.

(** The loop reads the pairs of a printed query, in order. *)
Lemma query_pairs ps : ∀ pre query i q,
  Forall query_pair_ok ps → query = pre ++ query_string ps → i = length pre →
  query_run query i i q = foldl (λ q p, query_pair p.1 p.2 q) q ps.
Proof.
  induction ps as [|p ps IH]; intros pre query i q Hok Hq Hi; cbn [foldl].
  - rewrite query_run_turn, (proj2 (Nat.leb_le _ _)); [easy|]. subst. cbn. rewrite app_nil_r. lia.
  - inversion_clear Hok as [|? ? Hp Hps]. rewrite query_string_cons in Hq.
    destruct ps as [|p2 ps].
    + destruct (query_step p pre [] query i q) as [->|[-> _]]; try easy; [now left|].
      rewrite query_run_turn, (proj2 (Nat.leb_le _ _)); [easy|].
      rewrite Hq, app_nil_r, length_app. lia.
    + destruct (query_step p pre (38 :: query_string (p2 :: ps)) query i q) as [->|[_ ?]]; try easy.
      { right. eexists. split; [reflexivity|]. apply query_string_nonempty. now inversion Hps. }
      apply (IH (pre ++ query_text p ++ [38])); [easy| |].
      * rewrite Hq, <- !app_assoc. easy.
      * rewrite !length_app. cbn. lia.
Qed.

(** What a target with a query string stands for. *)
Lemma split_query_pairs path ps :
  Forall (λ c, c ≠ 63) path → Forall query_pair_ok ps →
  split_query (path ++ 63 :: query_string ps) =
  (path, foldl (λ q p, query_pair p.1 p.2 q) query0 ps).
Proof.
  intros Hp Hps. unfold split_query. rewrite memchr_at by easy.
  rewrite take_app_length. f_equal.
  change (63 :: query_string ps) with ([63] ++ query_string ps). rewrite app_assoc, drop_app_length'.
  - now apply (query_pairs ps []).
  - rewrite length_app. cbn. lia.
Qed.

Lemma split_query_none path : Forall (λ c, c ≠ 63) path → split_query path = (path, query0).
Proof. intros Hp. unfold split_query. now rewrite memchr_none. Qed.

(** ** Whole requests *)

Lemma headers_length headers : (length headers <= length (concat (http_header_line <$> headers)))%nat.
Proof.
  induction headers as [|[n v] headers IH]; [cbn; lia|]. rewrite fmap_cons. cbn [concat length].
  rewrite length_app. unfold http_header_line at 1. rewrite !length_app. cbn [length]. lia.
Qed.

Lemma http11_line rest :
  http_line (http11 ++ rest) [] = Some (str "HTTP/1.1" ++ [13], rest) ∧
  ends_cr 32 (str "HTTP/1.1" ++ [13]) = true ∧ http_version (str "HTTP/1.1" ++ [13]) = Some 11.
Proof. now repeat split. Qed.

(** What the parser does once it has read the first line. *)
Lemma parse_http_line useauth auth method uri rest :
  word_ok method → word_ok uri →
  let data := method ++ [32] ++ uri ++ [32] ++ http11 ++ rest in
  parse_http useauth auth data =
  match read_headers (S (length rest)) rest (Headers true 0 false None) with
  | HdrMore h => HttpResult 0 [] [] 11 (hh_keepalive h)
  | HdrBad h => HttpResult (-1) [] bad_request 11 (hh_keepalive h)
  | HdrBody h bs => http_body useauth auth (size data) method uri 11 h bs
  end.
Proof.
  intros Hm Hu data. unfold parse_http, data at 1. cbn [app].
  rewrite http_word_app by easy. rewrite app_nil_l, http_word_app by easy. rewrite app_nil_l.
  destruct (http11_line rest) as (-> & H2 & H3). rewrite H2, H3. easy.
Qed.

(** What the parser does with a printed request. *)
Lemma parse_http_request useauth auth method uri headers body h :
  word_ok method → word_ok uri → headers ≠ [] → Forall header_ok headers →
  apply_headers headers (Headers true 0 false None) = Some h →
  let data := http_request method uri headers body in
  parse_http useauth auth data = http_body useauth auth (size data) method uri 11 h body.
Proof.
  intros Hm Hu Hne Hok Ha data. unfold data, http_request. rewrite parse_http_line by easy.
  pose proof (headers_length headers) as Hl. cbn [app].
  rewrite (read_headers_app _ _ _ _ h) by (try easy; rewrite length_app; lia). easy.
Qed.

Lemma valid_key_chars key :
  http_valid_key key = true → word_ok key ∧ Forall (λ c, c ≠ 63) key ∧ head key ≠ Some 64 ∧ key ≠ [].
Proof.
  unfold http_valid_key. intros [Hs Hc]%andb_true_iff. rewrite forallb_forall in Hc.
  assert (Hall : ∀ c, c ∈ key → c ≠ 32 ∧ c ≠ 10 ∧ c ≠ 63 ∧ c ≠ 64).
  { intros c Hin%list_elem_of_In. specialize (Hc c Hin). repeat split; intros ->; easy. }
  repeat split.
  - apply Forall_forall. intros c Hin. destruct (Hall c Hin) as (? & ? & ? & ?). auto.
  - apply Forall_forall. intros c Hin. apply Hall, Hin.
  - destruct key as [|c key]; [easy|]. cbn. destruct (Hall c) as (_ & _ & _ & ?); [constructor|congruence].
  - intros ->. easy.
Qed.

(** The headers of a client: the length of the body and the password. *)
Definition client_headers (auth body : bytes) : list (bytes * bytes) :=
  [(str "Content-Length", u64toa (size body)); (str "Authorization", str "Bearer " ++ auth)].

Lemma size_u64 body : size body <= MAXARGSZ → is_u64 (size body).
Proof. intros H. pose proof (size_nonneg body). revert H. unfold MAXARGSZ. intros H. split; lia. Qed.

Lemma client_headers_ok auth body :
  Forall (λ c, c ≠ 10) auth → size body <= MAXARGSZ → Forall header_ok (client_headers auth body).
Proof.
  intros Ha Hb. destruct (u64toa_text _ (size_u64 body Hb)) as (Hd & Hne & _ & _).
  constructor; [|constructor; [|constructor]]; split; cbn [fst snd].
  - now repeat constructor.
  - easy.
  - eapply Forall_impl; [exact Hd|]. intros c Hc ->. easy.
  - destruct (u64toa _) as [|c t]; [easy|]. inversion_clear Hd as [|? ? Hc _].
    cbn. intros [= ->]. easy.
  - now repeat constructor.
  - easy.
  - change (str "Bearer ") with [66; 101; 97; 114; 101; 114; 32]. cbn [app]. repeat constructor; easy.
  - easy.
Qed.

Lemma client_headers_set auth body :
  size body <= MAXARGSZ →
  apply_headers (client_headers auth body) (Headers true 0 false None) =
    Some (Headers true (size body) false (Some (str "Bearer " ++ auth))).
Proof.
  intros Hb. unfold apply_headers, client_headers. cbn [foldl mbind option_bind fst snd].
  unfold http_header at 2. change (argeq_bytes (str "Content-Length") (str "content-length")) with true.
  cbv iota. rewrite parse_u64toa_spec by now apply size_u64. cbn [negb orb].
  rewrite (proj2 (Z.ltb_ge _ _)) by easy. reflexivity.
Qed.

Lemma bearer_authorized useauth auth : http_authorized useauth auth (Some (str "Bearer " ++ auth)) None = true.
Proof.
  unfold http_authorized. cbn [default id].
  assert ((0 <? size (str "Bearer " ++ auth)) = true) as ->.
  { rewrite size_app. pose proof (size_nonneg auth). apply Z.ltb_lt. change (size (str "Bearer ")) with 7. lia. }
  change (0 <? size []) with false. cbv iota. rewrite bool_decide_true by easy.
  change (drop 7 (str "Bearer " ++ auth)) with auth. rewrite bool_decide_true by easy. now destruct (_ || _).
Qed.

(** The options of the query other than the password. *)
Definition put_options (ps : list (bytes * option bytes)) : http_query :=
  foldl (λ q p, query_pair p.1 p.2 q) query0 ps.

Lemma put_options_auth ps :
  Forall (λ p, p.1 ≠ str "auth") ps → hq_auth (put_options ps) = None.
Proof.
  unfold put_options. generalize (eq_refl (hq_auth query0)). generalize query0 at 1 3.
  induction ps as [|p ps IH]; intros q Hq Hps; [easy|]. inversion_clear Hps as [|? ? Hp Hps'].
  cbn [foldl]. apply IH; [|easy]. unfold query_pair, bytes_const_eq.
  rewrite (bool_decide_false (p.1 = str "auth")) by easy.
  repeat match goal with |- context [if ?b then _ else _] => destruct b; [easy|] end. easy.
Qed.

(** The target of a PUT request. *)
Definition put_uri (key : bytes) (ps : list (bytes * option bytes)) : bytes :=
  47 :: key ++ match ps with [] => [] | _ => 63 :: query_string ps end.

Record option_ok (p : bytes * option bytes) : Prop := {
  op_pair : query_pair_ok p;
  op_word : word_ok (query_text p);
  op_auth : p.1 ≠ str "auth"
}.

Lemma put_uri_word key ps :
  word_ok key → Forall option_ok ps → word_ok (put_uri key ps).
Proof.
  intros Hk Hps. assert (Hq : word_ok (query_string ps)).
  { induction Hps as [|p ps Hp Hps IH]; [constructor|]. rewrite query_string_cons. apply Forall_app.
    split; [apply Hp|]. destruct ps; [constructor|]. constructor; [easy|exact IH]. }
  constructor; [easy|]. apply Forall_app. split; [easy|]. destruct ps; [constructor|]. now constructor.
Qed.

Lemma put_uri_split key ps :
  Forall (λ c, c ≠ 63) key → Forall option_ok ps →
  split_query (key ++ match ps with [] => [] | _ => 63 :: query_string ps end) = (key, put_options ps).
Proof.
  intros Hk Hps. destruct ps as [|p ps].
  - rewrite app_nil_r. now apply split_query_none.
  - apply split_query_pairs; [easy|]. eapply Forall_impl; [exact Hps|]. now intros x [Hx _ _].
Qed.

Definition put_args (key value : bytes) (q : http_query) : list bytes :=
  [str "set"; key; value] ++ opt_arg (str "cas") (hq_cas q) ++
  opt_arg (str "ex") (hq_ex q) ++ opt_arg (str "flags") (hq_flags q) ++
  (if hq_xx q then [str "xx"] else []) ++ (if hq_nx q then [str "nx"] else []).

Lemma put_command key value q :
  http_valid_key key = true → http_command (str "PUT") key value q false = inl (put_args key value q).
Proof.
  intros Hk. destruct (valid_key_chars key Hk) as (_ & _ & Hh & Hne). unfold http_command.
  change (bytes_const_eq (str "PUT") (str "GET")) with false.
  change (bytes_const_eq (str "PUT") (str "PUT")) with true. cbv iota. rewrite Hk. cbn [negb].
  destruct key as [|c key]; [easy|]. cbn in Hh. rewrite (proj2 (Z.eqb_neq c 64)) by congruence. easy.
Qed.



(** ** The password *)

(** [s] occurs in [data]. *)
Definition occurs (s data : bytes) : Prop := ∃ a b, data = a ++ s ++ b.

Lemma occurs_refl s : occurs s s.
Proof. exists [], []. now rewrite app_nil_r. Qed.

Lemma occurs_trans s t u : occurs s t → occurs t u → occurs s u.
Proof.
  intros (a & b & ->) (c & d & ->). exists (c ++ a), (b ++ d). now rewrite <- !app_assoc.
Qed.

Lemma occurs_take n s : occurs (take n s) s.
Proof. exists [], (drop n s). cbn. now rewrite take_drop. Qed.

Lemma occurs_drop n s : occurs (drop n s) s.
Proof. exists (take n s), []. now rewrite app_nil_r, take_drop. Qed.

Lemma occurs_slice data i j : occurs (slice data i j) data.
Proof. eapply occurs_trans; [apply occurs_take|apply occurs_drop]. Qed.

Lemma http_word_occurs bs : ∀ acc w rest,
  http_word bs acc = Some (w, rest) → acc ++ bs = w ++ 32 :: rest.
Proof.
  induction bs as [|c bs IH]; intros acc w rest; cbn [http_word]; [easy|].
  destruct (c =? 32) eqn:E; [intros [= <- <-]; zb; now subst|]. destruct (c =? 10); [easy|].
  intros H%IH. rewrite <- app_assoc in H. exact H.
Qed.

Lemma http_line_occurs bs : ∀ acc w rest,
  http_line bs acc = Some (w, rest) → acc ++ bs = w ++ 10 :: rest.
Proof.
  induction bs as [|c bs IH]; intros acc w rest; cbn [http_line]; [easy|].
  destruct (c =? 10) eqn:E; [intros [= <- <-]; zb; now subst|].
  intros H%IH. rewrite <- app_assoc in H. exact H.
Qed.

Lemma http_name_occurs bs : ∀ acc w rest,
  http_name bs acc = Some (w, rest) → acc ++ bs = w ++ 58 :: rest.
Proof.
  induction bs as [|c bs IH]; intros acc w rest; cbn [http_name]; [easy|].
  destruct (c =? 58) eqn:E; [intros [= <- <-]; zb; now subst|].
  intros H%IH. rewrite <- app_assoc in H. exact H.
Qed.

Lemma skip_spaces_occurs bs : ∀ before, occurs (skip_spaces bs before).2 bs.
Proof.
  induction bs as [|c bs IH]; intros before; cbn [skip_spaces]; [apply occurs_refl|].
  destruct (c =? 32); [|apply occurs_refl]. eapply occurs_trans; [apply IH|apply (occurs_drop 1 (c :: bs))].
Qed.

(** The password a header sets is a part of the request. *)
Definition from (data : bytes) (o : option bytes) : Prop := ∀ a, o = Some a → occurs a data.

Lemma http_header_from data name val h h' :
  occurs val data → from data (hh_auth h) → http_header name val h = Some h' → from data (hh_auth h').
Proof.
  intros Hv Hh. unfold http_header. destruct (argeq_bytes name (str "content-length")).
  { destruct (parse_u64 val) as [ok x]. destruct (_ || _); [easy|]. now intros [= <-]. }
  destruct (argeq_bytes name (str "connection")); [now intros [= <-]|].
  destruct (argeq_bytes name (str "accept")); [now intros [= <-]|].
  destruct (argeq_bytes name (str "authorization")); [|now intros [= <-]].
  intros [= <-] a [= <-]. exact Hv.
Qed.

Lemma read_headers_from data fuel : ∀ bs h,
  occurs bs data → from data (hh_auth h) →
  ∀ h' body, read_headers fuel bs h = HdrBody h' body → from data (hh_auth h').
Proof.
  induction fuel as [|fuel IH]; intros bs h Hbs Hh h' body; cbn [read_headers]; [easy|].
  destruct (http_name bs []) as [[name bs1]|] eqn:En; [|easy].
  assert (H1 : occurs bs1 data).
  { apply http_name_occurs in En. cbn in En. eapply occurs_trans; [|exact Hbs]. rewrite En.
    exists (name ++ [58]), []. now rewrite app_nil_r, <- app_assoc. }
  pose proof (skip_spaces_occurs bs1 58) as Hsk. destruct (skip_spaces bs1 58) as [before bs2]. cbn in Hsk.
  destruct (http_line bs2 []) as [[line bs3]|] eqn:El; [|easy].
  apply http_line_occurs in El. cbn in El.
  assert (H2 : occurs bs2 data) by (eapply occurs_trans; eauto).
  destruct (negb (ends_cr before line)); [easy|].
  destruct (http_header name _ h) as [h1|] eqn:Eh; [|easy].
  assert (Hl : occurs line data).
  { eapply occurs_trans; [|exact H2]. rewrite El. now exists [], (10 :: bs3). }
  apply (http_header_from data) in Eh; [|eapply occurs_trans; [apply occurs_take|exact Hl]|easy].
  destruct bs3 as [|c bs3]; [easy|]. destruct (c =? 13).
  - destruct bs3 as [|d bs4]; [easy|]. destruct (d =? 10); [|easy]. now intros [= <- _].
  - apply IH; [|easy]. eapply occurs_trans; [|exact H2]. rewrite El.
    exists (line ++ [10]), []. now rewrite app_nil_r, <- app_assoc.
Qed.

Lemma query_pair_from data key val q :
  from data val → from data (hq_auth q) → from data (hq_auth (query_pair key val q)).
Proof.
  intros Hv Hq. unfold query_pair.
  repeat match goal with |- context [if ?b then _ else _] => destruct b; [easy|] end. easy.
Qed.

Lemma query_loop_from data query fuel : ∀ i j q,
  occurs query data → from data (hq_auth q) → from data (hq_auth (query_loop fuel query i j q)).
Proof.
  induction fuel as [|fuel IH]; intros i j q Hq Hf; cbn [query_loop]; [easy|].
  destruct (length query <=? i)%nat; [easy|]. destruct (nth i query 0 =? 61).
  - apply IH; [easy|]. apply query_pair_from; [|easy]. intros a [= <-].
    eapply occurs_trans; [apply occurs_slice|easy].
  - destruct (_ || _); [|now apply IH]. apply IH; [easy|]. now apply query_pair_from.
Qed.

Lemma split_query_from uri : from uri (hq_auth (split_query uri).2).
Proof.
  unfold split_query. destruct (memchr 63 uri) as [p|]; cbn [snd]; [|easy].
  apply query_loop_from; [apply occurs_drop|easy].
Qed.

(** A request that passes the check carries the password. *)
Lemma authorized_occurs auth data hdr qauth :
  from data hdr → from data qauth → http_authorized true auth hdr qauth = true → occurs auth data.
Proof.
  intros Hh Hq. unfold http_authorized. cbn [orb].
  destruct (0 <? size (default [] qauth)) eqn:Eq.
  { intros H%bool_decide_eq_true. destruct qauth as [a|]; [|easy]. cbn in H. subst a. now apply Hq. }
  destruct (0 <? size (default [] hdr)) eqn:Eh.
  - destruct (bool_decide _); [|easy]. intros H%bool_decide_eq_true. destruct hdr as [a|]; [|easy].
    cbn [default id] in H. rewrite <- H. eapply occurs_trans; [apply occurs_drop|now apply Hh].
  - intros H%bool_decide_eq_true. subst auth. now exists [], data.
Qed.

(** A request that is accepted holds the password. *)
Lemma http_password auth data :
  0 < hr_n (parse_http true auth data) → occurs auth data.
Proof.
  unfold parse_http. destruct (http_word data []) as [[method bs1]|] eqn:E1; [|easy].
  destruct (http_word bs1 []) as [[uri bs2]|] eqn:E2; [|easy].
  destruct (http_line bs2 []) as [[line bs3]|] eqn:E3; [|easy].
  apply http_word_occurs in E1, E2. apply http_line_occurs in E3. cbn [app] in E1, E2, E3.
  destruct (negb (ends_cr 32 line)); [easy|]. destruct (http_version line) as [proto|]; [|easy].
  destruct (read_headers _ bs3 _) as [h|h|h body] eqn:Er; [easy|easy|].
  assert (Hsub : occurs bs3 data ∧ occurs uri data).
  { split; rewrite E1, E2; [rewrite E3|].
    - exists (method ++ 32 :: uri ++ 32 :: line ++ [10]), [].
      rewrite app_nil_r, <- !app_assoc. cbn. rewrite <- !app_assoc. cbn. now rewrite <- app_assoc.
    - exists (method ++ [32]), (32 :: bs2). now rewrite <- !app_assoc. }
  destruct Hsub as [H3 Hu]. apply (read_headers_from data) in Er; [|easy|easy].
  unfold http_body. destruct (size body <? hh_bodylen h); [easy|]. destruct uri as [|c uri]; [easy|].
  destruct (negb (c =? 47)); [easy|]. pose proof (split_query_from uri) as Hq.
  destruct (split_query uri) as [path q]. cbn [snd] in Hq.
  destruct (http_command method path _ q _) as [args|err]; [|easy].
  destruct (http_authorized true auth (hh_auth h) (hq_auth q)) eqn:Ea; [|easy]. intros _.
  eapply authorized_occurs; [exact Er| |exact Ea]. intros a Ha. eapply occurs_trans; [now apply Hq|].
  eapply occurs_trans; [apply (occurs_drop 1 (c :: uri))|exact Hu].
Qed.

(** C33: With a password configured, no request is accepted as a command unless the
    password stands in it; every other request gets an error or waits for
    more data. *)
Theorem http_needs_password auth data :
  0 < hr_n (parse_http true auth data) → occurs auth data.
Proof. exact (http_password auth data). Qed.

Lemma http_needs_password_witness :
  occurs (str "pw") (http_request (str "GET") (str "/k") (client_headers (str "pw") []) []).
Proof. apply (http_needs_password (str "pw")). vm_compute. reflexivity. Defined.

(** ** What the parser gets wrong *)

(** Three requests the parser does not treat as it means to. A method other than
    GET, PUT and DELETE is reported as a bad request and never as
    [Method Not Allowed], whatever the request; a request without headers is
    never complete, whatever key it names; and a
    request that the network cuts between the CR and the LF of the blank line
    is refused, although the whole request is accepted. *)
Theorem http_request_gaps useauth auth key method body q html :
  http_valid_key key = true → Forall (λ c, c ≠ 10) auth →
  method ∉ [str "GET"; str "PUT"; str "DELETE"] →
  http_command method key body q html = inr bad_request ∧
  parse_http useauth auth (http_request (str "GET") (47 :: key) [] []) = HttpResult 0 [] [] 11 true ∧
  (let line := str "GET" ++ [32] ++ (47 :: key) ++ [32] ++ http11 ++
     concat (http_header_line <$> client_headers auth []) in
   parse_http useauth auth (line ++ [13]) = HttpResult (-1) [] bad_request 11 true ∧
   parse_http useauth auth (line ++ [13; 10]) =
     HttpResult (size line + 2) [str "get"; key] [] 11 true).
Proof.
  intros Hk Ha Hm. destruct (valid_key_chars key Hk) as (Hw & H63 & Hh & Hne).
  assert (Hget : word_ok (str "GET")) by now repeat constructor.
  assert (Huri : word_ok (47 :: key)) by now constructor.
  assert (H0 : size [] <= MAXARGSZ) by now vm_compute.
  split; [|split; [|intros line; split]].
  - unfold http_command, bytes_const_eq. rewrite !bool_decide_false; [easy|..]; intros ->; apply Hm; set_solver.
  - unfold http_request. now rewrite parse_http_line.
  - unfold line. rewrite <- !app_assoc, parse_http_line by easy.
    assert (Hfuel : (length (client_headers auth []) <=
      S (length (concat (http_header_line <$> client_headers auth []) ++ [13%Z])))%nat).
    { pose proof (headers_length (client_headers auth [])). rewrite length_app. lia. }
    rewrite (read_headers_app (client_headers auth []) _ _ _ _ ltac:(easy) (client_headers_ok auth [] Ha H0) Hfuel
      (client_headers_set auth [] H0)). easy.
  - pose proof (parse_http_request useauth auth (str "GET") (47 :: key) (client_headers auth []) []
      _ Hget Huri ltac:(easy) (client_headers_ok auth [] Ha H0) (client_headers_set auth [] H0)) as Hp.
    cbv zeta in Hp. unfold http_request in Hp. rewrite app_nil_r in Hp. unfold line.
    rewrite <- !app_assoc, Hp. unfold http_body. cbn [hh_bodylen hh_keepalive hh_html hh_auth].
    cbn [Z.eqb Pos.eqb negb]. rewrite Z.ltb_irrefl, split_query_none by easy.
    unfold http_command. change (bytes_const_eq (str "GET") (str "GET")) with true. cbv iota.
    rewrite Hk. destruct key as [|c key]; [easy|]. cbn in Hh. rewrite (proj2 (Z.eqb_neq c 64)) by congruence.
    rewrite (proj2 (Z.eqb_neq (size (c :: key)) 0)) by (rewrite size_cons; pose proof (size_nonneg key); lia).
    cbn [negb]. rewrite bearer_authorized. f_equal.
    rewrite !size_app. change (size [13; 10]) with 2. lia.
Qed.

Lemma http_request_gaps_witness :
  parse_http false [] (str "GET /k HTTP/1.1" ++ [13; 10; 13; 10]) = HttpResult 0 [] [] 11 true.
Proof.
  destruct (http_request_gaps false [] (str "k") (str "POST") [] query0 false) as (_ & H & _).
  - reflexivity.
  - constructor.
  - apply (bool_decide_unpack _). vm_compute. exact I.
  - exact H.
Defined.
