(* ===== verification/Parse.v ===== *)
(** * Parse: which protocol a client speaks, and the entry point of the parsers

    [src/src/parse.c]. [parse_command] sniffs the protocol on the first command
    of a connection and runs the parser of the protocol. The protocol numbers
    are an enumeration. The Postgres side is an interface: [Conn.v] uses it
    with its other operations. *)

From S2P Require Import Prelude Util Resp Memcache Http.

Inductive proto := PROTO_NONE | PROTO_MEMCACHE | PROTO_POSTGRES | PROTO_HTTP | PROTO_RESP.

#[export] Instance proto_eq_dec : EqDecision proto.
Proof. solve_decision. Defined.

(** The length of the first line with its line feed, or 0. *)
Definition first_line (data : bytes) : Z :=
  match memchr 10 data with Some i => Z.of_nat i + 1 | None => 0 end.

(** The loop that drops leading spaces: how many there are, and the rest. *)
Fixpoint trim_spaces (data : bytes) (k : Z) : Z * bytes :=
  match data with
  | c :: data' => if c =? 32 then trim_spaces data' (k + 1) else (k, data)
  | [] => (k, [])
  end.

(** The protocol of the data, [PROTO_NONE] when it is unknown. [None] is a read
    past the data: the loop over spaces has no bound. *)
Definition sniff_proto (data : bytes) : option proto :=
  match data with
  | 42 :: _ => Some PROTO_RESP
  | 0 :: _ => Some PROTO_POSTGRES
  | _ =>
      let n := first_line data in
      if (11 <=? n) && bool_decide (slice data (Z.to_nat (n - 11)) (Z.to_nat (n - 6)) = str " HTTP") &&
         (nth (Z.to_nat (n - 4)) data 0 =? 46) && (nth (Z.to_nat (n - 2)) data 0 =? 13)
      then Some PROTO_HTTP
      else
        let '(k, data) := trim_spaces data 0 in
        let n := u64 (n - k) in
        match data with
        | [] => None
        | c :: _ =>
            if (0 <? n) && (65 <=? c) && (c <=? 90) then Some PROTO_RESP
            else if 1 <=? n then Some PROTO_MEMCACHE
            else Some PROTO_NONE
        end
  end.

(** What [parse_command] returns, and what it sets: the arguments, the protocol,
    [noreply], [httpvers], [keepalive], the last error, and [mc_n] where the
    memcache parser sets it. *)
Record parse_result := ParseResult {
  pr_n : Z; pr_args : list bytes; pr_err : bytes; pr_proto : proto;
  pr_noreply : bool; pr_httpvers : Z; pr_keepalive : bool; pr_mc_n : option Z
}.

Section Parse.

(** The configured password, and the state and the parser of the Postgres side. *)
Context (useauth : bool) (auth : bytes).
Context {PG : Type} (parse_postgres : PG → bytes → option (parsed * PG)).

Definition parse_fail (p : proto) : parse_result :=
  ParseResult (-1) [] (str "ERROR") p false 0 false None.

(** A result of the parsers that set neither flag. *)
Definition plain_result (p : proto) (r : parsed) : parse_result :=
  let '(n, args, err) := r in ParseResult n args err p false 0 false None.

(** The switch on the known protocol. *)
Definition parse_proto (p : proto) (pg : PG) (data : bytes) : option (parse_result * PG) :=
  match p with
  | PROTO_RESP =>
      c ← head data;
      if c =? 42 then
        r ← parse_resp data; Some (plain_result p r, pg)
      else Some (plain_result p (parse_resp_telnet data), pg)
  | PROTO_MEMCACHE =>
      r ← parse_memcache data;
      Some (ParseResult (mr_n r) (mr_args r) (mr_err r) p (mr_noreply r) 0 false (mr_last r), pg)
  | PROTO_HTTP =>
      let r := parse_http useauth auth data in
      Some (ParseResult (hr_n r) (hr_args r) (hr_err r) p false (hr_vers r) (hr_keepalive r) None, pg)
  | PROTO_POSTGRES =>
      '(r, pg) ← parse_postgres pg data; Some (plain_result p r, pg)
  | PROTO_NONE => Some (parse_fail p, pg)
  end.

Definition parse_command (p : proto) (pg : PG) (data : bytes) : option (parse_result * PG) :=
  if decide (p = PROTO_NONE) then
    p ← sniff_proto data;
    if decide (p = PROTO_NONE) then Some (parse_fail p, pg) else parse_proto p pg data
  else parse_proto p pg data.

End Parse.
