(* ===== verification/ParseProofs.v ===== *)
(** * ParseProofs: how much of the data a parser consumes

    Every parser says that it needs more data, reports an error, or consumes a
    part of the data it was given: never more than there is. After an error of
    the memcache protocol the parser knows where the next command starts. This
    is what the loop of [Conn.v] relies on to make progress. *)

From S2P Require Import Prelude Util Resp RespProofs Memcache MemcacheProofs Http Parse.

(** ** Redis *)

Definition consumes (data : bytes) (n : Z) : Prop := n = -1 ∨ 0 <= n <= size data.

Lemma telnet_loop_consumes bs : ∀ i inarg quote arg args,
  0 <= i →
  let n := (telnet_loop bs i inarg quote arg args).1.1 in n = -1 ∨ 0 <= n <= i + size bs.
Proof.
  remember (length bs) as l eqn:El. revert bs El.
  induction l as [l IH] using lt_wf_ind; intros bs El i inarg quote arg args Hi.
  destruct bs as [|ch bs1]; [cbn; right; rewrite size_nil; lia|]. cbn [length] in El.
  pose proof (size_nonneg bs1) as Hs1.
  assert (IH1 : ∀ inarg quote arg args,
    let n := (telnet_loop bs1 (i + 1) inarg quote arg args).1.1 in n = -1 ∨ 0 <= n <= i + size (ch :: bs1)).
  { intros. rewrite size_cons. destruct (IH (length bs1) ltac:(lia) bs1 eq_refl (i + 1) inarg0 quote0 arg0 args0);
      [lia|now left|right; lia]. }
  assert (IH2 : ∀ d bs2 inarg quote arg args, bs1 = d :: bs2 →
    let n := (telnet_loop bs2 (i + 2) inarg quote arg args).1.1 in n = -1 ∨ 0 <= n <= i + size (ch :: bs1)).
  { intros d bs2 inarg' quote' arg' args' ->. rewrite !size_cons.
    destruct (IH (length bs2) ltac:(cbn in El; lia) bs2 eq_refl (i + 2) inarg' quote' arg' args');
      [lia|now left|right; lia]. }
  assert (H0 : (0 : Z) = -1 ∨ 0 <= 0 <= i + size (ch :: bs1)) by (right; rewrite size_cons; lia).
  assert (H1 : i + 1 = -1 ∨ 0 <= i + 1 <= i + size (ch :: bs1)) by (right; rewrite size_cons; lia).
  cbn [telnet_loop].
  repeat match goal with
  | |- context [match (if ?b then _ else _) with _ => _ end] => destruct b
  | |- context [if ?b then _ else _] => destruct b
  | |- context [match ?l with [] => _ | _ => _ end] => destruct l eqn:?
  end; cbn [fst]; auto.
  all: eapply IH2; eauto.
Qed.

Lemma memchr_lt c bs : ∀ p, memchr c bs = Some p → (p < length bs)%nat.
Proof.
  induction bs as [|d bs IH]; intros p; cbn [memchr length]; [easy|].
  destruct (d =? c); [intros [= <-]; lia|]. destruct (memchr c bs) as [q|]; [|easy].
  intros [= <-]. specialize (IH q eq_refl). lia.
Qed.

Lemma read_resp_num_consumes bs min max err r :
  read_resp_num bs min max err = Some r →
  match r with
  | NumReturn n _ => n = -1 ∨ n = 0
  | NumValue x rest => min <= x <= max ∧ size rest < size bs
  end.
Proof.
  unfold read_resp_num. destruct (memchr 13 bs) as [p|].
  - destruct (drop (S p) bs) as [|c rest] eqn:Ed; [intros [= <-]; auto|].
    assert (Hs : size rest < size bs).
    { pose proof (f_equal length Ed) as Hl. rewrite length_drop in Hl. cbn in Hl. unfold size. lia. }
    destruct (negb (c =? 10)); [intros [= <-]; auto|]. unfold read_num.
    destruct (strtoll_mem bs) as [[[x errno] n]|]; [|easy]. cbn [mbind option_bind].
    destruct (negb errno && _ && _ && _) eqn:E; intros [= <-]; [|auto].
    rewrite !andb_true_iff, !Z.leb_le in E. split; [lia|easy].
  - intros [= <-]. destruct (_ <? _); auto.
Qed.

Lemma resp_loop_consumes n : ∀ bs start args r,
  0 <= start → resp_loop n bs start args = Some r → r.1.1 = -1 ∨ 0 <= r.1.1 <= start + size bs.
Proof.
  induction n as [|n IH]; intros bs start args r Hst; cbn [resp_loop]; pose proof (size_nonneg bs) as Hs.
  { intros [= <-]. cbn. lia. }
  destruct bs as [|ch bs1]; [intros [= <-]; cbn; lia|].
  destruct (negb (ch =? 36)); [intros [= <-]; cbn; lia|].
  destruct bs1 as [|c bs1]; [intros [= <-]; cbn; lia|].
  destruct (read_resp_num (c :: bs1) 0 MAXARGSZ err_argsz) as [[k err|nbytes rest]|] eqn:E;
    [| |easy]; cbn [mbind option_bind]; apply read_resp_num_consumes in E.
  { intros [= <-]. cbn. lia. }
  destruct E as [Hn Hrest]. destruct (size rest <? nbytes + 2) eqn:El; [intros [= <-]; cbn; lia|].
  apply Z.ltb_ge in El. set (bs2 := drop _ rest).
  assert (Hb : size bs2 <= size rest) by (unfold bs2, size; rewrite length_drop; lia).
  intros H%IH.
  - rewrite (size_cons ch) in *. lia.
  - rewrite (size_cons ch) in *. lia.
Qed.

Lemma parse_resp_consumes data r : parse_resp data = Some r → consumes data r.1.1.
Proof.
  unfold parse_resp, consumes. pose proof (size_nonneg data) as Hs. destruct data as [|ch bs1]; [intros [= <-]; cbn; lia|].
  destruct (negb (ch =? 42)); [intros [= <-]; cbn; lia|].
  destruct bs1 as [|c bs1]; [intros [= <-]; cbn; lia|].
  destruct (read_resp_num _ _ _ _) as [[k err|n rest]|] eqn:E; [| |easy]; cbn [mbind option_bind];
    apply read_resp_num_consumes in E.
  { intros [= <-]. cbn. lia. }
  destruct E as [_ Hrest]. intros H%resp_loop_consumes; rewrite (size_cons ch) in *; lia.
Qed.

(** ** Memcache *)

Lemma mc_words_consumes bs : ∀ n word last args r,
  0 <= n → mc_words bs n word last args = Some r → r.1 = 0 ∨ n < r.1 <= n + size bs.
Proof.
  induction bs as [|ch bs IH]; intros n word last args r Hn; cbn [mc_words].
  { intros [= <-]. now left. }
  rewrite size_cons. pose proof (size_nonneg bs) as Hs.
  destruct (ch =? 32); [intros H%IH; lia|]. destruct (ch =? 10); [|intros H%IH; lia].
  destruct (last =? 13); [destruct word; [easy|]|]; intros [= <-]; cbn; lia.
Qed.

(** Where the memcache parser leaves a client after an error. *)
Definition mc_consumes (data : bytes) (r : mc_result) : Prop :=
  mr_n r = -1 ∧ (∃ k, mr_last r = Some k ∧ 1 <= k <= size data) ∨ 0 <= mr_n r <= size data.

Lemma mc_read_value_consumes data n x :
  0 <= x → 1 <= n →
  match mc_read_value data n x with
  | ValueMore => True
  | ValueBad k | Value _ k => 1 <= k <= size data
  end.
Proof.
  intros Hx Hn. unfold mc_read_value. destruct (_ <? _) eqn:E; [easy|]. apply Z.ltb_ge in E.
  destruct (_ && _); lia.
Qed.

(** Runs through the branches of an operation that may fail. *)
Ltac branches H :=
  repeat (cbn [mbind option_bind] in H; match type of H with
  | None = Some _ => discriminate H
  | Some _ = Some _ => injection H as H; try subst
  | mbind _ ?o = _ => destruct o eqn:?; [|discriminate H]
  | context [match ?x with _ => _ end] => destruct x eqn:?; try discriminate H
  end).

Lemma mc_store_consumes cmd data n args noreply r :
  1 <= n <= size data → mc_store cmd data n args noreply = Some r → mc_consumes data r.
Proof.
  intros Hn H. unfold mc_store in H.
  destruct (mc_valid_key args 1) as [[|]|]; [|injection H as <-; left; cbn; eauto|easy]. cbn [mbind option_bind negb] in H.
  destruct (argi64 args 2) as [[ok2 x2]|]; [|easy]. cbn [mbind option_bind] in H.
  destruct (negb ok2 || _); [injection H as <-; left; cbn; eauto|].
  destruct (argi64 args 3) as [[ok3 x3]|]; [|easy]. cbn [mbind option_bind] in H.
  destruct (negb ok3); [injection H as <-; left; cbn; eauto|].
  destruct (argi64 args 4) as [[ok x]|]; [|easy]. cbn [mbind option_bind] in H.
  destruct (negb ok || (x <? 0) || (MAXARGSZ <? x)) eqn:Ex; [injection H as <-; left; cbn; eauto|].
  apply orb_false_iff in Ex as [[_ Ex]%orb_false_iff _]. apply Z.ltb_ge in Ex.
  match type of H with mbind _ ?o = _ => destruct o as [[casok cas]|]; [|easy] end. cbn [mbind option_bind] in H.
  destruct (negb casok); [injection H as <-; left; cbn; eauto|].
  pose proof (mc_read_value_consumes data n x Ex ltac:(lia)) as Hv.
  destruct (mc_read_value data n x) as [|k|v k].
  - injection H as <-. right. cbn. lia.
  - injection H as <-. left. cbn. eauto.
  - set (args' := if bool_decide (cmd = MC_CAS) then take (length args - 1) args else args) in H.
    destruct (args' !! 1%nat); [|easy]. destruct (args' !! 2%nat); [|easy].
    destruct (args' !! 3%nat); [|easy]. cbn [mbind option_bind] in H. injection H as <-. right. cbn. lia.
Qed.

Lemma mc_command_consumes cmd data n args noreply r :
  1 <= n <= size data → mc_command cmd n args noreply = Some r → mc_consumes data r.
Proof.
  intros Hn H. unfold mc_command in H.
  assert (Hok : ∀ a e nr, mc_consumes data (McResult n a e nr (Some n))) by (intros; right; cbn; lia).
  assert (Hbad : ∀ a e nr, mc_consumes data (McResult (-1) a e nr (Some n))) by (intros; left; cbn; eauto).
  destruct cmd; branches H; auto.
Qed.

Lemma mc_general_consumes data n args r :
  1 <= n <= size data → mc_general data n args = Some r → mc_consumes data r.
Proof.
  intros Hn H. unfold mc_general in H. destruct (args !! 0%nat) as [name|]; [|easy].
  cbn [mbind option_bind] in H. set (cmd := mc_lookup name) in *.
  destruct (bool_decide (cmd = MC_UNKNOWN)); [injection H as <-; left; cbn; eauto|].
  match type of H with mbind _ ?o = _ => destruct o as [[args' noreply]|]; [|easy] end. cbn [mbind option_bind] in H.
  destruct (is_mc_store_cmd cmd); [|now apply (mc_command_consumes cmd data n args' noreply)].
  destruct (_ && _); [injection H as <-; left; cbn; eauto|]. now apply mc_store_consumes in H.
Qed.

Lemma parse_memcache_consumes data r : parse_memcache data = Some r → mc_consumes data r.
Proof.
  unfold parse_memcache. destruct (parse_memcache_telnet data) as [[n args]|] eqn:E; [|easy].
  cbn [mbind option_bind]. apply mc_words_consumes in E; [|lia]. cbn [fst] in E. pose proof (size_nonneg data).
  destruct ((n <=? 0) || (length args =? 0)%nat) eqn:E0; [intros [= <-]; right; cbn; lia|].
  apply orb_false_iff in E0 as [E0%Z.leb_gt _]. assert (Hn : 1 <= n <= size data) by lia.
  assert (Hget : ∀ key, mc_consumes data (mc_get2 n args key)).
  { intros key. unfold mc_get2. destruct (negb _); [left; cbn; eauto|right; cbn; lia]. }
  assert (Hset : ∀ key ex len, mc_consumes data (mc_set5 data n args key ex len)).
  { intros key ex len. unfold mc_set5. destruct (negb _); [left; cbn; eauto|].
    destruct (_ && _); [left; cbn; eauto|]. destruct (parse_i64 len) as [ok x].
    destruct (negb ok || (x <? 0) || (MAXARGSZ <? x)) eqn:Ex; [left; cbn; eauto|].
    apply orb_false_iff in Ex as [[_ Ex]%orb_false_iff _]. apply Z.ltb_ge in Ex.
    pose proof (mc_read_value_consumes data n x Ex ltac:(lia)) as Hv.
    destruct (mc_read_value data n x); [right; cbn; lia|left; cbn; eauto|right; cbn; lia]. }
  pose proof (mc_general_consumes data n) as Hg. pose proof (mc_store_consumes MC_SET data n) as Hs.
  intros Hr. destruct args as [|a1 [|a2 [|a3 [|a4 [|a5 [|a6 args]]]]]]; try (now eapply Hg; eauto).
  - destruct (bytes_const_eq a1 (str "get")); [injection Hr as <-; auto|now eapply Hg; eauto].
  - destruct (bytes_const_eq a1 (str "set")); [|now eapply Hg; eauto].
    destruct (is_zero_arg a3); [injection Hr as <-; auto|now eapply Hs; eauto].
Qed.

(** ** HTTP *)

Lemma parse_http_consumes useauth auth data : consumes data (hr_n (parse_http useauth auth data)).
Proof.
  pose proof (size_nonneg data) as Hs. unfold consumes, parse_http, http_body.
  repeat match goal with
  | |- context [match ?x with _ => _ end] => destruct x
  end; cbn [hr_n]; lia.
Qed.

(** ** The entry point *)

(** What a parser owes to its caller. The section is generic in the Postgres
    parser, which [Conn.v] takes from its interface; [PostgresProofs.v] shows
    that the parser of [Postgres.v] consumes as assumed here, and states the
    result for it. *)
Definition progress (data : bytes) (r : parse_result) : Prop :=
  consumes data (pr_n r) ∧
  (pr_n r = -1 → pr_proto r = PROTO_MEMCACHE → ∃ k, pr_mc_n r = Some k ∧ 1 <= k <= size data).

Section Progress.

Context (useauth : bool) (auth : bytes) {PG : Type} (parse_postgres : PG → bytes → option (parsed * PG)).
Context (pg_consumes : ∀ pg data r pg', parse_postgres pg data = Some (r, pg') → consumes data r.1.1).

Lemma parse_proto_progress p pg data r pg' :
  parse_proto useauth auth parse_postgres p pg data = Some (r, pg') →
  progress data r ∧ pr_proto r = p.
Proof.
  unfold progress. destruct p; cbn [parse_proto].
  - intros [= <- <-]. repeat split; [now left|easy].
  - destruct (parse_memcache data) as [m|] eqn:E; [|easy]. intros [= <- <-]. cbn.
    apply parse_memcache_consumes in E. unfold consumes.
    destruct E as [[-> (k & -> & Hk)]|Hn]; repeat split; [now left|eauto|right; easy|lia].
  - destruct (parse_postgres pg data) as [[[[n args] err] pg1]|] eqn:E; [|easy]. intros [= <- <-].
    apply pg_consumes in E. now repeat split.
  - intros [= <- <-]. repeat split; [apply parse_http_consumes|easy].
  - destruct (head data) as [c|]; [|easy]. cbn [mbind option_bind].
    destruct (c =? 42).
    + destruct (parse_resp data) as [[[n args] err]|] eqn:E; [|easy]. intros [= <- <-].
      apply parse_resp_consumes in E. now repeat split.
    + intros [= <- <-]. pose proof (telnet_loop_consumes data 0 false 0 [] [] ltac:(lia)) as Ht.
      unfold parse_resp_telnet. destruct (telnet_loop _ _ _ _ _ _) as [[n args] err]. now repeat split.
Qed.

Lemma parse_command_progress p pg data r pg' :
  parse_command useauth auth parse_postgres p pg data = Some (r, pg') → progress data r.
Proof.
  unfold parse_command. destruct (decide (p = PROTO_NONE)) as [->|Hp].
  - destruct (sniff_proto data) as [q|]; [|easy]. cbn [mbind option_bind].
    destruct (decide (q = PROTO_NONE)) as [->|Hq].
    + intros [= <- <-]. repeat split; [now left|easy].
    + now intros [H _]%parse_proto_progress.
  - now intros [H _]%parse_proto_progress.
Qed.

End Progress.

(** ** What sniffing gets wrong *)

Lemma first_line_none data : 10 ∉ data → first_line data = 0.
Proof.
  intros Hn. unfold first_line. replace (memchr 10 data) with (@None nat); [easy|]. symmetry.
  induction data as [|d data IH]; cbn [memchr]; [easy|]. apply not_elem_of_cons in Hn as [Hd Hn].
  rewrite (proj2 (Z.eqb_neq _ _)) by easy. now rewrite IH.
Qed.

Lemma trim_spaces_run n : ∀ k, trim_spaces (repeat 32 n) k = (k + Z.of_nat n, []).
Proof.
  induction n as [|n IH]; intros k; cbn [repeat trim_spaces]; [f_equal; lia|].
  cbn [Z.eqb Pos.eqb]. rewrite IH. f_equal. lia.
Qed.

(** The first packet of a connection is sniffed as if it held a whole line. A
    client of the inline, memcache or HTTP protocol whose first packet ends
    before the first line feed is refused with an error at once, where the
    parser should ask for more; and a first packet of spaces only makes the
    loop that skips them read past the packet. *)
Theorem sniff_partial_line useauth auth {PG} (parse_postgres : PG → bytes → option (parsed * PG))
    pg c data n :
  c ∉ [42; 0; 32] → 10 ∉ c :: data →
  parse_command useauth auth parse_postgres PROTO_NONE pg (c :: data) =
    Some (ParseResult (-1) [] (str "ERROR") PROTO_NONE false 0 false None, pg) ∧
  parse_command useauth auth parse_postgres PROTO_NONE pg (repeat 32 (S n)) = None.
Proof.
  intros Hc Hn. rewrite !not_elem_of_cons in Hc. destruct Hc as (H42 & H0 & H32 & _).
  unfold parse_command. rewrite !decide_True by easy. split.
  - replace (sniff_proto (c :: data)) with (Some PROTO_NONE); [easy|]. symmetry. unfold sniff_proto.
    rewrite first_line_none by easy. cbn [Z.leb Z.compare andb trim_spaces].
    rewrite (proj2 (Z.eqb_neq c 32)) by easy.
    destruct c as [|p|p]; [easy| |easy]. repeat (destruct p; try easy).
  - replace (sniff_proto (repeat 32 (S n))) with (@None proto); [easy|].
    change (repeat 32 (S n)) with (32 :: repeat 32 n). unfold sniff_proto.
    rewrite first_line_none.
    + change (32 :: repeat 32 n) with (repeat 32 (S n)). now rewrite trim_spaces_run.
    + change (32 :: repeat 32 n) with (repeat 32 (S n)). intros Hin%list_elem_of_In%repeat_spec. easy.
Qed.

Lemma sniff_partial_line_witness :
  pr_err <$> (fst <$> parse_command false [] (λ (pg : unit) _, None) PROTO_NONE tt (str "GET k")) = Some (str "ERROR").
Proof.
  destruct (sniff_partial_line false [] (λ (pg : unit) _, None) tt 71 (str "ET k") 0) as [H _].
  - apply (bool_decide_unpack _). vm_compute. exact I.
  - apply (bool_decide_unpack _). vm_compute. exact I.
  - change (str "GET k") with (71 :: str "ET k"). rewrite H. reflexivity.
Defined.
