(* ===== verification/Conn.v ===== *)
(** * Conn: a client connection and what the server writes to it

    [src/src/conn.c], and the Postgres replies of [src/src/postgres.c]. A
    connection keeps its protocol, the bytes that arrived and are not yet a
    whole command, and the state of the Postgres side; the output of the
    network layer is the list of bytes written so far. C strings are their
    bytes without the terminator. Counters of statistics are left out. *)

From S2P Require Import Prelude Util Resp Memcache Http Parse.

(** ** The state *)

(** [struct pg_statement] and [struct pg_portal], without their names. *)
Record pg_statement := PgStatement { stmt_args : list bytes; stmt_argtypes : bytes; stmt_nparams : Z }.
Record pg_portal := PgPortal { portal_stmt : bytes; portal_params : list bytes }.

(** The fields of [struct pg] that only the parser uses; the maps of prepared
    statements and portals are finite maps from their names. *)
Record pg_own := PgOwn {
  pg_statements : gmap bytes pg_statement; pg_portals : gmap bytes pg_portal; pg_targs : list bytes;
  pg_user : bytes; pg_database : bytes; pg_application_name : bytes
}.

(** [struct pg]. The code allocates it with the first message, before anything
    reads it. *)
Record pg := Pg {
  pg_ssl : bool; pg_startup : bool; pg_auth : bool; pg_ready : bool; pg_error : bool;
  pg_describe : bool; pg_parse : bool; pg_bind : bool; pg_execute : bool; pg_close : bool;
  pg_sync : bool; pg_empty_query : bool; pg_desc : option bytes; pg_oid : Z; pg_parser : pg_own
}.

Definition TEXTOID : Z := 25.
Definition BYTEAOID : Z := 17.

Definition pg_new : pg :=
  Pg false false false false false false false false false false false false None TEXTOID
    (PgOwn ∅ ∅ [] [] [] []).

(** [struct conn] with the parts of [struct net_conn] it uses: the output, the
    closed flag, the background work that is pending (of type [J]) and whether
    the connection is encrypted. *)
Record conn (J : Type) := Conn {
  c_out : bytes; c_closed : bool; c_bg : option J; c_tls : bool;
  c_packet : bytes; c_proto : proto; c_auth : bool; c_noreply : bool; c_keepalive : bool;
  c_httpvers : Z; c_args : list bytes; c_pg : pg
}.
Arguments Conn {J}. Arguments c_out {J}. Arguments c_closed {J}. Arguments c_bg {J}.
Arguments c_tls {J}. Arguments c_packet {J}. Arguments c_proto {J}. Arguments c_auth {J}.
Arguments c_noreply {J}. Arguments c_keepalive {J}. Arguments c_httpvers {J}.
Arguments c_args {J}. Arguments c_pg {J}.

Definition ERR_WRONG_NUM_ARGS : bytes := str "ERR wrong number of arguments".
Definition ERR_SYNTAX_ERROR : bytes := str "ERR syntax error".
Definition ERR_INVALID_INTEGER : bytes := str "ERR value is not an integer or out of range".
Definition ERR_OUT_OF_MEMORY : bytes := str "ERR out of memory".

Definition crlf : bytes := [13; 10].

(** [strstr(s, p) == s]. *)
Definition starts (s p : bytes) : bool := bool_decide (take (length p) s = p).

Section Conn.
Context {J : Type}.
Implicit Types c : conn J.

(** [evopened]. *)
Definition conn_open (tls : bool) : conn J :=
  Conn [] false None tls [] PROTO_NONE false false false 0 [] pg_new.

Definition set_out c (out : bytes) : conn J :=
  Conn out (c_closed c) (c_bg c) (c_tls c) (c_packet c) (c_proto c) (c_auth c) (c_noreply c)
    (c_keepalive c) (c_httpvers c) (c_args c) (c_pg c).
Definition set_bg c (bg : option J) : conn J :=
  Conn (c_out c) (c_closed c) bg (c_tls c) (c_packet c) (c_proto c) (c_auth c) (c_noreply c)
    (c_keepalive c) (c_httpvers c) (c_args c) (c_pg c).
Definition set_packet c (packet : bytes) : conn J :=
  Conn (c_out c) (c_closed c) (c_bg c) (c_tls c) packet (c_proto c) (c_auth c) (c_noreply c)
    (c_keepalive c) (c_httpvers c) (c_args c) (c_pg c).
Definition set_args c (args : list bytes) : conn J :=
  Conn (c_out c) (c_closed c) (c_bg c) (c_tls c) (c_packet c) (c_proto c) (c_auth c) (c_noreply c)
    (c_keepalive c) (c_httpvers c) args (c_pg c).
Definition set_pg c (p : pg) : conn J :=
  Conn (c_out c) (c_closed c) (c_bg c) (c_tls c) (c_packet c) (c_proto c) (c_auth c) (c_noreply c)
    (c_keepalive c) (c_httpvers c) (c_args c) p.

Definition conn_setauth c (ok : bool) : conn J :=
  Conn (c_out c) (c_closed c) (c_bg c) (c_tls c) (c_packet c) (c_proto c) ok (c_noreply c)
    (c_keepalive c) (c_httpvers c) (c_args c) (c_pg c).
Definition conn_close c : conn J :=
  Conn (c_out c) true (c_bg c) (c_tls c) (c_packet c) (c_proto c) (c_auth c) (c_noreply c)
    (c_keepalive c) (c_httpvers c) (c_args c) (c_pg c).

(** What [parse_command] sets. *)
Definition set_parsed c (r : parse_result) (p : pg) : conn J :=
  Conn (c_out c) (c_closed c) (c_bg c) (c_tls c) (c_packet c) (pr_proto r) (c_auth c) (pr_noreply r)
    (pr_keepalive r) (pr_httpvers r) (pr_args r) p.

(** [conn_bgwork] and [net_conn_bgwork]: refused while there is work or after
    the connection is closed. Whether the thread starts is not known to the
    code: [pthread_create] never returns the -1 it tests for. *)
Definition conn_bgwork c (job : J) : bool * conn J :=
  match c_bg c with
  | Some _ => (false, c)
  | None => if c_closed c then (false, c) else (true, set_bg c (Some job))
  end.

(** ** Writers *)

Definition conn_write_raw c (data : bytes) : conn J := set_out c (c_out c ++ data).
Definition conn_write_raw_cstr c (cstr : bytes) : conn J := conn_write_raw c cstr.

(** [writeln]. The loop after the write replaces control characters from the
    index [mark] of the output up to the index [len], the length of the line. *)
Definition writeln c (ch : Z) (data : bytes) : conn J :=
  let mark := (length (c_out c) + 1)%nat in
  let out := c_out c ++ [ch] ++ data ++ crlf in
  let len := length data in
  set_out c (take mark out ++
    ((λ b, if b <? 32 then 32 else b) <$> take (len - mark) (drop mark out)) ++
    drop (mark + (len - mark)) out).

Definition conn_write_string c (cstr : bytes) : conn J := writeln c 43 cstr.
Definition conn_write_null c : conn J := conn_write_raw c (str "$-1" ++ crlf).
Definition conn_write_bulk c (data : bytes) : conn J :=
  conn_write_raw c ([36] ++ u64toa (size data) ++ crlf ++ data ++ crlf).
Definition conn_write_bulk_cstr c (cstr : bytes) : conn J := conn_write_bulk c cstr.
Definition conn_write_array c (count : Z) : conn J := writeln c 42 (u64toa count).

Definition conn_write_uint c (value : Z) : conn J :=
  if decide (c_proto c = PROTO_MEMCACHE) then conn_write_raw c (u64toa value)
  else writeln c 43 (u64toa value).
Definition conn_write_int c (value : Z) : conn J :=
  if decide (c_proto c = PROTO_MEMCACHE) then conn_write_raw c (i64toa value)
  else writeln c 58 (i64toa value).

(** [conn_write_http]. The head fits the buffer of 512 bytes for every status
    the code writes. *)
Definition conn_write_http c (code : Z) (status body : bytes) : conn J :=
  let c := conn_write_raw c
    (str "HTTP/1.1 " ++ i64toa code ++ [32] ++ status ++ crlf ++
     str "Content-Length: " ++ u64toa (size body) ++ crlf ++
     str "Connection: Close" ++ crlf ++ crlf) in
  if 0 <? size body then conn_write_raw c body else c.

(** ** Postgres messages *)

(** Big endian integers of 32 and 16 bits. *)
Definition write_i32 (x : Z) : bytes :=
  [(u32 x .>> 24) .& 255; (u32 x .>> 16) .& 255; (u32 x .>> 8) .& 255; u32 x .& 255].
Definition u16 (x : Z) : Z := x mod 2 ^ 16.
Definition write_i16 (x : Z) : bytes := [(u16 x .>> 8) .& 255; u16 x .& 255].

Definition pg_write_auth c (code : Z) : conn J := conn_write_raw c [82; 0; 0; 0; 8; 0; 0; 0; code].

Definition pg_write_ready c (code : Z) : conn J :=
  if negb (pg_execute (c_pg c)) then conn_write_raw c [90; 0; 0; 0; 5; code] else c.

Definition pg_write_status c (key val : bytes) : conn J :=
  conn_write_raw c ([83] ++ write_i32 (4 + size key + 1 + size val + 1) ++
    key ++ [0] ++ val ++ [0]).

(** The description of one column. *)
Definition pg_field (oid : Z) (field : bytes) : bytes :=
  field ++ [0] ++ write_i32 0 ++ write_i16 0 ++ write_i32 oid ++ write_i16 (-1) ++
  write_i32 (-1) ++ write_i16 1.

Definition pg_write_row_desc c (fields : list bytes) : conn J :=
  let body := concat (pg_field (pg_oid (c_pg c)) <$> fields) in
  conn_write_raw c ([84] ++ write_i32 (4 + 2 + size body) ++
    write_i16 (Z.of_nat (length fields)) ++ body).

Definition pg_write_row_data c (cols : list bytes) : conn J :=
  let body := concat ((λ col, write_i32 (size col) ++ col) <$> cols) in
  conn_write_raw c ([68] ++ write_i32 (4 + 2 + size body) ++
    write_i16 (Z.of_nat (length cols)) ++ body).

Definition pg_write_complete c (tag : bytes) : conn J :=
  conn_write_raw c ([67] ++ write_i32 (4 + size tag + 1) ++ tag ++ [0]).

(** [pg_write_completef] and the like: the formatted tag is cut at 126 bytes. *)
Definition pg_write_completef c (tag : bytes) : conn J := pg_write_complete c (take 126 tag).

Definition pg_write_simple_row_data_ready c (desc row tag : bytes) : conn J :=
  let c := pg_write_row_desc c [desc] in
  let c := pg_write_row_data c [row] in
  let c := pg_write_complete c tag in
  pg_write_ready c 73.
Definition pg_write_simple_row_str_ready c (desc row tag : bytes) : conn J :=
  pg_write_simple_row_data_ready c desc row tag.
Definition pg_write_simple_row_i64_ready c (desc : bytes) (row : Z) (tag : bytes) : conn J :=
  pg_write_simple_row_str_ready c desc (i64toa row) tag.
Definition pg_write_simple_row_str_readyf c (desc row tag : bytes) : conn J :=
  pg_write_simple_row_str_ready c desc row (take 126 tag).

Definition pg_write_error c (msg : bytes) : conn J :=
  let body := str "SERROR" ++ [0] ++ str "VERROR" ++ [0] ++ str "C23505" ++ [0] ++
              [77] ++ msg ++ [0] ++ [0] in
  conn_write_raw c ([69] ++ write_i32 (4 + size body) ++ body).

(** ** Errors *)

Definition httplink : bytes := str "https://github.com/tidwall/pogocache".

Definition HELPPAGE_HTML : bytes :=
  str "<html>" ++ [10] ++ str "<head>" ++ [10] ++ str "<title>Pogocache</title>" ++ [10] ++
  str "</head>" ++ [10] ++ str "<body>" ++ [10] ++
  str "<h2>Welcome to the Pogocache HTTP interface.</h2>" ++ [10] ++
  str "Visit <a href=" ++ [34] ++ httplink ++ [34; 62] ++ httplink ++ str "</a> " ++
  str "for documentation and examples." ++ [10] ++ str "</body>" ++ [10] ++ str "</html>" ++ [10].

Definition HELPPAGE_TEXT : bytes :=
  str "Welcome to the Pogocache HTTP interface." ++ [10] ++
  str "Visit " ++ httplink ++ str " for documentation and examples." ++ [10].

Definition write_error c (err : bytes) (server : bool) : conn J :=
  let is_err := starts err (str "ERR ") in
  match c_proto c with
  | PROTO_MEMCACHE =>
      if is_err then
        conn_write_raw c ((if server then str "SERVER_ERROR " else str "CLIENT_ERROR ") ++
          drop 4 err ++ crlf)
      else if server then conn_write_raw c (str "SERVER_ERROR " ++ err ++ crlf)
      else if starts err (str "CLIENT_ERROR ") then conn_write_raw c (err ++ crlf)
      else conn_write_raw c (str "ERROR" ++ crlf)
  | PROTO_POSTGRES =>
      let err := if is_err then drop 4 err else err in
      pg_write_ready (pg_write_error c err) 73
  | PROTO_HTTP =>
      let err := if is_err then drop 4 err else err in
      if bool_decide (err = str "Show Help HTML") then conn_write_http c 200 (str "OK") HELPPAGE_HTML
      else if bool_decide (err = str "Show Help TEXT") then
        conn_write_http c 200 (str "OK") HELPPAGE_TEXT
      else if bool_decide (err = str "Method Not Allowed") then
        conn_write_http c 405 (str "Method Not Allowed") (str "Method Not Allowed" ++ crlf)
      else if bool_decide (err = str "Unauthorized") then
        conn_write_http c 401 (str "Unauthorized") (str "Unauthorized" ++ crlf)
      else if bool_decide (err = str "Bad Request") then
        conn_write_http c 400 (str "Bad Request") (str "Bad Request" ++ crlf)
      else
        conn_write_http c 500 (str "Internal Server Error") (str "ERR " ++ err ++ crlf)
  | _ => writeln c 45 err
  end.

Definition conn_write_error c (err : bytes) : conn J :=
  write_error c err (bool_decide (err = ERR_OUT_OF_MEMORY)).

(** ** The Postgres side of a connection *)

(** The updates of the flags of [struct pg]. *)
Definition pg_clear_empty_query (p : pg) : pg :=
  Pg (pg_ssl p) (pg_startup p) (pg_auth p) (pg_ready p) (pg_error p) (pg_describe p) (pg_parse p)
    (pg_bind p) (pg_execute p) (pg_close p) (pg_sync p) false (pg_desc p) (pg_oid p) (pg_parser p).
Definition pg_clear_parse (p : pg) : pg :=
  Pg (pg_ssl p) (pg_startup p) (pg_auth p) (pg_ready p) (pg_error p) (pg_describe p) false
    (pg_bind p) (pg_execute p) (pg_close p) (pg_sync p) (pg_empty_query p) (pg_desc p) (pg_oid p) (pg_parser p).
Definition pg_clear_bind (p : pg) : pg :=
  Pg (pg_ssl p) (pg_startup p) (pg_auth p) (pg_ready p) (pg_error p) (pg_describe p) (pg_parse p)
    false (pg_execute p) (pg_close p) (pg_sync p) (pg_empty_query p) (pg_desc p) (pg_oid p) (pg_parser p).
Definition pg_clear_describe (p : pg) : pg :=
  Pg (pg_ssl p) (pg_startup p) (pg_auth p) (pg_ready p) (pg_error p) false (pg_parse p)
    (pg_bind p) (pg_execute p) (pg_close p) (pg_sync p) (pg_empty_query p) None (pg_oid p) (pg_parser p).
Definition pg_clear_execute (p : pg) : pg :=
  Pg (pg_ssl p) (pg_startup p) (pg_auth p) (pg_ready p) (pg_error p) (pg_describe p) (pg_parse p)
    (pg_bind p) false (pg_close p) (pg_sync p) (pg_empty_query p) (pg_desc p) (pg_oid p) (pg_parser p).
Definition pg_clear_sync (p : pg) : pg :=
  Pg (pg_ssl p) (pg_startup p) (pg_auth p) (pg_ready p) (pg_error p) (pg_describe p) (pg_parse p)
    (pg_bind p) (pg_execute p) (pg_close p) false (pg_empty_query p) (pg_desc p) (pg_oid p) (pg_parser p).
Definition pg_clear_close (p : pg) : pg :=
  Pg (pg_ssl p) (pg_startup p) (pg_auth p) (pg_ready p) (pg_error p) (pg_describe p) (pg_parse p)
    (pg_bind p) (pg_execute p) false (pg_sync p) (pg_empty_query p) (pg_desc p) (pg_oid p) (pg_parser p).
Definition pg_clear_ssl (p : pg) : pg :=
  Pg false (pg_startup p) (pg_auth p) (pg_ready p) (pg_error p) (pg_describe p) (pg_parse p)
    (pg_bind p) (pg_execute p) (pg_close p) (pg_sync p) (pg_empty_query p) (pg_desc p) (pg_oid p) (pg_parser p).
Definition pg_clear_auth (p : pg) : pg :=
  Pg (pg_ssl p) (pg_startup p) false (pg_ready p) (pg_error p) (pg_describe p) (pg_parse p)
    (pg_bind p) (pg_execute p) (pg_close p) (pg_sync p) (pg_empty_query p) (pg_desc p) (pg_oid p) (pg_parser p).
Definition pg_clear_startup (p : pg) : pg :=
  Pg (pg_ssl p) false (pg_auth p) (pg_ready p) (pg_error p) (pg_describe p) (pg_parse p)
    (pg_bind p) (pg_execute p) (pg_close p) (pg_sync p) (pg_empty_query p) (pg_desc p) (pg_oid p) (pg_parser p).
Definition pg_set_ready (p : pg) : pg :=
  Pg (pg_ssl p) (pg_startup p) (pg_auth p) true (pg_error p) (pg_describe p) (pg_parse p)
    (pg_bind p) (pg_execute p) (pg_close p) (pg_sync p) (pg_empty_query p) (pg_desc p) (pg_oid p) (pg_parser p).
Definition pg_set_oid (p : pg) (oid : Z) : pg :=
  Pg (pg_ssl p) (pg_startup p) (pg_auth p) (pg_ready p) (pg_error p) (pg_describe p) (pg_parse p)
    (pg_bind p) (pg_execute p) (pg_close p) (pg_sync p) (pg_empty_query p) (pg_desc p) oid (pg_parser p).

Definition write_auth_ok (version : bytes) c : conn J :=
  let c := pg_write_auth c 0 in
  let c := pg_write_status c (str "client_encoding") (str "UTF8") in
  let c := pg_write_status c (str "server_encoding") (str "UTF8") in
  let c := pg_write_status c (str "server_version") (take 127 (version ++ str " (Pogocache)")) in
  let c := pg_write_ready c 73 in
  set_pg c (pg_set_ready (c_pg c)).

(** [pg_respond]; [lasterr] is the last error of the parser. [None] is the
    failed assertion that there is a description. *)
Definition pg_respond (auth version lasterr : bytes) c : option (bool * conn J) :=
  let p := c_pg c in
  if pg_error p then Some (true, conn_write_error c lasterr)
  else if pg_empty_query p then
    let c := conn_write_raw c [73; 0; 0; 0; 4] in
    let c := conn_write_raw c [90; 0; 0; 0; 5; 73] in
    Some (true, set_pg c (pg_clear_empty_query p))
  else if pg_parse p then
    Some (true, set_pg (conn_write_raw c [49; 0; 0; 0; 4]) (pg_clear_parse p))
  else if pg_bind p then
    Some (true, set_pg (conn_write_raw c [50; 0; 0; 0; 4]) (pg_clear_bind p))
  else if pg_describe p then
    desc ← pg_desc p;
    Some (true, set_pg (conn_write_raw c desc) (pg_clear_describe p))
  else if pg_sync p then
    let c := set_pg c (pg_clear_execute p) in
    let c := pg_write_ready c 73 in
    Some (true, set_pg c (pg_clear_sync (c_pg c)))
  else if pg_close p then Some (false, set_pg c (pg_clear_close p))
  else if pg_ssl p then
    let c := conn_write_raw_cstr c (if c_tls c then str "Y" else str "N") in
    Some (true, set_pg c (pg_clear_ssl p))
  else if pg_auth p then
    if negb (pg_startup p) then Some (false, c)
    else
      let c := conn_setauth c true in
      let c := write_auth_ok version c in
      Some (true, set_pg c (pg_clear_auth (c_pg c)))
  else if pg_startup p then
    if 0 <? size auth then Some (true, pg_write_auth c 3)
    else
      let c := write_auth_ok version c in
      Some (true, set_pg c (pg_clear_startup (c_pg c)))
  else Some (true, c).

(** [argeq]: an argument against a lower case name. *)
Definition argeq (args : list bytes) (i : nat) (name : bytes) : bool :=
  match args !! i with Some a => argeq_bytes a name | None => false end.

(** [pg_precommand]: whether the command still has to be executed. *)
Definition pg_precommand c : bool * conn J :=
  let args := c_args c in
  let done tag := (false, pg_write_ready (pg_write_completef c tag) 73) in
  match args with
  | (ch :: name) :: rest =>
      let low := tolower (schar ch) in
      if (low =? 98) && argeq args 0 (str "begin") then done (str "BEGIN")
      else if ((low =? 98) || (low =? 114) || (low =? 99)) && argeq args 0 (str "rollback") then
        done (str "ROLLBACK")
      else if ((low =? 98) || (low =? 114) || (low =? 99)) && argeq args 0 (str "commit") then
        done (str "COMMIT")
      else if (low =? 58) && bool_decide (head name = Some 58) then
        let oid :=
          if argeq args 0 (str "::bytea") || argeq args 0 (str "::bytes") then Some BYTEAOID
          else if argeq args 0 (str "::text") then Some TEXTOID else None in
        match oid with
        | None =>
            let err := take 127 (str "unknown type '" ++ c_str (drop 1 name) ++ str "'") in
            (false, pg_write_ready (pg_write_error c err) 73)
        | Some oid =>
            let c := set_args (set_pg c (pg_set_oid (c_pg c) oid)) rest in
            match rest with
            | [] =>
                let tag := if oid =? BYTEAOID then str "BYTEA" else str "TEXT" in
                (false, pg_write_ready (pg_write_completef c tag) 73)
            | _ => (true, c)
            end
        end
      else (true, c)
  | _ => (true, c)
  end.

End Conn.

(** ** The event handler *)

(** What the event handler relies on: the configuration, the parser of the
    Postgres messages, and the commands, which act on a state [W]. *)
Class Server (W J : Type) := {
  sv_useauth : bool;
  sv_auth : bytes;
  sv_version : bytes;
  sv_parse_postgres : pg → bytes → option (parsed * pg);
  sv_evcommand : W → conn J → option (W * conn J)
}.

Section Events.
Context {W J : Type} `{Server W J}.

(** The body of the loop of [evdata] after a command was parsed: what the turn
    does with the connection, how many bytes it consumed, and whether the loop
    goes on to advance. *)
Inductive turn := Break (w : W) (c : conn J) | Advance (w : W) (c : conn J) (n : Z).

Definition ev_turn (w : W) (c : conn J) (r : parse_result) : option turn :=
  let n := pr_n r in
  if n =? 0 then Some (Break w c)
  else if n =? -1 then
    let c := conn_write_error c (pr_err r) in
    if decide (c_proto c = PROTO_MEMCACHE) then k ← pr_mc_n r; Some (Advance w c k)
    else Some (Break w (conn_close c))
  else
    match c_args c, c_proto c with
    | [], PROTO_POSTGRES =>
        '(ok, c) ← pg_respond sv_auth sv_version (pr_err r) c;
        if (ok : bool) then Some (Advance w c n) else Some (Break w (conn_close c))
    | [], PROTO_MEMCACHE => Some (Advance w (conn_write_error c (str "ERROR")) n)
    | [], PROTO_HTTP => None
    | [], _ => Some (Advance w c n)
    | _, PROTO_POSTGRES =>
        if negb (pg_ready (c_pg c)) then Some (Break w (conn_close c))
        else
          let '(go, c) := pg_precommand c in
          if go then '(w, c) ← sv_evcommand w c; Some (Advance w c n)
          else Some (Advance w c n)
    | _, _ => '(w, c) ← sv_evcommand w c; Some (Advance w c n)
    end.

(** How the loop of [evdata] ends: with the bytes that are left; with undefined
    behaviour or a failed assertion; or not at all within the turns given. *)
Inductive loop_end := Ended (w : W) (c : conn J) (rest : bytes) | LoopUndefined | Endless.

(** The loop of [evdata]. *)
Fixpoint ev_loop (fuel : nat) (w : W) (c : conn J) (data : bytes) : loop_end :=
  if (length data =? 0)%nat || c_closed c then Ended w c data
  else
    match fuel with
    | O => Endless
    | S fuel =>
        match parse_command sv_useauth sv_auth sv_parse_postgres (c_proto c) (c_pg c) data with
        | None => LoopUndefined
        | Some (r, p) =>
            match ev_turn w (set_parsed c r p) r with
            | None => LoopUndefined
            | Some (Break w c) => Ended w c data
            | Some (Advance w c n) =>
                let data := drop (Z.to_nat n) data in
                match c_bg c with
                | Some _ => Ended w c data
                | None =>
                    let c := if decide (c_proto c = PROTO_HTTP) then conn_close c else c in
                    ev_loop fuel w c data
                end
            end
        end
    end.

(** [evdata] with the bytes that arrived. What is left over is kept in the
    packet. The loop has as many turns as there are bytes, which is enough
    ([PostgresProofs.evdata_ends]). *)
Definition evdata (w : W) (c : conn J) (ev : bytes) : option (W * conn J) :=
  if c_closed c then Some (w, conn_close c)
  else
    let data := c_packet c ++ ev in
    let c := if (length (c_packet c) =? 0)%nat then c else set_packet c data in
    match ev_loop (length data) w c data with
    | Ended w c rest => if c_closed c then Some (w, conn_close c) else Some (w, set_packet c rest)
    | LoopUndefined | Endless => None
    end.

End Events.
