(* ===== verification/ConnProofs.v ===== *)
(** * ConnProofs: the event loop of a connection

    The loop of [evdata] makes progress with every turn; however the network
    cuts a stream of Redis commands into packets, exactly these commands are
    executed, in order; what the writers produce can be read back. *)

From S2P Require Import Prelude Util Resp RespProofs Memcache Http Parse ParseProofs Conn.

(** ** Writers append *)

(** A writer adds to the output and touches nothing else. *)
Definition appends {J} (c c' : conn J) : Prop := ∃ bs, c' = set_out c (c_out c ++ bs).

Create HintDb writes.

Section Writers.
Context {J : Type}.
Implicit Types c : conn J.

Lemma appends_refl c : appends c c.
Proof. exists []. rewrite app_nil_r. now destruct c. Qed.

Lemma appends_trans c1 c2 c3 : appends c1 c2 → appends c2 c3 → appends c1 c3.
Proof. intros [b1 ->] [b2 ->]. exists (b1 ++ b2). cbn. now rewrite app_assoc. Qed.

Lemma appends_raw c0 c data : appends c0 c → appends c0 (conn_write_raw c data).
Proof. intros H. apply (appends_trans _ c); [easy|]. now exists data. Qed.

(** The bytes [writeln] adds. *)
Definition line_bytes (ch : Z) (data : bytes) (mark : nat) : bytes :=
  [ch] ++ ((λ b, if b <? 32 then 32 else b) <$> take (length data - mark) data) ++
  drop (length data - mark) data ++ crlf.

Lemma writeln_line c ch data :
  writeln c ch data = set_out c (c_out c ++ line_bytes ch data (length (c_out c) + 1)).
Proof.
  unfold writeln, line_bytes. f_equal. set (out := c_out c). set (k := (length data - _)%nat).
  assert (Hk : (k <= length data)%nat) by (unfold k; lia).
  assert (Hm : ∀ X : bytes, take (length out + 1) (out ++ ch :: X) = out ++ [ch]).
  { intros X. change (ch :: X) with ([ch] ++ X). rewrite app_assoc. apply take_app_length'.
    rewrite length_app. cbn. lia. }
  assert (Hd : ∀ X : bytes, drop (length out + 1) (out ++ ch :: X) = X).
  { intros X. change (ch :: X) with ([ch] ++ X). rewrite app_assoc. apply drop_app_length'.
    rewrite length_app. cbn. lia. }
  cbn [app]. rewrite <- (drop_drop _ k (length out + 1)), !Hm, !Hd, <- app_assoc. cbn [app].
  now rewrite (take_app_le data crlf k Hk), (drop_app_le data crlf k Hk).
Qed.

Lemma appends_writeln c0 c ch data : appends c0 c → appends c0 (writeln c ch data).
Proof. intros H. apply (appends_trans _ c); [easy|]. rewrite writeln_line. eexists. reflexivity. Qed.

Lemma appends_if c0 (b : bool) c1 c2 :
  appends c0 c1 → appends c0 c2 → appends c0 (if b then c1 else c2).
Proof. now destruct b. Qed.

Lemma appends_decide c0 P `{Decision P} c1 c2 :
  appends c0 c1 → appends c0 c2 → appends c0 (if decide P then c1 else c2).
Proof. now destruct (decide P). Qed.

Hint Resolve appends_refl appends_raw appends_writeln appends_if appends_decide : writes.

Lemma appends_http c0 c code status body : appends c0 c → appends c0 (conn_write_http c code status body).
Proof. intros. unfold conn_write_http. auto 6 with writes. Qed.

Lemma appends_ready c0 c code : appends c0 c → appends c0 (pg_write_ready c code).
Proof. intros. unfold pg_write_ready. auto with writes. Qed.

Hint Resolve appends_http appends_ready : writes.

Lemma appends_simple_row c0 c desc row tag :
  appends c0 c → appends c0 (pg_write_simple_row_data_ready c desc row tag).
Proof.
  intros. unfold pg_write_simple_row_data_ready, pg_write_complete, pg_write_row_data, pg_write_row_desc.
  auto 6 with writes.
Qed.

Lemma appends_error c0 c err : appends c0 c → appends c0 (conn_write_error c err).
Proof.
  intros. unfold conn_write_error, write_error, pg_write_error.
  destruct (c_proto c); repeat apply appends_if; auto 6 with writes.
Qed.

Lemma appends_int c0 c x : appends c0 c → appends c0 (conn_write_int c x).
Proof. intros. unfold conn_write_int. auto with writes. Qed.

Lemma appends_uint c0 c x : appends c0 c → appends c0 (conn_write_uint c x).
Proof. intros. unfold conn_write_uint. auto with writes. Qed.

Lemma appends_proto c c' : appends c c' → c_proto c' = c_proto c.
Proof. now intros [bs ->]. Qed.

End Writers.

#[export] Hint Resolve appends_refl appends_raw appends_writeln appends_if appends_decide
  appends_http appends_ready appends_simple_row appends_error appends_int appends_uint : writes.

(** ** Progress *)

Section Progress.
Context {W J : Type} `{Server W J}.

(** What the parser of the Postgres messages owes to the loop. *)
Definition pg_consumes : Prop :=
  ∀ p data r p', sv_parse_postgres p data = Some (r, p') → consumes data r.1.1.

(** Every turn that goes on consumes some of the data. *)
Lemma ev_turn_progress w c r p data t :
  pg_consumes → parse_command sv_useauth sv_auth sv_parse_postgres (c_proto c) (c_pg c) data = Some (r, p) →
  ev_turn w (set_parsed c r p) r = Some t →
  match t with Break _ _ => True | Advance _ _ n => 1 <= n <= size data end.
Proof.
  intros Hpg Hp Ht. apply (parse_command_progress _ _ _ Hpg) in Hp as [Hn Hmc]. unfold ev_turn in Ht.
  destruct (pr_n r =? 0) eqn:E0; [now injection Ht as <-|]. destruct (pr_n r =? -1) eqn:E1.
  - zb. cbn zeta in Ht. destruct (decide _) as [Ep|Ep]; [|now injection Ht as <-].
    assert (Ep' : pr_proto r = PROTO_MEMCACHE).
    { rewrite <- Ep. symmetry. apply (appends_proto (set_parsed c r p)). auto with writes. }
    destruct (Hmc E1 Ep') as (k & Hk & Hb). rewrite Hk in Ht. now injection Ht as <-.
  - zb. assert (Hb : 1 <= pr_n r <= size data) by (destruct Hn; lia).
    destruct (c_args (set_parsed c r p)) as [|a args], (c_proto (set_parsed c r p)); try easy;
      branches Ht; easy.
Qed.

Lemma ev_loop_fuel f1 : ∀ f2 w c data,
  pg_consumes → (length data <= f1)%nat → (length data <= f2)%nat →
  ev_loop f1 w c data ≠ Endless ∧ ev_loop f1 w c data = ev_loop f2 w c data.
Proof.
  induction f1 as [|f1 IH]; intros f2 w c data Hpg H1 H2.
  { destruct data; [|cbn in H1; lia]. now destruct f2. }
  destruct f2 as [|f2]; [destruct data; [easy|cbn in H2; lia]|]. cbn [ev_loop].
  destruct (_ || _) eqn:Ed; [easy|].
  destruct (parse_command _ _ _ _ _ _) as [[r p]|] eqn:Ep; [|easy].
  destruct (ev_turn w (set_parsed c r p) r) as [t|] eqn:Et; [|easy].
  pose proof (ev_turn_progress _ _ _ _ _ _ Hpg Ep Et) as Ht. destruct t as [w' c'|w' c' n]; [easy|].
  destruct (c_bg c'); [easy|]. apply IH; [easy| |]; rewrite length_drop; unfold size in Ht; lia.
Qed.

End Progress.

(** ** Streams of Redis commands *)

(** What a client and the commands see of a connection: all but the packet and
    what the last run of the parser left behind. *)
Definition erase {J} (c : conn J) : conn J :=
  Conn (c_out c) (c_closed c) (c_bg c) (c_tls c) [] PROTO_RESP (c_auth c) false false 0 [] (c_pg c).

Definition same_conn {J} (c c' : conn J) : Prop := erase c = erase c'.

#[export] Instance same_conn_equivalence {J} : Equivalence (@same_conn J).
Proof. unfold same_conn. split; [easy|easy|congruence]. Qed.

(** What the event loop needs to know about the commands: they do not depend on
    the packet and do not touch it, nor the protocol. *)
Class ServerOk (W J : Type) `{Server W J} := {
  evcommand_packet w c w' c' p :
    sv_evcommand w c = Some (w', c') → sv_evcommand w (set_packet c p) = Some (w', set_packet c' p);
  evcommand_proto w c w' c' : sv_evcommand w c = Some (w', c') → c_proto c' = c_proto c
}.

Section Streams.
Context {W J : Type} `{ServerOk W J}.

(** One Redis command on a connection. *)
Definition exec (w : W) (c : conn J) (args : list bytes) : option (W * conn J) :=
  sv_evcommand w (set_parsed c (plain_result PROTO_RESP (0, args, [])) (c_pg c)).

(** A list of commands, up to the one that closes the connection. *)
Fixpoint run (w : W) (c : conn J) (cmds : list (list bytes)) : option (W * conn J) :=
  match cmds with
  | [] => Some (w, c)
  | args :: cmds =>
      if c_closed c then Some (w, c)
      else '(w, c) ← exec w c args; run w c cmds
  end.

(** Packets, one after the other. *)
Fixpoint feed (w : W) (c : conn J) (chunks : list bytes) : option (W * conn J) :=
  match chunks with
  | [] => Some (w, c)
  | chunk :: chunks => '(w, c) ← evdata w c chunk; feed w c chunks
  end.

(** Results that agree on everything but the packet and the parser's fields. *)
Definition same_result (r1 r2 : option (W * conn J)) : Prop :=
  match r1, r2 with
  | Some (w1, c1), Some (w2, c2) => w1 = w2 ∧ same_conn c1 c2
  | None, None => True
  | _, _ => False
  end.

#[export] Instance same_result_equivalence : Equivalence same_result.
Proof.
  split.
  - intros [[w c]|]; cbn; [split; [easy|reflexivity]|easy].
  - intros [[w1 c1]|] [[w2 c2]|]; cbn; easy.
  - intros [[w1 c1]|] [[w2 c2]|] [[w3 c3]|]; cbn; try easy. intros [-> Hc] [-> Hd].
    split; [easy|now transitivity c2].
Qed.

Lemma evcommand_none w c p : sv_evcommand w c = None → sv_evcommand w (set_packet c p) = None.
Proof.
  intros Hn. destruct (sv_evcommand w (set_packet c p)) as [[w' c']|] eqn:E; [|easy].
  apply (evcommand_packet _ _ _ _ (c_packet c)) in E.
  replace (set_packet (set_packet c p) (c_packet c)) with c in E by now destruct c. congruence.
Qed.

(** Commands act alike on connections that look alike. *)
#[export] Instance exec_proper : Proper (eq ==> same_conn ==> eq ==> same_result) exec.
Proof.
  intros w ? <- c1 c2 Hc args ? <-. unfold exec.
  set (d1 := set_parsed c1 _ _). set (d2 := set_parsed c2 _ _).
  assert (Hd : d2 = set_packet d1 (c_packet c2)).
  { unfold d1, d2. destruct c1, c2. unfold same_conn, erase in Hc. cbn in Hc.
    injection Hc as -> -> -> -> -> ->. reflexivity. }
  rewrite Hd. destruct (sv_evcommand w d1) as [[w' c']|] eqn:E.
  - now rewrite (evcommand_packet _ _ _ _ _ E).
  - now rewrite (evcommand_none _ _ _ E).
Qed.

Lemma same_closed (c1 c2 : conn J) : same_conn c1 c2 → c_closed c1 = c_closed c2.
Proof. intros Hc. exact (f_equal c_closed Hc). Qed.

Lemma run_closed w c cmds : c_closed c = true → run w c cmds = Some (w, c).
Proof. intros Hc. destruct cmds; cbn [run]; [easy|]. now rewrite Hc. Qed.

#[export] Instance run_proper : Proper (eq ==> same_conn ==> eq ==> same_result) run.
Proof.
  intros w ? <- c1 c2 Hc cmds ? <-. revert w c1 c2 Hc.
  induction cmds as [|args cmds IH]; intros w c1 c2 Hc; cbn [run]; [easy|].
  rewrite <- (same_closed _ _ Hc). destruct (c_closed c1); [easy|].
  pose proof (exec_proper w w eq_refl c1 c2 Hc args args eq_refl) as He.
  destruct (exec w c1 args) as [[w1 d1]|], (exec w c2 args) as [[w2 d2]|]; try easy.
  destruct He as [-> Hd]. cbn [mbind option_bind]. now apply IH.
Qed.

(** A command that can be sent. *)
Definition sendable (args : list bytes) : Prop :=
  args ≠ [] ∧ nargs args <= MAXARGS ∧ Forall arg_fits args.

Definition stream (cmds : list (list bytes)) : bytes := concat (resp_command <$> cmds).

(** The connection is open, has no work in the background and speaks Redis, or
    has said nothing yet. *)
Record resp_conn (c : conn J) : Prop := {
  rc_closed : c_closed c = false;
  rc_bg : c_bg c = None;
  rc_proto : c_proto c = PROTO_NONE ∨ c_proto c = PROTO_RESP
}.

(** The parser of a connection that speaks Redis. *)
Lemma parse_command_resp c data :
  resp_conn c → head data = Some 42 →
  parse_command sv_useauth sv_auth sv_parse_postgres (c_proto c) (c_pg c) data =
  r ← parse_resp data; Some (plain_result PROTO_RESP r, c_pg c).
Proof.
  intros [_ _ [Hp|Hp]] Hd; rewrite Hp; unfold parse_command; cbn [decide];
    destruct data as [|d data]; try easy; cbn in Hd; injection Hd as ->.
  - reflexivity.
  - reflexivity.
Qed.

Lemma resp_command_head args : head (resp_command args) = Some 42 ∧ resp_command args ≠ [].
Proof. easy. Qed.

(** None of the commands that are run starts background work. *)
Fixpoint no_bg (w : W) (c : conn J) (cmds : list (list bytes)) : Prop :=
  match cmds with
  | [] => True
  | args :: cmds =>
      if c_closed c then True
      else
        match exec w c args with
        | Some (w, c) => c_bg c = None ∧ no_bg w c cmds
        | None => True
        end
  end.

Lemma no_bg_same cmds : ∀ w c1 c2, same_conn c1 c2 → no_bg w c1 cmds → no_bg w c2 cmds.
Proof.
  induction cmds as [|args cmds IH]; intros w c1 c2 Hc; cbn [no_bg]; [easy|].
  rewrite <- (same_closed _ _ Hc). destruct (c_closed c1); [easy|].
  pose proof (exec_proper w w eq_refl c1 c2 Hc args args eq_refl) as He.
  destruct (exec w c1 args) as [[w1 d1]|], (exec w c2 args) as [[w2 d2]|]; try easy.
  destruct He as [-> Hd]. intros [Hb Hn]. split; [|now apply (IH _ d1)].
  rewrite <- Hb. symmetry. exact (f_equal c_bg Hd).
Qed.

Lemma no_bg_app cmds1 : ∀ w c cmds2,
  no_bg w c (cmds1 ++ cmds2) →
  no_bg w c cmds1 ∧ match run w c cmds1 with Some (w1, c1) => no_bg w1 c1 cmds2 | None => True end.
Proof.
  induction cmds1 as [|args cmds1 IH]; intros w c cmds2; cbn [no_bg app run]; [easy|].
  destruct (c_closed c) eqn:Ec; [intros _; split; [easy|]; destruct cmds2; cbn [no_bg]; [easy|]; now rewrite Ec|].
  destruct (exec w c args) as [[w1 c1]|]; cbn [mbind option_bind]; [|easy].
  intros [Hb Hn]. destruct (IH _ _ _ Hn) as [H1 H2]. auto.
Qed.

(** The loop on whole commands followed by a part of one. *)
Lemma ev_loop_stream cmds : ∀ fuel w c next k part,
  Forall sendable (next :: cmds) → no_bg w c cmds → resp_conn c →
  (k < length (resp_command next))%nat → part = take k (resp_command next) →
  (length (stream cmds ++ part) <= fuel)%nat →
  match run w c cmds with
  | None => ev_loop fuel w c (stream cmds ++ part) = LoopUndefined
  | Some (w1, c1) => ∃ c2 rest, ev_loop fuel w c (stream cmds ++ part) = Ended w1 c2 rest ∧
      same_conn c2 c1 ∧ (c_closed c1 = false → rest = part ∧ c_packet c2 = c_packet c ∧ resp_conn c2)
  end.
Proof.
  induction cmds as [|args cmds IH]; intros fuel w c next k part Hs Hq Hc Hk Hpart Hf.
  - cbn [run stream concat fmap list_fmap app] in *. destruct k as [|k].
    { cbn in Hpart. subst part. exists c, []. split; [now destruct fuel|]. split; [reflexivity|easy]. }
    assert (Hh : head part = Some 42) by now subst part.
    destruct fuel as [|fuel]; [destruct part; [easy|cbn in Hf; lia]|]. cbn [ev_loop].
    rewrite (rc_closed _ Hc). replace (length part =? 0)%nat with false by now destruct part.
    cbn [orb]. rewrite parse_command_resp by easy.
    inversion_clear Hs as [|? ? (_ & Hn & Hfit) _].
    destruct (parse_resp_more next (S k) Hn Hfit Hk) as [acc Hp]. rewrite <- Hpart in Hp. rewrite Hp.
    cbn [mbind option_bind]. eexists _, part. split; [reflexivity|].
    split; [reflexivity|]. intros _. split; [easy|]. split; [easy|]. split; [apply Hc|apply Hc|now right].
  - change (stream (args :: cmds)) with (resp_command args ++ stream cmds) in *.
    rewrite <- app_assoc in *. set (data := stream cmds ++ part) in *.
    inversion Hs as [|? ? Hnext Hs']; subst. inversion_clear Hs' as [|? ? (Hne & Hn & Hfit) Hrest].
    cbn [no_bg] in Hq. rewrite (rc_closed _ Hc) in Hq.
    destruct (resp_command_head args) as [Hh Hl0].
    assert (Hl : (0 < length (resp_command args))%nat) by (destruct (resp_command args); [easy|cbn; lia]).
    rewrite length_app in Hf. destruct fuel as [|fuel]; [lia|]. cbn [ev_loop run].
    rewrite (rc_closed _ Hc), length_app, (proj2 (Nat.eqb_neq _ _)) by lia. cbn [orb].
    rewrite parse_command_resp by (easy || now destruct (resp_command args)).
    rewrite parse_resp_whole by easy. cbn [mbind option_bind].
    unfold ev_turn. cbn [pr_n plain_result].
    assert (Hsz : 0 < size (resp_command args)) by (unfold size; lia).
    rewrite !(proj2 (Z.eqb_neq (size (resp_command args)) _)) by lia.
    destruct args as [|a args]; [easy|].
    cbn [c_args c_proto set_parsed pr_args pr_proto plain_result]. set (args' := a :: args) in *.
    change (exec w c args') with (sv_evcommand w (set_parsed c (plain_result PROTO_RESP (0, args', [])) (c_pg c))).
    change (set_parsed c (ParseResult (size (resp_command args')) args' [] PROTO_RESP false 0 false None) (c_pg c))
      with (set_parsed c (plain_result PROTO_RESP (0, args', [])) (c_pg c)).
    unfold exec in Hq.
    set (d := set_parsed c (plain_result PROTO_RESP (0, args', [])) (c_pg c)) in *.
    destruct (sv_evcommand w d) as [[w1 c1]|] eqn:E; cbn [mbind option_bind]; [|easy].
    destruct Hq as [Hbg Hqs].
    assert (Hpr : c_proto c1 = PROTO_RESP) by exact (evcommand_proto _ _ _ _ E).
    assert (Hpk : c_packet c1 = c_packet c).
    { pose proof (evcommand_packet _ _ _ _ (c_packet c) E) as Ep.
      replace (set_packet d (c_packet c)) with d in Ep by now destruct c. rewrite E in Ep.
      injection Ep as Ep. rewrite Ep. now destruct c1. }
    rewrite Hbg, Hpr, decide_False by easy.
    replace (drop (Z.to_nat (size (resp_command args'))) (resp_command args' ++ data)) with data
      by (unfold size; now rewrite Nat2Z.id, drop_app_length).
    destruct (c_closed c1) eqn:Ecl.
    + rewrite run_closed by easy. exists c1, data. split; [|split; [reflexivity|congruence]].
      unfold data. destruct fuel as [|fuel]; cbn [ev_loop]; rewrite Ecl, orb_true_r; easy.
    + specialize (IH fuel w1 c1 next k _ (Forall_cons_2 _ _ _ Hnext Hrest) Hqs
        (Build_resp_conn c1 Ecl Hbg (or_intror Hpr)) Hk eq_refl). fold data in IH.
      specialize (IH ltac:(lia)). destruct (run w1 c1 cmds) as [[w2 c2]|]; [|exact IH].
      destruct IH as (c3 & rest & H1 & H2 & H3). exists c3, rest. rewrite <- Hpk. auto.
Qed.

(** What a prefix of a stream consists of. *)
Definition next_command (cmds : list (list bytes)) : list bytes := default [[65]] (head cmds).

Lemma next_sendable cmds : Forall sendable cmds → sendable (next_command cmds).
Proof.
  intros Hs. destruct Hs as [|args cmds Ha _]; cbn; [|easy].
  split; [easy|]. split; [vm_compute; congruence|]. constructor; [|constructor]. vm_compute. congruence.
Qed.

Lemma split_stream cmds : ∀ d d',
  d ++ d' = stream cmds → ∃ cmds1 cmds2 k, cmds = cmds1 ++ cmds2 ∧
    (k < length (resp_command (next_command cmds2)))%nat ∧
    d = stream cmds1 ++ take k (resp_command (next_command cmds2)) ∧
    take k (resp_command (next_command cmds2)) ++ d' = stream cmds2.
Proof.
  induction cmds as [|args cmds IH]; intros d d' Hd.
  - exists [], [], 0%nat. apply app_nil in Hd as [-> ->]. split; [easy|]. split; [vm_compute; lia|easy].
  - change (stream (args :: cmds)) with (resp_command args ++ stream cmds) in Hd.
    destruct (decide (length d < length (resp_command args))%nat) as [Hlt|Hge].
    + exists [], (args :: cmds), (length d).
      assert (Hp : d = take (length d) (resp_command args)).
      { apply (f_equal (take (length d))) in Hd. rewrite take_app_length, take_app_le in Hd by lia. exact Hd. }
      change (next_command (args :: cmds)) with args. split; [easy|]. split; [easy|].
      split; [exact Hp|]. rewrite <- Hp. exact Hd.
    + assert (Hp : d = resp_command args ++ drop (length (resp_command args)) d).
      { rewrite <- (take_drop (length (resp_command args)) d) at 1. f_equal.
        apply (f_equal (take (length (resp_command args)))) in Hd.
        rewrite take_app_length, take_app_le in Hd by lia. exact Hd. }
      rewrite Hp, <- app_assoc in Hd. apply app_inv_head in Hd.
      destruct (IH _ _ Hd) as (cmds1 & cmds2 & k & -> & Hk & H1 & H2).
      exists (args :: cmds1), cmds2, k. split; [easy|]. split; [easy|]. split; [|easy].
      rewrite Hp, H1. apply app_assoc.
Qed.

Lemma run_app cmds1 : ∀ w c cmds2,
  run w c (cmds1 ++ cmds2) = ('(w, c) ← run w c cmds1; run w c cmds2).
Proof.
  induction cmds1 as [|args cmds1 IH]; intros w c cmds2; cbn [run app]; [easy|].
  destruct (c_closed c) eqn:E; [cbn; now rewrite run_closed|].
  destruct (exec w c args) as [[w1 c1]|]; cbn [mbind option_bind]; [apply IH|easy].
Qed.

Lemma feed_closed chunks : ∀ w c, c_closed c = true → ∃ c', feed w c chunks = Some (w, c') ∧ same_conn c' c.
Proof.
  induction chunks as [|chunk chunks IH]; intros w c Hc; cbn [feed]; [now exists c|].
  unfold evdata. rewrite Hc. cbn [mbind option_bind]. destruct (IH w (conn_close c)) as (c' & -> & H1); [easy|].
  exists c'. split; [easy|]. rewrite H1. unfold same_conn, erase. cbn. now rewrite Hc.
Qed.

(** One packet that completes the commands [cmds] and ends within the next. *)
Lemma evdata_stream w c cmds next k chunk :
  Forall sendable (next :: cmds) → no_bg w c cmds → resp_conn c → (k < length (resp_command next))%nat →
  c_packet c ++ chunk = stream cmds ++ take k (resp_command next) →
  match run w c cmds with
  | None => evdata w c chunk = None
  | Some (w1, c1) => ∃ c2, evdata w c chunk = Some (w1, c2) ∧ same_conn c2 c1 ∧
      (c_closed c1 = false → resp_conn c2 ∧ c_packet c2 = take k (resp_command next))
  end.
Proof.
  intros Hs Hq Hc Hk Hd. unfold evdata. rewrite (rc_closed _ Hc), Hd.
  set (d := if (length (c_packet c) =? 0)%nat then c else set_packet c _).
  assert (Hdc : resp_conn d ∧ same_conn d c).
  { unfold d. destruct (_ =? _)%nat; [easy|]. split; [|easy]. split; apply Hc. }
  destruct Hdc as [Hdr Hdc].
  pose proof (ev_loop_stream cmds (length (stream cmds ++ take k (resp_command next))) w d next k _ Hs
    (no_bg_same _ _ _ _ (symmetry Hdc) Hq) Hdr Hk eq_refl (Nat.le_refl _)) as Hl.
  pose proof (run_proper w w eq_refl d c Hdc cmds cmds eq_refl) as Hrun.
  destruct (run w d cmds) as [[w1 c1]|], (run w c cmds) as [[w1' c1']|]; try easy; [|now rewrite Hl].
  destruct Hrun as [<- Hcc]. destruct Hl as (c2 & rest & -> & Hsame & Hopen). cbn [mbind option_bind].
  rewrite (same_closed _ _ Hsame), <- (same_closed _ _ Hcc). destruct (c_closed c1) eqn:Ecl.
  - exists (conn_close c2). split; [reflexivity|]. split; [|discriminate]. rewrite <- Hcc, <- Hsame. unfold same_conn, erase. cbn.
    now rewrite (same_closed _ _ Hsame), Ecl.
  - destruct (Hopen eq_refl) as (-> & _ & Hc2). eexists. split; [reflexivity|]. split; [rewrite <- Hcc, <- Hsame; reflexivity|].
    intros _. split; [|reflexivity]. split; [rewrite <- (rc_closed _ Hc2)|rewrite <- (rc_bg _ Hc2)|apply Hc2]; easy.
Qed.

(** Any packets, from any point of the stream on. *)
Lemma feed_stream chunks : ∀ w c cmds k,
  Forall sendable cmds → no_bg w c cmds → resp_conn c →
  (k < length (resp_command (next_command cmds)))%nat →
  c_packet c = take k (resp_command (next_command cmds)) →
  c_packet c ++ concat chunks = stream cmds →
  same_result (feed w c chunks) (run w c cmds).
Proof.
  induction chunks as [|chunk chunks IH]; intros w c cmds k Hs Hq Hc Hk Hp Hst; cbn [feed concat] in *.
  - destruct cmds as [|args cmds]; [reflexivity|]. exfalso. apply (f_equal length) in Hst.
    change (stream (args :: cmds)) with (resp_command args ++ stream cmds) in Hst.
    change (next_command (args :: cmds)) with args in *.
    rewrite app_nil_r, Hp, length_take, length_app in Hst. lia.
  - rewrite app_assoc in Hst. destruct (split_stream _ _ _ Hst) as (cmds1 & cmds2 & k' & -> & Hk' & H1 & H2).
    apply Forall_app in Hs as [Hs1 Hs2]. apply no_bg_app in Hq as [Hq1 Hq2].
    pose proof (evdata_stream w c cmds1 (next_command cmds2) k' chunk (Forall_cons_2 _ _ _ (next_sendable _ Hs2) Hs1) Hq1 Hc Hk' H1) as Hev.
    rewrite run_app. destruct (run w c cmds1) as [[w1 c1]|]; [|now rewrite Hev].
    destruct Hev as (c2 & -> & Hsame & Hopen). cbn [mbind option_bind]. destruct (c_closed c1) eqn:Ecl.
    + rewrite run_closed by exact Ecl. destruct (feed_closed chunks w1 c2) as (c3 & -> & H3); [now rewrite (same_closed _ _ Hsame)|].
      split; [easy|]. now rewrite H3.
    + destruct (Hopen eq_refl) as [Hc2 Hp2]. etransitivity; [apply (IH w1 c2 cmds2 k')|]; try easy.
      * exact (no_bg_same _ _ _ _ (symmetry Hsame) Hq2).
      * now rewrite Hp2.
      * now apply run_proper.
Qed.

Lemma segmentation_spec w c cmds chunks :
  resp_conn c → c_packet c = [] → Forall sendable cmds → no_bg w c cmds →
  concat chunks = stream cmds →
  same_result (feed w c chunks) (run w c cmds).
Proof.
  intros Hc Hp Hs Hq Hst. apply (feed_stream chunks w c cmds 0); try easy.
  - destruct (resp_command_head (next_command cmds)) as [_ Hne]. destruct (resp_command _); [easy|cbn; lia].
  - now rewrite Hp.
Qed.

(** C12: However the network cuts a stream of Redis commands into packets, down to
    single bytes, when none of the commands starts background work (as KEYS,
    FLUSHALL, SAVE, LOAD, SWEEP and PURGE do, after which the rest of the packet
    waits for the end of the work), the server executes exactly these commands, in order and
    with the arguments that were sent, and stops at the one that closes the
    connection: what the client sees and the state of the server are those of
    running the commands one after the other. *)
Theorem any_segmentation w c cmds chunks :
  resp_conn c → c_packet c = [] → Forall sendable cmds → no_bg w c cmds →
  concat chunks = stream cmds →
  same_result (feed w c chunks) (run w c cmds).
Proof. apply segmentation_spec. Qed.

End Streams.

(** ** A server that records its commands *)

Definition recorder : Server (list (list bytes)) unit := {|
  sv_useauth := false; sv_auth := []; sv_version := str "1";
  sv_parse_postgres := λ p _, Some ((0, [], []), p);
  sv_evcommand := λ w c, Some (w ++ [c_args c], conn_write_string c (str "OK"))
|}.

Lemma writeln_packet {J} (c : conn J) ch data p :
  writeln (set_packet c p) ch data = set_packet (writeln c ch data) p.
Proof. easy. Qed.

Lemma recorder_ok : @ServerOk _ _ recorder.
Proof. split; [|now intros w c w' c' [= <- <-]]. intros w c w' c' p [= <- <-]. easy. Qed.

Definition ping : list bytes := [str "PING"].
Definition sent : bytes := stream [ping; [str "GET"; [13; 10]]].

Lemma any_segmentation_witness :
  let H := recorder in
  match feed [] (conn_open false) ((λ b, [b]) <$> sent) with
  | Some (w, c) => w = [ping; [str "GET"; [13; 10]]] ∧ c_out c = str "+OK" ++ crlf ++ str "+OK" ++ crlf
  | None => False
  end.
Proof.
  intros H.
  pose proof (@any_segmentation _ _ recorder recorder_ok [] (conn_open false)
    [ping; [str "GET"; [13; 10]]] ((λ b, [b]) <$> sent)) as Hs.
  assert (Hall : Forall sendable [ping; [str "GET"; [13; 10]]]).
  { repeat constructor; try easy; vm_compute; congruence. }
  specialize (Hs ltac:(split; auto) eq_refl Hall ltac:(repeat split) eq_refl).
  destruct (feed _ _ _) as [[w c]|]; [|exact Hs]. destruct Hs as [Hw Hc].
  split; [exact Hw|]. exact (f_equal c_out Hc).
Defined.

(** ** Replies *)

(** A list reply, as [bgkeys_done] writes it. *)
Definition write_list {J} (c : conn J) (l : list bytes) : conn J :=
  foldl conn_write_bulk (conn_write_array c (nargs l)) l.

Lemma digits_clean t : digits t → (λ b, if b <? 32 then 32 else b) <$> t = t.
Proof.
  induction 1 as [|d t Hd _ IH]; [easy|]. rewrite fmap_cons, IH. f_equal.
  apply isdigit_true in Hd. now rewrite (proj2 (Z.ltb_ge _ _)) by lia.
Qed.

Lemma line_digits ch t mark : digits t → line_bytes ch t mark = [ch] ++ t ++ crlf.
Proof.
  intros Ht. unfold line_bytes. rewrite digits_clean by now apply Forall_take.
  now rewrite (app_assoc (take _ t)), take_drop.
Qed.

Lemma write_bulks_out {J} l : ∀ c : conn J, c_out (foldl conn_write_bulk c l) = c_out c ++ resp_bulks l.
Proof.
  induction l as [|a l IH]; intros c; cbn [foldl]; [now rewrite app_nil_r|].
  rewrite IH. unfold conn_write_bulk, conn_write_raw. cbn [c_out set_out].
  now rewrite bulks_cons, <- app_assoc.
Qed.

(** A list the server writes is read back by the parser of the protocol as
    exactly that list, whatever was written before it, whatever bytes its
    elements hold, and whatever follows. *)
Theorem write_list_roundtrip {J} (c : conn J) l rest :
  nargs l <= MAXARGS → Forall arg_fits l →
  ∃ reply, c_out (write_list c l) = c_out c ++ reply ∧
    parse_resp (reply ++ rest) = Some (size reply, l, []).
Proof.
  intros Hn Hf. exists (resp_command l). split; [|now apply parse_resp_whole].
  unfold write_list. rewrite write_bulks_out. unfold conn_write_array. rewrite writeln_line.
  cbn [c_out set_out]. rewrite line_digits.
  - unfold resp_command, crlf. rewrite <- app_assoc. cbn [app]. do 2 f_equal. now rewrite <- app_assoc.
  - apply u64toa_text. unfold MAXARGS in Hn. unfold is_u64, nargs in *. lia.
Qed.

Lemma write_list_roundtrip_witness :
  ∃ reply, c_out (write_list (conn_open (J := unit) false) [[13; 10]; []]) = [] ++ reply ∧
    parse_resp (reply ++ str "+OK") = Some (size reply, [[13; 10]; []], []).
Proof.
  apply (write_list_roundtrip (conn_open (J := unit) false) [[13; 10]; []] (str "+OK")).
  - vm_compute. congruence.
  - repeat constructor; vm_compute; congruence.
Defined.

(** [writeln] does not keep control characters out of a reply: it compares an
    index into the whole output with the length of the line. Once as many
    bytes are pending as the line is long, a CR LF in an error message goes to
    the client as it is and starts a second reply; and even for the first
    reply of a connection the last character of the line is not checked. In
    general only the characters before the last [1 + pending] are. *)
Theorem writeln_control_characters {J} (c : conn J) ch line b :
  let data := line ++ [b] in
  (if size data <=? size (c_out c) + 1
   then c_out (writeln c ch data) = c_out c ++ [ch] ++ data ++ crlf
   else ∃ clean rest, c_out (writeln c ch data) = c_out c ++ [ch] ++ clean ++ rest ++ [b] ++ crlf ∧
     Forall (λ x, 32 <= x) clean ∧ size rest = size (c_out c)).
Proof.
  cbv zeta. rewrite writeln_line. cbn [c_out set_out]. unfold line_bytes.
  set (k := (length (line ++ [b]) - (length (c_out c) + 1))%nat).
  destruct (_ <=? _) eqn:E; zb; unfold size in E.
  - replace k with 0%nat by lia. easy.
  - rewrite length_app in E. cbn [length] in E.
    assert (Hk : k = (length line - length (c_out c))%nat) by (unfold k; rewrite length_app; cbn; lia).
    rewrite take_app_le, drop_app_le by lia. rewrite <- app_assoc. do 2 eexists. split; [reflexivity|]. split.
    + apply Forall_fmap, Forall_forall. intros x _. unfold compose. destruct (x <? 32) eqn:Ex; [lia|].
      now apply Z.ltb_ge in Ex.
    + unfold size. rewrite length_drop. lia.
Qed.
