(* ===== verification/Postgres.v ===== *)
(** * Postgres: the parser of the Postgres wire protocol

    The first part of [src/src/postgres.c]: messages, the text of queries with
    their parameters, prepared statements and portals. [None] is undefined
    behaviour: a message length that makes the parser compute with pointers
    outside the data, or a failed assertion. An argument is the bytes it refers
    to. The maps of statements and portals are finite maps here. *)

From S2P Require Import Prelude Util Resp Memcache Http Parse Conn.

(** ** Reading a message *)

Definition read_i32 (d : bytes) : Z :=
  let x := (nth 0 d 0 .<< 24) .| (nth 1 d 0 .<< 16) .| (nth 2 d 0 .<< 8) .| nth 3 d 0 in
  if x <? 2 ^ 31 then x else x - 2 ^ 32.
Definition read_i16 (d : bytes) : Z :=
  let x := (nth 0 d 0 .<< 8) .| nth 1 d 0 in
  if x <? 2 ^ 15 then x else x - 2 ^ 16.

(** The macros that read from the message: nothing when the function returns -1. *)
Fixpoint parse_cstr (p : bytes) : option (bytes * bytes) :=
  match p with
  | [] => None
  | c :: p => if c =? 0 then Some ([], p) else '(s, p) ← parse_cstr p; Some (c :: s, p)
  end.
Definition parse_int16 (p : bytes) : option (Z * bytes) :=
  if size p <? 2 then None else Some (read_i16 p, drop 2 p).
Definition parse_int32 (p : bytes) : option (Z * bytes) :=
  if size p <? 4 then None else Some (read_i32 p, drop 4 p).
Definition parse_byte (p : bytes) : option (Z * bytes) :=
  match p with c :: p => Some (c, p) | [] => None end.
Definition parse_bytes (p : bytes) (n : Z) : option (bytes * bytes) :=
  if size p <? n then None else Some (take (Z.to_nat n) p, drop (Z.to_nat n) p).
Definition parse_end (p : bytes) : option unit := match p with [] => Some tt | _ => None end.

(** ** Strings in queries *)

(** The argument of a simple string with doubled quotes: the loop of
    [arg_append_unescape_simplestr] counts up to the length of its result, which
    is zero, so that it copies nothing. *)
Fixpoint simplestr_loop (fuel : nat) (str : bytes) (i str2len : Z) (str2 : bytes) : bytes :=
  match fuel with
  | O => str2
  | S fuel =>
      if i <? str2len then
        let i := if (nth (Z.to_nat i) str 0 =? 39) && (nth (Z.to_nat (i + 1)) str 0 =? 39) then i + 1 else i in
        simplestr_loop fuel str (i + 1) (str2len + 1) (str2 ++ [nth (Z.to_nat i) str 0])
      else str2
  end.
Definition unescape_simplestr (str : bytes) : bytes := simplestr_loop (length str) str 0 0 [].

(** [hextoks]. *)
Definition hextok (c : Z) : Z :=
  if (48 <=? c) && (c <=? 57) then c - 48
  else if (65 <=? c) && (c <=? 70) then c - 55
  else if (97 <=? c) && (c <=? 102) then c - 87
  else 0.

Definition decode_hex (s : bytes) : Z :=
  (hextok (nth 0 s 0) .<< 12) .| (hextok (nth 1 s 0) .<< 8) .| (hextok (nth 2 s 0) .<< 4) .| hextok (nth 3 s 0).

Definition is_surrogate (cp : Z) : bool := (55296 <? cp) && (cp <? 57344).

Definition decode_codepoint (cp1 cp2 : Z) : Z :=
  if (55296 <? cp1) && (cp1 <? 56320) && (56320 <? cp2) && (cp2 <? 57344) then
    ((cp1 - 55296) .<< 10) .| ((cp2 - 56320) + 65536)
  else 65533.

Definition encode_codepoint (cp : Z) : bytes :=
  if cp <? 128 then [cp]
  else if cp <? 2048 then [192 .| (cp .>> 6); 128 .| (cp .& 63)]
  else
    let cp := if (1114111 <? cp) || is_surrogate cp then 65533 else cp in
    if cp <? 65536 then [224 .| (cp .>> 12); 128 .| ((cp .>> 6) .& 63); 128 .| (cp .& 63)]
    else [240 .| (cp .>> 18); 128 .| ((cp .>> 12) .& 63); 128 .| ((cp .>> 6) .& 63); 128 .| (cp .& 63)].

(** The characters after a backslash other than [u]. *)
Definition escape_char (c : Z) : option Z :=
  if (c =? 92) || (c =? 47) || (c =? 34) then Some c
  else if c =? 98 then Some 8 else if c =? 102 then Some 12 else if c =? 110 then Some 10
  else if c =? 114 then Some 13 else if c =? 116 then Some 9 else None.

(** The loop of [for_each_utf8]; every round uses a byte. *)
Fixpoint for_each_utf8 (fuel : nat) (p : bytes) : bytes :=
  match fuel, p with
  | O, _ | _, [] => []
  | S fuel, c :: p =>
      if negb (c =? 92) then c :: for_each_utf8 fuel p
      else
        match p with
        | [] => []
        | c :: p =>
            if c =? 117 then
              if size p <? 4 then []
              else
                let cp := decode_hex p in
                let p := drop 4 p in
                let '(cp, p) :=
                  if is_surrogate cp && (6 <=? size p) && (nth 0 p 0 =? 92) && (nth 1 p 0 =? 117) then
                    (decode_codepoint cp (decode_hex (drop 2 p)), drop 6 p)
                  else (cp, p) in
                encode_codepoint cp ++ for_each_utf8 fuel p
            else
              match escape_char c with
              | Some c => c :: for_each_utf8 fuel p
              | None => for_each_utf8 fuel p
              end
        end
  end.
Definition unescape_str (str : bytes) : bytes := for_each_utf8 (length str) str.

(** ** The parameters of a query *)

(** [struct pmap]. *)
Record pmap := PMap { pm_count : Z; pm_buckets : list Z }.

Definition pmap_init : pmap := PMap 0 (repeat 0 8).
Definition pm_nbuckets (m : pmap) : Z := Z.of_nat (length (pm_buckets m)).

(** The first bucket from [i] on that satisfies the test of the loop. *)
Fixpoint pmap_probe (fuel : nat) (stop : Z → bool) (buckets : list Z) (i : Z) : option Z :=
  match fuel with
  | O => None
  | S fuel =>
      if stop (nth (Z.to_nat i) buckets 0) then Some i
      else pmap_probe fuel stop buckets ((i + 1) mod Z.of_nat (length buckets))
  end.

Definition pmap_hash (nbuckets param : Z) : Z := u16 (mix13 param) mod nbuckets.

Definition pmap_insert0 (buckets : list Z) (param : Z) : option (list Z) :=
  i ← pmap_probe (length buckets) (λ b, b =? 0) buckets (pmap_hash (Z.of_nat (length buckets)) param);
  Some (<[Z.to_nat i := param]> buckets).

Fixpoint pmap_rehash (todo : list Z) (buckets2 : list Z) : option (list Z) :=
  match todo with
  | [] => Some buckets2
  | b :: todo =>
      buckets2 ← (if b =? 0 then Some buckets2 else pmap_insert0 buckets2 b);
      pmap_rehash todo buckets2
  end.
Definition pmap_grow (m : pmap) : option pmap :=
  buckets2 ← pmap_rehash (pm_buckets m) (repeat 0 (2 * length (pm_buckets m)));
  Some (PMap (pm_count m) buckets2).

Definition pmap_insert (m : pmap) (param : Z) : option pmap :=
  if param =? 0 then None
  else
    m ← (if pm_count m =? (pm_nbuckets m .>> 1) + (pm_nbuckets m .>> 2) then pmap_grow m else Some m);
    buckets ← pmap_insert0 (pm_buckets m) param;
    Some (PMap (pm_count m + 1) buckets).

Definition pmap_exists (m : pmap) (param : Z) : option bool :=
  i ← pmap_probe (length (pm_buckets m)) (λ b, (b =? 0) || (b =? param)) (pm_buckets m)
        (pmap_hash (pm_nbuckets m) param);
  Some (negb (nth (Z.to_nat i) (pm_buckets m) 0 =? 0)).

(** ** The text of a query *)

(** A simple string: its text, whether quotes are doubled in it, and the query
    from the closing quote on. *)
Fixpoint simple_string (fuel : nat) (p str : bytes) (esc : bool) : bytes * bool * bytes :=
  match fuel, p with
  | S fuel, c :: p' =>
      if c =? 39 then
        match p' with
        | 39 :: p'' => simple_string fuel p'' (str ++ [39; 39]) true
        | _ => (str, esc, p)
        end
      else simple_string fuel p' (str ++ [c]) esc
  | _, _ => (str, esc, p)
  end.

(** The backslashes at the end. *)
Fixpoint backslashes (rev_str : bytes) : nat :=
  match rev_str with
  | c :: l => if c =? 92 then S (backslashes l) else 0
  | [] => 0
  end.

(** An escaped string; [rev_str] is what was read, backwards. *)
Fixpoint escaped_string (p rev_str : bytes) (esc : bool) : bytes * bool * bytes :=
  match p with
  | c :: p' =>
      if c =? 92 then escaped_string p' (c :: rev_str) true
      else if (c =? 39) && Nat.even (backslashes rev_str) then (rev rev_str, esc, p)
      else escaped_string p' (c :: rev_str) esc
  | [] => (rev rev_str, esc, [])
  end.

(** The keyword at the front. *)
Fixpoint keyword_end (p : bytes) : bytes * bytes :=
  match p with
  | c :: p' =>
      if isspace c || (c =? 59) || (c =? 39) || (c =? 34) || (c =? 36) then ([], p)
      else let '(w, r) := keyword_end p' in (c :: w, r)
  | [] => ([], [])
  end.

(** Whether the next argument touches what was read, [*p && !isspace( *p)]. *)
Definition joins (p : bytes) : bool := match p with c :: _ => negb (isspace c) | [] => false end.

(** The arguments and [argtypes] so far, [join] and [esc], and the parameters. *)
Record query := Query { q_args : list bytes; q_types : bytes; q_join : bool; q_esc : bool; q_pmap : pmap }.

Definition q_append (q : query) (arg : bytes) (kind : Z) (esc : bool) (rest : bytes) : query :=
  Query (q_args q ++ [arg]) (q_types q ++ [kind + Z.b2z (q_join q)]) (joins rest) esc (q_pmap q).

Definition err_quoted : bytes := str "unterminated quoted string".

(** The loop of [parse_query_args]: an error, or the arguments and what is left.
    Every round consumes something. [None] when the map of parameters fails. *)
Fixpoint query_loop (fuel : nat) (p : bytes) (q : query) : option (bytes + query * bytes) :=
  match fuel, p with
  | _, [] => Some (inr (q, []))
  | O, _ => None
  | S fuel, c :: p' =>
      let other :=
        if isspace c then query_loop fuel p' q
        else
          let '(w, r) := keyword_end p in
          query_loop fuel (skip_space r) (q_append q w 65 (q_esc q) r) in
      if c =? 59 then Some (inr (q, p))
      else if c =? 34 then Some (inl (str "idenifiers not allowed"))
      else if c =? 39 then
        let '(s, esc, r) := simple_string (length p') p' [] false in
        match r with
        | [] => Some (inl err_quoted)
        | _ :: r => query_loop fuel r (q_append q (if esc then unescape_simplestr s else s) 65 esc r)
        end
      else if c =? 36 then
        match p' with
        | d :: _ =>
            if isdigit d then
              let '(param, _, n) := strtoll p' in
              if (param =? 0) || (65535 <? param) then
                Some (inl (str "there is no parameter $" ++ i64toa param))
              else
                pm ← pmap_insert (q_pmap q) param;
                let r := drop n p' in
                let q := q_append q (c :: take n p') 80 (q_esc q) r in
                query_loop fuel r (Query (q_args q) (q_types q) (q_join q) (q_esc q) pm)
            else Some (inl (str "dollar-quote strings not allowed"))
        | [] => Some (inl (str "dollar-quote strings not allowed"))
        end
      else if (c =? 69) || (c =? 101) then
        match p' with
        | 39 :: p'' =>
            let '(s, esc, r) := escaped_string p'' [] (q_esc q) in
            match r with
            | [] => Some (inl err_quoted)
            | _ :: r => query_loop fuel r (q_append q (if esc then unescape_str s else s) 65 esc r)
            end
        | _ => other
        end
      else other
  end.

(** The check that all parameters from one on are there. *)
Fixpoint check_params (todo : nat) (i : Z) (m : pmap) : option (option bytes) :=
  match todo with
  | O => Some None
  | S todo =>
      e ← pmap_exists m (i + 1);
      if (e : bool) then check_params todo (i + 1) m
      else Some (Some (str "missing parameter $" ++ i64toa (i + 1)))
  end.

(** [parse_query_args] and [parse_cache_query_args]: an error, or the arguments,
    their types and the number of parameters. *)
Definition parse_query_args (text : bytes) : option (bytes + list bytes * bytes * Z) :=
  let p := skip_space text in
  r ← query_loop (length p) p (Query [] [] false false pmap_init);
  match r with
  | inl err => Some (inl err)
  | inr (q, rest) =>
      if negb (forallb (λ c, c =? 59) rest) then Some (inl (str "unexpected characters at end of query"))
      else
        let count := pm_count (q_pmap q) in
        e ← check_params (Z.to_nat count) 0 (q_pmap q);
        match e with
        | Some err => Some (inl err)
        | None => Some (inr (q_args q, q_types q ++ [0], count))
        end
  end.

(** ** Updates of [struct pg] *)

Definition pg_flags (f : pg → bool * bool * bool * bool * bool) (p : pg) : pg :=
  let '(parse, bind, execute, close, sync) := f p in
  Pg (pg_ssl p) (pg_startup p) (pg_auth p) (pg_ready p) (pg_error p) (pg_describe p) parse bind execute close sync
    (pg_empty_query p) (pg_desc p) (pg_oid p) (pg_parser p).
Definition pg_did_parse : pg → pg := pg_flags (λ p, (true, pg_bind p, pg_execute p, pg_close p, pg_sync p)).
Definition pg_did_bind : pg → pg := pg_flags (λ p, (pg_parse p, true, pg_execute p, pg_close p, pg_sync p)).
Definition pg_did_execute : pg → pg := pg_flags (λ p, (pg_parse p, pg_bind p, true, pg_close p, pg_sync p)).
Definition pg_did_close : pg → pg := pg_flags (λ p, (pg_parse p, pg_bind p, pg_execute p, true, pg_sync p)).
Definition pg_did_sync : pg → pg := pg_flags (λ p, (pg_parse p, pg_bind p, pg_execute p, pg_close p, true)).

Definition pg_set_error (b : bool) (p : pg) : pg :=
  Pg (pg_ssl p) (pg_startup p) (pg_auth p) (pg_ready p) b (pg_describe p) (pg_parse p) (pg_bind p) (pg_execute p)
    (pg_close p) (pg_sync p) (pg_empty_query p) (pg_desc p) (pg_oid p) (pg_parser p).
Definition pg_set_empty_query (p : pg) : pg :=
  Pg (pg_ssl p) (pg_startup p) (pg_auth p) (pg_ready p) (pg_error p) (pg_describe p) (pg_parse p) (pg_bind p)
    (pg_execute p) (pg_close p) (pg_sync p) true (pg_desc p) (pg_oid p) (pg_parser p).
Definition pg_set_desc (describe : bool) (desc : bytes) (p : pg) : pg :=
  Pg (pg_ssl p) (pg_startup p) (pg_auth p) (pg_ready p) (pg_error p) describe (pg_parse p) (pg_bind p) (pg_execute p)
    (pg_close p) (pg_sync p) (pg_empty_query p) (Some desc) (pg_oid p) (pg_parser p).
Definition pg_set_login (ssl startup auth : bool) (p : pg) : pg :=
  Pg ssl startup auth (pg_ready p) (pg_error p) (pg_describe p) (pg_parse p) (pg_bind p) (pg_execute p)
    (pg_close p) (pg_sync p) (pg_empty_query p) (pg_desc p) (pg_oid p) (pg_parser p).
Definition pg_set_own (o : pg_own) (p : pg) : pg :=
  Pg (pg_ssl p) (pg_startup p) (pg_auth p) (pg_ready p) (pg_error p) (pg_describe p) (pg_parse p) (pg_bind p)
    (pg_execute p) (pg_close p) (pg_sync p) (pg_empty_query p) (pg_desc p) (pg_oid p) o.

Definition set_statements (m : gmap bytes pg_statement) (o : pg_own) : pg_own :=
  PgOwn m (pg_portals o) (pg_targs o) (pg_user o) (pg_database o) (pg_application_name o).
Definition set_portals (m : gmap bytes pg_portal) (o : pg_own) : pg_own :=
  PgOwn (pg_statements o) m (pg_targs o) (pg_user o) (pg_database o) (pg_application_name o).
Definition set_targs (l : list bytes) (o : pg_own) : pg_own :=
  PgOwn (pg_statements o) (pg_portals o) l (pg_user o) (pg_database o) (pg_application_name o).

Definition PGNAMEDATALEN : Z := 64.

(** [statement_get] and [portal_get]. *)
Definition statement_get (p : pg) (name : bytes) : option pg_statement :=
  if PGNAMEDATALEN <=? size name then None else pg_statements (pg_parser p) !! name.
Definition portal_get (p : pg) (name : bytes) : option pg_portal :=
  if PGNAMEDATALEN <=? size name then None else pg_portals (pg_parser p) !! name.

(** [statement_insert] and [portal_insert]. *)
Definition statement_insert (name : bytes) (stmt : pg_statement) (p : pg) : pg :=
  pg_set_own (set_statements (<[name := stmt]> (pg_statements (pg_parser p))) (pg_parser p)) p.
Definition portal_insert (name : bytes) (portal : pg_portal) (p : pg) : pg :=
  pg_set_own (set_portals (<[name := portal]> (pg_portals (pg_parser p))) (pg_parser p)) p.

(** ** Messages *)

(** What a message function does: its result, -1 or the length of the message;
    the arguments of the command; the last error; the state. *)
Record message := Message { ms_ok : bool; ms_args : list bytes; ms_err : bytes; ms_pg : pg }.

Definition refuse (p : pg) : message := Message false [] [] p.
Definition accept (p : pg) : message := Message true [] [] p.
(** [pg->error] with a message for the client. *)
Definition pg_fails (err : bytes) (p : pg) : message := Message true [] err (pg_set_error true p).

Definition parseQ (data : bytes) (p : pg) : option message :=
  match parse_cstr data with
  | Some (query, []) =>
      r ← parse_query_args query;
      Some (match r with
            | inl err => pg_fails err p
            | inr (args, _, nparams) =>
                if 0 <? nparams then pg_fails (str "query cannot have parameters") p
                else Message true args [] (match args with [] => pg_set_empty_query p | _ => p end)
            end)
  | _ => Some (refuse p)
  end.

(** The loop over the types of the parameters. *)
Fixpoint parse_types (n : nat) (p : bytes) : option bytes :=
  match n with
  | O => Some p
  | S n => '(_, p) ← parse_int32 p; parse_types n p
  end.

Definition parseP (data : bytes) (p : pg) : option message :=
  match
    ('(stmt_name, d) ← parse_cstr data;
     '(query, d) ← parse_cstr d;
     '(num_param_types, d) ← parse_int16 d;
     d ← parse_types (Z.to_nat (u16 num_param_types)) d;
     _ ← parse_end d;
     Some (stmt_name, query))
  with
  | None => Some (refuse p)
  | Some (stmt_name, query) =>
      if PGNAMEDATALEN <=? size stmt_name then Some (pg_fails (str "statement name too large") p)
      else
        r ← parse_query_args query;
        Some (match r with
              | inl err => pg_fails err p
              | inr (args, types, nparams) =>
                  accept (pg_did_parse (statement_insert stmt_name (PgStatement args types nparams) p))
              end)
  end.

(** The description of a column of the portal. *)
Definition desc_field (oid : Z) : bytes :=
  [0; 0; 0; 0; 0; 0; 0; 0; 0; 0; u8 oid; 255; 255; 255; 255; 255; 255; 0; 0].
Definition describe_portal (oid : Z) (params : list bytes) : bytes :=
  let n := Z.of_nat (length params) in
  [84] ++ write_i32 (1 + 4 + 2 + n * 19 - 1) ++ write_i16 n ++ concat (repeat (desc_field oid) (length params)).
Definition describe_statement (oid nparams : Z) : bytes :=
  [116] ++ write_i32 (1 + 4 + 2 + nparams * 4 - 1) ++ write_i16 nparams ++
  concat (repeat (write_i32 oid) (Z.to_nat nparams)).

Definition parseD (data : bytes) (p : pg) : message :=
  if pg_describe p then Message false [] (str "double describe not allowed") (pg_set_error true p)
  else
    match '(type, d) ← parse_byte data; '(name, d) ← parse_cstr d; _ ← parse_end d; Some (type, name) with
    | None => refuse p
    | Some (type, name) =>
        if (type =? 80) || (type =? 81) then
          match portal_get p name with
          | None => pg_fails (str "portal not found") p
          | Some portal => accept (pg_set_desc (pg_describe p) (describe_portal (pg_oid p) (portal_params portal)) p)
          end
        else if type =? 83 then
          match statement_get p name with
          | None => pg_fails (str "statement not found") p
          | Some stmt => accept (pg_set_desc true (describe_statement (pg_oid p) (stmt_nparams stmt)) p)
          end
        else pg_fails (c_str (str "unsupported describe type '" ++ [type] ++ str "'")) p
    end.

(** The format codes of a bind message: nothing when the message ends, an error
    for a code that is neither text nor binary. *)
Fixpoint parse_formats (n : nat) (d : bytes) : option (bool * bytes) :=
  match n with
  | O => Some (true, d)
  | S n =>
      '(format, d) ← parse_int16 d;
      if negb (format =? 0) && negb (format =? 1) then Some (false, d) else parse_formats n d
  end.

(** The parameters of a bind message, with what was read when it ends early. *)
Fixpoint parse_params (n : nat) (d : bytes) (targs : list bytes) : list bytes * option bytes :=
  match n with
  | O => (targs, Some d)
  | S n =>
      match parse_int32 d with
      | None => (targs, None)
      | Some (len, d) =>
          match parse_bytes d (if len <=? 0 then 0 else len) with
          | None => (targs, None)
          | Some (b, d) => parse_params n d (targs ++ [b])
          end
      end
  end.

Fixpoint parse_result_formats (n : nat) (d : bytes) : option bytes :=
  match n with
  | O => Some d
  | S n => '(_, d) ← parse_int16 d; parse_result_formats n d
  end.

Definition parseB (data : bytes) (p : pg) : message :=
  match '(portal_name, d) ← parse_cstr data; '(stmt_name, d) ← parse_cstr d; '(n, d) ← parse_int16 d;
        '(ok, d) ← parse_formats (Z.to_nat n) d; Some (portal_name, stmt_name, ok, d) with
  | None => refuse p
  | Some (portal_name, stmt_name, ok, d) =>
      if negb ok then pg_fails (str "only text or binary format allowed") p
      else
        match parse_int16 d with
        | None => refuse p
        | Some (num_params, d) =>
            let '(targs, d) := parse_params (Z.to_nat (u16 num_params)) d [] in
            let p := pg_set_own (set_targs targs (pg_parser p)) p in
            match d ← d; '(n, d) ← parse_int16 d; d ← parse_result_formats (Z.to_nat (u16 n)) d; parse_end d with
            | None => refuse p
            | Some _ =>
                if PGNAMEDATALEN <=? size portal_name then pg_fails (str "portal name too large") p
                else if PGNAMEDATALEN <=? size stmt_name then pg_fails (str "statement name too large") p
                else
                  let portal := PgPortal stmt_name targs in
                  let p := pg_set_own (set_targs [] (pg_parser p)) p in
                  accept (pg_did_bind (portal_insert portal_name portal p))
            end
        end
  end.

Definition parseX (data : bytes) (p : pg) : message :=
  match parse_end data with None => refuse p | Some _ => accept (pg_did_close p) end.

Definition parseS (data : bytes) (p : pg) : message :=
  match parse_end data with None => refuse p | Some _ => accept (pg_did_sync p) end.

(** The loop of [parseE]: an argument of the statement, with a parameter in its
    place, starts a new argument or is joined to the last. Whether it ends without
    the internal error, and [targs]. [None] is a failed assertion. *)
Fixpoint execute_args (args : list bytes) (types : bytes) (params targs : list bytes) : option (bool * list bytes) :=
  match args with
  | [] => Some (true, targs)
  | arg :: args =>
      let atype := nth 0 types 0 in
      let join := (atype =? 66) || (atype =? 81) in
      let param := (atype =? 80) || (atype =? 81) in
      let value :=
        if param then
          match arg with
          | 36 :: digits =>
              let '(ok, x) := parse_u64 digits in
              if negb ok || (x =? 0) || (65535 <? x) then None else params !! Z.to_nat (x - 1)
          | _ => None
          end
        else Some arg in
      match value with
      | None => Some (false, targs)
      | Some value =>
          if join then
            prev ← last targs;
            execute_args args (drop 1 types) params (removelast targs ++ [prev ++ value])
          else execute_args args (drop 1 types) params (targs ++ [value])
      end
  end.

(** The arguments of the connection, which are empty, and [targs] are exchanged at
    the end. *)
Definition parseE (data : bytes) (p : pg) : option message :=
  match '(portal_name, d) ← parse_cstr data; '(max_rows, d) ← parse_int32 d; _ ← parse_end d; Some portal_name with
  | None => Some (refuse p)
  | Some portal_name =>
      match portal_get p portal_name with
      | None => Some (pg_fails (str "portal not found") p)
      | Some portal =>
          match statement_get p (portal_stmt portal) with
          | None => Some (pg_fails (str "statement not found") p)
          | Some stmt =>
              if negb (stmt_nparams stmt =? Z.of_nat (length (portal_params portal))) then
                Some (pg_fails (str "portal params mismatch") p)
              else
                '(ok, targs) ← execute_args (stmt_args stmt) (stmt_argtypes stmt) (portal_params portal) [];
                let own targs := pg_set_own (set_targs targs (pg_parser p)) p in
                Some (if (ok : bool) then Message true targs [] (pg_did_execute (own []))
                      else pg_fails (str "portal params internal error") (own targs))
          end
      end
  end.

Section Auth.
Context (auth : bytes).

Definition parsep (data : bytes) (p : pg) : message :=
  match '(password, d) ← parse_cstr data; _ ← parse_end d; Some password with
  | None => refuse p
  | Some password =>
      if negb (bool_decide (password = auth)) then
        Message false [] (str "WRONGPASS invalid username-password pair or user is disabled.") p
      else accept (pg_set_login (pg_ssl p) (pg_startup p) true p)
  end.

(** The result of [parse_postgres] with the state. *)
Definition finish (n : Z) (m : message) : parsed * pg :=
  ((if ms_ok m then n else -1, ms_args m, ms_err m), ms_pg m).

(** The message functions by the first byte. *)
Definition parse_body (msgbyte : Z) (body : bytes) (p : pg) : option message :=
  if msgbyte =? 81 then parseQ body p
  else if msgbyte =? 80 then parseP body p
  else if msgbyte =? 88 then Some (parseX body p)
  else if msgbyte =? 69 then parseE body p
  else if msgbyte =? 112 then Some (parsep body p)
  else if msgbyte =? 68 then Some (parseD body p)
  else if msgbyte =? 66 then Some (parseB body p)
  else if msgbyte =? 83 then Some (parseS body p)
  else Some (pg_fails (str "unknown message '" ++ [msgbyte] ++ str "'") p).

(** [parse_message]. A length below four, or minus one, makes the end of the
    message lie before its start. *)
Definition parse_message (data : bytes) (p : pg) : option (parsed * pg) :=
  if size data <? 5 then Some ((0, [], []), p)
  else
    let msgbyte := nth 0 data 0 in
    let msglen := u64 (read_i32 (drop 1 data)) in
    if size data <? u64 (msglen + 1) then Some ((0, [], []), p)
    else if (msglen <? 4) || (2 ^ 32 <=? msglen) then None
    else
      m ← parse_body msgbyte (take (Z.to_nat (msglen - 4)) (drop 5 data)) p;
      Some (finish (msglen + 1) m).

(** The parameters of a startup message: the name that was read, and the user,
    the database, the name of the application and the encoding so far. *)
Record startup := Startup { su_name : option bytes; su_user : bytes; su_database : bytes; su_app : bytes; su_encoding : bytes }.

Definition startup_set (s : startup) (value : bytes) : startup :=
  match su_name s with
  | None => Startup (Some value) (su_user s) (su_database s) (su_app s) (su_encoding s)
  | Some name =>
      if bool_decide (name = str "database") then Startup None (su_user s) value (su_app s) (su_encoding s)
      else if bool_decide (name = str "application_name") then Startup None (su_user s) (su_database s) value (su_encoding s)
      else if bool_decide (name = str "client_encoding") then Startup None (su_user s) (su_database s) (su_app s) value
      else if bool_decide (name = str "user") then Startup None value (su_database s) (su_app s) (su_encoding s)
      else Startup None (su_user s) (su_database s) (su_app s) (su_encoding s)
  end.

(** The loop over the bytes; [s] is the string that is being read. *)
Fixpoint startup_loop (p s : bytes) (st : startup) : startup :=
  match p with
  | [] => st
  | c :: p =>
      if c =? 0 then startup_loop p [] (match s with [] => st | _ => startup_set st s end)
      else startup_loop p (s ++ [c]) st
  end.

Definition parse_magic_proto3 (data : bytes) (p : pg) : message :=
  let st := startup_loop data [] (Startup None [] [] [] []) in
  if negb (bool_decide (su_encoding st = [])) && negb (bool_decide (su_encoding st = str "UTF8")) then refuse p
  else
    let o := pg_parser p in
    accept (pg_set_login (pg_ssl p) true (pg_auth p)
      (pg_set_own (PgOwn (pg_statements o) (pg_portals o) (pg_targs o) (su_user st) (su_database st) (su_app st)) p)).

Definition parse_magic (data : bytes) (p : pg) : parsed * pg :=
  if size data <? 4 then ((0, [], []), p)
  else
    let msglen := u64 (read_i32 data) in
    if 65536 <? msglen then ((-1, [], str "message too large"), p)
    else if size data <? msglen then ((0, [], []), p)
    else if msglen <? 8 then ((-1, [], str "invalid message"), p)
    else
      let magic := u32 (read_i32 (drop 4 data)) in
      let body := take (Z.to_nat (msglen - 8)) (drop 8 data) in
      if magic =? 0x04D2162F then finish msglen (accept (pg_set_login true (pg_startup p) (pg_auth p) p))
      else if magic =? 0x00030000 then finish msglen (parse_magic_proto3 body p)
      else if magic =? 0xFFFF0000 then ((-1, [], str "cancel message unsupported"), p)
      else ((-1, [], str "Protocol error: unknown magic number " ++ hex8 magic), p).

Definition parse_postgres (p : pg) (data : bytes) : option (parsed * pg) :=
  let p := pg_set_error false p in
  match data with
  | [] => Some ((0, [], []), p)
  | c :: _ => if c =? 0 then Some (parse_magic data p) else parse_message data p
  end.
End Auth.
