(* ===== verification/PostgresMap.v ===== *)
(** * PostgresMap: the map of parameter numbers is a set

    [pmap] of [src/src/postgres.c] is an open hash table with linear probing and
    no deletion. Every number inserted is found and no other, also after it has
    grown, and the loops end because a quarter of the buckets stays free. *)

From S2P Require Import Prelude Util Resp Memcache Http Parse Conn Postgres.

#[local] Opaque mix13.

Definition bucket_at (bs : list Z) (i : Z) : Z := nth (Z.to_nat i) bs 0.

(** ** Probing *)

Section Probe.
Context (bs : list Z) (stop : Z → bool).
Let n := Z.of_nat (length bs).
Context (Hn : 0 < n).

(** The bucket [k] steps from [i] is the first at which the loop stops. *)
Definition first_stop (i k : Z) : Prop :=
  0 <= k ∧ stop (bucket_at bs ((i + k) mod n)) = true ∧
  ∀ j, 0 <= j < k → stop (bucket_at bs ((i + j) mod n)) = false.

Lemma probe_finds fuel : ∀ i k,
  0 <= i < n → first_stop i k → k < Z.of_nat fuel → pmap_probe fuel stop bs i = Some ((i + k) mod n).
Proof.
  induction fuel as [|fuel IH]; intros i k Hi (Hk & Hs & Hj) Hf; [lia|]. cbn [pmap_probe]. fold (bucket_at bs i).
  destruct (decide (k = 0)) as [->|Hk0].
  - rewrite Z.add_0_r, Z.mod_small in Hs by lia. rewrite Hs, Z.add_0_r, Z.mod_small by lia. reflexivity.
  - pose proof (Hj 0 ltac:(lia)) as H0. rewrite Z.add_0_r, Z.mod_small in H0 by lia. rewrite H0. fold n.
    assert (Hstep : ∀ m, ((i + 1) mod n + m) mod n = (i + (1 + m)) mod n).
    { intros m. rewrite Z.add_mod_idemp_l by lia. f_equal. lia. }
    rewrite (IH ((i + 1) mod n) (k - 1)); [rewrite Hstep; do 2 f_equal; lia| | |lia].
    + apply Z.mod_pos_bound. lia.
    + split; [lia|]. split; [rewrite Hstep; now replace (1 + (k - 1)) with k by lia|].
      intros j Hjk. rewrite Hstep. apply Hj. lia.
Qed.

(** From any bucket another can be reached in less than a round. *)
Lemma reach i z : 0 <= z < n → ∃ k, 0 <= k < n ∧ (i + k) mod n = z.
Proof.
  intros Hz. exists ((z - i) mod n). split; [apply Z.mod_pos_bound; lia|].
  rewrite Z.add_mod_idemp_r by lia. replace (i + (z - i)) with z by lia. now apply Z.mod_small.
Qed.

Lemma least_stop i k : 0 <= k → stop (bucket_at bs ((i + k) mod n)) = true → ∃ k', k' <= k ∧ first_stop i k'.
Proof.
  intros Hk. remember (Z.to_nat k) as m eqn:Em. revert k Hk Em.
  induction (lt_wf m) as [m _ IH]. intros k Hk -> Hs.
  destruct (decide (Exists (λ j, stop (bucket_at bs ((i + j) mod n)) = true) (seqZ 0 k))) as [He|He].
  - apply Exists_exists in He as (j & Hj%elem_of_seqZ & Hsj). rewrite Z.add_0_l in Hj.
    destruct (IH (Z.to_nat j) ltac:(lia) j ltac:(lia) eq_refl Hsj) as (k' & H1 & H2). exists k'. split; [lia|exact H2].
  - exists k. split; [lia|]. split; [exact Hk|]. split; [exact Hs|]. intros j Hj.
    destruct (stop (bucket_at bs ((i + j) mod n))) eqn:E; [|reflexivity]. destruct He. apply Exists_exists.
    exists j. split; [apply elem_of_seqZ; lia|exact E].
Qed.
End Probe.

(** ** The invariant *)

(** The numbers in the buckets. *)
Definition params_in (bs : list Z) : list Z := filter (λ b, b ≠ 0) bs.

(** Between the place a number hashes to and its bucket all are taken. *)
Definition probed (bs : list Z) : Prop :=
  ∀ i, 0 <= i < Z.of_nat (length bs) → bucket_at bs i ≠ 0 →
    ∃ k, 0 <= k ∧ i = (pmap_hash (Z.of_nat (length bs)) (bucket_at bs i) + k) mod Z.of_nat (length bs) ∧
      ∀ j, 0 <= j < k → bucket_at bs ((pmap_hash (Z.of_nat (length bs)) (bucket_at bs i) + j) mod Z.of_nat (length bs)) ≠ 0.

Lemma hash_range n x : 0 < n → 0 <= pmap_hash n x < n.
Proof. intros Hn. unfold pmap_hash. apply Z.mod_pos_bound. lia. Qed.

Lemma bucket_free bs : (length (params_in bs) < length bs)%nat → ∃ z, 0 <= z < Z.of_nat (length bs) ∧ bucket_at bs z = 0.
Proof.
  unfold params_in. induction bs as [|b bs IH]; cbn [length filter]; [lia|]. intros Hl.
  destruct (decide (b = 0)) as [->|Hb].
  - exists 0. split; [lia|reflexivity].
  - rewrite filter_cons, decide_True in Hl by exact Hb. cbn [length] in Hl. destruct IH as (z & Hz & Ez); [lia|].
    exists (z + 1). split; [lia|]. unfold bucket_at. replace (Z.to_nat (z + 1)) with (S (Z.to_nat z)) by lia. exact Ez.
Qed.

Lemma bucket_insert bs i j x : 0 <= i < Z.of_nat (length bs) → 0 <= j →
  bucket_at (<[Z.to_nat i := x]> bs) j = if decide (j = i) then x else bucket_at bs j.
Proof.
  intros Hi Hj. unfold bucket_at. rewrite !nth_lookup. destruct (decide (j = i)) as [->|Hne].
  - rewrite list_lookup_insert_eq by lia. reflexivity.
  - rewrite list_lookup_insert_ne by lia. reflexivity.
Qed.

Lemma params_insert (x : Z) (bs : list Z) : ∀ m, (m < length bs)%nat → nth m bs 0 = 0 → x ≠ 0 →
  params_in (<[m := x]> bs) ≡ₚ x :: params_in bs.
Proof.
  unfold params_in. induction bs as [|b bs IH]; intros [|m] Hm Hz Hx; cbn in Hm; try lia.
  - cbn in Hz. subst b. change (<[0%nat := x]> (0 :: bs)) with (x :: bs).
    rewrite !filter_cons, decide_True by exact Hx. now rewrite decide_False by auto.
  - change (<[S m := x]> (b :: bs)) with (b :: <[m := x]> bs). rewrite !filter_cons.
    specialize (IH m ltac:(lia) Hz Hx). destruct (decide (b ≠ 0)); rewrite IH; [apply Permutation_swap|reflexivity].
Qed.

(** ** Insertion *)

Lemma insert0_spec bs x :
  (length (params_in bs) < length bs)%nat → probed bs → x ≠ 0 →
  ∃ bs', pmap_insert0 bs x = Some bs' ∧ length bs' = length bs ∧ params_in bs' ≡ₚ x :: params_in bs ∧ probed bs'.
Proof.
  intros Hfree Hp Hx. set (n := Z.of_nat (length bs)). assert (Hn : 0 < n) by (unfold n; lia).
  destruct (bucket_free bs Hfree) as (z & Hz & Ez). set (h := pmap_hash n x). pose proof (hash_range n x Hn) as Hh. fold h in Hh.
  destruct (reach bs Hn h z Hz) as (k0 & Hk0 & Ek0). fold n in Ek0, Hk0.
  destruct (least_stop bs (λ b, b =? 0) h k0 ltac:(lia)) as (k & Hk & Hfirst).
  { fold n. rewrite Ek0, Ez. reflexivity. }
  pose proof (probe_finds bs (λ b, b =? 0) Hn (length bs) h k Hh Hfirst ltac:(unfold n in *; lia)) as Hprobe.
  set (i := (h + k) mod n). fold n i in Hprobe. assert (Hi : 0 <= i < n) by (apply Z.mod_pos_bound; lia).
  destruct Hfirst as (Hk1 & Hs & Hj). fold n in Hs, Hj. fold i in Hs. zb.
  unfold pmap_insert0. fold n h. rewrite Hprobe. mstep. exists (<[Z.to_nat i := x]> bs).
  assert (Hlen : length (<[Z.to_nat i := x]> bs) = length bs) by apply length_insert.
  split; [reflexivity|]. split; [exact Hlen|]. split; [apply params_insert; [lia|exact Hs|exact Hx]|].
  intros j Hjn Hb. rewrite Hlen in *. fold n in Hjn |- *.
  assert (Hkeep : ∀ l, 0 <= l → bucket_at bs l ≠ 0 → bucket_at (<[Z.to_nat i := x]> bs) l ≠ 0).
  { intros l Hl Hne. rewrite bucket_insert by lia. now destruct (decide (l = i)). }
  rewrite bucket_insert in Hb |- * by lia. destruct (decide (j = i)) as [->|Hji].
  - exists k. split; [lia|]. split; [reflexivity|]. intros l Hl. apply Hkeep; [apply Z.mod_pos_bound; lia|].
    fold h. specialize (Hj l Hl). zb. exact Hj.
  - destruct (Hp j Hjn Hb) as (k' & H1 & H2 & H3). fold n in H2, H3. exists k'. split; [exact H1|]. split; [exact H2|].
    intros l Hl. apply Hkeep; [apply Z.mod_pos_bound; lia|]. exact (H3 l Hl).
Qed.

Lemma rehash_spec todo : ∀ bs,
  (length (params_in bs) + length (params_in todo) < length bs)%nat → probed bs →
  ∃ bs', pmap_rehash todo bs = Some bs' ∧ length bs' = length bs ∧ params_in bs' ≡ₚ params_in todo ++ params_in bs ∧ probed bs'.
Proof.
  induction todo as [|b todo IH]; intros bs Hl Hp; cbn [pmap_rehash]; [now exists bs|].
  unfold params_in in Hl at 2. rewrite filter_cons in Hl. unfold params_in at 2. rewrite filter_cons.
  destruct (b =? 0) eqn:E; zb.
  - rewrite decide_False in Hl |- * by auto. mstep. apply IH; assumption.
  - rewrite decide_True in Hl |- * by assumption. cbn [length] in Hl.
    destruct (insert0_spec bs b ltac:(lia) Hp E) as (bs1 & -> & Hl1 & Hp1 & Hpr1). mstep.
    pose proof (Permutation_length Hp1) as Hpl. cbn [length] in Hpl. fold (params_in todo) in Hl.
    destruct (IH bs1) as (bs2 & E2 & Hl2 & Hp2 & Hpr2); [lia|exact Hpr1|].
    exists bs2. split; [exact E2|]. split; [lia|]. split; [|exact Hpr2]. rewrite Hp2, Hp1. fold (params_in todo).
    cbn [app]. symmetry. apply Permutation_middle.
Qed.

Lemma params_zero n : params_in (repeat 0 n) = [].
Proof. unfold params_in. induction n as [|n IH]; [reflexivity|]. cbn [repeat]. rewrite filter_cons. now rewrite decide_False by auto. Qed.

Lemma probed_zero n : probed (repeat 0 n).
Proof.
  intros i _ Hb. exfalso. apply Hb. unfold bucket_at. rewrite nth_repeat. reflexivity.
Qed.

(** The map holds the numbers [l]; a quarter of it is free. *)
Record pmap_ok (m : pmap) (l : list Z) : Prop := {
  po_params : params_in (pm_buckets m) ≡ₚ l;
  po_count : pm_count m = Z.of_nat (length l);
  po_size : 8 <= pm_nbuckets m ∧ (4 | pm_nbuckets m);
  po_load : 4 * pm_count m <= 3 * pm_nbuckets m;
  po_probed : probed (pm_buckets m)
}.

Lemma pmap_init_ok : pmap_ok pmap_init [].
Proof.
  split; [reflexivity|reflexivity| |vm_compute; discriminate|exact (probed_zero 8)]. split; [vm_compute; discriminate|now exists 2].
Qed.

Lemma three_quarters n : 0 <= n → (4 | n) → (n .>> 1) + (n .>> 2) = 3 * (n / 4) ∧ n = 4 * (n / 4).
Proof. intros Hn [q ->]. rewrite !Z.shiftr_div_pow2 by lia. change (2 ^ 1) with 2. change (2 ^ 2) with 4. dm. Qed.

Lemma pmap_insert_ok m l x :
  pmap_ok m l → x ≠ 0 → ∃ m', pmap_insert m x = Some m' ∧ pmap_ok m' (x :: l).
Proof.
  intros [H1 H2 [H3 H3'] H4 H5] Hx. unfold pmap_insert. rewrite (proj2 (Z.eqb_neq _ _)) by exact Hx.
  destruct (three_quarters (pm_nbuckets m) ltac:(lia) H3') as [E1 E2]. rewrite E1.
  pose proof (Permutation_length H1) as Hl. unfold pm_nbuckets in *.
  assert (Hgrown : ∃ m1, (if pm_count m =? 3 * (Z.of_nat (length (pm_buckets m)) / 4) then pmap_grow m else Some m) = Some m1 ∧
    params_in (pm_buckets m1) ≡ₚ l ∧ pm_count m1 = pm_count m ∧ 8 <= pm_nbuckets m1 ∧ (4 | pm_nbuckets m1) ∧
    4 * (pm_count m + 1) <= 3 * pm_nbuckets m1 ∧ probed (pm_buckets m1)).
  { destruct (pm_count m =? _) eqn:E; zb.
    - unfold pmap_grow. destruct (rehash_spec (pm_buckets m) (repeat 0 (2 * length (pm_buckets m)))) as (bs & -> & Hbl & Hbp & Hbr).
      + rewrite params_zero, repeat_length. cbn [length]. lia.
      + apply probed_zero.
      + mstep. exists (PMap (pm_count m) bs). rewrite params_zero, app_nil_r in Hbp. rewrite repeat_length in Hbl.
        split; [reflexivity|]. cbn [pm_count pm_buckets]. unfold pm_nbuckets. cbn [pm_buckets]. rewrite Hbl.
        split; [now rewrite Hbp|]. split; [reflexivity|]. split; [lia|]. split; [|split; [lia|exact Hbr]].
        destruct H3' as [q Hq]. exists (2 * q). lia.
    - exists m. split; [reflexivity|]. unfold pm_nbuckets. repeat (split; [assumption || reflexivity || lia|]). exact H5. }
  destruct Hgrown as (m1 & -> & P1 & P2 & P3 & P4 & P5 & P6). mstep.
  pose proof (Permutation_length P1) as Hl1. unfold pm_nbuckets in *.
  destruct (insert0_spec (pm_buckets m1) x) as (bs & -> & Hbl & Hbp & Hbr); [lia|exact P6|exact Hx|]. mstep.
  exists (PMap (pm_count m1 + 1) bs). split; [reflexivity|]. split; cbn [pm_count pm_buckets]; unfold pm_nbuckets; cbn [pm_buckets]; rewrite ?Hbl.
  - now rewrite Hbp, P1.
  - cbn [length]. lia.
  - now split.
  - lia.
  - exact Hbr.
Qed.

Lemma bucket_in bs x : x ≠ 0 → x ∈ params_in bs ↔ ∃ i, 0 <= i < Z.of_nat (length bs) ∧ bucket_at bs i = x.
Proof.
  intros Hx. unfold params_in. rewrite list_elem_of_filter. split.
  - intros [_ [i Hi]%list_elem_of_lookup]. exists (Z.of_nat i). pose proof (lookup_lt_Some _ _ _ Hi). split; [lia|].
    unfold bucket_at. rewrite Nat2Z.id, nth_lookup, Hi. reflexivity.
  - intros (i & Hi & E). split; [exact Hx|]. apply (list_elem_of_lookup_2 _ (Z.to_nat i)). unfold bucket_at in E.
    rewrite nth_lookup in E. destruct (bs !! Z.to_nat i) eqn:El; [cbn in E; now subst|]. apply lookup_ge_None in El. lia.
Qed.

Lemma pmap_exists_ok m l x : pmap_ok m l → x ≠ 0 → pmap_exists m x = Some (bool_decide (x ∈ l)).
Proof.
  intros [H1 H2 [H3 _] H4 H5] Hx. unfold pmap_exists, pm_nbuckets in *. set (bs := pm_buckets m) in *.
  set (n := Z.of_nat (length bs)) in *. pose proof (Permutation_length H1) as Hl. assert (Hn : 0 < n) by lia.
  set (stop := λ b, (b =? 0) || (b =? x)). set (h := pmap_hash n x). pose proof (hash_range n x Hn) as Hh. fold h in Hh.
  destruct (bucket_free bs ltac:(lia)) as (z & Hz & Ez). fold n in Hz.
  destruct (reach bs Hn h z Hz) as (k0 & Hk0 & Ek0). fold n in Ek0, Hk0.
  assert (Hstop0 : stop (bucket_at bs ((h + k0) mod n)) = true) by (rewrite Ek0, Ez; reflexivity).
  destruct (least_stop bs stop h k0 ltac:(lia) Hstop0) as (k & Hk & Hfirst).
  rewrite (probe_finds bs stop Hn (length bs) h k Hh Hfirst) by (unfold n in *; lia). mstep. f_equal.
  destruct Hfirst as (Hk1 & Hs & Hj). fold n in Hs, Hj |- *. fold (bucket_at bs ((h + k) mod n)).
  assert (Hi : 0 <= (h + k) mod n < n) by (apply Z.mod_pos_bound; lia).
  destruct (bucket_at bs ((h + k) mod n) =? 0) eqn:E0; zb; cbn [negb]; symmetry.
  - apply bool_decide_eq_false. rewrite <- H1, (bucket_in bs x Hx). intros (i & Hi' & Ei). fold n in Hi'.
    destruct (H5 i Hi' ltac:(lia)) as (k' & K1 & K2 & K3). fold n in K2, K3. rewrite Ei in K2, K3. fold h in K2, K3.
    destruct (Z.lt_ge_cases k k') as [Hlt|Hge]; [exact (K3 k ltac:(lia) E0)|].
    destruct (Z.eq_dec k k') as [<-|Hne]; [rewrite <- K2 in E0; congruence|].
    specialize (Hj k' ltac:(lia)). rewrite <- K2, Ei in Hj. unfold stop in Hj. rewrite Z.eqb_refl, orb_true_r in Hj. discriminate.
  - apply bool_decide_eq_true. rewrite <- H1. apply (bucket_in bs x Hx). exists ((h + k) mod n). split; [exact Hi|].
    unfold stop in Hs. apply orb_true_iff in Hs as [Hs|Hs]; zb; [contradiction|exact Hs].
Qed.

(** Insertion of all numbers. *)
Fixpoint pmap_of (l : list Z) : option pmap :=
  match l with [] => Some pmap_init | x :: l => m ← pmap_of l; pmap_insert m x end.

(** The map of parameter numbers is the set of the numbers inserted: inserting
    never fails or loops, also when the table grows, and a number is found
    exactly when it was inserted. *)
Theorem pmap_correct l x :
  Forall (λ y, y ≠ 0) l → x ≠ 0 →
  ∃ m, pmap_of l = Some m ∧ pm_count m = Z.of_nat (length l) ∧ pmap_exists m x = Some (bool_decide (x ∈ l)).
Proof.
  intros Hl Hx. enough (∃ m, pmap_of l = Some m ∧ pmap_ok m l) as (m & E & Hm).
  { exists m. split; [exact E|]. split; [exact (po_count _ _ Hm)|now apply pmap_exists_ok]. }
  induction Hl as [|y l Hy _ (m & E & Hm)]; cbn [pmap_of]; [exists pmap_init; split; [reflexivity|apply pmap_init_ok]|].
  rewrite E. mstep. now apply pmap_insert_ok.
Qed.

Lemma pmap_correct_witness :
  ∃ m, pmap_of [7; 3; 65535; 3; 2; 1; 9] = Some m ∧ pm_count m = 7 ∧ pmap_exists m 9 = Some true.
Proof. apply (pmap_correct [7; 3; 65535; 3; 2; 1; 9] 9); [|lia]. repeat (constructor; [lia|]). constructor. Defined.
