(* ===== verification/Cmds.v ===== *)
(** * Cmds: the commands

    [src/src/cmds.c]. A command reads the arguments of the connection, acts on
    the cache and writes its reply. The state of the server is the cache with
    its memory, the time of a delayed flush and the clock; the commands are
    written in a state monad with failure, where failure is undefined behaviour
    or a failed assertion, as in the engine. Counters of statistics and
    messages on the console are left out. *)

From S2P Require Import Prelude Util Context Heap Shard Cache Resp Memcache Http Parse Conn.

Definition SECOND : Z := 1000000000.
Definition MILLISECOND : Z := 1000000.
Definition HOUR : Z := 3600000000000.

(** Background work. *)
Inductive job :=
  | JobKeys (now : Z) (pattern : bytes)
  | JobFlush (cmdname : bytes)
  | JobSaveLoad (load fast : bool) (path : bytes)
  | JobSweep
  | JobPurge
  | JobDetach (now : Z).

(** The globals: [cache], [flush_delay], [lowmem], and the readings of the clock
    [sys_now] from now on. *)
Record server := Serve {
  s_cache : cache_t; s_world : world; s_flush_delay : Z; s_lowmem : bool; s_clock : nat → Z
}.

(** What does not change while the process runs: the password, the default path
    of snapshots, the real time, and the thread's own batch. *)
Record config := Config {
  g_useauth : bool; g_auth : bytes; g_persist : bytes; g_unixnow : Z; g_thbatch : Z; g_overlay : Z
}.

Section Cmds.
Context `{Env} (cfg : config).

(** ** The monad of commands *)

Definition cmd (A : Type) : Type := server → conn job → option (A * server * conn job).

#[global] Instance cmd_ret : MRet cmd := λ A x s c, Some (x, s, c).
#[global] Instance cmd_bind : MBind cmd := λ A B f m s c,
  match m s c with Some (x, s, c) => f x s c | None => None end.

Definition fail {A} : cmd A := λ s c, None.
Definition reply (f : conn job → conn job) : cmd unit := λ s c, Some (tt, s, f c).
Definition get_args : cmd (list bytes) := λ s c, Some (c_args c, s, c).
Definition conn_proto : cmd proto := λ s c, Some (c_proto c, s, c).
Definition arg (i : nat) : cmd bytes := λ s c, a ← c_args c !! i; Some (a, s, c).

(** [sys_now]. *)
Definition sys_now : cmd Z := λ s c,
  Some (s_clock s 0%nat,
        Serve (s_cache s) (s_world s) (s_flush_delay s) (s_lowmem s) (λ i, s_clock s (S i)), c).

Definition get_lowmem : cmd bool := λ s c, Some (s_lowmem s, s, c).
Definition set_flush_delay (t : Z) : cmd unit := λ s c,
  Some (tt, Serve (s_cache s) (s_world s) t (s_lowmem s) (s_clock s), c).

(** The calls of the engine, through a handle; the callbacks act on [u]. The
    clock is read by the engine only when it is given no time. *)
Definition set_cache (s : server) (k : cache_t) (w : world) : server :=
  Serve k w (s_flush_delay s) (s_lowmem s) (s_clock s).

Definition load {U} (h : handle) (key : bytes) (opts : load_opts U) (u : U) : cmd (Z * handle * U) :=
  λ s c,
    '(st, h, k, w, u) ← pogocache_load (s_clock s 0%nat) key opts h (s_cache s) (s_world s) u;
    Some ((st, h, u), set_cache s k w, c).
Definition store {U} (h : handle) (key val : bytes) (opts : store_opts U) (u : U)
    : cmd (Z * handle * U) :=
  λ s c,
    '(st, h, k, w, u) ← pogocache_store (s_clock s 0%nat) key val opts h (s_cache s) (s_world s) u;
    Some ((st, h, u), set_cache s k w, c).
Definition remove {U} (h : handle) (key : bytes) (opts : delete_opts U) (u : U)
    : cmd (Z * handle * U) :=
  λ s c,
    '(st, h, k, w, u) ← pogocache_delete (s_clock s 0%nat) key opts h (s_cache s) (s_world s) u;
    Some ((st, h, u), set_cache s k w, c).

(** The same with callbacks that write to the connection. *)
Definition load_conn (key : bytes) (opts : load_opts (conn job)) : cmd Z := λ s c,
  '(st, _, k, w, c) ← pogocache_load (s_clock s 0%nat) key opts Root (s_cache s) (s_world s) c;
  Some (st, set_cache s k w, c).

Definition begin_batch : cmd handle := λ s c,
  let '(b, w) := pogocache_begin (c_ctx (s_cache s)) (g_thbatch cfg) (g_overlay cfg) (s_world s) in
  b ← b; Some (InBatch b, set_cache s (s_cache s) w, c).
Definition end_batch (h : handle) : cmd unit := λ s c,
  match h with
  | Root => None
  | InBatch b => k ← pogocache_end b (s_cache s); Some (tt, set_cache s k (s_world s), c)
  end.

Definition wrong_args : cmd unit := reply (λ c, conn_write_error c ERR_WRONG_NUM_ARGS).
Definition syntax_error : cmd unit := reply (λ c, conn_write_error c ERR_SYNTAX_ERROR).
Definition error (msg : bytes) : cmd unit := reply (λ c, conn_write_error c msg).

(** A completion tag followed by the ready message of Postgres. *)
Definition pg_done (tag : bytes) (c : conn job) : conn job := pg_write_ready (pg_write_completef c tag) 73.

(** ** SET *)

(** [set_entry], which sets [ctx->written]. *)
Definition set_entry (cmdname : bytes) (v : view) (u : bool * conn job) : bool * (bool * conn job) :=
  let c := u.2 in
  let c :=
    if decide (c_proto c = PROTO_POSTGRES) then
      pg_done (cmdname ++ str " 1") (pg_write_row_data (pg_write_row_desc c [str "value"]) [v_val v])
    else conn_write_bulk c (v_val v) in
  (true, (true, c)).

Record set_opts := SetOpts {
  st_expires : Z; st_nx : bool; st_xx : bool; st_get : bool; st_keepttl : bool; st_flags : Z;
  st_cas : Z; st_withcas : bool
}.

Definition set_store_opts (cmdname : bytes) (now : Z) (o : set_opts) (lowmem : bool)
    : store_opts (bool * conn job) :=
  StoreOpts now (st_expires o) 0 (st_cas o) (st_flags o) (st_keepttl o) (st_withcas o) (st_nx o)
    (st_xx o) lowmem (if st_get o then Some (set_entry cmdname) else None).

(** The reply to a store without [get]. *)
Definition set_reply (cmdname : bytes) (status : Z) (c : conn job) : conn job :=
  let stored := (status =? POGOCACHE_INSERTED) || (status =? POGOCACHE_REPLACED) in
  match c_proto c with
  | PROTO_MEMCACHE =>
      if negb stored then
        if status =? POGOCACHE_FOUND then conn_write_raw c (str "EXISTS" ++ crlf)
        else conn_write_raw c (str "NOT_FOUND" ++ crlf ++ [0])
      else conn_write_raw c (str "STORED" ++ crlf)
  | PROTO_HTTP =>
      if negb stored then conn_write_http c 404 (str "Not Found") (str "Not Found" ++ crlf)
      else conn_write_http c 200 (str "OK") (str "Stored" ++ crlf)
  | PROTO_POSTGRES => pg_done (cmdname ++ (if stored then str " 1" else str " 0")) c
  | _ => if negb stored then conn_write_null c else conn_write_string c (str "OK")
  end.

Definition execSET (cmdname : bytes) (now : Z) (key val : bytes) (o : set_opts) : cmd unit := λ s c,
  '(status, _, k, w, u) ←
     pogocache_store (s_clock s 0%nat) key val (set_store_opts cmdname now o (s_lowmem s)) Root
       (s_cache s) (s_world s) (false, c);
  let written : bool := u.1 in
  let c := u.2 in
  let c :=
    if status =? POGOCACHE_NOMEM then conn_write_error c ERR_OUT_OF_MEMORY
    else if st_get o then
      if written then c
      else if decide (c_proto c = PROTO_POSTGRES) then
        pg_done (cmdname ++ str " 0") (pg_write_row_desc c [str "value"])
      else conn_write_null c
    else set_reply cmdname status c in
  Some (tt, set_cache s k w, c).

Definition expiry_seconds_time (p : proto) (now expiry : Z) : Z :=
  let expiry :=
    if bool_decide (p = PROTO_MEMCACHE) && (HOUR * 24 * 30 <? expiry) then
      if g_unixnow cfg <? expiry then expiry - g_unixnow cfg else 0
    else expiry in
  int64_add_clamp now expiry.

(** What the loop over the options of SET finds: the options and whether there
    is an expiry, or the error it reports. *)
Inductive set_parsed_opts := SetOk (o : set_opts) (hasex : bool) | SetErr (msg : bytes).

Definition err_expire : bytes := str "ERR invalid expire time".

(** The kinds of expiry: ex, px, exat, pxat. *)
Definition ex_kind (a : bytes) : Z :=
  if argeq_bytes a (str "ex") then 1
  else if argeq_bytes a (str "px") then 2
  else if argeq_bytes a (str "exat") then 3
  else if argeq_bytes a (str "pxat") then 4 else 0.

Definition set_expires (p : proto) (now exkind expires : Z) : option Z :=
  if expires <=? 0 then
    if decide (p = PROTO_MEMCACHE) then Some (expiry_seconds_time p now 0) else None
  else if exkind =? 1 then Some (expiry_seconds_time p now (int64_mul_clamp expires SECOND))
  else if exkind =? 2 then Some (expiry_seconds_time p now (int64_mul_clamp expires MILLISECOND))
  else if exkind =? 3 then Some (int64_mul_clamp expires SECOND)
  else Some (int64_mul_clamp expires MILLISECOND).

Fixpoint set_options (p : proto) (now : Z) (args : list bytes) (o : set_opts) (hasex : bool)
    : set_parsed_opts :=
  match args with
  | [] => SetOk o hasex
  | a :: args =>
      if negb (ex_kind a =? 0) then
        match args with
        | [] => SetErr ERR_SYNTAX_ERROR
        | x :: args =>
            let '(ok, expires) := parse_i64 x in
            match (if (ok : bool) then set_expires p now (ex_kind a) expires else None) with
            | None => SetErr err_expire
            | Some expires =>
                set_options p now args (SetOpts expires (st_nx o) (st_xx o) (st_get o) (st_keepttl o)
                  (st_flags o) (st_cas o) (st_withcas o)) true
            end
        end
      else if argeq_bytes a (str "nx") then
        set_options p now args (SetOpts (st_expires o) true (st_xx o) (st_get o) (st_keepttl o)
          (st_flags o) (st_cas o) (st_withcas o)) hasex
      else if argeq_bytes a (str "xx") then
        set_options p now args (SetOpts (st_expires o) (st_nx o) true (st_get o) (st_keepttl o)
          (st_flags o) (st_cas o) (st_withcas o)) hasex
      else if argeq_bytes a (str "get") then
        set_options p now args (SetOpts (st_expires o) (st_nx o) (st_xx o) true (st_keepttl o)
          (st_flags o) (st_cas o) (st_withcas o)) hasex
      else if argeq_bytes a (str "keepttl") then
        set_options p now args (SetOpts (st_expires o) (st_nx o) (st_xx o) (st_get o) true
          (st_flags o) (st_cas o) (st_withcas o)) hasex
      else if argeq_bytes a (str "flags") then
        match args with
        | [] => SetErr ERR_SYNTAX_ERROR
        | x :: args =>
            let '(ok, flags) := parse_u64 x in
            if negb ok then SetErr ERR_SYNTAX_ERROR
            else set_options p now args (SetOpts (st_expires o) (st_nx o) (st_xx o) (st_get o)
              (st_keepttl o) (u32 flags) (st_cas o) (st_withcas o)) hasex
        end
      else if argeq_bytes a (str "cas") then
        match args with
        | [] => SetErr ERR_SYNTAX_ERROR
        | x :: args =>
            let '(ok, cas) := parse_u64 x in
            if negb ok then SetErr ERR_SYNTAX_ERROR
            else set_options p now args (SetOpts (st_expires o) (st_nx o) (st_xx o) (st_get o)
              (st_keepttl o) (st_flags o) cas true) hasex
        end
      else SetErr ERR_SYNTAX_ERROR
  end.

Definition set_opts0 : set_opts := SetOpts 0 false false false false 0 0 false.

Definition cmdSET : cmd unit :=
  args ← get_args;
  match args with
  | _ :: key :: val :: opts =>
      now ← sys_now;
      p ← conn_proto;
      match set_options p now opts set_opts0 false with
      | SetErr msg => error msg
      | SetOk o hasex =>
          if st_expires o <? 0 then fail (* assert(expires >= 0) *)
          else if st_keepttl o && hasex then syntax_error
          else if st_xx o && st_nx o then syntax_error
          else execSET (str "SET") now key val o
      end
  | _ => wrong_args
  end.

Definition cmdSETEX : cmd unit :=
  args ← get_args;
  match args with
  | [_; key; ex; val] =>
      now ← sys_now;
      let '(ok, ex) := parse_i64 ex in
      if negb ok || (ex <=? 0) then error err_expire
      else
        now2 ← sys_now;
        let ex := int64_add_clamp now2 (int64_mul_clamp ex SECOND) in
        execSET (str "SETEX") now key val (SetOpts ex false false false false 0 0 false)
  | _ => wrong_args
  end.

(** ** GET and MGET *)

(** [get_entry] with [ctx->cas] and [ctx->mget]. *)
Definition get_entry (cas mget : bool) (v : view) (c : conn job) : option update * conn job :=
  (None,
   match c_proto c with
   | PROTO_POSTGRES =>
       pg_write_row_data c ((if mget then [v_key v] else []) ++ [v_val v] ++
         (if cas then [u64toa (v_cas v)] else []))
   | PROTO_MEMCACHE =>
       let c := conn_write_raw c (str "VALUE ") in
       let c := conn_write_raw c (v_key v) in
       let c := conn_write_raw c [32] in
       let c := conn_write_raw c (u64toa (v_flags v)) in
       let c := conn_write_raw c [32] in
       let c := conn_write_raw c (u64toa (size (v_val v))) in
       let c :=
         if cas then conn_write_raw (conn_write_raw c [32]) (u64toa (v_cas v)) else c in
       let c := conn_write_raw c crlf in
       let c := conn_write_raw c (v_val v) in
       conn_write_raw c crlf
   | PROTO_HTTP => conn_write_http c 200 (str "OK") (v_val v)
   | _ =>
       let c := if cas then conn_write_uint (conn_write_array c 2) (v_cas v) else c in
       conn_write_bulk c (v_val v)
   end).

Definition cmdGET : cmd unit :=
  args ← get_args;
  match args with
  | [_; key] =>
      now ← sys_now;
      p ← conn_proto;
      reply (λ c, if decide (p = PROTO_POSTGRES) then pg_write_row_desc c [str "value"] else c);;
      status ← load_conn key (LoadOpts now false (Some (get_entry false false)));
      let found := negb (status =? POGOCACHE_NOTFOUND) in
      reply (λ c,
        if found then c
        else match p with
             | PROTO_HTTP => conn_write_http c 404 (str "Not Found") (str "Not Found" ++ crlf)
             | PROTO_POSTGRES => c
             | _ => conn_write_null c
             end);;
      reply (λ c,
        if decide (p = PROTO_POSTGRES) then
          pg_write_ready (pg_write_complete c (if found then str "GET 1" else str "GET 0")) 73
        else c)
  | _ => wrong_args
  end.

(** The loop of MGET over its keys: how many were found. *)
Fixpoint mget_loop (p : proto) (now : Z) (cas : bool) (keys : list bytes) (count : Z) : cmd Z :=
  match keys with
  | [] => mret count
  | key :: keys =>
      status ← load_conn key (LoadOpts now false (Some (get_entry cas true)));
      if status =? POGOCACHE_NOTFOUND then
        reply (λ c, if decide (p = PROTO_RESP) then conn_write_null c else c);;
        mget_loop p now cas keys count
      else mget_loop p now cas keys (count + 1)
  end.

Definition cmdMGET : cmd unit :=
  args ← get_args;
  match args with
  | name :: _ :: _ =>
      now ← sys_now;
      p ← conn_proto;
      let cas := argeq_bytes name (str "mgets") in
      let keys := drop 1 args in
      reply (λ c, match p with
                  | PROTO_POSTGRES =>
                      pg_write_row_desc c ([str "key"; str "value"] ++ if cas then [str "cas"] else [])
                  | PROTO_RESP => conn_write_array c (nargs keys)
                  | _ => c
                  end);;
      count ← mget_loop p now cas keys 0;
      reply (λ c, match p with
                  | PROTO_POSTGRES => pg_done (str "MGET " ++ i64toa count) c
                  | PROTO_MEMCACHE => conn_write_raw_cstr c (str "END" ++ crlf)
                  | _ => c
                  end)
  | _ => wrong_args
  end.

(** ** KEYS *)

(** [match]: the loop over the pattern and the recursion at a star; the lengths
    of the pattern and the string bound the turns. *)
Fixpoint match_loop (fuel : nat) (pat s : bytes) (depth : Z) : bool :=
  match fuel with
  | O => false
  | S fuel =>
      if depth =? 128 then false
      else
        match pat with
        | [] => (length s =? 0)%nat
        | c :: pat1 =>
            let literal (c : Z) (pat1 : bytes) :=
              match s with
              | [] => false
              | d :: s1 =>
                  if negb (c =? 63) && negb (d =? c) then false else match_loop fuel pat1 s1 depth
              end in
            if c =? 92 then
              match pat1 with [] => false | c :: pat2 => literal c pat2 end
            else if c =? 42 then
              match pat1 with
              | [] => true
              | c2 :: _ =>
                  if c2 =? 42 then match_loop fuel pat1 s depth
                  else if match_loop fuel pat1 s (depth + 1) then true
                  else match s with [] => false | _ :: s1 => match_loop fuel pat s1 depth end
              end
            else literal c pat1
        end
  end.

Definition match_pat (pat s : bytes) : bool := match_loop (S (length pat + length s)) pat s 0.

(** [keys_entry]: the buffer of [struct keys_ctx] and its count. *)
Definition keys_entry (pattern : bytes) (v : view) (u : bytes * Z) : Z * (bytes * Z) :=
  (POGOCACHE_ITER_CONTINUE,
   if bool_decide (pattern = [42]) || match_pat pattern (v_key v) then
     (u.1 ++ varint_write_u64 (size (v_key v)) ++ v_key v, u.2 + 1)
   else u).

Definition bgkeys_work (now : Z) (pattern : bytes) : cmd (bytes * Z) := λ s c,
  '(_, _, k, wu) ← pogocache_iter (s_clock s 0%nat)
     (IterOpts now false 0 (Some (keys_entry pattern))) Root (s_cache s) (s_world s, ([], 0));
  Some (wu.2, set_cache s k wu.1, c).

(** The loop of [bgkeys_done]: reads [count] keys out of the buffer. *)
Fixpoint read_keys (count : nat) (p : bytes) : list bytes :=
  match count with
  | O => []
  | S count =>
      let '(n, keylen) := varint_read_u64 (take 10 p) in
      let p := drop (Z.to_nat n) p in
      take (Z.to_nat keylen) p :: read_keys count (drop (Z.to_nat keylen) p)
  end.

Definition bgkeys_done (buf : bytes) (count : Z) (c : conn job) : conn job :=
  let keys := read_keys (Z.to_nat count) buf in
  if decide (c_proto c = PROTO_POSTGRES) then
    let c := pg_write_row_desc c [str "key"] in
    let c := foldl (λ c key, pg_write_row_data c [key]) c keys in
    pg_done (str "KEYS " ++ u64toa count) c
  else foldl conn_write_bulk (conn_write_array c count) keys.

Definition bgwork (j : job) : cmd unit := λ s c,
  let '(ok, c) := conn_bgwork c j in
  Some (tt, s, if ok then c else conn_write_error c (str "ERR failed to do work")).

Definition cmdKEYS : cmd unit :=
  args ← get_args;
  match args with
  | [_; pattern] => now ← sys_now; bgwork (JobKeys now pattern)
  | _ => wrong_args
  end.

(** ** DEL, DBSIZE *)

(** The loop of DEL: how many were deleted. *)
Fixpoint del_loop (now : Z) (keys : list bytes) (deleted : Z) : cmd Z :=
  match keys with
  | [] => mret deleted
  | key :: keys =>
      '(status, _, _) ← remove Root key (DeleteOpts now None) tt;
      del_loop now keys (if status =? POGOCACHE_DELETED then deleted + 1 else deleted)
  end.

Definition cmdDEL : cmd unit :=
  args ← get_args;
  match args with
  | _ :: _ :: _ =>
      now ← sys_now;
      deleted ← del_loop now (drop 1 args) 0;
      reply (λ c,
        match c_proto c with
        | PROTO_MEMCACHE =>
            conn_write_raw_cstr c (if deleted =? 0 then str "NOT_FOUND" ++ crlf else str "DELETED" ++ crlf)
        | PROTO_HTTP =>
            if deleted =? 0 then conn_write_http c 404 (str "Not Found") (str "Not Found" ++ crlf)
            else conn_write_http c 200 (str "OK") (str "Deleted" ++ crlf)
        | PROTO_POSTGRES => pg_done (str "DEL " ++ i64toa deleted) c
        | _ => conn_write_int c deleted
        end)
  | _ => wrong_args
  end.

Definition count_keys (now : Z) : cmd Z := λ s c,
  '(count, _, k) ← pogocache_count (ScanOpts now false 0 false) Root (s_cache s);
  Some (count, set_cache s k (s_world s), c).

Definition cmdDBSIZE : cmd unit :=
  args ← get_args;
  match args with
  | [_] =>
      now ← sys_now;
      count ← count_keys now;
      reply (λ c,
        if decide (c_proto c = PROTO_POSTGRES) then
          pg_write_simple_row_i64_ready c (str "count") count (str "DBSIZE")
        else conn_write_int c (i64 count))
  | _ => wrong_args
  end.

(** ** FLUSHALL *)

(** [thflush]: clears the shards from [start] on; [nshards] is a global. *)
Fixpoint thflush_loop (todo : nat) (now i : Z) : cmd unit :=
  match todo with
  | O => mret tt
  | S todo =>
      (λ s c,
        '(_, k) ← pogocache_clear (s_clock s 0%nat) (ScanOpts now true i false) Root (s_cache s);
        Some (tt, set_cache s k (s_world s), c));;
      thflush_loop todo now (i + 1)
  end.

Definition thflush (start count : Z) : cmd unit :=
  now ← sys_now; thflush_loop (Z.to_nat count) now start.

(** The shards of thread [i] of [nprocs] and of the later threads. *)
Fixpoint flush_ranges (todo : nat) (nshards nprocs start : Z) : list (Z * Z) :=
  match todo with
  | O => []
  | S O => [(start, nshards - start)]
  | S todo => (start, Z.quot nshards nprocs) :: flush_ranges todo nshards nprocs (start + Z.quot nshards nprocs)
  end.

(** [bgflushwork]. The threads run one after the other; [Locks.v] shows what
    their interleavings can do. *)
Definition bgflushwork (nprocs : Z) : cmd unit :=
  set_flush_delay 0;;
  _ ← sys_now;
  nshards ← (λ s c, Some (nshards (c_ctx (s_cache s)), s, c));
  let nprocs := if nshards <? nprocs then nshards else nprocs in
  foldr (λ r m, thflush r.1 r.2;; m) (mret tt) (flush_ranges (Z.to_nat nprocs) nshards nprocs 0).

Definition ok_reply (c : conn job) : conn job :=
  if decide (c_proto c = PROTO_MEMCACHE) then conn_write_raw_cstr c (str "OK" ++ crlf)
  else conn_write_string c (str "OK").

Definition bgflushdone (cmdname : bytes) (c : conn job) : conn job :=
  if decide (c_proto c = PROTO_POSTGRES) then pg_done (cmdname ++ str " SYNC") c else ok_reply c.

(** The loop over the options: whether to flush later, and after which delay. *)
Fixpoint flush_options (args : list bytes) (async : bool) (delay : Z) : bool * Z + bytes :=
  match args with
  | [] => inl (async, delay)
  | a :: args =>
      if argeq_bytes a (str "async") then flush_options args true delay
      else if argeq_bytes a (str "sync") then flush_options args false delay
      else if argeq_bytes a (str "delay") then
        match args with
        | [] => inr ERR_SYNTAX_ERROR
        | x :: args =>
            let '(ok, delay) := parse_i64 x in
            if negb ok then inr (str "ERR invalid exptime argument")
            else flush_options args (async || (0 <? delay)) delay
        end
      else inr ERR_SYNTAX_ERROR
  end.

Definition start_flush (cmdname : bytes) : cmd unit := λ s c,
  Some (tt, s, (conn_bgwork c (JobFlush cmdname)).2).

Definition cmdFLUSHALL : cmd unit :=
  args ← get_args;
  name ← arg 0;
  let cmdname :=
    if argeq_bytes name (str "flush") then str "FLUSH"
    else if argeq_bytes name (str "flushdb") then str "FLUSHDB" else str "FLUSHALL" in
  match flush_options (drop 1 args) false 0 with
  | inr msg => error msg
  | inl (async, delay) =>
      if (async : bool) then
        now ← sys_now;
        set_flush_delay (int64_add_clamp (int64_mul_clamp (Z.max 0 delay) SECOND) now);;
        reply (λ c, if decide (c_proto c = PROTO_POSTGRES) then pg_done (cmdname ++ str " ASYNC") c
                    else ok_reply c)
      else start_flush cmdname
  end.

(** ** SAVE and LOAD *)

Fixpoint saveload_options (load : bool) (args : list bytes) (fast : bool) (path : bytes)
    : bool * bytes + bytes :=
  match args with
  | [] => inl (fast, path)
  | a :: args =>
      if argeq_bytes a (str "fast") then saveload_options load args true path
      else if (load && argeq_bytes a (str "from")) || (negb load && argeq_bytes a (str "to")) then
        match args with
        | [] => inr ERR_SYNTAX_ERROR
        | x :: args => saveload_options load args fast x
        end
      else inr ERR_SYNTAX_ERROR
  end.

Definition cmdSAVELOAD : cmd unit :=
  args ← get_args;
  name ← arg 0;
  let load := argeq_bytes name (str "load") in
  match saveload_options load (drop 1 args) false (g_persist cfg) with
  | inr msg => error msg
  | inl (fast, path) =>
      if size path =? 0 then error (str "ERR path not provided")
      else bgwork (JobSaveLoad load fast (c_str path))
  end.

(** ** TTL, EXPIRE, EXISTS *)

Definition ttl_entry (pttl : bool) (v : view) (c : conn job) : option update * conn job :=
  let ttl :=
    if 0 <? v_expires v then
      Z.quot (v_expires v - v_time v) (if pttl then MILLISECOND else SECOND)
    else -1 in
  (None, if decide (c_proto c = PROTO_POSTGRES) then pg_write_row_data c [i64toa ttl]
         else conn_write_int c ttl).

Definition cmdTTL : cmd unit :=
  args ← get_args;
  match args with
  | [name; key] =>
      let pttl := argeq_bytes name (str "pttl") in
      now ← sys_now;
      p ← conn_proto;
      reply (λ c, if decide (p = PROTO_POSTGRES)
                  then pg_write_row_desc c [if pttl then str "pttl" else str "ttl"] else c);;
      status ← load_conn key (LoadOpts now true (Some (ttl_entry pttl)));
      let found := negb (status =? POGOCACHE_NOTFOUND) in
      reply (λ c, if negb found && bool_decide (p = PROTO_RESP) then conn_write_int c (-2) else c);;
      reply (λ c, if decide (p = PROTO_POSTGRES) then
                    pg_done ((if pttl then str "PTTL " else str "TTL ") ++
                             (if found then str "1" else str "0")) c
                  else c)
  | _ => wrong_args
  end.

Definition expire_entry (expires : Z) (v : view) (u : unit) : option update * unit :=
  (Some (Update (v_val v) (v_flags v) expires), u).

Definition cmdEXPIRE : cmd unit :=
  args ← get_args;
  match args with
  | _ :: key :: ex :: _ =>
      now ← sys_now;
      let '(ok, expires) := parse_i64 ex in
      if negb ok then error ERR_INVALID_INTEGER
      else
        let expires := int64_add_clamp now (int64_mul_clamp expires SECOND) in
        '(status, _, _) ← load Root key (LoadOpts now false (Some (expire_entry expires))) tt;
        let ret := if status =? POGOCACHE_FOUND then 1 else 0 in
        reply (λ c, if decide (c_proto c = PROTO_POSTGRES) then pg_done (str "EXPIRE " ++ i64toa ret) c
                    else conn_write_int c ret)
  | _ => wrong_args
  end.

(** The loops of EXISTS and TOUCH: how many keys are there. *)
Fixpoint count_loop (now : Z) (notouch : bool) (keys : list bytes) (count : Z) : cmd Z :=
  match keys with
  | [] => mret count
  | key :: keys =>
      '(status, _, _) ← load Root key (LoadOpts now notouch None) tt;
      count_loop now notouch keys (if status =? POGOCACHE_FOUND then count + 1 else count)
  end.

Definition cmdEXISTS : cmd unit :=
  args ← get_args;
  match args with
  | _ :: _ :: _ =>
      now ← sys_now;
      count ← count_loop now true (drop 1 args) 0;
      reply (λ c, if decide (c_proto c = PROTO_POSTGRES) then
                    pg_write_simple_row_i64_ready c (str "exists") count (str "EXISTS")
                  else conn_write_int c count)
  | _ => wrong_args
  end.

Definition cmdTOUCH : cmd unit :=
  args ← get_args;
  match args with
  | _ :: _ :: _ =>
      now ← sys_now;
      touched ← count_loop now false (drop 1 args) 0;
      reply (λ c, if decide (c_proto c = PROTO_POSTGRES) then pg_done (str "TOUCH " ++ i64toa touched) c
                  else conn_write_int c touched)
  | _ => wrong_args
  end.

(** ** SWEEP and PURGE *)

Definition sweep_cache (now : Z) : cmd unit := λ s c,
  '(_, _, _, k, w) ← pogocache_sweep (s_clock s 0%nat) (ScanOpts now false 0 false) Root
     (s_cache s) (s_world s);
  Some (tt, set_cache s k w, c).

Definition sweep_work : cmd unit :=
  start ← sys_now;
  sweep_cache start;;
  _ ← sys_now;
  mret tt.

(** [sweep_done] and [purge_done]. *)
Definition sync_done (tag : bytes) (c : conn job) : conn job :=
  if decide (c_proto c = PROTO_POSTGRES) then pg_done tag c else conn_write_string c (str "OK").

(** SWEEP and PURGE differ in their names and their work; the work of an
    asynchronous command runs at once. [purge_work] asks the allocator to
    return memory, which does not show in the model. *)
Definition sweep_or_purge (name : bytes) (async_work : cmd unit) (j : job) : cmd unit :=
  args ← get_args;
  if (2 <? length args)%nat then wrong_args
  else
    match args with
    | [_; a] =>
        if argeq_bytes a (str "async") then
          async_work;; reply (sync_done (name ++ str " ASYNC"))
        else syntax_error
    | _ => bgwork j
    end.

Definition cmdSWEEP : cmd unit := sweep_or_purge (str "SWEEP") sweep_work JobSweep.
Definition cmdPURGE : cmd unit := sweep_or_purge (str "PURGE") (mret tt) JobPurge.

(** ** ECHO, PING, QUIT *)

Definition cmdECHO : cmd unit :=
  args ← get_args;
  match args with
  | [_; msg] =>
      reply (λ c, if decide (c_proto c = PROTO_POSTGRES) then
                    pg_write_simple_row_data_ready c (str "message") msg (str "ECHO")
                  else conn_write_bulk c msg)
  | _ => wrong_args
  end.

Definition cmdPING : cmd unit :=
  args ← get_args;
  match args with
  | _ :: _ :: _ :: _ => wrong_args
  | [_; msg] =>
      reply (λ c, if decide (c_proto c = PROTO_POSTGRES) then
                    pg_write_simple_row_data_ready c (str "message") msg (str "PING")
                  else conn_write_bulk c msg)
  | _ =>
      reply (λ c, if decide (c_proto c = PROTO_POSTGRES) then
                    pg_write_simple_row_str_ready c (str "message") (str "PONG") (str "PING")
                  else conn_write_string c (str "PONG"))
  end.

Definition cmdQUIT : cmd unit :=
  reply (λ c, conn_close (if decide (c_proto c = PROTO_RESP) then conn_write_string c (str "OK") else c)).

(** ** INCR and DECR *)

(** [struct get64ctx]; [g_val] is the union of [ival] and [uval]. *)
Record get64ctx := Get64 { g_ok : bool; g_val : Z; g_expires : Z; g_flags : Z; g_cas : Z }.

Definition get64 (isunsigned : bool) (v : view) (u : get64ctx) : option update * get64ctx :=
  let '(ok, x) := if isunsigned then parse_u64 (v_val v) else parse_i64 (v_val v) in
  (None, Get64 ok x (v_expires v) (v_flags v) (v_cas v)).

(** The builtins with overflow: whether it overflows, and the wrapped result. *)
Definition delta_overflow (isunsigned decr : bool) (x delta : Z) : bool * Z :=
  let r := if decr then x - delta else x + delta in
  if isunsigned then (negb ((0 <=? r) && (r <? 2 ^ 64)), u64 r)
  else (negb ((INT64_MIN <=? r) && (r <=? INT64_MAX)), i64 r).

Definition execINCRDECR (key : bytes) (delta : Z) (decr isunsigned : bool) (cmdname : bytes)
    : cmd unit :=
  now ← sys_now;
  batch ← begin_batch;
  '(status, batch, ctx) ← load batch key (LoadOpts now false (Some (get64 isunsigned)))
    (Get64 false 0 0 0 0);
  p ← conn_proto;
  let found := status =? POGOCACHE_FOUND in
  if found && negb (g_ok ctx) then
    (if decide (p = PROTO_MEMCACHE) then
      reply (λ c, conn_write_raw_cstr c
        (str "CLIENT_ERROR cannot increment or decrement non-numeric value" ++ crlf))
     else error ERR_INVALID_INTEGER);;
    end_batch batch
  else if negb found && bool_decide (p = PROTO_MEMCACHE) then
    reply (λ c, conn_write_raw_cstr c (str "NOT_FOUND" ++ crlf));;
    end_batch batch
  else
    let '(overflow, x) := delta_overflow isunsigned decr (g_val ctx) delta in
    if overflow && negb (bool_decide (p = PROTO_MEMCACHE)) then
      error (str "ERR increment or decrement would overflow");;
      end_batch batch
    else
      let val := if isunsigned then u64toa x else i64toa x in
      '(status, batch, _) ← store batch key val
        (StoreOpts now (g_expires ctx) 0 (g_cas ctx) (g_flags ctx) false false false false false
          (None : option (view → unit → bool * unit))) tt;
      (if status =? POGOCACHE_NOMEM then error ERR_OUT_OF_MEMORY
       else if negb ((status =? POGOCACHE_INSERTED) || (status =? POGOCACHE_REPLACED)) then fail
       else if decide (p = PROTO_POSTGRES) then
         reply (λ c, pg_write_simple_row_str_readyf c (str "value") val cmdname)
       else if isunsigned then reply (λ c, conn_write_uint c x)
       else reply (λ c, conn_write_int c x));;
      end_batch batch.

(** [tolower(args->bufs[0].data[0]) == 'u']; an empty name has no such byte. *)
Definition is_unsigned_name (name : bytes) : cmd bool :=
  match name with [] => fail | c :: _ => mret (tolower (schar c) =? 117) end.

Definition cmdINCRDECRBY (decr : bool) (cmdname : bytes) : cmd unit :=
  args ← get_args;
  match args with
  | [name; key; d] =>
      isunsigned ← is_unsigned_name name;
      let '(ok, delta) := if (isunsigned : bool) then parse_u64 d else parse_i64 d in
      if negb ok then
        p ← conn_proto;
        if decide (p = PROTO_MEMCACHE) then
          reply (λ c, conn_write_raw_cstr c (str "CLIENT_ERROR invalid numeric delta argument" ++ crlf))
        else error ERR_INVALID_INTEGER
      else execINCRDECR key delta decr isunsigned cmdname
  | _ => wrong_args
  end.

Definition cmdDECRBY : cmd unit := cmdINCRDECRBY true (str "DECRBY").
Definition cmdINCRBY : cmd unit := cmdINCRDECRBY false (str "INCRBY").

(** DECR and INCR. *)
Definition incr_or_decr (decr : bool) (cmdname : bytes) : cmd unit :=
  args ← get_args;
  match args with
  | [name; key] =>
      isunsigned ← is_unsigned_name name;
      execINCRDECR key 1 decr isunsigned cmdname
  | _ => wrong_args
  end.

Definition cmdDECR : cmd unit := incr_or_decr true (str "DECR").
Definition cmdINCR : cmd unit := incr_or_decr false (str "INCR").

(** ** APPEND and PREPEND *)

(** What [append_entry] leaves in [struct appendctx]: the joined value. *)
Record appendctx := AppendCtx { ap_out : bytes; ap_expires : Z; ap_flags : Z }.

Definition append_entry (prepend : bool) (val : bytes) (v : view) (u : appendctx)
    : option update * appendctx :=
  (None, AppendCtx (if prepend then val ++ v_val v else v_val v ++ val) (v_expires v) (v_flags v)).

Definition append_opts (now expires flags : Z) : store_opts unit :=
  StoreOpts now expires 0 0 flags false false false false false None.

Definition cmdAPPEND : cmd unit :=
  now ← sys_now;
  args ← get_args;
  match args with
  | [name; key; val] =>
      let prepend := argeq_bytes name (str "prepend") in
      batch ← begin_batch;
      '(status, batch, ctx) ← load batch key (LoadOpts now false (Some (append_entry prepend val)))
        (AppendCtx [] 0 0);
      p ← conn_proto;
      if (status =? POGOCACHE_NOTFOUND) && bool_decide (p = PROTO_MEMCACHE) then
        reply (λ c, conn_write_raw_cstr c (str "NOT_STORED" ++ crlf));;
        end_batch batch
      else if negb (status =? POGOCACHE_NOTFOUND) && (MAXARGSZ <? size (ap_out ctx)) then
        error (str "ERR value too large");;
        end_batch batch
      else
        let '(val, opts) :=
          if status =? POGOCACHE_NOTFOUND then (val, append_opts now 0 0)
          else (ap_out ctx, append_opts now (ap_expires ctx) (ap_flags ctx)) in
        '(status, batch, _) ← store batch key val opts tt;
        (if status =? POGOCACHE_NOMEM then error ERR_OUT_OF_MEMORY
         else if negb ((status =? POGOCACHE_INSERTED) || (status =? POGOCACHE_REPLACED)) then fail
         else
           reply (λ c, match p with
                       | PROTO_POSTGRES =>
                           pg_done ((if prepend then str "PREPEND " else str "APPEND ") ++
                                    u64toa (size val)) c
                       | PROTO_MEMCACHE => conn_write_raw_cstr c (str "STORED" ++ crlf)
                       | _ => conn_write_int c (size val)
                       end));;
        end_batch batch
  | _ => wrong_args
  end.

Definition cmdPREPEND : cmd unit := cmdAPPEND.

(** ** AUTH *)

Definition err_noauth : bytes := str "NOAUTH Authentication required.".
Definition err_wrongpass : bytes :=
  str "WRONGPASS invalid username-password pair or user is disabled.".

Definition cmdAUTH : cmd unit :=
  args ← get_args;
  name ← arg 0;
  if negb (argeq_bytes name (str "auth")) then
    reply (λ c, if decide (c_proto c = PROTO_MEMCACHE) then
                  conn_write_raw_cstr c (str "CLIENT_ERROR Authentication required" ++ crlf)
                else conn_write_error c err_noauth)
  else
    match args with
    | [_; pass] =>
        if bool_decide (pass = g_auth cfg) then
          reply (λ c, conn_setauth c true);;
          reply (λ c, if decide (c_proto c = PROTO_POSTGRES) then
                        pg_write_ready (pg_write_complete c (str "AUTH OK")) 73
                      else conn_write_string c (str "OK"))
        else error err_wrongpass
    | [_; _; _] => error err_wrongpass
    | [_] => wrong_args
    | _ => syntax_error
    end.

(** ** The table of commands *)

(** DEBUG and STATS report on the process, which is outside the model. *)
Context (cmdDEBUG cmdSTATS : cmd unit).

Definition cmds : list (bytes * cmd unit) := [
  (str "set", cmdSET); (str "get", cmdGET); (str "del", cmdDEL); (str "mget", cmdMGET);
  (str "mgets", cmdMGET); (str "ttl", cmdTTL); (str "pttl", cmdTTL); (str "expire", cmdEXPIRE);
  (str "setex", cmdSETEX); (str "dbsize", cmdDBSIZE); (str "quit", cmdQUIT); (str "echo", cmdECHO);
  (str "exists", cmdEXISTS); (str "flushdb", cmdFLUSHALL); (str "flushall", cmdFLUSHALL);
  (str "flush", cmdFLUSHALL); (str "purge", cmdPURGE); (str "sweep", cmdSWEEP); (str "keys", cmdKEYS);
  (str "ping", cmdPING); (str "touch", cmdTOUCH); (str "debug", cmdDEBUG); (str "incrby", cmdINCRBY);
  (str "decrby", cmdDECRBY); (str "incr", cmdINCR); (str "decr", cmdDECR); (str "uincrby", cmdINCRBY);
  (str "udecrby", cmdDECRBY); (str "uincr", cmdINCR); (str "udecr", cmdDECR);
  (str "append", cmdAPPEND); (str "prepend", cmdPREPEND); (str "auth", cmdAUTH);
  (str "save", cmdSAVELOAD); (str "load", cmdSAVELOAD); (str "stats", cmdSTATS)].

End Cmds.

(** The hash table is built from the names alone; it holds the numbers of the
    commands. *)

(** The loop that doubles [nbuckets]. *)
Fixpoint grow_buckets (fuel : nat) (nbuckets n : Z) : Z :=
  match fuel with
  | O => nbuckets
  | S fuel => if nbuckets <? n then grow_buckets fuel (nbuckets * 2) n else nbuckets
  end.

(** The search for a free bucket from [hash] on. *)
Fixpoint place_cmd (fuel : nat) (j hash : Z) (id : nat) (buckets : list (option nat))
    : list (option nat) :=
  match fuel with
  | O => buckets
  | S fuel =>
      let k := Z.to_nat ((j + hash) .& (Z.of_nat (length buckets) - 1)) in
      match buckets !! k with
      | Some None => <[k := Some id]> buckets
      | _ => place_cmd fuel (j + 1) hash id buckets
      end
  end.

Fixpoint place_cmds (id : nat) (names : list bytes) (buckets : list (option nat))
    : list (option nat) :=
  match names with
  | [] => buckets
  | name :: names =>
      place_cmds (S id) names (place_cmd (length buckets) 0 (fnv1a_case name) id buckets)
  end.

Definition build_commands_table (names : list bytes) : list (option nat) :=
  let n := Z.of_nat (length names) * 8 in
  let nbuckets := grow_buckets 64 2 n in
  place_cmds 0 names (repeat None (Z.to_nat nbuckets)).

(** The loop of [get_cmd]; it does not wrap around. [None] is a bucket past the
    end of the table. *)
Fixpoint probe_cmd (fuel : nat) (names : list bytes) (buckets : list (option nat)) (name : bytes)
    (j : nat) : option (option nat) :=
  match fuel with
  | O => None
  | S fuel =>
      b ← buckets !! j;
      match b with
      | None => Some None
      | Some id =>
          if argeq_bytes name (nth id names []) then Some (Some id)
          else probe_cmd fuel names buckets name (S j)
      end
  end.

Definition get_cmd (names : list bytes) (name : bytes) : option (option nat) :=
  let buckets := build_commands_table names in
  let j := Z.to_nat (fnv1a_case name .& (Z.of_nat (length buckets) - 1)) in
  probe_cmd (S (length buckets)) names buckets name j.

(** ** The dispatch *)

Section Dispatch.
Context `{Env} (cfg : config) (cmdDEBUG cmdSTATS : cmd unit).

Definition cmd_names : list bytes := (cmds cfg cmdDEBUG cmdSTATS).*1.

Definition unknown_command (name : bytes) : bytes :=
  take 127 (str "ERR unknown command '" ++ c_str name ++ str "'").

Definition evcommand : cmd unit := λ s c,
  if g_useauth cfg && negb (c_auth c) && negb (bool_decide (c_proto c = PROTO_HTTP)) then
    cmdAUTH cfg s c
  else
    name ← c_args c !! 0%nat;
    id ← get_cmd cmd_names name;
    match id with
    | Some id => p ← cmds cfg cmdDEBUG cmdSTATS !! id; p.2 s c
    | None => error (unknown_command name) s c
    end.

(** [detach_done]. *)
Definition detach_done (now then_ : Z) (c : conn job) : conn job :=
  let buf := i64toa now ++ str ":" ++ i64toa then_ in
  if decide (c_proto c = PROTO_POSTGRES) then pg_write_simple_row_str_ready c (str "detach") buf (str "DEBUG DETACH")
  else conn_write_bulk_cstr c buf.

(** Background work and its end, [work] then [done]; the snapshots are a
    parameter: whether the file was written or read, and the server after it. *)
Context (nprocs : Z) (saveload : bool → bool → bytes → server → option (bool * server)).

Definition run_job (j : job) : cmd unit :=
  match j with
  | JobKeys now pattern =>
      u ← bgkeys_work now pattern; reply (bgkeys_done u.1 u.2)
  | JobFlush cmdname => bgflushwork nprocs;; reply (bgflushdone cmdname)
  | JobSaveLoad load fast path => λ s c,
      '(ok, s) ← saveload load fast path s;
      Some (tt, s,
        if (ok : bool) then
          if decide (c_proto c = PROTO_POSTGRES) then
            pg_done ((if load then str "LOAD" else str "SAVE") ++ str " OK") c
          else ok_reply c
        else conn_write_error c (if load then str "load failed" else str "save failed"))
  | JobSweep => sweep_work;; reply (sync_done (str "SWEEP SYNC"))
  | JobPurge => _ ← sys_now; _ ← sys_now; reply (sync_done (str "PURGE SYNC"))
  | JobDetach now => then_ ← sys_now; reply (detach_done now then_)
  end.

End Dispatch.
