(* ===== verification/CmdTable.v ===== *)
(** * CmdTable: the hash table of commands and the patterns of KEYS

    The open addressing table of [get_cmd] finds the same command as a search
    through the list of commands would; the recursive matcher of KEYS decides
    the language of its patterns. *)

From S2P Require Import Prelude Util Heap Cache Resp RespProofs Conn Cmds.

(** ** Names without case *)

Definition lower (name : bytes) : bytes := (λ c, tolower (schar c)) <$> name.

Lemma argeq_lower name : ∀ cstr, argeq_bytes name cstr = bool_decide (lower name = cstr).
Proof.
  induction name as [|c name IH]; intros [|d cstr]; cbn [argeq_bytes lower fmap list_fmap]; try easy.
  fold (lower name). rewrite IH. destruct (tolower (schar c) =? d) eqn:E; zb.
  - subst d. cbn [andb]. apply bool_decide_ext. split; [now intros ->|now intros [= ->]].
  - symmetry. apply bool_decide_false. congruence.
Qed.

(** A name all of whose characters are lower case. *)
Definition is_lower (name : bytes) : bool := forallb (λ c, (0 <=? c) && (c <? 128) && (tolower c =? c)) name.

Lemma fnv_lower name : is_lower (lower name) = true → fnv1a_case name = fnv1a_case (lower name).
Proof.
  unfold fnv1a_case. generalize 2166136261 as acc. induction name as [|c name IH]; intros acc Hl; [easy|].
  cbn [lower fmap list_fmap is_lower forallb] in Hl. apply andb_true_iff in Hl as [Hc Hl].
  rewrite !andb_true_iff, Z.leb_le, Z.ltb_lt, Z.eqb_eq in Hc. destruct Hc as [[H0 H1] H2].
  cbn [lower fmap list_fmap fold_left]. rewrite (IH _ Hl). f_equal. do 4 f_equal.
  unfold schar at 2. rewrite (proj2 (Z.ltb_lt _ _)) by easy. now rewrite H2.
Qed.

(** ** The table *)

(** The search through the list. *)
Fixpoint find_cmd (id : nat) (names : list bytes) (name : bytes) : option nat :=
  match names with
  | [] => None
  | n :: names => if argeq_bytes name n then Some id else find_cmd (S id) names name
  end.

(** The names of the commands, and the table they give. *)
Definition all_names : list bytes := [
  str "set"; str "get"; str "del"; str "mget"; str "mgets"; str "ttl"; str "pttl"; str "expire";
  str "setex"; str "dbsize"; str "quit"; str "echo"; str "exists"; str "flushdb"; str "flushall";
  str "flush"; str "purge"; str "sweep"; str "keys"; str "ping"; str "touch"; str "debug";
  str "incrby"; str "decrby"; str "incr"; str "decr"; str "uincrby"; str "udecrby"; str "uincr";
  str "udecr"; str "append"; str "prepend"; str "auth"; str "save"; str "load"; str "stats"].

Definition table : list (option nat) := Eval vm_compute in build_commands_table all_names.

Lemma table_eq : build_commands_table all_names = table.
Proof. vm_compute. reflexivity. Qed.

(** From bucket [j] on there is an empty bucket before the end. *)
Fixpoint empty_ahead (fuel : nat) (j : nat) : bool :=
  match fuel with
  | O => false
  | S fuel =>
      match table !! j with
      | None => false
      | Some None => true
      | Some (Some id) => (id <? length all_names)%nat && empty_ahead fuel (S j)
      end
  end.

Lemma table_facts :
  forallb (empty_ahead (S (length table))) (seq 0 (length table)) = true ∧
  forallb (λ i, let n := nth i all_names [] in is_lower n &&
    match probe_cmd (S (length table)) all_names table n
            (Z.to_nat (fnv1a_case n .& (Z.of_nat (length table) - 1))) with
    | Some (Some k) => (k =? i)%nat
    | _ => false
    end) (seq 0 (length all_names)) = true ∧
  Z.of_nat (length table) = 512.
Proof. vm_compute. auto. Qed.

Lemma home_lt h : (Z.to_nat (h .& (Z.of_nat (length table) - 1)) < length table)%nat.
Proof.
  destruct table_facts as (_ & _ & Hl).
  assert (0 <= h .& (Z.of_nat (length table) - 1) < 512); [|lia].
  rewrite Hl. change (512 - 1) with (2 ^ 9 - 1). rewrite land_mask by lia. apply Z.mod_pos_bound. lia.
Qed.

(** A name of no command is followed to an empty bucket. *)
Lemma probe_miss fuel name : ∀ j,
  (∀ n, n ∈ all_names → argeq_bytes name n = false) → empty_ahead fuel j = true →
  probe_cmd fuel all_names table name j = Some None.
Proof.
  induction fuel as [|fuel IH]; intros j Hn He; [easy|]. cbn [probe_cmd empty_ahead] in *.
  destruct (table !! j) as [[id|]|]; try easy. cbn [mbind option_bind].
  apply andb_true_iff in He as [Hid He]. apply Nat.ltb_lt in Hid.
  rewrite Hn by now apply list_elem_of_In, nth_In. now apply IH.
Qed.

(** Two names that differ only in case are followed along the same buckets. *)
Lemma probe_lower fuel name : ∀ j, is_lower (lower name) = true →
  probe_cmd fuel all_names table name j = probe_cmd fuel all_names table (lower name) j.
Proof.
  induction fuel as [|fuel IH]; intros j Hl; [easy|]. cbn [probe_cmd].
  destruct (table !! j) as [[id|]|]; try easy. cbn [mbind option_bind].
  rewrite !argeq_lower, IH by easy.
  assert (lower (lower name) = lower name) as ->; [|easy].
  clear IH. induction name as [|c name IH]; [easy|]. cbn [lower fmap list_fmap is_lower forallb] in *.
  apply andb_true_iff in Hl as [Hc Hl].
  rewrite !andb_true_iff, Z.leb_le, Z.ltb_lt, Z.eqb_eq in Hc. destruct Hc as [[H0 H1] H2]. f_equal; [|now apply IH].
  unfold schar at 1. rewrite (proj2 (Z.ltb_lt _ _)) by easy. exact H2.
Qed.

Lemma find_cmd_spec names : ∀ id name,
  match find_cmd id names name with
  | Some k => ∃ i, (i < length names)%nat ∧ k = (id + i)%nat ∧ lower name = nth i names []
  | None => ∀ n, n ∈ names → argeq_bytes name n = false
  end.
Proof.
  induction names as [|n names IH]; intros id name; cbn [find_cmd]; [now intros n ?%not_elem_of_nil|].
  destruct (argeq_bytes name n) eqn:E.
  - exists 0%nat. rewrite argeq_lower in E. apply bool_decide_eq_true in E. cbn. split; [lia|]. split; [lia|easy].
  - specialize (IH (S id) name). destruct (find_cmd (S id) names name) as [k|].
    + destruct IH as (i & Hi & -> & Hl). exists (S i). cbn. split; [lia|]. split; [lia|easy].
    + intros m [->|Hm]%elem_of_cons; [easy|auto].
Qed.

(** The number of a command, for a name that is already in lower case. *)
Fixpoint index_of (id : nat) (names : list bytes) (name : bytes) : option nat :=
  match names with
  | [] => None
  | n :: names => if bool_decide (name = n) then Some id else index_of (S id) names name
  end.

Lemma find_cmd_lower names : ∀ id name, find_cmd id names name = index_of id names (lower name).
Proof.
  induction names as [|n names IH]; intros id name; cbn [find_cmd index_of]; [easy|].
  rewrite argeq_lower. now destruct (bool_decide _).
Qed.

Lemma get_cmd_spec name : get_cmd all_names name = Some (find_cmd 0 all_names name).
Proof.
  unfold get_cmd. rewrite table_eq. destruct table_facts as (Hempty & Hhit & _).
  rewrite forallb_forall in Hempty, Hhit. pose proof (find_cmd_spec all_names 0 name) as Hf.
  destruct (find_cmd 0 all_names name) as [k|].
  - destruct Hf as (i & Hi & -> & Hl). cbn [Nat.add].
    specialize (Hhit i). rewrite in_seq in Hhit. specialize (Hhit ltac:(lia)).
    cbv zeta in Hhit. rewrite <- Hl in Hhit. apply andb_true_iff in Hhit as [Hlow Hp].
    rewrite (fnv_lower name Hlow), (probe_lower _ name _ Hlow).
    destruct (probe_cmd _ _ _ _ _) as [[k'|]|]; try easy. apply Nat.eqb_eq in Hp. now subst.
  - apply probe_miss; [exact Hf|]. apply Hempty, in_seq. pose proof (home_lt (fnv1a_case name)). lia.
Qed.

(** The hash table of commands answers every lookup as the list of commands
    does: a name finds the command of that name whatever its case, any other
    name finds none, and no lookup runs past the end of the table, although
    the probe does not wrap around. *)
Theorem get_cmd_correct `{Env} cfg cmdDEBUG cmdSTATS name :
  get_cmd (cmd_names cfg cmdDEBUG cmdSTATS) name =
  Some (find_cmd 0 (cmd_names cfg cmdDEBUG cmdSTATS) name).
Proof. exact (get_cmd_spec name). Qed.

(** ** The patterns of KEYS *)

(** What a pattern consists of. A backslash makes a star a character; it does
    not do so for a question mark. A pattern does not end in a backslash. *)
Inductive token := Any | Star | Lit (c : Z).

Fixpoint tokens (pat : bytes) : option (list token) :=
  match pat with
  | [] => Some []
  | c :: pat =>
      if c =? 92 then
        match pat with
        | [] => None
        | d :: pat => ts ← tokens pat; Some ((if d =? 63 then Any else Lit d) :: ts)
        end
      else
        ts ← tokens pat;
        Some ((if c =? 42 then Star else if c =? 63 then Any else Lit c) :: ts)
  end.

(** The strings a pattern stands for. *)
Inductive glob : list token → bytes → Prop :=
  | glob_nil : glob [] []
  | glob_any d ts s : glob ts s → glob (Any :: ts) (d :: s)
  | glob_lit d ts s : glob ts s → glob (Lit d :: ts) (d :: s)
  | glob_star a ts s : glob ts s → glob (Star :: ts) (a ++ s).

Definition in_language (pat s : bytes) : Prop := ∃ ts, tokens pat = Some ts ∧ glob ts s.

Lemma glob_star_inv ts s :
  glob (Star :: ts) s ↔ glob ts s ∨ ∃ d s1, s = d :: s1 ∧ glob (Star :: ts) s1.
Proof.
  split.
  - inversion_clear 1 as [| | |a ? s' Hs]. destruct a as [|d a]; [now left|].
    right. exists d, (a ++ s'). split; [easy|]. now constructor.
  - intros [Hs|(d & s1 & -> & Hs)]; [exact (glob_star [] _ _ Hs)|].
    inversion_clear Hs as [| | |a ? s' Hs']. exact (glob_star (d :: a) _ _ Hs').
Qed.

Lemma glob_star_star ts s : glob (Star :: Star :: ts) s ↔ glob (Star :: ts) s.
Proof.
  split.
  - inversion_clear 1 as [| | |a ? s' Hs]. inversion_clear Hs as [| | |b ? s2 Hs2].
    rewrite app_assoc. now constructor.
  - intros Hs. exact (glob_star [] _ _ Hs).
Qed.

Lemma glob_star_all s : glob [Star] s.
Proof. rewrite <- (app_nil_r s). constructor. constructor. Qed.

(** One character against the rest of a pattern. *)
Lemma in_language_literal d pat s (m : bool) c1 s1 :
  s = c1 :: s1 → (m = true ↔ in_language pat s1) →
  ((if negb (d =? 63) && negb (c1 =? d) then false else m) = true ↔
   ∃ ts, tokens pat = Some ts ∧ glob ((if d =? 63 then Any else Lit d) :: ts) s).
Proof.
  intros -> Hm. destruct (d =? 63) eqn:E63; cbn [negb andb].
  - rewrite Hm. split; intros (ts & Ht & Hg); exists ts; (split; [easy|]); [now constructor|now inversion Hg].
  - destruct (c1 =? d) eqn:Ec; zb; cbn [negb].
    + subst d. rewrite Hm. split; intros (ts & Ht & Hg); exists ts; (split; [easy|]); [now constructor|now inversion Hg].
    + split; [easy|]. intros (ts & _ & Hg). inversion Hg. congruence.
Qed.

Definition stars (pat : bytes) : Z := Z.of_nat (length (filter (λ c, c = 42) pat)).

Lemma stars_cons c pat : stars (c :: pat) = stars pat + if c =? 42 then 1 else 0.
Proof.
  unfold stars. rewrite filter_cons. destruct (c =? 42) eqn:E; zb.
  - rewrite decide_True by easy. cbn [length]. lia.
  - rewrite decide_False by easy. lia.
Qed.

Lemma stars_nonneg pat : 0 <= stars pat.
Proof. unfold stars. lia. Qed.

Lemma match_loop_spec fuel : ∀ pat s depth,
  (length pat + length s < fuel)%nat → 0 <= depth → depth + stars pat < 128 →
  (match_loop fuel pat s depth = true ↔ in_language pat s).
Proof.
  induction fuel as [|fuel IH]; intros pat s depth Hf Hd Hs; [lia|]. cbn [match_loop].
  pose proof (stars_nonneg pat). rewrite (proj2 (Z.eqb_neq depth 128)) by lia.
  destruct pat as [|c pat1].
  { rewrite Nat.eqb_eq. split.
    - intros ->%nil_length_inv. exists []. split; [easy|constructor].
    - intros (ts & [= <-] & Hg). now inversion Hg. }
  cbn [length] in Hf. rewrite stars_cons in Hs. pose proof (stars_nonneg pat1) as Hs1.
  assert (Hlit : ∀ d p, (length p <= length pat1)%nat → depth + stars p < 128 →
    (match s with
     | [] => false
     | e :: s1 => if negb (d =? 63) && negb (e =? d) then false else match_loop fuel p s1 depth
     end = true ↔ ∃ ts, tokens p = Some ts ∧ glob ((if d =? 63 then Any else Lit d) :: ts) s)).
  { intros d p Hp Hsp. destruct s as [|e s1].
    - split; [easy|]. intros (ts & _ & Hg). destruct (d =? 63); inversion Hg.
    - apply (in_language_literal d p (e :: s1) _ e s1); [easy|]. cbn [length] in Hf. apply IH; [lia|easy|easy]. }
  unfold in_language. cbn [tokens]. destruct (c =? 92) eqn:E92.
  - destruct pat1 as [|d pat2]; [split; [easy|]; now intros (ts & ? & _)|].
    rewrite stars_cons in Hs, Hs1. pose proof (stars_nonneg pat2).
    rewrite (Hlit d pat2); [|cbn; lia|destruct (c =? 42), (d =? 42); lia].
    destruct (tokens pat2) as [ts|]; cbn [mbind option_bind].
    + split; intros (ts' & [= <-] & Hg); eexists; (split; [reflexivity|exact Hg]).
    + split; now intros (ts' & ? & _).
  - destruct (c =? 42) eqn:E42.
    + destruct pat1 as [|c2 pat2].
      { cbn. split; [|easy]. intros _. eexists. split; [reflexivity|apply glob_star_all]. }
      set (pat1 := c2 :: pat2) in *. destruct (c2 =? 42) eqn:E2.
      * rewrite (IH pat1 s depth) by lia. unfold in_language, pat1. cbn [tokens].
        rewrite E2. apply Z.eqb_eq in E2 as ->. cbn [Z.eqb Pos.eqb].
        destruct (tokens pat2) as [ts|]; cbn [mbind option_bind]; [|split; now intros (ts' & ? & _)].
        split; intros (ts' & [= <-] & Hg); eexists; (split; [reflexivity|]); now apply glob_star_star.
      * assert (Hfst : match_loop fuel pat1 s (depth + 1) = true ↔ in_language pat1 s) by (apply IH; lia).
        assert (Hsnd : ∀ d s1, s = d :: s1 →
          (match_loop fuel (c :: pat1) s1 depth = true ↔ in_language (c :: pat1) s1)).
        { intros d s1 ->. apply IH; [cbn [length] in *; lia|easy|rewrite stars_cons, E42; lia]. }
        assert (Htok : tokens (c :: pat1) = ts ← tokens pat1; Some (Star :: ts)).
        { cbn [tokens]. now rewrite E92, E42. }
        unfold in_language in Hsnd. rewrite Htok in Hsnd.
        destruct (match_loop fuel pat1 s (depth + 1)).
        { split; [|easy]. intros _. destruct (proj1 Hfst eq_refl) as (ts & -> & Hg).
          eexists. split; [reflexivity|]. apply glob_star_inv. now left. }
        assert (Hno : ∀ ts, tokens pat1 = Some ts → ¬ glob ts s).
        { intros ts Ht Hg. assert (false = true) by (apply Hfst; now exists ts). easy. }
        destruct s as [|d s1].
        { split; [easy|]. intros (ts' & Ht & Hg). destruct (tokens pat1) as [ts|]; [|easy].
          injection Ht as <-. apply glob_star_inv in Hg as [Hg|(d & s1 & ? & _)]; [now apply Hno in Hg|easy]. }
        rewrite (Hsnd d s1 eq_refl). destruct (tokens pat1) as [ts|]; cbn [mbind option_bind];
          [|split; now intros (ts' & ? & _)].
        split; intros (ts' & [= <-] & Hg); eexists; (split; [reflexivity|]).
        -- apply glob_star_inv. right. eauto.
        -- apply glob_star_inv in Hg as [Hg|(d' & s' & [= <- <-] & Hg)]; [now apply Hno in Hg|easy].
    + rewrite (Hlit c pat1) by lia. destruct (tokens pat1) as [ts|]; cbn [mbind option_bind].
      * split; intros (ts' & [= <-] & Hg); eexists; (split; [reflexivity|exact Hg]).
      * split; now intros (ts' & ? & _).
Qed.


