(* ===== verification/CmdFrame.v ===== *)
(** * CmdFrame: what commands may see and touch of a connection

    The callbacks of the engine run on related user states alike; therefore a
    command neither reads nor changes the packet buffer of the connection it
    runs on, nor its protocol. This discharges the interface of [ConnProofs.v]:
    the stream theorem holds for the real commands. *)

From S2P Require Import Prelude Util Context Entry Heap Map Shard Cache.
From S2P Require Import Resp RespProofs Memcache Http Parse Conn ConnProofs Cmds.

(** ** The engine on related user states *)

Section Related.
Context `{Env} {U : Type} (R : U → U → Prop).

Definition related (r1 r2 : option (Z * shard_t * world * U)) : Prop :=
  match r1, r2 with
  | Some (st1, sh1, w1, u1), Some (st2, sh2, w2, u2) =>
      st1 = st2 ∧ sh1 = sh2 ∧ w1 = w2 ∧ R u1 u2
  | None, None => True
  | _, _ => False
  end.

Definition related_api (r1 r2 : option (Z * handle * cache_t * world * U)) : Prop :=
  match r1, r2 with
  | Some (st1, h1, c1, w1, u1), Some (st2, h2, c2, w2, u2) =>
      st1 = st2 ∧ h1 = h2 ∧ c1 = c2 ∧ w1 = w2 ∧ R u1 u2
  | None, None => True
  | _, _ => False
  end.

(** A step that does not involve the user state. *)
Lemma related_bind {A} (o : option A) (k1 k2 : A → option (Z * shard_t * world * U)) :
  (∀ x, related (k1 x) (k2 x)) → related (o ≫= k1) (o ≫= k2).
Proof. intros Hk. destruct o; cbn; auto. Qed.

Lemma execute_key_related key h c w u1 u2
    (op : Z → Z → shard_t → world → U → option (Z * shard_t * world * U)) :
  (∀ i hash sh w, related (op i hash sh w u1) (op i hash sh w u2)) →
  related_api (execute_key key h c w u1 op) (execute_key key h c w u2 op).
Proof.
  intros Hop. unfold execute_key, execute. cbv zeta. generalize (th64 key (seed (c_ctx c))). intros fh.
  generalize (shard_index (c_ctx c) fh) (u32 fh). intros i hash.
  destruct (lock h i c) as [[h' c']|]; [|easy]. cbn [mbind option_bind].
  destruct (shard_get c' i) as [sh|]; [|easy]. cbn [mbind option_bind fst snd]. specialize (Hop i hash sh w).
  unfold related in Hop. destruct (op i hash sh w u1) as [[[[st1 sh1] w1] v1]|], (op i hash sh w u2) as [[[[st2 sh2] w2] v2]|];
    try easy. destruct Hop as (<- & <- & <- & HR). cbn [mbind option_bind].
  destruct (release h' i _) as [c2|]; cbn [mbind option_bind related_api fst snd]; easy.
Qed.

Lemma load_related clock key time notouch (cb : view → U → option update * U) h c w u1 u2 :
  R u1 u2 → (∀ v u1 u2, R u1 u2 → (cb v u1).1 = (cb v u2).1 ∧ R (cb v u1).2 (cb v u2).2) →
  related_api (pogocache_load clock key (LoadOpts time notouch (Some cb)) h c w u1)
    (pogocache_load clock key (LoadOpts time notouch (Some cb)) h c w u2).
Proof.
  intros HR Hcb. apply execute_key_related. intros i hash sh w0. unfold loadop. cbn [lo_time lo_notouch lo_entry].
  apply related_bind. intros bidx. destruct (bidx =? -1); [easy|].
  apply related_bind. intros bkt. apply related_bind. intros e.
  destruct (negb _); [repeat (apply related_bind; intros ?); easy|].
  apply related_bind. intros w1. set (v := view_of _ _ _ _ _).
  specialize (Hcb v u1 u2 HR). destruct (cb v u1) as [o1 v1], (cb v u2) as [o2 v2]. cbn in Hcb.
  destruct Hcb as [<- HR']. destruct o1 as [upd|]; [|easy].
  destruct (entry_new _ _ _ _ _ _ _) as [entry2 w2]. destruct (entry2 =? 0); [easy|].
  apply related_bind. intros w3. apply related_bind. easy.
Qed.

Lemma put_back_related ctx sh w u1 u2 entry old hash status :
  R u1 u2 → related (store_put_back ctx sh w u1 entry old hash status) (store_put_back ctx sh w u2 entry old hash status).
Proof.
  intros HR. unfold store_put_back. apply related_bind. intros [[[ok e] m] w1]. destruct (negb _); [easy|].
  apply related_bind. easy.
Qed.

(** The options of a store with its callback. *)
Lemma store_related clock key val (opts : store_opts U) h c w u1 u2 :
  R u1 u2 →
  (∀ cb, so_entry opts = Some cb → ∀ v u1 u2, R u1 u2 → (cb v u1).1 = (cb v u2).1 ∧ R (cb v u1).2 (cb v u2).2) →
  related_api (pogocache_store clock key val opts h c w u1) (pogocache_store clock key val opts h c w u2).
Proof.
  intros HR Hcb. apply execute_key_related. intros i hash sh w0. unfold storeop.
  apply related_bind. intros expires. destruct (entry_new _ _ _ _ _ _ _) as [entry w1].
  assert (Hnomem : ∀ sh w, related (store_nomem sh w u1 entry) (store_nomem sh w u2 entry)).
  { intros. unfold store_nomem. apply related_bind. easy. }
  destruct (entry =? 0); [apply Hnomem|]. apply related_bind. intros w2.
  destruct (_ && _); [apply Hnomem|]. apply related_bind. intros [[[ok old] m] w3].
  destruct (negb ok); [apply Hnomem|]. apply related_bind. intros [[o sh2] w4]. destruct o as [[o e]|].
  - unfold store_present. destruct (negb _); [now apply put_back_related|].
    destruct (so_entry opts) as [cb|].
    + specialize (Hcb cb eq_refl (view_of (c_ctx c) i (opt_now (so_time opts) clock) key e) u1 u2 HR).
      destruct (cb _ u1) as [g1 v1], (cb _ u2) as [g2 v2]. cbn in Hcb. destruct Hcb as [<- HR'].
      destruct (negb g1); [now apply put_back_related|]. apply related_bind. easy.
    + cbn [negb]. apply related_bind. easy.
  - unfold store_absent. destruct (_ || _).
    + apply related_bind. intros [e' m']. destruct (negb _); [easy|]. apply related_bind. easy.
    + destruct (_ && _); [|easy]. apply related_bind. intros [sh3 w5]. easy.
Qed.

End Related.

(** ** Frames *)

(** A function on connections that leaves the packet and the protocol alone. *)
Definition frame_fun (f : conn job → conn job) : Prop :=
  ∀ c p, f (set_packet c p) = set_packet (f c) p ∧ c_proto (f c) = c_proto c.

(** Splits on every test of a writer; what is left is definitional. *)
Ltac frame_conn :=
  intros [] ?p;
  unfold pg_done, ok_reply, sync_done, conn_write_error, write_error, conn_write_http, conn_write_int,
    conn_write_uint, pg_write_simple_row_str_readyf, pg_write_simple_row_i64_ready,
    pg_write_simple_row_str_ready, pg_write_simple_row_data_ready, pg_write_completef, pg_write_ready;
  cbn [c_proto c_pg set_packet conn_write_raw set_out writeln pg_write_complete pg_write_row_data
    pg_write_row_desc pg_write_error conn_write_raw_cstr conn_write_array conn_write_bulk conn_write_string
    conn_write_null conn_close conn_setauth];
  repeat match goal with
  | |- context [if ?b then _ else _] => destruct b
  | |- context [match ?x with _ => _ end] => destruct x
  end; split; reflexivity.

Lemma frame_error err : frame_fun (λ c, conn_write_error c err).
Proof. frame_conn. Qed.

Definition framed {A} (m : cmd A) : Prop :=
  ∀ s c p,
    match m s c with
    | Some (x, s', c') => m s (set_packet c p) = Some (x, s', set_packet c' p) ∧ c_proto c' = c_proto c
    | None => m s (set_packet c p) = None
    end.

Create HintDb framed.

Lemma framed_ret {A} (x : A) : framed (mret x).
Proof. intros s c p. easy. Qed.

Lemma framed_fail {A} : framed (@fail A).
Proof. intros s c p. easy. Qed.

Lemma framed_bind {A B} (m : cmd A) (k : A → cmd B) :
  framed m → (∀ x, framed (k x)) → framed (m ≫= k).
Proof.
  intros Hm Hk s c p. specialize (Hm s c p). unfold mbind, cmd_bind. destruct (m s c) as [[[x s'] c']|].
  - destruct Hm as [-> Hp]. specialize (Hk x s' c' p). destruct (k x s' c') as [[[y s2] c2]|]; [|easy].
    destruct Hk as [-> Hp2]. split; [easy|congruence].
  - now rewrite Hm.
Qed.

Lemma framed_reply f : frame_fun f → framed (reply f).
Proof. intros Hf s c p. unfold reply. destruct (Hf c p) as [-> ->]. easy. Qed.

(** Parts that read or change the server only. *)
Lemma framed_server {A} (m : server → option (A * server)) :
  framed (λ s c, '(x, s) ← m s; Some (x, s, c)).
Proof. intros s c p. now destruct (m s) as [[x s']|]. Qed.

Lemma framed_args : framed get_args.
Proof. intros s c p. easy. Qed.

Lemma framed_arg i : framed (arg i).
Proof. intros s c p. unfold arg. cbn. now destruct (c_args c !! i). Qed.

Lemma framed_proto : framed conn_proto.
Proof. intros s c p. easy. Qed.

Lemma framed_now : framed sys_now.
Proof. intros s c p. easy. Qed.

Lemma framed_flush_delay t : framed (set_flush_delay t).
Proof. intros s c p. easy. Qed.

#[export] Hint Resolve framed_ret framed_fail framed_bind framed_reply framed_args framed_arg
  framed_proto framed_now framed_flush_delay : framed.

Section Engine.
Context `{Env}.

Lemma framed_load {U} h key (opts : load_opts U) u : framed (load h key opts u).
Proof.
  intros s c p. unfold load. now destruct (pogocache_load _ _ _ _ _ _ _) as [[[[[st h'] k] w] u']|].
Qed.

Lemma framed_store {U} h key val (opts : store_opts U) u : framed (store h key val opts u).
Proof.
  intros s c p. unfold store. now destruct (pogocache_store _ _ _ _ _ _ _ _) as [[[[[st h'] k] w] u']|].
Qed.

Lemma framed_remove {U} h key (opts : delete_opts U) u : framed (remove h key opts u).
Proof.
  intros s c p. unfold remove. now destruct (pogocache_delete _ _ _ _ _ _ _) as [[[[[st h'] k] w] u']|].
Qed.

Lemma framed_begin cfg : framed (begin_batch cfg).
Proof. intros s c p. unfold begin_batch. destruct (pogocache_begin _ _ _ _) as [[b|] w]; easy. Qed.

Lemma framed_end h : framed (end_batch h).
Proof. intros s c p. destruct h as [|b]; cbn; [easy|]. now destruct (pogocache_end b (s_cache s)). Qed.

Lemma framed_bgwork j : framed (bgwork j).
Proof.
  intros s c p. unfold bgwork, conn_bgwork. cbn [set_packet c_bg c_closed].
  destruct (frame_error (str "ERR failed to do work") c p) as [He Hp].
  destruct (c_bg c); [|destruct (c_closed c)]; (split; [|easy]); try easy; now rewrite <- He.
Qed.

(** Callbacks of a load that write to the connection. *)
Lemma framed_load_conn key time notouch cb :
  (∀ v, (∀ c p, (cb v (set_packet c p)).1 = (cb v c).1) ∧ frame_fun (λ c, (cb v c).2)) →
  framed (load_conn key (LoadOpts time notouch (Some cb))).
Proof.
  intros Hcb s c p. unfold load_conn.
  assert (Hrel : ∀ v c1 c2,
    c2 = set_packet c1 p ∧ c_proto c1 = c_proto c →
    (cb v c1).1 = (cb v c2).1 ∧ (cb v c2).2 = set_packet (cb v c1).2 p ∧ c_proto (cb v c1).2 = c_proto c).
  { intros v c1 c2 [-> Hp]. destruct (Hcb v) as [H1 H2]. destruct (H2 c1 p) as [H3 H4].
    split; [symmetry; apply H1|]. split; [exact H3|]. rewrite H4. exact Hp. }
  pose proof (load_related (λ c1 c2, c2 = set_packet c1 p ∧ c_proto c1 = c_proto c) (s_clock s 0%nat) key time
    notouch cb Root (s_cache s) (s_world s) c (set_packet c p) (conj eq_refl eq_refl) Hrel) as Hl.
  revert Hl. generalize (pogocache_load (s_clock s 0%nat) key (LoadOpts time notouch (Some cb)) Root
    (s_cache s) (s_world s) c) as r1.
  generalize (pogocache_load (s_clock s 0%nat) key (LoadOpts time notouch (Some cb)) Root
    (s_cache s) (s_world s) (set_packet c p)) as r2.
  intros r2 r1 Hl. destruct r1 as [[[[[st h'] k] w] c']|], r2 as [[[[[st2 h2] k2] w2] c2]|];
    cbn [mbind option_bind]; try easy.
  now destruct Hl as (<- & <- & <- & <- & -> & Hp).
Qed.

Lemma framed_count now : framed (count_keys now).
Proof. intros s c p. unfold count_keys. now destruct (pogocache_count _ _ _) as [[[x h] k]|]. Qed.

Lemma framed_sweep now : framed (sweep_cache now).
Proof.
  intros s c p. unfold sweep_cache. now destruct (pogocache_sweep _ _ _ _ _) as [[[[[x y] h] k] w]|].
Qed.

Lemma framed_start_flush cmdname : framed (start_flush cmdname).
Proof.
  intros s c p. unfold start_flush, conn_bgwork. cbn [set_packet c_bg c_closed].
  destruct (c_bg c); [|destruct (c_closed c)]; easy.
Qed.

Lemma framed_error msg : framed (error msg).
Proof. apply framed_reply, frame_error. Qed.

Lemma framed_wrong_args : framed wrong_args.
Proof. apply framed_error. Qed.

Lemma framed_syntax_error : framed syntax_error.
Proof. apply framed_error. Qed.

End Engine.

#[export] Hint Resolve framed_load framed_store framed_remove framed_begin framed_end framed_bgwork
  framed_count framed_sweep framed_start_flush framed_error framed_wrong_args framed_syntax_error : framed.

(** Takes a command apart. *)
Ltac framed_cmd :=
  repeat (cbv zeta; match goal with
  | |- framed (mbind _ _) => apply framed_bind; [|intros ?]
  | |- framed (match ?x with _ => _ end) => destruct x
  | |- framed _ => solve [auto with framed]
  | |- framed (reply _) => apply framed_reply; frame_conn
  end).

Section Commands.
Context `{Env} (cfg : config).

Lemma frame_set_reply cmdname status : frame_fun (set_reply cmdname status).
Proof. unfold set_reply. frame_conn. Qed.

Lemma framed_execSET cmdname now key val o : framed (execSET cmdname now key val o).
Proof.
  intros s c p. unfold execSET. set (opts := set_store_opts cmdname now o (s_lowmem s)).
  pose (R := λ u1 u2 : bool * conn job, u2 = (u1.1, set_packet u1.2 p) ∧ c_proto u1.2 = c_proto c).
  assert (Hcb : ∀ cb, so_entry opts = Some cb → ∀ v u1 u2, R u1 u2 →
    (cb v u1).1 = (cb v u2).1 ∧ R (cb v u1).2 (cb v u2).2).
  { intros cb. cbn. destruct (st_get o); [|easy]. intros [= <-] v [b1 c1] u2 [-> Hp]. cbn [fst snd] in *.
    split; [easy|]. unfold set_entry, R. cbn [fst snd c_proto set_packet].
    destruct (decide (c_proto c1 = PROTO_POSTGRES)); [|easy].
    unfold pg_done, pg_write_ready. cbn. now destruct (pg_execute (c_pg c1)). }
  pose proof (store_related R (s_clock s 0%nat) key val opts Root (s_cache s) (s_world s) (false, c)
    (false, set_packet c p) (conj eq_refl eq_refl) Hcb) as Hl.
  revert Hl. generalize (pogocache_store (s_clock s 0%nat) key val opts Root (s_cache s) (s_world s) (false, c)) as r1.
  generalize (pogocache_store (s_clock s 0%nat) key val opts Root (s_cache s) (s_world s) (false, set_packet c p)) as r2.
  intros r2 r1 Hl. destruct r1 as [[[[[st h'] k] w] u1]|], r2 as [[[[[st2 h2] k2] w2] u2]|];
    cbn [mbind option_bind]; try easy.
  destruct Hl as (<- & <- & <- & <- & -> & Hp). destruct u1 as [b c']. cbn [fst snd] in *.
  assert (Hfin : ∀ f, frame_fun f → Some (tt, set_cache s k w, f (set_packet c' p)) =
    Some (tt, set_cache s k w, set_packet (f c') p) ∧ c_proto (f c') = c_proto c).
  { intros f Hf. destruct (Hf c' p) as [-> ->]. easy. }
  destruct (st =? POGOCACHE_NOMEM); [apply (Hfin (λ c, conn_write_error c ERR_OUT_OF_MEMORY)), frame_error|].
  destruct (st_get o); [|apply (Hfin (set_reply cmdname st)), frame_set_reply].
  destruct b; [apply (Hfin id); easy|].
  assert (Hnone : frame_fun (λ d : conn job, if decide (c_proto d = PROTO_POSTGRES)
    then pg_done (cmdname ++ str " 0") (pg_write_row_desc d [str "value"]) else conn_write_null d)) by frame_conn.
  exact (Hfin _ Hnone).
Qed.

Hint Resolve framed_execSET : framed.

Lemma framed_SET : framed (cmdSET cfg).
Proof. unfold cmdSET. framed_cmd. Qed.

Lemma framed_SETEX : framed cmdSETEX.
Proof. unfold cmdSETEX. framed_cmd. Qed.

Lemma framed_get_entry key time notouch cas mget :
  framed (load_conn key (LoadOpts time notouch (Some (get_entry cas mget)))).
Proof. apply framed_load_conn. intros v. split; [easy|]. unfold get_entry. frame_conn. Qed.

Lemma framed_ttl_entry key time notouch pttl :
  framed (load_conn key (LoadOpts time notouch (Some (ttl_entry pttl)))).
Proof. apply framed_load_conn. intros v. split; [easy|]. unfold ttl_entry. frame_conn. Qed.

Hint Resolve framed_get_entry framed_ttl_entry : framed.

Lemma framed_GET : framed cmdGET.
Proof. unfold cmdGET. framed_cmd. Qed.

Lemma framed_mget_loop p now cas keys : ∀ count, framed (mget_loop p now cas keys count).
Proof. induction keys as [|key keys IH]; intros count; cbn [mget_loop]; framed_cmd. Qed.

Lemma framed_del_loop now keys : ∀ n, framed (del_loop now keys n).
Proof. induction keys as [|key keys IH]; intros n; cbn [del_loop]; framed_cmd. Qed.

Lemma framed_count_loop now notouch keys : ∀ n, framed (count_loop now notouch keys n).
Proof. induction keys as [|key keys IH]; intros n; cbn [count_loop]; framed_cmd. Qed.

Hint Resolve framed_mget_loop framed_del_loop framed_count_loop : framed.

Lemma framed_MGET : framed cmdMGET.
Proof. unfold cmdMGET. framed_cmd. Qed.

Lemma framed_DEL : framed cmdDEL.
Proof. unfold cmdDEL. framed_cmd. Qed.

Lemma framed_TTL : framed cmdTTL.
Proof. unfold cmdTTL. framed_cmd. Qed.

Lemma framed_EXPIRE : framed cmdEXPIRE.
Proof. unfold cmdEXPIRE. framed_cmd. Qed.

Lemma framed_DBSIZE : framed cmdDBSIZE.
Proof. unfold cmdDBSIZE. framed_cmd. Qed.

Lemma framed_QUIT : framed cmdQUIT.
Proof. unfold cmdQUIT. framed_cmd. Qed.

Lemma framed_ECHO : framed cmdECHO.
Proof. unfold cmdECHO. framed_cmd. Qed.

Lemma framed_PING : framed cmdPING.
Proof. unfold cmdPING. framed_cmd. Qed.

Lemma framed_EXISTS : framed cmdEXISTS.
Proof. unfold cmdEXISTS. framed_cmd. Qed.

Lemma framed_TOUCH : framed cmdTOUCH.
Proof. unfold cmdTOUCH. framed_cmd. Qed.

Lemma framed_FLUSHALL : framed cmdFLUSHALL.
Proof. unfold cmdFLUSHALL. framed_cmd. Qed.

Lemma framed_SAVELOAD : framed (cmdSAVELOAD cfg).
Proof. unfold cmdSAVELOAD. framed_cmd. Qed.

Lemma framed_KEYS : framed cmdKEYS.
Proof. unfold cmdKEYS. framed_cmd. Qed.

Lemma frame_sync_done tag : frame_fun (sync_done tag).
Proof. unfold sync_done. frame_conn. Qed.

Lemma framed_sync_done tag : framed (reply (sync_done tag)).
Proof. apply framed_reply, frame_sync_done. Qed.

Hint Resolve framed_sync_done : framed.

Lemma framed_SWEEP : framed cmdSWEEP.
Proof. unfold cmdSWEEP, sweep_or_purge, sweep_work. framed_cmd. Qed.

Lemma framed_PURGE : framed cmdPURGE.
Proof. unfold cmdPURGE, sweep_or_purge. framed_cmd. Qed.

Lemma framed_execINCRDECR key delta decr isunsigned cmdname :
  framed (execINCRDECR cfg key delta decr isunsigned cmdname).
Proof. unfold execINCRDECR. framed_cmd. Qed.

Hint Resolve framed_execINCRDECR : framed.

Lemma framed_INCRDECRBY decr cmdname : framed (cmdINCRDECRBY cfg decr cmdname).
Proof. unfold cmdINCRDECRBY, is_unsigned_name. framed_cmd. Qed.

Lemma framed_INCR decr cmdname : framed (incr_or_decr cfg decr cmdname).
Proof. unfold incr_or_decr, is_unsigned_name. framed_cmd. Qed.

Lemma framed_APPEND : framed (cmdAPPEND cfg).
Proof. unfold cmdAPPEND. framed_cmd. Qed.

Lemma framed_AUTH : framed (cmdAUTH cfg).
Proof. unfold cmdAUTH. framed_cmd. Qed.

Context (cmdDEBUG cmdSTATS : cmd unit) (HDEBUG : framed cmdDEBUG) (HSTATS : framed cmdSTATS).

Lemma framed_cmds : Forall (λ p, framed p.2) (cmds cfg cmdDEBUG cmdSTATS).
Proof.
  unfold cmds. repeat (apply Forall_cons_2; [cbn [snd]|]); [..|apply Forall_nil_2];
    first [exact HDEBUG | exact HSTATS | exact framed_SET | exact framed_GET | exact framed_DEL | exact framed_MGET
      | exact framed_TTL | exact framed_EXPIRE | exact framed_SETEX | exact framed_DBSIZE | exact framed_QUIT
      | exact framed_ECHO | exact framed_EXISTS | exact framed_FLUSHALL | exact framed_PURGE | exact framed_SWEEP
      | exact framed_KEYS | exact framed_PING | exact framed_TOUCH | exact framed_AUTH | exact framed_SAVELOAD
      | exact framed_APPEND | exact (framed_INCRDECRBY _ _) | exact (framed_INCR _ _)].
Qed.

Lemma framed_evcommand : framed (evcommand cfg cmdDEBUG cmdSTATS).
Proof.
  intros s c p. unfold evcommand. cbn [c_auth c_proto c_args set_packet].
  destruct (_ && _); [apply framed_AUTH|]. destruct (c_args c !! 0%nat) as [name|]; [|easy].
  cbn [mbind option_bind]. destruct (get_cmd _ name) as [[id|]|]; [| |easy]; cbn [mbind option_bind].
  - destruct (cmds cfg cmdDEBUG cmdSTATS !! id) as [[n m]|] eqn:E; [|easy]. cbn [mbind option_bind snd].
    pose proof framed_cmds as Hall. rewrite Forall_lookup in Hall. exact (Hall _ _ E s c p).
  - apply framed_error.
Qed.

(** The server with its commands. *)
Definition pogocache_server (version : bytes) (parse_postgres : pg → bytes → option (parsed * pg))
    : Server server job := {|
  sv_useauth := g_useauth cfg; sv_auth := g_auth cfg; sv_version := version;
  sv_parse_postgres := parse_postgres;
  sv_evcommand := λ s c, '(_, s, c) ← evcommand cfg cmdDEBUG cmdSTATS s c; Some (s, c)
|}.

(** The commands keep the promises the event loop relies on. *)
Lemma pogocache_server_ok version parse_postgres :
  @ServerOk _ _ (pogocache_server version parse_postgres).
Proof.
  split.
  - intros s c s' c' p Hs. cbn in *. pose proof (framed_evcommand s c p) as Hf.
    destruct (evcommand cfg cmdDEBUG cmdSTATS s c) as [[[x s1] c1]|]; [|easy]. injection Hs as <- <-.
    destruct Hf as [-> _]. easy.
  - intros s c s' c' Hs. cbn in *. pose proof (framed_evcommand s c []) as Hf.
    destruct (evcommand cfg cmdDEBUG cmdSTATS s c) as [[[x s1] c1]|]; [|easy]. injection Hs as <- <-.
    now destruct Hf.
Qed.

End Commands.
