(* ===== verification/Tuning.v ===== *)
(** * Tuning: parameters chosen from the resources of the system

    [src/src/performance_tuning.c]. An [int] that would overflow, or a [double]
    that does not fit the [int] it is converted to, is undefined: [None]. *)

From S2P Require Import Prelude.

(** ** Arithmetic *)

Definition int (x : Z) : option Z := if (- 2 ^ 31 <=? x) && (x <? 2 ^ 31) then Some x else None.

(** The nearest integer of 53 significant bits, ties to even: the rounding of a
    [double]. *)
Definition round53 (n : Z) : Z :=
  if n <? 2 ^ 53 then n
  else
    let k := Z.log2 n - 52 in
    let q := n / 2 ^ k in
    let r := n mod 2 ^ k in
    (if (2 * r >? 2 ^ k) || ((2 * r =? 2 ^ k) && Z.odd q) then q + 1 else q) * 2 ^ k.

(** [(int)(x * c)] for an [int] and a constant of type [double], which is
    [m / 2^e]. *)
Definition int_times (x : Z) (c : Z * Z) : option Z :=
  let y := round53 (Z.abs x * c.1) / 2 ^ c.2 in int (if x <? 0 then - y else y).

Definition d1_5 : Z * Z := (3, 1).
Definition d0_75 : Z * Z := (3, 2).
Definition d1_25 : Z * Z := (5, 2).
Definition d1_2 : Z * Z := (5404319552844595, 52).
Definition d1_3 : Z * Z := (5854679515581645, 52).
Definition d1_1 : Z * Z := (2476979795053773, 51).
Definition d1_15 : Z * Z := (2589569785738035, 51).
Definition d0_85 : Z * Z := (7656119366529843, 53).
Definition d0_65 : Z * Z := (5854679515581645, 53).

(** ** Constants *)

Definition PERF_MIN_BACKLOG : Z := 256.
Definition PERF_MAX_BACKLOG : Z := 16384.
Definition PERF_MIN_QUEUESIZE : Z := 64.
Definition PERF_MAX_QUEUESIZE : Z := 4096.
Definition PERF_MIN_MAXCONNS : Z := 128.
Definition PERF_MAX_MAXCONNS : Z := 131072.
Definition PERF_MIN_SHARDS : Z := 32.
Definition PERF_MAX_SHARDS : Z := 131072.
Definition PERF_HIGH_MEMORY_THRESHOLD : Z := 4 * 2 ^ 30.
Definition PERF_MEDIUM_MEMORY_THRESHOLD : Z := 2 * 2 ^ 30.
Definition PERF_MEMORY_PER_CONNECTION : Z := 12288.
Definition PERF_MEMORY_PER_SHARD : Z := 2048.

(** ** Resources *)

Record system_resources := Resources {
  cpu_cores : Z; total_memory : Z; available_memory : Z; max_file_descriptors : Z;
  has_high_memory : bool; has_many_cores : bool
}.

(** [perf_detect_system_resources], with what [sys_nprocs], [sys_memory] and
    [getrlimit] return. *)
Definition perf_detect_system_resources (nprocs memory : Z) (rlim_max : option Z) : system_resources :=
  Resources nprocs memory memory (match rlim_max with Some r => i32 r | None => 1024 end)
    (PERF_HIGH_MEMORY_THRESHOLD <? memory) (4 <? nprocs).

(** [if (x < lo) x = lo; if (x > hi) x = hi]. *)
Definition within (lo hi x : Z) : Z :=
  let x := if x <? lo then lo else x in if hi <? x then hi else x.

(** ** The parameters *)

Definition perf_calc_optimal_backlog (r : system_resources) : option Z :=
  x ← int (256 * cpu_cores r);
  x ← (if has_high_memory r then int_times x d1_5
       else if total_memory r <? PERF_MEDIUM_MEMORY_THRESHOLD then int_times x d0_75 else Some x);
  x ← (if has_many_cores r then int_times x d1_25 else Some x);
  Some (within PERF_MIN_BACKLOG PERF_MAX_BACKLOG x).

Definition perf_calc_optimal_queuesize (r : system_resources) : option Z :=
  x ← int (cpu_cores r * 64);
  x ← (if has_high_memory r then int (cpu_cores r * 128)
       else if total_memory r <? PERF_MEDIUM_MEMORY_THRESHOLD then int (cpu_cores r * 32) else Some x);
  x ← (if 8 <=? cpu_cores r then int_times x d1_2 else Some x);
  x ← (if 16 <=? cpu_cores r then int_times x d1_3 else Some x);
  Some (within PERF_MIN_QUEUESIZE PERF_MAX_QUEUESIZE x).

Definition perf_calc_optimal_maxconns (r : system_resources) : option Z :=
  let memory_limit := i32 (available_memory r / PERF_MEMORY_PER_CONNECTION) in
  fd_limit ← int (max_file_descriptors r - 256);
  let calculated_limit := if memory_limit <? fd_limit then memory_limit else fd_limit in
  x ← (if has_high_memory r && has_many_cores r then int_times calculated_limit d0_85
       else if has_high_memory r || has_many_cores r then int_times calculated_limit d0_75
       else int_times calculated_limit d0_65);
  x ← (if 8 <=? cpu_cores r then int_times x d1_1 else Some x);
  x ← (if 16 <=? cpu_cores r then int_times x d1_15 else Some x);
  let x := if x <? 2048 then 2048 else x in
  Some (within PERF_MIN_MAXCONNS PERF_MAX_MAXCONNS x).

(** [while (power_of_2 < optimal) power_of_2 *= 2]. *)
Fixpoint power_loop (fuel : nat) (power_of_2 optimal : Z) : option Z :=
  if power_of_2 <? optimal then
    match fuel with O => None | S fuel => p ← int (power_of_2 * 2); power_loop fuel p optimal end
  else Some power_of_2.

Definition perf_calc_optimal_shards (r : system_resources) (nthreads : Z) : option Z :=
  x ← int (nthreads * 128);
  x ← (if has_high_memory r then int (x * 2)
       else if total_memory r <? PERF_MEDIUM_MEMORY_THRESHOLD then Some (Z.quot x 2) else Some x);
  x ← (if 16 <=? cpu_cores r then int_times x d1_5 else if 8 <=? cpu_cores r then int_times x d1_25 else Some x);
  usage ← int (x * PERF_MEMORY_PER_SHARD);
  let available_for_shards := available_memory r / 4 in
  let x := if available_for_shards <? u64 usage then i32 (available_for_shards / PERF_MEMORY_PER_SHARD) else x in
  p ← power_loop 32 1 x;
  let x := if 3 * x <=? 4 * (p / 2) then p / 2 else p in
  Some (within PERF_MIN_SHARDS PERF_MAX_SHARDS x).

(** ** Validation *)

Definition perf_validate_backlog (backlog : Z) : bool := (PERF_MIN_BACKLOG <=? backlog) && (backlog <=? PERF_MAX_BACKLOG).
Definition perf_validate_queuesize (queuesize : Z) : bool :=
  (PERF_MIN_QUEUESIZE <=? queuesize) && (queuesize <=? PERF_MAX_QUEUESIZE).
Definition perf_validate_maxconns (maxconns available : Z) : bool :=
  (PERF_MIN_MAXCONNS <=? maxconns) && (maxconns <=? PERF_MAX_MAXCONNS) &&
  (2 * round53 (maxconns * PERF_MEMORY_PER_CONNECTION) <? round53 available).
Definition perf_validate_shards (nshards nthreads : Z) : option bool :=
  if (nshards <? PERF_MIN_SHARDS) || (PERF_MAX_SHARDS <? nshards) then Some false
  else if nthreads =? 0 then None
  else let ratio := Z.quot nshards nthreads in Some ((4 <=? ratio) && (ratio <=? 8192)).

Record perf_config := PerfConfig {
  optimal_backlog : Z; optimal_queuesize : Z; optimal_maxconns : Z; optimal_nshards : Z
}.

Definition perf_optimize_defaults (r : system_resources) : option perf_config :=
  b ← perf_calc_optimal_backlog r;
  q ← perf_calc_optimal_queuesize r;
  m ← perf_calc_optimal_maxconns r;
  s ← perf_calc_optimal_shards r (cpu_cores r);
  Some (PerfConfig b q m s).

(** [perf_validate_config]. The warnings it prints compare with the optimal
    parameters, which are computed for them. *)
Definition perf_validate_config (r : system_resources) (backlog queuesize maxconns nshards : Z) : option bool :=
  valid ← (if perf_validate_backlog backlog && perf_validate_queuesize queuesize &&
              perf_validate_maxconns maxconns (available_memory r)
           then perf_validate_shards nshards (cpu_cores r) else Some false);
  if valid : bool then _ ← perf_optimize_defaults r; Some true else Some false.

(** ** Rounding *)

Lemma round53_le n : 0 <= n → 0 <= round53 n ∧ round53 n <= n + n / 2 ^ 53.
Proof.
  intros Hn. unfold round53. destruct (n <? 2 ^ 53) eqn:E; zb; [dm|].
  pose proof (Z.log2_spec n ltac:(lia)) as [Hlo Hhi]. pose proof (Z.log2_le_mono (2 ^ 53) n E) as Hk. rewrite Z.log2_pow2 in Hk by lia.
  set (k := Z.log2 n - 52). assert (Hk1 : 1 <= k) by lia. assert (Hp : 0 < 2 ^ k) by (apply Z.pow_pos_nonneg; lia).
  pose proof (Z.div_mod n (2 ^ k) ltac:(lia)) as Hdm. pose proof (Z.mod_pos_bound n (2 ^ k) Hp) as Hr.
  set (q := n / 2 ^ k) in *. set (r := n mod 2 ^ k) in *. assert (Hq : 0 <= q) by (apply Z.div_pos; lia).
  assert (H52 : 2 ^ Z.log2 n = 2 ^ 52 * 2 ^ k) by (rewrite <- Z.pow_add_r by lia; f_equal; lia).
  assert (Hhalf : 2 ^ k <= 2 * (n / 2 ^ 53)).
  { assert (2 ^ k = 2 * 2 ^ (k - 1)) as Ek by (rewrite <- Z.pow_succ_r by lia; f_equal; lia). rewrite Ek.
    assert (2 ^ (k - 1) <= n / 2 ^ 53); [|lia]. apply Z.div_le_lower_bound; [lia|]. rewrite Ek in H52. lia. }
  destruct ((2 * r >? 2 ^ k) || ((2 * r =? 2 ^ k) && Z.odd q)) eqn:Ev; [|split; [nia|]; assert (0 <= n / 2 ^ 53) by (apply Z.div_pos; lia); lia].
  split; [nia|]. assert (2 ^ k <= 2 * r).
  { apply orb_prop in Ev as [Ev|Ev]; [rewrite Z.gtb_lt in Ev; lia|]. apply andb_prop in Ev as [Ev _]. zb. lia. }
  lia.
Qed.

(** The product is at most [a / b] times the number, where [a / b] is above the
    constant. *)
Lemma int_times_spec x m e a b :
  0 <= m < 2 ^ 53 → 0 <= e → 0 < b → (m + 1) * b <= a * 2 ^ e → 0 <= x → x * a < 2 ^ 31 * b →
  ∃ y, int_times x (m, e) = Some y ∧ 0 <= y ∧ y * b <= x * a.
Proof.
  intros Hm He Hb Ha Hx Hlt. unfold int_times. cbn [fst snd]. rewrite (proj2 (Z.ltb_ge x 0) Hx), (Z.abs_eq x Hx).
  pose proof (round53_le (x * m) ltac:(nia)) as [Hr0 Hr]. assert (Hp : 0 < 2 ^ e) by (apply Z.pow_pos_nonneg; lia).
  assert (Hd : x * m / 2 ^ 53 <= x) by (apply Z.div_le_upper_bound; nia).
  set (y := round53 (x * m) / 2 ^ e). assert (Hy0 : 0 <= y) by (apply Z.div_pos; lia).
  assert (Hy : y * 2 ^ e <= x * (m + 1)) by (pose proof (Z.mul_div_le (round53 (x * m)) (2 ^ e) Hp); unfold y; lia).
  assert (Hyb : y * b <= x * a) by nia. exists y. split; [|easy]. unfold int.
  rewrite (proj2 (Z.leb_le _ y)), (proj2 (Z.ltb_lt y _)) by nia. reflexivity.
Qed.

Lemma int_times_neg x m e : 0 <= m < 2 ^ 53 → 0 <= e → x < 0 → - 2 ^ 30 < x → m < 2 * 2 ^ e → ∃ y, int_times x (m, e) = Some y ∧ 2 * x <= y <= 0.
Proof.
  intros Hm He Hx Hx2 Hme. unfold int_times. cbn [fst snd]. rewrite (proj2 (Z.ltb_lt x 0) Hx). set (z := Z.abs x).
  assert (Hz : 0 < z < 2 ^ 30) by lia. pose proof (round53_le (z * m) ltac:(nia)) as [Hr0 Hr].
  assert (Hp : 0 < 2 ^ e) by (apply Z.pow_pos_nonneg; lia). assert (Hd : z * m / 2 ^ 53 <= z) by (apply Z.div_le_upper_bound; nia).
  set (y := round53 (z * m) / 2 ^ e). assert (Hy0 : 0 <= y) by (apply Z.div_pos; lia).
  assert (Hy : y * 2 ^ e <= z * (m + 1)) by (pose proof (Z.mul_div_le (round53 (z * m)) (2 ^ e) Hp); unfold y; lia).
  assert (y <= 2 * z) by nia. exists (- y). unfold int. rewrite (proj2 (Z.leb_le _ (- y))), (proj2 (Z.ltb_lt (- y) _)) by lia. split; [reflexivity|lia].
Qed.

(** Computes [int_times] of a constant, with a bound [a / b]. *)
Tactic Notation "times" constr(a) constr(b) :=
  match goal with
  | |- context [int_times ?x ?c] =>
      let y := fresh "y" in let E := fresh "E" in let H1 := fresh in let H2 := fresh in
      destruct (int_times_spec x c.1 c.2 a b) as (y & E & H1 & H2);
      [vm_compute; split; congruence|vm_compute; congruence|lia|vm_compute; congruence|lia|lia|];
      change (int_times x (c.1, c.2)) with (int_times x c) in E; rewrite E; clear E; cbn [mbind option_bind]
  end.

(** Computes [int]. *)
Ltac fits := match goal with
  | |- context [int ?x] => replace (int x) with (Some x)
      by (unfold int; rewrite (proj2 (Z.leb_le _ x)), (proj2 (Z.ltb_lt x _)) by lia; reflexivity); cbn [mbind option_bind]
  end.

Lemma within_range lo hi x : lo <= hi → lo <= within lo hi x <= hi.
Proof. intros Hh. unfold within. destruct (x <? lo) eqn:E; zb; destruct (hi <? _) eqn:E2; zb; lia. Qed.

(** The resources of a system: at most [CPU_SETSIZE] processors, less than 16 TiB
    of memory, and a limit of descriptors that fits an [int] or is
    [RLIM_INFINITY]. *)
Record usual (nprocs memory : Z) (rlim : option Z) : Prop := {
  us_nprocs : 1 <= nprocs <= 1024;
  us_memory : 0 < memory <= 2 ^ 44;
  us_rlim : ∀ r, rlim = Some r → 0 <= r < 2 ^ 31 ∨ r = 2 ^ 64 - 1
}.

Lemma backlog_defined r : 1 <= cpu_cores r <= 1024 → ∃ x, perf_calc_optimal_backlog r = Some x ∧ PERF_MIN_BACKLOG <= x <= PERF_MAX_BACKLOG.
Proof.
  intros Hc. unfold perf_calc_optimal_backlog. fits.
  assert (Hw : ∀ x, ∃ y, Some (within PERF_MIN_BACKLOG PERF_MAX_BACKLOG x) = Some y ∧ PERF_MIN_BACKLOG <= y <= PERF_MAX_BACKLOG)
    by (intros; eexists; split; [reflexivity|now apply within_range]).
  destruct (has_high_memory r); [times 2 1|destruct (_ <? _); [times 1 1|cbn [mbind option_bind]]].
  all: destruct (has_many_cores r); [times 3 2|cbn [mbind option_bind]]; apply Hw.
Qed.

Lemma queuesize_defined r : 1 <= cpu_cores r <= 1024 → ∃ x, perf_calc_optimal_queuesize r = Some x ∧ PERF_MIN_QUEUESIZE <= x <= PERF_MAX_QUEUESIZE.
Proof.
  intros Hc. unfold perf_calc_optimal_queuesize. repeat fits.
  assert (Hw : ∀ x, ∃ y, Some (within PERF_MIN_QUEUESIZE PERF_MAX_QUEUESIZE x) = Some y ∧ PERF_MIN_QUEUESIZE <= y <= PERF_MAX_QUEUESIZE)
    by (intros; eexists; split; [reflexivity|now apply within_range]).
  destruct (has_high_memory r); [|destruct (_ <? PERF_MEDIUM_MEMORY_THRESHOLD)]; cbn [mbind option_bind].
  all: destruct (8 <=? cpu_cores r); [times 5 4|cbn [mbind option_bind]].
  all: destruct (16 <=? cpu_cores r); [times 4 3|cbn [mbind option_bind]]; apply Hw.
Qed.

(** What is left of a limit, positive or not, after a constant below one. *)
Lemma limit_part x c : c = d0_85 ∨ c = d0_75 ∨ c = d0_65 → - 257 <= x → x < 2 ^ 31 - 256 →
  ∃ y, int_times x c = Some y ∧ - 600 <= y <= Z.max x 0.
Proof.
  intros Hc Hlo Hhi. destruct (decide (x < 0)) as [Hn|Hn].
  - destruct (int_times_neg x c.1 c.2) as (y & E & Hy); [destruct Hc as [->|[->| ->]]; vm_compute; split; congruence|
      destruct Hc as [->|[->| ->]]; vm_compute; congruence|exact Hn|lia|destruct Hc as [->|[->| ->]]; vm_compute; congruence|].
    exists y. rewrite <- (surjective_pairing c) in E. split; [exact E|]. lia.
  - destruct (int_times_spec x c.1 c.2 1 1) as (y & E & H1 & H2); [destruct Hc as [->|[->| ->]]; vm_compute; split; congruence|
      destruct Hc as [->|[->| ->]]; vm_compute; congruence|lia|destruct Hc as [->|[->| ->]]; vm_compute; congruence|lia|lia|].
    exists y. rewrite <- (surjective_pairing c) in E. split; [exact E|]. lia.
Qed.

Lemma grow_part x c a b :
  (c = d1_1 ∧ a = 9 ∧ b = 8) ∨ (c = d1_15 ∧ a = 5 ∧ b = 4) → - 2000 <= x → x * a < 2 ^ 31 * b →
  ∃ y, int_times x c = Some y ∧ y * b <= Z.max x 0 * a ∧ 2 * Z.min x 0 <= y.
Proof.
  intros Hc Hlo Hhi. destruct (decide (x < 0)) as [Hn|Hn].
  - destruct (int_times_neg x c.1 c.2) as (y & E & Hy); [destruct Hc as [(-> & _)|(-> & _)]; vm_compute; split; congruence|
      destruct Hc as [(-> & _)|(-> & _)]; vm_compute; congruence|exact Hn|lia|destruct Hc as [(-> & _)|(-> & _)]; vm_compute; congruence|].
    exists y. rewrite <- (surjective_pairing c) in E. split; [exact E|]. destruct Hc as [(_ & -> & ->)|(_ & -> & ->)]; lia.
  - destruct (int_times_spec x c.1 c.2 a b) as (y & E & H1 & H2); [destruct Hc as [(-> & _)|(-> & _)]; vm_compute; split; congruence|
      destruct Hc as [(-> & _)|(-> & _)]; vm_compute; congruence|lia|destruct Hc as [(-> & -> & ->)|(-> & -> & ->)]; vm_compute; congruence|lia|lia|].
    exists y. rewrite <- (surjective_pairing c) in E. split; [exact E|]. lia.
Qed.

Lemma maxconns_defined r :
  - 1 <= max_file_descriptors r < 2 ^ 31 → 0 < available_memory r <= 2 ^ 44 →
  ∃ x, perf_calc_optimal_maxconns r = Some x ∧ 2048 <= x <= PERF_MAX_MAXCONNS.
Proof.
  intros Hfd Hm. unfold perf_calc_optimal_maxconns. fits.
  assert (Hml : 0 <= available_memory r / PERF_MEMORY_PER_CONNECTION <= 1431655766) by (unfold PERF_MEMORY_PER_CONNECTION; dm).
  replace (i32 (available_memory r / PERF_MEMORY_PER_CONNECTION)) with (available_memory r / PERF_MEMORY_PER_CONNECTION)
    by (symmetry; unfold i32; rewrite Z.mod_small; lia).
  set (ml := available_memory r / _) in *. set (lim := if ml <? _ then ml else _).
  assert (Hlim : - 257 <= lim <= 1431655766) by (unfold lim; destruct (ml <? _) eqn:E; zb; lia).
  set (part := if has_high_memory r && has_many_cores r then _ else _).
  assert (Hpart : ∃ y, part = Some y ∧ - 600 <= y <= Z.max lim 0).
  { unfold part. destruct (_ && _); [|destruct (_ || _)]; apply limit_part; auto; lia. }
  destruct Hpart as (y & -> & Hy). cbn [mbind option_bind]. clearbody lim.
  assert (Hg1 : ∃ y1, (if 8 <=? cpu_cores r then int_times y d1_1 else Some y) = Some y1 ∧ - 1200 <= y1 <= 1610612737).
  { destruct (8 <=? cpu_cores r); [|exists y; split; [reflexivity|lia]].
    destruct (grow_part y d1_1 9 8) as (y1 & E & H1 & H2); [now left|lia|lia|]. exists y1. split; [exact E|lia]. }
  destruct Hg1 as (y1 & -> & Hy1). cbn [mbind option_bind].
  assert (Hg2 : ∃ y2, (if 16 <=? cpu_cores r then int_times y1 d1_15 else Some y1) = Some y2).
  { destruct (16 <=? cpu_cores r); [|now exists y1].
    destruct (grow_part y1 d1_15 5 4) as (y2 & E & _); [now right|lia|lia|]. now exists y2. }
  destruct Hg2 as (y2 & ->). cbn [mbind option_bind]. eexists. split; [reflexivity|]. unfold within, PERF_MIN_MAXCONNS, PERF_MAX_MAXCONNS.
  destruct (y2 <? 2048) eqn:E1; zb; [vm_compute; split; congruence|]. destruct (y2 <? 128) eqn:E2; zb; [lia|]. destruct (131072 <? y2) eqn:E3; zb; lia.
Qed.

(** The loop ends at the next power of two. *)
Lemma power_loop_spec fuel : ∀ k x, 0 <= k → k + Z.of_nat fuel = 32 → x <= 2 ^ 30 →
  (k <= 30) → ∃ k', k <= k' <= 30 ∧ power_loop fuel (2 ^ k) x = Some (2 ^ k') ∧ x <= 2 ^ k'.
Proof.
  induction fuel as [|fuel IH]; intros k x Hk Hf Hx Hk30; [lia|]. cbn [power_loop]. destruct (2 ^ k <? x) eqn:E; zb; [|exists k; split; [lia|]; split; [reflexivity|lia]].
  assert (k < 30) by (destruct (decide (k = 30)) as [->|]; lia). assert (2 ^ k < 2 ^ 30) by (apply Z.pow_lt_mono_r; lia).
  assert (0 < 2 ^ k) by (apply Z.pow_pos_nonneg; lia). fits. replace (2 ^ k * 2) with (2 ^ (k + 1)) by (rewrite Z.pow_add_r; lia).
  destruct (IH (k + 1) x) as (k' & Hk' & E1 & E2); try lia. exists k'. split; [lia|easy].
Qed.

Lemma shards_defined r n :
  1 <= n <= 1024 → 0 < available_memory r <= 2 ^ 44 →
  ∃ k, perf_calc_optimal_shards r n = Some (2 ^ k) ∧ 5 <= k <= 17.
Proof.
  intros Hn Hm. unfold perf_calc_optimal_shards. fits.
  assert (H1 : ∃ x1, (if has_high_memory r then int (n * 128 * 2) else if total_memory r <? PERF_MEDIUM_MEMORY_THRESHOLD
      then Some (Z.quot (n * 128) 2) else Some (n * 128)) = Some x1 ∧ 0 <= x1 <= 262144).
  { destruct (has_high_memory r); [fits; eexists; split; [reflexivity|lia]|]. destruct (_ <? _); eexists; (split; [reflexivity|]); [|lia].
    rewrite Z.quot_div_nonneg by lia. dm. }
  destruct H1 as (x1 & -> & Hx1). cbn [mbind option_bind].
  assert (H2 : ∃ x2, (if 16 <=? cpu_cores r then int_times x1 d1_5 else if 8 <=? cpu_cores r then int_times x1 d1_25 else Some x1) = Some x2 ∧ 0 <= x2 <= 524288).
  { destruct (16 <=? cpu_cores r); [times 2 1; eexists; split; [reflexivity|lia]|].
    destruct (8 <=? cpu_cores r); [times 3 2; eexists; split; [reflexivity|lia]|]. exists x1. split; [reflexivity|lia]. }
  destruct H2 as (x2 & -> & Hx2). cbn [mbind option_bind]. unfold PERF_MEMORY_PER_SHARD. fits.
  set (x3 := if _ <? u64 _ then _ else _). assert (Hx3 : x3 <= 2 ^ 30).
  { unfold x3. destruct (_ <? _) eqn:E; zb; [|lia]. rewrite u64_id in E by (unfold is_u64; lia).
    set (a := available_memory r / 4) in *. assert (0 <= a) by (unfold a; dm). assert (0 <= a / 2048 <= x2) by dm.
    unfold i32. rewrite Z.mod_small; lia. }
  destruct (power_loop_spec 32 0 x3) as (k & Hk & E & Hkx); try lia. change (2 ^ 0) with 1 in E. rewrite E. cbn [mbind option_bind].
  assert (Hfin : ∀ j, 0 <= j <= 30 → ∃ k', Some (within PERF_MIN_SHARDS PERF_MAX_SHARDS (2 ^ j)) = Some (2 ^ k') ∧ 5 <= k' <= 17).
  { intros j Hj. unfold within, PERF_MIN_SHARDS, PERF_MAX_SHARDS. change 32 with (2 ^ 5). change 131072 with (2 ^ 17).
    destruct (2 ^ j <? 2 ^ 5) eqn:E1; zb; [exists 5; split; [reflexivity|lia]|]. assert (5 <= j) by (apply (Z.pow_le_mono_r_iff 2); lia).
    destruct (2 ^ 17 <? 2 ^ j) eqn:E2; zb; [exists 17; split; [reflexivity|lia]|]. exists j. split; [reflexivity|].
    split; [lia|]. apply (Z.pow_le_mono_r_iff 2); lia. }
  destruct (_ <=? 4 * (2 ^ k / 2)); [|apply Hfin; lia]. destruct (decide (k = 0)) as [->|Hk0].
  { exists 5. split; [reflexivity|lia]. }
  replace (2 ^ k / 2) with (2 ^ (k - 1)); [apply Hfin; lia|]. replace k with (k - 1 + 1) at 2 by lia.
  rewrite Z.pow_add_r by lia. now rewrite Z.div_mul.
Qed.

(** The tuning is defined, and within bounds. *)
Lemma tuned_spec nprocs memory rlim :
  usual nprocs memory rlim →
  ∃ c k, perf_optimize_defaults (perf_detect_system_resources nprocs memory rlim) = Some c ∧
    PERF_MIN_BACKLOG <= optimal_backlog c <= PERF_MAX_BACKLOG ∧
    PERF_MIN_QUEUESIZE <= optimal_queuesize c <= PERF_MAX_QUEUESIZE ∧
    2048 <= optimal_maxconns c <= PERF_MAX_MAXCONNS ∧
    optimal_nshards c = 2 ^ k ∧ PERF_MIN_SHARDS <= 2 ^ k <= PERF_MAX_SHARDS.
Proof.
  intros [Hn Hm Hr]. set (r := perf_detect_system_resources nprocs memory rlim). unfold perf_optimize_defaults.
  destruct (backlog_defined r Hn) as (b & -> & Hb). cbn [mbind option_bind].
  destruct (queuesize_defined r Hn) as (q & -> & Hq). cbn [mbind option_bind].
  destruct (maxconns_defined r) as (m & -> & Hmc); [|exact Hm|].
  { cbn. destruct rlim as [x|]; [|lia]. destruct (Hr x eq_refl) as [?| ->]; [|vm_compute; split; congruence].
    unfold i32. rewrite Z.mod_small; lia. }
  cbn [mbind option_bind]. destruct (shards_defined r (cpu_cores r) Hn Hm) as (k & -> & Hk). cbn [mbind option_bind].
  exists (PerfConfig b q m (2 ^ k)), k. split; [reflexivity|]. do 3 (split; [assumption|]). split; [reflexivity|].
  change PERF_MIN_SHARDS with (2 ^ 5). change PERF_MAX_SHARDS with (2 ^ 17). split; apply Z.pow_le_mono_r; lia.
Qed.

(** C36: The tuned parameters are in range. On every system with at most 1024 processors,
    16 TiB of memory and any limit of descriptors the kernel can have, no
    computation of the tuning overflows or leaves the range of its type, and the
    parameters are within the documented bounds; the number of shards is a power
    of two. *)
Theorem tuned_in_range nprocs memory rlim :
  usual nprocs memory rlim →
  ∃ c k, perf_optimize_defaults (perf_detect_system_resources nprocs memory rlim) = Some c ∧
    PERF_MIN_BACKLOG <= optimal_backlog c <= PERF_MAX_BACKLOG ∧
    PERF_MIN_QUEUESIZE <= optimal_queuesize c <= PERF_MAX_QUEUESIZE ∧
    2048 <= optimal_maxconns c <= PERF_MAX_MAXCONNS ∧
    optimal_nshards c = 2 ^ k ∧ PERF_MIN_SHARDS <= 2 ^ k <= PERF_MAX_SHARDS.
Proof. apply tuned_spec. Qed.

Lemma tuned_in_range_witness :
  ∃ c, perf_optimize_defaults (perf_detect_system_resources 8 (16 * 2 ^ 30) (Some 1048576)) = Some c ∧
    c = PerfConfig 3840 1228 131072 2048 ∧ 2048 <= optimal_maxconns c.
Proof.
  destruct (tuned_in_range 8 (16 * 2 ^ 30) (Some 1048576)) as (c & k & E & _ & _ & Hc & _).
  - split; [lia|lia|]. intros r [= <-]. lia.
  - exists c. split; [exact E|]. split; [|apply Hc]. vm_compute in E. injection E as <-. reflexivity.
Defined.

Lemma int_times_exact x m e : 0 <= x → 0 <= m → 0 <= e → x * m < 2 ^ 31 → int_times x (m, e) = Some (x * m / 2 ^ e).
Proof.
  intros Hx Hm He Hlt. unfold int_times, round53. cbn [fst snd]. rewrite (proj2 (Z.ltb_ge x 0) Hx), (Z.abs_eq x Hx).
  rewrite (proj2 (Z.ltb_lt (x * m) _)) by lia. assert (0 < 2 ^ e) by (apply Z.pow_pos_nonneg; lia).
  assert (0 <= x * m / 2 ^ e <= x * m) by (split; [apply Z.div_pos; nia|apply Z.div_le_upper_bound; nia]).
  unfold int. rewrite (proj2 (Z.leb_le _ _)), (proj2 (Z.ltb_lt (x * m / 2 ^ e) _)) by lia. reflexivity.
Qed.

(** A part of a small limit. *)
Lemma small_part lim c : c ∈ [d0_85; d0_75; d0_65] → - 257 <= lim < 1793 → ∃ x, int_times lim c = Some x ∧ - 600 <= x <= 1524.
Proof.
  intros Hc Hl. destruct (decide (lim < 0)) as [Hn|Hn].
  - destruct (limit_part lim c) as (x & E & Hx); [set_solver|lia|lia|]. exists x. split; [exact E|lia].
  - apply elem_of_cons in Hc as [->|[->|[->|[]%not_elem_of_nil]%elem_of_cons]%elem_of_cons].
    + times 8501 10000. eexists. split; [reflexivity|lia].
    + unfold d0_75. rewrite int_times_exact by lia. eexists. split; [reflexivity|]. dm.
    + times 6501 10000. eexists. split; [reflexivity|lia].
Qed.

Lemma small_grow x (p8 p16 : bool) : - 600 <= x <= 1524 → ∃ y z,
  (if p8 then int_times x d1_1 else Some x) = Some y ∧ (if p16 then int_times y d1_15 else Some y) = Some z ∧ z < 2048.
Proof.
  intros Hx. assert (H1 : ∃ y, (if p8 then int_times x d1_1 else Some x) = Some y ∧ - 1200 <= y <= 1676).
  { destruct p8; [|exists x; split; [reflexivity|lia]]. destruct (decide (x < 0)) as [Hn|Hn].
    - destruct (grow_part x d1_1 9 8) as (y & E & H1 & H2); [now left|lia|lia|]. exists y. split; [exact E|lia].
    - times 11001 10000. eexists. split; [reflexivity|lia]. }
  destruct H1 as (y & E1 & Hy). exists y. destruct p16; [|exists y; split; [exact E1|]; split; [reflexivity|lia]].
  destruct (decide (y < 0)) as [Hn|Hn].
  - destruct (grow_part y d1_15 5 4) as (z & E & H1 & H2); [now right|lia|lia|]. exists z. split; [exact E1|]. split; [exact E|lia].
  - rewrite E1. times 11501 10000. eexists. split; [reflexivity|]. split; [reflexivity|lia].
Qed.

(** The limit of descriptors does not limit the connections. Where a process may
    open at most 2048 descriptors, the tuning allows 2048 connections, although
    some descriptors are needed for listeners, queues and files: the parameter is
    at least 2048 whatever was computed from the limit. *)
Theorem maxconns_ignores_descriptors nprocs memory r :
  usual nprocs memory (Some r) → r <= 2048 →
  perf_calc_optimal_maxconns (perf_detect_system_resources nprocs memory (Some r)) = Some 2048.
Proof.
  intros [Hn Hm Hr] Hle. destruct (Hr r eq_refl) as [Hr0|?]; [|lia]. set (res := perf_detect_system_resources _ _ _).
  assert (Hfd : max_file_descriptors res = r) by (cbn; unfold i32; rewrite Z.mod_small; lia).
  unfold perf_calc_optimal_maxconns. rewrite Hfd. fits. set (ml := i32 _). set (lim := if ml <? r - 256 then ml else r - 256).
  assert (Hml : 0 <= ml).
  { unfold ml. assert (0 <= available_memory res / PERF_MEMORY_PER_CONNECTION <= 1431655766) by (cbn; unfold PERF_MEMORY_PER_CONNECTION; dm).
    unfold i32. rewrite Z.mod_small; lia. }
  assert (Hlim : - 257 <= lim < 1793) by (unfold lim; destruct (ml <? _) eqn:E; zb; lia). clearbody lim.
  assert (Hpart : ∀ c, c ∈ [d0_85; d0_75; d0_65] → (x ← int_times lim c;
    x ← (if 8 <=? cpu_cores res then int_times x d1_1 else Some x);
    x ← (if 16 <=? cpu_cores res then int_times x d1_15 else Some x);
    let x := if x <? 2048 then 2048 else x in Some (within PERF_MIN_MAXCONNS PERF_MAX_MAXCONNS x)) = Some 2048).
  { intros c Hc. destruct (small_part lim c Hc Hlim) as (x & -> & Hx). cbn [mbind option_bind].
    destruct (small_grow x (8 <=? cpu_cores res) (16 <=? cpu_cores res) Hx) as (y & z & -> & E3 & Hz). cbn [mbind option_bind].
    rewrite E3. cbn [mbind option_bind]. now rewrite (proj2 (Z.ltb_lt _ _) Hz). }
  destruct (has_high_memory res && has_many_cores res); [|destruct (has_high_memory res || has_many_cores res)]; apply Hpart;
    rewrite !elem_of_cons; auto.
Qed.

Lemma maxconns_ignores_descriptors_witness :
  perf_calc_optimal_maxconns (perf_detect_system_resources 8 (16 * 2 ^ 30) (Some 1024)) = Some 2048.
Proof. apply maxconns_ignores_descriptors; [split; [lia|lia|intros r [= <-]; lia]|lia]. Defined.

(** The tuning rejects its own choice. On a system with 4 processors, 1 GiB of memory and
    a limit of 1048576 descriptors, the parameters the tuning computes do not pass
    the validation that follows, and the server warns about them. *)
Theorem tuning_fails_own_validation :
  let r := perf_detect_system_resources 4 (2 ^ 30) (Some 1048576) in
  ∃ c, perf_optimize_defaults r = Some c ∧
    perf_validate_config r (optimal_backlog c) (optimal_queuesize c) (optimal_maxconns c) (optimal_nshards c) = Some false.
Proof. exists (PerfConfig 768 128 56797 256). split; vm_compute; reflexivity. Qed.
