(* ===== verification/Memlimit.v ===== *)
(** * Memlimit: the value of [--maxmemory]

    [calc_memlimit] of [src/src/main.c], with [strtod] and the arithmetic of
    [double]. A [double] that is positive and finite is [m * 2^e]. *)

From S2P Require Import Prelude Util Tuning.

(** ** Doubles *)

(** [m * 2^e] as a fraction. *)
Definition dnum (x : Z * Z) : Z := if 0 <=? x.2 then x.1 * 2 ^ x.2 else x.1.
Definition dden (x : Z * Z) : Z := if 0 <=? x.2 then 1 else 2 ^ (- x.2).

(** [n / d] in units of [2^e], as a fraction again. *)
Definition unum (n e : Z) : Z := if 0 <=? e then n else n * 2 ^ (- e).
Definition uden (d e : Z) : Z := if 0 <=? e then d * 2 ^ e else d.

(** The exponent of [n / d]: 53 bits, and no less than that of the smallest
    [double]. *)
Definition exponent (n d : Z) : Z :=
  let e := Z.log2 n - Z.log2 d - 53 in
  let e := if 2 ^ 53 <=? unum n e / uden d e then e + 1 else e in
  Z.max e (- 1074).

Definition half_even (n d : Z) : Z :=
  let q := n / d in
  let r := n mod d in
  if (d <? 2 * r) || ((2 * r =? d) && Z.odd q) then q + 1 else q.

(** The [double] nearest to [n / d]. *)
Definition nearest (n d : Z) : Z * Z :=
  let e := exponent n d in (half_even (unum n e) (uden d e), e).

(** Conversion to [size_t]; undefined when the value does not fit. *)
Definition to_size (x : Z * Z) : option Z :=
  let z := dnum x / dden x in if z <? 2 ^ 64 then Some z else None.

(** ** [strtod] *)

Definition xdigit (c : Z) : option Z :=
  if isdigit c then Some (c - 48)
  else if (97 <=? tolower c) && (tolower c <=? 102) then Some (tolower c - 87) else None.

Definition digit10 (c : Z) : option Z := if isdigit c then Some (c - 48) else None.

(** Digits of a base: their value with [acc] before them, their number, the rest. *)
Fixpoint scan_base (digit : Z → option Z) (base : Z) (s : bytes) (acc n : Z) : Z * Z * bytes :=
  match s with
  | c :: s' => match digit c with Some x => scan_base digit base s' (base * acc + x) (n + 1) | None => (acc, n, s) end
  | [] => (acc, n, [])
  end.

(** Digits with an optional point: all of them as a number, how many there are,
    how many follow the point, and the rest. *)
Definition scan_mantissa (digit : Z → option Z) (base : Z) (s : bytes) : Z * Z * Z * bytes :=
  let '(v, n, r) := scan_base digit base s 0 0 in
  match r with
  | c :: r' =>
      if c =? 46 then let '(v, k, r') := scan_base digit base r' v 0 in (v, n + k, k, if n + k =? 0 then r else r')
      else (v, n, 0, r)
  | [] => (v, n, 0, r)
  end.

(** An exponent after the letter [c]; without digits it is not part of the number. *)
Definition scan_exponent (c : Z) (s : bytes) : Z * bytes :=
  match s with
  | x :: s' =>
      if tolower x =? c then
        let '(neg, t) := match s' with
          | y :: t => if y =? 45 then (true, t) else if y =? 43 then (false, t) else (false, s')
          | [] => (false, s')
          end in
        let '(v, n, r) := scan_base digit10 10 t 0 0 in
        if n =? 0 then (0, s) else (if neg : bool then - v else v, r)
      else (0, s)
  | [] => (0, s)
  end.

(** The number at the front of a text without space and sign, as a fraction.
    The names of infinity and of the values that are no number are not numbers. *)
Definition scan_double (s : bytes) : option (Z * Z * bytes) :=
  let fraction (v base e : Z) := if 0 <=? e then (v * base ^ e, 1) else (v, base ^ (- e)) in
  let decimal :=
    let '(v, n, k, r) := scan_mantissa digit10 10 s in
    if n =? 0 then None else let '(e, r) := scan_exponent 101 r in Some (fraction v 10 (e - k), r) in
  match s with
  | z :: x :: s' =>
      if (z =? 48) && (tolower x =? 120) then
        let '(v, n, k, r) := scan_mantissa xdigit 16 s' in
        if n =? 0 then decimal
        else let '(e, r) := scan_exponent 112 r in Some (fraction v 2 (e - 4 * k), r)
      else decimal
  | _ => decimal
  end.

(** [strtod] where it returns a number above zero that is finite and leaves
    [errno] as it was, with [end]. A number too large is a range error, and so
    is one below the normal numbers that is not a [double]. *)
Definition strtod (s : bytes) : option (Z * Z * bytes) :=
  match skip_space s with
  | [] => None
  | c :: t =>
      if c =? 45 then None
      else
        '(n, d, r) ← scan_double (if c =? 43 then t else c :: t);
        if n =? 0 then None
        else
          let x := nearest n d in
          if 2 ^ 1024 * dden x <=? dnum x then None
          else if (n * 2 ^ 1022 <? d) && negb (dnum x * d =? n * dden x) then None
          else Some (x, r)
  end.

(** ** [calc_memlimit] *)

Inductive limit := Limit (n : Z) | Invalid | Unspecified.

Definition SIZE_MAX : Z := 2 ^ 64 - 1.

Definition exteq (last : bytes) (c : Z) : bool :=
  match last with
  | [x] => tolower x =? c
  | [x; y] => (tolower x =? c) && (tolower y =? 98)
  | _ => false
  end.

Definition sized (x : Z * Z) : limit := match to_size x with Some n => Limit n | None => Unspecified end.

(** [mem/100.0 * sysmem]. *)
Definition percent (mem : Z * Z) (sysmem : Z) : Z * Z :=
  let p := nearest (dnum mem) (dden mem * 100) in
  nearest (dnum p * round53 sysmem) (dden p).

Definition calc_memlimit (sysmem : Z) (maxmemory : bytes) : limit :=
  if bool_decide (maxmemory = str "unlimited") then Limit SIZE_MAX
  else
    match strtod (skip_space maxmemory) with
    | None => Invalid
    | Some (mem, last) =>
        let last := skip_space last in
        if bool_decide (last = []) then sized mem
        else if bool_decide (last = str "%") then sized (percent mem sysmem)
        else if exteq last 107 then sized (mem.1, mem.2 + 10)
        else if exteq last 109 then sized (mem.1, mem.2 + 20)
        else if exteq last 103 then sized (mem.1, mem.2 + 30)
        else if exteq last 116 then sized (mem.1, mem.2 + 40)
        else Invalid
    end.

(** ** Rounding *)

Lemma half_even_spec n d : 0 <= n → 0 < d → - d <= 2 * (half_even n d * d - n) <= d ∧ 0 <= half_even n d.
Proof.
  intros Hn Hd. unfold half_even. pose proof (Z.div_mod n d ltac:(lia)) as E. pose proof (Z.mod_pos_bound n d Hd) as Hr.
  assert (Hq : 0 <= n / d) by (apply Z.div_pos; lia). set (q := n / d) in *. set (r := n mod d) in *.
  destruct ((d <? 2 * r) || ((2 * r =? d) && Z.odd q)) eqn:Ev.
  - assert (d <= 2 * r) by (apply orb_prop in Ev as [Ev|Ev]; [zb; lia|apply andb_prop in Ev as [Ev _]; zb; lia]). split; [nia|lia].
  - apply orb_false_elim in Ev as [Ev _]. zb. split; [nia|lia].
Qed.

Lemma half_even_exact n : half_even n 1 = n.
Proof. unfold half_even. now rewrite Z.div_1_r, Z.mod_1_r. Qed.

Lemma unum_uden n d e : 0 < d → 0 <= n →
  0 < uden d e ∧ 0 <= unum n e ∧
  (∀ q, dnum (q, e) * d - n * dden (q, e) = q * uden d e - unum n e) ∧ (∀ q, unum n e = n * dden (q, e)).
Proof.
  intros Hd Hn. unfold unum, uden, dnum, dden. cbn [fst snd]. destruct (0 <=? e) eqn:E; zb.
  - assert (0 < 2 ^ e) by (apply Z.pow_pos_nonneg; lia). repeat split; intros; nia.
  - assert (0 < 2 ^ (- e)) by (apply Z.pow_pos_nonneg; lia). repeat split; intros; nia.
Qed.

(** The quotient has 53 bits. *)
Lemma exponent_spec n d : 0 < n → 0 < d → - 1021 <= Z.log2 n - Z.log2 d →
  2 ^ 52 * uden d (exponent n d) <= unum n (exponent n d).
Proof.
  intros Hn Hd Hl. unfold exponent. set (e0 := Z.log2 n - Z.log2 d - 53).
  assert (H0 : 2 ^ 52 * uden d e0 <= unum n e0).
  { pose proof (Z.log2_spec n Hn) as [Hn1 _]. pose proof (Z.log2_spec d Hd) as [_ Hd1]. rewrite Z.pow_succ_r in Hd1 by apply Z.log2_nonneg.
    pose proof (Z.log2_nonneg n) as Ln. pose proof (Z.log2_nonneg d) as Ld. unfold uden, unum. destruct (0 <=? e0) eqn:E; zb.
    - assert (2 ^ Z.log2 n = 2 ^ 53 * 2 ^ Z.log2 d * 2 ^ e0) by (rewrite <- !Z.pow_add_r by lia; f_equal; lia).
      assert (0 < 2 ^ e0) by (apply Z.pow_pos_nonneg; lia). nia.
    - assert (2 ^ Z.log2 n * 2 ^ (- e0) = 2 ^ 53 * 2 ^ Z.log2 d) by (rewrite <- !Z.pow_add_r by lia; f_equal; lia).
      assert (0 < 2 ^ (- e0)) by (apply Z.pow_pos_nonneg; lia). nia. }
  rewrite Z.max_l by (destruct (_ <=? _); lia). destruct (2 ^ 53 <=? _) eqn:E; [|exact H0]. zb.
  destruct (unum_uden n d e0 Hd ltac:(lia)) as (Hu & _). destruct (unum_uden n d (e0 + 1) Hd ltac:(lia)) as (Hu1 & _).
  assert (H53 : 2 ^ 53 * uden d e0 <= unum n e0) by (pose proof (Z.mul_div_le (unum n e0) (uden d e0) Hu); nia).
  clear H0 E. revert H53. unfold uden, unum. destruct (0 <=? e0) eqn:E; zb.
  - rewrite (proj2 (Z.leb_le 0 (e0 + 1))), Z.pow_add_r by lia. lia.
  - assert (E2 : 2 ^ (- e0) = 2 * 2 ^ (- e0 - 1)) by (rewrite <- Z.pow_succ_r by lia; f_equal; lia). rewrite E2.
    destruct (0 <=? e0 + 1) eqn:E1; zb; [|replace (- (e0 + 1)) with (- e0 - 1) by lia; lia].
    assert (e0 = -1) as -> by lia. cbn. lia.
Qed.

(** The nearest [double] is off by one part in [2^53]. *)
Lemma nearest_spec n d : 0 < n → 0 < d → - 1021 <= Z.log2 n - Z.log2 d →
  let x := nearest n d in 0 < dden x ∧ 0 <= dnum x ∧ Z.abs (dnum x * d - n * dden x) * 2 ^ 53 <= n * dden x.
Proof.
  intros Hn Hd Hl. unfold nearest. set (e := exponent n d). pose proof (exponent_spec n d Hn Hd Hl) as He. fold e in He.
  destruct (unum_uden n d e Hd ltac:(lia)) as (Hu & Hv & Hdiff & Hden).
  destruct (half_even_spec (unum n e) (uden d e) Hv Hu) as [Hq Hq0]. set (q := half_even _ _) in *. cbn zeta.
  assert (Hpos : 0 < dden (q, e)) by (unfold dden; cbn [fst snd]; destruct (0 <=? e) eqn:E; zb; [lia|apply Z.pow_pos_nonneg; lia]).
  assert (0 <= dnum (q, e)) by (unfold dnum; cbn [fst snd]; destruct (0 <=? e) eqn:E; zb; [|lia]; pose proof (Z.pow_pos_nonneg 2 e); nia).
  split; [exact Hpos|]. split; [easy|]. rewrite Hdiff, <- (Hden q). lia.
Qed.

(** A number below [2^53] is a [double]. *)
Lemma nearest_int n : 0 < n < 2 ^ 53 → ∃ k, 0 <= k <= 52 ∧ nearest n 1 = (n * 2 ^ k, - k).
Proof.
  intros [H0 Hn]. assert (Hl : 0 <= Z.log2 n < 53) by (split; [apply Z.log2_nonneg|apply Z.log2_lt_pow2; lia]).
  unfold nearest, exponent. rewrite Z.log2_1, Z.sub_0_r. set (e0 := Z.log2 n - 53).
  assert (E : ∀ k, 0 <= k → uden 1 (- k) = 1 ∧ unum n (- k) = n * 2 ^ k).
  { intros k Hk. unfold uden, unum. rewrite Z.opp_involutive. destruct (0 <=? - k) eqn:Ek; zb; [|easy].
    assert (k = 0) as -> by lia. cbn. lia. }
  assert (H53 : 2 ^ 53 <= unum n e0 / uden 1 e0).
  { replace e0 with (- (53 - Z.log2 n)) by lia. destruct (E (53 - Z.log2 n) ltac:(lia)) as [-> ->]. rewrite Z.div_1_r.
    pose proof (Z.log2_spec n H0) as [Hs _].
    assert (E2 : 2 ^ Z.log2 n * 2 ^ (53 - Z.log2 n) = 2 ^ 53) by (rewrite <- Z.pow_add_r by lia; f_equal; lia).
    pose proof (Z.pow_pos_nonneg 2 (53 - Z.log2 n)). nia. }
  rewrite (proj2 (Z.leb_le _ _) H53), Z.max_l by lia. exists (52 - Z.log2 n). split; [lia|].
  replace (e0 + 1) with (- (52 - Z.log2 n)) by lia. destruct (E (52 - Z.log2 n) ltac:(lia)) as [-> ->]. now rewrite half_even_exact.
Qed.

Lemma shifted n k j : 0 <= k → 0 <= j → 0 < dden (n * 2 ^ k, j - k) ∧ dnum (n * 2 ^ k, j - k) = n * 2 ^ j * dden (n * 2 ^ k, j - k).
Proof.
  intros Hk Hj. unfold dnum, dden. cbn [fst snd]. destruct (0 <=? j - k) eqn:E; zb.
  - split; [lia|]. rewrite Z.mul_1_r, <- Z.mul_assoc, <- Z.pow_add_r by lia. do 2 f_equal. lia.
  - split; [apply Z.pow_pos_nonneg; lia|]. rewrite <- Z.mul_assoc, <- Z.pow_add_r by lia. do 2 f_equal. lia.
Qed.

(** ** Texts *)

Lemma scan_base_digits l s acc n :
  Forall (λ c, isdigit c = true) l → (∀ c t, s = c :: t → isdigit c = false) →
  scan_base digit10 10 (l ++ s) acc n = (fold_left digit_step l acc, n + Z.of_nat (length l), s).
Proof.
  intros Hl Hs. revert acc n. induction Hl as [|c l Hc _ IH]; intros acc n; cbn [app scan_base].
  - destruct s as [|c t]; cbn [scan_base length fold_left]; [|unfold digit10; rewrite (Hs c t eq_refl)]; do 2 f_equal; lia.
  - unfold digit10 at 1. rewrite Hc, IH. cbn [fold_left length]. now replace (n + 1 + Z.of_nat (length l)) with (n + Z.of_nat (S (length l))) by lia.
Qed.

(** What follows a number when it is neither part of it nor space. *)
Definition unit_text (s : bytes) : Prop :=
  ∀ c t, s = c :: t → isdigit c = false ∧ isspace c = false ∧ c ≠ 46 ∧ tolower c ≠ 101 ∧ tolower c ≠ 120.

Lemma strtod_decimal n s : 0 < n < 2 ^ 53 → unit_text s →
  ∃ k, 0 <= k <= 52 ∧ strtod (skip_space (u64toa n ++ s)) = Some (n * 2 ^ k, - k, s).
Proof.
  intros Hn Hs. destruct (u64toa_spec n) as (ds & E & Hne & _ & Hd & Hval); [unfold is_u64; lia|]. rewrite E. rewrite <- fold_digits_rev in Hval.
  apply Forall_rev in Hd. destruct (rev ds) as [|c l] eqn:Er; [apply (f_equal (@rev Z)) in Er; rewrite rev_involutive in Er; now subst|].
  apply Forall_cons in Hd as Hcl. destruct Hcl as [Hc Hl]. apply isdigit_true in Hc as Hcr.
  assert (Hsp : isspace c = false) by (unfold isspace; rewrite orb_false_iff, andb_false_iff, Z.eqb_neq, !Z.leb_gt; lia).
  unfold strtod. cbn [app skip_space]. rewrite Hsp. cbn [skip_space]. rewrite Hsp, (proj2 (Z.eqb_neq c 45)), (proj2 (Z.eqb_neq c 43)) by lia.
  assert (Hm : scan_mantissa digit10 10 (c :: l ++ s) = (n, Z.of_nat (length (c :: l)), 0, s)).
  { unfold scan_mantissa. rewrite (app_comm_cons l s c), scan_base_digits, Hval; [|exact Hd|intros x t ->; now apply (Hs x t)].
    destruct s as [|x t]; [reflexivity|]. destruct (Hs x t eq_refl) as (_ & _ & Hx & _). now rewrite (proj2 (Z.eqb_neq x 46) Hx). }
  assert (He : scan_exponent 101 s = (0, s)).
  { destruct s as [|x t]; [reflexivity|]. destruct (Hs x t eq_refl) as (_ & _ & _ & Hx & _). cbn. now rewrite (proj2 (Z.eqb_neq _ _) Hx). }
  assert (Hsc : scan_double (c :: l ++ s) = Some (n, 1, s)).
  { unfold scan_double. rewrite Hm, He. change (Z.of_nat (length (c :: l)) =? 0) with false. cbn [fst snd].
    assert (Hx : ∀ x r, l ++ s = x :: r → tolower x ≠ 120).
    { destruct l as [|x l']; [intros x r E2; now apply (Hs x r)|]. intros ? ? [= <- _]. apply Forall_cons in Hl as [Hx _].
      apply isdigit_true in Hx. unfold tolower. rewrite (proj2 (Z.leb_gt 65 x)) by lia. cbn. lia. }
    cbn [Z.leb Z.sub Z.compare Z.opp Z.add Z.pow]. rewrite Z.mul_1_r.
    destruct (l ++ s) as [|x r]; [reflexivity|]. now rewrite (proj2 (Z.eqb_neq _ _) (Hx x r eq_refl)), andb_false_r. }
  rewrite Hsc. cbn [mbind option_bind]. rewrite (proj2 (Z.eqb_neq n 0)) by lia. destruct (nearest_int n Hn) as (k & Hk & ->).
  exists k. split; [exact Hk|]. destruct (shifted n k 0) as [Hden Hnum]; [lia|lia|]. cbn [Z.sub Z.add] in Hden, Hnum.
  rewrite Z.sub_0_l, Z.mul_1_r in Hnum. rewrite Z.sub_0_l in Hden.
  assert (2 ^ 53 < 2 ^ 1024) by now apply Z.pow_lt_mono_r.
  rewrite Hnum, (proj2 (Z.leb_gt _ _)) by nia. rewrite Z.mul_1_r, Z.eqb_refl, andb_false_r. reflexivity.
Qed.

(** ** Units *)

Lemma sized_shift n k j : 0 <= k → 0 <= j → n * 2 ^ j < 2 ^ 64 → sized (n * 2 ^ k, - k + j) = Limit (n * 2 ^ j).
Proof.
  intros Hk Hj Hlt. destruct (shifted n k j Hk Hj) as [Hden Hnum]. replace (- k + j) with (j - k) by lia. unfold sized, to_size.
  rewrite Hnum, Z.div_mul by lia. now rewrite (proj2 (Z.ltb_lt _ _) Hlt).
Qed.

(** The units: a letter in either case, perhaps with a [b]. *)
Definition unit_shift (u : bytes) : option Z :=
  if bool_decide (u = []) then Some 0
  else match list_find (λ c, exteq u c = true) [107; 109; 103; 116] with Some (i, _) => Some (10 * (Z.of_nat i + 1)) | None => None end.

Lemma unit_shift_text u j : unit_shift u = Some j → unit_text u ∧ (u = [] ∨ ∃ c l, u = c :: l ∧ isspace c = false ∧ c ≠ 37 ∧ c ≠ 117).
Proof.
  unfold unit_shift. destruct (bool_decide_reflect (u = [])) as [->|Hne]; [intros _; split; [easy|now left]|].
  destruct (list_find _ _) as [[i x]|] eqn:E; [|easy]. intros _. apply list_find_Some in E as (Hx & He & _).
  assert (Hc : ∃ c l, u = c :: l ∧ tolower c = x).
  { destruct u as [|c [|y [|]]]; cbn in He; try easy; apply Z.eqb_eq in He || (apply andb_prop in He as [He%Z.eqb_eq _]); eauto. }
  destruct Hc as (c & l & -> & Hc). apply list_elem_of_lookup_2 in Hx.
  assert (Hr : 65 <= c <= 122 ∧ c ≠ 117 ∧ tolower c ≠ 101 ∧ tolower c ≠ 120).
  { unfold tolower in *. repeat (apply elem_of_cons in Hx as [->|Hx]); try easy; destruct ((65 <=? c) && (c <=? 90)) eqn:Ec;
      try (apply andb_prop in Ec as [??]; zb); lia. }
  assert (Hs : isspace c = false) by (unfold isspace; rewrite orb_false_iff, andb_false_iff, Z.eqb_neq, !Z.leb_gt; lia).
  split; [|right; exists c, l; repeat split; [easy|lia|lia]]. intros ? ? [= <- <-]. split; [|repeat split; [easy|lia|lia|lia]].
  unfold isdigit. rewrite andb_false_iff, !Z.leb_gt. lia.
Qed.

Lemma not_unlimited n s : 0 < n < 2 ^ 53 → u64toa n ++ s ≠ str "unlimited".
Proof.
  intros Hn E. destruct (u64toa_spec n) as (ds & Ed & Hne & _ & Hd & _); [unfold is_u64; lia|]. rewrite Ed in E. apply Forall_rev in Hd.
  destruct (rev ds) as [|c l] eqn:Er; [apply (f_equal (@rev Z)) in Er; rewrite rev_involutive in Er; now subst|].
  apply Forall_cons in Hd as [Hc _]. injection E as -> _. now vm_compute in Hc.
Qed.



(** ** Percentages *)

Lemma dden_nearest n d L : Z.log2 d - Z.log2 n <= L → 0 <= L → dden (nearest n d) <= 2 ^ (53 + L).
Proof.
  intros Hl H0. unfold nearest, dden. cbn [fst snd]. destruct (0 <=? _) eqn:E; [pose proof (Z.pow_pos_nonneg 2 (53 + L)); lia|].
  apply Z.pow_le_mono_r; [lia|]. clear E. unfold exponent. cbn zeta. destruct (2 ^ 53 <=? _); lia.
Qed.

(** Two roundings, and what is lost when the result is cut to an integer. *)
Lemma product_close p a b A B S :
  0 < p → 0 < b → 0 < B → 0 <= a → 0 < S < 2 ^ 53 →
  Z.abs (100 * a - p * b) * 2 ^ 53 <= p * b → Z.abs (A * b - a * S * B) * 2 ^ 53 <= a * S * B →
  Z.abs (100 * A - p * S * B) <= 3 * p * B.
Proof.
  intros Hp Hb HB Ha HS H1 H2. assert (Hpb : 0 < p * b) by nia. set (T := 2 ^ 53) in *.
  assert (G2 : Z.abs (A * b - a * S * B) <= a * B).
  { apply Z.mul_le_mono_pos_r with T; [lia|]. etransitivity; [exact H2|]. assert (0 <= a * B) by nia. nia. }
  assert (G1 : Z.abs (100 * a - p * b) * S <= p * b) by (pose proof (Z.abs_nonneg (100 * a - p * b)); nia).
  assert (G3 : 100 * a <= 2 * (p * b)) by (pose proof (Z.abs_nonneg (100 * a - p * b)); unfold T in *; lia).
  assert (G : Z.abs (100 * A - p * S * B) * b <= 3 * (p * b) * B).
  { rewrite <- (Z.abs_eq b) at 1 by lia. rewrite <- Z.abs_mul.
    replace ((100 * A - p * S * B) * b) with (100 * (A * b - a * S * B) + (100 * a - p * b) * (S * B)) by ring.
    etransitivity; [apply Z.abs_triangle|]. rewrite !Z.abs_mul, (Z.abs_eq 100), (Z.abs_eq S), (Z.abs_eq B) by lia.
    assert (Z.abs (100 * a - p * b) * (S * B) <= p * b * B) by nia. assert (100 * (a * B) <= 2 * (p * b) * B) by nia. nia. }
  apply Z.mul_le_mono_pos_r with b; [lia|]. etransitivity; [exact G|]. lia.
Qed.

Lemma percent_close p x S : 0 < p <= 100 → 0 < S < 2 ^ 53 → 0 < dden x <= 2 ^ 52 → dnum x = p * dden x →
  let y := percent x S in 0 < dden y ∧ Z.abs (100 * dnum y - p * S * dden y) <= 3 * p * dden y.
Proof.
  intros Hp HS Hd Hx. unfold percent. assert (round53 S = S) as -> by (unfold round53; now rewrite (proj2 (Z.ltb_lt _ _) (proj2 HS))).
  assert (Hl : Z.log2 (dden x * 100) <= 59).
  { assert (E : Z.log2 (2 ^ 59) = 59) by (apply Z.log2_pow2; lia). rewrite <- E. apply Z.log2_le_mono. lia. }
  pose proof (Z.log2_nonneg (dnum x)) as Hl0.
  destruct (nearest_spec (dnum x) (dden x * 100)) as (Hb & Ha & H1); [nia|lia|lia|].
  pose proof (dden_nearest (dnum x) (dden x * 100) 60 ltac:(lia) ltac:(lia)) as Hbb.
  set (P := nearest (dnum x) (dden x * 100)) in *. set (a := dnum P) in *. set (b := dden P) in *.
  rewrite Hx in H1. replace (a * (dden x * 100) - p * dden x * b) with ((100 * a - p * b) * dden x) in H1 by ring.
  rewrite Z.abs_mul, (Z.abs_eq (dden x)) in H1 by lia. assert (H1' : Z.abs (100 * a - p * b) * 2 ^ 53 <= p * b) by nia. clear H1.
  assert (Ha0 : 0 < a) by (destruct (decide (a = 0)) as [E|]; [|lia]; rewrite E in H1'; nia).
  assert (Hlb : Z.log2 b <= 113).
  { assert (E : Z.log2 (2 ^ 113) = 113) by (apply Z.log2_pow2; lia). rewrite <- E. apply Z.log2_le_mono. exact Hbb. }
  pose proof (Z.log2_nonneg (a * S)) as Hl1.
  destruct (nearest_spec (a * S) b) as (HB & _ & H2); [nia|exact Hb|lia|]. split; [exact HB|].
  apply (product_close p a b); try easy; lia.
Qed.

(** A limit in percent is that part of the memory of the system, within four
    bytes: the product is computed with numbers of 53 bits. *)
Theorem maxmemory_percent sysmem p : 0 < p <= 100 → 0 < sysmem < 2 ^ 53 →
  ∃ n, calc_memlimit sysmem (u64toa p ++ str "%") = Limit n ∧ - 400 < 100 * n - p * sysmem <= 300.
Proof.
  intros Hp HS. unfold calc_memlimit. rewrite bool_decide_eq_false_2 by (apply not_unlimited; lia).
  destruct (strtod_decimal p (str "%")) as (k & Hk & ->); [lia|intros ? ? [= <- <-]; repeat split; vm_compute; congruence|].
  cbn [skip_space]. change (skip_space (str "%")) with (str "%"). rewrite bool_decide_eq_false_2, bool_decide_eq_true_2 by easy.
  destruct (shifted p k 0) as [Hd Hx]; [lia|lia|]. rewrite Z.sub_0_l in Hd, Hx. rewrite Z.mul_1_r in Hx.
  assert (Hd52 : dden (p * 2 ^ k, - k) <= 2 ^ 52).
  { unfold dden. cbn [fst snd]. destruct (0 <=? - k); [lia|]. rewrite Z.opp_involutive. apply Z.pow_le_mono_r; lia. }
  destruct (percent_close p _ sysmem Hp HS (conj Hd Hd52) Hx) as [HB HA]. set (y := percent _ _) in *. exists (dnum y / dden y).
  pose proof (Z.div_mod (dnum y) (dden y) ltac:(lia)) as E. pose proof (Z.mod_pos_bound (dnum y) (dden y) HB) as Hm.
  set (L := dnum y / dden y) in *. set (r := dnum y mod dden y) in *. rewrite E in HA.
  assert (HL : - 400 < 100 * L - p * sysmem <= 300) by nia. split; [|exact HL].
  unfold sized, to_size. fold L. rewrite (proj2 (Z.ltb_lt _ _)); [reflexivity|nia].
Qed.

Lemma maxmemory_percent_witness : ∃ n, calc_memlimit (2 ^ 34) (str "80%") = Limit n ∧ - 400 < 100 * n - 80 * 2 ^ 34 <= 300.
Proof. exact (maxmemory_percent (2 ^ 34) 80 ltac:(lia) ltac:(lia)). Defined.
