(* ===== verification/Debug.v ===== *)
(** * Debug: the commands DEBUG and STATS

    [cmdDEBUG] with its subcommands and [cmdSTATS] of [src/src/cmds.c], which the
    table of commands in [Cmds.v] takes as arguments. The threads of DEBUG
    POPULATE run in the order in which they are created. *)

From S2P Require Import Prelude Util Context Heap Shard Cache Resp Memcache Http Parse Conn ConnProofs Postgres Cmds CmdFrame Tuning Memlimit.

(** ** DEBUG *)

(** The range of random lifetimes, [min-max]: what precedes the first dash is
    read up to it, or to a sign. *)
Definition rand_range (ex : bytes) : option (Z * Z) :=
  let ex := c_str ex in
  match list_find (λ x, x = 45) ex with
  | Some (i, _) => Some (atoi ex, atoi (drop (S i) ex))
  | None => None
  end.

(** [start] and [count] of each thread. *)
Fixpoint groups (nprocs : nat) (count group start : Z) : list (Z * Z) :=
  match nprocs with
  | O => []
  | S O => [(start, count - start)]
  | S n => (start, group) :: groups n count group (start + group)
  end.

Section Debug.
Context `{Env}.

(** The processors, and what [rand] returns for each key. *)
Context (nprocs : Z) (rand : Z → Z).

(** [(rand()%(randmax-randmin))+randmin] seconds; the remainder of a division by
    zero and the overflow of an [int] are undefined. *)
Definition rand_ttl (range : option (Z * Z)) (i : Z) : option Z :=
  match range with
  | None => Some 0
  | Some (randmin, randmax) =>
      d ← int (randmax - randmin);
      if d =? 0 then None else ex ← int (Z.rem (rand i) d + randmin); Some (ex * SECOND)
  end.

Definition lift {A} (x : option A) : cmd A := λ s c, x ← x; Some (x, s, c).

(** [populate_entry]. *)
Fixpoint populate_loop (todo : nat) (i now : Z) (prefix val : bytes) (range : option (Z * Z)) : cmd unit :=
  match todo with
  | O => mret tt
  | S todo =>
      ttl ← lift (rand_ttl range i);
      _ ← store Root (prefix ++ str ":" ++ i64toa i) val (StoreOpts now 0 ttl 0 0 false false false false false None) tt;
      populate_loop todo (i + 1) now prefix val range
  end.

Definition populate_entry (prefix val : bytes) (range : option (Z * Z)) (start count : Z) : cmd unit :=
  now ← sys_now; populate_loop (Z.to_nat count) start now prefix val range.

(** The threads in the order given, each to its end. *)
Fixpoint populate_all (prefix val : bytes) (range : option (Z * Z)) (ctxs : list (Z * Z)) : cmd unit :=
  match ctxs with
  | [] => mret tt
  | (start, count) :: ctxs => populate_entry prefix val range start count;; populate_all prefix val range ctxs
  end.

(** [cmdDEBUG_populate], with the arguments from the subcommand on. *)
Definition cmdDEBUG_populate (args : list bytes) : cmd unit :=
  if negb ((length args =? 4)%nat || (length args =? 5)%nat) then wrong_args
  else
    '(ok, count) ← lift (argi64 args 1);
    if negb ok || (count <? 0) then syntax_error
    else
      prefix ← lift (args !! 2%nat);
      '(ok, vallen) ← lift (argi64 args 3);
      if negb ok || (vallen <? 0) then syntax_error
      else
        let range := ex ← args !! 4%nat; rand_range ex in
        let n := if nprocs <? 0 then 1 else nprocs in
        if n =? 0 then fail
        else
          populate_all prefix (repeat 0 (Z.to_nat vallen)) range (groups (Z.to_nat n) count (count / n) 0);;
          proto ← conn_proto;
          reply (λ c, if decide (proto = PROTO_POSTGRES) then pg_done (str "DEBUG POPULATE " ++ i64toa count) c
                      else conn_write_string c (str "OK")).

Definition cmdDEBUG_detach : cmd unit := now ← sys_now; bgwork (JobDetach now).

Definition cmdDEBUG : cmd unit :=
  args ← get_args;
  match args with
  | [] | [_] => wrong_args
  | _ :: args =>
      if argeq args 0 (str "populate") then cmdDEBUG_populate args
      else if argeq args 0 (str "detach") then cmdDEBUG_detach
      else error (str "ERR unknown subcommand")
  end.

End Debug.

(** ** STATS *)

(** The counters of [src/src/stats.c] and of [src/src/net.c] that STATS shows. *)
Inductive counter :=
  | cmd_get | cmd_set | cmd_flush | cmd_touch | get_hits | get_misses | delete_misses | delete_hits | incr_misses
  | incr_hits | decr_misses | decr_hits | touch_hits | touch_misses | store_too_large | store_no_memory | auth_cmds | auth_errors.

(** What STATS reads of the process and of the system. *)
Record process := Process {
  p_pid : Z; p_procstart : Z; p_unixnow : Z; p_version : bytes; p_githash : bytes; p_rusage : option (Z * Z * Z * Z);
  p_maxconns : Z; p_nconns : Z; p_tconns : Z; p_rconns : Z; p_stat : counter → Z; p_nthreads : Z; p_rss : Z
}.

(** [%.0f] of nanoseconds divided by [1e9]. *)
Definition seconds_text (ns : Z) : bytes :=
  let x := nearest (round53 (Z.abs ns)) 1000000000 in
  (if ns <? 0 then str "-" else []) ++ u64toa (half_even (dnum x) (dden x)).

(** [%06ld]. *)
Definition pad6 (x : Z) : bytes := let s := i64toa x in repeat 48 (6 - length s) ++ s.

(** The lines of [stats_printf], without the three on the cache. *)
Definition process_lines (p : process) (now : Z) : list (bytes * bytes) :=
  let stat (name : bytes) (k : counter) := (name, u64toa (p_stat p k)) in
  [(str "pid", i64toa (p_pid p)); (str "uptime", seconds_text (now - p_procstart p)); (str "time", seconds_text (p_unixnow p));
   (str "product", str "pogocache"); (str "version", p_version p); (str "githash", p_githash p); (str "pointer_size", str "64")] ++
  (match p_rusage p with
   | Some (us, uus, ss, sus) =>
       [(str "rusage_user", i64toa us ++ str "." ++ pad6 uus); (str "rusage_system", i64toa ss ++ str "." ++ pad6 sus)]
   | None => []
   end) ++
  [(str "max_connections", u64toa (p_maxconns p)); (str "curr_connections", u64toa (p_nconns p));
   (str "total_connections", u64toa (p_tconns p)); (str "rejected_connections", u64toa (p_rconns p));
   stat (str "cmd_get") cmd_get; stat (str "cmd_set") cmd_set; stat (str "cmd_flush") cmd_flush; stat (str "cmd_touch") cmd_touch;
   stat (str "get_hits") get_hits; stat (str "get_misses") get_misses; stat (str "delete_misses") delete_misses;
   stat (str "delete_hits") delete_hits; stat (str "incr_misses") incr_misses; stat (str "incr_hits") incr_hits;
   stat (str "decr_misses") decr_misses; stat (str "decr_hits") decr_hits; stat (str "touch_hits") touch_hits;
   stat (str "touch_misses") touch_misses; stat (str "store_too_large") store_too_large;
   stat (str "store_no_memory") store_no_memory; stat (str "auth_cmds") auth_cmds; stat (str "auth_errors") auth_errors;
   (str "threads", i64toa (p_nthreads p)); (str "rss", u64toa (p_rss p))].

(** [stats_printf]: a line is its name, a space and its value, and fits the
    buffer; the list keeps it up to its terminator. *)
Definition stats_printf (line : bytes * bytes) : option bytes :=
  let text := line.1 ++ str " " ++ line.2 in if (511 <=? length text)%nat then None else Some (c_str text).

(** [strchr(key, ' ')]: the line cut at its first space. *)
Definition cut_space (line : bytes) : bytes * bytes :=
  match list_find (λ x, x = 32) line with Some (i, _) => (take i line, drop (S i) line) | None => (line, []) end.

(** [stats_end]. *)
Definition stats_end (lines : list bytes) (c : conn job) : conn job :=
  let n := u64toa (Z.of_nat (length lines)) in
  if decide (c_proto c = PROTO_POSTGRES) then
    pg_done (str "STATS " ++ n)
      (fold_left (λ c line, let '(key, val) := cut_space line in pg_write_row_data c [key; val]) lines
        (pg_write_row_desc c [str "stat"; str "value"]))
  else if decide (c_proto c = PROTO_MEMCACHE) then
    conn_write_raw_cstr (fold_left (λ c line, conn_write_raw c (str "STAT " ++ line ++ crlf)) lines c) (str "END" ++ crlf)
  else
    fold_left (λ c line, let '(key, val) := cut_space line in
      conn_write_bulk_cstr (conn_write_bulk_cstr (conn_write_array c 2) key) val) lines
      (conn_write_array c (Z.of_nat (length lines))).

(** The three scans of the cache. *)
Definition scan (read : scan_opts → handle → cache_t → option (Z * handle * cache_t)) (opts : scan_opts) : cmd Z := λ s c,
  '(n, _, k) ← read opts Root (s_cache s); Some (n, set_cache s k (s_world s), c).

Definition stats (p : process) : cmd unit :=
  now ← sys_now;
  bytes_ ← scan pogocache_size (ScanOpts 0 false 0 true);
  items ← scan pogocache_count (ScanOpts 0 false 0 false);
  total ← scan pogocache_total (ScanOpts 0 false 0 false);
  lines ← lift (mapM stats_printf (process_lines p now ++
    [(str "bytes", u64toa bytes_); (str "curr_items", u64toa items); (str "total_items", u64toa total)]));
  reply (stats_end lines).

Definition cmdSTATS (p : process) : cmd unit :=
  args ← get_args;
  match args with [_] => stats p | _ => syntax_error end.

(** ** Frames *)

Lemma framed_lift {A} (x : option A) : framed (lift x).
Proof. intros s c p. now destruct x. Qed.
#[export] Hint Resolve framed_lift : framed.

Section Frames.
Context `{Env}.

Lemma framed_populate_loop rand todo : ∀ i now prefix val range, framed (populate_loop rand todo i now prefix val range).
Proof.
  induction todo as [|todo IH]; intros; cbn [populate_loop]; [auto with framed|].
  apply framed_bind; [auto with framed|]. intros ttl. apply framed_bind; [apply framed_store|]. intros _. apply IH.
Qed.

Lemma framed_populate_all rand prefix val range ctxs : framed (populate_all rand prefix val range ctxs).
Proof.
  induction ctxs as [|[start count] ctxs IH]; cbn [populate_all]; [auto with framed|].
  apply framed_bind; [|intros _; apply IH]. unfold populate_entry. apply framed_bind; [auto with framed|]. intros now. apply framed_populate_loop.
Qed.

Lemma framed_cmdDEBUG nprocs rand : framed (cmdDEBUG nprocs rand).
Proof.
  unfold cmdDEBUG, cmdDEBUG_detach, cmdDEBUG_populate. pose proof (framed_populate_all rand) as Hp. framed_cmd; auto.
Qed.

Lemma frame_fold {A} (f : conn job → A → conn job) l :
  (∀ x, frame_fun (λ c, f c x)) → frame_fun (λ c, fold_left f l c).
Proof.
  intros Hf. induction l as [|x l IH]; intros c p; [easy|]. cbn [fold_left]. destruct (Hf x c p) as [-> E1].
  destruct (IH (f c x) p) as [-> E2]. split; [reflexivity|congruence].
Qed.

Lemma frame_comp (f g : conn job → conn job) : frame_fun f → frame_fun g → frame_fun (λ c, f (g c)).
Proof. intros Hf Hg c p. destruct (Hg c p) as [-> E1]. destruct (Hf (g c) p) as [-> E2]. split; [reflexivity|congruence]. Qed.

Lemma frame_stats_end lines : frame_fun (stats_end lines).
Proof.
  assert (Hpg : frame_fun (λ c, pg_done (str "STATS " ++ u64toa (Z.of_nat (length lines)))
    (fold_left (λ c line, let '(key, val) := cut_space line in pg_write_row_data c [key; val]) lines
      (pg_write_row_desc c [str "stat"; str "value"])))).
  { apply (frame_comp (pg_done _)); [frame_conn|]. apply (frame_comp (fold_left _ lines)); [|frame_conn].
    apply frame_fold. intros line. destruct (cut_space line). frame_conn. }
  assert (Hmc : frame_fun (λ c, conn_write_raw_cstr
    (fold_left (λ c line, conn_write_raw c (str "STAT " ++ line ++ crlf)) lines c) (str "END" ++ crlf))).
  { apply (frame_comp (λ c, conn_write_raw_cstr c _)); [frame_conn|]. apply frame_fold. intros line. frame_conn. }
  assert (Hre : frame_fun (λ c, fold_left (λ c line, let '(key, val) := cut_space line in
    conn_write_bulk_cstr (conn_write_bulk_cstr (conn_write_array c 2) key) val) lines (conn_write_array c (Z.of_nat (length lines))))).
  { apply (frame_comp (fold_left _ lines)); [|frame_conn]. apply frame_fold. intros line. destruct (cut_space line).
    apply (frame_comp (λ c, conn_write_bulk_cstr c _)); [frame_conn|]. apply (frame_comp (λ c, conn_write_bulk_cstr c _)); frame_conn. }
  intros c p. unfold stats_end. replace (c_proto (set_packet c p)) with (c_proto c) by now destruct c.
  destruct (decide (c_proto c = PROTO_POSTGRES)); [apply Hpg|]. destruct (decide (c_proto c = PROTO_MEMCACHE)); [apply Hmc|apply Hre].
Qed.

Lemma framed_scan read opts : framed (scan read opts).
Proof. intros s c p. unfold scan. now destruct (read opts Root (s_cache s)) as [[[n h] k]|]. Qed.

Lemma framed_cmdSTATS p : framed (cmdSTATS p).
Proof.
  unfold cmdSTATS, stats. pose proof framed_scan as Hs. framed_cmd; auto. apply framed_reply, frame_stats_end.
Qed.

End Frames.

(** ** The server *)

Section Server.
Context `{Env} (cfg : config) (nprocs : Z) (rand : Z → Z) (p : process) (version : bytes).

(** The event loop with all commands and the four parsers. *)
Definition full_server : Conn.Server server job :=
  pogocache_server cfg (cmdDEBUG nprocs rand) (cmdSTATS p) version (parse_postgres (g_auth cfg)).

Lemma full_server_ok : @ServerOk server job full_server.
Proof. apply pogocache_server_ok; [apply framed_cmdDEBUG|apply framed_cmdSTATS]. Qed.

End Server.
