(* ===== verification/Server.v ===== *)
(** * Server: commands over the engine

    The commands of [Cmds.v] on a cache that satisfies its invariant: what a
    client that sends SET and GET reads back, and what a client without the
    password can do. *)

From S2P Require Import Prelude Util Context Entry Heap Map MapInv MapSpec Shard ShardInv ShardSpec ShardOps ShardStore.
From S2P Require Import Samples ShardTheorems Cache Locks CacheInv CacheOps CacheTheorems.
From S2P Require Import Resp RespProofs Memcache Http Parse Conn ConnProofs Cmds CmdTable CmdFrame.

#[local] Opaque th64 hash24 encode entry_memsize.

(** ** Dispatch *)

Section Dispatch.
Context `{Env} (cfg : config) (cmdDEBUG cmdSTATS : cmd unit).

(** The client may run commands. *)
Definition authorized (c : conn job) : Prop :=
  g_useauth cfg = false ∨ c_auth c = true ∨ c_proto c = PROTO_HTTP.

Lemma authorized_test c :
  authorized c → g_useauth cfg && negb (c_auth c) && negb (bool_decide (c_proto c = PROTO_HTTP)) = false.
Proof.
  intros [->|[->|Hp]]; [easy|now rewrite andb_false_r|].
  rewrite bool_decide_true by easy. apply andb_false_r.
Qed.

Lemma evcommand_find s c name args id m :
  authorized c → c_args c = name :: args → find_cmd 0 all_names name = Some id →
  cmds cfg cmdDEBUG cmdSTATS !! id = Some m → evcommand cfg cmdDEBUG cmdSTATS s c = m.2 s c.
Proof.
  intros Ha Hargs Hf Hm. unfold evcommand. rewrite (authorized_test c Ha), Hargs.
  cbn [lookup list_lookup mbind option_bind].
  change (cmd_names cfg cmdDEBUG cmdSTATS) with all_names. rewrite get_cmd_spec, Hf.
  cbn [mbind option_bind]. now rewrite Hm.
Qed.

(** ** The password *)

(** A connection that has not given the password. *)
Definition locked_out (c : conn job) : Prop :=
  g_useauth cfg = true ∧ c_auth c = false ∧ c_proto c ≠ PROTO_HTTP.

(** The command that gives it. *)
Definition gives_password (args : list bytes) : Prop :=
  ∃ name, argeq_bytes name (str "auth") = true ∧ args = [name; g_auth cfg].

Lemma locked_out_step s c :
  locked_out c → c_args c ≠ [] → ∃ c',
    evcommand cfg cmdDEBUG cmdSTATS s c = Some (tt, s, c') ∧ c_proto c' = c_proto c ∧
    (c_auth c' = true ↔ gives_password (c_args c)) ∧ c_pg c' = c_pg c.
Proof.
  intros (Hu & Ha & Hp) Hne. unfold evcommand. rewrite Hu, Ha, bool_decide_false by easy. cbn [andb negb].
  destruct (c_args c) as [|name args] eqn:Eargs; [easy|]. unfold cmdAUTH, get_args, arg, mbind, cmd_bind.
  rewrite Eargs. cbn [lookup list_lookup mbind option_bind].
  (* a reply that is only written *)
  assert (Hno : ∀ c', appends c c' → ¬ gives_password (name :: args) →
    c_proto c' = c_proto c ∧ (c_auth c' = true ↔ gives_password (name :: args)) ∧ c_pg c' = c_pg c).
  { intros c' [bs ->] Hg. cbn. rewrite Ha. repeat split; easy. }
  destruct (argeq_bytes name (str "auth")) eqn:Eq; cbn [negb].
  2: { eexists. split; [reflexivity|]. apply Hno; [unfold conn_write_raw_cstr; auto with writes|].
       intros (n & Hn & [= <- _]). congruence. }
  assert (Hg : gives_password (name :: args) ↔ args = [g_auth cfg]).
  { split; [now intros (n & _ & [= _ ->])|]. intros ->. now exists name. }
  destruct args as [|pass [|x [|y args]]];
    try (eexists; split; [reflexivity|]; apply Hno; [auto with writes|now rewrite Hg]).
  destruct (bool_decide (pass = g_auth cfg)) eqn:Ep.
  - apply bool_decide_eq_true in Ep as ->. eexists. split; [reflexivity|]. rewrite Hg.
    destruct (decide _); cbn; [|easy]. unfold pg_write_ready. cbn. now destruct (pg_execute _).
  - apply bool_decide_eq_false in Ep. eexists. split; [reflexivity|]. apply Hno; [auto with writes|]. rewrite Hg. now intros [= ->].
Qed.

End Dispatch.

(** ** SET and GET *)

(** A server whose cache satisfies its invariant, with no lock held and memory
    to spare. *)
Record ready (s : server) (Ms : list content) : Prop := {
  rd_ok : cache_ok (s_cache s) (w_heap (s_world s)) Ms;
  rd_unlocked : unlocked (s_cache s);
  rd_lowmem : s_lowmem s = false
}.

Definition shard_of (s : server) (key : bytes) : nat := Z.to_nat (home (c_ctx (s_cache s)) key).

(** The key is bound to [x] in the server, whose shard was cleared at [cleartime]. *)
Definition holds (s : server) (Ms : list content) (key : bytes) (x : ent) (cleartime : Z) : Prop :=
  ∃ sh M, c_shards (s_cache s) !! shard_of s key = Some sh ∧ Ms !! shard_of s key = Some M ∧
    a_ents (abs sh M) !! key = Some x ∧ s_cleartime sh = cleartime.

Section Data.
Context `{Env} `{!EnvOk _} (cfg : config) (cmdDEBUG cmdSTATS : cmd unit).

(** A plain store always stores. *)
Lemma plain_store_outcome {U} ctx i now key victim val expires (a : astate) (u : U) st a' evs u' :
  store_spec ctx i now key true victim val
    (StoreOpts now expires 0 0 0 false false false false false None) a u = (st, a', evs, u') →
  (st = POGOCACHE_INSERTED ∨ st = POGOCACHE_REPLACED) ∧ u' = u.
Proof.
  unfold store_spec. cbn [so_lowmem so_xx so_casop so_nx so_entry negb orb andb].
  destruct (a_ents (a_tick a) !! key) as [o|]; [|intros [= <- _ _ <-]; auto].
  destruct (negb _); [intros [= <- _ _ <-]; auto|]. cbv beta iota. intros [= <- _ _ <-]. auto.
Qed.

Lemma root_keeps_locks h' c c' key :
  (h', c_locks c') = lock_effect Root (home (c_ctx c) key) (c_locks c) → c_locks c' = c_locks c.
Proof. now intros [= _ ->]. Qed.

Lemma unlocked_same c c' : c_locks c' = c_locks c → unlocked c → unlocked c'.
Proof. intros E Hu i k. unfold unlocked, lock_get in *. rewrite E. apply Hu. Qed.

Lemma set_step s Ms c name key val :
  ready s Ms → authorized cfg c → c_proto c = PROTO_RESP → c_args c = [name; key; val] →
  lower name = str "set" → 0 < s_clock s 0%nat → is_i64 (s_clock s 0%nat) → key_ok key →
  Z.of_nat (length val) < 2 ^ 64 → plenty (w_heap (s_world s)) →
  (∀ sh M, Ms !! shard_of s key = Some M → store_pre (c_ctx (s_cache s)) key sh M) →
  ∃ s' Ms' sh cas,
    evcommand cfg cmdDEBUG cmdSTATS s c = Some (tt, s', conn_write_string c (str "OK")) ∧
    ready s' Ms' ∧ s_clock s' = (λ i, s_clock s (S i)) ∧
    c_shards (s_cache s) !! shard_of s key = Some sh ∧
    holds s' Ms' key (new_ent (c_ctx (s_cache s)) key val 0 0 cas (s_clock s 0%nat)) (s_cleartime sh).
Proof.
  intros [Hok Hu Hlow] Ha Hp Hargs Hn Hpos Hi Hk Hv Hplenty Hpre.
  rewrite (evcommand_find cfg _ _ s c name [key; val] 0%nat (str "set", cmdSET cfg)); [|easy|easy| |easy].
  2: { rewrite find_cmd_lower, Hn. vm_compute. reflexivity. }
  cbn [snd]. unfold cmdSET, get_args, sys_now, conn_proto, mbind, cmd_bind. rewrite Hargs.
  cbn [set_options st_expires set_opts0 Z.ltb Z.compare st_keepttl st_xx st_nx andb].
  unfold execSET. cbn [s_clock s_cache s_world s_lowmem]. rewrite Hlow.
  set (now := s_clock s 0%nat) in *.
  set (opts := set_store_opts (str "SET") now set_opts0 false).
  assert (Hnow : opt_now (so_time opts) (s_clock s 1%nat) = now).
  { unfold opt_now. cbn. now rewrite (proj2 (Z.ltb_lt _ _)). }
  destruct (store_refines (s_clock s 1%nat) key Root (s_cache s) (s_world s) Ms (false, c) Hok
    (home_available _ _ _ _ _ Hok Hu) val opts) as
    (st & h' & k & w' & u' & sh & M & sh' & M' & evs & H1 & H2 & H3 & (mem & v & Hm & _ & H4)
      & _ & H5 & H6 & H7 & _).
  { now rewrite Hnow. }
  { repeat split; cbn; lia. }
  { easy. }
  { easy. }
  { exact Hpre. }
  rewrite Hnow in H4. rewrite (Hm Hplenty) in H4. symmetry in H4.
  destruct (plain_store_outcome _ _ _ _ _ _ _ _ _ _ _ _ _ H4) as [Hst ->].
  destruct (store_spec_stored _ _ _ _ _ _ _ _ _ _ _ _ _ _ H4 eq_refl Hst) as [Hx Hct].
  rewrite H1. cbn [mbind option_bind fst snd st_get set_opts0].
  pose proof (root_keeps_locks _ _ _ _ H6) as El.
  assert (Ec : c_ctx k = c_ctx (s_cache s)) by now rewrite H5.
  eexists (set_cache (Serve (s_cache s) (s_world s) (s_flush_delay s) false (λ i, s_clock s (S i))) k w'), _, sh, _.
  split; [|split; [|split; [|split; [exact H2|]]]].
  - unfold set_reply. rewrite Hp. now destruct Hst as [->| ->].
  - split; [exact H7|exact (unlocked_same _ _ El Hu)|easy].
  - easy.
  - exists sh', M'. unfold shard_of. cbn [s_cache set_cache]. rewrite Ec. pose proof (lookup_lt_Some _ _ _ H2).
    pose proof (lookup_lt_Some _ _ _ H3).
    split; [rewrite H5; cbn; now apply list_lookup_insert_eq|].
    split; [now apply list_lookup_insert_eq|]. split; [exact Hx|exact Hct].
Qed.

Lemma get_step s Ms c name key x cleartime :
  ready s Ms → authorized cfg c → c_proto c = PROTO_RESP → c_args c = [name; key] →
  lower name = str "get" → 0 < s_clock s 0%nat → is_i64 (s_clock s 0%nat) →
  holds s Ms key x cleartime → fate (s_clock s 0%nat) cleartime x = 0 →
  ∃ s' Ms', evcommand cfg cmdDEBUG cmdSTATS s c = Some (tt, s', conn_write_bulk c (e_val x)) ∧ ready s' Ms'.
Proof.
  intros [Hok Hu Hlow] Ha Hp Hargs Hn Hpos Hi (sh & M & H2 & H3 & Hx & Hct) Hfate.
  rewrite (evcommand_find cfg _ _ s c name [key] 1%nat (str "get", cmdGET)); [|easy|easy| |easy].
  2: { rewrite find_cmd_lower, Hn. vm_compute. reflexivity. }
  cbn [snd]. unfold cmdGET, get_args, sys_now, conn_proto, reply, mbind, cmd_bind. rewrite Hargs, Hp.
  rewrite !decide_False by discriminate.
  unfold load_conn. cbn [s_clock s_cache s_world].
  set (now := s_clock s 0%nat) in *. set (opts := LoadOpts now false (Some (get_entry false false))).
  assert (Hnow : opt_now (lo_time opts) (s_clock s 1%nat) = now).
  { unfold opt_now. cbn. now rewrite (proj2 (Z.ltb_lt _ _)). }
  destruct (load_refines (s_clock s 1%nat) key Root (s_cache s) (s_world s) Ms c Hok
    (home_available _ _ _ _ _ Hok Hu) opts) as
    (st & h' & k & w' & u' & sh1 & M1 & sh' & M' & evs & H1 & H2' & H3' & (mem & _ & H4)
      & _ & H5 & H6 & H7 & _).
  { now rewrite Hnow. }
  { intros cb v u upd u2 [= <-] _ [=]. }
  unfold shard_of in H2, H3. rewrite H2 in H2'. rewrite H3 in H3'. injection H2' as <-. injection H3' as <-.
  rewrite Hnow in H4. unfold load_spec in H4. rewrite Hx in H4.
  change (a_cleartime (abs sh M)) with (s_cleartime sh) in H4. rewrite Hct, Hfate in H4.
  cbn [Z.eqb negb lo_entry opts get_entry] in H4. rewrite Hp in H4.
  pose proof (f_equal (λ r, (r.1.1.1, r.2)) H4) as H8. cbn in H8. injection H8 as -> ->.
  rewrite H1. cbn [mbind option_bind]. cbn [Z.eqb negb].
  eexists _, _. split; [reflexivity|].
  split; [exact H7|exact (unlocked_same _ _ (root_keeps_locks _ _ _ _ H6) Hu)|exact Hlow].
Qed.

Lemma line_ok {J} (c : conn J) : c_out (conn_write_string c (str "OK")) = c_out c ++ str "+OK" ++ crlf.
Proof.
  unfold conn_write_string. rewrite writeln_line. cbn [c_out set_out]. unfold line_bytes. cbn [str length].
  destruct (length (c_out c)) as [|[|n]]; reflexivity.
Qed.

(** From bytes to bytes: a Redis client that sends SET and then GET of the same
    key, in packets cut in any way, reads [+OK] and exactly the value it sent,
    whatever bytes key and value hold. The cache satisfies its invariant, is
    unlocked and has memory; the clock does not go back behind the last flush
    of the shard. *)
Theorem set_then_get version parse_postgres s Ms c set get key val chunks :
  let H := pogocache_server cfg cmdDEBUG cmdSTATS version parse_postgres in
  let cmds := [[set; key; val]; [get; key]] in
  framed cmdDEBUG → framed cmdSTATS →
  ready s Ms → resp_conn c → c_packet c = [] → g_useauth cfg = false ∨ c_auth c = true →
  lower set = str "set" → lower get = str "get" → Forall arg_fits [set; key; val; get] → key_ok key →
  plenty (w_heap (s_world s)) →
  (∀ sh M, Ms !! shard_of s key = Some M → store_pre (c_ctx (s_cache s)) key sh M) →
  0 < s_clock s 0%nat → is_i64 (s_clock s 0%nat) → 0 < s_clock s 1%nat → is_i64 (s_clock s 1%nat) →
  (∀ sh, c_shards (s_cache s) !! shard_of s key = Some sh → s_cleartime sh <= s_clock s 0%nat) →
  concat chunks = stream cmds →
  ∃ s' c', feed s c chunks = Some (s', c') ∧ c_out c' = c_out c ++ str "+OK" ++ crlf ++ resp_bulk val.
Proof.
  intros H' cmds HD HS Hr Hc Hpk Ha Hset Hget Hfits Hk Hplenty Hpre Hpos0 Hi0 Hpos1 Hi1 Hct Hst.
  pose proof (pogocache_server_ok cfg cmdDEBUG cmdSTATS HD HS version parse_postgres) as Hok.
  inversion Hfits as [|? ? Hf1 Hf]; subst. inversion Hf as [|? ? Hf2 Hf']; subst.
  inversion Hf' as [|? ? Hf3 Hf'']; subst. inversion Hf'' as [|? ? Hf4 _]; subst.
  assert (Hv : Z.of_nat (length val) < 2 ^ 64).
  { unfold arg_fits, size, MAXARGSZ in Hf3. lia. }
  set (d1 := set_parsed c (plain_result PROTO_RESP (0, [set; key; val], [])) (c_pg c)).
  assert (Ha1 : authorized cfg d1) by (destruct Ha as [?|?]; [now left|now right; left]).
  destruct (set_step s Ms d1 set key val Hr Ha1 eq_refl eq_refl Hset Hpos0 Hi0 Hk Hv Hplenty Hpre)
    as (s1 & Ms1 & sh & cas & E1 & Hr1 & Hclk & Hsh & Hh).
  set (c1 := conn_write_string d1 (str "OK")) in *.
  set (d2 := set_parsed c1 (plain_result PROTO_RESP (0, [get; key], [])) (c_pg c1)).
  assert (Ha2 : authorized cfg d2) by (destruct Ha as [?|?]; [now left|now right; left]).
  assert (Hclk0 : s_clock s1 0%nat = s_clock s 1%nat) by now rewrite Hclk.
  epose proof (get_step s1 Ms1 d2 get key _ _ Hr1 Ha2 eq_refl eq_refl Hget) as Hg. rewrite Hclk0 in Hg.
  destruct (Hg Hpos1 Hi1 Hh) as (s2 & Ms2 & E2 & Hr2).
  { unfold fate, entry_alive_exp. cbn [e_expires e_time new_ent Z.max Z.compare].
    rewrite (proj2 (Z.ltb_ge _ _)) by now apply Hct. reflexivity. }
  set (c2 := conn_write_bulk d2 _) in E2.
  assert (Erun1 : exec s c [set; key; val] = Some (s1, c1)).
  { unfold exec, H'. cbn [sv_evcommand pogocache_server]. fold d1. rewrite E1. reflexivity. }
  assert (Erun2 : exec s1 c1 [get; key] = Some (s2, c2)).
  { unfold exec, H'. cbn [sv_evcommand pogocache_server]. fold d2. rewrite E2. reflexivity. }
  assert (Hcl1 : c_closed c1 = false) by exact (rc_closed _ Hc).
  assert (Hcl : c_closed c = false) by exact (rc_closed _ Hc).
  assert (Hrun : run s c cmds = Some (s2, c2)).
  { unfold cmds. cbn [run]. rewrite Hcl, Erun1. cbn [mbind option_bind]. rewrite Hcl1, Erun2. reflexivity. }
  assert (Hsend : Forall sendable cmds).
  { constructor; [|constructor; [|constructor]]; (split; [discriminate|]);
      (split; [vm_compute; discriminate|]); repeat constructor; assumption. }
  assert (Hnobg : no_bg s c cmds).
  { unfold cmds. cbn [no_bg]. rewrite Hcl, Erun1. split; [exact (rc_bg _ Hc)|]. rewrite Hcl1, Erun2.
    split; [exact (rc_bg _ Hc)|exact I]. }
  pose proof (segmentation_spec s c cmds chunks Hc Hpk Hsend Hnobg Hst) as Hseg. rewrite Hrun in Hseg.
  destruct (feed s c chunks) as [[s' c']|]; [|destruct Hseg].
  destruct Hseg as [-> Hsame]. exists s2, c'. split; [reflexivity|].
  transitivity (c_out c2); [exact (f_equal c_out Hsame)|]. unfold c2. cbn [c_out conn_write_bulk conn_write_raw set_out].
  change (c_out d2) with (c_out (conn_write_string d1 (str "OK"))). rewrite line_ok, <- !app_assoc. reflexivity.
Qed.

End Data.

(** ** A small server *)

Definition config0 : config := Config false [] [] 0 7 0.
Definition config1 : config := Config true (str "pw") [] 0 7 0.
Definition server2 : server := Serve cache2 wc 0 false (λ i, 5 + Z.of_nat i).

Definition set_get_chunks : list bytes := (λ b, [b]) <$> stream [[str "set"; [120]; [13; 10]]; [str "GET"; [120]]].

Lemma set_then_get_witness :
  let H := pogocache_server config0 (mret tt) (mret tt) [] (λ p _, None) in
  ∃ s' c', feed server2 (conn_open false) set_get_chunks = Some (s', c') ∧
    c_out c' = [] ++ str "+OK" ++ crlf ++ resp_bulk [13; 10].
Proof.
  intros H. destruct cache2_facts as (Hu & Hok & Hh & Hctx).
  apply (set_then_get config0 (mret tt) (mret tt) [] (λ p _, None) server2 Ms2 (conn_open false)
    (str "set") (str "GET") [120] [13; 10] set_get_chunks).
  - apply framed_ret.
  - apply framed_ret.
  - split; [exact Hok|exact Hu|reflexivity].
  - split; [reflexivity|reflexivity|left; reflexivity].
  - reflexivity.
  - left. reflexivity.
  - reflexivity.
  - reflexivity.
  - repeat constructor; vm_compute; congruence.
  - apply key_ok_x.
  - apply plenty_wc.
  - intros sh M. apply store_pre2.
  - reflexivity.
  - vm_compute. split; congruence.
  - reflexivity.
  - vm_compute. split; congruence.
  - intros sh Hsh. assert (Hct : Forall (λ s, s_cleartime s = 0) (c_shards cache2)) by (vm_compute; repeat constructor).
    rewrite Forall_lookup in Hct. rewrite (Hct _ _ Hsh). vm_compute. congruence.
  - reflexivity.
Defined.
