(* ===== verification/Kv.v ===== *)
(** * Kv: what a client may expect of the server

    The specification of the commands that read and write data: a finite map
    from keys to values with flags and an expiry, and for every request the
    reply and the map after it. Nothing of shards, hashes, memory or locks
    shows, except that a request that needs memory may be refused for lack of
    it. A request is what a client means; [request_args] is how it is sent. *)

From S2P Require Import Prelude Util Resp RespProofs Conn Cmds.

(** ** The store *)

Record item := Item { i_val : bytes; i_flags : Z; i_expires : Z }.
Abbreviation kv := (gmap bytes item).

Definition live (now : Z) (x : item) : bool := negb ((0 <? i_expires x) && (i_expires x <=? now)).

Definition kv_get (now : Z) (m : kv) (key : bytes) : option item :=
  x ← m !! key; if live now x then Some x else None.

Definition kv_put (m : kv) (key val : bytes) (flags expires : Z) : kv :=
  <[key := Item val flags (Z.max 0 expires)]> m.

(** ** Requests *)

(** EXAT and PXAT are documented to take unix times. The code takes them for times
    of its own clock, which counts from the start of the machine, so they are not
    part of this specification ([KvServer.exat_counts_from_boot]). *)
Inductive ex_unit := EX | PX.
Inductive set_cond := Always | NX | XX.

Inductive request :=
  | Set_ (key val : bytes) (ex : option (ex_unit * Z)) (cond : set_cond) (get keepttl : bool)
      (flags : option Z)
  | Setex (key : bytes) (secs : Z) (val : bytes)
  | Get (key : bytes)
  | Mget (key : bytes) (keys : list bytes)
  | Del (key : bytes) (keys : list bytes)
  | Exists (key : bytes) (keys : list bytes)
  | Touch (key : bytes) (keys : list bytes)
  | Ttl (ms : bool) (key : bytes)
  | Expire (key : bytes) (secs : Z)
  | Incr (unsigned decr : bool) (key : bytes) (by_ : option Z)
  | Append (prepend : bool) (key val : bytes)
  | Echo (msg : bytes)
  | Ping (msg : option bytes).

Definition unit_name (u : ex_unit) : bytes :=
  match u with EX => str "EX" | PX => str "PX" end.

Definition number (unsigned : bool) (x : Z) : bytes := if unsigned then u64toa x else i64toa x.

Definition incr_name (unsigned decr byarg : bool) : bytes :=
  (if unsigned then str "U" else []) ++ (if decr then str "DECR" else str "INCR") ++
  (if byarg then str "BY" else []).

Definition request_args (r : request) : list bytes :=
  match r with
  | Set_ key val ex cond get keepttl flags =>
      [str "SET"; key; val] ++
      (match ex with Some (u, n) => [unit_name u; i64toa n] | None => [] end) ++
      (match cond with Always => [] | NX => [str "NX"] | XX => [str "XX"] end) ++
      (if get then [str "GET"] else []) ++ (if keepttl then [str "KEEPTTL"] else []) ++
      (match flags with Some f => [str "FLAGS"; u64toa f] | None => [] end)
  | Setex key secs val => [str "SETEX"; key; i64toa secs; val]
  | Get key => [str "GET"; key]
  | Mget key keys => str "MGET" :: key :: keys
  | Del key keys => str "DEL" :: key :: keys
  | Exists key keys => str "EXISTS" :: key :: keys
  | Touch key keys => str "TOUCH" :: key :: keys
  | Ttl ms key => [if ms then str "PTTL" else str "TTL"; key]
  | Expire key secs => [str "EXPIRE"; key; i64toa secs]
  | Incr unsigned decr key None => [incr_name unsigned decr false; key]
  | Incr unsigned decr key (Some d) => [incr_name unsigned decr true; key; number unsigned d]
  | Append prepend key val => [if prepend then str "PREPEND" else str "APPEND"; key; val]
  | Echo msg => [str "ECHO"; msg]
  | Ping None => [str "PING"]
  | Ping (Some msg) => [str "PING"; msg]
  end.

(** The keys a request names. *)
Definition request_keys (r : request) : list bytes :=
  match r with
  | Set_ key _ _ _ _ _ _ | Setex key _ _ | Get key | Ttl _ key | Expire key _ | Incr _ _ key _
  | Append _ key _ => [key]
  | Mget key keys | Del key keys | Exists key keys | Touch key keys => key :: keys
  | Echo _ | Ping _ => []
  end.

(** ** Replies *)

Inductive answer :=
  | RStatus (s : bytes) | RError (s : bytes) | RInt (x : Z) | RBulk (s : bytes) | RNull
  | RArray (l : list (option bytes)).

Definition bulk_or_null (s : option bytes) : bytes :=
  match s with Some s => resp_bulk s | None => str "$-1" ++ crlf end.

Definition reply_bytes (r : answer) : bytes :=
  match r with
  | RStatus s => 43 :: s ++ crlf
  | RError s => 45 :: s ++ crlf
  | RInt x => 58 :: i64toa x ++ crlf
  | RBulk s => resp_bulk s
  | RNull => bulk_or_null None
  | RArray l => 42 :: u64toa (Z.of_nat (length l)) ++ crlf ++ concat (bulk_or_null <$> l)
  end.

(** ** What a request does *)

Definition seconds (n : Z) : Z := clamp64 (n * SECOND).
Definition deadline (now : Z) (u : ex_unit) (n : Z) : Z :=
  match u with
  | EX => clamp64 (now + seconds n)
  | PX => clamp64 (now + clamp64 (n * MILLISECOND))
  end.

Definition out_of_memory : answer := RError ERR_OUT_OF_MEMORY.

Definition kv_set (mem : bool) (now : Z) (m : kv) (key val : bytes) (expires : Z) (cond : set_cond)
    (get keepttl : bool) (flags : Z) : answer * kv :=
  let cur := kv_get now m key in
  if negb mem then (out_of_memory, m)
  else if match cond with
          | Always => false
          | NX => bool_decide (is_Some cur)
          | XX => bool_decide (cur = None)
          end then (RNull, m)
  else
    (if get then match cur with Some x => RBulk (i_val x) | None => RNull end
     else RStatus (str "OK"),
     kv_put m key val flags
       (match cur with Some x => if keepttl then i_expires x else expires | None => expires end)).

(** Counts the live keys of a list, deleting them under way. *)
Fixpoint kv_del (now : Z) (m : kv) (keys : list bytes) : Z * kv :=
  match keys with
  | [] => (0, m)
  | key :: keys =>
      match kv_get now m key with
      | Some _ => let '(n, m) := kv_del now (delete key m) keys in (1 + n, m)
      | None => kv_del now m keys
      end
  end.

Definition kv_count (now : Z) (m : kv) (keys : list bytes) : Z :=
  Z.of_nat (length (filter (λ key, is_Some (kv_get now m key)) keys)).

Definition in_range (unsigned : bool) (x : Z) : bool :=
  if unsigned then (0 <=? x) && (x <? 2 ^ 64) else (INT64_MIN <=? x) && (x <=? INT64_MAX).

Definition kv_incr (mem unsigned decr : bool) (now : Z) (m : kv) (key : bytes) (d : Z) : answer * kv :=
  let cur := kv_get now m key in
  let '(ok, x) :=
    match cur with
    | None => (true, 0)
    | Some x => if unsigned then parse_u64 (i_val x) else parse_i64 (i_val x)
    end in
  let y := if decr then x - d else x + d in
  if negb ok then (RError ERR_INVALID_INTEGER, m)
  else if negb (in_range unsigned y) then (RError (str "ERR increment or decrement would overflow"), m)
  else if negb mem then (out_of_memory, m)
  else
    (if unsigned then RStatus (u64toa y) else RInt y,
     kv_put m key (number unsigned y) (match cur with Some x => i_flags x | None => 0 end)
       (match cur with Some x => i_expires x | None => 0 end)).

Definition kv_append (mem prepend : bool) (now : Z) (m : kv) (key val : bytes) : answer * kv :=
  let put val flags expires :=
    if negb mem then (out_of_memory, m)
    else (RInt (size val), kv_put m key val flags expires) in
  match kv_get now m key with
  | None => put val 0 0
  | Some x =>
      let joined := if prepend then val ++ i_val x else i_val x ++ val in
      if MAXARGSZ <? size joined then (RError (str "ERR value too large"), m)
      else put joined (i_flags x) (i_expires x)
  end.

Definition kv_ttl (ms : bool) (now : Z) (m : kv) (key : bytes) : Z :=
  match kv_get now m key with
  | None => -2
  | Some x =>
      if 0 <? i_expires x then Z.quot (i_expires x - now) (if ms then MILLISECOND else SECOND) else -1
  end.

(** The reply to a request and the store after it, with the readings [clock] of
    the clock; [mem] is false when memory runs out. *)
Definition kv_step (mem : bool) (clock : nat → Z) (r : request) (m : kv) : answer * kv :=
  let now := clock 0%nat in
  match r with
  | Set_ key val ex cond get keepttl flags =>
      match ex with
      | Some (u, n) =>
          if n <=? 0 then (RError err_expire, m)
          else if keepttl then (RError ERR_SYNTAX_ERROR, m)
          else kv_set mem now m key val (deadline now u n) cond get false (default 0 flags)
      | None => kv_set mem now m key val 0 cond get keepttl (default 0 flags)
      end
  | Setex key secs val =>
      if secs <=? 0 then (RError err_expire, m)
      else kv_set mem now m key val (clamp64 (clock 1%nat + seconds secs)) Always false false 0
  | Get key => (match kv_get now m key with Some x => RBulk (i_val x) | None => RNull end, m)
  | Mget key keys => (RArray ((λ key, i_val <$> kv_get now m key) <$> key :: keys), m)
  | Del key keys => let '(n, m) := kv_del now m (key :: keys) in (RInt n, m)
  | Exists key keys | Touch key keys => (RInt (kv_count now m (key :: keys)), m)
  | Ttl ms key => (RInt (kv_ttl ms now m key), m)
  | Expire key secs =>
      match kv_get now m key with
      | Some x =>
          if mem then (RInt 1, kv_put m key (i_val x) (i_flags x) (clamp64 (now + seconds secs)))
          else (RInt 0, m)
      | None => (RInt 0, m)
      end
  | Incr unsigned decr key d => kv_incr mem unsigned decr now m key (default 1 d)
  | Append prepend key val => kv_append mem prepend now m key val
  | Echo msg | Ping (Some msg) => (RBulk msg, m)
  | Ping None => (RStatus (str "PONG"), m)
  end.

(** How often a request reads the clock. *)
Definition kv_ticks (r : request) : nat :=
  match r with
  | Setex _ secs _ => if secs <=? 0 then 1 else 2
  | Echo _ | Ping _ => 0
  | _ => 1
  end.

(** A session: the replies and the store after it. *)
Fixpoint kv_run (mems : list bool) (clock : nat → Z) (rs : list request) (m : kv)
    : list answer * kv :=
  match rs, mems with
  | r :: rs, mem :: mems =>
      let '(a, m) := kv_step mem clock r m in
      let '(l, m) := kv_run mems (λ i, clock (kv_ticks r + i)%nat) rs m in (a :: l, m)
  | _, _ => ([], m)
  end.
