(* ===== verification/KvRel.v ===== *)
(** * KvRel: the cache represents the key-value store of [Kv.v]

    [kv_rel] relates the cache to the store: at every time from [t] on, the live
    entries of the shards are the live items of the store. It also keeps the
    keys of the cache within a set [K] whose hashes are spread well enough for
    the distance bytes, and the memory in use below a bound [B]. The lemmas say
    what loads, stores and deletes through any handle do to the store. *)

From S2P Require Import Prelude Util Context Entry Heap Map MapInv MapSpec Shard ShardInv ShardSpec ShardOps ShardStore.
From S2P Require Import Samples ShardTheorems Cache Locks CacheInv CacheOps CacheTheorems Kv.

#[local] Opaque th64 hash24 encode entry_memsize.

(** The hashes of the keys are spread at every bucket count. *)
Definition safe_keys (ctx : pgctx) (K : gset bytes) : Prop :=
  Z.of_nat (size K) < 2 ^ 29 ∧ ∀ n, cap_ok n → spread n (hash24 ctx <$> elements K).

(** Memory for [B] allocations. *)
Definition memory_for `{Env} (B : nat) : Prop :=
  ∀ t n h, (size h <= B)%nat → env_malloc t h n ≠ None.

Definition item_of (x : ent) : item := Item (e_val x) (e_flags x) (e_expires x).

(** What a client sees under a key of a shard. *)
Definition shown (now : Z) (a : astate) (key : bytes) : option item :=
  x ← a_ents a !! key; if fate now (a_cleartime a) x =? 0 then Some (item_of x) else None.

Definition key_shard (k : cache_t) (key : bytes) : nat := Z.to_nat (home (c_ctx k) key).

Record kv_rel (K : gset bytes) (B : nat) (k : cache_t) (w : world) (Ms : list content) (t : Z) (m : kv)
    : Prop := {
  kr_ok : cache_ok k (w_heap w) Ms;
  kr_clear i sh : c_shards k !! i = Some sh → s_cleartime sh <= t;
  kr_keys i M key : Ms !! i = Some M → is_Some (M !! key) → key ∈ K;
  kr_safe : safe_keys (c_ctx k) K;
  kr_mem : (S (size (foreign (w_heap w) Ms) + size K) <= B)%nat;
  kr_times i M key p x : Ms !! i = Some M → M !! key = Some (p, x) → e_time x <= t;
  kr_shown now key sh M : t <= now → c_shards k !! key_shard k key = Some sh →
    Ms !! key_shard k key = Some M → shown now (abs sh M) key = kv_get now m key
}.

Lemma kv_rel_later K B k w Ms t t' m : t <= t' → kv_rel K B k w Ms t m → kv_rel K B k w Ms t' m.
Proof.
  intros Ht [H1 H2 H3 H4 H5 H7 H6]. split; [exact H1| |exact H3|exact H4|exact H5| |].
  - intros i sh Hi. specialize (H2 i sh Hi). lia.
  - intros i M key p x HM Hx. specialize (H7 i M key p x HM Hx). lia.
  - intros now key sh M Hn. apply H6. lia.
Qed.

(** ** Spread hashes *)

Lemma content_keys (M : content) (K : gset bytes) :
  (∀ key, is_Some (M !! key) → key ∈ K) → (map_to_list M).*1 ⊆+ elements K.
Proof.
  intros H. apply NoDup_submseteq; [apply NoDup_fst_map_to_list|].
  intros key Hk. apply elem_of_elements, H.
  apply list_elem_of_fmap in Hk as ([k v] & -> & Hk). apply elem_of_map_to_list in Hk. cbn. eauto.
Qed.

Lemma safe_content (ctx : pgctx) (K : gset bytes) (M : content) :
  safe_keys ctx K → (∀ key, is_Some (M !! key) → key ∈ K) → roomy M ∧ probe_safe ctx M.
Proof.
  intros [Hs Hp] HM. pose proof (content_keys M K HM) as Hsub. split.
  - unfold roomy. apply submseteq_length in Hsub. rewrite length_fmap, length_map_to_list in Hsub.
    unfold size, set_size in Hs. cbn in Hs. lia.
  - intros n Hn. eapply spread_submseteq; [|apply (Hp n Hn)]. now apply fmap_submseteq.
Qed.

Lemma safe_store_pre (ctx : pgctx) (K : gset bytes) (M : content) sh key :
  safe_keys ctx K → (∀ key, is_Some (M !! key) → key ∈ K) → key ∈ K → store_pre ctx key sh M.
Proof.
  intros Hs HM Hk. split; [apply (safe_content ctx K M Hs HM)|]. intros v.
  apply (safe_content ctx K); [easy|]. intros k'. destruct (decide (k' = key)) as [->|Hne]; [easy|].
  rewrite lookup_insert_ne by easy. apply HM.
Qed.

Lemma safe_keys_small (ctx : pgctx) (K : gset bytes) : (size K <= 254)%nat → safe_keys ctx K.
Proof.
  intros H. split; [lia|]. intros n _. apply spread_small. rewrite length_fmap.
  unfold size, set_size in H. exact H.
Qed.

(** ** Memory in use *)

Lemma size_image (f : bytes → Z) (K : gset bytes) : (size (fin_sets.set_map f K : gset Z) <= size K)%nat.
Proof.
  induction K as [|x K Hx IH] using set_ind_L; [rewrite set_map_empty, !size_empty; lia|].
  rewrite set_map_union_L, set_map_singleton_L, size_union_alt, size_singleton.
  rewrite (size_union {[x]} K), size_singleton by set_solver.
  assert (size (fin_sets.set_map f K ∖ {[f x]} : gset Z) <= size (fin_sets.set_map f K : gset Z))%nat.
  { apply subseteq_size. set_solver. }
  lia.
Qed.

Lemma heap_size (k : cache_t) (h : heap) (Ms : list content) (K : gset bytes) :
  cache_ok k h Ms → (∀ i M key, Ms !! i = Some M → is_Some (M !! key) → key ∈ K) →
  (size h <= size (foreign h Ms) + size K)%nat.
Proof.
  intros Hok HK.
  set (f := λ key, default 0 (M ← Ms !! key_shard k key; fst <$> M !! key)).
  assert (Hsub : dom h ⊆ dom (foreign h Ms) ∪ (fin_sets.set_map f K : gset Z)).
  { intros p [b Hb]%elem_of_dom. apply elem_of_union.
    destruct (decide (p ∈ owned Ms)) as [Ho|Ho].
    - right. apply elem_owned in Ho as (i & M & HM & (key & x & Hk)%elem_addrs).
      apply elem_of_map. exists key. split; [|apply (HK i M); eauto].
      unfold f, key_shard. rewrite (co_home _ _ _ Hok i M key HM) by eauto.
      rewrite Nat2Z.id, HM. cbn. now rewrite Hk.
    - left. apply elem_of_dom. exists b. unfold foreign. now apply map_lookup_filter_Some. }
  apply subseteq_size in Hsub. rewrite size_union_alt, !size_dom in Hsub.
  assert (size (fin_sets.set_map f K ∖ dom (foreign h Ms) : gset Z) <= size (fin_sets.set_map f K : gset Z))%nat.
  { apply subseteq_size. intros p Hp. now apply elem_of_difference in Hp. }
  pose proof (size_image f K). lia.
Qed.

Lemma kv_rel_plenty `{Env} K B k w Ms t m :
  kv_rel K B k w Ms t m → memory_for B → plenty (w_heap w).
Proof.
  intros [Hok _ HK _ HB _ _] Hm tick n h Hh. apply Hm.
  pose proof (heap_size _ _ _ _ Hok HK). lia.
Qed.

(** ** One operation on a key *)

(** The operation on [key] that turned the abstract state [a] of its shard into
    [a'] turns the store [m] into [m']. *)
Definition acts (K : gset bytes) (now : Z) (key : bytes) (m m' : kv) (a a' : astate) : Prop :=
  a_cleartime a' = a_cleartime a ∧
  (∀ k', k' ≠ key → a_ents a' !! k' = a_ents a !! k' ∧ m' !! k' = m !! k') ∧
  (∀ x, a_ents a' !! key = Some x → e_time x = now ∨ ∃ y, a_ents a !! key = Some y ∧ e_time x = e_time y) ∧
  ∀ now', now <= now' → shown now' a' key = kv_get now' m' key.

Lemma abs_keys (sh : shard_t) (M : content) (key : bytes) : is_Some (a_ents (abs sh M) !! key) ↔ is_Some (M !! key).
Proof. unfold abs. cbn. rewrite lookup_fmap. apply fmap_is_Some. Qed.

Lemma abs_entry (sh : shard_t) (M : content) (key : bytes) (x : ent) :
  a_ents (abs sh M) !! key = Some x ↔ ∃ p, M !! key = Some (p, x).
Proof.
  unfold abs. cbn. rewrite lookup_fmap, fmap_Some. split.
  - intros ([p y] & E & ->). now exists p.
  - intros [p E]. now exists (p, x).
Qed.

Lemma kv_rel_step (K : gset bytes) (B : nat) (k : cache_t) (w : world) (Ms : list content) (t : Z) (m : kv)
    (key : bytes) (k' : cache_t) (w' : world) (m' : kv) (sh : shard_t) (M : content) (sh' : shard_t) (M' : content) :
  let i := key_shard k key in
  kv_rel K B k w Ms t m → key ∈ K →
  c_shards k !! i = Some sh → Ms !! i = Some M →
  k' = Cache (c_ctx k) (<[i := sh']> (c_shards k)) (c_locks k') →
  cache_ok k' (w_heap w') (<[i := M']> Ms) →
  foreign (w_heap w') (<[i := M']> Ms) = foreign (w_heap w) Ms →
  acts K t key m m' (abs sh M) (abs sh' M') →
  kv_rel K B k' w' (<[i := M']> Ms) t m'.
Proof.
  intros i [H1 H2 H3 H4 H5 H7 H6] HK Hsh HM Ek Hok Hf (Hct & Hne & Htime & Hkey).
  assert (Hlen : (i < length (c_shards k))%nat) by now apply lookup_lt_Some in Hsh.
  assert (Hlen' : (i < length Ms)%nat) by now apply lookup_lt_Some in HM.
  assert (Es : c_shards k' = <[i := sh']> (c_shards k)) by now rewrite Ek.
  assert (Ec : c_ctx k' = c_ctx k) by now rewrite Ek.
  split; [exact Hok| | |now rewrite Ec|now rewrite Hf| |].
  - intros j sh0. rewrite Es. destruct (decide (j = i)) as [->|Hj].
    + rewrite list_lookup_insert_eq by easy. intros [= <-].
      change (s_cleartime sh') with (a_cleartime (abs sh' M')). rewrite Hct. exact (H2 i sh Hsh).
    + rewrite list_lookup_insert_ne by congruence. apply H2.
  - intros j M0 k0. destruct (decide (j = i)) as [->|Hj].
    + rewrite list_lookup_insert_eq by easy. intros [= <-] Hk0.
      destruct (decide (k0 = key)) as [->|Hk]; [exact HK|].
      apply (abs_keys sh') in Hk0. rewrite (proj1 (Hne _ Hk)) in Hk0. apply abs_keys in Hk0.
      exact (H3 i M k0 HM Hk0).
    + rewrite list_lookup_insert_ne by congruence. apply H3.
  - intros j M0 k0 p x. destruct (decide (j = i)) as [->|Hj].
    + rewrite list_lookup_insert_eq by easy. intros [= <-] Hx.
      assert (Hx' : a_ents (abs sh' M') !! k0 = Some x) by (apply abs_entry; exists p; exact Hx).
      destruct (decide (k0 = key)) as [->|Hk].
      * destruct (Htime x Hx') as [->|(y & Hy & ->)]; [lia|]. apply abs_entry in Hy as [q Hy]. exact (H7 i M key q y HM Hy).
      * rewrite (proj1 (Hne _ Hk)) in Hx'. apply abs_entry in Hx' as [q Hq]. exact (H7 i M k0 q x HM Hq).
    + rewrite list_lookup_insert_ne by congruence. apply H7.
  - intros now k0 sh0 M0 Hn. unfold key_shard. rewrite Ec, Es. fold (key_shard k k0).
    destruct (decide (key_shard k k0 = i)) as [Ej|Hj].
    + rewrite Ej, !list_lookup_insert_eq by easy. intros [= <-] [= <-].
      destruct (decide (k0 = key)) as [->|Hk]; [now apply Hkey|].
      destruct (Hne _ Hk) as [E1 E2]. unfold shown, kv_get. rewrite Hct, E1, E2.
      apply (H6 now k0 sh M Hn); now rewrite Ej.
    + rewrite !list_lookup_insert_ne by congruence. intros Hs0 HM0.
      assert (Hk : k0 ≠ key) by (intros ->; now apply Hj).
      unfold kv_get. rewrite (proj2 (Hne _ Hk)). exact (H6 now k0 sh0 M0 Hn Hs0 HM0).
Qed.

(** The dead stay dead. *)
Lemma shown_later t now a key : t <= now → shown t a key = None → shown now a key = None.
Proof.
  unfold shown. intros Ht. destruct (a_ents a !! key) as [x|]; cbn; [|easy].
  unfold fate, entry_alive_exp. destruct (_ <? _); [easy|].
  destruct ((0 <? e_expires x) && (e_expires x <=? t)) eqn:E; cbn; [|easy].
  apply andb_true_iff in E as [E1 E2]. zb.
  rewrite (proj2 (Z.ltb_lt _ _)), (proj2 (Z.leb_le _ _)) by lia. easy.
Qed.

Lemma shown_alive now a key x :
  a_ents a !! key = Some x → fate now (a_cleartime a) x = 0 → shown now a key = Some (item_of x).
Proof. unfold shown. intros -> Hf. cbn. now rewrite Hf. Qed.

(** An entry that is not cleared is shown like the item it stands for. *)
Lemma shown_entry (now : Z) (a : astate) (key : bytes) (x : ent) (m : kv) :
  a_ents a !! key = Some x → a_cleartime a <= e_time x →
  shown now a key = kv_get now (<[key := item_of x]> m) key.
Proof.
  unfold shown, kv_get. intros Hx Ht. rewrite lookup_insert_eq, Hx. cbn.
  unfold fate, entry_alive_exp, live. cbn [i_expires item_of].
  rewrite (proj2 (Z.ltb_ge _ _)) by lia. now destruct (_ && _).
Qed.

Section Acts.
Context {U : Type} (K : gset bytes) (ctx : pgctx) (i t : Z) (key : bytes) (m : kv) (a : astate).
Context (Hshown : ∀ now, t <= now → shown now a key = kv_get now m key) (Hct : a_cleartime a <= t).

(** Nothing that shows happens. *)
Lemma acts_same a' :
  a_cleartime a' = a_cleartime a → a_ents a' = a_ents a → acts K t key m m a a'.
Proof.
  intros H1 H2. split; [exact H1|]. split; [intros k' _; now rewrite H2|].
  split; [intros x; rewrite H2; eauto|]. intros now Hn. rewrite <- (Hshown now Hn). unfold shown. now rewrite H1, H2.
Qed.

(** An entry that does not show goes. *)
Lemma acts_forget a' :
  shown t a key = None → a_cleartime a' = a_cleartime a → a_ents a' = delete key (a_ents a) →
  acts K t key m m a a'.
Proof.
  intros Hd H1 H2. split; [exact H1|].
  split; [intros k' Hk; rewrite H2, lookup_delete_ne by congruence; easy|].
  split; [intros x; rewrite H2, lookup_delete_eq; discriminate|]. intros now Hn. rewrite <- (Hshown now Hn), (shown_later t now a key Hn Hd).
  unfold shown. now rewrite H2, lookup_delete_eq.
Qed.

Lemma acts_delete a' :
  a_cleartime a' = a_cleartime a → a_ents a' = delete key (a_ents a) →
  acts K t key m (delete key m) a a'.
Proof.
  intros H1 H2. split; [exact H1|].
  split; [intros k' Hk; rewrite H2, !lookup_delete_ne by congruence; easy|].
  split; [intros x; rewrite H2, lookup_delete_eq; discriminate|]. intros now Hn. unfold shown, kv_get. now rewrite H2, !lookup_delete_eq.
Qed.

(** An entry written now. *)
Lemma acts_put a' x :
  a_cleartime a' = a_cleartime a → a_ents a' = <[key := x]> (a_ents a) → e_time x = t →
  acts K t key m (<[key := item_of x]> m) a a'.
Proof.
  intros H1 H2 Hx. split; [exact H1|].
  split; [intros k' Hk; rewrite H2, !lookup_insert_ne by congruence; easy|].
  split; [intros y; rewrite H2, lookup_insert_eq; intros [= <-]; now left|]. intros now Hn. apply shown_entry; [now rewrite H2, lookup_insert_eq|]. rewrite H1, Hx. exact Hct.
Qed.

(** A touched entry shows as before. *)
Lemma acts_touch a' x :
  a_ents a !! key = Some x → fate t (a_cleartime a) x = 0 →
  a_cleartime a' = a_cleartime a → a_ents a' = <[key := touch t x]> (a_ents a) →
  acts K t key m m a a'.
Proof.
  intros Hx Hf H1 H2. split; [exact H1|].
  split; [intros k' Hk; rewrite H2, lookup_insert_ne by congruence; easy|].
  split; [intros y; rewrite H2, lookup_insert_eq; intros [= <-]; now left|]. intros now Hn. rewrite <- (Hshown now Hn). unfold shown. rewrite H2, lookup_insert_eq, Hx, H1. cbn.
  revert Hf. unfold fate, entry_alive_exp. cbn [e_expires e_time touch].
  destruct (e_time x <? _) eqn:E; zb; [discriminate|]. rewrite (proj2 (Z.ltb_ge t _)) by lia.
  intros _. unfold item_of. reflexivity.
Qed.
End Acts.

(** ** Loads, stores and deletes at the current time *)

Definition good_time (t : Z) : Prop := 0 < t ∧ is_i64 t.

Lemma opt_now_given t clock : good_time t → opt_now t clock = t.
Proof. intros [Ht _]. unfold opt_now. now rewrite (proj2 (Z.ltb_lt _ _)). Qed.

(** An operation on [key] through [h] succeeds and leaves a cache that represents
    the store with the outcome [Q]. *)
Definition kv_result {U : Type} (K : gset bytes) (B : nat) (k : cache_t) (key : bytes) (h : handle)
    (t : Z) (Q : Z → U → kv → Prop) (res : option (Z * handle * cache_t * world * U)) : Prop :=
  ∃ st h' k' w' u' Ms' m', res = Some (st, h', k', w', u') ∧
    kv_rel K B k' w' Ms' t m' ∧ c_ctx k' = c_ctx k ∧
    (h', c_locks k') = lock_effect h (home (c_ctx k) key) (c_locks k) ∧ Q st u' m'.

(** The view of an item that a callback gets. *)
Definition shows (v : view) (t : Z) (key : bytes) (x : item) : Prop :=
  v_time v = t ∧ v_key v = key ∧ v_val v = i_val x ∧ v_flags v = i_flags x ∧ v_expires v = i_expires x ∧
  view_ok v.

Section Ops.
Context `{Env} `{!EnvOk _} {U : Type} (K : gset bytes) (B : nat) (k : cache_t) (w : world).
Context (Ms : list content) (t : Z) (m : kv) (key : bytes) (h : handle) (clock : Z) (u : U).
Context (Hrel : kv_rel K B k w Ms t m) (Hav : available h k (home (c_ctx k) key)).
Context (HK : key ∈ K) (Ht : good_time t).

Lemma kv_result_intro (spec : astate → outcome U → Prop) (Q : Z → U → kv → Prop) res :
  cache_refines key h k w Ms spec res →
  (∀ a st a' evs u', (∀ now, t <= now → shown now a key = kv_get now m key) → a_cleartime a <= t →
     (∀ x, a_ents a !! key = Some x → e_key x = key ∧ ent_ok (c_ctx k) x) →
     spec a (st, a', evs, u') → ∃ m', acts K t key m m' a a' ∧ Q st u' m') →
  kv_result K B k key h t Q res.
Proof.
  intros (st & h' & k' & w' & u' & sh & M & sh' & M' & evs & H1 & H2 & H3 & H4 & _ & H5 & H6 & H7 & H8) Hspec.
  pose proof (kr_ok _ _ _ _ _ _ _ Hrel) as Hok.
  destruct (Hspec (abs sh M) st (abs sh' M') evs u') as (m' & Ha & HQ); [| | |exact H4|].
  - intros now Hn. exact (kr_shown _ _ _ _ _ _ _ Hrel now key sh M Hn H2 H3).
  - exact (kr_clear _ _ _ _ _ _ _ Hrel _ _ H2).
  - intros x Hx. unfold abs in Hx. cbn in Hx. rewrite lookup_fmap in Hx.
    destruct (M !! key) as [[p y]|] eqn:Ey; [|discriminate Hx]. injection Hx as <-.
    destruct (co_shard _ _ _ Hok _ _ _ H2 H3) as [Hm _].
    destruct (mo_entries _ _ _ _ Hm _ _ _ Ey) as (E1 & E2 & _). split; [exact E1|exact E2].
  - exists st, h', k', w', u', (<[key_shard k key := M']> Ms), m'. split; [exact H1|].
    split; [|split; [now rewrite H5|split; [exact H6|exact HQ]]].
    exact (kv_rel_step K B k w Ms t m key k' w' m' sh M sh' M' Hrel HK H2 H3 H5 H7 H8 Ha).
Qed.

Lemma load_kv (opts : load_opts U) :
  lo_time opts = t → load_cb_ok opts →
  kv_result K B k key h t (λ st u' m',
    match kv_get t m key with
    | None => st = POGOCACHE_NOTFOUND ∧ u' = u ∧ m' = m
    | Some x =>
        match lo_entry opts with
        | None => st = POGOCACHE_FOUND ∧ u' = u ∧ m' = m
        | Some cb => ∃ v, shows v t key x ∧
            match cb v u with
            | (None, u2) => st = POGOCACHE_FOUND ∧ u' = u2 ∧ m' = m
            | (Some upd, u2) => u' = u2 ∧ ∃ mem : bool, (memory_for B → mem = true) ∧
                if mem then st = POGOCACHE_FOUND ∧
                  m' = kv_put m key (u_value upd) (u_flags upd) (u_expires upd)
                else st = POGOCACHE_NOMEM ∧ m' = m
            end
        end
    end) (pogocache_load clock key opts h k w u).
Proof.
  intros Hlt Hcb. pose proof (kr_ok _ _ _ _ _ _ _ Hrel) as Hok.
  assert (Hnow : opt_now (lo_time opts) clock = t) by (rewrite Hlt; now apply opt_now_given).
  eapply kv_result_intro.
  { eapply (load_refines clock key h k w Ms u Hok Hav opts); [rewrite Hnow; apply Ht|exact Hcb]. }
  rewrite Hnow. intros a st a' evs u' Hsh Hct Hkey (mem & Hmem & E). rewrite <- (Hsh t) by lia.
  assert (Hm : memory_for B → mem = true) by (intros HB; apply Hmem, (kv_rel_plenty _ _ _ _ _ _ _ Hrel HB)).
  unfold load_spec in E. destruct (a_ents a !! key) as [x|] eqn:Ex.
  2: { injection E as -> -> _ ->. exists m. split; [now apply acts_same|]. unfold shown. now rewrite Ex. }
  destruct (fate t (a_cleartime a) x =? 0) eqn:Ef; zb; cbn [negb] in E.
  2: { assert (Hnone : shown t a key = None) by (unfold shown; rewrite Ex; cbn; now rewrite (proj2 (Z.eqb_neq _ _))).
       injection E as -> -> _ ->. exists m. split; [now apply acts_forget|]. now rewrite Hnone. }
  rewrite (shown_alive _ _ _ _ Ex Ef). destruct (Hkey x eq_refl) as [Ekey Hxok].
  assert (Hvo : view_ok (ent_view (home (c_ctx k) key) t x)).
  { destruct Hxok as (_ & _ & V1 & V2 & V3 & _). split; [exact V1|split; [exact V2|exact V3]]. }
  assert (Htouch : acts K t key m m a (if lo_notouch opts then a else a_put a (touch t x))).
  { destruct (lo_notouch opts); [now apply acts_same|]. apply (acts_touch K t key m a Hsh Hct _ x); try easy.
    unfold a_put. cbn [a_ents]. cbn [e_key touch]. now rewrite Ekey. }
  destruct (lo_entry opts) as [cb|]; [|injection E as -> -> _ ->; now exists m].
  set (v := ent_view (home (c_ctx k) key) t x) in *.
  assert (Hv : shows v t key (item_of x)) by (repeat (split; [reflexivity || exact Ekey|]); exact Hvo).
  destruct (cb v u) as [[upd|] u2] eqn:Ecb; [|injection E as -> -> _ ->; exists m; split; [exact Htouch|]; exists v; now rewrite Ecb].
  destruct mem; injection E as -> -> _ ->.
  - eexists (kv_put m key _ _ _). split; [|exists v; rewrite Ecb; split; [exact Hv|]; split; [reflexivity|];
      exists true; split; [easy|]; split; reflexivity].
    unfold kv_put. destruct Htouch as (T1 & T2 & _).
    split; [cbn; exact T1|]. split; [|split; [intros y; cbn [a_put a_ents new_ent e_key]; rewrite lookup_insert_eq; intros [= <-]; now left|]].
    + intros k' Hk'. cbn [a_put a_tick a_ents new_ent e_key]. rewrite !lookup_insert_ne by congruence. split; [|reflexivity].
      exact (proj1 (T2 k' Hk')).
    + intros now Hn. apply (shown_entry now _ key (new_ent (c_ctx k) key (u_value upd) (u_expires upd) (u_flags upd)
        (a_cas (a_tick (if lo_notouch opts then a else a_put a (touch t x)))) t) m).
      * cbn [a_put a_ents new_ent e_key]. apply lookup_insert_eq.
      * cbn [a_put a_tick a_cleartime new_ent e_time]. rewrite T1. exact Hct.
  - exists m. split; [|exists v; rewrite Ecb; split; [exact Hv|]; split; [reflexivity|]; exists false; easy].
    destruct Htouch as (T1 & T2 & T3 & T4). split; [exact T1|]. split; [exact T2|]. split; [exact T3|exact T4].
Qed.

Lemma delete_kv (opts : delete_opts U) :
  do_time opts = t → do_entry opts = None →
  kv_result K B k key h t (λ st u' m',
    u' = u ∧ match kv_get t m key with
             | None => st = POGOCACHE_NOTFOUND ∧ m' = m
             | Some x => st = POGOCACHE_DELETED ∧ m' = delete key m
             end) (pogocache_delete clock key opts h k w u).
Proof.
  intros Hdt Hcb. pose proof (kr_ok _ _ _ _ _ _ _ Hrel) as Hok.
  assert (Hnow : opt_now (do_time opts) clock = t) by (rewrite Hdt; now apply opt_now_given).
  pose proof (delete_keyop (c_ctx k) clock key opts) as HD. rewrite Hnow in HD.
  eapply kv_result_intro.
  { apply (execute_key_refines k w Ms key _ _ _ (KeyOp0 := HD) h u Hok Hav). intros; exact I. }
  intros a st a' evs u' Hsh Hct _ E. rewrite <- (Hsh t) by lia. cbn beta in E.
  unfold delete_spec in E. destruct (a_ents a !! key) as [x|] eqn:Ex.
  2: { injection E as -> -> _ ->. exists m. split; [now apply acts_same|]. unfold shown. now rewrite Ex. }
  destruct (fate t (a_cleartime a) x =? 0) eqn:Ef; zb; cbn [negb] in E.
  2: { assert (Hnone : shown t a key = None) by (unfold shown; rewrite Ex; cbn; now rewrite (proj2 (Z.eqb_neq _ _))).
       injection E as -> -> _ ->. exists m. split; [now apply acts_forget|]. now rewrite Hnone. }
  rewrite (shown_alive _ _ _ _ Ex Ef), Hcb in *. injection E as -> -> _ ->.
  exists (delete key m). split; [now apply acts_delete|easy].
Qed.

(** The expiry a store gives, when the key holds [cur]. *)
Definition store_deadline (opts : store_opts U) (cur : option item) : Z :=
  let expires :=
    if 0 <? so_expires opts then so_expires opts
    else if 0 <? so_ttl opts then Z.min (t + so_ttl opts) INT64_MAX else 0 in
  match cur with Some x => if so_keepttl opts then i_expires x else expires | None => expires end.

Lemma spec_expires_shown (opts : store_opts U) a :
  spec_expires t key opts a = store_deadline opts (shown t a key).
Proof.
  unfold spec_expires, store_deadline, shown. destruct (a_ents a !! key) as [x|]; cbn; [|now destruct (so_keepttl opts)].
  destruct (fate t (a_cleartime a) x =? 0); cbn; now destruct (so_keepttl opts).
Qed.

Lemma store_kv val (opts : store_opts U) :
  so_time opts = t → so_lowmem opts = false → so_casop opts = false → store_opts_ok opts →
  key_ok key → Z.of_nat (length val) < 2 ^ 64 →
  let cur := kv_get t m key in
  let m1 := kv_put m key val (so_flags opts) (store_deadline opts cur) in
  kv_result K B k key h t (λ st u' m', ∃ mem : bool, (memory_for B → mem = true) ∧
    if negb mem then st = POGOCACHE_NOMEM ∧ u' = u ∧ m' = m
    else
      match cur with
      | None =>
          if so_xx opts then st = POGOCACHE_NOTFOUND ∧ u' = u ∧ m' = m
          else st = POGOCACHE_INSERTED ∧ u' = u ∧ m' = m1
      | Some x =>
          if so_nx opts then st = POGOCACHE_FOUND ∧ u' = u ∧ m' = m
          else ∃ v, shows v t key x ∧
            let '(go, u2) := match so_entry opts with None => (true, u) | Some cb => cb v u end in
            u' = u2 ∧ if (go : bool) then st = POGOCACHE_REPLACED ∧ m' = m1
                      else st = POGOCACHE_CANCELED ∧ m' = m
      end) (pogocache_store clock key val opts h k w u).
Proof.
  intros Hst Hlow Hcas Hopts Hk Hv cur m1. pose proof (kr_ok _ _ _ _ _ _ _ Hrel) as Hok.
  assert (Hnow : opt_now (so_time opts) clock = t) by (rewrite Hst; now apply opt_now_given).
  eapply kv_result_intro.
  { eapply (store_refines clock key h k w Ms u Hok Hav val opts); [rewrite Hnow; apply Ht|exact Hopts|exact Hk|exact Hv|].
    intros sh M HM. apply (safe_store_pre _ K); [apply (kr_safe _ _ _ _ _ _ _ Hrel)| |exact HK].
    intros k0. exact (kr_keys _ _ _ _ _ _ _ Hrel _ M k0 HM). }
  rewrite Hnow. intros a st a' evs u' Hsh Hct Hkey (mem & victim & Hmem & _ & E).
  unfold m1, cur. rewrite <- (Hsh t) by lia.
  assert (Hm : memory_for B → mem = true) by (intros HB; apply Hmem, (kv_rel_plenty _ _ _ _ _ _ _ Hrel HB)).
  unfold store_spec in E. rewrite Hlow, Hcas, spec_expires_shown in E. cbn [negb orb andb] in E.
  rewrite orb_false_r in E.
  set (x' := new_ent _ _ _ _ _ _ _) in E.
  change (a_cleartime (a_tick a)) with (a_cleartime a) in E.
  assert (Hput : ∀ cur0 b, shown t a key = cur0 → a_cleartime b = a_cleartime a →
    (∀ k', k' ≠ key → a_ents b !! k' = a_ents a !! k') →
    acts K t key m (kv_put m key val (so_flags opts) (store_deadline opts cur0)) a (a_put b x')).
  { intros cur0 b <- Hb1 Hb2. change (kv_put _ _ _ _ _) with (<[key := item_of x']> m).
    split; [exact Hb1|]. split; [|split; [intros y; cbn [a_put a_ents x' new_ent e_key]; rewrite lookup_insert_eq; intros [= <-]; now left|]].
    - intros k' Hk'. cbn [a_put a_ents x' new_ent e_key]. rewrite !lookup_insert_ne by congruence.
      split; [now apply Hb2|reflexivity].
    - intros now Hn. apply shown_entry; [cbn [a_put a_ents x' new_ent e_key]; apply lookup_insert_eq|].
      cbn [a_put a_cleartime x' new_ent e_time]. now rewrite Hb1. }
  destruct mem; cbn [negb orb] in E.
  2: { injection E as -> -> _ ->. exists m. split; [now apply acts_same|]. now exists false. }
  change (a_ents (a_tick a)) with (a_ents a) in E. rewrite orb_false_r in E.
  destruct (a_ents a !! key) as [x|] eqn:Ex.
  2: { assert (Hnone : shown t a key = None) by (unfold shown; now rewrite Ex). rewrite Hnone.
       destruct (so_xx opts); injection E as -> -> _ ->.
       - exists m. split; [now apply acts_same|]. now exists true.
       - eexists. split; [apply (Hput None (a_tick a)); [assumption|reflexivity|intros; reflexivity]|]. now exists true. }
  destruct (fate t (a_cleartime a) x =? 0) eqn:Ef; zb; cbn [negb] in E.
  2: { assert (Hnone : shown t a key = None) by (unfold shown; rewrite Ex; cbn; now rewrite (proj2 (Z.eqb_neq _ _))).
       rewrite Hnone.
       destruct (so_xx opts); injection E as -> -> _ ->.
       - exists m. split; [now apply acts_forget|]. now exists true.
       - eexists. split; [apply (Hput None (a_uncount (a_tick a) _)); [assumption|reflexivity|intros; reflexivity]|]. now exists true. }
  pose proof (shown_alive _ _ _ _ Ex Ef) as Esh. rewrite Esh. destruct (Hkey x eq_refl) as [Ekey Hxok].
  assert (Hvo : view_ok (ent_view (home (c_ctx k) key) t x)).
  { destruct Hxok as (_ & _ & V1 & V2 & V3 & _). split; [exact V1|split; [exact V2|exact V3]]. }
  destruct (so_nx opts); [injection E as -> -> _ ->; exists m; split; [now apply acts_same|]; now exists true|].
  set (v := ent_view (home (c_ctx k) key) t x) in *.
  assert (Hvs : shows v t key (item_of x)) by (repeat (split; [reflexivity || exact Ekey|]); exact Hvo).
  destruct (match so_entry opts with Some cb => cb v u | None => (true, u) end) as [go u2] eqn:Ecb.
  destruct go; injection E as -> -> _ ->.
  - eexists. split; [apply (Hput (Some (item_of x)) (a_tick a)); [assumption|reflexivity|intros; reflexivity]|].
    exists true. split; [easy|]. cbn [negb]. exists v. split; [exact Hvs|]. rewrite Ecb. split; [reflexivity|].
    split; reflexivity.
  - exists m. split; [now apply acts_same|]. exists true. split; [easy|]. cbn [negb]. exists v.
    split; [exact Hvs|]. rewrite Ecb. split; [reflexivity|]. split; reflexivity.
Qed.
End Ops.
