(* ===== verification/KvCmds.v ===== *)
(** * KvCmds: every command does what [Kv.v] says

    For each request of [Kv.v] sent over a Redis connection, the command that
    [evcommand] runs writes the reply of [kv_step] and leaves a server that
    represents the store of [kv_step]. [yields] is the postcondition of a
    computation of the command monad, with its rule for sequences. *)

From S2P Require Import Prelude Util Context Entry Heap Map MapInv MapSpec Shard ShardInv ShardSpec ShardOps ShardStore.
From S2P Require Import Samples ShardTheorems Cache Locks CacheInv CacheOps CacheTheorems.
From S2P Require Import Resp RespProofs Memcache Http Parse Conn ConnProofs Cmds CmdTable CmdFrame Server Kv KvRel.

#[local] Opaque th64 hash24 encode entry_memsize.

(** ** What the writers of replies write *)

Abbreviation clean := (Forall (λ b : Z, 32 <= b)).

Lemma clean_same data : clean data → (λ b, if b <? 32 then 32 else b) <$> data = data.
Proof.
  intros Hc. induction Hc as [|b data Hb _ IH]; [reflexivity|]. cbn. rewrite IH.
  now rewrite (proj2 (Z.ltb_ge _ _)).
Qed.

Lemma line_clean ch data mark : clean data → line_bytes ch data mark = ch :: data ++ crlf.
Proof.
  intros Hc. unfold line_bytes. rewrite clean_same by now apply Forall_take.
  cbn [app]. now rewrite (app_assoc (take _ data)), take_drop.
Qed.

Lemma u64_digits_clean fuel : ∀ x, clean (u64_digits fuel x).
Proof.
  induction fuel as [|fuel IH]; intros x; cbn [u64_digits]; constructor; [dm|].
  destruct (_ <? _); [apply IH|constructor].
Qed.

Lemma u64toa_clean x : 0 <= x → clean (u64toa x).
Proof.
  intros Hx. unfold u64toa. destruct (_ <? _); [repeat constructor; lia|].
  apply Forall_rev, u64_digits_clean.
Qed.

Lemma i64toa_clean x : clean (i64toa x).
Proof.
  unfold i64toa. destruct (x <? 0) eqn:E; zb; [constructor; [lia|]|]; apply u64toa_clean; [|lia].
  unfold u64. dm.
Qed.

Definition writes (c : conn job) (a : answer) : conn job := set_out c (c_out c ++ reply_bytes a).

Section Writers.
Context (c : conn job) (Hp : c_proto c = PROTO_RESP).

Lemma writes_status s : clean s → conn_write_string c s = writes c (RStatus s).
Proof. intros Hs. unfold conn_write_string, writes. now rewrite writeln_line, line_clean. Qed.

Lemma writes_int x : conn_write_int c x = writes c (RInt x).
Proof.
  unfold conn_write_int, writes. rewrite Hp, decide_False by discriminate.
  now rewrite writeln_line, line_clean by apply i64toa_clean.
Qed.

Lemma writes_uint x : 0 <= x → conn_write_uint c x = writes c (RStatus (u64toa x)).
Proof.
  intros Hx. unfold conn_write_uint, writes. rewrite Hp, decide_False by discriminate.
  now rewrite writeln_line, line_clean by now apply u64toa_clean.
Qed.

Lemma writes_error s : clean s → conn_write_error c s = writes c (RError s).
Proof.
  intros Hs. unfold conn_write_error, write_error, writes. rewrite Hp.
  now rewrite writeln_line, line_clean.
Qed.

Lemma writes_bulk s : conn_write_bulk c s = writes c (RBulk s).
Proof. reflexivity. Qed.

Lemma writes_null : conn_write_null c = writes c RNull.
Proof. reflexivity. Qed.
End Writers.

(** The error messages of the commands are clean. *)
Ltac clean_text := repeat (constructor; [vm_compute; congruence|]); constructor.

(** ** Computations of the command monad *)

Definition yields {A} (x : option (A * server * conn job)) (P : A → server → conn job → Prop) : Prop :=
  ∃ a s c, x = Some (a, s, c) ∧ P a s c.

Lemma yields_bind `{Env} {A B} (x : cmd A) (f : A → cmd B) s c Q P :
  yields (x s c) Q → (∀ a s' c', Q a s' c' → yields (f a s' c') P) → yields ((x ≫= f) s c) P.
Proof.
  intros (a & s' & c' & E & HQ) Hf. unfold mbind, cmd_bind. rewrite E. exact (Hf a s' c' HQ).
Qed.

Lemma yields_eq {A} (x : option (A * server * conn job)) a s c (P : A → server → conn job → Prop) :
  x = Some (a, s, c) → P a s c → yields x P.
Proof. intros -> HP. now exists a, s, c. Qed.

(** ** A server that represents a store *)

(** The clock from now on: it does not run backwards. *)
Definition clock_ok (t : Z) (clock : nat → Z) : Prop :=
  ∀ i, t <= clock i ∧ good_time (clock i) ∧ clock i <= clock (S i).

Lemma clock_tick t clock : clock_ok t clock → clock_ok (clock 0%nat) (λ i, clock (S i)).
Proof.
  intros Hc i. destruct (Hc (S i)) as (_ & Hg & Hn). split; [|easy].
  induction i as [|i IH]; [apply (Hc 0%nat)|].
  destruct (Hc (S i)) as (_ & Hg' & Hn'). specialize (IH Hg' Hn'). lia.
Qed.

Definition shift (n : nat) (clock : nat → Z) : nat → Z := λ i, clock (n + i)%nat.

Section Serves.
Context `{Env} `{!EnvOk _} (K : gset bytes) (B : nat).

Record serves (s : server) (t : Z) (m : kv) : Prop := {
  sv_rel : ∃ Ms, kv_rel K B (s_cache s) (s_world s) Ms t m;
  sv_unlocked : unlocked (s_cache s);
  sv_lowmem : s_lowmem s = false;
  sv_batch : usethreadbatch (c_ctx (s_cache s)) = true;
  sv_clock : clock_ok t (s_clock s)
}.

(** [sys_now]. *)
Lemma sys_now_serves s t m c :
  serves s t m → yields (sys_now s c) (λ t' s' c', c' = c ∧ t' = s_clock s 0%nat ∧ good_time t' ∧
    serves s' t' m ∧ serves s' t m ∧ s_clock s' = shift 1 (s_clock s)).
Proof.
  intros [[Ms Hr] Hu Hl Hb Hc]. unfold sys_now. eexists _, _, _. split; [reflexivity|].
  split; [reflexivity|]. split; [reflexivity|]. split; [apply (Hc 0%nat)|]. split; [|split; [|reflexivity]].
  - split; [exists Ms|exact Hu|exact Hl|exact Hb|exact (clock_tick _ _ Hc)].
    apply (kv_rel_later _ _ _ _ _ t); [apply (Hc 0%nat)|exact Hr].
  - split; [now exists Ms|exact Hu|exact Hl|exact Hb|intros i; apply (Hc (S i))].
Qed.

Lemma unlocked_available_key s t m key h :
  serves s t m → available h (s_cache s) (home (c_ctx (s_cache s)) key).
Proof.
  intros [[Ms Hr] Hu _ _ _]. exact (home_available _ _ _ _ _ (kr_ok _ _ _ _ _ _ _ Hr) Hu).
Qed.

(** A result of the engine without a batch. *)
Lemma kv_result_root {U : Type} (s : server) (t : Z) (m : kv) (key : bytes) (Q : Z → U → kv → Prop)
    (res : option (Z * handle * cache_t * world * U)) :
  serves s t m → kv_result K B (s_cache s) key Root t Q res →
  ∃ st k' w' u' m', res = Some (st, Root, k', w', u') ∧ serves (set_cache s k' w') t m' ∧ Q st u' m'.
Proof.
  intros [_ Hu Hl Hb Hc] (st & h' & k' & w' & u' & Ms' & m' & -> & Hr & Ec & Hlk & HQ).
  pose proof (f_equal fst Hlk) as Eh. pose proof (f_equal snd Hlk) as El. cbn in Eh, El. subst h'.
  exists st, k', w', u', m'. split; [reflexivity|]. split; [|exact HQ].
  split; [now exists Ms'|exact (unlocked_same _ _ El Hu)|exact Hl|cbn; now rewrite Ec|exact Hc].
Qed.

Section Ops.
Context (s : server) (t : Z) (m : kv) (c : conn job) (key : bytes).
Context (Hs : serves s t m) (HK : key ∈ K) (Ht : good_time t).

(** What every step of a command keeps. *)
Definition after (s' : server) (m' : kv) : Prop := serves s' t m' ∧ s_clock s' = s_clock s.

Lemma load_conn_serves opts :
  lo_time opts = t → (∀ cb v u, lo_entry opts = Some cb → (cb v u).1 = None) →
  yields (load_conn key opts s c) (λ st s' c', after s' m ∧
    match kv_get t m key with
    | None => st = POGOCACHE_NOTFOUND ∧ c' = c
    | Some x =>
        st = POGOCACHE_FOUND ∧
        match lo_entry opts with
        | None => c' = c
        | Some cb => ∃ v, shows v t key x ∧ c' = (cb v c).2
        end
    end).
Proof.
  intros Hlt Hcb. pose proof Hs as [[Ms Hr] _ _ _ _]. unfold load_conn.
  assert (Hok : load_cb_ok opts).
  { intros cb v u upd u' Hcbe _ E. specialize (Hcb cb v u Hcbe). rewrite E in Hcb. discriminate Hcb. }
  pose proof (load_kv K B (s_cache s) (s_world s) Ms t m key Root (s_clock s 0%nat) c Hr
    (unlocked_available_key _ _ _ _ _ Hs) HK Ht opts Hlt Hok) as HR.
  destruct (kv_result_root s t m key _ _ Hs HR) as (st & k' & w' & u' & m' & -> & Hs' & HQ).
  eexists _, _, _. split; [reflexivity|]. destruct (kv_get t m key) as [x|]; [|destruct HQ as (-> & -> & ->); easy].
  destruct (lo_entry opts) as [cb|] eqn:Ecb; [|destruct HQ as (-> & -> & ->); easy].
  destruct HQ as (v & Hv & HQ). specialize (Hcb cb v c eq_refl).
  destruct (cb v c) as [[upd|] u2] eqn:E; [discriminate Hcb|]. destruct HQ as (-> & -> & ->).
  split; [easy|]. split; [reflexivity|]. exists v. now rewrite E.
Qed.

Lemma remove_serves opts :
  do_time opts = t → do_entry opts = None →
  yields (remove Root key opts tt s c) (λ r s' c', c' = c ∧ ∃ m', after s' m' ∧
    match kv_get t m key with
    | None => r.1.1 = POGOCACHE_NOTFOUND ∧ m' = m
    | Some _ => r.1.1 = POGOCACHE_DELETED ∧ m' = delete key m
    end).
Proof.
  intros Hdt Hcb. pose proof Hs as [[Ms Hr] _ _ _ _]. unfold remove.
  pose proof (delete_kv K B (s_cache s) (s_world s) Ms t m key Root (s_clock s 0%nat) tt Hr
    (unlocked_available_key _ _ _ _ _ Hs) HK Ht opts Hdt Hcb) as HR.
  destruct (kv_result_root s t m key _ _ Hs HR) as (st & k' & w' & u' & m' & -> & Hs' & _ & HQ).
  eexists _, _, _. split; [reflexivity|]. split; [reflexivity|]. exists m'. split; [easy|exact HQ].
Qed.

Lemma load_serves {U : Type} (opts : load_opts U) (u : U) :
  lo_time opts = t → load_cb_ok opts →
  yields (load Root key opts u s c) (λ r s' c', c' = c ∧ ∃ m', after s' m' ∧
    match kv_get t m key with
    | None => r.1.1 = POGOCACHE_NOTFOUND ∧ r.2 = u ∧ m' = m
    | Some x =>
        match lo_entry opts with
        | None => r.1.1 = POGOCACHE_FOUND ∧ r.2 = u ∧ m' = m
        | Some cb => ∃ v, shows v t key x ∧
            match cb v u with
            | (None, u2) => r.1.1 = POGOCACHE_FOUND ∧ r.2 = u2 ∧ m' = m
            | (Some upd, u2) => r.2 = u2 ∧ ∃ mem : bool, (memory_for B → mem = true) ∧
                if mem then r.1.1 = POGOCACHE_FOUND ∧
                  m' = kv_put m key (u_value upd) (u_flags upd) (u_expires upd)
                else r.1.1 = POGOCACHE_NOMEM ∧ m' = m
            end
        end
    end).
Proof.
  intros Hlt Hcb. pose proof Hs as [[Ms Hr] _ _ _ _]. unfold load.
  pose proof (load_kv K B (s_cache s) (s_world s) Ms t m key Root (s_clock s 0%nat) u Hr
    (unlocked_available_key _ _ _ _ _ Hs) HK Ht opts Hlt Hcb) as HR.
  destruct (kv_result_root s t m key _ _ Hs HR) as (st & k' & w' & u' & m' & -> & Hs' & HQ).
  eexists _, _, _. split; [reflexivity|]. split; [reflexivity|]. exists m'. split; [easy|exact HQ].
Qed.
End Ops.

(** ** Replies of commands *)

(** The command answered the request [r] on the store [m] as [kv_step] says. *)
Definition answers (r : request) (s : server) (m : kv) (c : conn job) (_ : unit) (s' : server)
    (c' : conn job) : Prop :=
  ∃ (mem : bool) (t' : Z), (memory_for B → mem = true) ∧
    serves s' t' (kv_step mem (s_clock s) r m).2 ∧
    s_clock s' = shift (kv_ticks r) (s_clock s) ∧ c' = writes c (kv_step mem (s_clock s) r m).1.

Section Commands.
Context (cfg : config) (s : server) (t : Z) (m : kv) (c : conn job).
Context (Hs : serves s t m) (Hp : c_proto c = PROTO_RESP).

(** The steps that read the arguments, the protocol and the clock. *)
Lemma yields_args {A} (f : list bytes → cmd A) s0 c0 args P :
  c_args c0 = args → yields (f args s0 c0) P → yields ((get_args ≫= f) s0 c0) P.
Proof. intros <- Hf. exact Hf. Qed.

Lemma yields_proto {A} (f : proto → cmd A) s0 c0 P :
  c_proto c0 = PROTO_RESP → yields (f PROTO_RESP s0 c0) P → yields ((conn_proto ≫= f) s0 c0) P.
Proof. intros <- Hf. exact Hf. Qed.

Lemma yields_reply {A} (g : conn job → conn job) (f : unit → cmd A) s0 c0 P :
  yields (f tt s0 (g c0)) P → yields ((reply g ≫= f) s0 c0) P.
Proof. easy. Qed.

Lemma yields_now {A} (f : Z → cmd A) c0 P :
  (∀ s', good_time (s_clock s 0%nat) → serves s' (s_clock s 0%nat) m → s_clock s' = shift 1 (s_clock s) →
     yields (f (s_clock s 0%nat) s' c0) P) →
  yields ((sys_now ≫= f) s c0) P.
Proof.
  intros Hf. eapply yields_bind; [exact (sys_now_serves s t m c0 Hs)|].
  intros t' s' c' (-> & -> & Ht & Hs' & _ & Hc). now apply Hf.
Qed.

(** Closing a command: the server after it, and the reply. *)
Lemma answers_intro r mem t' s' c' a m' :
  (memory_for B → mem = true) → kv_step mem (s_clock s) r m = (a, m') → serves s' t' m' →
  s_clock s' = shift (kv_ticks r) (s_clock s) → c' = writes c a → answers r s m c tt s' c'.
Proof. intros Hm E Hs' Hc ->. exists mem, t'. rewrite E. easy. Qed.

Lemma get_answers key :
  c_args c = request_args (Get key) → key ∈ K → yields (cmdGET s c) (answers (Get key) s m c).
Proof.
  intros Hargs HK. unfold cmdGET. eapply yields_args; [exact Hargs|]. cbn [request_args].
  apply yields_now. intros s1 Ht Hs1 Hc1. apply yields_proto; [exact Hp|]. apply yields_reply.
  rewrite decide_False by discriminate.
  eapply yields_bind; [apply (load_conn_serves s1 _ m c key Hs1 HK Ht); [reflexivity|]|].
  { intros cb v u [= <-]. reflexivity. }
  intros st s2 c2 [[Hs2 Hc2] Hst]. cbn [lo_entry] in Hst.
  apply yields_reply. eapply yields_eq; [reflexivity|]. rewrite decide_False by discriminate.
  eapply (answers_intro _ true); [easy|cbn [kv_step]; reflexivity|exact Hs2|now rewrite Hc2, Hc1|].
  destruct (kv_get _ m key) as [x|]; [|destruct Hst as (-> & ->); reflexivity].
  destruct Hst as (-> & v & Hv & ->). cbn [get_entry snd]. rewrite Hp. cbn [Z.eqb negb].
  destruct Hv as (_ & _ & -> & _). reflexivity.
Qed.

Lemma ttl_answers ms key :
  c_args c = request_args (Ttl ms key) → key ∈ K → yields (cmdTTL s c) (answers (Ttl ms key) s m c).
Proof.
  intros Hargs HK. unfold cmdTTL. eapply yields_args; [exact Hargs|]. cbn [request_args].
  assert (argeq_bytes (if ms then str "PTTL" else str "TTL") (str "pttl") = ms) as ->
    by (destruct ms; reflexivity).
  apply yields_now. intros s1 Ht Hs1 Hc1. apply yields_proto; [exact Hp|]. apply yields_reply.
  rewrite decide_False by discriminate.
  eapply yields_bind; [apply (load_conn_serves s1 _ m c key Hs1 HK Ht); [reflexivity|]|].
  { intros cb v u [= <-]. reflexivity. }
  intros st s2 c2 [[Hs2 Hc2] Hst]. cbn [lo_entry] in Hst.
  apply yields_reply. eapply yields_eq; [reflexivity|]. rewrite decide_False by discriminate.
  eapply (answers_intro _ true); [easy|cbn [kv_step]; reflexivity|exact Hs2|now rewrite Hc2, Hc1|].
  unfold kv_ttl. rewrite bool_decide_true by reflexivity. rewrite andb_true_r.
  destruct (kv_get _ m key) as [x|]; [|destruct Hst as (-> & ->); now apply writes_int].
  destruct Hst as (-> & v & Hv & ->). cbn [ttl_entry snd Z.eqb negb]. rewrite Hp, decide_False by discriminate.
  destruct Hv as (-> & _ & _ & _ & -> & _). now apply writes_int.
Qed.

Lemma echo_answers msg :
  c_args c = request_args (Echo msg) → yields (cmdECHO s c) (answers (Echo msg) s m c).
Proof.
  intros Hargs. unfold cmdECHO. eapply yields_args; [exact Hargs|].
  eapply yields_eq; [reflexivity|]. rewrite Hp, decide_False by discriminate.
  eapply (answers_intro _ true t); [easy|reflexivity|exact Hs|reflexivity|reflexivity].
Qed.

Lemma ping_answers msg :
  c_args c = request_args (Ping msg) → yields (cmdPING s c) (answers (Ping msg) s m c).
Proof.
  intros Hargs. unfold cmdPING. eapply yields_args; [exact Hargs|].
  destruct msg as [msg|]; (eapply yields_eq; [reflexivity|]; rewrite Hp, decide_False by discriminate);
    eapply (answers_intro _ true t); try (easy || exact Hs || reflexivity).
  apply writes_status. clean_text.
Qed.
End Commands.

(** ** Commands on several keys *)

Section Loops.
Context (t : Z) (Ht : good_time t).

Lemma mget_loop_serves p keys : ∀ s m c count,
  p = PROTO_RESP → serves s t m → c_proto c = PROTO_RESP → Forall (λ key, key ∈ K) keys →
  yields (mget_loop p t false keys count s c) (λ _ s' c', serves s' t m ∧ s_clock s' = s_clock s ∧
    c' = set_out c (c_out c ++ concat (bulk_or_null <$> ((λ key, i_val <$> kv_get t m key) <$> keys)))).
Proof.
  intros s m c count ->. revert s c count.
  induction keys as [|key keys IH]; intros s c count Hs Hp HK; cbn [mget_loop].
  { eexists _, _, _. split; [reflexivity|]. split; [exact Hs|]. split; [reflexivity|]. cbn. rewrite app_nil_r.
    now destruct c. }
  inversion HK as [|? ? Hk HK']; subst.
  eapply yields_bind; [apply (load_conn_serves s t m c key Hs Hk Ht); [reflexivity|]|].
  { intros cb v u [= <-]. reflexivity. }
  intros st s2 c2 [[Hs2 Hc2] Hst]. cbn [lo_entry] in Hst. cbn [fmap list_fmap concat].
  assert (Hend : ∀ c3 count', c_proto c3 = PROTO_RESP →
    c3 = set_out c (c_out c ++ bulk_or_null (i_val <$> kv_get t m key)) →
    yields (mget_loop PROTO_RESP t false keys count' s2 c3) (λ _ s' c', serves s' t m ∧
      s_clock s' = s_clock s ∧ c' = set_out c (c_out c ++ bulk_or_null (i_val <$> kv_get t m key) ++
        concat (bulk_or_null <$> ((λ key, i_val <$> kv_get t m key) <$> keys))))).
  { intros c3 count' Hp3 E3. destruct (IH s2 c3 count' Hs2 Hp3 HK') as (n & s' & c' & E & H1 & H2 & H3).
    exists n, s', c'. split; [exact E|]. split; [exact H1|]. split; [now rewrite H2|].
    rewrite H3, E3. cbn [c_out set_out]. now rewrite <- app_assoc. }
  destruct (kv_get t m key) as [x|] eqn:Eg.
  - destruct Hst as (-> & v & Hv & ->). cbn [get_entry snd Z.eqb]. rewrite Hp. destruct Hv as (_ & _ & -> & _).
    now apply Hend.
  - destruct Hst as (-> & ->). cbn [Z.eqb]. apply yields_reply. rewrite decide_True by reflexivity. now apply Hend.
Qed.

Lemma del_loop_serves keys : ∀ s m c n,
  serves s t m → Forall (λ key, key ∈ K) keys →
  yields (del_loop t keys n s c) (λ r s' c', c' = c ∧ s_clock s' = s_clock s ∧
    serves s' t (kv_del t m keys).2 ∧ r = n + (kv_del t m keys).1).
Proof.
  induction keys as [|key keys IH]; intros s m c n Hs HK; cbn [del_loop kv_del].
  { eexists _, _, _. split; [reflexivity|]. split; [reflexivity|]. split; [reflexivity|]. split; [exact Hs|]. cbn. lia. }
  inversion HK as [|? ? Hk HK']; subst.
  eapply yields_bind; [apply (remove_serves s t m c key Hs Hk Ht); reflexivity|].
  intros [[st h] u] s2 c2 (-> & m' & [Hs2 Hc2] & Hst). cbn [fst] in Hst.
  destruct (kv_get t m key) as [x|]; destruct Hst as [-> ->]; cbn [Z.eqb];
    [destruct (IH s2 _ c (n + 1) Hs2 HK') as (r & s' & c' & E & H1 & H2 & H3 & H4)
    |destruct (IH s2 _ c n Hs2 HK') as (r & s' & c' & E & H1 & H2 & H3 & H4)];
    exists r, s', c'; (split; [exact E|]); (split; [exact H1|]); (split; [now rewrite H2|]).
  - destruct (kv_del t (delete key m) keys) as [n' m'] eqn:Ed. cbn [fst snd] in *. split; [exact H3|]. rewrite H4. cbn. lia.
  - split; [exact H3|]. rewrite H4. cbn. lia.
Qed.

Lemma count_loop_serves notouch keys : ∀ s m c n,
  serves s t m → Forall (λ key, key ∈ K) keys →
  yields (count_loop t notouch keys n s c) (λ r s' c', c' = c ∧ s_clock s' = s_clock s ∧
    serves s' t m ∧ r = n + kv_count t m keys).
Proof.
  induction keys as [|key keys IH]; intros s m c n Hs HK; cbn [count_loop].
  { eexists _, _, _. split; [reflexivity|]. split; [reflexivity|]. split; [reflexivity|]. split; [exact Hs|].
    unfold kv_count. cbn. lia. }
  inversion HK as [|? ? Hk HK']; subst.
  eapply yields_bind.
  { apply (load_serves s t m c key Hs Hk Ht (LoadOpts t notouch None) tt); [reflexivity|]. intros cb v u upd u' [=]. }
  intros [[st h] u] s2 c2 (-> & m' & [Hs2 Hc2] & Hst). cbn [fst snd lo_entry] in Hst.
  assert (E1 : kv_count t m (key :: keys) =
    (if bool_decide (is_Some (kv_get t m key)) then 1 else 0) + kv_count t m keys).
  { unfold kv_count. rewrite filter_cons. destruct (decide _) as [Hd|Hd].
    - rewrite bool_decide_true by exact Hd. cbn [length]. lia.
    - rewrite bool_decide_false by exact Hd. lia. }
  rewrite E1.
  destruct (kv_get t m key) as [x|]; destruct Hst as (-> & _ & ->); cbn [Z.eqb];
    [destruct (IH s2 m c (n + 1) Hs2 HK') as (r & s' & c' & E & H1 & H2 & H3 & H4)
    |destruct (IH s2 m c n Hs2 HK') as (r & s' & c' & E & H1 & H2 & H3 & H4)];
    exists r, s', c'; (split; [exact E|]); (split; [exact H1|]); (split; [now rewrite H2|]);
    (split; [exact H3|]); rewrite H4; cbn; lia.
Qed.
End Loops.

(** ** SET *)

Definition cond_nx (cond : set_cond) : bool := match cond with NX => true | _ => false end.
Definition cond_xx (cond : set_cond) : bool := match cond with XX => true | _ => false end.

Lemma set_done cmdname status (get written : bool) c :
  c_proto c = PROTO_RESP →
  (if status =? POGOCACHE_NOMEM then conn_write_error c ERR_OUT_OF_MEMORY
   else if get then
     if written then c
     else if decide (c_proto c = PROTO_POSTGRES) then
       pg_done (cmdname ++ str " 0") (pg_write_row_desc c [str "value"])
     else conn_write_null c
   else set_reply cmdname status c) =
  (if status =? POGOCACHE_NOMEM then writes c out_of_memory
   else if get then if written then c else writes c RNull
   else writes c (if (status =? POGOCACHE_INSERTED) || (status =? POGOCACHE_REPLACED)
                  then RStatus (str "OK") else RNull)).
Proof.
  intros Hp. rewrite (writes_error c Hp) by clean_text. rewrite decide_False by (rewrite Hp; discriminate).
  unfold set_reply. rewrite Hp, (writes_status c (str "OK")) by clean_text.
  now destruct (status =? POGOCACHE_NOMEM), get, written, (status =? POGOCACHE_INSERTED), (status =? POGOCACHE_REPLACED).
Qed.

Lemma execSET_serves cmdname s t m c key val expires cond get keepttl flags :
  serves s t m → c_proto c = PROTO_RESP → good_time t → key ∈ K → key_ok key →
  Z.of_nat (length val) < 2 ^ 64 → 0 <= expires → is_i64 expires → is_u32 flags →
  yields (execSET cmdname t key val
      (SetOpts expires (cond_nx cond) (cond_xx cond) get keepttl flags 0 false) s c)
    (λ _ s' c', s_clock s' = s_clock s ∧ ∃ mem : bool, (memory_for B → mem = true) ∧
       let r := kv_set mem t m key val expires cond get keepttl flags in
       serves s' t r.2 ∧ c' = writes c r.1).
Proof.
  intros Hs Hp Ht HK Hk Hv He Hi Hf. pose proof Hs as [[Ms Hr] _ Hlow _ _]. unfold execSET.
  set (opts := set_store_opts _ _ _ _).
  pose proof (store_kv K B (s_cache s) (s_world s) Ms t m key Root (s_clock s 0%nat) (false, c) Hr
    (unlocked_available_key _ _ _ _ _ Hs) HK Ht val opts eq_refl Hlow eq_refl) as HR.
  destruct (kv_result_root s t m key _ _ Hs (HR ltac:(repeat split; cbn; (apply Hi || apply Hf || lia)) Hk Hv))
    as (st & k' & w' & u' & m' & -> & Hs' & mem & Hmem & HQ).
  eexists _, _, _. split; [reflexivity|]. split; [reflexivity|]. exists mem. split; [exact Hmem|].
  assert (Hd : ∀ cur, store_deadline t opts cur =
    match cur with Some x => if keepttl then i_expires x else expires | None => expires end).
  { intros cur. unfold store_deadline. cbn [so_expires so_ttl opts set_store_opts st_expires so_keepttl st_keepttl].
    assert ((if 0 <? expires then expires else if 0 <? 0 then Z.min (t + 0) INT64_MAX else 0) = expires) as ->
      by (destruct (0 <? expires) eqn:E; zb; cbn; lia). reflexivity. }
  rewrite Hd in HQ. unfold kv_set.
  cbn [so_xx so_nx so_flags so_entry opts set_store_opts st_xx st_nx st_flags st_get] in *.
  rewrite set_done.
  2: { destruct mem; cbn [negb] in HQ; [|destruct HQ as (_ & -> & _); exact Hp].
       destruct (kv_get t m key) as [x|], cond, get; cbn [cond_nx cond_xx] in HQ;
         try (destruct HQ as (_ & -> & _); exact Hp); destruct HQ as (v & _ & HQ); cbn in HQ;
         destruct HQ as (-> & _); cbn; rewrite Hp; try rewrite decide_False by discriminate; (exact Hp || reflexivity). }
  clearbody opts. destruct mem; cbn [negb] in *; [|destruct HQ as (-> & -> & ->); split; [exact Hs'|reflexivity]].
  destruct (kv_get t m key) as [x|], cond; cbn [cond_nx cond_xx] in HQ.
  - destruct HQ as (v & Hv' & HQ). destruct Hv' as (_ & _ & Hval & _). destruct get; cbn in HQ.
    + destruct HQ as (-> & -> & ->). split; [exact Hs'|]. cbn. rewrite Hp; try rewrite decide_False by discriminate.
      now rewrite Hval.
    + destruct HQ as (-> & -> & ->). split; [exact Hs'|reflexivity].
  - destruct HQ as (-> & -> & ->). rewrite bool_decide_true by eauto. split; [exact Hs'|]. now destruct get.
  - destruct HQ as (v & Hv' & HQ). destruct Hv' as (_ & _ & Hval & _). destruct get; cbn in HQ.
    + destruct HQ as (-> & -> & ->). split; [exact Hs'|]. cbn. rewrite Hp; try rewrite decide_False by discriminate.
      now rewrite Hval.
    + destruct HQ as (-> & -> & ->). split; [exact Hs'|reflexivity].
  - destruct HQ as (-> & -> & ->). split; [exact Hs'|]. now destruct get.
  - destruct HQ as (-> & -> & ->). rewrite bool_decide_false by (intros []%is_Some_None). split; [exact Hs'|].
    now destruct get.
  - destruct HQ as (-> & -> & ->). split; [exact Hs'|]. now destruct get.
Qed.

(** The loop over the options of SET, option by option. *)
Section SetOptions.
Context (cfg : config) (now : Z) (Hn : good_time now) (o : set_opts) (hasex : bool) (rest : list bytes).

Lemma is_i64_clamp x : is_i64 (clamp64 x).
Proof. unfold clamp64, is_i64, INT64_MIN, INT64_MAX. lia. Qed.

Lemma unit_kind u : ex_kind (unit_name u) = match u with EX => 1 | PX => 2 end.
Proof. now destruct u. Qed.

Lemma set_expires_deadline u n :
  0 < n → is_i64 n → set_expires cfg PROTO_RESP now (ex_kind (unit_name u)) n = Some (deadline now u n).
Proof.
  intros Hpos Hi. unfold set_expires. rewrite (proj2 (Z.leb_gt n 0)) by lia. rewrite unit_kind.
  assert (Hm : ∀ k, is_i64 k → int64_mul_clamp n k = clamp64 (n * k)) by (intros; now apply int64_mul_clamp_spec).
  assert (Ha : ∀ x, int64_add_clamp now (clamp64 x) = clamp64 (now + clamp64 x)).
  { intros x. apply int64_add_clamp_spec; [apply Hn|apply is_i64_clamp]. }
  destruct u; cbn [Z.eqb Pos.eqb]; unfold expiry_seconds_time;
    rewrite ?bool_decide_false, ?Hm by (discriminate || (vm_compute; split; congruence));
    cbn [andb]; rewrite ?Ha; reflexivity.
Qed.

Lemma set_options_ex u n :
  is_i64 n →
  set_options cfg PROTO_RESP now (unit_name u :: i64toa n :: rest) o hasex =
  if n <=? 0 then SetErr err_expire
  else set_options cfg PROTO_RESP now rest (SetOpts (deadline now u n) (st_nx o) (st_xx o) (st_get o)
    (st_keepttl o) (st_flags o) (st_cas o) (st_withcas o)) true.
Proof.
  intros Hi. cbn [set_options].
  assert (negb (ex_kind (unit_name u) =? 0) = true) as -> by (rewrite unit_kind; now destruct u).
  rewrite parse_i64toa_spec by exact Hi. destruct (n <=? 0) eqn:E; zb.
  - unfold set_expires. rewrite (proj2 (Z.leb_le n 0)), decide_False by (easy || discriminate). reflexivity.
  - now rewrite set_expires_deadline by (easy || lia).
Qed.

Lemma set_options_flags f :
  is_u32 f →
  set_options cfg PROTO_RESP now (str "FLAGS" :: u64toa f :: rest) o hasex =
  set_options cfg PROTO_RESP now rest (SetOpts (st_expires o) (st_nx o) (st_xx o) (st_get o)
    (st_keepttl o) f (st_cas o) (st_withcas o)) hasex.
Proof.
  intros Hf. cbn [set_options].
  change (ex_kind (str "FLAGS")) with 0. change (argeq_bytes (str "FLAGS") (str "nx")) with false.
  change (argeq_bytes (str "FLAGS") (str "xx")) with false. change (argeq_bytes (str "FLAGS") (str "get")) with false.
  change (argeq_bytes (str "FLAGS") (str "keepttl")) with false. change (argeq_bytes (str "FLAGS") (str "flags")) with true.
  cbn [Z.eqb negb]. unfold is_u32 in Hf. rewrite parse_u64toa_spec by (unfold is_u64; lia). cbn [negb].
  unfold u32. now rewrite Z.mod_small by lia.
Qed.

Lemma set_options_word a :
  (a = str "NX" → set_options cfg PROTO_RESP now (a :: rest) o hasex =
     set_options cfg PROTO_RESP now rest (SetOpts (st_expires o) true (st_xx o) (st_get o) (st_keepttl o)
       (st_flags o) (st_cas o) (st_withcas o)) hasex) ∧
  (a = str "XX" → set_options cfg PROTO_RESP now (a :: rest) o hasex =
     set_options cfg PROTO_RESP now rest (SetOpts (st_expires o) (st_nx o) true (st_get o) (st_keepttl o)
       (st_flags o) (st_cas o) (st_withcas o)) hasex) ∧
  (a = str "GET" → set_options cfg PROTO_RESP now (a :: rest) o hasex =
     set_options cfg PROTO_RESP now rest (SetOpts (st_expires o) (st_nx o) (st_xx o) true (st_keepttl o)
       (st_flags o) (st_cas o) (st_withcas o)) hasex) ∧
  (a = str "KEEPTTL" → set_options cfg PROTO_RESP now (a :: rest) o hasex =
     set_options cfg PROTO_RESP now rest (SetOpts (st_expires o) (st_nx o) (st_xx o) (st_get o) true
       (st_flags o) (st_cas o) (st_withcas o)) hasex).
Proof. repeat split; intros ->; reflexivity. Qed.
End SetOptions.

Lemma set_options_request (cfg : config) (now : Z) (ex : option (ex_unit * Z)) (cond : set_cond)
    (get keepttl : bool) (flags : option Z) :
  good_time now → (∀ u n, ex = Some (u, n) → is_i64 n) → is_u32 (default 0 flags) →
  set_options cfg PROTO_RESP now
    ((match ex with Some (u, n) => [unit_name u; i64toa n] | None => [] end) ++
     (match cond with Always => [] | NX => [str "NX"] | XX => [str "XX"] end) ++
     (if get then [str "GET"] else []) ++ (if keepttl then [str "KEEPTTL"] else []) ++
     (match flags with Some f => [str "FLAGS"; u64toa f] | None => [] end)) set_opts0 false =
  let set (expires : Z) (hasex : bool) := SetOk (SetOpts expires (cond_nx cond) (cond_xx cond) get keepttl (default 0 flags) 0 false) hasex in
  match ex with
  | Some (u, n) => if n <=? 0 then SetErr err_expire else set (deadline now u n) true
  | None => set 0 false
  end.
Proof.
  intros Hn Hex Hf. cbv zeta.
  assert (Htail : ∀ expires hasex,
    set_options cfg PROTO_RESP now
      ((match cond with Always => [] | NX => [str "NX"] | XX => [str "XX"] end) ++
       (if get then [str "GET"] else []) ++ (if keepttl then [str "KEEPTTL"] else []) ++
       (match flags with Some f => [str "FLAGS"; u64toa f] | None => [] end))
      (SetOpts expires false false false false 0 0 false) hasex =
    SetOk (SetOpts expires (cond_nx cond) (cond_xx cond) get keepttl (default 0 flags) 0 false) hasex).
  { intros expires hasex.
    destruct cond; cbn [app];
      rewrite ?(proj1 (set_options_word _ _ _ _ _ _)) by reflexivity;
      rewrite ?(proj1 (proj2 (set_options_word _ _ _ _ _ _))) by reflexivity;
      (destruct get; cbn [app];
       [rewrite (proj1 (proj2 (proj2 (set_options_word _ _ _ _ _ _)))) by reflexivity|]);
      (destruct keepttl; cbn [app];
       [rewrite (proj2 (proj2 (proj2 (set_options_word _ _ _ _ _ _)))) by reflexivity|]);
      (destruct flags as [f|]; cbn [default] in *; [rewrite set_options_flags by exact Hf|]); reflexivity. }
  destruct ex as [[u n]|]; cbn [app]; [|apply Htail].
  rewrite set_options_ex by (easy || now apply (Hex u)). destruct (n <=? 0); [reflexivity|apply Htail].
Qed.

Section Commands2.
Context (cfg : config) (s : server) (t : Z) (m : kv) (c : conn job).
Context (Hs : serves s t m) (Hp : c_proto c = PROTO_RESP).

Lemma deadline_pos now u n : good_time now → 0 < n → 0 <= deadline now u n ∧ is_i64 (deadline now u n).
Proof.
  intros [Hn _] Hp'. split; [|destruct u; apply is_i64_clamp].
  destruct u; unfold deadline, seconds, clamp64, INT64_MAX, INT64_MIN, SECOND, MILLISECOND; lia.
Qed.

Lemma set_answers key val ex cond get keepttl flags :
  let r := Set_ key val ex cond get keepttl flags in
  c_args c = request_args r → key ∈ K → key_ok key → Z.of_nat (length val) < 2 ^ 64 →
  (∀ u n, ex = Some (u, n) → is_i64 n) → is_u32 (default 0 flags) →
  yields (cmdSET cfg s c) (answers r s m c).
Proof.
  intros r Hargs HK Hk Hv Hex Hf. unfold cmdSET. eapply yields_args; [exact Hargs|]. unfold r. cbn [request_args app].
  apply (yields_now s t m Hs). intros s1 Ht Hs1 Hc1. apply yields_proto; [exact Hp|].
  rewrite set_options_request by assumption. cbv zeta.
  assert (Hexec : ∀ expires keepttl', 0 <= expires → is_i64 expires →
    (∀ mem, kv_step mem (s_clock s) r m = kv_set mem (s_clock s 0%nat) m key val expires cond get keepttl' (default 0 flags)) →
    yields (execSET (str "SET") (s_clock s 0%nat) key val (SetOpts expires (cond_nx cond) (cond_xx cond) get keepttl'
      (default 0 flags) 0 false) s1 c) (answers r s m c)).
  { intros expires keepttl' He Hi Estep.
    destruct (execSET_serves (str "SET") s1 _ m c key val expires cond get keepttl' (default 0 flags) Hs1 Hp Ht HK Hk Hv He Hi Hf)
      as ([] & s' & c' & E & Hc' & mem & Hmem & Hs' & Hc2).
    exists tt, s', c'. split; [exact E|]. exists mem, (s_clock s 0%nat). rewrite Estep. split; [exact Hmem|].
    split; [exact Hs'|]. split; [now rewrite Hc', Hc1|exact Hc2]. }
  assert (Herr : ∀ msg, clean msg → (∀ mem, kv_step mem (s_clock s) r m = (RError msg, m)) →
    yields (error msg s1 c) (answers r s m c)).
  { intros msg Hcl Estep. eapply yields_eq; [reflexivity|].
    apply (answers_intro s m c r true (s_clock s 0%nat) s1 _ (RError msg) m);
      [reflexivity|apply Estep|exact Hs1|now rewrite Hc1|now apply writes_error]. }
  assert (Hxn : cond_xx cond && cond_nx cond = false) by now destruct cond.
  destruct ex as [[u n]|].
  - destruct (n <=? 0) eqn:En.
    { apply Herr; [clean_text|]. intros mem. unfold r. cbn [kv_step]. now rewrite En. }
    zb. destruct (deadline_pos (s_clock s 0%nat) u n Ht En) as [Hd Hdi].
    cbn [st_expires st_keepttl st_xx st_nx]. rewrite (proj2 (Z.ltb_ge _ 0)) by exact Hd. rewrite Hxn, andb_true_r.
    destruct keepttl.
    + apply Herr; [clean_text|]. intros mem. unfold r. cbn [kv_step]. now rewrite (proj2 (Z.leb_gt n 0)).
    + apply Hexec; [exact Hd|exact Hdi|]. intros mem. unfold r. cbn [kv_step]. now rewrite (proj2 (Z.leb_gt n 0)).
  - cbn [st_expires st_keepttl st_xx st_nx Z.ltb Z.compare]. rewrite Hxn, andb_false_r.
    apply Hexec; [lia|vm_compute; split; congruence|reflexivity].
Qed.

Lemma mul_second n : is_i64 n → int64_mul_clamp n SECOND = seconds n.
Proof. intros Hn. apply int64_mul_clamp_spec; [exact Hn|vm_compute; split; congruence]. Qed.

Lemma setex_answers key secs val :
  let r := Setex key secs val in
  c_args c = request_args r → key ∈ K → key_ok key → Z.of_nat (length val) < 2 ^ 64 → is_i64 secs →
  yields (cmdSETEX s c) (answers r s m c).
Proof.
  intros r Hargs HK Hk Hv Hi. unfold cmdSETEX. eapply yields_args; [exact Hargs|]. unfold r. cbn [request_args].
  apply (yields_now s t m Hs). intros s1 Ht Hs1 Hc1. rewrite parse_i64toa_spec by exact Hi. cbn [negb orb].
  destruct (secs <=? 0) eqn:En.
  { eapply yields_eq; [reflexivity|].
    apply (answers_intro s m c _ true (s_clock s 0%nat) s1 _ (RError err_expire) m); [reflexivity| |exact Hs1| |].
    - cbn [kv_step]. now rewrite En.
    - cbn [kv_ticks]. now rewrite En, Hc1.
    - apply writes_error; [exact Hp|clean_text]. }
  zb. eapply yields_bind; [exact (sys_now_serves s1 _ m c Hs1)|].
  intros t2 s2 c2 (-> & -> & Ht2 & _ & Hs2 & Hc2). rewrite mul_second by exact Hi.
  assert (Ecl : s_clock s1 0%nat = s_clock s 1%nat) by now rewrite Hc1. rewrite Ecl in *.
  unfold seconds. rewrite int64_add_clamp_spec by (apply Ht2 || apply is_i64_clamp).
  fold (seconds secs). set (ex := clamp64 (s_clock s 1%nat + _)).
  assert (Hex : 0 <= ex) by (destruct Ht2; unfold ex, seconds, clamp64, INT64_MAX, INT64_MIN, SECOND; lia).
  destruct (execSET_serves (str "SETEX") s2 _ m c key val ex Always false false 0 Hs2 Hp Ht HK Hk Hv Hex
    (is_i64_clamp _) ltac:(vm_compute; split; congruence)) as ([] & s' & c' & E & Hc' & mem & Hmem & Hs' & Hw).
  exists tt, s', c'. split; [exact E|]. exists mem, (s_clock s 0%nat). split; [exact Hmem|].
  cbn [kv_step kv_ticks]. rewrite (proj2 (Z.leb_gt secs 0)) by exact En. split; [exact Hs'|].
  split; [now rewrite Hc', Hc2, Hc1|exact Hw].
Qed.

Lemma expire_answers key secs :
  let r := Expire key secs in
  c_args c = request_args r → key ∈ K → is_i64 secs → yields (cmdEXPIRE s c) (answers r s m c).
Proof.
  intros r Hargs HK Hi. unfold cmdEXPIRE. eapply yields_args; [exact Hargs|]. unfold r. cbn [request_args].
  apply (yields_now s t m Hs). intros s1 Ht Hs1 Hc1. rewrite parse_i64toa_spec by exact Hi. cbn [negb].
  rewrite mul_second by exact Hi. unfold seconds.
  rewrite int64_add_clamp_spec by (apply Ht || apply is_i64_clamp). fold (seconds secs).
  set (ex := clamp64 (_ + _)).
  eapply yields_bind.
  { apply (load_serves s1 _ m c key Hs1 HK Ht (LoadOpts (s_clock s 0%nat) false (Some (expire_entry ex))) tt); [reflexivity|].
    intros cb v u upd u' [= <-] Hv [= <- _]. destruct Hv as (? & ? & ?). split; [easy|]. split; [|easy].
    cbn. pose proof (is_i64_clamp (s_clock s 0%nat + seconds secs)) as Hc. unfold is_i64 in Hc. unfold ex. lia. }
  intros [[st h] u] s2 c2 (-> & m' & [Hs2 Hc2] & Hst). cbn [fst snd lo_entry expire_entry] in Hst.
  eapply yields_eq; [reflexivity|]. rewrite Hp, decide_False by discriminate. rewrite writes_int by exact Hp.
  destruct (kv_get (s_clock s 0%nat) m key) as [x|] eqn:Eg.
  - destruct Hst as (v & (_ & _ & Hval & Hfl & _) & _ & mem & Hmem & Hst).
    apply (answers_intro s m c _ mem (s_clock s 0%nat) s2 _ (if mem then RInt 1 else RInt 0) m'); [exact Hmem| |exact Hs2|now rewrite Hc2, Hc1|].
    + cbn [kv_step]. rewrite Eg. destruct mem; destruct Hst as [_ ->]; [|reflexivity].
      cbn [u_value u_flags u_expires]. now rewrite Hval, Hfl.
    + destruct mem; destruct Hst as [-> _]; reflexivity.
  - destruct Hst as (-> & _ & ->).
    apply (answers_intro s m c _ true (s_clock s 0%nat) s2 _ (RInt 0) m); [reflexivity| |exact Hs2|now rewrite Hc2, Hc1|reflexivity].
    cbn [kv_step]. now rewrite Eg.
Qed.

Lemma mget_answers key keys :
  let r := Mget key keys in
  c_args c = request_args r → Forall (λ key, key ∈ K) (key :: keys) → yields (cmdMGET s c) (answers r s m c).
Proof.
  intros r Hargs HK. unfold cmdMGET. eapply yields_args; [exact Hargs|]. unfold r. cbn [request_args].
  apply (yields_now s t m Hs). intros s1 Ht Hs1 Hc1. apply yields_proto; [exact Hp|].
  change (argeq_bytes (str "MGET") (str "mgets")) with false.
  change (drop 1 (str "MGET" :: key :: keys)) with (key :: keys). apply yields_reply.
  set (c1 := conn_write_array c _).
  assert (E1 : c1 = set_out c (c_out c ++ 42 :: u64toa (nargs (key :: keys)) ++ crlf)).
  { unfold c1, conn_write_array. rewrite writeln_line, line_clean; [reflexivity|]. apply u64toa_clean. unfold nargs. lia. }
  assert (Hp1 : c_proto c1 = PROTO_RESP) by (rewrite E1; exact Hp). clearbody c1.
  eapply yields_bind; [apply (mget_loop_serves _ Ht _ (key :: keys) s1 m c1 0 eq_refl Hs1 Hp1 HK)|].
  intros n s2 c2 (Hs2 & Hc2 & ->). eapply yields_eq; [reflexivity|].
  apply (answers_intro s m c _ true (s_clock s 0%nat) s2 _
    (RArray ((λ key, i_val <$> kv_get (s_clock s 0%nat) m key) <$> key :: keys)) m);
    [reflexivity|reflexivity|exact Hs2|now rewrite Hc2, Hc1|].
  rewrite E1. unfold writes. cbn [c_out set_out reply_bytes]. rewrite length_fmap, <- app_assoc.
  cbn [app]. rewrite <- app_assoc. reflexivity.
Qed.

Lemma del_answers key keys :
  let r := Del key keys in
  c_args c = request_args r → Forall (λ key, key ∈ K) (key :: keys) → yields (cmdDEL s c) (answers r s m c).
Proof.
  intros r Hargs HK. unfold cmdDEL. eapply yields_args; [exact Hargs|]. unfold r. cbn [request_args].
  apply (yields_now s t m Hs). intros s1 Ht Hs1 Hc1.
  change (drop 1 (str "DEL" :: key :: keys)) with (key :: keys).
  eapply yields_bind; [apply (del_loop_serves _ Ht (key :: keys) s1 m c 0 Hs1 HK)|].
  intros n s2 c2 (-> & Hc2 & Hs2 & ->). eapply yields_eq; [reflexivity|]. rewrite Hp.
  destruct (kv_del (s_clock s 0%nat) m (key :: keys)) as [n m'] eqn:Ed.
  apply (answers_intro s m c _ true (s_clock s 0%nat) s2 _ (RInt n) m');
    [reflexivity|cbn [kv_step]; now rewrite Ed|exact Hs2|now rewrite Hc2, Hc1|now apply writes_int].
Qed.

Lemma exists_answers key keys :
  let r := Exists key keys in
  c_args c = request_args r → Forall (λ key, key ∈ K) (key :: keys) → yields (cmdEXISTS s c) (answers r s m c).
Proof.
  intros r Hargs HK. unfold cmdEXISTS. eapply yields_args; [exact Hargs|]. unfold r. cbn [request_args].
  apply (yields_now s t m Hs). intros s1 Ht Hs1 Hc1.
  change (drop 1 (str "EXISTS" :: key :: keys)) with (key :: keys).
  eapply yields_bind; [apply (count_loop_serves _ Ht true (key :: keys) s1 m c 0 Hs1 HK)|].
  intros n s2 c2 (-> & Hc2 & Hs2 & ->). eapply yields_eq; [reflexivity|]. rewrite Hp, decide_False by discriminate.
  apply (answers_intro s m c _ true (s_clock s 0%nat) s2 _ (RInt (kv_count (s_clock s 0%nat) m (key :: keys))) m);
    [reflexivity|reflexivity|exact Hs2|now rewrite Hc2, Hc1|now apply writes_int].
Qed.

Lemma touch_answers key keys :
  let r := Touch key keys in
  c_args c = request_args r → Forall (λ key, key ∈ K) (key :: keys) → yields (cmdTOUCH s c) (answers r s m c).
Proof.
  intros r Hargs HK. unfold cmdTOUCH. eapply yields_args; [exact Hargs|]. unfold r. cbn [request_args].
  apply (yields_now s t m Hs). intros s1 Ht Hs1 Hc1.
  change (drop 1 (str "TOUCH" :: key :: keys)) with (key :: keys).
  eapply yields_bind; [apply (count_loop_serves _ Ht false (key :: keys) s1 m c 0 Hs1 HK)|].
  intros n s2 c2 (-> & Hc2 & Hs2 & ->). eapply yields_eq; [reflexivity|]. rewrite Hp, decide_False by discriminate.
  apply (answers_intro s m c _ true (s_clock s 0%nat) s2 _ (RInt (kv_count (s_clock s 0%nat) m (key :: keys))) m);
    [reflexivity|reflexivity|exact Hs2|now rewrite Hc2, Hc1|now apply writes_int].
Qed.
End Commands2.
End Serves.
