(* ===== verification/KvBatch.v ===== *)
(** * KvBatch: the commands that load and store under one lock

    INCR, DECR, APPEND and PREPEND begin a batch, load the value, store the new
    one through the batch and end it; the shard stays locked in between. *)

From S2P Require Import Prelude Util Context Entry Heap Map MapInv MapSpec Shard ShardInv ShardSpec ShardOps ShardStore.
From S2P Require Import Samples ShardTheorems Cache Locks CacheInv CacheOps CacheTheorems.
From S2P Require Import Resp RespProofs Memcache Http Parse Conn ConnProofs Cmds CmdTable CmdFrame Server Kv KvRel KvCmds.

#[local] Opaque th64 hash24 encode entry_memsize.

(** The relation does not depend on who holds the locks. *)
Lemma kv_rel_locks (K : gset bytes) (B : nat) (k k' : cache_t) (w : world) (Ms : list content) (t : Z) (m : kv) :
  c_ctx k' = c_ctx k → c_shards k' = c_shards k → length (c_locks k') = length (c_locks k) →
  kv_rel K B k w Ms t m → kv_rel K B k' w Ms t m.
Proof.
  intros Ec Es El [H1 H2 H3 H4 H5 H7 H6]. destruct H1 as [A1 A2 A3 A4 A5 A6 A7 A8].
  split; [split| |exact H3| |exact H5|exact H7|]; unfold key_shard in *; rewrite ?Ec, ?Es, ?El; assumption.
Qed.

(** ** The locks of a batch that holds one shard *)

(** Shard [i] is locked by the batch at [addr], the others are free. *)
Definition held (k : cache_t) (i addr : Z) : Prop :=
  lock_get k i = Some (Lock addr no_shard) ∧
  ∀ j l, j ≠ i → lock_get k j = Some l → lk_word l = 0.

Definition holding_batch (cfg : config) (i : Z) : batch_t := Batch (g_thbatch cfg) i 0 (g_overlay cfg).

Section Held.
Context (cfg : config) (Hcfg : 0 < g_thbatch cfg < UINTPTR_MAX).

Lemma lock_effect_first k k' i h' :
  unlocked k → 0 <= i < Z.of_nat (length (c_locks k)) →
  (h', c_locks k') = lock_effect (InBatch (holding_batch cfg no_shard)) i (c_locks k) →
  h' = InBatch (holding_batch cfg i) ∧ held k' i (g_thbatch cfg) ∧ length (c_locks k') = length (c_locks k).
Proof.
  intros Hu Hi E. destruct (lookup_lt_is_Some_2 (c_locks k) (Z.to_nat i)) as [l Hl]; [lia|].
  assert (Hw : lk_word l = 0).
  { apply (Hu i). unfold lock_get. now rewrite (proj2 (Z.ltb_ge i 0)) by lia. }
  unfold lock_effect in E. rewrite Hl, Hw in E. cbn in E. injection E as -> El. split; [reflexivity|].
  split; [|rewrite El; apply length_insert]. split.
  - unfold lock_get. rewrite (proj2 (Z.ltb_ge i 0)) by lia. rewrite El. apply list_lookup_insert_eq. lia.
  - intros j l'. unfold lock_get. intros Hj. destruct (j <? 0) eqn:Ej; zb; [discriminate|].
    rewrite El, list_lookup_insert_ne by lia. intros Hl'. apply (Hu j). unfold lock_get.
    now rewrite (proj2 (Z.ltb_ge j 0)).
Qed.

Lemma held_available k i : held k i (g_thbatch cfg) → available (InBatch (holding_batch cfg i)) k i.
Proof. intros [Hl _]. exists (Lock (g_thbatch cfg) no_shard). split; [exact Hl|]. now right. Qed.

Lemma lock_effect_again k k' i h' :
  held k i (g_thbatch cfg) →
  (h', c_locks k') = lock_effect (InBatch (holding_batch cfg i)) i (c_locks k) →
  h' = InBatch (holding_batch cfg i) ∧ held k' i (g_thbatch cfg) ∧ length (c_locks k') = length (c_locks k).
Proof.
  intros Hh E. pose proof Hh as [Hl Ho].
  assert (E2 : (h', c_locks k') = (InBatch (holding_batch cfg i), c_locks k)).
  { rewrite E. unfold lock_effect. destruct (c_locks k !! Z.to_nat i) as [l|] eqn:El; [|reflexivity].
    unfold lock_get in Hl. destruct (i <? 0); [discriminate|]. rewrite El in Hl. injection Hl as ->.
    cbn [lk_word]. now rewrite (proj2 (Z.eqb_neq _ 0)) by lia. }
  injection E2 as -> El. split; [reflexivity|]. split; [|now rewrite El].
  unfold held, lock_get in *. now rewrite El.
Qed.

Lemma held_end k i :
  held k i (g_thbatch cfg) → ∃ k', pogocache_end (holding_batch cfg i) k = Some k' ∧
    c_ctx k' = c_ctx k ∧ c_shards k' = c_shards k ∧ length (c_locks k') = length (c_locks k) ∧ unlocked k'.
Proof.
  intros [Hl Ho]. destruct (end_spec k (holding_batch cfg i) [i]) as (k' & H1 & H2 & H3 & H4 & H5).
  - split; [exact Hcfg|apply NoDup_singleton| |].
    + cbn. split; [reflexivity|]. now exists (Lock (g_thbatch cfg) no_shard).
    + intros j l Hj Hw. destruct (decide (j = i)) as [->|Hne]; [constructor|].
      specialize (Ho j l Hne Hj). cbn in Hw. lia.
  - exists k'. do 4 (split; [assumption|]). intros j l. rewrite H5. destruct (decide (j ∈ [i])) as [Hj|Hj].
    + now intros [= <-].
    + apply Ho. intros ->. apply Hj. constructor.
Qed.
End Held.

(** ** Loads and stores through the batch *)

Section Batch.
Context `{Env} `{!EnvOk _} (K : gset bytes) (B : nat) (cfg : config).
Context (Hcfg : 0 < g_thbatch cfg < UINTPTR_MAX).

(** The server while the batch holds the shard of [key]. *)
Record holding (key : bytes) (s : server) (t : Z) (m : kv) : Prop := {
  hd_rel : ∃ Ms, kv_rel K B (s_cache s) (s_world s) Ms t m;
  hd_held : held (s_cache s) (home (c_ctx (s_cache s)) key) (g_thbatch cfg);
  hd_lowmem : s_lowmem s = false;
  hd_batch : usethreadbatch (c_ctx (s_cache s)) = true;
  hd_clock : clock_ok t (s_clock s)
}.

Definition batch_of (s : server) (key : bytes) : handle :=
  InBatch (holding_batch cfg (home (c_ctx (s_cache s)) key)).

Context (s : server) (t : Z) (m : kv) (c : conn job) (key : bytes) (HK : key ∈ K) (Ht : good_time t).

Lemma yields_begin {A} (f : handle → cmd A) P :
  serves K B s t m → yields (f (InBatch (holding_batch cfg no_shard)) s c) P →
  yields ((begin_batch cfg ≫= f) s c) P.
Proof.
  intros [_ _ _ Hb _] Hf. unfold begin_batch, pogocache_begin, mbind, cmd_bind. rewrite Hb.
  destruct s. exact Hf.
Qed.

Lemma batch_load_serves {U : Type} (opts : load_opts U) (u : U) :
  serves K B s t m → lo_time opts = t → (∀ cb v u, lo_entry opts = Some cb → (cb v u).1 = None) →
  yields (load (InBatch (holding_batch cfg no_shard)) key opts u s c) (λ r s' c', c' = c ∧
    r.1.2 = batch_of s' key ∧ holding key s' t m ∧ s_clock s' = s_clock s ∧
    match kv_get t m key with
    | None => r.1.1 = POGOCACHE_NOTFOUND ∧ r.2 = u
    | Some x =>
        r.1.1 = POGOCACHE_FOUND ∧
        match lo_entry opts with
        | None => r.2 = u
        | Some cb => ∃ v, shows v t key x ∧ r.2 = (cb v u).2
        end
    end).
Proof.
  intros Hs Hlt Hcb. pose proof Hs as [[Ms Hr] Hu Hlow Hb Hc]. unfold load.
  assert (Hok : load_cb_ok opts).
  { intros cb v u0 upd u' Hcbe _ E. specialize (Hcb cb v u0 Hcbe). rewrite E in Hcb. discriminate Hcb. }
  pose proof (kr_ok _ _ _ _ _ _ _ Hr) as Hcok.
  destruct (load_kv K B (s_cache s) (s_world s) Ms t m key (InBatch (holding_batch cfg no_shard)) (s_clock s 0%nat) u Hr
    (unlocked_available_key K B s t m key _ Hs) HK Ht opts Hlt Hok)
    as (st & h' & k' & w' & u' & Ms' & m' & -> & Hr' & Ec & Hlk & HQ).
  assert (Hrange : 0 <= home (c_ctx (s_cache s)) key < Z.of_nat (length (c_locks (s_cache s)))).
  { rewrite (co_locks _ _ _ Hcok), (co_shards _ _ _ Hcok). apply home_bound, (co_nshards _ _ _ Hcok). }
  destruct (lock_effect_first cfg (s_cache s) k' _ h' Hu Hrange Hlk) as (-> & Hh & Hlen).
  eexists _, _, _. split; [reflexivity|]. split; [reflexivity|]. cbn [fst snd].
  unfold batch_of. cbn [s_cache set_cache]. rewrite Ec. split; [reflexivity|].
  assert (Hhold : m' = m → holding key (set_cache s k' w') t m).
  { intros ->. split; [now exists Ms'|cbn; now rewrite Ec|exact Hlow|cbn; now rewrite Ec|exact Hc]. }
  destruct (kv_get t m key) as [x|].
  2: { destruct HQ as (-> & -> & Em). split; [exact (Hhold Em)|]. split; [reflexivity|]. split; reflexivity. }
  destruct (lo_entry opts) as [cb|] eqn:Ecb.
  2: { destruct HQ as (-> & -> & Em). split; [exact (Hhold Em)|]. split; [reflexivity|]. split; reflexivity. }
  destruct HQ as (v & Hv & HQ). specialize (Hcb cb v u eq_refl).
  destruct (cb v u) as [[upd|] u2] eqn:E; [discriminate Hcb|]. destruct HQ as (-> & -> & Em).
  split; [exact (Hhold Em)|]. split; [reflexivity|]. split; [reflexivity|]. exists v. rewrite E. split; [exact Hv|reflexivity].
Qed.

Lemma batch_store_serves val expires flags cas :
  holding key s t m → key_ok key → Z.of_nat (length val) < 2 ^ 64 → 0 <= expires → is_i64 expires → is_u32 flags →
  yields (store (batch_of s key) key val
      (StoreOpts t expires 0 cas flags false false false false false (None : option (view → unit → bool * unit))) tt s c)
    (λ r s' c', c' = c ∧ r.1.2 = batch_of s' key ∧ s_clock s' = s_clock s ∧
       ∃ mem : bool, (memory_for B → mem = true) ∧
       if mem then (r.1.1 = POGOCACHE_INSERTED ∨ r.1.1 = POGOCACHE_REPLACED) ∧
         holding key s' t (kv_put m key val flags expires)
       else r.1.1 = POGOCACHE_NOMEM ∧ holding key s' t m).
Proof.
  intros [[Ms Hr] Hh Hlow Hb Hc] Hk Hv He Hi Hf. unfold store. set (opts := StoreOpts _ _ _ _ _ _ _ _ _ _ _).
  destruct (store_kv K B (s_cache s) (s_world s) Ms t m key (batch_of s key) (s_clock s 0%nat) tt Hr
    (held_available cfg _ _ Hh) HK Ht val opts eq_refl eq_refl eq_refl
    ltac:(repeat split; cbn; (apply Hi || apply Hf || lia)) Hk Hv)
    as (st & h' & k' & w' & u' & Ms' & m' & -> & Hr' & Ec & Hlk & mem & Hmem & HQ).
  destruct (lock_effect_again cfg Hcfg (s_cache s) k' _ h' Hh Hlk) as (-> & Hh' & Hlen).
  eexists _, _, _. split; [reflexivity|]. split; [reflexivity|]. cbn [fst snd].
  unfold batch_of. cbn [s_cache set_cache]. rewrite Ec. split; [reflexivity|]. split; [reflexivity|].
  exists mem. split; [exact Hmem|].
  assert (Hhold : holding key (set_cache s k' w') t m').
  { split; [now exists Ms'|cbn; now rewrite Ec|exact Hlow|cbn; now rewrite Ec|exact Hc]. }
  assert (Ed : ∀ cur, store_deadline t opts cur = expires).
  { intros cur. unfold store_deadline, opts. cbn. destruct (0 <? expires) eqn:E; zb; destruct cur; lia. }
  cbn [so_flags so_xx so_nx so_entry opts] in HQ. rewrite Ed in HQ.
  destruct mem; cbn [negb] in HQ; [|destruct HQ as (-> & _ & ->); split; [reflexivity|exact Hhold]].
  destruct (kv_get t m key) as [x|].
  - destruct HQ as (v & _ & _ & -> & ->). split; [now right|exact Hhold].
  - destruct HQ as (-> & _ & ->). split; [now left|exact Hhold].
Qed.

Lemma batch_end_serves :
  holding key s t m → yields (end_batch (batch_of s key) s c) (λ _ s' c', c' = c ∧
    serves K B s' t m ∧ s_clock s' = s_clock s).
Proof.
  intros [[Ms Hr] Hh Hlow Hb Hc]. destruct (held_end cfg Hcfg _ _ Hh) as (k' & E & Ec & Es & El & Hu).
  unfold end_batch, batch_of. rewrite E. eexists _, _, _. split; [reflexivity|]. split; [reflexivity|].
  split; [|reflexivity]. split; [exists Ms|exact Hu|exact Hlow|cbn; now rewrite Ec|exact Hc].
  now apply (kv_rel_locks K B (s_cache s)).
Qed.
End Batch.

(** ** INCR, DECR, APPEND, PREPEND *)

Lemma length_digits fuel : ∀ x, (length (u64_digits fuel x) <= fuel)%nat.
Proof.
  induction fuel as [|fuel IH]; intros x; cbn [u64_digits length]; [lia|].
  destruct (_ <? _); cbn [length]; [specialize (IH (x / 10)); lia|lia].
Qed.

Lemma number_short unsigned x : Z.of_nat (length (number unsigned x)) < 2 ^ 64.
Proof.
  assert (Hu : ∀ y, (length (u64toa y) <= 20)%nat).
  { intros y. unfold u64toa. destruct (_ <? _); [cbn; lia|]. rewrite length_rev. apply length_digits. }
  unfold number, i64toa. destruct unsigned, (x <? 0); cbn [length]; specialize (Hu x) as H1;
    specialize (Hu (u64 (i64 (x * -1)))) as H2; lia.
Qed.

Lemma delta_in_range (unsigned decr : bool) (x d : Z) :
  let y := if decr then x - d else x + d in
  (delta_overflow unsigned decr x d).1 = negb (in_range unsigned y) ∧
  (in_range unsigned y = true → (delta_overflow unsigned decr x d).2 = y ∧ (unsigned = true → 0 <= y)).
Proof.
  cbv zeta. unfold delta_overflow, in_range. set (y := if decr then _ else _). destruct unsigned; cbn [fst snd].
  - split; [reflexivity|]. intros [H1 H2]%andb_true_iff. zb. split; [|easy]. unfold u64. rewrite Z.mod_small; lia.
  - split; [reflexivity|]. intros [H1 H2]%andb_true_iff. zb. split; [|easy].
    unfold INT64_MIN, INT64_MAX in *. apply i64_id. unfold is_i64. lia.
Qed.

Section BatchCommands.
Context `{Env} `{!EnvOk _} (K : gset bytes) (B : nat) (cfg : config).
Context (Hcfg : 0 < g_thbatch cfg < UINTPTR_MAX).
Context (s : server) (t : Z) (m : kv) (c : conn job).
Context (Hs : serves K B s t m) (Hp : c_proto c = PROTO_RESP).

(** The end of a batch command: the reply is written and the batch ends. *)
Lemma batch_reply key s1 t1 m1 c1 (g : conn job → conn job) (P : unit → server → conn job → Prop) :
  holding K B cfg key s1 t1 m1 →
  (∀ s', serves K B s' t1 m1 → s_clock s' = s_clock s1 → P tt s' (g c1)) →
  yields ((reply g;; end_batch (batch_of cfg s1 key)) s1 c1) P.
Proof.
  intros Hh HP. apply yields_reply.
  destruct (batch_end_serves K B cfg Hcfg s1 t1 m1 (g c1) key Hh) as ([] & s' & c' & E & -> & Hs' & Hc).
  exists tt, s', (g c1). split; [exact E|]. now apply HP.
Qed.

Lemma execINCRDECR_answers uns decr key by_ cmdname :
  let r := Incr uns decr key by_ in
  key ∈ K → key_ok key →
  yields (execINCRDECR cfg key (default 1 by_) decr uns cmdname s c) (answers K B r s m c).
Proof.
  intros r HK Hk. unfold execINCRDECR. set (d := default 1 by_).
  apply (yields_now K B s t m Hs). intros s1 Ht Hs1 Hc1. set (now := s_clock s 0%nat) in *.
  apply (yields_begin K B cfg s1 now m c); [exact Hs1|].
  eapply yields_bind.
  { apply (batch_load_serves K B cfg s1 now m c key HK Ht (LoadOpts now false (Some (get64 uns))) (Get64 false 0 0 0 0) Hs1 eq_refl).
    intros cb v u [= <-]. unfold get64. now destruct (if uns then _ else _). }
  intros [[st h] g] s2 c2 (-> & Hh & Hhold & Hc2 & Hst). cbn [fst snd lo_entry] in Hh, Hst. subst h.
  apply yields_proto; [exact Hp|]. rewrite (bool_decide_false (PROTO_RESP = PROTO_MEMCACHE)) by discriminate.
  rewrite andb_false_r. cbn [negb].
  (* What the load found, as [kv_incr] has it. *)
  set (cur := kv_get now m key) in *.
  assert (Hg : ∃ ok x,
    match cur with
    | None => (true, 0)
    | Some x => if uns then parse_u64 (i_val x) else parse_i64 (i_val x)
    end = (ok, x) ∧ (st =? POGOCACHE_FOUND) && negb (g_ok g) = negb ok ∧ g_val g = x ∧
    g_expires g = match cur with Some x => i_expires x | None => 0 end ∧
    g_flags g = match cur with Some x => i_flags x | None => 0 end ∧
    0 <= g_expires g ∧ is_i64 (g_expires g) ∧ is_u32 (g_flags g)).
  { destruct cur as [x|].
    - destruct Hst as (-> & v & (_ & _ & Ev & Ef & Ee & Hvo) & ->). unfold get64. rewrite Ev.
      destruct (if uns then parse_u64 (i_val x) else parse_i64 (i_val x)) as [ok y]. exists ok, y.
      cbn [g_ok g_val g_expires g_flags snd]. rewrite Ef, Ee in *. destruct Hvo as (_ & Hve & Hvf).
      rewrite Ee in Hve. rewrite Ef in Hvf. unfold is_i64. split; [reflexivity|]. split; [reflexivity|].
      do 3 (split; [reflexivity|]). split; [lia|]. split; [lia|exact Hvf].
    - destruct Hst as (-> & ->). exists true, 0. cbn [g_ok g_val g_expires g_flags].
      do 5 (split; [reflexivity|]). split; [lia|]. split; vm_compute; split; congruence. }
  destruct Hg as (ok & x & Ecur & Eok & Ex & Ee & Ef & Hge & Hgi & Hgf). rewrite Eok.
  assert (Hclock : ∀ s', s_clock s' = s_clock s2 → s_clock s' = shift (kv_ticks r) (s_clock s)).
  { intros s' ->. now rewrite Hc2, Hc1. }
  assert (Estep : ∀ mem, kv_step mem (s_clock s) r m = kv_incr mem uns decr now m key d) by reflexivity.
  unfold kv_incr in Estep. fold cur in Estep. rewrite Ecur in Estep.
  destruct ok; cbn [negb] in *.
  2: { rewrite decide_False by discriminate.
       apply (batch_reply key s2 now m c _ _ Hhold). intros s' Hs' Hc'.
       apply (answers_intro K B s m c r true now s' _ (RError ERR_INVALID_INTEGER) m);
         [reflexivity|apply Estep|exact Hs'|now apply Hclock|apply writes_error; [exact Hp|clean_text]]. }
  rewrite Ex. set (y := if decr then x - d else x + d) in *.
  destruct (delta_in_range uns decr x d) as [Eov Ey]. fold y in Eov, Ey.
  destruct (delta_overflow uns decr x d) as [ov y']. cbn [fst snd] in Eov, Ey. rewrite Eov, andb_true_r.
  destruct (in_range uns y); cbn [negb] in *.
  2: { apply (batch_reply key s2 now m c _ _ Hhold). intros s' Hs' Hc'.
       eapply (answers_intro K B s m c r true now s'); [reflexivity|apply Estep|exact Hs'|now apply Hclock|].
       apply writes_error; [exact Hp|clean_text]. }
  destruct (Ey eq_refl) as [-> Hy]. fold (number uns y).
  eapply yields_bind.
  { apply (batch_store_serves K B cfg Hcfg s2 now m c key HK Ht (number uns y) (g_expires g) (g_flags g) (g_cas g) Hhold Hk
      (number_short uns y) Hge Hgi Hgf). }
  intros [[st2 h] u] s3 c3 (-> & Hh & Hc3 & mem & Hmem & Hst2). cbn [fst snd] in Hh, Hst2. subst h.
  specialize (Estep mem). destruct mem; cbn [negb] in Estep.
  - destruct Hst2 as [Hst2 Hhold3].
    assert ((st2 =? POGOCACHE_NOMEM) = false) as -> by now destruct Hst2 as [->| ->].
    assert ((st2 =? POGOCACHE_INSERTED) || (st2 =? POGOCACHE_REPLACED) = true) as -> by now destruct Hst2 as [->| ->].
    cbn [negb]. rewrite decide_False by discriminate.
    destruct uns; apply (batch_reply key s3 now _ c _ _ Hhold3); intros s' Hs' Hc';
      (eapply (answers_intro K B s m c r true now s');
        [exact Hmem|exact Estep| |rewrite Hclock; [reflexivity|now rewrite Hc']|]).
    all: rewrite <- ?Ee, <- ?Ef; try exact Hs'.
    + apply writes_uint; [exact Hp|now apply Hy].
    + now apply writes_int.
  - destruct Hst2 as [-> Hhold3].
    apply (batch_reply key s3 now _ c _ _ Hhold3); intros s' Hs' Hc'.
    eapply (answers_intro K B s m c r false now s'); [exact Hmem|exact Estep|exact Hs'|rewrite Hclock; [reflexivity|now rewrite Hc']|].
    apply writes_error; [exact Hp|clean_text].
Qed.

(** The command a request runs, with the name it reports. *)
Definition incr_command (decr byarg : bool) : cmd unit :=
  if byarg then (if decr then cmdDECRBY cfg else cmdINCRBY cfg) else (if decr then cmdDECR cfg else cmdINCR cfg).

Lemma incr_answers uns decr key by_ :
  let r := Incr uns decr key by_ in
  c_args c = request_args r → key ∈ K → key_ok key →
  (∀ d, by_ = Some d → if uns then is_u64 d else is_i64 d) →
  yields (incr_command decr (bool_decide (is_Some by_)) s c) (answers K B r s m c).
Proof.
  intros r Hargs HK Hk Hd. unfold incr_command.
  assert (Hname : ∀ byarg, is_unsigned_name (incr_name uns decr byarg) = mret uns)
    by (intros byarg; destruct uns, decr, byarg; reflexivity).
  destruct by_ as [d|]; [rewrite bool_decide_true by eauto|rewrite bool_decide_false by (intros []%is_Some_None)].
  - assert (Hby : yields (cmdINCRDECRBY cfg decr (if decr then str "DECRBY" else str "INCRBY") s c) (answers K B r s m c)).
    { unfold cmdINCRDECRBY. eapply yields_args; [exact Hargs|]. cbn [r request_args]. rewrite Hname.
      change (mret uns ≫= ?f) with (f uns). cbv beta.
      assert ((if uns then parse_u64 (number uns d) else parse_i64 (number uns d)) = (true, d)) as ->.
      { specialize (Hd d eq_refl). unfold number. destruct uns; [now apply parse_u64toa_spec|now apply parse_i64toa_spec]. }
      cbn [negb]. exact (execINCRDECR_answers uns decr key (Some d) _ HK Hk). }
    destruct decr; exact Hby.
  - assert (Hby : yields (incr_or_decr cfg decr (if decr then str "DECR" else str "INCR") s c) (answers K B r s m c)).
    { unfold incr_or_decr. eapply yields_args; [exact Hargs|]. cbn [r request_args]. rewrite Hname.
      change (mret uns ≫= ?f) with (f uns). cbv beta. exact (execINCRDECR_answers uns decr key None _ HK Hk). }
    destruct decr; exact Hby.
Qed.

Lemma append_answers prepend key val :
  let r := Append prepend key val in
  c_args c = request_args r → key ∈ K → key_ok key → size val <= MAXARGSZ →
  yields (cmdAPPEND cfg s c) (answers K B r s m c).
Proof.
  intros r Hargs HK Hk Hv. unfold cmdAPPEND.
  apply (yields_now K B s t m Hs). intros s1 Ht Hs1 Hc1. set (now := s_clock s 0%nat) in *.
  eapply yields_args; [exact Hargs|]. cbn [r request_args].
  assert (argeq_bytes (if prepend then str "PREPEND" else str "APPEND") (str "prepend") = prepend) as ->
    by now destruct prepend.
  apply (yields_begin K B cfg s1 now m c); [exact Hs1|].
  eapply yields_bind.
  { apply (batch_load_serves K B cfg s1 now m c key HK Ht (LoadOpts now false (Some (append_entry prepend val)))
      (AppendCtx [] 0 0) Hs1 eq_refl). intros cb v u [= <-]. reflexivity. }
  intros [[st h] g] s2 c2 (-> & Hh & Hhold & Hc2 & Hst). cbn [fst snd lo_entry] in Hh, Hst. subst h.
  apply yields_proto; [exact Hp|]. rewrite (bool_decide_false (PROTO_RESP = PROTO_MEMCACHE)) by discriminate.
  rewrite andb_false_r.
  assert (Hclock : ∀ s', s_clock s' = s_clock s2 → s_clock s' = shift (kv_ticks r) (s_clock s)).
  { intros s' ->. now rewrite Hc2, Hc1. }
  assert (Estep : ∀ mem, kv_step mem (s_clock s) r m = kv_append mem prepend now m key val) by reflexivity.
  unfold kv_append in Estep.
  (* The store and the reply, for the value [val'] that is stored. *)
  assert (Hstore : ∀ val' expires flags,
    size val' <= MAXARGSZ → 0 <= expires → is_i64 expires → is_u32 flags →
    (∀ mem, kv_step mem (s_clock s) r m =
       if negb mem then (out_of_memory, m) else (RInt (size val'), kv_put m key val' flags expires)) →
    yields (('(status, batch, _) ← store (batch_of cfg s2 key) key val' (append_opts now expires flags) tt;
        (if status =? POGOCACHE_NOMEM then error ERR_OUT_OF_MEMORY
         else if negb ((status =? POGOCACHE_INSERTED) || (status =? POGOCACHE_REPLACED)) then fail
         else
           reply (λ c, match PROTO_RESP with
                       | PROTO_POSTGRES =>
                           pg_done ((if prepend then str "PREPEND " else str "APPEND ") ++
                                    u64toa (size val')) c
                       | PROTO_MEMCACHE => conn_write_raw_cstr c (str "STORED" ++ crlf)
                       | _ => conn_write_int c (size val')
                       end));;
        end_batch batch) s2 c) (answers K B r s m c)).
  { intros val' expires flags Hsz He Hi Hf Est.
    eapply yields_bind.
    { apply (batch_store_serves K B cfg Hcfg s2 now m c key HK Ht val' expires flags 0 Hhold Hk); try assumption.
      unfold size, MAXARGSZ in Hsz. lia. }
    intros [[st2 h] u] s3 c3 (-> & Hh & Hc3 & mem & Hmem & Hst2). cbn [fst snd] in Hh, Hst2. subst h.
    specialize (Est mem). destruct mem; cbn [negb] in Est.
    - destruct Hst2 as [Hst2 Hhold3].
      assert ((st2 =? POGOCACHE_NOMEM) = false) as -> by now destruct Hst2 as [->| ->].
      assert ((st2 =? POGOCACHE_INSERTED) || (st2 =? POGOCACHE_REPLACED) = true) as -> by now destruct Hst2 as [->| ->].
      cbn [negb]. apply (batch_reply key s3 now _ c _ _ Hhold3). intros s' Hs' Hc'.
      eapply (answers_intro K B s m c r true now s'); [exact Hmem|exact Est|exact Hs'|rewrite Hclock; [reflexivity|now rewrite Hc']|].
      now apply writes_int.
    - destruct Hst2 as [-> Hhold3].
      apply (batch_reply key s3 now _ c _ _ Hhold3); intros s' Hs' Hc'.
      eapply (answers_intro K B s m c r false now s'); [exact Hmem|exact Est|exact Hs'|rewrite Hclock; [reflexivity|now rewrite Hc']|].
      apply writes_error; [exact Hp|clean_text]. }
  destruct (kv_get now m key) as [x|].
  - destruct Hst as (-> & v & (_ & _ & Ev & Ef & Ee & Hvo) & ->). cbn [append_entry snd ap_out ap_expires ap_flags].
    change (POGOCACHE_FOUND =? POGOCACHE_NOTFOUND) with false. cbn [negb andb].
    rewrite Ev, Ef, Ee. destruct Hvo as (_ & Hve & Hvf). rewrite Ee in Hve. rewrite Ef in Hvf.
    set (joined := if prepend then val ++ i_val x else i_val x ++ val) in *.
    destruct (MAXARGSZ <? size joined) eqn:Esz; zb.
    + apply (batch_reply key s2 now m c _ _ Hhold). intros s' Hs' Hc'.
      eapply (answers_intro K B s m c r true now s'); [reflexivity|exact (Estep true)|exact Hs'|now apply Hclock|].
      apply writes_error; [exact Hp|clean_text].
    + apply Hstore; [exact Esz|lia|unfold is_i64; lia|exact Hvf|exact Estep].
  - destruct Hst as (-> & ->). change (POGOCACHE_NOTFOUND =? POGOCACHE_NOTFOUND) with true. cbn [negb andb].
    apply Hstore; [exact Hv|lia|vm_compute; split; congruence|vm_compute; split; congruence|exact Estep].
Qed.
End BatchCommands.
