(* ===== verification/KvServer.v ===== *)
(** * KvServer: the server is a key-value store

    The refinement theorem of the whole server: whatever session of requests a
    Redis client sends, cut into packets in any way, the bytes it reads are the
    replies of the key-value store of [Kv.v], one per request and in order. *)

From S2P Require Import Prelude Util Context Entry Heap Map MapInv MapSpec Shard ShardInv ShardSpec ShardOps ShardStore.
From S2P Require Import Samples ShardTheorems Cache Locks CacheInv CacheOps CacheTheorems.
From S2P Require Import Resp RespProofs Memcache Http Parse Conn ConnProofs Cmds CmdTable CmdFrame Server.
From S2P Require Import Postgres Debug Kv KvRel KvCmds KvBatch.

#[local] Opaque th64 hash24 encode entry_memsize.

(** What a client may send: keys of [K], and numbers of the widths of the code. *)
Definition request_ok (K : gset bytes) (r : request) : Prop :=
  Forall (λ key, key ∈ K ∧ key_ok key) (request_keys r) ∧
  nargs (request_args r) <= MAXARGS ∧ Forall arg_fits (request_args r) ∧
  match r with
  | Set_ _ _ ex _ _ _ flags => (∀ u n, ex = Some (u, n) → is_i64 n) ∧ is_u32 (default 0 flags)
  | Setex _ secs _ | Expire _ secs => is_i64 secs
  | Incr unsigned _ _ (Some d) => if unsigned then is_u64 d else is_i64 d
  | _ => True
  end.

Section Sessions.
Context `{Env} `{!EnvOk _} (K : gset bytes) (B : nat) (cfg : config) (cmdDEBUG cmdSTATS : cmd unit).
Context (Hcfg : 0 < g_thbatch cfg < UINTPTR_MAX).

Lemma fits_length (v : bytes) : arg_fits v → Z.of_nat (length v) < 2 ^ 64.
Proof. unfold arg_fits, size, MAXARGSZ. lia. Qed.

(** Finds the command of a name that is known. *)
Ltac dispatch Ha Hargs :=
  erewrite (evcommand_find cfg cmdDEBUG cmdSTATS _ _ _ _ _ _ Ha Hargs);
  [|vm_compute; reflexivity|reflexivity]; cbn [snd].

Lemma evcommand_answers s t m c r :
  serves K B s t m → c_proto c = PROTO_RESP → authorized cfg c → c_args c = request_args r → request_ok K r →
  yields (evcommand cfg cmdDEBUG cmdSTATS s c) (answers K B r s m c).
Proof.
  intros Hs Hp Ha Hargs (Hkeys & _ & Hfits & Hr).
  assert (HK : Forall (λ key, key ∈ K) (request_keys r)) by (eapply Forall_impl; [exact Hkeys|now intros ? []]).
  assert (Hone : ∀ key, request_keys r = [key] → key ∈ K ∧ key_ok key).
  { intros key E. rewrite E in Hkeys. now inversion Hkeys. }
  destruct r as [key val ex cond get keepttl flags|key secs val|key|key keys|key keys|key keys|key keys|ms key
    |key secs|uns decr key by_|prepend key val|msg|msg].
  - destruct (Hone key eq_refl) as [Hk Hko]. cbn [request_args app] in Hfits.
    inversion Hfits as [|? ? _ Hf1]. inversion Hf1 as [|? ? _ Hf2]. inversion Hf2 as [|? ? Hv _].
    dispatch Ha Hargs. apply (set_answers K B cfg s t m c Hs Hp); [exact Hargs|exact Hk|exact Hko|now apply fits_length|apply Hr|apply Hr].
  - destruct (Hone key eq_refl) as [Hk Hko]. cbn [request_args] in Hfits.
    inversion Hfits as [|? ? _ Hf1]. inversion Hf1 as [|? ? _ Hf2]. inversion Hf2 as [|? ? _ Hf3]. inversion Hf3 as [|? ? Hv _].
    dispatch Ha Hargs. apply (setex_answers K B s t m c Hs Hp); [exact Hargs|exact Hk|exact Hko|now apply fits_length|exact Hr].
  - destruct (Hone key eq_refl) as [Hk _]. dispatch Ha Hargs. now apply (get_answers K B s t m c Hs Hp).
  - dispatch Ha Hargs. now apply (mget_answers K B s t m c Hs Hp).
  - dispatch Ha Hargs. now apply (del_answers K B s t m c Hs Hp).
  - dispatch Ha Hargs. now apply (exists_answers K B s t m c Hs Hp).
  - dispatch Ha Hargs. now apply (touch_answers K B s t m c Hs Hp).
  - destruct (Hone key eq_refl) as [Hk _].
    destruct ms; dispatch Ha Hargs; now apply (ttl_answers K B s t m c Hs Hp).
  - destruct (Hone key eq_refl) as [Hk _]. dispatch Ha Hargs. now apply (expire_answers K B s t m c Hs Hp).
  - destruct (Hone key eq_refl) as [Hk Hko].
    assert (Hd : ∀ d, by_ = Some d → if uns then is_u64 d else is_i64 d) by (intros d ->; exact Hr).
    pose proof (incr_answers K B cfg Hcfg s t m c Hs Hp uns decr key by_ Hargs Hk Hko Hd) as Hi.
    destruct by_ as [d|], uns, decr; dispatch Ha Hargs; exact Hi.
  - destruct (Hone key eq_refl) as [Hk Hko]. cbn [request_args] in Hfits.
    inversion Hfits as [|? ? _ Hf1]. inversion Hf1 as [|? ? _ Hf2]. inversion Hf2 as [|? ? Hv _].
    destruct prepend; dispatch Ha Hargs; now apply (append_answers K B cfg Hcfg s t m c Hs Hp).
  - dispatch Ha Hargs. now apply (echo_answers K B s t m c Hs Hp).
  - destruct msg; dispatch Ha Hargs; now apply (ping_answers K B s t m c Hs Hp).
Qed.

(** The clock after a list of requests. *)
Definition advance (rs : list request) (clock : nat → Z) : nat → Z :=
  foldl (λ clock r, shift (kv_ticks r) clock) clock rs.

Lemma request_sendable rs : Forall (request_ok K) rs → Forall sendable (request_args <$> rs).
Proof.
  intros Hok. apply Forall_fmap. eapply Forall_impl; [exact Hok|]. intros r (_ & Hn & Hf & _).
  split; [|split; [exact Hn|exact Hf]]. cbn. destruct r as [| | | | | | | | |? ? ? []| | |[]]; discriminate.
Qed.

Section Run.
Context (version : bytes) (parse_postgres : pg → bytes → option (parsed * pg)).

#[local] Instance server_instance : Conn.Server server job :=
  pogocache_server cfg cmdDEBUG cmdSTATS version parse_postgres.

Lemma exec_answers s t m c r :
  serves K B s t m → resp_conn c → g_useauth cfg = false ∨ c_auth c = true → request_ok K r →
  ∃ mem s' c' t', exec s c (request_args r) = Some (s', c') ∧ (memory_for B → mem = true) ∧
    serves K B s' t' (kv_step mem (s_clock s) r m).2 ∧ s_clock s' = shift (kv_ticks r) (s_clock s) ∧
    c_out c' = c_out c ++ reply_bytes (kv_step mem (s_clock s) r m).1 ∧ resp_conn c' ∧ c_auth c' = c_auth c.
Proof.
  intros Hs Hc Ha Hr. set (d := set_parsed c (plain_result PROTO_RESP (0, request_args r, [])) (c_pg c)).
  assert (Had : authorized cfg d) by (destruct Ha as [?|?]; [now left|now right; left]).
  destruct (evcommand_answers s t m d r Hs eq_refl Had eq_refl Hr) as ([] & s' & c' & E & mem & t' & Hm & Hs' & Hcl & ->).
  exists mem, s', (writes d (kv_step mem (s_clock s) r m).1), t'.
  split; [unfold exec; cbn [sv_evcommand server_instance pogocache_server]; fold d; now rewrite E|].
  split; [exact Hm|]. split; [exact Hs'|]. split; [exact Hcl|]. split; [reflexivity|]. split; [|reflexivity].
  split; [exact (rc_closed _ Hc)|exact (rc_bg _ Hc)|now right].
Qed.

Lemma session_run rs : ∀ s t m c,
  serves K B s t m → resp_conn c → g_useauth cfg = false ∨ c_auth c = true → Forall (request_ok K) rs →
  ∃ mems s' c' t', length mems = length rs ∧ (memory_for B → Forall (eq true) mems) ∧
    run s c (request_args <$> rs) = Some (s', c') ∧ no_bg s c (request_args <$> rs) ∧
    c_out c' = c_out c ++ concat (reply_bytes <$> (kv_run mems (s_clock s) rs m).1) ∧
    serves K B s' t' (kv_run mems (s_clock s) rs m).2 ∧
    s_clock s' = advance rs (s_clock s) ∧ resp_conn c' ∧ c_auth c' = c_auth c.
Proof.
  induction rs as [|r rs IH]; intros s t m c Hs Hc Ha Hok.
  { exists [], s, c, t. cbn. rewrite app_nil_r. repeat (split; [easy|]). easy. }
  inversion Hok as [|? ? Hr Hrs]; subst.
  destruct (exec_answers s t m c r Hs Hc Ha Hr) as (mem & s1 & c1 & t1 & E1 & Hm1 & Hs1 & Hcl1 & Ho1 & Hc1 & Ha1).
  assert (Ha' : g_useauth cfg = false ∨ c_auth c1 = true) by now rewrite Ha1.
  destruct (IH s1 t1 _ c1 Hs1 Hc1 Ha' Hrs) as (mems & s' & c' & t' & Hl & Hm & E & Hbg & Ho & Hs' & Hcl' & Hc' & Hau').
  exists (mem :: mems), s', c', t'. cbn [fmap list_fmap run no_bg kv_run]. rewrite (rc_closed _ Hc), E1.
  cbn [mbind option_bind]. rewrite Hcl1 in Ho, Hs', Hcl'. unfold shift in Ho, Hs'.
  destruct (kv_step mem (s_clock s) r m) as [a m1]. cbn [fst snd] in *.
  destruct (kv_run mems _ rs m1) as [l m2]. cbn [fst snd fmap list_fmap concat] in *.
  split; [cbn; lia|]. split; [intros HB; constructor; [symmetry; now apply Hm1|now apply Hm]|].
  split; [exact E|]. split; [split; [exact (rc_bg _ Hc1)|exact Hbg]|].
  split; [rewrite Ho, Ho1; now rewrite <- app_assoc|]. split; [exact Hs'|]. split; [exact Hcl'|]. split; [exact Hc'|congruence].
Qed.
End Run.

(** A session, with any commands in place of DEBUG and STATS. *)
Lemma server_kv version parse_postgres s t m c rs chunks :
  let H := pogocache_server cfg cmdDEBUG cmdSTATS version parse_postgres in
  framed cmdDEBUG → framed cmdSTATS →
  serves K B s t m → resp_conn c → c_packet c = [] → g_useauth cfg = false ∨ c_auth c = true →
  Forall (request_ok K) rs → concat chunks = stream (request_args <$> rs) →
  ∃ mems s' c' t', length mems = length rs ∧ (memory_for B → Forall (eq true) mems) ∧
    feed s c chunks = Some (s', c') ∧
    c_out c' = c_out c ++ concat (reply_bytes <$> (kv_run mems (s_clock s) rs m).1) ∧
    serves K B s' t' (kv_run mems (s_clock s) rs m).2.
Proof.
  intros H' HD HS Hs Hc Hpk Ha Hok Hst.
  pose proof (pogocache_server_ok cfg cmdDEBUG cmdSTATS HD HS version parse_postgres) as Hsok.
  destruct (session_run version parse_postgres rs s t m c Hs Hc Ha Hok)
    as (mems & s' & c' & t' & Hl & Hm & Erun & Hbg & Ho & Hs' & _).
  pose proof (segmentation_spec s c (request_args <$> rs) chunks Hc Hpk (request_sendable rs Hok) Hbg Hst) as Hseg.
  rewrite Erun in Hseg. destruct (feed s c chunks) as [[s2 c2]|]; [|destruct Hseg].
  destruct Hseg as [-> Hsame]. exists mems, s', c2, t'. do 3 (split; [assumption || reflexivity|]).
  split; [|exact Hs']. rewrite <- Ho. exact (f_equal c_out Hsame).
Qed.
End Sessions.


(** The options [EXAT n] of SET. *)
Lemma set_options_exat cfg now n :
  0 < n → is_i64 n →
  set_options cfg PROTO_RESP now [str "EXAT"; i64toa n] set_opts0 false =
    SetOk (SetOpts (seconds n) false false false false 0 0 false) true.
Proof.
  intros Hn Hi. cbn [set_options]. change (ex_kind (str "EXAT")) with 3. cbn [Z.eqb negb].
  rewrite parse_i64toa_spec by exact Hi. unfold set_expires. rewrite (proj2 (Z.leb_gt n 0)) by lia. cbn [Z.eqb].
  rewrite int64_mul_clamp_spec by (exact Hi || (vm_compute; split; congruence)). reflexivity.
Qed.

(** EXAT is taken for a time since the start of the machine. SET with EXAT and a
    number [n], documented as the unix time in seconds at which the key expires,
    answers OK, and the key is there as long as the clock of the server, which counts
    from the start of the machine, has not reached [n] seconds, whatever the time of
    day: with a unix time that is long past it stays for years. *)
Theorem exat_counts_from_boot `{Env} `{!EnvOk _} (K : gset bytes) (B : nat) cfg s t m (c : conn job) key val n :
  memory_for B → serves K B s t m → c_proto c = PROTO_RESP → key ∈ K → key_ok key → Z.of_nat (length val) < 2 ^ 64 →
  0 < n → is_i64 n → c_args c = [str "SET"; key; val; str "EXAT"; i64toa n] →
  ∃ s', cmdSET cfg s c = Some (tt, s', writes c (RStatus (str "OK"))) ∧
    serves K B s' (s_clock s 0%nat) (kv_put m key val 0 (seconds n)) ∧
    ∀ now, now < seconds n → kv_get now (kv_put m key val 0 (seconds n)) key = Some (Item val 0 (seconds n)).
Proof.
  intros HB Hs Hp HK Hk Hv Hn Hi Hargs.
  assert (Hpos : 0 < seconds n) by (unfold seconds, clamp64, SECOND, INT64_MIN, INT64_MAX in *; lia).
  assert (Hy : yields (cmdSET cfg s c) (λ _ s' c', serves K B s' (s_clock s 0%nat) (kv_put m key val 0 (seconds n)) ∧
    c' = writes c (RStatus (str "OK")))).
  { unfold cmdSET. eapply yields_args; [exact Hargs|]. apply (yields_now K B s t m Hs). intros s1 Ht Hs1 Hc1.
    apply yields_proto; [exact Hp|]. rewrite set_options_exat by assumption.
    cbn [st_expires st_keepttl st_xx st_nx andb]. rewrite (proj2 (Z.ltb_ge _ 0)) by lia.
    destruct (execSET_serves K B (str "SET") s1 _ m c key val (seconds n) Always false false 0 Hs1 Hp Ht HK Hk Hv ltac:(lia)
      (is_i64_clamp _) ltac:(vm_compute; split; congruence)) as ([] & s' & c' & E & _ & mem & Hmem & Hs' & Hc').
    exists tt, s', c'. split; [exact E|]. rewrite (Hmem HB) in Hs', Hc'. unfold kv_set in Hs', Hc'. cbn [negb] in Hs', Hc'.
    split; [|exact Hc']. now destruct (kv_get _ m key). }
  destruct Hy as ([] & s' & c' & E & Hs' & ->). exists s'. split; [exact E|]. split; [exact Hs'|].
  intros now Hnow. unfold kv_get, kv_put. rewrite lookup_insert_eq. cbn [mbind option_bind].
  rewrite Z.max_r by lia. unfold live. cbn [i_expires]. rewrite (proj2 (Z.leb_gt _ now)) by lia. now rewrite andb_false_r.
Qed.

(** ** A small server *)

(** A cache that is empty represents the empty store. *)
Lemma empty_serves `{Env} (K : gset bytes) (B n : nat) (k : cache_t) (w : world) (clock : nat → Z) (t : Z) :
  cache_ok k (w_heap w) (repeat ∅ n) → unlocked k → Forall (λ sh, s_cleartime sh <= t) (c_shards k) →
  usethreadbatch (c_ctx k) = true → safe_keys (c_ctx k) K → (S (base.size (w_heap w) + base.size K) <= B)%nat →
  clock_ok t clock → serves K B (Serve k w 0 false clock) t ∅.
Proof.
  intros Hok Hu Hct Hb Hs HB Hc. split; [|exact Hu|reflexivity|exact Hb|exact Hc]. exists (repeat ∅ n).
  assert (Hempty : ∀ i (M : content), repeat ∅ n !! i = Some M → M = ∅).
  { intros i M HM. apply list_elem_of_lookup_2 in HM. apply list_elem_of_In, repeat_spec in HM. exact HM. }
  split; [exact Hok| | |exact Hs| | |].
  - intros i sh Hi. rewrite Forall_lookup in Hct. exact (Hct i sh Hi).
  - intros i M key HM. rewrite (Hempty _ _ HM), lookup_empty. now intros []%is_Some_None.
  - assert (base.size (foreign (w_heap w) (repeat ∅ n)) <= base.size (w_heap w))%nat; [|cbn; lia].
    unfold foreign. apply map_subseteq_size, map_filter_subseteq.
  - intros i M key p x HM. rewrite (Hempty _ _ HM), lookup_empty. discriminate.
  - intros now key sh M Hn _ HM. cbn in HM. rewrite (Hempty _ _ HM). unfold shown, abs, kv_get. cbn.
    now rewrite fmap_empty, !lookup_empty.
Qed.

Definition opts3 : pogocache_opts := {|
  o_evicted := true; o_usecas := false; o_nosixpack := false; o_noevict := false;
  o_allowshrink := false; o_usethreadbatch := true; o_nshards := 2;
  o_loadfactor := 0; o_seed := 0 |}.
Definition cache3 : cache_t :=
  match pogocache_new opts3 w0 with Some (Some c, _) => c | _ => Cache ctx0 [] [] end.
Definition wc3 : world := match pogocache_new opts3 w0 with Some (_, w) => w | _ => w0 end.
Definition server3 : server := Serve cache3 wc3 0 false (λ i, Z.min (5 + Z.of_nat i) (2 ^ 62)).
Definition keys3 : gset bytes := {[ [120]; [121] ]}.

Lemma server3_any (K : gset bytes) : (base.size K <= 254)%nat → serves K 900 server3 0 ∅.
Proof.
  intros HK.
  destruct (pogocache_new_spec opts3 w0) as [Hall Hex]; [now vm_compute|].
  destruct Hex as (c & w' & E).
  { intros t n. apply env0_never_fails. cbn [w_heap w0]. rewrite map_size_empty. lia. }
  destruct (Hall _ _ E) as (Hh & _ & Hc). destruct (Hc c eq_refl) as (Hctx & Hu & Hok).
  assert (E1 : cache3 = c) by (unfold cache3; now rewrite E).
  assert (E2 : wc3 = w') by (unfold wc3; now rewrite E).
  unfold server3. apply (empty_serves K 900 2); rewrite ?E1, ?E2.
  - exact Hok.
  - exact Hu.
  - rewrite <- E1. vm_compute. repeat constructor; congruence.
  - now rewrite Hctx.
  - now apply safe_keys_small.
  - rewrite Hh. cbn [w_heap w0]. rewrite map_size_empty. lia.
  - intros i. unfold good_time, is_i64. lia.
Qed.

Lemma server3_serves : serves keys3 900 server3 0 ∅.
Proof. apply server3_any. vm_compute. lia. Qed.

Definition client3 : conn job :=
  let c : conn job := conn_open false in set_parsed c (plain_result PROTO_RESP (0, [], [])) (c_pg c).

Lemma memory900 : memory_for 900.
Proof. intros t n h Hh. apply (env0_plenty h); lia. Qed.

Definition requests3 : list request := [
  Set_ [120] (str "41") (Some (EX, 100)) NX false false None; Incr false false [120] None;
  Append false [120] [33]; Mget [120] [[121]]; Ttl false [120]; Del [120] [[121]]; Get [120] ].

Definition replies3 : bytes :=
  str "+OK" ++ crlf ++ str ":42" ++ crlf ++ str ":3" ++ crlf ++
  str "*2" ++ crlf ++ str "$3" ++ crlf ++ str "42!" ++ crlf ++ str "$-1" ++ crlf ++
  str ":99" ++ crlf ++ str ":1" ++ crlf ++ str "$-1" ++ crlf.

Lemma requests3_ok : Forall (request_ok keys3) requests3.
Proof.
  assert (H0 : [120] ∈ keys3 ∧ key_ok [120]).
  { split; [set_solver|apply key_ok_x]. }
  assert (H1 : [121] ∈ keys3 ∧ key_ok [121]).
  { split; [set_solver|]. split; [|vm_compute; reflexivity]. repeat constructor; vm_compute; congruence. }
  assert (Hreq : ∀ r, Forall (λ key, key ∈ keys3 ∧ key_ok key) (request_keys r) →
    forallb (λ a, size a <=? MAXARGSZ) (request_args r) && (nargs (request_args r) <=? MAXARGS) = true →
    match r with Set_ _ _ ex _ _ _ flags => ex = Some (EX, 100) ∧ flags = None | Setex _ _ _ | Expire _ _ => False
    | Incr _ _ _ (Some _) => False | _ => True end → request_ok keys3 r).
  { intros r Hk [Hf Hn]%andb_true_iff Hr. split; [exact Hk|]. split; [now apply Z.leb_le|]. split.
    - apply Forall_forall. intros a Ha. rewrite forallb_forall in Hf. apply list_elem_of_In in Ha.
      now apply Z.leb_le, Hf.
    - destruct r as [| | | | | | | | |? ? ? []| | |]; try exact I; try contradiction.
      destruct Hr as [-> ->]. split; [intros u n [= _ <-]|]; vm_compute; split; congruence. }
  unfold requests3.
  repeat (apply Forall_cons_2; [apply Hreq;
    [cbn [request_keys]; repeat (apply Forall_cons_2; [assumption|]); apply Forall_nil_2
    |reflexivity|first [exact I|split; reflexivity]]|]).
  apply Forall_nil_2.
Qed.

Definition process0 : process := Process 7 0 1700000000000000000 (str "v1") (str "abc") None 100 1 1 0 (λ _, 0) 4 4096.


(** The unix time 1000000 was in January 1970. *)
Definition exat3 : conn job := set_args client3 [str "SET"; [120]; str "41"; str "EXAT"; str "1000000"].

Lemma exat_counts_from_boot_witness :
  ∃ s', cmdSET config0 server3 exat3 = Some (tt, s', writes exat3 (RStatus (str "OK"))) ∧
    serves keys3 900 s' 5 (kv_put ∅ [120] (str "41") 0 (seconds 1000000)).
Proof.
  destruct (exat_counts_from_boot keys3 900 config0 server3 0 ∅ exat3 [120] (str "41") 1000000) as (s' & E & Hs & _).
  - exact memory900.
  - exact server3_serves.
  - reflexivity.
  - set_solver.
  - apply key_ok_x.
  - vm_compute. reflexivity.
  - lia.
  - vm_compute. split; congruence.
  - vm_compute. reflexivity.
  - exists s'. split; [exact E|exact Hs].
Defined.
