(* ===== verification/KvFlush.v ===== *)
(** * KvFlush: FLUSHALL empties the store

    The work of FLUSHALL splits the shards among threads and clears each shard
    at the time its thread reads from the clock. A cleared entry stays in memory
    until something meets it; the theorem says that no client sees it. *)

From S2P Require Import Prelude Util Context Entry Heap Map MapInv MapSpec Shard ShardInv ShardSpec ShardOps ShardStore.
From S2P Require Import Samples ShardTheorems Cache Locks CacheInv CacheOps CacheTheorems CacheScan.
From S2P Require Import Resp RespProofs Memcache Http Parse Conn ConnProofs Cmds CmdTable CmdFrame Server.
From S2P Require Import Kv KvRel KvCmds KvBatch KvServer.

#[local] Opaque th64 hash24 encode entry_memsize.

(** ** The ranges of the threads *)

(** From [start] on, one after the other, up to [stop]. *)
Inductive consecutive : Z → Z → list (Z * Z) → Prop :=
  | consecutive_nil start : consecutive start start []
  | consecutive_cons start count stop l :
      0 <= count → consecutive (start + count) stop l → consecutive start stop ((start, count) :: l).

Lemma flush_ranges_consecutive todo : ∀ nshards nprocs start,
  0 <= nshards → Z.of_nat (S todo) <= nprocs → start = (nprocs - Z.of_nat (S todo)) * Z.quot nshards nprocs →
  consecutive start nshards (flush_ranges (S todo) nshards nprocs start).
Proof.
  induction todo as [|todo IH]; intros nshards nprocs start Hn Hp Hs.
  - cbn [flush_ranges]. constructor.
    + rewrite Hs, Z.quot_div_nonneg by lia. pose proof (Z.mul_div_le nshards nprocs). nia.
    + replace (start + (nshards - start)) with nshards by lia. constructor.
  - change (flush_ranges (S (S todo)) nshards nprocs start)
      with ((start, Z.quot nshards nprocs) :: flush_ranges (S todo) nshards nprocs (start + Z.quot nshards nprocs)).
    constructor; [apply Z.quot_pos; lia|]. apply IH; lia.
Qed.

(** ** Clearing a shard *)

(** The store without the keys of the first [j] shards. *)
Definition from_shard (ctx : pgctx) (j : Z) (m : kv) : kv := filter (λ kx, j <= home ctx kx.1) m.

Lemma from_shard_lookup ctx j m key :
  from_shard ctx j m !! key = if decide (j <= home ctx key) then m !! key else None.
Proof.
  unfold from_shard. destruct (decide (j <= home ctx key)) as [Hj|Hj].
  - destruct (m !! key) as [x|] eqn:E.
    + now apply map_lookup_filter_Some.
    + apply map_lookup_filter_None. now left.
  - apply map_lookup_filter_None. right. intros x _. exact Hj.
Qed.

Section Flush.
Context `{Env} `{!EnvOk _} (K : gset bytes) (B : nat).

Lemma clear_kv (k : cache_t) (w : world) (Ms : list content) (t t0 now : Z) (m : kv) (j clock : Z) :
  kv_rel K B k w Ms t (from_shard (c_ctx k) j m) → unlocked k → 0 <= j < nshards (c_ctx k) →
  (∀ i M key p x, Ms !! i = Some M → M !! key = Some (p, x) → e_time x <= t0) → t0 < now → t <= now → good_time now →
  ∃ k', pogocache_clear clock (ScanOpts now true j false) Root k = Some (Root, k') ∧
    c_ctx k' = c_ctx k ∧ c_locks k' = c_locks k ∧ kv_rel K B k' w Ms now (from_shard (c_ctx k) (j + 1) m).
Proof.
  intros Hr Hu Hj Htimes Ht0 Ht Hgt. pose proof Hr as [Hok H2 H3 H4 H5 _ H6].
  pose proof (co_shards _ _ _ Hok) as Hns. pose proof (co_locks _ _ _ Hok) as Hnl.
  destruct (lookup_lt_is_Some_2 (c_shards k) (Z.to_nat j)) as [sh Hsh]; [lia|].
  unfold pogocache_clear. cbn [sc_oneshard sc_oneshardidx sc_time]. rewrite opt_now_given by exact Hgt.
  rewrite (proj2 (Z.ltb_ge j 0)), (proj2 (Z.leb_gt _ j)) by lia. cbn [orb]. unfold clear_shard.
  rewrite (execute_spec j Root k tt _ sh tt (clearop now sh) tt); [| | |reflexivity].
  2: { apply unlocked_available; [exact Hu|]. rewrite Hnl, Hns. exact Hj. }
  2: { unfold shard_get. rewrite (proj2 (Z.ltb_ge j 0)) by lia. exact Hsh. }
  eexists. split; [reflexivity|]. split; [reflexivity|]. split; [reflexivity|].
  set (k' := Cache _ _ _).
  assert (Hget : ∀ i sh', c_shards k' !! i = Some sh' →
    (i = Z.to_nat j ∧ sh' = clearop now sh) ∨ (i ≠ Z.to_nat j ∧ c_shards k !! i = Some sh')).
  { intros i sh' Hi. cbn [k' c_shards] in Hi. destruct (decide (i = Z.to_nat j)) as [->|Hne].
    - left. rewrite list_lookup_insert_eq in Hi by lia. now injection Hi as <-.
    - right. rewrite list_lookup_insert_ne in Hi by congruence. now split. }
  split; [| |exact H3|exact H4|exact H5| |].
  - destruct Hok as [A1 A2 A3 A4 A5 A6 A7 A8]. split; [exact A1|exact A2| | | | |exact A7|exact A8].
    + cbn [k' c_shards c_ctx]. now rewrite length_insert.
    + cbn [k' c_shards c_locks lock_effect snd]. rewrite length_insert. exact A4.
    + cbn [k' c_shards]. now rewrite length_insert.
    + intros i sh' M Hi HM. destruct (Hget i sh' Hi) as [[-> ->]|[_ Hi']]; [|exact (A6 i sh' M Hi' HM)].
      destruct (A6 _ sh M Hsh HM) as [Hm Hc]. split; [exact Hm|exact Hc].
  - intros i sh' Hi. destruct (Hget i sh' Hi) as [[_ ->]|[_ Hi']]; [cbn; lia|]. specialize (H2 i sh' Hi'). lia.
  - intros i M key p x HM Hx. specialize (Htimes i M key p x HM Hx). lia.
  - intros now' key sh' M Hn Hi HM. change (key_shard k' key) with (key_shard k key) in Hi, HM.
    pose proof (home_bound (c_ctx k) key (proj1 (co_nshards _ _ _ Hok))) as Hb.
    unfold kv_get. rewrite from_shard_lookup.
    destruct (Hget _ sh' Hi) as [[Ej ->]|[Hne Hi']].
    + rewrite decide_False by (unfold key_shard in Ej; lia). unfold shown.
      destruct (a_ents (abs (clearop now sh) M) !! key) as [x|] eqn:Ex; [|reflexivity].
      apply abs_entry in Ex as [p Ex]. specialize (Htimes _ M key p x HM Ex). cbn.
      unfold fate, entry_alive_exp. now rewrite (proj2 (Z.ltb_lt _ _)) by lia.
    + specialize (H6 now' key sh' M ltac:(lia) Hi' HM). unfold kv_get in H6. rewrite from_shard_lookup in H6.
      rewrite H6. unfold key_shard in Hne.
      destruct (decide (j <= home (c_ctx k) key)), (decide (j + 1 <= home (c_ctx k) key)); try reflexivity; lia.
Qed.

(** ** The work of FLUSHALL *)

(** The server when the first [j] shards are cleared; no entry is younger than [t0]. *)
Record flushing (t0 j : Z) (s : server) (t : Z) (m : kv) : Prop := {
  fl_rel : ∃ Ms, kv_rel K B (s_cache s) (s_world s) Ms t (from_shard (c_ctx (s_cache s)) j m) ∧
    ∀ i M key p x, Ms !! i = Some M → M !! key = Some (p, x) → e_time x <= t0;
  fl_unlocked : unlocked (s_cache s);
  fl_lowmem : s_lowmem s = false;
  fl_batch : usethreadbatch (c_ctx (s_cache s)) = true;
  fl_clock : clock_ok t (s_clock s);
  fl_young : t0 < s_clock s 0%nat
}.

Lemma thflush_loop_serves t0 m c todo : ∀ s t j,
  flushing t0 j s t m → t0 < t → good_time t → 0 <= j → j + Z.of_nat todo <= nshards (c_ctx (s_cache s)) →
  yields (thflush_loop todo t j s c) (λ _ s' c', c' = c ∧ flushing t0 (j + Z.of_nat todo) s' t m ∧
    c_ctx (s_cache s') = c_ctx (s_cache s)).
Proof.
  induction todo as [|todo IH]; intros s t j Hf Ht0 Ht Hj Hn; cbn [thflush_loop].
  { eexists _, _, _. split; [reflexivity|]. split; [reflexivity|]. now rewrite Z.add_0_r. }
  destruct Hf as [(Ms & Hr & Htimes) Hu Hlow Hb Hc Hy].
  destruct (clear_kv (s_cache s) (s_world s) Ms t t0 t m j (s_clock s 0%nat) Hr Hu ltac:(lia) Htimes Ht0 ltac:(lia) Ht)
    as (k' & E & Ec & El & Hr').
  eapply (yields_bind _ _ _ _ (λ _ s' c', s' = set_cache s k' (s_world s) ∧ c' = c)).
  { eapply yields_eq; [rewrite E; reflexivity|split; reflexivity]. }
  intros [] s' c' [-> ->].
  destruct (IH (set_cache s k' (s_world s)) t (j + 1)) as ([] & s'' & c'' & E' & -> & Hf' & Ec').
  - split; [exists Ms; cbn; rewrite Ec; split; [exact Hr'|exact Htimes]|exact (unlocked_same _ _ El Hu)|exact Hlow|cbn; now rewrite Ec
      |exact Hc|exact Hy].
  - exact Ht0.
  - exact Ht.
  - lia.
  - cbn. rewrite Ec. lia.
  - exists tt, s'', c. split; [exact E'|]. split; [reflexivity|]. cbn in Ec'. rewrite Ec', Ec. split; [|reflexivity].
    now replace (j + Z.of_nat (S todo)) with (j + 1 + Z.of_nat todo) by lia.
Qed.

Lemma flush_loop_serves t0 m c n : ∀ ranges s t j,
  consecutive j n ranges → flushing t0 j s t m → 0 <= j → n = nshards (c_ctx (s_cache s)) →
  yields (foldr (λ r x, thflush r.1 r.2;; x) (mret tt) ranges s c) (λ _ s' c', c' = c ∧
    (∃ t', flushing t0 n s' t' m) ∧ c_ctx (s_cache s') = c_ctx (s_cache s)).
Proof.
  intros ranges s t j Hcon. revert s t. induction Hcon as [start|start count stop l Hcount Hcon IH];
    intros s t Hf Hj En; cbn [foldr].
  { eexists _, _, _. split; [reflexivity|]. split; [reflexivity|]. split; [now exists t|reflexivity]. }
  cbn [fst snd]. pose proof Hf as [(Ms & Hr & Htimes) Hu Hlow Hb Hc Hy].
  assert (Hle : start + count <= stop) by (clear -Hcon; induction Hcon; lia).
  set (now := s_clock s 0%nat) in *.
  set (s1 := Serve (s_cache s) (s_world s) (s_flush_delay s) (s_lowmem s) (λ i, s_clock s (S i))).
  assert (Hf1 : flushing t0 start s1 now m).
  { split; [exists Ms; split; [|exact Htimes]|exact Hu|exact Hlow|exact Hb|exact (clock_tick _ _ Hc)|].
    - apply (kv_rel_later _ _ _ _ _ t); [apply (Hc 0%nat)|exact Hr].
    - cbn. destruct (Hc 0%nat) as (_ & _ & Hm). fold now in Hm. lia. }
  eapply yields_bind.
  { unfold thflush. eapply (yields_bind _ _ _ _ (λ a s' c', a = now ∧ s' = s1 ∧ c' = c)).
    { eapply yields_eq; [reflexivity|]. split; [reflexivity|]. split; reflexivity. }
    intros a s' c' (-> & -> & ->).
    apply (thflush_loop_serves t0 m c (Z.to_nat count) s1 now start Hf1 Hy (proj1 (proj2 (Hc 0%nat))) Hj).
    rewrite Z2Nat.id by exact Hcount. cbn. lia. }
  intros [] s2 c2 (-> & Hf2 & Ec2). rewrite Z2Nat.id in Hf2 by exact Hcount.
  destruct (IH s2 now Hf2 ltac:(lia)) as (a & s' & c' & E & -> & Hf' & Ec').
  { rewrite Ec2. exact En. }
  exists a, s', c. split; [exact E|]. split; [reflexivity|]. split; [exact Hf'|]. now rewrite Ec', Ec2.
Qed.

Lemma from_shard_all (ctx : pgctx) (m : kv) : 0 < nshards ctx → from_shard ctx 0 m = m ∧ from_shard ctx (nshards ctx) m = ∅.
Proof.
  intros Hn. split; apply map_eq; intros key; rewrite from_shard_lookup;
    pose proof (home_bound ctx key Hn).
  - now rewrite decide_True by lia.
  - now rewrite decide_False, lookup_empty by lia.
Qed.

End Flush.

(** ** A server that holds a key *)

Lemma server3_stored : ∃ s, serves keys3 900 s 1 {[ [120] := Item (str "41") 0 0 ]} ∧ s_clock s = s_clock server3.
Proof.
  destruct server3_serves as [[Ms Hr] Hu Hl Hb Hc].
  assert (Hs : serves keys3 900 server3 1 ∅).
  { split; [exists Ms; now apply (kv_rel_later _ _ _ _ _ 0)|exact Hu|exact Hl|exact Hb|].
    intros i. unfold good_time, is_i64. cbn. lia. }
  destruct (execSET_serves keys3 900 (str "SET") server3 1 ∅ client3 [120] (str "41") 0 Always false false 0 Hs eq_refl)
    as ([] & s' & c' & _ & Hck & mem & Hm & Hs' & _).
  - vm_compute. repeat split; congruence.
  - set_solver.
  - apply key_ok_x.
  - vm_compute. reflexivity.
  - lia.
  - vm_compute. split; congruence.
  - vm_compute. split; congruence.
  - exists s'. split; [|exact Hck]. rewrite (Hm memory900) in Hs'. exact Hs'.
Qed.

