(* ===== verification/DebugProofs.v ===== *)
(** * DebugProofs: what DEBUG and STATS do

    The commands of [Debug.v] against the key-value store: DEBUG POPULATE and its
    range of lifetimes, and the reply of STATS. *)

From S2P Require Import Prelude Util Context Heap Shard ShardTheorems Samples Cache CacheInv CacheScan Resp RespProofs Memcache Http Parse Conn ConnProofs.
From S2P Require Import Cmds CmdFrame KvRel Kv KvCmds KvServer KvFlush Tuning Memlimit Debug.

(** ** DEBUG POPULATE *)

Lemma groups_cover n count group start :
  (0 < n)%nat → 0 <= group → 0 <= start → start + Z.of_nat n * group <= count →
  concat ((λ g, seqZ g.1 g.2) <$> groups n count group start) = seqZ start (count - start).
Proof.
  revert start. induction n as [|n IH]; intros start Hn Hg Hs Hc; [lia|]. destruct n as [|n].
  - cbn. now rewrite app_nil_r.
  - change (groups (S (S n)) count group start) with ((start, group) :: groups (S n) count group (start + group)).
    rewrite fmap_cons. cbn [concat fst snd]. rewrite IH by lia. rewrite <- seqZ_app by lia. f_equal. lia.
Qed.

(** Every number is in one range, in order. *)
Lemma populate_ranges (nprocs : nat) count :
  (0 < nprocs)%nat → 0 <= count →
  concat ((λ g, seqZ g.1 g.2) <$> groups nprocs count (count / Z.of_nat nprocs) 0) = seqZ 0 count.
Proof.
  intros Hn Hc. rewrite groups_cover; [f_equal; lia|exact Hn|apply Z.div_pos; lia|lia|].
  pose proof (Z.mul_div_le count (Z.of_nat nprocs)). lia.
Qed.

Lemma groups_nonneg n count group start : 0 <= group → start + Z.of_nat n * group <= count → Forall (λ g, 0 <= g.2) (groups n count group start).
Proof.
  revert start. induction n as [|n IH]; intros start Hg Hc; [constructor|]. destruct n as [|n]; [repeat constructor; cbn; lia|].
  change (groups (S (S n)) count group start) with ((start, group) :: groups (S n) count group (start + group)). constructor; [exact Hg|]. apply IH; lia.
Qed.

Definition populate_key (prefix : bytes) (i : Z) : bytes := prefix ++ str ":" ++ i64toa i.

Lemma lift_some {A B} (x : A) (f : A → cmd B) s c : (lift (Some x) ≫= f) s c = f x s c.
Proof. reflexivity. Qed.

Section Populate.
Context `{Env} `{!EnvOk _} (K : gset bytes) (B : nat) (HB : memory_for B) (rand : Z → Z).
Context (prefix val : bytes) (Hval : Z.of_nat (length val) < 2 ^ 64).

(** The store after the keys with some numbers were set, without a lifetime. *)
Definition populated (l : list Z) (m : kv) : kv := fold_left (λ m i, kv_put m (populate_key prefix i) val 0 0) l m.

(** The keys of a range are keys of the server. *)
Definition keys_known (l : list Z) : Prop := Forall (λ i, populate_key prefix i ∈ K ∧ key_ok (populate_key prefix i)) l.

Lemma store_serves s t m c key : serves K B s t m → good_time t → key ∈ K → key_ok key →
  yields (store Root key val (StoreOpts t 0 0 0 0 false false false false false (None : option (view → unit → bool * unit))) tt s c)
    (λ _ s' c', c' = c ∧ serves K B s' t (kv_put m key val 0 0)).
Proof.
  intros Hs Ht Hk Hko. pose proof Hs as [[Ms Hr] _ _ _ _]. unfold store. set (opts := StoreOpts _ _ _ _ _ _ _ _ _ _ _).
  pose proof (store_kv K B (s_cache s) (s_world s) Ms t m key Root (s_clock s 0%nat) tt Hr
    (unlocked_available_key _ _ _ _ _ _ _ Hs) Hk Ht val opts eq_refl eq_refl eq_refl) as HR.
  destruct (kv_result_root K B s t m key _ _ Hs (HR ltac:(split; [unfold is_i64; cbn; lia|split; [unfold is_i64; cbn; lia|unfold is_u32; cbn; lia]]) Hko Hval))
    as (st & k' & w' & u' & m' & -> & Hs' & mem & Hmem & HQ).
  eexists _, _, _. split; [reflexivity|]. split; [reflexivity|]. rewrite (Hmem HB) in HQ. cbn [negb] in HQ.
  destruct (kv_get t m key) as [x|]; cbn in HQ; [destruct HQ as (_ & _ & _ & _ & ->)|destruct HQ as (_ & _ & ->)]; exact Hs'.
Qed.

Lemma populate_loop_serves n : ∀ i s t m c, serves K B s t m → good_time t → keys_known (seqZ i (Z.of_nat n)) →
  yields (populate_loop rand n i t prefix val None s c) (λ _ s' c', c' = c ∧ serves K B s' t (populated (seqZ i (Z.of_nat n)) m)).
Proof.
  induction n as [|n IH]; intros i s t m c Hs Ht Hk; cbn [populate_loop]; [eexists _, _, _; split; [reflexivity|easy]|].
  rewrite seqZ_cons in Hk |- * by lia. replace (Z.pred (Z.of_nat (S n))) with (Z.of_nat n) in * by lia. replace (Z.succ i) with (i + 1) in * by lia.
  apply Forall_cons in Hk as [[Hk1 Hk2] Hk]. change (rand_ttl rand None i) with (Some 0). rewrite lift_some. eapply yields_bind; [exact (store_serves s t m c _ Hs Ht Hk1 Hk2)|].
  intros _ s2 c2 [-> Hs2]. cbn [populated fold_left]. now apply IH.
Qed.

Lemma populate_all_serves ctxs : ∀ s t m c, Forall (λ g, 0 <= g.2) ctxs → serves K B s t m →
  keys_known (concat ((λ g, seqZ g.1 g.2) <$> ctxs)) →
  yields (populate_all rand prefix val None ctxs s c) (λ _ s' c', c' = c ∧
    ∃ t', serves K B s' t' (populated (concat ((λ g, seqZ g.1 g.2) <$> ctxs)) m)).
Proof.
  induction ctxs as [|[start count] ctxs IH]; intros s t m c Hc Hs Hk; cbn [populate_all].
  { eexists _, _, _. split; [reflexivity|]. split; [reflexivity|]. now exists t. }
  apply Forall_cons in Hc as [Hc0 Hc]. cbn [snd] in Hc0. rewrite fmap_cons in Hk |- *. cbn [concat fst snd] in Hk |- *.
  apply Forall_app in Hk as [Hk1 Hk2]. eapply yields_bind with (Q := λ _ s' c', c' = c ∧ ∃ t', serves K B s' t' (populated (seqZ start count) m)).
  - unfold populate_entry. eapply yields_bind; [exact (sys_now_serves K B s t m c Hs)|]. intros now s1 c1 (-> & -> & Hg & Hs1 & _).
    rewrite <- (Z2Nat.id count Hc0) in Hk1.
    destruct (populate_loop_serves (Z.to_nat count) start s1 _ m c Hs1 Hg Hk1) as (a & s2 & c2 & E & -> & Hs2).
    rewrite (Z2Nat.id count Hc0) in Hs2. exists a, s2, c. split; [exact E|]. split; [reflexivity|]. now exists (s_clock s 0%nat).
  - intros _ s1 c1 (-> & t1 & Hs1). unfold populated. rewrite fold_left_app. now apply (IH s1 t1).
Qed.

End Populate.

(** The keys of different numbers differ, so that no store replaces another. *)
Lemma populate_keys_NoDup prefix k : k < 2 ^ 63 → NoDup (populate_key prefix <$> seqZ 0 k).
Proof.
  intros Hk. apply NoDup_fmap_2_strong; [|apply NoDup_seqZ]. intros x y Hx%elem_of_seqZ Hy%elem_of_seqZ E.
  unfold populate_key in E. apply app_inv_head, app_inv_head in E.
  pose proof (parse_i64toa_spec x ltac:(unfold is_i64; lia)) as E1. rewrite E, parse_i64toa_spec in E1 by (unfold is_i64; lia).
  now injection E1.
Qed.

(** The order of the stores does not matter. *)
Lemma populated_perm prefix val l l' m : l ≡ₚ l' → populated prefix val l m = populated prefix val l' m.
Proof.
  intros Hp. revert m. induction Hp as [|x l l' _ IH|x y l|l1 l2 l3 _ IH1 _ IH2]; intros m.
  - reflexivity.
  - apply IH.
  - unfold populated. cbn [fold_left]. f_equal. unfold kv_put. destruct (decide (populate_key prefix x = populate_key prefix y)) as [->|Hne]; [reflexivity|].
    now apply insert_insert_ne.
  - now rewrite IH1.
Qed.

Section Commands.
Context `{Env} `{!EnvOk _} (K : gset bytes) (B : nat) (nprocs : Z) (rand : Z → Z) (Hprocs : 0 < nprocs).


(** A range of lifetimes without numbers in it. *)
Lemma populate_all_crash (prefix val : bytes) n ctxs : 0 <= n < 2 ^ 31 →
  concat ((λ g, seqZ g.1 g.2) <$> ctxs) ≠ [] → ∀ s c, populate_all rand prefix val (Some (n, n)) ctxs s c = None.
Proof.
  intros Hn. induction ctxs as [|[start count] ctxs IH]; intros Hne s c; [now destruct Hne|]. cbn [populate_all].
  unfold populate_entry. destruct (Z.to_nat count) as [|k] eqn:Ek.
  - rewrite fmap_cons in Hne. cbn [concat fst snd] in Hne. replace (seqZ start count) with (@nil Z) in Hne; [|now rewrite (seqZ_nil start count) by lia].
    unfold mbind, cmd_bind, sys_now. cbn [populate_loop]. unfold mret, cmd_ret. now apply IH.
  - unfold mbind, cmd_bind, sys_now. cbn [populate_loop]. unfold mbind, cmd_bind, lift, rand_ttl. now rewrite Z.sub_diag.
Qed.

(** An empty range of lifetimes crashes the server. DEBUG POPULATE with at least one
    key and a range such as [5-5] takes the remainder of a division by zero: the
    command is undefined, whatever the state of the server and of the connection. *)
Theorem populate_empty_range s (c : conn job) (name count prefix vallen range : bytes) k v n :
  c_args c = [name; str "populate"; count; prefix; vallen; range] →
  parse_i64 count = (true, k) → 0 < k → parse_i64 vallen = (true, v) → 0 <= v →
  rand_range range = Some (n, n) → 0 <= n < 2 ^ 31 →
  cmdDEBUG nprocs rand s c = None.
Proof.
  intros Ha Ek Hk Ev Hv Er Hn. unfold cmdDEBUG, get_args, mbind, cmd_bind. rewrite Ha.
  change (argeq [str "populate"; count; prefix; vallen; range] 0 (str "populate")) with true. cbv iota.
  unfold cmdDEBUG_populate. cbn [length Nat.eqb orb negb]. unfold argi64. cbn [lookup list_lookup mbind option_bind].
  rewrite Ek, Ev, Er, !lift_some. cbn [negb orb]. rewrite (proj2 (Z.ltb_ge k 0)), lift_some, lift_some by lia. cbn [negb orb].
  rewrite (proj2 (Z.ltb_ge v 0)), (proj2 (Z.ltb_ge nprocs 0)), (proj2 (Z.eqb_neq nprocs 0)) by lia.
  unfold mbind, cmd_bind. rewrite populate_all_crash; [reflexivity|exact Hn|].
  pose proof (populate_ranges (Z.to_nat nprocs) k ltac:(lia) ltac:(lia)) as Hr. rewrite Z2Nat.id in Hr by lia. rewrite Hr.
  rewrite seqZ_cons by lia. discriminate.
Qed.

End Commands.

Definition keys5 : gset bytes := {[ str "x:0"; str "x:1"; str "x:2" ]}.
Definition debug5 : conn job := set_args client3 [str "debug"; str "populate"; str "3"; str "x"; str "2"].


Lemma populate_empty_range_witness :
  cmdDEBUG 4 (λ _, 7) server3 (set_args client3 [str "debug"; str "populate"; str "1"; str "x"; str "2"; str "5-5"]) = None.
Proof.
  apply (populate_empty_range 4 (λ _, 7) ltac:(lia) server3 _ (str "debug") (str "1") (str "x") (str "2") (str "5-5") 1 2 5);
    (lia || (vm_compute; reflexivity)).
Defined.

(** ** The reply of STATS *)

Definition bulk (data : bytes) : bytes := [36] ++ u64toa (size data) ++ crlf ++ data ++ crlf.
Definition pair_bytes (kv : bytes * bytes) : bytes := str "*2" ++ crlf ++ bulk kv.1 ++ bulk kv.2.
Definition line_of (kv : bytes * bytes) : bytes := kv.1 ++ str " " ++ kv.2.

Lemma cut_line (kv : bytes * bytes) : Forall (λ x, x ≠ 32) kv.1 → cut_space (line_of kv) = kv.
Proof.
  destruct kv as [k v]. cbn [fst]. intros Hk. unfold cut_space, line_of. cbn [fst snd].
  assert (E : list_find (λ x, x = 32) (k ++ str " " ++ v) = Some (length k, 32)).
  { apply list_find_Some. split; [now rewrite lookup_app_r, Nat.sub_diag by lia|]. split; [reflexivity|].
    intros j y Hj Hlt. rewrite lookup_app_l in Hj by exact Hlt. rewrite Forall_lookup in Hk. now apply (Hk j). }
  rewrite E, take_app_length. f_equal. rewrite (app_assoc k (str " ") v). now rewrite drop_app_length' by (rewrite length_app; cbn; lia).
Qed.

Lemma array_bytes (c : conn job) n : 0 <= n < 2 ^ 64 → conn_write_array c n = set_out c (c_out c ++ str "*" ++ u64toa n ++ crlf).
Proof. intros Hn. unfold conn_write_array. rewrite writeln_line, line_clean; [reflexivity|]. now apply u64toa_clean. Qed.

Lemma pair_written (c : conn job) k v :
  conn_write_bulk_cstr (conn_write_bulk_cstr (conn_write_array c 2) k) v = set_out c (c_out c ++ pair_bytes (k, v)).
Proof.
  rewrite array_bytes by lia. unfold conn_write_bulk_cstr, conn_write_bulk, conn_write_raw. cbn [set_out c_out].
  unfold pair_bytes, bulk. cbn [fst snd]. change (str "*2") with (str "*" ++ u64toa 2). now rewrite <- !app_assoc.
Qed.

Lemma stats_end_resp kvs (c : conn job) :
  c_proto c ≠ PROTO_POSTGRES → c_proto c ≠ PROTO_MEMCACHE → Forall (λ kv, Forall (λ x, x ≠ 32) kv.1) kvs → Z.of_nat (length kvs) < 2 ^ 64 →
  stats_end (line_of <$> kvs) c =
  set_out c (c_out c ++ str "*" ++ u64toa (Z.of_nat (length kvs)) ++ crlf ++ concat (pair_bytes <$> kvs)).
Proof.
  intros H1 H2 Hk Hn. unfold stats_end. rewrite decide_False, decide_False by assumption. rewrite length_fmap, array_bytes by lia.
  assert (G : ∀ out, fold_left (λ c line, let '(key, val) := cut_space line in
    conn_write_bulk_cstr (conn_write_bulk_cstr (conn_write_array c 2) key) val) (line_of <$> kvs) (set_out c out) =
    set_out c (out ++ concat (pair_bytes <$> kvs))).
  { clear Hn. induction Hk as [|kv kvs Hkv _ IH]; intros out; [cbn; now rewrite app_nil_r|].
    rewrite !fmap_cons. cbn [fold_left concat]. rewrite (cut_line kv Hkv). destruct kv as [k v]. rewrite pair_written.
    change (set_out (set_out c out) ?x) with (set_out c x). rewrite IH. cbn [set_out c_out]. now rewrite <- app_assoc. }
  rewrite G. f_equal. now rewrite <- !app_assoc.
Qed.

(** A line that fits the buffer and has no terminator in it. *)
Definition line_ok (kv : bytes * bytes) : Prop := (length (line_of kv) < 511)%nat ∧ Forall (λ x, x ≠ 0) (line_of kv).

Lemma printf_line kv : line_ok kv → stats_printf kv = Some (line_of kv).
Proof.
  intros [Hl H0]. unfold stats_printf. fold (line_of kv). rewrite (proj2 (Nat.leb_gt _ _) Hl). now rewrite c_str_digits.
Qed.

Lemma printf_lines kvs : Forall line_ok kvs → mapM stats_printf kvs = Some (line_of <$> kvs).
Proof. induction 1 as [|kv kvs Hkv _ IH]; [reflexivity|]. cbn [mapM]. rewrite (printf_line kv Hkv). cbn. now rewrite IH. Qed.

Lemma number_line (name : bytes) x : (length name < 100)%nat → Forall (λ x, x ≠ 0) name → is_u64 x → line_ok (name, u64toa x).
Proof.
  intros Hl H0 Hx. destruct (u64toa_spec x Hx) as (ds & E & _ & Hlen & Hd & _). unfold line_ok, line_of. cbn [fst snd]. rewrite E. split.
  - rewrite !length_app, length_rev. cbn. lia.
  - apply Forall_app. split; [exact H0|]. apply Forall_app. split; [repeat constructor; discriminate|].
    apply Forall_rev. eapply Forall_impl; [exact Hd|]. intros y Hy%isdigit_true. lia.
Qed.

Lemma process_names p now : Forall (λ kv : bytes * bytes, Forall (λ x, x ≠ 32) kv.1) (process_lines p now).
Proof.
  assert (Hn : ∀ name v : bytes, forallb (λ x, negb (x =? 32)) name = true → Forall (λ x, x ≠ 32) ((name, v) : bytes * bytes).1).
  { intros name v E. apply Forall_forall. intros x Hx ->. rewrite forallb_forall in E. specialize (E 32 (proj1 (list_elem_of_In _ _) Hx)). discriminate. }
  unfold process_lines. repeat apply Forall_app_2; [|destruct (p_rusage p) as [[[[? ?] ?] ?]|]|];
    repeat (apply Forall_cons; split; [apply Hn; reflexivity|]); apply Forall_nil_2.
Qed.

(** Over RESP, STATS answers with an array of pairs: the lines on the process, then
    the sums over the shards of their counters of memory, of entries and of
    stores. It leaves the cache and what it represents unchanged. What the three
    counters mean is in [Count.v] and [Limits.v]. *)
Theorem stats_reply `{Env} (K : gset bytes) (B : nat) p s t m (c : conn job) (name : bytes) :
  serves K B s t m → c_proto c ≠ PROTO_POSTGRES → c_proto c ≠ PROTO_MEMCACHE → c_args c = [name] →
  Forall line_ok (process_lines p (s_clock s 0%nat)) →
  let sum read := u64 (zsum (read <$> c_shards (s_cache s))) in
  let lines := process_lines p (s_clock s 0%nat) ++
    [(str "bytes", u64toa (sum (λ sh, sizeop sh true))); (str "curr_items", u64toa (sum countop)); (str "total_items", u64toa (sum totalop))] in
  ∃ s' t', cmdSTATS p s c = Some (tt, s', set_out c (c_out c ++ str "*" ++ u64toa (Z.of_nat (length lines)) ++ crlf ++ concat (pair_bytes <$> lines))) ∧
    s_cache s' = s_cache s ∧ s_world s' = s_world s ∧ serves K B s' t' m.
Proof.
  intros Hs Hp1 Hp2 Ha Hl sum lines. destruct (sys_now_serves K B s t m c Hs) as (now & s1 & c1 & E & -> & -> & _ & Hs1 & _).
  pose proof Hs as [[Ms Hr] Hu _ _ _]. pose proof (kr_ok _ _ _ _ _ _ _ Hr) as Hok.
  exists s1, (s_clock s 0%nat). assert (Es : s_cache s1 = s_cache s ∧ s_world s1 = s_world s) by (unfold sys_now in E; now injection E as <-).
  destruct Es as [Es Ew]. split; [|split; [exact Es|split; [exact Ew|exact Hs1]]].
  assert (Hscan : ∀ read x opts, read opts Root (s_cache s) = Some (x, Root, s_cache s) → scan read opts s1 c = Some (x, s1, c)).
  { intros read x opts Er. unfold scan. rewrite Es, Er. cbn [mbind option_bind]. unfold set_cache. rewrite <- Es. now destruct s1. }
  unfold cmdSTATS, get_args, mbind, cmd_bind. rewrite Ha. unfold stats, mbind, cmd_bind. rewrite E.
  rewrite (Hscan pogocache_size (sum (λ sh, sizeop sh true))) by (apply (scan_sum_spec _ _ _ _ Ms Hok Hu); reflexivity).
  rewrite (Hscan pogocache_count (sum countop)) by (apply (scan_sum_spec _ _ _ _ Ms Hok Hu); reflexivity).
  rewrite (Hscan pogocache_total (sum totalop)) by (apply (scan_sum_spec _ _ _ _ Ms Hok Hu); reflexivity).
  fold lines. assert (Hall : Forall line_ok lines).
  { assert (Hu64 : ∀ read, is_u64 (sum read)) by (intros read; unfold sum, u64, is_u64; apply Z.mod_pos_bound; lia). clearbody sum.
    apply Forall_app. split; [exact Hl|].
    repeat apply Forall_cons_2; [..|apply Forall_nil_2]; (apply number_line; [vm_compute; lia|repeat constructor; discriminate|apply Hu64]). }
  rewrite (printf_lines lines Hall). unfold lift. cbn [mbind option_bind]. unfold reply. rewrite stats_end_resp; [reflexivity|exact Hp1|exact Hp2| |].
  - apply Forall_app. split; [apply process_names|]. repeat constructor; discriminate.
  - unfold lines, process_lines. rewrite !length_app. destruct (p_rusage p) as [[[[? ?] ?] ?]|]; cbn; lia.
Qed.

Definition process5 : process := Process 7 0 1700000000000000000 (str "v1") (str "abc") (Some (1, 20, 0, 3)) 100 1 1 0 (λ _, 0) 4 4096.
Definition stats5 : conn job := set_args client3 [str "stats"].

Lemma stats_reply_witness : ∃ s' c', cmdSTATS process5 server3 stats5 = Some (tt, s', c') ∧ s_cache s' = s_cache server3 ∧
  take 19 (drop (length (c_out stats5)) (c_out c')) = str "*36" ++ crlf ++ str "*2" ++ crlf ++ str "$3" ++ crlf ++ str "pid" ++ crlf ++ [36].
Proof.
  destruct (stats_reply keys5 900 process5 server3 0 ∅ stats5 (str "stats")) as (s' & t' & E & Hc & _ & _).
  - apply server3_any. vm_compute. lia.
  - vm_compute. discriminate.
  - vm_compute. discriminate.
  - reflexivity.
  - apply Forall_forall. intros kv Hkv. assert (Hb : forallb (λ kv, (length (line_of kv) <? 511)%nat && forallb (λ x, negb (x =? 0)) (line_of kv))
      (process_lines process5 (s_clock server3 0)) = true) by (vm_compute; reflexivity).
    rewrite forallb_forall in Hb. specialize (Hb kv (proj1 (list_elem_of_In _ _) Hkv)). apply andb_prop in Hb as [H1 H2]. split; [now apply Nat.ltb_lt|].
    apply Forall_forall. intros x Hx ->. rewrite forallb_forall in H2. specialize (H2 0 (proj1 (list_elem_of_In _ _) Hx)). discriminate.
  - exists s'. eexists. split; [exact E|]. split; [exact Hc|]. cbn [set_out c_out]. rewrite drop_app_length. vm_compute. reflexivity.
Defined.
