(* ===== verification/KvKeys.v ===== *)
(** * KvKeys: iterating over the store

    What an iteration over the shards shows to a callback that only looks, in
    terms of the key-value store: KEYS and SAVE are such iterations. Then what KEYS
    replies. *)

From S2P Require Import Prelude Util Context Entry Heap Map MapInv MapSpec MapOps Shard ShardInv ShardSpec ShardOps ShardStore.
From S2P Require Import Scan Samples ShardTheorems Cache Locks CacheInv CacheOps CacheTheorems CacheScan Resp RespProofs Memcache Http Parse.
From S2P Require Import Conn ConnProofs Cmds CmdTable CmdFrame Server Kv KvRel KvCmds KvBatch KvServer KvFlush.

#[local] Opaque th64 hash24 encode entry_memsize.

(** ** An iteration that deletes nothing and does not stop *)

Section Look.
Context `{Env} {U : Type} (f : view → U → U).

(** The callback only looks. *)
Definition looking (opts : iter_opts U) : Prop :=
  io_entry opts = Some (λ v u, (POGOCACHE_ITER_CONTINUE, f v u)).

Context (opts : iter_opts U) (Hlook : looking opts) (ctx : pgctx) (shardidx now : Z) (sh : shard_t) (w : world) (M : content).
Context (Hok : shard_ok ctx (w_heap w) sh M).

(** The entries [xs] of the used buckets [ys] were shown, all that are alive. *)
Definition looked (l : list bucket) (ys : list (Z * Z)) (xs : list ent) : Prop :=
  ys `sublist_of` items l ∧
  Forall2 (λ y x, M !! e_key x = Some (y.1, x) ∧ fate now (s_cleartime sh) x = 0) ys xs ∧
  ∀ y k x, y ∈ items l → M !! k = Some (y.1, x) → fate now (s_cleartime sh) x = 0 → k ∈ e_key <$> xs.

Lemma iter_loop_looking l : ∀ pre fuel u,
  m_buckets (s_map sh) = pre ++ l → (length l < fuel)%nat →
  ∃ ys xs, iter_loop fuel ctx shardidx now opts (zlen pre) sh w u =
      Some (POGOCACHE_FINISHED, sh, w, foldl (λ u v, f v u) u (ent_view shardidx now <$> xs)) ∧
    looked l ys xs.
Proof.
  pose proof (sk_map _ _ _ _ Hok) as Hm. pose proof (mo_len _ _ _ _ Hm) as Hlen.
  induction l as [|b l IH]; intros pre fuel u Hb Hf; (destruct fuel as [|fuel]; [cbn in Hf; lia|]); cbn [iter_loop].
  { rewrite app_nil_r in Hb. rewrite <- Hlen, Hb, Z.ltb_irrefl. exists [], []. split; [reflexivity|].
    split; [constructor|]. split; [constructor|]. intros y k x Hy. inversion Hy. }
  assert (Hi : 0 <= zlen pre < zlen (m_buckets (s_map sh))).
  { rewrite Hb. unfold zlen. rewrite length_app. cbn [length]. lia. }
  rewrite (proj2 (Z.ltb_lt _ _)) by (rewrite <- Hlen; lia). rewrite bget_slot by exact Hi. mstep.
  assert (Es : slot (m_buckets (s_map sh)) (zlen pre) = b).
  { pose proof (bget_slot _ _ Hi) as E. unfold bget in E. rewrite (proj2 (Z.ltb_ge _ _)) in E by lia.
    unfold zlen in E at 1. rewrite Hb in E at 1. rewrite Nat2Z.id, list_lookup_middle in E by reflexivity. congruence. }
  destruct (IH (pre ++ [b]) fuel) with (u := u) as (ys & xs & E & H1 & H2 & H3);
    [rewrite Hb, <- app_assoc; reflexivity|cbn in Hf; lia|].
  assert (Hz : zlen (pre ++ [b]) = zlen pre + 1) by (unfold zlen; rewrite length_app; cbn; lia).
  assert (Hcons : items (b :: l) = opt_list (MapInv.item b) ++ items l) by apply items_cons.
  rewrite Es, Hz in *. destruct (get_dib b =? 0) eqn:Ed; zb.
  { exists ys, xs. split; [exact E|]. unfold looked. rewrite Hcons, item_empty by exact Ed. split; [exact H1|]. split; assumption. }
  assert (Hd : dib_at (m_buckets (s_map sh)) (zlen pre) ≠ 0) by (unfold dib_at; now rewrite Es).
  destruct (slot_entry ctx _ _ M Hm _ Hd) as (k & p & x & Hk & Hp & Hh). rewrite Es in Hp, Hh.
  destruct (mo_entries _ _ _ _ Hm _ _ _ Hk) as (Hkey & Hx & Hpe & Hpr). subst k.
  rewrite Hp, Hpe. mstep. rewrite encode_alive, encode_extract by exact Hx.
  assert (Hinj : ∀ k' y, M !! k' = Some (p, y) → k' = e_key x ∧ y = x).
  { intros k' y Hk'. destruct (entries_inj _ _ _ _ _ _ _ _ (mo_entries _ _ _ _ Hm) Hk Hk') as [<- <-]. now split. }
  destruct (fate now (s_cleartime sh) x =? 0) eqn:Ef; zb; cbn [negb].
  2: { exists ys, xs. split; [exact E|]. unfold looked. rewrite Hcons, item_used by exact Ed. split; [|split; [exact H2|]].
       - now apply sublist_cons.
       - intros y k z [->|Hy]%elem_of_cons Hz' Hfz; [|exact (H3 y k z Hy Hz' Hfz)].
         cbn [fst] in Hz'. rewrite Hp in Hz'. destruct (Hinj k z Hz') as [_ ->]. contradiction. }
  rewrite Hlook. cbn [x_key]. rewrite view_of_encode by exact Hx. rewrite Z.eqb_refl.
  destruct (IH (pre ++ [b]) fuel) with (u := f (ent_view shardidx now x) u) as (ys' & xs' & E' & H1' & H2' & H3');
    [rewrite Hb, <- app_assoc; reflexivity|cbn in Hf; lia|]. rewrite Hz in E'.
  exists ((p, get_hash b) :: ys'), (x :: xs'). split; [exact E'|]. unfold looked. rewrite Hcons, item_used, Hp by exact Ed.
  split; [now apply sublist_skip|]. split; [constructor; [split; assumption|exact H2']|].
  intros y k z [->|Hy]%elem_of_cons Hz' Hfz; [|right; exact (H3' y k z Hy Hz' Hfz)].
  destruct (Hinj k z Hz') as [-> _]. left.
Qed.

Lemma looked_once l ys xs : looked l ys xs → l = m_buckets (s_map sh) → NoDup (e_key <$> xs).
Proof.
  intros (H1 & H2 & _) ->. pose proof (sk_map _ _ _ _ Hok) as Hm.
  assert (Hn : NoDup ys.*1).
  { apply (sublist_NoDup _ (items (m_buckets (s_map sh))).*1); [|now apply fmap_sublist].
    rewrite (mo_items _ _ _ _ Hm). unfold content_items. rewrite <- list_fmap_compose.
    apply NoDup_fmap_2_strong; [|apply NoDup_map_to_list].
    intros [k1 [p1 x1]] [k2 [p2 x2]] Hin1 Hin2 E. cbn in E. subst p2.
    apply elem_of_map_to_list in Hin1, Hin2.
    destruct (entries_inj _ _ _ _ _ _ _ _ (mo_entries _ _ _ _ Hm) Hin1 Hin2) as [-> ->]. reflexivity. }
  clear H1. induction H2 as [|y x ys xs [Hy _] H2 IH]; [constructor|].
  rewrite fmap_cons in Hn. apply NoDup_cons in Hn as [Hn1 Hn2]. rewrite fmap_cons. apply NoDup_cons. split; [|now apply IH].
  intros (x' & Ex & Hx')%list_elem_of_fmap. apply list_elem_of_lookup in Hx' as [j Hj].
  destruct (Forall2_lookup_r _ _ _ _ _ H2 Hj) as (y' & Hy' & Ey' & _). apply list_elem_of_lookup_2 in Hy'.
  apply Hn1. rewrite Ex in Hy. apply list_elem_of_fmap. exists y'. split; [congruence|exact Hy'].
Qed.

Lemma iterop_looking u : ∃ m w' xs,
  iterop ctx shardidx now opts sh w u =
    Some (POGOCACHE_FINISHED, set_map sh m, w', foldl (λ u v, f v u) u (ent_view shardidx now <$> xs)) ∧
  w_heap w' = w_heap w ∧ shard_ok ctx (w_heap w) (set_map sh m) M ∧
  Forall (λ x, (∃ p, M !! e_key x = Some (p, x)) ∧ fate now (s_cleartime sh) x = 0) xs ∧
  NoDup (e_key <$> xs) ∧
  ∀ k p x, M !! k = Some (p, x) → fate now (s_cleartime sh) x = 0 → k ∈ e_key <$> xs.
Proof.
  destruct (iter_loop_looking (m_buckets (s_map sh)) [] (scan_fuel sh) u eq_refl) as (ys & xs & E & Hl).
  { unfold scan_fuel. lia. }
  unfold iterop. change 0 with (zlen ([] : list bucket)). rewrite E. mstep.
  destruct (shrink_shard ctx w sh M true Hok) as (m & w' & -> & Hh & _ & Hok2). mstep.
  exists m, w', xs. split; [reflexivity|]. split; [exact Hh|]. split; [exact Hok2|].
  split; [|split; [exact (looked_once _ _ _ Hl eq_refl)|]]; destruct Hl as (_ & H2 & H3).
  - clear -H2. induction H2 as [|y x ys xs [Hy Hf] _ IH]; constructor; [|exact IH]. split; [now exists y.1|exact Hf].
  - intros k p x Hk Hf. pose proof (sk_map _ _ _ _ Hok) as Hm. apply (H3 (p, hash24 ctx k) k x); [|exact Hk|exact Hf].
    rewrite (mo_items _ _ _ _ Hm). apply content_items_elem. exists k, x. now split.
Qed.
End Look.

(** ** In terms of the store *)

Section Iter.
Context `{Env} {U : Type} (K : gset bytes) (B : nat) (f : view → U → U).

(** A view of an item of the store, in the ranges of the C types. *)
Definition faithful_view (t : Z) (m : kv) (v : view) : Prop :=
  ∃ x, kv_get t m (v_key v) = Some x ∧ shows v t (v_key v) x ∧ key_ok (v_key v) ∧ is_u64 (v_cas v).

(** Views of the live items whose keys satisfy [P], all of them and each once. *)
Record views_of (P : bytes → Prop) (t : Z) (m : kv) (vs : list view) : Prop := {
  vo_views : Forall (λ v, P (v_key v) ∧ faithful_view t m v) vs;
  vo_once : NoDup (v_key <$> vs);
  vo_all key : P key → is_Some (kv_get t m key) → key ∈ v_key <$> vs
}.

Lemma iter_shard_kv (opts : iter_opts U) (k : cache_t) (w : world) (Ms : list content) (t : Z) (m : kv) (i : Z) (u : U) :
  looking f opts → kv_rel K B k w Ms t m → unlocked k → 0 <= i < nshards (c_ctx k) →
  ∃ k' w' vs, iter_shard t opts i Root k (w, u) =
      Some (POGOCACHE_FINISHED, Root, k', (w', foldl (λ u v, f v u) u vs)) ∧
    kv_rel K B k' w' Ms t m ∧ c_ctx k' = c_ctx k ∧ c_locks k' = c_locks k ∧
    views_of (λ key, home (c_ctx k) key = i) t m vs.
Proof.
  intros Hlook Hr Hu Hi. pose proof Hr as [Hok H2 H3 H4 H5 H7 H6].
  pose proof (co_shards _ _ _ Hok) as Hns. pose proof (co_locks _ _ _ Hok) as Hnl.
  destruct (lookup_lt_is_Some_2 (c_shards k) (Z.to_nat i)) as [sh Hsh]; [lia|].
  destruct (lookup_lt_is_Some_2 Ms (Z.to_nat i)) as [M HM]; [rewrite (co_contents _ _ _ Hok); lia|].
  pose proof (co_shard _ _ _ Hok _ sh M Hsh HM) as Hshok.
  destruct (iterop_looking f opts Hlook (c_ctx k) i t sh w M Hshok u)
    as (mp & w' & xs & E & Hh & Hs' & Hxs & Honce & Hall).
  set (vs := ent_view i t <$> xs) in *. set (sh' := set_map sh mp) in *.
  unfold iter_shard. rewrite (execute_spec i Root k (w, u) _ sh POGOCACHE_FINISHED sh' (w', foldl (λ u v, f v u) u vs)).
  2: { apply unlocked_available; [exact Hu|]. rewrite Hnl, Hns. exact Hi. }
  2: { unfold shard_get. rewrite (proj2 (Z.ltb_ge i 0)) by lia. exact Hsh. }
  2: { cbn [fst snd]. rewrite E. reflexivity. }
  eexists _, w', vs. split; [reflexivity|]. split; [|split; [reflexivity|split; [reflexivity|]]].
  - set (k' := Cache _ _ _). rewrite <- Hh in Hs'.
    destruct (cache_ok_update k k' (w_heap w) (w_heap w') Ms (Z.to_nat i) sh' M M Hok HM) as [Hok' Hf];
      [now rewrite Hh|exact Hs'| |reflexivity|reflexivity|reflexivity|].
    { intros key Hkey. exact (co_home _ _ _ Hok _ M key HM Hkey). }
    rewrite (list_insert_id Ms _ M HM) in Hok', Hf.
    assert (Hget : ∀ j shj, c_shards k' !! j = Some shj → ∃ shj0, c_shards k !! j = Some shj0 ∧
      s_cleartime shj = s_cleartime shj0).
    { intros j shj Hj. cbn [k' c_shards] in Hj. destruct (decide (j = Z.to_nat i)) as [->|Hne].
      - rewrite list_lookup_insert_eq in Hj by lia. injection Hj as <-. exists sh. split; [exact Hsh|reflexivity].
      - rewrite list_lookup_insert_ne in Hj by congruence. exists shj. split; [exact Hj|reflexivity]. }
    split; [exact Hok'| |exact H3|exact H4|now rewrite Hf|exact H7|].
    + intros j shj Hj. destruct (Hget j shj Hj) as (shj0 & Hj0 & ->). exact (H2 j shj0 Hj0).
    + intros now key shj N Hn Hj HN. change (key_shard k' key) with (key_shard k key) in Hj, HN.
      destruct (Hget _ shj Hj) as (shj0 & Hj0 & Ect). rewrite <- (H6 now key shj0 N Hn Hj0 HN).
      unfold shown, abs. cbn [a_ents a_cleartime]. now rewrite Ect.
  - assert (Hshown : ∀ key, home (c_ctx k) key = i → kv_get t m key = shown t (abs sh M) key).
    { intros key Hk. symmetry. apply (H6 t key sh M (Z.le_refl t)); unfold key_shard; now rewrite Hk. }
    assert (Ekeys : v_key <$> vs = e_key <$> xs) by (unfold vs; rewrite <- list_fmap_compose; reflexivity).
    split.
    + unfold vs. apply Forall_fmap. eapply Forall_impl; [exact Hxs|]. cbn. intros x ((p & Hp) & Hf).
      assert (Hk : home (c_ctx k) (e_key x) = i).
      { rewrite (co_home _ _ _ Hok _ M (e_key x) HM) by (exists (p, x); exact Hp). lia. }
      destruct (mo_entries _ _ _ _ (sk_map _ _ _ _ Hshok) _ _ _ Hp) as (_ & (X1 & X2 & X3 & X4 & X5 & X6 & _) & _).
      split; [exact Hk|]. exists (item_of x). cbn [ent_view v_key v_cas]. split; [|split; [|split; [|exact X6]]].
      * rewrite (Hshown _ Hk). apply shown_alive; [|exact Hf]. apply abs_entry. exists p. exact Hp.
      * do 5 (split; [reflexivity|]). split; [exact X3|split; [exact X4|exact X5]].
      * split; [exact X1|exact X2].
    + rewrite Ekeys. exact Honce.
    + intros key Hk [x Hx]. rewrite (Hshown key Hk) in Hx. unfold shown in Hx.
      destruct (a_ents (abs sh M) !! key) as [y|] eqn:Ey; [|discriminate Hx]. cbn in Hx.
      destruct (fate t (s_cleartime sh) y =? 0) eqn:Ef; [|discriminate Hx]. zb.
      apply abs_entry in Ey as [p Ey]. rewrite Ekeys. exact (Hall key p y Ey Ef).
Qed.

Lemma views_nil (P : bytes → Prop) (t : Z) (m : kv) : (∀ key, ¬ P key) → views_of P t m [].
Proof. intros HP. split; [constructor|constructor|]. intros key Hk. destruct (HP key Hk). Qed.

Lemma views_app (P Q R : bytes → Prop) (t : Z) (m : kv) vs1 vs2 :
  (∀ key, R key ↔ P key ∨ Q key) → (∀ key, P key → Q key → False) →
  views_of P t m vs1 → views_of Q t m vs2 → views_of R t m (vs1 ++ vs2).
Proof.
  intros HR HPQ [P1 P2 P3] [Q1 Q2 Q3]. split.
  - apply Forall_app. split; (eapply Forall_impl; [eassumption|]); cbn; intros v [Hv Hx];
      (split; [apply HR; auto|exact Hx]).
  - rewrite fmap_app. apply NoDup_app. split; [exact P2|]. split; [|exact Q2].
    intros key (v & -> & Hv)%list_elem_of_fmap (v' & E & Hv')%list_elem_of_fmap.
    rewrite Forall_forall in P1, Q1. apply (HPQ (v_key v)); [exact (proj1 (P1 v Hv))|]. rewrite E. exact (proj1 (Q1 v' Hv')).
  - intros key Hk Hx. rewrite fmap_app. apply elem_of_app. apply HR in Hk as [Hk|Hk]; [left; now apply P3|right; now apply Q3].
Qed.

Lemma iter_shards_kv (opts : iter_opts U) (Ms : list content) (t : Z) (m : kv) (ctx : pgctx) todo :
  looking f opts → ∀ (k : cache_t) (w : world) (i : Z) (u : U),
  c_ctx k = ctx → kv_rel K B k w Ms t m → unlocked k → 0 <= i → i + Z.of_nat todo = nshards ctx →
  ∃ k' w' vs, iter_shards todo t opts i Root k (w, u) =
      Some (POGOCACHE_FINISHED, Root, k', (w', foldl (λ u v, f v u) u vs)) ∧
    kv_rel K B k' w' Ms t m ∧ c_ctx k' = ctx ∧ c_locks k' = c_locks k ∧
    views_of (λ key, i <= home ctx key < nshards ctx) t m vs.
Proof.
  intros Hlook. induction todo as [|todo IH]; intros k w i u Ec Hr Hu Hi Hn; cbn [iter_shards].
  { exists k, w, []. split; [reflexivity|]. split; [exact Hr|]. split; [exact Ec|]. split; [reflexivity|].
    apply views_nil. intros key. lia. }
  destruct (iter_shard_kv opts k w Ms t m i u Hlook Hr Hu) as (k1 & w1 & vs1 & E1 & Hr1 & Ec1 & El1 & Hv1); [rewrite Ec; lia|].
  rewrite E1. cbn [mbind option_bind].
  destruct (IH k1 w1 (i + 1) (foldl (λ u v, f v u) u vs1)) as (k2 & w2 & vs2 & E2 & Hr2 & Ec2 & El2 & Hv2);
    [congruence|exact Hr1|exact (unlocked_same _ _ El1 Hu)|lia|lia|].
  change (negb (POGOCACHE_FINISHED =? POGOCACHE_FINISHED)) with false. cbn iota. rewrite E2. cbn [mbind option_bind].
  exists k2, w2, (vs1 ++ vs2). rewrite foldl_app. split; [reflexivity|]. split; [exact Hr2|]. split; [exact Ec2|].
  split; [congruence|]. rewrite Ec in Hv1. eapply views_app; [| |exact Hv1|exact Hv2]; intros key; cbn; lia.
Qed.
End Iter.

(** ** KEYS lists the keys that match

    The work of KEYS iterates over all shards and collects the matching keys in
    a buffer, each with its length; the reply reads the buffer back. *)

#[local] Opaque th64 hash24 encode entry_memsize.

(** ** The buffer of keys *)

Definition key_bytes (key : bytes) : bytes := varint_write_u64 (size key) ++ key.

Lemma read_keys_buffer keys : ∀ rest,
  Forall (λ key, Z.of_nat (length key) < 2 ^ 64) keys →
  read_keys (length keys) (concat (key_bytes <$> keys) ++ rest) = keys.
Proof.
  induction keys as [|key keys IH]; intros rest Hk; [reflexivity|].
  inversion Hk as [|? ? Hk1 Hk2]; subst. cbn [fmap list_fmap concat]. set (tail := concat (key_bytes <$> keys)).
  unfold key_bytes. rewrite <- !app_assoc.
  assert (Hu : is_u64 (size key)) by (unfold is_u64, size; lia).
  pose proof (length_varint _ Hu) as Hl. cbn [length read_keys].
  rewrite (take_app_ge _ _ 10) by exact Hl. rewrite varint_read_write by exact Hu.
  rewrite Nat2Z.id, drop_app_length. unfold size. rewrite Nat2Z.id, take_app_length, drop_app_length.
  f_equal. apply IH. exact Hk2.
Qed.

Definition matches (pattern key : bytes) : bool := bool_decide (pattern = [42]) || match_pat pattern key.

Lemma matches_pat pattern key : matches pattern key = match_pat pattern key.
Proof. unfold matches. destruct (bool_decide (pattern = [42])) eqn:E; [|reflexivity]. apply bool_decide_eq_true in E as ->. reflexivity. Qed.

Lemma keys_collected pattern vs : ∀ b n,
  foldl (λ u v, (keys_entry pattern v u).2) (b, n) vs =
    let keys := filter (λ key, matches pattern key = true) (v_key <$> vs) in
    (b ++ concat (key_bytes <$> keys), n + Z.of_nat (length keys)).
Proof.
  induction vs as [|v vs IH]; intros b n; cbv zeta; cbn [foldl fmap list_fmap].
  { cbn. now rewrite app_nil_r, Z.add_0_r. }
  cbn [keys_entry snd fst]. fold (matches pattern (v_key v)). rewrite filter_cons.
  destruct (matches pattern (v_key v)) eqn:E.
  - rewrite decide_True by reflexivity. rewrite IH. cbn [fmap list_fmap concat length]. unfold key_bytes at 2.
    f_equal; [now rewrite <- !app_assoc|]. lia.
  - rewrite decide_False by discriminate. apply IH.
Qed.

(** The reply to KEYS in the Redis protocol. *)
Lemma keys_done c keys :
  c_proto c = PROTO_RESP →
  foldl conn_write_bulk (conn_write_array c (Z.of_nat (length keys))) keys = writes c (RArray (Some <$> keys)).
Proof.
  intros Hp. unfold conn_write_array. rewrite writeln_line, line_clean by (apply u64toa_clean; lia).
  set (head := 42 :: _ ++ crlf).
  assert (Hfold : ∀ l out, foldl conn_write_bulk (set_out c out) l = set_out c (out ++ concat (resp_bulk <$> l))).
  { induction l as [|a l IH]; intros out; cbn [foldl fmap list_fmap concat]; [now rewrite app_nil_r|].
    change (conn_write_bulk (set_out c out) a) with (set_out c (out ++ resp_bulk a)). now rewrite IH, <- app_assoc. }
  rewrite Hfold. unfold writes, head. cbn [reply_bytes]. rewrite length_fmap, <- list_fmap_compose.
  f_equal. rewrite <- app_assoc. cbn [app]. now rewrite <- app_assoc.
Qed.

Section Keys.
Context `{Env} `{!EnvOk _} (K : gset bytes) (B : nat).

End Keys.

