(* ===== verification/Snapshot.v ===== *)
(** * Snapshot: saving the cache to a file and loading it again

    [src/src/save.c]. [save] writes one compressed block per shard that holds an
    entry to a work file and renames it; [load] reads the blocks and hands them
    to threads that store the entries. This file models the functions that
    write and read blocks; [LoadQueue.v] models the threads of [load]. Blocks
    are compressed by the lz4 library, which is the interface [Lz4]. Buffers are
    the bytes they hold ([Buf.v] shows that appending concatenates). [None] is a
    failed assertion or a loop that does not end. *)

From S2P Require Import Prelude Util Context Heap Shard Cache Resp Conn Cmds.

(** ** The compressor *)

Definition LZ4_MAX_INPUT_SIZE : Z := 0x7E000000.

(** The conversion of a [size_t] to [int]. *)
Definition i32 (x : Z) : Z := let y := u32 x in if y <? 2 ^ 31 then y else y - 2 ^ 32.

Definition LZ4_compressBound (isize : Z) : Z :=
  if LZ4_MAX_INPUT_SIZE <? u32 isize then 0 else isize + Z.quot isize 255 + 16.

(** [LZ4_compress_default src srcSize dstCapacity], the bytes written, none when
    it fails; [LZ4_decompress_safe src dstCapacity], nothing when the result is
    negative. *)
Class Lz4 := {
  LZ4_compress_default : bytes → Z → Z → bytes;
  LZ4_decompress_safe : bytes → Z → option bytes
}.

(** What [lz4.h] says of them: compression succeeds within [LZ4_compressBound]
    and can be undone, a size above the limit is refused, and there is no empty
    compressed block. *)
Class Lz4Ok (L : Lz4) : Prop := {
  lz4_roundtrip src cap :
    0 < Z.of_nat (length src) <= LZ4_MAX_INPUT_SIZE → LZ4_compressBound (Z.of_nat (length src)) <= cap →
    let dst := LZ4_compress_default src (Z.of_nat (length src)) cap in
    dst ≠ [] ∧ Z.of_nat (length dst) <= LZ4_compressBound (Z.of_nat (length src)) ∧
    LZ4_decompress_safe dst (Z.of_nat (length src)) = Some src;
  lz4_too_large src n cap : LZ4_MAX_INPUT_SIZE < u32 n → LZ4_compress_default src n cap = [];
  lz4_empty cap : LZ4_decompress_safe [] cap = None
}.

(** ** The system *)

(** Files by path, the offset of the descriptor of the work file, and the results
    of the system calls [open], [write], [read] and [rename] from now on: negative
    for a failure, otherwise how much is transferred at most. *)
Record disk := Disk { d_files : gmap bytes bytes; d_off : Z; d_io : nat → Z }.

Definition io (d : disk) : Z * disk := (d_io d 0%nat, Disk (d_files d) (d_off d) (λ i, d_io d (S i))).

(** The server, and the readings of [sys_unixnow] from now on. *)
Record snap := Snap { n_server : server; n_unix : nat → Z }.

Definition sys_now_unix (s : snap) : Z * Z * snap :=
  (s_clock (n_server s) 0%nat, n_unix s 0%nat,
   let v := n_server s in
   Snap (Serve (s_cache v) (s_world v) (s_flush_delay v) (s_lowmem v) (λ i, s_clock v (S i)))
     (λ i, n_unix s (S i))).

(** Bytes written over a file at an offset. *)
Definition overwrite (file : bytes) (off : Z) (data : bytes) : bytes :=
  take (Z.to_nat off) file ++ data ++ drop (Z.to_nat (off + size data)) file.

(** ** Writing blocks *)

Section Save.
Context `{Env} {lz4 : Lz4}.

(** The block [flush] writes: the header of sixteen bytes and the compressed data. *)
Definition block_bytes (data : bytes) : bytes :=
  let bounds := LZ4_compressBound (i32 (size data)) in
  let dst := LZ4_compress_default data (i32 (size data)) bounds in
  str "POGO" ++ write_u32 (crc32 dst) ++ write_u32 (u32 (size data)) ++ write_u32 (size dst) ++ dst.

(** The loop around [write]. *)
Fixpoint write_all (fuel : nat) (work p : bytes) (d : disk) : option (bool * disk) :=
  match p with
  | [] => Some (true, d)
  | _ =>
      match fuel with
      | O => None
      | S fuel =>
          let '(n, d) := io d in
          if n <? 0 then Some (false, d)
          else
            let n := Z.min n (size p) in
            let file := default [] (d_files d !! work) in
            write_all fuel work (drop (Z.to_nat n) p)
              (Disk (<[work := overwrite file (d_off d) (take (Z.to_nat n) p)]> (d_files d)) (d_off d + n) (d_io d))
      end
  end.

(** [flush]; the buffer is empty afterwards. *)
Definition flush (work buf : bytes) (nentries : Z) (d : disk) : option (bool * disk) :=
  if nentries =? 0 then Some (true, d)
  else write_all (length (block_bytes buf)) work (block_bytes buf) d.

(** The bytes of an entry; nothing when the assertion fails. *)
Definition entry_bytes (v : view) : option bytes :=
  ttl ← (if 0 <? v_expires v then
           let ttl := v_expires v - v_time v in if 0 <? ttl then Some ttl else None
         else Some 0);
  Some ([0] ++ varint_write_u64 (size (v_key v)) ++ v_key v ++ varint_write_u64 (size (v_val v)) ++ v_val v ++
        varint_write_u64 ttl ++ varint_write_u64 (v_flags v) ++ varint_write_u64 (v_cas v)).

(** [save_entry], on the buffer and the number of entries. *)
Definition save_entry (v : view) (u : option (bytes * Z)) : Z * option (bytes * Z) :=
  (POGOCACHE_ITER_CONTINUE,
   '(buf, nentries) ← u; e ← entry_bytes v; Some (buf ++ e, nentries + 1)).

(** The loop of [thsave]: whether all shards were written. *)
Fixpoint thsave (work : bytes) (todo : nat) (shardidx : Z) (s : snap) (d : disk) : option (bool * snap * disk) :=
  match todo with
  | O => Some (true, s, d)
  | S todo =>
      let '(now, unixnow, s) := sys_now_unix s in
      let v := n_server s in
      '(status, _, k, wu) ← pogocache_iter (s_clock v 0%nat) (IterOpts now true shardidx (Some save_entry)) Root
         (s_cache v) (s_world v, Some (varint_write_u64 (u64 unixnow), 0));
      '(buf, nentries) ← wu.2;
      let s := Snap (set_cache v k wu.1) (n_unix s) in
      if status =? POGOCACHE_CANCELED then Some (false, s, d)
      else
        '(ok, d) ← flush work buf nentries d;
        if ok : bool then thsave work todo (shardidx + 1) s d else Some (false, s, d)
  end.

(** The threads of [save], one after the other, each over its range of shards:
    whether all ended well. *)
Fixpoint thsaves (work : bytes) (ranges : list (Z * Z)) (s : snap) (d : disk) : option (bool * snap * disk) :=
  match ranges with
  | [] => Some (true, s, d)
  | (start, count) :: ranges =>
      '(ok, s, d) ← thsave work (Z.to_nat count) start s d;
      '(oks, s, d) ← thsaves work ranges s d;
      Some (ok && oks, s, d)
  end.

Definition INT_MAX : Z := 2 ^ 31 - 1.
Definition work_path (path : bytes) (seed : Z) : bytes :=
  path ++ str "." ++ hex8 (seed mod INT_MAX) ++ str ".pogocache.work".

(** [save], with the number of processors and the seed. The ranges are those of
    [bgflushwork]. A work file that is there already is not truncated. The threads
    run one after the other, and the [unlink] at the end, whose result the code
    does not look at, succeeds. *)
Definition save (nprocs seed : Z) (path : bytes) (fast : bool) (s : snap) (d : disk) : option (bool * snap * disk) :=
  let work := work_path path seed in
  let '(r, d) := io d in
  if r <? 0 then Some (false, s, d)
  else
    let d := Disk (<[work := default [] (d_files d !! work)]> (d_files d)) 0 (d_io d) in
    let n := nshards (c_ctx (s_cache (n_server s))) in
    let nprocs := if n <? nprocs then n else nprocs in
    let nprocs := if fast then nprocs else 1 in
    '(ok, s, d) ← thsaves work (flush_ranges (Z.to_nat nprocs) n nprocs 0) s d;
    if ok : bool then
      let '(r, d) := io d in
      if r <? 0 then Some (false, s, Disk (delete work (d_files d)) (d_off d) (d_io d))
      else
        let file := default [] (d_files d !! work) in
        Some (true, s, Disk (<[path := file]> (delete work (d_files d))) (d_off d) (d_io d))
    else Some (false, s, Disk (delete work (d_files d)) (d_off d) (d_io d)).
End Save.

(** ** Reading blocks *)

(** [struct cblock]. *)
Record cblock := CBlock { cb_cdata : bytes; cb_dlen : Z }.

(** The counts of [struct loadctx]. *)
Record load_counts := Counts { lc_ninserted : Z; lc_nexpired : Z }.

Section Load.
Context `{Env} {lz4 : Lz4}.

(** A number and the bytes behind it, as [load_block] reads them. *)
Definition read_uvarint (p : bytes) : option (Z * bytes) :=
  let '(n, x) := varint_read_u64 p in
  if n <=? 0 then None else Some (x, drop (Z.to_nat n) p).

(** A length, that many bytes and the bytes behind them. *)
Definition read_string (p : bytes) : option (bytes * bytes) :=
  '(len, p) ← read_uvarint p;
  if size p <? len then None else Some (take (Z.to_nat len) p, drop (Z.to_nat len) p).

Record saved := Saved { sv_key : bytes; sv_val : bytes; sv_ttl : Z; sv_flags : Z; sv_cas : Z }.

(** One entry and the bytes behind it; nothing for each of the errors. *)
Definition read_entry (p : bytes) : option (saved * bytes) :=
  match p with
  | kind :: p =>
      if negb (kind =? 0) then None
      else
        '(key, p) ← read_string p;
        '(val, p) ← read_string p;
        '(ttl, p) ← read_uvarint p;
        if 2 ^ 63 <=? ttl then None
        else
          '(flags, p) ← read_uvarint p;
          if 2 ^ 32 - 1 <? flags then None
          else
            '(cas, p) ← read_uvarint p;
            Some (Saved key val ttl flags cas, p)
  | [] => None
  end.

(** What happens to an entry: skipped, or stored with a time to live. *)
Definition new_ttl (unixtime unixnow ttl : Z) : option Z :=
  if 0 <? ttl then
    let unixexpires := int64_add_clamp unixtime ttl in
    if unixexpires <? unixnow then None else Some (unixexpires - unixnow)
  else Some ttl.

(** The call of [pogocache_store] and its assertion. *)
Definition store_saved (now ttl : Z) (e : saved) (s : server) : option server :=
  let opts : store_opts unit :=
    StoreOpts now 0 ttl (sv_cas e) (sv_flags e) false false false false false None in
  '(ret, _, k, w, _) ← pogocache_store (s_clock s 0%nat) (sv_key e) (sv_val e) opts Root (s_cache s) (s_world s) tt;
  if (ret =? POGOCACHE_INSERTED) || (ret =? POGOCACHE_REPLACED) then Some (set_cache s k w) else None.

(** The loop of [load_block]. An entry has at least one byte. *)
Fixpoint load_entries (fuel : nat) (now unixnow unixtime : Z) (p : bytes) (n : load_counts) (s : server)
    : option (bool * load_counts * server) :=
  match p with
  | [] => Some (true, n, s)
  | _ =>
      match fuel with
      | O => None
      | S fuel =>
          match read_entry p with
          | None => Some (false, n, s)
          | Some (e, p) =>
              match new_ttl unixtime unixnow (sv_ttl e) with
              | None => load_entries fuel now unixnow unixtime p (Counts (lc_ninserted n) (lc_nexpired n + 1)) s
              | Some ttl =>
                  s ← store_saved now ttl e s;
                  load_entries fuel now unixnow unixtime p (Counts (lc_ninserted n + 1) (lc_nexpired n)) s
              end
          end
      end
  end.

(** [load_block]. *)
Definition load_block (block : cblock) (n : load_counts) (s : snap) : option (bool * load_counts * snap) :=
  let '(now, unixnow, s) := sys_now_unix s in
  match LZ4_decompress_safe (cb_cdata block) (i32 (cb_dlen block)) with
  | Some ddata =>
      if negb (size ddata =? cb_dlen block) then Some (false, n, s)
      else
        match read_uvarint ddata with
        | Some (x, p) =>
            if 2 ^ 63 <=? x then Some (false, n, s)
            else
              '(ok, n, v) ← load_entries (length p) now unixnow x p n (n_server s);
              Some (ok, n, Snap v (n_unix s))
        | None => Some (false, n, s)
        end
  | None => Some (false, n, s)
  end.

(** An open file: the bytes not read yet, and the results of [read] from now on. *)
Record rfile := RFile { rf_rest : bytes; rf_io : nat → Z }.

(** [read]: [None] for [-1]. *)
Definition read (f : rfile) (n : Z) : option bytes * rfile :=
  let r := rf_io f 0%nat in
  let f' := RFile (rf_rest f) (λ i, rf_io f (S i)) in
  if r <? 0 then (None, f')
  else
    let n := Z.to_nat (Z.min r n) in
    (Some (take n (rf_rest f)), RFile (drop n (rf_rest f)) (rf_io f')).

(** The loop that reads the compressed data; [None] in the result when it ends
    early. *)
Fixpoint read_data (fuel : nat) (clen : Z) (cdata : bytes) (f : rfile) : option (option bytes * rfile) :=
  if size cdata <? clen then
    match fuel with
    | O => None
    | S fuel =>
        match read f (clen - size cdata) with
        | (Some (b :: l), f) => read_data fuel clen (cdata ++ b :: l) f
        | (_, f) => Some (None, f)
        end
    end
  else Some (Some cdata, f).

(** How a round of the loop of [load] ends before it queues a block. *)
Inductive round := Eof | Bad | Block (b : cblock).

Definition read_block (f : rfile) : option (round * rfile) :=
  match read f 16 with
  | (None, f) => Some (Bad, f)
  | (Some head, f) =>
      if size head =? 0 then Some (Eof, f)
      else if size head <? 16 then Some (Bad, f)
      else if negb (bool_decide (take 4 head = str "POGO")) then Some (Bad, f)
      else
        let crc := le_get (take 4 (drop 4 head)) in
        let dlen := read_u32 (drop 8 head) in
        let clen := read_u32 (drop 12 head) in
        '(r, f) ← read_data (Z.to_nat clen) clen [] f;
        match r with
        | None => Some (Bad, f)
        | Some cdata =>
            if negb (crc32 cdata =? crc) then Some (Bad, f)
            else Some (Block (CBlock cdata dlen), f)
        end
  end.
End Load.
