(* ===== verification/SnapshotProofs.v ===== *)
(** * SnapshotProofs: blocks are read back as they were written *)

From S2P Require Import Prelude Util Context Heap Shard Cache Resp Conn Cmds Snapshot.

(** ** Checksums fit their field *)

Lemma lxor_u32 a b : is_u32 a → is_u32 b → is_u32 (a .^ b).
Proof.
  unfold is_u32. intros Ha Hb. assert (0 <= a .^ b) by (apply Z.lxor_nonneg; lia). split; [lia|].
  destruct (decide (a .^ b = 0)) as [->|Hne]; [lia|]. apply Z.log2_lt_pow2; [lia|].
  pose proof (Z.log2_lxor a b ltac:(lia) ltac:(lia)) as Hl.
  assert (∀ x, 0 <= x < 2 ^ 32 → Z.log2 x < 32).
  { intros x Hx. destruct (decide (x = 0)) as [->|]; [cbn; lia|]. apply Z.log2_lt_pow2; lia. }
  pose proof (H0 a Ha). pose proof (H0 b Hb). lia.
Qed.

Lemma crc_table_u32 i : is_u32 (nth i crc_table 0).
Proof.
  assert (Hf : forallb (λ x, (0 <=? x) && (x <? 2 ^ 32)) crc_table = true) by (vm_compute; reflexivity).
  destruct (nth_in_or_default i crc_table 0) as [Hin|E]; [|rewrite E; unfold is_u32; lia].
  rewrite forallb_forall in Hf. apply Hf in Hin. apply andb_true_iff in Hin as [H1 H2]. zb.
  unfold is_u32. lia.
Qed.

Lemma crc32_u32 data : is_u32 (crc32 data).
Proof.
  unfold crc32. apply lxor_u32; [|unfold is_u32; lia].
  assert (H0 : is_u32 0xffffffff) by (unfold is_u32; lia). revert H0. generalize 0xffffffff.
  induction data as [|b data IH]; intros crc Hc; cbn [fold_left]; [exact Hc|]. apply IH, lxor_u32.
  - apply crc_table_u32.
  - unfold is_u32 in *. rewrite Z.shiftr_div_pow2 by lia. dm.
Qed.

(** ** Entries *)

Lemma read_uvarint_write x p : is_u64 x → read_uvarint (varint_write_u64 x ++ p) = Some (x, p).
Proof.
  intros Hx. unfold read_uvarint. rewrite varint_read_write by exact Hx.
  pose proof (varint_write_nonnil x) as Hn. destruct (varint_write_u64 x) as [|b l]; [now destruct Hn|].
  rewrite (proj2 (Z.leb_gt _ _)) by (cbn; lia). now rewrite Nat2Z.id, drop_app_length.
Qed.

Lemma read_string_write s p :
  Z.of_nat (length s) < 2 ^ 64 → read_string (varint_write_u64 (size s) ++ s ++ p) = Some (s, p).
Proof.
  intros Hs. unfold read_string. rewrite read_uvarint_write by (unfold is_u64, size; lia). mstep.
  unfold size. rewrite length_app, (proj2 (Z.ltb_ge _ _)) by lia.
  now rewrite Nat2Z.id, take_app_length, drop_app_length.
Qed.

(** What a view can be saved as. *)
Record savable (v : view) : Prop := {
  sb_key : Z.of_nat (length (v_key v)) < 2 ^ 64;
  sb_val : Z.of_nat (length (v_val v)) < 2 ^ 64;
  sb_expires : 0 <= v_expires v < 2 ^ 63;
  sb_time : 0 <= v_time v;
  sb_live : 0 < v_expires v → v_time v < v_expires v;
  sb_flags : is_u32 (v_flags v);
  sb_cas : is_u64 (v_cas v)
}.

Definition saved_of (v : view) : saved :=
  Saved (v_key v) (v_val v) (if 0 <? v_expires v then v_expires v - v_time v else 0) (v_flags v) (v_cas v).

Lemma entry_roundtrip_saved v rest :
  savable v → ∃ e, entry_bytes v = Some e ∧ e ≠ [] ∧ read_entry (e ++ rest) = Some (saved_of v, rest).
Proof.
  intros [H1 H2 H3 H4 H5 H6 H7]. unfold entry_bytes, saved_of.
  set (ttl := if 0 <? v_expires v then v_expires v - v_time v else 0).
  assert (E : (if 0 <? v_expires v then if 0 <? v_expires v - v_time v then Some (v_expires v - v_time v) else None
               else Some 0) = Some ttl ∧ 0 <= ttl < 2 ^ 63).
  { unfold ttl. destruct (0 <? v_expires v) eqn:E; zb; [|split; [reflexivity|lia]].
    rewrite (proj2 (Z.ltb_lt _ _)) by lia. split; [reflexivity|lia]. }
  destruct E as [E Httl]. cbv zeta. rewrite E. mstep. eexists. split; [reflexivity|]. split; [discriminate|].
  cbn [app read_entry Z.eqb negb]. rewrite <- !app_assoc.
  rewrite read_string_write by exact H1. mstep. rewrite read_string_write by exact H2. mstep.
  rewrite read_uvarint_write by (unfold is_u64; lia). mstep. rewrite (proj2 (Z.leb_gt _ _)) by lia.
  unfold is_u32 in H6. rewrite read_uvarint_write by (unfold is_u64; lia). mstep.
  rewrite (proj2 (Z.ltb_ge _ _)) by lia. rewrite read_uvarint_write by exact H7. reflexivity.
Qed.

(** The entries of a block. *)
Definition entries_bytes (vs : list view) : bytes := concat (default [] ∘ entry_bytes <$> vs).

Lemma save_entries vs : ∀ buf n,
  Forall savable vs →
  foldl (λ u v, (save_entry v u).2) (Some (buf, n)) vs = Some (buf ++ entries_bytes vs, n + Z.of_nat (length vs)).
Proof.
  induction vs as [|v vs IH]; intros buf n Hv; cbn [foldl].
  { unfold entries_bytes. cbn. now rewrite app_nil_r, Z.add_0_r. }
  inversion Hv as [|? ? Hv1 Hv2]; subst. destruct (entry_roundtrip_saved v [] Hv1) as (e & E & _).
  unfold save_entry at 2. cbn [snd]. mstep. rewrite E. mstep. rewrite IH by exact Hv2.
  unfold entries_bytes. cbn [fmap list_fmap concat compose]. rewrite E. cbn [default from_option id].
  rewrite <- app_assoc. do 2 f_equal. cbn [length]. lia.
Qed.

Section Blocks.
Context `{Env} {lz4 : Lz4} {lz4_ok : Lz4Ok lz4}.

(** The entries of a block stored one after the other, without the bytes. *)
Fixpoint store_entries (now unixnow unixtime : Z) (es : list saved) (n : load_counts) (s : server)
    : option (load_counts * server) :=
  match es with
  | [] => Some (n, s)
  | e :: es =>
      match new_ttl unixtime unixnow (sv_ttl e) with
      | None => store_entries now unixnow unixtime es (Counts (lc_ninserted n) (lc_nexpired n + 1)) s
      | Some ttl =>
          s ← store_saved now ttl e s;
          store_entries now unixnow unixtime es (Counts (lc_ninserted n + 1) (lc_nexpired n)) s
      end
  end.

Lemma load_entries_bytes now unixnow unixtime vs : ∀ fuel n s,
  Forall savable vs → (length (entries_bytes vs) <= fuel)%nat →
  load_entries fuel now unixnow unixtime (entries_bytes vs) n s =
    ('(n, s) ← store_entries now unixnow unixtime (saved_of <$> vs) n s; Some (true, n, s)).
Proof.
  induction vs as [|v vs IH]; intros fuel n s Hv Hf; [now destruct fuel|].
  inversion Hv as [|? ? Hv1 Hv2]; subst.
  destruct (entry_roundtrip_saved v (entries_bytes vs) Hv1) as (e & E & Hne & Er).
  assert (Ee : entries_bytes (v :: vs) = e ++ entries_bytes vs).
  { unfold entries_bytes. cbn [fmap list_fmap concat compose]. now rewrite E. }
  rewrite Ee in *. destruct e as [|b e]; [now destruct Hne|]. rewrite length_app in Hf. cbn [length] in Hf.
  destruct fuel as [|fuel]; [lia|]. cbn [app load_entries] in *. rewrite Er. cbn [fmap list_fmap store_entries].
  destruct (new_ttl _ _ _) as [ttl|]; [|apply IH; [exact Hv2|lia]].
  destruct (store_saved now ttl (saved_of v) s) as [s'|]; [|reflexivity]. mstep. apply IH; [exact Hv2|lia].
Qed.

(** ** Blocks *)

Definition block_data (unixtime : Z) (vs : list view) : bytes := varint_write_u64 unixtime ++ entries_bytes vs.

Definition compressed (data : bytes) : bytes :=
  LZ4_compress_default data (size data) (LZ4_compressBound (size data)).

Lemma i32_id x : 0 <= x < 2 ^ 31 → i32 x = x.
Proof. intros Hx. unfold i32, u32. rewrite Z.mod_small by lia. now rewrite (proj2 (Z.ltb_lt _ _)) by lia. Qed.

(** A block small enough for the compressor. *)
Definition fits (data : bytes) : Prop := 0 < size data <= LZ4_MAX_INPUT_SIZE.

Lemma block_bytes_fits data :
  fits data →
  let dst := compressed data in
  block_bytes data = str "POGO" ++ write_u32 (crc32 dst) ++ write_u32 (size data) ++ write_u32 (size dst) ++ dst ∧
  is_u32 (size data) ∧ is_u32 (size dst) ∧ dst ≠ [] ∧ LZ4_decompress_safe dst (size data) = Some data.
Proof.
  intros Hd dst. unfold fits, LZ4_MAX_INPUT_SIZE in Hd. unfold block_bytes. cbv zeta. rewrite i32_id by lia.
  rewrite (u32_id (size data)) by (unfold is_u32; lia). fold (compressed data). fold dst.
  destruct (lz4_roundtrip data (LZ4_compressBound (size data))) as (H1 & H2 & H3); [exact Hd|apply Z.le_refl|].
  change (LZ4_compress_default data _ _) with dst in H1, H2, H3. fold (size dst) in H2. fold (size data) in H3.
  split; [reflexivity|]. split; [unfold is_u32; lia|]. split; [|split; [exact H1|exact H3]].
  unfold LZ4_compressBound, u32 in H2. fold (size data) in H2. rewrite Z.mod_small in H2 by lia.
  unfold LZ4_MAX_INPUT_SIZE in H2. rewrite (proj2 (Z.ltb_ge _ _)) in H2 by lia.
  rewrite Z.quot_div_nonneg in H2 by lia. unfold is_u32. unfold size in *. dm.
Qed.
(** A [read] fails or gives at least a byte, unless the file is at its end. What
    [read] does on a regular file when nothing interrupts it: it gives at least a
    header, or what is left. *)
Definition reads_some (f : rfile) : Prop := ∀ i, rf_io f i ≠ 0.
Definition reads_ok (f : rfile) : Prop := ∀ i, 16 <= rf_io f i.

(** Reading goes on after some more calls. *)
Definition later (f f' : rfile) : Prop := ∃ n, ∀ i, rf_io f' i = rf_io f (n + i).

Lemma later_refl f : later f f.
Proof. now exists 0%nat. Qed.
Lemma later_S f rest f' : later (RFile rest (λ i, rf_io f (S i))) f' → later f f'.
Proof. intros [n Hn]. exists (S n). exact Hn. Qed.
Lemma later_some f f' : later f f' → reads_some f → reads_some f'.
Proof. intros [n Hn] Hf i. rewrite Hn. apply Hf. Qed.
Lemma later_ok f f' : later f f' → reads_ok f → reads_ok f'.
Proof. intros [n Hn] Hf i. rewrite Hn. apply Hf. Qed.

(** Compressed data is read as a whole, in pieces of any size, unless a read fails. *)
Lemma read_data_all rest fuel : ∀ cdata data f,
  reads_some f → rf_rest f = data ++ rest → (length data <= fuel)%nat →
  ∃ r f', read_data fuel (size cdata + size data) cdata f = Some (r, f') ∧
    ((r = None ∧ ¬ reads_ok f) ∨ (r = Some (cdata ++ data) ∧ rf_rest f' = rest ∧ later f f')).
Proof.
  induction fuel as [|fuel IH]; intros cdata data f Hf Hr Hl.
  { destruct data; [|cbn in Hl; lia]. cbn [read_data]. unfold size. cbn [length].
    rewrite Z.add_0_r, Z.ltb_irrefl, app_nil_r. eauto 8 using later_refl. }
  destruct data as [|b data].
  { cbn [read_data]. unfold size. cbn [length]. rewrite Z.add_0_r, Z.ltb_irrefl, app_nil_r. eauto 8 using later_refl. }
  set (all := b :: data) in *. cbn [read_data]. rewrite (proj2 (Z.ltb_lt _ _)) by (unfold size, all; cbn; lia).
  unfold read. pose proof (Hf 0%nat) as H0. destruct (rf_io f 0%nat <? 0) eqn:Eneg; zb.
  { eexists None, _. split; [reflexivity|]. left. split; [reflexivity|]. intros Hok. specialize (Hok 0%nat). lia. }
  replace (size cdata + size all - size cdata) with (size all) by lia.
  set (n := Z.to_nat (Z.min (rf_io f 0%nat) (size all))).
  assert (Hn : (0 < n <= length all)%nat) by (unfold n, all, size; cbn [length]; lia).
  rewrite Hr, take_app_le, drop_app_le by lia.
  destruct (take n all) as [|b' l] eqn:Et; [apply (f_equal length) in Et; rewrite length_take in Et; cbn in Et; lia|].
  destruct (IH (cdata ++ b' :: l) (drop n all) (RFile (drop n all ++ rest) (λ i, rf_io f (S i)))) as (r & f' & E & H1).
  - intros i. apply Hf.
  - reflexivity.
  - rewrite length_drop. cbn [length all] in *. lia.
  - exists r, f'. rewrite <- Et in *. split.
    + rewrite <- E. f_equal. unfold size. rewrite length_app, length_take, length_drop. lia.
    + destruct H1 as [[-> Hno]|(-> & Hrest & Hlat)]; [left|right].
      * split; [reflexivity|]. intros Hok. apply Hno. intros i. apply Hok.
      * rewrite <- app_assoc, take_drop. eauto using later_S.
Qed.

Lemma str_pogo : str "POGO" = [80; 79; 71; 79].
Proof. reflexivity. Qed.

(** A block that was written is read as it is, unless a read is cut short: within
    the header, or by an error. *)
Lemma read_block_written data f rest :
  fits data → reads_some f → rf_rest f = block_bytes data ++ rest →
  ∃ r f', read_block f = Some (r, f') ∧
    ((r = Bad ∧ ¬ reads_ok f) ∨ (r = Block (CBlock (compressed data) (size data)) ∧ rf_rest f' = rest ∧ later f f')).
Proof.
  intros Hd Hf Hr. destruct (block_bytes_fits data Hd) as (E & H1 & H2 & H3 & _). cbv zeta in E. rewrite E in Hr.
  set (dst := compressed data) in *.
  set (head := str "POGO" ++ write_u32 (crc32 dst) ++ write_u32 (size data) ++ write_u32 (size dst)).
  assert (Eh : rf_rest f = head ++ dst ++ rest) by (rewrite Hr; unfold head; now rewrite <- !app_assoc).
  assert (Hl : length head = 16%nat) by reflexivity.
  unfold read_block, read at 1. pose proof (Hf 0%nat) as H0. destruct (rf_io f 0%nat <? 16) eqn:Eshort; zb.
  { destruct (rf_io f 0%nat <? 0) eqn:Eneg; zb; eexists Bad, _; (split; [|left; split; [reflexivity|intros Hok; specialize (Hok 0%nat); lia]]);
      [reflexivity|].
    rewrite Z.min_l by lia. set (n := Z.to_nat (rf_io f 0%nat)).
    assert (En : size (take n (rf_rest f)) = rf_io f 0%nat).
    { rewrite Eh, take_app_le by lia. unfold size. rewrite length_take, Hl. lia. }
    rewrite En, (proj2 (Z.eqb_neq _ _)), (proj2 (Z.ltb_lt _ _)) by lia. reflexivity. }
  rewrite (proj2 (Z.ltb_ge _ _)) by lia.
  rewrite Z.min_r by lia. change (Z.to_nat 16) with 16%nat. rewrite Eh, take_app_length', drop_app_length' by exact Hl.
  change (size head) with 16. cbn [Z.eqb Z.ltb Z.compare Pos.compare Pos.compare_cont].
  change (take 4 head) with (str "POGO"). rewrite bool_decide_eq_true_2 by reflexivity. cbn [negb].
  change (take 4 (drop 4 head)) with (write_u32 (crc32 dst)).
  change (read_u32 (drop 8 head)) with (read_u32 (write_u32 (size data))).
  change (read_u32 (drop 12 head)) with (read_u32 (write_u32 (size dst))).
  rewrite !read_write_u32, write_u32_le by assumption. cbv zeta.
  rewrite le_get_put_id by (pose proof (crc32_u32 dst) as Hc; exact Hc).
  destruct (read_data_all rest (Z.to_nat (size dst)) [] dst (RFile (dst ++ rest) (λ i, rf_io f (S i)))) as (r & f' & Ed & Hcases).
  - intros i. apply Hf.
  - reflexivity.
  - unfold size. lia.
  - change (size [] + size dst) with (size dst) in Ed. cbn [rf_io]. rewrite Ed. mstep.
    destruct Hcases as [[-> Hno]|(-> & H4 & H5)]; cbn [app].
    + eexists Bad, _. split; [reflexivity|]. left. split; [reflexivity|]. intros Hok. apply Hno. intros i. apply Hok.
    + rewrite Z.eqb_refl. cbn [negb]. eexists _, _. split; [reflexivity|]. right. eauto using later_S.
Qed.

(** Loading a block that was written stores its entries. *)
Lemma load_block_written unixtime vs n s :
  let data := block_data unixtime vs in
  fits data → Forall savable vs → 0 <= unixtime < 2 ^ 63 →
  load_block (CBlock (compressed data) (size data)) n s =
    (let '(now, unixnow, s) := sys_now_unix s in
     '(n, v) ← store_entries now unixnow unixtime (saved_of <$> vs) n (n_server s);
     Some (true, n, Snap v (n_unix s))).
Proof.
  intros data Hd Hv Hu. destruct (block_bytes_fits data Hd) as (_ & _ & _ & _ & Edec).
  unfold load_block. cbn [sys_now_unix cb_cdata cb_dlen]. unfold fits, LZ4_MAX_INPUT_SIZE in Hd.
  rewrite i32_id, Edec, Z.eqb_refl by lia. cbn [negb]. unfold data at 1, block_data.
  rewrite read_uvarint_write by (unfold is_u64; lia). rewrite (proj2 (Z.leb_gt _ _)) by lia.
  rewrite load_entries_bytes by (exact Hv || lia).
  destruct (store_entries _ _ _ _ _ _) as [[n' v]|]; reflexivity.
Qed.
End Blocks.

(** ** Files that [save] leaves alone *)

Section Files.
Context `{Env} {lz4 : Lz4}.

(** Nothing but the work file changes. *)
Definition only_work (work : bytes) (d d' : disk) : Prop := ∀ p, p ≠ work → d_files d' !! p = d_files d !! p.

Lemma write_all_only work fuel : ∀ p d ok d', write_all fuel work p d = Some (ok, d') → only_work work d d'.
Proof.
  induction fuel as [|fuel IH]; intros [|b p] d ok d' E; cbn [write_all] in E; try discriminate;
    try (injection E as <- <-; intros q _; reflexivity).
  cbn [io] in E. destruct (d_io d 0%nat <? 0); [injection E as <- <-; intros q _; reflexivity|].
  specialize (IH _ _ _ _ E). intros q Hq. rewrite (IH q Hq). cbn [d_files]. now apply lookup_insert_ne.
Qed.

Lemma thsave_only work todo : ∀ i s d ok s' d', thsave work todo i s d = Some (ok, s', d') → only_work work d d'.
Proof.
  induction todo as [|todo IH]; intros i s d ok s' d' E; cbn [thsave] in E; [injection E as <- <- <-; intros q _; reflexivity|].
  destruct (sys_now_unix s) as [[now u] s1]. destruct (pogocache_iter _ _ _ _ _) as [[[[st h] k] [w [[buf n]|]]]|]; try discriminate.
  cbn [mbind option_bind snd fst] in E. destruct (st =? _); [injection E as <- <- <-; intros q _; reflexivity|].
  destruct (flush work buf n d) as [[ok1 d1]|] eqn:Ef; [|discriminate]. cbn [mbind option_bind] in E.
  assert (Hd1 : only_work work d d1).
  { unfold flush in Ef. destruct (n =? 0); [injection Ef as <- <-; intros q _; reflexivity|]. exact (write_all_only _ _ _ _ _ _ Ef). }
  destruct ok1; [|injection E as <- <- <-; exact Hd1]. intros q Hq. rewrite (IH _ _ _ _ _ _ E q Hq). exact (Hd1 q Hq).
Qed.

Lemma thsaves_only work ranges : ∀ s d ok s' d', thsaves work ranges s d = Some (ok, s', d') → only_work work d d'.
Proof.
  induction ranges as [|[a b] ranges IH]; intros s d ok s' d' E; cbn [thsaves] in E; [injection E as <- <- <-; intros q _; reflexivity|].
  destruct (thsave _ _ _ _ _) as [[[ok1 s1] d1]|] eqn:E1; [|discriminate]. cbn [mbind option_bind] in E.
  destruct (thsaves work ranges s1 d1) as [[[ok2 s2] d2]|] eqn:E2; [|discriminate]. injection E as <- <- <-.
  intros q Hq. rewrite (IH _ _ _ _ _ E2 q Hq). exact (thsave_only _ _ _ _ _ _ _ _ E1 q Hq).
Qed.

(** C22: Saving never harms what was saved before: whatever system call fails, and
    whenever, a [save] that does not succeed leaves every file as it was, the
    last snapshot included, and one that succeeds changes only the file it was
    asked to write; the work file is gone unless it could not be opened. *)
Theorem save_is_atomic nprocs seed path fast s d ok s' d' :
  save nprocs seed path fast s d = Some (ok, s', d') →
  let work := work_path path seed in
  (∀ p, p ≠ work → (ok = true → p ≠ path) → d_files d' !! p = d_files d !! p) ∧
  (d_io d 0%nat < 0 ∨ d_files d' !! work = None).
Proof.
  intros E work. unfold save in E. cbn [io] in E. fold work in E.
  destruct (d_io d 0%nat <? 0) eqn:E0; zb.
  { injection E as <- <- <-. split; [intros p _ _; reflexivity|now left]. }
  cbv zeta in E. destruct (thsaves _ _ _ _) as [[[ok1 s1] d1]|] eqn:E1; [|discriminate].
  cbn [mbind option_bind] in E. pose proof (thsaves_only _ _ _ _ _ _ _ E1) as H1.
  assert (Hfiles : ∀ p, p ≠ work → d_files d1 !! p = d_files d !! p).
  { intros p Hp. rewrite (H1 p Hp). cbn [d_files]. now apply lookup_insert_ne. }
  assert (Hgone : ∀ p, p ≠ work → delete work (d_files d1) !! p = d_files d !! p).
  { intros p Hp. rewrite lookup_delete_ne by congruence. exact (Hfiles p Hp). }
  assert (Hpath : path ≠ work).
  { intros Ep. apply (f_equal length) in Ep. unfold work, work_path in Ep. rewrite !length_app in Ep. cbn in Ep. lia. }
  destruct ok1; cbn [io] in E; [destruct (d_io d1 0%nat <? 0)|]; injection E as <- <- <-; cbn [d_files].
  - split; [intros p Hp _; exact (Hgone p Hp)|right; apply lookup_delete_eq].
  - split; [|right; rewrite lookup_insert_ne by congruence; apply lookup_delete_eq].
    intros p Hp Hpp. rewrite lookup_insert_ne; [exact (Hgone p Hp)|]. intros <-. now apply Hpp.
  - split; [intros p Hp _; exact (Hgone p Hp)|right; apply lookup_delete_eq].
Qed.
End Files.

(** ** A compressor that stores *)

#[export] Instance lz4_stored : Lz4 := {
  LZ4_compress_default src n cap :=
    if LZ4_MAX_INPUT_SIZE <? u32 n then [] else if cap <? LZ4_compressBound n then [] else src;
  LZ4_decompress_safe src cap := match src with [] => None | _ => if cap <? size src then None else Some src end
}.

#[export] Instance lz4_stored_ok : Lz4Ok lz4_stored.
Proof.
  split.
  - intros src cap Hs Hc dst. unfold LZ4_MAX_INPUT_SIZE in Hs.
    assert (Eu : u32 (Z.of_nat (length src)) = Z.of_nat (length src)) by (apply u32_id; unfold is_u32; lia).
    assert (Hb : Z.of_nat (length src) <= LZ4_compressBound (Z.of_nat (length src))).
    { unfold LZ4_compressBound. rewrite Eu. unfold LZ4_MAX_INPUT_SIZE. rewrite (proj2 (Z.ltb_ge _ _)) by lia.
      rewrite Z.quot_div_nonneg by lia. dm. }
    assert (Ed : dst = src).
    { unfold dst. cbn [LZ4_compress_default lz4_stored]. rewrite Eu. unfold LZ4_MAX_INPUT_SIZE.
      now rewrite !(proj2 (Z.ltb_ge _ _)) by lia. }
    rewrite Ed. destruct src as [|b src]; [cbn in Hs; lia|]. split; [discriminate|]. split; [exact Hb|].
    cbn [LZ4_decompress_safe lz4_stored]. unfold size. now rewrite Z.ltb_irrefl.
  - intros src n cap Hn. cbn [LZ4_compress_default lz4_stored]. now rewrite (proj2 (Z.ltb_lt _ _)) by lia.
  - reflexivity.
Qed.
