(* ===== verification/LoadQueue.v ===== *)
(** * LoadQueue: the threads of [load]

    [load] of [src/src/save.c]: the caller reads blocks from the file and puts
    them into a queue of [nprocs] places; [nprocs] threads, each [thload], take
    them out and load them. They share the queue and two flags under one mutex,
    and wait on one condition variable. Between two points where a thread holds
    no lock it does one step here: what it does under the lock cannot be seen
    half done. Loading a block is one step too; its stores are atomic each by
    themselves, under the locks of their shards. A broadcast wakes every waiting
    thread. A wait may also end without one, which is a step of [wakes_early].
    The counts of bytes that [load] reports are left out. The second part proves
    the invariant of the threads, that they make progress, and the result. *)

From stdpp Require Import relations.
From S2P Require Import Prelude Util Context Heap Shard Cache Resp Conn Cmds Snapshot.

(** Where a thread is: before the lock at the top of its loop; waiting; with a
    block it took, before it tells the reader; loading; before the lock after
    that; before its last broadcast; ended. *)
Inductive worker :=
  | WLoop | WWait | WTaken (b : cblock) | WLoad (b : cblock) | WBack (ok : bool) | WLeave | WDone.

(** Where the caller is: before the next read; before the lock with a block;
    waiting for room; before it says that it is done reading; before its
    broadcast; joining the threads; returned. *)
Inductive reader :=
  | RRead | RPush (b : cblock) | RWait (b : cblock) | RStop | RNotify | RJoin | RDone (ok : bool).

(** The shared state; [l_queue] starts with [blocks[nblocks-1]]. *)
Record lstate (S : Type) := LState {
  l_file : rfile; l_ok : bool; l_queue : list cblock; l_failure : bool; l_donereading : bool;
  l_reader : reader; l_workers : list worker; l_sys : S
}.
Arguments LState {S}. Arguments l_file {S}. Arguments l_ok {S}. Arguments l_queue {S}. Arguments l_failure {S}.
Arguments l_donereading {S}. Arguments l_reader {S}. Arguments l_workers {S}. Arguments l_sys {S}.

Definition wake_worker (w : worker) : worker := match w with WWait => WLoop | w => w end.
Definition wake_reader (r : reader) : reader := match r with RWait b => RPush b | r => r end.

Section Queue.
Context {S : Type} (process : cblock → S → bool * S) (nprocs : nat).

Definition set_worker (i : nat) (w : worker) (s : lstate S) : lstate S :=
  LState (l_file s) (l_ok s) (l_queue s) (l_failure s) (l_donereading s) (l_reader s) (<[i := w]> (l_workers s)) (l_sys s).
Definition set_reader (r : reader) (ok : bool) (s : lstate S) : lstate S :=
  LState (l_file s) ok (l_queue s) (l_failure s) (l_donereading s) r (l_workers s) (l_sys s).
Definition set_queue (q : list cblock) (s : lstate S) : lstate S :=
  LState (l_file s) (l_ok s) q (l_failure s) (l_donereading s) (l_reader s) (l_workers s) (l_sys s).

(** [pthread_cond_broadcast]. *)
Definition broadcast (s : lstate S) : lstate S :=
  LState (l_file s) (l_ok s) (l_queue s) (l_failure s) (l_donereading s) (wake_reader (l_reader s))
    (wake_worker <$> l_workers s) (l_sys s).

(** From the top of the loop of [thload] to where it gives up the lock. *)
Definition thload_top (i : nat) (s : lstate S) : lstate S :=
  if l_failure s then set_worker i WLeave s
  else
    match l_queue s with
    | b :: q => set_worker i (WTaken b) (set_queue q s)
    | [] => if l_donereading s then set_worker i WLeave s else set_worker i WWait s
    end.

Definition thload (i : nat) (s : lstate S) : option (lstate S) :=
  w ← l_workers s !! i;
  match w with
  | WLoop => Some (thload_top i s)
  | WWait => None
  | WTaken b => Some (set_worker i (WLoad b) (broadcast s))
  | WLoad b =>
      let '(ok, sys) := process b (l_sys s) in
      Some (LState (l_file s) (l_ok s) (l_queue s) (l_failure s) (l_donereading s) (l_reader s)
              (<[i := WBack ok]> (l_workers s)) sys)
  | WBack ok =>
      if ok then Some (thload_top i s)
      else Some (LState (l_file s) (l_ok s) (l_queue s) true (l_donereading s) (l_reader s)
                   (<[i := WLeave]> (l_workers s)) (l_sys s))
  | WLeave => Some (set_worker i WDone (broadcast s))
  | WDone => None
  end.

Definition ended (w : worker) : bool := match w with WDone => true | _ => false end.

(** A step of the caller. *)
Definition load_step (s : lstate S) : option (lstate S) :=
  match l_reader s with
  | RRead =>
      '(r, f) ← read_block (l_file s);
      let s := LState f (l_ok s) (l_queue s) (l_failure s) (l_donereading s) (l_reader s) (l_workers s) (l_sys s) in
      Some (match r with
            | Eof => set_reader RStop (l_ok s) s
            | Bad => set_reader RStop false s
            | Block b => set_reader (RPush b) (l_ok s) s
            end)
  | RPush b =>
      if l_failure s then Some (set_reader RStop false s)
      else if bool_decide (length (l_queue s) = nprocs) then Some (set_reader (RWait b) (l_ok s) s)
      else Some (broadcast (set_reader RRead (l_ok s) (set_queue (b :: l_queue s) s)))
  | RWait _ => None
  | RStop =>
      Some (LState (l_file s) (l_ok s) (l_queue s) (l_failure s) true RNotify (l_workers s) (l_sys s))
  | RNotify => Some (broadcast (set_reader RJoin (l_ok s) s))
  | RJoin =>
      if forallb ended (l_workers s) then Some (set_reader (RDone (l_ok s && negb (l_failure s))) (l_ok s) s) else None
  | RDone _ => None
  end.

(** The state [load] starts the threads in. *)
Definition load_start (f : rfile) (sys : S) : lstate S :=
  LState f true [] false false RRead (replicate nprocs WLoop) sys.

(** ** Runs *)

(** The caller or a thread moves. *)
Inductive moves (s : lstate S) : lstate S → Prop :=
  | moves_reader s' : load_step s = Some s' → moves s s'
  | moves_worker i s' : thload i s = Some s' → moves s s'.

(** A wait ends without a broadcast. *)
Inductive wakes_early (s : lstate S) : lstate S → Prop :=
  | early_reader b : l_reader s = RWait b → wakes_early s (set_reader (RPush b) (l_ok s) s)
  | early_worker i : l_workers s !! i = Some WWait → wakes_early s (set_worker i WLoop s).

Definition anything (s s' : lstate S) : Prop := moves s s' ∨ wakes_early s s'.

(** A run with a given schedule: [None] is the caller. *)
Fixpoint run_schedule (l : list (option nat)) (s : lstate S) : option (lstate S) :=
  match l with
  | [] => Some s
  | th :: l => s ← (match th with None => load_step s | Some i => thload i s end); run_schedule l s
  end.
End Queue.

(** ** Every schedule of [load] ends with the same blocks loaded

    The invariants of the queue: its bound, that no wake-up is lost, and which
    blocks have gone where. *)

(** ** The blocks of a file *)

Lemma read_data_total fuel : ∀ clen cdata f,
  clen - size cdata <= Z.of_nat fuel →
  ∃ r f', read_data fuel clen cdata f = Some (r, f') ∧ (length (rf_rest f') <= length (rf_rest f))%nat.
Proof.
  induction fuel as [|fuel IH]; intros clen cdata f Hf; cbn [read_data].
  { rewrite (proj2 (Z.ltb_ge _ _)) by lia. exists (Some cdata), f. split; [reflexivity|lia]. }
  destruct (size cdata <? clen) eqn:E; zb; [|exists (Some cdata), f; split; [reflexivity|lia]].
  unfold read. destruct (rf_io f 0%nat <? 0).
  { eexists _, _. split; [reflexivity|cbn; lia]. }
  set (n := Z.to_nat _). destruct (take n (rf_rest f)) as [|b l] eqn:Et.
  { eexists _, _. split; [reflexivity|]. cbn [rf_rest]. rewrite length_drop. lia. }
  destruct (IH clen (cdata ++ b :: l) (RFile (drop n (rf_rest f)) (λ i, rf_io f (S i)))) as (r & f' & E' & Hl).
  - unfold size in *. rewrite length_app. cbn [length]. lia.
  - exists r, f'. split; [exact E'|]. cbn [rf_rest] in Hl. rewrite length_drop in Hl. lia.
Qed.

Lemma read_block_total f : ∃ r f', read_block f = Some (r, f') ∧
  (match r with Block _ => S (length (rf_rest f')) | _ => length (rf_rest f') end <= length (rf_rest f))%nat.
Proof.
  unfold read_block, read at 1. destruct (rf_io f 0%nat <? 0).
  { eexists _, _. split; [reflexivity|]. cbn. lia. }
  set (n := Z.to_nat _). set (head := take n (rf_rest f)).
  assert (Hdrop : (length (drop n (rf_rest f)) <= length (rf_rest f))%nat) by (rewrite length_drop; lia).
  destruct (size head =? 0) eqn:E0; [eexists _, _; split; [reflexivity|exact Hdrop]|].
  destruct (size head <? 16) eqn:E1; [eexists _, _; split; [reflexivity|exact Hdrop]|]. zb.
  destruct (negb _); [eexists _, _; split; [reflexivity|exact Hdrop]|]. cbv zeta. cbn [rf_io].
  set (clen := read_u32 (drop 12 head)).
  set (f1 := RFile _ _).
  destruct (read_data_total (Z.to_nat clen) clen [] f1) as (r & f' & E & Hl); [change (size []) with 0; lia|].
  unfold f1 in Hl. cbn [rf_rest] in Hl.
  rewrite E. mstep. destruct r as [cdata|]; [|eexists _, _; split; [reflexivity|cbn iota; lia]].
  destruct (negb _); [eexists _, _; split; [reflexivity|cbn iota; lia]|]. eexists _, _. split; [reflexivity|].
  rewrite length_drop in Hl. unfold size, head in E1.
  rewrite length_take in E1. cbn iota. lia.
Qed.

(** The blocks a file gives and whether it ends well. *)
Inductive reads : rfile → list cblock → bool → Prop :=
  | reads_eof f f' : read_block f = Some (Eof, f') → reads f [] true
  | reads_bad f f' : read_block f = Some (Bad, f') → reads f [] false
  | reads_block f f' b bs ok :
      read_block f = Some (Block b, f') → reads f' bs ok → reads f (b :: bs) ok.

Lemma reads_total f : ∃ bs ok, reads f bs ok.
Proof.
  remember (length (rf_rest f)) as n eqn:En. revert f En.
  induction (lt_wf n) as [n _ IH]. intros f ->. destruct (read_block_total f) as (r & f' & E & Hl).
  destruct r as [| |b]; [exists [], true; now apply (reads_eof f f')|exists [], false; now apply (reads_bad f f')|].
  destruct (IH _ Hl f' eq_refl) as (bs & ok & Hr). exists (b :: bs), ok. now apply (reads_block f f').
Qed.

(** ** Blocks loaded one after the other *)

Fixpoint process_all {S} (process : cblock → S → bool * S) (bs : list cblock) (s : S) : list bool * S :=
  match bs with
  | [] => ([], s)
  | b :: bs =>
      let '(ok, s) := process b s in
      let '(oks, s) := process_all process bs s in (ok :: oks, s)
  end.

Lemma process_all_snoc {S} (process : cblock → S → bool * S) bs b : ∀ s oks s' ok s'',
  process_all process bs s = (oks, s') → process b s' = (ok, s'') →
  process_all process (bs ++ [b]) s = (oks ++ [ok], s'').
Proof.
  induction bs as [|b0 bs IH]; intros s oks s' ok s'' H1 H2; cbn [process_all app] in *.
  { injection H1 as <- <-. now rewrite H2. }
  destruct (process b0 s) as [ok0 s0]. destruct (process_all process bs s0) as [oks0 s1] eqn:E.
  injection H1 as <- <-. now rewrite (IH _ _ _ _ _ E H2).
Qed.

(** ** The invariant *)

(** A thread that will broadcast before it waits. *)
Definition will_notify (w : worker) : Prop := match w with WTaken _ | WLeave => True | _ => False end.
Definition leaving (w : worker) : Prop := match w with WLeave | WDone => True | _ => False end.

Definition held (w : worker) : list cblock := match w with WTaken b | WLoad b => [b] | _ => [] end.
Definition all_held (ws : list worker) : list cblock := concat (held <$> ws).

(** A thread that found a bad block and has not said so. *)
Definition failed (w : worker) : Prop := w = WBack false.

Definition stopped (r : reader) : Prop := match r with RStop | RNotify | RJoin | RDone _ => True | _ => False end.
Definition announced (r : reader) : Prop := match r with RNotify | RJoin | RDone _ => True | _ => False end.
Definition joining (r : reader) : Prop := match r with RJoin | RDone _ => True | _ => False end.

#[export] Instance cblock_eq_dec : EqDecision cblock.
Proof. solve_decision. Defined.
#[export] Instance worker_eq_dec : EqDecision worker.
Proof. solve_decision. Defined.

(** ** Updating a thread *)

Lemma elem_worker (ws : list worker) i w w' : w' ∈ <[i := w]> ws → w' = w ∨ w' ∈ ws.
Proof.
  intros [j Hj]%list_elem_of_lookup. destruct (decide (j = i)) as [->|Hne].
  - destruct (decide (i < length ws)%nat) as [Hl|Hl].
    + rewrite list_lookup_insert_eq in Hj by exact Hl. left. congruence.
    + rewrite list_insert_ge in Hj by lia. right. now apply list_elem_of_lookup_2 in Hj.
  - rewrite list_lookup_insert_ne in Hj by congruence. right. now apply list_elem_of_lookup_2 in Hj.
Qed.

Lemma elem_worker_new (ws : list worker) i w w0 : ws !! i = Some w0 → w ∈ <[i := w]> ws.
Proof. intros H. apply (list_elem_of_lookup_2 _ i). rewrite list_lookup_insert_eq; [reflexivity|]. now apply lookup_lt_Some in H. Qed.

(** Another thread is still there. *)
Lemma elem_worker_old (ws : list worker) i w w0 w' :
  ws !! i = Some w0 → w' ∈ ws → w' ≠ w0 → w' ∈ <[i := w]> ws.
Proof.
  intros H [j Hj]%list_elem_of_lookup Hne. apply (list_elem_of_lookup_2 _ j).
  rewrite list_lookup_insert_ne; [exact Hj|]. intros ->. congruence.
Qed.

Lemma all_held_insert (ws : list worker) i w w0 :
  ws !! i = Some w0 → held w0 ++ all_held (<[i := w]> ws) ≡ₚ held w ++ all_held ws.
Proof.
  unfold all_held. revert i. induction ws as [|x ws IH]; intros [|i] H; try discriminate H; cbn.
  - injection H as ->. solve_Permutation.
  - cbn in H. specialize (IH i H). rewrite (Permutation_app_comm (held x)), app_assoc, IH. solve_Permutation.
Qed.

Lemma elem_woken (w : worker) (ws : list worker) : w ∈ wake_worker <$> ws → w ≠ WWait ∧ (w ∈ ws ∨ w = WLoop).
Proof.
  intros (w0 & -> & Hin)%list_elem_of_fmap. destruct w0; cbn; (split; [discriminate|]); auto.
Qed.

Lemma all_held_woken (ws : list worker) : all_held (wake_worker <$> ws) = all_held ws.
Proof. unfold all_held. rewrite <- list_fmap_compose. f_equal. apply list_fmap_ext. now intros i [] _. Qed.

Section Inv.
Context {S : Type} (process : cblock → S → bool * S) (nprocs : nat) (Hprocs : (0 < nprocs)%nat).
Context (bs : list cblock) (fok : bool) (sys0 : S).

(** The synchronisation. *)
Record sync (s : lstate S) : Prop := {
  sy_workers : length (l_workers s) = nprocs;
  sy_queue : (length (l_queue s) <= nprocs)%nat;
  sy_done : l_donereading s = true ↔ announced (l_reader s);
  sy_wait w : w ∈ l_workers s → w = WWait → l_queue s = [] ∧ ¬ joining (l_reader s);
  sy_full b : l_reader s = RWait b →
    (length (l_queue s) = nprocs ∧ l_failure s = false) ∨ ∃ w, w ∈ l_workers s ∧ will_notify w;
  sy_leave w : w ∈ l_workers s → leaving w → l_failure s = true ∨ (l_donereading s = true ∧ l_queue s = [])
}.

(** The blocks the reader has not queued. *)
Definition unread (s : lstate S) (l : list cblock) : Prop :=
  match l_reader s with
  | RRead => l_ok s = true ∧ reads (l_file s) l fok
  | RPush b | RWait b => l_ok s = true ∧ ∃ l', l = b :: l' ∧ reads (l_file s) l' fok
  | _ => (l = [] ∧ l_ok s = fok) ∨ (l_ok s = false ∧ (fok = false ∨ l_failure s = true))
  end.

(** Where the blocks are. *)
Definition flow (s : lstate S) : Prop :=
  ∃ order oks l, process_all process order sys0 = (oks, l_sys s) ∧ unread s l ∧
    bs ≡ₚ order ++ all_held (l_workers s) ++ l_queue s ++ l ∧
    (false ∈ oks ↔ l_failure s = true ∨ ∃ w, w ∈ l_workers s ∧ failed w).

Definition linv (s : lstate S) : Prop := sync s ∧ flow s.
(** ** Synchronisation *)

Lemma sync_broadcast s : sync s → sync (broadcast s).
Proof.
  intros [H1 H2 H3 H4 H5 H6]. split; cbn.
  - now rewrite length_fmap.
  - exact H2.
  - rewrite H3. now destruct (l_reader s).
  - intros w [Hw _]%elem_woken. contradiction.
  - intros b. now destruct (l_reader s).
  - intros w [_ [Hw| ->]]%elem_woken Hl; [exact (H6 w Hw Hl)|destruct Hl].
Qed.

(** A thread that has notified goes on. *)
Lemma sync_notified i w s :
  sync s → w ≠ WWait → (leaving w → l_failure s = true ∨ (l_donereading s = true ∧ l_queue s = [])) →
  sync (set_worker i w (broadcast s)).
Proof.
  intros Hs Hw Hl. destruct (sync_broadcast s Hs) as [H1 H2 H3 H4 H5 H6]. split; cbn.
  - now rewrite length_insert.
  - exact H2.
  - exact H3.
  - intros w' [->|Hin]%elem_worker E; [contradiction|exact (H4 w' Hin E)].
  - intros b. now destruct (l_reader s).
  - intros w' [->|Hin]%elem_worker E; [exact (Hl E)|exact (H6 w' Hin E)].
Qed.

(** A thread that waits for nothing and notifies nobody gives way to one that
    does not wait. *)
Lemma sync_replace i w0 w s q :
  sync s → l_workers s !! i = Some w0 → ¬ will_notify w0 →
  (w = WWait → q = [] ∧ ¬ joining (l_reader s)) →
  (q = l_queue s ∨ (∃ b, l_queue s = b :: q) ∧ will_notify w) →
  (leaving w → l_failure s = true ∨ (l_donereading s = true ∧ q = [])) →
  sync (set_worker i w (set_queue q s)).
Proof.
  intros [H1 H2 H3 H4 H5 H6] Hi Hn Hw Hq Hl. split; cbn.
  - now rewrite length_insert.
  - destruct Hq as [->|[[b E] _]]; [exact H2|]. rewrite E in H2. cbn in H2. lia.
  - exact H3.
  - intros w' [->|Hin]%elem_worker E; [exact (Hw E)|]. destruct (H4 w' Hin E) as [E1 E2].
    split; [|exact E2]. destruct Hq as [->|[[b Eq] _]]; [exact E1|]. rewrite E1 in Eq. discriminate Eq.
  - intros b E. destruct Hq as [->|[_ Hw']].
    + destruct (H5 b E) as [Hf|(w' & Hin & Hw')]; [left; exact Hf|]. right. exists w'.
      split; [|exact Hw']. apply (elem_worker_old _ _ _ w0); [exact Hi|exact Hin|]. intros ->. contradiction.
    + right. exists w. split; [|exact Hw']. exact (elem_worker_new _ _ _ _ Hi).
  - intros w' [->|Hin]%elem_worker E; [exact (Hl E)|]. destruct (H6 w' Hin E) as [Hf|[Hd He]]; [left; exact Hf|right].
    split; [exact Hd|]. destruct Hq as [->|[[b Eq] _]]; [exact He|]. rewrite He in Eq. discriminate Eq.
Qed.

Lemma sync_top i w0 s :
  sync s → l_workers s !! i = Some w0 → ¬ will_notify w0 → sync (thload_top i s).
Proof.
  intros Hs Hi Hn. pose proof Hs as [H1 H2 H3 H4 H5 H6]. unfold thload_top.
  destruct (l_failure s) eqn:Ef.
  { apply (sync_replace i w0 WLeave s (l_queue s)); auto; try discriminate. }
  destruct (l_queue s) as [|b q] eqn:Eq.
  - destruct (l_donereading s) eqn:Ed.
    + apply (sync_replace i w0 WLeave s (l_queue s)); auto; try discriminate.
    + apply (sync_replace i w0 WWait s (l_queue s)); auto; try (intros []; fail). intros _. split; [exact Eq|].
      intros Hj. enough (false = true) by discriminate. apply H3. now destruct (l_reader s).
  - apply (sync_replace i w0 (WTaken b) s q); auto; try discriminate; try (intros []; fail). right. split; [now exists b|exact I].
Qed.
Lemma sync_thload i s s' : sync s → thload process i s = Some s' → sync s'.
Proof.
  intros Hs. unfold thload. destruct (l_workers s !! i) as [w|] eqn:Hi; [|discriminate]. mstep.
  pose proof (list_elem_of_lookup_2 _ _ _ Hi) as Hin. destruct w as [| |b|b|ok| |]; try discriminate.
  - intros [= <-]. apply (sync_top i WLoop); [exact Hs|exact Hi|intros []].
  - intros [= <-]. apply sync_notified; [exact Hs|discriminate|intros []].
  - destruct (process b (l_sys s)) as [ok sys]. intros [= <-].
    destruct (sync_replace i (WLoad b) (WBack ok) s (l_queue s) Hs Hi) as [H1 H2 H3 H4 H5 H6]; auto; try discriminate.
    now split.
  - destruct ok; intros [= <-]; [apply (sync_top i (WBack true)); [exact Hs|exact Hi|intros []]|].
    destruct Hs as [H1 H2 H3 H4 H5 H6]. split; cbn.
    + now rewrite length_insert.
    + exact H2.
    + exact H3.
    + intros w [->|Hw]%elem_worker E; [discriminate E|exact (H4 w Hw E)].
    + intros b E. right. exists WLeave. split; [exact (elem_worker_new _ _ _ _ Hi)|exact I].
    + intros w _ _. now left.
  - intros [= <-]. apply sync_notified; [exact Hs|discriminate|]. intros _. exact (sy_leave _ Hs WLeave Hin I).
Qed.

Lemma sync_load_step s s' : sync s → load_step nprocs s = Some s' → sync s'.
Proof.
  intros Hs. pose proof Hs as [H1 H2 H3 H4 H5 H6]. unfold load_step. destruct (l_reader s) as [|b|b| | | |ok] eqn:Er; try discriminate.
  - destruct (read_block (l_file s)) as [[r f]|]; [|discriminate]. mstep. intros [= <-].
    destruct r as [| |b]; split; cbn; try assumption; discriminate.
  - destruct (l_failure s) eqn:Ef; [intros [= <-]|].
    { split; cbn; try assumption; try discriminate. intros w _ _. now left. }
    destruct (bool_decide (length (l_queue s) = nprocs)) eqn:Eq; intros [= <-].
    { apply bool_decide_eq_true in Eq. split; cbn; try assumption; [auto|rewrite Ef; assumption]. }
    apply bool_decide_eq_false in Eq. split; cbn.
    + now rewrite length_fmap.
    + lia.
    + exact H3.
    + intros w [Hw _]%elem_woken. contradiction.
    + discriminate.
    + intros w [_ [Hw| ->]]%elem_woken Hl; [|destruct Hl]. exfalso.
      destruct (H6 w Hw Hl) as [E|[E _]]; [congruence|]. apply H3 in E. destruct E.
  - intros [= <-]. split; cbn; try assumption; try discriminate; [now split|].
    intros w Hw Hl. destruct (H6 w Hw Hl) as [E|[E _]]; [now left|]. apply H3 in E. destruct E.
  - intros [= <-]. split; cbn.
    + now rewrite length_fmap.
    + exact H2.
    + exact H3.
    + intros w [Hw _]%elem_woken. contradiction.
    + discriminate.
    + intros w [_ [Hw| ->]]%elem_woken Hl; [exact (H6 w Hw Hl)|destruct Hl].
  - destruct (forallb ended (l_workers s)); [|discriminate]. intros [= <-].
    split; cbn; try assumption; discriminate.
Qed.

Lemma sync_wakes_early s s' : sync s → wakes_early s s' → sync s'.
Proof.
  intros Hs [b Er|i Hi].
  - destruct Hs as [H1 H2 H3 H4 H5 H6]. rewrite Er in *. split; cbn; try assumption; try discriminate.
  - apply (sync_replace i WWait WLoop s (l_queue s)); auto; try discriminate.
Qed.

Lemma sync_start f sys : sync (load_start nprocs f sys).
Proof.
  split; cbn; try discriminate.
  - now rewrite length_replicate.
  - lia.
  - split; [discriminate|intros []].
  - intros w Hw ->. apply elem_of_replicate_inv in Hw. discriminate Hw.
  - intros w Hw Hl. apply elem_of_replicate_inv in Hw. subst w. destruct Hl.
Qed.
(** ** The way of the blocks *)

Definition trouble (s : lstate S) : Prop := l_failure s = true ∨ ∃ w, w ∈ l_workers s ∧ failed w.

(** Nothing is loaded, and no block leaves the queue and the threads. *)
Lemma flow_keep s s' :
  flow s → l_sys s' = l_sys s → (∀ l, unread s l → unread s' l) →
  all_held (l_workers s') ++ l_queue s' ≡ₚ all_held (l_workers s) ++ l_queue s → (trouble s' ↔ trouble s) → flow s'.
Proof.
  intros (order & oks & l & H1 & H2 & H3 & H4) Es Hu Hp Ht. exists order, oks, l.
  split; [now rewrite Es|]. split; [now apply Hu|]. split; [|rewrite H4; symmetry; exact Ht].
  rewrite H3, !(app_assoc (all_held _)), Hp. reflexivity.
Qed.

Lemma trouble_insert (s : lstate S) i w0 w :
  l_workers s !! i = Some w0 → ¬ failed w0 → ¬ failed w →
  (∃ w', w' ∈ <[i := w]> (l_workers s) ∧ failed w') ↔ (∃ w', w' ∈ l_workers s ∧ failed w').
Proof.
  intros Hi H0 Hw. split; intros (w' & Hin & Hf); exists w'; (split; [|exact Hf]).
  - apply elem_worker in Hin as [->|Hin]; [contradiction|exact Hin].
  - apply (elem_worker_old _ _ _ w0); [exact Hi|exact Hin|]. intros ->. contradiction.
Qed.

Lemma trouble_woken (ws : list worker) :
  (∃ w, w ∈ wake_worker <$> ws ∧ failed w) ↔ (∃ w, w ∈ ws ∧ failed w).
Proof.
  split; intros (w & Hin & Hf); exists w; (split; [|exact Hf]).
  - apply elem_woken in Hin as [_ [Hin| ->]]; [exact Hin|discriminate Hf].
  - apply list_elem_of_fmap. exists w. split; [|exact Hin]. unfold failed in Hf. now subst w.
Qed.

Lemma flow_broadcast s : flow s → flow (broadcast s).
Proof.
  intros Hf. apply (flow_keep s); [exact Hf|reflexivity| |cbn [broadcast l_workers l_queue]; now rewrite all_held_woken|].
  - intros l. unfold unread. cbn. now destruct (l_reader s).
  - unfold trouble. cbn [broadcast l_workers l_failure]. now rewrite trouble_woken.
Qed.

(** A thread moves, perhaps with a block from the queue. *)
Lemma flow_replace s i w0 w q :
  flow s → l_workers s !! i = Some w0 → ¬ failed w0 → ¬ failed w →
  held w ++ q ≡ₚ held w0 ++ l_queue s → flow (set_worker i w (set_queue q s)).
Proof.
  intros Hf Hi H0 Hw Hq. apply (flow_keep s); [exact Hf|reflexivity|intros l; exact (λ H, H)| |].
  - cbn [set_worker set_queue l_workers l_queue]. apply (Permutation_app_inv_l (held w0)).
    rewrite app_assoc, (all_held_insert _ _ w _ Hi).
    rewrite <- app_assoc, (Permutation_app_comm (all_held _)), app_assoc, Hq. solve_Permutation.
  - unfold trouble. cbn [set_worker set_queue l_workers l_failure]. now rewrite (trouble_insert s i w0 w Hi H0 Hw).
Qed.

Lemma flow_top s i w0 :
  flow s → l_workers s !! i = Some w0 → ¬ failed w0 → held w0 = [] → flow (thload_top i s).
Proof.
  intros Hf Hi H0 Hh. unfold thload_top. destruct (l_failure s).
  { apply (flow_replace s i w0 WLeave (l_queue s)); auto; [discriminate|now rewrite Hh]. }
  destruct (l_queue s) as [|b q] eqn:Eq.
  - destruct (l_donereading s).
    + apply (flow_replace s i w0 WLeave (l_queue s)); auto; [discriminate|now rewrite Hh].
    + apply (flow_replace s i w0 WWait (l_queue s)); auto; [discriminate|now rewrite Hh].
  - apply (flow_replace s i w0 (WTaken b) q); auto; [discriminate|]. now rewrite Hh, Eq.
Qed.

Lemma flow_thload i s s' : flow s → thload process i s = Some s' → flow s'.
Proof.
  intros Hf. unfold thload. destruct (l_workers s !! i) as [w|] eqn:Hi; [|discriminate]. mstep.
  assert (Hb : w ≠ WWait → l_workers (broadcast s) !! i = Some w).
  { intros Hw. cbn [broadcast l_workers]. rewrite list_lookup_fmap, Hi. now destruct w. }
  destruct w as [| |b|b|ok| |]; try discriminate.
  - intros [= <-]. apply (flow_top s i WLoop); auto. discriminate.
  - intros [= <-]. apply (flow_replace (broadcast s) i (WTaken b) (WLoad b) (l_queue s)); try (now apply Hb); try discriminate; try reflexivity.
    now apply flow_broadcast.
  - destruct Hf as (order & oks & l & H1 & H2 & H3 & H4).
    destruct (process b (l_sys s)) as [ok sys] eqn:Ep. intros [= <-].
    exists (order ++ [b]), (oks ++ [ok]), l. cbn. split; [exact (process_all_snoc _ _ _ _ _ _ _ _ H1 Ep)|].
    split; [exact H2|]. split.
    + pose proof (all_held_insert (l_workers s) i (WBack ok) (WLoad b) Hi) as Hh. cbn [held app] in Hh.
      rewrite H3, <- Hh. solve_Permutation.
    + rewrite elem_of_app, H4, list_elem_of_singleton. split.
      * intros [[Hx|(w & Hw & Hfw)]|Hx]; [now left|right|right].
        -- exists w. split; [|exact Hfw]. apply (elem_worker_old _ _ _ (WLoad b)); [exact Hi|exact Hw|].
           intros ->. discriminate Hfw.
        -- exists (WBack ok). split; [exact (elem_worker_new _ _ _ _ Hi)|]. now subst ok.
      * intros [Hx|(w & [->|Hw]%elem_worker & Hfw)]; [left; now left| |left; right; now exists w].
        right. injection Hfw as ->. reflexivity.
  - destruct ok; intros [= <-]; [apply (flow_top s i (WBack true)); auto; discriminate|].
    apply (flow_keep s); [exact Hf|reflexivity| | |].
    + intros l. unfold unread. cbn. destruct (l_reader s); intuition.
    + cbn. pose proof (all_held_insert (l_workers s) i WLeave (WBack false) Hi) as Hh. cbn [held app] in Hh. now rewrite Hh.
    + unfold trouble. cbn. split; [|now left]. intros _. right. exists (WBack false).
      split; [exact (list_elem_of_lookup_2 _ _ _ Hi)|reflexivity].
  - intros [= <-]. apply (flow_replace (broadcast s) i WLeave WDone (l_queue s)); try (now apply Hb); try discriminate; try reflexivity.
    now apply flow_broadcast.
Qed.
Lemma flow_load_step s s' : flow s → load_step nprocs s = Some s' → flow s'.
Proof.
  intros Hf. unfold load_step. destruct (l_reader s) as [|b|b| | | |ok] eqn:Er; try discriminate.
  - destruct (read_block (l_file s)) as [[r f]|] eqn:Eb; [|discriminate]. mstep. intros [= <-].
    set (s1 := LState _ _ _ _ _ _ _ _). apply (flow_keep s); [exact Hf|now destruct r| |now destruct r|now destruct r].
    intros l. unfold unread at 1. rewrite Er. intros [Hok Hr].
    inversion Hr as [f0 f1 E E1 E2 E3|f0 f1 E E1 E2 E3|f0 f1 b l' ok E Hr' E1 E2 E3]; rewrite Eb in E;
      injection E as -> ->; unfold unread; cbn [s1 set_reader l_reader l_ok l_file].
    + left. split; congruence.
    + left. split; congruence.
    + split; [exact Hok|]. now exists l'.
  - destruct (l_failure s) eqn:Ef.
    { intros [= <-]. apply (flow_keep s); try reflexivity; [exact Hf|]. intros l _. right. cbn. split; [reflexivity|now right]. }
    destruct (bool_decide _); intros [= <-].
    { apply (flow_keep s); try reflexivity; [exact Hf|]. intros l. unfold unread. rewrite Er. exact (λ H, H). }
    apply flow_broadcast. destruct Hf as (order & oks & l & H1 & H2 & H3 & H4). unfold unread in H2. rewrite Er in H2.
    destruct H2 as (Hok & l' & -> & Hr). exists order, oks, l'. split; [exact H1|]. split; [split; assumption|].
    split; [|exact H4]. rewrite H3. cbn [set_reader set_queue l_workers l_queue app]. solve_Permutation.
  - intros [= <-]. apply (flow_keep s); try reflexivity; [exact Hf|]. intros l. unfold unread. rewrite Er. exact (λ H, H).
  - intros [= <-]. apply flow_broadcast. apply (flow_keep s); try reflexivity; [exact Hf|].
    intros l. unfold unread. rewrite Er. exact (λ H, H).
  - destruct (forallb ended (l_workers s)); [|discriminate]. intros [= <-].
    apply (flow_keep s); try reflexivity; [exact Hf|]. intros l. unfold unread. rewrite Er. exact (λ H, H).
Qed.

Lemma flow_wakes_early s s' : flow s → wakes_early s s' → flow s'.
Proof.
  intros Hf [b Er|i Hi].
  - apply (flow_keep s); try reflexivity; [exact Hf|]. intros l. unfold unread. rewrite Er. exact (λ H, H).
  - apply (flow_replace s i WWait WLoop (l_queue s)); try reflexivity; try discriminate; assumption.
Qed.

Lemma all_held_start : all_held (replicate nprocs WLoop) = [].
Proof. clear Hprocs. unfold all_held. induction nprocs as [|n IH]; [reflexivity|exact IH]. Qed.

Lemma flow_start f : reads f bs fok → flow (load_start nprocs f sys0).
Proof.
  intros Hr. exists [], [], bs. cbn [load_start l_sys l_workers l_queue l_failure process_all app].
  split; [reflexivity|]. split; [split; [reflexivity|exact Hr]|]. split; [now rewrite all_held_start|].
  split; [intros Hx; inversion Hx|]. intros [Hx|(w & Hw & Hx)]; [discriminate|].
  apply elem_of_replicate_inv in Hw. subst w. discriminate Hx.
Qed.

Lemma linv_anything s s' : linv s → anything process nprocs s s' → linv s'.
Proof.
  intros [Hs Hf] [[s1 E|i s1 E]|E].
  - split; [exact (sync_load_step _ _ Hs E)|exact (flow_load_step _ _ Hf E)].
  - split; [exact (sync_thload _ _ _ Hs E)|exact (flow_thload _ _ _ Hf E)].
  - split; [exact (sync_wakes_early _ _ Hs E)|exact (flow_wakes_early _ _ Hf E)].
Qed.

Lemma linv_reachable f s :
  reads f bs fok → rtc (anything process nprocs) (load_start nprocs f sys0) s → linv s.
Proof.
  intros Hr Hs. assert (H0 : linv (load_start nprocs f sys0)) by (split; [apply sync_start|now apply flow_start]).
  revert H0. induction Hs as [|s0 s1 s2 H1 _ IH]; intros H0; [exact H0|]. apply IH. exact (linv_anything _ _ H0 H1).
Qed.

(** ** No deadlock *)

Lemma progress s : sync s → (∃ ok, l_reader s = RDone ok) ∨ ∃ s', moves process nprocs s s'.
Proof.
  intros Hs. pose proof Hs as [H1 H2 H3 H4 H5 H6].
  destruct (decide (Exists (λ w, w ≠ WWait ∧ w ≠ WDone) (l_workers s))) as [He|He].
  { right. apply Exists_exists in He as (w & Hin & Hw1 & Hw2). apply list_elem_of_lookup in Hin as [i Hi].
    assert (is_Some (thload process i s)) as [s' E].
    { unfold thload. rewrite Hi. mstep. destruct w as [| |b|b|[]| |]; try contradiction; try (now eexists).
      destruct (process b (l_sys s)). now eexists. }
    exists s'. now apply (moves_worker _ _ _ i). }
  assert (Hidle : ∀ w, w ∈ l_workers s → w = WWait ∨ w = WDone).
  { intros w Hw. destruct (decide (w = WWait ∨ w = WDone)) as [Hd|Hd]; [exact Hd|]. destruct He.
    apply Exists_exists. exists w. split; [exact Hw|]. tauto. }
  destruct (l_workers s) as [|w0 ws] eqn:Ews; [cbn in H1; lia|]. rewrite <- Ews in *.
  assert (Hin0 : w0 ∈ l_workers s) by (rewrite Ews; left).
  destruct (l_reader s) as [|b|b| | | |ok] eqn:Er; [right|right| |right|right|right|left; now exists ok].
  - destruct (read_block_total (l_file s)) as (r & f & E & _). eexists. apply moves_reader. unfold load_step.
    rewrite Er, E. reflexivity.
  - assert (is_Some (load_step nprocs s)) as [s' E]; [|exists s'; now apply moves_reader].
    unfold load_step. rewrite Er. destruct (l_failure s); [now eexists|]. destruct (bool_decide _); now eexists.
  - exfalso. destruct (H5 b eq_refl) as [[Hlen Hfail]|(w & Hw & Hn)].
    2: { destruct (Hidle w Hw) as [-> | ->]; destruct Hn. }
    destruct (Hidle w0 Hin0) as [-> | ->].
    + destruct (H4 WWait Hin0 eq_refl) as [E _]. rewrite E in Hlen. cbn in Hlen. lia.
    + destruct (H6 WDone Hin0 I) as [E|[E _]]; [congruence|]. apply H3 in E. destruct E.
  - eexists. apply moves_reader. unfold load_step. rewrite Er. reflexivity.
  - eexists. apply moves_reader. unfold load_step. rewrite Er. reflexivity.
  - eexists. apply moves_reader. unfold load_step. rewrite Er.
    rewrite (proj2 (forallb_forall ended (l_workers s))); [reflexivity|].
    intros w Hw. apply list_elem_of_In in Hw. destruct (Hidle w Hw) as [-> | ->]; [|reflexivity].
    destruct (H4 WWait Hw eq_refl) as [_ Hj]. destruct Hj. exact I.
Qed.
(** ** Termination *)

(** How much a thread can still do: every broadcast may wake all others. *)
Definition worker_weight (w : worker) : nat :=
  match w with
  | WDone => 0 | WLeave => nprocs + 2 | WWait => nprocs + 3 | WLoop | WBack _ => nprocs + 4
  | WLoad _ => nprocs + 5 | WTaken _ => 2 * nprocs + 7
  end.
Definition reader_weight (r : reader) : nat :=
  match r with
  | RDone _ => 0 | RJoin => 1 | RNotify => nprocs + 3 | RStop => nprocs + 4 | RRead => nprocs + 5
  | RWait _ => 3 * nprocs + 11 | RPush _ => 3 * nprocs + 12
  end.

Definition weight (s : lstate S) : nat :=
  sum_list (worker_weight <$> l_workers s) + reader_weight (l_reader s) +
  (nprocs + 5) * length (l_queue s) + (2 * nprocs + 8) * length (rf_rest (l_file s)).

Lemma sum_insert (ws : list worker) i w0 w :
  ws !! i = Some w0 →
  (sum_list (worker_weight <$> <[i := w]> ws) + worker_weight w0 = sum_list (worker_weight <$> ws) + worker_weight w)%nat.
Proof.
  revert i. induction ws as [|x ws IH]; intros [|i] H; try discriminate H.
  - injection H as ->. cbn. lia.
  - specialize (IH i H). change (<[Datatypes.S i := w]> (x :: ws)) with (x :: <[i := w]> ws).
    rewrite !fmap_cons. cbn [sum_list_with]. lia.
Qed.

Lemma sum_woken (ws : list worker) :
  (sum_list (worker_weight <$> (wake_worker <$> ws)) <= sum_list (worker_weight <$> ws) + length ws)%nat.
Proof.
  induction ws as [|x ws IH]; [cbn; lia|]. destruct x; cbn in *; lia.
Qed.

Lemma weight_broadcast s : sync s → (weight (broadcast s) <= weight s + (nprocs + 1))%nat.
Proof.
  intros [H1 _ _ _ _ _]. unfold weight. cbn [broadcast l_workers l_reader l_queue l_file].
  pose proof (sum_woken (l_workers s)) as Hw. rewrite H1 in Hw.
  assert (reader_weight (wake_reader (l_reader s)) <= reader_weight (l_reader s) + 1)%nat by (destruct (l_reader s); cbn; lia).
  lia.
Qed.

Lemma weight_worker s i w0 w q :
  l_workers s !! i = Some w0 →
  (weight (set_worker i w (set_queue q s)) + worker_weight w0 + (nprocs + 5) * length (l_queue s) =
   weight s + worker_weight w + (nprocs + 5) * length q)%nat.
Proof.
  intros Hi. pose proof (sum_insert _ _ _ w Hi). unfold weight.
  cbn [set_worker set_queue l_workers l_reader l_queue l_file]. lia.
Qed.

Lemma weight_set s i w0 w :
  l_workers s !! i = Some w0 → (weight (set_worker i w s) + worker_weight w0 = weight s + worker_weight w)%nat.
Proof.
  intros Hi. pose proof (weight_worker s i w0 w (l_queue s) Hi) as H.
  change (set_worker i w (set_queue (l_queue s) s)) with (set_worker i w s) in H. lia.
Qed.

Lemma weight_top s i w0 :
  l_workers s !! i = Some w0 → worker_weight w0 = (nprocs + 4)%nat → (weight (thload_top i s) < weight s)%nat.
Proof.
  intros Hi Hw. pose proof (λ w, weight_set s i w0 w Hi) as H. unfold thload_top. destruct (l_failure s).
  { specialize (H WLeave). cbn [worker_weight] in H. lia. }
  destruct (l_queue s) as [|b q] eqn:Eq.
  - destruct (l_donereading s).
    + specialize (H WLeave). cbn [worker_weight] in H. lia.
    + specialize (H WWait). cbn [worker_weight] in H. lia.
  - pose proof (weight_worker s i w0 (WTaken b) q Hi) as Ht. rewrite Eq in Ht. cbn [length worker_weight] in Ht. lia.
Qed.

(** Every step of the caller or a thread leaves less to do. *)
Lemma moves_weight s s' : sync s → moves process nprocs s s' → (weight s' < weight s)%nat.
Proof.
  intros Hs Hm. pose proof (weight_broadcast s Hs) as Hb. destruct Hm as [s' E|i s' E].
  - unfold load_step in E. destruct (l_reader s) as [|b|b| | | |ok] eqn:Er; try discriminate.
    + destruct (read_block_total (l_file s)) as (r & f & Eb & Hl). rewrite Eb in E. injection E as <-.
      unfold weight. rewrite Er. destruct r; cbn [set_reader l_workers l_reader l_queue l_file reader_weight]; nia.
    + destruct (l_failure s).
      { injection E as <-. unfold weight. rewrite Er. cbn [set_reader l_workers l_reader l_queue l_file reader_weight]. lia. }
      destruct (bool_decide _); injection E as <-.
      { unfold weight. rewrite Er. cbn [set_reader l_workers l_reader l_queue l_file reader_weight]. lia. }
      unfold weight. cbn [set_reader set_queue broadcast l_workers l_reader l_queue l_file reader_weight wake_reader length].
      pose proof (sum_woken (l_workers s)) as Hw. rewrite (sy_workers _ Hs) in Hw. rewrite Er. cbn [reader_weight]. lia.
    + injection E as <-. unfold weight. rewrite Er. cbn [l_workers l_reader l_queue l_file reader_weight]. lia.
    + injection E as <-. unfold weight. cbn [set_reader broadcast l_workers l_reader l_queue l_file reader_weight wake_reader].
      pose proof (sum_woken (l_workers s)) as Hw. rewrite (sy_workers _ Hs) in Hw. rewrite Er. cbn [reader_weight]. lia.
    + destruct (forallb ended (l_workers s)); [|discriminate]. injection E as <-. unfold weight. rewrite Er.
      cbn [set_reader l_workers l_reader l_queue l_file reader_weight]. lia.
  - unfold thload in E. destruct (l_workers s !! i) as [w|] eqn:Hi; [|discriminate]. cbn [mbind option_bind] in E.
    assert (Hib : w ≠ WWait → l_workers (broadcast s) !! i = Some w).
    { intros Hw. cbn [broadcast l_workers]. rewrite list_lookup_fmap, Hi. now destruct w. }
    pose proof (λ w', weight_set s i w w' Hi) as Hset.
    pose proof (λ w' H, weight_set (broadcast s) i w w' (Hib H)) as Hsetb.
    destruct w as [| |b|b|ok| |]; try discriminate.
    + injection E as <-. apply (weight_top s i WLoop Hi). reflexivity.
    + injection E as <-. specialize (Hsetb (WLoad b) ltac:(discriminate)). cbn [worker_weight] in Hsetb. lia.
    + destruct (process b (l_sys s)) as [ok sys]. injection E as <-. specialize (Hset (WBack ok)).
      cbn [worker_weight] in Hset. unfold weight in *.
      cbn [set_worker l_workers l_reader l_queue l_file] in *. lia.
    + destruct ok; injection E as <-; [apply (weight_top s i _ Hi); reflexivity|]. specialize (Hset WLeave).
      cbn [worker_weight] in Hset. unfold weight in *. cbn [set_worker l_workers l_reader l_queue l_file] in *. lia.
    + injection E as <-. specialize (Hsetb WDone ltac:(discriminate)). cbn [worker_weight] in Hsetb. lia.
Qed.
End Inv.

Lemma run_schedule_rtc {S} (process : cblock → S → bool * S) nprocs l : ∀ s s',
  run_schedule process nprocs l s = Some s' → rtc (anything process nprocs) s s'.
Proof.
  induction l as [|th l IH]; intros s s'; cbn [run_schedule]; [intros [= <-]; apply rtc_refl|].
  destruct (match th with None => _ | Some i => _ end) as [s1|] eqn:E; [|discriminate]. mstep.
  intros H. apply (rtc_l _ _ s1); [left; destruct th as [i|]|now apply IH].
  - now apply (moves_worker _ _ _ i).
  - now apply moves_reader.
Qed.

(** What holds when [load] has returned. *)
Definition returned {S} (s : lstate S) : Prop :=
  ∀ ok, l_reader s = RDone ok → Forall (λ w, w = WDone) (l_workers s) ∧ ok = l_ok s && negb (l_failure s).

Lemma thload_reader {S} (process : cblock → S → bool * S) i s s' ok :
  thload process i s = Some s' → l_reader s' = RDone ok → l_reader s = RDone ok ∧ l_workers s !! i ≠ Some WDone.
Proof.
  unfold thload. destruct (l_workers s !! i) as [w|]; [|discriminate]. mstep.
  assert (Htop : l_reader (thload_top i s) = l_reader s).
  { unfold thload_top. destruct (l_failure s), (l_queue s), (l_donereading s); reflexivity. }
  assert (Hwake : wake_reader (l_reader s) = RDone ok → l_reader s = RDone ok) by now destruct (l_reader s).
  destruct w as [| |b|b|[]| |]; try discriminate; [| |destruct (process b (l_sys s))| | |]; intros [= <-] E;
    (split; [|congruence]); try exact E; try (now apply Hwake); now rewrite Htop in E.
Qed.

Lemma returned_anything {S} (process : cblock → S → bool * S) nprocs s s' :
  returned s → anything process nprocs s s' → returned s'.
Proof.
  intros Hr [[s1 E|i s1 E]|[b Er|i Hi]] ok Eok.
  - unfold load_step in E. destruct (l_reader s) as [|b|b| | | |ok'] eqn:Er; try discriminate.
    + destruct (read_block (l_file s)) as [[[] f]|]; [..|discriminate]; injection E as <-; discriminate Eok.
    + destruct (l_failure s); [injection E as <-; discriminate Eok|].
      destruct (bool_decide _); injection E as <-; discriminate Eok.
    + injection E as <-. discriminate Eok.
    + injection E as <-. discriminate Eok.
    + destruct (forallb ended (l_workers s)) eqn:Ee; [|discriminate]. injection E as <-. injection Eok as <-.
      split; [|reflexivity]. cbn. apply Forall_forall. intros w Hw. rewrite forallb_forall in Ee.
      apply list_elem_of_In in Hw. specialize (Ee w Hw). now destruct w.
  - exfalso. destruct (thload_reader process i s s1 ok E Eok) as [E1 E2]. destruct (Hr ok E1) as [Hall _].
    unfold thload in E. destruct (l_workers s !! i) as [w|] eqn:Hi; [|discriminate].
    rewrite Forall_lookup in Hall. rewrite (Hall i w Hi) in E2. now apply E2.
  - discriminate Eok.
  - exfalso. destruct (Hr ok Eok) as [Hall _]. rewrite Forall_lookup in Hall. discriminate (Hall i _ Hi).
Qed.

(** From every state that can be reached the caller can still return. *)
Lemma load_returns {S} (process : cblock → S → bool * S) nprocs f sys s :
  (0 < nprocs)%nat → rtc (anything process nprocs) (load_start nprocs f sys) s →
  ∃ s' ok, rtc (anything process nprocs) (load_start nprocs f sys) s' ∧ rtc (moves process nprocs) s s' ∧ l_reader s' = RDone ok.
Proof.
  intros Hp. remember (weight nprocs s) as n eqn:En. revert s En. induction (lt_wf n) as [n _ IH]. intros s -> Hs.
  destruct (reads_total f) as (bs & fok & Hr). destruct (linv_reachable process nprocs Hp bs fok sys f s Hr Hs) as [Hsync _].
  destruct (progress process nprocs Hp s Hsync) as [[ok E]|[s1 Hm]]; [exists s, ok; split; [exact Hs|]; split; [apply rtc_refl|exact E]|].
  destruct (IH _ (moves_weight process nprocs Hp s s1 Hsync Hm) s1 eq_refl) as (s' & ok & H1 & H2 & H3).
  - exact (rtc_r _ _ _ Hs (or_introl Hm)).
  - exists s', ok. split; [exact H1|]. split; [|exact H3]. apply (rtc_l _ _ s1); [exact Hm|exact H2].
Qed.

Section Theorems.
Context {S : Type} (process : cblock → S → bool * S) (nprocs : nat).

(** C8: [load] always comes to its end. Whatever the scheduler does, also when waits
    end early: the queue never holds more blocks than its array has places; as
    long as the caller has not returned, it or one of the threads can go on, so
    that no wake-up is lost; and how often they can go on is bounded. *)
Theorem load_terminates f sys s :
  (0 < nprocs)%nat → rtc (anything process nprocs) (load_start nprocs f sys) s →
  (length (l_queue s) <= nprocs)%nat ∧
  ((∃ ok, l_reader s = RDone ok) ∨ ∃ s', moves process nprocs s s') ∧
  ∀ n s', nsteps (moves process nprocs) n s s' → (n <= weight nprocs s)%nat.
Proof.
  intros Hp Hs. destruct (reads_total f) as (bs & fok & Hr).
  pose proof (linv_reachable process nprocs Hp bs fok sys f s Hr Hs) as [Hsync Hflow].
  split; [exact (sy_queue _ _ Hsync)|]. split; [exact (progress process nprocs Hp s Hsync)|].
  intros n s' Hn. revert Hsync Hflow. clear Hs. induction Hn as [s|n s s1 s2 Hm _ IH]; intros Hsync Hflow; [lia|].
  pose proof (moves_weight process nprocs Hp s s1 Hsync Hm).
  destruct (linv_anything process nprocs Hp bs fok sys s s1 (conj Hsync Hflow) (or_introl Hm)) as [H1 H2].
  specialize (IH H1 H2). lia.
Qed.

(** The result of [load]. *)
Lemma load_outcome f sys s bs fok ok :
  (0 < nprocs)%nat → reads f bs fok → rtc (anything process nprocs) (load_start nprocs f sys) s →
  l_reader s = RDone ok →
  ∃ order oks, process_all process order sys = (oks, l_sys s) ∧ order ⊆+ bs ∧
    (ok = true → order ≡ₚ bs ∧ fok = true ∧ Forall (λ b, b = true) oks) ∧
    (ok = false → fok = false ∨ false ∈ oks).
Proof.
  intros Hp Hr Hs Eok. destruct (linv_reachable process nprocs Hp bs fok sys f s Hr Hs) as [Hsync Hflow].
  assert (Hret : returned s).
  { assert (H0 : returned (load_start nprocs f sys)) by (intros ? [=]).
    revert H0. clear -Hs. induction Hs as [|s0 s1 s2 H1 _ IH]; intros H0; [exact H0|].
    apply IH. exact (returned_anything process nprocs s0 s1 H0 H1). }
  destruct (Hret ok Eok) as [Hdone Hok]. destruct Hflow as (order & oks & l & H1 & H2 & H3 & H4).
  exists order, oks. split; [exact H1|]. unfold unread in H2. rewrite Eok in H2.
  assert (Hh : all_held (l_workers s) = []).
  { unfold all_held. clear -Hdone. induction Hdone as [|w ws -> _ IH]; [reflexivity|exact IH]. }
  rewrite Hh in H3. cbn [app] in H3.
  assert (Hnf : ¬ ∃ w, w ∈ l_workers s ∧ failed w).
  { intros (w & Hw & Hf). rewrite Forall_forall in Hdone. rewrite (Hdone w Hw) in Hf. discriminate Hf. }
  split; [rewrite H3; apply submseteq_inserts_r; reflexivity|]. split; intros ->.
  - symmetry in Hok. apply andb_true_iff in Hok as [Hok Hf]. apply negb_true_iff in Hf.
    destruct H2 as [[-> E]|[E _]]; [|congruence].
    assert (Hq : l_queue s = []).
    { destruct (l_workers s) as [|w ws] eqn:Ew; [pose proof (sy_workers _ _ Hsync) as Hl; rewrite Ew in Hl; cbn in Hl; lia|].
      inversion Hdone; subst. destruct (sy_leave _ _ Hsync WDone) as [E1|[_ E1]]; [rewrite Ew; left|exact I|congruence|exact E1]. }
    rewrite Hq, app_nil_r in H3. split; [now symmetry|]. split; [congruence|].
    apply Forall_forall. intros b Hb. destruct b; [reflexivity|]. apply H4 in Hb as [Hb|Hb]; [congruence|now destruct Hnf].
  - symmetry in Hok. apply andb_false_iff in Hok as [E|E].
    + destruct H2 as [[_ E1]|[_ [E1|E1]]]; [left; congruence|left; exact E1|right; apply H4; now left].
    + apply negb_false_iff in E. right. apply H4. now left.
Qed.

(** C23: What [load] returns, whatever the scheduler does. The blocks loaded are
    blocks of the file, each at most once, and the effect on the cache is that
    of loading them one after the other in some order. [load] reports success
    only if the file was read to its end, every block was loaded and none was
    bad; it reports failure only if the file or a block was bad. *)
Theorem load_result f sys s bs fok ok :
  (0 < nprocs)%nat → reads f bs fok → rtc (anything process nprocs) (load_start nprocs f sys) s →
  l_reader s = RDone ok →
  ∃ order oks, process_all process order sys = (oks, l_sys s) ∧ order ⊆+ bs ∧
    (ok = true → order ≡ₚ bs ∧ fok = true ∧ Forall (λ b, b = true) oks) ∧
    (ok = false → fok = false ∨ false ∈ oks).
Proof. exact (load_outcome f sys s bs fok ok). Qed.
End Theorems.

(** ** A file with one block *)

Definition file1 : rfile :=
  RFile (str "POGO" ++ write_u32 (crc32 [7]) ++ write_u32 1 ++ write_u32 1 ++ [7]) (λ _, 4096).
Definition block1 : cblock := CBlock [7] 1.

(** Loading a block writes it down. *)
Definition note_block (b : cblock) (l : list cblock) : bool * list cblock := (true, l ++ [b]).

Lemma file1_reads : reads file1 [block1] true.
Proof.
  eapply reads_block; [vm_compute; reflexivity|]. eapply reads_eof. vm_compute. reflexivity.
Qed.

(** The caller reads the file while both threads wait, then one thread loads the block. *)
Definition schedule1 : list (option nat) :=
  [Some 0; Some 1; None; None; None; Some 0; Some 1; Some 0; Some 0; None; None; Some 0; Some 0; Some 1; Some 1; None]%nat.

Lemma load_terminates_witness : ∃ s,
  run_schedule note_block 2 (take 3 schedule1) (load_start 2 file1 []) = Some s ∧ l_workers s = [WWait; WWait] ∧
  (length (l_queue s) <= 2)%nat ∧ ∃ s', moves note_block 2 s s'.
Proof.
  eexists. split; [vm_compute; reflexivity|]. split; [reflexivity|].
  match goal with |- (length (l_queue ?x) <= 2)%nat ∧ _ => pose proof (load_terminates note_block 2 file1 [] x) as H end.
  destruct H as (H1 & H2 & _).
  - lia.
  - apply (run_schedule_rtc note_block 2 (take 3 schedule1)). vm_compute. reflexivity.
  - split; [exact H1|]. destruct H2 as [[ok E]|H2]; [discriminate E|exact H2].
Defined.

Lemma load_result_witness : ∃ s,
  run_schedule note_block 2 schedule1 (load_start 2 file1 []) = Some s ∧ l_reader s = RDone true ∧
  ∃ order, order ≡ₚ [block1] ∧ l_sys s = order.
Proof.
  eexists. split; [vm_compute; reflexivity|]. split; [reflexivity|].
  match goal with |- ∃ order, _ ∧ l_sys ?x = _ =>
    pose proof (load_result note_block 2 file1 [] x [block1] true true) as H end.
  destruct H as (order & oks & H1 & _ & H2 & _).
  - lia.
  - exact file1_reads.
  - apply (run_schedule_rtc note_block 2 schedule1). vm_compute. reflexivity.
  - reflexivity.
  - destruct (H2 eq_refl) as (H3 & _). exists order. split; [exact H3|].
    symmetry in H3. apply Permutation_length_1_inv in H3 as ->. exact (eq_sym (f_equal snd H1)).
Defined.
