(* ===== verification/KvSave.v ===== *)
(** * KvSave: what [save] writes of the store

    The blocks of the file hold the live items of the store, each once, with
    what is left of their time to live. *)

From S2P Require Import Prelude Util Context Entry Heap Map MapInv MapSpec Shard ShardInv ShardSpec ShardOps ShardStore Scan.
From S2P Require Import Samples ShardTheorems Cache Locks CacheInv CacheOps CacheTheorems CacheScan.
From S2P Require Import Resp RespProofs Memcache Http Parse Conn ConnProofs Cmds CmdTable CmdFrame Server.
From S2P Require Import Kv KvRel KvCmds KvBatch KvServer KvFlush KvKeys Snapshot SnapshotProofs.

#[local] Opaque th64 hash24 encode entry_memsize.

(** The real time runs with the clock, [delta] ahead of it. *)
Definition clocks (delta : Z) (s : snap) : Prop :=
  ∀ i, n_unix s i = s_clock (n_server s) i + delta ∧ 0 <= n_unix s i < 2 ^ 63.

Lemma clocks_tick delta s : clocks delta s → clocks delta (sys_now_unix s).2.
Proof. intros Hc i. exact (Hc (S i)). Qed.

(** Later on the same clock: [t'] is one of its readings, or [t]. *)
Definition advanced (s s' : snap) (t t' : Z) : Prop :=
  t <= t' ∧ (t' = t ∨ ∃ j, t' = s_clock (n_server s) j) ∧
  ∃ k, ∀ i, s_clock (n_server s') i = s_clock (n_server s) (k + i)%nat.

Lemma advanced_refl s t : advanced s s t t.
Proof. split; [apply Z.le_refl|]. split; [now left|]. exists 0%nat. reflexivity. Qed.

Lemma advanced_trans s1 s2 s3 t1 t2 t3 : advanced s1 s2 t1 t2 → advanced s2 s3 t2 t3 → advanced s1 s3 t1 t3.
Proof.
  intros (H1 & H2 & k & H3) (H4 & H5 & l & H6). split; [lia|]. split.
  - destruct H5 as [->|[j ->]]; [exact H2|]. right. rewrite H3. now eexists.
  - exists (k + l)%nat. intros i. rewrite H6, H3. f_equal. lia.
Qed.

(** ** How large a block can be *)

Definition item_size (kx : bytes * item) : nat := length kx.1 + length (i_val kx.2) + 60.
Definition snapshot_size (m : kv) : nat := 10 + sum_list_with item_size (map_to_list m).

Lemma sum_submseteq {A : Type} (g : A → nat) (l1 l2 : list A) :
  l1 ⊆+ l2 → (sum_list_with g l1 <= sum_list_with g l2)%nat.
Proof. induction 1; cbn; lia. Qed.

Lemma kv_get_lookup (t : Z) (m : kv) (key : bytes) (x : item) :
  kv_get t m key = Some x → m !! key = Some x ∧ live t x = true.
Proof.
  unfold kv_get. destruct (m !! key) as [y|]; [|discriminate]. cbn. destruct (live t y) eqn:E; [|discriminate].
  intros [= ->]. now split.
Qed.

Lemma kv_get_earlier (t t' : Z) (m : kv) (key : bytes) (x : item) :
  t <= t' → kv_get t' m key = Some x → kv_get t m key = Some x.
Proof.
  intros Ht (E & El)%kv_get_lookup. unfold kv_get. rewrite E. cbn.
  enough (live t x = true) as -> by reflexivity. unfold live in *.
  destruct (0 <? i_expires x) eqn:Ex; zb; cbn [andb negb] in *; [|reflexivity].
  apply negb_true_iff in El. apply negb_true_iff. zb. lia.
Qed.

Lemma faithful_savable (t : Z) (m : kv) (v : view) : good_time t → faithful_view t m v → savable v.
Proof.
  intros [Ht _] (x & Hx & (E1 & _ & E3 & E4 & E5 & V1 & V2 & V3) & [_ Hk] & Hcas).
  apply kv_get_lookup in Hx as [_ Hl]. split; try assumption; [lia|].
  intros He. rewrite E1, E5 in *. unfold live in Hl. apply negb_true_iff, andb_false_iff in Hl as [Hl|Hl]; zb; lia.
Qed.

Lemma entry_size v e : savable v → entry_bytes v = Some e →
  (length e <= length (v_key v) + length (v_val v) + 60)%nat.
Proof.
  intros [H1 H2 H3 H4 H5 H6 H7]. unfold entry_bytes.
  destruct (if 0 <? v_expires v then _ else _) as [ttl|] eqn:Et; [|discriminate]. mstep. intros [= <-].
  assert (Htu : is_u64 ttl).
  { unfold is_u64. destruct (0 <? v_expires v); [|injection Et as <-; lia].
    destruct (0 <? v_expires v - v_time v) eqn:E; [|discriminate]. injection Et as <-. zb. lia. }
  unfold is_u32 in H6. assert (Hf : is_u64 (v_flags v)) by (unfold is_u64; lia).
  assert (Hk : is_u64 (size (v_key v))) by (unfold is_u64, size; lia).
  assert (Hv : is_u64 (size (v_val v))) by (unfold is_u64, size; lia).
  pose proof (length_varint _ Htu). pose proof (length_varint _ Hf). pose proof (length_varint _ H7).
  pose proof (length_varint _ Hk). pose proof (length_varint _ Hv). cbn [app length]. rewrite !length_app. lia.
Qed.

Lemma views_size (t : Z) (m : kv) (vs : list view) :
  good_time t → Forall (faithful_view t m) vs → NoDup (v_key <$> vs) →
  (length (entries_bytes vs) <= sum_list_with item_size (map_to_list m))%nat.
Proof.
  intros Ht Hv Hn.
  assert (Hl : ∃ l : list (bytes * item), l.*1 = v_key <$> vs ∧ l ⊆ map_to_list m ∧
    (length (entries_bytes vs) <= sum_list_with item_size l)%nat).
  { clear Hn. induction Hv as [|v vs Hv1 _ (l & IH1 & IH2 & IH3)].
    - exists []. split; [reflexivity|]. split; [intros y Hy; inversion Hy|]. cbn. lia.
    - pose proof (faithful_savable t m v Ht Hv1) as Hs. destruct Hv1 as (x & Hx & (_ & _ & E3 & _) & _).
      exists ((v_key v, x) :: l). split; [cbn; f_equal; exact IH1|]. split.
      + intros y [->|Hy]%elem_of_cons; [|exact (IH2 y Hy)]. apply elem_of_map_to_list. exact (proj1 (kv_get_lookup _ _ _ _ Hx)).
      + destruct (entry_roundtrip_saved v [] Hs) as (e & E & _). pose proof (entry_size v e Hs E) as Hle.
        unfold entries_bytes in *. cbn [fmap list_fmap concat compose]. rewrite E, length_app. cbn [default from_option id sum_list_with].
        unfold item_size at 1. cbn [fst snd]. rewrite E3 in Hle. lia. }
  destruct Hl as (l & E1 & E2 & E3). etransitivity; [exact E3|]. apply sum_submseteq, NoDup_submseteq; [|exact E2].
  apply (NoDup_fmap_1 fst). now rewrite E1.
Qed.

(** ** Writing *)

(** Every system call succeeds, and [write] and [read] make progress. *)
Definition io_works (d : disk) : Prop := ∀ i, 0 < d_io d i.

Lemma write_all_works work fuel : ∀ p d file,
  io_works d → d_files d !! work = Some file → d_off d = size file → (length p <= fuel)%nat →
  ∃ d', write_all fuel work p d = Some (true, d') ∧ io_works d' ∧
    d_files d' = <[work := file ++ p]> (d_files d) ∧ d_off d' = size (file ++ p).
Proof.
  induction fuel as [|fuel IH]; intros p d file Hio Hf Ho Hl; destruct p as [|b p]; try (cbn in Hl; lia).
  - exists d. rewrite app_nil_r, insert_id by exact Hf. split; [reflexivity|]. split; [exact Hio|]. now split.
  - exists d. rewrite app_nil_r, insert_id by exact Hf. split; [reflexivity|]. split; [exact Hio|]. now split.
  - cbn [write_all io]. pose proof (Hio 0%nat) as H0. rewrite (proj2 (Z.ltb_ge _ _)) by lia.
    cbn [d_files d_off d_io]. rewrite Hf. cbn [default from_option id]. set (all := b :: p) in *.
    set (n := Z.min (d_io d 0%nat) (size all)).
    assert (Hn : 0 < n <= size all) by (unfold n, all, size; cbn [length]; lia).
    assert (Eo : overwrite file (d_off d) (take (Z.to_nat n) all) = file ++ take (Z.to_nat n) all).
    { unfold overwrite. rewrite Ho. unfold size at 1. rewrite Nat2Z.id, take_ge by lia. f_equal.
      rewrite drop_ge by (unfold size; lia). apply app_nil_r. }
    rewrite Eo.
    destruct (IH (drop (Z.to_nat n) all)
      (Disk (<[work := file ++ take (Z.to_nat n) all]> (d_files d)) (d_off d + n) (λ i, d_io d (S i)))
      (file ++ take (Z.to_nat n) all)) as (d' & E & H1 & H2 & H3).
    + intros i. apply Hio.
    + apply lookup_insert_eq.
    + cbn [d_off]. rewrite Ho. unfold size in *. rewrite length_app, length_take. lia.
    + rewrite length_drop. unfold size in Hn. cbn [length all] in *. lia.
    + exists d'. split; [exact E|]. split; [exact H1|]. rewrite <- app_assoc, take_drop in H2, H3.
      cbn [d_files] in H2. rewrite insert_insert_eq in H2. now split.
Qed.

(** ** The blocks of a store *)

(** The unix time and the views of a block. *)
Abbreviation vblock := (Z * list view)%type.

Definition block_file `{Lz4} (b : vblock) : bytes := block_bytes (block_data b.1 b.2).
Definition file_of `{Lz4} (bs : list vblock) : bytes := concat (block_file <$> bs).
Definition keys_of (bs : list vblock) : list bytes := concat ((λ b : vblock, v_key <$> b.2) <$> bs).

(** A block written before [t] holds items of the store as they were then. *)
Record written (delta : Z) (m : kv) (t : Z) (b : vblock) : Prop := {
  wr_time : 0 <= b.1 < 2 ^ 63;
  wr_before : b.1 - delta <= t;
  wr_views : Forall (λ v, savable v ∧ faithful_view (b.1 - delta) m v) b.2;
  wr_fits : fits (block_data b.1 b.2)
}.

Lemma written_later (delta : Z) (m : kv) (t t' : Z) (b : vblock) : t <= t' → written delta m t b → written delta m t' b.
Proof. intros Ht [H1 H2 H3 H4]. split; try assumption. lia. Qed.

Section Save.
Context `{Env} `{!EnvOk _} {lz4 : Lz4} {lz4_ok : Lz4Ok lz4} (K : gset bytes) (B : nat) (delta : Z) (m : kv) (work : bytes).
Context (Hsmall : Z.of_nat (snapshot_size m) <= LZ4_MAX_INPUT_SIZE).

(** The blocks [bs] were appended to the work file. *)
Record appended (d d' : disk) (file : bytes) (bs : list vblock) : Prop := {
  ap_io : io_works d';
  ap_files : d_files d' = <[work := file ++ file_of bs]> (d_files d);
  ap_off : d_off d' = size (file ++ file_of bs)
}.

Lemma appended_nil d file :
  io_works d → d_files d !! work = Some file → d_off d = size file → appended d d file [].
Proof. intros H1 H2 H3. split; [exact H1| |]; unfold file_of; cbn; rewrite app_nil_r; [now rewrite insert_id|exact H3]. Qed.

Lemma appended_app d d1 d2 file bs1 bs2 :
  appended d d1 file bs1 → appended d1 d2 (file ++ file_of bs1) bs2 → appended d d2 file (bs1 ++ bs2).
Proof.
  intros [H1 H2 H3] [H4 H5 H6]. split; [exact H4| |]; unfold file_of in *; rewrite fmap_app, concat_app, app_assoc;
    [rewrite H5, H2; apply insert_insert_eq|exact H6].
Qed.

Lemma appended_next d d' file bs :
  appended d d' file bs → d_files d' !! work = Some (file ++ file_of bs).
Proof. intros [_ H2 _]. rewrite H2. apply lookup_insert_eq. Qed.

(** The server goes on serving the same store at [t'], and the blocks written
    hold every item of the shards [P] that is alive then. *)
Record saved_shards (ctx : pgctx) (P : Z → Prop) (t' : Z) (s' : snap) (bs : list vblock) : Prop := {
  ss_serves : serves K B (n_server s') t' m;
  ss_clocks : clocks delta s';
  ss_ctx : c_ctx (s_cache (n_server s')) = ctx;
  ss_written : Forall (written delta m t') bs;
  ss_all key : P (home ctx key) → is_Some (kv_get t' m key) → key ∈ keys_of bs
}.

(** One shard. *)
Lemma save_shard shardidx s d t file :
  serves K B (n_server s) t m → clocks delta s → let ctx := c_ctx (s_cache (n_server s)) in
  0 <= shardidx < nshards ctx → io_works d → d_files d !! work = Some file → d_off d = size file →
  ∃ s' d' t' bs, (∀ todo, thsave work (S todo) shardidx s d = thsave work todo (shardidx + 1) s' d') ∧
    advanced s s' t t' ∧ appended d d' file bs ∧ saved_shards ctx (λ i, i = shardidx) t' s' bs.
Proof.
  intros Hs Hcl ctx Hi Hio Hf Ho. pose proof Hs as [[Ms Hr] Hu Hlow Hb Hc].
  set (v := n_server s) in *. set (now := s_clock v 0%nat). destruct (Hc 0%nat) as (Ht & Hgt & _). fold now in Ht, Hgt.
  set (s1 := (sys_now_unix s).2). set (u := n_unix s 0%nat). destruct (Hcl 0%nat) as [Hu0 Hur]. fold u now v in Hu0, Hur.
  pose proof (kv_rel_later _ _ _ _ _ _ _ _ Ht Hr) as Hr1.
  set (opts := IterOpts now true shardidx (Some save_entry)).
  destruct (iter_shard_kv K B (λ v u, (save_entry v u).2) opts (s_cache v) (s_world v) Ms now m shardidx
    (Some (varint_write_u64 u, 0)) eq_refl Hr1 Hu Hi) as (k' & w' & vs & E & Hr' & Ec & El & [Hv1 Hvn Hv2]).
  assert (Hfv : Forall (faithful_view now m) vs) by (eapply Forall_impl; [exact Hv1|]; intros x Hx; exact (proj2 Hx)).
  assert (Hsv : Forall savable vs) by (eapply Forall_impl; [exact Hfv|]; intros x; exact (faithful_savable now m x Hgt)).
  rewrite save_entries in E by exact Hsv. rewrite Z.add_0_l in E. fold (block_data u vs) in E.
  set (s' := Snap (set_cache (n_server s1) k' w') (n_unix s1)).
  assert (Hstep : ∀ todo, thsave work (S todo) shardidx s d =
    ('(ok, d) ← flush work (block_data u vs) (Z.of_nat (length vs)) d;
     if ok : bool then thsave work todo (shardidx + 1) s' d else Some (false, s', d))).
  { intros todo. cbn [thsave sys_now_unix]. fold v now u. unfold pogocache_iter. cbn [io_oneshard io_oneshardidx io_time s_cache s_world s_clock n_server].
    rewrite opt_now_given by exact Hgt. fold ctx opts.
    rewrite (proj2 (Z.ltb_ge _ 0)), (proj2 (Z.leb_gt _ shardidx)) by lia. cbn [orb].
    rewrite (u64_id u) by (unfold is_u64; lia). rewrite E. mstep. reflexivity. }
  assert (Hserves : serves K B (n_server s') now m).
  { split; [exists Ms; exact Hr'|exact (unlocked_same _ _ El Hu)|exact Hlow|cbn; now rewrite Ec|exact (clock_tick _ _ Hc)]. }
  assert (Hall : ∀ bs, v_key <$> vs = keys_of bs → Forall (written delta m now) bs →
    saved_shards ctx (λ i, i = shardidx) now s' bs).
  { intros bs Hk Hw. split; [exact Hserves|exact (clocks_tick _ _ Hcl)|exact Ec|exact Hw|].
    intros key Hh Hx. rewrite <- Hk. exact (Hv2 key Hh Hx). }
  assert (Hadv : advanced s s' t now).
  { split; [exact Ht|]. split; [right; now exists 0%nat|]. exists 1%nat. reflexivity. }
  destruct vs as [|v0 vs'].
  { exists s', d, now, []. split; [intros todo; rewrite Hstep; reflexivity|]. split; [exact Hadv|].
    split; [now apply appended_nil|]. apply Hall; [reflexivity|constructor]. }
  set (vs := v0 :: vs') in *.
  assert (Hfit : fits (block_data u vs)).
  { unfold fits, block_data, size. rewrite length_app. pose proof (views_size now m vs Hgt Hfv Hvn) as Hvs.
    pose proof (length_varint u ltac:(unfold is_u64; lia)). unfold snapshot_size in Hsmall.
    pose proof (varint_write_nonnil u) as Hne. destruct (varint_write_u64 u); [now destruct Hne|]. cbn [length] in *. lia. }
  destruct (write_all_works work (length (block_bytes (block_data u vs))) (block_bytes (block_data u vs)) d file Hio Hf Ho (le_n _))
    as (d' & Ew & Hio' & Hf' & Ho').
  exists s', d', now, [(u, vs)]. split; [|split; [exact Hadv|split]].
  - intros todo. rewrite Hstep. unfold flush. rewrite (proj2 (Z.eqb_neq _ _)) by (cbn; lia). rewrite Ew. reflexivity.
  - assert (Efile : file_of [(u, vs)] = block_bytes (block_data u vs)) by (unfold file_of; cbn [fmap list_fmap concat]; rewrite app_nil_r; reflexivity).
    split; [exact Hio'|rewrite Efile; exact Hf'|rewrite Efile; exact Ho'].
  - apply Hall; [unfold keys_of; cbn [fmap list_fmap concat snd]; now rewrite app_nil_r|].
    assert (Eu : u - delta = now) by lia.
    constructor; [|constructor]. split; cbn [fst snd]; rewrite ?Eu; [exact Hur|lia| |exact Hfit].
    apply Forall_forall. intros x Hx. rewrite Forall_forall in Hfv, Hsv. split; [exact (Hsv x Hx)|]. rewrite ?Eu. exact (Hfv x Hx).
Qed.
Lemma saved_join ctx (P Q R : Z → Prop) t1 t2 s1 s2 bs1 bs2 :
  (∀ i, R i → P i ∨ Q i) → t1 <= t2 →
  saved_shards ctx P t1 s1 bs1 → saved_shards ctx Q t2 s2 bs2 → saved_shards ctx R t2 s2 (bs1 ++ bs2).
Proof.
  intros HR Ht [P1 P2 P3 P4 P5] [Q1 Q2 Q3 Q4 Q5]. split; [exact Q1|exact Q2|exact Q3| |].
  - apply Forall_app. split; [|exact Q4]. eapply Forall_impl; [exact P4|]. intros b. exact (written_later _ _ _ _ _ Ht).
  - intros key Hk Hx. unfold keys_of. rewrite fmap_app, concat_app. apply elem_of_app.
    destruct (HR _ Hk) as [Hp|Hq]; [left|right; exact (Q5 key Hq Hx)].
    apply (P5 key Hp). destruct Hx as [x Hx]. exists x. exact (kv_get_earlier _ _ _ _ _ Ht Hx).
Qed.

Lemma saved_none ctx t s P :
  serves K B (n_server s) t m → clocks delta s → c_ctx (s_cache (n_server s)) = ctx → (∀ i, ¬ P i) →
  saved_shards ctx P t s [].
Proof. intros H1 H2 H3 H4. split; [exact H1|exact H2|exact H3|constructor|]. intros key Hk. destruct (H4 _ Hk). Qed.

Lemma thsave_kv ctx todo : ∀ shardidx s d t file,
  serves K B (n_server s) t m → clocks delta s → c_ctx (s_cache (n_server s)) = ctx →
  0 <= shardidx → shardidx + Z.of_nat todo <= nshards ctx →
  io_works d → d_files d !! work = Some file → d_off d = size file →
  ∃ s' d' t' bs, thsave work todo shardidx s d = Some (true, s', d') ∧ advanced s s' t t' ∧ appended d d' file bs ∧
    saved_shards ctx (λ i, shardidx <= i < shardidx + Z.of_nat todo) t' s' bs.
Proof.
  induction todo as [|todo IH]; intros shardidx s d t file Hs Hc Ec Hi Hn Hio Hf Ho.
  { exists s, d, t, []. split; [reflexivity|]. split; [apply advanced_refl|]. split; [now apply appended_nil|].
    apply saved_none; [exact Hs|exact Hc|exact Ec|]. intros i. lia. }
  destruct (save_shard shardidx s d t file Hs Hc) as (s1 & d1 & t1 & bs1 & E1 & Ht1 & Ha1 & Hs1);
    [rewrite Ec; lia|exact Hio|exact Hf|exact Ho|]. rewrite Ec in Hs1.
  pose proof Hs1 as [S1 S2 S3 _ _]. pose proof Ha1 as [A1 A2 A3].
  destruct (IH (shardidx + 1) s1 d1 t1 (file ++ file_of bs1) S1 S2 S3) as (s2 & d2 & t2 & bs2 & E2 & Ht2 & Ha2 & Hs2);
    [lia|lia|exact A1|exact (appended_next _ _ _ _ Ha1)|exact A3|].
  exists s2, d2, t2, (bs1 ++ bs2). rewrite E1. split; [exact E2|]. split; [exact (advanced_trans _ _ _ _ _ _ Ht1 Ht2)|].
  split; [exact (appended_app _ _ _ _ _ _ Ha1 Ha2)|]. eapply saved_join; [|exact (proj1 Ht2)|exact Hs1|exact Hs2]. intros i. cbn. lia.
Qed.

Lemma thsaves_kv ctx ranges : ∀ start stop s d t file,
  consecutive start stop ranges → 0 <= start → stop <= nshards ctx →
  serves K B (n_server s) t m → clocks delta s → c_ctx (s_cache (n_server s)) = ctx →
  io_works d → d_files d !! work = Some file → d_off d = size file →
  ∃ s' d' t' bs, thsaves work ranges s d = Some (true, s', d') ∧ advanced s s' t t' ∧ appended d d' file bs ∧
    saved_shards ctx (λ i, start <= i < stop) t' s' bs.
Proof.
  induction ranges as [|[r1 r2] ranges IH]; intros start stop s d t file Hcon Hst Hn Hs Hc Ec Hio Hf Ho; inversion Hcon; subst.
  { exists s, d, t, []. split; [reflexivity|]. split; [apply advanced_refl|]. split; [now apply appended_nil|].
    apply saved_none; [exact Hs|exact Hc|reflexivity|]. intros i. lia. }
  match goal with H1 : 0 <= r2, H2 : consecutive _ _ ranges |- _ => rename H1 into Hr2, H2 into Hrest end.
  assert (Hle : r1 + r2 <= stop) by (clear -Hrest; induction Hrest; lia).
  destruct (thsave_kv (c_ctx (s_cache (n_server s))) (Z.to_nat r2) r1 s d t file Hs Hc eq_refl Hst)
    as (s1 & d1 & t1 & bs1 & E1 & Ht1 & Ha1 & Hs1); [rewrite Z2Nat.id; lia|exact Hio|exact Hf|exact Ho|].
  pose proof Hs1 as [S1 S2 S3 _ _]. pose proof Ha1 as [A1 A2 A3].
  destruct (IH (r1 + r2) stop s1 d1 t1 (file ++ file_of bs1) Hrest) as (s2 & d2 & t2 & bs2 & E2 & Ht2 & Ha2 & Hs2);
    [lia|exact Hn|exact S1|exact S2|exact S3|exact A1|exact (appended_next _ _ _ _ Ha1)|exact A3|].
  exists s2, d2, t2, (bs1 ++ bs2). cbn [thsaves]. rewrite E1. mstep. rewrite E2. split; [reflexivity|]. split; [exact (advanced_trans _ _ _ _ _ _ Ht1 Ht2)|].
  split; [exact (appended_app _ _ _ _ _ _ Ha1 Ha2)|]. eapply saved_join; [|exact (proj1 Ht2)|exact Hs1|exact Hs2].
  intros i. cbn. rewrite Z2Nat.id by exact Hr2. lia.
Qed.
End Save.

Section SaveFile.
Context `{Env} `{!EnvOk _} {lz4 : Lz4} {lz4_ok : Lz4Ok lz4} (K : gset bytes) (B : nat).

(** [save] succeeds: the file under [path] holds the blocks of the store and the
    work file is gone; no other file changes. *)
Lemma save_works nprocs seed path fast s d t m delta :
  serves K B (n_server s) t m → clocks delta s → 0 < nprocs → io_works d →
  d_files d !! work_path path seed = None →
  Z.of_nat (snapshot_size m) <= LZ4_MAX_INPUT_SIZE →
  ∃ s' d' t' bs, save nprocs seed path fast s d = Some (true, s', d') ∧ advanced s s' t t' ∧
    d_files d' = <[path := file_of bs]> (d_files d) ∧
    saved_shards K B delta m (c_ctx (s_cache (n_server s))) (λ _, True) t' s' bs.
Proof.
  intros Hs Hc Hp Hio Hwork Hsmall. set (work := work_path path seed) in *. set (ctx := c_ctx (s_cache (n_server s))).
  pose proof Hs as [[Ms Hr] _ _ _ _]. pose proof (co_nshards _ _ _ (kr_ok _ _ _ _ _ _ _ Hr)) as Hn. fold ctx in Hn.
  unfold save. cbn [io]. pose proof (Hio 0%nat) as H0. rewrite (proj2 (Z.ltb_ge _ _)) by lia. fold work ctx.
  cbn [d_files d_io]. rewrite Hwork. cbn [default from_option id].
  set (np := if fast then if nshards ctx <? nprocs then nshards ctx else nprocs else 1).
  assert (Hnp : 0 < np <= nshards ctx) by (unfold np; destruct fast; [destruct (nshards ctx <? nprocs) eqn:E; zb|]; lia).
  assert (Hcon : consecutive 0 (nshards ctx) (flush_ranges (Z.to_nat np) (nshards ctx) np 0)).
  { destruct (Z.to_nat np) as [|n] eqn:En; [lia|]. apply flush_ranges_consecutive; lia. }
  set (d1 := Disk (<[work := []]> (d_files d)) 0 (λ i, d_io d (S i))).
  destruct (thsaves_kv K B delta m work Hsmall ctx _ 0 (nshards ctx) s d1 t [] Hcon (Z.le_refl 0) (Z.le_refl _) Hs Hc eq_refl)
    as (s' & d' & t' & bs & E & Ht & [A1 A2 A3] & Hsaved).
  { intros i. apply Hio. }
  { apply lookup_insert_eq. }
  { reflexivity. }
  rewrite E. mstep. cbn [io]. pose proof (A1 0%nat) as H1. rewrite (proj2 (Z.ltb_ge _ _)) by lia. cbn [d_files].
  eexists s', _, t', bs. split; [reflexivity|]. split; [exact Ht|]. split.
  - cbn [d_files app]. rewrite A2. cbn [d1 d_files app]. rewrite lookup_insert_eq. cbn [default from_option id].
    rewrite insert_insert_eq, delete_insert_id by exact Hwork. reflexivity.
  - destruct Hsaved as [S1 S2 S3 S4 S5]. split; [exact S1|exact S2|exact S3|exact S4|].
    intros key _. apply S5. exact (home_bound ctx key (proj1 Hn)).
Qed.
End SaveFile.
