(* ===== verification/KvLoad.v ===== *)
(** * KvLoad: a snapshot restores the store

    What loading the blocks of [KvSave.v] does to the store, and the round trip
    through the file, for every schedule of the threads of [load]. *)

From stdpp Require Import relations.
From S2P Require Import Prelude Util Context Entry Heap Map MapInv MapSpec Shard ShardInv ShardSpec ShardOps ShardStore Scan.
From S2P Require Import Samples ShardTheorems Cache Locks CacheInv CacheOps CacheTheorems CacheScan.
From S2P Require Import Resp RespProofs Memcache Http Parse Conn ConnProofs Cmds CmdTable CmdFrame Server.
From S2P Require Import Kv KvRel KvCmds KvBatch KvServer KvFlush KvKeys Snapshot SnapshotProofs LoadQueue KvSave.

#[local] Opaque th64 hash24 encode entry_memsize.

(** The store on a clock that is [shift] ahead. *)
Definition move_item (shift : Z) (x : item) : option item :=
  if i_expires x =? 0 then Some x
  else
    let expires := i_expires x + shift in
    if 0 <? expires then Some (Item (i_val x) (i_flags x) expires) else None.
Definition moved (shift : Z) (m : kv) : kv := omap (move_item shift) m.

(** Loading a block, when nothing undefined has happened before. *)
Definition load_process `{Env} {lz4 : Lz4} (b : cblock) (s : option (load_counts * snap))
    : bool * option (load_counts * snap) :=
  match s with
  | None => (false, None)
  | Some (n, s) =>
      match load_block b n s with
      | Some (ok, n, s) => (ok, Some (n, s))
      | None => (false, None)
      end
  end.

Definition cblock_of `{Lz4} (b : vblock) : cblock :=
  CBlock (compressed (block_data b.1 b.2)) (size (block_data b.1 b.2)).

Lemma serves_later `{Env} (K : gset bytes) (B : nat) (s : server) (t : Z) (m : kv) :
  serves K B s t m →
  serves K B (Serve (s_cache s) (s_world s) (s_flush_delay s) (s_lowmem s) (λ i, s_clock s (S i))) (s_clock s 0%nat) m.
Proof.
  intros [[Ms Hr] Hu Hl Hb Hc]. split; [|exact Hu|exact Hl|exact Hb|exact (clock_tick _ _ Hc)].
  exists Ms. apply (kv_rel_later _ _ _ _ _ t); [exact (proj1 (Hc 0%nat))|exact Hr].
Qed.

Section Load.
Context `{Env} `{!EnvOk _} {lz4 : Lz4} {lz4_ok : Lz4Ok lz4} (K : gset bytes) (B : nat) (HB : memory_for B).
Context (delta delta' : Z) (m : kv) (HK : ∀ key, is_Some (m !! key) → key ∈ K) (Hdelta : 0 <= delta').
Context (Hfar : ∀ key x, m !! key = Some x → i_expires x + delta < 2 ^ 63).

Let mm : kv := moved (delta - delta') m.

Lemma store_saved_kv (e : saved) (v : server) (t ttl : Z) (m0 : kv) :
  serves K B v t m0 → good_time t → sv_key e ∈ K → key_ok (sv_key e) → Z.of_nat (length (sv_val e)) < 2 ^ 64 →
  is_i64 ttl → 0 <= ttl → is_u32 (sv_flags e) →
  ∃ v', store_saved t ttl e v = Some v' ∧ s_clock v' = s_clock v ∧
    serves K B v' t (kv_put m0 (sv_key e) (sv_val e) (sv_flags e) (if 0 <? ttl then Z.min (t + ttl) INT64_MAX else 0)).
Proof.
  intros Hs Ht Hk Hko Hv Hi Ht0 Hf. pose proof Hs as [[Ms Hr] _ _ _ _]. unfold store_saved. set (opts := StoreOpts _ _ _ _ _ _ _ _ _ _ _).
  pose proof (store_kv K B (s_cache v) (s_world v) Ms t m0 (sv_key e) Root (s_clock v 0%nat) tt Hr
    (unlocked_available_key _ _ _ _ _ _ _ Hs) Hk Ht (sv_val e) opts eq_refl eq_refl eq_refl) as HR.
  destruct (kv_result_root K B v t m0 (sv_key e) _ _ Hs (HR ltac:(split; [unfold is_i64; cbn; lia|split; [exact Hi|exact Hf]]) Hko Hv))
    as (st & k' & w' & u' & m' & -> & Hs' & mem & Hmem & HQ).
  mstep. rewrite (Hmem HB) in HQ. cbn [negb] in HQ.
  assert (Hst : (st = POGOCACHE_INSERTED ∨ st = POGOCACHE_REPLACED) ∧
    m' = kv_put m0 (sv_key e) (sv_val e) (sv_flags e) (if 0 <? ttl then Z.min (t + ttl) INT64_MAX else 0)).
  { destruct (kv_get t m0 (sv_key e)) as [x|]; cbn in HQ.
    - destruct HQ as (_ & _ & _ & -> & ->). split; [now right|reflexivity].
    - destruct HQ as (-> & _ & ->). split; [now left|reflexivity]. }
  destruct Hst as [Hst ->]. exists (set_cache v k' w'). split; [|split; [reflexivity|exact Hs']].
  destruct Hst as [-> | ->]; reflexivity.
Qed.

(** The keys [done] have been restored. *)
Definition restored (t : Z) (m0 : kv) (done : list bytes) : Prop :=
  ∀ now key, t <= now → kv_get now m0 key = if bool_decide (key ∈ done) then kv_get now mm key else None.

Lemma restored_later (t t' : Z) (m0 : kv) (done : list bytes) : t <= t' → restored t m0 done → restored t' m0 done.
Proof. intros Ht Hr now key Hn. apply Hr. lia. Qed.

(** No item expires at a time the clock shows, to the nanosecond. *)
Definition no_tie (clock : nat → Z) : Prop :=
  ∀ key x i, m !! key = Some x → 0 < i_expires x → clock i ≠ i_expires x + (delta - delta').
Lemma restored_cons (t : Z) (m0 m1 : kv) (key : bytes) (done : list bytes) :
  restored t m0 done → (∀ k, k ≠ key → m1 !! k = m0 !! k) →
  (∀ now, t <= now → kv_get now m1 key = kv_get now mm key) → restored t m1 (key :: done).
Proof.
  intros Hr Hne Hkey now k Hn. destruct (decide (k = key)) as [->|Hk].
  - rewrite bool_decide_eq_true_2 by left. now apply Hkey.
  - unfold kv_get at 1. rewrite (Hne k Hk). fold (kv_get now m0 k). rewrite (Hr now k Hn).
    erewrite bool_decide_ext; [reflexivity|]. rewrite elem_of_cons. tauto.
Qed.

Lemma mm_lookup (key : bytes) (x : item) : m !! key = Some x → mm !! key = move_item (delta - delta') x.
Proof. intros E. unfold mm, moved. rewrite lookup_omap, E. reflexivity. Qed.

(** An entry that is skipped shows nothing; one that is stored shows as before. *)
Lemma restore_entry (u t : Z) (v : view) (m0 : kv) (done : list bytes) :
  good_time t → 0 <= u < 2 ^ 63 → 0 <= t + delta' < 2 ^ 63 → savable v → faithful_view (u - delta) m v →
  (∀ x, m !! v_key v = Some x → 0 < i_expires x → t ≠ i_expires x + (delta - delta')) →
  restored t m0 done →
  match new_ttl u (t + delta') (sv_ttl (saved_of v)) with
  | None => restored t m0 (v_key v :: done)
  | Some ttl => 0 <= ttl ∧ is_i64 ttl ∧
      restored t (kv_put m0 (v_key v) (v_val v) (v_flags v) (if 0 <? ttl then Z.min (t + ttl) INT64_MAX else 0))
        (v_key v :: done)
  end.
Proof.
  intros [Ht0 Hti] Hu Hun [_ _ He Htime Hlive _ _] (x & Hx & (Et & _ & Ev & Ef & Ee & _) & _) Htie Hr.
  apply kv_get_lookup in Hx as [Hx _]. specialize (Htie x Hx). pose proof (Hfar _ _ Hx) as Hfx.
  pose proof (mm_lookup _ _ Hx) as Hmm. unfold move_item in Hmm. rewrite <- Ee in *.
  assert (Hput : ∀ expires,
    mm !! v_key v = Some (Item (v_val v) (v_flags v) (Z.max 0 expires)) →
    restored t (kv_put m0 (v_key v) (v_val v) (v_flags v) expires) (v_key v :: done)).
  { intros expires E. apply (restored_cons t m0); [exact Hr| |].
    - intros k Hk. unfold kv_put. now rewrite lookup_insert_ne by congruence.
    - intros now Hn. unfold kv_get, kv_put. now rewrite lookup_insert_eq, E. }
  unfold saved_of, new_ttl. cbn [sv_ttl]. destruct (0 <? v_expires v) eqn:Epos; zb.
  2: { assert (v_expires v = 0) as E0 by lia. rewrite E0 in Hmm. cbn [Z.eqb] in Hmm. cbn [Z.ltb Z.compare].
       split; [lia|]. split; [unfold is_i64; lia|]. apply Hput. rewrite Hmm. destruct x. cbn in *. subst. rewrite E0. reflexivity. }
  specialize (Htie Epos). specialize (Hlive Epos). rewrite (proj2 (Z.eqb_neq _ _)) in Hmm by lia.
  rewrite (proj2 (Z.ltb_lt 0 (v_expires v - v_time v))) by lia.
  rewrite int64_add_clamp_eq by (unfold is_i64; lia). replace (u + (v_expires v - v_time v)) with (v_expires v + delta) by lia.
  unfold clamp64. rewrite Z.min_r, Z.max_r by (unfold INT64_MAX, INT64_MIN; lia).
  destruct (v_expires v + delta <? t + delta') eqn:Ecmp; zb.
  - apply (restored_cons t m0); [exact Hr|reflexivity|]. intros now Hn.
    rewrite (Hr now (v_key v) Hn). unfold kv_get. rewrite Hmm.
    destruct (0 <? v_expires v + (delta - delta')) eqn:Ep; zb; cbn; [|now destruct (bool_decide _)].
    unfold live. cbn [i_expires]. rewrite (proj2 (Z.ltb_lt _ _)), (proj2 (Z.leb_le _ now)) by lia. cbn.
    now destruct (bool_decide _).
  - split; [lia|]. split; [unfold is_i64; lia|]. rewrite (proj2 (Z.ltb_lt 0 _)) by lia.
    rewrite (proj2 (Z.ltb_lt _ _)) in Hmm by lia.
    replace (t + (v_expires v + delta - (t + delta'))) with (v_expires v + (delta - delta')) by lia.
    rewrite Z.min_l by (unfold INT64_MAX; lia).
    apply Hput. rewrite Z.max_r, Hmm, Ev, Ef by lia. reflexivity.
Qed.

Lemma store_entries_kv (u t : Z) (vs : list view) : ∀ (n : load_counts) (v : server) (m0 : kv) (done : list bytes),
  good_time t → 0 <= u < 2 ^ 63 → 0 <= t + delta' < 2 ^ 63 →
  Forall (λ x, savable x ∧ faithful_view (u - delta) m x) vs →
  (∀ key x, m !! key = Some x → 0 < i_expires x → t ≠ i_expires x + (delta - delta')) →
  serves K B v t m0 → restored t m0 done →
  ∃ n' v' m1, store_entries t (t + delta') u (saved_of <$> vs) n v = Some (n', v') ∧ s_clock v' = s_clock v ∧
    serves K B v' t m1 ∧ restored t m1 (reverse (v_key <$> vs) ++ done).
Proof.
  induction vs as [|x vs IH]; intros n v m0 done Ht Hu Hun Hvs Htie Hs Hr.
  { exists n, v, m0. split; [reflexivity|]. split; [reflexivity|]. split; [exact Hs|exact Hr]. }
  inversion Hvs as [|? ? [Hsx Hfx] Hvs']; subst.
  pose proof (restore_entry u t x m0 done Ht Hu Hun Hsx Hfx (Htie (v_key x)) Hr) as Hone.
  cbn [fmap list_fmap store_entries]. rewrite reverse_cons, <- app_assoc. cbn [app].
  destruct (new_ttl u (t + delta') (sv_ttl (saved_of x))) as [ttl|].
  2: { destruct (IH (Counts (lc_ninserted n) (lc_nexpired n + 1)) v m0 (v_key x :: done) Ht Hu Hun Hvs' Htie Hs Hone)
         as (n' & v' & m1 & E & R). exists n', v', m1. split; [exact E|exact R]. }
  destruct Hone as (H0 & Hi & Hone). pose proof Hfx as (y & Hy & _ & Hko & _). apply kv_get_lookup in Hy as [Hy _].
  destruct (store_saved_kv (saved_of x) v t ttl m0 Hs Ht) as (v1 & E1 & Ec1 & Hs1);
    [apply HK; exists y; exact Hy|exact Hko|exact (sb_val _ Hsx)|exact Hi|exact H0|exact (sb_flags _ Hsx)|].
  rewrite E1. mstep.
  destruct (IH (Counts (lc_ninserted n + 1) (lc_nexpired n)) v1 _ (v_key x :: done) Ht Hu Hun Hvs' Htie Hs1 Hone)
    as (n' & v' & m1 & E & Ec & R). exists n', v', m1. split; [exact E|]. split; [congruence|exact R].
Qed.

(** One block. *)
Lemma load_block_kv (tw : Z) (b : vblock) (n : load_counts) (s : snap) (t : Z) (m0 : kv) (done : list bytes) :
  written delta m tw b → serves K B (n_server s) t m0 → clocks delta' s → no_tie (s_clock (n_server s)) → restored t m0 done →
  ∃ n' s' t' m1, load_block (cblock_of b) n s = Some (true, n', s') ∧ t <= t' ∧ serves K B (n_server s') t' m1 ∧
    clocks delta' s' ∧ no_tie (s_clock (n_server s')) ∧ restored t' m1 (reverse (v_key <$> b.2) ++ done).
Proof.
  intros [W1 W2 W3 W4] Hs Hc Hn Hr. destruct b as [u vs]. cbn [fst snd] in *.
  set (v := n_server s). set (now := s_clock v 0%nat). pose proof (sv_clock _ _ _ _ _ Hs 0%nat) as (Ht & Hgt & _). fold v now in Ht, Hgt.
  destruct (Hc 0%nat) as [Hu0 Hur]. fold v now in Hu0.
  assert (Hsv : Forall savable vs) by (eapply Forall_impl; [exact W3|]; intros x Hx; exact (proj1 Hx)).
  unfold cblock_of. cbn [fst snd]. rewrite (load_block_written u vs n s W4 Hsv W1). cbn [sys_now_unix]. fold v now. rewrite Hu0 in *.
  destruct (store_entries_kv u now vs n (Serve (s_cache v) (s_world v) (s_flush_delay v) (s_lowmem v) (λ i, s_clock v (S i))) m0 done
    Hgt W1 Hur W3) as (n' & v' & m1 & E & Ec & Hs' & Hr').
  - intros key x Hx He. exact (Hn key x 0%nat Hx He).
  - exact (serves_later K B v t m0 Hs).
  - exact (restored_later _ _ _ _ Ht Hr).
  - cbn [n_server]. rewrite E. mstep. eexists n', _, now, m1. split; [reflexivity|]. split; [exact Ht|]. split; [exact Hs'|].
    cbn [n_server]. rewrite Ec. split; [|split; [|exact Hr']].
    + intros i. cbn [n_server n_unix]. rewrite Ec. exact (Hc (S i)).
    + intros key x i. exact (Hn key x (S i)).
Qed.

(** Any blocks, one after the other. *)
Lemma load_blocks_kv (tw : Z) (bs : list vblock) : ∀ (n : load_counts) (s : snap) (t : Z) (m0 : kv) (done : list bytes),
  Forall (written delta m tw) bs → serves K B (n_server s) t m0 → clocks delta' s → no_tie (s_clock (n_server s)) →
  restored t m0 done →
  ∃ oks n' s' t' m1 done', process_all load_process (cblock_of <$> bs) (Some (n, s)) = (oks, Some (n', s')) ∧
    Forall (λ b, b = true) oks ∧ t <= t' ∧ serves K B (n_server s') t' m1 ∧ restored t' m1 done' ∧
    ∀ key, key ∈ done' ↔ key ∈ keys_of bs ∨ key ∈ done.
Proof.
  induction bs as [|b bs IH]; intros n s t m0 done Hw Hs Hc Hn Hr.
  { exists [], n, s, t, m0, done. split; [reflexivity|]. split; [constructor|]. split; [lia|]. split; [exact Hs|]. split; [exact Hr|].
    intros key. unfold keys_of. cbn. rewrite elem_of_nil. tauto. }
  inversion Hw as [|? ? Hw1 Hw2]; subst.
  destruct (load_block_kv tw b n s t m0 done Hw1 Hs Hc Hn Hr) as (n1 & s1 & t1 & m1 & E1 & Ht1 & Hs1 & Hc1 & Hn1 & Hr1).
  destruct (IH n1 s1 t1 m1 _ Hw2 Hs1 Hc1 Hn1 Hr1) as (oks & n2 & s2 & t2 & m2 & done2 & E2 & Hok & Ht2 & Hs2 & Hr2 & Hd2).
  exists (true :: oks), n2, s2, t2, m2, done2. cbn [fmap list_fmap process_all load_process]. rewrite E1, E2.
  split; [reflexivity|]. split; [now constructor|]. split; [lia|]. split; [exact Hs2|]. split; [exact Hr2|].
  intros key. rewrite Hd2. unfold keys_of. cbn [fmap list_fmap concat]. rewrite !elem_of_app, elem_of_reverse. tauto.
Qed.
End Load.

(** ** The file *)

Section File.
Context `{Env} {lz4 : Lz4} {lz4_ok : Lz4Ok lz4}.

(** What is read of a snapshot: all of it, or, when a read is cut short, the blocks
    before that. *)
Lemma reads_file (delta : Z) (m : kv) (t : Z) (bs : list vblock) : ∀ f,
  Forall (written delta m t) bs → reads_some f → rf_rest f = file_of bs →
  ∃ bs1 good, reads f (cblock_of <$> bs1) good ∧ bs1 `prefix_of` bs ∧ (good = true → bs1 = bs) ∧ (reads_ok f → good = true).
Proof.
  induction bs as [|b bs IH]; intros f Hw Hf Hr; cbn [fmap list_fmap].
  - unfold file_of in Hr. cbn in Hr. pose proof (Hf 0%nat) as H0. destruct (rf_io f 0%nat <? 0) eqn:E; zb.
    + exists [], false. split; [|split; [reflexivity|split; [discriminate|intros Hok; specialize (Hok 0%nat); lia]]].
      eapply reads_bad. unfold read_block, read. now rewrite (proj2 (Z.ltb_lt _ _)) by lia.
    + exists [], true. split; [|easy]. eapply reads_eof. unfold read_block, read.
      rewrite (proj2 (Z.ltb_ge _ _)) by lia. rewrite Hr, take_nil. reflexivity.
  - inversion Hw as [|? ? Hw1 Hw2]; subst. unfold file_of in Hr. cbn [fmap list_fmap concat] in Hr.
    destruct (read_block_written (block_data b.1 b.2) f (file_of bs) (wr_fits _ _ _ _ Hw1) Hf Hr) as (r & f' & E & [[-> Hno]|(-> & Hr' & Hlat)]).
    + exists [], false. split; [exact (reads_bad _ _ E)|]. split; [apply prefix_nil|]. split; [discriminate|easy].
    + destruct (IH f' Hw2 (later_some _ _ Hlat Hf) Hr') as (bs1 & good & H1 & H2 & H3 & H4). exists (b :: bs1), good.
      split; [exact (reads_block _ _ _ _ _ E H1)|]. split; [now apply prefix_cons|].
      split; [intros Hg; now rewrite H3|]. intros Hok. apply H4. exact (later_ok _ _ Hlat Hok).
Qed.

(** The blocks that were loaded are blocks that were written. *)
Lemma loaded_blocks (order : list cblock) (bs : list vblock) :
  order ⊆+ cblock_of <$> bs → ∃ bs1 bs2, order = cblock_of <$> bs1 ∧ bs ≡ₚ bs1 ++ bs2 ∧
    (order ≡ₚ cblock_of <$> bs → bs2 = []).
Proof.
  intros Hsub. apply submseteq_Permutation in Hsub as [k Hp]. symmetry in Hp.
  apply Permutation_map_inv in Hp as (bs' & E & Hp).
  symmetry in E. apply fmap_app_inv in E as (bs1 & bs2 & E1 & E2 & ->).
  exists bs1, bs2. split; [exact E1|]. split; [exact Hp|]. intros Ho. apply Permutation_length in Ho, Hp.
  rewrite E1, !length_fmap in Ho. rewrite length_app in Hp. destruct bs2; [reflexivity|cbn in Hp; lia].
Qed.

Lemma keys_of_permutation (bs1 bs2 : list vblock) : bs1 ≡ₚ bs2 → ∀ key, key ∈ keys_of bs1 ↔ key ∈ keys_of bs2.
Proof. intros Hp key. unfold keys_of. now rewrite Hp. Qed.
End File.

Section Roundtrip.
Context `{Env} `{!EnvOk _} {lz4 : Lz4} {lz4_ok : Lz4Ok lz4}.

End Roundtrip.

(** ** Limits *)

Section Limits.
Context `{Env} `{!EnvOk _} {lz4 : Lz4} {lz4_ok : Lz4Ok lz4}.

(** C39: An item that expires at the very moment its block is loaded never expires
    again: the rest of its time to live is zero, which means no expiry to
    [pogocache_store], and every client sees it from then on. *)
Theorem expiry_tie_is_permanent (K : gset bytes) (B : nat) (u : Z) (v : view) (n : load_counts) (s : snap) (t : Z) (m0 : kv) :
  memory_for B → serves K B (n_server s) t m0 → 0 <= u < 2 ^ 63 → savable v → key_ok (v_key v) → v_key v ∈ K →
  fits (block_data u [v]) → v_time v < v_expires v → n_unix s 0%nat = u + (v_expires v - v_time v) → n_unix s 0%nat < 2 ^ 63 →
  ∃ s' t' m1, load_block (cblock_of (u, [v])) n s = Some (true, Counts (lc_ninserted n + 1) (lc_nexpired n), s') ∧
    serves K B (n_server s') t' m1 ∧ ∀ now, kv_get now m1 (v_key v) = Some (Item (v_val v) (v_flags v) 0).
Proof.
  intros HB Hs Hu Hv Hk HK Hfit Hexp Htie Hun. pose proof Hv as [_ Hval He Htime _ Hfl _].
  unfold cblock_of. cbn [fst snd]. rewrite (load_block_written u [v] n s Hfit (Forall_cons_2 _ _ _ Hv (Forall_nil_2 _)) Hu).
  cbn [sys_now_unix fmap list_fmap store_entries]. unfold new_ttl.
  assert (sv_ttl (saved_of v) = v_expires v - v_time v) as ->.
  { unfold saved_of. cbn [sv_ttl]. now rewrite (proj2 (Z.ltb_lt 0 _)) by lia. }
  rewrite (proj2 (Z.ltb_lt 0 (v_expires v - v_time v))) by lia.
  rewrite int64_add_clamp_eq by (unfold is_i64; lia).
  unfold clamp64. rewrite Z.min_r, Z.max_r by (unfold INT64_MAX, INT64_MIN; lia).
  rewrite (proj2 (Z.ltb_ge _ _)) by lia. replace (u + (v_expires v - v_time v) - n_unix s 0%nat) with 0 by lia.
  pose proof (sv_clock _ _ _ _ _ Hs 0%nat) as (_ & Hgt & _).
  destruct (store_saved_kv K B HB (saved_of v) _ _ 0 m0 (serves_later K B _ t m0 Hs) Hgt HK Hk Hval) as (v' & E & _ & Hs');
    [unfold is_i64; lia|lia|exact Hfl|]. cbn [n_server]. rewrite E. mstep.
  eexists _, _, _. split; [reflexivity|]. split; [exact Hs'|]. intros now. unfold kv_get, kv_put. rewrite lookup_insert_eq. reflexivity.
Qed.

(** The data of a shard above the limit of the compressor is lost although [flush]
    writes a block and reports no error: the block is empty, its checksum is
    right, and [load_block] refuses it. *)
Theorem oversized_block_is_lost (data : bytes) (n : load_counts) (s : snap) :
  LZ4_MAX_INPUT_SIZE < size data < 2 ^ 32 →
  block_bytes data = str "POGO" ++ write_u32 (crc32 []) ++ write_u32 (size data) ++ write_u32 0 ∧
  load_block (CBlock [] (size data)) n s = Some (false, n, (sys_now_unix s).2).
Proof.
  unfold LZ4_MAX_INPUT_SIZE. intros Hd. split.
  - unfold block_bytes. cbv zeta. rewrite (u32_id (size data)) by (unfold is_u32; lia).
    rewrite lz4_too_large; [reflexivity|]. unfold i32. rewrite (u32_id (size data)) by (unfold is_u32; lia).
    destruct (size data <? 2 ^ 31) eqn:E; zb; unfold u32, LZ4_MAX_INPUT_SIZE.
    + rewrite Z.mod_small by lia. lia.
    + replace (size data - 2 ^ 32) with (size data + -1 * 2 ^ 32) by lia. rewrite Z.mod_add, Z.mod_small by lia. lia.
  - unfold load_block. cbn [sys_now_unix cb_cdata cb_dlen snd]. rewrite lz4_empty. reflexivity.
Qed.
End Limits.

(** ** A small snapshot *)

Definition disk3 : disk := Disk {[ str "/old" := [1; 2; 3] ]} 0 (λ _, 4096).

(** A server whose clock stands, [delta] behind the real time. *)
Definition snap_of (s : server) (delta : Z) : snap :=
  Snap (Serve (s_cache s) (s_world s) (s_flush_delay s) (s_lowmem s) (λ _, 5)) (λ _, 5 + delta).

Lemma snap_of_serves `{Env} (K : gset bytes) (B : nat) (s : server) (t delta : Z) (m : kv) :
  serves K B s t m → t <= 5 → serves K B (n_server (snap_of s delta)) t m.
Proof.
  intros [H1 H2 H3 H4 _] Ht. split; [exact H1|exact H2|exact H3|exact H4|].
  intros i. unfold good_time, is_i64. cbn. lia.
Qed.

Lemma snap_of_clocks (s : server) (delta : Z) : 0 <= delta < 2 ^ 62 → clocks delta (snap_of s delta).
Proof. intros Hd i. cbn. lia. Qed.

(** The last call, the renaming, fails. *)
Definition disk3_fails : disk := Disk {[ str "/old" := [1; 2; 3] ]} 0 (λ i, match i with O => 3 | _ => -1 end).

Lemma save_is_atomic_witness : ∃ s' d',
  save 2 7 (str "/old") true (snap_of server3 100) disk3_fails = Some (false, s', d') ∧
  d_files d' !! str "/old" = Some [1; 2; 3].
Proof.
  assert (Eok : (r ← save 2 7 (str "/old") true (snap_of server3 100) disk3_fails; Some r.1.1) = Some false) by (vm_compute; reflexivity).
  destruct (save 2 7 (str "/old") true (snap_of server3 100) disk3_fails) as [[[ok s'] d']|] eqn:E; [|discriminate Eok].
  cbn in Eok. injection Eok as ->.
  destruct (save_is_atomic 2 7 (str "/old") true (snap_of server3 100) disk3_fails false s' d' E) as [H1 _].
  exists s', d'. split; [reflexivity|]. rewrite (H1 (str "/old")); [reflexivity|vm_compute; discriminate|discriminate].
Defined.


(** An item with seven nanoseconds left, seven nanoseconds later. *)
Definition view_tie : view := View 0 3 [120] (str "41") 10 0 0.

Lemma expiry_tie_is_permanent_witness : ∃ s' t' m1,
  load_block (cblock_of (103, [view_tie])) (Counts 0 0) (snap_of server3 105) = Some (true, Counts 1 0, s') ∧
  serves keys3 900 (n_server s') t' m1 ∧ kv_get (2 ^ 40) m1 [120] = Some (Item (str "41") 0 0).
Proof.
  destruct (expiry_tie_is_permanent keys3 900 103 view_tie (Counts 0 0) (snap_of server3 105) 0 ∅) as (s' & t' & m1 & E & Hs & Hk).
  - exact memory900.
  - apply snap_of_serves; [exact server3_serves|lia].
  - lia.
  - split; cbn; unfold is_u32, is_u64; lia.
  - exact key_ok_x.
  - set_solver.
  - vm_compute. split; congruence.
  - cbn. lia.
  - reflexivity.
  - cbn. lia.
  - exists s', t', m1. split; [exact E|]. split; [exact Hs|exact (Hk (2 ^ 40))].
Defined.

Lemma oversized_block_is_lost_witness : ∃ data : bytes,
  LZ4_MAX_INPUT_SIZE < size data < 2 ^ 32 ∧
  load_block (CBlock [] (size data)) (Counts 0 0) (snap_of server3 0) = Some (false, Counts 0 0, (sys_now_unix (snap_of server3 0)).2).
Proof.
  assert (Hd : ∃ data : bytes, LZ4_MAX_INPUT_SIZE < size data < 2 ^ 32).
  { exists (repeat 0 (Z.to_nat (2 ^ 31))). unfold size, LZ4_MAX_INPUT_SIZE. rewrite repeat_length, Z2Nat.id by lia. lia. }
  destruct Hd as [data Hd]. exists data. split; [exact Hd|].
  exact (proj2 (oversized_block_is_lost data (Counts 0 0) (snap_of server3 0) Hd)).
Defined.
