(* ===== verification/PostgresText.v ===== *)
(** * PostgresText: the text of queries

    The loop over a query always ends and finds a first argument that is not
    joined to anything, and a query that is written down piece by piece is read
    back as its pieces. The escapes of a string never make it longer. *)

From S2P Require Import Prelude Util Resp RespProofs Memcache Http Parse Conn Postgres PostgresMap.

(** ** The loop ends *)

Lemma keyword_end_app p w r : keyword_end p = (w, r) → p = w ++ r.
Proof.
  revert w r. induction p as [|c p IH]; intros w r; cbn; [now intros [= <- <-]|].
  destruct (isspace c || _ || _ || _ || _); [now intros [= <- <-]|].
  destruct (keyword_end p) as [w' r']. intros [= <- <-]. cbn. now rewrite <- (IH w' r').
Qed.

Lemma simple_string_shorter fuel : ∀ p s esc s' esc' r,
  simple_string fuel p s esc = (s', esc', r) → (length r <= length p)%nat.
Proof.
  induction fuel as [|fuel IH]; intros p s esc s' esc' r; [intros [= _ _ <-]; lia|].
  destruct p as [|c p]; [intros [= _ _ <-]; cbn; lia|]. cbn [simple_string].
  destruct (c =? 39); [|intros H%IH; cbn; lia].
  assert (∀ q, (length q <= length p)%nat → simple_string fuel q (s ++ [39; 39]) true = (s', esc', r) →
    (length r <= length (c :: p))%nat) by (intros q Hq H%IH; cbn; lia).
  assert ((s, esc, c :: p) = (s', esc', r) → (length r <= length (c :: p))%nat) by (intros [= _ _ <-]; lia).
  destruct p as [|d p]; [assumption|]. repeat (case_match; try assumption). apply H. cbn; lia.
Qed.

Lemma escaped_string_shorter p : ∀ s esc s' esc' r,
  escaped_string p s esc = (s', esc', r) → (length r <= length p)%nat.
Proof.
  induction p as [|c p IH]; intros s esc s' esc' r; cbn; [intros [= _ _ <-]; cbn; lia|].
  repeat case_if; [intros H%IH|intros [= _ _ <-]|intros H%IH]; cbn; lia.
Qed.

Lemma skip_space_shorter p : (length (skip_space p) <= length p)%nat.
Proof. induction p as [|c p IH]; cbn; [lia|]. case_if; cbn; lia. Qed.

(** The first argument is not joined to one before it. *)
Definition joined (type : Z) : bool := (type =? 66) || (type =? 81).
Definition first_free (types : bytes) : Prop := match types with t :: _ => joined t = false | [] => True end.

(** What the loop keeps. *)
Record q_ok (q : query) : Prop := {
  qo_pmap : ∃ l, pmap_ok (q_pmap q) l ∧ Forall (λ x, x ≠ 0) l;
  qo_first : first_free (q_types q);
  qo_join : q_types q = [] → q_join q = false
}.

Lemma q_append_ok q arg kind esc rest :
  q_ok q → kind = 65 ∨ kind = 80 → q_ok (q_append q arg kind esc rest).
Proof.
  intros [H1 H2 H3] Hk. split; [exact H1| |].
  - unfold q_append; cbn [q_types]. destruct (q_types q) as [|t ts]; [|exact H2].
    rewrite H3 by reflexivity. destruct Hk as [-> | ->]; reflexivity.
  - unfold q_append; cbn [q_types]. intros E. now apply app_nil in E as [_ E].
Qed.

Definition q_result (r : bytes + query * bytes) : Prop := match r with inl _ => True | inr (q, _) => q_ok q end.

Lemma query_loop_total fuel : ∀ p q, (length p <= fuel)%nat → q_ok q →
  ∃ r, query_loop fuel p q = Some r ∧ q_result r.
Proof.
  induction fuel as [|fuel IH]; intros [|c p] q Hl Hq; try (cbn in Hl; lia); try (eexists; split; [reflexivity|exact Hq]).
  cbn [length] in Hl. set (other := (if isspace c then query_loop fuel p q else
    let '(w, r) := keyword_end (c :: p) in query_loop fuel (skip_space r) (q_append q w 65 (q_esc q) r))).
  assert (Hother : (c =? 59) = false → (c =? 34) = false → (c =? 39) = false → (c =? 36) = false →
    ∃ r, other = Some r ∧ q_result r).
  { intros E1 E2 E3 E4. unfold other. destruct (isspace c) eqn:Es; [apply IH; [lia|exact Hq]|].
    cbn [keyword_end]. rewrite Es, E1, E2, E3, E4. cbn [orb]. destruct (keyword_end p) as [w r] eqn:Ek.
    apply keyword_end_app in Ek. subst p. rewrite length_app in Hl. pose proof (skip_space_shorter r).
    apply IH; [lia|]. apply q_append_ok; auto. }
  cbn [query_loop]. fold other. destruct (c =? 59) eqn:E1; [eexists; split; [reflexivity|exact Hq]|].
  destruct (c =? 34) eqn:E2; [now eexists|]. destruct (c =? 39) eqn:E3.
  { destruct (simple_string _ p [] false) as [[s esc] [|x r]] eqn:E; [now eexists|].
    apply simple_string_shorter in E. cbn [length] in E. apply IH; [lia|]. apply q_append_ok; auto. }
  destruct (c =? 36) eqn:E4.
  { destruct p as [|d p]; [now eexists|]. destruct (isdigit d); [|now eexists].
    destruct (strtoll (d :: p)) as [[param ?] n]. destruct (param =? 0) eqn:E0; [now eexists|]. zb.
    destruct (65535 <? param); [now eexists|]. cbn [orb]. destruct Hq as [(l & Hm & Hz) Hf Hj].
    destruct (pmap_insert_ok (q_pmap q) l param Hm E0) as (m & -> & Hm'). mstep. apply IH.
    - rewrite length_drop. lia.
    - destruct (q_append_ok q (c :: take n (d :: p)) 80 (q_esc q) (drop n (d :: p)) (Build_q_ok q (ex_intro _ l (conj Hm Hz)) Hf Hj)
        (or_intror eq_refl)) as [_ Hf' Hj'].
      split; [exists (param :: l); split; [exact Hm'|now constructor]|exact Hf'|exact Hj']. }
  destruct (_ || _); [|now apply Hother]. destruct p as [|d p]; [now apply Hother|].
  assert (Hesc : ∃ r, (let '(s, esc, r) := escaped_string p [] (q_esc q) in
    match r with [] => Some (inl err_quoted)
    | _ :: r => query_loop fuel r (q_append q (if esc then unescape_str s else s) 65 esc r) end) = Some r ∧ q_result r).
  { destruct (escaped_string p [] (q_esc q)) as [[s esc] [|x r]] eqn:E; [now eexists|].
    apply escaped_string_shorter in E. cbn [length] in E, Hl. apply IH; [lia|]. apply q_append_ok; auto. }
  repeat (case_match; try (exact Hesc || now apply Hother)).
Qed.

Lemma check_params_total n : ∀ i m l, pmap_ok m l → 0 <= i → ∃ e, check_params n i m = Some e.
Proof.
  induction n as [|n IH]; intros i m l Hm Hi; cbn [check_params]; [now eexists|].
  rewrite (pmap_exists_ok m l (i + 1) Hm) by lia. mstep. destruct (bool_decide _); [apply (IH _ m l Hm); lia|now eexists].
Qed.

(** The text of a query is read to its end. *)
Lemma parse_query_args_total text :
  ∃ r, parse_query_args text = Some r ∧
    match r with inr (_, types, nparams) => first_free types ∧ 0 <= nparams | inl _ => True end.
Proof.
  unfold parse_query_args. destruct (query_loop_total (length (skip_space text)) (skip_space text)
    (Query [] [] false false pmap_init)) as (r & -> & Hr); [lia| |].
  { split; [exists []; split; [exact pmap_init_ok|constructor]|exact I|reflexivity]. }
  mstep. destruct r as [err|[q rest]]; [now eexists|]. destruct (negb _); [now eexists|].
  destruct Hr as [(l & Hm & _) Hf _].
  destruct (check_params_total (Z.to_nat (pm_count (q_pmap q))) 0 (q_pmap q) l Hm) as [[err|] ->]; [lia| |]; mstep; eexists; (split; [reflexivity|]).
  - exact I.
  - split; [destruct (q_types q); [exact eq_refl|exact Hf]|]. rewrite (po_count _ _ Hm). lia.
Qed.

(** ** Strings with escapes *)

Lemma encode_codepoint_length cp : (length (encode_codepoint cp) <= 4)%nat.
Proof. unfold encode_codepoint. repeat case_if; cbn; lia. Qed.

Lemma for_each_utf8_length fuel : ∀ p, (length (for_each_utf8 fuel p) <= length p)%nat.
Proof.
  induction fuel as [|fuel IH]; intros [|c p]; cbn [for_each_utf8 length]; try lia.
  destruct (negb (c =? 92)); [pose proof (IH p); cbn; lia|]. destruct p as [|d p]; [cbn; lia|].
  destruct (d =? 117) eqn:Eu; [|pose proof (IH p); destruct (escape_char d); cbn; lia].
  destruct (size p <? 4) eqn:E4; [cbn; lia|]. zb.
  destruct (is_surrogate _ && _ && _ && _).
  - rewrite length_app. pose proof (encode_codepoint_length (decode_codepoint (decode_hex p) (decode_hex (drop 2 (drop 4 p))))).
    pose proof (IH (drop 6 (drop 4 p))) as Hr. rewrite !length_drop in Hr. unfold size in E4. cbn [length]. lia.
  - rewrite length_app. pose proof (encode_codepoint_length (decode_hex p)).
    pose proof (IH (drop 4 p)) as Hr. rewrite !length_drop in Hr. unfold size in E4. cbn [length]. lia.
Qed.

(** Bounds of the escapes: a string that is unescaped is never longer than
    the text it is read from, so that the buffer of the text's length plus one
    holds every byte that is written, whatever the escapes are. *)
Theorem unescape_str_fits str : size (unescape_str str) < size str + 1.
Proof. pose proof (for_each_utf8_length (length str) str). unfold unescape_str, size. lia. Qed.

(** The escape of a byte in a string. A quote has to be written as its code: the
    backslash before a quote is dropped together with the quote. *)
Definition escape_byte (b : Z) : bytes :=
  if b =? 39 then str "\u0027" else if b =? 92 then str "\\" else if b =? 0 then str "\u0000" else [b].
Definition escape_str (s : bytes) : bytes := concat (escape_byte <$> s).

Lemma escape_str_cons b s : escape_str (b :: s) = escape_byte b ++ escape_str s.
Proof. reflexivity. Qed.

Lemma unescape_escape s : ∀ fuel, (length (escape_str s) <= fuel)%nat → for_each_utf8 fuel (escape_str s) = s.
Proof.
  induction s as [|b s IH]; intros fuel; [now destruct fuel|]. rewrite escape_str_cons, length_app. unfold escape_byte.
  assert (Hesc : ∀ d1 d2 : Z, (length (str "\u00") + 2 + length (escape_str s) <= fuel)%nat →
    decode_hex (48 :: 48 :: d1 :: d2 :: escape_str s) = b → encode_codepoint b = [b] → is_surrogate b = false →
    for_each_utf8 fuel (92 :: 117 :: 48 :: 48 :: d1 :: d2 :: escape_str s) = b :: s).
  { intros d1 d2 Hl Hd He Hs. destruct fuel as [|fuel]; [cbn in Hl; lia|]. change (length (str "\u00")) with 4%nat in Hl.
    cbn [for_each_utf8]. change (92 =? 92) with true. change (117 =? 117) with true. cbn [negb].
    rewrite (proj2 (Z.ltb_ge (size (48 :: 48 :: d1 :: d2 :: escape_str s)) 4)) by (unfold size; cbn [length]; lia).
    rewrite Hd, Hs. cbn [andb drop skipn]. rewrite He. cbn [app]. f_equal. apply IH. lia. }
  destruct (b =? 39) eqn:E1; [|destruct (b =? 92) eqn:E2; [|destruct (b =? 0) eqn:E3]]; zb; subst; intros Hl.
  - apply (Hesc 50 55); try reflexivity. exact Hl.
  - destruct fuel as [|fuel]; [cbn in Hl; lia|]. change (str "\\") with [92; 92] in *. cbn [app for_each_utf8].
    change (92 =? 92) with true. change (92 =? 117) with false. cbn [negb]. change (escape_char 92) with (Some 92). cbv iota.
    cbn [length] in Hl. f_equal. apply IH. lia.
  - apply (Hesc 48 48); try reflexivity. exact Hl.
  - destruct fuel as [|fuel]; [cbn in Hl; lia|]. cbn [app for_each_utf8]. rewrite (proj2 (Z.eqb_neq b 92)) by exact E2. cbn [negb].
    cbn [length] in Hl. f_equal. apply IH. lia.
Qed.

(** Whether the text of a string contains a backslash. *)
Definition has_escape (s : bytes) : bool := existsb (λ b, (b =? 39) || (b =? 92) || (b =? 0)) s.

Lemma no_escape s : has_escape s = false → escape_str s = s.
Proof.
  induction s as [|b s IH]; [reflexivity|]. cbn [has_escape existsb]. intros [H Hs]%orb_false_iff.
  rewrite !orb_false_iff in H. destruct H as [[H1 H2] H3]. rewrite escape_str_cons, IH by exact Hs.
  unfold escape_byte. now rewrite H1, H2, H3.
Qed.

Lemma even_backslashes b l : Nat.even (backslashes l) = true → Nat.even (backslashes (rev (escape_byte b) ++ l)) = true.
Proof.
  intros H. unfold escape_byte. destruct (b =? 39); [reflexivity|]. destruct (b =? 92) eqn:E; [exact H|].
  destruct (b =? 0); [reflexivity|]. cbn. now rewrite E.
Qed.

(** The loop over an escaped string finds its end. *)
Lemma escaped_string_escape s : ∀ r acc esc, Nat.even (backslashes acc) = true →
  escaped_string (escape_str s ++ 39 :: r) acc esc = (rev acc ++ escape_str s, esc || has_escape s, 39 :: r).
Proof.
  induction s as [|b s IH]; intros r acc esc He.
  - cbn [escape_str app concat fmap list_fmap escaped_string]. change (39 =? 92) with false. change (39 =? 39) with true.
    rewrite He. cbn [andb has_escape existsb]. now rewrite app_nil_r, orb_false_r.
  - rewrite escape_str_cons, <- app_assoc. pose proof (even_backslashes b acc He) as He'.
    assert (E : escaped_string (escape_byte b ++ escape_str s ++ 39 :: r) acc esc =
      escaped_string (escape_str s ++ 39 :: r) (rev (escape_byte b) ++ acc) (esc || ((b =? 39) || (b =? 92) || (b =? 0)))).
    { unfold escape_byte. destruct (b =? 39) eqn:E1; [cbn [orb]; now rewrite orb_true_r|].
      destruct (b =? 92) eqn:E2; [cbn [orb]; now rewrite orb_true_r|].
      destruct (b =? 0) eqn:E3; [cbn [orb]; now rewrite orb_true_r|]. cbn [orb rev app]. rewrite orb_false_r. cbn [escaped_string].
      now rewrite E1, E2. }
    rewrite E, IH by exact He'. rewrite rev_app_distr, rev_involutive, <- app_assoc.
    cbn [has_escape existsb]. fold (has_escape s). now destruct esc.
Qed.

(** ** The pieces of a query *)

(** A word, a quoted string, a string with escapes, and a parameter. *)
Inductive piece := Word (w : bytes) | Quoted (s : bytes) | Escaped (s : bytes) | Param (x : Z).

Definition print_piece (t : piece) : bytes :=
  match t with
  | Word w => w
  | Quoted s => 39 :: s ++ [39]
  | Escaped s => 69 :: 39 :: escape_str s ++ [39]
  | Param x => 36 :: u64toa x
  end.

(** The argument that stands for a piece, and its type. *)
Definition piece_arg (t : piece) : bytes :=
  match t with Word w => w | Quoted s => s | Escaped s => s | Param x => 36 :: u64toa x end.
Definition piece_kind (t : piece) : Z := match t with Param _ => 80 | _ => 65 end.

(** A piece touches the one before it, or a space comes between them. A query may
    end with semicolons. *)
Fixpoint print_pieces (l : list (bool * piece)) (semicolons : nat) : bytes :=
  match l with
  | [] => repeat 59 semicolons
  | (join, t) :: l => (if join : bool then [] else [32]) ++ print_piece t ++ print_pieces l semicolons
  end.

Definition ends_word (c : Z) : bool := isspace c || (c =? 59) || (c =? 39) || (c =? 34) || (c =? 36).

Definition piece_ok (t : piece) : bool :=
  match t with
  | Word w => negb (bool_decide (w = [])) && forallb (λ c, negb (ends_word c)) w
  | Quoted s => forallb (λ c, negb (c =? 39)) s
  | Escaped s => true
  | Param x => (1 <=? x) && (x <=? 65535)
  end.

(** Whether the second piece is still read as a piece when it touches the first. *)
Definition may_join (t t' : piece) : bool :=
  match t, t' with
  | Word w, Quoted _ => negb (bool_decide (w = [69]) || bool_decide (w = [101]))
  | Word _, Param _ => true
  | Word _, _ => false
  | Quoted _, Quoted _ => false
  | Param _, Word w => negb (isdigit (nth 0 w 0))
  | _, _ => true
  end.

Fixpoint pieces_ok (l : list (bool * piece)) : bool :=
  match l with
  | [] => true
  | (_, t) :: l =>
      piece_ok t && match l with (true, t') :: _ => may_join t t' | _ => true end && pieces_ok l
  end.

Definition query_ok (l : list (bool * piece)) : bool :=
  match l with (true, _) :: _ => false | _ => pieces_ok l end.

(** What has to follow a piece for it to end there. *)
Definition ends (t : piece) (r : bytes) : Prop :=
  match t with
  | Word w => match r with [] => True | c :: _ => ends_word c = true ∧ (c = 39 → w ≠ [69] ∧ w ≠ [101]) end
  | Quoted _ => head r ≠ Some 39
  | Escaped _ => True
  | Param _ => match r with [] => True | c :: _ => isdigit c = false end
  end.

Lemma word_head w : piece_ok (Word w) = true → ∃ c w', w = c :: w' ∧ ends_word c = false.
Proof.
  cbn. intros [Hne H]%andb_true_iff. destruct w as [|c w]; [discriminate|]. cbn in H. apply andb_true_iff in H as [H _].
  exists c, w. split; [reflexivity|now apply negb_true_iff].
Qed.

Lemma ends_pieces t l n : pieces_ok ((false, t) :: l) = true → ends t (print_pieces l n).
Proof.
  cbn [pieces_ok]. intros [[Ht Hj]%andb_true_iff Hl]%andb_true_iff.
  destruct l as [|[[|] t'] l]; cbn [print_pieces app].
  - destruct n; destruct t; cbn; try easy; (split; [reflexivity|discriminate]).
  - cbn [pieces_ok] in Hl. apply andb_true_iff in Hl as [[Ht' _]%andb_true_iff _].
    destruct t as [w|s|s|x], t' as [w'|s'|s'|x']; try discriminate; cbn [print_piece app ends]; try easy.
    + split; [reflexivity|]. intros _. cbn [may_join] in Hj. apply negb_true_iff, orb_false_iff in Hj as [H1 H2].
      now apply bool_decide_eq_false in H1, H2.
    + destruct (word_head w' Ht') as (c & w'' & -> & Hc). cbn. intros [= ->]. discriminate.
    + destruct (word_head w' Ht') as (c & w'' & -> & Hc). cbn [may_join nth] in Hj. now apply negb_true_iff in Hj.
  - destruct t; cbn; try easy; (split; [reflexivity|discriminate]).
Qed.

Lemma print_piece_nospace t r : piece_ok t = true → ∃ c s, print_piece t ++ r = c :: s ∧ isspace c = false.
Proof.
  intros Ht. destruct t as [w|s|s|x]; [|eexists _, _; split; reflexivity..].
  destruct (word_head w Ht) as (c & w' & -> & Hc). unfold ends_word in Hc. rewrite !orb_false_iff in Hc.
  exists c, (w' ++ r). now split; [|apply Hc].
Qed.

Lemma joins_pieces t l n : pieces_ok ((false, t) :: l) = true →
  match l with (j, _) :: _ => joins (print_pieces l n) = j | [] => True end.
Proof.
  cbn [pieces_ok]. intros [_ Hl]%andb_true_iff. destruct l as [|[[|] t'] l]; [exact I| |reflexivity].
  cbn [pieces_ok] in Hl. apply andb_true_iff in Hl as [[Ht' _]%andb_true_iff _].
  cbn [print_pieces app]. destruct (print_piece_nospace t' (print_pieces l n) Ht') as (c & s & -> & Hc). cbn. now rewrite Hc.
Qed.

(** ** Reading one piece *)

Lemma match_quote {A} (p : bytes) (f : bytes → A) (b : A) :
  head p ≠ Some 39 → match p with 39 :: p' => f p' | _ => b end = b.
Proof. intros H. destruct p as [|d p]; [reflexivity|]. repeat (case_match; try reflexivity). subst. contradiction. Qed.

Lemma keyword_end_word w r :
  forallb (λ c, negb (ends_word c)) w = true → match r with [] => True | c :: _ => ends_word c = true end →
  keyword_end (w ++ r) = (w, r).
Proof.
  intros Hw Hr. induction w as [|c w IH]; cbn [app].
  - destruct r as [|c r]; [reflexivity|]. cbn [keyword_end]. unfold ends_word in Hr. now rewrite Hr.
  - cbn in Hw. apply andb_true_iff in Hw as [Hc%negb_true_iff Hw]. cbn [keyword_end]. unfold ends_word in Hc.
    rewrite Hc. now rewrite IH.
Qed.

Lemma query_word fuel w r q :
  piece_ok (Word w) = true → ends (Word w) r →
  query_loop (S fuel) (w ++ r) q = query_loop fuel (skip_space r) (q_append q w 65 (q_esc q) r).
Proof.
  intros Hw Hr. assert (Hk : keyword_end (w ++ r) = (w, r)).
  { apply keyword_end_word; [now apply andb_true_iff in Hw as [_ ?]|]. destruct r; [exact I|]. now destruct Hr. }
  destruct (word_head w Hw) as (c & w' & E & Hc). subst w. cbn [app] in *. cbn [query_loop]. rewrite Hk.
  unfold ends_word in Hc. rewrite !orb_false_iff in Hc. destruct Hc as ((((H1 & H2) & H3) & H4) & H5).
  rewrite H1, H2, H3, H4, H5. destruct (_ || _) eqn:Ee; [|reflexivity]. apply match_quote.
  destruct w' as [|d w']; cbn [app head].
  - destruct r as [|d r]; [discriminate|]. intros [= ->]. destruct Hr as [_ Hr]. destruct (Hr eq_refl) as [N1 N2].
    apply orb_true_iff in Ee as [Ee|Ee]; zb; subst; contradiction.
  - intros [= ->]. cbn [piece_ok forallb] in Hw. rewrite andb_comm, andb_comm in Hw.
    rewrite !andb_true_iff in Hw. destruct Hw as (_ & _ & Hd & _). discriminate.
Qed.

Lemma simple_string_quoted s : ∀ fuel r acc, (length s < fuel)%nat →
  forallb (λ c, negb (c =? 39)) s = true → head r ≠ Some 39 →
  simple_string fuel (s ++ 39 :: r) acc false = (acc ++ s, false, 39 :: r).
Proof.
  induction s as [|c s IH]; intros [|fuel] r acc Hf Hs Hr; cbn [length] in Hf; try lia; cbn [app simple_string].
  - change (39 =? 39) with true. cbv iota. rewrite match_quote by exact Hr. now rewrite app_nil_r.
  - cbn in Hs. apply andb_true_iff in Hs as [Hc%negb_true_iff Hs]. rewrite Hc, IH by (assumption || lia). now rewrite <- app_assoc.
Qed.

Lemma query_quoted fuel s r q :
  piece_ok (Quoted s) = true → ends (Quoted s) r →
  query_loop (S fuel) (print_piece (Quoted s) ++ r) q = query_loop fuel r (q_append q s 65 false r).
Proof.
  intros Hs Hr. cbn [print_piece app]. rewrite <- app_assoc. cbn [app query_loop].
  change (39 =? 59) with false. change (39 =? 34) with false. change (39 =? 39) with true. cbv iota.
  rewrite simple_string_quoted; [reflexivity| |exact Hs|exact Hr]. rewrite length_app. cbn [length]. lia.
Qed.

Lemma query_escaped fuel s r q :
  query_loop (S fuel) (print_piece (Escaped s) ++ r) q =
  query_loop fuel r (q_append q s 65 (q_esc q || has_escape s) r).
Proof.
  cbn [print_piece app]. rewrite <- app_assoc. cbn [app query_loop].
  change (69 =? 59) with false. change (69 =? 34) with false. change (69 =? 39) with false. change (69 =? 36) with false.
  change (69 =? 69) with true. cbn [orb]. rewrite escaped_string_escape by reflexivity. cbn [rev app].
  replace (if q_esc q || has_escape s then unescape_str (escape_str s) else escape_str s) with s; [reflexivity|].
  destruct (q_esc q || has_escape s) eqn:E; symmetry; [apply unescape_escape; lia|].
  apply orb_false_iff in E as [_ E]. now apply no_escape.
Qed.

Lemma scan_digits_end t r acc :
  digits t → match r with [] => True | c :: _ => isdigit c = false end →
  scan_digits (t ++ r) acc = (fold_left digit_step t acc, r).
Proof.
  intros Ht Hr. destruct r as [|c r]; [rewrite app_nil_r; now apply scan_digits_all|now apply scan_digits_stop].
Qed.

Lemma strtoll_digits t r :
  digits t → t ≠ [] → match r with [] => True | c :: _ => isdigit c = false end →
  0 <= fold_left digit_step t 0 <= INT64_MAX → strtoll (t ++ r) = (fold_left digit_step t 0, false, length t).
Proof.
  intros Ht Hne Hr Hv. unfold strtoll. rewrite c_str_app_digits by exact Ht. destruct t as [|d t]; [contradiction|].
  pose proof (Forall_inv Ht) as Hd. destruct (digit_nospace d Hd) as (Hs & H45 & H43 & _).
  unfold scan_number. cbn [app skip_space]. rewrite Hs, H45, H43, Hd. change (d :: t ++ c_str r) with ((d :: t) ++ c_str r).
  rewrite scan_digits_end; [|exact Ht|destruct r as [|c r]; cbn; [exact I|]; now case_if].
  unfold INT64_MIN in *. rewrite (proj2 (Z.ltb_ge _ (- 2 ^ 63))), (proj2 (Z.ltb_ge INT64_MAX _)) by lia.
  f_equal. rewrite length_app. cbn [length]. lia.
Qed.

Lemma query_param fuel x r q l :
  piece_ok (Param x) = true → ends (Param x) r → pmap_ok (q_pmap q) l →
  ∃ m, pmap_ok m (x :: l) ∧
    query_loop (S fuel) (print_piece (Param x) ++ r) q =
    let q' := q_append q (36 :: u64toa x) 80 (q_esc q) r in
    query_loop fuel r (Query (q_args q') (q_types q') (q_join q') (q_esc q') m).
Proof.
  cbn [piece_ok]. intros Hx Hr Hm. apply andb_true_iff in Hx as [H1 H2]. zb.
  destruct (pmap_insert_ok (q_pmap q) l x Hm ltac:(lia)) as (m & Em & Hm'). exists m. split; [exact Hm'|].
  destruct (u64toa_text x) as (Hd & Hne & _ & Hv); [unfold is_u64; lia|].
  assert (Hs : strtoll (u64toa x ++ r) = (x, false, length (u64toa x))).
  { rewrite strtoll_digits by (try assumption; rewrite Hv; unfold INT64_MAX; lia). now rewrite Hv. }
  cbn [print_piece app]. destruct (u64toa x) as [|d t] eqn:Eu; [contradiction|]. cbn [app] in Hs |- *. cbn [query_loop].
  change (36 =? 59) with false. change (36 =? 34) with false. change (36 =? 39) with false. change (36 =? 36) with true. cbv iota.
  rewrite (Forall_inv Hd), Hs, (proj2 (Z.eqb_neq x 0)), (proj2 (Z.ltb_ge 65535 x)) by lia. cbn [orb]. rewrite Em. mstep.
  change (d :: t ++ r) with ((d :: t) ++ r). rewrite take_app_length, drop_app_length. reflexivity.
Qed.

(** ** Reading all pieces *)

Definition piece_args (l : list (bool * piece)) : list bytes := (λ '(_, t), piece_arg t) <$> l.
Definition piece_types (l : list (bool * piece)) : bytes := (λ '(j, t), piece_kind t + Z.b2z j) <$> l.
Definition piece_params (l : list (bool * piece)) : list Z := omap (λ '(_, t), match t with Param x => Some x | _ => None end) l.

(** The loop at a text that is the pieces, or the pieces without the first space. *)
Definition loop_reads (l : list (bool * piece)) : Prop := ∀ fuel text q ps k,
  match l with (j, _) :: _ => q_join q = j | [] => True end →
  text = print_pieces l k ∨ text = skip_space (print_pieces l k) → (length text <= fuel)%nat → pmap_ok (q_pmap q) ps →
  ∃ j e m, pmap_ok m (rev (piece_params l) ++ ps) ∧
    query_loop fuel text q =
      Some (inr (Query (q_args q ++ piece_args l) (q_types q ++ piece_types l) j e m, repeat 59 k)).

Lemma loop_reads_nil : loop_reads [].
Proof.
  intros fuel text q ps k _ Ht Hf Hm. exists (q_join q), (q_esc q), (q_pmap q). split; [exact Hm|].
  change (piece_args []) with (@nil bytes). change (piece_types []) with (@nil Z). rewrite !app_nil_r.
  assert (E : text = repeat 59 k) by (destruct k; destruct Ht; assumption).
  subst text. destruct q, k; [destruct fuel; reflexivity|]. cbn [repeat length] in Hf. destruct fuel; [lia|]. reflexivity.
Qed.

(** One piece and the rest. *)
Lemma loop_reads_cons j t l :
  pieces_ok ((j, t) :: l) = true → loop_reads l → loop_reads ((j, t) :: l).
Proof.
  intros Hok IH. assert (Hok' : pieces_ok ((false, t) :: l) = true) by exact Hok.
  assert (Ht : piece_ok t = true) by (cbn [pieces_ok] in Hok; rewrite !andb_true_iff in Hok; apply Hok).
  assert (Hbody : ∀ fuel q ps k, q_join q = j → (length (print_piece t ++ print_pieces l k) <= fuel)%nat → pmap_ok (q_pmap q) ps →
    ∃ j' e m, pmap_ok m (rev (piece_params ((j, t) :: l)) ++ ps) ∧ query_loop fuel (print_piece t ++ print_pieces l k) q =
      Some (inr (Query (q_args q ++ piece_args ((j, t) :: l)) (q_types q ++ piece_types ((j, t) :: l)) j' e m, repeat 59 k))).
  { intros fuel q ps k Hj Hf Hm. pose proof (ends_pieces t l k Hok') as He. pose proof (joins_pieces t l k Hok') as Hjoin.
    destruct (print_piece_nospace t (print_pieces l k) Ht) as (c & s & Ec & _).
    assert (Hnext : ∀ fuel' text e m ps', text = print_pieces l k ∨ text = skip_space (print_pieces l k) →
      (length text <= fuel')%nat → pmap_ok m ps' →
      ∃ j' e' m', pmap_ok m' (rev (piece_params l) ++ ps') ∧
        query_loop fuel' text (Query (q_args q ++ [piece_arg t]) (q_types q ++ [piece_kind t + Z.b2z (q_join q)])
          (joins (print_pieces l k)) e m) =
        Some (inr (Query (q_args q ++ piece_args ((j, t) :: l)) (q_types q ++ piece_types ((j, t) :: l)) j' e' m', repeat 59 k))).
    { intros fuel' text e m ps' Htext Hf' Hm'.
      destruct (IH fuel' text (Query (q_args q ++ [piece_arg t]) (q_types q ++ [piece_kind t + Z.b2z (q_join q)])
        (joins (print_pieces l k)) e m) ps' k) as (j' & e' & m' & H1 & H2); try assumption.
      exists j', e', m'. split; [exact H1|]. rewrite H2. cbn [q_args q_types]. rewrite <- !app_assoc, Hj. reflexivity. }
    rewrite Ec in Hf. cbn [length] in Hf. destruct fuel as [|fuel]; [lia|].
    assert (Hl : (length (print_pieces l k) <= fuel)%nat).
    { apply (f_equal length) in Ec. rewrite length_app in Ec. cbn [length] in Ec.
      assert (0 < length (print_piece t))%nat; [|lia]. destruct t as [w| | |]; cbn; try lia.
      destruct (word_head w Ht) as (? & ? & -> & _). cbn. lia. }
    pose proof (skip_space_shorter (print_pieces l k)) as Hsk.
    destruct t as [w|s'|s'|x].
    - cbn [print_piece]. rewrite query_word by assumption. apply (Hnext fuel _ _ _ ps); [now right|lia|exact Hm].
    - rewrite query_quoted by assumption. apply (Hnext fuel _ _ _ ps); [now left|lia|exact Hm].
    - rewrite query_escaped. apply (Hnext fuel _ _ _ ps); [now left|lia|exact Hm].
    - destruct (query_param fuel x (print_pieces l k) q ps Ht He Hm) as (m & Hm' & ->).
      destruct (Hnext fuel (print_pieces l k) (q_esc q) m (x :: ps)) as (j' & e' & m' & H1 & H2); [now left|lia|exact Hm'|].
      exists j', e', m'. split; [|exact H2]. change (piece_params ((j, Param x) :: l)) with (x :: piece_params l).
      cbn [rev]. rewrite <- app_assoc. exact H1. }
  intros fuel text q ps k Hj Htext Hf Hm.
  destruct (print_piece_nospace t (print_pieces l k) Ht) as (c & s & Ec & Hc).
  assert (Hskip : skip_space (print_piece t ++ print_pieces l k) = print_piece t ++ print_pieces l k) by (rewrite Ec; cbn; now rewrite Hc).
  destruct j; cbn [print_pieces app] in Htext.
  - rewrite Hskip in Htext. assert (text = print_piece t ++ print_pieces l k) as -> by (destruct Htext; assumption).
    now apply (Hbody fuel q ps k).
  - cbn [skip_space] in Htext. change (isspace 32) with true in Htext. cbv iota in Htext. rewrite Hskip in Htext.
    destruct Htext as [-> | ->]; [|now apply (Hbody fuel q ps k)].
    cbn [length] in Hf. destruct fuel as [|fuel]; [lia|]. cbn [query_loop].
    change (32 =? 59) with false. change (32 =? 34) with false. change (32 =? 39) with false. change (32 =? 36) with false.
    change (32 =? 69) with false. change (32 =? 101) with false. cbn [orb]. change (isspace 32) with true. cbv iota.
    apply (Hbody fuel q ps k Hj); [lia|exact Hm].
Qed.

Lemma loop_reads_all l : pieces_ok l = true → loop_reads l.
Proof.
  induction l as [|[j t] l IH]; intros H; [exact loop_reads_nil|]. apply loop_reads_cons; [exact H|].
  apply IH. cbn [pieces_ok] in H. now apply andb_true_iff in H as [_ H].
Qed.

(** The first parameter that is not there, of as many as are used. *)
Definition first_missing (ps : list Z) : option Z :=
  find (λ i, negb (bool_decide (i ∈ ps))) (seqZ 1 (Z.of_nat (length ps))).

(** When none is missing the parameters are one, two and so on, each once. *)
Lemma none_missing ps : first_missing ps = None → seqZ 1 (Z.of_nat (length ps)) ≡ₚ ps.
Proof.
  intros E. apply submseteq_length_Permutation; [|rewrite length_seqZ; lia]. apply NoDup_submseteq; [apply NoDup_seqZ|].
  intros i Hi. rewrite list_elem_of_In in Hi. pose proof (find_none _ _ E i Hi) as Hn.
  now apply negb_false_iff, bool_decide_eq_true in Hn.
Qed.

Lemma check_params_missing n : ∀ i m l, pmap_ok m l → 0 <= i →
  check_params n i m =
  Some ((λ x, str "missing parameter $" ++ i64toa x) <$> find (λ i, negb (bool_decide (i ∈ l))) (seqZ (i + 1) (Z.of_nat n))).
Proof.
  induction n as [|n IH]; intros i m l Hm Hi; [reflexivity|]. cbn [check_params].
  rewrite (pmap_exists_ok m l (i + 1) Hm) by lia. mstep. rewrite seqZ_cons by lia. cbn [find].
  destruct (bool_decide (i + 1 ∈ l)); cbn [negb]; [|reflexivity]. rewrite (IH (i + 1) m l Hm) by lia.
  repeat f_equal; unfold Z.succ, Z.pred; lia.
Qed.

Lemma semicolons_end k : forallb (λ c, c =? 59) (repeat 59 k) = true.
Proof. induction k; [reflexivity|exact IHk]. Qed.

Lemma parse_query_text l k :
  query_ok l = true →
  parse_query_args (print_pieces l k) = Some (
    match first_missing (piece_params l) with
    | Some i => inl (str "missing parameter $" ++ i64toa i)
    | None => inr (piece_args l, piece_types l ++ [0], Z.of_nat (length (piece_params l)))
    end).
Proof.
  intros Hl. assert (Hok : pieces_ok l = true) by (destruct l as [|[[|] t] l]; [reflexivity|discriminate|exact Hl]).
  unfold parse_query_args.
  destruct (loop_reads_all l Hok (length (skip_space (print_pieces l k))) (skip_space (print_pieces l k))
    (Query [] [] false false pmap_init) [] k) as (j & e & m & Hm & ->); [|now right|lia|exact pmap_init_ok|].
  { destruct l as [|[[|] t] l]; [exact I|discriminate|reflexivity]. }
  mstep. rewrite semicolons_end. cbn [negb q_pmap q_args q_types app]. rewrite app_nil_r in Hm.
  rewrite (po_count _ _ Hm), length_rev, Nat2Z.id, (check_params_missing _ 0 m _ Hm) by lia. mstep. change (0 + 1) with 1.
  assert (E : find (λ i, negb (bool_decide (i ∈ rev (piece_params l)))) (seqZ 1 (Z.of_nat (length (piece_params l)))) =
    first_missing (piece_params l)).
  { unfold first_missing. induction (seqZ 1 _) as [|i l0 IH]; [reflexivity|]. cbn [find]. rewrite IH.
    rewrite (bool_decide_ext (i ∈ rev (piece_params l)) (i ∈ piece_params l)); [reflexivity|]. now rewrite !list_elem_of_In, <- in_rev. }
  rewrite E. now destruct (first_missing _).
Qed.

(** ** What queries mean *)

(** The text of a query is read as its pieces: words, quoted strings, strings
    with escapes and parameters, separated by spaces or touching each other, with
    semicolons at the end. Every piece becomes one argument, byte for byte, whose
    type says whether it is a parameter and whether it is joined to the one before.
    The query is refused exactly when one of the first parameters, as many as
    are used, is not there. *)
Theorem query_text_roundtrip l k :
  query_ok l = true →
  parse_query_args (print_pieces l k) = Some (
    match first_missing (piece_params l) with
    | Some i => inl (str "missing parameter $" ++ i64toa i)
    | None => inr (piece_args l, piece_types l ++ [0], Z.of_nat (length (piece_params l)))
    end).
Proof. apply parse_query_text. Qed.

Definition sample_pieces : list (bool * piece) :=
  [(false, Word (str "SET")); (false, Quoted (str "a b")); (true, Param 2); (false, Escaped [39; 92; 0; 200]);
   (false, Param 1); (true, Word (str "x"))].

Lemma query_text_roundtrip_witness :
  parse_query_args (str "SET 'a b'$2 E'" ++ escape_str [39; 92; 0; 200] ++ str "' $1x;") =
  Some (inr ([str "SET"; str "a b"; str "$2"; [39; 92; 0; 200]; str "$1"; str "x"], [65; 65; 81; 65; 80; 66; 0], 2)).
Proof. apply (query_text_roundtrip sample_pieces 1). vm_compute. reflexivity. Defined.

(** A query that uses a parameter twice is refused: the parameters are counted
    with their repetitions, and some number up to the count is then missing. *)
Theorem repeated_parameter_refused l k :
  query_ok l = true → ¬ NoDup (piece_params l) →
  ∃ i, 1 <= i <= Z.of_nat (length (piece_params l)) ∧ (i ∉ piece_params l) ∧
    parse_query_args (print_pieces l k) = Some (inl (str "missing parameter $" ++ i64toa i)).
Proof.
  intros Hl Hd. rewrite parse_query_text by exact Hl. unfold first_missing. set (ps := piece_params l) in *.
  destruct (find _ _) as [i|] eqn:E.
  - apply find_some in E as [Hi Hn]. apply negb_true_iff, bool_decide_eq_false in Hn.
    rewrite <- list_elem_of_In in Hi. apply elem_of_seqZ in Hi. exists i. split; [lia|]. now split.
  - destruct Hd. rewrite <- (none_missing ps E). apply NoDup_seqZ.
Qed.

Lemma repeated_parameter_refused_witness :
  ∃ i, 1 <= i <= 2 ∧ (i ∉ [1; 1]) ∧ parse_query_args (str "SET $1 $1") = Some (inl (str "missing parameter $" ++ i64toa i)).
Proof.
  apply (repeated_parameter_refused [(false, Word (str "SET")); (false, Param 1); (false, Param 1)] 0); [reflexivity|].
  apply (bool_decide_unpack _). reflexivity.
Defined.

Lemma simple_string_doubled s : ∀ fuel p acc, (length s < fuel)%nat →
  forallb (λ c, negb (c =? 39)) s = true →
  simple_string fuel (s ++ 39 :: 39 :: p) acc false = simple_string (fuel - length s - 1) p (acc ++ s ++ [39; 39]) true.
Proof.
  induction s as [|c s IH]; intros [|fuel] p acc Hf Hs; cbn [length] in Hf; try lia; cbn [app simple_string].
  - change (39 =? 39) with true. cbv iota. cbn [length]. now replace (S fuel - 0 - 1)%nat with fuel by lia.
  - cbn in Hs. apply andb_true_iff in Hs as [Hc%negb_true_iff Hs]. rewrite Hc, IH by (assumption || lia).
    rewrite <- app_assoc. cbn [length app]. f_equal.
Qed.

Lemma simple_string_last s : ∀ fuel acc, (length s < fuel)%nat →
  forallb (λ c, negb (c =? 39)) s = true → simple_string fuel (s ++ [39]) acc true = (acc ++ s, true, [39]).
Proof.
  induction s as [|c s IH]; intros [|fuel] acc Hf Hs; cbn [length] in Hf; try lia; cbn [app simple_string].
  - change (39 =? 39) with true. cbv iota. now rewrite app_nil_r.
  - cbn in Hs. apply andb_true_iff in Hs as [Hc%negb_true_iff Hs]. rewrite Hc, IH by (assumption || lia). now rewrite <- app_assoc.
Qed.

(** A quoted string with a doubled quote in it, which stands for one quote, is
    read as an empty argument, whatever the string is: the loop that copies it
    counts up to the length of its result, which starts at zero. *)
Theorem doubled_quote_is_lost a b :
  forallb (λ c, negb (c =? 39)) a = true → forallb (λ c, negb (c =? 39)) b = true →
  parse_query_args ([39] ++ a ++ [39; 39] ++ b ++ [39]) = Some (inr ([[]], [65; 0], 0)).
Proof.
  intros Ha Hb. unfold parse_query_args. cbn [app skip_space]. change (isspace 39) with false. cbv iota. cbn [length query_loop].
  change (39 =? 59) with false. change (39 =? 34) with false. change (39 =? 39) with true. cbv iota.
  rewrite simple_string_doubled; [|rewrite length_app; cbn [length]; rewrite length_app; cbn [length]; lia|exact Ha].
  rewrite simple_string_last; [|rewrite length_app; cbn [length]; rewrite length_app; cbn [length]; lia|exact Hb].
  set (s := ([] ++ a ++ [39; 39]) ++ b). replace (unescape_simplestr s) with (@nil Z); [|now destruct s].
  destruct (length _); [|reflexivity]. reflexivity.
Qed.

Lemma doubled_quote_is_lost_witness : parse_query_args (str "'it''s'") = Some (inr ([[]], [65; 0], 0)).
Proof. apply (doubled_quote_is_lost (str "it") (str "s")); reflexivity. Defined.

(** A pair of surrogates stands for the code point 65536 + u, with the ten bits
    of each in u. The code sets bit 16 instead of adding it, so that the result is
    right exactly when that bit of u is clear, and the code point u itself when it
    is set: half of the code points beyond the first plane are read as others. *)
Theorem surrogate_pairs cp1 cp2 :
  55296 < cp1 < 56320 → 56320 < cp2 < 57344 →
  let u := 1024 * (cp1 - 55296) + (cp2 - 56320) in
  decode_codepoint cp1 cp2 = if Z.testbit u 16 then u else 65536 + u.
Proof.
  intros H1 H2 u. unfold decode_codepoint.
  rewrite (proj2 (Z.ltb_lt 55296 cp1)), (proj2 (Z.ltb_lt cp1 56320)), (proj2 (Z.ltb_lt 56320 cp2)), (proj2 (Z.ltb_lt cp2 57344)) by lia.
  cbn [andb]. set (a := cp1 - 55296). set (b := cp2 - 56320). fold a b in u.
  assert (Hb : 0 <= b < 2 ^ 10) by lia. assert (Ha : 0 <= a < 2 ^ 10) by lia.
  assert (Hor : ∀ x y k, 0 <= k → 0 <= y < 2 ^ k → (x .<< k) .| y = x * 2 ^ k + y).
  { intros x y k Hk Hy. rewrite Z.shiftl_mul_pow2 by lia. symmetry. rewrite <- Z.shiftl_mul_pow2 by lia.
    rewrite Z.add_nocarry_lxor, Z.lxor_lor; [reflexivity| |];
      (apply Z.bits_inj'; intros i Hi; rewrite Z.land_spec, Z.bits_0, Z.shiftl_spec by lia;
       destruct (Z.lt_ge_cases i k); [rewrite (Z.testbit_neg_r x) by lia; reflexivity|]; apply andb_false_iff; right;
       rewrite <- (Z.mod_small y (2 ^ k)) by lia; now apply Z.mod_pow2_bits_high). }
  assert (Hu : u = (a .<< 10) .| b) by (rewrite Hor by lia; unfold u; lia).
  assert (Hb' : b + 65536 = (1 .<< 16) .| b) by (rewrite Hor by lia; lia).
  rewrite Hb', Z.lor_assoc, (Z.lor_comm _ (1 .<< 16)), <- Z.lor_assoc, <- Hu. change (1 .<< 16) with (2 ^ 16).
  destruct (Z.testbit u 16) eqn:E.
  - apply Z.bits_inj'. intros i Hi. rewrite Z.lor_spec, Z.pow2_bits_eqb by lia.
    destruct (16 =? i) eqn:Ei; zb; [subst; now rewrite E|reflexivity].
  - rewrite <- Z.lxor_lor; [rewrite <- Z.add_nocarry_lxor|]; [reflexivity| |];
      (apply Z.bits_inj'; intros i Hi; rewrite Z.land_spec, Z.bits_0, Z.pow2_bits_eqb by lia;
       destruct (16 =? i) eqn:Ei; zb; [subst; now rewrite E|reflexivity]).
Qed.

(** U+20000 is read as U+10000, so two different strings are the same argument. *)
Lemma surrogate_pairs_witness : decode_codepoint 0xD840 0xDC01 = 0x10001.
Proof. apply (surrogate_pairs 0xD840 0xDC01); lia. Defined.
