(* ===== verification/PostgresProofs.v ===== *)
(** * PostgresProofs: messages of the Postgres protocol

    The parser is defined on every message whose length field is not one of five
    values, keeps the invariant of the prepared statements on which an assertion
    relies, and consumes no more than it is given. Queries and prepared statements
    are read as they were sent. *)

From S2P Require Import Prelude Util Context Resp RespProofs Memcache Http Parse ParseProofs Conn ConnProofs.
From S2P Require Import Postgres PostgresMap PostgresText.
From S2P Require Import Entry Heap Map Shard Cache Cmds CmdFrame Samples Server KvServer.

(** ** Big endian integers *)

Lemma be_lor a b k : 0 <= k → 0 <= b < 2 ^ k → 0 <= a → (a .<< k) .| b = a * 2 ^ k + b.
Proof. intros Hk Hb Ha. rewrite Z.lor_comm, shiftl_mul, lor_add_shift by lia. lia. Qed.

Lemma be32 a b c d : is_u8 a → is_u8 b → is_u8 c → is_u8 d →
  (a .<< 24) .| (b .<< 16) .| (c .<< 8) .| d = a * 2 ^ 24 + b * 2 ^ 16 + c * 2 ^ 8 + d.
Proof.
  unfold is_u8. intros. rewrite <- !Z.lor_assoc, (be_lor c d 8) by lia. rewrite (be_lor b _ 16) by lia. rewrite (be_lor a _ 24) by lia. lia.
Qed.

Lemma read_i32_range d : bytes_ok d → - 2 ^ 31 <= read_i32 d < 2 ^ 31.
Proof.
  intros Hd. pose proof (nth_ok d 0 Hd). pose proof (nth_ok d 1 Hd). pose proof (nth_ok d 2 Hd). pose proof (nth_ok d 3 Hd).
  unfold read_i32. rewrite be32 by assumption. unfold is_u8 in *. case_if; lia.
Qed.

Lemma u8_mod x : is_u8 (x mod 256).
Proof. unfold is_u8. dm. Qed.

Lemma read_write_i32 x r : - 2 ^ 31 <= x < 2 ^ 31 → read_i32 (write_i32 x ++ r) = x.
Proof.
  intros Hx. unfold read_i32, write_i32. cbn [app nth]. rewrite !shiftr_land_byte by lia.
  change 255 with (2 ^ 8 - 1). rewrite land_mask by lia. rewrite be32 by apply u8_mod.
  assert (Hu : 0 <= u32 x < 2 ^ 32) by (unfold u32; dm).
  assert (E : u32 x / 2 ^ 24 mod 256 * 2 ^ 24 + u32 x / 2 ^ 16 mod 256 * 2 ^ 16 + u32 x / 2 ^ 8 mod 256 * 2 ^ 8 + u32 x mod 2 ^ 8 = u32 x)
    by dm.
  rewrite E. unfold u32 in *. case_if; dm.
Qed.

Lemma read_write_i16 x r : - 2 ^ 15 <= x < 2 ^ 15 → read_i16 (write_i16 x ++ r) = x.
Proof.
  intros Hx. unfold read_i16, write_i16. cbn [app nth]. rewrite !shiftr_land_byte by lia.
  change 255 with (2 ^ 8 - 1). rewrite land_mask by lia.
  rewrite be_lor by (try lia; dm). assert (Hu : 0 <= u16 x < 2 ^ 16) by (unfold u16; dm).
  assert (E : u16 x / 2 ^ 8 mod 256 * 2 ^ 8 + u16 x mod 2 ^ 8 = u16 x) by dm.
  rewrite E. unfold u16 in *. case_if; dm.
Qed.

Lemma read_write_u16 x r : 0 <= x < 2 ^ 16 → u16 (read_i16 (write_i16 x ++ r)) = x.
Proof.
  intros Hx. unfold read_i16, write_i16. cbn [app nth]. rewrite !shiftr_land_byte by lia.
  change 255 with (2 ^ 8 - 1). rewrite land_mask by lia.
  rewrite be_lor by (try lia; dm). assert (Hu : u16 x = x) by (unfold u16; dm). rewrite Hu.
  assert (E : x / 2 ^ 8 mod 256 * 2 ^ 8 + x mod 2 ^ 8 = x) by dm. rewrite E. unfold u16. case_if; dm.
Qed.

(** ** Safety *)

(** What an assertion relies on: the first argument of a prepared statement is
    not joined to one before it. *)
Definition pg_ok (p : pg) : Prop :=
  ∀ name stmt, pg_statements (pg_parser p) !! name = Some stmt → first_free (stmt_argtypes stmt).

Lemma pg_ok_parser p p' : pg_statements (pg_parser p') = pg_statements (pg_parser p) → pg_ok p → pg_ok p'.
Proof. intros E H name stmt. rewrite E. apply H. Qed.

Lemma pg_ok_flags f p : pg_ok p → pg_ok (pg_flags f p).
Proof. apply pg_ok_parser. unfold pg_flags. now destruct (f p) as [[[[? ?] ?] ?] ?]. Qed.

Lemma pg_ok_statement name stmt p : first_free (stmt_argtypes stmt) → pg_ok p → pg_ok (statement_insert name stmt p).
Proof.
  intros Hs Hp n s. cbn [statement_insert pg_set_own set_statements pg_parser pg_statements].
  rewrite lookup_insert_Some. intros [[_ <-]|[_ H]]; [exact Hs|exact (Hp _ _ H)].
Qed.

Definition pg_keeps (p : pg) (m : message) : Prop := pg_ok p → pg_ok (ms_pg m).

Lemma execute_args_total args : ∀ types params targs,
  targs ≠ [] ∨ first_free types → ∃ r, execute_args args types params targs = Some r.
Proof.
  induction args as [|arg args IH]; intros types params targs Hfree; [now eexists|]. cbn [execute_args].
  set (value := if _ : bool then _ else Some arg). destruct value as [v|]; [|now eexists].
  destruct ((_ =? 66) || _) eqn:Ej.
  - destruct Hfree as [Hne|Hfree]; [|destruct types; [discriminate|cbn in Ej; unfold first_free, joined in Hfree; congruence]].
    destruct (last targs) as [prev|] eqn:El; [|now apply last_None in El]. mstep. apply IH. left.
    intros E. now apply app_nil in E as [_ E].
  - apply IH. left. intros E. now apply app_nil in E as [_ E].
Qed.

Section Auth.
Context (auth : bytes).

Lemma parseQ_safe body p : ∃ m, parseQ body p = Some m ∧ pg_keeps p m.
Proof.
  unfold parseQ. destruct (parse_cstr body) as [[text [|]]|]; try (eexists; split; [reflexivity|]; now intros H).
  destruct (parse_query_args_total text) as (r & -> & _). mstep. destruct r as [err|[[args types] n]]; [now eexists|].
  destruct (0 <? n); [now eexists|]. eexists; split; [reflexivity|]. destruct args; intros H; exact H.
Qed.

Lemma parseP_safe body p : ∃ m, parseP body p = Some m ∧ pg_keeps p m.
Proof.
  unfold parseP. case_match eqn:E; [|now eexists]. destruct p0 as [name text]. destruct (_ <=? _); [now eexists|].
  destruct (parse_query_args_total text) as (r & -> & Hr). mstep. destruct r as [err|[[args types] n]]; [now eexists|].
  eexists; split; [reflexivity|]. intros Hp. apply pg_ok_flags, pg_ok_statement; [apply Hr|exact Hp].
Qed.

Lemma parseE_safe body p : pg_ok p → ∃ m, parseE body p = Some m ∧ pg_keeps p m.
Proof.
  intros Hp. unfold parseE. case_match eqn:E; [|now eexists]. destruct (portal_get p _) as [portal|]; [|now eexists].
  destruct (statement_get p _) as [stmt|] eqn:Es; [|now eexists]. destruct (negb _); [now eexists|].
  destruct (execute_args_total (stmt_args stmt) (stmt_argtypes stmt) (portal_params portal) []) as ([ok targs] & ->).
  { right. unfold statement_get in Es. destruct (_ <=? _); [discriminate|]. exact (Hp _ _ Es). }
  mstep. eexists. split; [reflexivity|]. destruct ok; intros H; [apply pg_ok_flags|]; exact H.
Qed.

Lemma parseD_keeps body p : pg_keeps p (parseD body p).
Proof. unfold parseD. repeat case_match; intros H'; try exact H'. Qed.

Lemma parseB_keeps body p : pg_keeps p (parseB body p).
Proof.
  unfold parseB. repeat case_match; intros H'; try exact H'.
Qed.

Lemma parse_body_safe c body p : pg_ok p → ∃ m, parse_body auth c body p = Some m ∧ pg_ok (ms_pg m).
Proof.
  intros Hp. unfold parse_body.
  destruct (c =? 81); [destruct (parseQ_safe body p) as (m & E & H); eauto|].
  destruct (c =? 80); [destruct (parseP_safe body p) as (m & E & H); eauto|].
  destruct (c =? 88); [eexists; split; [reflexivity|]; destruct body; exact Hp|].
  destruct (c =? 69); [destruct (parseE_safe body p Hp) as (m & E & H); eauto|].
  destruct (c =? 112); [eexists; split; [reflexivity|]; unfold parsep; repeat case_match; exact Hp|].
  destruct (c =? 68); [eexists; split; [reflexivity|]; now apply parseD_keeps|].
  destruct (c =? 66); [eexists; split; [reflexivity|]; now apply parseB_keeps|].
  destruct (c =? 83); [eexists; split; [reflexivity|]; destruct body; exact Hp|].
  eexists; split; [reflexivity|exact Hp].
Qed.

(** The length field of a message that is neither empty nor a startup message. *)
Definition bad_length (data : bytes) : Prop :=
  5 <= size data ∧ nth 0 data 0 ≠ 0 ∧ -1 <= read_i32 (drop 1 data) < 4.

Lemma finish_consumes data n m : 0 <= n <= size data → consumes data (finish n m).1.1.1.
Proof. intros Hn. unfold consumes, finish. cbn. destruct (ms_ok m); lia. Qed.

Lemma parse_magic_safe data p :
  pg_ok p → pg_ok (parse_magic data p).2 ∧ consumes data (parse_magic data p).1.1.1.
Proof.
  intros Hp. pose proof (size_nonneg data) as Hs. unfold parse_magic.
  assert (0 <= u64 (read_i32 data)) by (unfold u64; dm).
  repeat case_if; try (split; [exact Hp|unfold consumes; cbn; lia]).
  split; [|apply finish_consumes; lia]. unfold parse_magic_proto3. destruct (_ && _); exact Hp.
Qed.

Lemma parse_message_consumes data p r p' : parse_message auth data p = Some (r, p') → consumes data r.1.1.
Proof.
  pose proof (size_nonneg data) as Hs. unfold parse_message. destruct (size data <? 5); [intros [= <- <-]; unfold consumes; cbn; lia|].
  destruct (size data <? _) eqn:El; [intros [= <- <-]; unfold consumes; cbn; lia|].
  destruct (_ || _) eqn:Eb; [discriminate|]. apply orb_false_iff in Eb as [E1 E2]. zb.
  destruct (parse_body _ _ _ _) as [m|]; [|discriminate]. mstep. intros [= <- <-].
  destruct (ms_ok m); unfold consumes; cbn [fst]; [right|now left]. unfold u64 in *. dm.
Qed.

Lemma parse_postgres_consumes p data r p' : parse_postgres auth p data = Some (r, p') → consumes data r.1.1.
Proof.
  unfold parse_postgres. destruct data as [|c data]; [intros [= <- <-]; now right|].
  destruct (c =? 0); [|apply parse_message_consumes]. intros [= E]. replace r with (parse_magic (c :: data) (pg_set_error false p)).1 by now rewrite E.
  clear E.  unfold parse_magic. pose proof (size_nonneg (c :: data)) as Hs.
  assert (0 <= u64 (read_i32 (c :: data))) by (unfold u64; dm).
  repeat case_if; try (unfold consumes; cbn [fst]; lia); apply finish_consumes; lia.
Qed.

(** C20: The parser of the Postgres protocol is defined on all data, split messages
    included, except exactly those whose length field is -1, 0, 1, 2 or 3. The
    prepared statements it stores are such that the assertion of a later Execute
    holds, and it consumes no more than it was given. *)
Theorem parse_postgres_safe p data :
  bytes_ok data → size data < 2 ^ 63 → pg_ok p →
  (bad_length data ∧ parse_postgres auth p data = None) ∨
  (¬ bad_length data ∧ ∃ r p', parse_postgres auth p data = Some (r, p') ∧ pg_ok p' ∧ consumes data r.1.1).
Proof.
  intros Hb Hsz Hp. assert (Hp0 : pg_ok (pg_set_error false p)) by exact Hp.
  assert (Hgood : ¬ bad_length data → (∃ r p', parse_postgres auth p data = Some (r, p') ∧ pg_ok p') →
    ¬ bad_length data ∧ ∃ r p', parse_postgres auth p data = Some (r, p') ∧ pg_ok p' ∧ consumes data r.1.1).
  { intros Hn (r & p' & E & H). split; [exact Hn|]. exists r, p'. split; [exact E|]. split; [exact H|]. exact (parse_postgres_consumes _ _ _ _ E). }
  destruct data as [|c data]; [right; apply Hgood; [unfold bad_length; cbn; lia|]; now eexists _, _|].
  destruct (c =? 0) eqn:E0.
  { right. apply Hgood; [intros (_ & H & _); cbn in H; zb; contradiction|]. unfold parse_postgres. rewrite E0.
    destruct (parse_magic_safe (c :: data) (pg_set_error false p) Hp0) as [H _].
    destruct (parse_magic (c :: data) (pg_set_error false p)) as [r p']. now exists r, p'. }
  assert (Er : parse_postgres auth p (c :: data) = parse_message auth (c :: data) (pg_set_error false p))
    by (unfold parse_postgres; now rewrite E0).
  rewrite Er in *. unfold parse_message in *. zb. set (d := c :: data) in *.
  destruct (size d <? 5) eqn:E5; zb; [right; apply Hgood; [unfold bad_length; lia|]; now eexists _, _|].
  pose proof (read_i32_range (drop 1 d) (Forall_drop _ _ _ Hb)) as Hi. set (len := read_i32 (drop 1 d)) in *.
  assert (Hlen : u64 len = if len <? 0 then 2 ^ 64 + len else len) by (unfold u64; case_if; dm).
  assert (Hlen1 : u64 (u64 len + 1) = if len =? -1 then 0 else u64 len + 1).
  { rewrite Hlen. unfold u64. repeat case_if; dm. }
  rewrite Hlen1 in Hgood |- *. clear Hlen1. destruct (len =? -1) eqn:Em; zb.
  { left. rewrite Hlen. replace (len <? 0) with true by (symmetry; apply Z.ltb_lt; lia).
    rewrite (proj2 (Z.ltb_ge (size d) 0)) by lia. split; [unfold bad_length; fold len; repeat split; [lia|exact E0|lia..]|].
    replace (2 ^ 32 <=? 2 ^ 64 + len) with true by (symmetry; apply Z.leb_le; lia). now rewrite orb_true_r. }
  destruct (size d <? u64 len + 1) eqn:El; zb.
  { right. apply Hgood; [|now eexists _, _]. unfold bad_length. fold len. rewrite Hlen in El. destruct (len <? 0) eqn:En; zb; lia. }
  destruct (_ || _) eqn:Eb.
  - left. split; [|reflexivity]. unfold bad_length. fold len. rewrite Hlen in *.
    apply orb_true_iff in Eb as [Eb|Eb]; zb; destruct (len <? 0) eqn:En; zb; repeat split; try lia; exact E0.
  - right. apply orb_false_iff in Eb as [Eb1 Eb2]. zb. apply Hgood.
    + unfold bad_length. fold len. rewrite Hlen in *. destruct (len <? 0); lia.
    + destruct (parse_body_safe (nth 0 d 0) (take (Z.to_nat (u64 len - 4)) (drop 5 d)) (pg_set_error false p) Hp0) as (m & -> & Hm).
      mstep. now eexists _, _.
Qed.

End Auth.

Lemma pg_ok_new : pg_ok pg_new.
Proof. intros name stmt H. cbn in H. now rewrite lookup_empty in H. Qed.

Lemma bytes_ok_check bs : forallb (λ b, (0 <=? b) && (b <? 256)) bs = true → bytes_ok bs.
Proof.
  induction bs as [|b bs IH]; [constructor|]. cbn. intros [[H1 H2]%andb_true_iff Hb]%andb_true_iff. zb.
  constructor; [split; lia|exact (IH Hb)].
Qed.

(** A query message, complete and cut, and a message with the length three. *)
Lemma parse_postgres_safe_witness :
  (∃ r p', parse_postgres [] pg_new ([81; 0; 0; 0; 9] ++ str "PING" ++ [0]) = Some (r, p') ∧ pg_ok p') ∧
  (∃ r p', parse_postgres [] pg_new ([81; 0; 0; 0; 9] ++ str "PI") = Some (r, p') ∧ pg_ok p') ∧
  parse_postgres [] pg_new [88; 0; 0; 0; 3] = None.
Proof.
  split; [|split].
  - destruct (parse_postgres_safe [] pg_new ([81; 0; 0; 0; 9] ++ str "PING" ++ [0])) as [[(_ & _ & H) _]|(_ & r & p' & H1 & H2 & _)];
      [apply bytes_ok_check; reflexivity|vm_compute; reflexivity|exact pg_ok_new|destruct H as [_ H]; vm_compute in H; discriminate|now exists r, p'].
  - destruct (parse_postgres_safe [] pg_new ([81; 0; 0; 0; 9] ++ str "PI")) as [[(_ & _ & H) _]|(_ & r & p' & H1 & H2 & _)];
      [apply bytes_ok_check; reflexivity|vm_compute; reflexivity|exact pg_ok_new|destruct H as [_ H]; vm_compute in H; discriminate|now exists r, p'].
  - destruct (parse_postgres_safe [] pg_new [88; 0; 0; 0; 3]) as [[_ H]|[H _]];
      [apply bytes_ok_check; reflexivity|vm_compute; reflexivity|exact pg_ok_new|exact H|].
    destruct H. vm_compute. repeat split; congruence.
Defined.

(** ** Messages *)

(** A message of the client. *)
Definition pg_message (type : Z) (body : bytes) : bytes := type :: write_i32 (4 + size body) ++ body.

Lemma size_message type body : size (pg_message type body) = 5 + size body.
Proof. unfold pg_message, write_i32, size. cbn [length]. rewrite length_app. cbn [length]. lia. Qed.

Lemma parse_message_whole auth type body rest p :
  size body < 2 ^ 31 - 4 →
  parse_message auth (pg_message type body ++ rest) p =
  (m ← parse_body auth type body p; Some (finish (size (pg_message type body)) m)).
Proof.
  intros Hb. pose proof (size_nonneg body) as H0. pose proof (size_nonneg rest) as H1. unfold parse_message.
  rewrite size_app, size_message. rewrite (proj2 (Z.ltb_ge _ 5)) by lia.
  unfold pg_message. cbn [app]. change (drop 1 (type :: (write_i32 (4 + size body) ++ body) ++ rest)) with ((write_i32 (4 + size body) ++ body) ++ rest).
  rewrite <- app_assoc, read_write_i32 by lia.
  assert (E1 : u64 (4 + size body) = 4 + size body) by (unfold u64; dm). rewrite E1.
  assert (E2 : u64 (4 + size body + 1) = 5 + size body) by (unfold u64; dm). rewrite E2.
  rewrite (proj2 (Z.ltb_ge _ (5 + size body))), (proj2 (Z.ltb_ge (4 + size body) 4)), (proj2 (Z.leb_gt (2 ^ 32) _)) by lia. cbn [orb nth].
  change (drop 5 (type :: write_i32 (4 + size body) ++ body ++ rest)) with (body ++ rest).
  replace (Z.to_nat (4 + size body - 4)) with (length body) by (unfold size; lia). rewrite take_app_length.
  now replace (4 + size body + 1) with (5 + size body) by lia.
Qed.

(** While a part of the message is missing the parser asks for more. *)
Lemma parse_message_part auth type body k p :
  size body < 2 ^ 31 - 4 → (k < length (pg_message type body))%nat →
  parse_message auth (take k (pg_message type body)) p = Some ((0, [], []), p).
Proof.
  intros Hb Hk. unfold parse_message. assert (Hs : size (take k (pg_message type body)) = Z.of_nat k) by (unfold size; rewrite length_take; lia).
  rewrite Hs. destruct (Z.of_nat k <? 5) eqn:E5; [reflexivity|]. zb.
  assert (Hd : drop 1 (take k (pg_message type body)) = write_i32 (4 + size body) ++ take (k - 5) body).
  { destruct k as [|[|[|[|[|k]]]]]; try lia. cbn [Nat.sub]. rewrite Nat.sub_0_r || idtac. reflexivity. }
  rewrite Hd. pose proof (size_nonneg body). rewrite read_write_i32 by lia.
  assert (E2 : u64 (u64 (4 + size body) + 1) = 5 + size body) by (unfold u64; dm). rewrite E2.
  pose proof (size_message type body) as Hm. unfold size in Hm. unfold size. rewrite (proj2 (Z.ltb_lt _ _)) by lia. reflexivity.
Qed.

Lemma parse_cstr_zero s r : Forall (λ c, c ≠ 0) s → parse_cstr (s ++ 0 :: r) = Some (s, r).
Proof.
  induction 1 as [|c s Hc _ IH]; [reflexivity|]. cbn [app parse_cstr]. rewrite (proj2 (Z.eqb_neq c 0)) by exact Hc. now rewrite IH.
Qed.

(** The text of a query without zero bytes. *)
Definition piece_text (t : piece) : bool :=
  match t with Word w => forallb (λ c, negb (c =? 0)) w | Quoted s => forallb (λ c, negb (c =? 0)) s | _ => true end.

Lemma nonzero_all (s : bytes) : forallb (λ c, negb (c =? 0)) s = true → Forall (λ c, c ≠ 0) s.
Proof.
  induction s as [|c s IH]; [constructor|]. cbn. intros [Hc%negb_true_iff Hs]%andb_true_iff. zb. constructor; auto.
Qed.

Lemma print_piece_nonzero t : piece_ok t = true → piece_text t = true → Forall (λ c, c ≠ 0) (print_piece t).
Proof.
  intros Ho Ht. destruct t as [w|s|s|x]; cbn [print_piece].
  - now apply nonzero_all.
  - constructor; [lia|]. apply Forall_app. split; [now apply nonzero_all|]. repeat constructor; lia.
  - do 2 (constructor; [lia|]). apply Forall_app. split; [|repeat constructor; lia].
    induction s as [|b s IH]; [constructor|]. rewrite escape_str_cons. apply Forall_app. split; [|exact (IH eq_refl eq_refl)].
    unfold escape_byte. destruct (b =? 39); [repeat constructor; vm_compute; discriminate|].
    destruct (b =? 92); [repeat constructor; vm_compute; discriminate|].
    destruct (b =? 0) eqn:E; [repeat constructor; vm_compute; discriminate|]. zb. now repeat constructor.
  - constructor; [lia|]. cbn in Ho. apply andb_true_iff in Ho as [H1 H2]. zb.
    destruct (u64toa_text x) as (Hd & _); [unfold is_u64; lia|]. eapply Forall_impl; [exact Hd|].
    intros c Hc%digit_nospace. apply Hc.
Qed.

Lemma print_pieces_nonzero l k :
  pieces_ok l = true → Forall (λ '(_, t), piece_text t = true) l → Forall (λ c, c ≠ 0) (print_pieces l k).
Proof.
  intros Hl Ht. induction Ht as [|[j t] l Ht _ IH]; cbn [print_pieces].
  - apply Forall_forall. intros c Hc. rewrite list_elem_of_In in Hc. apply repeat_spec in Hc. lia.
  - cbn [pieces_ok] in Hl. apply andb_true_iff in Hl as [[Ho _]%andb_true_iff Hl].
    rewrite !Forall_app. split; [destruct j; repeat constructor; lia|]. split; [now apply print_piece_nonzero|now apply IH].
Qed.

Lemma query_ok_pieces l : query_ok l = true → pieces_ok l = true.
Proof. destruct l as [|[[|] t] l]; [reflexivity|discriminate|intros H; exact H]. Qed.



(** ** Prepared statements *)

Definition parse_msg (stmt text : bytes) (types : list Z) : bytes :=
  pg_message 80 (stmt ++ 0 :: text ++ 0 :: write_i16 (Z.of_nat (length types)) ++ concat (write_i32 <$> types)).
Definition bind_msg (portal stmt : bytes) (formats : list Z) (values : list bytes) (results : list Z) : bytes :=
  pg_message 66 (portal ++ 0 :: stmt ++ 0 :: write_i16 (Z.of_nat (length formats)) ++ concat (write_i16 <$> formats) ++
    write_i16 (Z.of_nat (length values)) ++ concat ((λ v, write_i32 (size v) ++ v) <$> values) ++
    write_i16 (Z.of_nat (length results)) ++ concat (write_i16 <$> results)).
Definition execute_msg (portal : bytes) (max_rows : Z) : bytes := pg_message 69 (portal ++ 0 :: write_i32 max_rows).

Lemma parse_int32_write x r : parse_int32 (write_i32 x ++ r) = Some (read_i32 (write_i32 x ++ r), r).
Proof.
  unfold parse_int32. rewrite size_app. pose proof (size_nonneg r). change (size (write_i32 x)) with 4.
  rewrite (proj2 (Z.ltb_ge _ 4)) by lia. reflexivity.
Qed.
Lemma parse_int16_write x r : parse_int16 (write_i16 x ++ r) = Some (read_i16 (write_i16 x ++ r), r).
Proof.
  unfold parse_int16. rewrite size_app. pose proof (size_nonneg r). change (size (write_i16 x)) with 2.
  rewrite (proj2 (Z.ltb_ge _ 2)) by lia. reflexivity.
Qed.

Lemma parse_types_write types r : parse_types (length types) (concat (write_i32 <$> types) ++ r) = Some r.
Proof.
  induction types as [|x types IH]; [reflexivity|]. rewrite fmap_cons. cbn [concat length parse_types].
  rewrite <- app_assoc, parse_int32_write. mstep. exact IH.
Qed.

Lemma parse_results_write results r : parse_result_formats (length results) (concat (write_i16 <$> results) ++ r) = Some r.
Proof.
  induction results as [|x results IH]; [reflexivity|]. rewrite fmap_cons. cbn [concat length parse_result_formats].
  rewrite <- app_assoc, parse_int16_write. mstep. exact IH.
Qed.

Lemma parse_formats_write formats r :
  Forall (λ x, x = 0 ∨ x = 1) formats → parse_formats (length formats) (concat (write_i16 <$> formats) ++ r) = Some (true, r).
Proof.
  induction 1 as [|x formats Hx _ IH]; [reflexivity|]. rewrite fmap_cons. cbn [concat length parse_formats].
  rewrite <- app_assoc, parse_int16_write. mstep. rewrite read_write_i16 by lia. destruct Hx as [-> | ->]; exact IH.
Qed.

Lemma parse_params_write values : ∀ r acc, Forall (λ v, size v < 2 ^ 31) values →
  parse_params (length values) (concat ((λ v, write_i32 (size v) ++ v) <$> values) ++ r) acc = (acc ++ values, Some r).
Proof.
  induction values as [|v values IH]; intros r acc Hv; [now rewrite app_nil_r|]. apply Forall_cons in Hv as [Hv Hvs].
  rewrite fmap_cons. cbn [concat length parse_params]. rewrite <- !app_assoc, parse_int32_write.
  pose proof (size_nonneg v) as H0. rewrite read_write_i32 by lia.
  replace (if size v <=? 0 then 0 else size v) with (size v) by (case_if; lia).
  unfold parse_bytes. rewrite size_app. match goal with |- context [size v + size ?x] => pose proof (size_nonneg x) end.
  rewrite (proj2 (Z.ltb_ge _ (size v))) by lia. replace (Z.to_nat (size v)) with (length v) by (unfold size; lia).
  rewrite take_app_length, drop_app_length, IH by exact Hvs. now rewrite <- app_assoc.
Qed.

(** The value of a piece, and the arguments made of pieces that touch. *)
Definition piece_value (values : list bytes) (t : piece) : bytes :=
  match t with Param x => default [] (values !! Z.to_nat (x - 1)) | t => piece_arg t end.
Fixpoint glue (values : list bytes) (l : list (bool * piece)) : bytes * list bytes :=
  match l with
  | [] => ([], [])
  | (j, t) :: l =>
      let '(tail, args) := glue values l in
      if j : bool then (piece_value values t ++ tail, args) else ([], (piece_value values t ++ tail) :: args)
  end.
Definition bound_args (values : list bytes) (l : list (bool * piece)) : list bytes := (glue values l).2.

Definition extend (targs : list bytes) (t : bytes) : list bytes :=
  match last targs with Some prev => removelast targs ++ [prev ++ t] | None => targs end.

Lemma extend_snoc l x t : extend (l ++ [x]) t = l ++ [x ++ t].
Proof. unfold extend. rewrite last_snoc. now rewrite removelast_last. Qed.
Lemma extend_nil l : extend l [] = l.
Proof.
  destruct l as [|x l] using rev_ind; [reflexivity|]. rewrite extend_snoc. now rewrite app_nil_r.
Qed.

Lemma execute_args_pieces values l : ∀ targs tail,
  Forall (λ '(_, t), piece_ok t = true) l → Forall (λ x, x <= Z.of_nat (length values)) (piece_params l) →
  targs ≠ [] ∨ match l with (true, _) :: _ => False | _ => True end →
  execute_args (piece_args l) (piece_types l ++ tail) values targs =
    Some (true, extend targs (glue values l).1 ++ (glue values l).2).
Proof.
  induction l as [|[j t] l IH]; intros targs tail Ho Hx Hfree.
  { cbn. now rewrite extend_nil, app_nil_r. }
  apply Forall_cons in Ho as [Ho Hos].
  change (piece_args ((j, t) :: l)) with (piece_arg t :: piece_args l).
  change (piece_types ((j, t) :: l)) with ((piece_kind t + Z.b2z j) :: piece_types l). cbn [app execute_args nth]. change (drop 1 ((piece_kind t + Z.b2z j) :: piece_types l ++ tail)) with (piece_types l ++ tail).
  assert (Hv : (if (piece_kind t + Z.b2z j =? 80) || (piece_kind t + Z.b2z j =? 81) then
      match piece_arg t with
      | 36 :: digits => let '(ok, x) := parse_u64 digits in
          if negb ok || (x =? 0) || (65535 <? x) then None else values !! Z.to_nat (x - 1)
      | _ => None end else Some (piece_arg t)) = Some (piece_value values t)).
  { destruct t as [w|s|s|x]; try (destruct j; reflexivity). cbn [piece_ok] in Ho. apply andb_true_iff in Ho as [H1 H2]. zb.
    cbn [piece_kind piece_arg piece_value]. replace ((80 + Z.b2z j =? 80) || (80 + Z.b2z j =? 81)) with true by (destruct j; reflexivity).
    rewrite parse_u64toa_spec by (unfold is_u64; lia). rewrite (proj2 (Z.eqb_neq x 0)), (proj2 (Z.ltb_ge 65535 x)) by lia. cbn [negb orb].
    apply Forall_cons in Hx as [Hx _]. destruct (values !! Z.to_nat (x - 1)) eqn:E; [reflexivity|]. apply lookup_ge_None in E. lia. }
  rewrite Hv. clear Hv.
  assert (Hx' : Forall (λ x, x <= Z.of_nat (length values)) (piece_params l)) by (destruct t; try exact Hx; now apply Forall_cons in Hx as [_ Hx]).
  replace ((piece_kind t + Z.b2z j =? 66) || (piece_kind t + Z.b2z j =? 81)) with j by (destruct t, j; reflexivity).
  assert (Hne : ∀ a (b : bytes), a ++ [b] ≠ []) by (intros a b E; now apply app_nil in E as [_ E]).
  cbn [glue]. destruct (glue values l) as [tl args]. cbn [fst snd] in IH. destruct j.
  - destruct Hfree as [Hfree|[]]. destruct targs as [|prev targs _] using rev_ind; [contradiction|]. rewrite last_snoc. mstep.
    rewrite removelast_last, IH by (try assumption; left; apply Hne). cbn [fst snd]. rewrite !extend_snoc. now rewrite <- (app_assoc prev).
  - rewrite IH by (try assumption; left; apply Hne). cbn [fst snd]. rewrite extend_snoc, extend_nil. now rewrite <- app_assoc.
Qed.

(** A statement that is prepared, bound and executed. *)
Record prepared := Prepared {
  pr_stmt : bytes; pr_portal : bytes; pr_pieces : list (bool * piece); pr_semicolons : nat; pr_types : list Z;
  pr_formats : list Z; pr_values : list bytes; pr_results : list Z; pr_max_rows : Z
}.

Definition pr_parse (r : prepared) : bytes := parse_msg (pr_stmt r) (print_pieces (pr_pieces r) (pr_semicolons r)) (pr_types r).
Definition pr_bind (r : prepared) : bytes := bind_msg (pr_portal r) (pr_stmt r) (pr_formats r) (pr_values r) (pr_results r).
Definition pr_execute (r : prepared) : bytes := execute_msg (pr_portal r) (pr_max_rows r).

Definition name_ok (name : bytes) : Prop := Forall (λ c, c ≠ 0) name ∧ size name < PGNAMEDATALEN.

Record prepared_ok (r : prepared) : Prop := {
  ro_stmt : name_ok (pr_stmt r);
  ro_portal : name_ok (pr_portal r);
  ro_query : query_ok (pr_pieces r) = true;
  ro_text : Forall (λ '(_, t), piece_text t = true) (pr_pieces r);
  ro_params : first_missing (piece_params (pr_pieces r)) = None;
  ro_values : length (pr_values r) = length (piece_params (pr_pieces r));
  ro_sizes : Forall (λ v, size v < 2 ^ 31) (pr_values r);
  ro_types : Z.of_nat (length (pr_types r)) < 2 ^ 16;
  ro_formats : Forall (λ x, x = 0 ∨ x = 1) (pr_formats r) ∧ Z.of_nat (length (pr_formats r)) < 2 ^ 15;
  ro_results : Z.of_nat (length (pr_results r)) < 2 ^ 16;
  ro_messages : size (pr_parse r) < 2 ^ 31 ∧ size (pr_bind r) < 2 ^ 31
}.

Definition stored_statement (r : prepared) : pg_statement :=
  PgStatement (piece_args (pr_pieces r)) (piece_types (pr_pieces r) ++ [0]) (Z.of_nat (length (piece_params (pr_pieces r)))).

Lemma pieces_all l : pieces_ok l = true → Forall (λ '(_, t), piece_ok t = true) l.
Proof.
  induction l as [|[j t] l IH]; [constructor|]. cbn [pieces_ok]. intros [[H _]%andb_true_iff Hl]%andb_true_iff.
  constructor; [exact H|exact (IH Hl)].
Qed.

Lemma params_ok l x : Forall (λ '(_, t), piece_ok t = true) l → x ∈ piece_params l → 1 <= x <= 65535.
Proof.
  intros Hl Hx. apply list_elem_of_omap in Hx as ([j t] & Ht & E). rewrite Forall_forall in Hl. specialize (Hl _ Ht). cbn in Hl.
  destruct t; try discriminate. injection E as <-. cbn in Hl. apply andb_true_iff in Hl as [H1 H2]. zb. lia.
Qed.

Section Prepared.
Context (auth : bytes) (r : prepared) (Hr : prepared_ok r).

Lemma params_bounded :
  Forall (λ x, x <= Z.of_nat (length (pr_values r))) (piece_params (pr_pieces r)) ∧ Z.of_nat (length (pr_values r)) < 2 ^ 16.
Proof.
  pose proof (none_missing _ (ro_params r Hr)) as Hp. rewrite (ro_values r Hr). set (ps := piece_params (pr_pieces r)) in *.
  pose proof (pieces_all _ (query_ok_pieces _ (ro_query r Hr))) as Ho. split.
  - apply Forall_forall. intros x Hx. rewrite <- Hp in Hx. apply elem_of_seqZ in Hx. lia.
  - destruct (Z.lt_ge_cases (Z.of_nat (length ps)) (2 ^ 16)) as [|Hge]; [assumption|].
    assert (Hn : 65536 ∈ ps) by (rewrite <- Hp; apply elem_of_seqZ; lia). apply (params_ok _ _ Ho) in Hn. lia.
Qed.

Lemma read_parse p rest :
  parse_message auth (pr_parse r ++ rest) p =
  Some ((size (pr_parse r), [], []), pg_did_parse (statement_insert (pr_stmt r) (stored_statement r) p)).
Proof.
  destruct (ro_messages r Hr) as [Hs _]. unfold pr_parse, parse_msg in *. rewrite size_message in Hs.
  rewrite parse_message_whole by lia. set (n := size (pg_message 80 _)). clearbody n.
  match goal with |- context [parse_body auth 80 ?b p] => change (parse_body auth 80 b p) with (parseP b p) end.
  destruct (ro_stmt r Hr) as [Hn1 Hn2]. unfold parseP.
  rewrite parse_cstr_zero by exact Hn1. mstep.
  rewrite parse_cstr_zero by exact (print_pieces_nonzero _ _ (query_ok_pieces _ (ro_query r Hr)) (ro_text r Hr)). mstep.
  rewrite parse_int16_write. mstep. rewrite read_write_u16 by (pose proof (ro_types r Hr); lia). rewrite Nat2Z.id.
  rewrite <- (app_nil_r (concat _)), parse_types_write. mstep. cbn [parse_end]. mstep.
  rewrite (proj2 (Z.leb_gt _ _)) by exact Hn2. rewrite (parse_query_text _ _ (ro_query r Hr)), (ro_params r Hr). mstep. mstep. reflexivity.
Qed.

Lemma read_bind p rest :
  parse_message auth (pr_bind r ++ rest) p =
  Some ((size (pr_bind r), [], []), pg_did_bind (portal_insert (pr_portal r) (PgPortal (pr_stmt r) (pr_values r))
    (pg_set_own (set_targs [] (pg_parser p)) p))).
Proof.
  destruct (ro_messages r Hr) as [_ Hs]. unfold pr_bind, bind_msg in *. rewrite size_message in Hs.
  rewrite parse_message_whole by lia. set (n := size (pg_message 66 _)). clearbody n.
  match goal with |- context [parse_body auth 66 ?b p] => change (parse_body auth 66 b p) with (Some (parseB b p)) end. mstep.
  destruct (ro_stmt r Hr) as [Hn1 Hn2], (ro_portal r Hr) as [Hp1 Hp2], (ro_formats r Hr) as [Hf1 Hf2].
  destruct params_bounded as [_ Hv]. unfold parseB.
  rewrite parse_cstr_zero by exact Hp1. mstep. rewrite parse_cstr_zero by exact Hn1. mstep.
  rewrite parse_int16_write. mstep. rewrite read_write_i16, Nat2Z.id by lia. rewrite (parse_formats_write _ _ Hf1). mstep. cbn [negb].
  rewrite parse_int16_write. rewrite read_write_u16, Nat2Z.id by lia. rewrite (parse_params_write _ _ _ (ro_sizes r Hr)). mstep.
  rewrite parse_int16_write. mstep. rewrite read_write_u16, Nat2Z.id by (pose proof (ro_results r Hr); lia).
  rewrite <- (app_nil_r (concat (write_i16 <$> pr_results r))), parse_results_write. mstep. cbn [parse_end].
  rewrite !(proj2 (Z.leb_gt PGNAMEDATALEN _)) by assumption. reflexivity.
Qed.

Lemma read_execute p rest :
  pg_statements (pg_parser p) !! pr_stmt r = Some (stored_statement r) →
  pg_portals (pg_parser p) !! pr_portal r = Some (PgPortal (pr_stmt r) (pr_values r)) →
  parse_message auth (pr_execute r ++ rest) p =
  Some ((size (pr_execute r), bound_args (pr_values r) (pr_pieces r), []), pg_did_execute (pg_set_own (set_targs [] (pg_parser p)) p)).
Proof.
  intros Hst Hpo. destruct (ro_stmt r Hr) as [Hn1 Hn2], (ro_portal r Hr) as [Hp1 Hp2]. unfold pr_execute, execute_msg in *.
  rewrite parse_message_whole by (rewrite size_app, size_cons; change (size (write_i32 _)) with 4; unfold PGNAMEDATALEN in *; lia).
  set (n := size (pg_message 69 _)). clearbody n.
  match goal with |- context [parse_body auth 69 ?b p] => change (parse_body auth 69 b p) with (parseE b p) end. unfold parseE.
  rewrite parse_cstr_zero by exact Hp1. mstep. rewrite <- (app_nil_r (write_i32 _)), parse_int32_write. mstep. cbn [parse_end]. mstep.
  unfold portal_get, statement_get. rewrite (proj2 (Z.leb_gt PGNAMEDATALEN _)) by exact Hp2. rewrite Hpo. cbn [portal_stmt portal_params].
  rewrite (proj2 (Z.leb_gt PGNAMEDATALEN _)) by exact Hn2. rewrite Hst. cbn [stored_statement stmt_nparams stmt_args stmt_argtypes].
  rewrite (ro_values r Hr), Z.eqb_refl. cbn [negb].
  rewrite execute_args_pieces; [|exact (pieces_all _ (query_ok_pieces _ (ro_query r Hr)))|apply params_bounded|].
  - mstep. mstep. reflexivity.
  - right. pose proof (ro_query r Hr) as Hq. destruct (pr_pieces r) as [|[[|] t] l]; [exact I|discriminate|exact I].
Qed.
End Prepared.

Lemma parse_postgres_message auth p type body rest :
  type ≠ 0 → parse_postgres auth p (pg_message type body ++ rest) = parse_message auth (pg_message type body ++ rest) (pg_set_error false p).
Proof. intros Ht. unfold parse_postgres, pg_message. cbn [app]. now rewrite (proj2 (Z.eqb_neq type 0)) by exact Ht. Qed.


(** SET of a key with a prefix and two parameters in the other order. *)
Definition sample_prepared : prepared :=
  Prepared (str "st") [] [(false, Word (str "SET")); (false, Quoted (str "k:")); (true, Param 2); (false, Param 1)] 1
    [] [] [[0; 255]; str "x"] [0] 0.


(** ** The server with its parsers *)

(** C38: Whatever bytes arrive, in whatever protocol and state of the Postgres side,
    a result of the parsers, that of Postgres messages included, is of the right
    kind: minus one for an error, zero for more data, or the length of a command,
    which is never longer than the data; and after an error of the memcache
    protocol the place where the next command starts lies within the data and
    behind the bad one. *)
Theorem parse_command_bounds useauth auth p pg data r pg' :
  parse_command useauth auth (parse_postgres auth) p pg data = Some (r, pg') →
  (pr_n r = -1 ∨ 0 <= pr_n r <= size data) ∧
  (pr_n r = -1 → pr_proto r = PROTO_MEMCACHE → ∃ k, pr_mc_n r = Some k ∧ 1 <= k <= size data).
Proof. apply parse_command_progress. intros p0 d r0 p'. apply parse_postgres_consumes. Qed.

(** A memcache command that is refused, and a Postgres query with a part of the
    next message. *)
Lemma parse_command_bounds_witness :
  (∃ r p, parse_command false [] (parse_postgres []) PROTO_NONE pg_new (str "get" ++ [13; 10]) = Some (r, p) ∧
    pr_n r = -1 ∧ ∃ k, pr_mc_n r = Some k ∧ 1 <= k <= 5) ∧
  (∃ r p, parse_command false [] (parse_postgres []) PROTO_POSTGRES pg_new (pg_message 81 (str "PING" ++ [0]) ++ [81]) = Some (r, p) ∧
    pr_n r = 10 ∧ (pr_n r = -1 ∨ 0 <= pr_n r <= 11)).
Proof.
  split.
  - eexists _, _. split; [vm_compute; reflexivity|]. split; [reflexivity|].
    apply (parse_command_bounds false [] PROTO_NONE pg_new (str "get" ++ [13; 10]) _ pg_new); vm_compute; reflexivity.
  - eexists _, _. split; [vm_compute; reflexivity|]. split; [reflexivity|].
    eapply (parse_command_bounds false [] PROTO_POSTGRES pg_new (pg_message 81 (str "PING" ++ [0]) ++ [81])).
    vm_compute. reflexivity.
Defined.

Section Server.
Context `{Env} (cfg : config) (cmdDEBUG cmdSTATS : cmd unit) (version : bytes).

#[local] Instance postgres_server : Conn.Server server job :=
  pogocache_server cfg cmdDEBUG cmdSTATS version (parse_postgres (g_auth cfg)).

(** C18: The event loop of the server ends on all data, in all four protocols: with
    as many turns as there are bytes, or more, it never runs out of turns, and
    its result does not depend on how many it was given. Every turn that goes on
    consumes at least one byte and no more than there are. The other outcomes
    are a regular end, and undefined behaviour of a parser or a command. *)
Theorem evdata_ends s c data fuel :
  (length data <= fuel)%nat →
  ev_loop fuel s c data ≠ Endless ∧ ev_loop fuel s c data = ev_loop (length data) s c data.
Proof. intros Hf. apply ev_loop_fuel; [|exact Hf|lia]. intros p d r p'. apply parse_postgres_consumes. Qed.
End Server.

(** Three memcache commands, all of them refused. *)
Lemma evdata_ends_witness :
  let H := pogocache_server config0 (mret tt) (mret tt) [] (parse_postgres []) in
  let data := str "get" ++ crlf ++ str "nop" ++ crlf ++ str "get" ++ crlf in
  ev_loop 40 server3 (conn_open false) data ≠ Endless ∧
  ev_loop 40 server3 (conn_open false) data = ev_loop 15 server3 (conn_open false) data ∧
  match ev_loop 15 server3 (conn_open false) data with
  | Ended _ c rest => c_out c = str "ERROR" ++ crlf ++ str "ERROR" ++ crlf ++ str "ERROR" ++ crlf ∧ rest = []
  | _ => False
  end.
Proof.
  intros H data. pose proof (evdata_ends config0 (mret tt) (mret tt) [] server3 (conn_open false) data 40 ltac:(vm_compute; lia)) as [H1 H2].
  split; [exact H1|]. split; [exact H2|]. vm_compute. split; reflexivity.
Defined.
