(* ===== verification/Access.v ===== *)
(** * Access: what a client without the password can do

    With a password configured, a connection is let in by the AUTH command
    ([cmdAUTH]), by a password message of the Postgres protocol ([parsep]) or,
    one request at a time, by the HTTP parser. This file follows the event loop
    of the server with all of its parsers and shows that there is no other way in,
    in any of the protocols. *)

From S2P Require Import Prelude Util Context Resp Memcache Http HttpProofs Parse ParseProofs Conn ConnProofs.
From S2P Require Import Postgres PostgresProofs.
From S2P Require Import Entry Heap Map Shard Cache Cmds CmdTable CmdFrame Samples Server KvServer.

(** ** Postgres *)

Lemma parse_cstr_occurs d : ∀ s rest, parse_cstr d = Some (s, rest) → occurs s d.
Proof.
  assert (H : ∀ s rest, parse_cstr d = Some (s, rest) → d = s ++ 0 :: rest).
  { induction d as [|c d IH]; cbn [parse_cstr]; intros s rest; [discriminate|]. destruct (c =? 0) eqn:E0.
    - zb. intros [= <- <-]. now subst c.
    - destruct (parse_cstr d) as [[s' p]|]; [|discriminate]. cbn. intros [= <- <-]. cbn. f_equal. now apply IH. }
  intros s rest E%H. now exists [], (0 :: rest).
Qed.

Section Login.
Context (auth : bytes).

(** Only the password message marks the connection as logged in. *)
Lemma parse_body_auth c body p m :
  parse_body auth c body p = Some m → ¬ occurs auth body → pg_auth (ms_pg m) = pg_auth p.
Proof.
  intros E Hno. unfold parse_body in E.
  destruct (c =? 81); [unfold parseQ in E; branches E; now repeat case_match|].
  destruct (c =? 80); [unfold parseP in E; branches E; now repeat case_match|].
  destruct (c =? 88); [injection E as <-; now destruct body|].
  destruct (c =? 69); [unfold parseE in E; branches E; now repeat case_match|].
  destruct (c =? 112); [|destruct (c =? 68)].
  - injection E as <-. unfold parsep. destruct (parse_cstr body) as [[password d]|] eqn:Ec; [|easy]. cbn.
    destruct (parse_end d); [|easy]. cbn. case_bool_decide as Hp; [|easy]. subst auth. now apply parse_cstr_occurs in Ec.
  - injection E as <-. unfold parseD. now repeat case_match.
  - destruct (c =? 66); [injection E as <-; unfold parseB; now repeat case_match|].
    destruct (c =? 83); [injection E as <-; now destruct body|]. now injection E as <-.
Qed.

Lemma parse_postgres_auth p data r p' :
  parse_postgres auth p data = Some (r, p') → ¬ occurs auth data → pg_auth p' = pg_auth p.
Proof.
  unfold parse_postgres. intros E Hno. destruct data as [|c data]; [now injection E as <- <-|]. destruct (c =? 0).
  - injection E as E. change p' with (r, p').2. rewrite <- E. unfold parse_magic, parse_magic_proto3, finish.
    repeat case_if; reflexivity.
  - unfold parse_message in E. do 3 (destruct (_ : bool) in E; [first [discriminate|now injection E as <- <-]|]).
    destruct (parse_body _ _ _ _) as [m|] eqn:Em; [|discriminate]. cbn in E. injection E as <- <-.
    cbn [ms_pg]. rewrite (parse_body_auth _ _ _ _ Em); [easy|]. intros H. apply Hno.
    eapply occurs_trans; [exact H|]. eapply occurs_trans; [apply occurs_take|apply occurs_drop].
Qed.

(** What any parser does with data that does not hold the password: it accepts no
    HTTP request and does not log the connection in. *)
Lemma parse_command_auth p pg data r pg' :
  parse_command true auth (parse_postgres auth) p pg data = Some (r, pg') → ¬ occurs auth data →
  (pr_proto r = PROTO_HTTP → pr_n r <= 0) ∧ pg_auth pg' = pg_auth pg.
Proof.
  intros E Hno.
  assert (H : ∀ q, parse_proto true auth (parse_postgres auth) q pg data = Some (r, pg') →
    (pr_proto r = PROTO_HTTP → pr_n r <= 0) ∧ pg_auth pg' = pg_auth pg).
  { intros q Eq. destruct q; cbn [parse_proto] in Eq.
    - now injection Eq as <- <-.
    - branches Eq. easy.
    - destruct (parse_postgres auth pg data) as [[[[n args] err] pg1]|] eqn:Ep; [|discriminate]. injection Eq as <- <-.
      split; [easy|]. exact (parse_postgres_auth _ _ _ _ Ep Hno).
    - injection Eq as <- <-. split; [|easy]. intros _. cbn. destruct (Z.le_gt_cases (hr_n (parse_http true auth data)) 0); [easy|].
      destruct Hno. now apply http_password.
    - destruct (head data); [|discriminate]. cbn in Eq. destruct (_ =? 42).
      + destruct (parse_resp data) as [[[n args] err]|]; [|discriminate]. now injection Eq as <- <-.
      + injection Eq as <- <-. now destruct (parse_resp_telnet data) as [[n args] err]. }
  unfold parse_command in E. destruct (decide (p = PROTO_NONE)); [|now apply (H p)].
  destruct (sniff_proto data) as [q|]; [|discriminate]. cbn in E. destruct (decide _) as [->|]; [now injection E as <- <-|now apply (H q)].
Qed.
End Login.

(** ** The commands of a stream *)

(** The arguments of the command that a turn of the event loop executes, after
    Postgres has taken off the type. *)
Definition turn_command (c : conn job) : option (list bytes) :=
  match c_args c, c_proto c with
  | [], _ => None
  | _, PROTO_POSTGRES =>
      if pg_ready (c_pg c) then let '(go, c) := pg_precommand c in if go then Some (c_args c) else None else None
  | args, _ => Some args
  end.

(** The connection has not given the password, and no password message waits to be
    answered. *)
Definition locked (c : conn job) : Prop := c_auth c = false ∧ pg_auth (c_pg c) = false.

Lemma precommand_keeps (c : conn job) :
  let c' := (pg_precommand c).2 in
  c_auth c' = c_auth c ∧ pg_auth (c_pg c') = pg_auth (c_pg c) ∧ c_proto c' = c_proto c ∧
  ((pg_precommand c).1 = true → c_args c ≠ [] → c_args c' ≠ []).
Proof.
  unfold pg_precommand, pg_write_completef, pg_write_complete, pg_write_ready.
  repeat case_match; cbn; repeat split; try easy; congruence.
Qed.

Lemma respond_keeps auth version lasterr (c : conn job) ok c' :
  pg_respond auth version lasterr c = Some (ok, c') → locked c → locked c'.
Proof.
  intros E [H1 H2]. unfold pg_respond in E.
  destruct (pg_error _).
  { injection E as _ <-. assert (appends c (conn_write_error c lasterr)) as [bs ->]; [auto with writes|]. now split. }
  rewrite H2 in E. unfold write_auth_ok, pg_write_status, pg_write_ready in E. branches E; cbn; repeat case_if; now split.
Qed.

Section Access.
Context `{Env} (cfg : config) (cmdDEBUG cmdSTATS : cmd unit) (version : bytes).

#[local] Instance access_server : Conn.Server server job :=
  pogocache_server cfg cmdDEBUG cmdSTATS version (parse_postgres (g_auth cfg)).

(** The commands that the event loop executes on the data, in order. *)
Fixpoint commands (fuel : nat) (s : server) (c : conn job) (data : bytes) : list (list bytes) :=
  match fuel with
  | O => []
  | S fuel =>
      match parse_command (g_useauth cfg) (g_auth cfg) (parse_postgres (g_auth cfg)) (c_proto c) (c_pg c) data with
      | None => []
      | Some (r, p) =>
          let c := set_parsed c r p in
          (if 0 <? pr_n r then option_list (turn_command c) else []) ++
          match ev_turn s c r with
          | Some (Advance s c n) => commands fuel s c (drop (Z.to_nat n) data)
          | _ => []
          end
      end
  end.

(** The same for a packet that arrives. *)
Definition packet_commands (s : server) (c : conn job) (ev : bytes) : list (list bytes) :=
  let data := c_packet c ++ ev in
  commands (length data) s (if (length (c_packet c) =? 0)%nat then c else set_packet c data) data.

(** A command of a locked connection changes nothing but the connection. *)
Lemma locked_command s c :
  g_useauth cfg = true → locked c → c_proto c ≠ PROTO_HTTP → c_args c ≠ [] → ¬ gives_password cfg (c_args c) →
  ∃ c', sv_evcommand s c = Some (s, c') ∧ locked c'.
Proof.
  intros Hu [H1 H2] Hp Hne Hno.
  destruct (locked_out_step cfg cmdDEBUG cmdSTATS s c (conj Hu (conj H1 Hp)) Hne) as (c' & E & _ & Ha & Hg).
  exists c'. cbn [sv_evcommand access_server pogocache_server]. rewrite E. split; [reflexivity|]. split; [|now rewrite Hg].
  destruct (c_auth c'); [|easy]. destruct Hno. now apply Ha.
Qed.

(** One turn. *)
Lemma locked_turn s c data r p t :
  g_useauth cfg = true → locked c → ¬ occurs (g_auth cfg) data →
  parse_command (g_useauth cfg) (g_auth cfg) (parse_postgres (g_auth cfg)) (c_proto c) (c_pg c) data = Some (r, p) →
  (0 < pr_n r → ∀ args, turn_command (set_parsed c r p) = Some args → ¬ gives_password cfg args) →
  ev_turn s (set_parsed c r p) r = Some t →
  match t with Break s' c' | Advance s' c' _ => s' = s ∧ locked c' end.
Proof.
  intros Hu [H1 H2] Hno Hr Hcmd Ht. rewrite Hu in Hr.
  destruct (parse_command_auth _ _ _ _ _ _ Hr Hno) as [Hh Hpg].
  assert (Hn : consumes data (pr_n r)).
  { apply (parse_command_progress _ _ _ (λ p0 d r0 p1, parse_postgres_consumes (g_auth cfg) p0 d r0 p1) _ _ _ _ _ Hr). }
  set (c1 := set_parsed c r p) in *.
  assert (L1 : locked c1) by (split; [exact H1|cbn; now rewrite Hpg]).
  assert (Happ : ∀ err, locked (conn_write_error c1 err)).
  { intros err. assert (appends c1 (conn_write_error c1 err)) as [bs ->]; [auto with writes|exact L1]. }
  unfold ev_turn in Ht. destruct (pr_n r =? 0) eqn:E0; [now injection Ht as <-|].
  destruct (pr_n r =? -1) eqn:E1.
  { cbn zeta in Ht. pose proof (Happ (pr_err r)). branches Ht; now split. }
  zb. assert (Hpos : 0 < pr_n r) by (destruct Hn; lia). specialize (Hcmd Hpos).
  assert (Hhttp : c_proto c1 ≠ PROTO_HTTP) by (intros E; specialize (Hh E); lia).
  assert (Hrun : ∀ c2, locked c2 → c_proto c2 ≠ PROTO_HTTP → c_args c2 ≠ [] → ¬ gives_password cfg (c_args c2) →
    ('(w, c3) ← sv_evcommand s c2; Some (Advance w c3 (pr_n r))) = Some t →
    match t with Break s' c' | Advance s' c' _ => s' = s ∧ locked c' end).
  { intros c2 L2 Hp Hne Hg E. destruct (locked_command s c2 Hu L2 Hp Hne Hg) as (c' & E' & L). rewrite E' in E.
    cbn in E. now injection E as <-. }
  unfold turn_command in Hcmd. destruct (c_args c1) as [|a args] eqn:Ea, (c_proto c1) eqn:Ep; try easy; try (now injection Ht as <-).
  - destruct (pg_respond _ _ _ _) as [[ok c']|] eqn:Er; [|discriminate]. cbn in Ht.
    pose proof (respond_keeps _ _ _ _ _ _ Er L1). destruct ok; now injection Ht as <-.
  - apply (Hrun c1 L1); [now rewrite Ep|now rewrite Ea|rewrite Ea; now apply Hcmd|exact Ht].
  - apply (Hrun c1 L1); [now rewrite Ep|now rewrite Ea|rewrite Ea; now apply Hcmd|exact Ht].
  - destruct (pg_ready (c_pg c1)); cbn [negb] in Ht; [|now injection Ht as <-].
    destruct (precommand_keeps c1) as (K1 & K2 & K3 & K4). destruct (pg_precommand c1) as [go c2]. cbn [fst snd] in K1, K2, K3, K4.
    assert (L2 : locked c2) by (split; [rewrite K1; apply L1|rewrite K2; apply L1]).
    destruct go; [|now injection Ht as <-].
    apply (Hrun c2 L2); [now rewrite K3, Ep|apply K4; [easy|now rewrite Ea]|now apply Hcmd|exact Ht].
  - apply (Hrun c1 L1); [now rewrite Ep|now rewrite Ea|rewrite Ea; now apply Hcmd|exact Ht].
Qed.

Lemma locked_loop fuel : ∀ s c data s' c' rest,
  g_useauth cfg = true → locked c → ¬ occurs (g_auth cfg) data →
  Forall (λ args, ¬ gives_password cfg args) (commands fuel s c data) →
  ev_loop fuel s c data = Ended s' c' rest → s' = s ∧ locked c'.
Proof.
  induction fuel as [|fuel IH]; intros s c data s' c' rest Hu Hl Hno Hcmds E; cbn [ev_loop] in E.
  { destruct (_ || _) in E; [now injection E as <- <- _|discriminate]. }
  destruct (_ || _) in E; [now injection E as <- <- _|]. cbn [commands] in Hcmds.
  change (sv_useauth) with (g_useauth cfg) in E. change sv_auth with (g_auth cfg) in E.
  change sv_parse_postgres with (parse_postgres (g_auth cfg)) in E.
  destruct (parse_command _ _ _ _ _ _) as [[r p]|] eqn:Ep; [|discriminate].
  apply Forall_app in Hcmds as [Hnow Hlater].
  destruct (ev_turn s (set_parsed c r p) r) as [t|] eqn:Et; [|discriminate].
  pose proof (locked_turn s c data r p t Hu Hl Hno Ep) as Hturn.
  assert (Hargs : 0 < pr_n r → ∀ args, turn_command (set_parsed c r p) = Some args → ¬ gives_password cfg args).
  { intros Hn args Ea. rewrite (proj2 (Z.ltb_lt _ _) Hn), Ea in Hnow. now inversion Hnow. }
  specialize (Hturn Hargs Et). destruct t as [s1 c1|s1 c1 n]; [injection E as <- <- _; exact Hturn|].
  destruct Hturn as [-> Hl1]. destruct (c_bg c1); [injection E as <- <- _; now split|].
  revert E. case_decide as Eh; intros E.
  - destruct (drop _ _) as [|b d] eqn:Ed; destruct fuel; cbn in E; try (injection E as <- <- _); now split.
  - apply (IH s c1 (drop (Z.to_nat n) data) s' c' rest Hu Hl1); [|exact Hlater|exact E].
    intros Ho. apply Hno. eapply occurs_trans; [exact Ho|apply occurs_drop].
Qed.

(** C14: With a password configured, a client that does not give it gets nowhere, in
    any of the protocols. A command of a connection that has not given the
    password, RESP, memcache or Postgres, leaves the state of the server as it
    is, and opens the connection only if it is AUTH with exactly the password.
    And whatever packet arrives on such a connection, of any protocol, if the
    password does not stand in it and no command in it is AUTH with the password
    (a quoted argument may spell it in other bytes), the state of the server
    stays as it is and the connection locked out; this covers HTTP requests and
    the password message of Postgres. The server is the one with all of its
    parsers; a packet on which a parser is undefined is excluded. *)
Theorem locked_out_does_nothing :
  g_useauth cfg = true →
  (∀ s c, c_auth c = false → c_proto c ≠ PROTO_HTTP → c_args c ≠ [] →
    ∃ c', evcommand cfg cmdDEBUG cmdSTATS s c = Some (tt, s, c') ∧
      (c_auth c' = true ↔ gives_password cfg (c_args c))) ∧
  (∀ s c ev s' c', locked c → ¬ occurs (g_auth cfg) (c_packet c ++ ev) →
    Forall (λ args, ¬ gives_password cfg args) (packet_commands s c ev) →
    evdata s c ev = Some (s', c') → s' = s ∧ locked c').
Proof.
  intros Hu. split.
  - intros s c Ha Hp Hne.
    destruct (locked_out_step cfg cmdDEBUG cmdSTATS s c (conj Hu (conj Ha Hp)) Hne) as (c' & E & _ & Hg & _). now exists c'.
  - intros s c ev s' c' Hl Hno Hcmds. unfold evdata. destruct (c_closed c); [intros [= <- <-]; now split|].
    unfold packet_commands in Hcmds. cbv zeta in *.
    set (c0 := if _ : bool then c else _) in *. assert (Hl0 : locked c0) by (unfold c0; now case_if).
    destruct (ev_loop _ _ _ _) as [s1 c1 rest| |] eqn:E; [|discriminate..].
    destruct (locked_loop _ _ _ _ _ _ _ Hu Hl0 Hno Hcmds E) as [-> Hl1]. destruct (c_closed c1); intros [= <- <-]; now split.
Qed.
End Access.

(** ** Samples *)

Lemma occurs_elem b s data : existsb (Z.eqb b) s = true → existsb (Z.eqb b) data = false → ¬ occurs s data.
Proof. intros Hb Hn (x & y & ->). rewrite !existsb_app, Hb, orb_true_r in Hn. discriminate. Qed.

(** A connection of the Postgres protocol that is past its startup message. *)
Definition pg_client : conn job :=
  Conn [] false None false [] PROTO_POSTGRES false false false 0 []
    (Pg false true false true false false false false false false false false None TEXTOID (PgOwn ∅ ∅ [] [] [] [])).

(** Packets of the four protocols that would store something. *)
Definition locked_packets : list (conn job * bytes) :=
  [(conn_open false, str "set x 0 0 1" ++ crlf ++ str "y" ++ crlf);
   (conn_open false, str "*3" ++ crlf ++ str "$3" ++ crlf ++ str "SET" ++ crlf ++ str "$1" ++ crlf ++ str "x" ++ crlf ++ str "$1" ++ crlf ++ str "y" ++ crlf);
   (conn_open false, str "PUT /x HTTP/1.1" ++ crlf ++ str "Content-Length: 1" ++ crlf ++ crlf ++ str "y");
   (pg_client, pg_message 81 (str "SET x y" ++ [0]));
   (pg_client, pg_message 112 (str "secret" ++ [0]))].

Definition config_z : config := Config true (str "zz") [] 0 7 0.

Lemma locked_out_does_nothing_witness :
  let H := pogocache_server config_z (mret tt) (mret tt) [] (parse_postgres (str "zz")) in
  Forall (λ cp, ∃ c', evdata server3 cp.1 cp.2 = Some (server3, c') ∧ locked c' ∧ c_out c' ≠ []) locked_packets ∧
  (∃ c', evcommand config_z (mret tt) (mret tt) server3 (set_args pg_client [str "auth"; str "zz"]) = Some (tt, server3, c') ∧
    c_auth c' = true).
Proof.
  intros H. pose proof (locked_out_does_nothing config_z (mret tt) (mret tt) [] eq_refl) as [H1 H2]. split.
  - assert (Hall : ∀ cp, cp ∈ locked_packets → ∃ s' c', evdata server3 cp.1 cp.2 = Some (s', c') ∧ c_out c' ≠ []).
    { assert (Hrun : forallb (λ cp, match evdata server3 cp.1 cp.2 with
          | Some (_, c') => negb (length (c_out c') =? 0)%nat | None => false end) locked_packets = true) by (vm_compute; reflexivity).
      rewrite forallb_forall in Hrun. intros cp Hin%list_elem_of_In. specialize (Hrun cp Hin).
      destruct (evdata server3 cp.1 cp.2) as [[s' c']|]; [|discriminate]. exists s', c'. split; [reflexivity|].
      intros E. now rewrite E in Hrun. }
    assert (Hno : ∀ cp, cp ∈ locked_packets → locked cp.1 ∧ ¬ occurs (str "zz") (c_packet cp.1 ++ cp.2)).
    { apply Forall_forall. repeat constructor; apply (occurs_elem 122); reflexivity. }
    assert (Hcmds : ∀ cp, cp ∈ locked_packets →
      Forall (λ args, ¬ gives_password config_z args) (packet_commands config_z (mret tt) (mret tt) [] server3 cp.1 cp.2)).
    { apply Forall_forall. repeat constructor; vm_compute; repeat constructor; intros (n & _ & E); discriminate. }
    apply Forall_forall. intros cp Hin. destruct (Hall cp Hin) as (s' & c' & E & Hout). destruct (Hno cp Hin) as [Hl Ho].
    destruct (H2 server3 cp.1 cp.2 s' c' Hl Ho (Hcmds cp Hin) E) as [-> Hl']. now exists c'.
  - destruct (H1 server3 (set_args pg_client [str "auth"; str "zz"])) as (c' & E & Ha); [reflexivity|discriminate|discriminate|].
    exists c'. split; [exact E|]. apply Ha. exists (str "auth"). split; reflexivity.
Defined.
