(* ===== verification/Hashmap.v ===== *)
(** * Hashmap: the map of prepared statements and portals

    [src/src/hashmap.c], as far as the server uses it: creation, growing,
    [hashmap_set], [hashmap_get], [hashmap_iter] and the hash [hashmap_murmur].
    It is a map with Robin Hood hashing: a bucket holds 48 bits of the hash, the
    distance from the home of the hash plus one in 16 bits, zero for a free
    bucket, and the item. Items are of any type; the callbacks [hash] and
    [compare] are parameters of the operations, and so is whether the allocator
    has memory. The load factor and the growth are those of a new map, which
    nothing changes. [None] is an access out of bounds or a loop that does not
    end. The second part proves that it is a finite map, with the Robin Hood
    hashing of [Ring.v]. *)

From S2P Require Import Prelude Util Ring Resp Memcache Http Parse Conn Postgres.

(** ** The hash *)

Definition rotl32 (x r : Z) : Z := u32 (x .<< r) .| (x .>> (32 - r)).
Definition fmix32 (h : Z) : Z :=
  let h := h .^ (h .>> 16) in
  let h := u32 (h * 0x85ebca6b) in
  let h := h .^ (h .>> 13) in
  let h := u32 (h * 0xc2b2ae35) in
  h .^ (h .>> 16).

(** [k *= c; k = ROTL32(k, r); k *= c'; h ^= k]. *)
Definition mm_mix (h k c r c' : Z) : Z := h .^ u32 (rotl32 (u32 (k * c)) r * c').
(** [h = ROTL32(h, r); h += g; h = h*5 + a]. *)
Definition mm_turn (h r g a : Z) : Z := u32 (u32 (u32 (rotl32 h r + g) * 5) + a).

Definition mm_state : Type := Z * Z * Z * Z.

(** One block of sixteen bytes, and all blocks. *)
Definition mm_block (data : bytes) (s : mm_state) : mm_state :=
  let '(h1, h2, h3, h4) := s in
  let k i := read_u32 (take 4 (drop (4 * i) data)) in
  let h1 := mm_turn (mm_mix h1 (k 0%nat) 0x239b961b 15 0xab0e9789) 19 h2 0x561ccd1b in
  let h2 := mm_turn (mm_mix h2 (k 1%nat) 0xab0e9789 16 0x38b34ae5) 17 h3 0x0bcaa747 in
  let h3 := mm_turn (mm_mix h3 (k 2%nat) 0x38b34ae5 17 0xa1e38b93) 15 h4 0x96cd1c35 in
  let h4 := mm_turn (mm_mix h4 (k 3%nat) 0xa1e38b93 18 0x239b961b) 13 h1 0x32ac3b17 in
  (h1, h2, h3, h4).
Fixpoint mm_blocks (n : nat) (data : bytes) (s : mm_state) : mm_state :=
  match n with
  | O => s
  | S n => mm_blocks n (drop 16 data) (mm_block (take 16 data) s)
  end.

(** The switch over the bytes that are left; the bytes behind them are zero here,
    and a word that is zero changes nothing. *)
Definition mm_tail (tail : bytes) (s : mm_state) : mm_state :=
  let '(h1, h2, h3, h4) := s in
  let t i := nth i tail 0 in
  let k i := t i .^ (t (i + 1)%nat .<< 8) .^ (t (i + 2)%nat .<< 16) .^ (t (i + 3)%nat .<< 24) in
  let k4 := t 12%nat .^ (t 13%nat .<< 8) .^ (t 14%nat .<< 16) in
  (mm_mix h1 (k 0%nat) 0x239b961b 15 0xab0e9789, mm_mix h2 (k 4%nat) 0xab0e9789 16 0x38b34ae5,
   mm_mix h3 (k 8%nat) 0x38b34ae5 17 0xa1e38b93, mm_mix h4 k4 0xa1e38b93 18 0x239b961b).

Definition MM86128 (data : bytes) (seed : Z) : Z :=
  let len := u32 (Z.of_nat (length data)) in
  let nblocks := (length data / 16)%nat in
  let seed := u32 seed in
  let '(h1, h2, h3, h4) := mm_tail (drop (16 * nblocks) data) (mm_blocks nblocks data (seed, seed, seed, seed)) in
  let '(h1, h2, h3, h4) := (h1 .^ len, h2 .^ len, h3 .^ len, h4 .^ len) in
  let h1 := u32 (u32 (u32 (h1 + h2) + h3) + h4) in
  let '(h2, h3, h4) := (u32 (h2 + h1), u32 (h3 + h1), u32 (h4 + h1)) in
  let '(h1, h2, h3, h4) := (fmix32 h1, fmix32 h2, fmix32 h3, fmix32 h4) in
  let h1 := u32 (u32 (u32 (h1 + h2) + h3) + h4) in
  let h2 := u32 (h2 + h1) in
  (h2 .<< 32) .| h1.

Definition hashmap_murmur (data : bytes) (seed0 seed1 : Z) : Z := MM86128 data seed0.

(** ** The map *)

Definition clip_hash48 (hash : Z) : Z := hash .& 0xFFFFFFFFFFFF.

(** [struct bucket] with the item behind it. *)
Record hbucket (A : Type) := HBucket { hb_hash : Z; hb_dib : Z; hb_item : A }.
Arguments HBucket {A}. Arguments hb_hash {A}. Arguments hb_dib {A}. Arguments hb_item {A}.

(** The fields of [struct hashmap] that change. *)
Record hashmap (A : Type) := HMap {
  h_cap : Z; h_nbuckets : Z; h_count : Z; h_mask : Z; h_growat : Z; h_shrinkat : Z; h_oom : bool; h_buckets : list (hbucket A)
}.
Arguments HMap {A}. Arguments h_cap {A}. Arguments h_nbuckets {A}. Arguments h_count {A}. Arguments h_mask {A}.
Arguments h_growat {A}. Arguments h_shrinkat {A}. Arguments h_oom {A}. Arguments h_buckets {A}.

Section Hashmap.
Context {A : Type} (zero : A) (hash : A → Z) (compare : A → A → Z).

Definition set_hdib (b : hbucket A) (dib : Z) : hbucket A := HBucket (hb_hash b) (dib mod 2 ^ 16) (hb_item b).

(** [bucket_at], read and written. *)
Definition bucket_get (bs : list (hbucket A)) (i : Z) : option (hbucket A) := if i <? 0 then None else bs !! Z.to_nat i.
Definition bucket_put (bs : list (hbucket A)) (i : Z) (b : hbucket A) : list (hbucket A) := <[Z.to_nat i := b]> bs.

(** The loop that doubles the capacity. *)
Fixpoint round_cap (fuel : nat) (ncap cap : Z) : option Z :=
  match fuel with
  | O => None
  | S fuel => if ncap <? cap then round_cap fuel (ncap * 2) cap else Some ncap
  end.

(** [hashmap_new_with_allocator]: nothing in the inner option without memory. *)
Definition hashmap_new (mem : bool) (cap : Z) : option (option (hashmap A)) :=
  cap ← (if cap <? 16 then Some 16 else round_cap 64 16 cap);
  Some (if mem then
          Some (HMap cap cap 0 (cap - 1) (cap * 60 / 100) (cap * 10 / 100) false
            (repeat (HBucket 0 0 zero) (Z.to_nat cap)))
        else None).

(** The inner loop of [resize0]. *)
Fixpoint resize0_place (fuel : nat) (mask : Z) (bs : list (hbucket A)) (j : Z) (entry : hbucket A) : option (list (hbucket A)) :=
  match fuel with
  | O => None
  | S fuel =>
      b ← bucket_get bs j;
      if hb_dib b =? 0 then Some (bucket_put bs j entry)
      else
        let '(bs, entry) := if hb_dib b <? hb_dib entry then (bucket_put bs j entry, b) else (bs, entry) in
        resize0_place fuel mask bs ((j + 1) .& mask) (set_hdib entry (hb_dib entry + 1))
  end.
Fixpoint resize0_loop (old : list (hbucket A)) (mask : Z) (bs : list (hbucket A)) : option (list (hbucket A)) :=
  match old with
  | [] => Some bs
  | entry :: old =>
      if hb_dib entry =? 0 then resize0_loop old mask bs
      else
        bs ← resize0_place (S (length bs)) mask bs (hb_hash entry .& mask) (set_hdib entry 1);
        resize0_loop old mask bs
  end.

(** [resize0]: whether there was memory, and the map. *)
Definition resize0 (mem : bool) (m : hashmap A) (new_cap : Z) : option (bool * hashmap A) :=
  m2 ← hashmap_new mem new_cap;
  match m2 with
  | None => Some (false, m)
  | Some m2 =>
      bs ← resize0_loop (take (Z.to_nat (h_nbuckets m)) (h_buckets m)) (h_mask m2) (h_buckets m2);
      Some (true, HMap (h_cap m) (h_nbuckets m2) (h_count m) (h_mask m2) (h_growat m2) (h_shrinkat m2) (h_oom m) bs)
  end.

(** The loop of [hashmap_set_with_hash]: the item that was replaced, if any. *)
Fixpoint set_loop (fuel : nat) (mask : Z) (bs : list (hbucket A)) (i : Z) (entry : hbucket A)
    : option (option A * list (hbucket A)) :=
  match fuel with
  | O => None
  | S fuel =>
      b ← bucket_get bs i;
      if hb_dib b =? 0 then Some (None, bucket_put bs i entry)
      else if (hb_hash entry =? hb_hash b) && (compare (hb_item entry) (hb_item b) =? 0) then
        Some (Some (hb_item b), bucket_put bs i (HBucket (hb_hash b) (hb_dib b) (hb_item entry)))
      else
        let '(bs, entry) := if hb_dib b <? hb_dib entry then (bucket_put bs i entry, b) else (bs, entry) in
        set_loop fuel mask bs ((i + 1) .& mask) (set_hdib entry (hb_dib entry + 1))
  end.

Definition set_hoom (oom : bool) (m : hashmap A) : hashmap A :=
  HMap (h_cap m) (h_nbuckets m) (h_count m) (h_mask m) (h_growat m) (h_shrinkat m) oom (h_buckets m).

Definition hashmap_set_with_hash (mem : bool) (m : hashmap A) (item : A) (hash : Z) : option (option A * hashmap A) :=
  let hash := clip_hash48 hash in
  let m := set_hoom false m in
  '(ok, m) ← (if h_growat m <=? h_count m then resize0 mem m (h_nbuckets m * 2) else Some (true, m));
  if negb (ok : bool) then Some (None, set_hoom true m)
  else
    '(old, bs) ← set_loop (S (length (h_buckets m))) (h_mask m) (h_buckets m) (hash .& h_mask m) (HBucket hash 1 item);
    Some (old, HMap (h_cap m) (h_nbuckets m) (match old with None => h_count m + 1 | Some _ => h_count m end)
                 (h_mask m) (h_growat m) (h_shrinkat m) (h_oom m) bs).
Definition hashmap_set (mem : bool) (m : hashmap A) (item : A) : option (option A * hashmap A) :=
  hashmap_set_with_hash mem m item (clip_hash48 (hash item)).

(** The loop of [hashmap_get_with_hash]. *)
Fixpoint get_loop (fuel : nat) (mask : Z) (bs : list (hbucket A)) (i : Z) (key : A) (hash : Z) : option (option A) :=
  match fuel with
  | O => None
  | S fuel =>
      b ← bucket_get bs i;
      if hb_dib b =? 0 then Some None
      else if (hb_hash b =? hash) && (compare key (hb_item b) =? 0) then Some (Some (hb_item b))
      else get_loop fuel mask bs ((i + 1) .& mask) key hash
  end.
Definition hashmap_get_with_hash (m : hashmap A) (key : A) (hash : Z) : option (option A) :=
  let hash := clip_hash48 hash in
  get_loop (S (length (h_buckets m))) (h_mask m) (h_buckets m) (hash .& h_mask m) key hash.
Definition hashmap_get (m : hashmap A) (key : A) : option (option A) :=
  hashmap_get_with_hash m key (clip_hash48 (hash key)).

(** [hashmap_iter]: the item and the cursor behind it. *)
Fixpoint iter_from (bs : list (hbucket A)) (i : nat) : option (A * nat) :=
  match bs with
  | [] => None
  | b :: bs => if hb_dib b =? 0 then iter_from bs (S i) else Some (hb_item b, S i)
  end.
Definition hashmap_iter (m : hashmap A) (i : nat) : option (A * nat) :=
  iter_from (drop i (take (Z.to_nat (h_nbuckets m)) (h_buckets m))) i.
End Hashmap.

(** The callbacks of [postgres.c], [pg_statement_hash] and [pg_statement_compare] and
    the same for portals: an item is a name and the rest. *)
Definition pg_item_hash {V : Type} (item : bytes * V) : Z := hashmap_murmur item.1 0 0.
Definition pg_item_compare {V : Type} (a b : bytes * V) : Z := lexcmp a.1 b.1.

(** ** The hash map is a finite map

    From a new map on, setting items, also when the table grows, and getting them
    is what a finite map from the keys of the items does, and an iteration visits
    every item once. So the maps of prepared statements and portals are the finite maps
    of [Postgres.v]. The table has at most 2^15 buckets here, which is enough for
    19660 items; a distance then fits the 16 bits it is stored in. *)

Section Proofs.
Context {A : Type} (zero : A) (hash : A → Z) (compare : A → A → Z) (key : A → bytes).

(** The buckets of the map as buckets of a ring. *)
#[local, refine] Instance hashmap_buckets : Buckets (hbucket A) A := {|
  rb_dib := hb_dib; rb_hash := hb_hash; rb_load := hb_item; rb_set_dib := set_hdib; rb_zero := HBucket 0 0 zero; rb_limit := 2 ^ 16
|}.
Proof. { reflexivity. } { intros b d Hd. apply Z.mod_small. exact Hd. } { reflexivity. } { reflexivity. } Defined.

Abbreviation keys l := ((λ p : A * Z, key p.1) <$> l).

Section Loops.
Context (n k : Z) (Hn : n = 2 ^ k) (Hk : 0 <= k <= 15).

Lemma hring x : x .& (n - 1) = x mod n.
Proof. rewrite Hn. apply land_mask. lia. Qed.

Lemma hdib_bound (bs : list (hbucket A)) j f :
  ring_len bs = n → ring_ok bs → ring_dib bs f = 0 → 0 <= j < n → ring_dib bs j + 1 < 2 ^ 16.
Proof.
  intros Hl Hr Hf Hj. pose proof (ring_dib_small bs j Hr (ex_intro _ f Hf)) as Hd. rewrite Hl in Hd.
  assert (n <= 2 ^ 15) by (rewrite Hn; apply Z.pow_le_mono_r; lia). lia.
Qed.

Lemma hget_slot (bs : list (hbucket A)) i : ring_len bs = n → 0 <= i < n → bucket_get bs i = Some (ring_slot bs i).
Proof. intros <-. exact (ring_get_slot bs i). Qed.

(** Offsets from the next slot. *)
Lemma hdib_shift (bs : list (hbucket A)) i t : ring_len bs = n → ring_dib bs ((i + 1) mod n + t) = ring_dib bs (i + (1 + t)).
Proof. intros Hl. apply ring_dib_eq. rewrite Hl, Zplus_mod_idemp_l. f_equal. lia. Qed.

(** ** Placing an item whose key is not there *)

(** A comparison that says that two items are equal only if their keys are. *)
Definition sound (cmp : A → A → Z) : Prop := ∀ a b, cmp a b = 0 → key a = key b.

Lemma place_new cmp (Hcmp : sound cmp) t : ∀ fuel bs j e,
  ring_len bs = n → ring_ok bs → ring_fits bs j e → ring_dib bs (j + Z.of_nat t) = 0 → Z.of_nat t < n → (t < fuel)%nat →
  NoDup (keys ((hb_item e, hb_hash e) :: ring_items bs)) →
  ∃ bs', set_loop cmp fuel (n - 1) bs j e = Some (None, bs') ∧ ring_len bs' = n ∧ ring_ok bs' ∧
    ring_items bs' ≡ₚ (hb_item e, hb_hash e) :: ring_items bs.
Proof.
  induction t as [|t IH]; intros [|fuel] bs j e Hl Hr Hfit Hfree Ht Hf Hdup; try lia;
    pose proof Hfit as [Hj _]; cbn [set_loop]; rewrite (hget_slot bs j Hl) by (rewrite <- Hl; exact Hj); mstep;
    change (hb_dib (ring_slot bs j)) with (ring_dib bs j); destruct (ring_dib bs j =? 0) eqn:E0; zb;
    try (eexists; split; [reflexivity|]; split; [rewrite <- Hl; exact (ring_len_set bs j e)|]; exact (ring_place_free bs j e Hr Hfit E0)).
  { rewrite Z.add_0_r in Hfree. contradiction. }
  assert (Hno : (hb_hash e =? hb_hash (ring_slot bs j)) && (cmp (hb_item e) (hb_item (ring_slot bs j)) =? 0) = false).
  { apply andb_false_iff. right. apply Z.eqb_neq. intros Ec%Hcmp. rewrite fmap_cons in Hdup. apply NoDup_cons in Hdup as [Hnot _].
    apply Hnot. cbn [fst]. rewrite Ec. apply (list_elem_of_fmap_2 (λ p : A * Z, key p.1) _ _ (ring_items_slot bs j E0)). }
  rewrite Hno. clear Hno.
  assert (Hb : ring_dib bs j + 1 < rb_limit) by (apply (hdib_bound bs j _ Hl Hr Hfree); rewrite <- Hl; exact Hj).
  pose proof (ring_place_step bs j e Hr Hfit E0 Hb) as Hstep. change (rb_dib e) with (hb_dib e) in Hstep.
  change (bucket_put bs j e) with (ring_set bs j e).
  destruct (if ring_dib bs j <? hb_dib e then _ else _) as [bs1 e1]. destruct Hstep as (Hl1 & Hr1 & Hfit1 & _ & Hahead & Hperm).
  rewrite hring. rewrite Hl in *.
  destruct (IH fuel bs1 ((j + 1) mod n) (set_hdib e1 (hb_dib e1 + 1))) as (bs' & E & Hl' & Hr' & Hp'); [exact Hl1|exact Hr1|exact Hfit1| |lia|lia| |].
  - rewrite (hdib_shift bs1 j _ Hl1), Hahead by lia. rewrite <- Hfree. f_equal. lia.
  - change (hb_item (set_hdib e1 (hb_dib e1 + 1))) with (hb_item e1). change (hb_hash (set_hdib e1 (hb_dib e1 + 1))) with (hb_hash e1).
    change (rb_load ?x, rb_hash ?x) with (hb_item x, hb_hash x) in Hperm. rewrite Hperm. exact Hdup.
  - exists bs'. split; [exact E|]. split; [exact Hl'|]. split; [exact Hr'|]. rewrite Hp'. exact Hperm.
Qed.

(** [resize0] places an item as [hashmap_set] does, without comparing. *)
Lemma resize0_place_set fuel mask : ∀ bs j e,
  resize0_place fuel mask bs j e = snd <$> set_loop (λ _ _ : A, 1) fuel mask bs j e.
Proof.
  induction fuel as [|fuel IH]; intros bs j e; [reflexivity|]. cbn [resize0_place set_loop].
  destruct (bucket_get bs j) as [b|]; [|reflexivity]. mstep. mstep. destruct (hb_dib b =? 0); [reflexivity|]. change (1 =? 0) with false.
  rewrite andb_false_r. destruct (if hb_dib b <? hb_dib e then _ else _) as [bs1 e1]. apply IH.
Qed.

(** ** Meeting an item *)

Definition hmatch (a : A) (h : Z) (b : hbucket A) : bool := (h =? hb_hash b) && (compare a (hb_item b) =? 0).

(** Putting another item with the same hash into a used bucket. *)
Lemma replace_item (bs : list (hbucket A)) i a :
  ring_ok bs → 0 <= i < ring_len bs → ring_dib bs i ≠ 0 →
  let b := ring_slot bs i in
  let bs' := bucket_put bs i (HBucket (hb_hash b) (hb_dib b) a) in
  ring_len bs' = ring_len bs ∧ ring_ok bs' ∧
  ∃ rest, ring_items bs ≡ₚ (hb_item b, hb_hash b) :: rest ∧ ring_items bs' ≡ₚ (a, hb_hash b) :: rest.
Proof.
  intros Hr Hi Hd b bs'. set (b' := HBucket (hb_hash b) (hb_dib b) a). change bs' with (ring_set bs i b').
  split; [apply ring_len_set|]. destruct (ring_home bs i Hr Hi Hd) as [Hh _]. split.
  - apply (ring_ok_set bs i b' Hr Hi); [apply Hr| |left; exact (ring_next bs i Hr)].
    intros _. split; [exact Hh|]. rewrite ring_dib_set by exact Hi. change (rb_dib b') with (ring_dib bs i).
    destruct (_ =? i); [lia|]. destruct Hr as [_ Hr]. now apply (Hr i).
  - destruct (ring_items_set bs i b' Hi) as (rest & P1 & P2). exists rest.
    rewrite ring_item_used in P1 by exact Hd. rewrite ring_item_used in P2 by exact Hd. now split.
Qed.

(** The loop replaces the first item that matches, when it is not further away
    than the items on the way. *)
Lemma set_found t : ∀ fuel bs i e,
  ring_len bs = n → ring_ok bs → 0 <= i < n → 1 <= hb_dib e →
  (∀ s, 0 <= s <= Z.of_nat t → hb_dib e + s <= ring_dib bs (i + s)) →
  hmatch (hb_item e) (hb_hash e) (ring_slot bs (i + Z.of_nat t)) = true →
  (∃ f, ring_dib bs f = 0) → Z.of_nat t < n → (t < fuel)%nat →
  ∃ old bs' rest, set_loop compare fuel (n - 1) bs i e = Some (Some old, bs') ∧ compare (hb_item e) old = 0 ∧
    ring_len bs' = n ∧ ring_ok bs' ∧ ring_items bs ≡ₚ (old, hb_hash e) :: rest ∧ ring_items bs' ≡ₚ (hb_item e, hb_hash e) :: rest.
Proof.
  induction t as [|t IH]; intros [|fuel] bs i e Hl Hr Hi Hd Hpath Hmatch [f Hfree] Ht Hf; try lia; cbn [set_loop];
    rewrite (hget_slot bs i Hl Hi); mstep; change (hb_dib (ring_slot bs i)) with (ring_dib bs i);
    pose proof (Hpath 0 ltac:(lia)) as H0; rewrite !Z.add_0_r in H0; rewrite (proj2 (Z.eqb_neq (ring_dib bs i) 0)) by lia;
    fold (hmatch (hb_item e) (hb_hash e) (ring_slot bs i)); destruct (hmatch (hb_item e) (hb_hash e) (ring_slot bs i)) eqn:Em.
  1,3: apply andb_true_iff in Em as [Eh Ec]; zb; rewrite <- Hl in Hi;
    destruct (replace_item bs i (hb_item e) Hr Hi ltac:(lia)) as (H1 & H2 & rest & H3 & H4); rewrite Hl in H1;
    eexists _, _, rest; split; [reflexivity|]; rewrite Eh; repeat (split; [assumption|]); exact H4.
  - rewrite Z.add_0_r in Hmatch. congruence.
  - rewrite (proj2 (Z.ltb_ge (ring_dib bs i) (hb_dib e))) by lia. rewrite hring.
    assert (Hb : ring_dib bs i + 1 < 2 ^ 16) by exact (hdib_bound bs i f Hl Hr Hfree Hi).
    assert (Ed : hb_dib (set_hdib e (hb_dib e + 1)) = hb_dib e + 1) by (apply Z.mod_small; lia).
    apply (IH fuel bs ((i + 1) mod n) (set_hdib e (hb_dib e + 1))); try assumption; try lia.
    + apply Z.mod_pos_bound. lia.
    + rewrite Ed. intros s Hs. rewrite (hdib_shift bs i s Hl). specialize (Hpath (1 + s) ltac:(lia)). lia.
    + rewrite (ring_slot_eq bs _ (i + Z.of_nat (S t))); [exact Hmatch|]. rewrite Hl, Zplus_mod_idemp_l. f_equal. lia.
    + now exists f.
Qed.

(** A search finds an item that matches when all buckets on the way are used. *)
Lemma get_found t : ∀ fuel bs i a h,
  ring_len bs = n → 0 <= i < n → (∀ s, 0 <= s <= Z.of_nat t → ring_dib bs (i + s) ≠ 0) →
  hmatch a h (ring_slot bs (i + Z.of_nat t)) = true → (t < fuel)%nat →
  ∃ old, get_loop compare fuel (n - 1) bs i a h = Some (Some old) ∧ compare a old = 0 ∧ (old, h) ∈ ring_items bs.
Proof.
  induction t as [|t IH]; intros [|fuel] bs i a h Hl Hi Hpath Hmatch Hf; try lia; cbn [get_loop];
    rewrite (hget_slot bs i Hl Hi); mstep; change (hb_dib (ring_slot bs i)) with (ring_dib bs i);
    pose proof (Hpath 0 ltac:(lia)) as H0; rewrite Z.add_0_r in H0; rewrite (proj2 (Z.eqb_neq _ _) H0);
    rewrite (Z.eqb_sym (hb_hash _)); fold (hmatch a h (ring_slot bs i)); destruct (hmatch a h (ring_slot bs i)) eqn:Em.
  1,3: apply andb_true_iff in Em as [Eh Ec]; zb; exists (hb_item (ring_slot bs i)); split; [reflexivity|]; split; [exact Ec|];
    rewrite Eh; exact (ring_items_slot bs i H0).
  - rewrite Z.add_0_r in Hmatch. congruence.
  - rewrite hring. apply IH; try assumption; try lia.
    + apply Z.mod_pos_bound. lia.
    + intros s Hs. rewrite (hdib_shift bs i s Hl). apply Hpath. lia.
    + rewrite (ring_slot_eq bs _ (i + Z.of_nat (S t))); [exact Hmatch|]. rewrite Hl, Zplus_mod_idemp_l. f_equal. lia.
Qed.

(** A search ends at a free bucket when no item matches. *)
Lemma get_missing t : ∀ fuel bs i a h,
  ring_len bs = n → 0 <= i < n → ring_dib bs (i + Z.of_nat t) = 0 → (∀ old, (old, h) ∈ ring_items bs → compare a old ≠ 0) →
  (t < fuel)%nat → get_loop compare fuel (n - 1) bs i a h = Some None.
Proof.
  induction t as [|t IH]; intros [|fuel] bs i a h Hl Hi Hfree Hno Hf; try lia; cbn [get_loop];
    rewrite (hget_slot bs i Hl Hi); mstep; change (hb_dib (ring_slot bs i)) with (ring_dib bs i).
  - rewrite Z.add_0_r in Hfree. now rewrite Hfree.
  - destruct (ring_dib bs i =? 0) eqn:E0; [reflexivity|]. zb.
    destruct (hb_hash (ring_slot bs i) =? h) eqn:Eh; cbn [andb].
    + zb. rewrite (proj2 (Z.eqb_neq _ _)); [|apply Hno; rewrite <- Eh; exact (ring_items_slot bs i E0)].
      rewrite hring. apply IH; try assumption; try lia; [apply Z.mod_pos_bound; lia|].
      rewrite (hdib_shift bs i _ Hl), <- Hfree. f_equal. lia.
    + rewrite hring. apply IH; try assumption; try lia; [apply Z.mod_pos_bound; lia|].
      rewrite (hdib_shift bs i _ Hl), <- Hfree. f_equal. lia.
Qed.

(** ** Whole tables *)

Lemma free_ahead (bs : list (hbucket A)) i :
  ring_len bs = n → 0 < n → Z.of_nat (length (ring_items bs)) < n →
  ∃ t, Z.of_nat t < n ∧ ring_dib bs (i + Z.of_nat t) = 0.
Proof.
  intros Hl H0 Hfull. rewrite <- Hl in Hfull. destruct (ring_free_ahead bs i ltac:(lia) (ring_has_free bs Hfull)) as (t & Ht & Hd & _).
  exists (Z.to_nat t). rewrite Z2Nat.id by lia. split; [lia|exact Hd].
Qed.

Lemma table_add cmp (Hcmp : sound cmp) bs e :
  ring_len bs = n → ring_ok bs → Z.of_nat (length (ring_items bs)) < n → hb_dib e = 1 →
  NoDup (keys ((hb_item e, hb_hash e) :: ring_items bs)) →
  ∃ bs', set_loop cmp (S (length bs)) (n - 1) bs (hb_hash e .& (n - 1)) e = Some (None, bs') ∧ ring_len bs' = n ∧ ring_ok bs' ∧
    ring_items bs' ≡ₚ (hb_item e, hb_hash e) :: ring_items bs.
Proof.
  intros Hl Hr Hfull He Hdup. rewrite hring. pose proof Hr as [H0 _].
  destruct (free_ahead bs (hb_hash e mod n) Hl ltac:(lia) Hfull) as (t & Ht & Hd).
  apply (place_new cmp Hcmp t); try assumption; [|unfold ring_len in Hl; lia].
  rewrite <- Hl. exact (ring_fits_home bs e Hr He).
Qed.

(** An item with this hash stands on the way from the home of the hash. *)
Lemma table_path (bs : list (hbucket A)) h j :
  ring_len bs = n → ring_ok bs → Z.of_nat (length (ring_items bs)) < n → 0 <= j < n → ring_dib bs j ≠ 0 → hb_hash (ring_slot bs j) = h →
  ∃ t, Z.of_nat t < n ∧ (∀ s, 0 <= s <= Z.of_nat t → 1 + s <= ring_dib bs (h mod n + s)) ∧
    ring_slot bs (h mod n + Z.of_nat t) = ring_slot bs j.
Proof.
  intros Hl Hr Hfull Hj Hd Hh. rewrite <- Hl in Hj, Hfull. pose proof (ring_dib_small bs j Hr (ring_has_free bs Hfull) Hj) as Hs.
  assert (Hd0 : 0 <= ring_dib bs j) by apply Hr. exists (Z.to_nat (ring_dib bs j - 1)). rewrite Z2Nat.id by lia. split; [lia|].
  assert (Hmod : ∀ s, (h mod n + s) mod ring_len bs = (h + s) mod ring_len bs) by (intros s; rewrite <- Hl; apply Zplus_mod_idemp_l).
  split.
  - intros s Hs'. destruct (ring_path bs j s Hr Hj ltac:(lia)) as [Hp _]. change (rb_hash (ring_slot bs j)) with (hb_hash (ring_slot bs j)) in Hp.
    rewrite Hh in Hp. rewrite (ring_dib_eq bs _ (h + s)) by apply Hmod. lia.
  - assert (H1 : 0 <= ring_dib bs j - 1 < ring_dib bs j) by lia. destruct (ring_path bs j _ Hr Hj H1) as [_ Hp]. specialize (Hp eq_refl).
    change (rb_hash (ring_slot bs j)) with (hb_hash (ring_slot bs j)) in Hp. rewrite Hh in Hp.
    apply ring_slot_eq. rewrite Hmod, Hp. symmetry. apply Z.mod_small. exact Hj.
Qed.

Lemma table_replace bs a h a0 :
  ring_len bs = n → ring_ok bs → Z.of_nat (length (ring_items bs)) < n → (a0, h) ∈ ring_items bs → compare a a0 = 0 →
  ∃ old bs' rest, set_loop compare (S (length bs)) (n - 1) bs (h .& (n - 1)) (HBucket h 1 a) = Some (Some old, bs') ∧ compare a old = 0 ∧
    ring_len bs' = n ∧ ring_ok bs' ∧ ring_items bs ≡ₚ (old, h) :: rest ∧ ring_items bs' ≡ₚ (a, h) :: rest.
Proof.
  intros Hl Hr Hfull (j & Hj & Hd & Ha & Hh)%ring_items_inv Hc. rewrite hring. rewrite Hl in Hj.
  destruct (table_path bs h j Hl Hr Hfull Hj Hd Hh) as (t & Ht & Hpath & Hslot).
  apply (set_found t (S (length bs)) bs (h mod n) (HBucket h 1 a)); try assumption.
  - apply Z.mod_pos_bound. lia.
  - reflexivity.
  - rewrite Hslot. unfold hmatch. cbn [hb_hash hb_item]. change (hb_item (ring_slot bs j)) with (rb_load (ring_slot bs j)).
    change (hb_hash (ring_slot bs j)) with (rb_hash (ring_slot bs j)). rewrite Ha, Hh, Hc, Z.eqb_refl. reflexivity.
  - rewrite <- Hl in Hfull. exact (ring_has_free bs Hfull).
  - unfold ring_len in Hl. lia.
Qed.

Lemma table_get bs a h a0 :
  ring_len bs = n → ring_ok bs → Z.of_nat (length (ring_items bs)) < n → (a0, h) ∈ ring_items bs → compare a a0 = 0 →
  ∃ old, get_loop compare (S (length bs)) (n - 1) bs (h .& (n - 1)) a h = Some (Some old) ∧ compare a old = 0 ∧ (old, h) ∈ ring_items bs.
Proof.
  intros Hl Hr Hfull (j & Hj & Hd & Ha & Hh)%ring_items_inv Hc. rewrite hring. rewrite Hl in Hj.
  destruct (table_path bs h j Hl Hr Hfull Hj Hd Hh) as (t & Ht & Hpath & Hslot).
  apply (get_found t); try assumption.
  - apply Z.mod_pos_bound. lia.
  - intros s Hs. specialize (Hpath s Hs). lia.
  - rewrite Hslot. unfold hmatch. change (hb_item (ring_slot bs j)) with (rb_load (ring_slot bs j)).
    change (hb_hash (ring_slot bs j)) with (rb_hash (ring_slot bs j)). rewrite Ha, Hh, Hc, Z.eqb_refl. reflexivity.
  - unfold ring_len in Hl. lia.
Qed.

Lemma table_miss bs a h :
  ring_len bs = n → 0 < n → Z.of_nat (length (ring_items bs)) < n → (∀ old, (old, h) ∈ ring_items bs → compare a old ≠ 0) →
  get_loop compare (S (length bs)) (n - 1) bs (h .& (n - 1)) a h = Some None.
Proof.
  intros Hl H0 Hfull Hno. rewrite hring. destruct (free_ahead bs (h mod n) Hl H0 Hfull) as (t & Ht & Hd).
  apply (get_missing t); try assumption; [apply Z.mod_pos_bound; lia|]. unfold ring_len in Hl. lia.
Qed.

(** Moving all items to another table. *)
Lemma resize0_loop_spec old : ∀ bs,
  ring_len bs = n → ring_ok bs → NoDup (keys (ring_items old ++ ring_items bs)) →
  Z.of_nat (length (ring_items old ++ ring_items bs)) < n →
  ∃ bs', resize0_loop old (n - 1) bs = Some bs' ∧ ring_len bs' = n ∧ ring_ok bs' ∧ ring_items bs' ≡ₚ ring_items old ++ ring_items bs.
Proof.
  induction old as [|b old IH]; intros bs Hl Hr Hdup Hfull; [exists bs; now repeat (split; [easy|])|].
  cbn [resize0_loop].
  change (ring_items (b :: old)) with (match ring_item b with Some x => x :: ring_items old | None => ring_items old end) in *.
  destruct (hb_dib b =? 0) eqn:E0; zb.
  { assert (Ei : ring_item b = None) by exact (ring_item_free b E0). rewrite Ei in *. now apply IH. }
  assert (Ei : ring_item b = Some (hb_item b, hb_hash b)) by exact (ring_item_used b E0). rewrite Ei in *. rewrite resize0_place_set.
  cbn [app] in Hdup, Hfull. rewrite fmap_cons, fmap_app in Hdup. cbn [length] in Hfull. rewrite length_app in Hfull.
  destruct (table_add (λ _ _, 1) ltac:(intros ? ? [=]) bs (set_hdib b 1)) as (bs1 & E1 & Hl1 & Hr1 & Hp1); try assumption; [lia|reflexivity| |].
  { rewrite fmap_cons. cbn [set_hdib hb_item hb_hash]. apply NoDup_cons in Hdup as [Hnot Hdup]. apply NoDup_app in Hdup as (_ & _ & Hd).
    constructor; [|exact Hd]. intros Hin. apply Hnot. apply elem_of_app. now right. }
  change (hb_hash (set_hdib b 1)) with (hb_hash b) in E1, Hp1. change (hb_item (set_hdib b 1)) with (hb_item b) in Hp1.
  rewrite E1. cbn [fmap option_fmap option_map snd]. mstep.
  assert (Hperm : ring_items old ++ ring_items bs1 ≡ₚ (hb_item b, hb_hash b) :: ring_items old ++ ring_items bs)
    by (rewrite Hp1; symmetry; apply Permutation_middle).
  destruct (IH bs1 Hl1 Hr1) as (bs' & E2 & Hl2 & Hr2 & Hp2).
  - rewrite Hperm, fmap_cons, fmap_app. exact Hdup.
  - rewrite Hperm. cbn [length]. rewrite length_app. lia.
  - exists bs'. split; [exact E2|]. split; [exact Hl2|]. split; [exact Hr2|]. rewrite Hp2, Hperm. reflexivity.
Qed.
End Loops.

(** ** The map *)

(** [compare] decides whether the keys are equal, and [hash] depends on the key. *)
Context (Hcmp : ∀ a b, compare a b = 0 ↔ key a = key b) (Hhash : ∀ a b, key a = key b → hash a = hash b).

(** The buckets that a finite map stands for. *)
Definition entry_of (a : A) : A * Z := (a, clip_hash48 (hash a)).
Definition entries_of (M : gmap bytes A) : list (A * Z) := (λ p, entry_of p.2) <$> map_to_list M.
Definition keyed (M : gmap bytes A) : Prop := ∀ name a, M !! name = Some a → key a = name.

Definition MAX_ITEMS : Z := 19660.

(** The map [m] holds the items of [M]. *)
Record hm_ok (m : hashmap A) (M : gmap bytes A) : Prop := {
  ho_size : ∃ k, 4 <= k <= 15 ∧ h_nbuckets m = 2 ^ k;
  ho_len : ring_len (h_buckets m) = h_nbuckets m;
  ho_mask : h_mask m = h_nbuckets m - 1;
  ho_growat : h_growat m = h_nbuckets m * 60 / 100;
  ho_count : h_count m = Z.of_nat (base.size M) ∧ h_count m <= h_growat m;
  ho_ring : ring_ok (h_buckets m);
  ho_items : ring_items (h_buckets m) ≡ₚ entries_of M;
  ho_keyed : keyed M
}.

Lemma clip_clip x : clip_hash48 (clip_hash48 x) = clip_hash48 x.
Proof. unfold clip_hash48. rewrite <- Z.land_assoc. reflexivity. Qed.

Lemma keys_entries M : keyed M → keys (entries_of M) = (map_to_list M).*1.
Proof.
  intros Hk. unfold entries_of. rewrite <- list_fmap_compose. apply list_fmap_ext. intros i [name a] Hi.
  apply list_elem_of_lookup_2, elem_of_map_to_list in Hi. exact (Hk _ _ Hi).
Qed.

Lemma nodup_entries M : keyed M → NoDup (keys (entries_of M)).
Proof. intros Hk. rewrite keys_entries by exact Hk. apply NoDup_fst_map_to_list. Qed.

Lemma entries_length M : length (entries_of M) = base.size M.
Proof. unfold entries_of. rewrite length_fmap. apply length_map_to_list. Qed.

Lemma elem_of_entries M a h : keyed M → (a, h) ∈ entries_of M ↔ M !! key a = Some a ∧ h = clip_hash48 (hash a).
Proof.
  intros Hk. unfold entries_of. rewrite list_elem_of_fmap. split.
  - intros ([name b] & [= -> ->] & Hb%elem_of_map_to_list). cbn [snd] in *. now rewrite (Hk _ _ Hb).
  - intros [Ha ->]. exists (key a, a). split; [reflexivity|]. now apply elem_of_map_to_list.
Qed.

Lemma entries_of_insert M a : M !! key a = None → entries_of (<[key a := a]> M) ≡ₚ entry_of a :: entries_of M.
Proof. intros Ha. unfold entries_of. rewrite map_to_list_insert by exact Ha. reflexivity. Qed.

Lemma keyed_insert M a : keyed M → keyed (<[key a := a]> M).
Proof. intros Hk name b. rewrite lookup_insert_Some. intros [[<- <-]|[_ Hb]]; [reflexivity|exact (Hk _ _ Hb)]. Qed.

Lemma keyed_delete M name : keyed M → keyed (delete name M).
Proof. intros Hk x b [_ Hb]%lookup_delete_Some. exact (Hk _ _ Hb). Qed.

Lemma load_below n k : 4 <= k → n = 2 ^ k → 9 <= n * 60 / 100 ∧ n * 60 / 100 < n ∧ 16 <= n.
Proof.
  intros Hk ->. assert (16 <= 2 ^ k) by (change 16 with (2 ^ 4); apply Z.pow_le_mono_r; lia). dm.
Qed.

(** A table that holds [M] with a place left. *)
Lemma items_below m M : hm_ok m M → Z.of_nat (length (ring_items (h_buckets m))) < h_nbuckets m.
Proof.
  intros [(k & Hk & En) _ _ Hg [Hc Hcg] _ Hi _]. rewrite Hi, entries_length. pose proof (load_below _ k ltac:(lia) En). lia.
Qed.

Lemma ring_zero j : ring_ok (repeat (HBucket 0 0 zero) (S j)) ∧ ring_items (repeat (HBucket 0 0 zero) (S j)) = [].
Proof.
  assert (Hz : ∀ i, ring_dib (repeat (HBucket 0 0 zero) (S j)) i = 0).
  { intros i. unfold ring_dib, ring_slot. change rb_zero with (HBucket 0 0 zero). now rewrite nth_repeat. }
  split; [split; [unfold ring_len; rewrite repeat_length; lia|]; intros i; rewrite Hz; split; [lia|contradiction]|].
  clear Hz. induction (S j) as [|n IH]; [reflexivity|exact IH].
Qed.

Lemma round_cap_pow fuel : ∀ i k, 0 <= i <= k → k - i < Z.of_nat fuel → round_cap fuel (2 ^ i) (2 ^ k) = Some (2 ^ k).
Proof.
  induction fuel as [|fuel IH]; intros i k Hi Hf; [lia|]. cbn [round_cap]. destruct (2 ^ i <? 2 ^ k) eqn:E; zb.
  - replace (2 ^ i * 2) with (2 ^ (i + 1)) by (rewrite Z.pow_add_r by lia; reflexivity).
    apply IH; [|lia]. apply Z.pow_lt_mono_r_iff in E; lia.
  - f_equal. apply Z.le_antisymm; [apply Z.pow_le_mono_r; lia|exact E].
Qed.

Lemma hashmap_new_pow k : 4 <= k <= 15 →
  hashmap_new zero true (2 ^ k) =
  Some (Some (HMap (2 ^ k) (2 ^ k) 0 (2 ^ k - 1) (2 ^ k * 60 / 100) (2 ^ k * 10 / 100) false (repeat (HBucket 0 0 zero) (Z.to_nat (2 ^ k))))).
Proof.
  intros Hk. unfold hashmap_new. destruct (load_below (2 ^ k) k ltac:(lia) eq_refl) as (_ & _ & H16).
  rewrite (proj2 (Z.ltb_ge (2 ^ k) 16)) by lia. change 16 with (2 ^ 4). rewrite (round_cap_pow 64 4 k) by lia. reflexivity.
Qed.

Lemma hm_new : ∃ m, hashmap_new zero true 0 = Some (Some m) ∧ hm_ok m ∅.
Proof.
  eexists. split; [reflexivity|]. destruct (ring_zero 15) as [Hr Hi]. split; cbn [h_nbuckets h_buckets h_mask h_growat h_count].
  - exists 4. lia.
  - reflexivity.
  - reflexivity.
  - reflexivity.
  - rewrite map_size_empty. split; [reflexivity|vm_compute; discriminate].
  - exact Hr.
  - change (repeat (HBucket 0 0 zero) (Z.to_nat 16)) with (repeat (HBucket 0 0 zero) 16). rewrite Hi. unfold entries_of.
    now rewrite map_to_list_empty.
  - intros name a. rewrite lookup_empty. discriminate.
Qed.

(** Growing keeps the items. *)
Lemma hm_grow m M :
  hm_ok m M → h_growat m <= h_count m → h_count m < MAX_ITEMS →
  ∃ m', resize0 zero true m (h_nbuckets m * 2) = Some (true, m') ∧ hm_ok m' M ∧ h_count m' < h_growat m' ∧ h_oom m' = h_oom m.
Proof.
  unfold MAX_ITEMS. intros [(k & Hk & En) Hl Hm Hg [Hc Hcg] Hr Hi Hkeyed] Hfull Hmax.
  assert (Hk' : k < 15). { destruct (Z.eq_dec k 15) as [->|]; [|lia]. rewrite En in Hg. change (2 ^ 15 * 60 / 100) with 19660 in Hg. lia. }
  destruct (load_below _ k ltac:(lia) En) as (H9 & Hlt & H16).
  unfold resize0. replace (h_nbuckets m * 2) with (2 ^ (k + 1)) by (rewrite En, Z.pow_add_r by lia; reflexivity).
  rewrite hashmap_new_pow by lia. mstep. cbn [h_mask h_buckets h_nbuckets h_growat h_shrinkat].
  destruct (load_below (2 ^ (k + 1)) (k + 1) ltac:(lia) eq_refl) as (_ & Hlt' & H16').
  assert (E2 : 2 ^ (k + 1) = 2 * 2 ^ k) by (rewrite Z.pow_add_r by lia; lia).
  destruct (ring_zero (Z.to_nat (2 ^ (k + 1)) - 1)) as [Hr0 Hi0].
  replace (S (Z.to_nat (2 ^ (k + 1)) - 1)) with (Z.to_nat (2 ^ (k + 1))) in Hr0, Hi0 by lia.
  rewrite take_ge by (unfold ring_len in Hl; lia).
  set (fresh := repeat (HBucket 0 0 zero) (Z.to_nat (2 ^ (k + 1)))) in *.
  assert (Hl0 : ring_len fresh = 2 ^ (k + 1)) by (unfold ring_len, fresh; rewrite repeat_length; lia).
  destruct (resize0_loop_spec (2 ^ (k + 1)) (k + 1) eq_refl ltac:(lia) (h_buckets m) fresh Hl0 Hr0)
    as (bs & -> & Hl' & Hr' & Hi').
  - rewrite Hi0, app_nil_r, Hi. now apply nodup_entries.
  - rewrite Hi0, app_nil_r, Hi, entries_length. lia.
  - mstep. eexists. split; [reflexivity|]. rewrite Hi0, app_nil_r, Hi in Hi'. split; [|split; [|reflexivity]].
    + split; cbn [h_nbuckets h_buckets h_mask h_growat h_count]; try assumption; try reflexivity; [exists (k + 1); lia|].
      split; [exact Hc|]. rewrite E2. rewrite En in *. dm.
    + cbn [h_count h_growat]. rewrite E2. rewrite En in *. dm.
Qed.

Lemma fresh_keys M a : keyed M → M !! key a = None → NoDup (keys (entry_of a :: entries_of M)).
Proof.
  intros Hk Ha. rewrite fmap_cons, keys_entries by exact Hk. constructor; [|apply NoDup_fst_map_to_list].
  cbn [entry_of fst]. intros ([name b] & E & Hb%elem_of_map_to_list)%list_elem_of_fmap. cbn [fst] in E. subst name. congruence.
Qed.

(** Setting an item in a table with a place left. *)
Lemma hm_set_loop m M a :
  hm_ok m M → h_count m < h_growat m →
  ∃ bs, set_loop compare (S (length (h_buckets m))) (h_mask m) (h_buckets m) (clip_hash48 (hash a) .& h_mask m)
      (HBucket (clip_hash48 (hash a)) 1 a) = Some (M !! key a, bs) ∧
    ring_len bs = h_nbuckets m ∧ ring_ok bs ∧ ring_items bs ≡ₚ entries_of (<[key a := a]> M).
Proof.
  intros Hok Hroom. pose proof (items_below m M Hok) as Hbelow. destruct Hok as [(k & Hk & En) Hl Hm Hg [Hc Hcg] Hr Hi Hkeyed].
  rewrite Hm. assert (Hk' : 0 <= k <= 15) by lia. destruct (M !! key a) as [b|] eqn:Eb.
  - assert (Hh : hash b = hash a) by (apply Hhash; exact (Hkeyed _ _ Eb)).
    assert (Hb : (b, clip_hash48 (hash a)) ∈ ring_items (h_buckets m)).
    { rewrite Hi. apply elem_of_entries; [exact Hkeyed|]. rewrite Hh, (Hkeyed _ _ Eb). now split. }
    assert (Hcb : compare a b = 0) by (apply Hcmp; symmetry; exact (Hkeyed _ _ Eb)).
    destruct (table_replace (h_nbuckets m) k En Hk' (h_buckets m) a _ b Hl Hr Hbelow Hb Hcb)
      as (old & bs & rest & E & Hold & Hl' & Hr' & Hp & Hp').
    apply Hcmp in Hold. assert (old = b) as ->.
    { assert (Ho : (old, clip_hash48 (hash a)) ∈ entries_of M) by (rewrite <- Hi, Hp; now left).
      apply elem_of_entries in Ho as [Ho _]; [|exact Hkeyed]. rewrite <- Hold in Ho. congruence. }
    exists bs. split; [exact E|]. split; [exact Hl'|]. split; [exact Hr'|]. rewrite Hp'.
    assert (Hdel : entries_of M ≡ₚ (b, clip_hash48 (hash a)) :: entries_of (delete (key a) M)).
    { rewrite <- (insert_delete_id M (key a) b Eb) at 1. rewrite <- (Hkeyed _ _ Eb).
      rewrite entries_of_insert by apply lookup_delete_eq. unfold entry_of. now rewrite Hh. }
    rewrite <- insert_delete_eq, entries_of_insert by apply lookup_delete_eq. apply perm_skip.
    apply (Permutation_cons_inv (a := (b, clip_hash48 (hash a)))). now rewrite <- Hdel, <- Hi, Hp.
  - destruct (table_add (h_nbuckets m) k En Hk' compare ltac:(intros ? ?; apply Hcmp) (h_buckets m) (HBucket (clip_hash48 (hash a)) 1 a) Hl Hr Hbelow eq_refl)
      as (bs & E & Hl' & Hr' & Hp).
    + cbn [hb_item hb_hash]. rewrite Hi. now apply fresh_keys.
    + exists bs. split; [exact E|]. split; [exact Hl'|]. split; [exact Hr'|]. cbn [hb_item hb_hash] in Hp. rewrite Hp, Hi.
      symmetry. now apply entries_of_insert.
Qed.

Lemma hm_oom m M b : hm_ok m M → hm_ok (set_hoom b m) M.
Proof. intros [H1 H2 H3 H4 H5 H6 H7 H8]. now split. Qed.

Lemma hm_set m M a :
  hm_ok m M → Z.of_nat (base.size M) < MAX_ITEMS →
  ∃ m', hashmap_set zero hash compare true m a = Some (M !! key a, m') ∧ hm_ok m' (<[key a := a]> M).
Proof.
  intros Hok0 Hmax. unfold hashmap_set, hashmap_set_with_hash. rewrite clip_clip. apply (hm_oom m M false) in Hok0.
  set (m0 := set_hoom false m) in *. clearbody m0.
  assert (Hgrown : ∃ m1, (if h_growat m0 <=? h_count m0 then resize0 zero true m0 (h_nbuckets m0 * 2) else Some (true, m0)) = Some (true, m1) ∧
    hm_ok m1 M ∧ h_count m1 < h_growat m1).
  { destruct (h_growat m0 <=? h_count m0) eqn:E; zb; [|now exists m0].
    destruct (hm_grow m0 M Hok0 E) as (m1 & E1 & H1 & H2 & _); [destruct (ho_count _ _ Hok0); lia|]. now exists m1. }
  destruct Hgrown as (m1 & -> & Hok & Hroom). mstep. cbn [negb].
  destruct (hm_set_loop m1 M a Hok Hroom) as (bs & -> & Hl & Hr & Hi). mstep. eexists. split; [reflexivity|].
  destruct Hok as [H1 H2 H3 H4 [Hc Hcg] H6 H7 H8].
  split; cbn [h_nbuckets h_buckets h_mask h_growat h_count]; try assumption; [|now apply keyed_insert].
  destruct (M !! key a) as [b|] eqn:Eb.
  - assert (Hs : base.size (<[key a := a]> M) = base.size M) by (apply map_size_insert_Some; now exists b). rewrite Hs. lia.
  - rewrite (map_size_insert_None _ _ _ Eb). lia.
Qed.

Lemma hm_get m M a : hm_ok m M → hashmap_get hash compare m a = Some (M !! key a).
Proof.
  intros Hok. pose proof (items_below m M Hok) as Hbelow. destruct Hok as [(k & Hk & En) Hl Hm Hg [Hc Hcg] Hr Hi Hkeyed].
  unfold hashmap_get, hashmap_get_with_hash. rewrite clip_clip, Hm. assert (Hk' : 0 <= k <= 15) by lia.
  destruct (M !! key a) as [b|] eqn:Eb.
  - assert (Hh : hash b = hash a) by (apply Hhash; exact (Hkeyed _ _ Eb)).
    assert (Hb : (b, clip_hash48 (hash a)) ∈ ring_items (h_buckets m)).
    { rewrite Hi. apply elem_of_entries; [exact Hkeyed|]. rewrite Hh, (Hkeyed _ _ Eb). now split. }
    assert (Hcb : compare a b = 0) by (apply Hcmp; symmetry; exact (Hkeyed _ _ Eb)).
    destruct (table_get (h_nbuckets m) k En Hk' (h_buckets m) a _ b Hl Hr Hbelow Hb Hcb) as (old & -> & Hold & Ho).
    apply Hcmp in Hold. rewrite Hi in Ho. apply elem_of_entries in Ho as [Ho _]; [|exact Hkeyed]. rewrite <- Hold in Ho. congruence.
  - apply (table_miss (h_nbuckets m) k En Hk'); try assumption; [destruct (load_below _ k ltac:(lia) En); lia|].
    intros old Ho. rewrite Hi in Ho. apply elem_of_entries in Ho as [Ho _]; [|exact Hkeyed]. rewrite Hcmp. congruence.
Qed.

(** ** Iteration *)

(** The items a loop over [hashmap_iter] visits. *)
Fixpoint iter_items (fuel : nat) (m : hashmap A) (i : nat) : list A :=
  match fuel with
  | O => []
  | S fuel => match hashmap_iter m i with None => [] | Some (a, i) => a :: iter_items fuel m i end
  end.

Lemma iter_from_spec (bs : list (hbucket A)) : ∀ i,
  match iter_from bs i with
  | None => ring_items bs = []
  | Some (a, j) => (i < j)%nat ∧ (ring_items bs).*1 = a :: (ring_items (drop (j - i) bs)).*1
  end.
Proof.
  induction bs as [|b bs IH]; intros i; cbn [iter_from]; [reflexivity|].
  change (ring_items (b :: bs)) with (match ring_item b with Some x => x :: ring_items bs | None => ring_items bs end).
  destruct (hb_dib b =? 0) eqn:E; zb.
  - assert (Ei : ring_item b = None) by exact (ring_item_free b E). rewrite Ei. specialize (IH (S i)).
    destruct (iter_from bs (S i)) as [[a j]|]; [|exact IH]. destruct IH as [Hj IH]. split; [lia|].
    rewrite IH. now replace (j - i)%nat with (S (j - S i)) by lia.
  - assert (Ei : ring_item b = Some (hb_item b, hb_hash b)) by exact (ring_item_used b E). rewrite Ei. split; [lia|].
    replace (S i - i)%nat with 1%nat by lia. reflexivity.
Qed.

Lemma iter_items_spec fuel m : ∀ i, ring_len (h_buckets m) = h_nbuckets m → (length (h_buckets m) < fuel + i)%nat →
  iter_items fuel m i = (ring_items (drop i (h_buckets m))).*1.
Proof.
  induction fuel as [|fuel IH]; intros i Hl Hf; cbn [iter_items]; [rewrite drop_ge by lia; reflexivity|].
  unfold hashmap_iter. rewrite take_ge by (unfold ring_len in Hl; lia).
  pose proof (iter_from_spec (drop i (h_buckets m)) i) as Hs. destruct (iter_from _ i) as [[a j]|]; [|now rewrite Hs].
  destruct Hs as [Hj ->]. f_equal. rewrite IH by (assumption || lia). rewrite drop_drop. now replace (i + (j - i))%nat with j by lia.
Qed.

Lemma hm_iter m M : hm_ok m M → iter_items (S (length (h_buckets m))) m 0 ≡ₚ (map_to_list M).*2.
Proof.
  intros Hok. rewrite iter_items_spec by (try apply (ho_len _ _ Hok); lia). rewrite drop_0, (ho_items _ _ Hok). unfold entries_of.
  rewrite <- list_fmap_compose. reflexivity.
Qed.

(** ** Sequences of operations *)

Fixpoint hashmap_sets (m : hashmap A) (items : list A) : option (list (option A) * hashmap A) :=
  match items with
  | [] => Some ([], m)
  | a :: items => '(old, m) ← hashmap_set zero hash compare true m a; '(olds, m) ← hashmap_sets m items; Some (old :: olds, m)
  end.
Fixpoint map_sets (M : gmap bytes A) (items : list A) : list (option A) * gmap bytes A :=
  match items with
  | [] => ([], M)
  | a :: items => let '(olds, M') := map_sets (<[key a := a]> M) items in (M !! key a :: olds, M')
  end.

Lemma hm_sets items : ∀ m M, hm_ok m M → Z.of_nat (base.size M + length items) <= MAX_ITEMS →
  ∃ m', hashmap_sets m items = Some ((map_sets M items).1, m') ∧ hm_ok m' (map_sets M items).2.
Proof.
  induction items as [|a items IH]; intros m M Hok Hmax; cbn [hashmap_sets map_sets]; [now exists m|]. cbn [length] in Hmax.
  destruct (hm_set m M a Hok ltac:(lia)) as (m1 & -> & Hok1). mstep.
  assert (Hsize : (base.size (<[key a := a]> M) <= S (base.size M))%nat).
  { destruct (M !! key a) as [b|] eqn:E; [|rewrite (map_size_insert_None _ _ _ E); lia].
    assert (Hs : base.size (<[key a := a]> M) = base.size M) by (apply map_size_insert_Some; now exists b). lia. }
  destruct (IH m1 (<[key a := a]> M) Hok1 ltac:(lia)) as (m2 & -> & Hok2). mstep.
  destruct (map_sets (<[key a := a]> M) items) as [olds M']. now exists m2.
Qed.
End Proofs.

Lemma hashmap_sets_new {A : Type} (zero : A) (hash : A → Z) (compare : A → A → Z) (key : A → bytes) (items : list A) :
  (∀ a b, compare a b = 0 ↔ key a = key b) → (∀ a b, key a = key b → hash a = hash b) → Z.of_nat (length items) <= MAX_ITEMS →
  ∃ m0 m, hashmap_new zero true 0 = Some (Some m0) ∧
    hashmap_sets zero hash compare m0 items = Some ((map_sets key ∅ items).1, m) ∧ hm_ok zero hash key m (map_sets key ∅ items).2.
Proof.
  intros Hcmp Hhash Hmax. destruct (hm_new zero hash key) as (m0 & E0 & Hok0).
  destruct (hm_sets zero hash compare key Hcmp Hhash items m0 ∅ Hok0) as (m & E & Hok); [now rewrite map_size_empty|]. now exists m0, m.
Qed.

(** C25: The hash map is a finite map. From a new map on, for any sequence of items,
    setting them one after the other, also when the table grows, returns the items
    that were replaced, as a finite map from the keys does; afterwards getting an
    item by its key gives what the finite map holds, and an iteration visits
    exactly its items, each once. This holds for any hash and any comparison that
    respect the keys, for up to 19660 items. *)
Theorem hashmap_is_map {A : Type} (zero : A) (hash : A → Z) (compare : A → A → Z) (key : A → bytes) (items : list A) :
  (∀ a b, compare a b = 0 ↔ key a = key b) → (∀ a b, key a = key b → hash a = hash b) →
  Z.of_nat (length items) <= MAX_ITEMS →
  ∃ m0 m, hashmap_new zero true 0 = Some (Some m0) ∧
    hashmap_sets zero hash compare m0 items = Some ((map_sets key ∅ items).1, m) ∧
    (∀ a, hashmap_get hash compare m a = Some ((map_sets key ∅ items).2 !! key a)) ∧
    iter_items (S (length (h_buckets m))) m 0 ≡ₚ (map_to_list (map_sets key ∅ items).2).*2.
Proof.
  intros Hcmp Hhash Hmax. destruct (hashmap_sets_new zero hash compare key items Hcmp Hhash Hmax) as (m0 & m & E0 & E & Hok).
  exists m0, m. split; [exact E0|]. split; [exact E|]. split; [intros a; now apply (hm_get zero hash compare key Hcmp Hhash)|].
  exact (hm_iter zero hash key m _ Hok).
Qed.

(** Twenty names, so that the table grows twice, and one of them again. *)
Lemma hashmap_is_map_witness :
  let items := ((λ i, ([i], i)) <$> seqZ 0 20) ++ [([3], 77)] in
  ∃ m0 m, hashmap_new ([], 0) true 0 = Some (Some m0) ∧
    hashmap_sets ([], 0) pg_item_hash pg_item_compare m0 items = Some (repeat None 20 ++ [Some ([3], 3)], m) ∧
    hashmap_get pg_item_hash pg_item_compare m ([3], 0) = Some (Some ([3], 77)).
Proof.
  intros items.
  destruct (hashmap_is_map ([], 0) pg_item_hash pg_item_compare fst items) as (m0 & m & H1 & H2 & H3 & _).
  - intros a b. apply lexcmp_eq.
  - intros a b E. unfold pg_item_hash. now rewrite E.
  - vm_compute. discriminate.
  - exists m0, m. split; [exact H1|]. split; [exact H2|]. rewrite H3. reflexivity.
Defined.

(** ** Prepared statements and portals *)

Lemma map_sets_named {V : Type} (l : list (bytes * V)) : ∀ (M : gmap bytes (bytes * V)) (N : gmap bytes V),
  (∀ name, M !! name = pair name <$> N !! name) →
  ∀ name, (map_sets fst M l).2 !! name = pair name <$> foldl (λ N x, <[x.1 := x.2]> N) N l !! name.
Proof.
  induction l as [|[x v] l IH]; intros M N HMN name; cbn [map_sets foldl fst snd]; [apply HMN|].
  specialize (IH (<[x := (x, v)]> M) (<[x := v]> N)). destruct (map_sets fst (<[x := (x, v)]> M) l) as [olds M'].
  cbn [snd]. apply IH. intros y. destruct (decide (x = y)) as [<-|Hne].
  - now rewrite !lookup_insert_eq.
  - rewrite !lookup_insert_ne by exact Hne. apply HMN.
Qed.

(** What a hash map of the code answers to every name after a sequence of insertions. *)
Definition answers {V : Type} (zero : V) (l : list (bytes * V)) (N : gmap bytes V) : Prop :=
  ∃ m0 m, hashmap_new ([], zero) true 0 = Some (Some m0) ∧
    (snd <$> hashmap_sets ([], zero) pg_item_hash pg_item_compare m0 l) = Some m ∧
    ∀ name, hashmap_get pg_item_hash pg_item_compare m (name, zero) = Some (pair name <$> N !! name).

Lemma named_answers {V : Type} (zero : V) (l : list (bytes * V)) :
  Z.of_nat (length l) <= MAX_ITEMS → answers zero l (foldl (λ N x, <[x.1 := x.2]> N) ∅ l).
Proof.
  intros Hmax. assert (Hcmp : ∀ a b : bytes * V, pg_item_compare a b = 0 ↔ a.1 = b.1) by (intros a b; apply lexcmp_eq).
  assert (Hhash : ∀ a b : bytes * V, a.1 = b.1 → pg_item_hash a = pg_item_hash b) by (intros a b E; unfold pg_item_hash; now rewrite E).
  destruct (hashmap_sets_new ([], zero) pg_item_hash pg_item_compare fst l Hcmp Hhash Hmax) as (m0 & m & H1 & H2 & Hok).
  exists m0, m. split; [exact H1|]. rewrite H2. split; [reflexivity|]. intros name.
  rewrite (hm_get _ _ _ fst Hcmp Hhash m _ _ Hok). f_equal. cbn [fst].
  apply map_sets_named. intros y. now rewrite !lookup_empty.
Qed.

(** The finite maps that stand for the prepared statements and the portals of a
    connection are what the hash maps of the code hold: after any insertions, a
    lookup in the hash map answers every name as the finite map does. *)
Theorem pg_maps_refined (p : pg) (stmts : list (bytes * pg_statement)) (portals : list (bytes * pg_portal)) zero_stmt zero_portal :
  pg_statements (pg_parser p) = ∅ → pg_portals (pg_parser p) = ∅ →
  Z.of_nat (length stmts) <= MAX_ITEMS → Z.of_nat (length portals) <= MAX_ITEMS →
  answers zero_stmt stmts (pg_statements (pg_parser (foldl (λ p x, statement_insert x.1 x.2 p) p stmts))) ∧
  answers zero_portal portals (pg_portals (pg_parser (foldl (λ p x, portal_insert x.1 x.2 p) p portals))).
Proof.
  intros H1 H2 L1 L2.
  assert (E1 : ∀ q, pg_statements (pg_parser (foldl (λ p x, statement_insert x.1 x.2 p) q stmts)) =
    foldl (λ N x, <[x.1 := x.2]> N) (pg_statements (pg_parser q)) stmts).
  { clear. induction stmts as [|x l IH]; intros q; [reflexivity|]. cbn [foldl]. now rewrite IH. }
  assert (E2 : ∀ q, pg_portals (pg_parser (foldl (λ p x, portal_insert x.1 x.2 p) q portals)) =
    foldl (λ N x, <[x.1 := x.2]> N) (pg_portals (pg_parser q)) portals).
  { clear. induction portals as [|x l IH]; intros q; [reflexivity|]. cbn [foldl]. now rewrite IH. }
  rewrite E1, E2, H1, H2. split; now apply named_answers.
Qed.

Lemma pg_maps_refined_witness :
  answers (PgStatement [] [] 0) [([97], PgStatement [[98]] [65; 0] 0)]
    (pg_statements (pg_parser (statement_insert [97] (PgStatement [[98]] [65; 0] 0) pg_new))).
Proof.
  apply (pg_maps_refined pg_new [([97], PgStatement [[98]] [65; 0] 0)] [] (PgStatement [] [] 0) (PgPortal [] [])); try reflexivity; vm_compute; discriminate.
Defined.
