(* ===== verification/Cmap.v ===== *)
(** * Cmap: the map from descriptors to connections

    The chained hash table [struct cmap] of [src/src/net.c]. A chain is threaded
    through the connections themselves, so the model has the connections in a
    heap and follows their [next] pointers. [None] is a null pointer or a freed
    connection that is followed, or a chain that does not end. The second part
    proves that it is a finite map. *)

From S2P Require Import Prelude Util.

#[local] Opaque mix13.

(** ** Connections in memory *)

(** [struct net_conn]: the descriptor, the link of its chain, and the rest. *)
Record net_conn (A : Type) := NetConn { nc_fd : Z; nc_next : option positive; nc_rest : A }.
Arguments NetConn {A}. Arguments nc_fd {A}. Arguments nc_next {A}. Arguments nc_rest {A}.

Abbreviation ptr := (option positive).
Abbreviation conns A := (gmap positive (net_conn A)).

(** [struct cmap]. *)
Record cmap := Cmap { cm_buckets : list ptr; cm_nbuckets : Z; cm_len : Z }.

(** The map a thread starts with. *)
Definition cmap_new : cmap := Cmap (replicate 64 None) 64 0.

Definition hashfd (fd : Z) : Z := mix13 (u64 fd).
Definition bucket_of (nbuckets fd : Z) : Z := u32 (hashfd fd) mod nbuckets.

Section Cmap.
Context {A : Type}.
Implicit Types (h : conns A) (c : cmap) (q : positive) (p : ptr).

Definition set_next (n : net_conn A) p : net_conn A := NetConn (nc_fd n) p (nc_rest n).

(** ** Lookup *)

Fixpoint get_loop (fuel : nat) h (fd : Z) p : option ptr :=
  match p, fuel with
  | None, _ => Some None
  | Some q, O => None
  | Some q, S fuel =>
      n ← h !! q;
      if nc_fd n =? fd then Some (Some q) else get_loop fuel h fd (nc_next n)
  end.

Definition cmap_get h c (fd : Z) : option ptr :=
  p ← cm_buckets c !! Z.to_nat (bucket_of (cm_nbuckets c) fd);
  get_loop (base.size h) h fd p.

(** ** Insertion *)

(** Puts a connection at the head of its chain: the end of [cmap_insert]. *)
Definition cmap_link h c q : option (conns A * cmap) :=
  n ← h !! q;
  let i := Z.to_nat (bucket_of (cm_nbuckets c) (nc_fd n)) in
  p ← cm_buckets c !! i;
  Some (<[q := set_next n p]> h,
        Cmap (<[i := Some q]> (cm_buckets c)) (cm_nbuckets c) (cm_len c + 1)).

(** The inner loop of [cmap_grow], over a chain, and the outer one, over the
    buckets; [insert] is [cmap_insert]. *)
Fixpoint grow_chain (insert : conns A → cmap → positive → option (conns A * cmap))
    (fuel : nat) h c2 p : option (conns A * cmap) :=
  match p, fuel with
  | None, _ => Some (h, c2)
  | Some q, O => None
  | Some q, S fuel =>
      n ← h !! q;
      '(h, c2) ← insert (<[q := set_next n None]> h) c2 q;
      grow_chain insert fuel h c2 (nc_next n)
  end.

Fixpoint grow_loop (insert : conns A → cmap → positive → option (conns A * cmap))
    h c2 (buckets : list ptr) : option (conns A * cmap) :=
  match buckets with
  | [] => Some (h, c2)
  | p :: buckets =>
      '(h, c2) ← grow_chain insert (base.size h) h c2 p;
      grow_loop insert h c2 buckets
  end.

Definition cmap_grow (insert : conns A → cmap → positive → option (conns A * cmap))
    h c : option (conns A * cmap) :=
  let nbuckets := cm_nbuckets c * 2 in
  grow_loop insert h (Cmap (replicate (Z.to_nat nbuckets) None) nbuckets 0) (cm_buckets c).

(** [cmap_insert], which calls itself through [cmap_grow]; [fuel] bounds how
    deep. *)
Fixpoint cmap_insert (fuel : nat) h c q : option (conns A * cmap) :=
  match fuel with
  | O => None
  | S fuel =>
      '(h, c) ← (if cm_nbuckets c - (cm_nbuckets c .>> 2) <=? cm_len c
                 then cmap_grow (cmap_insert fuel) h c else Some (h, c));
      cmap_link h c q
  end.

(** ** Deletion *)

(** The loop that looks for the connection: the one before it. *)
Fixpoint delete_loop (fuel : nat) h q (prev iter : ptr) : option ptr :=
  match fuel with
  | O => None
  | S fuel =>
      it ← iter;
      if decide (it = q) then Some prev
      else n ← h !! it; delete_loop fuel h q (Some it) (nc_next n)
  end.

(** [cmap_delete]. It leaves [len] as it is. *)
Definition cmap_delete h c q : option (conns A * cmap) :=
  n ← h !! q;
  let i := Z.to_nat (bucket_of (cm_nbuckets c) (nc_fd n)) in
  p ← cm_buckets c !! i;
  prev ← delete_loop (base.size h) h q None p;
  match prev with
  | Some b => nb ← h !! b; Some (<[b := set_next nb (nc_next n)]> h, c)
  | None => Some (h, Cmap (<[i := nc_next n]> (cm_buckets c)) (cm_nbuckets c) (cm_len c))
  end.

(** ** What the map represents *)

(** The chain that starts at a pointer. *)
Fixpoint chain h p (l : list positive) : Prop :=
  match l with
  | [] => p = None
  | q :: l => p = Some q ∧ ∃ n, h !! q = Some n ∧ chain h (nc_next n) l
  end.

(** [q] is a connection of the map [m] whose descriptor hashes to [i]. *)
Definition lives h (nb : Z) (m : gmap Z positive) (i : nat) q : Prop :=
  ∃ n, h !! q = Some n ∧ m !! nc_fd n = Some q ∧ Z.to_nat (bucket_of nb (nc_fd n)) = i.

Record represents h c (m : gmap Z positive) : Prop := {
  rep_nbuckets : cm_nbuckets c = Z.of_nat (length (cm_buckets c));
  rep_room : 64 <= cm_nbuckets c;
  rep_bucket : ∀ i p, cm_buckets c !! i = Some p →
    ∃ l, chain h p l ∧ NoDup l ∧ ∀ q, q ∈ l ↔ lives h (cm_nbuckets c) m i q;
  rep_fd : ∀ fd q, m !! fd = Some q → ∃ n, h !! q = Some n ∧ nc_fd n = fd;
  rep_len : Z.of_nat (base.size m) <= cm_len c <= cm_nbuckets c - (cm_nbuckets c .>> 2)
}.

(** Everything but the links is the same. *)
Definition unlink (n : net_conn A) : net_conn A := set_next n None.
Definition same_conns h h' : Prop := unlink <$> h = unlink <$> h'.

(** Connections outside the map are not touched at all. *)
Definition only_in (m : gmap Z positive) h h' : Prop :=
  ∀ q, (∀ fd, m !! fd ≠ Some q) → h' !! q = h !! q.

End Cmap.

(** ** The connection map is a finite map

    The table of [Cmap.v] answers as a finite map from descriptors to
    connections under lookup, insertion with growth and deletion. It follows no
    dangling link, and connections that are not in the map are not touched. *)

#[local] Opaque mix13.

Lemma bucket_of_range nb fd : 0 < nb → 0 <= bucket_of nb fd < nb.
Proof. intros. now apply Z.mod_pos_bound. Qed.

(** What the load factor leaves. *)
Definition capacity (nb : Z) : Z := nb - (nb .>> 2).

Lemma capacity_range nb : 64 <= nb → 48 <= capacity nb < nb ∧ capacity nb < capacity (nb * 2) ∧ 4 * capacity nb < 3 * nb + 4.
Proof. intros. unfold capacity. rewrite !shiftr_div by lia. change (2 ^ 2) with 4. dm. Qed.

Section Chains.
Context {A : Type}.
Implicit Types (h : conns A) (c : cmap) (q : positive) (p : ptr) (l : list positive).

(** ** Heaps up to links *)

#[export] Instance same_conns_equiv : Equivalence (@same_conns A).
Proof. unfold same_conns. split; [easy|now intros ? ?|intros ? ? ? ? ?; congruence]. Qed.

Lemma same_set_next h q n p : h !! q = Some n → same_conns h (<[q := set_next n p]> h).
Proof.
  intros Hq. unfold same_conns. rewrite fmap_insert. symmetry. apply insert_id.
  now rewrite lookup_fmap, Hq.
Qed.

Lemma same_lookup h h' q n :
  same_conns h h' → h !! q = Some n → ∃ n', h' !! q = Some n' ∧ unlink n' = unlink n.
Proof.
  intros Hs Hq. assert (E : (unlink <$> h) !! q = (unlink <$> h') !! q) by now rewrite Hs.
  rewrite !lookup_fmap, Hq in E. destruct (h' !! q) as [n'|]; [|discriminate]. exists n'. split; [easy|].
  cbn in E. congruence.
Qed.

Lemma unlink_fd (n n' : net_conn A) : unlink n' = unlink n → nc_fd n' = nc_fd n ∧ nc_rest n' = nc_rest n.
Proof. unfold unlink, set_next. now intros [= ? ?]. Qed.

(** ** Chains *)

Lemma chain_ext h h' l : ∀ p, (∀ q, q ∈ l → h' !! q = h !! q) → chain h p l → chain h' p l.
Proof.
  induction l as [|q l IH]; intros p Hq; cbn; [easy|]. intros (-> & n & Hn & Hc). split; [easy|].
  exists n. split; [rewrite Hq by set_solver; exact Hn|]. apply IH; [set_solver|exact Hc].
Qed.

Lemma chain_in h l : ∀ p q, chain h p l → q ∈ l → is_Some (h !! q).
Proof.
  induction l as [|q' l IH]; intros p q; cbn; [set_solver|]. intros (_ & n & Hn & Hc).
  intros [->|Hq]%elem_of_cons; [eauto|]. eapply IH; eauto.
Qed.

Lemma chain_length h p l : chain h p l → NoDup l → (length l <= base.size h)%nat.
Proof.
  intros Hc Hn. rewrite <- size_dom, <- (size_list_to_set (C := gset positive) l Hn).
  apply subseteq_size. intros q Hq%elem_of_list_to_set. apply elem_of_dom. eapply chain_in; eauto.
Qed.

Lemma chain_functional h l1 : ∀ p l2, chain h p l1 → chain h p l2 → l1 = l2.
Proof.
  induction l1 as [|q l1 IH]; intros p [|q2 l2]; cbn; [easy| | |].
  - intros -> [? _]. discriminate.
  - intros [-> _] ?. discriminate.
  - intros (-> & n & Hn & H1) ([= <-] & n2 & Hn2 & H2). f_equal. apply (IH (nc_next n)); congruence.
Qed.

(** ** Lookup in a chain *)

Lemma get_loop_absent h fd l : ∀ p fuel, chain h p l → (length l <= fuel)%nat →
  (∀ q n, q ∈ l → h !! q = Some n → nc_fd n ≠ fd) → get_loop fuel h fd p = Some None.
Proof.
  induction l as [|q l IH]; intros p fuel; cbn [chain length].
  - intros ->. now destruct fuel.
  - intros (-> & n & Hn & Hc) Hf Ha. destruct fuel as [|fuel]; [lia|]. cbn. rewrite Hn. cbn.
    rewrite (proj2 (Z.eqb_neq _ _) (Ha q n ltac:(set_solver) Hn)).
    apply IH; [exact Hc|lia|]. intros q' n' Hq'. apply Ha. set_solver.
Qed.

Lemma get_loop_present h fd l : ∀ p fuel q n, chain h p l → (length l <= fuel)%nat → q ∈ l →
  h !! q = Some n → nc_fd n = fd → (∀ q' n', q' ∈ l → h !! q' = Some n' → nc_fd n' = fd → q' = q) →
  get_loop fuel h fd p = Some (Some q).
Proof.
  induction l as [|x l IH]; intros p fuel q n; cbn [chain length]; [set_solver|].
  intros (-> & nx & Hx & Hc) Hf Hin Hq Hfd Hu. destruct fuel as [|fuel]; [lia|]. cbn. rewrite Hx. cbn.
  destruct (nc_fd nx =? fd) eqn:E; zb.
  - now rewrite (Hu x nx) by (set_solver || easy).
  - apply elem_of_cons in Hin as [->|Hin]; [congruence|].
    apply (IH _ _ q n); try assumption; [lia|]. intros q' n' Hq'. apply Hu. set_solver.
Qed.

(** ** Deletion in a chain *)

Lemma delete_loop_finds h q l2 l1 : ∀ iter prev fuel,
  chain h iter (l1 ++ q :: l2) → q ∉ l1 → (length l1 < fuel)%nat →
  delete_loop fuel h q prev iter = Some (match last l1 with Some b => Some b | None => prev end).
Proof.
  induction l1 as [|x l1 IH]; intros iter prev fuel; cbn [app chain length].
  - intros (-> & _) _ Hf. destruct fuel; [lia|]. cbn. now rewrite decide_True.
  - intros (-> & n & Hn & Hc) Hq Hf. destruct fuel as [|fuel]; [lia|]. cbn.
    rewrite decide_False by set_solver. rewrite Hn. cbn. rewrite (IH _ (Some x) fuel Hc) by (set_solver || lia).
    f_equal. rewrite last_cons. now destruct (last l1).
Qed.

Lemma chain_skip h q n b nb l2 l0 : ∀ p,
  chain h p (l0 ++ b :: q :: l2) → NoDup (l0 ++ b :: q :: l2) → h !! q = Some n → h !! b = Some nb →
  chain (<[b := set_next nb (nc_next n)]> h) p (l0 ++ b :: l2).
Proof.
  induction l0 as [|x l0 IH]; intros p; cbn [app chain].
  - intros (-> & nb' & Hb' & Hnx & n' & Hn' & Hc) Hd Hn Hb. split; [easy|].
    exists (set_next nb (nc_next n)). split; [now rewrite lookup_insert_eq|].
    replace n with n' by congruence. apply (chain_ext h); [|exact Hc]. intros y Hy. apply NoDup_cons in Hd as [Hd _].
    rewrite lookup_insert_ne; [easy|]. set_solver.
  - intros (-> & nx & Hx & Hc) Hd Hn Hb. split; [easy|]. apply NoDup_cons in Hd as [Hx2 Hd].
    exists nx. split; [|now apply IH]. rewrite lookup_insert_ne; [exact Hx|]. set_solver.
Qed.

Lemma chain_tail h q n l2 p : chain h p (q :: l2) → h !! q = Some n → chain h (nc_next n) l2.
Proof. intros (_ & n' & Hn' & Hc) Hn. congruence. Qed.

End Chains.

Section Represents.
Context {A : Type}.
Implicit Types (h : conns A) (c : cmap) (q : positive) (p : ptr) (l : list positive) (m : gmap Z positive).

(** ** The representation *)

Lemma represents_new h : represents h cmap_new ∅.
Proof.
  split; [reflexivity|vm_compute; congruence| |set_solver|vm_compute; split; congruence].
  intros i p Hp. cbn [cmap_new cm_buckets] in Hp. apply lookup_replicate in Hp as [-> _]. exists [].
  split; [easy|]. split; [constructor|]. intros q. split; [set_solver|]. intros (n & _ & Hm & _).
  now rewrite lookup_empty in Hm.
Qed.

(** The representation depends on the descriptors and links of its connections only. *)
Lemma represents_ext h h' c m :
  represents h c m →
  (∀ fd q n, m !! fd = Some q → h !! q = Some n →
    ∃ n', h' !! q = Some n' ∧ nc_fd n' = nc_fd n ∧ nc_next n' = nc_next n) →
  represents h' c m.
Proof.
  intros [Hn Hr Hb Hf Hl] He. split; [exact Hn|exact Hr| | |exact Hl].
  - intros i p Hp. destruct (Hb i p Hp) as (l & Hc & Hd & Hin).
    assert (Hlive : ∀ q, q ∈ l → ∃ n n', h !! q = Some n ∧ h' !! q = Some n' ∧ nc_fd n' = nc_fd n ∧ nc_next n' = nc_next n).
    { intros q (n & Hq & Hm & _)%Hin. destruct (He _ _ _ Hm Hq) as (n' & ?). eauto. }
    exists l. split; [|split; [exact Hd|]].
    + clear -Hc Hlive. revert p Hc. induction l as [|q l IH]; intros p; cbn; [easy|].
      intros (-> & n & Hq & Hc). split; [easy|]. destruct (Hlive q ltac:(set_solver)) as (n1 & n' & H1 & H2 & _ & H3).
      exists n'. split; [exact H2|]. rewrite H3. replace n1 with n by congruence. apply IH; [|exact Hc]. intros; apply Hlive; set_solver.
    + intros q. rewrite Hin. split; intros (n & Hq & Hm & Hi).
      * destruct (He _ _ _ Hm Hq) as (n' & ? & E & _). exists n'. now rewrite E.
      * destruct (Hf _ _ Hm) as (n0 & Hq0 & E). destruct (He _ _ _ Hm Hq0) as (n' & Hq' & E' & _).
        replace n' with n in * by congruence. exists n0. now rewrite <- E'.
  - intros fd q Hm. destruct (Hf _ _ Hm) as (n & Hq & E). destruct (He _ _ _ Hm Hq) as (n' & ? & E' & _).
    exists n'. now rewrite E'.
Qed.

Lemma represents_frame h h' c m :
  represents h c m → (∀ fd q, m !! fd = Some q → h' !! q = h !! q) → represents h' c m.
Proof.
  intros Hr He. apply (represents_ext h); [exact Hr|]. intros fd q n Hm Hq. exists n. now rewrite (He _ _ Hm).
Qed.

Lemma represents_injective h c m fd fd' q :
  represents h c m → m !! fd = Some q → m !! fd' = Some q → fd = fd'.
Proof.
  intros Hr (n & Hn & <-)%(rep_fd _ _ _ Hr) (n' & Hn' & <-)%(rep_fd _ _ _ Hr). congruence.
Qed.

Lemma represents_bucket h c m fd :
  represents h c m → ∃ p, cm_buckets c !! Z.to_nat (bucket_of (cm_nbuckets c) fd) = Some p.
Proof.
  intros Hr. apply lookup_lt_is_Some_2. pose proof (rep_room _ _ _ Hr). pose proof (rep_nbuckets _ _ _ Hr).
  pose proof (bucket_of_range (cm_nbuckets c) fd ltac:(lia)). lia.
Qed.

(** ** Lookup *)

Lemma cmap_get_spec h c m fd : represents h c m → cmap_get h c fd = Some (m !! fd).
Proof.
  intros Hr. unfold cmap_get. destruct (represents_bucket h c m fd Hr) as [p Hp]. rewrite Hp. cbn.
  destruct (rep_bucket _ _ _ Hr _ _ Hp) as (l & Hc & Hd & Hin). pose proof (chain_length _ _ _ Hc Hd) as Hl.
  destruct (m !! fd) as [q|] eqn:Em.
  - destruct (rep_fd _ _ _ Hr _ _ Em) as (n & Hq & <-).
    apply (get_loop_present _ _ l _ _ q n); try easy.
    + apply Hin. now exists n.
    + intros q' n' (n2 & Hq2 & Hm2 & _)%Hin Hq' E. replace n' with n2 in * by congruence. congruence.
  - apply (get_loop_absent _ _ l); try easy. intros q n (n2 & Hq2 & Hm2 & _)%Hin Hq. congruence.
Qed.

(** ** Linking a connection *)

Lemma cmap_link_spec h c m q n :
  represents h c m → h !! q = Some n → m !! nc_fd n = None → cm_len c < capacity (cm_nbuckets c) →
  ∃ p, cmap_link h c q = Some (<[q := set_next n p]> h,
      Cmap (<[Z.to_nat (bucket_of (cm_nbuckets c) (nc_fd n)) := Some q]> (cm_buckets c)) (cm_nbuckets c) (cm_len c + 1)) ∧
    represents (<[q := set_next n p]> h)
      (Cmap (<[Z.to_nat (bucket_of (cm_nbuckets c) (nc_fd n)) := Some q]> (cm_buckets c)) (cm_nbuckets c) (cm_len c + 1))
      (<[nc_fd n := q]> m).
Proof.
  intros Hr Hq Hm Hl. destruct (represents_bucket h c m (nc_fd n) Hr) as [p Hp]. exists p.
  unfold cmap_link. rewrite Hq. cbn. rewrite Hp. cbn. split; [reflexivity|].
  set (i := Z.to_nat (bucket_of (cm_nbuckets c) (nc_fd n))) in *.
  assert (Hnew : ∀ fd, m !! fd ≠ Some q).
  { intros fd E. destruct (rep_fd _ _ _ Hr _ _ E) as (n' & Hq' & <-). replace n' with n in * by congruence. congruence. }
  assert (Hlive : ∀ j q', lives (<[q := set_next n p]> h) (cm_nbuckets c) (<[nc_fd n := q]> m) j q' ↔
    (q' = q ∧ j = i) ∨ lives h (cm_nbuckets c) m j q').
  { intros j q'. unfold lives. destruct (decide (q' = q)) as [->|Hne].
    - split.
      + intros (n' & E & _ & <-). rewrite lookup_insert_eq in E. injection E as <-. now left.
      + intros [[_ ->]|(n' & E & Em & _)]; [|now destruct (Hnew _ Em)].
        exists (set_next n p). rewrite lookup_insert_eq. cbn. now rewrite lookup_insert_eq.
    - split.
      + intros (n' & E & Em & <-). rewrite lookup_insert_ne in E by congruence. right. exists n'. split; [easy|]. split; [|easy].
        destruct (decide (nc_fd n' = nc_fd n)) as [Ef|Ef]; [rewrite Ef, lookup_insert_eq in Em; congruence|].
        now rewrite lookup_insert_ne in Em by congruence.
      + intros [[? _]|(n' & E & Em & <-)]; [easy|]. exists n'. rewrite lookup_insert_ne by congruence. split; [easy|].
        split; [|easy]. rewrite lookup_insert_ne; [easy|]. intros E'. rewrite <- E' in Em. congruence. }
  split; cbn [cm_buckets cm_nbuckets cm_len].
  - rewrite length_insert. apply (rep_nbuckets _ _ _ Hr).
  - apply (rep_room _ _ _ Hr).
  - intros j pj Hj. destruct (decide (j = i)) as [->|Hji].
    + rewrite list_lookup_insert_eq in Hj by (eapply lookup_lt_Some; exact Hp). injection Hj as <-.
      destruct (rep_bucket _ _ _ Hr _ _ Hp) as (l & Hc & Hd & Hin).
      assert (Hql : q ∉ l). { intros (n' & E & Em & _)%Hin. now apply (Hnew (nc_fd n')). }
      exists (q :: l). split; [|split].
      * cbn. split; [easy|]. exists (set_next n p). rewrite lookup_insert_eq. split; [easy|]. cbn.
        apply (chain_ext h); [|exact Hc]. intros y Hy. rewrite lookup_insert_ne; [easy|]. congruence.
      * now constructor.
      * intros q'. rewrite elem_of_cons, Hin, Hlive. clear. naive_solver.
    + rewrite list_lookup_insert_ne in Hj by congruence. destruct (rep_bucket _ _ _ Hr _ _ Hj) as (l & Hc & Hd & Hin).
      exists l. split; [|split; [exact Hd|]].
      * apply (chain_ext h); [|exact Hc]. intros y (n' & E & Em & _)%Hin. rewrite lookup_insert_ne; [easy|].
        intros <-. now apply (Hnew (nc_fd n')).
      * intros q'. rewrite Hin, Hlive. split; [now right|]. intros [[-> ->]|?]; easy.
  - intros fd q' Hf. destruct (decide (fd = nc_fd n)) as [->|Hne].
    + rewrite lookup_insert_eq in Hf. injection Hf as <-. exists (set_next n p). now rewrite lookup_insert_eq.
    + rewrite lookup_insert_ne in Hf by congruence. destruct (rep_fd _ _ _ Hr _ _ Hf) as (n' & E & <-).
      exists n'. rewrite lookup_insert_ne; [easy|]. intros <-. now apply (Hnew (nc_fd n')).
  - rewrite map_size_insert_None by exact Hm. pose proof (rep_len _ _ _ Hr). fold (capacity (cm_nbuckets c)). lia.
Qed.

End Represents.

(** ** Growing *)

Section Grow.
Context {A : Type}.
Implicit Types (h : conns A) (c : cmap) (q : positive) (p : ptr) (l : list positive) (m : gmap Z positive).

Lemma cmap_insert_small fuel h c q :
  cm_len c < capacity (cm_nbuckets c) → cmap_insert (S fuel) h c q = cmap_link h c q.
Proof.
  intros Hl. cbn. fold (capacity (cm_nbuckets c)). destruct (capacity (cm_nbuckets c) <=? cm_len c) eqn:E; zb; [lia|reflexivity].
Qed.

(** The connections of a list, by their descriptors. *)
Definition holds_fd h l (fd : Z) q : Prop := q ∈ l ∧ ∃ n, h !! q = Some n ∧ nc_fd n = fd.

Lemma grow_chain_spec k l : ∀ fuel h c2 m2 p,
  represents h c2 m2 → cm_len c2 = Z.of_nat (base.size m2) → chain h p l → NoDup l →
  (∀ q n, q ∈ l → h !! q = Some n → m2 !! nc_fd n = None) →
  (∀ q q' fd, holds_fd h l fd q → holds_fd h l fd q' → q = q') →
  Z.of_nat (base.size m2 + length l) < capacity (cm_nbuckets c2) → (length l <= fuel)%nat →
  ∃ h' c2' m2', grow_chain (cmap_insert (S k)) fuel h c2 p = Some (h', c2') ∧
    represents h' c2' m2' ∧ cm_len c2' = Z.of_nat (base.size m2') ∧ cm_nbuckets c2' = cm_nbuckets c2 ∧
    base.size m2' = (base.size m2 + length l)%nat ∧
    (∀ fd q, m2' !! fd = Some q ↔ m2 !! fd = Some q ∨ holds_fd h l fd q) ∧
    same_conns h h' ∧ ∀ q, q ∉ l → h' !! q = h !! q.
Proof.
  induction l as [|q l IH]; intros fuel h c2 m2 p Hr Hlen Hc Hd Hnone Huniq Hcap Hf; cbn [chain length] in *.
  { subst p. exists h, c2, m2. rewrite Nat.add_0_r. destruct fuel; (split; [reflexivity|]); repeat (split; [easy|]).
    all: (split; [|easy]); intros fd q; unfold holds_fd; set_solver. }
  destruct Hc as (-> & n & Hq & Hc). destruct fuel as [|fuel]; [lia|]. cbn [grow_chain]. rewrite Hq. cbn [mbind option_bind].
  apply NoDup_cons in Hd as [Hql Hd].
  assert (Hm : m2 !! nc_fd n = None) by (apply (Hnone q n); [set_solver|exact Hq]).
  set (h1 := <[q := set_next n None]> h).
  assert (Hq1 : h1 !! q = Some (set_next n None)) by apply lookup_insert_eq.
  assert (Hr1 : represents h1 c2 m2).
  { apply (represents_frame h); [exact Hr|]. intros fd q' Hm'. unfold h1. rewrite lookup_insert_ne; [easy|].
    intros <-. destruct (rep_fd _ _ _ Hr _ _ Hm') as (n' & Hq' & <-). congruence. }
  destruct (cmap_link_spec h1 c2 m2 q (set_next n None) Hr1 Hq1 Hm ltac:(lia)) as (p' & Elink & Hr2).
  rewrite cmap_insert_small, Elink by lia. cbn [mbind option_bind]. cbn [nc_fd set_next] in *.
  set (h2 := <[q := set_next (set_next n None) p']> h1) in *.
  assert (Hother : ∀ y, y ≠ q → h2 !! y = h !! y).
  { intros y Hy. unfold h2, h1. now rewrite !lookup_insert_ne by congruence. }
  assert (Hhold : ∀ fd y, holds_fd h2 l fd y ↔ holds_fd h l fd y).
  { intros fd y. unfold holds_fd. split; intros [Hy Hex]; (split; [exact Hy|]).
    all: assert (y ≠ q) by congruence; now rewrite Hother in *. }
  assert (Hsize : base.size (<[nc_fd n := q]> m2) = S (base.size m2)) by now apply map_size_insert_None.
  destruct (IH fuel h2 _ (<[nc_fd n := q]> m2) (nc_next n) Hr2) as (h' & c2' & m2' & E & H1 & H2 & H3 & H4 & H5 & H6 & H7).
  - cbn. lia.
  - apply (chain_ext h); [|exact Hc]. intros y Hy. apply Hother. congruence.
  - exact Hd.
  - intros y ny Hy Hny. rewrite Hother in Hny by congruence. rewrite lookup_insert_ne; [apply (Hnone y); [set_solver|exact Hny]|].
    intros E. assert (q = y); [|congruence]. apply (Huniq q y (nc_fd ny)); (split; [set_solver|]); eexists; (split; [eassumption|congruence]).
  - intros y y' fd Hy Hy'. apply Hhold in Hy as [? ?], Hy' as [? ?]. apply (Huniq y y' fd); (split; [set_solver|assumption]).
  - cbn. lia.
  - lia.
  - exists h', c2', m2'. split; [exact E|]. split; [exact H1|]. split; [exact H2|]. split; [exact H3|]. split; [lia|].
    split; [|split].
    + intros fd y. rewrite H5, Hhold. unfold holds_fd. destruct (decide (fd = nc_fd n)) as [->|Hfd].
      * rewrite lookup_insert_eq. rewrite Hm. split.
        -- intros [[= <-]|[? ?]]; right; (split; [set_solver|eauto]).
        -- intros [?|[Hy (ny & Hny & Ey)]]; [easy|]. apply elem_of_cons in Hy as [->|Hy]; [now left|].
           right. eauto.
      * rewrite lookup_insert_ne by congruence. split; [intros [?|[? ?]]; [now left|right; split; [set_solver|easy]]|].
        intros [?|[Hy (ny & Hny & Ey)]]; [now left|]. apply elem_of_cons in Hy as [->|Hy]; [congruence|right; eauto].
    + transitivity h1; [apply same_set_next; exact Hq|]. transitivity h2; [now apply same_set_next|exact H6].
    + intros y Hy. rewrite H7 by set_solver. apply Hother. set_solver.
Qed.

(** The part of the map in the first buckets. *)
Definition below (nb : Z) (i : nat) m : gmap Z positive :=
  filter (λ x, (Z.to_nat (bucket_of nb x.1) < i)%nat) m.

Lemma below_lookup nb i m fd q :
  below nb i m !! fd = Some q ↔ m !! fd = Some q ∧ (Z.to_nat (bucket_of nb fd) < i)%nat.
Proof. unfold below. now rewrite map_lookup_filter_Some. Qed.

Lemma enumerated l m : NoDup l → (∀ q, q ∈ l → ∃ fd, m !! fd = Some q) → (length l <= base.size m)%nat.
Proof.
  intros Hd Hm. rewrite <- (length_map_to_list m), <- (length_fmap snd).
  apply submseteq_length, NoDup_submseteq; [exact Hd|]. intros q [fd Hfd]%Hm.
  apply list_elem_of_fmap. exists (fd, q). now rewrite elem_of_map_to_list.
Qed.

Lemma below_room nb i m l :
  (∀ fd fd' q, m !! fd = Some q → m !! fd' = Some q → fd = fd') → NoDup l →
  (∀ q, q ∈ l → ∃ fd, m !! fd = Some q) →
  (∀ fd q, m !! fd = Some q → (Z.to_nat (bucket_of nb fd) < i)%nat → q ∉ l) →
  (base.size (below nb i m) + length l <= base.size m)%nat.
Proof.
  intros Hinj Hd Hm Hlt. rewrite <- (length_map_to_list (below nb i m)), <- (length_fmap snd), <- length_app.
  assert (Hb : ∀ q, q ∈ (map_to_list (below nb i m)).*2 → ∃ fd, m !! fd = Some q ∧ (Z.to_nat (bucket_of nb fd) < i)%nat).
  { intros q ([fd q'] & -> & Hq%elem_of_map_to_list%below_lookup)%list_elem_of_fmap. eauto. }
  apply enumerated.
  - apply NoDup_app. split; [|split; [|exact Hd]].
    + apply NoDup_fmap_2_strong; [|apply NoDup_map_to_list]. intros [f1 q1] [f2 q2] H1 H2 E. cbn in E. subst q2.
      apply elem_of_map_to_list, below_lookup in H1 as [H1 _]. apply elem_of_map_to_list, below_lookup in H2 as [H2 _].
      f_equal. eauto.
    + intros q (fd & ? & ?)%Hb. eauto.
  - intros q [(fd & ? & ?)%Hb|]%elem_of_app; eauto.
Qed.

Lemma grow_loop_spec k h0 c m bs : ∀ i h c2,
  represents h0 c m → drop i (cm_buckets c) = bs →
  represents h c2 (below (cm_nbuckets c) i m) → cm_len c2 = Z.of_nat (base.size (below (cm_nbuckets c) i m)) →
  cm_nbuckets c2 = cm_nbuckets c * 2 → same_conns h0 h → only_in m h0 h →
  (∀ fd q, m !! fd = Some q → (i <= Z.to_nat (bucket_of (cm_nbuckets c) fd))%nat → h !! q = h0 !! q) →
  ∃ h' c2', grow_loop (cmap_insert (S k)) h c2 bs = Some (h', c2') ∧ represents h' c2' m ∧
    cm_len c2' = Z.of_nat (base.size m) ∧ cm_nbuckets c2' = cm_nbuckets c * 2 ∧ same_conns h0 h' ∧ only_in m h0 h'.
Proof.
  induction bs as [|p bs IH]; intros i h c2 Hr0 Hbs Hr Hlen Hnb Hs Ho Hrest; cbn [grow_loop].
  { assert (Hi : (length (cm_buckets c) <= i)%nat) by (apply drop_nil_inv; exact Hbs).
    assert (E : below (cm_nbuckets c) i m = m).
    { apply map_eq. intros fd. apply option_eq. intros q. rewrite below_lookup. split; [now intros []|].
      intros Hm. split; [easy|]. pose proof (rep_nbuckets _ _ _ Hr0). pose proof (rep_room _ _ _ Hr0).
      pose proof (bucket_of_range (cm_nbuckets c) fd ltac:(lia)). lia. }
    rewrite E in *. eauto 10. }
  assert (Hp : cm_buckets c !! i = Some p).
  { rewrite <- (Nat.add_0_r i), <- lookup_drop, Hbs. reflexivity. }
  destruct (rep_bucket _ _ _ Hr0 _ _ Hp) as (l & Hc & Hd & Hin).
  assert (Hl : ∀ q, q ∈ l → h !! q = h0 !! q).
  { intros q (n & Hq & Hm & Hi)%Hin. apply (Hrest _ _ Hm). lia. }
  assert (Hhold : ∀ fd q, holds_fd h l fd q ↔ m !! fd = Some q ∧ Z.to_nat (bucket_of (cm_nbuckets c) fd) = i).
  { intros fd q. split.
    - intros [Hq (n & Hn & <-)]. rewrite Hl in Hn by easy. apply Hin in Hq as (n' & Hn' & Hm & Hi).
      now replace n with n' by congruence.
    - intros [Hm Hi]. destruct (rep_fd _ _ _ Hr0 _ _ Hm) as (n & Hn & <-).
      assert (Hq : q ∈ l) by (apply Hin; now exists n). split; [easy|]. exists n. now rewrite Hl. }
  pose proof (rep_room _ _ _ Hr0) as Hroom. pose proof (capacity_range _ Hroom) as (_ & Hcap & _).
  pose proof (rep_len _ _ _ Hr0) as Hlen0. fold (capacity (cm_nbuckets c)) in Hlen0.
  assert (Hle : (base.size (below (cm_nbuckets c) i m) + length l <= base.size m)%nat).
  { apply below_room; [|exact Hd| |].
    - intros fd fd' q. now apply (represents_injective h0 c).
    - intros q (n & _ & Hm & _)%Hin. eauto.
    - intros fd q Hm Hlt (n & Hn & Hm' & Hi)%Hin.
      rewrite (represents_injective _ _ _ fd (nc_fd n) q Hr0 Hm Hm') in Hlt. lia. }
  assert (Hch : chain h p l) by now apply (chain_ext h0).
  destruct (grow_chain_spec k l (base.size h) h c2 (below (cm_nbuckets c) i m) p)
    as (h' & c2' & m2' & E & H1 & H2 & H3 & H4 & H5 & H6 & H7); try assumption.
  - intros q n Hq Hn. apply eq_None_not_Some. intros [q' [Hm' Hlt]%below_lookup].
    assert (holds_fd h l (nc_fd n) q) as [_ Hi]%Hhold by (split; eauto). lia.
  - intros q q' fd [H1 _]%Hhold [H2 _]%Hhold. congruence.
  - rewrite Hnb. lia.
  - now apply chain_length with p.
  - rewrite E. cbn [mbind option_bind].
    assert (Em : m2' = below (cm_nbuckets c) (S i) m).
    { apply map_eq. intros fd. apply option_eq. intros q. rewrite H5, Hhold, !below_lookup. split.
      - intros [[? ?]|[? ?]]; (split; [assumption|lia]).
      - intros [? ?]. destruct (decide (Z.to_nat (bucket_of (cm_nbuckets c) fd) = i)); [now right|left; split; [assumption|lia]]. }
    subst m2'. apply (IH (S i)); try assumption.
    + rewrite <- Nat.add_1_r, <- drop_drop, Hbs. reflexivity.
    + congruence.
    + now transitivity h.
    + intros q Hq. rewrite H7; [now apply Ho|]. intros (n & _ & Hm & _)%Hin. now apply (Hq (nc_fd n)).
    + intros fd q Hm Hi. rewrite H7; [apply (Hrest _ _ Hm); lia|]. intros (n & Hn & Hm' & Hi')%Hin.
      rewrite (represents_injective _ _ _ fd (nc_fd n) q Hr0 Hm Hm') in Hi. lia.
Qed.
End Grow.

(** ** Insertion and deletion *)

Section Update.
Context {A : Type}.
Implicit Types (h : conns A) (c : cmap) (q : positive) (p : ptr) (l : list positive) (m : gmap Z positive).

Lemma represents_empty h nb : 64 <= nb → represents h (Cmap (replicate (Z.to_nat nb) None) nb 0) ∅.
Proof.
  intros Hn. pose proof (capacity_range nb Hn). split; cbn [cm_buckets cm_nbuckets cm_len]; [rewrite length_replicate; lia|exact Hn| |set_solver|rewrite map_size_empty; fold (capacity nb); lia].
  intros i p [-> _]%lookup_replicate. exists []. split; [easy|]. split; [constructor|]. intros q.
  split; [set_solver|]. intros (n & _ & Hm & _). now rewrite lookup_empty in Hm.
Qed.

Lemma cmap_grow_spec k h c m :
  represents h c m → ∃ h' c', cmap_grow (cmap_insert (S k)) h c = Some (h', c') ∧ represents h' c' m ∧
    cm_len c' = Z.of_nat (base.size m) ∧ cm_nbuckets c' = cm_nbuckets c * 2 ∧ same_conns h h' ∧ only_in m h h'.
Proof.
  intros Hr. pose proof (rep_room _ _ _ Hr).
  assert (E : below (cm_nbuckets c) 0 m = ∅).
  { apply map_eq. intros fd. rewrite lookup_empty. apply eq_None_not_Some. intros [q [_ ?]%below_lookup]. lia. }
  apply (grow_loop_spec k h c m (cm_buckets c) 0); rewrite ?E; try easy.
  apply represents_empty. lia.
Qed.

(** [cmap_insert] needs to call itself only once: the table it grows into has
    room for all. *)
Lemma cmap_insert_spec k h c m q n :
  represents h c m → h !! q = Some n → m !! nc_fd n = None →
  ∃ h' c', cmap_insert (S (S k)) h c q = Some (h', c') ∧ represents h' c' (<[nc_fd n := q]> m) ∧
    same_conns h h' ∧ only_in (<[nc_fd n := q]> m) h h' ∧
    (cm_nbuckets c' = cm_nbuckets c ∧ cm_len c' = cm_len c + 1 ∨
     cm_nbuckets c' = cm_nbuckets c * 2 ∧ cm_len c = capacity (cm_nbuckets c) ∧ cm_len c' = Z.of_nat (base.size m) + 1).
Proof.
  intros Hr Hq Hm. destruct (decide (cm_len c < capacity (cm_nbuckets c))) as [Hl|Hl].
  - rewrite cmap_insert_small by exact Hl. destruct (cmap_link_spec h c m q n Hr Hq Hm Hl) as (p & E & Hr').
    eexists _, _. split; [exact E|]. split; [exact Hr'|]. split; [now apply same_set_next|]. split; [|now left].
    intros q' Hq'. rewrite lookup_insert_ne; [easy|]. intros <-. apply (Hq' (nc_fd n)). apply lookup_insert_eq.
  - pose proof (rep_room _ _ _ Hr) as Hroom. pose proof (capacity_range _ Hroom) as (_ & Hcap & _).
    pose proof (rep_len _ _ _ Hr) as Hlen. fold (capacity (cm_nbuckets c)) in Hlen.
    destruct (cmap_grow_spec k h c m Hr) as (h1 & c1 & E1 & Hr1 & Hl1 & Hn1 & Hs1 & Ho1).
    remember (S k) as f. cbn [cmap_insert]. fold (capacity (cm_nbuckets c)).
    rewrite (proj2 (Z.leb_le _ _)) by lia. rewrite E1. cbn [mbind option_bind].
    destruct (same_lookup _ _ _ _ Hs1 Hq) as (n1 & Hq1 & [Ef _]%unlink_fd).
    destruct (cmap_link_spec h1 c1 m q n1 Hr1 Hq1) as (p & E & Hr'); [now rewrite Ef|rewrite Hn1; lia|].
    rewrite Ef in E, Hr'. eexists _, _. split; [exact E|]. split; [exact Hr'|].
    split; [transitivity h1; [exact Hs1|now apply same_set_next]|]. split; [|right; cbn [cm_nbuckets cm_len]; lia].
    intros q' Hq'. rewrite lookup_insert_ne by (intros <-; apply (Hq' (nc_fd n)), lookup_insert_eq). apply Ho1.
    intros fd Hf. destruct (decide (fd = nc_fd n)) as [->|Hne]; [congruence|]. apply (Hq' fd).
    now rewrite lookup_insert_ne by congruence.
Qed.

Lemma lives_delete h h' nb m fd q i q' n :
  same_conns h h' → h !! q = Some n → nc_fd n = fd → m !! fd = Some q →
  (lives h' nb (delete fd m) i q' ↔ lives h nb m i q' ∧ q' ≠ q).
Proof.
  intros Hs Hq <- Hm. unfold lives. split.
  - intros (n' & H1 & H2 & H3). apply lookup_delete_Some in H2 as [Hne H2].
    destruct (same_lookup _ _ _ _ (symmetry Hs) H1) as (n0 & H0 & [E _]%unlink_fd). rewrite <- E in *.
    split; [eauto|]. intros ->. congruence.
  - intros [(n' & H1 & H2 & H3) Hne]. destruct (same_lookup _ _ _ _ Hs H1) as (n0 & H0 & [E _]%unlink_fd).
    exists n0. rewrite E. split; [easy|]. split; [|easy]. apply lookup_delete_Some. split; [|easy].
    intros E'. rewrite <- E' in H2. congruence.
Qed.

(** A connection leaves the map when the chain of its bucket loses it. *)
Lemma represents_remove h h' c m q n p p' l l' :
  let i := Z.to_nat (bucket_of (cm_nbuckets c) (nc_fd n)) in
  represents h c m → h !! q = Some n → m !! nc_fd n = Some q → cm_buckets c !! i = Some p →
  (∀ x, x ∈ l ↔ lives h (cm_nbuckets c) m i x) → same_conns h h' → (∀ x, x ∉ l → h' !! x = h !! x) →
  chain h' p' l' → NoDup l' → (∀ x, x ∈ l' ↔ x ∈ l ∧ x ≠ q) →
  represents h' (Cmap (<[i := p']> (cm_buckets c)) (cm_nbuckets c) (cm_len c)) (delete (nc_fd n) m).
Proof.
  intros i Hr Hq Hm Hp Hin Hs Hout Hc' Hd' Hin'.
  pose proof (λ j x, lives_delete h h' (cm_nbuckets c) m (nc_fd n) q j x n Hs Hq eq_refl Hm) as Hlive.
  split; cbn [cm_buckets cm_nbuckets cm_len].
  - rewrite length_insert. apply (rep_nbuckets _ _ _ Hr).
  - apply (rep_room _ _ _ Hr).
  - intros j pj Hj. destruct (decide (j = i)) as [->|Hji].
    + rewrite list_lookup_insert_eq in Hj by (eapply lookup_lt_Some; exact Hp). injection Hj as <-. exists l'.
      split; [exact Hc'|]. split; [exact Hd'|]. intros x. now rewrite Hlive, <- Hin, Hin'.
    + rewrite list_lookup_insert_ne in Hj by congruence. destruct (rep_bucket _ _ _ Hr _ _ Hj) as (lj & Hcj & Hdj & Hinj).
      exists lj. split; [|split; [exact Hdj|]].
      * apply (chain_ext h); [|exact Hcj]. intros y (ny & Hy & _ & Hiy)%Hinj. apply Hout.
        intros (ny' & Hy' & _ & Hiy')%Hin. congruence.
      * intros x. rewrite Hlive, <- Hinj. split; [|now intros []]. intros Hx. split; [easy|]. intros ->.
        apply Hinj in Hx as (nx & Hnx & _ & Hix). unfold i in Hji. congruence.
  - intros fd x [_ Hx]%lookup_delete_Some. destruct (rep_fd _ _ _ Hr _ _ Hx) as (nx & Hnx & <-).
    destruct (same_lookup _ _ _ _ Hs Hnx) as (nx' & ? & [? _]%unlink_fd). eauto.
  - pose proof (rep_len _ _ _ Hr). rewrite map_size_delete_Some by eauto. lia.
Qed.

Lemma NoDup_middle (q : positive) l1 l2 : NoDup (l1 ++ q :: l2) → NoDup (l1 ++ l2) ∧ ∀ x, x ∈ l1 ++ l2 ↔ x ∈ l1 ++ q :: l2 ∧ x ≠ q.
Proof.
  intros Hd. split; [apply (sublist_NoDup _ (l1 ++ q :: l2)); [exact Hd|]; apply sublist_app; [easy|now constructor]|].
  apply NoDup_app in Hd as (_ & Hd1 & Hd2). inversion Hd2 as [|? ? Hq2 _]; subst.
  assert (Hq1 : q ∉ l1) by (intros Hq; apply (Hd1 q Hq); set_solver).
  intros x. rewrite !elem_of_app, elem_of_cons. clear -Hq1 Hq2. naive_solver.
Qed.

Lemma cmap_delete_spec h c m q n :
  represents h c m → h !! q = Some n → m !! nc_fd n = Some q →
  ∃ h' c', cmap_delete h c q = Some (h', c') ∧ represents h' c' (delete (nc_fd n) m) ∧
    same_conns h h' ∧ only_in m h h' ∧ cm_nbuckets c' = cm_nbuckets c ∧ cm_len c' = cm_len c.
Proof.
  intros Hr Hq Hm. unfold cmap_delete. rewrite Hq. cbn [mbind option_bind].
  destruct (represents_bucket h c m (nc_fd n) Hr) as [p Hp]. rewrite Hp. cbn [mbind option_bind].
  destruct (rep_bucket _ _ _ Hr _ _ Hp) as (l & Hc & Hd & Hin).
  assert (Hql : q ∈ l) by (apply Hin; now exists n). pose proof (chain_length _ _ _ Hc Hd) as Hlen.
  apply list_elem_of_split in Hql as (l1 & l2 & ->). destruct (NoDup_middle _ _ _ Hd) as [Hd' Hin'].
  assert (Hl1 : q ∉ l1) by (intros Hx; apply NoDup_app in Hd as (_ & Hd & _); apply (Hd q Hx); set_solver).
  rewrite (delete_loop_finds h q l2 l1 p None _ Hc Hl1) by (rewrite length_app in Hlen; cbn in Hlen; lia).
  cbn [mbind option_bind]. destruct (last l1) as [b|] eqn:Elast.
  - apply last_Some in Elast as [l0 ->]. rewrite <- !(assoc_L (++)) in *. cbn [app] in *.
    assert (Hbl : b ∈ l0 ++ b :: q :: l2) by set_solver.
    destruct (chain_in _ _ _ b Hc Hbl) as [nb Hb]. rewrite Hb. cbn [mbind option_bind].
    assert (Hs : same_conns h (<[b := set_next nb (nc_next n)]> h)) by now apply same_set_next.
    eexists _, _. split; [reflexivity|]. split; [|split; [exact Hs|split; [|easy]]].
    + assert (Hout : ∀ x, x ∉ l0 ++ b :: q :: l2 → <[b := set_next nb (nc_next n)]> h !! x = h !! x).
      { intros x Hx. rewrite lookup_insert_ne; [easy|]. congruence. }
      pose proof (represents_remove h _ c m q n p p _ _ Hr Hq Hm Hp Hin Hs Hout
        (chain_skip h q n b nb l2 l0 p Hc Hd Hq Hb) Hd' Hin') as Hrem.
      rewrite list_insert_id in Hrem by exact Hp. now destruct c.
    + intros x Hx. rewrite lookup_insert_ne; [easy|]. intros <-. apply Hin in Hbl as (nx & _ & Hnx & _). now apply (Hx (nc_fd nx)).
  - apply last_None in Elast as ->. cbn [app] in *. eexists h, _. split; [reflexivity|].
    split; [|split; [easy|split; [now intros ?|easy]]].
    exact (represents_remove h h c m q n p _ _ _ Hr Hq Hm Hp Hin (reflexivity h) ltac:(easy) (chain_tail _ _ _ _ _ Hc Hq) Hd' Hin').
Qed.
End Update.

(** ** The map as a whole *)

(** C24: The connection map answers as a finite map from descriptors: a lookup
    finds exactly the connection of its descriptor; inserting a connection whose
    descriptor is new and deleting one that is there do so in the finite map,
    also when the table grows and wherever the connection is in its chain. No
    loop runs on, no dangling link is followed, connections keep their content
    and those of other threads are not written at all. *)
Theorem cmap_is_map {A} (h : conns A) c m :
  represents h c m →
  (∀ fd, cmap_get h c fd = Some (m !! fd)) ∧
  (∀ q n, h !! q = Some n → m !! nc_fd n = None → ∃ h' c', cmap_insert 2 h c q = Some (h', c') ∧
    represents h' c' (<[nc_fd n := q]> m) ∧ same_conns h h' ∧ only_in (<[nc_fd n := q]> m) h h') ∧
  (∀ q n, h !! q = Some n → m !! nc_fd n = Some q → ∃ h' c', cmap_delete h c q = Some (h', c') ∧
    represents h' c' (delete (nc_fd n) m) ∧ same_conns h h' ∧ only_in m h h').
Proof.
  intros Hr. split; [intros; now apply cmap_get_spec|]. split; intros q n Hq Hm.
  - destruct (cmap_insert_spec 0 h c m q n Hr Hq Hm) as (h' & c' & ? & ? & ? & ? & _). eauto 10.
  - destruct (cmap_delete_spec h c m q n Hr Hq Hm) as (h' & c' & ? & ? & ? & ? & _). eauto 10.
Qed.

(** Three connections with the descriptors 7, 8 and 9. *)
Definition three_conns : conns unit :=
  {[ 1%positive := NetConn 7 None tt; 2%positive := NetConn 8 None tt; 3%positive := NetConn 9 None tt ]}.

Lemma cmap_is_map_witness :
  represents three_conns cmap_new ∅ ∧
  ∃ h c h' c', cmap_insert 2 three_conns cmap_new 1 = Some (h, c) ∧ cmap_insert 2 h c 2 = Some (h', c') ∧
    cmap_get h' c' 7 = Some (Some 1%positive) ∧ cmap_get h' c' 9 = Some None.
Proof.
  split; [apply represents_new|].
  destruct (cmap_is_map three_conns cmap_new ∅ (represents_new _)) as (_ & Hins & _).
  destruct (Hins 1%positive (NetConn 7 None tt)) as (h & c & E & Hr & Hs & Ho); [reflexivity|reflexivity|].
  destruct (cmap_is_map h c _ Hr) as (_ & Hins2 & _).
  destruct (same_lookup three_conns h 2 (NetConn 8 None tt) Hs) as (n & Hn & [Ef _]%unlink_fd); [reflexivity|].
  destruct (Hins2 2%positive n Hn) as (h' & c' & E' & Hr' & _); [rewrite Ef; reflexivity|].
  exists h, c, h', c'. split; [exact E|]. split; [exact E'|].
  destruct (cmap_is_map h' c' _ Hr') as (Hget & _). rewrite !Hget, Ef. split; reflexivity.
Defined.

(** ** Deletion does not count down *)

Section Churn.
Context {A : Type}.

(** A connection that opens and closes a number of times. *)
Fixpoint churn (k : nat) (h : conns A) (c : cmap) (q : positive) : option (conns A * cmap) :=
  match k with
  | O => Some (h, c)
  | S k =>
      '(h, c) ← cmap_insert 2 h c q;
      '(h, c) ← cmap_delete h c q;
      churn k h c q
  end.

Lemma churn_add k1 : ∀ k2 h c q, churn (k1 + k2) h c q = ('(h, c) ← churn k1 h c q; churn k2 h c q).
Proof.
  induction k1 as [|k1 IH]; intros k2 h c q; [reflexivity|]. cbn [churn Nat.add].
  destruct (cmap_insert 2 h c q) as [[h1 c1]|]; [|reflexivity]. cbn [mbind option_bind].
  destruct (cmap_delete h1 c1 q) as [[h2 c2]|]; [|reflexivity]. apply IH.
Qed.

Context (q : positive) (fd : Z) (m : gmap Z positive) (Hm : m !! fd = None).

(** The connection is in memory and the map does not have it. *)
Definition outside (h : conns A) (c : cmap) : Prop := represents h c m ∧ ∃ n, h !! q = Some n ∧ nc_fd n = fd.

Lemma churn_one h c :
  outside h c → ∃ h' c', churn 1 h c q = Some (h', c') ∧ outside h' c' ∧
    (cm_nbuckets c' = cm_nbuckets c ∧ cm_len c' = cm_len c + 1 ∨ cm_nbuckets c' = cm_nbuckets c * 2).
Proof.
  intros [Hr (n & Hq & <-)]. destruct (cmap_insert_spec 0 h c m q n Hr Hq Hm) as (h1 & c1 & E1 & Hr1 & Hs1 & _ & Hc1).
  destruct (same_lookup _ _ _ _ Hs1 Hq) as (n1 & Hq1 & [Ef1 _]%unlink_fd).
  destruct (cmap_delete_spec h1 c1 _ q n1 Hr1 Hq1) as (h2 & c2 & E2 & Hr2 & Hs2 & _ & Hn2 & Hl2).
  { rewrite Ef1. apply lookup_insert_eq. }
  destruct (same_lookup _ _ _ _ Hs2 Hq1) as (n2 & Hq2 & [Ef2 _]%unlink_fd).
  exists h2, c2. split; [cbn [churn]; rewrite E1; cbn [mbind option_bind]; now rewrite E2|]. split.
  - split; [|exists n2; split; [exact Hq2|congruence]]. rewrite Ef1, delete_insert_id in Hr2 by exact Hm. exact Hr2.
  - rewrite Hn2, Hl2. clear -Hc1. destruct Hc1 as [?|(? & _)]; auto.
Qed.

Lemma churn_doubles d : ∀ h c, outside h c → capacity (cm_nbuckets c) - cm_len c <= Z.of_nat d →
  ∃ k h' c', churn k h c q = Some (h', c') ∧ outside h' c' ∧ cm_nbuckets c' = cm_nbuckets c * 2.
Proof.
  induction d as [|d IH]; intros h c Ho Hd; destruct (churn_one h c Ho) as (h1 & c1 & E1 & Ho1 & [[Hn Hl]|Hn]);
    try (now exists 1%nat, h1, c1).
  - pose proof (rep_len _ _ _ (proj1 Ho1)) as Hlen. fold (capacity (cm_nbuckets c1)) in Hlen. rewrite Hn in Hlen. lia.
  - destruct (IH h1 c1 Ho1) as (k & h' & c' & E & Ho' & Hn'); [rewrite Hn; lia|].
    exists (1 + k)%nat, h', c'. split; [rewrite churn_add, E1; exact E|]. split; [exact Ho'|]. congruence.
Qed.

End Churn.

(** Deleting a connection does not count it off [len]. A single client that
    connects and disconnects again and again makes the table of its thread grow
    beyond every size, although the map never holds more than one connection
    besides those that stay. *)
Theorem cmap_grows_forever {A} (h : conns A) c m q n N :
  represents h c m → h !! q = Some n → m !! nc_fd n = None →
  ∃ k h' c', churn k h c q = Some (h', c') ∧ represents h' c' m ∧ N <= cm_nbuckets c'.
Proof.
  intros Hr Hq Hm.
  assert (Hj : ∀ j : nat, ∃ k h' c', churn k h c q = Some (h', c') ∧ outside q (nc_fd n) m h' c' ∧ Z.of_nat j <= cm_nbuckets c').
  { induction j as [|j (k & h1 & c1 & E1 & Ho1 & Hn1)].
    - exists 0%nat, h, c. split; [reflexivity|]. split; [split; eauto|]. pose proof (rep_room _ _ _ Hr). lia.
    - destruct (churn_doubles q _ m Hm (Z.to_nat (capacity (cm_nbuckets c1) - cm_len c1)) h1 c1 Ho1) as (k2 & h2 & c2 & E2 & Ho2 & Hn2); [lia|].
      exists (k + k2)%nat, h2, c2. split; [rewrite churn_add, E1; exact E2|]. split; [exact Ho2|].
      pose proof (rep_room _ _ _ (proj1 Ho1)). lia. }
  destruct (Hj (Z.to_nat N)) as (k & h' & c' & E & [Hr' _] & Hn). exists k, h', c'. split; [exact E|]. split; [exact Hr'|]. lia.
Qed.

Lemma cmap_grows_forever_witness :
  ∃ k h' c', churn k three_conns cmap_new 1 = Some (h', c') ∧ represents h' c' ∅ ∧ 1000000 <= cm_nbuckets c'.
Proof.
  apply (cmap_grows_forever three_conns cmap_new ∅ 1 (NetConn 7 None tt) 1000000); [apply represents_new|reflexivity|reflexivity].
Defined.
