(* ===== verification/Net.v ===== *)
(** * Net: the event loop

    [src/src/net.c] and [src/src/tls.c]: accepting connections, the round of a
    network thread with its queues (accept, attach, read, process, write,
    close), and background work. Connections are in a heap and the queues hold
    pointers, so that a connection used after it was freed shows. The system
    calls, io_uring and OpenSSL are the parameters of the class [Kernel]. The
    counters of statistics are left out. *)

From S2P Require Import Prelude Util Resp Memcache Http Parse Conn Cmap.

(** ** Results *)

(** [Denied]: the kernel refused a call, and the [assert] that it does not ends
    the process. [Stop]: the process calls [abort], waits forever for a completion,
    or a callback has no defined result. [Spin]: a loop did not end in the turns it
    was given. [Fault]: undefined behaviour or a failed assertion about the state of
    [net.c] itself. *)
Inductive res (A : Type) := Ok (a : A) | Denied | Stop | Spin | Fault.
Arguments Ok {A}. Arguments Denied {A}. Arguments Stop {A}. Arguments Spin {A}. Arguments Fault {A}.

(** What a system call that transfers data returns: its result, or [errno]. *)
Inductive io (A : Type) := Ret (a : A) | Err (errno : Z).
Arguments Ret {A}. Arguments Err {A}.

Definition EINTR : Z := 4.
Definition EIO : Z := 5.
Definition EAGAIN : Z := 11.

Definition SOL_SOCKET : Z := 1.
Definition SO_KEEPALIVE : Z := 9.
Definition IPPROTO_TCP : Z := 6.
Definition TCP_NODELAY : Z := 1.
Definition TCP_KEEPIDLE : Z := 4.
Definition TCP_KEEPINTVL : Z := 5.
Definition TCP_KEEPCNT : Z := 6.
Definition TCP_QUICKACK : Z := 12.
Definition O_NONBLOCK : Z := 2048.
Definition EPOLLIN : Z := 1.
Definition EPOLLOUT : Z := 4.
Definition EPOLLEXCLUSIVE : Z := 2 ^ 28.
Definition EPOLL_CTL_ADD : Z := 1.
Definition EPOLL_CTL_DEL : Z := 2.
Definition SSL_ERROR_WANT_READ : Z := 2.
Definition SSL_ERROR_WANT_WRITE : Z := 3.
Definition SSL_ERROR_ZERO_RETURN : Z := 6.

(** ** The kernel and OpenSSL *)

Class Kernel (K : Type) := {
  (** a new event queue *)
  k_evqueue : K → Z * K;
  k_accept : K → Z → Z * K;
  k_getfl : K → Z → Z * K;
  k_setfl : K → Z → Z → Z * K;
  k_setsockopt : K → Z → Z → Z → Z → Z * K;
  k_epoll_ctl : K → Z → Z → Z → Z → Z * K;
  (** the descriptors that are ready in a queue, at most a number *)
  k_epoll_wait : K → Z → Z → io (list Z) * K;
  k_read : K → Z → Z → io bytes * K;
  k_write : K → Z → bytes → io Z * K;
  k_close : K → Z → K;
  (** a batch of reads: the result of the submission, what each buffer gets,
      and the results in the order in which the reads complete *)
  k_uring_read : K → list Z → Z * list bytes * list Z * K;
  k_uring_write : K → list (Z * bytes) → Z * list Z * K;
  (** OpenSSL on the connection of a descriptor *)
  k_usetls : bool;
  k_ssl_new : K → Z → bool * K;
  k_ssl_accept : K → Z → Z * K;
  k_ssl_read : K → Z → Z → Z * bytes * K;
  k_ssl_write : K → Z → bytes → Z * Z * K;
  k_ssl_error : K → Z → Z → Z;
  k_ssl_shutdown : K → Z → Z * K;
  k_ssl_free : K → Z → K
}.

(** ** tls.c *)

Section Tls.
Context {K : Type} `{Kernel K}.
Implicit Types k : K.

(** [tls_accept]: [None] when it fails, otherwise whether there is a TLS
    object. *)
Definition tls_accept k (fd : Z) : option bool * K :=
  if negb k_usetls then (Some false, k)
  else
    let '(ok, k) := k_ssl_new k fd in
    if negb ok then (None, k)
    else
      let '(ret, k) := k_ssl_accept k fd in
      if ret <=? 0 then
        let err := k_ssl_error k fd ret in
        if negb (err =? SSL_ERROR_WANT_READ) && negb (err =? SSL_ERROR_WANT_WRITE)
        then (None, k_ssl_free k fd) else (Some true, k)
      else (Some true, k).

Definition tls_close k (fd : Z) : K :=
  let '(ret, k) := k_ssl_shutdown k fd in
  let k := if ret =? 0 then (k_ssl_shutdown k fd).2 else k in
  k_close (k_ssl_free k fd) fd.

(** The value and [errno] for a call that did not succeed. *)
Definition tls_error {A} k (fd ret : Z) (zero : A) : io A :=
  let err := k_ssl_error k fd ret in
  if err =? SSL_ERROR_ZERO_RETURN then Ret zero
  else if (err =? SSL_ERROR_WANT_READ) || (err =? SSL_ERROR_WANT_WRITE) then Err EAGAIN
  else Err EIO.

Definition tls_write k (fd : Z) (data : bytes) : io Z * K :=
  let '(ret, nbytes, k) := k_ssl_write k fd data in
  if ret =? 1 then (Ret nbytes, k) else (tls_error k fd ret 0, k).

Definition tls_read k (fd len : Z) : io bytes * K :=
  let '(ret, data, k) := k_ssl_read k fd len in
  if ret =? 1 then (Ret data, k) else (tls_error k fd ret [], k).

(** ** Options of a socket *)

Definition setnonblock k (fd : Z) : Z * K :=
  let '(flags, k) := k_getfl k fd in
  if flags =? -1 then (-1, k) else k_setfl k fd (flags .| O_NONBLOCK).

(** The C value of a comparison. *)
Definition b2z (b : bool) : Z := if b then 1 else 0.

Definition settcpnodelay k (fd : Z) (nodelay : bool) : Z * K :=
  let '(ret, k) := k_setsockopt k fd SOL_SOCKET TCP_NODELAY (b2z nodelay) in
  (b2z (ret =? 0), k).

Definition setquickack k (fd : Z) (quickack : bool) : Z * K :=
  let '(ret, k) := k_setsockopt k fd SOL_SOCKET TCP_QUICKACK (b2z quickack) in
  (b2z (ret =? 0), k).

Definition setkeepalive k (fd : Z) (keepalive : bool) : Z * K :=
  let '(ret, k) := k_setsockopt k fd SOL_SOCKET SO_KEEPALIVE (b2z keepalive) in
  if negb (ret =? 0) then (-1, k)
  else if negb keepalive then (0, k)
  else
    let '(ret, k) := k_setsockopt k fd IPPROTO_TCP TCP_KEEPIDLE 300 in
    if negb (ret =? 0) then (-1, k)
    else
      let '(ret, k) := k_setsockopt k fd IPPROTO_TCP TCP_KEEPINTVL 30 in
      if negb (ret =? 0) then (-1, k)
      else
        let '(ret, k) := k_setsockopt k fd IPPROTO_TCP TCP_KEEPCNT 3 in
        if negb (ret =? 0) then (-1, k) else (0, k).

(** ** The event queue *)

Definition addread k (qfd fd : Z) : Z * K := k_epoll_ctl k EPOLL_CTL_ADD qfd fd (EPOLLIN .| EPOLLEXCLUSIVE).
Definition delread k (qfd fd : Z) : Z * K := k_epoll_ctl k EPOLL_CTL_DEL qfd fd EPOLLIN.
Definition addwrite k (qfd fd : Z) : Z * K := k_epoll_ctl k EPOLL_CTL_ADD qfd fd EPOLLOUT.
Definition delwrite k (qfd fd : Z) : Z * K := k_epoll_ctl k EPOLL_CTL_DEL qfd fd EPOLLOUT.

End Tls.

(** ** Descriptors that wait for TLS *)

(** [tls_ready_fds] without its capacity. *)
Definition save_tls_fd (fds : list Z) (fd : Z) : list Z := fds ++ [fd].

(** [del_tls_fd]: the first occurrence is overwritten with the last. *)
Definition del_tls_fd (fds : list Z) (fd : Z) : bool * list Z :=
  match list_find (λ x, x = fd) fds with
  | Some (i, _) => (true, take (length fds - 1) (<[i := default 0 (last fds)]> fds))
  | None => (false, fds)
  end.

(** ** The state *)

Definition PACKETSIZE : Z := 16384.
Definition MINURINGEVENTS : Z := 2.

(** What all threads share. *)
Record shared (K W J : Type) := Shared {
  n_kernel : K; n_app : W; n_heap : conns (conn J);
  n_nconns : Z; n_tconns : Z; n_rconns : Z; n_tlsfds : list Z; n_next_ctx : Z
}.
Arguments Shared {K W J}. Arguments n_kernel {K W J}. Arguments n_app {K W J}. Arguments n_heap {K W J}.
Arguments n_nconns {K W J}. Arguments n_tconns {K W J}. Arguments n_rconns {K W J}.
Arguments n_tlsfds {K W J}. Arguments n_next_ctx {K W J}.

(** [struct qthreadctx]: what [net_main] sets, with the queues of all threads. *)
Record qopts := Qopts {
  t_qfd : Z; t_sfd : list Z; t_maxconns : Z; t_tcpnodelay : bool; t_keepalive : bool;
  t_quickack : bool; t_queuesize : nat; t_uring : bool; t_qfds : list Z
}.

(** The part of [struct qthreadctx] that changes. An entry of [qins] is the
    connection, the number of its packet buffer and the length. *)
Record qthreadctx := Qctx {
  t_opts : qopts; t_nconns : Z; t_ntlsconns : Z; t_cmap : cmap; t_inpkts : list bytes;
  t_qreads : list positive; t_qins : list (positive * nat * Z); t_qattachs : list positive;
  t_qouts : list positive; t_qcloses : list positive
}.

(** What the callbacks of background work do: [work] in a thread of its own,
    which may leave a result in the job, and [done] in the event loop. *)
Class Background (W J : Type) := {
  bg_work : W → J → option (W * J);
  bg_done : W → J → conn J → option (W * conn J)
}.

Section Net.
Context {K W J : Type} {HK : Kernel K} {HS : Conn.Server W J} {HB : Background W J}.

Definition net (A : Type) : Type := qthreadctx → shared K W J → res (A * qthreadctx * shared K W J).

#[export] Instance net_ret : MRet net := λ A a t s, Ok (a, t, s).
#[export] Instance net_bind : MBind net := λ A B f m t s,
  match m t s with
  | Ok (a, t, s) => f a t s
  | Denied => Denied
  | Stop => Stop
  | Spin => Spin
  | Fault => Fault
  end.

Definition fault {A} : net A := λ t s, Fault.
Definition stop {A} : net A := λ t s, Stop.
Definition spin {A} : net A := λ t s, Spin.
Definition get_ctx : net qthreadctx := λ t s, Ok (t, t, s).
Definition get_opts : net qopts := λ t s, Ok (t_opts t, t, s).

(** A system call. *)
Definition sys {A} (f : K → A * K) : net A := λ t s,
  let '(a, k) := f (n_kernel s) in
  Ok (a, t, Shared k (n_app s) (n_heap s) (n_nconns s) (n_tconns s) (n_rconns s) (n_tlsfds s) (n_next_ctx s)).
Definition sys_close (fd : Z) : net unit := sys (λ k, (tt, k_close k fd)).

(** [assert] of the state of the program, and of the success of a system call. *)
Definition assertion (b : bool) : net unit := if b then mret tt else fault.
Definition granted (b : bool) : net unit := if b then mret tt else λ t s, Denied.

Definition put_heap (h : conns (conn J)) : net unit := λ t s,
  Ok (tt, t, Shared (n_kernel s) (n_app s) h (n_nconns s) (n_tconns s) (n_rconns s) (n_tlsfds s) (n_next_ctx s)).
Definition get_heap : net (conns (conn J)) := λ t s, Ok (n_heap s, t, s).
Definition deref (q : positive) : net (net_conn (conn J)) := λ t s,
  match n_heap s !! q with Some n => Ok (n, t, s) | None => Fault end.
Definition put_conn (q : positive) (c : conn J) : net unit :=
  n ← deref q; h ← get_heap; put_heap (<[q := NetConn (nc_fd n) (nc_next n) c]> h).

Definition upd_ctx (f : qthreadctx → qthreadctx) : net unit := λ t s, Ok (tt, f t, s).
Definition put_cmap (c : cmap) : net unit := upd_ctx (λ t,
  Qctx (t_opts t) (t_nconns t) (t_ntlsconns t) c (t_inpkts t) (t_qreads t) (t_qins t) (t_qattachs t)
    (t_qouts t) (t_qcloses t)).
Definition add_nconns (d : Z) : net unit := upd_ctx (λ t,
  Qctx (t_opts t) (t_nconns t + d) (t_ntlsconns t) (t_cmap t) (t_inpkts t) (t_qreads t) (t_qins t)
    (t_qattachs t) (t_qouts t) (t_qcloses t)).
Definition add_ntlsconns (d : Z) : net unit := upd_ctx (λ t,
  Qctx (t_opts t) (t_nconns t) (t_ntlsconns t + d) (t_cmap t) (t_inpkts t) (t_qreads t) (t_qins t)
    (t_qattachs t) (t_qouts t) (t_qcloses t)).
Definition put_inpkts (pkts : list bytes) : net unit := upd_ctx (λ t,
  Qctx (t_opts t) (t_nconns t) (t_ntlsconns t) (t_cmap t) pkts (t_qreads t) (t_qins t) (t_qattachs t)
    (t_qouts t) (t_qcloses t)).

(** The queues are arrays of [queuesize] entries. *)
Definition push {A} (x : A) (sel : qthreadctx → list A) (set : qthreadctx → list A → qthreadctx) : net unit := λ t s,
  if (length (sel t) <? t_queuesize (t_opts t))%nat then Ok (tt, set t (sel t ++ [x]), s) else Fault.
Definition push_reads (q : positive) : net unit := push q t_qreads (λ t l,
  Qctx (t_opts t) (t_nconns t) (t_ntlsconns t) (t_cmap t) (t_inpkts t) l (t_qins t) (t_qattachs t) (t_qouts t) (t_qcloses t)).
Definition push_ins (x : positive * nat * Z) : net unit := push x t_qins (λ t l,
  Qctx (t_opts t) (t_nconns t) (t_ntlsconns t) (t_cmap t) (t_inpkts t) (t_qreads t) l (t_qattachs t) (t_qouts t) (t_qcloses t)).
Definition push_attachs (q : positive) : net unit := push q t_qattachs (λ t l,
  Qctx (t_opts t) (t_nconns t) (t_ntlsconns t) (t_cmap t) (t_inpkts t) (t_qreads t) (t_qins t) l (t_qouts t) (t_qcloses t)).
Definition push_outs (q : positive) : net unit := push q t_qouts (λ t l,
  Qctx (t_opts t) (t_nconns t) (t_ntlsconns t) (t_cmap t) (t_inpkts t) (t_qreads t) (t_qins t) (t_qattachs t) l (t_qcloses t)).
Definition push_closes (q : positive) : net unit := push q t_qcloses (λ t l,
  Qctx (t_opts t) (t_nconns t) (t_ntlsconns t) (t_cmap t) (t_inpkts t) (t_qreads t) (t_qins t) (t_qattachs t) (t_qouts t) l).

Fixpoint for_each {A} (l : list A) (f : A → net unit) : net unit :=
  match l with
  | [] => mret tt
  | x :: l => f x;; for_each l f
  end.

(** The value of an expression that is undefined without one. *)
Definition defined {A} (o : option A) : net A := match o with Some a => mret a | None => fault end.

(** A callback of the application. *)
Definition app {A} (f : W → option (W * A)) : net A := λ t s,
  match f (n_app s) with
  | Some (w, a) => Ok (a, t, Shared (n_kernel s) w (n_heap s) (n_nconns s) (n_tconns s) (n_rconns s) (n_tlsfds s) (n_next_ctx s))
  | None => Stop
  end.

(** Atomic counters; [fetch_nconns] is the value before. *)
Definition fetch_nconns (d : Z) : net Z := λ t s,
  Ok (n_nconns s, t, Shared (n_kernel s) (n_app s) (n_heap s) (u64 (n_nconns s + d)) (n_tconns s) (n_rconns s) (n_tlsfds s) (n_next_ctx s)).
Definition incr_tconns : net unit := λ t s,
  Ok (tt, t, Shared (n_kernel s) (n_app s) (n_heap s) (n_nconns s) (u64 (n_tconns s + 1)) (n_rconns s) (n_tlsfds s) (n_next_ctx s)).
Definition incr_rconns : net unit := λ t s,
  Ok (tt, t, Shared (n_kernel s) (n_app s) (n_heap s) (n_nconns s) (n_tconns s) (u64 (n_rconns s + 1)) (n_tlsfds s) (n_next_ctx s)).
Definition fetch_next_ctx : net Z := λ t s,
  Ok (n_next_ctx s, t, Shared (n_kernel s) (n_app s) (n_heap s) (n_nconns s) (n_tconns s) (n_rconns s) (n_tlsfds s) (u64 (n_next_ctx s + 1))).

Definition tlsfds {A} (f : list Z → A * list Z) : net A := λ t s,
  let '(a, fds) := f (n_tlsfds s) in
  Ok (a, t, Shared (n_kernel s) (n_app s) (n_heap s) (n_nconns s) (n_tconns s) (n_rconns s) fds (n_next_ctx s)).

(** ** Connections *)

(** [conn_new]: all fields zero. *)
Definition conn_new (fd : Z) : net positive :=
  h ← get_heap;
  let q := fresh (dom h) in
  put_heap (<[q := NetConn fd None (conn_open false)]> h);; mret q.

Definition conn_free (q : positive) : net unit := deref q;; h ← get_heap; put_heap (delete q h).

(** ** Accepting *)

(** A listener is ready: the new descriptor goes to the queue of the next
    thread. *)
Definition accept_listener (sfd : Z) : net unit :=
  o ← get_opts;
  fd ← sys (λ k, k_accept k sfd);
  if fd =? -1 then mret tt else
  ret ← sys (λ k, setnonblock k fd);
  if ret =? -1 then sys_close fd else
  let istls := bool_decide (t_sfd o !! 2%nat = Some sfd) in
  ok ← (if bool_decide (t_sfd o !! 0%nat = Some sfd) || istls then
          ret ← sys (λ k, setkeepalive k fd (t_keepalive o));
          if ret =? -1 then sys_close fd;; mret false else
          ret ← sys (λ k, settcpnodelay k fd (t_tcpnodelay o));
          if ret =? -1 then sys_close fd;; mret false else
          ret ← sys (λ k, setquickack k fd (t_quickack o));
          if ret =? -1 then sys_close fd;; mret false else
          (if istls then tlsfds (λ l, (tt, save_tls_fd l fd)) else mret tt);; mret true
        else mret true);
  if negb ok then mret tt else
  i ← fetch_next_ctx;
  qfd ← defined (t_qfds o !! Z.to_nat (i mod Z.of_nat (length (t_qfds o))));
  ret ← sys (λ k, addread k qfd fd);
  if ret =? -1 then (if istls then tlsfds (λ l, (tt, (del_tls_fd l fd).2)) else mret tt);; sys_close fd
  else mret tt.

(** The end of the first event: the connection is counted and gets into the map
    of the thread. *)
Definition establish (istls : bool) (q : positive) (tls : bool) : net (option positive) :=
  (if istls then add_ntlsconns 1 else mret tt);;
  add_nconns 1;; incr_tconns;;
  t ← get_ctx; h ← get_heap;
  hc ← defined (cmap_insert 2 h (t_cmap t) q);
  put_heap hc.1;; put_cmap hc.2;;
  put_conn q (conn_open tls);; mret (Some q).

(** The first event of a descriptor: its connection, unless it is rejected. *)
Definition accept_conn (fd : Z) : net (option positive) :=
  o ← get_opts;
  xnconns ← fetch_nconns 1;
  if u64 (t_maxconns o) <=? xnconns then
    incr_rconns;; fetch_nconns (-1);; sys_close fd;; mret None
  else
    istls ← tlsfds (λ l, del_tls_fd l fd);
    q ← conn_new fd;
    tls ← (if istls : bool then sys (λ k, tls_accept k fd) else mret (Some false));
    match tls with
    | None => fetch_nconns (-1);; sys_close fd;; conn_free q;; mret None
    | Some tls => establish istls q tls
    end.

(** Into the queue that fits the state of the connection. *)
Definition enqueue (q : positive) : net unit :=
  n ← deref q;
  let c := nc_rest n in
  match c_bg c with
  | Some _ => push_attachs q
  | None =>
      if (0 <? length (c_out c))%nat then push_outs q
      else if c_closed c then push_closes q
      else push_reads q
  end.

(** The body of the loop of [qaccept]. *)
Definition accept_event (fd : Z) : net unit :=
  t ← get_ctx; h ← get_heap;
  found ← defined (cmap_get h (t_cmap t) fd);
  match found with
  | Some q => enqueue q
  | None =>
      if bool_decide (fd ∈ t_sfd (t_opts t)) then accept_listener fd
      else
        new ← accept_conn fd;
        match new with Some q => enqueue q | None => mret tt end
  end.

Definition qaccept (events : list Z) : net unit := for_each events accept_event.

(** ** Writing *)

(** The loop of [flush_conn] from the byte [written] on. *)
Fixpoint flush_loop (fuel : nat) (q : positive) (written : nat) : net unit :=
  n ← deref q;
  let c := nc_rest n in
  if (written <? length (c_out c))%nat then
    match fuel with
    | O => spin
    | S fuel =>
        r ← sys (λ k, if c_tls c then tls_write k (nc_fd n) (drop written (c_out c))
                      else k_write k (nc_fd n) (drop written (c_out c)));
        match r with
        | Err e => if e =? EAGAIN then flush_loop fuel q written else put_conn q (conn_close c)
        | Ret m => flush_loop fuel q (written + Z.to_nat m)
        end
    end
  else mret tt.

(** [conn->outlen = 0]. *)
Definition clear_out (q : positive) : net unit := n ← deref q; put_conn q (set_out (nc_rest n) []).

Definition flush_conn (fuel : nat) (q : positive) (written : nat) : net unit :=
  flush_loop fuel q written;; clear_out q.

(** ** Background work that is done *)

Definition attach (fuel : nat) (q : positive) : net unit :=
  o ← get_opts;
  n ← deref q;
  job ← defined (c_bg (nc_rest n));
  c ← app (λ w, bg_done w job (nc_rest n));
  put_conn q (set_bg c None);;
  ret ← sys (λ k, delwrite k (t_qfd o) (nc_fd n));
  granted (ret =? 0);;
  ret ← sys (λ k, addread k (t_qfd o) (nc_fd n));
  granted (ret =? 0);;
  flush_conn fuel q 0;;
  n ← deref q;
  if c_closed (nc_rest n) then push_closes q else push_reads q.

Definition qattach (fuel : nat) : net unit := t ← get_ctx; for_each (t_qattachs t) (attach fuel).

(** ** Reading *)

(** Data arrives in a packet buffer. *)
Definition store_pkt (i : nat) (data : bytes) : net unit :=
  t ← get_ctx;
  pkt ← defined (t_inpkts t !! i);
  put_inpkts (<[i := data ++ drop (length data) pkt]> (t_inpkts t)).

(** [handle_read] with the value [n] of the read and [errno]. *)
Definition handle_read (n errno : Z) (i : nat) (q : positive) : net unit :=
  nc ← deref q;
  assertion (length (c_out (nc_rest nc)) =? 0)%nat;;
  assertion (bool_decide (c_bg (nc_rest nc) = None));;
  if (n <=? 0) && ((n =? 0) || negb (errno =? EAGAIN)) then push_closes q
  else
    assertion ((0 <? n) || (n =? -1));;
    let n := Z.max n 0 in
    t ← get_ctx;
    pkt ← defined (t_inpkts t !! i);
    assertion (n <? Z.of_nat (length pkt));;
    put_inpkts (<[i := <[Z.to_nat n := 0]> pkt]> (t_inpkts t));;
    push_ins (q, i, n).

(** Whether the batch goes through io_uring. *)
Definition use_uring (t : qthreadctx) : bool :=
  t_uring (t_opts t) && (MINURINGEVENTS <=? Z.of_nat (length (t_qreads t))) && (t_ntlsconns t =? 0).

Definition read_conn (x : nat * positive) : net unit :=
  let '(i, q) := x in
  n ← deref q;
  r ← sys (λ k, if c_tls (nc_rest n) then tls_read k (nc_fd n) (PACKETSIZE - 1)
                else k_read k (nc_fd n) (PACKETSIZE - 1));
  match r with
  | Ret data => store_pkt i data;; handle_read (size data) 0 i q
  | Err e => handle_read (-1) e i q
  end.

(** The result of one read of a batch. *)
Definition uring_read_done (results : list Z) (x : nat * positive) : net unit :=
  let '(i, q) := x in
  match results !! i with
  | None => stop
  | Some n => if n <? 0 then handle_read (-1) (-n) i q else handle_read n 0 i q
  end.

(** The descriptors of connections. *)
Fixpoint fds_of (l : list positive) : net (list Z) :=
  match l with
  | [] => mret []
  | q :: l => n ← deref q; fds ← fds_of l; mret (nc_fd n :: fds)
  end.

Definition enumerate {A} (l : list A) : list (nat * A) := zip (seq 0 (length l)) l.

Definition qread : net unit :=
  t ← get_ctx;
  if use_uring t then
    fds ← fds_of (t_qreads t);
    r ← sys (λ k, k_uring_read k fds);
    let '(ret, datas, results) := r in
    if ret <? 0 then stop else
    granted (ret =? Z.of_nat (length (t_qreads t)));;
    for_each (enumerate datas) (λ x, store_pkt x.1 x.2);;
    for_each (enumerate (t_qreads t)) (uring_read_done results)
  else for_each (enumerate (t_qreads t)) read_conn.

(** ** Processing *)

(** The body of the loop of [qprocess]. When the callback starts background
    work, [net_conn_bgwork] takes the connection out of the event queue. *)
Definition process (x : positive * nat * Z) : net unit :=
  let '(q, i, n) := x in
  o ← get_opts;
  t ← get_ctx;
  pkt ← defined (t_inpkts t !! i);
  nc ← deref q;
  c ← app (λ w, evdata w (nc_rest nc) (take (Z.to_nat n) pkt));
  put_conn q c;;
  match c_bg c with
  | Some _ =>
      ret ← sys (λ k, delread k (t_qfd o) (nc_fd nc));
      granted (ret =? 0)
  | None =>
      if (0 <? length (c_out c))%nat then push_outs q
      else if c_closed c then push_closes q
      else mret tt
  end.

Definition qprocess : net unit := t ← get_ctx; for_each (t_qins t) process.

(** ** The end of a round *)

Definition close_if_closed (q : positive) : net unit :=
  n ← deref q;
  if c_closed (nc_rest n) then push_closes q else mret tt.

Definition write_conn (fuel : nat) (q : positive) : net unit := flush_conn fuel q 0;; close_if_closed q.

Definition uring_write_done (fuel : nat) (results : list Z) (x : nat * positive) : net unit :=
  let '(i, q) := x in
  match results !! i with
  | None => stop
  | Some n =>
      let n := if n =? - EAGAIN then 0 else n in
      (if n <? 0 then nc ← deref q; put_conn q (conn_close (nc_rest nc))
       else flush_conn fuel q (Z.to_nat n));;
      clear_out q;; close_if_closed q
  end.

Fixpoint outs_of (l : list positive) : net (list (Z * bytes)) :=
  match l with
  | [] => mret []
  | q :: l => n ← deref q; outs ← outs_of l; mret ((nc_fd n, c_out (nc_rest n)) :: outs)
  end.

Definition qwrite (fuel : nat) : net unit :=
  t ← get_ctx;
  if use_uring t then
    outs ← outs_of (t_qouts t);
    r ← sys (λ k, k_uring_write k outs);
    let '(ret, results) := r in
    if ret <? 0 then stop else
    for_each (enumerate (t_qouts t)) (uring_write_done fuel results)
  else for_each (t_qouts t) (write_conn fuel).

Definition close_conn (q : positive) : net unit :=
  n ← deref q;
  (if c_tls (nc_rest n) then sys (λ k, (tt, tls_close k (nc_fd n)));; add_ntlsconns (-1)
   else sys_close (nc_fd n));;
  t ← get_ctx; h ← get_heap;
  hc ← defined (cmap_delete h (t_cmap t) q);
  put_heap hc.1;; put_cmap hc.2;;
  fetch_nconns (-1);; add_nconns (-1);;
  conn_free q.

Definition qclose : net unit := t ← get_ctx; for_each (t_qcloses t) close_conn.

Definition qreset : net unit := upd_ctx (λ t,
  Qctx (t_opts t) (t_nconns t) (t_ntlsconns t) (t_cmap t) (t_inpkts t) [] [] [] [] []).

(** ** A round *)

(** The body of the loop of [qthread]. *)
Definition qround (fuel : nat) : net unit :=
  o ← get_opts;
  r ← sys (λ k, k_epoll_wait k (t_qfd o) (Z.of_nat (t_queuesize o)));
  match r with
  | Err e => if e =? EINTR then mret tt else stop
  | Ret [] => mret tt
  | Ret events =>
      qreset;; qaccept events;; qattach fuel;; qread;; qprocess;; qwrite fuel;; qclose
  end.

(** [qthread] for a number of rounds. *)
Fixpoint qthread (rounds fuel : nat) : net unit :=
  match rounds with
  | O => mret tt
  | S rounds => qround fuel;; qthread rounds fuel
  end.

(** ** Start *)

(** The part of [struct net_opts] the threads are set up with. *)
Record net_opts := NetOpts {
  no_nthreads : nat; no_maxconns : Z; no_tcpnodelay : bool; no_keepalive : bool; no_quickack : bool;
  no_queuesize : nat; no_nouring : bool
}.

(** The loop of [net_main] over the listeners; [None] when it aborts. *)
Fixpoint watch_listeners (k : K) (qfd : Z) (sfd : list Z) : option K :=
  match sfd with
  | [] => Some k
  | fd :: sfd =>
      if fd =? 0 then watch_listeners k qfd sfd
      else
        let '(ret, k) := addread k qfd fd in
        if ret =? -1 then None else watch_listeners k qfd sfd
  end.

Fixpoint start_queues (n : nat) (k : K) (sfd : list Z) : option (list Z * K) :=
  match n with
  | O => Some ([], k)
  | S n =>
      let '(qfd, k) := k_evqueue k in
      if qfd =? -1 then None
      else k ← watch_listeners k qfd sfd; '(qfds, k) ← start_queues n k sfd; Some (qfd :: qfds, k)
  end.

(** [net_main] with its three listeners, up to the start of the threads. *)
Definition net_main (opts : net_opts) (sfd : list Z) (k : K) : option (list qopts * K) :=
  if forallb (λ fd, fd =? 0) sfd then None
  else
    '(qfds, k) ← start_queues (no_nthreads opts) k sfd;
    Some ((λ qfd, Qopts qfd sfd (no_maxconns opts) (no_tcpnodelay opts) (no_keepalive opts) (no_quickack opts)
      (no_queuesize opts) (negb (no_nouring opts)) qfds) <$> qfds, k).

(** [bgwork]: the end of background work, in a thread of its own, with the
    event queue [qfd] of the connection. *)
Definition bgwork_end (qfd : Z) (q : positive) : net unit :=
  n ← deref q;
  job ← defined (c_bg (nc_rest n));
  job ← app (λ w, bg_work w job);
  put_conn q (set_bg (nc_rest n) (Some job));;
  ret ← sys (λ k, addwrite k qfd (nc_fd n));
  granted (ret =? 0).

End Net.
