(* ===== verification/NetSpec.v ===== *)
(** * NetSpec: what the event loop promises

    The laws of the kernel, in terms of the sockets as a program can observe
    them: which descriptors are open, what an event queue watches, and which
    bytes went through. And the server without an event loop: connections by
    descriptor and one step at a time, each with its label. *)

From S2P Require Import Prelude Util Resp Memcache Http Parse Conn Cmap Net.

(** ** Sockets *)

(** Open descriptors; what the event queues watch, by queue and descriptor; the
    bytes the peer was sent and the bytes read from it since the descriptor was
    opened. *)
Record sockets := Sockets {
  so_open : gset Z; so_watch : gmap (Z * Z) Z; so_sent : gmap Z bytes; so_recv : gmap Z bytes
}.

Definition sent (so : sockets) (fd : Z) : bytes := default [] (so_sent so !! fd).
Definition recv (so : sockets) (fd : Z) : bytes := default [] (so_recv so !! fd).
Definition watch (so : sockets) (qfd fd : Z) : option Z := so_watch so !! (qfd, fd).

Definition sock_opened (fd : Z) (so : sockets) : sockets :=
  Sockets ({[fd]} ∪ so_open so) (so_watch so) (<[fd := []]> (so_sent so)) (<[fd := []]> (so_recv so)).
Definition sock_closed (fd : Z) (so : sockets) : sockets :=
  Sockets (so_open so ∖ {[fd]}) (filter (λ x, x.1.2 ≠ fd) (so_watch so)) (so_sent so) (so_recv so).
Definition sock_watch (qfd fd ev : Z) (so : sockets) : sockets :=
  Sockets (so_open so) (<[(qfd, fd) := ev]> (so_watch so)) (so_sent so) (so_recv so).
Definition sock_unwatch (qfd fd : Z) (so : sockets) : sockets :=
  Sockets (so_open so) (delete (qfd, fd) (so_watch so)) (so_sent so) (so_recv so).
Definition sock_sent (fd : Z) (data : bytes) (so : sockets) : sockets :=
  Sockets (so_open so) (so_watch so) (<[fd := sent so fd ++ data]> (so_sent so)) (so_recv so).
Definition sock_recv (fd : Z) (data : bytes) (so : sockets) : sockets :=
  Sockets (so_open so) (so_watch so) (so_sent so) (<[fd := recv so fd ++ data]> (so_recv so)).

(** The sockets after a batch of transfers. *)
Definition sock_recvs (fds : list Z) (datas : list bytes) (so : sockets) : sockets :=
  foldl (λ so x, sock_recv x.1 x.2 so) so (zip fds datas).
Definition sock_sents (outs : list (Z * bytes)) (rs : list Z) (so : sockets) : sockets :=
  foldl (λ so x, sock_sent x.1.1 (take (Z.to_nat x.2) x.1.2) so) so (zip outs rs).

(** A descriptor that is watched is open. *)
Definition sockets_ok (so : sockets) : Prop := ∀ qfd fd ev, watch so qfd fd = Some ev → fd ∈ so_open so.

(** ** The laws of the kernel *)

(** What the manual pages say of the calls. Every call may fail, for lack of memory
    or any other reason, and then changes nothing; a call of [epoll_ctl] that succeeds
    adds a descriptor that was not watched, or takes one away that was. A submission
    of io_uring may take only the first of its entries, and they complete in any
    order. *)
Class KernelOk (K : Type) `{Kernel K} := {
  socks : K → sockets;
  evqueue_law k fd k' : k_evqueue k = (fd, k') →
    (fd = -1 ∧ socks k' = socks k) ∨
    (fd ≠ -1 ∧ (fd ∉ so_open (socks k)) ∧ socks k' = sock_opened fd (socks k));
  accept_law k sfd fd k' : k_accept k sfd = (fd, k') →
    (fd = -1 ∧ socks k' = socks k) ∨
    (fd ≠ -1 ∧ (fd ∉ so_open (socks k)) ∧ socks k' = sock_opened fd (socks k));
  getfl_law k fd r k' : k_getfl k fd = (r, k') → socks k' = socks k;
  setfl_law k fd x r k' : k_setfl k fd x = (r, k') → socks k' = socks k;
  setsockopt_law k fd l o x r k' : k_setsockopt k fd l o x = (r, k') → socks k' = socks k;
  ctl_add_law k qfd fd ev r k' : k_epoll_ctl k EPOLL_CTL_ADD qfd fd ev = (r, k') → fd ∈ so_open (socks k) →
    (r = -1 ∧ socks k' = socks k) ∨
    (r = 0 ∧ watch (socks k) qfd fd = None ∧ socks k' = sock_watch qfd fd ev (socks k));
  ctl_del_law k qfd fd ev r k' : k_epoll_ctl k EPOLL_CTL_DEL qfd fd ev = (r, k') →
    (r = -1 ∧ socks k' = socks k) ∨
    (r = 0 ∧ is_Some (watch (socks k) qfd fd) ∧ socks k' = sock_unwatch qfd fd (socks k));
  wait_law k qfd max r k' : k_epoll_wait k qfd max = (r, k') → socks k' = socks k ∧
    ∀ evs, r = Ret evs → NoDup evs ∧ Z.of_nat (length evs) <= max ∧ ∀ fd, fd ∈ evs → is_Some (watch (socks k) qfd fd);
  read_law k fd len r k' : k_read k fd len = (r, k') →
    match r with Ret data => size data <= len ∧ socks k' = sock_recv fd data (socks k) | Err _ => socks k' = socks k end;
  write_law k fd data r k' : k_write k fd data = (r, k') →
    match r with
    | Ret n => 0 <= n <= size data ∧ socks k' = sock_sent fd (take (Z.to_nat n) data) (socks k)
    | Err _ => socks k' = socks k
    end;
  close_law k fd : socks (k_close k fd) = sock_closed fd (socks k);
  uring_read_law k fds r datas results k' : k_uring_read k fds = (r, datas, results, k') → 0 <= r →
    r <= Z.of_nat (length fds) ∧ length datas = Z.to_nat r ∧ socks k' = sock_recvs fds datas (socks k) ∧
    Forall (λ d, size d < PACKETSIZE) datas ∧
    ∃ rs, Forall2 (λ d x, 0 <= x ∧ x = size d ∨ x < 0 ∧ d = []) datas rs ∧ results ⊆+ rs;
  uring_write_law k outs r results k' : k_uring_write k outs = (r, results, k') → 0 <= r →
    r <= Z.of_nat (length outs) ∧ ∃ rs, Forall2 (λ o x, x <= size o.2) (take (Z.to_nat r) outs) rs ∧ results ⊆+ rs ∧
      socks k' = sock_sents outs rs (socks k);
  ssl_new_law k fd r k' : k_ssl_new k fd = (r, k') → socks k' = socks k;
  ssl_accept_law k fd r k' : k_ssl_accept k fd = (r, k') → socks k' = socks k;
  ssl_shutdown_law k fd r k' : k_ssl_shutdown k fd = (r, k') → socks k' = socks k;
  ssl_free_law k fd : socks (k_ssl_free k fd) = socks k;
  ssl_read_law k fd len r data k' : k_ssl_read k fd len = (r, data, k') →
    if r =? 1 then size data <= len ∧ socks k' = sock_recv fd data (socks k) else socks k' = socks k;
  ssl_write_law k fd data r n k' : k_ssl_write k fd data = (r, n, k') →
    if r =? 1 then 0 <= n <= size data ∧ socks k' = sock_sent fd (take (Z.to_nat n) data) (socks k)
    else socks k' = socks k
}.

(** A kernel that never lacks resources: a descriptor that is open and not watched
    can be added to a queue, one that is watched can be taken away, and a submission
    takes all of its entries. *)
Record grants (K : Type) `{KernelOk K} : Prop := {
  grants_add : ∀ k qfd fd ev, fd ∈ so_open (socks k) → watch (socks k) qfd fd = None →
    (k_epoll_ctl k EPOLL_CTL_ADD qfd fd ev).1 = 0;
  grants_del : ∀ k qfd fd ev, is_Some (watch (socks k) qfd fd) → (k_epoll_ctl k EPOLL_CTL_DEL qfd fd ev).1 = 0;
  grants_submit : ∀ k fds r datas results k', k_uring_read k fds = (r, datas, results, k') → 0 <= r → r = Z.of_nat (length fds)
}.
Arguments grants_add {K _ _}. Arguments grants_del {K _ _}. Arguments grants_submit {K _ _}.

(** What peers send, at any time and on any connection, satisfies a property that
    holds of the start of what it holds of. *)
Record peers_send (K : Type) `{KernelOk K} (said : bytes → Prop) : Prop := {
  send_prefix : ∀ a b, said (a ++ b) → said a;
  send_recv : ∀ k fd, said (recv (socks k) fd)
}.
Arguments send_prefix {K _ _ said}. Arguments send_recv {K _ _ said}.

(** ** The server without an event loop *)

(** One step of the server: a connection is opened; its background work goes on
    or is done; a packet arrives; its output is sent, or only a part of it
    before the connection breaks; it is closed. *)
Inductive label :=
  | Opened (fd : Z) (tls : bool)
  | Worked (fd : Z)
  | Done (fd : Z)
  | Data (fd : Z) (pkt : bytes)
  | Sent (fd : Z) (out : bytes)
  | Broken (fd : Z)
  | Closed (fd : Z).

Definition label_fd (l : label) : Z :=
  match l with
  | Opened fd _ | Worked fd | Done fd | Data fd _ | Sent fd _ | Broken fd | Closed fd => fd
  end.

Section Sessions.
Context {W J : Type} `{Conn.Server W J} `{Background W J}.

Definition sessions : Type := W * gmap Z (conn J).

Inductive session_step : sessions → label → sessions → Prop :=
  | step_opened w C fd tls : C !! fd = None →
      session_step (w, C) (Opened fd tls) (w, <[fd := conn_open tls]> C)
  | step_worked w C fd c j w' j' : C !! fd = Some c → c_bg c = Some j → bg_work w j = Some (w', j') →
      session_step (w, C) (Worked fd) (w', <[fd := set_bg c (Some j')]> C)
  | step_done w C fd c j w' c' : C !! fd = Some c → c_bg c = Some j → bg_done w j c = Some (w', c') →
      session_step (w, C) (Done fd) (w', <[fd := set_bg c' None]> C)
  | step_data w C fd c pkt w' c' : C !! fd = Some c → c_bg c = None → c_out c = [] → evdata w c pkt = Some (w', c') →
      session_step (w, C) (Data fd pkt) (w', <[fd := c']> C)
  | step_sent w C fd c : C !! fd = Some c → c_bg c = None →
      session_step (w, C) (Sent fd (c_out c)) (w, <[fd := set_out c []]> C)
  | step_broken w C fd c : C !! fd = Some c → c_bg c = None →
      session_step (w, C) (Broken fd) (w, <[fd := set_out (conn_close c) []]> C)
  | step_closed w C fd c : C !! fd = Some c → c_bg c = None → c_out c = [] →
      session_step (w, C) (Closed fd) (w, delete fd C).

Inductive session_steps : sessions → list label → sessions → Prop :=
  | steps_nil x : session_steps x [] x
  | steps_snoc x ls y l z : session_steps x ls y → session_step y l z → session_steps x (ls ++ [l]) z.

Lemma session_steps_app x ls1 y ls2 z :
  session_steps x ls1 y → session_steps y ls2 z → session_steps x (ls1 ++ ls2) z.
Proof.
  intros H1 H2. revert H1. induction H2 as [|y ls2 z l z' _ IH Hs]; intros H1; [now rewrite app_nil_r|].
  rewrite (assoc_L (++)). econstructor; [now apply IH|exact Hs].
Qed.
End Sessions.

(** The labels of a connection since it was opened. *)
Definition since (fd : Z) (ls : list label) : list label :=
  foldl (λ acc l, if decide (label_fd l = fd) then match l with Opened _ _ => [] | _ => acc ++ [l] end else acc) [] ls.

(** What was sent and received according to labels. *)
Definition outs (ls : list label) : bytes := concat ((λ l, match l with Sent _ out => out | _ => [] end) <$> ls).
Definition ins (ls : list label) : bytes := concat ((λ l, match l with Data _ pkt => pkt | _ => [] end) <$> ls).
Definition broken (ls : list label) : Prop := ∃ fd, Broken fd ∈ ls.

Lemma since_snoc fd ls l :
  since fd (ls ++ [l]) =
    if decide (label_fd l = fd) then match l with Opened _ _ => [] | _ => since fd ls ++ [l] end else since fd ls.
Proof. unfold since. now rewrite foldl_app. Qed.

Lemma outs_app a b : outs (a ++ b) = outs a ++ outs b.
Proof. unfold outs. now rewrite fmap_app, concat_app. Qed.
Lemma ins_app a b : ins (a ++ b) = ins a ++ ins b.
Proof. unfold ins. now rewrite fmap_app, concat_app. Qed.
