(* ===== verification/NetProofs.v ===== *)
(** * NetProofs: a round of the event loop

    Weakest preconditions for the computations of [Net.v], the invariant of a
    network thread and its proof for every stage of a round. A stage has
    connections in flight, in the queues that are not worked off; all others are
    idle. *)

From S2P Require Import Prelude Util Resp Memcache Http Parse Conn Cmap Net NetSpec.

#[local] Opaque mix13 cmap_insert cmap_delete cmap_get.

Section Net.
Context {K W J : Type} {HK : Kernel K} {HKO : KernelOk K} {HS : Conn.Server W J} {HB : Background W J}.

Abbreviation thread := qthreadctx.
Abbreviation state := (shared K W J).
Implicit Types (t : thread) (s : state) (m : gmap Z positive) (F : list positive).

(** ** Weakest preconditions *)

(** The computation does nothing undefined, is denied something only by a kernel that
    lacks resources, and a result satisfies [Q]. *)
Definition wp {A} (x : net A) (Q : A → thread → state → Prop) t s : Prop :=
  match x t s with Ok (a, t, s) => Q a t s | Denied => ¬ grants K | Stop | Spin => True | Fault => False end.

Lemma wp_bind {A B} (x : net A) (f : A → net B) Q t s : wp x (λ a, wp (f a) Q) t s → wp (x ≫= f) Q t s.
Proof. unfold wp, mbind, net_bind. now destruct (x t s) as [[[a t'] s']| | | |]. Qed.
Lemma wp_assoc {A B C} (x : net A) (y : net B) (z : net C) (Q : C → thread → state → Prop) t s :
  wp ((x;; y);; z) Q t s → wp (x;; y;; z) Q t s.
Proof. unfold wp, mbind, net_bind. now destruct (x t s) as [[[a t'] s']| | | |]. Qed.
Lemma wp_ret {A} (a : A) (Q : A → thread → state → Prop) t s : Q a t s → wp (mret a) Q t s.
Proof. easy. Qed.
Lemma wp_mono {A} (x : net A) (Q R : A → thread → state → Prop) t s :
  wp x Q t s → (∀ a t s, Q a t s → R a t s) → wp x R t s.
Proof. unfold wp. destruct (x t s) as [[[a t'] s']| | | |]; auto. Qed.
Lemma wp_stop {A} (Q : A → thread → state → Prop) t s : wp stop Q t s.
Proof. exact I. Qed.
Lemma wp_get_ctx Q t s : Q t t s → wp get_ctx Q t s.
Proof. easy. Qed.
Lemma wp_get_opts Q t s : Q (t_opts t) t s → wp get_opts Q t s.
Proof. easy. Qed.
Lemma wp_get_heap Q t s : Q (n_heap s) t s → wp get_heap Q t s.
Proof. easy. Qed.
Lemma wp_defined {A} (o : option A) a Q t s : o = Some a → Q a t s → wp (defined o) Q t s.
Proof. now intros ->. Qed.
Lemma wp_assertion b Q t s : b = true → Q tt t s → wp (assertion b) Q t s.
Proof. now intros ->. Qed.
Lemma wp_granted b Q t s : (b = false → ¬ grants K) → (b = true → Q tt t s) → wp (granted b) Q t s.
Proof. destruct b; intros H1 H2; [now apply H2|now apply H1]. Qed.

Lemma wp_deref q n Q t s : n_heap s !! q = Some n → Q n t s → wp (deref q) Q t s.
Proof. unfold wp, deref. now intros ->. Qed.

(** The state with another kernel, application or heap. *)
Definition with_kernel s (k : K) : state :=
  Shared k (n_app s) (n_heap s) (n_nconns s) (n_tconns s) (n_rconns s) (n_tlsfds s) (n_next_ctx s).
Definition with_heap s (h : conns (conn J)) : state :=
  Shared (n_kernel s) (n_app s) h (n_nconns s) (n_tconns s) (n_rconns s) (n_tlsfds s) (n_next_ctx s).
Definition with_app s (w : W) : state :=
  Shared (n_kernel s) w (n_heap s) (n_nconns s) (n_tconns s) (n_rconns s) (n_tlsfds s) (n_next_ctx s).

Lemma wp_sys {A} (f : K → A * K) Q t s :
  (∀ a k, f (n_kernel s) = (a, k) → Q a t (with_kernel s k)) → wp (sys f) Q t s.
Proof. unfold wp, sys. intros HQ. destruct (f (n_kernel s)) as [a k] eqn:E. now apply HQ. Qed.
(** The last of the calls, with nothing after it. *)
Lemma wp_last {A} (x : net A) (f : A → net unit) Q t s : wp (a ← x; f a;; mret tt) Q t s → wp (x ≫= f) Q t s.
Proof.
  unfold wp, mbind, net_bind. destruct (x t s) as [[[a t'] s']| | | |]; try easy. now destruct (f a t' s') as [[[[] ?] ?]| | | |].
Qed.

(** Calls of [epoll_ctl] that are asserted to succeed. *)
Lemma wp_ctl_del (f : K → Z * K) qfd fd ev (B : Type) (y : net B) Q t s :
  (∀ k, f k = k_epoll_ctl k EPOLL_CTL_DEL qfd fd ev) → is_Some (watch (socks (n_kernel s)) qfd fd) →
  (∀ k, socks k = sock_unwatch qfd fd (socks (n_kernel s)) → wp y Q t (with_kernel s k)) →
  wp (ret ← sys f; granted (ret =? 0);; y) Q t s.
Proof.
  intros Hf Hw HQ. apply wp_bind, wp_sys. intros r k Ek. rewrite Hf in Ek. apply wp_bind, wp_granted.
  - intros Er Hg. pose proof (grants_del Hg (n_kernel s) qfd fd ev Hw) as E. rewrite Ek in E. cbn in E. now subst r.
  - intros Er. apply HQ. apply ctl_del_law in Ek as [[-> _]|(_ & _ & Ek)]; [discriminate|exact Ek].
Qed.
Lemma wp_ctl_add (f : K → Z * K) qfd fd ev (B : Type) (y : net B) Q t s :
  (∀ k, f k = k_epoll_ctl k EPOLL_CTL_ADD qfd fd ev) → fd ∈ so_open (socks (n_kernel s)) → watch (socks (n_kernel s)) qfd fd = None →
  (∀ k, socks k = sock_watch qfd fd ev (socks (n_kernel s)) → wp y Q t (with_kernel s k)) →
  wp (ret ← sys f; granted (ret =? 0);; y) Q t s.
Proof.
  intros Hf Ho Hw HQ. apply wp_bind, wp_sys. intros r k Ek. rewrite Hf in Ek. apply wp_bind, wp_granted.
  - intros Er Hg. pose proof (grants_add Hg (n_kernel s) qfd fd ev Ho Hw) as E. rewrite Ek in E. cbn in E. now subst r.
  - intros Er. apply HQ. apply ctl_add_law in Ek as [[-> _]|(_ & _ & Ek)]; [discriminate|exact Ek|exact Ho].
Qed.

Lemma wp_app {A} (f : W → option (W * A)) Q t s :
  (∀ w a, f (n_app s) = Some (w, a) → Q a t (with_app s w)) → wp (app f) Q t s.
Proof. unfold wp, app. intros HQ. destruct (f (n_app s)) as [[w a]|]; [|exact I]. now apply HQ. Qed.
Lemma wp_put_conn q n c Q t s :
  n_heap s !! q = Some n → Q tt t (with_heap s (<[q := NetConn (nc_fd n) (nc_next n) c]> (n_heap s))) → wp (put_conn q c) Q t s.
Proof. intros Hq HQ. unfold put_conn. apply wp_bind. eapply wp_deref; [exact Hq|]. exact HQ. Qed.

Lemma wp_for_each {A} (f : A → net unit) (I : list A → thread → state → Prop) (Q : unit → thread → state → Prop) l :
  ∀ t s, I l t s →
  (∀ x l t s, I (x :: l) t s → wp (f x) (λ _, I l) t s) →
  (∀ t s, I [] t s → Q tt t s) → wp (for_each l f) Q t s.
Proof.
  induction l as [|x l IH]; intros t s HI Hstep HQ; cbn [for_each]; [apply wp_ret; auto|].
  apply wp_bind. eapply wp_mono; [exact (Hstep x l t s HI)|]. intros [] t' s' HI'. now apply IH.
Qed.

(** ** The invariant *)

Definition READING : Z := EPOLLIN .| EPOLLEXCLUSIVE.

Definition so s : sockets := socks (n_kernel s).

(** The connections by descriptor. *)
Definition abs (h : conns (conn J)) m : gmap Z (conn J) := omap (λ q, nc_rest <$> h !! q) m.

(** The data of a connection in a list. *)
Definition pend_of (q : positive) (P : list (positive * bytes)) : bytes :=
  concat (snd <$> filter (λ x, x.1 = q) P).

(** A connection that waits for the next event. *)
Definition idle (c : conn J) : Prop := c_bg c = None → c_out c = [] ∧ c_closed c = false.

Context (o : qopts) (w0 : W) (faithful : bool) (said : bytes → Prop) (Hsaid : peers_send K said).

(** A connection is watched for reading, or, while it has background work, not
    at all until the work is done, then for writing. *)
Definition watched (so : sockets) (fd : Z) (c : conn J) : Prop :=
  match c_bg c with
  | None => watch so (t_qfd o) fd = Some READING
  | Some _ => watch so (t_qfd o) fd = None ∨ watch so (t_qfd o) fd = Some EPOLLOUT
  end.

(** The socket carried exactly what the labels say. *)
Definition io_ok (so : sockets) (ls : list label) (P A : list (positive * bytes)) (fd : Z) (q : positive) : Prop :=
  ¬ broken (since fd ls) →
  sent so fd = outs (since fd ls) ++ pend_of q A ∧ recv so fd = ins (since fd ls) ++ pend_of q P.

(** At any time the data of a connection that is not broken is as peers send it. *)
Definition all_said (ls : list label) : Prop :=
  ∀ ls' fd, ls' `prefix_of` ls → ¬ broken (since fd ls') → said (ins (since fd ls')).

(** The thread with its connections [m], the labels so far, the connections [F]
    in flight, the data [P] read and not processed, and the data [A] written ahead
    of its label. *)
Record core t s m (ls : list label) F (P A : list (positive * bytes)) : Prop := {
  co_opts : t_opts t = o;
  co_map : represents (n_heap s) (t_cmap t) m;
  co_socks : sockets_ok (so s);
  co_conn : ∀ fd q n, m !! fd = Some q → n_heap s !! q = Some n →
    fd ∈ so_open (so s) ∧ watched (so s) fd (nc_rest n) ∧ (q ∉ F → idle (nc_rest n));
  co_new : ∀ fd ev, m !! fd = None → fd ∉ t_sfd o → watch (so s) (t_qfd o) fd = Some ev →
    ev = READING ∧ sent (so s) fd = [] ∧ recv (so s) fd = [];
  co_flight : NoDup F ∧ (length F <= t_queuesize o)%nat ∧ ∀ q, q ∈ F → ∃ fd, m !! fd = Some q;
  co_trace : session_steps (w0, ∅) ls (n_app s, abs (n_heap s) m);
  co_io : faithful = true → ∀ fd q, m !! fd = Some q → io_ok (so s) ls P A fd q;
  co_said : faithful = true → all_said ls;
  co_count : t_nconns t = Z.of_nat (base.size m);
  co_pkts : length (t_inpkts t) = t_queuesize o ∧ Forall (λ p, size p = PACKETSIZE) (t_inpkts t)
}.

Arguments co_opts {t s m ls F P A} _.
Arguments co_map {t s m ls F P A} _.
Arguments co_socks {t s m ls F P A} _.
Arguments co_conn {t s m ls F P A} _.
Arguments co_new {t s m ls F P A} _.
Arguments co_flight {t s m ls F P A} _.
Arguments co_trace {t s m ls F P A} _.
Arguments co_io {t s m ls F P A} _.
Arguments co_said {t s m ls F P A} _.
Arguments co_count {t s m ls F P A} _.
Arguments co_pkts {t s m ls F P A} _.

Lemma core_ctx t t' s m ls F P A :
  core t s m ls F P A → t_opts t' = t_opts t → t_cmap t' = t_cmap t → t_nconns t' = t_nconns t →
  t_inpkts t' = t_inpkts t → core t' s m ls F P A.
Proof. intros [] E1 E2 E3 E4. split; rewrite ?E1, ?E2, ?E3, ?E4; assumption. Qed.

(** The state with the same counters. *)
Definition with_all s (k : K) (w : W) (h : conns (conn J)) : state :=
  Shared k w h (n_nconns s) (n_tconns s) (n_rconns s) (n_tlsfds s) (n_next_ctx s).

(** Counters and the descriptors that wait for TLS do not matter. *)
Lemma core_state t s s' m ls F P A :
  core t s m ls F P A → n_kernel s' = n_kernel s → n_app s' = n_app s → n_heap s' = n_heap s → core t s' m ls F P A.
Proof. intros [] E1 E2 E3. split; unfold so in *; rewrite ?E1, ?E2, ?E3; assumption. Qed.

Lemma core_flight_sub t s m ls F F' P A :
  core t s m ls F P A → NoDup F' → F' ⊆ F →
  (∀ q n, q ∈ F → q ∉ F' → n_heap s !! q = Some n → idle (nc_rest n)) → core t s m ls F' P A.
Proof.
  intros [] Hd Hs Hi. destruct co_flight0 as (Hd0 & Hl & Hin). split; try assumption.
  - intros fd q n Hm Hq. destruct (co_conn0 _ _ _ Hm Hq) as (? & ? & Hidle). split; [easy|]. split; [easy|]. intros HF.
    destruct (decide (q ∈ F)); eauto.
  - split; [exact Hd|]. split; [|intros q Hq; apply Hin, Hs, Hq].
    transitivity (length F); [apply submseteq_length, NoDup_submseteq; [exact Hd|exact Hs]|exact Hl].
Qed.

(** ** Changing one connection *)

(** Nothing but the socket of a descriptor changed. *)
Definition same_but (fd : Z) (so so' : sockets) : Prop :=
  so_open so' = so_open so ∧
  (∀ qf fd', (qf, fd') ≠ (t_qfd o, fd) → watch so' qf fd' = watch so qf fd') ∧
  ∀ fd', fd' ≠ fd → sent so' fd' = sent so fd' ∧ recv so' fd' = recv so fd'.

Lemma same_but_refl fd so : same_but fd so so.
Proof. now split. Qed.
Lemma same_but_trans fd so1 so2 so3 : same_but fd so1 so2 → same_but fd so2 so3 → same_but fd so1 so3.
Proof.
  intros (H1 & H2 & H3) (H4 & H5 & H6). split; [congruence|]. split.
  - intros qf fd' Hne. now rewrite H5, H2.
  - intros fd' Hne. destruct (H3 _ Hne), (H6 _ Hne). split; congruence.
Qed.

Definition plain (fd : Z) (l : label) : Prop := label_fd l = fd ∧ match l with Opened _ _ => False | _ => True end.

Lemma since_app_plain fd ls l : Forall (plain fd) l → since fd (ls ++ l) = since fd ls ++ l.
Proof.
  induction l as [|x l IH] using rev_ind; [now rewrite !app_nil_r|]. intros [Hl Hx]%Forall_app.
  rewrite (assoc_L (++)), since_snoc. inversion Hx as [|? ? [Hfd Ho] _]; subst. rewrite decide_True by easy.
  rewrite (IH Hl), <- (assoc_L (++)). now destruct x.
Qed.

Lemma since_app_other fd fd' ls l : Forall (plain fd) l → fd' ≠ fd → since fd' (ls ++ l) = since fd' ls.
Proof.
  intros Hl Hne. induction l as [|x l IH] using rev_ind; [now rewrite !app_nil_r|]. apply Forall_app in Hl as [Hl Hx].
  rewrite (assoc_L (++)), since_snoc. inversion Hx as [|? ? [Hfd _] _]; subst. rewrite decide_False by congruence.
  now apply IH.
Qed.

Lemma conns_abs_lookup h m fd q n : m !! fd = Some q → h !! q = Some n → abs h m !! fd = Some (nc_rest n).
Proof. intros Hm Hq. unfold abs. rewrite lookup_omap, Hm. cbn. now rewrite Hq. Qed.

Lemma conns_abs_insert h c m fd q n c' :
  represents h c m → m !! fd = Some q → h !! q = Some n →
  abs (<[q := NetConn (nc_fd n) (nc_next n) c']> h) m = <[fd := c']> (abs h m).
Proof.
  intros Hr Hm Hq. apply map_eq. intros fd'. unfold abs. rewrite lookup_omap. destruct (decide (fd' = fd)) as [->|Hne].
  - rewrite Hm, lookup_insert_eq. cbn. now rewrite lookup_insert_eq.
  - rewrite lookup_insert_ne, lookup_omap by congruence. destruct (m !! fd') as [q'|] eqn:Em; [|reflexivity]. cbn.
    rewrite lookup_insert_ne; [reflexivity|]. intros <-. apply Hne. eapply represents_injective; eauto.
Qed.

Lemma said_snoc ls l :
  all_said ls → (∀ fd, ¬ broken (since fd (ls ++ [l])) → said (ins (since fd (ls ++ [l])))) → all_said (ls ++ [l]).
Proof.
  intros Hls Hl ls' fd [l2 Hpre]. destruct l2 as [|x l2 _] using rev_ind.
  - rewrite app_nil_r in Hpre. subst ls'. apply Hl.
  - rewrite (assoc_L (++)) in Hpre. apply app_inj_tail in Hpre as [-> _]. apply Hls. now exists l2.
Qed.

Lemma core_update t s m ls F P A fd q n k w c l P' A' :
  core t s m ls F P A → m !! fd = Some q → n_heap s !! q = Some n →
  same_but fd (so s) (socks k) → watched (socks k) fd c → q ∈ F ∨ idle c → Forall (plain fd) [l] →
  session_steps (n_app s, abs (n_heap s) m) [l] (w, <[fd := c]> (abs (n_heap s) m)) →
  (faithful = true → io_ok (so s) ls P A fd q → io_ok (socks k) (ls ++ [l]) P' A' fd q) →
  (∀ q', q' ≠ q → pend_of q' P' = pend_of q' P ∧ pend_of q' A' = pend_of q' A) →
  core t (with_all s k w (<[q := NetConn (nc_fd n) (nc_next n) c]> (n_heap s))) m (ls ++ [l]) F P' A'.
Proof.
  intros Hc Hm Hq (Hopen & Hwatch & Hio) Hw Hidle Hl Hsteps Hfd Hp. pose proof (co_map Hc) as Hr.
  assert (Hfdq : ∀ fd', m !! fd' = Some q → fd' = fd) by (intros fd' Hm'; eapply represents_injective; eauto).
  split; try apply Hc; cbn [n_heap n_app with_all]; unfold so; cbn [n_kernel with_all].
  - apply (represents_ext (n_heap s)); [exact Hr|]. intros fd' q' n' Hm' Hq'. destruct (decide (q' = q)) as [->|Hne].
    + rewrite lookup_insert_eq. eexists. split; [reflexivity|]. cbn. split; congruence.
    + rewrite lookup_insert_ne by congruence. eauto.
  - intros qf fd' ev Hev. destruct (decide ((qf, fd') = (t_qfd o, fd))) as [[= -> ->]|Hne].
    + rewrite Hopen. apply (co_conn Hc _ _ _ Hm Hq).
    + rewrite Hwatch in Hev by exact Hne. rewrite Hopen. now apply (co_socks Hc) in Hev.
  - intros fd' q' n' Hm' Hq'. destruct (decide (q' = q)) as [->|Hne].
    + rewrite lookup_insert_eq in Hq'. injection Hq' as <-. rewrite (Hfdq _ Hm'). cbn.
      rewrite Hopen. split; [apply (co_conn Hc _ _ _ Hm Hq)|]. split; [exact Hw|]. now destruct Hidle.
    + rewrite lookup_insert_ne in Hq' by congruence. destruct (co_conn Hc _ _ _ Hm' Hq') as (H1' & H2' & H3').
      rewrite Hopen. split; [exact H1'|]. split; [|exact H3']. unfold watched in *. rewrite Hwatch; [exact H2'|].
      intros [= ->]. congruence.
  - intros fd' ev Hnone Hs Hev. assert (fd' ≠ fd) by congruence. rewrite Hwatch in Hev by congruence.
    destruct (Hio fd') as [-> ->]; [assumption|]. now apply (co_new Hc).
  - rewrite (conns_abs_insert _ _ _ _ _ _ _ Hr Hm Hq). eapply session_steps_app; [apply (co_trace Hc)|exact Hsteps].
  - intros Hf fd' q' Hm'. destruct (decide (fd' = fd)) as [->|Hne].
    + replace q' with q in * by congruence. apply Hfd; [exact Hf|]. now apply (co_io Hc).
    + unfold io_ok. rewrite (since_app_other fd) by assumption. destruct (Hio fd' Hne) as [-> ->].
      destruct (Hp q') as [-> ->]; [|now apply (co_io Hc)]. intros ->. now apply Hne, Hfdq.
  - intros Hf. apply said_snoc; [exact (co_said Hc Hf)|]. intros fd' Hb. destruct (decide (fd' = fd)) as [->|Hne].
    + destruct (Hfd Hf (co_io Hc Hf _ _ Hm) Hb) as [_ E]. apply (send_prefix Hsaid _ (pend_of q P')). rewrite <- E. apply (send_recv Hsaid).
    + rewrite (since_app_other fd) in * by assumption. now apply (co_said Hc Hf).
Qed.

(** ** Sockets *)

Lemma sent_insert so fd data fd' : sent (sock_sent fd data so) fd' = if decide (fd' = fd) then sent so fd ++ data else sent so fd'.
Proof.
  unfold sent at 1, sock_sent; cbn. destruct (decide (fd' = fd)) as [->|Hne]; [now rewrite lookup_insert_eq|].
  now rewrite lookup_insert_ne by congruence.
Qed.
Lemma recv_insert so fd data fd' : recv (sock_recv fd data so) fd' = if decide (fd' = fd) then recv so fd ++ data else recv so fd'.
Proof.
  unfold recv at 1, sock_recv; cbn. destruct (decide (fd' = fd)) as [->|Hne]; [now rewrite lookup_insert_eq|].
  now rewrite lookup_insert_ne by congruence.
Qed.

(** Bytes were sent on one descriptor, and nothing else happened. *)
Definition only_sent (fd : Z) (so so' : sockets) (data : bytes) : Prop :=
  so_open so' = so_open so ∧ so_watch so' = so_watch so ∧ so_recv so' = so_recv so ∧
  (∀ fd', fd' ≠ fd → sent so' fd' = sent so fd') ∧ sent so' fd = sent so fd ++ data.

Lemma only_sent_nil fd so : only_sent fd so so [].
Proof. unfold only_sent. now rewrite app_nil_r. Qed.

Lemma only_sent_trans fd so1 so2 so3 a b : only_sent fd so1 so2 a → only_sent fd so2 so3 b → only_sent fd so1 so3 (a ++ b).
Proof.
  intros (E1 & E2 & E3 & E4 & E5) (G1 & G2 & G3 & G4 & G5).
  repeat (split; [congruence|]). split; [intros fd' Hne; now rewrite G4, E4|]. now rewrite G5, E5, (assoc_L (++)).
Qed.

Lemma sock_sent_only fd data so : only_sent fd so (sock_sent fd data so) data.
Proof.
  repeat (split; [reflexivity|]). split; [|now rewrite sent_insert, decide_True].
  intros fd' Hne. now rewrite sent_insert, decide_False.
Qed.

Lemma only_sent_but fd so so' data : only_sent fd so so' data → same_but fd so so'.
Proof.
  intros (E1 & E2 & E3 & E4 & E5). split; [exact E1|]. split; [intros; unfold watch; now rewrite E2|].
  intros fd' Hne. split; [now apply E4|]. unfold recv. now rewrite E3.
Qed.

(** [write] or [tls_write]. *)
Lemma conn_write_law (tls : bool) k fd data r k' :
  (if tls then tls_write k fd data else k_write k fd data) = (r, k') →
  match r with
  | Ret n => 0 <= n <= size data ∧ only_sent fd (socks k) (socks k') (take (Z.to_nat n) data)
  | Err _ => socks k' = socks k
  end.
Proof.
  destruct tls; intros E.
  - unfold tls_write in E. destruct (k_ssl_write k fd data) as [[ret nb] k1] eqn:E1. pose proof (ssl_write_law _ _ _ _ _ _ E1) as Hl.
    destruct (ret =? 1); injection E as <- <-.
    + destruct Hl as [? ->]. split; [easy|apply sock_sent_only].
    + unfold tls_error. destruct (_ =? SSL_ERROR_ZERO_RETURN); [|now destruct (_ || _)].
      rewrite Hl. split; [unfold size; lia|apply only_sent_nil].
  - pose proof (write_law _ _ _ _ _ E) as Hl. destruct r; [|exact Hl]. destruct Hl as [? ->].
    split; [easy|apply sock_sent_only].
Qed.

(** ** Flushing *)

(** Either all that was left is written, or the connection is marked closed. *)
Lemma flush_loop_spec q n fuel : ∀ t s written,
  n_heap s !! q = Some n →
  wp (flush_loop fuel q written) (λ _ t' s', t' = t ∧ ∃ k data, only_sent (nc_fd n) (so s) (socks k) data ∧
    (s' = with_kernel s k ∧ data = drop written (c_out (nc_rest n)) ∨
     s' = with_all s k (n_app s) (<[q := NetConn (nc_fd n) (nc_next n) (conn_close (nc_rest n))]> (n_heap s)))) t s.
Proof.
  induction fuel as [|fuel IH]; intros t s written Hq; cbn [flush_loop]; apply wp_bind, (wp_deref _ n); try exact Hq.
  all: destruct (written <? length (c_out (nc_rest n)))%nat eqn:El; [apply Nat.ltb_lt in El|apply Nat.ltb_ge in El].
  1: exact I.
  2: apply wp_bind, wp_sys; intros r k E; pose proof (conn_write_law _ _ _ _ _ _ E) as Hl; destruct r as [a|e].
  2: { destruct Hl as [Ha Ho]. eapply wp_mono; [apply IH; exact Hq|]. intros [] t' s' (-> & k2 & data & Ho2 & Hcase).
       split; [reflexivity|]. exists k2, (take (Z.to_nat a) (drop written (c_out (nc_rest n))) ++ data).
       split; [eapply only_sent_trans; [exact Ho|exact Ho2]|]. destruct Hcase as [[-> ->]| ->]; [left|right; reflexivity].
       split; [reflexivity|]. rewrite <- drop_drop. apply take_drop. }
  2: { destruct (e =? EAGAIN).
       - eapply wp_mono; [apply IH; exact Hq|]. intros [] t' s' (-> & k2 & data & Ho2 & Hcase).
         split; [reflexivity|]. exists k2, data. unfold so in Ho2. cbn [n_kernel with_kernel] in Ho2. rewrite Hl in Ho2.
         split; [exact Ho2|]. exact Hcase.
       - apply (wp_put_conn q n); [exact Hq|]. split; [reflexivity|]. exists k, [].
         split; [unfold so; rewrite Hl; apply only_sent_nil|]. right. reflexivity. }
  all: apply wp_ret; split; [reflexivity|]; exists (n_kernel s), []; split; [apply only_sent_nil|].
  all: left; split; [now destruct s|]; symmetry; now apply drop_ge.
Qed.

Lemma recv_eq so so' fd : so_recv so' = so_recv so → recv so' fd = recv so fd.
Proof. unfold recv. now intros ->. Qed.

Lemma watched_eq so so' fd c c' : so_watch so' = so_watch so → c_bg c' = c_bg c → watched so fd c → watched so' fd c'.
Proof. unfold watched, watch. now intros -> ->. Qed.

Lemma broken_snoc ls fd : broken (ls ++ [Broken fd]).
Proof. exists fd. apply elem_of_app. right. now apply list_elem_of_singleton. Qed.
Lemma broken_app_l ls ls' : broken ls → broken (ls ++ ls').
Proof. intros [fd ?]. exists fd. apply elem_of_app. now left. Qed.

(** A connection [q] without background work or output, and the others as
    before. *)
Definition settled (s s' : state) (q : positive) : Prop :=
  ∃ n', n_heap s' = <[q := n']> (n_heap s) ∧ c_bg (nc_rest n') = None ∧ c_out (nc_rest n') = [].

Lemma flush_conn_core fuel t s m ls F P A A' fd q n written :
  core t s m ls F P A → m !! fd = Some q → n_heap s !! q = Some n → q ∈ F → c_bg (nc_rest n) = None →
  (faithful = true → pend_of q A = take written (c_out (nc_rest n))) → pend_of q A' = [] →
  (∀ q', q' ≠ q → pend_of q' A' = pend_of q' A) →
  wp (flush_conn fuel q written) (λ _ t' s', t' = t ∧ settled s s' q ∧ so_watch (so s') = so_watch (so s) ∧
    ∃ l, core t s' m (ls ++ [l]) F P A') t s.
Proof.
  intros Hc Hm Hq HF Hbg Hahead Hnil Hrest. pose proof (co_map Hc) as Hr.
  assert (Hfd : nc_fd n = fd) by (destruct (rep_fd _ _ _ Hr _ _ Hm) as (? & ? & <-); congruence).
  pose proof (conns_abs_lookup _ _ _ _ _ Hm Hq) as Habs. destruct (co_conn Hc _ _ _ Hm Hq) as (_ & Hw & _).
  unfold flush_conn. apply wp_bind. eapply wp_mono; [apply flush_loop_spec; exact Hq|].
  intros [] t' s' (-> & k & data & Ho & Hcase). rewrite Hfd in Ho. pose proof (only_sent_but _ _ _ _ Ho) as Hbut.
  destruct Ho as (_ & Hwatch & Hrecv & _ & Hsent). unfold clear_out. apply wp_bind.
  destruct Hcase as [[-> ->]| ->].
  - apply (wp_deref _ n); [exact Hq|]. apply (wp_put_conn q n); [exact Hq|]. split; [reflexivity|].
    split; [eexists; repeat split; exact Hbg|]. split; [exact Hwatch|]. exists (Sent fd (c_out (nc_rest n))).
    apply (core_update t s m ls F P A fd q n k (n_app s) _ _ P A'); try assumption; try tauto.
    + exact (watched_eq _ _ _ (nc_rest n) _ Hwatch eq_refl Hw).
    + now repeat constructor.
    + apply (steps_snoc _ [] _ _ _ (steps_nil _)). now constructor.
    + intros Hf Hio Hnb. rewrite (since_app_plain fd) in * by now repeat constructor.
      destruct Hio as [Hs1 Hr1]; [intros Hb; now apply Hnb, broken_app_l|].
      rewrite Hnil, app_nil_r, outs_app, ins_app, Hsent, Hs1, (Hahead Hf), (recv_eq _ _ _ Hrecv), Hr1.
      unfold outs at 2, ins at 2. cbn. rewrite !app_nil_r, <- (assoc_L (++)), take_drop. split; reflexivity.
    + split; [reflexivity|now apply Hrest].
  - eapply wp_deref; [apply lookup_insert_eq|]. cbn [nc_rest nc_fd nc_next]. eapply wp_put_conn; [apply lookup_insert_eq|].
    cbn [nc_fd nc_next with_all n_heap]. split; [reflexivity|]. split; [|split; [exact Hwatch|]].
    { eexists. cbn [with_heap n_heap]. rewrite insert_insert_eq. repeat split. exact Hbg. }
    exists (Broken fd). unfold with_heap; cbn [with_all n_heap n_kernel n_app n_nconns n_tconns n_rconns n_tlsfds n_next_ctx]. rewrite insert_insert_eq.
    apply (core_update t s m ls F P A fd q n k (n_app s) _ _ P A'); try assumption; try tauto.
    + exact (watched_eq _ _ _ (nc_rest n) _ Hwatch eq_refl Hw).
    + now repeat constructor.
    + apply (steps_snoc _ [] _ _ _ (steps_nil _)). now constructor.
    + intros Hf Hio Hnb. exfalso. apply Hnb. rewrite (since_app_plain fd) by now repeat constructor. apply broken_snoc.
    + split; [reflexivity|now apply Hrest].
Qed.

(** ** Closing *)

Lemma watch_closed so fd qf fd' : watch (sock_closed fd so) qf fd' = if decide (fd' = fd) then None else watch so qf fd'.
Proof.
  unfold watch, sock_closed; cbn. destruct (decide (fd' = fd)) as [->|Hne].
  - apply map_lookup_filter_None_2. right. intros x _. cbn. auto.
  - destruct (so_watch so !! (qf, fd')) as [x|] eqn:E.
    + now apply map_lookup_filter_Some_2.
    + apply map_lookup_filter_None_2. now left.
Qed.

Lemma sockets_ok_closed so fd : sockets_ok so → sockets_ok (sock_closed fd so).
Proof.
  intros Hok qf fd' ev. rewrite watch_closed. destruct (decide (fd' = fd)) as [|Hne]; [easy|]. intros Hw%Hok.
  cbn. clear -Hw Hne. set_solver.
Qed.

(** The connections by descriptor do not depend on the links. *)
Lemma abs_same h h' m : same_conns h h' → abs h m = abs h' m.
Proof.
  intros Hs. apply map_eq. intros fd. unfold abs. rewrite !lookup_omap. destruct (m !! fd) as [q|]; [|reflexivity]. cbn.
  destruct (h !! q) as [n|] eqn:E.
  - destruct (same_lookup _ _ _ _ Hs E) as (n' & -> & [_ Er]%unlink_fd). cbn. congruence.
  - destruct (h' !! q) as [n'|] eqn:E'; [|reflexivity].
    destruct (same_lookup _ _ _ _ (symmetry Hs) E') as (? & ? & _). congruence.
Qed.

Lemma conns_abs_delete h m q fd : (∀ fd', m !! fd' = Some q → fd' = fd) → m !! fd = Some q → abs (delete q h) (delete fd m) = delete fd (abs h m).
Proof.
  intros Hi Hm. apply map_eq. intros fd'. unfold abs. rewrite lookup_omap. destruct (decide (fd' = fd)) as [->|Hne].
  - now rewrite !lookup_delete_eq.
  - rewrite !lookup_delete_ne, lookup_omap by congruence. destruct (m !! fd') as [q'|] eqn:E; [|reflexivity]. cbn.
    rewrite lookup_delete_ne; [reflexivity|]. intros <-. now apply Hne, Hi.
Qed.

(** A connection of the map in a state of its own. *)
Definition conn_is s m (R : conn J → Prop) (q : positive) : Prop :=
  ∃ fd n, m !! fd = Some q ∧ n_heap s !! q = Some n ∧ R (nc_rest n).

Definition is_quiet (c : conn J) : Prop := c_bg c = None ∧ c_out c = [].
Definition is_ready (c : conn J) : Prop := c_bg c = None.

(** Nothing to send and no background work. *)
Abbreviation quiet s m := (conn_is s m is_quiet).

Lemma core_closed t t' s s' m ls l P A fd q n h1 c1 :
  core t s m ls (q :: l) P A → m !! fd = Some q → n_heap s !! q = Some n → c_bg (nc_rest n) = None → c_out (nc_rest n) = [] →
  represents h1 c1 (delete fd m) → same_conns (n_heap s) h1 →
  n_heap s' = delete q h1 → so s' = sock_closed fd (so s) → n_app s' = n_app s →
  t_opts t' = t_opts t → t_cmap t' = c1 → t_nconns t' = t_nconns t - 1 → t_inpkts t' = t_inpkts t →
  core t' s' (delete fd m) (ls ++ [Closed fd]) l P A.
Proof.
  intros Hc Hm Hq Hbg Hout Hr1 Hs1 Eh Es Ea E1 E2 E3 E4. pose proof (co_map Hc) as Hr.
  assert (Hinj : ∀ fd', m !! fd' = Some q → fd' = fd) by (intros fd' Hm'; eapply represents_injective; eauto).
  assert (Hback : ∀ q' n', n_heap s' !! q' = Some n' → ∃ n0, n_heap s !! q' = Some n0 ∧ nc_rest n0 = nc_rest n').
  { intros q' n' Hq'. rewrite Eh in Hq'. apply lookup_delete_Some in Hq' as [_ Hq'].
    destruct (same_lookup _ _ _ _ (symmetry Hs1) Hq') as (n0 & ? & [_ ?]%unlink_fd). eauto. }
  destruct (co_flight Hc) as (Hd & Hl & Hin). apply NoDup_cons in Hd as [Hql Hd].
  split; rewrite ?E1, ?E2, ?E3, ?E4, ?Es; try apply Hc.
  - rewrite Eh. apply (represents_frame h1); [exact Hr1|]. intros fd' q' [Hne Hm']%lookup_delete_Some.
    rewrite lookup_delete_ne; [reflexivity|]. intros <-. now apply Hne, eq_sym, Hinj.
  - apply sockets_ok_closed, Hc.
  - intros fd' q' n' [Hne Hm']%lookup_delete_Some (n0 & Hq' & <-)%Hback.
    destruct (co_conn Hc _ _ _ Hm' Hq') as (H1 & H2 & H3). cbn. split; [set_solver|].
    split; [unfold watched in *; now rewrite watch_closed, decide_False by congruence|].
    intros Hl'. apply H3. intros [->|?]%elem_of_cons; [now apply Hne, eq_sym, Hinj|easy].
  - intros fd' ev Hnone Hsf. rewrite watch_closed. destruct (decide (fd' = fd)) as [|Hne]; [easy|]. intros Hev.
    rewrite lookup_delete_ne in Hnone by congruence. now apply (co_new Hc fd' ev).
  - split; [exact Hd|]. cbn in Hl. split; [lia|]. intros q' Hq'. destruct (Hin q' ltac:(set_solver)) as [fd' Hm'].
    exists fd'. rewrite lookup_delete_ne; [exact Hm'|]. intros <-. congruence.
  - rewrite Ea, Eh, conns_abs_delete, <- (abs_same _ _ _ Hs1) by assumption. econstructor; [apply (co_trace Hc)|].
    apply (step_closed _ _ _ (nc_rest n)); [now apply (conns_abs_lookup _ _ _ q)|exact Hbg|exact Hout].
  - intros Hf fd' q' [Hne Hm']%lookup_delete_Some. unfold io_ok. rewrite since_snoc, decide_False by (cbn; congruence).
    exact (co_io Hc Hf _ _ Hm').
  - intros Hf. apply said_snoc; [exact (co_said Hc Hf)|]. intros fd'. rewrite since_snoc.
    destruct (decide _) as [_|_]; [|now apply (co_said Hc Hf)]. rewrite ins_app. change (ins [Closed fd]) with (@nil Z).
    rewrite app_nil_r. intros Hb. apply (co_said Hc Hf); [easy|]. intros ?. now apply Hb, broken_app_l.
  - rewrite map_size_delete_Some by eauto. pose proof (co_count Hc) as Hcount.
    assert (base.size m ≠ 0)%nat by (intros ?%map_size_empty_inv; subst; now rewrite lookup_empty in Hm). lia.
Qed.

Lemma tls_close_law k fd : socks (tls_close k fd) = sock_closed fd (socks k).
Proof.
  unfold tls_close. destruct (k_ssl_shutdown k fd) as [ret k1] eqn:E1. apply ssl_shutdown_law in E1.
  rewrite close_law, ssl_free_law. f_equal. destruct (ret =? 0); [|exact E1].
  destruct (k_ssl_shutdown k1 fd) as [ret2 k2] eqn:E2. apply ssl_shutdown_law in E2. cbn. congruence.
Qed.

(** Rules for the updates of the thread and the shared state. *)
Lemma wp_upd_ctx f (Q : unit → thread → state → Prop) t s : Q tt (f t) s → wp (upd_ctx f) Q t s.
Proof. easy. Qed.
Lemma wp_put_heap h (Q : unit → thread → state → Prop) t s : Q tt t (with_heap s h) → wp (put_heap h) Q t s.
Proof. easy. Qed.
Lemma wp_fetch_nconns d (Q : Z → thread → state → Prop) t s :
  Q (n_nconns s) t (Shared (n_kernel s) (n_app s) (n_heap s) (u64 (n_nconns s + d)) (n_tconns s) (n_rconns s) (n_tlsfds s) (n_next_ctx s)) →
  wp (fetch_nconns d) Q t s.
Proof. easy. Qed.

(** Another connection keeps its content when one leaves. *)
Lemma quiet_closed s s' m fd q h1 q' :
  same_conns (n_heap s) h1 → n_heap s' = delete q h1 → m !! fd = Some q → q' ≠ q → quiet s m q' → quiet s' (delete fd m) q'.
Proof.
  intros Hs Eh Hm Hne (fd' & n & Hm' & Hq' & Hbg & Hout). destruct (same_lookup _ _ _ _ Hs Hq') as (n' & Hn' & [_ Er]%unlink_fd).
  exists fd', n'. rewrite Eh, Er. split; [|split; [now rewrite lookup_delete_ne|easy]].
  rewrite lookup_delete_ne; [exact Hm'|]. congruence.
Qed.

Lemma close_conn_spec t s m ls q l P A :
  core t s m ls (q :: l) P A → quiet s m q → Forall (quiet s m) l →
  wp (close_conn q) (λ _ t' s', ∃ fd m', core t' s' m' (ls ++ [Closed fd]) l P A ∧ Forall (quiet s' m') l) t s.
Proof.
  intros Hc (fd & n & Hm & Hq & Hbg & Hout) Hl. pose proof (co_map Hc) as Hr.
  assert (Hfd : nc_fd n = fd) by (destruct (rep_fd _ _ _ Hr _ _ Hm) as (? & ? & <-); congruence).
  assert (Hql : q ∉ l) by (destruct (co_flight Hc) as (Hd & _); now apply NoDup_cons in Hd).
  destruct (cmap_delete_spec (n_heap s) (t_cmap t) m q n Hr Hq) as (h1 & c1 & E1 & Hr1 & Hs1 & _); [now rewrite Hfd|].
  rewrite Hfd in Hr1. destruct (same_lookup _ _ _ _ Hs1 Hq) as (n1 & Hq1 & _).
  unfold close_conn. apply wp_bind, (wp_deref _ n); [exact Hq|]. rewrite Hfd. apply wp_bind.
  assert (Hk : ∀ k (d : Z), socks k = sock_closed fd (so s) →
    wp (t ← get_ctx; h ← get_heap; hc ← defined (cmap_delete h (t_cmap t) q); put_heap hc.1;; put_cmap hc.2;;
      fetch_nconns (-1);; add_nconns (-1);; conn_free q)
      (λ _ t' s', ∃ fd m', core t' s' m' (ls ++ [Closed fd]) l P A ∧ Forall (quiet s' m') l)
      (Qctx (t_opts t) (t_nconns t) d (t_cmap t) (t_inpkts t) (t_qreads t) (t_qins t) (t_qattachs t) (t_qouts t) (t_qcloses t))
      (with_kernel s k)).
  { intros k d Hk. apply wp_bind, wp_get_ctx. apply wp_bind, wp_get_heap.
    apply wp_bind, (wp_defined _ (h1, c1)); [exact E1|]. cbn [fst snd]. apply wp_bind, wp_put_heap. apply wp_bind, wp_upd_ctx.
    apply wp_bind, wp_fetch_nconns. apply wp_bind, wp_upd_ctx. unfold conn_free. apply wp_bind, (wp_deref _ n1); [exact Hq1|].
    apply wp_bind, wp_get_heap. apply wp_put_heap. exists fd, (delete fd m). split.
    - now apply (core_closed t _ s _ m ls l P A fd q n h1 c1 Hc Hm Hq Hbg Hout Hr1 Hs1).
    - rewrite Forall_forall in *. intros q' Hq'. eapply (quiet_closed s); [exact Hs1|reflexivity|exact Hm| |now apply Hl].
      congruence. }
  destruct (c_tls (nc_rest n)).
  - apply wp_bind, wp_sys. intros [] k [= <-]. apply wp_upd_ctx. apply Hk. apply tls_close_law.
  - apply wp_sys. intros [] k [= <-]. pose proof (Hk (k_close (n_kernel s) fd) (t_ntlsconns t) (close_law _ _)) as G.
    now destruct t.
Qed.

(** ** The end of a round *)

Lemma qclose_spec t s m ls P A :
  core t s m ls (t_qcloses t) P A → Forall (quiet s m) (t_qcloses t) →
  wp qclose (λ _ t' s', ∃ m' ls', core t' s' m' (ls ++ ls') [] P A) t s.
Proof.
  intros Hc Hq. unfold qclose. apply wp_bind, wp_get_ctx.
  apply (wp_for_each _ (λ l t s, ∃ m ls', core t s m (ls ++ ls') l P A ∧ Forall (quiet s m) l)).
  - exists m, []. now rewrite app_nil_r.
  - intros q l t1 s1 (m1 & ls1 & Hc1 & Hq1). apply Forall_cons in Hq1 as [Hq1 Hl1].
    eapply wp_mono; [apply (close_conn_spec t1 s1 m1 (ls ++ ls1) q l P A); assumption|]. intros [] t2 s2 (fd & m2 & Hc2 & Hl2).
    exists m2, (ls1 ++ [Closed fd]). now rewrite (assoc_L (++)).
  - intros t1 s1 (m1 & ls1 & Hc1 & _). eauto.
Qed.

(** The queues of a thread and the constants do not change. *)
Definition same_queues (t t' : thread) : Prop :=
  t_opts t' = t_opts t ∧ t_cmap t' = t_cmap t ∧ t_nconns t' = t_nconns t ∧ t_inpkts t' = t_inpkts t ∧
  t_ntlsconns t' = t_ntlsconns t.

Lemma core_queues t t' s m ls F P A : core t s m ls F P A → same_queues t t' → core t' s m ls F P A.
Proof. intros Hc (E1 & E2 & E3 & E4 & _). now apply (core_ctx t). Qed.

Lemma wp_push_closes q (Q : unit → thread → state → Prop) t s :
  (length (t_qcloses t) < t_queuesize (t_opts t))%nat →
  Q tt (Qctx (t_opts t) (t_nconns t) (t_ntlsconns t) (t_cmap t) (t_inpkts t) (t_qreads t) (t_qins t) (t_qattachs t) (t_qouts t) (t_qcloses t ++ [q])) s →
  wp (push_closes q) Q t s.
Proof. intros Hl HQ. unfold wp, push_closes, push. now rewrite (proj2 (Nat.ltb_lt _ _) Hl). Qed.
Lemma wp_push_outs q (Q : unit → thread → state → Prop) t s :
  (length (t_qouts t) < t_queuesize (t_opts t))%nat →
  Q tt (Qctx (t_opts t) (t_nconns t) (t_ntlsconns t) (t_cmap t) (t_inpkts t) (t_qreads t) (t_qins t) (t_qattachs t) (t_qouts t ++ [q]) (t_qcloses t)) s →
  wp (push_outs q) Q t s.
Proof. intros Hl HQ. unfold wp, push_outs, push. now rewrite (proj2 (Nat.ltb_lt _ _) Hl). Qed.
Lemma wp_push_reads q (Q : unit → thread → state → Prop) t s :
  (length (t_qreads t) < t_queuesize (t_opts t))%nat →
  Q tt (Qctx (t_opts t) (t_nconns t) (t_ntlsconns t) (t_cmap t) (t_inpkts t) (t_qreads t ++ [q]) (t_qins t) (t_qattachs t) (t_qouts t) (t_qcloses t)) s →
  wp (push_reads q) Q t s.
Proof. intros Hl HQ. unfold wp, push_reads, push. now rewrite (proj2 (Nat.ltb_lt _ _) Hl). Qed.
Lemma wp_push_attachs q (Q : unit → thread → state → Prop) t s :
  (length (t_qattachs t) < t_queuesize (t_opts t))%nat →
  Q tt (Qctx (t_opts t) (t_nconns t) (t_ntlsconns t) (t_cmap t) (t_inpkts t) (t_qreads t) (t_qins t) (t_qattachs t ++ [q]) (t_qouts t) (t_qcloses t)) s →
  wp (push_attachs q) Q t s.
Proof. intros Hl HQ. unfold wp, push_attachs, push. now rewrite (proj2 (Nat.ltb_lt _ _) Hl). Qed.
Lemma wp_push_ins x (Q : unit → thread → state → Prop) t s :
  (length (t_qins t) < t_queuesize (t_opts t))%nat →
  Q tt (Qctx (t_opts t) (t_nconns t) (t_ntlsconns t) (t_cmap t) (t_inpkts t) (t_qreads t) (t_qins t ++ [x]) (t_qattachs t) (t_qouts t) (t_qcloses t)) s →
  wp (push_ins x) Q t s.
Proof. intros Hl HQ. unfold wp, push_ins, push. now rewrite (proj2 (Nat.ltb_lt _ _) Hl). Qed.

Lemma conn_is_other s s' m R q q' n : n_heap s' = <[q := n]> (n_heap s) → q' ≠ q → conn_is s m R q' → conn_is s' m R q'.
Proof.
  intros E Hne (fd & n' & Hm & Hq & HR). exists fd, n'. rewrite E, lookup_insert_ne by congruence. easy.
Qed.

Lemma conn_is_others s s' m (R : positive → conn J → Prop) q l n :
  n_heap s' = <[q := n]> (n_heap s) → q ∉ l →
  Forall (λ q, conn_is s m (R q) q) l → Forall (λ q, conn_is s' m (R q) q) l.
Proof.
  intros E Hl Hf. rewrite Forall_forall in *. intros q' Hq'. apply (conn_is_other s _ _ _ q _ n E); [congruence|now apply Hf].
Qed.

(** ** Writing *)

Lemma flight_room t s m ls F P A l1 l2 q :
  core t s m ls F P A → F = l1 ++ q :: l2 → (length l1 < t_queuesize (t_opts t))%nat.
Proof.
  intros Hc ->. destruct (co_flight Hc) as (_ & Hl & _). rewrite (co_opts Hc).
  rewrite length_app in Hl. cbn in Hl. lia.
Qed.

Lemma core_perm t s m ls F F' P A : core t s m ls F P A → F ≡ₚ F' → core t s m ls F' P A.
Proof.
  intros Hc Hp. apply (core_flight_sub _ _ _ _ F); [exact Hc| | |].
  - rewrite <- Hp. apply (co_flight Hc).
  - intros q. now rewrite Hp.
  - intros q n Hq Hq'. now rewrite Hp in Hq.
Qed.

Lemma core_leave t s m ls l1 q l2 P A n :
  core t s m ls (l1 ++ q :: l2) P A → n_heap s !! q = Some n → idle (nc_rest n) → core t s m ls (l1 ++ l2) P A.
Proof.
  intros Hc Hq Hi. pose proof (co_flight Hc) as (Hd & _). destruct (NoDup_middle _ _ _ Hd) as [Hd' Hin'].
  apply (core_flight_sub _ _ _ _ _ _ _ _ Hc); [exact Hd'|intros x Hx; now apply Hin'|].
  intros x nx Hx Hx' Hnx. destruct (decide (x = q)) as [->|Hne]; [|now destruct Hx'; apply Hin'].
  now replace nx with n by congruence.
Qed.

(** A connection without output leaves the flight, or is queued to be closed. *)
Lemma close_if_closed_spec t s m ls q l P A :
  core t s m ls (t_qcloses t ++ q :: l) P A → quiet s m q → Forall (quiet s m) (t_qcloses t) →
  wp (close_if_closed q) (λ _ t' s', s' = s ∧ same_queues t t' ∧ core t' s m ls (t_qcloses t' ++ l) P A ∧
    Forall (quiet s m) (t_qcloses t')) t s.
Proof.
  intros Hc Hq Hcl. destruct Hq as (fd & n & Hm & Hn & Hbg & Hout). unfold close_if_closed. apply wp_bind, (wp_deref _ n); [exact Hn|].
  destruct (c_closed (nc_rest n)) eqn:Ec.
  - apply wp_push_closes; [eapply flight_room; [exact Hc|reflexivity]|]. split; [reflexivity|]. split; [easy|].
    cbn [t_qcloses]. split.
    + apply (core_queues t); [|easy]. apply (core_perm _ _ _ _ (t_qcloses t ++ q :: l)); [exact Hc|].
      now rewrite <- (assoc_L (++)).
    + apply Forall_app. split; [exact Hcl|]. repeat constructor. exists fd, n. easy.
  - apply wp_ret. split; [reflexivity|]. split; [easy|]. split; [|exact Hcl].
    apply (core_leave _ _ _ _ _ q _ _ _ n Hc Hn). now intros _.
Qed.

(** What the writing stage keeps while it works off its queue. *)
Definition writing (ls0 : list label) (m : gmap Z positive) (R : positive → conn J → Prop)
    (A : list positive → list (positive * bytes)) (l : list positive) t s : Prop :=
  ∃ ls, core t s m (ls0 ++ ls) (t_qcloses t ++ l) [] (A l) ∧ Forall (quiet s m) (t_qcloses t) ∧
    Forall (λ q, conn_is s m (R q) q) l.

Lemma settled_quiet s s' m fd q n :
  m !! fd = Some q → n_heap s !! q = Some n → settled s s' q → quiet s' m q.
Proof. intros Hm Hq (n' & E & Hbg & Hout). exists fd, n'. rewrite E, lookup_insert_eq. easy. Qed.

Lemma write_done fuel ls0 R A A' q l t s m ls fd n written :
  core t s m (ls0 ++ ls) (t_qcloses t ++ q :: l) [] A → Forall (quiet s m) (t_qcloses t) →
  Forall (λ q, conn_is s m (R q) q) l → m !! fd = Some q → n_heap s !! q = Some n → c_bg (nc_rest n) = None →
  (faithful = true → pend_of q A = take written (c_out (nc_rest n))) → pend_of q (A' l) = [] →
  (∀ q', q' ≠ q → pend_of q' (A' l) = pend_of q' A) →
  wp (flush_conn fuel q written) (λ _ t' s', t' = t ∧ quiet s' m q ∧ Forall (quiet s' m) (t_qcloses t) ∧
    Forall (λ q, conn_is s' m (R q) q) l ∧ ∃ ls', core t s' m (ls0 ++ ls') (t_qcloses t ++ q :: l) [] (A' l)) t s.
Proof.
  intros Hc Hcl Hl Hm Hq Hbg Hahead Hnil Hrest.
  assert (HF : q ∈ t_qcloses t ++ q :: l) by set_solver. destruct (co_flight Hc) as (Hd & _).
  apply NoDup_app in Hd as (_ & Hd1 & Hd2%NoDup_cons).
  eapply wp_mono; [exact (flush_conn_core fuel _ _ _ _ _ _ _ _ _ _ _ _ Hc Hm Hq HF Hbg Hahead Hnil Hrest)|].
  intros [] t1 s1 (-> & Hset & _ & lb & Hc1). pose proof (settled_quiet _ _ _ _ _ _ Hm Hq Hset) as Hquiet.
  destruct Hset as (n1 & E & Hbg1 & Hout1). split; [reflexivity|]. split; [exact Hquiet|]. split; [|split].
  - apply (conn_is_others s _ _ (λ _, is_quiet) q _ n1 E); [|exact Hcl]. intros Hx. now apply (Hd1 q Hx); set_solver.
  - apply (conn_is_others s _ _ _ q _ n1 E); tauto.
  - exists (ls ++ [lb]). now rewrite (assoc_L (++)).
Qed.

Lemma writing_next ls0 m R A' l t s q ls' :
  quiet s m q → Forall (quiet s m) (t_qcloses t) → Forall (λ q, conn_is s m (R q) q) l →
  core t s m (ls0 ++ ls') (t_qcloses t ++ q :: l) [] (A' l) → wp (close_if_closed q) (λ _, writing ls0 m R A' l) t s.
Proof.
  intros Hq Hcl Hl Hc. eapply wp_mono; [exact (close_if_closed_spec t s m _ q l [] (A' l) Hc Hq Hcl)|].
  intros [] t2 s2 (-> & Hsq & Hc2 & Hcl2). exists ls'. easy.
Qed.

Lemma write_conn_spec fuel ls0 m q l t s :
  writing ls0 m (λ _, is_ready) (λ _, []) (q :: l) t s → wp (write_conn fuel q) (λ _, writing ls0 m (λ _, is_ready) (λ _, []) l) t s.
Proof.
  intros (ls & Hc & Hcl & Hl). apply Forall_cons in Hl as [(fd & n & Hm & Hq & Hbg) Hl]. unfold write_conn. apply wp_bind.
  eapply wp_mono; [apply (write_done fuel ls0 (λ _, is_ready) [] (λ _, []) q l t s m ls fd n 0 Hc Hcl Hl Hm Hq Hbg); easy|].
  intros [] t1 s1 (-> & Hq1 & Hcl1 & Hl1 & ls' & Hc1). now apply (writing_next _ _ _ _ _ _ _ _ ls').
Qed.

(** ** Batches *)

Lemma pend_of_cons q x d E : pend_of q ((x, d) :: E) = (if decide (x = q) then d else []) ++ pend_of q E.
Proof. unfold pend_of. rewrite filter_cons. cbn [fst]. now destruct (decide (x = q)). Qed.

Lemma pend_of_filter q (l : list positive) (E : list (positive * bytes)) :
  pend_of q (filter (λ x, x.1 ∈ l) E) = if decide (q ∈ l) then pend_of q E else [].
Proof.
  induction E as [|[x d] E IH]; [now destruct (decide (q ∈ l))|]. rewrite filter_cons. cbn [fst].
  destruct (decide (x ∈ l)) as [Hx|Hx]; rewrite ?pend_of_cons, IH; destruct (decide (q ∈ l)) as [Hq|Hq];
    destruct (decide (x = q)) as [->|Hne]; try easy.
Qed.

Lemma pend_of_absent q ks (ds : list bytes) : q ∉ ks → pend_of q (zip ks ds) = [].
Proof.
  revert ds. induction ks as [|x ks IH]; intros [|d ds] Hq; try reflexivity. cbn [zip zip_with]. rewrite pend_of_cons.
  rewrite decide_False by set_solver. apply IH. set_solver.
Qed.

Lemma pend_of_zip q ks (ds : list bytes) i d : NoDup ks → ks !! i = Some q → ds !! i = Some d → pend_of q (zip ks ds) = d.
Proof.
  revert ds i. induction ks as [|x ks IH]; intros [|d' ds] [|i] Hn Hk Hd; try discriminate; apply NoDup_cons in Hn as [Hx Hn]; cbn in Hk, Hd.
  all: cbn [zip zip_with]; rewrite pend_of_cons; fold (zip ks ds).
  - injection Hk as ->. injection Hd as ->. rewrite decide_True by easy. now rewrite pend_of_absent, app_nil_r.
  - rewrite decide_False; [now apply IH with i|]. intros ->. apply Hx. now apply list_elem_of_lookup_2 in Hk.
Qed.

(** What a list of transfers holds for a descriptor. *)
Definition for_fd (fd : Z) (l : list (Z * bytes)) : bytes := concat (snd <$> filter (λ x, x.1 = fd) l).

Lemma for_fd_cons fd x l : for_fd fd (x :: l) = (if decide (x.1 = fd) then x.2 else []) ++ for_fd fd l.
Proof. unfold for_fd. rewrite filter_cons. now destruct (decide (x.1 = fd)). Qed.

(** The descriptors of connections stand for the connections. *)
Lemma for_fd_pend (h : conns (conn J)) c m l (ds : list bytes) fds :
  represents h c m → Forall2 (λ q fd, m !! fd = Some q) l fds → ∀ fd q, m !! fd = Some q → for_fd fd (zip fds ds) = pend_of q (zip l ds).
Proof.
  intros Hr Hl fd q Hm. revert ds. induction Hl as [|q' fd' l fds Hm' _ IH]; intros [|d ds]; try reflexivity.
  cbn [zip zip_with]. rewrite for_fd_cons, pend_of_cons. cbn [fst snd]. fold (zip fds ds) (zip l ds).
  rewrite IH. destruct (decide (fd' = fd)) as [->|Hne]; [rewrite decide_True by congruence; reflexivity|].
  rewrite decide_False; [reflexivity|]. intros ->. apply Hne. eapply represents_injective; eauto.
Qed.

Lemma for_fd_none m l (ds : list bytes) fds fd :
  Forall2 (λ q fd, m !! fd = Some q) l fds → m !! fd = None → for_fd fd (zip fds ds) = [].
Proof.
  intros Hl Hm. revert ds. induction Hl as [|q' fd' l fds Hm' _ IH]; intros [|d ds]; try reflexivity.
  cbn [zip zip_with]. rewrite for_fd_cons. cbn [fst]. rewrite decide_False by congruence. apply IH.
Qed.

Lemma sock_sents_spec outs rs : ∀ so,
  let so' := sock_sents outs rs so in
  so_open so' = so_open so ∧ so_watch so' = so_watch so ∧ so_recv so' = so_recv so ∧
  ∀ fd, sent so' fd = sent so fd ++ for_fd fd (zip outs.*1 (zip_with (λ o x, take (Z.to_nat x) o.2) outs rs)).
Proof.
  revert rs. induction outs as [|x outs IH]; intros [|r rs] so; cbn zeta.
  1,2,3: (split; [reflexivity|]; split; [reflexivity|]; split; [reflexivity|]; intros fd; cbn; now rewrite app_nil_r).
  unfold sock_sents. cbn [zip zip_with foldl]. fold (sock_sents outs rs (sock_sent x.1 (take (Z.to_nat r) x.2) so)).
  destruct (IH rs (sock_sent x.1 (take (Z.to_nat r) x.2) so)) as (E1 & E2 & E3 & E4). repeat (split; [assumption|]).
  intros fd. rewrite E4, sent_insert. cbn [fmap list_fmap zip zip_with]. rewrite for_fd_cons. cbn [fst snd].
  destruct (decide (fd = x.1)) as [->|Hne]; [rewrite decide_True by easy|rewrite decide_False by congruence; reflexivity].
  now rewrite <- (assoc_L (++)).
Qed.

Lemma sock_recvs_spec fds : ∀ datas so,
  let so' := sock_recvs fds datas so in
  so_open so' = so_open so ∧ so_watch so' = so_watch so ∧ so_sent so' = so_sent so ∧
  ∀ fd, recv so' fd = recv so fd ++ for_fd fd (zip fds datas).
Proof.
  induction fds as [|x fds IH]; intros [|r datas] so; cbn zeta.
  1,2,3: (split; [reflexivity|]; split; [reflexivity|]; split; [reflexivity|]; intros fd; cbn; now rewrite app_nil_r).
  unfold sock_recvs. cbn [zip zip_with foldl]. fold (sock_recvs fds datas (sock_recv x r so)).
  destruct (IH datas (sock_recv x r so)) as (E1 & E2 & E3 & E4). repeat (split; [assumption|]).
  intros fd. rewrite E4, recv_insert. rewrite for_fd_cons. cbn [fst snd].
  destruct (decide (fd = x)) as [->|Hne]; [rewrite decide_True by easy|rewrite decide_False by congruence; reflexivity].
  now rewrite <- (assoc_L (++)).
Qed.

(** Bytes go over sockets of connections and nothing else changes. *)
Lemma core_transfer t s m ls F P A k P' A' :
  core t s m ls F P A → so_open (socks k) = so_open (so s) → so_watch (socks k) = so_watch (so s) →
  (∀ fd, m !! fd = None → sent (socks k) fd = sent (so s) fd ∧ recv (socks k) fd = recv (so s) fd) →
  (faithful = true → ∀ fd q, m !! fd = Some q → io_ok (so s) ls P A fd q → io_ok (socks k) ls P' A' fd q) →
  core t (with_kernel s k) m ls F P' A'.
Proof.
  intros Hc Eo Ew Hn Hio. destruct Hc. split; unfold so; cbn [with_kernel n_kernel n_heap n_app]; try assumption.
  - unfold sockets_ok, watch in *. unfold so in *. rewrite Ew, Eo. exact co_socks0.
  - intros fd q n Hm Hq. rewrite Eo. destruct (co_conn0 _ _ _ Hm Hq) as (? & ? & ?). split; [easy|]. split; [|easy].
    now apply (watched_eq (so s) _ _ (nc_rest n)).
  - intros fd ev Hm Hs. unfold watch. rewrite Ew. intros Hev. destruct (Hn fd Hm) as [-> ->]. now apply co_new0.
  - intros Hf fd q Hm. apply Hio; [exact Hf|exact Hm|]. now apply co_io0.
Qed.

Lemma core_pend t s m ls F P A P' A' :
  core t s m ls F P A → (faithful = true → ∀ q, pend_of q P' = pend_of q P ∧ pend_of q A' = pend_of q A) →
  core t s m ls F P' A'.
Proof.
  intros [] HP. split; try assumption. intros Hf fd q Hm. unfold io_ok. destruct (HP Hf q) as [-> ->]. exact (co_io0 Hf fd q Hm).
Qed.

Lemma outs_of_spec l (Q : list (Z * bytes) → thread → state → Prop) t s :
  (∀ outs, Forall2 (λ q x, ∃ n, n_heap s !! q = Some n ∧ x = (nc_fd n, c_out (nc_rest n))) l outs → Q outs t s) →
  Forall (λ q, is_Some (n_heap s !! q)) l → wp (outs_of l) Q t s.
Proof.
  intros HQ Hl. revert Q HQ. induction Hl as [|q l [n Hn] _ IH]; intros Q HQ; cbn [outs_of]; [apply wp_ret, HQ; constructor|].
  apply wp_bind, (wp_deref _ n); [exact Hn|]. apply wp_bind, IH. intros outs Ho. apply wp_ret, HQ. constructor; eauto.
Qed.

(** What [clear_out] and the writing of an error leave of a connection. *)
Lemma clear_out_quiet s m q (Q : unit → thread → state → Prop) t : quiet s m q → Q tt t s → wp (clear_out q) Q t s.
Proof.
  intros (fd & n & Hm & Hq & Hbg & Hout) HQ. unfold clear_out. apply wp_bind, (wp_deref _ n); [exact Hq|].
  apply (wp_put_conn q n); [exact Hq|].
  assert (E : NetConn (nc_fd n) (nc_next n) (set_out (nc_rest n) []) = n).
  { rewrite <- Hout. now destruct n as [? ? []]. }
  rewrite E. unfold with_heap. rewrite insert_id by exact Hq. now destruct s.
Qed.

Lemma break_conn_spec ls0 R A A' q l t s m ls fd n :
  core t s m (ls0 ++ ls) (t_qcloses t ++ q :: l) [] A → Forall (quiet s m) (t_qcloses t) →
  Forall (λ q, conn_is s m (R q) q) l → m !! fd = Some q → n_heap s !! q = Some n → c_bg (nc_rest n) = None →
  (∀ q', q' ≠ q → pend_of q' (A' l) = pend_of q' A) →
  wp ((nc ← deref q; put_conn q (conn_close (nc_rest nc)));; clear_out q) (λ _ t' s', t' = t ∧ quiet s' m q ∧
    Forall (quiet s' m) (t_qcloses t) ∧ Forall (λ q, conn_is s' m (R q) q) l ∧
    ∃ ls', core t s' m (ls0 ++ ls') (t_qcloses t ++ q :: l) [] (A' l)) t s.
Proof.
  intros Hc Hcl Hl Hm Hq Hbg Hrest.
  destruct (co_flight Hc) as (Hd & _). apply NoDup_app in Hd as (_ & Hd1 & Hd2%NoDup_cons).
  destruct (co_conn Hc _ _ _ Hm Hq) as (_ & Hw & _). unfold clear_out.
  apply wp_bind, wp_bind, (wp_deref _ n); [exact Hq|]. apply (wp_put_conn q n); [exact Hq|].
  apply wp_bind. eapply wp_deref; [apply lookup_insert_eq|]. eapply wp_put_conn; [apply lookup_insert_eq|].
  unfold with_heap; cbn [nc_rest nc_fd nc_next n_heap n_kernel n_app n_nconns n_tconns n_rconns n_tlsfds n_next_ctx].
  rewrite insert_insert_eq. set (n1 := NetConn _ _ _). split; [reflexivity|]. split; [|split; [|split]].
  - exists fd, n1. cbn [n_heap]. rewrite lookup_insert_eq. easy.
  - eapply (conn_is_others s _ _ (λ _, is_quiet) q _ n1); [reflexivity| |exact Hcl]. intros Hx. now apply (Hd1 q Hx); set_solver.
  - eapply (conn_is_others s _ _ _ q _ n1); [reflexivity|tauto|exact Hl].
  - exists (ls ++ [Broken fd]). rewrite (assoc_L (++)).
    apply (core_update t s m (ls0 ++ ls) _ [] A fd q n (n_kernel s) (n_app s) _ (Broken fd) [] (A' l)); try assumption.
    + apply same_but_refl.
    + left. set_solver.
    + now repeat constructor.
    + apply (steps_snoc _ [] _ _ _ (steps_nil _)). apply step_broken; [now apply (conns_abs_lookup _ _ _ q)|exact Hbg].
    + intros Hf Hio Hnb. exfalso. apply Hnb. rewrite (since_app_plain fd) by now repeat constructor. apply broken_snoc.
    + split; [reflexivity|now apply Hrest].
Qed.

Context (Horder : faithful = true → t_uring o = false).

(** One completion of a batch of writes; [E] is what each write transferred. *)
Lemma uring_write_done_spec fuel ls0 m (souts E : list (positive * bytes)) results i q l t s :
  let R q c := c_bg c = None ∧ (q, c_out c) ∈ souts in
  let A l := filter (λ x, x.1 ∈ l) E in
  (∀ r (c : conn J), results !! i = Some r → (q, c_out c) ∈ souts → faithful = true → pend_of q E = take (Z.to_nat r) (c_out c)) →
  NoDup (q :: l) → writing ls0 m R A (q :: l) t s →
  wp (uring_write_done fuel results (i, q)) (λ _, writing ls0 m R A l) t s.
Proof.
  intros R A HE Hd (ls & Hc & Hcl & Hl). apply Forall_cons in Hl as [(fd & n & Hm & Hq & Hbg & Hso) Hl].
  apply NoDup_cons in Hd as [Hql Hd]. unfold uring_write_done. destruct (results !! i) as [r|] eqn:Er; [|exact I].
  assert (Hnil : pend_of q (A l) = []) by (unfold A; now rewrite pend_of_filter, decide_False).
  assert (Hrest : ∀ q', q' ≠ q → pend_of q' (A l) = pend_of q' (A (q :: l))).
  { intros q' Hne. unfold A. rewrite !pend_of_filter. destruct (decide (q' ∈ l)); [rewrite decide_True by set_solver|rewrite decide_False by set_solver]; reflexivity. }
  set (n' := if r =? - EAGAIN then 0 else r). destruct (n' <? 0) eqn:En; zb.
  - apply wp_assoc, wp_bind. eapply wp_mono; [exact (break_conn_spec ls0 R _ A q l t s m ls fd n Hc Hcl Hl Hm Hq Hbg Hrest)|].
    intros [] t1 s1 (-> & Hq1 & Hcl1 & Hl1 & ls' & Hc1). now apply (writing_next _ _ _ _ _ _ _ _ ls').
  - apply wp_bind. eapply wp_mono; [apply (write_done fuel ls0 R _ A q l t s m ls fd n (Z.to_nat n') Hc Hcl Hl Hm Hq Hbg); [|exact Hnil|exact Hrest]|].
    + intros Hf. unfold A. rewrite pend_of_filter, decide_True by set_solver. rewrite (HE r (nc_rest n) eq_refl Hso Hf).
      unfold n'. destruct (r =? - EAGAIN) eqn:Ee; zb; [now subst r|reflexivity].
    + intros [] t1 s1 (-> & Hq1 & Hcl1 & Hl1 & ls' & Hc1). apply wp_bind. apply (clear_out_quiet s1 m); [exact Hq1|].
      now apply (writing_next _ _ _ _ _ _ _ _ ls').
Qed.

(** A list with the positions of its items. *)
Lemma enumerate_cons_app {X} (l : list X) : (enumerate l).*2 = l.
Proof. unfold enumerate. apply snd_zip. now rewrite length_seq. Qed.

Lemma enumerate_lookup {X} (l : list X) i x : (i, x) ∈ enumerate l → l !! i = Some x.
Proof.
  unfold enumerate. intros [j Hj]%list_elem_of_lookup_1. apply lookup_zip_with_Some in Hj as (a & b & [= <- <-] & Ha & Hb).
  apply lookup_seq in Ha as [-> _]. exact Hb.
Qed.

(** A loop over the positions of a list. *)
Lemma wp_for_enumerate {X} (f : nat * X → net unit) (I : list X → thread → state → Prop) (Q : unit → thread → state → Prop) l t s :
  I l t s →
  (∀ i x l' t s, l !! i = Some x → (i + S (length l') = length l)%nat → (x :: l') `suffix_of` l → I (x :: l') t s →
    wp (f (i, x)) (λ _, I l') t s) →
  (∀ t s, I [] t s → Q tt t s) → wp (for_each (enumerate l) f) Q t s.
Proof.
  intros HI Hstep HQ.
  apply (wp_for_each f (λ lx t s, lx `suffix_of` enumerate l ∧ I lx.*2 t s)).
  - split; [reflexivity|]. now rewrite enumerate_cons_app.
  - intros [i x] lx t1 s1 [Hsuf HI1]. cbn [fmap list_fmap snd] in HI1.
    assert (Hsuf2 : (x :: lx.*2) `suffix_of` l).
    { rewrite <- (enumerate_cons_app l). destruct Hsuf as [k ->]. exists k.*2. now rewrite fmap_app. }
    eapply wp_mono; [apply (Hstep i x lx.*2); [| |exact Hsuf2|exact HI1]|].
    + apply enumerate_lookup. destruct Hsuf as [k ->]. set_solver.
    + destruct Hsuf as [k Hk].
      assert (Hi : enumerate l !! length k = Some (i, x)) by (rewrite Hk, list_lookup_middle; easy).
      unfold enumerate in Hi. apply lookup_zip_with_Some in Hi as (a & b & [= <- <-] & Ha & _). apply lookup_seq in Ha as [-> _].
      apply (f_equal length) in Hk. unfold enumerate in Hk. rewrite length_zip_with, length_seq, length_app in Hk. cbn in Hk.
      rewrite length_fmap. lia.
    + intros [] t2 s2 HI2. split; [|exact HI2]. destruct Hsuf as [k ->]. exists (k ++ [(i, x)]). now rewrite <- (assoc_L (++)).
  - intros t1 s1 [_ HI1]. now apply HQ.
Qed.

(** Through io_uring what the connections carry is not followed. *)
Lemma use_uring_faithful t : t_opts t = o → use_uring t = true → faithful = false.
Proof. unfold use_uring. intros -> H. destruct faithful; [now rewrite Horder in H|reflexivity]. Qed.

(** The connections of a queue and what a function says of each. *)
Lemma fds_of_conns s m c (R : conn J → Prop) {Y} (f : net_conn (conn J) → Y) l ys :
  represents (n_heap s) c m → Forall (conn_is s m R) l →
  Forall2 (λ q y, ∃ n, n_heap s !! q = Some n ∧ y = f n) l ys →
  ∃ fds, Forall2 (λ q fd, m !! fd = Some q) l fds ∧
    Forall2 (λ fd y, ∃ q n, m !! fd = Some q ∧ n_heap s !! q = Some n ∧ nc_fd n = fd ∧ y = f n) fds ys.
Proof.
  intros Hr Hl Hy. revert Hl. induction Hy as [|q y l ys (n & Hn & ->) _ IH]; intros Hl; [exists []; split; constructor|].
  apply Forall_cons in Hl as [(fd & n' & Hm & Hn' & _) Hl]. destruct (IH Hl) as (fds & H1 & H2). exists (fd :: fds).
  replace n' with n in * by congruence. split; constructor; try assumption. exists q, n.
  destruct (rep_fd _ _ _ Hr _ _ Hm) as (n0 & Hn0 & Hfd). replace n with n0 by congruence. repeat split; congruence.
Qed.

(** After a batch of writes was submitted. *)
Lemma uring_write_core t s m ls F l os rs k :
  core t s m ls F [] [] → Forall (conn_is s m is_ready) l →
  Forall2 (λ q x, ∃ n, n_heap s !! q = Some n ∧ x = (nc_fd n, c_out (nc_rest n))) l os →
  socks k = sock_sents os rs (so s) →
  core t (with_kernel s k) m ls F [] (zip l (zip_with (λ x y, take (Z.to_nat y) x.2) os rs)).
Proof.
  intros Hc Hl Hos Hsocks. pose proof (co_map Hc) as Hr.
  destruct (fds_of_conns s m _ is_ready _ l os Hr Hl Hos) as (fds & Hfds & Hos2).
  assert (E0 : os.*1 = fds).
  { clear -Hos2. induction Hos2 as [|fd x fds os (q & n & _ & _ & <- & ->) _ IH]; [reflexivity|]. cbn. now rewrite IH. }
  destruct (sock_sents_spec os rs (so s)) as (E1 & E2 & E3 & E4). rewrite <- Hsocks, E0 in *.
  apply (core_transfer t s m ls _ [] []); [exact Hc|exact E1|exact E2| |].
  - intros fd Hnone. rewrite E4, (for_fd_none m l) by assumption. rewrite app_nil_r. split; [reflexivity|now apply recv_eq].
  - intros Hf fd q Hm Hio Hnb. destruct (Hio Hnb) as [Hs1 Hr1]. rewrite E4, (for_fd_pend (n_heap s) (t_cmap t) m l _ _ Hr Hfds fd q Hm).
    rewrite Hs1, (recv_eq _ _ _ E3), Hr1. cbn. rewrite !app_nil_r. split; reflexivity.
Qed.

(** The outputs that were submitted are those of the connections. *)
Lemma outputs_known s m l os :
  Forall (conn_is s m is_ready) l →
  Forall2 (λ q x, ∃ n, n_heap s !! q = Some n ∧ x = (nc_fd n, c_out (nc_rest n))) l os →
  Forall (λ q, conn_is s m (λ c, c_bg c = None ∧ (q, c_out c) ∈ zip l os.*2) q) l.
Proof.
  intros Hl Hos. apply Forall_lookup. intros i q Hq. rewrite Forall_lookup in Hl. destruct (Hl i q Hq) as (fd & n & Hm & Hn & Hbg).
  exists fd, n. split; [exact Hm|]. split; [exact Hn|]. split; [exact Hbg|].
  destruct (Forall2_lookup_l _ _ _ _ _ Hos Hq) as (x & Hx & n' & Hn' & ->). replace n' with n in Hx by congruence.
  apply list_elem_of_lookup. exists i. apply lookup_zip_with_Some. exists q, (c_out (nc_rest n)).
  split; [reflexivity|]. split; [exact Hq|]. now rewrite list_lookup_fmap, Hx.
Qed.

Lemma qwrite_spec fuel t s m ls :
  core t s m ls (t_qcloses t ++ t_qouts t) [] [] → Forall (quiet s m) (t_qcloses t) → Forall (conn_is s m is_ready) (t_qouts t) →
  wp (qwrite fuel) (λ _ t' s', ∃ ls', core t' s' m (ls ++ ls') (t_qcloses t') [] [] ∧ Forall (quiet s' m) (t_qcloses t')) t s.
Proof.
  intros Hc Hcl Hl. unfold qwrite. apply wp_bind, wp_get_ctx. destruct (use_uring t) eqn:Hu.
  2: { apply (wp_for_each _ (writing ls m (λ _, is_ready) (λ _, []))).
       - exists []. rewrite app_nil_r. easy.
       - intros q l t1 s1 Hw. now apply write_conn_spec.
       - intros t1 s1 (ls' & Hc' & Hcl' & _). rewrite app_nil_r in Hc'. eauto. }
  destruct (co_flight Hc) as (Hd & _). apply NoDup_app in Hd as (_ & _ & Hd). apply wp_bind, outs_of_spec.
  2: { eapply Forall_impl; [exact Hl|]. intros q (fd & n & _ & Hn & _). eauto. }
  pose proof (use_uring_faithful _ (co_opts Hc) Hu) as Hnf.
  intros os Hos. apply wp_bind, wp_sys. intros [ret results] k E. destruct (ret <? 0) eqn:Eret; zb; [exact I|].
  destruct (uring_write_law _ _ _ _ _ E ltac:(lia)) as (_ & rs & _ & _ & Hsocks).
  pose proof (uring_write_core _ _ _ _ _ _ _ _ _ Hc Hl Hos Hsocks) as Hc1.
  set (Es := zip (t_qouts t) _) in Hc1. set (souts := zip (t_qouts t) os.*2).
  apply (wp_for_enumerate _ (λ l, writing ls m (λ q c, c_bg c = None ∧ (q, c_out c) ∈ souts) (λ l, filter (λ x, x.1 ∈ l) Es) l)).
  - exists []. rewrite app_nil_r. split; [|split; [exact Hcl|exact (outputs_known _ _ _ _ Hl Hos)]].
    apply (core_pend _ _ _ _ _ [] Es); [exact Hc1|]. intros _ q. split; [reflexivity|]. rewrite pend_of_filter.
    destruct (decide (q ∈ t_qouts t)); [reflexivity|]. symmetry. now apply pend_of_absent.
  - intros i q l t1 s1 Hi _ [k2 Hsuf] Hw. eapply uring_write_done_spec; [|rewrite Hsuf in Hd; apply NoDup_app in Hd; apply Hd|exact Hw].
    intros r c _ _ Hf. congruence.
  - intros t1 s1 (ls' & Hc' & Hcl' & _). rewrite app_nil_r in Hc'. exists ls'. split; [|exact Hcl'].
    apply (core_pend _ _ _ _ _ [] _ [] [] Hc'). intros _ q. now rewrite pend_of_filter.
Qed.

(** ** Processing *)

(** The packet of an entry of [qins], and the connection. *)
Definition packet t (x : positive * nat * Z) : bytes := take (Z.to_nat x.2) (default [] (t_inpkts t !! x.1.2)).
Definition in_conn (x : positive * nat * Z) : positive := x.1.1.
Definition pendings t (l : list (positive * nat * Z)) : list (positive * bytes) := zip (in_conn <$> l) (packet t <$> l).

Lemma pendings_cons t x l : pendings t (x :: l) = (in_conn x, packet t x) :: pendings t l.
Proof. reflexivity. Qed.

Lemma pendings_snoc t l x : pendings t (l ++ [x]) = pendings t l ++ [(in_conn x, packet t x)].
Proof. unfold pendings. rewrite !fmap_app, zip_with_app by now rewrite !length_fmap. reflexivity. Qed.

Lemma ins_data fd pkt : ins [Data fd pkt] = pkt.
Proof. apply app_nil_r. Qed.

(** The queues that are filled, with what their connections satisfy. *)
Definition filled t s m : Prop := Forall (quiet s m) (t_qcloses t) ∧ Forall (conn_is s m is_ready) (t_qouts t).

Definition processing (ls0 : list label) m (l : list (positive * nat * Z)) t s : Prop :=
  ∃ ls, core t s m (ls0 ++ ls) ((t_qcloses t ++ t_qouts t) ++ (in_conn <$> l)) (pendings t l) [] ∧ filled t s m ∧
    Forall (λ x, quiet s m (in_conn x) ∧ is_Some (t_inpkts t !! x.1.2)) l.

Lemma same_but_unwatch fd so : same_but fd so (sock_unwatch (t_qfd o) fd so).
Proof.
  split; [reflexivity|]. split; [|easy]. intros qf fd' Hne. unfold watch, sock_unwatch. cbn. now rewrite lookup_delete_ne by congruence.
Qed.
Lemma same_but_watch fd ev so : same_but fd so (sock_watch (t_qfd o) fd ev so).
Proof.
  split; [reflexivity|]. split; [|easy]. intros qf fd' Hne. unfold watch, sock_watch. cbn. now rewrite lookup_insert_ne by congruence.
Qed.

Lemma filled_insert t s s' m q n :
  n_heap s' = <[q := n]> (n_heap s) → q ∉ t_qcloses t → q ∉ t_qouts t → filled t s m → filled t s' m.
Proof.
  intros E H1 H2 [Hcl Ho]. split; [now apply (conn_is_others s _ _ (λ _, is_quiet) q _ n)|now apply (conn_is_others s _ _ (λ _, is_ready) q _ n)].
Qed.

(** The connection after its data was processed: [q] is still in flight. *)
Lemma data_core ls0 m t s x l ls fd n w c k :
  let q := in_conn x in
  core t s m (ls0 ++ ls) ((t_qcloses t ++ t_qouts t) ++ (in_conn <$> x :: l)) (pendings t (x :: l)) [] →
  m !! fd = Some q → n_heap s !! q = Some n → is_quiet (nc_rest n) → evdata (n_app s) (nc_rest n) (packet t x) = Some (w, c) →
  same_but fd (so s) (socks k) → sent (socks k) fd = sent (so s) fd → recv (socks k) fd = recv (so s) fd → watched (socks k) fd c →
  core t (with_all s k w (<[q := NetConn (nc_fd n) (nc_next n) c]> (n_heap s))) m (ls0 ++ ls ++ [Data fd (packet t x)])
    ((t_qcloses t ++ t_qouts t) ++ (in_conn <$> x :: l)) (pendings t l) [].
Proof.
  intros q Hc Hm Hq [Hbg Hout] Ev Hbut Hs1 Hr1 Hw. rewrite (assoc_L (++)).
  destruct (co_flight Hc) as (Hd & _). apply NoDup_app in Hd as (_ & _ & Hd). cbn in Hd. apply NoDup_cons in Hd as [Hql _].
  assert (Hnone : pend_of q (pendings t l) = []) by now apply pend_of_absent.
  apply (core_update t s m (ls0 ++ ls) _ (pendings t (x :: l)) [] fd q n k w c _); try assumption.
  - left. cbn. set_solver.
  - now repeat constructor.
  - apply (steps_snoc _ [] _ _ _ (steps_nil _)). apply (step_data _ _ _ (nc_rest n)); try assumption. now apply (conns_abs_lookup _ _ _ q).
  - intros Hf Hio Hnb. rewrite (since_app_plain fd) in * by now repeat constructor.
    destruct Hio as [Hs Hr]; [intros Hb; now apply Hnb, broken_app_l|].
    rewrite Hs1, Hr1, Hs, Hr, Hnone, outs_app, ins_app, ins_data. change (outs [Data fd (packet t x)]) with (@nil Z).
    rewrite pendings_cons, pend_of_cons, decide_True, Hnone, !app_nil_r by easy. split; reflexivity.
  - intros q' Hne. split; [|reflexivity]. rewrite pendings_cons, pend_of_cons, decide_False by (unfold q in Hne; congruence). reflexivity.
Qed.

Lemma process_spec ls0 m x l t s :
  processing ls0 m (x :: l) t s → wp (process x) (λ _, processing ls0 m l) t s.
Proof.
  intros (ls & Hc & Hfill & Hl). apply Forall_cons in Hl as [[(fd & n & Hm & Hq & Hquiet) [pkt Hpkt]] Hl].
  set (q := in_conn x) in *. pose proof (co_opts Hc) as Ho.
  assert (Hfd : nc_fd n = fd) by (destruct (rep_fd _ _ _ (co_map Hc) _ _ Hm) as (? & ? & <-); congruence).
  destruct (co_flight Hc) as (Hd & _). destruct (co_conn Hc _ _ _ Hm Hq) as (Hopen & Hw & _).
  assert (Hd' := Hd). change (in_conn <$> x :: l) with (q :: (in_conn <$> l)) in Hd'.
  apply NoDup_app in Hd' as (_ & Hd1 & Hd2%NoDup_cons). destruct Hd2 as [Hql _].
  assert (Hqf : q ∉ t_qcloses t ++ t_qouts t) by (intros Hx; apply (Hd1 q Hx); set_solver).
  destruct x as [[q0 i] nn]. cbn in q. subst q. cbn in Hq, Hm, Hpkt. unfold process.
  apply wp_bind, wp_get_opts. apply wp_bind, wp_get_ctx. apply wp_bind, (wp_defined _ pkt); [exact Hpkt|].
  apply wp_bind, (wp_deref _ n); [exact Hq|]. apply wp_bind, wp_app. intros w c Ev.
  assert (Ev' : evdata (n_app s) (nc_rest n) (packet t (q0, i, nn)) = Some (w, c)) by (unfold packet; cbn; now rewrite Hpkt).
  apply wp_bind, (wp_put_conn q0 n); [exact Hq|].
  (* what holds of the rest once the connection [n] was updated in state [s'] *)
  assert (Hrest : ∀ s', n_heap s' = <[q0 := NetConn (nc_fd n) (nc_next n) c]> (n_heap s) →
    filled t s' m ∧ Forall (λ x, quiet s' m (in_conn x) ∧ is_Some (t_inpkts t !! x.1.2)) l).
  { intros s' E. split; [apply (filled_insert t s _ _ q0 _ E); [set_solver|set_solver|exact Hfill]|].
    rewrite Forall_forall in *. intros y Hy. destruct (Hl y Hy) as [Hy1 Hy2]. split; [|exact Hy2].
    apply (conn_is_other s _ _ _ q0 _ _ E); [|exact Hy1]. intros E2. apply Hql. rewrite <- E2. now apply list_elem_of_fmap_2. }
  destruct (c_bg c) as [j|] eqn:Ebg.
  - rewrite Ho. unfold watched in Hw. rewrite (proj1 Hquiet), <- Hfd in Hw.
    apply (wp_last _ (λ ret, granted (ret =? 0))), (wp_ctl_del _ (t_qfd o) (nc_fd n) EPOLLIN); [reflexivity|eexists; exact Hw|].
    intros k Ek. rewrite Hfd in Ek. apply wp_ret. exists (ls ++ [Data fd (packet t (q0, i, nn))]).
    split; [|now apply Hrest].
    eapply (core_leave _ _ _ _ _ q0); [|apply lookup_insert_eq|].
    + apply (data_core ls0 m t s (q0, i, nn) l ls fd n w c k); try assumption; rewrite Ek; try reflexivity.
      * apply same_but_unwatch.
      * unfold watched. rewrite Ebg. left. unfold watch, sock_unwatch. cbn. apply lookup_delete_eq.
    + intros Hb. cbn in Hb. congruence.
  - assert (Hc' : core t (with_heap (with_app s w) (<[q0 := NetConn (nc_fd n) (nc_next n) c]> (n_heap s))) m
      (ls0 ++ ls ++ [Data fd (packet t (q0, i, nn))]) ((t_qcloses t ++ t_qouts t) ++ (in_conn <$> (q0, i, nn) :: l)) (pendings t l) []).
    { apply (data_core ls0 m t s (q0, i, nn) l ls fd n w c (n_kernel s)); try assumption; try reflexivity; [apply same_but_refl|].
      unfold watched in *. rewrite Ebg. now rewrite (proj1 Hquiet) in Hw. }
    assert (Hq' : n_heap (with_heap (with_app s w) (<[q0 := NetConn (nc_fd n) (nc_next n) c]> (n_heap s))) !! q0 =
      Some (NetConn (nc_fd n) (nc_next n) c)) by apply lookup_insert_eq.
    destruct (Hrest (with_heap (with_app s w) (<[q0 := NetConn (nc_fd n) (nc_next n) c]> (n_heap s))) eq_refl) as [[Hfc Hfo] Hl'].
    set (s' := with_heap _ _) in *. pose proof (co_flight Hc) as (_ & Hlen & _).
    rewrite <- Ho, !length_app in Hlen. cbn in Hlen.
    destruct (0 <? length (c_out c))%nat eqn:Eo; [|apply Nat.ltb_ge in Eo; assert (Hout : c_out c = []) by (apply nil_length_inv; lia);
      destruct (c_closed c) eqn:Ecl].
    + apply wp_push_outs; [lia|]. exists (ls ++ [Data fd (packet t (q0, i, nn))]). split; [|split; [split; [exact Hfc|]|exact Hl']].
      * apply (core_queues t); [|easy]. cbn [t_qcloses t_qouts]. eapply core_perm; [exact Hc'|].
        cbn. now rewrite <- !(assoc_L (++)).
      * apply Forall_app. split; [exact Hfo|]. repeat constructor. now exists fd, (NetConn (nc_fd n) (nc_next n) c).
    + apply wp_push_closes; [lia|]. exists (ls ++ [Data fd (packet t (q0, i, nn))]). split; [|split; [split; [|exact Hfo]|exact Hl']].
      * apply (core_queues t); [|easy]. cbn [t_qcloses t_qouts]. eapply core_perm; [exact Hc'|].
        cbn. rewrite <- !(assoc_L (++)). apply Permutation_app_head. cbn. symmetry. apply Permutation_middle.
      * apply Forall_app. split; [exact Hfc|]. repeat constructor. now exists fd, (NetConn (nc_fd n) (nc_next n) c).
    + apply wp_ret. exists (ls ++ [Data fd (packet t (q0, i, nn))]). split; [|split; [split; assumption|exact Hl']].
      apply (core_leave _ _ _ _ _ q0 _ _ _ _ Hc' Hq'). now intros _.
Qed.

Lemma qprocess_spec t s m ls :
  processing ls m (t_qins t) t s →
  wp qprocess (λ _ t' s', ∃ ls', core t' s' m (ls ++ ls') (t_qcloses t' ++ t_qouts t') [] [] ∧ filled t' s' m) t s.
Proof.
  intros Hp. unfold qprocess. apply wp_bind, wp_get_ctx. apply (wp_for_each _ (processing ls m)); [exact Hp| |].
  - intros x l t1 s1 Hx. now apply process_spec.
  - intros t1 s1 (ls' & Hc & Hf & _). exists ls'. split; [|exact Hf]. now rewrite app_nil_r in Hc.
Qed.

(** ** Reading *)

Lemma pend_of_app q a b : pend_of q (a ++ b) = pend_of q a ++ pend_of q b.
Proof. unfold pend_of. now rewrite filter_app, fmap_app, concat_app. Qed.

Definition pkts_ok (pkts : list bytes) : Prop := length pkts = t_queuesize o ∧ Forall (λ p, size p = PACKETSIZE) pkts.

Lemma core_inpkts t s m ls F P A pkts :
  core t s m ls F P A → pkts_ok pkts →
  core (Qctx (t_opts t) (t_nconns t) (t_ntlsconns t) (t_cmap t) pkts (t_qreads t) (t_qins t) (t_qattachs t) (t_qouts t) (t_qcloses t)) s m ls F P A.
Proof. intros [] Hp. now split. Qed.

Lemma pkts_ok_insert pkts i pkt : pkts_ok pkts → size pkt = PACKETSIZE → pkts_ok (<[i := pkt]> pkts).
Proof. intros [H1 H2] Hp. split; [now rewrite length_insert|]. now apply Forall_insert. Qed.

(** The entries of [qins] with buffers below [i]. *)
Definition entries_ok t s m (i : nat) : Prop :=
  Forall (λ x, quiet s m (in_conn x) ∧ is_Some (t_inpkts t !! x.1.2) ∧ (x.1.2 < i)%nat) (t_qins t).

(** The reading stage with [R] read ahead for the connections [l] to come. *)
Definition reading ls m (R : list (positive * bytes)) (i : nat) (l : list positive) t s : Prop :=
  core t s m ls ((t_qcloses t ++ (in_conn <$> t_qins t)) ++ l) (pendings t (t_qins t) ++ R) [] ∧
  filled t s m ∧ t_qouts t = [] ∧ entries_ok t s m i ∧ Forall (quiet s m) l.

(** Packets of lower buffers stay when a buffer is written. *)
Lemma pendings_insert t t' i pkt l :
  t_inpkts t' = <[i := pkt]> (t_inpkts t) → Forall (λ x, (x.1.2 < i)%nat) l → pendings t' l = pendings t l.
Proof.
  intros E Hl. unfold pendings. f_equal. apply list_fmap_ext. intros j x Hx. rewrite Forall_lookup in Hl.
  pose proof (Hl j x Hx). unfold packet. rewrite E, list_lookup_insert_ne by lia. reflexivity.
Qed.

Lemma entries_ok_insert t t' s m i j pkt :
  t_inpkts t' = <[j := pkt]> (t_inpkts t) → t_qins t' = t_qins t → entries_ok t s m i → entries_ok t' s m i.
Proof.
  intros E1 E2 He. unfold entries_ok in *. rewrite E2. eapply Forall_impl; [exact He|]. intros x (? & Hs & ?).
  split; [assumption|]. split; [|assumption]. rewrite E1. destruct (decide (j = x.1.2)) as [->|]; [|now rewrite list_lookup_insert_ne].
  rewrite list_lookup_insert_eq; [eauto|]. now apply lookup_lt_is_Some.
Qed.

Lemma reading_room ls m R i q l t s :
  reading ls m R i (q :: l) t s → (length (t_qcloses t) + length (t_qins t) < t_queuesize (t_opts t))%nat.
Proof.
  intros (Hc & _). pose proof (co_flight Hc) as (_ & Hlen & _).
  rewrite <- (co_opts Hc), !length_app, length_fmap in Hlen. cbn in Hlen. lia.
Qed.

Lemma entries_ok_S t s m i : entries_ok t s m i → entries_ok t s m (S i).
Proof. intros He. eapply Forall_impl; [exact He|]. intros x (? & ? & ?). repeat split; [assumption..|lia]. Qed.

(** All packet buffers but one are as before. *)
Definition others_kept (i : nat) (t t' : thread) : Prop := ∀ j, j ≠ i → t_inpkts t' !! j = t_inpkts t !! j.

(** A read that failed or met the end: the connection is to be closed. *)
Lemma read_closes ls m R i q l t s data :
  reading ls m ((q, data) :: R) i (q :: l) t s → (faithful = true → data = []) →
  wp (push_closes q) (λ _ t' s', reading ls m R (S i) l t' s' ∧ others_kept i t t') t s.
Proof.
  intros Hrd Hdata. pose proof (reading_room _ _ _ _ _ _ _ _ Hrd) as Hlen.
  destruct Hrd as (Hc & Hfill & Hout & Hent%entries_ok_S & Hl). apply Forall_cons in Hl as [Hq Hl]. apply wp_push_closes; [lia|].
  split; [|now intros j _]. split; [|split; [split; [|exact (proj2 Hfill)]|split; [exact Hout|split; [exact Hent|exact Hl]]]].
  - apply (core_queues t); [|easy]. cbn [t_qcloses t_qins]. unfold pendings, packet. cbn [t_inpkts]. fold (packet t) (pendings t (t_qins t)).
    apply (core_pend _ _ _ _ _ (pendings t (t_qins t) ++ (q, data) :: R) []).
    + eapply core_perm; [exact Hc|]. rewrite <- !(assoc_L (++)). apply Permutation_app_head. symmetry. exact (Permutation_middle _ l q).
    + intros Hf q'. split; [|reflexivity]. rewrite !pend_of_app, pend_of_cons, (Hdata Hf). now destruct (decide (q = q')).
  - apply Forall_app. split; [exact (proj1 Hfill)|]. now apply Forall_singleton.
Qed.

(** A packet of [n] bytes is queued with its buffer. *)
Lemma read_packet ls m R i q l t s pkt n data :
  reading ls m ((q, data) :: R) i (q :: l) t s → t_inpkts t !! i = Some pkt → 0 <= n < size pkt →
  (faithful = true → data = take (Z.to_nat n) pkt) →
  wp (put_inpkts (<[i := <[Z.to_nat n := 0]> pkt]> (t_inpkts t));; push_ins (q, i, n)) (λ _ t' s', reading ls m R (S i) l t' s' ∧ others_kept i t t') t s.
Proof.
  intros Hrd Hpkt Hn Hdata. pose proof (reading_room _ _ _ _ _ _ _ _ Hrd) as Hlen.
  destruct Hrd as (Hc & Hfill & Hout & Hent & Hl). apply Forall_cons in Hl as [Hq Hl]. pose proof (co_pkts Hc) as Hpk.
  set (pkts := <[i := <[Z.to_nat n := 0]> pkt]> (t_inpkts t)).
  assert (Hnew : pkts !! i = Some (<[Z.to_nat n := 0]> pkt)) by (apply list_lookup_insert_eq; eapply lookup_lt_Some; exact Hpkt).
  assert (Hpkts : pkts_ok pkts).
  { apply pkts_ok_insert; [exact Hpk|]. unfold size. rewrite length_insert. destruct Hpk as [_ Hf]. rewrite Forall_lookup in Hf. eauto. }
  set (t1 := Qctx (t_opts t) (t_nconns t) (t_ntlsconns t) (t_cmap t) pkts (t_qreads t) (t_qins t) (t_qattachs t) (t_qouts t) (t_qcloses t)).
  apply wp_bind, wp_upd_ctx, wp_push_ins; [cbn; lia|].
  split; [|intros j Hj; apply list_lookup_insert_ne; congruence]. split; [|split; [exact Hfill|split; [exact Hout|split; [|exact Hl]]]].
  - cbn [t_qcloses t_qins t_inpkts]. apply (core_ctx t1); try reflexivity. apply core_inpkts; [|exact Hpkts].
    apply (core_pend _ _ _ _ _ (pendings t (t_qins t) ++ (q, data) :: R) []).
    + eapply core_perm; [exact Hc|]. rewrite fmap_app. cbn. now rewrite <- !(assoc_L (++)).
    + intros Hf q'. split; [|reflexivity]. rewrite pendings_snoc, !pend_of_app, <- (assoc_L (++)). f_equal.
      { f_equal. apply (pendings_insert t _ i (<[Z.to_nat n := 0]> pkt)); [reflexivity|].
        eapply Forall_impl; [exact Hent|]. now intros x (_ & _ & ?). }
      rewrite !pend_of_cons. change (in_conn (q, i, n)) with q. rewrite app_nil_r. f_equal. destruct (decide (q = q')); [|reflexivity].
      unfold packet. cbn [t_inpkts fst snd]. rewrite Hnew. cbn [from_option]. unfold id. now rewrite take_insert_ge, (Hdata Hf) by lia.
  - apply Forall_app. split; [exact (entries_ok_insert t t1 s m (S i) i _ eq_refl eq_refl (entries_ok_S _ _ _ _ Hent))|].
    apply Forall_singleton. split; [exact Hq|]. cbn. rewrite Hnew. split; [eauto|lia].
Qed.

Lemma handle_read_spec ls m R i q l t s pkt n errno data :
  reading ls m ((q, data) :: R) i (q :: l) t s → t_inpkts t !! i = Some pkt → -1 <= n < PACKETSIZE →
  (faithful = true → data = take (Z.to_nat n) pkt) →
  wp (handle_read n errno i q) (λ _ t' s', reading ls m R (S i) l t' s' ∧ others_kept i t t') t s.
Proof.
  intros Hrd Hpkt Hn Hdata. destruct (Hrd) as (Hc & _ & _ & _ & Hl). apply Forall_cons in Hl as [(fd & nq & Hm & Hnq & Hbg & Hno) _].
  assert (Hsz : size pkt = PACKETSIZE).
  { pose proof (co_pkts Hc) as [_ Hf]. rewrite Forall_lookup in Hf. eauto. }
  unfold handle_read. apply wp_bind, (wp_deref _ nq); [exact Hnq|].
  apply wp_bind, wp_assertion; [now rewrite Hno|]. apply wp_bind, wp_assertion; [now rewrite bool_decide_eq_true|].
  destruct ((n <=? 0) && ((n =? 0) || negb (errno =? EAGAIN))) eqn:Eclose.
  - apply andb_true_iff in Eclose as [Hn0%Z.leb_le _]. apply (read_closes _ _ _ _ _ _ _ _ data Hrd).
    intros Hf. rewrite (Hdata Hf). replace (Z.to_nat n) with 0%nat by lia. reflexivity.
  - apply wp_bind, wp_assertion.
    { destruct (0 <? n) eqn:E1; zb; [reflexivity|]. cbn. apply Z.eqb_eq. destruct (decide (n = -1)); [assumption|].
      assert (n = 0) as -> by lia. discriminate. }
    apply wp_bind, wp_get_ctx. apply wp_bind, (wp_defined _ pkt); [exact Hpkt|].
    apply wp_bind, wp_assertion; [apply Z.ltb_lt; unfold size, PACKETSIZE in *; lia|].
    apply (read_packet _ _ _ _ _ _ _ _ pkt (Z.max n 0) data Hrd Hpkt); [unfold size, PACKETSIZE in *; lia|].
    intros Hf. rewrite (Hdata Hf). f_equal. lia.
Qed.

(** Bytes were read from one descriptor, and nothing else happened. *)
Definition only_recv (fd : Z) (so so' : sockets) (data : bytes) : Prop :=
  so_open so' = so_open so ∧ so_watch so' = so_watch so ∧ so_sent so' = so_sent so ∧
  (∀ fd', fd' ≠ fd → recv so' fd' = recv so fd') ∧ recv so' fd = recv so fd ++ data.

Lemma sock_recv_only fd data so : only_recv fd so (sock_recv fd data so) data.
Proof.
  repeat (split; [reflexivity|]). split; [|now rewrite recv_insert, decide_True].
  intros fd' Hne. now rewrite recv_insert, decide_False.
Qed.
Lemma only_recv_nil fd so : only_recv fd so so [].
Proof. unfold only_recv. now rewrite app_nil_r. Qed.

(** [read] or [tls_read]. *)
Lemma conn_read_law (tls : bool) k fd r k' :
  (if tls then tls_read k fd (PACKETSIZE - 1) else k_read k fd (PACKETSIZE - 1)) = (r, k') →
  match r with
  | Ret data => size data < PACKETSIZE ∧ only_recv fd (socks k) (socks k') data
  | Err _ => only_recv fd (socks k) (socks k') []
  end.
Proof.
  destruct tls; intros E.
  - unfold tls_read in E. destruct (k_ssl_read k fd (PACKETSIZE - 1)) as [[ret d] k1] eqn:E1. pose proof (ssl_read_law _ _ _ _ _ _ E1) as Hl.
    destruct (ret =? 1); injection E as <- <-.
    + destruct Hl as [? ->]. split; [lia|apply sock_recv_only].
    + rewrite Hl. unfold tls_error. destruct (_ =? SSL_ERROR_ZERO_RETURN); [|destruct (_ || _); apply only_recv_nil].
      split; [reflexivity|apply only_recv_nil].
  - pose proof (read_law _ _ _ _ _ E) as Hl. destruct r; [destruct Hl as [? ->]; split; [lia|apply sock_recv_only]|].
    rewrite Hl. apply only_recv_nil.
Qed.

Lemma reading_recv ls m i l t s fd q k data :
  reading ls m [] i l t s → m !! fd = Some q → only_recv fd (so s) (socks k) data →
  reading ls m [(q, data)] i l t (with_kernel s k).
Proof.
  intros (Hc & Hrest) Hm (E1 & E2 & E3 & E4 & E5). split; [|exact Hrest].
  assert (Es : ∀ fd', sent (socks k) fd' = sent (so s) fd') by (intros; unfold sent; now rewrite E3).
  apply (core_transfer _ _ _ _ _ _ _ _ _ _ Hc E1 E2).
  - intros fd' Hn. split; [apply Es|]. apply E4. congruence.
  - intros Hf fd' q' Hm' Hio Hnb. destruct (Hio Hnb) as [Hs Hr]. rewrite Es, Hs. split; [reflexivity|].
    rewrite !pend_of_app, pend_of_cons in *. change (pend_of q' []) with (@nil Z) in *. rewrite app_nil_r in *.
    destruct (decide (fd' = fd)) as [->|Hne].
    + rewrite decide_True by congruence. now rewrite E5, Hr, <- (assoc_L (++)).
    + rewrite E4, decide_False by (assumption || (intros ->; apply Hne; eapply represents_injective; [apply Hc|eauto..])).
      now rewrite app_nil_r.
Qed.

(** A buffer that no entry uses is written. *)
Lemma reading_store ls m R i l t s pkt data :
  reading ls m R i l t s → t_inpkts t !! i = Some pkt → size data <= PACKETSIZE →
  wp (store_pkt i data) (λ _ t' s', s' = s ∧ reading ls m R i l t' s ∧
    t_inpkts t' = <[i := data ++ drop (length data) pkt]> (t_inpkts t) ∧ t_qreads t' = t_qreads t ∧ t_qins t' = t_qins t) t s.
Proof.
  intros (Hc & Hfill & Hout & Hent & Hl) Hpkt Hsz. pose proof (co_pkts Hc) as Hpk.
  unfold store_pkt. apply wp_bind, wp_get_ctx. apply wp_bind, (wp_defined _ pkt); [exact Hpkt|]. apply wp_upd_ctx.
  split; [reflexivity|]. split; [|repeat split]. split; [|split; [exact Hfill|split; [exact Hout|split; [|exact Hl]]]].
  - apply core_inpkts.
    + cbn [t_qcloses t_qins]. erewrite (pendings_insert t); [exact Hc|reflexivity|].
      eapply Forall_impl; [exact Hent|]. now intros x (_ & _ & ?).
    + apply pkts_ok_insert; [exact Hpk|]. destruct Hpk as [_ Hf]. rewrite Forall_lookup in Hf. pose proof (Hf _ _ Hpkt) as Hp.
      unfold size in *. rewrite length_app, length_drop. lia.
  - eapply entries_ok_insert; [reflexivity|reflexivity|exact Hent].
Qed.

Lemma read_conn_spec ls m i q l t s :
  reading ls m [] i (q :: l) t s → (i < t_queuesize o)%nat → wp (read_conn (i, q)) (λ _, reading ls m [] (S i) l) t s.
Proof.
  intros Hrd Hi. destruct (Hrd) as (Hc & _ & _ & _ & Hl). apply Forall_cons in Hl as [(fd & n & Hm & Hq & _) _].
  assert (Hfd : nc_fd n = fd) by (destruct (rep_fd _ _ _ (co_map Hc) _ _ Hm) as (? & ? & <-); congruence).
  destruct (lookup_lt_is_Some_2 (t_inpkts t) i) as [pkt Hpkt]; [now rewrite (proj1 (co_pkts Hc))|].
  unfold read_conn. apply wp_bind, (wp_deref _ n); [exact Hq|]. apply wp_bind, wp_sys. intros r k E. rewrite Hfd in E.
  pose proof (conn_read_law _ _ _ _ _ E) as Hlaw. destruct r as [data|e].
  - destruct Hlaw as [Hsz Ho]. apply wp_bind. eapply wp_mono; [apply (reading_store ls m _ i _ _ _ pkt data (reading_recv _ _ _ _ _ _ _ _ _ _ Hrd Hm Ho) Hpkt); lia|].
    intros [] t' s' (-> & Hrd' & Ep & _). eapply wp_mono; [eapply (handle_read_spec _ _ _ _ _ _ _ _ _ _ _ _ Hrd')|now intros ? ? ? []].
    + rewrite Ep. apply list_lookup_insert_eq. eapply lookup_lt_Some; exact Hpkt.
    + unfold size in *. lia.
    + intros _. unfold size. rewrite Nat2Z.id. symmetry. apply take_app_length.
  - eapply wp_mono; [eapply (handle_read_spec _ _ _ _ _ _ _ _ _ _ _ _ (reading_recv _ _ _ _ _ _ _ _ _ _ Hrd Hm Hlaw) Hpkt)|now intros ? ? ? []].
    + unfold PACKETSIZE; lia.
    + now intros _.
Qed.

(** ** A batch of reads *)

Lemma fds_of_spec l (Q : list Z → thread → state → Prop) t s :
  (∀ fds, Forall2 (λ q x, ∃ n, n_heap s !! q = Some n ∧ x = nc_fd n) l fds → Q fds t s) →
  Forall (λ q, is_Some (n_heap s !! q)) l → wp (fds_of l) Q t s.
Proof.
  intros HQ Hl. revert Q HQ. induction Hl as [|q l [n Hn] _ IH]; intros Q HQ; cbn [fds_of]; [apply wp_ret, HQ; constructor|].
  apply wp_bind, (wp_deref _ n); [exact Hn|]. apply wp_bind, IH. intros fds Hf. apply wp_ret, HQ. constructor; eauto.
Qed.

(** The results of a batch of reads. *)
Lemma uring_read_results k fds r datas results k' :
  k_uring_read k fds = (r, datas, results, k') → 0 <= r →
  length datas = Z.to_nat r ∧ socks k' = sock_recvs fds datas (socks k) ∧
  Forall (λ d, size d < PACKETSIZE) datas ∧ (∀ i n, results !! i = Some n → n < PACKETSIZE).
Proof.
  intros E Hr. destruct (uring_read_law _ _ _ _ _ _ E Hr) as (_ & Hlen & Hs & Hsz & rs & Hrs & Hsub).
  do 3 (split; [assumption|]). intros i n Hi. apply list_elem_of_lookup_2 in Hi. apply (elem_of_submseteq _ _ _ Hi) in Hsub as Hi2. clear Hi.
    apply list_elem_of_lookup in Hi2 as [j Hj]. destruct (Forall2_lookup_r _ _ _ _ _ Hrs Hj) as (d & Hd & Hx).
    rewrite Forall_lookup in Hsz. pose proof (Hsz _ _ Hd). unfold PACKETSIZE in *. lia.
Qed.

(** Every buffer that is still to be used starts with the data of its read. *)
Definition holds_data (datas : list bytes) (i : nat) t : Prop :=
  ∀ j d, (i <= j)%nat → datas !! j = Some d → ∃ pkt, t_inpkts t !! j = Some pkt ∧ take (length d) pkt = d.

(** The data of a batch goes to the buffers. *)
Lemma store_all_spec ls m R l datas t s :
  reading ls m R 0 l t s → t_qins t = [] → Forall (λ d, size d < PACKETSIZE) datas → (length datas <= t_queuesize o)%nat →
  wp (for_each (enumerate datas) (λ x, store_pkt x.1 x.2))
    (λ _ t' s', s' = s ∧ reading ls m R 0 l t' s ∧ holds_data datas 0 t' ∧ t_qreads t' = t_qreads t) t s.
Proof.
  intros Hrd Hins Hsz Hlen.
  apply (wp_for_enumerate _ (λ ds t' s', s' = s ∧ reading ls m R 0 l t' s ∧ t_qins t' = [] ∧ t_qreads t' = t_qreads t ∧
    ∀ j d, (j + length ds < length datas)%nat → datas !! j = Some d → ∃ pkt, t_inpkts t' !! j = Some pkt ∧ take (length d) pkt = d)).
  - split; [reflexivity|]. split; [exact Hrd|]. split; [exact Hins|]. split; [reflexivity|]. intros j d Hj. lia.
  - intros i d ds t1 s1 Hi Hidx _ (-> & Hrd1 & Hins1 & Hq1 & Hdone). cbn [fst snd].
    assert (Hsi : size d < PACKETSIZE) by (rewrite Forall_lookup in Hsz; eauto).
    destruct (lookup_lt_is_Some_2 (t_inpkts t1) i) as [pkt Hpkt].
    { rewrite (proj1 (co_pkts (proj1 Hrd1))). lia. }
    assert (Hrdi : ∀ t2 k, t_qins t2 = [] → reading ls m R k l t2 s → ∀ j, reading ls m R j l t2 s).
    { intros t2 k Hi2 (? & ? & ? & ? & ?) j. repeat (split; [assumption|]). split; [|assumption]. unfold entries_ok. now rewrite Hi2. }
    eapply wp_mono; [apply (reading_store ls m R i l t1 s pkt d (Hrdi _ _ Hins1 Hrd1 i) Hpkt); lia|].
    intros [] t2 s2 (-> & Hrd2 & Ep & Hq2 & Hi2). rewrite Hins1 in Hi2. split; [reflexivity|]. split; [now apply (Hrdi _ i)|].
    split; [exact Hi2|]. split; [congruence|]. intros j d' Hj Hd'. rewrite Ep. destruct (decide (j = i)) as [->|Hne].
    + rewrite list_lookup_insert_eq by (eapply lookup_lt_Some; exact Hpkt). replace d' with d by congruence.
      eexists. split; [reflexivity|]. apply take_app_length.
    + rewrite list_lookup_insert_ne by congruence. apply Hdone; [cbn; lia|exact Hd'].
  - intros t1 s1 (-> & Hrd1 & _ & Hq1 & Hdone). split; [reflexivity|]. split; [exact Hrd1|]. split; [|exact Hq1].
    intros j d _ Hj. apply Hdone; [|exact Hj]. apply lookup_lt_Some in Hj. cbn. lia.
Qed.

Lemma uring_read_done_spec ls m results datas d R i q l t s :
  reading ls m ((q, d) :: R) i (q :: l) t s → holds_data datas i t → datas !! i = Some d →
  (∀ n, results !! i = Some n → n < PACKETSIZE) →
  (faithful = true → ∀ n, results !! i = Some n → 0 <= n ∧ n = size d ∨ n < 0 ∧ d = []) →
  wp (uring_read_done results (i, q)) (λ _ t' s', reading ls m R (S i) l t' s' ∧ holds_data datas (S i) t') t s.
Proof.
  intros Hrd Hh Hd Hlt Hf. unfold uring_read_done. destruct (results !! i) as [n|] eqn:En; [|exact I].
  destruct (Hh i d (le_n _) Hd) as (pkt & Hpkt & Htake). specialize (Hlt n eq_refl).
  assert (Hnext : ∀ t', others_kept i t t' → holds_data datas (S i) t').
  { intros t' Ho j dj Hj Hdj. rewrite Ho by lia. apply Hh; [lia|exact Hdj]. }
  destruct (n <? 0) eqn:E0; zb.
  - eapply wp_mono; [eapply (handle_read_spec _ _ _ _ _ _ _ _ _ (-1) (- n) _ Hrd Hpkt); [unfold PACKETSIZE; lia|]|].
    + intros Hfa. destruct (Hf Hfa n eq_refl) as [[? _]|[_ ->]]; [lia|reflexivity].
    + intros [] t' s' [? ?]. eauto.
  - eapply wp_mono; [eapply (handle_read_spec _ _ _ _ _ _ _ _ _ n 0 _ Hrd Hpkt); [lia|]|].
    + intros Hfa. destruct (Hf Hfa n eq_refl) as [[_ ->]|[? _]]; [|lia]. unfold size. now rewrite Nat2Z.id.
    + intros [] t' s' [? ?]. eauto.
Qed.

(** After a batch of reads was submitted. *)
Lemma uring_read_core t s m ls F l fds datas k :
  core t s m ls F [] [] → Forall (quiet s m) l → Forall2 (λ q x, ∃ n, n_heap s !! q = Some n ∧ x = nc_fd n) l fds →
  socks k = sock_recvs fds datas (so s) → core t (with_kernel s k) m ls F (zip l datas) [].
Proof.
  intros Hc Hl Hfds Hsocks. pose proof (co_map Hc) as Hr.
  destruct (fds_of_conns s m _ is_quiet nc_fd l fds Hr Hl Hfds) as (fds' & Hfds1 & Hfds2).
  assert (fds' = fds) as ->.
  { clear -Hfds2. induction Hfds2 as [|fd x fds' fds (q & n & _ & _ & <- & ->) _ IH]; congruence. }
  destruct (sock_recvs_spec fds datas (so s)) as (E1 & E2 & E3 & E4). rewrite <- Hsocks in *.
  assert (Es : ∀ fd, sent (socks k) fd = sent (so s) fd) by (intros; unfold sent; now rewrite E3).
  apply (core_transfer t s m ls _ [] []); [exact Hc|exact E1|exact E2| |].
  - intros fd Hnone. rewrite E4, (for_fd_none m l) by assumption. now rewrite app_nil_r.
  - intros Hf fd q Hm Hio Hnb. destruct (Hio Hnb) as [Hs1 Hr1]. rewrite Es, Hs1, E4, Hr1.
    rewrite (for_fd_pend (n_heap s) (t_cmap t) m l _ _ Hr Hfds1 fd q Hm). cbn. rewrite !app_nil_r. split; reflexivity.
Qed.

Lemma qread_spec t s m ls :
  core t s m ls (t_qcloses t ++ t_qreads t) [] [] → Forall (quiet s m) (t_qcloses t) → Forall (quiet s m) (t_qreads t) →
  t_qouts t = [] → t_qins t = [] →
  wp qread (λ _ t' s', ∃ i, reading ls m [] i [] t' s') t s.
Proof.
  intros Hc Hcl Hl Ho Hi. pose proof (co_flight Hc) as (_ & Hlen & _). rewrite length_app in Hlen.
  assert (Hstart : ∀ k R, core t (with_kernel s k) m ls (t_qcloses t ++ t_qreads t) R [] →
    reading ls m R 0 (t_qreads t) t (with_kernel s k)).
  { intros k R HcR. split; [rewrite Hi; cbn; now rewrite app_nil_r|]. split; [split; [exact Hcl|now rewrite Ho]|].
    split; [exact Ho|]. split; [|exact Hl]. unfold entries_ok. now rewrite Hi. }
  unfold qread. apply wp_bind, wp_get_ctx. destruct (use_uring t) eqn:Hu.
  - apply wp_bind, fds_of_spec; [|eapply Forall_impl; [exact Hl|]; intros q (? & n & _ & ? & _); eauto].
    intros fds Hfds. apply wp_bind, wp_sys. intros [[ret datas] results] k E. destruct (ret <? 0) eqn:Eret; zb; [exact I|].
    destruct (uring_read_results _ _ _ _ _ _ E ltac:(lia)) as (Hld & Hsocks & Hsz & Hlt).
    pose proof (use_uring_faithful _ (co_opts Hc) Hu) as Hnf. pose proof (Forall2_length _ _ _ Hfds) as Hlf.
    apply wp_bind, wp_granted; [intros Er Hg; zb; apply Er; rewrite Hlf; apply (grants_submit Hg _ _ _ _ _ _ E ltac:(lia))|].
    intros Er. zb. rewrite Er, Nat2Z.id in Hld. apply wp_bind.
    pose proof (uring_read_core _ _ _ _ _ _ _ _ _ Hc Hl Hfds Hsocks) as Hc1.
    eapply wp_mono; [apply (store_all_spec ls m _ _ datas t _ (Hstart k _ Hc1) Hi Hsz); lia|].
    intros [] t1 s1 (-> & Hrd1 & Hh & Hq1).
    apply (wp_for_enumerate _ (λ l t' s', let i := (length (t_qreads t) - length l)%nat in
      reading ls m (zip l (drop i datas)) i l t' s' ∧ holds_data datas i t')).
    + cbn zeta. rewrite Nat.sub_diag. easy.
    + intros i q l t2 s2 Hq Hidx _ [Hrd2 Hh2]. cbn [length] in *. replace (length (t_qreads t) - S (length l))%nat with i in * by lia.
      destruct (lookup_lt_is_Some_2 datas i) as [d Hd]; [lia|].
      rewrite (drop_S datas d i Hd) in Hrd2. cbn [zip zip_with] in Hrd2.
      replace (length (t_qreads t) - length l)%nat with (S i) by lia.
      apply (uring_read_done_spec ls m results datas d); try assumption; [now intros n Hn; apply (Hlt i)|].
      intros Hfa. congruence.
    + intros t2 s2 [Hrd2 _]. eauto.
  - assert (E0 : with_kernel s (n_kernel s) = s) by now destruct s. specialize (Hstart (n_kernel s) []). rewrite E0 in Hstart.
    apply (wp_for_enumerate _ (λ l, reading ls m [] (length (t_qreads t) - length l) l)).
    + rewrite Nat.sub_diag. now apply Hstart.
    + intros i q l t2 s2 Hq Hidx _ Hrd2. cbn [length] in *. replace (length (t_qreads t) - S (length l))%nat with i in * by lia.
      replace (length (t_qreads t) - length l)%nat with (S i) by lia. apply read_conn_spec; [exact Hrd2|lia].
    + intros t2 s2 Hrd2. eauto.
Qed.

(** ** Attaching *)

(** The background work of a connection is done and the event queue says so. *)
Definition worked s m (q : positive) : Prop :=
  ∃ fd n, m !! fd = Some q ∧ n_heap s !! q = Some n ∧ is_Some (c_bg (nc_rest n)) ∧ watch (so s) (t_qfd o) fd = Some EPOLLOUT.

Definition attaching (ls0 : list label) m (l : list positive) t s : Prop :=
  ∃ ls, core t s m (ls0 ++ ls) ((t_qcloses t ++ t_qreads t) ++ l) [] [] ∧
    Forall (quiet s m) (t_qcloses t) ∧ Forall (quiet s m) (t_qreads t) ∧ t_qouts t = [] ∧ t_qins t = [] ∧ Forall (worked s m) l.

Lemma worked_others s s' m c fd q n l :
  represents (n_heap s) c m → m !! fd = Some q → q ∉ l → n_heap s' = <[q := n]> (n_heap s) →
  (∀ fd', fd' ≠ fd → watch (so s') (t_qfd o) fd' = watch (so s) (t_qfd o) fd') →
  Forall (worked s m) l → Forall (worked s' m) l.
Proof.
  intros Hr Hm Hql E Hw Hl. rewrite Forall_forall in *. intros q' Hq'. destruct (Hl q' Hq') as (fd' & n' & Hm' & Hn' & Hbg & Hw').
  assert (q' ≠ q) by congruence. exists fd', n'. rewrite E, lookup_insert_ne, Hw by congruence. easy.
Qed.

(** The event queue reads the connection again, and [done] was called. *)
Lemma done_core t s m ls F fd q n j w c k :
  core t s m ls F [] [] → m !! fd = Some q → n_heap s !! q = Some n → q ∈ F → c_bg (nc_rest n) = Some j →
  bg_done (n_app s) j (nc_rest n) = Some (w, c) →
  socks k = sock_watch (t_qfd o) fd READING (sock_unwatch (t_qfd o) fd (so s)) →
  core t (with_all s k w (<[q := NetConn (nc_fd n) (nc_next n) (set_bg c None)]> (n_heap s))) m (ls ++ [Done fd]) F [] [].
Proof.
  intros Hc Hm Hq HF Hbg Hdone Hk.
  apply (core_update t s m ls F [] [] fd q n k w (set_bg c None) (Done fd) [] []); try assumption; rewrite ?Hk.
  - eapply same_but_trans; [apply same_but_unwatch|apply same_but_watch].
  - unfold watched, watch, sock_watch. cbn. apply lookup_insert_eq.
  - now left.
  - now repeat constructor.
  - apply (steps_snoc _ [] _ _ _ (steps_nil _)). apply (step_done _ _ _ (nc_rest n) j); try assumption. now apply (conns_abs_lookup _ _ _ q).
  - intros Hf Hio Hnb. rewrite (since_app_plain fd) in * by now repeat constructor.
    destruct Hio as [Hs Hr]; [intros Hb; now apply Hnb, broken_app_l|].
    rewrite outs_app, ins_app. change (outs [Done fd]) with (@nil Z). change (ins [Done fd]) with (@nil Z).
    rewrite !app_nil_r. change (pend_of q []) with (@nil Z) in *. rewrite !app_nil_r in *. split; assumption.
  - split; reflexivity.
Qed.

Lemma attach_spec fuel ls0 m q l t s :
  attaching ls0 m (q :: l) t s → wp (attach fuel q) (λ _, attaching ls0 m l) t s.
Proof.
  intros (ls & Hc & Hcl & Hrd & Ho & Hi & Hl). apply Forall_cons in Hl as [(fd & n & Hm & Hq & [j Hbg] & Hw) Hl].
  pose proof (co_opts Hc) as Hopts. pose proof (co_map Hc) as Hr.
  assert (Hfd : nc_fd n = fd) by (destruct (rep_fd _ _ _ Hr _ _ Hm) as (? & ? & <-); congruence).
  destruct (co_conn Hc _ _ _ Hm Hq) as (Hopen & _ & _).
  pose proof (co_flight Hc) as (Hd & Hlen & _). rewrite <- Hopts, !length_app in Hlen. cbn in Hlen.
  apply NoDup_app in Hd as (_ & Hd1 & [Hql _]%NoDup_cons).
  assert (Hqf : q ∉ t_qcloses t ++ t_qreads t) by (intros Hx; apply (Hd1 q Hx); set_solver).
  unfold attach. apply wp_bind, wp_get_opts. rewrite Hopts. apply wp_bind, (wp_deref _ n); [exact Hq|].
  apply wp_bind, (wp_defined _ j); [exact Hbg|]. apply wp_bind, wp_app. intros w c Edone.
  apply wp_bind, (wp_put_conn q n); [exact Hq|]. rewrite Hfd.
  apply (wp_ctl_del _ (t_qfd o) fd EPOLLOUT); [reflexivity|eexists; exact Hw|]. cbn [with_heap with_app n_kernel]. intros k Ek.
  apply (wp_ctl_add _ (t_qfd o) fd READING); [reflexivity|now cbn; rewrite Ek| |].
  { cbn [with_kernel n_kernel]. rewrite Ek. apply lookup_delete_eq. }
  cbn [with_kernel n_kernel]. intros k2 Ek2. rewrite Ek in Ek2. apply wp_bind.
  pose proof (done_core t s m _ _ fd q n j w c k2 Hc Hm Hq ltac:(set_solver) Hbg Edone Ek2) as Hc2. rewrite Hfd in Hc2.
  set (s2 := with_kernel _ k2). change (with_all s k2 w _) with s2 in Hc2.
  assert (Hq2 : n_heap s2 !! q = Some (NetConn fd (nc_next n) (set_bg c None))) by apply lookup_insert_eq.
  assert (Hw2 : ∀ fd', fd' ≠ fd → watch (so s2) (t_qfd o) fd' = watch (so s) (t_qfd o) fd').
  { intros fd' Hne. unfold so at 1. cbn [s2 with_kernel n_kernel]. rewrite Ek2. unfold watch, sock_watch, sock_unwatch. cbn.
    now rewrite lookup_insert_ne, lookup_delete_ne by congruence. }
  eapply wp_mono; [apply (flush_conn_core fuel t s2 m _ _ [] [] [] fd q _ 0 Hc2 Hm Hq2); [set_solver|reflexivity|easy|easy|easy]|].
  intros [] t3 s3 (-> & Hset & Hw3 & lb & Hc3). destruct Hset as (n3 & E3 & Hbg3 & Hout3).
  assert (Eh : n_heap s3 = <[q := n3]> (n_heap s)) by (rewrite E3; cbn [s2 with_kernel n_heap with_heap]; apply insert_insert_eq).
  assert (Hq3 : n_heap s3 !! q = Some n3) by (rewrite Eh; apply lookup_insert_eq).
  assert (Hcl3 : Forall (quiet s3 m) (t_qcloses t)) by (apply (conn_is_others s _ _ (λ _, is_quiet) q _ n3 Eh); [set_solver|assumption]).
  assert (Hrd3 : Forall (quiet s3 m) (t_qreads t)) by (apply (conn_is_others s _ _ (λ _, is_quiet) q _ n3 Eh); [set_solver|assumption]).
  assert (Hl3 : Forall (worked s3 m) l).
  { apply (worked_others s s3 m _ fd q n3 l Hr Hm Hql Eh); [|exact Hl]. intros fd' Hne. unfold watch. rewrite Hw3. now apply Hw2. }
  assert (Hq3' : quiet s3 m q) by now exists fd, n3.
  apply wp_bind, (wp_deref _ n3); [exact Hq3|]. rewrite <- !(assoc_L (++)) in Hc3. rewrite (assoc_L (++)) in Hc3. destruct (c_closed (nc_rest n3)).
  - apply wp_push_closes; [lia|]. exists (ls ++ [Done fd] ++ [lb]). split; [|split; [|split; [exact Hrd3|easy]]].
    + apply (core_queues t); [|easy]. cbn [t_qcloses t_qreads]. eapply core_perm; [rewrite !(assoc_L (++)) in *; exact Hc3|].
      rewrite <- !(assoc_L (++)). apply Permutation_app_head. symmetry. exact (Permutation_middle _ l q).
    + apply Forall_app. split; [exact Hcl3|]. now apply Forall_singleton.
  - apply wp_push_reads; [lia|]. exists (ls ++ [Done fd] ++ [lb]). split; [|split; [exact Hcl3|split; [|easy]]].
    + apply (core_queues t); [|easy]. cbn [t_qcloses t_qreads]. eapply core_perm; [rewrite !(assoc_L (++)) in *; exact Hc3|].
      now rewrite <- !(assoc_L (++)).
    + apply Forall_app. split; [exact Hrd3|]. now apply Forall_singleton.
Qed.

Lemma qattach_spec fuel t s m ls :
  attaching ls m (t_qattachs t) t s →
  wp (qattach fuel) (λ _, attaching ls m []) t s.
Proof.
  intros Ha. unfold qattach. apply wp_bind, wp_get_ctx. apply (wp_for_each _ (attaching ls m)); [exact Ha| |easy].
  intros x l t1 s1 Hx. now apply attach_spec.
Qed.

End Net.

Arguments co_opts {K W J HK HKO HS HB o w0 faithful said t s m ls F P A} _.
Arguments co_map {K W J HK HKO HS HB o w0 faithful said t s m ls F P A} _.
Arguments co_socks {K W J HK HKO HS HB o w0 faithful said t s m ls F P A} _.
Arguments co_conn {K W J HK HKO HS HB o w0 faithful said t s m ls F P A} _.
Arguments co_new {K W J HK HKO HS HB o w0 faithful said t s m ls F P A} _.
Arguments co_flight {K W J HK HKO HS HB o w0 faithful said t s m ls F P A} _.
Arguments co_trace {K W J HK HKO HS HB o w0 faithful said t s m ls F P A} _.
Arguments co_io {K W J HK HKO HS HB o w0 faithful said t s m ls F P A} _.
Arguments co_said {K W J HK HKO HS HB o w0 faithful said t s m ls F P A} _.
Arguments co_count {K W J HK HKO HS HB o w0 faithful said t s m ls F P A} _.
Arguments co_pkts {K W J HK HKO HS HB o w0 faithful said t s m ls F P A} _.

Ltac wp := repeat first
  [apply wp_bind | apply wp_get_ctx | apply wp_get_opts | apply wp_get_heap | apply wp_ret ].
