(* ===== verification/NetRound.v ===== *)
(** * NetRound: accepting connections and a whole round

    New connections enter the invariant of [NetProofs.v], and with them a round of
    the event loop, any number of rounds, and the ends of background work between
    them. *)

From S2P Require Import Prelude Util Resp Memcache Http Parse Conn Cmap Net NetSpec NetProofs.

#[local] Opaque mix13 cmap_insert cmap_delete cmap_get.

Section Round.
Context {K W J : Type} {HK : Kernel K} {HKO : KernelOk K} {HS : Conn.Server W J} {HB : Background W J}.
Context (o : qopts) (w0 : W) (faithful : bool) (said : bytes → Prop) (Hsaid : peers_send K said).

Abbreviation thread := qthreadctx.
Abbreviation state := (shared K W J).
Abbreviation core := (core o w0 faithful said).
Abbreviation quiet s m := (conn_is s m is_quiet).
Implicit Types (t : thread) (s : state) (m : gmap Z positive) (F : list positive).

(** ** A listener *)

(** Descriptors that were open are as before; those the queue watches are new
    ones, or were watched before. *)
Definition grown (so so' : sockets) : Prop :=
  sockets_ok so' ∧
  (∀ fd, fd ∈ so_open so → fd ∈ so_open so' ∧ watch so' (t_qfd o) fd = watch so (t_qfd o) fd ∧
    sent so' fd = sent so fd ∧ recv so' fd = recv so fd) ∧
  (∀ fd ev, fd ∉ so_open so → watch so' (t_qfd o) fd = Some ev → ev = READING ∧ sent so' fd = [] ∧ recv so' fd = []).

Lemma core_grown t s s' m ls F P A :
  core t s m ls F P A → n_app s' = n_app s → n_heap s' = n_heap s → grown (so s) (so s') → core t s' m ls F P A.
Proof.
  intros Hc Ea Eh (Hok & Hold & Hnew). split; rewrite ?Ea, ?Eh; try apply Hc; [exact Hok| | |].
  - intros fd q n Hm Hq. destruct (co_conn Hc _ _ _ Hm Hq) as (H1 & H2 & H3).
    destruct (Hold fd H1) as (? & E & _). split; [assumption|]. split; [|assumption]. unfold watched in *. now rewrite E.
  - intros fd ev Hn Hs Hev. destruct (decide (fd ∈ so_open (so s))) as [Hin|Hin]; [|now apply Hnew].
    destruct (Hold fd Hin) as (_ & E & -> & ->). rewrite E in Hev. now apply (co_new Hc).
  - intros Hf fd q Hm. destruct (rep_fd _ _ _ (co_map Hc) _ _ Hm) as (n & Hq & _).
    destruct (Hold fd (proj1 (co_conn Hc _ _ _ Hm Hq))) as (_ & _ & E1 & E2). unfold io_ok. rewrite E1, E2.
    exact (co_io Hc Hf _ _ Hm).
Qed.

Lemma grown_refl so : sockets_ok so → grown so so.
Proof. intros Hok. split; [exact Hok|]. split; [easy|]. intros fd ev Hin Hev. now apply Hok in Hev. Qed.

(** A descriptor is opened and closed again. *)
Lemma grown_closed so fd : sockets_ok so → fd ∉ so_open so → grown so (sock_closed fd (sock_opened fd so)).
Proof.
  intros Hok Hfd. assert (Hw : ∀ qf fd', watch (sock_closed fd (sock_opened fd so)) qf fd' = if decide (fd' = fd) then None else watch so qf fd').
  { intros. now rewrite watch_closed. }
  split; [|split].
  - intros qf fd' ev. rewrite Hw. destruct (decide (fd' = fd)); [easy|]. intros ?%Hok. cbn. set_solver.
  - intros fd' Hin. rewrite Hw, decide_False by congruence. cbn. split; [set_solver|]. split; [reflexivity|].
    unfold sent, recv. cbn. now rewrite !lookup_insert_ne by congruence.
  - intros fd' ev Hin. rewrite Hw. destruct (decide (fd' = fd)); [easy|]. intros ?%Hok. easy.
Qed.

(** A descriptor is opened and watched by a queue. *)
Lemma grown_watched so qfd fd : sockets_ok so → fd ∉ so_open so → grown so (sock_watch qfd fd READING (sock_opened fd so)).
Proof.
  intros Hok Hfd.
  assert (Hw : ∀ qf fd', fd' ≠ fd → watch (sock_watch qfd fd READING (sock_opened fd so)) qf fd' = watch so qf fd').
  { intros qf fd' Hne. unfold watch, sock_watch. cbn. now rewrite lookup_insert_ne by congruence. }
  split; [|split].
  - intros qf fd' ev Hev. cbn. destruct (decide (fd' = fd)) as [->|Hne]; [set_solver|]. rewrite Hw in Hev by exact Hne.
    apply Hok in Hev. set_solver.
  - intros fd' Hin. rewrite Hw by congruence. cbn. split; [set_solver|]. split; [reflexivity|].
    unfold sent, recv. cbn. now rewrite !lookup_insert_ne by congruence.
  - intros fd' ev Hin Hev. destruct (decide (fd' = fd)) as [->|Hne].
    + unfold sent, recv. cbn. rewrite !lookup_insert_eq. split; [|easy]. unfold watch, sock_watch in Hev. cbn in Hev.
      destruct (decide (qfd = t_qfd o)) as [->|Hq]; [rewrite lookup_insert_eq in Hev; congruence|].
      rewrite lookup_insert_ne in Hev by congruence. now apply Hok in Hev.
    + rewrite Hw in Hev by exact Hne. now apply Hok in Hev.
Qed.

(** The options of a new socket. *)
Lemma setnonblock_law k fd r k' : setnonblock k fd = (r, k') → socks k' = socks k.
Proof.
  unfold setnonblock. destruct (k_getfl k fd) as [fl k1] eqn:E1. apply getfl_law in E1. destruct (fl =? -1); [congruence|].
  intros E2%setfl_law. congruence.
Qed.
Lemma settcpnodelay_law k fd b r k' : settcpnodelay k fd b = (r, k') → socks k' = socks k ∧ r ≠ -1.
Proof.
  unfold settcpnodelay. destruct (k_setsockopt _ _ _ _ _) as [x k1] eqn:E. apply setsockopt_law in E. intros [= <- <-].
  split; [exact E|]. unfold b2z. now destruct (x =? 0).
Qed.
Lemma setquickack_law k fd b r k' : setquickack k fd b = (r, k') → socks k' = socks k ∧ r ≠ -1.
Proof.
  unfold setquickack. destruct (k_setsockopt _ _ _ _ _) as [x k1] eqn:E. apply setsockopt_law in E. intros [= <- <-].
  split; [exact E|]. unfold b2z. now destruct (x =? 0).
Qed.
Lemma setkeepalive_law k fd b r k' : setkeepalive k fd b = (r, k') → socks k' = socks k.
Proof.
  unfold setkeepalive. intros E.
  repeat match goal with
  | E : context [k_setsockopt ?a ?b ?c ?d ?e] |- _ =>
      let x := fresh in let k1 := fresh in let E1 := fresh in destruct (k_setsockopt a b c d e) as [x k1] eqn:E1; apply setsockopt_law in E1
  | E : (if ?b then _ else _) = _ |- _ => destruct b
  end; congruence.
Qed.

Lemma tls_accept_law k fd r k' : tls_accept k fd = (r, k') → socks k' = socks k.
Proof.
  unfold tls_accept. destruct (negb k_usetls); [congruence|]. destruct (k_ssl_new k fd) as [ok k1] eqn:E1. apply ssl_new_law in E1.
  destruct (negb ok); [congruence|]. destruct (k_ssl_accept k1 fd) as [x k2] eqn:E2. apply ssl_accept_law in E2.
  destruct (x <=? 0); [|congruence]. destruct (_ && _); [|congruence]. intros [= <- <-]. rewrite ssl_free_law. congruence.
Qed.

Context (Hqfds : t_qfd o ∈ t_qfds o).

Lemma wp_tlsfds {A} (f : list Z → A * list Z) (Q : A → thread → state → Prop) t s :
  (∀ a l, Q a t (Shared (n_kernel s) (n_app s) (n_heap s) (n_nconns s) (n_tconns s) (n_rconns s) l (n_next_ctx s))) → wp (tlsfds f) Q t s.
Proof. intros HQ. unfold wp, tlsfds. destruct (f (n_tlsfds s)). apply HQ. Qed.

(** The application and the connections are as before. *)
Definition same_rest (s s' : state) : Prop := n_app s' = n_app s ∧ n_heap s' = n_heap s.

Lemma accept_listener_spec sfd t s :
  t_opts t = o → sockets_ok (so s) →
  wp (accept_listener sfd) (λ _ t' s', t' = t ∧ same_rest s s' ∧ grown (so s) (so s')) t s.
Proof.
  intros Ho Hok. set (Q := λ (_ : unit) t' s', t' = t ∧ same_rest s s' ∧ grown (so s) (so s')).
  unfold accept_listener. apply wp_bind, wp_get_opts. rewrite Ho. apply wp_bind, wp_sys. intros fd k Ek.
  apply accept_law in Ek as [[-> Ek]|(Hne & Hfd & Ek)].
  { apply wp_ret. split; [reflexivity|]. split; [easy|]. unfold so at 2; cbn. rewrite Ek. now apply grown_refl. }
  rewrite (proj2 (Z.eqb_neq _ _) Hne).
  (* the new descriptor is open, nothing else happened *)
  set (mid := λ s' : state, same_rest s s' ∧ so s' = sock_opened fd (so s)).
  assert (Hmid : mid (with_kernel s k)) by now split.
  assert (Hclose : ∀ s', mid s' → wp (sys_close fd) Q t s').
  { intros s' [Hs E]. apply wp_sys. intros [] k' [= <-]. split; [reflexivity|]. split; [exact Hs|].
    unfold so at 2; cbn. rewrite close_law. unfold so in E. rewrite E. now apply grown_closed. }
  assert (Hsys : ∀ {A} (f : K → A * K) (R : A → thread → state → Prop) s', mid s' →
    (∀ a k', f (n_kernel s') = (a, k') → socks k' = socks (n_kernel s')) → (∀ a s'', mid s'' → R a t s'') → wp (sys f) R t s').
  { intros A f R s' [Hs E] Hf HR. apply wp_sys. intros a k' E'. apply HR. split; [exact Hs|]. unfold so in *. cbn.
    now rewrite (Hf _ _ E'). }
  apply wp_bind, (Hsys _ _ _ _ Hmid); [intros ? ? E; exact (setnonblock_law _ _ _ _ E)|]. intros ret s1 Hm1.
  destruct (ret =? -1); [now apply Hclose|]. set (istls := bool_decide _). apply wp_bind.
  assert (Hrest : ∀ ok s', mid s' → ok = true → wp (
    if negb ok then mret tt else
    i ← fetch_next_ctx;
    qfd ← defined (t_qfds o !! Z.to_nat (i mod Z.of_nat (length (t_qfds o))));
    ret ← sys (λ k, addread k qfd fd);
    if ret =? -1 then (if istls then tlsfds (λ l, (tt, (del_tls_fd l fd).2)) else mret tt);; sys_close fd
    else mret tt) Q t s').
  { intros ok s' [Hs' E'] ->. cbn [negb]. apply wp_bind. unfold wp at 1, fetch_next_ctx. set (i := n_next_ctx s').
    destruct (lookup_lt_is_Some_2 (t_qfds o) (Z.to_nat (i mod Z.of_nat (length (t_qfds o))))) as [qfd Hq].
    { assert (0 < length (t_qfds o))%nat by (destruct (t_qfds o); [set_solver|cbn; lia]).
      pose proof (Z.mod_pos_bound i (Z.of_nat (length (t_qfds o)))). lia. }
    apply wp_bind, (wp_defined _ qfd); [exact Hq|]. apply wp_bind, wp_sys. intros r k' Er. unfold addread in Er.
    apply ctl_add_law in Er; cbn [n_kernel] in *; unfold so in E'; rewrite E' in *; [|cbn; set_solver].
    destruct Er as [[-> Er]|(-> & _ & Er)]; cbn [Z.eqb].
    - apply wp_bind. destruct istls; [apply wp_tlsfds; intros [] l|apply wp_ret]; apply Hclose; (split; [exact Hs'|]); unfold so; cbn; exact Er.
    - apply wp_ret. split; [reflexivity|]. split; [exact Hs'|]. unfold so at 2; cbn. rewrite Er. now apply grown_watched. }
  destruct (_ || istls).
  2: { apply wp_ret. now apply Hrest. }
  apply wp_bind, (Hsys _ _ _ _ Hm1); [intros ? ? E; exact (setkeepalive_law _ _ _ _ _ E)|]. intros r1 s2 Hm2.
  assert (Hfail : ∀ s', mid s' → wp (sys_close fd;; mret false) (λ ok, wp (
    if negb ok then mret tt else
    i ← fetch_next_ctx;
    qfd ← defined (t_qfds o !! Z.to_nat (i mod Z.of_nat (length (t_qfds o))));
    ret ← sys (λ k, addread k qfd fd);
    if ret =? -1 then (if istls then tlsfds (λ l, (tt, (del_tls_fd l fd).2)) else mret tt);; sys_close fd
    else mret tt) Q) t s').
  { intros s' Hm. apply wp_bind. eapply wp_mono; [exact (Hclose s' Hm)|]. intros [] t' s'' HQ. now apply wp_ret. }
  destruct (r1 =? -1); [now apply Hfail|].
  apply wp_bind, (Hsys _ _ _ _ Hm2); [intros ? ? E; exact (proj1 (settcpnodelay_law _ _ _ _ _ E))|]. intros r2 s3 Hm3.
  destruct (r2 =? -1); [now apply Hfail|].
  apply wp_bind, (Hsys _ _ _ _ Hm3); [intros ? ? E; exact (proj1 (setquickack_law _ _ _ _ _ E))|]. intros r3 s4 Hm4.
  destruct (r3 =? -1); [now apply Hfail|]. apply wp_bind. destruct istls.
  - apply wp_tlsfds. intros [] l. apply wp_ret. apply Hrest; [|reflexivity]. destruct Hm4 as [? ?]. now split.
  - apply wp_ret, wp_ret. now apply Hrest.
Qed.

(** ** A new connection *)

(** The heap after [conn_new], [cmap_insert] and the assignment of the TLS
    object. *)
Record opened_heap (fd : Z) (tls : bool) (q : positive) (h h2 : conns (conn J)) : Prop := {
  op_fresh : h !! q = None;
  op_new : ∃ next, h2 !! q = Some (NetConn fd next (conn_open tls));
  op_old : ∀ q' n, q' ≠ q → h2 !! q' = Some n → ∃ n0, h !! q' = Some n0 ∧ nc_rest n0 = nc_rest n;
  op_keep : ∀ q' n, h !! q' = Some n → ∃ n', h2 !! q' = Some n' ∧ nc_rest n' = nc_rest n
}.

Lemma opened_heap_intro fd tls q h h1 :
  h !! q = None → same_conns (<[q := NetConn fd None (conn_open false)]> h) h1 →
  ∃ n1, h1 !! q = Some n1 ∧ nc_fd n1 = fd ∧ opened_heap fd tls q h (<[q := NetConn fd (nc_next n1) (conn_open tls)]> h1).
Proof.
  intros Hq Hs. destruct (same_lookup _ _ q _ Hs (lookup_insert_eq _ _ _)) as (n1 & Hn1 & [Hfd _]%unlink_fd).
  exists n1. split; [exact Hn1|]. split; [exact Hfd|]. split; [exact Hq|exists (nc_next n1); apply lookup_insert_eq| |].
  - intros q' n Hne Hq'. rewrite lookup_insert_ne in Hq' by congruence.
    destruct (same_lookup _ _ _ _ (symmetry Hs) Hq') as (n0 & Hn0 & [_ Hr]%unlink_fd).
    rewrite lookup_insert_ne in Hn0 by congruence. eauto.
  - intros q' n Hq'. assert (Hne : q' ≠ q) by congruence.
    destruct (same_lookup _ _ q' n Hs) as (n' & Hn' & [_ Hr]%unlink_fd); [now rewrite lookup_insert_ne by congruence|].
    exists n'. now rewrite lookup_insert_ne by congruence.
Qed.

Lemma abs_opened fd tls q h h2 m :
  opened_heap fd tls q h h2 → (∀ fd' q', m !! fd' = Some q' → is_Some (h !! q')) →
  abs h2 (<[fd := q]> m) = <[fd := conn_open tls]> (abs h m).
Proof.
  intros Ho Hm. apply map_eq. intros fd'. unfold abs. rewrite lookup_omap. destruct (decide (fd' = fd)) as [->|Hne].
  - rewrite !lookup_insert_eq. cbn. destruct (op_new _ _ _ _ _ Ho) as [next ->]. reflexivity.
  - rewrite !lookup_insert_ne, lookup_omap by congruence. destruct (m !! fd') as [q'|] eqn:Em; [|reflexivity]. cbn.
    destruct (Hm _ _ Em) as [n Hn]. destruct (op_keep _ _ _ _ _ Ho _ _ Hn) as (n' & -> & E). rewrite Hn. cbn. now rewrite E.
Qed.

Lemma core_opened t t' s s' m ls F fd tls q c1 :
  core t s m ls F [] [] → m !! fd = None → fd ∉ t_sfd o → is_Some (watch (so s) (t_qfd o) fd) →
  opened_heap fd tls q (n_heap s) (n_heap s') → represents (n_heap s') c1 (<[fd := q]> m) →
  so s' = so s → n_app s' = n_app s →
  t_opts t' = t_opts t → t_cmap t' = c1 → t_nconns t' = t_nconns t + 1 → t_inpkts t' = t_inpkts t →
  core t' s' (<[fd := q]> m) (ls ++ [Opened fd tls]) F [] [].
Proof.
  intros Hc Hm Hsf [ev Hev] Ho Hr1 Es Ea E1 E2 E3 E4. destruct (co_new Hc _ _ Hm Hsf Hev) as (-> & Hsent & Hrecv).
  pose proof (co_map Hc) as Hr.
  assert (Hin : ∀ fd' q', m !! fd' = Some q' → q' ≠ q).
  { intros fd' q' (n & Hn & _)%(rep_fd _ _ _ Hr) ->. now rewrite (op_fresh _ _ _ _ _ Ho) in Hn. }
  split; rewrite ?E1, ?E2, ?E3, ?E4, ?Es; try apply Hc.
  - exact Hr1.
  - intros fd' q' n [(<- & <-)|(Hne & Hm')]%lookup_insert_Some Hq'.
    + destruct (op_new _ _ _ _ _ Ho) as [next Hq]. rewrite Hq in Hq'. injection Hq' as <-. cbn.
      split; [exact (co_socks Hc _ _ _ Hev)|]. split; [exact Hev|]. now intros _ _.
    + destruct (op_old _ _ _ _ _ Ho q' n (Hin _ _ Hm') Hq') as (n0 & Hn0 & <-). exact (co_conn Hc _ _ _ Hm' Hn0).
  - intros fd' ev' [Hne Hm']%lookup_insert_None Hs'. now apply (co_new Hc).
  - destruct (co_flight Hc) as (Hd & Hl & Hf). split; [exact Hd|]. split; [exact Hl|]. intros q' [fd' Hq']%Hf. exists fd'.
    rewrite lookup_insert_ne; [exact Hq'|congruence].
  - rewrite Ea, (abs_opened _ _ _ _ _ _ Ho) by (intros fd' q' (n & ? & _)%(rep_fd _ _ _ Hr); eauto).
    econstructor; [apply (co_trace Hc)|]. apply step_opened. unfold abs. now rewrite lookup_omap, Hm.
  - intros Hf fd' q' [(<- & <-)|(Hne & Hm')]%lookup_insert_Some; unfold io_ok; rewrite since_snoc.
    + rewrite decide_True by reflexivity. intros _. now rewrite Hsent, Hrecv.
    + rewrite decide_False by (cbn; congruence). exact (co_io Hc Hf _ _ Hm').
  - intros Hf. apply said_snoc; [exact (co_said Hc Hf)|]. intros fd'. rewrite since_snoc.
    destruct (decide _) as [_|_]; [|now apply (co_said Hc Hf)]. intros _. apply (send_prefix Hsaid [] (recv (so s) fd)). apply (send_recv Hsaid).
  - rewrite map_size_insert_None by exact Hm. rewrite (co_count Hc). lia.
Qed.

(** A descriptor without a connection is closed. *)
Lemma core_dropped t s s' m ls F fd :
  core t s m ls F [] [] → m !! fd = None → so s' = sock_closed fd (so s) → n_app s' = n_app s → n_heap s' = n_heap s →
  core t s' m ls F [] [].
Proof.
  intros Hc Hm Es Ea Eh. split; rewrite ?Ea, ?Eh, ?Es; try apply Hc.
  - apply sockets_ok_closed, Hc.
  - intros fd' q n Hm' Hq. destruct (co_conn Hc _ _ _ Hm' Hq) as (H1 & H2 & H3). assert (fd' ≠ fd) by congruence. cbn.
    split; [set_solver|]. split; [|exact H3]. unfold watched in *. now rewrite watch_closed, decide_False.
  - intros fd' ev Hn Hs. rewrite watch_closed. destruct (decide (fd' = fd)); [easy|]. now apply (co_new Hc).
Qed.

Lemma core_enter t s m ls F P A fd q :
  core t s m ls F P A → m !! fd = Some q → q ∉ F → (length F < t_queuesize o)%nat → core t s m ls (q :: F) P A.
Proof.
  intros Hc Hm HqF Hl. split; try apply Hc.
  - intros fd' q' n Hm' Hq'. destruct (co_conn Hc _ _ _ Hm' Hq') as (? & ? & H3). split; [easy|]. split; [easy|].
    intros Hx. apply H3. set_solver.
  - destruct (co_flight Hc) as (Hd & _ & Hf). split; [now constructor|]. split; [cbn; lia|].
    intros q' [->|Hq']%elem_of_cons; [eauto|now apply Hf].
Qed.

(** ** The queues of events *)

(** The connections that are queued, and the descriptors [l] of the events that
    are left. *)
Definition accepting (ls0 : list label) (l : list Z) t s : Prop :=
  ∃ m ls, core t s m (ls0 ++ ls) (t_qreads t ++ t_qattachs t) [] [] ∧
    t_qouts t = [] ∧ t_qcloses t = [] ∧ t_qins t = [] ∧
    Forall (quiet s m) (t_qreads t) ∧ Forall (worked o s m) (t_qattachs t) ∧
    NoDup l ∧ (∀ fd, fd ∈ l → is_Some (watch (so s) (t_qfd o) fd)) ∧
    (∀ fd q, m !! fd = Some q → q ∈ t_qreads t ++ t_qattachs t → fd ∉ l) ∧
    (length (t_qreads t ++ t_qattachs t) + length l <= t_queuesize o)%nat.

(** What is needed to queue the connection [q] of [fd]. *)
Lemma enqueue_spec ls0 fd q m ls l t s :
  core t s m (ls0 ++ ls) (t_qreads t ++ t_qattachs t) [] [] →
  t_qouts t = [] → t_qcloses t = [] → t_qins t = [] →
  Forall (quiet s m) (t_qreads t) → Forall (worked o s m) (t_qattachs t) →
  NoDup (fd :: l) → (∀ fd', fd' ∈ fd :: l → is_Some (watch (so s) (t_qfd o) fd')) →
  (∀ fd' q', m !! fd' = Some q' → q' ∈ t_qreads t ++ t_qattachs t → fd' ∉ fd :: l) →
  (length (t_qreads t ++ t_qattachs t) + length (fd :: l) <= t_queuesize o)%nat →
  m !! fd = Some q → wp (enqueue q) (λ _, accepting ls0 l) t s.
Proof.
  intros Hc Ho Hcl Hi Hrd Hat [Hfl Hd]%NoDup_cons Hwl Hfresh Hlen Hm. pose proof (co_map Hc) as Hr. cbn in Hlen.
  pose proof (co_opts Hc) as Hopts. rewrite length_app in Hlen.
  destruct (rep_fd _ _ _ Hr _ _ Hm) as (n & Hq & Hfd). destruct (co_conn Hc _ _ _ Hm Hq) as (Hopen & Hw & Hidle).
  assert (HqF : q ∉ t_qreads t ++ t_qattachs t) by (intros Hx; apply (Hfresh _ _ Hm Hx); set_solver).
  pose proof (core_enter _ _ _ _ _ _ _ _ _ Hc Hm HqF ltac:(rewrite length_app; lia)) as Hc2. specialize (Hidle HqF).
  assert (Hnext : ∀ fd' q', m !! fd' = Some q' → q' = q ∨ q' ∈ t_qreads t ++ t_qattachs t → fd' ∉ l).
  { intros fd' q' Hm' [->|Hx]; [now rewrite (represents_injective _ _ _ _ _ _ Hr Hm' Hm)|]. specialize (Hfresh _ _ Hm' Hx). set_solver. }
  unfold enqueue. apply wp_bind, (wp_deref _ n); [exact Hq|]. unfold watched in Hw. destruct (c_bg (nc_rest n)) as [j|] eqn:Hbg.
  - apply wp_push_attachs; [rewrite Hopts; lia|]. exists m, ls. cbn [t_qreads t_qattachs t_qouts t_qcloses t_qins].
    split; [|do 4 (split; [assumption|]); split; [|split; [exact Hd|split; [set_solver|split]]]].
    + apply (core_queues _ _ _ _ t); [|easy]. eapply core_perm; [exact Hc2|]. rewrite (assoc_L (++)). apply Permutation_cons_append.
    + apply Forall_app. split; [exact Hat|]. apply Forall_singleton. exists fd, n. rewrite Hbg. do 2 (split; [assumption|]).
      split; [easy|]. destruct Hw as [Hw|Hw]; [|exact Hw]. destruct (Hwl fd ltac:(set_solver)). congruence.
    + intros fd' q' Hm' Hx. apply (Hnext fd' q' Hm'). set_solver.
    + rewrite !length_app. cbn. lia.
  - destruct (Hidle Hbg) as [Hout Hclosed]. rewrite Hout, Hclosed. cbn [length Nat.ltb Nat.leb].
    apply wp_push_reads; [rewrite Hopts; lia|]. exists m, ls. cbn [t_qreads t_qattachs t_qouts t_qcloses t_qins].
    split; [|do 3 (split; [assumption|]); split; [|split; [assumption|split; [exact Hd|split; [set_solver|split]]]]].
    + apply (core_queues _ _ _ _ t); [|easy]. eapply core_perm; [exact Hc2|]. rewrite <- (assoc_L (++)). cbn. apply Permutation_middle.
    + apply Forall_app. split; [exact Hrd|]. apply Forall_singleton. now exists fd, n.
    + intros fd' q' Hm' Hx. apply (Hnext fd' q' Hm'). set_solver.
    + rewrite !length_app. cbn. lia.
Qed.

(** Connections that are queued stay as they are when another one is opened. *)
Lemma conn_is_opened s s' m fd tls q (R : conn J → Prop) q' :
  opened_heap fd tls q (n_heap s) (n_heap s') → m !! fd = None → conn_is s m R q' → conn_is s' (<[fd := q]> m) R q'.
Proof.
  intros Ho Hm (fd' & n & Hm' & Hq' & HR). destruct (op_keep _ _ _ _ _ Ho _ _ Hq') as (n' & Hn' & E).
  exists fd', n'. rewrite E, lookup_insert_ne by congruence. easy.
Qed.

Lemma worked_opened s s' m fd tls q q' :
  opened_heap fd tls q (n_heap s) (n_heap s') → so s' = so s → m !! fd = None → worked o s m q' → worked o s' (<[fd := q]> m) q'.
Proof.
  intros Ho Es Hm (fd' & n & Hm' & Hq' & Hbg & Hw). destruct (op_keep _ _ _ _ _ Ho _ _ Hq') as (n' & Hn' & E).
  exists fd', n'. rewrite E, Es, lookup_insert_ne by congruence. easy.
Qed.

Lemma wp_incr_rconns (Q : unit → thread → state → Prop) t s :
  Q tt t (Shared (n_kernel s) (n_app s) (n_heap s) (n_nconns s) (n_tconns s) (u64 (n_rconns s + 1)) (n_tlsfds s) (n_next_ctx s)) →
  wp incr_rconns Q t s.
Proof. easy. Qed.
Lemma wp_incr_tconns (Q : unit → thread → state → Prop) t s :
  Q tt t (Shared (n_kernel s) (n_app s) (n_heap s) (n_nconns s) (u64 (n_tconns s + 1)) (n_rconns s) (n_tlsfds s) (n_next_ctx s)) →
  wp incr_tconns Q t s.
Proof. easy. Qed.

(** The thread has one more connection. *)
Definition accepted (t t' : thread) : Prop :=
  t_opts t' = t_opts t ∧ t_nconns t' = t_nconns t + 1 ∧ t_inpkts t' = t_inpkts t ∧
  t_qreads t' = t_qreads t ∧ t_qins t' = t_qins t ∧ t_qattachs t' = t_qattachs t ∧ t_qouts t' = t_qouts t ∧
  t_qcloses t' = t_qcloses t.

Lemma establish_spec istls fd q tls t s s1 m :
  represents (n_heap s) (t_cmap t) m → m !! fd = None → n_heap s !! q = None →
  n_heap s1 = <[q := NetConn fd None (conn_open false)]> (n_heap s) →
  wp (establish istls q tls) (λ r t' s', r = Some q ∧ accepted t t' ∧
    opened_heap fd tls q (n_heap s) (n_heap s') ∧ represents (n_heap s') (t_cmap t') (<[fd := q]> m) ∧
    n_kernel s' = n_kernel s1 ∧ n_app s' = n_app s1) t s1.
Proof.
  intros Hr Hm Hq Eh.
  assert (Hr1 : represents (n_heap s1) (t_cmap t) m).
  { rewrite Eh. apply (represents_frame (n_heap s)); [exact Hr|]. intros fd' q' (n & Hn & _)%(rep_fd _ _ _ Hr).
    rewrite lookup_insert_ne by congruence. reflexivity. }
  assert (Hq1 : n_heap s1 !! q = Some (NetConn fd None (conn_open false))) by (rewrite Eh; apply lookup_insert_eq).
  destruct (cmap_insert_spec 0 _ _ _ q _ Hr1 Hq1 Hm) as (h1 & c1 & E1 & Hr2 & Hs & _ & _). cbn [nc_fd] in Hr2.
  rewrite Eh in Hs. destruct (opened_heap_intro fd tls q _ _ Hq Hs) as (n1 & Hn1 & Hfd1 & Hop).
  unfold establish. apply wp_bind.
  destruct istls; [apply wp_upd_ctx|apply wp_ret].
  all: apply wp_bind, wp_upd_ctx; apply wp_bind, wp_incr_tconns; apply wp_bind, wp_get_ctx; apply wp_bind, wp_get_heap.
  all: apply wp_bind, (wp_defined _ (h1, c1)); [exact E1|]; cbn [fst snd]; apply wp_bind, wp_put_heap; apply wp_bind, wp_upd_ctx.
  all: apply wp_bind, (wp_put_conn q n1); [exact Hn1|]; apply wp_ret; split; [reflexivity|]; split; [easy|]; cbn [with_heap n_heap t_cmap].
  all: rewrite Hfd1; split; [exact Hop|]; split; [|easy]; apply (represents_ext h1); [exact Hr2|]; intros fd' q' n' _ Hq'.
  all: destruct (decide (q' = q)) as [->|Hne]; [|rewrite lookup_insert_ne by congruence; eauto]; rewrite lookup_insert_eq.
  all: eexists; split; [reflexivity|]; cbn; replace n' with n1 by congruence; easy.
Qed.

(** A connection is accepted, or its descriptor closed. *)
Lemma accept_conn_spec fd t s m ls F :
  core t s m ls F [] [] → m !! fd = None → fd ∉ t_sfd o → is_Some (watch (so s) (t_qfd o) fd) →
  wp (accept_conn fd) (λ r t' s', match r with
    | Some q => ∃ tls, core t' s' (<[fd := q]> m) (ls ++ [Opened fd tls]) F [] [] ∧ accepted t t' ∧
        opened_heap fd tls q (n_heap s) (n_heap s') ∧ so s' = so s
    | None => t' = t ∧ n_heap s' = n_heap s ∧ core t s' m ls F [] [] ∧ so s' = sock_closed fd (so s)
    end) t s.
Proof.
  intros Hc Hm Hsf Hw. unfold accept_conn. apply wp_bind, wp_get_opts, wp_bind, wp_fetch_nconns.
  destruct (_ <=? n_nconns s).
  { apply wp_bind, wp_incr_rconns, wp_bind, wp_fetch_nconns, wp_bind, wp_sys. intros [] k [= <-]. apply wp_ret.
    split; [reflexivity|]. split; [reflexivity|]. split; [|apply close_law].
    apply (core_dropped t s _ m ls F fd Hc Hm); [apply close_law|reflexivity..]. }
  apply wp_bind, wp_tlsfds. intros istls l. apply wp_bind. unfold conn_new. apply wp_bind, wp_get_heap, wp_bind, wp_put_heap, wp_ret.
  cbn [n_heap]. set (q := fresh (dom (n_heap s))).
  assert (Hq : n_heap s !! q = None) by apply not_elem_of_dom, is_fresh.
  set (s1 := with_heap _ _).
  assert (Hest : ∀ s2 tls, n_heap s2 = n_heap s1 → so s2 = so s → n_app s2 = n_app s → wp (establish istls q tls) (λ r t' s', match r with
    | Some q => ∃ tls, core t' s' (<[fd := q]> m) (ls ++ [Opened fd tls]) F [] [] ∧ accepted t t' ∧
        opened_heap fd tls q (n_heap s) (n_heap s') ∧ so s' = so s
    | None => t' = t ∧ n_heap s' = n_heap s ∧ core t s' m ls F [] [] ∧ so s' = sock_closed fd (so s)
    end) t s2).
  { intros s2 tls Eh Es Ea. eapply wp_mono; [apply (establish_spec istls fd q tls t s s2 m (co_map Hc) Hm Hq Eh)|].
    intros r t' s' (-> & Hacc & Hop & Hr & Ek & Ea'). assert (Es' : so s' = so s) by (unfold so in *; congruence).
    exists tls. split; [|easy]. destruct Hacc as (E1 & E2 & E3 & _).
    apply (core_opened t t' s s' m ls F fd tls q (t_cmap t') Hc Hm Hsf Hw Hop Hr Es'); congruence. }
  apply wp_bind. destruct istls; [|apply wp_ret; now apply Hest]. apply wp_sys. intros [tls|] k Ek; apply tls_accept_law in Ek.
  { now apply Hest. }
  apply wp_bind, wp_fetch_nconns, wp_bind, wp_sys. intros [] k2 [= <-]. apply wp_bind. unfold conn_free.
  eapply wp_bind, wp_deref; [apply lookup_insert_eq|]. apply wp_bind, wp_get_heap. apply wp_put_heap, wp_ret.
  assert (Eh : delete q (n_heap s1) = n_heap s) by (apply delete_insert_id; exact Hq).
  assert (Es : socks (k_close k fd) = sock_closed fd (so s)) by (rewrite close_law, Ek; reflexivity).
  split; [reflexivity|]. split; [exact Eh|]. split; [|exact Es]. now apply (core_dropped t s _ m ls F fd Hc Hm).
Qed.

(** The queues when no connection changed. *)
Lemma queued_same s s' m l1 l2 :
  n_heap s' = n_heap s → (∀ fd q, m !! fd = Some q → watch (so s) (t_qfd o) fd = Some EPOLLOUT → watch (so s') (t_qfd o) fd = Some EPOLLOUT) →
  Forall (quiet s m) l1 ∧ Forall (worked o s m) l2 → Forall (quiet s' m) l1 ∧ Forall (worked o s' m) l2.
Proof.
  intros Eh Hw [H1 H2]. split.
  - eapply Forall_impl; [exact H1|]. intros q (fd & n & ? & ? & ?). exists fd, n. now rewrite Eh.
  - eapply Forall_impl; [exact H2|]. intros q (fd & n & ? & ? & ? & ?). exists fd, n. rewrite Eh. eauto.
Qed.

Lemma accept_event_spec ls0 fd l t s :
  accepting ls0 (fd :: l) t s → wp (accept_event fd) (λ _, accepting ls0 l) t s.
Proof.
  intros (m & ls & Hc & Ho & Hcl & Hi & Hrd & Hat & Hd & Hwl & Hfresh & Hlen). pose proof (co_opts Hc) as Hopts.
  unfold accept_event. apply wp_bind, wp_get_ctx, wp_bind, wp_get_heap.
  apply wp_bind, (wp_defined _ _ _ _ _ (cmap_get_spec _ _ _ fd (co_map Hc))). destruct (m !! fd) as [q|] eqn:Hm.
  { eapply (enqueue_spec ls0 fd q m ls); eassumption. }
  pose proof (Hwl fd ltac:(set_solver)) as Hw. apply NoDup_cons in Hd as Hd'. destruct Hd' as [Hfl Hd']. case_bool_decide as Hsf.
  - eapply wp_mono; [apply accept_listener_spec; [exact Hopts|apply (co_socks Hc)]|]. intros [] t' s' (-> & [Ea Eh] & Hg).
    exists m, ls. split; [exact (core_grown _ _ _ _ _ _ _ _ Hc Ea Eh Hg)|]. do 3 (split; [assumption|]).
    destruct Hg as (_ & Hold & _).
    assert (Hwatch : ∀ fd' ev, watch (so s) (t_qfd o) fd' = Some ev → watch (so s') (t_qfd o) fd' = Some ev).
    { intros fd' ev Hev. destruct (Hold fd') as (_ & -> & _); [exact (co_socks Hc _ _ _ Hev)|exact Hev]. }
    destruct (queued_same s s' m _ _ Eh ltac:(eauto) (conj Hrd Hat)) as [Hrd' Hat']. do 2 (split; [assumption|]). split; [exact Hd'|]. split; [|split; [set_solver|cbn in Hlen; lia]].
    intros fd' Hin. destruct (Hwl fd') as [ev Hev]; [set_solver|]. eauto.
  - rewrite Hopts in Hsf. apply wp_bind. eapply wp_mono; [apply (accept_conn_spec fd t s m (ls0 ++ ls) _ Hc Hm Hsf Hw)|].
    intros [q|] t' s'.
    + intros (tls & Hc' & (E1 & E2 & E3 & E4 & E5 & E6 & E7 & E8) & Hop & Es). rewrite <- (assoc_L (++)) in Hc'.
      apply (enqueue_spec ls0 fd q (<[fd := q]> m) (ls ++ [Opened fd tls])); rewrite ?E4, ?E5, ?E6, ?E7, ?E8, ?Es; try assumption.
      * eapply Forall_impl; [exact Hrd|]. intros q'. now apply (conn_is_opened s s' m fd tls q).
      * eapply Forall_impl; [exact Hat|]. intros q'. now apply (worked_opened s s' m fd tls q).
      * intros fd' q' [(<- & <-)|(Hne & Hm')]%lookup_insert_Some HF; [|now apply (Hfresh fd' q')].
        destruct (proj2 (proj2 (co_flight Hc)) _ HF) as [fd' Hm']. destruct (rep_fd _ _ _ (co_map Hc) _ _ Hm') as (n & Hn & _).
        now rewrite (op_fresh _ _ _ _ _ Hop) in Hn.
      * apply lookup_insert_eq.
    + intros (-> & Eh & Hc' & Es). apply wp_ret. exists m, ls. split; [exact Hc'|]. do 3 (split; [assumption|]).
      destruct (queued_same s s' m (t_qreads t) (t_qattachs t) Eh) as [Hrd' Hat']; [|easy|].
      { intros fd' q Hm' Hev. now rewrite Es, watch_closed, decide_False by congruence. }
      do 2 (split; [assumption|]). split; [exact Hd'|]. split; [|split; [set_solver|cbn in Hlen; lia]].
      intros fd' Hin. rewrite Es, watch_closed, decide_False by congruence. apply Hwl. set_solver.
Qed.

(** ** A round *)

Context (Horder : faithful = true → t_uring o = false).

(** Between rounds no connection is in flight. *)
Definition thread_inv t s m (ls : list label) : Prop := core t s m ls [] [] [].

Lemma qaccept_spec ls events t s :
  accepting ls events t s → wp (qaccept events) (λ _, accepting ls []) t s.
Proof.
  intros Ha. apply (wp_for_each _ (accepting ls)); [exact Ha| |easy]. intros fd l t1 s1. apply accept_event_spec.
Qed.

Lemma accepting_start t s m ls k events :
  thread_inv t s m ls → socks k = so s → NoDup events → (length events <= t_queuesize o)%nat →
  (∀ fd, fd ∈ events → is_Some (watch (so s) (t_qfd o) fd)) →
  accepting ls events (Qctx (t_opts t) (t_nconns t) (t_ntlsconns t) (t_cmap t) (t_inpkts t) [] [] [] [] []) (with_kernel s k).
Proof.
  intros Hc Ek Hd Hlen Hw. exists m, []. rewrite app_nil_r. cbn.
  assert (Hg : grown (so s) (so (with_kernel s k))) by (unfold so; cbn; rewrite Ek; apply grown_refl, Hc).
  split; [|do 5 (split; [easy|]); split; [exact Hd|split; [|split; [set_solver|lia]]]].
  - apply (core_ctx o w0 faithful said t); [|reflexivity..]. now apply (core_grown t s).
  - unfold so; cbn. now rewrite Ek.
Qed.

(** A round never does anything undefined and keeps the invariant. *)
Lemma qround_spec fuel t s m ls :
  thread_inv t s m ls → wp (qround fuel) (λ _ t' s', ∃ m' ls', thread_inv t' s' m' (ls ++ ls')) t s.
Proof.
  intros Hc. unfold qround. apply wp_bind, wp_get_opts. rewrite (co_opts Hc). apply wp_bind, wp_sys. intros r k Ek.
  apply wait_law in Ek as [Ek Hev].
  assert (Hsame : ∃ m' ls', thread_inv t (with_kernel s k) m' (ls ++ ls')).
  { exists m, []. rewrite app_nil_r. apply (core_grown t s); try easy. unfold so; cbn. rewrite Ek. apply grown_refl, Hc. }
  destruct r as [[|fd events]|e]; [now apply wp_ret| |destruct (e =? EINTR); [now apply wp_ret|apply wp_stop]].
  destruct (Hev _ eq_refl) as (Hd & Hlen & Hw). set (evs := fd :: events) in *.
  apply wp_bind, wp_upd_ctx. apply wp_bind.
  eapply wp_mono; [apply (qaccept_spec ls); apply (accepting_start _ _ m); [exact Hc|exact Ek|exact Hd|lia|exact Hw]|].
  intros [] t1 s1 (m1 & l1 & Hc1 & Ho & Hcl & Hi & Hrd & Hat & _). apply wp_bind.
  eapply wp_mono; [apply (qattach_spec o w0 faithful said Hsaid Horder fuel t1 s1 m1 (ls ++ l1))|].
  { exists []. now rewrite Ho, Hcl, Hi, app_nil_r. }
  intros [] t2 s2 (l2 & Hc2 & Hcl2 & Hrd2 & Ho2 & Hi2 & _). rewrite app_nil_r in Hc2. apply wp_bind.
  eapply wp_mono; [apply (qread_spec o w0 faithful said Hsaid Horder t2 s2 m1 _ Hc2 Hcl2 Hrd2 Ho2 Hi2)|].
  intros [] t3 s3 (i & Hc3 & Hf3 & Ho3 & He3 & _). rewrite !app_nil_r in Hc3. apply wp_bind.
  eapply wp_mono; [apply (qprocess_spec o w0 faithful said Hsaid Horder t3 s3 m1 ((ls ++ l1) ++ l2))|].
  { exists []. rewrite app_nil_r. rewrite Ho3, app_nil_r. split; [exact Hc3|]. split; [exact Hf3|]. eapply Forall_impl; [exact He3|]. now intros x (? & ? & _). }
  intros [] t4 s4 (l3 & Hc4 & Hcl4 & Ho4). apply wp_bind.
  eapply wp_mono; [apply (qwrite_spec o w0 faithful said Hsaid Horder fuel t4 s4 m1 _ Hc4 Hcl4 Ho4)|].
  intros [] t5 s5 (l4 & Hc5 & Hcl5). eapply wp_mono; [apply (qclose_spec o w0 faithful said Hsaid t5 s5 m1 _ _ _ Hc5 Hcl5)|].
  intros [] t6 s6 (m' & l5 & Hc6). exists m', (l1 ++ l2 ++ l3 ++ l4 ++ l5). rewrite !(assoc_L (++)). exact Hc6.
Qed.

(** ** Background work *)

(** The work of a connection goes on in a thread of its own. *)
Definition working t s (q : positive) : Prop :=
  ∃ n, n_heap s !! q = Some n ∧ cmap_get (n_heap s) (t_cmap t) (nc_fd n) = Some (Some q) ∧
    is_Some (c_bg (nc_rest n)) ∧ watch (so s) (t_qfd (t_opts t)) (nc_fd n) = None.

(** The end of the work keeps the invariant. *)
Lemma bgwork_end_spec q t s m ls :
  thread_inv t s m ls → working t s q →
  wp (bgwork_end (t_qfd (t_opts t)) q) (λ _ t' s', ∃ fd, thread_inv t' s' m (ls ++ [Worked fd])) t s.
Proof.
  intros Hc (n & Hq & Hg & [j Hbg] & Hw). rewrite (co_opts Hc) in *. rewrite (cmap_get_spec _ _ m _ (co_map Hc)) in Hg. injection Hg as Hm.
  unfold bgwork_end. apply wp_bind, (wp_deref _ n); [exact Hq|]. apply wp_bind, (wp_defined _ j); [exact Hbg|].
  apply wp_bind, wp_app. intros w j' Ej. apply wp_bind, (wp_put_conn q n); [exact Hq|].
  apply (wp_last _ (λ ret, granted (ret =? 0))), (wp_ctl_add _ (t_qfd o) (nc_fd n) EPOLLOUT);
    [reflexivity|apply (co_conn Hc _ _ _ Hm Hq)|exact Hw|].
  cbn [with_heap with_app n_kernel]. intros k Ek. apply wp_ret. exists (nc_fd n).
  apply (core_update o w0 faithful said Hsaid t s m ls [] [] [] (nc_fd n) q n k w (set_bg (nc_rest n) (Some j')) _ [] [] Hc Hm Hq).
  - rewrite Ek. apply same_but_watch.
  - rewrite Ek. right. unfold watch, sock_watch. cbn. apply lookup_insert_eq.
  - right. discriminate.
  - now repeat constructor.
  - apply (steps_snoc _ [] _ _ _ (steps_nil _)). apply (step_worked _ _ _ (nc_rest n) j); try assumption. now apply (conns_abs_lookup _ _ _ q).
  - intros _ Hio Hnb. rewrite (since_app_plain (nc_fd n)) in * by now repeat constructor.
    destruct Hio as [Hs Hr]; [intros Hb; now apply Hnb, broken_app_l|]. rewrite outs_app, ins_app, Ek.
    change (outs [Worked (nc_fd n)]) with (@nil Z). change (ins [Worked (nc_fd n)]) with (@nil Z). rewrite !app_nil_r in *.
    split; [exact Hs|exact Hr].
  - easy.
Qed.

(** ** The life of a thread *)

(** One thing after the other: a round of the event loop, or the end of the
    background work of a connection. *)
Inductive thread_step : thread * state → thread * state → Prop :=
  | step_round fuel t s t' s' : qround fuel t s = Ok (tt, t', s') → thread_step (t, s) (t', s')
  | step_work q t s t' s' : working t s q → bgwork_end (t_qfd (t_opts t)) q t s = Ok (tt, t', s') → thread_step (t, s) (t', s').

(** The thread as [net_main] starts it, when its queue watches nothing but
    listeners. *)
Definition thread_start : thread :=
  Qctx o 0 0 cmap_new (replicate (t_queuesize o) (replicate (Z.to_nat PACKETSIZE) 0)) [] [] [] [] [].
Definition starts s : Prop :=
  n_app s = w0 ∧ sockets_ok (so s) ∧ ∀ fd ev, watch (so s) (t_qfd o) fd = Some ev → fd ∈ t_sfd o.

Lemma thread_inv_start s : starts s → thread_inv thread_start s ∅ [].
Proof.
  intros (Ha & Hok & Hw). split; try easy.
  - apply represents_new.
  - intros fd ev _ Hsf Hev. now apply Hw in Hev.
  - split; [constructor|]. split; [cbn; lia|set_solver].
  - rewrite Ha. constructor.
  - intros _ ls' fd [l2 Hp] _. symmetry in Hp. apply app_nil in Hp as [-> _].
    apply (send_prefix Hsaid [] (recv (so s) fd)). apply (send_recv Hsaid).
  - split; [apply length_replicate|]. apply Forall_replicate. unfold size. rewrite length_replicate. reflexivity.
Qed.

Lemma thread_inv_reach s0 t s :
  starts s0 → rtc thread_step (thread_start, s0) (t, s) → ∃ m ls, thread_inv t s m ls.
Proof.
  intros Hs. change (∃ m ls, thread_inv t s m ls) with ((λ x : thread * state, ∃ m ls, thread_inv x.1 x.2 m ls) (t, s)).
  apply rtc_ind_r; [eauto using thread_inv_start|]. intros x y _ Hy (m & ls & Hc).
  destruct Hy as [fuel t1 s1 t2 s2 E|q t1 s1 t2 s2 Hwk E].
  - pose proof (qround_spec fuel _ _ _ _ Hc) as Hwp. unfold wp in Hwp. cbn in Hwp. rewrite E in Hwp. destruct Hwp as (m' & ls' & Hc'). eauto.
  - pose proof (bgwork_end_spec q _ _ _ _ Hc Hwk) as Hwp. unfold wp in Hwp. cbn in Hwp. rewrite E in Hwp. destruct Hwp as (fd & Hc'). eauto.
Qed.

End Round.
