(* ===== verification/NetClaims.v ===== *)
(** * NetClaims: what holds of a network thread

    The theorems about the event loop: safety, its refinement of sessions, its
    start and the end of a round, and where it goes wrong. They are evaluated on a
    simulated kernel that follows a script: which descriptors the event queue
    reports, and which bytes arrive, is given. It obeys the laws of [NetSpec.v]; a
    batch of io_uring completes in the order of the submissions or in the opposite
    one. *)

From S2P Require Import Prelude Util Resp RespProofs Memcache Http Parse Conn ConnProofs Cmap Net NetSpec NetProofs NetRound.

(** The sockets, the events of the waits to come, the packets to come and the
    descriptors of the connections to come. *)
Record sim := Sim {
  sm_socks : sockets; sm_events : list (list Z); sm_input : list (Z * bytes); sm_fds : list Z
}.

Definition sim_socks (k : sim) (so : sockets) : sim := Sim so (sm_events k) (sm_input k) (sm_fds k).

Definition sim_accept (k : sim) : Z * sim :=
  match sm_fds k with
  | [] => (-1, k)
  | fd :: fds =>
      if decide (fd ∈ so_open (sm_socks k) ∨ fd = -1) then (-1, k)
      else (fd, Sim (sock_opened fd (sm_socks k)) (sm_events k) (sm_input k) fds)
  end.

Definition sim_ctl (k : sim) (op qfd fd ev : Z) : Z * sim :=
  match watch (sm_socks k) qfd fd with
  | Some _ => if op =? EPOLL_CTL_DEL then (0, sim_socks k (sock_unwatch qfd fd (sm_socks k))) else (-1, k)
  | None => if op =? EPOLL_CTL_ADD then (0, sim_socks k (sock_watch qfd fd ev (sm_socks k))) else (-1, k)
  end.

Definition sim_wait (k : sim) (qfd max : Z) : io (list Z) * sim :=
  if max <=? 0 then (Err 22, k) else
  match sm_events k with
  | [] => (Err EINTR, k)
  | evs :: rest =>
      (Ret (take (Z.to_nat max) (remove_dups (filter (λ fd, is_Some (watch (sm_socks k) qfd fd)) evs))),
       Sim (sm_socks k) rest (sm_input k) (sm_fds k))
  end.

Definition sim_read (k : sim) (fd len : Z) : io bytes * sim :=
  match list_find (λ x, x.1 = fd) (sm_input k) with
  | Some (i, (_, data)) =>
      if len <? 0 then (Err EIO, k) else
      let data := take (Z.to_nat len) data in
      (Ret data, Sim (sock_recv fd data (sm_socks k)) (sm_events k) (delete i (sm_input k)) (sm_fds k))
  | None => (Err EAGAIN, k)
  end.

Definition sim_write (k : sim) (fd : Z) (data : bytes) : io Z * sim :=
  (Ret (size data), sim_socks k (sock_sent fd (take (Z.to_nat (size data)) data) (sm_socks k))).

(** The reads of a batch, one after the other. *)
Fixpoint sim_reads (k : sim) (fds : list Z) : list bytes * list Z * sim :=
  match fds with
  | [] => ([], [], k)
  | fd :: fds =>
      let '(d, x, k) := match sim_read k fd (PACKETSIZE - 1) with
                        | (Ret d, k) => (d, size d, k)
                        | (Err e, k) => ([], - EAGAIN, sim_socks k (sock_recv fd [] (sm_socks k)))
                        end in
      let '(ds, xs, k) := sim_reads k fds in (d :: ds, x :: xs, k)
  end.

Definition order (reversed : bool) (l : list Z) : list Z := if reversed then reverse l else l.

Definition sim_uring_write (reversed : bool) (k : sim) (outs : list (Z * bytes)) : Z * list Z * sim :=
  let rs := size <$> outs.*2 in
  (Z.of_nat (length outs), order reversed rs, sim_socks k (sock_sents outs rs (sm_socks k))).

Definition sim_kernel (reversed : bool) : Kernel sim := {|
  k_evqueue := sim_accept; k_accept k _ := sim_accept k; k_getfl k _ := (0, k); k_setfl k _ _ := (0, k); k_setsockopt k _ _ _ _ := (0, k);
  k_epoll_ctl := sim_ctl; k_epoll_wait := sim_wait; k_read := sim_read; k_write := sim_write;
  k_close k fd := sim_socks k (sock_closed fd (sm_socks k));
  k_uring_read k fds := let '(ds, xs, k) := sim_reads k fds in (Z.of_nat (length fds), ds, order reversed xs, k);
  k_uring_write := sim_uring_write reversed;
  k_usetls := true; k_ssl_new k _ := (true, k); k_ssl_accept k _ := (1, k);
  k_ssl_read k fd len := match sim_read k fd len with (Ret d, k) => (1, d, k) | (Err _, k) => (-1, [], k) end;
  k_ssl_write k fd data := match sim_write k fd data with (Ret n, k) => (1, n, k) | (Err _, k) => (-1, 0, k) end;
  k_ssl_error _ _ _ := SSL_ERROR_WANT_READ; k_ssl_shutdown k _ := (1, k); k_ssl_free k _ := k
|}.

(** ** The laws *)

Lemma sim_read_law k fd len r k' : sim_read k fd len = (r, k') →
  match r with Ret data => size data <= len ∧ sm_socks k' = sock_recv fd data (sm_socks k) | Err _ => k' = k end.
Proof.
  unfold sim_read. destruct (list_find _ _) as [[i [x data]]|]; [|now intros [= <- <-]].
  destruct (len <? 0) eqn:El; zb; intros [= <- <-]; [reflexivity|].
  split; [|easy]. unfold size. rewrite length_take. lia.
Qed.

Lemma sim_reads_law fds : ∀ k ds xs k', sim_reads k fds = (ds, xs, k') →
  length ds = length fds ∧ sm_socks k' = sock_recvs fds ds (sm_socks k) ∧ Forall (λ d, size d < PACKETSIZE) ds ∧
  Forall2 (λ d x, 0 <= x ∧ x = size d ∨ x < 0 ∧ d = []) ds xs.
Proof.
  induction fds as [|fd fds IH]; intros k ds xs k'; cbn [sim_reads].
  { intros [= <- <- <-]. repeat split; constructor. }
  set (r := match sim_read _ _ _ with (Ret _, _) => _ | _ => _ end).
  assert (Hr : sm_socks r.2 = sock_recv fd r.1.1 (sm_socks k) ∧ size r.1.1 < PACKETSIZE ∧
    (0 <= r.1.2 ∧ r.1.2 = size r.1.1 ∨ r.1.2 < 0 ∧ r.1.1 = [])).
  { unfold r. destruct (sim_read k fd (PACKETSIZE - 1)) as [x k1] eqn:E. apply sim_read_law in E. destruct x as [d|e]; cbn.
    - destruct E as [Hs E]. unfold size in *. split; [exact E|]. lia.
    - subst. split; [reflexivity|]. split; [easy|]. now right. }
  destruct r as [[d x] k1]. cbn in Hr. destruct Hr as (E1 & Hs & Hx).
  destruct (sim_reads k1 fds) as [[ds1 xs1] k2] eqn:E. destruct (IH _ _ _ _ E) as (Hl & E2 & Hf & H2). intros [= <- <- <-].
  split; [cbn; lia|]. split; [|split; [now constructor|constructor; [exact Hx|exact H2]]].
  rewrite E2, E1. reflexivity.
Qed.

Lemma order_sub reversed l : order reversed l ⊆+ l.
Proof. destruct reversed; cbn; [|reflexivity]. now rewrite reverse_Permutation. Qed.

Lemma sim_outs_law (outs : list (Z * bytes)) : Forall2 (λ o x, x <= size o.2) outs (size <$> outs.*2).
Proof. induction outs as [|o outs IH]; constructor; [cbn; lia|exact IH]. Qed.

Lemma sim_accept_law k fd k' : sim_accept k = (fd, k') →
  (fd = -1 ∧ sm_socks k' = sm_socks k) ∨
  (fd ≠ -1 ∧ (fd ∉ so_open (sm_socks k)) ∧ sm_socks k' = sock_opened fd (sm_socks k)).
Proof.
  unfold sim_accept. destruct (sm_fds k) as [|x fds]; [intros [= <- <-]; now left|]. destruct (decide _) as [|Hn]; intros [= <- <-]; [now left|right].
    split; [tauto|]. split; [tauto|reflexivity].
Qed.

#[export] Instance sim_ok reversed : @KernelOk sim (sim_kernel reversed).
Proof.
  refine (Build_KernelOk _ _ sm_socks _ _ _ _ _ _ _ _ _ _ _ _ _ _ _ _ _ _ _); cbn.
  - exact sim_accept_law.
  - intros k _. apply sim_accept_law.
  - now intros ? ? ? ? [= <- <-].
  - now intros ? ? ? ? ? [= <- <-].
  - now intros ? ? ? ? ? ? ? [= <- <-].
  - intros k qfd fd ev r k' E _. unfold sim_ctl in E. destruct (watch _ _ _); injection E as <- <-; auto.
  - intros k qfd fd ev r k' E. unfold sim_ctl in E. destruct (watch _ _ _); injection E as <- <-; eauto 6.
  - intros k qfd max r k'. unfold sim_wait. destruct (max <=? 0) eqn:Em; zb; [now intros [= <- <-]|]. destruct (sm_events k) as [|evs rest]; intros [= <- <-]; [now split|].
    split; [reflexivity|]. intros evs' [= <-]. set (l := remove_dups _).
    assert (Hd : NoDup l) by apply NoDup_remove_dups.
    split; [eapply sublist_NoDup; [exact Hd|apply sublist_take]|]. split; [rewrite length_take; lia|].
    intros fd Hfd. apply (elem_of_sublist _ l) in Hfd; [|apply sublist_take].
    unfold l in Hfd. rewrite elem_of_remove_dups in Hfd. now apply list_elem_of_filter in Hfd.
  - intros k fd len r k' E. apply sim_read_law in E. destruct r; [exact E|now subst].
  - intros k fd data r k' [= <- <-]. split; [unfold size; lia|reflexivity].
  - reflexivity.
  - intros k fds r datas results k'. destruct (sim_reads k fds) as [[ds xs] k1] eqn:E. intros [= <- <- <- <-] _.
    destruct (sim_reads_law _ _ _ _ _ E) as (H1 & H2 & H3 & H4). rewrite Nat2Z.id. do 4 (split; [assumption || reflexivity|]).
    exists xs. split; [exact H4|apply order_sub].
  - intros k outs r results k' [= <- <- <-] _. split; [reflexivity|]. rewrite Nat2Z.id, firstn_all.
    exists (size <$> outs.*2). split; [apply sim_outs_law|]. split; [apply order_sub|reflexivity].
  - now intros ? ? ? ? [= <- <-].
  - now intros ? ? ? ? [= <- <-].
  - now intros ? ? ? ? [= <- <-].
  - reflexivity.
  - intros k fd len r data k'. destruct (sim_read k fd len) as [[d|e] k1] eqn:E; intros [= <- <- <-]; cbn.
    + now apply sim_read_law in E.
    + apply sim_read_law in E. now subst.
  - intros k fd data r n k' [= <- <- <-]. cbn. split; [unfold size; lia|reflexivity].
Defined.

Lemma sim_grants reversed : @grants sim (sim_kernel reversed) (sim_ok reversed).
Proof.
  split; cbn.
  - intros k qfd fd ev _ Hw. unfold sim_ctl. now rewrite Hw.
  - intros k qfd fd ev [x Hw]. unfold sim_ctl. now rewrite Hw.
  - intros k fds r datas results k'. destruct (sim_reads k fds) as [[ds xs] k1]. now intros [= <- <- <- <-] _.
Qed.

(** ** Clients that send one packet again and again *)

(** The simulated kernel, with the number of packets read from each descriptor. *)
Record pinger := Pinger { pi_sim : sim; pi_count : gmap Z nat }.

Section Pinger.
Context (packet : bytes).

Definition packets (n : nat) : bytes := concat (replicate n packet).

Definition with_recv (so : sockets) (r : gmap Z bytes) : sockets := Sockets (so_open so) (so_watch so) (so_sent so) r.
Definition pi_socks (k : pinger) : sockets := with_recv (sm_socks (pi_sim k)) (packets <$> pi_count k).

Definition pi_accept (k : pinger) : Z * pinger :=
  let '(fd, s) := sim_accept (pi_sim k) in
  (fd, Pinger s (if decide (fd = -1) then pi_count k else <[fd := 0%nat]> (pi_count k))).

Definition pi_read (k : pinger) (fd len : Z) : io bytes * pinger :=
  if len <? size packet then (Err EAGAIN, k)
  else (Ret packet, Pinger (pi_sim k) (<[fd := S (default 0%nat (pi_count k !! fd))]> (pi_count k))).

Definition pi_lift {A} (f : sim → A * sim) (k : pinger) : A * pinger :=
  let '(a, s) := f (pi_sim k) in (a, Pinger s (pi_count k)).

Definition pi_kernel : Kernel pinger := {|
  k_evqueue := pi_accept; k_accept k _ := pi_accept k; k_getfl k _ := (0, k); k_setfl k _ _ := (0, k); k_setsockopt k _ _ _ _ := (0, k);
  k_epoll_ctl k op qfd fd ev := pi_lift (λ s, sim_ctl s op qfd fd ev) k;
  k_epoll_wait k qfd max := pi_lift (λ s, sim_wait s qfd max) k;
  k_read := pi_read; k_write k fd data := pi_lift (λ s, sim_write s fd data) k;
  k_close k fd := (pi_lift (λ s, (tt, sim_socks s (sock_closed fd (sm_socks s)))) k).2;
  k_uring_read k _ := (-1, [], [], k); k_uring_write k _ := (-1, [], k);
  k_usetls := false; k_ssl_new k _ := (false, k); k_ssl_accept k _ := (-1, k);
  k_ssl_read k _ _ := (-1, [], k); k_ssl_write k _ _ := (-1, 0, k); k_ssl_error _ _ _ := SSL_ERROR_WANT_READ;
  k_ssl_shutdown k _ := (1, k); k_ssl_free k _ := k
|}.

Lemma pi_recv k fd : recv (pi_socks k) fd = packets (default 0%nat (pi_count k !! fd)).
Proof. unfold recv. cbn. rewrite lookup_fmap. now destruct (pi_count k !! fd). Qed.

Lemma packets_S n : packets (S n) = packets n ++ packet.
Proof.
  unfold packets. replace (S n) with (n + 1)%nat by lia. rewrite replicate_add, concat_app. cbn. now rewrite app_nil_r.
Qed.

Lemma pi_accept_law k fd k' : pi_accept k = (fd, k') →
  (fd = -1 ∧ pi_socks k' = pi_socks k) ∨
  (fd ≠ -1 ∧ (fd ∉ so_open (pi_socks k)) ∧ pi_socks k' = sock_opened fd (pi_socks k)).
Proof.
  unfold pi_accept. destruct (sim_accept (pi_sim k)) as [x s'] eqn:E.
    apply sim_accept_law in E. intros [= <- <-].
    destruct E as [[-> E]|(Hne & Ho & E)]; [left|right]; unfold pi_socks; cbn [pi_sim pi_count]; rewrite E.
    { split; reflexivity. }
    split; [exact Hne|]. split; [exact Ho|]. rewrite decide_False by exact Hne. unfold with_recv, sock_opened. cbn. now rewrite fmap_insert.
Qed.

#[export] Instance pi_ok : @KernelOk pinger pi_kernel.
Proof.
  refine (Build_KernelOk _ _ pi_socks _ _ _ _ _ _ _ _ _ _ _ _ _ _ _ _ _ _ _); cbn.
  - exact pi_accept_law.
  - intros k _. apply pi_accept_law.
  - now intros ? ? ? ? [= <- <-].
  - now intros ? ? ? ? ? [= <- <-].
  - now intros ? ? ? ? ? ? ? [= <- <-].
  - intros k qfd fd ev r k'. unfold pi_lift. destruct (sim_ctl _ _ _ _ _) as [x s'] eqn:E. intros [= <- <-] Hin.
    apply (@ctl_add_law _ _ (sim_ok false)) in E; [|exact Hin]. cbn [socks sim_ok] in E.
    unfold watch, pi_socks in *. cbn in E |- *. destruct E as [[-> ->]|(-> & Hw & ->)]; auto.
  - intros k qfd fd ev r k'. unfold pi_lift. destruct (sim_ctl _ _ _ _ _) as [x s'] eqn:E. intros [= <- <-].
    apply (@ctl_del_law _ _ (sim_ok false)) in E. cbn [socks sim_ok] in E.
    unfold watch, pi_socks in *. cbn in E |- *. destruct E as [[-> ->]|(-> & Hw & ->)]; auto.
  - intros k qfd max r k'. unfold pi_lift. destruct (sim_wait _ _ _) as [x s'] eqn:E. intros [= <- <-].
    apply (@wait_law _ _ (sim_ok false)) in E as [E1 E2]. cbn in E1. split; [unfold pi_socks; cbn; now rewrite E1|exact E2].
  - intros k fd len r k'. unfold pi_read. destruct (len <? size packet) eqn:El; zb; intros [= <- <-]; [reflexivity|]. split; [exact El|].
    unfold sock_recv. rewrite pi_recv. unfold pi_socks, with_recv. cbn. now rewrite fmap_insert, packets_S.
  - intros k fd data r k' [= <- <-]. split; [unfold size; lia|reflexivity].
  - reflexivity.
  - intros k fds r datas results k' [= <- <- <- <-]. lia.
  - intros k outs r results k' [= <- <- <-]. lia.
  - now intros ? ? ? ? [= <- <-].
  - now intros ? ? ? ? [= <- <-].
  - now intros ? ? ? ? [= <- <-].
  - reflexivity.
  - now intros ? ? ? ? ? ? [= <- <- <-].
  - now intros ? ? ? ? ? ? [= <- <- <-].
Defined.

End Pinger.

(** ** What holds of a network thread

    Every state a thread can reach is safe and implements the sessions of
    [NetSpec.v]; a round ends when the kernel lets it; and what can go wrong. *)

#[local] Opaque cmap_insert cmap_delete cmap_get.

Create HintDb spins.

Section Claims.
Context {K W J : Type} {HK : Kernel K} {HKO : KernelOk K} {HS : Conn.Server W J} {HB : Background W J}.
Context (o : qopts).
Implicit Types (t : qthreadctx) (s : shared K W J).

(** Peers may send anything. *)
Lemma trivial_peers : peers_send K (λ _, True).
Proof. now split. Qed.

(** C5: A network thread is safe. In every state it can reach, by rounds of the event
    loop and ends of background work in any order, over any kernel that keeps the
    laws of [NetSpec.v], where calls may fail at any time and io_uring may complete
    in any order, the next round and the next end of background work do nothing
    undefined in [net.c] itself: no connection is used after it was freed, no queue
    and no packet buffer overflows, and no assertion about the connections fails.
    The assertions that a call of the kernel succeeds fail only if the kernel lacks
    resources. What the callbacks do is not part of this. *)
Theorem net_round_safe s0 t s :
  t_qfd o ∈ t_qfds o → starts o (n_app s0) s0 → rtc thread_step (thread_start o, s0) (t, s) →
  ((∀ fuel, qround fuel t s ≠ Fault) ∧ (∀ q, working t s q → bgwork_end (t_qfd (t_opts t)) q t s ≠ Fault)) ∧
  (grants K → (∀ fuel, qround fuel t s ≠ Denied) ∧ (∀ q, working t s q → bgwork_end (t_qfd (t_opts t)) q t s ≠ Denied)).
Proof.
  intros Hq Hs Hr. destruct (thread_inv_reach o (n_app s0) false _ trivial_peers Hq ltac:(discriminate) s0 t s Hs Hr) as (m & ls & Hc).
  pose proof (λ fuel, qround_spec o _ false _ trivial_peers Hq ltac:(discriminate) fuel _ _ _ _ Hc) as Hwp1.
  pose proof (λ q, bgwork_end_spec o _ false _ trivial_peers q _ _ _ _ Hc) as Hwp2. unfold wp in Hwp1, Hwp2.
  split; [|intros Hg]; (split; [intros fuel E; specialize (Hwp1 fuel)|intros q Hw E; specialize (Hwp2 q Hw)]);
    first [now rewrite E in Hwp1 | now rewrite E in Hwp2].
Qed.

(** C4: The event loop implements one session per connection. With io_uring off, whose
    completions [net.c] takes to come in order, which they need not (see
    [uring_completions_swapped]), every state a thread can reach is one the server
    reaches by handling the events of its connections one at a
    time: the map of the thread holds exactly these connections, each is idle or
    has work in the background, and as long as no write failed its peer was sent
    exactly the output of its session and the session got exactly the bytes that
    were read, in order. *)
Theorem net_refines_sessions s0 t s :
  t_qfd o ∈ t_qfds o → t_uring o = false → starts o (n_app s0) s0 →
  rtc thread_step (thread_start o, s0) (t, s) →
  ∃ m ls, session_steps (n_app s0, ∅) ls (n_app s, abs (n_heap s) m) ∧ represents (n_heap s) (t_cmap t) m ∧
    t_nconns t = Z.of_nat (base.size m) ∧
    ∀ fd q n, m !! fd = Some q → n_heap s !! q = Some n →
      fd ∈ so_open (so s) ∧ idle (nc_rest n) ∧
      (¬ broken (since fd ls) → sent (so s) fd = outs (since fd ls) ∧ recv (so s) fd = ins (since fd ls)).
Proof.
  intros Hq Ho Hs Hr. destruct (thread_inv_reach o (n_app s0) true _ trivial_peers Hq (λ _, Ho) s0 t s Hs Hr) as (m & ls & Hc).
  exists m, ls. split; [apply (co_trace Hc)|]. split; [apply (co_map Hc)|]. split; [apply (co_count Hc)|].
  intros fd q n Hm Hn. destruct (co_conn Hc _ _ _ Hm Hn) as (H1 & _ & H3). split; [exact H1|]. split; [apply H3; set_solver|].
  intros Hb. destruct (co_io Hc eq_refl _ _ Hm Hb) as [E1 E2]. cbn in E1, E2. now rewrite app_nil_r in E1, E2.
Qed.

(** ** The start of the threads *)

(** The queue [qfd] watches new listeners, and nothing else has changed. *)
Definition listening (qfd : Z) (sfd : list Z) (so so' : sockets) : Prop :=
  so_open so' = so_open so ∧ (∀ fd, fd ∈ sfd → fd ≠ 0 → watch so' qfd fd = Some READING) ∧
  ∀ qf fd, watch so' qf fd = watch so qf fd ∨ qf = qfd ∧ fd ∈ sfd ∧ fd ≠ 0 ∧ watch so qf fd = None.

Lemma watch_listeners_spec qfd sfd : ∀ k k',
  Forall (λ fd, fd = 0 ∨ fd ∈ so_open (socks k)) sfd → watch_listeners k qfd sfd = Some k' → listening qfd sfd (socks k) (socks k').
Proof.
  induction sfd as [|fd sfd IH]; intros k k' Hsf; cbn [watch_listeners].
  { intros [= <-]. split; [reflexivity|]. split; [intros fd []%not_elem_of_nil|now left]. }
  apply Forall_cons in Hsf as [Hfd Hsf]. destruct (fd =? 0) eqn:Ez; zb.
  { intros E. destruct (IH _ _ Hsf E) as (E1 & E2 & E3). split; [exact E1|]. split; [set_solver|].
    intros qf fd'. destruct (E3 qf fd') as [?|(? & ? & ? & ?)]; [now left|right; set_solver]. }
  destruct Hfd as [?|Hopen]; [contradiction|]. unfold addread. destruct (k_epoll_ctl _ _ _ _ _) as [ret k1] eqn:Ek.
  apply ctl_add_law in Ek as [[-> Ek]|(-> & Ew & Ek)]; [discriminate| |exact Hopen].
  cbn [Z.eqb]. intros E. destruct (IH k1 k') as (E1 & E2 & E3); [now rewrite Ek|exact E|]. rewrite Ek in *. split; [exact E1|].
  assert (Hw : ∀ qf fd', watch (sock_watch qfd fd READING (socks k)) qf fd' =
    if decide ((qf, fd') = (qfd, fd)) then Some READING else watch (socks k) qf fd').
  { intros qf fd'. unfold watch, sock_watch. cbn. case_decide as Hq; [now rewrite Hq, lookup_insert_eq|now rewrite lookup_insert_ne]. }
  split.
  - intros fd' [->|Hin]%elem_of_cons Hne; [|now apply E2].
    destruct (E3 qfd fd) as [->|(_ & _ & _ & Hnone)]; rewrite Hw, decide_True in *; easy.
  - intros qf fd'. destruct (E3 qf fd') as [->|(-> & Hin & Hnz & Hnone)]; rewrite Hw in *; case_decide as Hq; try discriminate.
    + right. injection Hq as -> ->. split; [reflexivity|]. split; [set_solver|]. split; [exact Ez|exact Ew].
    + now left.
    + right. split; [reflexivity|]. split; [set_solver|]. split; [exact Hnz|exact Hnone].
Qed.

(** Only listeners are watched, by queues that are open. *)
Definition only_listeners (sfd : list Z) (so : sockets) : Prop :=
  sockets_ok so ∧ (∀ qf fd ev, watch so qf fd = Some ev → qf ∈ so_open so ∧ fd ∈ sfd) ∧ Forall (λ fd, fd = 0 ∨ fd ∈ so_open so) sfd.

Lemma start_queue_spec qfd sfd k k1 k2 :
  only_listeners sfd (socks k) → qfd ∉ so_open (socks k) → socks k1 = sock_opened qfd (socks k) → watch_listeners k1 qfd sfd = Some k2 →
  only_listeners sfd (socks k2) ∧ so_open (socks k2) = {[qfd]} ∪ so_open (socks k) ∧
  (∀ fd, fd ∈ sfd → fd ≠ 0 → watch (socks k2) qfd fd = Some READING) ∧
  ∀ qf fd, qf ≠ qfd → watch (socks k2) qf fd = watch (socks k) qf fd.
Proof.
  intros (Hok & Hw & Hsf) Hq E1 E. apply watch_listeners_spec in E as (Eo & Ew1 & Ew2).
  2: { rewrite E1. cbn. eapply Forall_impl; [exact Hsf|]. intros fd. set_solver. }
  rewrite E1 in *. cbn in Eo. assert (Hsame : ∀ qf fd, watch (sock_opened qfd (socks k)) qf fd = watch (socks k) qf fd) by easy.
  assert (Hin : ∀ qf fd ev, watch (socks k2) qf fd = Some ev → qf ∈ so_open (socks k2) ∧ fd ∈ sfd ∧ fd ∈ so_open (socks k2)).
  { intros qf fd ev Hev. rewrite Eo. destruct (Ew2 qf fd) as [E2|(-> & Hin & Hnz & Hnone)].
    - rewrite E2, Hsame in Hev. destruct (Hw _ _ _ Hev). apply Hok in Hev. set_solver.
    - rewrite Forall_forall in Hsf. destruct (Hsf _ Hin) as [?|Hop]; [contradiction|]. set_solver. }
  split; [|split; [exact Eo|split; [exact Ew1|]]].
  - split; [intros qf fd ev Hev; now apply Hin in Hev|]. split; [intros qf fd ev Hev; apply Hin in Hev; now destruct Hev as (? & ? & _)|].
    rewrite Eo. eapply Forall_impl; [exact Hsf|]. intros fd. set_solver.
  - intros qf fd Hne. destruct (Ew2 qf fd) as [->|(? & _)]; [apply Hsame|contradiction].
Qed.

Lemma start_queues_spec sfd n : ∀ k qfds k',
  only_listeners sfd (socks k) → start_queues n k sfd = Some (qfds, k') →
  length qfds = n ∧ only_listeners sfd (socks k') ∧
  (∀ qfd fd, qfd ∈ qfds → fd ∈ sfd → fd ≠ 0 → watch (socks k') qfd fd = Some READING) ∧
  ∀ qf fd, qf ∈ so_open (socks k) → qf ∈ so_open (socks k') ∧ watch (socks k') qf fd = watch (socks k) qf fd.
Proof.
  induction n as [|n IH]; intros k qfds k' Hl; cbn [start_queues].
  { intros [= <- <-]. split; [reflexivity|]. split; [exact Hl|]. split; [set_solver|easy]. }
  destruct (k_evqueue k) as [qfd k1] eqn:E1. apply evqueue_law in E1 as [[-> E1]|(Hne & Hq & E1)]; [discriminate|].
  rewrite (proj2 (Z.eqb_neq _ _) Hne). destruct (watch_listeners k1 qfd sfd) as [k2|] eqn:E2; [|discriminate]. cbn [mbind option_bind].
  destruct (start_queue_spec _ _ _ _ _ Hl Hq E1 E2) as (Hl2 & Eo & Hw & Hsame).
  destruct (start_queues n k2 sfd) as [[qfds' k3]|] eqn:E3; [|discriminate]. cbn [mbind option_bind]. intros [= <- <-].
  destruct (IH _ _ _ Hl2 E3) as (Hlen & Hl3 & Hw3 & Hs3). split; [cbn; lia|]. split; [exact Hl3|]. split.
  - intros q fd [->|Hin]%elem_of_cons Hfd Hnz; [|now apply Hw3]. destruct (Hs3 qfd fd) as [_ ->]; [rewrite Eo; set_solver|]. now apply Hw.
  - intros qf fd Hqf. destruct (Hs3 qf fd) as [Ho ->]; [rewrite Eo; set_solver|]. split; [exact Ho|]. apply Hsame. congruence.
Qed.

(** [net_main] sets the threads up. From any kernel where nothing is watched yet and
    the listeners are open, when it does not abort, there are as many threads as
    asked for, each with a queue of its own that watches every listener, and each
    starts in a state from which the theorems about a thread hold. *)
Theorem net_main_starts opts sfd k qs k' :
  (∀ qfd fd, watch (socks k) qfd fd = None) → Forall (λ fd, fd = 0 ∨ fd ∈ so_open (socks k)) sfd →
  net_main opts sfd k = Some (qs, k') →
  length qs = no_nthreads opts ∧ ∀ o', o' ∈ qs →
    t_qfd o' ∈ t_qfds o' ∧ (∀ w : W, starts o' w (Shared (J := J) k' w ∅ 0 0 0 [] 0)) ∧
    ∀ fd, fd ∈ sfd → fd ≠ 0 → watch (socks k') (t_qfd o') fd = Some READING.
Proof.
  intros Hnone Hsf. unfold net_main. destruct (forallb _ sfd); [discriminate|].
  destruct (start_queues _ k sfd) as [[qfds k1]|] eqn:E; [|discriminate]. cbn [mbind option_bind]. intros [= <- <-].
  destruct (start_queues_spec sfd (no_nthreads opts) k qfds k1) as (Hlen & (Hok & Hw & _) & Hl & _).
  { split; [intros qf fd ev Hev; now rewrite Hnone in Hev|]. split; [intros qf fd ev Hev; now rewrite Hnone in Hev|exact Hsf]. }
  { exact E. }
  split; [now rewrite length_fmap|]. intros o' (qfd & -> & Hq)%list_elem_of_fmap. cbn. split; [exact Hq|]. split; [|now intros; apply Hl].
  intros w. split; [reflexivity|]. split; [exact Hok|]. intros fd ev Hev. now apply Hw in Hev.
Qed.

(** ** A round ends *)

(** With enough fuel the result is the same and not [Spin]. *)
Definition settles {A} (x : nat → net A) t s : Prop :=
  ∃ fuel0 r, r ≠ Spin ∧ ∀ fuel, (fuel0 <= fuel)%nat → x fuel t s = r.

Definition never_spins {A} (x : net A) : Prop := ∀ t s, x t s ≠ Spin.

Lemma settles_const {A} (x : net A) t s : never_spins x → settles (λ _, x) t s.
Proof. intros Hx. exists 0%nat, (x t s). split; [apply Hx|easy]. Qed.

Lemma settles_bind {A B} (x : nat → net A) (f : nat → A → net B) t s :
  settles x t s → (∀ a t' s', settles (λ n, f n a) t' s') → settles (λ n, x n ≫= f n) t s.
Proof.
  intros (n1 & r1 & Hr1 & H1) Hf. destruct r1 as [[[a t'] s']| | | |].
  2-5: eexists n1, _; split; [|intros n Hn; unfold mbind, net_bind; rewrite (H1 n Hn); reflexivity]; congruence.
  destruct (Hf a t' s') as (n2 & r2 & Hr2 & H2). exists (n1 `max` n2)%nat, r2. split; [exact Hr2|]. intros n Hn.
  unfold mbind, net_bind. rewrite (H1 n) by lia. apply H2. lia.
Qed.

Lemma settles_for_each {A} (f : nat → A → net unit) l : ∀ t s, (∀ x t s, settles (λ n, f n x) t s) → settles (λ n, for_each l (f n)) t s.
Proof.
  induction l as [|x l IH]; intros t s Hf; cbn [for_each]; [now apply settles_const|].
  apply (settles_bind (λ n, f n x) (λ n _, for_each l (f n))); [apply Hf|]. intros. now apply IH.
Qed.

Lemma spins_bind {A B} (x : net A) (f : A → net B) : never_spins x → (∀ a, never_spins (f a)) → never_spins (x ≫= f).
Proof. intros Hx Hf t s. unfold mbind, net_bind. specialize (Hx t s). destruct (x t s) as [[[a t'] s']| | | |]; try easy. apply Hf. Qed.

Lemma spins_for_each {A} (f : A → net unit) l : (∀ x, never_spins (f x)) → never_spins (for_each l f).
Proof. intros Hf. induction l as [|x l IH]; [easy|]. cbn. now apply spins_bind. Qed.

(** How long the kernel can put off a write: an attempt that transfers nothing
    uses up patience. *)
Definition writes_progress (patience : K → Z → nat) : Prop :=
  ∀ (tls : bool) k fd data r k', data ≠ [] →
    (if tls then tls_write k fd data else k_write k fd data) = (r, k') →
    match r with
    | Ret n => 0 < n ∨ (patience k' fd < patience k fd)%nat
    | Err e => e = EAGAIN → (patience k' fd < patience k fd)%nat
    end.

Context (patience : K → Z → nat) (Hprogress : writes_progress patience).

Lemma settles_S {A} (x : nat → net A) t s r : (∀ fuel, x (S fuel) t s = r) → r ≠ Spin → settles x t s.
Proof. intros Hx Hr. exists 1%nat, r. split; [exact Hr|]. intros [|fuel] Hf; [lia|]. apply Hx. Qed.

Lemma settles_next {A} (x : nat → net A) y t s t' s' :
  (∀ fuel, x (S fuel) t s = y fuel t' s') → settles y t' s' → settles x t s.
Proof. intros Hx (n & r & Hr & Hy). exists (S n), r. split; [exact Hr|]. intros [|fuel] Hf; [lia|]. rewrite Hx. apply Hy. lia. Qed.

Lemma flush_loop_settles q : ∀ left wait t s written n,
  n_heap s !! q = Some n → (length (c_out (nc_rest n)) - written <= left)%nat → (patience (n_kernel s) (nc_fd n) <= wait)%nat →
  settles (λ fuel, flush_loop fuel q written) t s.
Proof.
  induction left as [left IHl] using lt_wf_ind. induction wait as [wait IHw] using lt_wf_ind. intros t s written n Hq Hl Hw.
  destruct (written <? length (c_out (nc_rest n)))%nat eqn:El.
  2: { apply (settles_S _ _ _ (Ok (tt, t, s))); [|discriminate]. intros fuel. cbn [flush_loop]. unfold mbind, net_bind, deref.
       now rewrite Hq, El. }
  pose proof El as Hlt. apply Nat.ltb_lt in Hlt.
  destruct (if c_tls (nc_rest n) then tls_write (n_kernel s) (nc_fd n) (drop written (c_out (nc_rest n)))
            else k_write (n_kernel s) (nc_fd n) (drop written (c_out (nc_rest n)))) as [r k] eqn:Ek.
  assert (Hne : drop written (c_out (nc_rest n)) ≠ []).
  { intros E. apply (f_equal length) in E. rewrite length_drop in E. cbn in E. lia. }
  pose proof (Hprogress _ _ _ _ _ _ Hne Ek) as Hp. pose proof (conn_write_law _ _ _ _ _ _ Ek) as Hlaw.
  assert (Hstep : ∀ fuel, flush_loop (S fuel) q written t s = match r with
    | Err e => if e =? EAGAIN then flush_loop fuel q written else put_conn q (conn_close (nc_rest n))
    | Ret m => flush_loop fuel q (written + Z.to_nat m)
    end t (with_kernel s k)).
  { intros fuel. cbn [flush_loop]. unfold mbind, net_bind, deref, sys. rewrite Hq, El, Ek. reflexivity. }
  destruct r as [m|e].
  - apply (settles_next _ (λ fuel, flush_loop fuel q (written + Z.to_nat m)) _ _ _ _ Hstep). destruct Hlaw as [[Hm1 Hm2] _]. unfold size in Hm2. rewrite length_drop in Hm2.
    destruct (decide (0 < m)) as [Hm|Hm].
    + apply (IHl (length (c_out (nc_rest n)) - (written + Z.to_nat m))%nat ltac:(lia) (patience k (nc_fd n)) _ _ _ n); [exact Hq|lia|cbn; lia].
    + destruct Hp as [?|Hp]; [lia|]. apply (IHw (patience k (nc_fd n)) ltac:(lia) _ _ _ n); [exact Hq|lia|cbn; lia].
  - destruct (e =? EAGAIN) eqn:Ee; zb.
    + apply (settles_next _ (λ fuel, flush_loop fuel q written) _ _ _ _ Hstep). apply (IHw (patience k (nc_fd n)) ltac:(specialize (Hp Ee); lia) _ _ _ n); [exact Hq|lia|cbn; lia].
    + apply (settles_S (λ fuel, flush_loop fuel q written) _ _ _ Hstep). unfold put_conn, mbind, net_bind, deref. cbn. rewrite Hq. discriminate.
Qed.

(** Computations without a loop of their own. *)

Lemma spins_deref q : never_spins (deref q).
Proof. intros t s. unfold deref. now destruct (n_heap s !! q). Qed.
Lemma spins_sys {A} (f : K → A * K) : never_spins (sys f).
Proof. intros t s. unfold sys. now destruct (f _). Qed.
Lemma spins_app {A} (f : W → option (W * A)) : never_spins (app f).
Proof. intros t s. unfold app. now destruct (f _) as [[]|]. Qed.
Lemma spins_push {A} (x : A) sel set : never_spins (push x sel set).
Proof. intros t s. unfold push. now destruct (_ <? _)%nat. Qed.
Lemma spins_tlsfds {A} (f : list Z → A * list Z) : never_spins (tlsfds f).
Proof. intros t s. unfold tlsfds. now destruct (f _). Qed.
Lemma spins_defined {A} (x : option A) : never_spins (defined x).
Proof. now destruct x. Qed.
Lemma spins_granted b : never_spins (granted b).
Proof. now destruct b. Qed.
Lemma spins_assertion b : never_spins (assertion b).
Proof. now destruct b. Qed.
Lemma spins_ret {A} (x : A) : never_spins (mret x).
Proof. easy. Qed.
Lemma spins_get_ctx : never_spins get_ctx.
Proof. easy. Qed.
Lemma spins_get_opts : never_spins get_opts.
Proof. easy. Qed.
Lemma spins_get_heap : never_spins get_heap.
Proof. easy. Qed.
Lemma spins_put_heap h : never_spins (put_heap h).
Proof. easy. Qed.
Lemma spins_put_conn q c : never_spins (put_conn q c).
Proof. unfold put_conn. apply spins_bind; [apply spins_deref|]. now intros n. Qed.

#[local] Hint Resolve spins_deref spins_sys spins_app spins_push spins_tlsfds spins_defined spins_assertion spins_granted spins_ret spins_get_ctx
  spins_get_opts spins_get_heap spins_put_heap spins_put_conn : spins.

Ltac spins := repeat first
  [ progress intros | solve [auto with spins] | progress unfold push_reads, push_ins, push_attachs, push_outs, push_closes | apply spins_bind | apply spins_for_each
  | match goal with
    | |- never_spins (if ?b then _ else _) => destruct b
    | |- never_spins (match ?x with _ => _ end) => destruct x
    | |- never_spins (let '_ := ?x in _) => destruct x
    end
  | solve [now intros ? ?] ].

Lemma spins_accept_listener fd : never_spins (accept_listener fd).
Proof. unfold accept_listener, sys_close. spins. Qed.
Lemma spins_enqueue q : never_spins (enqueue q).
Proof. unfold enqueue. spins. Qed.
Lemma spins_accept_conn fd : never_spins (accept_conn fd).
Proof. unfold accept_conn, establish, conn_new, conn_free, sys_close. spins. Qed.
Lemma spins_handle_read n e i q : never_spins (handle_read n e i q).
Proof. unfold handle_read. spins. Qed.
Lemma spins_store_pkt i data : never_spins (store_pkt i data).
Proof. unfold store_pkt. spins. Qed.
Lemma spins_fds_of l : never_spins (fds_of l).
Proof. induction l; cbn [fds_of]; spins. Qed.
Lemma spins_outs_of l : never_spins (outs_of l).
Proof. induction l; cbn [outs_of]; spins. Qed.
#[local] Hint Resolve spins_accept_listener spins_enqueue spins_accept_conn spins_handle_read spins_store_pkt spins_fds_of spins_outs_of : spins.

Lemma spins_qaccept l : never_spins (qaccept l).
Proof. unfold qaccept, accept_event. spins. Qed.
Lemma spins_qread : never_spins qread.
Proof. unfold qread, read_conn, uring_read_done. spins. Qed.
Lemma spins_qprocess : never_spins qprocess.
Proof. unfold qprocess, process. spins. Qed.
Lemma spins_qclose : never_spins qclose.
Proof. unfold qclose, close_conn, conn_free, sys_close. spins. Qed.
#[local] Hint Resolve spins_qaccept spins_qread spins_qprocess spins_qclose : spins.

Lemma flush_conn_settles q written t s : settles (λ fuel, flush_conn fuel q written) t s.
Proof.
  unfold flush_conn. apply (settles_bind (λ fuel, flush_loop fuel q written) (λ _ _, clear_out q)).
  - destruct (n_heap s !! q) as [n|] eqn:Hq; [now apply (flush_loop_settles q _ _ _ _ _ n Hq (Nat.le_refl _) (Nat.le_refl _))|].
    apply (settles_S _ _ _ Fault); [|discriminate]. intros fuel. cbn. unfold mbind, net_bind, deref. now rewrite Hq.
  - intros. apply settles_const. unfold clear_out. spins.
Qed.

Lemma attach_settles q t s : settles (λ fuel, attach fuel q) t s.
Proof.
  unfold attach. repeat (apply (settles_bind (λ _, _) (λ fuel a, _)); [apply settles_const; solve [spins]|intros]).
  apply (settles_bind (λ fuel, flush_conn fuel q 0) (λ _ _, _)); [apply flush_conn_settles|]. intros. apply settles_const. spins.
Qed.

Lemma write_conn_settles q t s : settles (λ fuel, write_conn fuel q) t s.
Proof.
  unfold write_conn. apply (settles_bind (λ fuel, flush_conn fuel q 0) (λ _ _, _)); [apply flush_conn_settles|].
  intros. apply settles_const. unfold close_if_closed. spins.
Qed.

Lemma uring_write_done_settles results x t s : settles (λ fuel, uring_write_done fuel results x) t s.
Proof.
  destruct x as [i q]. unfold uring_write_done. destruct (results !! i) as [n|]; [|now apply settles_const].
  apply (settles_bind (λ fuel, if (if n =? - EAGAIN then 0 else n) <? 0 then _ else flush_conn fuel q _) (λ _ _, _)).
  - destruct (_ <? 0); [apply settles_const; spins|apply flush_conn_settles].
  - intros. apply settles_const. unfold close_if_closed, clear_out. spins.
Qed.

Lemma qwrite_settles t s : settles (λ fuel, qwrite fuel) t s.
Proof.
  unfold qwrite. apply (settles_bind (λ _, _) (λ fuel a, _)); [now apply settles_const|]. intros t1 t' s'. destruct (use_uring t1).
  - do 2 (apply (settles_bind (λ _, _) (λ fuel a, _)); [apply settles_const; solve [spins]|intros]). destruct a0 as [ret results].
    destruct (ret <? 0); [now apply settles_const|]. apply settles_for_each. intros. apply uring_write_done_settles.
  - apply settles_for_each. intros. apply write_conn_settles.
Qed.


End Claims.

(** ** What can go wrong *)

Section Faults.
Context {K W J : Type} {HK : Kernel K} {HS : Conn.Server W J} {HB : Background W J}.
Implicit Types (t : qthreadctx) (s : shared K W J).

(** A peer that does not read. *)
Lemma stuck_loop q n fuel : ∀ t s written,
  (∀ k data, ∃ k', k_write k (nc_fd n) data = (Err EAGAIN, k')) → n_heap s !! q = Some n → c_tls (nc_rest n) = false →
  (written < length (c_out (nc_rest n)))%nat → flush_loop fuel q written t s = Spin.
Proof.
  induction fuel as [|fuel IH]; intros t s written Hk Hq Ht Hl; cbn [flush_loop]; unfold mbind, net_bind, deref; rewrite Hq.
  all: rewrite (proj2 (Nat.ltb_lt _ _) Hl).
  { reflexivity. }
  unfold sys. rewrite Ht.
  destruct (Hk (n_kernel s) (drop written (c_out (nc_rest n)))) as [k' ->]. cbn. now apply IH.
Qed.


Lemma bind_Ok {A B} (x : net A) (f : A → net B) t s r :
  (x ≫= f) t s = Ok r → ∃ a t1 s1, x t s = Ok (a, t1, s1) ∧ f a t1 s1 = Ok r.
Proof. unfold mbind, net_bind. destruct (x t s) as [[[a t1] s1]| | | |]; try discriminate. eauto. Qed.

Lemma establish_tls q tls t s r t' s' : establish true q tls t s = Ok (r, t', s') → t_ntlsconns t' = t_ntlsconns t + 1.
Proof.
  intros E. unfold establish in E. do 5 (apply bind_Ok in E as (? & ? & ? & [= <- <- <-] & E)).
  apply bind_Ok in E as ([h c] & t2 & s2 & E1 & E). assert (t2 = Qctx (t_opts t) (t_nconns t + 1) (t_ntlsconns t + 1) (t_cmap t)
    (t_inpkts t) (t_qreads t) (t_qins t) (t_qattachs t) (t_qouts t) (t_qcloses t)) as ->.
  { unfold defined in E1. destruct (cmap_insert _ _ _ _); [|discriminate E1]. unfold mret, net_ret in E1. now injection E1 as _ <- _. }
  do 2 (apply bind_Ok in E as (? & ? & ? & [= <- <- <-] & E)). apply bind_Ok in E as (? & t3 & s3 & E3 & [= <- <- <-]).
  unfold put_conn in E3. apply bind_Ok in E3 as (n & t4 & s4 & E4 & E3). unfold deref in E4.
  destruct (n_heap _ !! q); [|discriminate E4]. injection E4 as <- <- <-. apply bind_Ok in E3 as (? & ? & ? & [= <- <- <-] & E3). unfold put_heap in E3. now injection E3 as _ <- _.
Qed.

Lemma del_tls_fd_found l fd : fd ∈ l → (del_tls_fd l fd).1 = true.
Proof.
  intros Hin. unfold del_tls_fd. destruct (list_find _ l) as [[i x]|] eqn:E; [reflexivity|].
  apply list_find_None in E. rewrite Forall_forall in E. now apply E in Hin.
Qed.

(** A rejected TLS connection leaves its mark behind. When the limit of
    connections is reached, the descriptor is closed but stays in
    [tls_ready_fds]; the kernel gives the same descriptor to a later connection,
    and when that one is accepted, whatever listener it came from, [tls_accept]
    decides about it: the connection counts as TLS. *)
Theorem rejected_tls_mark_stays fd t s :
  fd ∈ n_tlsfds s → u64 (t_maxconns (t_opts t)) <= n_nconns s →
  ∃ s', accept_conn fd t s = Ok (None, t, s') ∧ fd ∈ n_tlsfds s' ∧
    ∀ s2 r t2 s3, n_tlsfds s2 = n_tlsfds s' → accept_conn fd t s2 = Ok (Some r, t2, s3) →
      t_ntlsconns t2 = t_ntlsconns t + 1 ∧ ∃ tls, (tls_accept (n_kernel s2) fd).1 = Some tls.
Proof.
  intros Hin Hmax. eexists. split.
  { unfold accept_conn, mbind, net_bind. cbn. now rewrite (proj2 (Z.leb_le _ _) Hmax). }
  split; [exact Hin|]. cbn [n_tlsfds]. intros s2 r t2 s3 E2 E. unfold accept_conn in E.
  apply bind_Ok in E as (? & ? & ? & [= <- <- <-] & E). apply bind_Ok in E as (? & ? & ? & [= <- <- <-] & E).
  destruct (_ <=? n_nconns s2); [discriminate E|]. apply bind_Ok in E as (istls & ? & ? & Ed & E).
  unfold tlsfds in Ed. cbn [n_tlsfds] in Ed. rewrite E2 in Ed. pose proof (del_tls_fd_found _ _ Hin) as Hf.
  destruct (del_tls_fd (n_tlsfds s) fd) as [b l]. cbn in Hf. injection Ed as <- <- <-. subst b.
  apply bind_Ok in E as (q & ? & ? & [= <- <- <-] & E). apply bind_Ok in E as (tls & ? & ? & Et & E). unfold sys in Et. cbn in Et.
  destruct (tls_accept (n_kernel s2) fd) as [tls' k]. injection Et as -> <- <-. destruct tls as [tls|].
  - split; [|now exists tls]. exact (establish_tls _ _ _ _ _ _ _ E).
  - do 3 apply bind_Ok in E as (? & ? & ? & _ & E). discriminate E.
Qed.

End Faults.

(** ** A thread on the simulated kernel *)

#[local] Instance record_commands : Conn.Server (list (list bytes)) unit := recorder.
#[local] Instance no_background : Background (list (list bytes)) unit :=
  {| bg_work w j := Some (w, j); bg_done w _ c := Some (w, c) |}.

(** Listeners 3 (plain) and 7 (TLS), the queue 4. *)
Definition opts1 (maxconns : Z) (uring : bool) : qopts := Qopts 4 [3; 0; 7] maxconns true true true 4 uring [4].

Definition start1 (events : list (list Z)) (input : list (Z * bytes)) (fds : list Z) : shared sim (list (list bytes)) unit :=
  Shared (Sim (Sockets {[3; 4; 7]} (<[(4, 3) := READING]> {[(4, 7) := READING]}) ∅ ∅) events input fds) [] ∅ 0 0 0 [] 0.

Lemma start1_ok reversed maxconns uring events input fds :
  @starts _ _ _ (sim_kernel reversed) (sim_ok reversed) (opts1 maxconns uring) [] (start1 events input fds).
Proof.
  assert (Hw : ∀ qfd fd ev, watch (Sockets {[3; 4; 7]} (<[(4, 3) := READING]> {[(4, 7) := READING]}) ∅ ∅) qfd fd = Some ev → fd = 3 ∨ fd = 7).
  { intros qfd fd ev. unfold watch. cbn. intros [[[= _ <-] _]|[_ [[= _ <-] _]%lookup_singleton_Some]]%lookup_insert_Some; auto. }
  split; [reflexivity|]. split.
  - intros qfd fd ev H. apply Hw in H. cbn. set_solver.
  - intros fd ev H. apply Hw in H. cbn. set_solver.
Qed.

Lemma qthread_steps {K W J} `{KernelOk K} `{Conn.Server W J} `{Background W J} rounds fuel :
  ∀ (t : qthreadctx) (s : shared K W J) t' s',
  qthread rounds fuel t s = Ok (tt, t', s') → rtc thread_step (t, s) (t', s').
Proof.
  induction rounds as [|rounds IH]; intros t s t' s'; cbn [qthread]; [intros [= <- <-]; constructor|].
  unfold mbind, net_bind. destruct (qround fuel t s) as [[[[] t1] s1]| | | |] eqn:E; try discriminate. intros Hr.
  eapply rtc_l; [exact (step_round fuel _ _ _ _ E)|]. now apply IH.
Qed.

Definition get_cmd : bytes := resp_command [str "GET"; str "k"].
Definition ping_cmd : bytes := resp_command [str "PING"].

(** Two clients on descriptors 5 and 6, whose packets come in one batch. *)
Definition two_clients : shared sim (list (list bytes)) unit :=
  start1 [[3]; [3]; [5; 6]] [(5, get_cmd); (6, ping_cmd)] [5; 6].

Definition run_sim (reversed : bool) (o : qopts) (rounds : nat) (s : shared sim (list (list bytes)) unit) :=
  qthread (HK := sim_kernel reversed) rounds 10 (thread_start o) s.

(** The commands the server got, and what the client on descriptor 5 was sent. *)
Definition outcome (r : res (unit * qthreadctx * shared sim (list (list bytes)) unit)) : option (list (list bytes) * bytes) :=
  match r with Ok (_, _, s) => Some (n_app s, sent (sm_socks (n_kernel s)) 5) | _ => None end.

Lemma swapped_outcome : outcome (run_sim true (opts1 10 true) 3 two_clients) = Some ([[str "PING"]], []).
Proof. vm_compute. reflexivity. Qed.
Lemma ordered_outcome :
  outcome (run_sim false (opts1 10 false) 3 two_clients) = Some ([[str "GET"; str "k"]; [str "PING"]], str "+OK" ++ crlf).
Proof. vm_compute. reflexivity. Qed.

Lemma net_round_safe_witness :
  ∃ t s, run_sim true (opts1 10 true) 3 two_clients = Ok (tt, t, s) ∧
    (∀ fuel, qround (HK := sim_kernel true) fuel t s ≠ Fault) ∧ (∀ fuel, qround (HK := sim_kernel true) fuel t s ≠ Denied).
Proof.
  pose proof swapped_outcome as Ho.
  destruct (run_sim true (opts1 10 true) 3 two_clients) as [[[[] t] s]| | | |] eqn:E; [|discriminate Ho..].
  exists t, s. split; [reflexivity|].
  destruct (@net_round_safe _ _ _ (sim_kernel true) (sim_ok true) _ _ (opts1 10 true) two_clients t s) as [[H1 _] H2].
  - constructor.
  - apply start1_ok.
  - exact (qthread_steps 3 10 _ _ _ _ E).
  - split; [exact H1|]. apply (H2 (sim_grants true)).
Defined.

Lemma net_refines_sessions_witness :
  ∃ t s m ls, run_sim false (opts1 10 false) 3 two_clients = Ok (tt, t, s) ∧
    session_steps ([], ∅) ls (n_app s, abs (n_heap s) m) ∧ n_app s = [[str "GET"; str "k"]; [str "PING"]] ∧
    sent (sm_socks (n_kernel s)) 5 = str "+OK" ++ crlf.
Proof.
  pose proof ordered_outcome as Ho.
  destruct (run_sim false (opts1 10 false) 3 two_clients) as [[[[] t] s]| | | |] eqn:E; [|discriminate Ho..].
  destruct (@net_refines_sessions _ _ _ (sim_kernel false) (sim_ok false) _ _ (opts1 10 false) two_clients t s) as (m & ls & Hs & _).
  - constructor.
  - reflexivity.
  - apply start1_ok.
  - exact (qthread_steps 3 10 _ _ _ _ E).
  - exists t, s, m, ls. split; [reflexivity|]. split; [exact Hs|].
    clear E. cbn [outcome] in Ho. injection Ho as -> ->. split; reflexivity.
Defined.

Lemma sim_progress reversed : @writes_progress sim (sim_kernel reversed) (λ _ _, 0%nat).
Proof.
  assert (Hs : ∀ data : bytes, data ≠ [] → 0 < size data) by (intros [|]; [easy|unfold size; cbn; lia]).
  intros [] k fd data r k' Hne; cbn; unfold tls_write; cbn; intros [= <- <-]; left; now apply Hs.
Qed.


(** A kernel whose socket buffers are full. *)
Definition full_kernel : Kernel sim :=
  let base := sim_kernel false in {|
  k_evqueue := k_evqueue; k_accept := k_accept; k_getfl := k_getfl; k_setfl := k_setfl; k_setsockopt := k_setsockopt; k_epoll_ctl := k_epoll_ctl;
  k_epoll_wait := k_epoll_wait; k_read := k_read; k_write k _ _ := (Err EAGAIN, k); k_close := k_close;
  k_uring_read := k_uring_read; k_uring_write := k_uring_write; k_usetls := true; k_ssl_new := k_ssl_new;
  k_ssl_accept := k_ssl_accept; k_ssl_read := k_ssl_read; k_ssl_write := k_ssl_write; k_ssl_error := k_ssl_error;
  k_ssl_shutdown := k_ssl_shutdown; k_ssl_free := k_ssl_free |}.


Lemma rejected_tls_mark_stays_witness :
  let s := Shared (J := unit) (n_kernel two_clients) (@nil (list bytes)) ∅ 0 0 0 [6] 0 in
  ∃ s', accept_conn (HK := sim_kernel false) 6 (thread_start (opts1 0 false)) s = Ok (None, thread_start (opts1 0 false), s') ∧ 6 ∈ n_tlsfds s'.
Proof.
  intros s. destruct (rejected_tls_mark_stays (HK := sim_kernel false) 6 (thread_start (opts1 0 false)) s) as (s' & E & Hin & _).
  - constructor.
  - vm_compute. congruence.
  - exists s'. split; [exact E|exact Hin].
Defined.

(** Completions of io_uring are taken for those of another connection. Two
    clients send one command each; where the second read completes first, each
    command gets the length of the other one. The server then sees the command
    of one client cut off and answers it never, although the thread read all of
    its bytes; with completions in the order of the submissions both are answered. *)
Theorem uring_completions_swapped :
  match run_sim false (opts1 10 true) 3 two_clients, run_sim true (opts1 10 true) 3 two_clients with
  | Ok (_, _, s), Ok (_, _, s') =>
      n_app s = [[str "GET"; str "k"]; [str "PING"]] ∧ n_app s' = [[str "PING"]] ∧
      recv (sm_socks (n_kernel s')) 5 = get_cmd ∧ recv (sm_socks (n_kernel s')) 6 = ping_cmd ∧
      sent (sm_socks (n_kernel s')) 5 = []
  | _, _ => False
  end.
Proof. vm_compute. repeat split. Qed.

Lemma net_main_starts_witness :
  let k := Sim (Sockets {[3]} ∅ ∅ ∅) [] [] [4; 5] in
  ∃ qs k', net_main (HK := sim_kernel false) (NetOpts 2 10 true true true 64 false) [3; 0; 0] k = Some (qs, k') ∧ length qs = 2%nat.
Proof.
  intros k. destruct (net_main (HK := sim_kernel false) (NetOpts 2 10 true true true 64 false) [3; 0; 0] k) as [[qs k']|] eqn:E;
    [|vm_compute in E; discriminate E]. exists qs, k'. split; [reflexivity|].
  refine (proj1 (@net_main_starts _ (list (list bytes)) unit (sim_kernel false) (sim_ok false) (NetOpts 2 10 true true true 64 false) [3; 0; 0] k qs k' _ _ E)).
  - reflexivity.
  - apply Forall_cons. split; [right; cbn; set_solver|]. repeat (apply Forall_cons; split; [now left|]). constructor.
Defined.
