(* ===== verification/Clients.v ===== *)
(** * Clients: many clients share one key-value store

    The sessions of [NetSpec.v] over the real server: the requests of all clients
    are executed one after the other on the store of [Kv.v], and every client gets
    the replies to its own requests. With the refinement of [NetClaims.v] this
    holds of the network thread, down to the bytes on the sockets. *)

From S2P Require Import Prelude Util Context Entry Heap Map MapInv MapSpec Shard ShardInv ShardSpec ShardOps ShardStore.
From S2P Require Import Samples ShardTheorems Cache Locks CacheInv CacheOps CacheTheorems.
From S2P Require Import Resp RespProofs Memcache Http Parse Conn ConnProofs Cmds CmdTable CmdFrame Server.
From S2P Require Import Postgres Debug Kv KvRel KvCmds KvBatch KvServer Cmap Net NetSpec NetProofs NetRound NetClaims.

#[local] Opaque th64 hash24 encode entry_memsize.

(** ** Streams *)

Lemma sendable_prefix_free a b x y :
  sendable a → sendable b → resp_command a ++ x = resp_command b ++ y → a = b ∧ x = y.
Proof.
  intros (_ & Ha1 & Ha2) (_ & Hb1 & Hb2) E.
  pose proof (parse_resp_whole a x Ha1 Ha2) as Pa. rewrite E, (parse_resp_whole b y Hb1 Hb2) in Pa. injection Pa as _ ->.
  split; [reflexivity|]. now apply app_inv_head in E.
Qed.

(** A stream that starts with other commands starts with these. *)
Lemma stream_prefix cmds : ∀ cmds' x,
  Forall sendable cmds → Forall sendable cmds' → stream cmds ++ x = stream cmds' →
  ∃ rest, cmds' = cmds ++ rest ∧ x = stream rest.
Proof.
  induction cmds as [|a cmds IH]; intros cmds' x Hs Hs' E; [now exists cmds'|].
  apply Forall_cons in Hs as [Ha Hs]. change (stream (a :: cmds)) with (resp_command a ++ stream cmds) in E.
  destruct cmds' as [|b cmds'].
  { destruct (resp_command_head a) as [_ Hne]. now destruct (resp_command a). }
  apply Forall_cons in Hs' as [Hb Hs']. change (stream (b :: cmds')) with (resp_command b ++ stream cmds') in E.
  rewrite <- (assoc_L (++)) in E. destruct (sendable_prefix_free _ _ _ _ Ha Hb E) as [-> E2].
  destruct (IH cmds' x Hs Hs' E2) as (rest & -> & ->). now exists rest.
Qed.

Lemma stream_app a b : stream (a ++ b) = stream a ++ stream b.
Proof. unfold stream. now rewrite fmap_app, concat_app. Qed.

(** ** The store *)

Lemma advance_app rs1 rs2 clock : advance (rs1 ++ rs2) clock = advance rs2 (advance rs1 clock).
Proof. apply foldl_app. Qed.

Lemma kv_run_app rs1 : ∀ mems1 mems2 clock rs2 m, length mems1 = length rs1 →
  kv_run (mems1 ++ mems2) clock (rs1 ++ rs2) m =
    ((kv_run mems1 clock rs1 m).1 ++ (kv_run mems2 (advance rs1 clock) rs2 (kv_run mems1 clock rs1 m).2).1,
     (kv_run mems2 (advance rs1 clock) rs2 (kv_run mems1 clock rs1 m).2).2).
Proof.
  induction rs1 as [|r rs1 IH]; intros [|mem mems1] mems2 clock rs2 m Hl; try discriminate Hl.
  { cbn. now destruct (kv_run mems2 clock rs2 m). }
  cbn [Datatypes.app kv_run]. destruct (kv_step mem clock r m) as [a m1].
  rewrite (IH mems1 mems2 _ rs2 m1) by (cbn in Hl; lia).
  change (advance (r :: rs1) clock) with (advance rs1 (λ i, clock (kv_ticks r + i)%nat)).
  destruct (kv_run mems1 _ rs1 m1) as [l m2]. cbn [fst snd]. now destruct (kv_run mems2 _ rs2 m2).
Qed.

Lemma kv_run_length rs : ∀ mems clock m, length mems = length rs → length (kv_run mems clock rs m).1 = length rs.
Proof.
  induction rs as [|r rs IH]; intros [|mem mems] clock m Hl; try discriminate Hl; [reflexivity|]. cbn [kv_run].
  destruct (kv_step mem clock r m) as [a m1]. specialize (IH mems (λ i, clock (kv_ticks r + i)%nat) m1 ltac:(cbn in Hl; lia)).
  destruct (kv_run mems _ rs m1). cbn in *. lia.
Qed.

(** ** What the server did *)

(** A client connects, or a request of it is answered. *)
Inductive op := Start (fd : Z) | Did (fd : Z) (r : request) (a : answer).

(** What was done for the connection that is on a descriptor now. *)
Definition mine (fd : Z) (log : list op) : list (request * answer) :=
  foldl (λ acc x, match x with
    | Start fd' => if decide (fd' = fd) then [] else acc
    | Did fd' r a => if decide (fd' = fd) then acc ++ [(r, a)] else acc
    end) [] log.

Definition done (log : list op) : list (request * answer) :=
  omap (λ x, match x with Did _ r a => Some (r, a) | Start _ => None end) log.

Definition did (fd : Z) (l : list (request * answer)) : list op := (λ x, Did fd x.1 x.2) <$> l.

Lemma mine_start fd fd' log : mine fd (log ++ [Start fd']) = if decide (fd' = fd) then [] else mine fd log.
Proof. unfold mine. now rewrite foldl_app. Qed.

Lemma mine_did fd fd' l log : mine fd (log ++ did fd' l) = if decide (fd' = fd) then mine fd log ++ l else mine fd log.
Proof.
  induction l as [|[r a] l IH] using rev_ind; [cbn; rewrite !app_nil_r; now destruct (decide _)|].
  unfold did in *. rewrite fmap_app, (assoc_L (++)). unfold mine in *. rewrite foldl_app. cbn [foldl fmap list_fmap fst snd].
  rewrite IH. destruct (decide (fd' = fd)); [now rewrite (assoc_L (++))|reflexivity].
Qed.

Lemma done_did fd l log : done (log ++ did fd l) = done log ++ l.
Proof.
  unfold done, did. rewrite omap_app. f_equal. induction l as [|[r a] l IH]; [reflexivity|]. cbn. now f_equal.
Qed.

Lemma done_start fd log : done (log ++ [Start fd]) = done log.
Proof. unfold done. rewrite omap_app. apply app_nil_r. Qed.

(** ** Clients that speak Redis *)

Section Clients.
Context `{Env} `{!EnvOk _} (K : gset bytes) (B : nat) (cfg : config) (nprocs : Z) (rand : Z → Z) (proc : Debug.process).
Context (Hcfg : 0 < g_thbatch cfg < UINTPTR_MAX) (Hauth : g_useauth cfg = false).
Context (version : bytes).
Context {HB : Background server job}.

#[local] Instance pogocache : Conn.Server server job := full_server cfg nprocs rand proc version.
#[local] Instance pogocache_ok : ServerOk server job := full_server_ok cfg nprocs rand proc version.

(** The start of a stream of requests. *)
Definition starts_stream (b : bytes) : Prop :=
  ∃ rs d, Forall (request_ok K) rs ∧ b ++ d = stream (request_args <$> rs).
Abbreviation speaks := (all_said starts_stream).

(** A part of a command, not all of it. *)
Definition partial (part : bytes) : Prop :=
  ∃ next k, sendable next ∧ (k < length (resp_command next))%nat ∧ part = take k (resp_command next).

(** The connection of a client: every request that arrived as a whole was answered. *)
Record client (fd : Z) (ls : list label) (l : list (request * answer)) (c : conn job) : Prop := {
  cl_conn : resp_conn c;
  cl_ins : ins (since fd ls) = stream (request_args <$> l.*1) ++ c_packet c;
  cl_part : partial (c_packet c);
  cl_outs : outs (since fd ls) ++ c_out c = concat (reply_bytes <$> l.*2);
  cl_ok : Forall (request_ok K) l.*1
}.

(** A packet answers the requests it completes. *)
Lemma client_data s t m fd ls l c pkt s' c' rs d :
  serves K B s t m → client fd ls l c → Forall (request_ok K) rs →
  ins (since fd ls) ++ pkt ++ d = stream (request_args <$> rs) → c_out c = [] → evdata s c pkt = Some (s', c') →
  ∃ new mems t', length mems = length new ∧ (memory_for B → Forall (eq true) mems) ∧
    (kv_run mems (s_clock s) new.*1 m).1 = new.*2 ∧ serves K B s' t' (kv_run mems (s_clock s) new.*1 m).2 ∧
    s_clock s' = advance new.*1 (s_clock s) ∧ client fd (ls ++ [Data fd pkt]) (l ++ new) c'.
Proof.
  intros Hs [Hc Hi Hp Ho Hok] Hrs Hst Hout E. rewrite Hi, <- !(assoc_L (++)) in Hst.
  destruct (stream_prefix _ _ _ (request_sendable K _ Hok) (request_sendable K _ Hrs) Hst) as (rest & Er & Hst2).
  apply fmap_app_inv in Er as (rs1 & rs2 & Er1 & -> & ->). apply Forall_app in Hrs as [_ Hrs2].
  rewrite (assoc_L (++)) in Hst2. destruct (split_stream _ _ _ Hst2) as (cmds1 & cmds2 & k & Ec & Hk & H1 & H2).
  apply fmap_app_inv in Ec as (r1 & r2 & -> & -> & ->). apply Forall_app in Hrs2 as [Hr1 Hr2].
  destruct (session_run K B cfg (cmdDEBUG nprocs rand) (cmdSTATS proc) Hcfg version (parse_postgres (g_auth cfg)) r1 s t m c Hs Hc (or_introl Hauth) Hr1)
    as (mems & s1 & c1 & t' & Hl & Hm & Erun & Hbg & Ho1 & Hs1 & Hcl & Hc1 & _).
  pose proof (request_sendable K _ Hr2) as Hs2.
  pose proof (@evdata_stream _ _ pogocache pogocache_ok s c (request_args <$> r1) (next_command (request_args <$> r2)) k pkt
    (Forall_cons_2 _ _ _ (next_sendable _ Hs2) (request_sendable K _ Hr1)) Hbg Hc Hk H1) as Hev.
  match type of Hev with match ?x with _ => _ end => replace x with (Some (s1, c1)) in Hev by (symmetry; exact Erun) end.
  destruct Hev as (c2 & E2 & Hsame & Hopen). rewrite E2 in E. injection E as <- <-.
  destruct (Hopen (rc_closed _ Hc1)) as [Hc2 Hp2]. set (ans := (kv_run mems (s_clock s) r1 m).1) in *.
  assert (Hla : length ans = length r1) by now apply kv_run_length.
  assert (E1 : (zip r1 ans).*1 = r1) by (apply fst_zip; lia). assert (E3 : (zip r1 ans).*2 = ans) by (apply snd_zip; lia).
  exists (zip r1 ans), mems, t'. rewrite E1, E3. split; [rewrite length_zip; lia|]. split; [exact Hm|]. split; [reflexivity|].
  split; [exact Hs1|]. split; [exact Hcl|].
  assert (Hsince : since fd (ls ++ [Data fd pkt]) = since fd ls ++ [Data fd pkt]) by (rewrite since_snoc; now rewrite decide_True).
  split; [exact Hc2| | | |].
  - rewrite Hsince, ins_app, ins_data, Hi, fmap_app, E1, fmap_app, stream_app, Hp2, <- !(assoc_L (++)). f_equal. exact H1.
  - rewrite Hp2. exists (next_command (request_args <$> r2)), k. split; [now apply next_sendable|easy].
  - rewrite Hsince, outs_app. change (outs [Data fd pkt]) with (@nil Z). rewrite app_nil_r, fmap_app, E3, fmap_app, concat_app.
    replace (c_out c2) with (c_out c1) by (symmetry; exact (f_equal c_out Hsame)). rewrite Ho1, Hout in *. rewrite app_nil_r in Ho. now rewrite Ho.
  - rewrite fmap_app, E1. now apply Forall_app.
Qed.

(** A connection whose write failed is closed; any other is the one of a client. *)
Definition served (ls : list label) (log : list op) (fd : Z) (c : conn job) : Prop :=
  c_bg c = None ∧
  (broken (since fd ls) ∧ c_closed c = true ∨ ¬ broken (since fd ls) ∧ client fd ls (mine fd log) c).

(** All requests, in the order of the log, on one store. *)
Record shared_store (clock : nat → Z) (m : kv) (s : server) (log : list op) (mems : list bool) (t : Z) : Prop := {
  ss_mems : length mems = length (done log);
  ss_memory : memory_for B → Forall (eq true) mems;
  ss_answers : (kv_run mems clock (done log).*1 m).1 = (done log).*2;
  ss_serves : serves K B s t (kv_run mems clock (done log).*1 m).2;
  ss_clock : s_clock s = advance (done log).*1 clock
}.

Lemma shared_store_more clock m s log mems t s' fd new mems' t' :
  shared_store clock m s log mems t →
  length mems' = length new → (memory_for B → Forall (eq true) mems') →
  (kv_run mems' (s_clock s) new.*1 (kv_run mems clock (done log).*1 m).2).1 = new.*2 →
  serves K B s' t' (kv_run mems' (s_clock s) new.*1 (kv_run mems clock (done log).*1 m).2).2 →
  s_clock s' = advance new.*1 (s_clock s) →
  shared_store clock m s' (log ++ did fd new) (mems ++ mems') t'.
Proof.
  intros [E1 E2 E3 E4 E5] F1 F2 F3 F4 F5.
  assert (Hl : length mems = length (done log).*1) by now rewrite length_fmap.
  split; rewrite ?done_did, ?fmap_app, ?(kv_run_app _ _ _ _ _ _ Hl), <- ?E5; cbn [fst snd].
  - rewrite !length_app. lia.
  - intros HM. apply Forall_app. auto.
  - now rewrite E3, F3.
  - exact F4.
  - rewrite F5, E5. symmetry. apply advance_app.
Qed.

Lemma evdata_closed (s : server) (c : conn job) pkt : c_closed c = true → evdata s c pkt = Some (s, conn_close c).
Proof. unfold evdata. now intros ->. Qed.

(** A label of another connection. *)
Lemma served_other ls log fd c l :
  label_fd l ≠ fd → served ls log fd c → served (ls ++ [l]) log fd c.
Proof.
  intros Hne [Hbg Hs]. assert (E : since fd (ls ++ [l]) = since fd ls) by now rewrite since_snoc, decide_False.
  split; [exact Hbg|]. rewrite E. destruct Hs as [?|[Hb [H1 H2 H3 H4 H5]]]; [now left|right]. split; [exact Hb|].
  split; rewrite ?E; assumption.
Qed.

Lemma served_log ls log log' fd c : mine fd log' = mine fd log → served ls log fd c → served ls log' fd c.
Proof. intros E [Hbg Hs]. split; [exact Hbg|]. now rewrite E. Qed.

Lemma since_own ls l : (match l with Opened _ _ => False | _ => True end) → since (label_fd l) (ls ++ [l]) = since (label_fd l) ls ++ [l].
Proof. intros Hl. rewrite since_snoc, decide_True by reflexivity. now destruct l. Qed.

Lemma broken_snoc_inv ls l : broken (ls ++ [l]) → broken ls ∨ ∃ fd, l = Broken fd.
Proof. intros [fd [?|?%list_elem_of_singleton]%elem_of_app]; [left; now exists fd|right; eauto]. Qed.

Lemma speaks_prefix ls l : speaks (ls ++ l) → speaks ls.
Proof. intros Hs ls' fd Hp. apply Hs. now apply prefix_app_r. Qed.

(** A new client. *)
Lemma served_opened ls log fd tls : served (ls ++ [Opened fd tls]) (log ++ [Start fd]) fd (conn_open tls).
Proof.
  assert (E : since fd (ls ++ [Opened fd tls]) = []) by (rewrite since_snoc; now rewrite decide_True).
  split; [reflexivity|]. right. rewrite E, mine_start, decide_True by reflexivity. split; [now intros [? ?%not_elem_of_nil]|].
  split; rewrite ?E; try easy.
  - split; [reflexivity|reflexivity|now left].
  - exists [[65]], 0%nat. split; [exact (next_sendable [] (Forall_nil_2 _))|]. split; [vm_compute; lia|reflexivity].
Qed.

(** The output of a client is sent. *)
Lemma served_sent ls log fd c : served ls log fd c → served (ls ++ [Sent fd (c_out c)]) log fd (set_out c []).
Proof.
  intros [Hbg Hs]. pose proof (since_own ls (Sent fd (c_out c)) I) as E. cbn in E. split; [exact Hbg|]. rewrite E.
  destruct Hs as [[Hb Hcl]|[Hb [H1 H2 H3 H4 H5]]]; [left; split; [now apply broken_app_l|exact Hcl]|right].
  split; [intros [?|[? [=]]]%broken_snoc_inv; contradiction|]. split; rewrite ?E, ?ins_app, ?outs_app.
  - destruct H1. now split.
  - change (ins [Sent fd (c_out c)]) with (@nil Z). now rewrite app_nil_r.
  - exact H3.
  - cbn [c_out set_out]. rewrite app_nil_r. replace (outs [Sent fd (c_out c)]) with (c_out c) by (unfold outs; cbn; now rewrite app_nil_r). exact H4.
  - exact H5.
Qed.

Lemma served_broken ls log fd c : c_bg c = None → served (ls ++ [Broken fd]) log fd (set_out (conn_close c) []).
Proof.
  intros Hbg. pose proof (since_own ls (Broken fd) I) as E. cbn in E. split; [exact Hbg|]. left. rewrite E. split; [apply broken_snoc|reflexivity].
Qed.

(** One connection has changed. *)
Lemma served_insert ls log log' l fd c (C : gmap Z (conn job)) :
  (∀ fd' c', C !! fd' = Some c' → served ls log fd' c') → label_fd l = fd →
  (∀ fd', fd' ≠ fd → mine fd' log' = mine fd' log) → served (ls ++ [l]) log' fd c →
  ∀ fd' c', <[fd := c]> C !! fd' = Some c' → served (ls ++ [l]) log' fd' c'.
Proof.
  intros Hall Hl Hlog Hs fd' c' [(<- & <-)|(Hne & Hc')]%lookup_insert_Some; [exact Hs|].
  apply served_other; [congruence|]. apply (served_log _ log); [apply Hlog; congruence|]. now apply Hall.
Qed.

(** A packet for a client, or for a connection that is closed. *)
Lemma served_data s t m ls log clock mems fd c pkt s' c' :
  shared_store clock m s log mems t → served ls log fd c → speaks (ls ++ [Data fd pkt]) → c_out c = [] →
  evdata s c pkt = Some (s', c') →
  ∃ new mems' t', shared_store clock m s' (log ++ did fd new) (mems ++ mems') t' ∧
    served (ls ++ [Data fd pkt]) (log ++ did fd new) fd c'.
Proof.
  intros Hst [Hbg Hs] Hsp Hout E. pose proof (since_own ls (Data fd pkt) I) as Es. cbn [label_fd] in Es. destruct Hs as [[Hb Hcl]|[Hb Hc]].
  - exists [], [], t. unfold did. cbn [fmap list_fmap]. rewrite !app_nil_r. rewrite (evdata_closed _ _ _ Hcl) in E. injection E as <- <-.
    split; [exact Hst|]. split; [exact Hbg|]. left. rewrite Es. split; [now apply broken_app_l|reflexivity].
  - assert (Hb' : ¬ broken (since fd (ls ++ [Data fd pkt]))) by (rewrite Es; intros [?|[? [=]]]%broken_snoc_inv; contradiction).
    destruct (Hsp (ls ++ [Data fd pkt]) fd (reflexivity _) Hb') as (rs & d & Hrs & Hd). rewrite Es, ins_app, ins_data, <- (assoc_L (++)) in Hd.
    destruct (client_data s t _ fd ls (mine fd log) c pkt s' c' rs d (ss_serves _ _ _ _ _ _ Hst) Hc Hrs Hd Hout E)
      as (new & mems' & t' & Hl & Hm & Ha & Hs' & Hclk & Hc').
    exists new, mems', t'. split; [now apply (shared_store_more _ _ s _ _ t)|]. split; [apply (rc_bg _ (cl_conn _ _ _ _ Hc'))|]. right.
    rewrite mine_did, decide_True by reflexivity. split; [exact Hb'|exact Hc'].
Qed.

Lemma sessions_served s0 t0 m0 ls x :
  serves K B s0 t0 m0 → session_steps (s0, ∅) ls x → speaks ls →
  ∃ log mems t, shared_store (s_clock s0) m0 x.1 log mems t ∧ ∀ fd c, x.2 !! fd = Some c → served ls log fd c.
Proof.
  intros Hs0 Hsteps. remember (s0, ∅) as x0 eqn:E0. induction Hsteps as [x|x ls y l z Hsteps IH Hstep]; intros Hsp; subst.
  { exists [], [], t0. split; [|intros fd c; cbn; now rewrite lookup_empty]. now split. }
  destruct (IH eq_refl (speaks_prefix _ _ Hsp)) as (log & mems & t & Hst & Hall). clear IH Hsteps.
  destruct Hstep as [w C fd tls Hfd|w C fd c j w' j' Hfd Hbg Ew|w C fd c j w' c' Hfd Hbg Ew|w C fd c pkt w' c' Hfd Hbg Hout Ew|w C fd c Hfd Hbg|w C fd c Hfd Hbg|w C fd c Hfd Hbg Hout]; cbn [fst snd] in *.
  - exists (log ++ [Start fd]), mems, t. split; [destruct Hst; split; rewrite ?done_start; assumption|].
    apply (served_insert _ log); [exact Hall|reflexivity| |apply served_opened]. intros fd' Hne. now rewrite mine_start, decide_False.
  - destruct (Hall _ _ Hfd). congruence.
  - destruct (Hall _ _ Hfd). congruence.
  - destruct (served_data _ _ _ _ _ _ _ _ _ _ _ _ Hst (Hall _ _ Hfd) Hsp Hout Ew) as (new & mems' & t' & Hst' & Hs').
    exists (log ++ did fd new), (mems ++ mems'), t'. split; [exact Hst'|].
    apply (served_insert _ log); [exact Hall|reflexivity| |exact Hs']. intros fd' Hne. now rewrite mine_did, decide_False.
  - exists log, mems, t. split; [exact Hst|]. apply (served_insert _ log); [exact Hall|reflexivity|easy|]. now apply served_sent, Hall.
  - exists log, mems, t. split; [exact Hst|]. apply (served_insert _ log); [exact Hall|reflexivity|easy|]. now apply served_broken.
  - exists log, mems, t. split; [exact Hst|]. intros fd' c' [Hne Hc']%lookup_delete_Some. apply served_other; [cbn; congruence|]. now apply Hall.
Qed.


End Clients.

(** ** Two clients *)

#[local] Instance no_work : Background server job := {| bg_work w j := Some (w, j); bg_done w _ c := Some (w, c) |}.

(** Clients that send PING, on a thread with the listener 3 and the queue 4. *)
Definition ping_packet : bytes := resp_command (request_args (Ping None)).
Definition opts4 : qopts := Qopts 4 [3; 0; 0] 10 true true true 4 false [4].
Definition start4 : shared pinger server job :=
  Shared (Pinger (Sim (Sockets {[3; 4]} {[(4, 3) := READING]} ∅ ∅) [[3]; [3]; [5; 6]; [5]] [] [5; 6]) ∅) server3 ∅ 0 0 0 [] 0.

Lemma start4_ok : @starts _ _ _ (pi_kernel ping_packet) (pi_ok ping_packet) opts4 server3 start4.
Proof.
  assert (Hw : ∀ qfd fd ev, so_watch (sm_socks (pi_sim (n_kernel start4))) !! (qfd, fd) = Some ev → fd = 3).
  { intros qfd fd ev. cbn. now intros [[= _ <-] _]%lookup_singleton_Some. }
  split; [reflexivity|]. split.
  - intros qfd fd ev E. unfold watch in E. cbn in E. rewrite (Hw _ _ _ E). cbn. set_solver.
  - intros fd ev E. unfold watch in E. cbn in E. rewrite (Hw _ _ _ E). constructor.
Qed.

Lemma ping_speaks : @peers_send pinger (pi_kernel ping_packet) (pi_ok ping_packet) (starts_stream keys3).
Proof.
  split.
  - intros a b (rs & d & Hrs & E). exists rs, (b ++ d). split; [exact Hrs|]. now rewrite (assoc_L (++)).
  - intros k fd. cbn [socks pi_ok]. rewrite pi_recv. set (n := default 0%nat _). exists (replicate n (Ping None)), []. split.
    + apply Forall_replicate. split; [constructor|]. split; [vm_compute; congruence|]. split; [|exact I].
      repeat constructor; vm_compute; congruence.
    + rewrite app_nil_r. unfold packets, stream. f_equal. now rewrite !fmap_replicate.
Qed.

Definition run4 : res (unit * qthreadctx * shared pinger server job) :=
  let HS := full_server config0 4 (λ _, 0) process0 [] in
  qthread (HK := pi_kernel ping_packet) (HS := HS) 4 10 (thread_start opts4) start4.

(** What each of the two clients was sent. *)
Lemma run4_sent :
  match run4 with
  | Ok (_, _, s) => sent (sm_socks (pi_sim (n_kernel s))) 5 = str "+PONG" ++ crlf ++ str "+PONG" ++ crlf ∧
      sent (sm_socks (pi_sim (n_kernel s))) 6 = str "+PONG" ++ crlf
  | _ => False
  end.
Proof. vm_compute. split; reflexivity. Qed.

