(* ===== verification/NetLimit.v ===== *)
(** * NetLimit: the limit of connections

    Many network threads count connections in one atomic counter of
    [src/src/net.c]: [qaccept] adds one and looks at the value before, takes it
    back where the limit is reached or TLS fails, and [qclose] takes one away.
    Between these steps the threads interleave in any way. *)

From S2P Require Import Prelude Util Net.

(** How far a descriptor has come: counted, with the value that
    [atomic_fetch_add] returned; counted among the rejected; a connection. *)
Inductive phase := Counted (xnconns : Z) | Rejecting | Established.

#[export] Instance phase_eq_dec : EqDecision phase.
Proof. solve_decision. Defined.

(** [nconns] and the descriptors that are counted in it. *)
Record limiter := Limiter { lm_nconns : Z; lm_phases : gmap Z phase }.

Section Limit.
Context (maxconns : Z).
Let max : Z := u64 maxconns.

(** The atomic steps of [qaccept] and [qclose]. A descriptor is known by its number
    as long as it is counted: closing it and taking it off the counter are one
    step, so that the kernel does not give the number out again in between. *)
Inductive limit_step : limiter → limiter → Prop :=
  | step_count n ph fd : 0 <= fd < 2 ^ 31 → ph !! fd = None →
      limit_step (Limiter n ph) (Limiter (u64 (n + 1)) (<[fd := Counted n]> ph))
  | step_reject n ph fd x : ph !! fd = Some (Counted x) → max <= x →
      limit_step (Limiter n ph) (Limiter n (<[fd := Rejecting]> ph))
  | step_rejected n ph fd : ph !! fd = Some Rejecting →
      limit_step (Limiter n ph) (Limiter (u64 (n - 1)) (delete fd ph))
  | step_tls_failed n ph fd x : ph !! fd = Some (Counted x) → x < max →
      limit_step (Limiter n ph) (Limiter (u64 (n - 1)) (delete fd ph))
  | step_establish n ph fd x : ph !! fd = Some (Counted x) → x < max →
      limit_step (Limiter n ph) (Limiter n (<[fd := Established]> ph))
  | step_close n ph fd : ph !! fd = Some Established →
      limit_step (Limiter n ph) (Limiter (u64 (n - 1)) (delete fd ph)).

(** Descriptors that are connections, or will be unless TLS fails. *)
Definition admitted (p : phase) : Prop := p = Established ∨ ∃ x, p = Counted x ∧ x < max.
#[local] Instance admitted_dec p : Decision (admitted p).
Proof.
  destruct p as [x| |].
  - destruct (decide (x < max)) as [Hx|Hx]; [left; right; eauto|right; intros [?|(y & [= <-] & ?)]; [discriminate|contradiction]].
  - right. intros [?|(y & ? & _)]; discriminate.
  - left. now left.
Defined.

Definition admitted_in (ph : gmap Z phase) : gmap Z phase := filter (λ x, admitted x.2) ph.

Record limit_inv (l : limiter) : Prop := {
  li_count : lm_nconns l = Z.of_nat (base.size (lm_phases l));
  li_fds : ∀ fd p, lm_phases l !! fd = Some p → 0 <= fd < 2 ^ 31;
  li_limit : Z.of_nat (base.size (admitted_in (lm_phases l))) <= max
}.

Lemma fds_bound (ph : gmap Z phase) :
  (∀ fd p, ph !! fd = Some p → 0 <= fd < 2 ^ 31) → Z.of_nat (base.size ph) <= 2 ^ 31.
Proof.
  intros Hfd. rewrite <- size_dom. assert (Hsub : dom ph ⊆ list_to_set (C := gset Z) (seqZ 0 (2 ^ 31))).
  { intros fd [p Hp]%elem_of_dom. apply elem_of_list_to_set, elem_of_seqZ. apply Hfd in Hp. lia. }
  apply subseteq_size in Hsub. rewrite size_list_to_set in Hsub by apply NoDup_seqZ. rewrite length_seqZ in Hsub. lia.
Qed.

Lemma size_delete_1 {A} (m : gmap Z A) k x : m !! k = Some x → Z.of_nat (base.size (delete k m)) = Z.of_nat (base.size m) - 1.
Proof.
  intros Hk. rewrite map_size_delete_Some by eauto.
  assert (base.size m ≠ 0)%nat by (intros ?%map_size_empty_inv; subst; now rewrite lookup_empty in Hk). lia.
Qed.

(** A descriptor changes from one phase to another that is not admitted anew. *)
Lemma admitted_mono ph fd p p' :
  ph !! fd = Some p → (admitted p' → admitted p) →
  (base.size (admitted_in (<[fd := p']> ph)) <= base.size (admitted_in ph))%nat.
Proof.
  intros Hp Himp. unfold admitted_in. destruct (decide (admitted p')) as [Hy|Hn].
  - rewrite map_filter_insert_True by exact Hy. rewrite map_size_insert_Some; [reflexivity|].
    exists p. apply map_lookup_filter_Some. auto.
  - rewrite map_filter_insert_False by exact Hn. apply map_subseteq_size. rewrite map_filter_delete. apply delete_subseteq.
Qed.

Lemma admitted_delete ph fd : (base.size (admitted_in (delete fd ph)) <= base.size (admitted_in ph))%nat.
Proof. unfold admitted_in. rewrite map_filter_delete. apply map_subseteq_size, delete_subseteq. Qed.

(** Every step keeps the invariant. *)
Lemma limit_inv_step l l' : limit_inv l → limit_step l l' → limit_inv l'.
Proof.
  intros [Hn Hfd Hl] Hs. pose proof (fds_bound _ Hfd) as Hb. cbn in *.
  assert (Hdel : ∀ fd p, lm_phases l !! fd = Some p → limit_inv (Limiter (u64 (lm_nconns l - 1)) (delete fd (lm_phases l)))).
  { intros fd p Hp. pose proof (size_delete_1 _ _ _ Hp) as Hd. split; cbn.
    - rewrite Hn, Hd. unfold u64. rewrite Z.mod_small; lia.
    - intros fd' p' [_ Hp']%lookup_delete_Some. eauto.
    - pose proof (admitted_delete (lm_phases l) fd). lia. }
  assert (Hset : ∀ fd p p', lm_phases l !! fd = Some p → (admitted p' → admitted p) → limit_inv (Limiter (lm_nconns l) (<[fd := p']> (lm_phases l)))).
  { intros fd p p' Hp Himp. split; cbn.
    - rewrite map_size_insert_Some by eauto. exact Hn.
    - intros fd' x [(<- & _)|(_ & ?)]%lookup_insert_Some; eauto.
    - pose proof (admitted_mono _ _ _ _ Hp Himp). lia. }
  destruct Hs as [n ph fd Hr Hfree|n ph fd x Hx Hm|n ph fd Hx|n ph fd x Hx Hm|n ph fd x Hx Hm|n ph fd Hx]; cbn in *; eauto.
  - split; cbn.
    + rewrite map_size_insert_None by exact Hfree. unfold u64. rewrite Z.mod_small; lia.
    + intros fd' x [(<- & _)|(_ & ?)]%lookup_insert_Some; eauto.
    + unfold admitted_in. destruct (decide (admitted (Counted n))) as [Hy|Hno].
      * rewrite map_filter_insert_True by exact Hy. destruct Hy as [?|(y & [= <-] & Hlt)]; [discriminate|].
        rewrite map_size_insert_None; [|apply map_lookup_filter_None; now left].
        assert (base.size (filter (λ x, admitted x.2) ph) <= base.size ph)%nat by apply map_subseteq_size, map_filter_subseteq. lia.
      * rewrite map_filter_insert_False by exact Hno. pose proof (admitted_delete ph fd) as Hd. unfold admitted_in in *. lia.
  - apply (Hset _ _ _ Hx). intros [?|(y & ? & _)]; discriminate.
  - apply (Hset _ _ _ Hx). intros _. right. eauto.
Qed.

Lemma limit_reach l : rtc limit_step (Limiter 0 ∅) l → limit_inv l.
Proof.
  intros Hr. apply (rtc_ind_r limit_inv (Limiter 0 ∅)) in Hr; [exact Hr| |].
  - split; cbn; [reflexivity|set_solver|]. unfold admitted_in. rewrite map_filter_empty, map_size_empty. unfold max, u64. dm.
  - intros y z _ Hz Hy. exact (limit_inv_step _ _ Hy Hz).
Qed.

(** C21: The limit of connections holds, however the threads interleave. The counter is
    the number of descriptors that were counted and not taken back, it never wraps
    around, and there are never more connections than [maxconns], although a
    thread looks at the limit only after it has counted. *)
Theorem maxconns_respected l :
  rtc limit_step (Limiter 0 ∅) l →
  lm_nconns l = Z.of_nat (base.size (lm_phases l)) ∧
  Z.of_nat (base.size (filter (λ x, x.2 = Established) (lm_phases l))) <= max.
Proof.
  intros Hr. destruct (limit_reach l Hr) as [Hn _ Hl]. split; [exact Hn|]. etransitivity; [|exact Hl].
  apply Nat2Z.inj_le, map_subseteq_size, map_filter_subseteq_ext. intros fd p _ Hp. now left.
Qed.

End Limit.

(** Two descriptors are counted while the limit is one. *)
Lemma maxconns_respected_witness :
  let l := Limiter 2 {[5 := Established; 6 := Rejecting]} in
  lm_nconns l = Z.of_nat (base.size (lm_phases l)) ∧
  Z.of_nat (base.size (filter (λ x, x.2 = Established) (lm_phases l))) <= u64 1.
Proof.
  intros l. apply (maxconns_respected 1 l).
  apply (rtc_l _ _ (Limiter (u64 (0 + 1)) (<[5 := Counted 0]> ∅))); [now apply step_count|].
  apply (rtc_l _ _ (Limiter (u64 (1 + 1)) (<[6 := Counted 1]> (<[5 := Counted 0]> ∅)))); [now apply step_count|].
  apply (rtc_l _ _ (Limiter 2 (<[5 := Established]> (<[6 := Counted 1]> (<[5 := Counted 0]> ∅))))); [now apply (step_establish 1 _ _ _ 0)|].
  apply (rtc_l _ _ l); [|constructor]. unfold l.
  replace ({[5 := Established; 6 := Rejecting]} : gmap Z phase) with (<[6 := Rejecting]> (<[5 := Established]> (<[6 := Counted 1]> (<[5 := Counted 0]> (∅ : gmap Z phase)))))
    by (vm_compute; reflexivity).
  now apply (step_reject 1 _ _ _ 1).
Defined.
