(* ===== verification/NetOut.v ===== *)
(** * NetOut: the output buffer of a connection, and the counters

    [net_conn_out_ensure] and the functions of [src/src/net.c] that write to the
    buffer, in memory, with the writers of [src/src/conn.c] that use it directly.
    They implement the output of [Conn.v], which is a list of bytes. And the
    counters that travel from connections over threads to the process. *)

From S2P Require Import Prelude Util Resp RespProofs Memcache Http Parse Conn.

(** ** The buffer *)

(** [out], its memory of [outcap] bytes, and [outlen]. *)
Record outbuf := Outbuf { ob_mem : bytes; ob_len : Z }.

Definition ob_cap (b : outbuf) : Z := size (ob_mem b).
Definition ob_new : outbuf := Outbuf [] 0.

Section Out.
(** What the allocator leaves in fresh memory. *)
Context (junk : nat → bytes).

(** [while (cap-conn->outlen < amount) cap *= 2], with [size_t] arithmetic. *)
Fixpoint grow_out (fuel : nat) (cap len amount : Z) : option Z :=
  if u64 (cap - len) <? amount then
    match fuel with O => None | S fuel => grow_out fuel (u64 (cap * 2)) len amount end
  else Some cap.

Definition net_conn_out_ensure (b : outbuf) (amount : Z) : option outbuf :=
  if amount <=? u64 (ob_cap b - ob_len b) then Some b
  else
    cap ← grow_out 64 (if ob_cap b =? 0 then 16 else u64 (ob_cap b * 2)) (ob_len b) amount;
    Some (Outbuf (take (Z.to_nat (ob_len b)) (ob_mem b) ++ junk (Z.to_nat (cap - ob_len b))) (ob_len b)).

(** Bytes are written to the memory; [None] outside of it. *)
Definition poke (b : outbuf) (at_ : Z) (data : bytes) : option outbuf :=
  if (0 <=? at_) && (at_ + size data <=? ob_cap b) then
    Some (Outbuf (take (Z.to_nat at_) (ob_mem b) ++ data ++ drop (Z.to_nat at_ + length data) (ob_mem b)) (ob_len b))
  else None.

Definition net_conn_out_write_nocheck (b : outbuf) (data : bytes) : option outbuf :=
  b ← poke b (ob_len b) data; Some (Outbuf (ob_mem b) (ob_len b + size data)).
Definition net_conn_out_write_byte_nocheck (b : outbuf) (byte : Z) : option outbuf := net_conn_out_write_nocheck b [byte].

Definition net_conn_out_write_byte (b : outbuf) (byte : Z) : option outbuf :=
  b ← (if ob_cap b =? ob_len b then net_conn_out_ensure b 1 else Some b);
  net_conn_out_write_byte_nocheck b byte.

Definition net_conn_out_write (b : outbuf) (data : bytes) : option outbuf :=
  b ← (if u64 (ob_cap b - ob_len b) <? size data then net_conn_out_ensure b (size data) else Some b);
  net_conn_out_write_nocheck b data.

Definition net_conn_out_setlen (b : outbuf) (len : Z) : option outbuf :=
  if len <? ob_cap b then Some (Outbuf (ob_mem b) len) else None.

(** The loop of [writeln] that blanks control characters. *)
Definition blank (b : outbuf) (mark len : Z) : outbuf :=
  let m := Z.to_nat mark in let n := (Z.to_nat len - m)%nat in
  Outbuf (take m (ob_mem b) ++ ((λ c, if c <? 32 then 32 else c) <$> take n (drop m (ob_mem b))) ++ drop (m + n) (ob_mem b)) (ob_len b).

Definition out_writeln (b : outbuf) (ch : Z) (data : bytes) : option outbuf :=
  b ← net_conn_out_ensure b (3 + size data);
  b ← net_conn_out_write_byte_nocheck b ch;
  let mark := ob_len b in
  b ← net_conn_out_write_nocheck b data;
  b ← net_conn_out_write_byte_nocheck b 13;
  b ← net_conn_out_write_byte_nocheck b 10;
  Some (blank b mark (size data)).

(** [conn_write_bulk] writes the memory itself. *)
Definition out_bulk (b : outbuf) (data : bytes) : option outbuf :=
  b ← net_conn_out_ensure b (32 + size data);
  let olen := ob_len b in
  let digits := u64toa (size data) in
  b ← poke b olen [36];
  b ← poke b (olen + 1) digits;
  let p := olen + 1 + size digits in
  b ← poke b p [13];
  b ← poke b (p + 1) [10];
  b ← poke b (p + 2) data;
  b ← poke b (p + 2 + size data) [13];
  b ← poke b (p + 3 + size data) [10];
  net_conn_out_setlen b (olen + (p + 4 + size data - olen)).

(** ** What the buffer holds *)

(** The output is [out]; the capacity is zero or 16 doubled some times. *)
Record holds (b : outbuf) (out : bytes) : Prop := {
  ho_len : ob_len b = size out;
  ho_data : take (length out) (ob_mem b) = out;
  ho_cap : ob_cap b = 0 ∨ ∃ k, 0 <= k ∧ ob_cap b = 16 * 2 ^ k;
  ho_small : ob_cap b <= 2 ^ 62
}.

Hypothesis Hjunk : ∀ n, length (junk n) = n.

Lemma holds_room b out : holds b out → size out <= ob_cap b.
Proof.
  intros [Hl Hd _ _]. unfold ob_cap, size. apply (f_equal length) in Hd. rewrite length_take in Hd. lia.
Qed.

Lemma grow_out_spec fuel : ∀ k len amount,
  0 <= k → 0 <= len → 0 <= amount → len <= 16 * 2 ^ k → len + amount <= 2 ^ 61 → 16 * 2 ^ k <= 2 ^ 62 → 62 - k <= Z.of_nat fuel →
  ∃ k', k <= k' ∧ grow_out fuel (16 * 2 ^ k) len amount = Some (16 * 2 ^ k') ∧ len + amount <= 16 * 2 ^ k' ∧ 16 * 2 ^ k' <= 2 ^ 62.
Proof.
  induction fuel as [|fuel IH]; intros k len amount Hk Hl Ha Hlk Hsum Hbig Hf; cbn [grow_out].
  all: assert (0 < 2 ^ k) by (apply Z.pow_pos_nonneg; lia).
  all: replace (u64 (16 * 2 ^ k - len)) with (16 * 2 ^ k - len) by (symmetry; apply u64_id; unfold is_u64; lia).
  all: destruct (16 * 2 ^ k - len <? amount) eqn:E; zb; [|exists k; split; [lia|split; [reflexivity|lia]]].
  - assert (2 ^ 62 <= 2 ^ k) by (apply Z.pow_le_mono_r; lia). lia.
  - assert (16 * 2 ^ k < 2 ^ 61) by lia. replace (u64 (16 * 2 ^ k * 2)) with (16 * 2 ^ (k + 1)).
    2: { rewrite Z.pow_add_r, u64_id by (unfold is_u64; lia). lia. }
    assert (E2 : 2 ^ (k + 1) = 2 ^ k * 2) by (rewrite Z.pow_add_r; lia).
    destruct (IH (k + 1) len amount) as (k' & H1 & H2 & H3 & H4); try lia. exists k'. split; [lia|]. now rewrite H2.
Qed.

Lemma out_ensure_spec b out amount :
  holds b out → 0 <= amount → size out + amount <= 2 ^ 61 →
  ∃ b', net_conn_out_ensure b amount = Some b' ∧ holds b' out ∧ size out + amount <= ob_cap b'.
Proof.
  intros Ho Ha Hs. pose proof (holds_room b out Ho) as Hr. destruct Ho as [Hl Hd Hc Hsm]. unfold net_conn_out_ensure. rewrite Hl.
  assert (Hsz : 0 <= size out) by (unfold size; lia). rewrite (u64_id (ob_cap b - size out)) by (unfold is_u64; lia).
  destruct (amount <=? ob_cap b - size out) eqn:E; zb; [exists b; split; [reflexivity|]; split; [now split|lia]|].
  assert (Hk : ∃ k, 0 <= k ∧ (if ob_cap b =? 0 then 16 else u64 (ob_cap b * 2)) = 16 * 2 ^ k ∧ size out <= 16 * 2 ^ k ∧ 16 * 2 ^ k <= 2 ^ 62).
  { destruct Hc as [Hz|(k & Hk & Ek)].
    - exists 0. rewrite Hz in *. cbn [Z.eqb]. split; [lia|]. split; [reflexivity|]. lia.
    - assert (0 < 2 ^ k) by (apply Z.pow_pos_nonneg; lia). exists (k + 1). assert (E2 : 2 ^ (k + 1) = 2 ^ k * 2) by (rewrite Z.pow_add_r; lia).
      rewrite (proj2 (Z.eqb_neq _ _)) by lia. rewrite u64_id by (unfold is_u64; lia). split; [lia|]. split; [lia|]. split; [lia|]. lia. }
  destruct Hk as (k & Hk & -> & Hlk & Hbig).
  destruct (grow_out_spec 64 k (size out) amount) as (k' & Hkk & -> & Hroom & Hb'); try lia. cbn [mbind option_bind].
  eexists. split; [reflexivity|].
  assert (Hlen : length (take (Z.to_nat (size out)) (ob_mem b) ++ junk (Z.to_nat (16 * 2 ^ k' - size out))) = Z.to_nat (16 * 2 ^ k')).
  { rewrite length_app, length_take, Hjunk. unfold ob_cap, size in *. lia. }
  assert (Hcap : ob_cap (Outbuf (take (Z.to_nat (size out)) (ob_mem b) ++ junk (Z.to_nat (16 * 2 ^ k' - size out))) (size out)) = 16 * 2 ^ k').
  { unfold ob_cap, size at 1. cbn [ob_mem]. rewrite Hlen. assert (0 < 2 ^ k') by (apply Z.pow_pos_nonneg; lia). lia. }
  rewrite Hcap. split; [|lia]. split; rewrite ?Hcap; try easy.
  - cbn [ob_mem]. unfold size at 1. rewrite Nat2Z.id, Hd. apply take_app_length.
  - right. exists k'. split; [lia|reflexivity].
Qed.

(** ** Writing *)

(** Memory that starts with [pre]. *)
Definition starts_with (b : outbuf) (pre : bytes) : Prop := take (length pre) (ob_mem b) = pre.

Lemma poke_spec b pre data :
  starts_with b pre → size pre + size data <= ob_cap b →
  ∃ b', poke b (size pre) data = Some b' ∧ starts_with b' (pre ++ data) ∧ ob_len b' = ob_len b ∧ ob_cap b' = ob_cap b.
Proof.
  intros Hp Hc. unfold poke. rewrite (proj2 (Z.leb_le 0 _)), (proj2 (Z.leb_le (size pre + _) _)) by (unfold size in *; lia). cbn [andb].
  eexists. split; [reflexivity|]. unfold size. rewrite !Nat2Z.id, Hp. unfold starts_with. cbn [ob_mem ob_len]. split; [|split; [reflexivity|]].
  - rewrite (assoc_L (++)). apply take_app_length.
  - unfold ob_cap, size in *. cbn [ob_mem]. rewrite !length_app, length_drop. lia.
Qed.

Lemma write_spec b out data :
  holds b out → size out + size data <= ob_cap b →
  ∃ b', net_conn_out_write_nocheck b data = Some b' ∧ holds b' (out ++ data) ∧ ob_cap b' = ob_cap b.
Proof.
  intros [Hl Hd Hc Hs] Hr. unfold net_conn_out_write_nocheck. rewrite Hl. destruct (poke_spec b out data Hd Hr) as (b' & -> & Hp & El & Ec).
  cbn [mbind option_bind]. eexists. split; [reflexivity|]. unfold ob_cap in *. cbn [ob_mem]. split; [|exact Ec].
  split; unfold ob_cap; cbn [ob_mem ob_len]; rewrite ?Ec; try assumption. rewrite El, Hl. unfold size. rewrite length_app. lia.
Qed.

Lemma out_write_spec b out data :
  holds b out → size out + size data <= 2 ^ 61 → ∃ b', net_conn_out_write b data = Some b' ∧ holds b' (out ++ data).
Proof.
  intros Ho Hs. unfold net_conn_out_write. assert (Hr : ∃ b1, (if u64 (ob_cap b - ob_len b) <? size data
      then net_conn_out_ensure b (size data) else Some b) = Some b1 ∧ holds b1 out ∧ size out + size data <= ob_cap b1).
  { pose proof (holds_room b out Ho). pose proof (ho_len _ _ Ho) as Hl. pose proof (ho_small _ _ Ho).
    rewrite Hl, u64_id by (unfold is_u64, size in *; lia).
    destruct (_ <? size data) eqn:E; zb; [apply (out_ensure_spec b out (size data) Ho); [unfold size; lia|exact Hs]|].
    exists b. split; [reflexivity|]. split; [exact Ho|lia]. }
  destruct Hr as (b1 & -> & Ho1 & Hc1). cbn [mbind option_bind]. destruct (write_spec b1 out data Ho1 Hc1) as (b2 & E & Ho2 & _). eauto.
Qed.

Lemma blank_spec b out mark len :
  holds b out → 0 <= mark → 0 <= len → mark <= size out → len <= size out →
  holds (blank b mark len) (take (Z.to_nat mark) out ++
    ((λ c, if c <? 32 then 32 else c) <$> take (Z.to_nat len - Z.to_nat mark) (drop (Z.to_nat mark) out)) ++
    drop (Z.to_nat mark + (Z.to_nat len - Z.to_nat mark)) out).
Proof.
  intros Ho Hm0 Hl0 Hm Hl. pose proof (holds_room b out Ho) as Hr. destruct Ho as [E1 E2 E3 E4].
  set (m := Z.to_nat mark). set (n := (Z.to_nat len - m)%nat). unfold blank. fold m n.
  assert (Hb : ∀ l : bytes, length (take m l ++ ((λ c, if c <? 32 then 32 else c) <$> take n (drop m l)) ++ drop (m + n) l) = length l).
  { intros l. rewrite !length_app, length_fmap, !length_take, !length_drop. lia. }
  assert (Hmn : (m + n <= length out)%nat) by (unfold m, n, size in *; lia).
  split; unfold ob_cap, size in *; cbn [ob_mem ob_len]; rewrite ?Hb; try assumption.
  replace (ob_mem b) with (out ++ drop (length out) (ob_mem b)) by (rewrite <- E2 at 1; apply take_drop).
  set (rest := drop (length out) (ob_mem b)). rewrite (take_app_le _ _ m), (drop_app_le _ _ m) by lia.
  rewrite (take_app_le (drop m out) rest n) by (rewrite length_drop; lia). rewrite (drop_app_le out rest) by lia.
  rewrite !(assoc_L (++)). rewrite take_app_le; [|rewrite <- !(assoc_L (++)), Hb; reflexivity].
  apply take_ge. now rewrite <- !(assoc_L (++)), Hb.
Qed.

Lemma out_writeln_spec {J} b (c : conn J) ch data :
  holds b (c_out c) → size (c_out c) + size data + 32 <= 2 ^ 61 →
  ∃ b', out_writeln b ch data = Some b' ∧ holds b' (c_out (writeln c ch data)).
Proof.
  intros Ho Hs. set (out := c_out c) in *. unfold out_writeln. assert (Hsz : 0 <= size data) by (unfold size; lia).
  destruct (out_ensure_spec b out (3 + size data) Ho) as (b1 & -> & Ho1 & Hc1); [lia|lia|]. cbn [mbind option_bind].
  unfold net_conn_out_write_byte_nocheck.
  destruct (write_spec b1 out [ch] Ho1) as (b2 & -> & Ho2 & Hc2); [change (size [ch]) with 1; lia|]. cbn [mbind option_bind].
  assert (E2 : size (out ++ [ch]) = size out + 1) by (unfold size; rewrite length_app; cbn; lia).
  destruct (write_spec b2 (out ++ [ch]) data Ho2) as (b3 & -> & Ho3 & Hc3); [lia|]. cbn [mbind option_bind].
  assert (E3 : size ((out ++ [ch]) ++ data) = size out + 1 + size data) by (unfold size in *; rewrite length_app; lia).
  destruct (write_spec b3 _ [13] Ho3) as (b4 & -> & Ho4 & Hc4); [change (size [13]) with 1; lia|]. cbn [mbind option_bind].
  assert (E4 : size (((out ++ [ch]) ++ data) ++ [13]) = size out + 2 + size data) by (unfold size in *; rewrite length_app; cbn; lia).
  destruct (write_spec b4 _ [10] Ho4) as (b5 & -> & Ho5 & Hc5); [change (size [10]) with 1; lia|]. cbn [mbind option_bind].
  eexists. split; [reflexivity|]. rewrite (ho_len _ _ Ho2), E2.
  pose proof (blank_spec b5 _ (size out + 1) (size data) Ho5) as Hb.
  assert (E5 : size ((((out ++ [ch]) ++ data) ++ [13]) ++ [10]) = size out + 3 + size data) by (unfold size in *; rewrite length_app; cbn; lia).
  assert (0 <= size out) by (unfold size; lia). specialize (Hb ltac:(lia) ltac:(lia) ltac:(lia) ltac:(lia)).
  unfold writeln. fold out. cbn [c_out set_out]. rewrite <- !(assoc_L (++)) in Hb. cbn [app] in Hb.
  replace (Z.to_nat (size out + 1)) with (length out + 1)%nat in Hb by (unfold size; lia).
  replace (Z.to_nat (size data)) with (length data) in Hb by (unfold size; lia). exact Hb.
Qed.

Lemma out_bulk_spec {J} b (c : conn J) data :
  holds b (c_out c) → size (c_out c) + size data + 32 <= 2 ^ 61 →
  ∃ b', out_bulk b data = Some b' ∧ holds b' (c_out (conn_write_bulk c data)).
Proof.
  intros Ho Hs. set (out := c_out c) in *. unfold out_bulk. assert (Hsz : 0 <= size data) by (unfold size; lia).
  assert (Hso : 0 <= size out) by (unfold size; lia).
  destruct (out_ensure_spec b out (32 + size data) Ho) as (b1 & -> & Ho1 & Hc1); [lia|lia|]. cbn [mbind option_bind].
  destruct Ho1 as [El Ed Ec Es]. rewrite El. set (digits := u64toa (size data)).
  assert (Hdig : size digits <= 20).
  { destruct (u64toa_text (size data)) as (_ & _ & Hd & _); [unfold is_u64; lia|]. unfold size, digits. lia. }
  assert (Happ : ∀ x y : bytes, size (x ++ y) = size x + size y) by (intros; unfold size; rewrite length_app; lia).
  assert (H1 : ∀ x : Z, size [x] = 1) by reflexivity. assert (0 <= size digits) by (unfold size; lia).
  destruct (poke_spec b1 out [36] Ed) as (b2 & -> & P2 & L2 & C2); [rewrite H1; lia|]. cbn [mbind option_bind].
  replace (size out + 1) with (size (out ++ [36])) by (rewrite Happ, H1; lia).
  destruct (poke_spec b2 _ digits P2) as (b3 & -> & P3 & L3 & C3); [rewrite Happ, H1; lia|]. cbn [mbind option_bind].
  rewrite <- Happ. destruct (poke_spec b3 _ [13] P3) as (b4 & -> & P4 & L4 & C4); [rewrite !Happ, !H1; lia|]. cbn [mbind option_bind].
  replace (size ((out ++ [36]) ++ digits) + 1) with (size (((out ++ [36]) ++ digits) ++ [13])) by (rewrite !Happ, !H1; lia).
  destruct (poke_spec b4 _ [10] P4) as (b5 & -> & P5 & L5 & C5); [rewrite !Happ, !H1; lia|]. cbn [mbind option_bind].
  replace (size ((out ++ [36]) ++ digits) + 2) with (size ((((out ++ [36]) ++ digits) ++ [13]) ++ [10])) by (rewrite !Happ, !H1; lia).
  destruct (poke_spec b5 _ data P5) as (b6 & -> & P6 & L6 & C6); [rewrite !Happ, !H1; lia|]. cbn [mbind option_bind].
  rewrite <- Happ. destruct (poke_spec b6 _ [13] P6) as (b7 & -> & P7 & L7 & C7); [rewrite !Happ, !H1; lia|]. cbn [mbind option_bind].
  replace (size ((out ++ [36]) ++ digits) + 3 + size data) with (size ((((((out ++ [36]) ++ digits) ++ [13]) ++ [10]) ++ data) ++ [13])) by (rewrite !Happ, !H1; lia).
  destruct (poke_spec b7 _ [10] P7) as (b8 & -> & P8 & L8 & C8); [rewrite !Happ, !H1; lia|]. cbn [mbind option_bind].
  unfold net_conn_out_setlen. rewrite (proj2 (Z.ltb_lt _ _)) by (rewrite !Happ, !H1; lia). eexists. split; [reflexivity|].
  assert (E : c_out (conn_write_bulk c data) = ((((((out ++ [36]) ++ digits) ++ [13]) ++ [10]) ++ data) ++ [13]) ++ [10]).
  { unfold conn_write_bulk, conn_write_raw. cbn [c_out set_out]. fold out digits. unfold crlf. now rewrite <- !(assoc_L (++)). }
  rewrite E. assert (C : ob_cap b8 = ob_cap b1) by congruence.
  split; unfold ob_cap in *; cbn [ob_mem ob_len]; rewrite ?C; try assumption. rewrite !Happ, !H1. lia.
Qed.

(** C26: The output buffer implements the output. The functions of [net.c] that grow the
    buffer and write to its memory, and [writeln] and [conn_write_bulk], which write
    to it directly, never write outside of it, and the bytes they leave there are
    those of the writers of the model: the buffer grows to a capacity of 16 doubled
    some times, in a loop that ends, and keeps what it held. *)
Theorem output_buffer_refines {J} b (c : conn J) ch data :
  holds b (c_out c) → size (c_out c) + size data + 32 <= 2 ^ 61 →
  (∃ b', net_conn_out_write b data = Some b' ∧ holds b' (c_out (conn_write_raw c data))) ∧
  (∃ b', out_writeln b ch data = Some b' ∧ holds b' (c_out (writeln c ch data))) ∧
  (∃ b', out_bulk b data = Some b' ∧ holds b' (c_out (conn_write_bulk c data))).
Proof.
  intros Ho Hs. split; [apply out_write_spec; [exact Ho|lia]|]. split; [now apply out_writeln_spec|now apply out_bulk_spec].
Qed.

End Out.

Lemma output_buffer_refines_witness :
  let c := set_out (conn_open (J := unit) false) (str "+OK") in
  ∃ b', out_bulk (λ n, repeat 7 n) (Outbuf (str "+OK" ++ repeat 9 13) 3) (str "v") = Some b' ∧ holds b' (c_out (conn_write_bulk c (str "v"))).
Proof.
  intros c. refine (proj2 (proj2 (output_buffer_refines (λ n, repeat 7 n) _ (Outbuf (str "+OK" ++ repeat 9 13) 3) c 43 (str "v") _ _))).
  - intros n. apply repeat_length.
  - split; [reflexivity|reflexivity|right; now exists 0|vm_compute; congruence].
  - vm_compute. congruence.
Defined.

(** ** Counters *)

Record counters := Counters { stat_cmd_get : Z; stat_cmd_set : Z; stat_get_hits : Z; stat_get_misses : Z }.
Inductive stat := CmdGet | CmdSet | GetHits | GetMisses.

Definition zero : counters := Counters 0 0 0 0.

(** The process, one thread and its connections. *)
Record stats := Stats { st_global : counters; st_thread : counters; st_conns : list counters }.

(** [net_stat_*_incr]: [unsigned] counters of a connection. *)
Definition net_stat_incr (w : stat) (c : counters) : counters :=
  match w with
  | CmdGet => Counters (u32 (stat_cmd_get c + 1)) (stat_cmd_set c) (stat_get_hits c) (stat_get_misses c)
  | CmdSet => Counters (stat_cmd_get c) (u32 (stat_cmd_set c + 1)) (stat_get_hits c) (stat_get_misses c)
  | GetHits => Counters (stat_cmd_get c) (stat_cmd_set c) (u32 (stat_get_hits c + 1)) (stat_get_misses c)
  | GetMisses => Counters (stat_cmd_get c) (stat_cmd_set c) (stat_get_hits c) (u32 (stat_get_misses c + 1))
  end.

(** [sumstats]: the thread and the connection after it. *)
Definition sumstats (conn ctx : counters) : counters * counters :=
  (Counters (u64 (stat_cmd_get ctx + stat_cmd_get conn)) (u64 (stat_cmd_set ctx + stat_cmd_set conn))
     (u64 (stat_get_hits ctx + stat_get_hits conn)) (u64 (stat_get_misses ctx + stat_get_misses conn)), zero).

(** [sumstats_global]: the process and the thread after it. *)
Definition sumstats_global (ctx global : counters) : counters * counters := sumstats ctx global.

(** A command counts; a connection's packet was processed; a round starts. *)
Inductive stat_op := Incr (i : nat) (w : stat) | Sum (i : nat) | SumGlobal.

Definition stat_step (s : stats) (x : stat_op) : stats :=
  match x with
  | Incr i w =>
      match st_conns s !! i with
      | Some c => Stats (st_global s) (st_thread s) (<[i := net_stat_incr w c]> (st_conns s))
      | None => s
      end
  | Sum i =>
      match st_conns s !! i with
      | Some c => let '(ctx, c) := sumstats c (st_thread s) in Stats (st_global s) ctx (<[i := c]> (st_conns s))
      | None => s
      end
  | SumGlobal => let '(g, ctx) := sumstats_global (st_thread s) (st_global s) in Stats g ctx (st_conns s)
  end.

Definition value (w : stat) (c : counters) : Z :=
  match w with CmdGet => stat_cmd_get c | CmdSet => stat_cmd_set c | GetHits => stat_get_hits c | GetMisses => stat_get_misses c end.

Fixpoint sum (l : list Z) : Z := match l with [] => 0 | x :: l => x + sum l end.

(** All that was counted, wherever it is. *)
Definition total (w : stat) (s : stats) : Z :=
  value w (st_global s) + value w (st_thread s) + sum (value w <$> st_conns s).

#[export] Instance stat_eq_dec : EqDecision stat.
Proof. solve_decision. Defined.

(** How often a command of [n] connections counted. *)
Fixpoint counted (n : nat) (w : stat) (ops : list stat_op) : Z :=
  match ops with
  | [] => 0
  | Incr i w' :: ops => (if decide ((i < n)%nat ∧ w' = w) then 1 else 0) + counted n w ops
  | _ :: ops => counted n w ops
  end.

Definition nonneg (s : stats) : Prop :=
  ∀ w, 0 <= value w (st_global s) ∧ 0 <= value w (st_thread s) ∧ Forall (λ c, 0 <= value w c) (st_conns s).

Lemma count_sum_insert l i x y : l !! i = Some x → sum (<[i := y]> l) = sum l - x + y.
Proof.
  revert i. induction l as [|z l IH]; intros [|i] Hi; try discriminate.
  - injection Hi as ->. change (y + sum l = x + sum l - x + y). lia.
  - change (z + sum (<[i := y]> l) = z + sum l - x + y). rewrite (IH _ Hi). lia.
Qed.
Lemma sum_nonneg l : Forall (λ x, 0 <= x) l → 0 <= sum l.
Proof. induction 1; cbn; lia. Qed.
Lemma sum_ge l i x : Forall (λ x, 0 <= x) l → l !! i = Some x → x <= sum l.
Proof.
  intros Hl. revert i. induction Hl as [|z l Hz Hl IH]; intros [|i]; cbn; try discriminate.
  - intros [= ->]. pose proof (sum_nonneg _ Hl). lia.
  - intros Hi. specialize (IH _ Hi). lia.
Qed.

Lemma sum_zeros n : sum (replicate n 0) = 0.
Proof. induction n as [|n IH]; [reflexivity|exact IH]. Qed.

Lemma value_incr w w' c : value w (net_stat_incr w' c) = if decide (w' = w) then u32 (value w c + 1) else value w c.
Proof. now destruct w, w'. Qed.
Lemma value_sum w c d : value w (sumstats c d).1 = u64 (value w d + value w c) ∧ value w (sumstats c d).2 = 0.
Proof. now destruct w. Qed.

Lemma stat_step_spec w s x :
  nonneg s → total w s + 1 < 2 ^ 32 → total w (stat_step s x) = total w s + counted (length (st_conns s)) w [x].
Proof.
  intros Hn Ht. destruct (Hn w) as (Hg & Hth & Hc). assert (Hs : Forall (λ x, 0 <= x) (value w <$> st_conns s)) by now apply Forall_fmap.
  pose proof (sum_nonneg _ Hs) as H0. unfold total in *. destruct x as [i w'|i|]; cbn [stat_step counted].
  - destruct (st_conns s !! i) as [c|] eqn:E.
    + cbn [st_global st_thread st_conns]. rewrite list_fmap_insert. pose proof (lookup_lt_Some _ _ _ E) as Hlt.
      assert (Ei : (value w <$> st_conns s) !! i = Some (value w c)) by now rewrite list_lookup_fmap, E.
      rewrite (count_sum_insert _ _ _ _ Ei), value_incr. pose proof (sum_ge _ _ _ Hs Ei).
      rewrite Forall_lookup in Hc. pose proof (Hc _ _ E). destruct (decide (w' = w)) as [->|Hne].
      * rewrite decide_True by easy. rewrite u32_id by (unfold is_u32; lia). lia.
      * rewrite decide_False by (intros [_ ?]; contradiction). lia.
    + rewrite decide_False by (intros [? _]; apply lookup_ge_None in E; lia). lia.
  - destruct (st_conns s !! i) as [c|] eqn:E; [|lia].
    assert (Ei : (value w <$> st_conns s) !! i = Some (value w c)) by now rewrite list_lookup_fmap, E.
    pose proof (value_sum w c (st_thread s)) as [E1 E2]. destruct (sumstats c (st_thread s)) as [ctx c']. cbn in *.
    rewrite list_fmap_insert, (count_sum_insert _ _ _ _ Ei), E1, E2. pose proof (sum_ge _ _ _ Hs Ei).
    rewrite Forall_lookup in Hc. pose proof (Hc _ _ E). rewrite u64_id by (unfold is_u64; lia). lia.
  - unfold sumstats_global. pose proof (value_sum w (st_thread s) (st_global s)) as [E1 E2].
    destruct (sumstats (st_thread s) (st_global s)) as [g ctx]. cbn in *. rewrite E1, E2, u64_id by (unfold is_u64; lia). lia.
Qed.

Lemma nonneg_step s x : nonneg s → nonneg (stat_step s x) ∧ length (st_conns (stat_step s x)) = length (st_conns s).
Proof.
  intros Hn. destruct x as [i w'|i|]; cbn [stat_step].
  - destruct (st_conns s !! i) as [c|] eqn:E; [|easy]. split; [|apply length_insert]. intros w. destruct (Hn w) as (Hg & Hth & Hc).
    split; [exact Hg|]. split; [exact Hth|]. cbn. apply Forall_insert; [exact Hc|]. rewrite value_incr.
    destruct (decide _); [apply u32_range|]. rewrite Forall_lookup in Hc. exact (Hc _ _ E).
  - destruct (st_conns s !! i) as [c|] eqn:E; [|easy].
    destruct (sumstats c (st_thread s)) as [ctx c'] eqn:Es. split; [|apply length_insert]. intros w. destruct (Hn w) as (Hg & Hth & Hc).
    pose proof (value_sum w c (st_thread s)) as [E1 E2]. rewrite Es in *. cbn in *. split; [exact Hg|].
    split; [rewrite E1; apply u64_range|]. apply Forall_insert; [exact Hc|]. lia.
  - destruct (sumstats_global (st_thread s) (st_global s)) as [g ctx] eqn:Es. split; [|reflexivity]. intros w. destruct (Hn w) as (Hg & Hth & Hc).
    unfold sumstats_global in Es. pose proof (value_sum w (st_thread s) (st_global s)) as [E1 E2]. rewrite Es in *. cbn in *.
    split; [rewrite E1; apply u64_range|]. split; [lia|exact Hc].
Qed.

Lemma counted_nonneg n w ops : 0 <= counted n w ops.
Proof. induction ops as [|[] ops IH]; cbn; try lia. destruct (decide _); lia. Qed.

(** No count is lost. In whatever order the commands of the connections count and
    the counts are handed on, from connections to their thread and from the thread
    to the process, what all of them hold together is the number of commands, as
    long as it is less than [2^32]. *)
Theorem counts_conserved n w ops :
  counted n w ops < 2 ^ 32 - 1 → total w (foldl stat_step (Stats zero zero (replicate n zero)) ops) = counted n w ops.
Proof.
  assert (Hgen : ∀ s, nonneg s → length (st_conns s) = n → total w s + counted n w ops < 2 ^ 32 - 1 →
    total w (foldl stat_step s ops) = total w s + counted n w ops).
  { induction ops as [|x ops IH]; intros s Hn Hl Hlt; cbn [foldl]; [cbn; lia|].
    assert (Ex : counted n w (x :: ops) = counted n w [x] + counted n w ops) by (destruct x; cbn; lia).
    pose proof (counted_nonneg n w ops). pose proof (counted_nonneg n w [x]). destruct (nonneg_step s x Hn) as [Hn' Hl'].
    pose proof (stat_step_spec w s x Hn ltac:(lia)) as Es. rewrite Hl in Es. rewrite IH; [lia|exact Hn'|congruence|lia]. }
  intros Hlt. assert (H0 : total w (Stats zero zero (replicate n zero)) = 0).
  { unfold total. cbn. rewrite fmap_replicate. replace (value w zero) with 0 by now destruct w. now rewrite sum_zeros. }
  rewrite Hgen; [lia| |apply length_replicate|lia]. intros w'. split; [now destruct w'|]. split; [now destruct w'|].
  apply Forall_replicate. now destruct w'.
Qed.

Lemma counts_conserved_witness :
  total GetHits (foldl stat_step (Stats zero zero (replicate 2 zero)) [Incr 0 GetHits; Sum 0; Incr 1 GetHits; SumGlobal; Sum 1]) = 2.
Proof. apply (counts_conserved 2 GetHits). vm_compute. reflexivity. Defined.

(** ** The counters of the process *)

(** [src/src/stats.c]: the counters [g_stat_*], which all threads share. *)
Inductive gstat :=
  | g_cmd_flush | g_cmd_touch | g_cmd_meta | g_get_expired | g_get_flushed | g_delete_misses | g_delete_hits | g_incr_misses
  | g_incr_hits | g_decr_misses | g_decr_hits | g_cas_misses | g_cas_hits | g_cas_badval | g_touch_hits | g_touch_misses
  | g_store_too_large | g_store_no_memory | g_auth_cmds | g_auth_errors.

#[export] Instance gstat_eq : EqDecision gstat.
Proof. solve_decision. Defined.

(** [stat_*_incr] is an atomic addition and [stat_*] an atomic load. *)
Definition stat_incr (k : gstat) (g : gstat → Z) : gstat → Z := λ x, if decide (x = k) then u64 (g x + 1) else g x.
Definition stat_load (k : gstat) (g : gstat → Z) : Z := g k.

(** Whatever the order in which the threads add, a counter shows how often it was
    counted, modulo [2^64]. *)
Theorem stats_counted ks k g : is_u64 (g k) →
  stat_load k (fold_left (λ g x, stat_incr x g) ks g) = u64 (g k + Z.of_nat (length (filter (λ x, x = k) ks))).
Proof.
  revert g. induction ks as [|x ks IH]; intros g Hg; cbn [fold_left].
  - cbn. now rewrite Z.add_0_r, u64_id.
  - rewrite IH.
    + unfold stat_incr. destruct (decide (k = x)) as [<-|Hne].
      * rewrite filter_cons_True by reflexivity. cbn [length]. unfold u64. rewrite Zplus_mod_idemp_l. f_equal. lia.
      * now rewrite filter_cons_False by congruence.
    + unfold stat_incr. destruct (decide (k = x)); [apply u64_range|exact Hg].
Qed.
