(* ===== verification/Main.v ===== *)
(** * Main: the options of the program and the start of the server

    [src/src/main.c]: the table of options and the two passes over the
    arguments, the settings [main] derives from them for the cache and for the
    network, the ticker and the signal handler. An argument is a C string
    without its terminator. *)

From stdpp Require Import functions.
From S2P Require Import Prelude Util Context Entry Heap Map Shard Samples Cache CacheInv CacheTheorems Cmds Tuning Memlimit.
From S2P Require Import KvRel KvCmds KvServer Net.

(** ** Outcomes *)

(** What a part of [main] comes to: it exits with a code, aborts, is undefined
    (as [perf_*] are where an [int] overflows), or goes on. *)
Inductive outcome (A : Type) := Exit (code : Z) | Abort | Undefined | Go (a : A).
Arguments Exit {A}. Arguments Abort {A}. Arguments Undefined {A}. Arguments Go {A}.

#[export] Instance outcome_ret : MRet outcome := @Go.
#[export] Instance outcome_bind : MBind outcome := λ A B f m,
  match m with Exit c => Exit c | Abort => Abort | Undefined => Undefined | Go a => f a end.

(** A computation of [Tuning]. *)
Definition computed {A} (x : option A) : outcome A := match x with Some a => Go a | None => Undefined end.

(** ** Global variables *)

(** The variables of type [int], and those of type [char *]. *)
Inductive int_var := nthreads | backlog | queuesize | loadfactor | maxconns | nshards | verb.
Inductive str_var :=
  port | host | persist | unixsock | reuseport | tcpnodelay | quickack | usecas | keepalive | maxmemory | evict
  | keysixpack | trackallocs | auth | tlsport | tlscertfile | tlskeyfile | tlscacertfile | uring | noticker | warmup | autotune.

#[export] Instance int_var_eq : EqDecision int_var.
Proof. solve_decision. Defined.
#[export] Instance str_var_eq : EqDecision str_var.
Proof. solve_decision. Defined.

Record globals := Globals { ints : int_var → Z; strs : str_var → bytes; seed : Z; maxmemorymb : option bytes }.

Definition set_int (x : int_var) (v : Z) (g : globals) : globals :=
  Globals (<[x := v]> (ints g)) (strs g) (seed g) (maxmemorymb g).
Definition set_str (x : str_var) (v : bytes) (g : globals) : globals :=
  Globals (ints g) (<[x := v]> (strs g)) (seed g) (maxmemorymb g).

(** The default user flags, and what [main] sets before it reads the options:
    the seed, and [uring] by whether it is available. *)
Definition default_int (x : int_var) : Z := match x with loadfactor => 75 | _ => 0 end.
Definition default_str (x : str_var) : bytes :=
  match x with
  | port => str "9401" | host => str "127.0.0.1" | maxmemory => str "80%"
  | tcpnodelay | keepalive | evict | keysixpack | uring | warmup | autotune => str "yes"
  | reuseport | quickack | usecas | trackallocs | noticker => str "no"
  | persist | unixsock | auth | tlsport | tlscertfile | tlskeyfile | tlscacertfile => []
  end.
Definition initial (seed : Z) (uring_available : bool) : globals :=
  set_str uring (str (if uring_available then "yes" else "no")) (Globals default_int default_str seed None).

(** ** The table of options *)

(** The statement of an option, with its [flag]. *)
Inductive op := Str (x : str_var) | Int (x : int_var) | ConstInt (x : int_var) (v : Z) | ConstStr (x : str_var) (v : bytes) | Seed | Megabytes.

Definition run_op (o : op) (flag : bytes) (g : globals) : globals :=
  match o with
  | Str x => set_str x flag g
  | Int x => set_int x (atoi flag) g
  | ConstInt x v => set_int x v g
  | ConstStr x v => set_str x v g
  | Seed => Globals (ints g) (strs g) (strtoull flag).1.1 (maxmemorymb g)
  | Megabytes => Globals (ints g) (strs g) (seed g) (Some flag)
  end.

(** [BFLAG] takes the next argument, [TFLAG] takes none, [AFLAG] takes the next
    argument or what follows an equals sign. *)
Inductive option_kind := BFLAG (opt : bytes) | TFLAG (opt : bytes) | AFLAG (name : bytes).

Definition options : list (option_kind * op) := [
  (BFLAG (str "-p"), Str port);
  (BFLAG (str "-h"), Str host);
  (BFLAG (str "-s"), Str unixsock);
  (TFLAG (str "-v"), ConstInt verb 1);
  (TFLAG (str "-vv"), ConstInt verb 2);
  (TFLAG (str "-vvv"), ConstInt verb 3);
  (AFLAG (str "port"), Str port);
  (AFLAG (str "threads"), Int nthreads);
  (AFLAG (str "shards"), Int nshards);
  (AFLAG (str "backlog"), Int backlog);
  (AFLAG (str "queuesize"), Int queuesize);
  (AFLAG (str "maxmemory"), Str maxmemory);
  (AFLAG (str "evict"), Str evict);
  (AFLAG (str "reuseport"), Str reuseport);
  (AFLAG (str "uring"), Str uring);
  (AFLAG (str "tcpnodelay"), Str tcpnodelay);
  (AFLAG (str "keepalive"), Str keepalive);
  (AFLAG (str "quickack"), Str quickack);
  (AFLAG (str "trackallocs"), Str trackallocs);
  (AFLAG (str "cas"), Str usecas);
  (AFLAG (str "maxconns"), Int maxconns);
  (AFLAG (str "loadfactor"), Int loadfactor);
  (AFLAG (str "sixpack"), Str keysixpack);
  (AFLAG (str "seed"), Seed);
  (AFLAG (str "auth"), Str auth);
  (AFLAG (str "persist"), Str persist);
  (AFLAG (str "noticker"), Str noticker);
  (AFLAG (str "warmup"), Str warmup);
  (AFLAG (str "autotune"), Str autotune);
  (AFLAG (str "tlsport"), Str tlsport);
  (AFLAG (str "tlscert"), Str tlscertfile);
  (AFLAG (str "tlscacert"), Str tlscacertfile);
  (AFLAG (str "tlskey"), Str tlskeyfile);
  (BFLAG (str "-t"), Int nthreads);
  (BFLAG (str "-m"), Megabytes);
  (TFLAG (str "-M"), ConstStr evict (str "no"))
].

(** Whether an argument is an option of some kind, and where its value is. *)
Inductive value := Following | Attached (flag : bytes).

Definition match_option (k : option_kind) (arg : bytes) : option value :=
  match k with
  | BFLAG opt => if bool_decide (arg = opt) then Some Following else None
  | TFLAG opt => if bool_decide (arg = opt) then Some (Attached []) else None
  | AFLAG name =>
      if bool_decide (arg = str "--" ++ name) then Some Following
      else if bool_decide (str "--" ++ name ++ str "=" `prefix_of` arg) then Some (Attached (drop (length name + 3) arg))
      else None
  end.

(** The chain of [else if]. *)
Fixpoint find_option (table : list (option_kind * op)) (arg : bytes) : option (op * value) :=
  match table with
  | [] => None
  | (k, o) :: table => match match_option k arg with Some v => Some (o, v) | None => find_option table arg end
  end.

(** A pass over the arguments. The help and the version exit with 0, an option
    that is not known or lacks its value with 1. *)
Fixpoint pass (dryrun : bool) (args : list bytes) (g : globals) : outcome globals :=
  match args with
  | [] => Go g
  | arg :: args =>
      if bool_decide (arg = str "--help") || bool_decide (arg = str "--version") then Exit 0
      else match find_option options arg with
      | None => Exit 1
      | Some (o, Attached flag) => pass dryrun args (if dryrun then g else run_op o flag g)
      | Some (o, Following) =>
          match args with
          | [] => Exit 1
          | flag :: args => pass dryrun args (if dryrun then g else run_op o flag g)
          end
      end
  end.

Definition parse_flags (args : list bytes) (g : globals) : outcome globals := g ← pass true args g; pass false args g.

(** ** Settings *)

(** What [main] learns from the system: the processors, the memory, the limit of
    descriptors and whether it could be read and raised, [uring_available], the
    seed, and what the TLS library says to the files of the certificates. *)
Record tls_files := TlsFiles { tl_cacert : bool; tl_cert : bool; tl_key : bool; tl_match : bool }.
Record system := System {
  y_nprocs : Z; y_memory : option Z; y_rlimit : option Z; y_setrlimit : bool; y_uring : bool; y_seed : Z; y_tls : tls_files
}.

(** [tls_init] of [src/src/tls.c], with the results of the calls of the library. *)
Definition tls_init (usetls : bool) (f : tls_files) : outcome unit :=
  if negb usetls then Go tt
  else if negb (tl_cacert f) then Exit 1
  else if negb (tl_cert f) then Exit 1
  else if negb (tl_key f) then Exit 1
  else if negb (tl_match f) then Exit 1
  else Go tt.

Definition calc_nshards (nprocs : Z) : Z :=
  if nprocs =? 1 then 64 else if nprocs =? 2 then 128 else if nprocs =? 3 then 256 else if nprocs =? 4 then 512
  else if nprocs =? 5 then 1024 else if nprocs =? 6 then 2048 else 4096.

(** A flag that is [yes] or [no]. *)
Definition yes_no (flag : bytes) : outcome bool :=
  if bool_decide (flag = str "yes") then Go true else if bool_decide (flag = str "no") then Go false else Exit 1.

Definition sys_memory (y : system) : outcome Z := match y_memory y with Some m => Go m | None => Exit 1 end.

Definition if_zero (x : int_var) (v : Z) (g : globals) : globals := if ints g x =? 0 then set_int x v g else g.

(** The parameters the user did not set. *)
Definition tune (useautotune : bool) (r : system_resources) (g : globals) : outcome globals :=
  if useautotune then
    c ← computed (perf_optimize_defaults r);
    Go (if_zero nshards (optimal_nshards c) (if_zero maxconns (optimal_maxconns c)
      (if_zero queuesize (optimal_queuesize c) (if_zero backlog (optimal_backlog c) g))))
  else Go (if_zero maxconns 4096 (if_zero queuesize 512 (if_zero backlog 2048 g))).

(** The limits of the threads, shards, load factor and queue size. *)
Definition limit_ints (nprocs : Z) (g : globals) : globals :=
  let g := if ints g nthreads <=? 0 then set_int nthreads nprocs g
           else if 4096 <? ints g nthreads then set_int nthreads 4096 g else g in
  let g := if_zero nshards (calc_nshards (ints g nthreads)) g in
  let g := if (ints g nshards <=? 0) || (65536 <? ints g nshards) then set_int nshards 65536 g else g in
  let g := if ints g loadfactor <? MINLOADFACTOR_RH then set_int loadfactor MINLOADFACTOR_RH g
           else if MAXLOADFACTOR_RH <? ints g loadfactor then set_int loadfactor MAXLOADFACTOR_RH g else g in
  if ints g queuesize <? PERF_MIN_QUEUESIZE then set_int queuesize PERF_MIN_QUEUESIZE g
  else if PERF_MAX_QUEUESIZE <? ints g queuesize then set_int queuesize PERF_MAX_QUEUESIZE g else g.

(** [-m], and a port that is empty or zero. *)
Definition limit_strs (g : globals) : globals :=
  let g := match maxmemorymb g with Some s => set_str maxmemory (s ++ str "M") g | None => g end in
  let none (p : bytes) := bool_decide (p = []) || bool_decide (p = str "0") in
  let g := if none (strs g port) then set_str port [] g else g in
  if none (strs g tlsport) then set_str tlsport [] g else g.

(** What [main] passes on: to the cache, to the threads and the listeners of the
    network, and in global variables. *)
Record settings := Settings {
  w_globals : globals; w_cache : pogocache_opts; w_net : net_opts; w_reuseport : bool; w_nowarmup : bool;
  w_sysmem : Z; w_memlimit : Z; w_useevict : bool; w_usesixpack : bool; w_usetrackallocs : bool; w_usetls : bool;
  w_useauth : bool; w_ticker : bool
}.

(** [setmaxrlimit]. *)
Definition setmaxrlimit (y : system) : outcome Z :=
  match y_rlimit y with Some r => if y_setrlimit y then Go r else Abort | None => Abort end.

(** [opts], whose other fields are zero. *)
Definition cache_opts (g : globals) (usecasflag : bool) : pogocache_opts := {|
  o_evicted := true; o_usecas := usecasflag; o_nosixpack := false; o_noevict := false; o_allowshrink := true;
  o_usethreadbatch := true; o_nshards := ints g nshards; o_loadfactor := ints g loadfactor; o_seed := seed g
|}.

(** [main] from the options to the calls of [pogocache_new] and of [net_main], with
    what these two get; [pogocache_new] is in [Cache.v], [net_main] in [Net.v]. *)
Definition main (args : list bytes) (y : system) : outcome settings :=
  g ← parse_flags args (initial (y_seed y) (y_uring y));
  useevict ← yes_no (strs g evict);
  usereuseport ← yes_no (strs g reuseport);
  usetrackallocs ← yes_no (strs g trackallocs);
  usetcpnodelay ← yes_no (strs g tcpnodelay);
  usekeepalive ← yes_no (strs g keepalive);
  usecasflag ← yes_no (strs g usecas);
  useautotune ← yes_no (strs g autotune);
  memory ← sys_memory y;
  let r := perf_detect_system_resources (y_nprocs y) memory (y_rlimit y) in
  g ← tune useautotune r g;
  _ ← computed (perf_validate_config r (ints g backlog) (ints g queuesize) (ints g maxconns)
        (if 0 <? ints g nshards then ints g nshards else 4096));
  useuring ← yes_no (strs g uring);
  let useuring := useuring && y_uring y in
  usequickack ← yes_no (strs g quickack);
  usesixpack ← yes_no (strs g keysixpack);
  let g := limit_strs (limit_ints (y_nprocs y) g) in
  let usetls := negb (bool_decide (strs g tlsport = [])) in
  _ ← tls_init usetls (y_tls y);
  _ ← setmaxrlimit y;
  match calc_memlimit memory (strs g maxmemory) with
  | Invalid => Exit 1
  | Unspecified => Undefined
  | Limit memlimit =>
      let unlimited := memlimit =? SIZE_MAX in
      let g := if unlimited then set_str evict (str "no") g else g in
      Go {|
        w_globals := g; w_cache := cache_opts g usecasflag;
        w_net := NetOpts (Z.to_nat (ints g nthreads)) (ints g maxconns) usetcpnodelay usekeepalive usequickack
          (Z.to_nat (ints g queuesize)) (negb useuring);
        w_reuseport := usereuseport; w_nowarmup := bool_decide (strs g warmup = str "no");
        w_sysmem := memory; w_memlimit := memlimit; w_useevict := useevict && negb unlimited;
        w_usesixpack := usesixpack; w_usetrackallocs := usetrackallocs;
        w_usetls := usetls; w_useauth := negb (bool_decide (strs g auth = []));
        w_ticker := negb (bool_decide (strs g noticker = str "yes"))
      |}
  end.

(** ** The ticker *)

(** [tick], with the resident memory: the low memory mode. *)
Definition tick (loaded : bool) (memlimit rss : Z) (lowmem : bool) : bool :=
  if loaded then
    if memlimit <? SIZE_MAX then
      if lowmem then if rss <? memlimit then false else true
      else if memlimit <? rss then true else false
    else lowmem
  else lowmem.

(** ** The signal handler *)

Definition SIGINT : Z := 2.
Definition SIGTERM : Z := 15.

(** How [sigterm] leaves the process: it exits, perhaps after a snapshot, or
    returns with the number of requests for a shutdown. *)
Inductive signalled := Exited (saved : bool) (code : Z) | Returned (shutdownreq : Z).

Definition sigterm (sig : Z) (loaded : bool) (persist : bytes) (save : bool) (shutdownreq : Z) : signalled :=
  if (sig =? SIGINT) || (sig =? SIGTERM) then
    if negb loaded || bool_decide (persist = []) then Exited false 0
    else if negb (bool_decide (persist = [])) then if save then Exited true 0 else Exited false 1
    else if (0 <? shutdownreq) && (sig =? SIGINT) then Exited false 0
    else Returned (shutdownreq + 1)
  else Returned shutdownreq.

(** ** What the options of the program come to

    For every command line, [main] exits or starts a server with parameters in
    range, on an empty cache to which the theorems about the server apply. *)

(** Steps of [outcome]. *)
Lemma bind_go {A B} (m : outcome A) (f : A → outcome B) b : m ≫= f = Go b → ∃ a, m = Go a ∧ f a = Go b.
Proof. destruct m; try easy. eauto. Qed.

(** ** The two passes *)

(** The arguments alone tell how a pass ends; only the second pass writes. *)
Lemma pass_outcome args : ∀ g g',
  match pass true args g with
  | Go g1 => g1 = g ∧ ∃ g2, pass false args g' = Go g2
  | Exit c => (c = 0 ∨ c = 1) ∧ pass false args g' = Exit c
  | _ => False
  end.
Proof.
  induction args as [args IH] using (induction_ltof1 _ length). unfold ltof in IH. intros g g'.
  destruct args as [|arg args]; cbn [pass]; [eauto|].
  destruct (_ || _); [auto|]. destruct (find_option options arg) as [[o [|flag]]|]; [|apply IH; cbn; lia|auto].
  destruct args as [|flag args]; [auto|]. apply IH. cbn. lia.
Qed.

Lemma pass_app dryrun a b g g1 : pass dryrun a g = Go g1 → pass dryrun (a ++ b) g = pass dryrun b g1.
Proof.
  revert g. induction a as [a IH] using (induction_ltof1 _ length). unfold ltof in IH. intros g.
  destruct a as [|arg a]; [now intros [= <-]|]. rewrite <- app_comm_cons. cbn [pass].
  destruct (_ || _); [discriminate|]. destruct (find_option options arg) as [[o [|flag]]|]; [|intros E; apply (IH a); [cbn; lia|exact E]|discriminate].
  destruct a as [|flag a]; [discriminate|]. rewrite <- app_comm_cons. intros E. apply (IH a); [cbn; lia|exact E].
Qed.

(** An option with its value in the same argument. *)
Lemma find_attached (name : bytes) o (v : bytes) : (AFLAG name, o) ∈ options →
  find_option options (str "--" ++ name ++ str "=" ++ v) = Some (o, Attached v) ∧
  find_option options (str "--" ++ name) = Some (o, Following) ∧
  (∀ x, x ∈ [str "--help"; str "--version"] → str "--" ++ name ≠ x ∧ str "--" ++ name ++ str "=" ++ v ≠ x).
Proof.
  unfold options at 1. intros Hin. repeat (apply elem_of_cons in Hin as [Hin|Hin]; [try discriminate Hin; injection Hin as -> ->|]);
    [..|now apply not_elem_of_nil in Hin].
  all: split; [vm_compute; reflexivity|]; split; [vm_compute; reflexivity|].
  all: intros x Hx; repeat (apply elem_of_cons in Hx as [->|Hx]); [..|now apply not_elem_of_nil in Hx]; split; discriminate.
Qed.

Lemma pass_attached dryrun (name : bytes) o (v : bytes) (args : list bytes) g : (AFLAG name, o) ∈ options →
  pass dryrun ((str "--" ++ name ++ str "=" ++ v) :: args) g = pass dryrun ((str "--" ++ name) :: v :: args) g.
Proof.
  intros Hin. destruct (find_attached name o v Hin) as (E1 & E2 & Hne). cbn [pass]. rewrite E1, E2.
  destruct (Hne (str "--help")) as [H1 H2]; [left|]. destruct (Hne (str "--version")) as [H3 H4]; [right; left|].
  rewrite !bool_decide_eq_false_2 by assumption. reflexivity.
Qed.

(** [--name=value] is the same as [--name value]: after options that are complete, and
    whatever follows, the program sets the same variables or exits with the same
    code, for every option with a name. *)
Theorem attached_value (name v : bytes) (o : op) (before after : list bytes) (g : globals) :
  (AFLAG name, o) ∈ options → pass true before g = Go g →
  parse_flags (before ++ (str "--" ++ name ++ str "=" ++ v) :: after) g =
  parse_flags (before ++ (str "--" ++ name) :: v :: after) g.
Proof.
  intros Hin Hb. pose proof (pass_outcome before g g) as Hp. rewrite Hb in Hp. destruct Hp as [_ [g2 E]].
  unfold parse_flags. rewrite !(pass_app true before _ g g Hb), (pass_attached true name o v after g Hin).
  destruct (pass true ((str "--" ++ name) :: v :: after) g) as [| | |g1] eqn:E1; cbn [mbind outcome_bind]; try reflexivity.
  pose proof (pass_outcome ((str "--" ++ name) :: v :: after) g g) as Hp. rewrite E1 in Hp. destruct Hp as [-> _].
  rewrite !(pass_app false before _ g g2 E). apply (pass_attached false name o v after g2 Hin).
Qed.

Lemma attached_value_witness :
  parse_flags [str "-v"; str "--threads=4"; str "-M"] (initial 1 true) = parse_flags [str "-v"; str "--threads"; str "4"; str "-M"] (initial 1 true).
Proof.
  apply (attached_value (str "threads") (str "4") (Int nthreads) [str "-v"] [str "-M"] (initial 1 true)); [|reflexivity].
  apply list_elem_of_lookup. now exists 7%nat.
Defined.

(** ** The settings *)

(** How a computation of [main] may end: the codes of [exit] are 0 and 1, it
    aborts only under [X], is undefined only under [U], and goes on under [P]. *)
Definition ends {A} (X U : Prop) (P : A → Prop) (m : outcome A) : Prop :=
  match m with Exit c => c = 0 ∨ c = 1 | Abort => X | Undefined => U | Go a => P a end.

Lemma ends_bind {A B} X U (Q : A → Prop) (P : B → Prop) m f :
  ends X U Q m → (∀ a, Q a → ends X U P (f a)) → ends X U P (m ≫= f).
Proof. destruct m; cbn; auto. Qed.

Lemma ends_yes_no X U flag : ends X U (λ _, True) (yes_no flag).
Proof. unfold yes_no. repeat case_bool_decide; cbn; auto. Qed.

Lemma ends_parse X U args g : ends X U (λ g', parse_flags args g = Go g') (parse_flags args g).
Proof.
  unfold parse_flags. pose proof (pass_outcome args g g) as H. destruct (pass true args g); cbn; try easy.
  destruct H as [-> [g2 ->]]. easy.
Qed.

Lemma ends_tls X U b f : ends X U (λ _, True) (tls_init b f).
Proof. unfold tls_init. repeat case_if; cbn; auto. Qed.

Lemma ends_rlimit U y : ends (y_rlimit y = None ∨ y_setrlimit y = false) U (λ _, True) (setmaxrlimit y).
Proof. unfold setmaxrlimit. destruct (y_rlimit y), (y_setrlimit y); cbn; auto. Qed.

(** The parameters of the server. *)
Record in_range (w : settings) : Prop := {
  ir_threads : 1 <= ints (w_globals w) nthreads <= 4096;
  ir_shards : 1 <= ints (w_globals w) nshards <= 65536;
  ir_factor : MINLOADFACTOR_RH <= ints (w_globals w) loadfactor <= MAXLOADFACTOR_RH;
  ir_queue : PERF_MIN_QUEUESIZE <= ints (w_globals w) queuesize <= PERF_MAX_QUEUESIZE;
  ir_memlimit : w_memlimit w < 2 ^ 64;
  ir_net : Z.of_nat (no_nthreads (w_net w)) = ints (w_globals w) nthreads ∧ Z.of_nat (no_queuesize (w_net w)) = ints (w_globals w) queuesize
}.

Lemma ints_set x v g y : ints (set_int x v g) y = if decide (x = y) then v else ints g y.
Proof. cbn. unfold insert, fn_insert. reflexivity. Qed.

(** An assignment under a condition, and the variables it leaves. *)
Lemma ints_if (b : bool) x v g y : ints (if b then set_int x v g else g) y = if b && bool_decide (x = y) then v else ints g y.
Proof. destruct b; [|reflexivity]. rewrite ints_set. cbn [andb]. now case_decide; case_bool_decide. Qed.

Lemma ints_if2 (b c : bool) x v v' g y :
  ints (if b then set_int x v g else if c then set_int x v' g else g) y =
  if bool_decide (x = y) then if b then v else if c then v' else ints g y else ints g y.
Proof. destruct b, c; rewrite ?ints_set; case_bool_decide; try case_decide; easy. Qed.

Lemma calc_nshards_range n : 64 <= calc_nshards n <= 4096.
Proof. unfold calc_nshards. repeat case_if; lia. Qed.

Lemma limit_ints_range nprocs g : 1 <= nprocs <= 1024 →
  let g' := limit_ints nprocs g in
  1 <= ints g' nthreads <= 4096 ∧ 1 <= ints g' nshards <= 65536 ∧
  MINLOADFACTOR_RH <= ints g' loadfactor <= MAXLOADFACTOR_RH ∧ PERF_MIN_QUEUESIZE <= ints g' queuesize <= PERF_MAX_QUEUESIZE.
Proof.
  intros Hn. unfold limit_ints, if_zero. cbn zeta. rewrite !ints_if2, !ints_if, !ints_if2.
  repeat match goal with
  | |- context [bool_decide (?x = ?y)] =>
      rewrite (bool_decide_eq_true_2 (x = y) eq_refl) || rewrite (bool_decide_eq_false_2 (x = y)) by discriminate
  end.
  pose proof (calc_nshards_range (if ints g nthreads <=? 0 then nprocs else if 4096 <? ints g nthreads then 4096 else ints g nthreads)) as Hs.
  set (ns := calc_nshards _) in *. clearbody ns. rewrite !andb_true_r, !andb_false_r.
  unfold MINLOADFACTOR_RH, MAXLOADFACTOR_RH, PERF_MIN_QUEUESIZE, PERF_MAX_QUEUESIZE.
  repeat split; repeat case_if; zb; lia.
Qed.

Lemma limit_strs_ints g : ints (limit_strs g) = ints g.
Proof. unfold limit_strs. cbn zeta. destruct (maxmemorymb g); repeat case_if; reflexivity. Qed.

(** The text of the memory limit: the value of [-m] with the unit, or that of
    [--maxmemory] or its default. *)
Definition memory_text (g : globals) : bytes :=
  match maxmemorymb g with Some mb => mb ++ str "M" | None => strs g maxmemory end.

(** Only the options and [-m] set it. *)
Definition same_text (g g' : globals) : Prop := strs g' = strs g ∧ maxmemorymb g' = maxmemorymb g.

Lemma same_text_refl g : same_text g g.
Proof. now split. Qed.

Lemma same_text_int b x v g g' : same_text g g' → same_text g (if b : bool then set_int x v g' else g').
Proof. now destruct b. Qed.

Lemma tune_text b r g g' : tune b r g = Go g' → same_text g g'.
Proof.
  unfold tune, if_zero. destruct b; [destruct (perf_optimize_defaults r); [|discriminate]|];
    intros [= <-]; repeat apply same_text_int; apply same_text_refl.
Qed.

Lemma limit_ints_text n g : same_text g (limit_ints n g).
Proof.
  unfold limit_ints, if_zero. cbv zeta.
  repeat match goal with |- context [if ?b then _ else _] => destruct b end; now split.
Qed.

Lemma limit_strs_text g : strs (limit_strs g) maxmemory = memory_text g.
Proof. unfold limit_strs, memory_text. cbv zeta. destruct (maxmemorymb g); repeat case_if; reflexivity. Qed.

(** The memory can be read, and the processors, the memory and the limit of
    descriptors are as [usual]. *)
Definition usual_system (y : system) (memory : Z) : Prop :=
  y_memory y = Some memory ∧ usual (y_nprocs y) memory (y_rlimit y).

Lemma ends_tune X U b r g c : perf_optimize_defaults r = Some c → ends X U (same_text g) (tune b r g).
Proof.
  intros E. pose proof (tune_text b r g) as Ht. unfold tune in *. destruct b; [|cbn; now apply Ht].
  rewrite E in *. cbn in *. now apply Ht.
Qed.

Lemma validate_defined r c a b d n : perf_optimize_defaults r = Some c → cpu_cores r ≠ 0 → is_Some (perf_validate_config r a b d n).
Proof.
  intros E Hc. unfold perf_validate_config. rewrite E. apply Z.eqb_neq in Hc. unfold perf_validate_shards. rewrite Hc.
  repeat case_if; cbn; eauto; destruct (_ && _); cbn; eauto.
Qed.

Lemma memlimit_small m s n : calc_memlimit m s = Limit n → n < 2 ^ 64.
Proof.
  unfold calc_memlimit, sized, to_size, SIZE_MAX. destruct (bool_decide _); [intros [= <-]; lia|].
  destruct (strtod _) as [[mem l]|]; [|discriminate]. cbn zeta.
  repeat match goal with |- context [if ?b then _ else _] => destruct b eqn:?; zb end; try discriminate; intros [= <-]; assumption.
Qed.

Lemma main_ends args y memory : usual_system y memory →
  ends (y_rlimit y = None ∨ y_setrlimit y = false)
    (∃ g, parse_flags args (initial (y_seed y) (y_uring y)) = Go g ∧ calc_memlimit memory (memory_text g) = Unspecified)
    (λ w, in_range w ∧ w_sysmem w = memory ∧ ∃ cas, w_cache w = cache_opts (w_globals w) cas) (main args y).
Proof.
  intros [Em Hu]. pose proof (us_nprocs _ _ _ Hu) as Hn.
  destruct (tuned_spec _ _ _ Hu) as (c & _ & Ec & _). unfold main.
  eapply ends_bind; [apply ends_parse|]. intros g0 Eg0. do 6 (eapply ends_bind; [apply ends_yes_no|]; intros ? _).
  eapply ends_bind; [apply ends_yes_no|]. intros tuned _. unfold sys_memory. rewrite Em. cbn [mbind outcome_bind]. cbn zeta.
  eapply ends_bind; [now apply (ends_tune _ _ _ _ _ c)|]. intros g [Hg1 Hg2].
  destruct (validate_defined _ c (ints g backlog) (ints g queuesize) (ints g maxconns) (if 0 <? ints g nshards then ints g nshards else 4096) Ec)
    as [v ->]; [cbn; lia|]. cbn [computed mbind outcome_bind].
  do 3 (eapply ends_bind; [apply ends_yes_no|]; intros ? _).
  eapply ends_bind; [apply ends_tls|]. intros _ _. eapply ends_bind; [apply ends_rlimit|]. intros _ _.
  destruct (limit_ints_text (y_nprocs y) g) as [Hl1 Hl2].
  assert (Ht : strs (limit_strs (limit_ints (y_nprocs y) g)) maxmemory = memory_text g0).
  { rewrite limit_strs_text. unfold memory_text. now rewrite Hl1, Hl2, Hg1, Hg2. }
  set (g' := limit_strs (limit_ints (y_nprocs y) g)) in *.
  destruct (calc_memlimit memory (strs g' maxmemory)) as [n| |] eqn:El; cbn [ends]; [|right; reflexivity|exists g0; rewrite <- Ht; now split].
  destruct (limit_ints_range (y_nprocs y) g Hn) as (H1 & H2 & H3 & H4). rewrite <- (limit_strs_ints (limit_ints _ _)) in H1, H2, H3, H4. fold g' in H1, H2, H3, H4.
  assert (Ei : ints (if n =? SIZE_MAX then set_str evict (str "no") g' else g') = ints g') by (destruct (n =? SIZE_MAX); reflexivity).
  split; [|split; [reflexivity|eexists; reflexivity]].
  split; cbn [w_globals w_net no_nthreads no_queuesize w_memlimit]; rewrite ?Ei; [exact H1|exact H2|exact H3|exact H4|exact (memlimit_small _ _ _ El)|].
  split; apply Z2Nat.id; [lia|]. unfold PERF_MIN_QUEUESIZE in H4. lia.
Qed.

(** C17: Every command line is handled. Whatever the arguments, [main] exits with
    code 0 or 1 or starts a server whose threads, shards, load factor and queue
    size are within their bounds and agree with what the network is given. No
    computation of the tuning overflows: [main] is undefined only when the memory
    limit that these very arguments give, by [-m], [--maxmemory] or the default,
    is too large for [size_t], and it aborts only when the system refuses to tell
    or to raise the limit of descriptors. The system is one whose memory can be
    read, with 1 to 1024 processors, at most 16 TiB of memory and a limit of
    descriptors that fits an [int] or is infinite. *)
Theorem main_in_range args y memory : usual_system y memory →
  match main args y with
  | Exit c => c = 0 ∨ c = 1
  | Abort => y_rlimit y = None ∨ y_setrlimit y = false
  | Undefined => ∃ g, parse_flags args (initial (y_seed y) (y_uring y)) = Go g ∧
                   calc_memlimit memory (memory_text g) = Unspecified
  | Go w => in_range w
  end.
Proof. intros Hu. pose proof (main_ends args y memory Hu) as H. destruct (main args y); [exact H..|apply H]. Qed.

(** ** An example *)

Definition system8 : system := System 8 (Some (16 * 2 ^ 30)) (Some 1048576) true true 42 (TlsFiles true true true true).
Definition arguments8 : list bytes :=
  [str "--threads=4"; str "--shards"; str "2"; str "-m"; str "512"; str "--evict"; str "no"; str "--sixpack=no"; str "-vv"].
Definition settings8 : settings :=
  match main arguments8 system8 with
  | Go w => w
  | _ => Settings (initial 0 false) default_opts (NetOpts 0 0 false false false 0 false) false false 0 0 false false false false false false
  end.

Lemma system8_usual : usual_system system8 (16 * 2 ^ 30).
Proof. split; [reflexivity|]. split; [cbn; lia|lia|]. intros r [= <-]. lia. Qed.

Lemma settings8_go : main arguments8 system8 = Go settings8.
Proof.
  unfold settings8. destruct (main arguments8 system8) as [c| | |w] eqn:E; [..|reflexivity]; exfalso;
    [assert (Hno : match main arguments8 system8 with Exit _ => false | _ => true end = true) by (vm_compute; reflexivity)
    |assert (Hno : match main arguments8 system8 with Abort => false | _ => true end = true) by (vm_compute; reflexivity)
    |assert (Hno : match main arguments8 system8 with Undefined => false | _ => true end = true) by (vm_compute; reflexivity)];
    rewrite E in Hno; discriminate.
Qed.

(** The arguments above start the server; a limit of [1e30] is undefined, a bad
    certificate exits. *)
Lemma main_in_range_witness :
  in_range settings8 ∧ w_memlimit settings8 = 512 * 2 ^ 20 ∧ o_nshards (w_cache settings8) = 2 ∧
  (∃ g, parse_flags [str "--maxmemory=1e30"] (initial 42 true) = Go g ∧ calc_memlimit (16 * 2 ^ 30) (memory_text g) = Unspecified) ∧
  main [str "--tlsport=9402"] (System 8 (Some (16 * 2 ^ 30)) None true true 42 (TlsFiles true false true true)) = Exit 1.
Proof.
  split; [|split; [vm_compute; reflexivity|split; [vm_compute; reflexivity|split; [|vm_compute; reflexivity]]]].
  - pose proof (main_in_range arguments8 system8 _ system8_usual) as H. rewrite settings8_go in H. exact H.
  - pose proof (main_in_range [str "--maxmemory=1e30"] system8 _ system8_usual) as H.
    assert (Hno : match main [str "--maxmemory=1e30"] system8 with Undefined => true | _ => false end = true) by (vm_compute; reflexivity).
    destruct (main _ system8); try discriminate. exact H.
Defined.

(** ** The start of the server *)

(** New shards were never cleared. *)
Lemma new_loop_cleartime `{Env} ctx todo : ∀ done w shs w',
  new_loop ctx todo done w = Some (Some shs, w') → Forall (λ sh, s_cleartime sh = 0) done → Forall (λ sh, s_cleartime sh = 0) shs.
Proof.
  induction todo as [|todo IH]; intros done w shs w'; cbn [new_loop]; [now intros [= <- <-]|].
  unfold shard_init. destruct (map_init ctx w 0 0 INITCAP) as [[ok m] w1]. destruct ok; cbn [negb].
  - intros E Hd. apply (IH _ _ _ _ E). apply Forall_app. split; [exact Hd|]. now repeat constructor.
  - destruct (free_loop _ w1); [|discriminate]. cbn [mbind option_bind]. discriminate.
Qed.

Lemma pogocache_new_cleartime `{Env} opts w c w' :
  pogocache_new opts w = Some (Some c, w') → Forall (λ sh, s_cleartime sh = 0) (c_shards c).
Proof.
  unfold pogocache_new. destruct (do_malloc _ _) as [[p|] w1]; [|discriminate].
  destruct (new_loop _ _ [] w1) as [[[shs|] w2]|] eqn:E; cbn [mbind option_bind]; try discriminate.
  intros [= <- _]. cbn [c_shards]. now apply (new_loop_cleartime _ _ _ _ _ _ E).
Qed.

(** The low memory mode stays off while the memory is within the limit. *)
Lemma tick_off loaded memlimit rs : Forall (λ rss, rss <= memlimit) rs →
  fold_left (λ low rss, tick loaded memlimit rss low) rs false = false.
Proof.
  intros Hr. induction Hr as [|rss rs Hle _ IH]; [reflexivity|]. cbn [fold_left].
  assert (tick loaded memlimit rss false = false) as ->; [|exact IH]. unfold tick. rewrite (proj2 (Z.ltb_ge memlimit rss) Hle).
  repeat case_if; reflexivity.
Qed.


Definition cache8 : cache_t := match pogocache_new (w_cache settings8) w0 with Some (Some c, _) => c | _ => Cache ctx0 [] [] end.
Definition world8 : world := match pogocache_new (w_cache settings8) w0 with Some (_, w) => w | _ => w0 end.

Lemma cache8_new : pogocache_new (w_cache settings8) w0 = Some (Some cache8, world8).
Proof.
  unfold cache8, world8. destruct (pogocache_new_spec (w_cache settings8) w0) as [_ Hex]; [vm_compute; reflexivity|].
  destruct Hex as (c & w' & E); [|now rewrite E]. intros t n. apply env0_never_fails. cbn [w_heap w0]. rewrite map_size_empty. lia.
Qed.


(** Eviction and the compression of keys cannot be turned off. Whatever [--evict],
    [-M] and [--sixpack] say, the cache is created with both on: [main] reads the
    options into variables that nothing uses. *)
Theorem evict_option_ignored `{Env} (args : list bytes) (y : system) (w : settings) (wd wd' : world) (c : cache_t) :
  main args y = Go w → pogocache_new (w_cache w) wd = Some (Some c, wd') →
  noevict (c_ctx c) = false ∧ nosixpack (c_ctx c) = false.
Proof.
  intros Em. assert (Hw : ∃ g cas, w_cache w = cache_opts g cas).
  { revert Em. unfold main. intros Em. repeat (apply bind_go in Em as (? & _ & Em)). cbn zeta in Em.
    destruct (calc_memlimit _ _); try discriminate. injection Em as <-. do 2 eexists. reflexivity. }
  destruct Hw as (g & cas & ->). unfold pogocache_new. destruct (do_malloc _ _) as [[p|] w1]; [|discriminate].
  destruct (new_loop _ _ [] w1) as [[[shs|] w2]|]; cbn [mbind option_bind]; try discriminate. intros [= <- _]. split; reflexivity.
Qed.

Lemma evict_option_ignored_witness :
  w_useevict settings8 = false ∧ w_usesixpack settings8 = false ∧ noevict (c_ctx cache8) = false ∧ nosixpack (c_ctx cache8) = false.
Proof.
  split; [vm_compute; reflexivity|]. split; [vm_compute; reflexivity|].
  exact (evict_option_ignored arguments8 system8 settings8 w0 world8 cache8 settings8_go cache8_new).
Defined.

(** ** The signal handler *)

(** A signal to terminate always ends the process, so that the code which counts
    the requests and forces the exit at the second one is never reached, and the
    data is saved exactly when it was loaded and there is a file. *)
Theorem sigterm_exits sig loaded (path : bytes) save n :
  sig = SIGINT ∨ sig = SIGTERM →
  sigterm sig loaded path save n =
    if loaded && negb (bool_decide (path = [])) then Exited save (if save then 0 else 1) else Exited false 0.
Proof.
  intros Hs. unfold sigterm. assert ((sig =? SIGINT) || (sig =? SIGTERM) = true) as -> by (destruct Hs as [->| ->]; reflexivity).
  destruct loaded; cbn; [|reflexivity]. destruct (bool_decide (path = [])); cbn; [reflexivity|]. now destruct save.
Qed.
