(* ===== verification/Sys.v ===== *)
(** * Sys: processors, memory, identifiers, allocations and work files

    [src/src/sys.c], the counting of [src/src/xmalloc.c], and [cleanwork] of
    [src/src/save.c] with [listening] of [src/src/main.c]. What the kernel says is
    an argument: the mask of processors, the text of [/proc/meminfo], the numbers
    of [/dev/urandom], the entries of a directory. *)

From S2P Require Import Prelude Util Snapshot Tuning Main.

(** ** Processors *)

(** [sys_nprocs] with its cached result, the number of configured processors and
    the mask of [sched_getaffinity], which has [CPU_SETSIZE] bits. *)
Definition CPU_SETSIZE : nat := 1024.

Definition sys_nprocs (nprocsa conf : Z) (mask : option (list bool)) : Z * Z :=
  if 0 <? nprocsa then (nprocsa, nprocsa)
  else
    let logical := if conf <? 1 then 1 else conf in
    let physical := logical in
    match mask with
    | None => (1, nprocsa)
    | Some mask =>
        let affinity := Z.of_nat (length (filter (λ b, b = true) (take CPU_SETSIZE mask))) in
        let hyper := (logical + physical - 1) / physical in
        let hyper := if hyper <? 1 then 1 else hyper in
        let nprocs := Z.quot affinity hyper in
        let nprocs := if nprocs <? 1 then 1 else nprocs in
        (nprocs, nprocs)
    end.

(** ** Memory *)

(** [strstr]. *)
Fixpoint strstr (s needle : bytes) : option bytes :=
  if bool_decide (needle `prefix_of` s) then Some s
  else match s with [] => None | _ :: s => strstr s needle end.

(** The text up to the first occurrence of another. *)
Fixpoint before (s needle : bytes) : bytes :=
  if bool_decide (needle `prefix_of` s) then []
  else match s with [] => [] | c :: s => c :: before s needle end.

(** [sys_memory] with the text of the file, if it could be opened. [None] is the
    failed assertion or the overflow, a memory of zero ends the program. *)
Definition meminfo (file : option bytes) : option Z :=
  match file with
  | None => Some 0
  | Some buf =>
      let s := strstr (c_str (take 4095 buf)) (str "MemTotal") in
      let s := s ← s; strstr s (str ": ") in
      match s with
      | None => Some 0
      | Some s =>
          match strstr s [10] with
          | None => Some 0
          | Some _ =>
              let s := skip_space (drop 2 (before s [10])) in
              let s := before s (str " kB") in
              let '(isysmem, range, _) := strtoll s in
              if negb range && (0 <? isysmem) && (isysmem * 1024 <? 2 ^ 63) then Some (isysmem * 1024) else None
          end
      end
  end.

Definition sys_memory_of (file : option bytes) : option Z :=
  m ← meminfo file; if m =? 0 then None else Some m.

(** ** Seeds and identifiers *)

Definition NSEEDCAP : nat := 64.

(** [sys_seed]: the seeds left, and [fread] of a group of new ones. *)
Definition sys_seed (seeds : list Z) (fresh : list Z) : option (Z * list Z) :=
  let seeds := if (length seeds =? 0)%nat then if (length fresh =? NSEEDCAP)%nat then fresh else [] else seeds in
  match reverse seeds with [] => None | x :: seeds => Some (x, reverse seeds) end.

Definition chs : bytes := str "abcdefghijklmnopqrstuvwxyzABCDEFGHIJKLMNOPQRSTUVWXYZ0123456789".

(** [sys_genuseid] of two seeds. *)
Definition sys_genuseid (a b : Z) : bytes :=
  (λ x, nth (Z.to_nat (x mod 62)) chs 0) <$> (le_put 8 a ++ le_put 8 b).

(** [sys_threadid]: the shared counter and the variable of the thread. *)
Definition sys_threadid (next id : Z) : Z * Z * Z :=
  if id =? 0 then (next, u64 (next + 1), next) else (id, next, id).

(** ** Allocations *)

(** The heap of the process, [nallocs] and [usetrackallocs]. *)
Record alloc := Alloc { al_live : gset Z; al_count : Z; al_track : bool }.

Definition xallocs (a : alloc) : Z := if al_track a then u64 (al_count a) else 0.

(** The pointer [malloc] returned is an argument; null aborts. *)
Definition xmalloc (ptr : Z) (a : alloc) : option (Z * alloc) :=
  if ptr =? 0 then None
  else Some (ptr, Alloc ({[ptr]} ∪ al_live a) (if al_track a then i64 (al_count a + 1) else al_count a) (al_track a)).

(** [realloc] of [old] returned [ptr]. *)
Definition xrealloc (old ptr : Z) (a : alloc) : option (Z * alloc) :=
  if old =? 0 then xmalloc ptr a
  else if ptr =? 0 then None
  else if bool_decide (old ∈ al_live a) then Some (ptr, Alloc ({[ptr]} ∪ (al_live a ∖ {[old]})) (al_count a) (al_track a))
  else None.

(** [free] of what was not allocated is undefined. *)
Definition xfree (ptr : Z) (a : alloc) : option alloc :=
  if ptr =? 0 then Some a
  else if bool_decide (ptr ∈ al_live a) then
    Some (Alloc (al_live a ∖ {[ptr]}) (if al_track a then i64 (al_count a - 1) else al_count a) (al_track a))
  else None.

(** ** Work files *)

Definition work_ext : bytes := str ".pogocache.work".

(** [strlen(name) < strlen(ext) || strcmp(name+strlen(name)-strlen(ext), ext)]. *)
Definition is_work (name : bytes) : bool :=
  negb (length name <? length work_ext)%nat && bool_decide (drop (length name - length work_ext) name = work_ext).

(** The loop of [cleanwork]: entries with whether they are regular files, and
    whether [unlink] succeeds; the entries that are left. *)
Fixpoint clean_loop (unlink : bytes → bool) (entries : list (bytes * bool)) : list (bytes * bool) :=
  match entries with
  | [] => []
  | (name, regular) :: entries =>
      if negb regular || negb (is_work name) then (name, regular) :: clean_loop unlink entries
      else if unlink name then clean_loop unlink entries
      else (name, regular) :: clean_loop unlink entries
  end.

(** [cleanwork], with the directory of the path when it can be opened. *)
Definition cleanwork (unlink : bytes → bool) (persist : bytes) (dir : option (list (bytes * bool)))
    : bool * option (list (bytes * bool)) :=
  if bool_decide (persist = []) then (false, dir)
  else match dir with None => (false, None) | Some entries => (true, Some (clean_loop unlink entries)) end.

(** [listening] with the file [base] of a directory: it exits, or goes on after it
    loaded the snapshot or found none. *)
Inductive listened := Ends (code : Z) | Loaded (from : bool) (entries : list (bytes * bool)).

Definition listening (unlink : bytes → bool) (load : bool) (base : bytes) (dir : option (list (bytes * bool))) : listened :=
  if bool_decide (base = []) then Loaded false (default [] dir)
  else
    let '(ok, dir) := cleanwork unlink base dir in
    if negb ok then Ends 0
    else
      let entries := default [] dir in
      if bool_decide (base ∈ entries.*1) then if load then Loaded true entries else Ends 1
      else Loaded false entries.

(** ** The system of [main] *)

Lemma sys_nprocs_range nprocsa conf mask : nprocsa <= 1024 →
  1 <= (sys_nprocs nprocsa conf mask).1 <= 1024 ∧ (sys_nprocs nprocsa conf mask).2 <= 1024.
Proof.
  intros Hc. unfold sys_nprocs. destruct (0 <? nprocsa) eqn:E; zb; cbn [fst snd]; [lia|]. destruct mask as [mask|]; cbn [fst snd]; [|lia].
  set (a := length (filter _ _)). assert (Ha : (a <= 1024)%nat).
  { unfold a. etransitivity; [apply length_filter|]. rewrite length_take. unfold CPU_SETSIZE. lia. }
  set (l := if conf <? 1 then 1 else conf). assert (Hl : 1 <= l) by (unfold l; destruct (conf <? 1) eqn:El; zb; lia).
  assert (E1 : (l + l - 1) / l = 1) by (symmetry; apply Z.div_unique with (l - 1); lia). rewrite E1. cbn [Z.ltb Z.compare Pos.compare Pos.compare_cont].
  rewrite Z.quot_1_r. cbn zeta. destruct (Z.of_nat a <? 1) eqn:E2; zb; cbn [fst snd]; lia.
Qed.

Lemma strstr_prefix s t : strstr (s ++ t) s = Some (s ++ t).
Proof. destruct (s ++ t) eqn:E; cbn [strstr]; rewrite bool_decide_eq_true_2; try reflexivity; rewrite <- E; now apply prefix_app_r. Qed.

Lemma strstr_skip s t c needle :
  Forall (λ x, x ≠ c) s → strstr (s ++ c :: t) (c :: needle) = strstr (c :: t) (c :: needle).
Proof.
  induction 1 as [|x s Hx _ IH]; [reflexivity|]. cbn [app strstr]. rewrite bool_decide_eq_false_2; [exact IH|].
  intros [k Hk]. cbn in Hk. congruence.
Qed.

Lemma before_skip s t c needle : Forall (λ x, x ≠ c) s → before (s ++ c :: t) (c :: needle) = s ++ before (c :: t) (c :: needle).
Proof.
  induction 1 as [|x s Hx _ IH]; [reflexivity|]. cbn [app before]. rewrite bool_decide_eq_false_2; [now rewrite IH|].
  intros [k Hk]. cbn in Hk. congruence.
Qed.

Lemma before_prefix needle t : before (needle ++ t) needle = [].
Proof. destruct (needle ++ t) eqn:E; cbn [before]; rewrite bool_decide_eq_true_2; try reflexivity; rewrite <- E; now apply prefix_app_r. Qed.

Lemma c_str_app a b : Forall (λ x, x ≠ 0) a → c_str (a ++ b) = a ++ c_str b.
Proof. induction 1 as [|x a Hx _ IH]; [reflexivity|]. cbn. apply Z.eqb_neq in Hx. now rewrite Hx, IH. Qed.

(** The first line of [/proc/meminfo], in kilobytes. *)
Definition memtotal_line (spaces : nat) (n : Z) : bytes := str "MemTotal:" ++ repeat 32 (S spaces) ++ u64toa n ++ str " kB" ++ [10].

Lemma meminfo_line spaces n rest : 0 < n < 2 ^ 53 → (spaces < 4000)%nat → sys_memory_of (Some (memtotal_line spaces n ++ rest)) = Some (n * 1024).
Proof.
  intros Hn Hsp. destruct (u64toa_spec n) as (ds & E & Hne & Hlen & Hd & Hval); [unfold is_u64; lia|]. apply Forall_rev in Hd as Hr.
  assert (Hdig : ∀ c, Forall (λ x, isdigit x = true) (rev ds) → (c < 48 ∨ 57 < c) → Forall (λ x, x ≠ c) (rev ds)).
  { intros c Hf Hc. eapply Forall_impl; [exact Hf|]. intros x Hx%isdigit_true. lia. }
  assert (Hrep : ∀ c k, c ≠ 32 → Forall (λ x, x ≠ c) (repeat 32 k)).
  { intros c k Hc. induction k; cbn; constructor; [lia|assumption]. }
  pose (tail := repeat 32 spaces ++ rev ds ++ str " kB"). pose (line := str "MemTotal" ++ 58 :: 32 :: tail).
  assert (El : memtotal_line spaces n = line ++ [10]).
  { unfold memtotal_line, line, tail. rewrite E. change (str "MemTotal:") with (str "MemTotal" ++ [58]). rewrite <- !app_assoc. cbn [repeat app].
    rewrite <- !app_assoc. reflexivity. }
  assert (Hno : ∀ c, c = 0 ∨ c = 10 → Forall (λ x, x ≠ c) tail).
  { intros c Hc. unfold tail. apply Forall_app. split; [apply Hrep; lia|]. apply Forall_app. split; [apply Hdig; [exact Hr|lia]|].
    destruct Hc as [->| ->]; repeat constructor; discriminate. }
  assert (Ebuf : c_str (take 4095 (memtotal_line spaces n ++ rest)) = line ++ 10 :: c_str (take (4095 - length (line ++ [10])) rest)).
  { rewrite El, take_app, take_ge, c_str_app; [now rewrite <- app_assoc| |].
    - apply Forall_app. split; [|repeat constructor; discriminate]. unfold line. apply Forall_app. split; [repeat constructor; discriminate|].
      do 2 (constructor; [discriminate|]). apply Hno. now left.
    - unfold line, tail. rewrite !length_app. cbn [length]. rewrite !length_app, repeat_length, length_rev. cbn. lia. }
  unfold sys_memory_of, meminfo. rewrite Ebuf. clear Ebuf El. set (rest' := c_str _). unfold line. rewrite <- app_assoc, strstr_prefix. cbn [mbind option_bind app].
  change (str "MemTotal" ++ 58 :: 32 :: tail ++ 10 :: rest') with (str "MemTotal" ++ 58 :: (32 :: tail ++ 10 :: rest')).
  change (str ": ") with (58 :: [32]). rewrite strstr_skip by (repeat constructor; discriminate).
  change (58 :: 32 :: tail ++ 10 :: rest') with ([58; 32] ++ (tail ++ 10 :: rest')). rewrite strstr_prefix. change ([58; 32] ++ tail ++ 10 :: rest') with ((58 :: 32 :: tail) ++ 10 :: rest').
  assert (H10 : Forall (λ x, x ≠ 10) (58 :: 32 :: tail)) by (do 2 (constructor; [discriminate|]); apply Hno; now right).
  rewrite strstr_skip, before_skip by exact H10. change (10 :: rest') with ([10] ++ rest'). rewrite strstr_prefix, before_prefix, app_nil_r. change (drop 2 (58 :: 32 :: tail)) with tail.
  assert (Eskip : skip_space tail = rev ds ++ 32 :: str "kB").
  { unfold tail. clear -Hr Hne. induction spaces as [|k IH]; [|exact IH]. cbn [repeat app]. destruct (rev ds) as [|c l] eqn:Er.
    - apply (f_equal (@rev Z)) in Er. rewrite rev_involutive in Er. now subst.
    - apply Forall_cons in Hr as [Hc%isdigit_true _]. cbn [app skip_space]. replace (isspace c) with false; [reflexivity|].
      symmetry. unfold isspace. rewrite orb_false_iff, andb_false_iff, Z.eqb_neq, !Z.leb_gt. lia. }
  rewrite Eskip. change (str " kB") with (32 :: str "kB"). rewrite before_skip by (apply Hdig; [exact Hr|lia]).
  change (before (32 :: str "kB") (32 :: str "kB")) with (@nil Z). rewrite app_nil_r.
  destruct (scan_number_digits false ds Hne Hd) as [Hs Hc]. cbn [app] in Hs, Hc. unfold strtoll. rewrite Hc, Hs, Hval. cbv beta iota zeta.
  unfold INT64_MIN, INT64_MAX. rewrite (proj2 (Z.ltb_ge n _)), (proj2 (Z.ltb_ge _ n)) by lia. cbn [negb andb].
  rewrite (proj2 (Z.ltb_lt 0 n)), (proj2 (Z.ltb_lt (n * 1024) _)) by lia. cbn [mbind option_bind andb]. now rewrite (proj2 (Z.eqb_neq _ 0)) by lia.
Qed.

(** What [main] needs of the system holds. With the mask of processors the kernel
    gives, or none, and with the first line of [/proc/meminfo] of a system with
    less than 16 TiB, the processors and the memory are in the range in which
    [main] and the tuning are defined. *)
Theorem system_in_range conf mask spaces n rest rlim raised uring seed tls :
  0 < n <= 2 ^ 34 → (spaces < 4000)%nat → (0 <= rlim < 2 ^ 31 ∨ rlim = 2 ^ 64 - 1) →
  usual_system (System (sys_nprocs 0 conf mask).1 (sys_memory_of (Some (memtotal_line spaces n ++ rest))) (Some rlim) raised uring seed tls) (n * 1024).
Proof.
  intros Hn Hs Hr. split; [cbn; apply meminfo_line; [lia|exact Hs]|].
  split; [|lia|intros r [= <-]; exact Hr]. apply (sys_nprocs_range 0 conf mask). lia.
Qed.

Lemma system_in_range_witness :
  usual_system (System 2 (Some (16384 * 1024)) (Some 1024) true false 7 (TlsFiles true true true true)) (16384 * 1024).
Proof.
  exact (system_in_range 8 (Some [true; false; true]) 7 16384 (str "MemFree: 1 kB" ++ [10]) 1024 true false 7 (TlsFiles true true true true) ltac:(lia) ltac:(lia) ltac:(lia)).
Defined.

(** ** Identifiers *)

Definition alnum (c : Z) : Prop := 48 <= c <= 57 ∨ 65 <= c <= 90 ∨ 97 <= c <= 122.

(** The identifier of a run: sixteen letters and digits, for all seeds. *)
Theorem useid_alnum a b : length (sys_genuseid a b) = 16%nat ∧ Forall alnum (sys_genuseid a b).
Proof.
  assert (Hch : Forall alnum chs).
  { apply Forall_forall. intros c Hc. assert (Hb : forallb (λ c, ((48 <=? c) && (c <=? 57)) || ((65 <=? c) && (c <=? 90)) || ((97 <=? c) && (c <=? 122))) chs = true)
      by (vm_compute; reflexivity).
    rewrite forallb_forall in Hb. specialize (Hb c (proj1 (list_elem_of_In _ _) Hc)). unfold alnum. lia. }
  split; [reflexivity|].
  apply Forall_fmap, Forall_true. intros x. unfold compose. rewrite Forall_forall in Hch. apply Hch, list_elem_of_In, nth_In.
  assert (0 <= x mod 62 < 62) by (apply Z.mod_pos_bound; lia). change (length chs) with 62%nat. lia.
Qed.

(** The thread that takes the first identifier takes another one the next time:
    zero also means that there is none yet. *)
Theorem threadid_changes : ∃ id1 id2 next var, sys_threadid 0 0 = (id1, next, var) ∧ (sys_threadid next var).1.1 = id2 ∧ id1 ≠ id2.
Proof. exists 0, 1, 1, 0. repeat split; vm_compute; congruence. Qed.

(** ** The count of allocations *)

(** A call of the allocator, with what [malloc] or [realloc] returned: never the
    address of another live block. *)
Inductive alloc_step : alloc → alloc → Prop :=
  | step_malloc ptr p a a' : ptr ∉ al_live a → xmalloc ptr a = Some (p, a') → alloc_step a a'
  | step_realloc old ptr p a a' : ptr ∉ al_live a ∨ ptr = old → xrealloc old ptr a = Some (p, a') → alloc_step a a'
  | step_free ptr a a' : xfree ptr a = Some a' → alloc_step a a'.

Definition counted (a : alloc) : Prop :=
  (0 ∉ al_live a) ∧ (if al_track a then al_count a = i64 (Z.of_nat (size (al_live a))) else al_count a = 0).

Lemma i64_add x d : i64 (i64 x + d) = i64 (x + d).
Proof.
  unfold i64 at 2. replace ((x + 2 ^ 63) mod 2 ^ 64 - 2 ^ 63 + d) with ((x + 2 ^ 63) mod 2 ^ 64 + (d - 2 ^ 63)) by ring.
  unfold i64. f_equal. replace ((x + 2 ^ 63) mod 2 ^ 64 + (d - 2 ^ 63) + 2 ^ 63) with ((x + 2 ^ 63) mod 2 ^ 64 + d) by ring.
  rewrite Zplus_mod_idemp_l. f_equal. ring.
Qed.

Lemma counted_malloc ptr p a a' : counted a → ptr ∉ al_live a → xmalloc ptr a = Some (p, a') → counted a'.
Proof.
  intros [H0 Hc] Hf. unfold xmalloc. destruct (ptr =? 0) eqn:E; zb; [discriminate|]. intros [= <- <-]. split; cbn; [set_solver|].
  destruct (al_track a); [|exact Hc]. rewrite Hc, i64_add, size_union, size_singleton by set_solver. f_equal. lia.
Qed.

(** The allocations are counted exactly. Through every sequence of calls of
    [xmalloc], [xrealloc] and [xfree] of the process, with tracking on,
    [xallocs] is the number of live blocks modulo [2^64], and zero with tracking
    off; null is never a live block. *)
Theorem allocs_counted a a' : counted a → rtc alloc_step a a' →
  al_track a' = al_track a ∧ (0 ∉ al_live a') ∧ xallocs a' = (if al_track a' then u64 (Z.of_nat (size (al_live a'))) else 0).
Proof.
  intros Ha Hr. assert (G : counted a' ∧ al_track a' = al_track a).
  { induction Hr as [a|a a1 a' Hs _ IH]; [easy|]. assert (H1 : counted a1 ∧ al_track a1 = al_track a); [|destruct H1 as [H1 <-]; exact (IH H1)].
    destruct Hs as [ptr p a a1 Hf E|old ptr p a a1 Hf E|ptr a a1 E].
    - split; [exact (counted_malloc _ _ _ _ Ha Hf E)|]. unfold xmalloc in E. destruct (ptr =? 0); [discriminate|]. now injection E as <- <-.
    - revert E. unfold xrealloc. destruct (old =? 0) eqn:Eo; zb.
      + subst old. intros E. assert (Hf' : ptr ∉ al_live a) by (destruct Hf as [?| ->]; [assumption|apply Ha]).
        split; [exact (counted_malloc _ _ _ _ Ha Hf' E)|]. unfold xmalloc in E. destruct (ptr =? 0); [discriminate|]. now injection E as <- <-.
      + destruct (ptr =? 0) eqn:Ep; zb; [discriminate|]. case_bool_decide as Hin; [|discriminate]. intros [= <- <-]. split; [|reflexivity].
        destruct Ha as [H0 Hc]. split; cbn; [set_solver|]. destruct (al_track a); [|exact Hc]. rewrite Hc. do 2 f_equal.
        rewrite size_union, size_singleton by (destruct Hf; set_solver). rewrite size_difference, size_singleton by set_solver.
        assert (size (al_live a) ≠ 0%nat) by (intros Hz%size_empty_inv; set_solver). lia.
    - revert E. unfold xfree. destruct (ptr =? 0); [intros [= <-]; easy|]. case_bool_decide as Hin; [|discriminate]. intros [= <-]. split; [|reflexivity].
      destruct Ha as [H0 Hc]. split; cbn; [set_solver|]. destruct (al_track a); [|exact Hc]. unfold Z.sub. rewrite Hc, i64_add.
      rewrite size_difference, size_singleton by set_solver. assert (size (al_live a) ≠ 0%nat) by (intros Hz%size_empty_inv; set_solver). f_equal. lia. }
  destruct G as [[H0 Hc] Ht]. split; [exact Ht|]. split; [exact H0|]. unfold xallocs. destruct (al_track a'); [|reflexivity]. now rewrite Hc, u64_i64.
Qed.

Lemma allocs_counted_witness : ∃ a, rtc alloc_step (Alloc ∅ 0 true) a ∧ xallocs a = 1 ∧ al_live a = {[24]}.
Proof.
  exists (Alloc {[24]} 1 true). assert (Hr : rtc alloc_step (Alloc ∅ 0 true) (Alloc {[24]} 1 true)).
  { eapply rtc_l; [apply (step_malloc 8 8); [set_solver|vm_compute; reflexivity]|].
    eapply rtc_l; [apply (step_malloc 16 16); [vm_compute; set_solver|vm_compute; reflexivity]|].
    eapply rtc_l; [apply (step_realloc 8 24 24); [left; vm_compute; set_solver|vm_compute; reflexivity]|].
    eapply rtc_l; [apply (step_free 16); vm_compute; reflexivity|]. replace {[24]} with (al_live (Alloc {[24]} 1 true)) by reflexivity. apply rtc_refl. }
  split; [exact Hr|]. split; [|reflexivity].
  assert (Ha : counted (Alloc ∅ 0 true)) by (split; [cbn; set_solver|reflexivity]).
  destruct (allocs_counted _ _ Ha Hr) as (_ & _ & E). rewrite E. vm_compute. reflexivity.
Defined.

(** ** Work files *)

Lemma is_work_spec name : is_work name = true ↔ ∃ base, name = base ++ work_ext.
Proof.
  unfold is_work. rewrite andb_true_iff, negb_true_iff, Nat.ltb_ge, bool_decide_eq_true. split.
  - intros [Hl E]. exists (take (length name - length work_ext) name). rewrite <- E at 2. now rewrite take_drop.
  - intros [base ->]. rewrite length_app. split; [lia|]. now rewrite drop_app_length' by lia.
Qed.

(** What [cleanwork] leaves: all but the regular files with the extension that
    [unlink] removes. *)
Lemma clean_loop_filter unlink entries :
  clean_loop unlink entries = filter (λ e : bytes * bool, e.2 = false ∨ is_work e.1 = false ∨ unlink e.1 = false) entries.
Proof.
  induction entries as [|[name regular] entries IH]; [reflexivity|]. cbn [clean_loop]. rewrite IH.
  destruct (decide (regular = false ∨ is_work name = false ∨ unlink name = false)) as [Hk|Hk].
  - rewrite filter_cons_True by exact Hk. destruct regular, (is_work name), (unlink name); try reflexivity. destruct Hk as [?|[?|?]]; discriminate.
  - rewrite filter_cons_False by exact Hk. destruct regular, (is_work name), (unlink name); try reflexivity; destruct Hk; auto.
Qed.



(** A snapshot that is named like a work file is deleted at the start, before it
    would be loaded, and the server starts without the data. *)
Theorem snapshot_deleted (base : bytes) entries load :
  is_work base = true → (∀ e, e ∈ entries → e.1 = base → e.2 = true) →
  ∃ entries', listening (λ _, true) load base (Some entries) = Loaded false entries' ∧ base ∉ entries'.*1.
Proof.
  intros Hb Hreg. assert (Hne : base ≠ []) by (intros ->; discriminate). unfold listening, cleanwork. rewrite !bool_decide_eq_false_2 by exact Hne. cbn [negb default].
  rewrite clean_loop_filter. set (left := filter _ entries). assert (Hout : base ∉ left.*1).
  { rewrite list_elem_of_fmap. intros ([x y] & -> & [Hf He]%list_elem_of_filter). cbn [fst snd] in *. specialize (Hreg _ He eq_refl). cbn in Hreg.
    destruct Hf as [?|[?|?]]; congruence. }
  rewrite bool_decide_eq_false_2 by exact Hout. eauto.
Qed.

Lemma snapshot_deleted_witness :
  ∃ entries', listening (λ _, true) true (str "db.pogocache.work") (Some [(str "db.pogocache.work", true)]) = Loaded false entries' ∧
    str "db.pogocache.work" ∉ entries'.*1.
Proof.
  apply snapshot_deleted; [vm_compute; reflexivity|]. intros e He _. apply list_elem_of_singleton in He. now subst e.
Defined.
